(* ===== verification/_CoqProject ===== *)
-Q . S2P
Prelude.v
Externalapi.v
UtxoDiff.v
UtxoStore.v
ScriptNum.v
ScriptStack.v
OpcodeTable.v
Script.v
Hashing.v
SigCache.v
Opcode.v
OpcodeSafety.v
Engine.v
EngineSafety.v
SigSpec.v
CacheTransparency.v
Spend.v
Interval.v
ReachabilityData.v
Reachability.v
Reindex.v
ReachabilityTree.v
ReachabilityAdd.v
ReindexTree.v
ReindexPropagate.v
ReindexAdd.v
Difficulty.v
DagTopology.v
Block.v
Merkle.v
Ghostdag.v
GhostdagOrder.v
GhostdagColour.v
Heap.v
Window.v
DifficultyManager.v
Traversal.v
HeaderValidation.v
HeaderSafety.v
TransactionValidator.v
TransactionSafety.v
PastUtxo.v
UtxoAcceptance.v
PastUtxoSpec.v
Coinbase.v
BlockBody.v
VerifyUtxo.v
Supply.v
ResolveStatus.v
UtxoDiffChain.v
ResolveSpec.v
VirtualBlock.v
VirtualSpec.v
VirtualParents.v
VirtualSelect.v
VirtualProps.v
Stores.v
ConsensusStores.v
ChainStore.v
PruningStore.v
UtxoSync.v
UtxoSyncSpec.v
UtxoSerialization.v
StoreProps.v
PruningManager.v
PruningSpec.v
PruningDelete.v
PruningProps.v
SyncManager.v
SyncSpec.v
SyncLocator.v
HeaderTips.v
SyncProps.v
Bech32.v
StandardScripts.v
Signing.v
AddressProps.v
Mempool.v
MempoolSpec.v
MempoolProps.v
