(* ===== verification/Prelude.v ===== *)
(** * Verification of the consensus core of kaspad

    The program is a full node of the Kaspa block DAG.  This development models
    the part of it that decides which blocks form the DAG, how they are ordered,
    and what their transactions do to the ledger:

    - the UTXO set and its diffs (src/domain/consensus/utils/utxo): which
      outputs exist, how a transaction changes them, how the changes of two
      branches of the DAG are composed and reverted;
    - the transaction data model (model/externalapi/transaction.go), and the
      hashes taken of a transaction (utils/consensushashing, utils/hashes,
      utils/serialization): its id, and what a signature commits to;
    - the script engine (utils/txscript): parsing of scripts, the stacks, the
      opcodes, signature checks with their cache, and the execution of a
      signature script and a public key script against each other;
    - reachability (processes/reachabilitymanager): the tree of intervals and the
      future covering sets that answer "is this block an ancestor of that one";
    - GHOSTDAG (processes/ghostdagmanager) over the DAG topology
      (processes/dagtopologymanager): selected parents, merge sets and their colours;
    - walks and windows (processes/dagtraversalmanager), difficulty
      (processes/difficultymanager), median time, finality and merge depth, and
      with them the validation of headers (processes/blockvalidator);
    - transaction validation (processes/transactionvalidator) and the acceptance of
      merge sets (processes/consensusstatemanager): the past UTXO of a block,
      its verification, and the resolution of the virtual block;
    - block bodies and the coinbase (processes/blockvalidator,
      processes/coinbasemanager, utils/merkle);
    - the stores (datastructures/), pruning (processes/pruningmanager) and what a
      node offers to one that synchronizes (processes/syncmanager,
      processes/headersselectedtipmanager, flows/blockrelay);
    - addresses (util/address.go, util/bech32), the script builder, the standard
      scripts and signing (utils/txscript), with which a wallet makes outputs
      and spends them.

    The node calls these bottom-up.  A header is checked and joins the DAG by
    [SetParents], [GHOSTDAG] and [AddBlock] ([validateHeader]).  The transactions of
    a block's merge set are validated by [NewEngine] and [Execute] against the
    entries they spend, their effect is [AddTransaction]ed to a mutable diff, and the
    diffs of blocks are combined by [WithDiff], [DiffFrom] and [Reversed] to move
    between DAG tips: the virtual block, which merges the tips, is resolved by
    verifying the blocks of its selected chain.  Where it has moved far enough the
    pruning point follows, and what lies below is deleted; a new node gets the
    headers, then the UTXO set of the pruning point, then the bodies above it.

    ** Files

    Shared:
    - Prelude.v: Go integers with their wrap-around ([GoInt]), byte strings,
      little-endian words ([LE]), the state-error monad [prog] with its [wp]
      calculus, slices and indexing with Go's panics.
    - Externalapi.v: transactions, outputs, UTXO entries (transaction.go,
      utxo_entry.go) with their [Equal] and [Clone].

    UTXO diffs:
    - UtxoDiff.v: collections, diff_algebra.go, and [AddTransaction] of
      mutable_utxo_diff.go, as functions on finite maps.
    - UtxoStore.v: mutable and immutable diffs as Go has them, pointers to
      shared maps in a [heap], with [ToImmutable]'s references, invalidation and
      every method of mutable_utxo_diff.go and immutable_utxo_diff.go; a client
      is a step relation over these methods.

    Scripts:
    - ScriptNum.v: error codes, script numbers (scriptnum.go).
    - ScriptStack.v: the stack of byte strings (stack.go).
    - OpcodeTable.v: opcode constants and [opcodeArray] (opcode.go), entry by
      entry, with one constructor of [handler] per handler function.
    - Script.v: parsing and unparsing, predicates on parsed scripts, signature
      operation counts (script.go and the parsedOpcode methods of opcode.go).
    - Hashing.v: serialization for hashing, transaction hash and id, the
      signature hash with its reused sub-hashes.
    - SigCache.v: the signature caches (sigcache.go, sigcache_ecdsa.go).
    - Opcode.v: the state of the engine and every opcode handler (opcode.go).
    - OpcodeSafety.v: the invariant of the engine's state and its preservation
      by every handler.
    - Engine.v: engine.go: [executeOpcode], [Step], [Execute], [NewEngine] and
      the stack accessors.
    - EngineSafety.v: the step invariant, the measure, and totality.
    - SigSpec.v: what OP_CHECKSIG and OP_CHECKMULTISIG decide.
    - CacheTransparency.v: caches and reused hashes do not change a verdict, by a
      simulation between engines that differ in them.
    - Spend.v: a pay-to-public-key output from [NewEngine] to the verdict.

    Reachability:
    - Interval.v: interval.go, with its float64 arithmetic.
    - ReachabilityData.v, Reachability.v: the data and the queries (tree.go,
      ordered_tree_node_set.go, future_covering_set.go, reachability.go).
    - Reindex.v: reindex_context.go, [addChild], [updateReindexRoot], [AddBlock].
    - ReachabilityTree.v, ReachabilityAdd.v, ReindexTree.v, ReindexPropagate.v,
      ReindexAdd.v: the invariant, queries, and additions with and without
      reindexing.

    The DAG:
    - Difficulty.v: compact targets and work (util/difficulty).
    - DagTopology.v: the topology manager and the interface it implements.
    - Block.v: headers, blocks and their hash.
    - Ghostdag.v, GhostdagOrder.v, GhostdagColour.v: the algorithm, the order and
      the merge set, the colouring.
    - Heap.v, Window.v: container/heap and block windows.
    - DifficultyManager.v: required difficulty, DAA scores, median time.
    - Traversal.v: chain walks, anticones, finality points, merge depth.
    - HeaderValidation.v, HeaderSafety.v: header validation and what it keeps.

    The ledger:
    - TransactionValidator.v, TransactionSafety.v: the transaction validator and
      what it decides.
    - PastUtxo.v, UtxoAcceptance.v, PastUtxoSpec.v: acceptance of a merge set,
      multisets, restoring past UTXO sets, and what they do to the UTXO set.
    - Merkle.v, Coinbase.v, BlockBody.v: merkle roots, the coinbase manager with the
      codec of its payload, and the validation of block bodies.
    - VerifyUtxo.v, Supply.v: the verification of a block against its past UTXO,
      and what it does to the supply of coins.
    - ResolveStatus.v, UtxoDiffChain.v, ResolveSpec.v: the resolution of block
      statuses along the selected chain, the chains of UTXO diffs and their
      reversal.
    - VirtualBlock.v, VirtualSpec.v, VirtualParents.v, VirtualSelect.v,
      VirtualProps.v: the parents of the virtual block, its selected tip, its UTXO
      set and tips.

    Stores:
    - Stores.v, ConsensusStores.v: staging areas, LRU caches and the database
      under a store ([StagedStore], [Cell]), the stores of datastructures/ as
      instances, and the consensus state store.
    - ChainStore.v: the store of the headers' selected chain.
    - PruningStore.v, UtxoSync.v, UtxoSyncSpec.v: the pruning store and the
      transfer of the pruning point's UTXO set between two nodes
      (flows/blockrelay), as a step relation with a lossless channel.
    - UtxoSerialization.v: UTXO entries and outpoints as bytes, iterators.
    - StoreProps.v: what readers of the stores see.

    Pruning and synchronization:
    - PruningManager.v: pruningmanager.go; PruningSpec.v (choice of the pruning
      point, and its UTXO set), PruningDelete.v (deletion of its past),
      PruningProps.v.
    - SyncManager.v: syncmanager/, headersselectedtipmanager.go and the calls of
      consensus.go for them; SyncSpec.v (blocks between two blocks, missing
      bodies), SyncLocator.v (locators), HeaderTips.v (the headers' selected tip
      and its chain), SyncProps.v (with a DAG built by [validateHeader] for the
      witnesses).

    Addresses and wallets' scripts:
    - Bech32.v: util/bech32 and util/address.go, with the regrouping of bits, the
      checksum as a linear map, and strings.
    - StandardScripts.v: scriptbuilder.go and standard.go, with what the engine
      does with pushes, and the scripts of addresses.
    - Signing.v: sign.go, over keys of go-secp256k1 that are an argument
      ([SigningKeys]); AddressProps.v.

    Mempool:
    - Mempool.v: domain/miningmanager/mempool: the main pool with its UTXO set and
      its list by fee rate, the orphan pool, the policy, and the calls that
      components make; transactions are shared through a heap of pointers.  The
      validation by the consensus, the clock and the order in which Go ranges over
      a map are arguments.
    - MempoolSpec.v: fee rates and [sort.Search], the invariants of the two pools
      ([pool_rep], [orphan_rep]) and what each operation does to them.
    - MempoolProps.v: the contract of the consensus ([ConsensusOk]), the steps of a
      mempool ([pool_step]), a consensus that meets the contract for the witnesses,
      and inputs on which the code does something else than its comments say.

    ** Correspondence

    A Go method with a receiver it mutates is a [prog]: it takes the receiver's
    state and returns it with [Ret], [Fail] (a returned error) or [Crash] (a
    panic: index out of range, nil dereference, explicit panic).  The state is
    returned on every path, as Go keeps the mutations made before an error.  A
    Go integer is a [Z] and every operation that may wrap is written with its
    width.  A slice of bytes is a list of [Z]; the theorems ask for bytes
    ([are_bytes]) where the code gets them by typing.  Maps are [gmap]s; outside
    the files on stores a store is the map a reader sees through the staging area,
    the cache and the database, which the theorems on stores justify, and a missing
    key is [ErrNotFound].  A nil pointer is [None].  The two signature
    schemes and their caches are the same code twice in Go; here they are one
    definition over a [scheme] record, instantiated twice.

    Code outside the repository is a class: [Hashes] (SHA-256, BLAKE2b),
    [SigAlgorithm] and [SigningKeys] (go-secp256k1), [MapOrder] (Go's choice in a map range),
    [MuHash] (go-muhash).  A protobuf message has a [codec] as a parameter, whose
    decoder inverts its encoder on what is [codable]; the order of a map range in
    the stores is a function that [enumerates] the map, the order of a database
    cursor a permutation of its entries.  The laws of the classes ([HashesOk]: digests are 32 bytes;
    [SigAlgorithmOk]: IsEqual is equality; [MapOrderOk]: a range yields a key of
    the map; [MuHashOk]: additions and removals commute and cancel;
    [SigningKeysOk]: what a key signs verifies for its public key) are
    hypotheses of the theorems, and [toy_libs] and [toy_muhash] are instances,
    used by the witnesses.  The interface between GHOSTDAG and the topology
    manager is the class [DAGTopologyManager] with its contract [TopologyOk], which
    the reachability theorems discharge.

    ** Theorems

    - UTXO diffs: [withDiff] is composition and [diffFrom] is the change between
      two results, on the sets the diffs act on; they are inverse on canonical
      diffs; [withDiff] fails exactly on conflicts; [AddTransaction] spends and
      creates; reversing undoes.
    - Shared diffs: an immutable reference shows the same value until it is
      invalidated, whatever is done to the diff it came from, and [Reversed] is
      the exception.
    - Script numbers and scripts: decoding inverts encoding, in both directions,
      on every byte string; parsing is total.
    - Hashing: serialization is injective; reused hashes are transparent; a
      signature hash binds everything its type does not leave open, up to hash
      collisions; headers likewise.
    - Engine: every handler preserves the invariant; every state reached is
      within the limits; execution is total and a nil result has its meaning;
      signature opcodes decide their specification; caches are transparent; a
      pay-to-public-key output is spent exactly by a valid signature.
    - Reachability: queries on an indexed tree decide tree ancestry, [AddBlock]
      keeps the index, reindexing included, and [IsDAGAncestorOf] then decides
      ancestry in the DAG.
    - GHOSTDAG: the blue blocks are a k-cluster with the recorded anticone sizes,
      the merge set is exact, blue work grows along the DAG.
    - Windows and difficulty: a window holds the greatest blocks of a past; the
      required difficulty and the median time are what they are named for.
    - Headers: an accepted header leaves relations, GHOSTDAG data, reachability
      and headers that describe one DAG.
    - Transactions: validation in isolation and in context decide their rules,
      without wrap-around and panics, and compute the exact fee.
    - Acceptance: restoring composes the stored diffs; accepting a merge set never
      fails, spends no entry twice, conserves value, and the diff and the multiset
      describe the resulting UTXO set.
    - Blocks: the checks of a body decide their rules; a verified block's coinbase,
      multiset and acceptance data are those of its past; the supply grows by the
      subsidies and by nothing else.
    - Resolution: the statuses that are resolved are those of a verification from
      the last valid block up; reversing a chain of diffs keeps every past UTXO
      set; the virtual block's UTXO set is that of its past, and the choice of its
      parents ends with allowed ones.
    - Stores: a store with its staging area, cache and database is the map its
      readers see, across commits and restarts; the chain store is a list; an
      interrupted update of the pruning point's UTXO set is completed by running it
      again; serialization round trips.
    - Transfer: a receiver only ends with the sender's UTXO set or without one, and
      a transfer that is not disturbed ends.
    - Pruning: the chosen pruning point is one that [IsValidPruningPoint] accepts;
      the deletion takes exactly the past; a pending update ends with the UTXO set
      that the header commits to.
    - Synchronization: the hashes between two blocks are exact and topologically
      sorted; a node asks for exactly the bodies it misses; the headers' chain
      store has the selected chain of the greatest header; locators have their
      shape, return their errors, and the one that takes hashes of a peer need not
      return at all.
    - Addresses: strings round trip, errors of up to eight characters in a row are
      detected; standard scripts are exactly the scripts of addresses; what the
      builder pushes is what the engine pushes; what [SignTxOutput] returns for the
      key of an output spends it.
    - Mempool: whatever is submitted and mined, no two transactions of the pool
      spend the same outpoint, its indices agree and its list by fee rate is
      sorted; exactly the transactions that the rules allow are accepted, and a full
      pool drops one of the lowest rate with what depends on it; conflicts
      of a block are removed with exactly their dependents, and what depended only
      on mined transactions becomes ready to be mined.

    The invariants assume what the code assumes of the network: the block
    hashes and transaction ids that occur do not collide, timestamps and scores are
    below 2^62, k is below 255, and the parents that a header lists are distinct
    (the code does not check this; see [duplicate_parents_counted_twice]).  The
    virtual block has GHOSTDAG data and relations under its fixed name and is not
    a node of the reachability tree.  The theorems on the virtual block ask that
    the parents of blocks with bodies have bodies, those on missing bodies ask it
    above the pruning point.  [headers_selected_chain] takes the headers from one
    DAG that has them all; GHOSTDAG data and tree parents of a block do not change.
    The theorems on the mempool ask the consensus of [ConsensusOk]: it does not
    panic, changes nothing of a transaction but the entries, fee and mass, and what
    it accepts has distinct inputs, all entries and a positive mass; ids are ranked,
    since a transaction cannot spend its own descendants; and no transaction of a
    block is chained in the pool ([block_ok]).

    ** Fuel

    [executeLoop] has 20,530 steps: the opcodes of two scripts of at most 10,000
    bytes and one of at most 520, with room; [Execute_total] proves that
    they suffice.  [appendBytes] has eight rounds for a 64-bit value, the parse
    loop one per byte, the multisig loop one per key and one.  Walks over the
    reachability tree have [walkFuel], one more than the store has nodes; the merge
    set has [mergeFuel] (parents and blocks of the store) and the colouring
    [chainFuel]; chain walks [chainWalkFuel], the anticone [anticoneFuel], the walk
    to a relative lock's base and the collection of diffs one more than the
    store's size, iterators over a selected chain ([chooseFuel]) one more than the
    tree has nodes, the walk over two chains of diffs twice the number of diffs, the
    deletion of a past [anticoneFuel] and one, the locator of the headers' chain 66
    rounds of a step that doubles, regrouping nine rounds for the bits of a byte,
    the removal of dependents from the mempool one more than the pool has
    transactions, the removal of orphans with their redeemers two more than there
    are orphans, the processing of orphans one more.
    [createBlockLocator] and [mergeScripts] take their fuel as an argument, since
    they may not end.  Each other one is proved to be enough by the theorem on the
    function that uses it, [Anticone] and the finality walk excepted, whose results no theorem
    here describes.

    ** Not modelled

    Printing and disassembly, logging, the error messages, locks and the
    concurrency of caches and flows; the generated protobuf code and
    most conversions to and from its messages (database/serialization); the block
    processor that calls the components for one block
    (processes/blockprocessor), whose commit of all staging areas is
    one database transaction; block templates, whose selection of transactions
    is random and ends with probability one only; the other flows, the network, the RPC
    layer, the wallet and the command line. *)

From Stdlib Require Export ZArith Lia.
From stdpp Require Export base strings numbers gmap list.
Export stdpp.list_basics.list stdpp.list_relations.list stdpp.list_monad.list stdpp.list_misc.list.
#[export] Set Default Proof Using "Type".

(** ** Go's fixed-width integers

    A Go integer of width [w] is a [Z]; a conversion or an arithmetic result
    that the language truncates is written with the function of its type. *)
Module GoInt.
Local Open Scope Z_scope.

Definition uwrap (w z : Z) : Z := z mod 2 ^ w.
Definition swrap (w z : Z) : Z := (z + 2 ^ (w - 1)) mod 2 ^ w - 2 ^ (w - 1).

Definition uint8 : Z → Z := uwrap 8.
Definition uint16 : Z → Z := uwrap 16.
Definition uint32 : Z → Z := uwrap 32.
Definition uint64 : Z → Z := uwrap 64.
Definition int32 : Z → Z := swrap 32.
Definition int64 : Z → Z := swrap 64.

Definition max_int32 : Z := 2 ^ 31 - 1.
Definition min_int32 : Z := - 2 ^ 31.

Definition in_uint (w z : Z) : Prop := 0 ≤ z < 2 ^ w.
Definition in_sint (w z : Z) : Prop := - 2 ^ (w - 1) ≤ z < 2 ^ (w - 1).

Lemma uwrap_id w z : in_uint w z → uwrap w z = z.
Proof. unfold in_uint, uwrap. intros. by apply Z.mod_small. Qed.

Lemma uwrap_range w z : 0 ≤ w → in_uint w (uwrap w z).
Proof.
  intros. unfold in_uint, uwrap. apply Z.mod_pos_bound.
  by apply Z.pow_pos_nonneg.
Qed.

Lemma swrap_id w z : 0 < w → in_sint w z → swrap w z = z.
Proof.
  unfold in_sint, swrap. intros Hw Hz.
  assert (2 ^ w = 2 * 2 ^ (w - 1)) as E.
  { rewrite <- Z.pow_succ_r by lia. f_equal. lia. }
  rewrite Z.mod_small; lia.
Qed.

Lemma swrap_range w z : 0 < w → in_sint w (swrap w z).
Proof.
  unfold in_sint, swrap. intros Hw.
  assert (2 ^ w = 2 * 2 ^ (w - 1)) as E.
  { rewrite <- Z.pow_succ_r by lia. f_equal. lia. }
  pose proof (Z.mod_pos_bound (z + 2 ^ (w - 1)) (2 ^ w)).
  assert (0 < 2 ^ (w - 1)) by (apply Z.pow_pos_nonneg; lia). lia.
Qed.

Lemma int32_id z : - 2147483648 ≤ z < 2147483648 → int32 z = z.
Proof. intros. apply swrap_id; [lia|]. unfold in_sint. simpl. lia. Qed.

Lemma int64_id z : - 2 ^ 63 ≤ z < 2 ^ 63 → int64 z = z.
Proof. intros. apply swrap_id; [lia|]. unfold in_sint. simpl in *. lia. Qed.

Lemma uint8_id z : 0 ≤ z < 256 → uint8 z = z.
Proof. intros. apply uwrap_id. unfold in_uint. simpl. lia. Qed.

Lemma uint64_id z : 0 ≤ z < 2 ^ 64 → uint64 z = z.
Proof. intros. by apply uwrap_id. Qed.
End GoInt.

(** ** Bytes

    A [[]byte] is a [list Z] whose elements lie in [0, 256). *)
Definition is_byte (b : Z) : Prop := (0 ≤ b < 256)%Z.
Definition are_bytes (bs : list Z) : Prop := Forall is_byte bs.

#[export] Instance is_byte_dec b : Decision (is_byte b).
Proof. unfold is_byte. apply _. Defined.
#[export] Instance are_bytes_dec bs : Decision (are_bytes bs).
Proof. unfold are_bytes. apply _. Defined.

Definition zlen {A} (l : list A) : Z := Z.of_nat (length l).

Lemma zlen_nonneg {A} (l : list A) : (0 ≤ zlen l)%Z.
Proof. unfold zlen. lia. Qed.
Lemma zlen_nil {A} : zlen (@nil A) = 0%Z.
Proof. done. Qed.
Lemma zlen_cons {A} (x : A) l : zlen (x :: l) = (zlen l + 1)%Z.
Proof. unfold zlen. simpl. lia. Qed.
Lemma zlen_app {A} (l k : list A) : zlen (l ++ k) = (zlen l + zlen k)%Z.
Proof. unfold zlen. rewrite length_app. lia. Qed.
Lemma zlen_take {A} n (l : list A) : zlen (take n l) = Z.min (Z.of_nat n) (zlen l).
Proof. unfold zlen. rewrite length_take. lia. Qed.
Lemma zlen_drop {A} n (l : list A) : zlen (drop n l) = Z.max 0 (zlen l - Z.of_nat n).
Proof. unfold zlen. rewrite length_drop. lia. Qed.
Lemma zlen_zero {A} (l : list A) : zlen l = 0%Z → l = [].
Proof. unfold zlen. destruct l; simpl; [done|lia]. Qed.

Create Rewrite HintDb zlen.
#[export] Hint Rewrite @zlen_nil @zlen_cons @zlen_app @zlen_take @zlen_drop : zlen.

Ltac zlen_norm := autorewrite with zlen in *.
Ltac zlia := zlen_norm; repeat match goal with
  | l : list ?A |- _ => lazymatch goal with
      | _ : (0 ≤ zlen l)%Z |- _ => fail
      | _ => pose proof (zlen_nonneg l)
      end
  end; lia.

Lemma are_bytes_nil : are_bytes [].
Proof. constructor. Qed.
Lemma are_bytes_app l k : are_bytes (l ++ k) ↔ are_bytes l ∧ are_bytes k.
Proof. apply Forall_app. Qed.
Lemma are_bytes_cons b l : are_bytes (b :: l) ↔ is_byte b ∧ are_bytes l.
Proof. apply Forall_cons_iff. Qed.
Lemma are_bytes_snoc l b : are_bytes (l ++ [b]) ↔ are_bytes l ∧ is_byte b.
Proof. rewrite are_bytes_app, are_bytes_cons. pose proof are_bytes_nil. tauto. Qed.
Lemma are_bytes_take n l : are_bytes l → are_bytes (take n l).
Proof. apply Forall_take. Qed.
Lemma are_bytes_drop n l : are_bytes l → are_bytes (drop n l).
Proof. apply Forall_drop. Qed.

Create HintDb bytes.
#[export] Hint Resolve are_bytes_nil are_bytes_take are_bytes_drop : bytes.

(** ** Little-endian words *)
Module LE.
Local Open Scope Z_scope.

Fixpoint of_bytes (bs : list Z) : Z :=
  match bs with
  | [] => 0
  | b :: bs => b + 256 * of_bytes bs
  end.

(** [put n z] is the little-endian encoding of [z] on [n] bytes
    (binary.LittleEndian.PutUint16, PutUint32, PutUint64). *)
Fixpoint put (n : nat) (z : Z) : list Z :=
  match n with
  | O => []
  | S n => z mod 256 :: put n (z / 256)
  end.

Lemma put_length n z : length (put n z) = n.
Proof. revert z. induction n; simpl; auto. Qed.

Lemma put_bytes n z : are_bytes (put n z).
Proof.
  revert z. induction n; simpl; intros; [constructor|].
  apply are_bytes_cons. split; [|done]. unfold is_byte.
  by apply Z.mod_pos_bound.
Qed.

Lemma of_bytes_bound bs : are_bytes bs → 0 ≤ of_bytes bs < 256 ^ zlen bs.
Proof.
  induction bs as [|b bs IH]; intros H; [done|].
  apply are_bytes_cons in H as [Hb H]. specialize (IH H).
  rewrite zlen_cons. simpl. unfold is_byte in Hb.
  rewrite Z.pow_add_r by (pose proof (zlen_nonneg bs); lia). lia.
Qed.

Lemma of_bytes_put n z : 0 ≤ z < 256 ^ Z.of_nat n → of_bytes (put n z) = z.
Proof.
  revert z. induction n as [|n IH]; intros z Hz; [simpl in *; lia|].
  cbn [put of_bytes]. rewrite IH.
  - pose proof (Z.div_mod z 256). lia.
  - rewrite Nat2Z.inj_succ, Z.pow_succ_r in Hz by lia. split.
    + apply Z.div_pos; lia.
    + apply Z.div_lt_upper_bound; lia.
Qed.

Lemma put_of_bytes bs : are_bytes bs → put (length bs) (of_bytes bs) = bs.
Proof.
  induction bs as [|b bs IH]; intros H; [done|].
  apply are_bytes_cons in H as [Hb H]. cbn [length put of_bytes].
  unfold is_byte in Hb.
  replace ((b + 256 * of_bytes bs) mod 256) with b.
  2:{ rewrite (Z.mul_comm 256), Z.mod_add by lia. by rewrite Z.mod_small. }
  replace ((b + 256 * of_bytes bs) / 256) with (of_bytes bs).
  2:{ rewrite (Z.mul_comm 256), Z.div_add by lia. rewrite (Z.div_small b); lia. }
  by rewrite IH.
Qed.

Lemma of_bytes_app l k : of_bytes (l ++ k) = of_bytes l + 256 ^ zlen l * of_bytes k.
Proof.
  induction l as [|b l IH]; [cbn [app of_bytes]; change (zlen (@nil Z)) with 0; lia|].
  rewrite zlen_cons. cbn [app of_bytes]. rewrite IH.
  rewrite Z.pow_add_r by (pose proof (zlen_nonneg l); lia). lia.
Qed.
End LE.

(** ** Effects

    A Go method that mutates its receiver and may return an [error] or panic
    is a state-passing function.  The state is returned on every path, since
    the receiver keeps the mutations made before an error. *)
Inductive crash :=
  | IndexOutOfRange
  | NilDereference
  | ExplicitPanic
  | OutOfFuel.

Inductive outcome (E A : Type) :=
  | Ret (a : A)
  | Fail (e : E)
  | Crash (c : crash).
Arguments Ret {E A} a.
Arguments Fail {E A} & e.
Arguments Crash {E A} c.

Definition prog (S E A : Type) : Type := S → S * outcome E A.

Section Prog.
Context {S E : Type}.

Definition ret {A} (a : A) : prog S E A := λ s, (s, Ret a).
Definition fail {A} (e : E) : prog S E A := λ s, (s, Fail e).
Definition crash_with {A} (c : crash) : prog S E A := λ s, (s, Crash c).

Definition bind {A B} (m : prog S E A) (k : A → prog S E B) : prog S E B :=
  λ s, match m s with
       | (s', Ret a) => k a s'
       | (s', Fail e) => (s', Fail e)
       | (s', Crash c) => (s', Crash c)
       end.

Definition get : prog S E S := λ s, (s, Ret s).
Definition gets {A} (f : S → A) : prog S E A := λ s, (s, Ret (f s)).
Definition modify (f : S → S) : prog S E unit := λ s, (f s, Ret ()).

Definition lift_outcome {A} (o : outcome E A) : prog S E A := λ s, (s, o).

(** Run an effect on a component of the state. *)
Definition zoom {T A} (view : S → T) (put : T → S → S) (m : prog T E A) : prog S E A :=
  λ s, let '(t, o) := m (view s) in (put t s, o).

(** [for ; n > 0; n--] around a body that ignores the counter. *)
Fixpoint repeatM (n : nat) (m : prog S E unit) : prog S E unit :=
  match n with
  | O => ret ()
  | Datatypes.S n => bind m (λ _, repeatM n m)
  end.

(** Collect [n] results, in the order they are produced. *)
Fixpoint collectM {A} (n : nat) (m : prog S E A) : prog S E (list A) :=
  match n with
  | O => ret []
  | Datatypes.S n => bind m (λ x, bind (collectM n m) (λ xs, ret (x :: xs)))
  end.
End Prog.

(** Sequencing of [outcome]s, for code that has no receiver to mutate. *)
Definition obind {E A B} (o : outcome E A) (k : A → outcome E B) : outcome E B :=
  match o with
  | Ret a => k a
  | Fail e => Fail e
  | Crash c => Crash c
  end.

(** The error type of an operation is known from its context. *)
Arguments fail {S E A} & e _.
Arguments bind {S E A B} & m k _.
Arguments obind {E A B} & o k.
#[global] Arguments pair {A B} & a b.

Declare Scope prog_scope.
Delimit Scope prog_scope with prog.
Notation "'let*' x := m 'in' k" := (bind m (λ x, k))
  (at level 10, x name, m at level 100, k at level 200) : prog_scope.
Notation "m ';;*' k" := (bind m (λ _, k))
  (at level 199, k at level 200, right associativity) : prog_scope.
Notation "'let?' x := m 'in' k" := (obind m (λ x, k))
  (at level 10, x name, m at level 100, k at level 200) : prog_scope.
Notation "'let?' ' p := m 'in' k" := (obind m (λ x, match x with p => k end))
  (at level 10, p pattern, m at level 100, k at level 200) : prog_scope.

(** ** Weakest preconditions

    [wp m Q QE s]: run from [s], the program does not crash, its normal
    results satisfy [Q] and its errors satisfy [QE]. *)
Section Wp.
Context {S E : Type}.

Definition wp {A} (m : prog S E A) (Q : A → S → Prop) (QE : E → S → Prop) (s : S) : Prop :=
  match m s with
  | (s', Ret a) => Q a s'
  | (s', Fail e) => QE e s'
  | (_, Crash _) => False
  end.

Lemma wp_ret {A} (a : A) (Q : A → S → Prop) QE s : Q a s → wp (ret a) Q QE s.
Proof. done. Qed.

Lemma wp_fail {A} e (Q : A → S → Prop) (QE : E → S → Prop) s : QE e s → wp (fail e) Q QE s.
Proof. done. Qed.

Lemma wp_bind {A B} (m : prog S E A) (k : A → prog S E B) Q QE s :
  wp m (λ a s', wp (k a) Q QE s') QE s → wp (bind m k) Q QE s.
Proof. unfold wp, bind. by destruct (m s) as [s' []]. Qed.

Lemma wp_get (Q : S → S → Prop) QE s : Q s s → wp get Q QE s.
Proof. done. Qed.

Lemma wp_gets {A} (f : S → A) (Q : A → S → Prop) QE s : Q (f s) s → wp (gets f) Q QE s.
Proof. done. Qed.

Lemma wp_modify f (Q : unit → S → Prop) QE s : Q () (f s) → wp (modify f) Q QE s.
Proof. done. Qed.

Lemma wp_mono {A} (m : prog S E A) (Q Q' : A → S → Prop) (QE QE' : E → S → Prop) s :
  wp m Q QE s → (∀ a s', Q a s' → Q' a s') → (∀ e s', QE e s' → QE' e s') →
  wp m Q' QE' s.
Proof. unfold wp. destruct (m s) as [s' []]; auto. Qed.

Lemma wp_zoom {T A} (view : S → T) (put : T → S → S) (m : prog T E A) Q QE s :
  match m (view s) with
  | (t, Ret a) => Q a (put t s)
  | (t, Fail e) => QE e (put t s)
  | (_, Crash _) => False
  end → wp (zoom view put m) Q QE s.
Proof. unfold wp, zoom. by destruct (m (view s)) as [t []]. Qed.
End Wp.

(** One result of a program, as an equation: the inversion of [bind]. *)
Lemma bind_ret_inv {S E A B} (m : prog S E A) (k : A → prog S E B) s s2 b :
  bind m k s = (s2, Ret b) → ∃ s1 a, m s = (s1, Ret a) ∧ k a s1 = (s2, Ret b).
Proof. unfold bind. destruct (m s) as [s1 []]; naive_solver. Qed.

Lemma bind_assoc {S E A B C} (m : prog S E A) (k : A → prog S E B) (h : B → prog S E C) s :
  bind (bind m k) h s = bind m (λ a, bind (k a) h) s.
Proof. unfold bind. by destruct (m s) as [s1 []]. Qed.

Lemma bind_ret_l {S E A B} (m : prog S E A) (k : A → prog S E B) s s' a :
  m s = (s', Ret a) → bind m k s = k a s'.
Proof. intros H. unfold bind. by rewrite H. Qed.

Lemma bind_ret {S E A B} (a : A) (k : A → prog S E B) s : bind (ret a) k s = k a s.
Proof. done. Qed.

Lemma bind_fail_l {S E A B} (m : prog S E A) (k : A → prog S E B) s s' e :
  m s = (s', Fail e) → bind m k s = (s', Fail e).
Proof. intros H. unfold bind. by rewrite H. Qed.

(** ** Slices

    [index l i] is the Go expression [l[i]] and [slice l i j] is [l[i:j]]:
    both panic when their bounds are wrong.  (Go lets [j] go up to the capacity
    of the slice; the callers modelled here never pass their length.) *)
Definition index {E A} (l : list A) (i : Z) : outcome E A :=
  if decide (0 ≤ i)%Z then
    match l !! Z.to_nat i with
    | Some x => Ret x
    | None => Crash IndexOutOfRange
    end
  else Crash IndexOutOfRange.

Definition slice {E A} (l : list A) (i j : Z) : outcome E (list A) :=
  if decide (0 ≤ i ≤ j ∧ j ≤ zlen l)%Z
  then Ret (take (Z.to_nat (j - i)) (drop (Z.to_nat i) l))
  else Crash IndexOutOfRange.

Lemma index_middle {E A} (l k : list A) x i :
  i = zlen l → @index E A (l ++ x :: k) i = Ret x.
Proof.
  intros ->. unfold index. rewrite decide_True by apply zlen_nonneg.
  unfold zlen. rewrite Nat2Z.id. by rewrite list_lookup_middle.
Qed.

Lemma index_last {E A} (l : list A) x :
  @index E A (l ++ [x]) (zlen (l ++ [x]) - 1) = Ret x.
Proof. apply index_middle. zlia. Qed.

Lemma index_in_range {E A} (l : list A) i :
  (0 ≤ i < zlen l)%Z → ∃ x, @index E A l i = Ret x ∧ l !! Z.to_nat i = Some x.
Proof.
  unfold index, zlen. intros. rewrite decide_True by lia.
  destruct (lookup_lt_is_Some_2 l (Z.to_nat i)) as [x Hx]; [lia|].
  rewrite Hx. eauto.
Qed.

Lemma slice_app {E A} (l m k : list A) i j :
  i = zlen l → j = (zlen l + zlen m)%Z → @slice E A (l ++ m ++ k) i j = Ret m.
Proof.
  intros -> ->. unfold slice. rewrite decide_True by zlia.
  f_equal. unfold zlen. rewrite Nat2Z.id.
  rewrite drop_app_length. replace (Z.to_nat _) with (length m) by lia.
  apply take_app_length.
Qed.

(** A property of all bytes, checked on the 256 of them. *)
Lemma byte_forall (P : Z → Prop) `{∀ b, Decision (P b)} :
  forallb (λ b, bool_decide (P b)) (seqZ 0 256) = true → ∀ b, is_byte b → P b.
Proof.
  intros Hall b Hb. rewrite forallb_forall in Hall.
  apply (bool_decide_eq_true_1 (P b)), Hall.
  apply list_elem_of_In, elem_of_seqZ. unfold is_byte in Hb. lia.
Qed.

(** Disjoint bits: or-ing a shifted word in is adding it. *)
Lemma lor_shiftl_disjoint a b n :
  (0 ≤ n)%Z → (0 ≤ a < 2 ^ n)%Z → Z.lor a (Z.shiftl b n) = (a + b * 2 ^ n)%Z.
Proof.
  intros Hn Ha. rewrite <- Z.shiftl_mul_pow2 by lia.
  rewrite Z.add_nocarry_lxor; [symmetry; apply Z.lxor_lor|]; apply Z.bits_inj'; intros m Hm.
  all: rewrite Z.land_spec, Z.bits_0, Z.shiftl_spec by lia.
  all: destruct (decide (m < n)%Z);
    [rewrite (Z.testbit_neg_r b) by lia; apply andb_false_r|].
  all: rewrite <- (Z.mod_small a (2 ^ n)) by lia.
  all: by rewrite Z.mod_pow2_bits_high by lia.
Qed.
