(* ===== verification/Externalapi.v ===== *)
(** * The data of package externalapi

    Transactions, their inputs and outputs, outpoints and UTXO entries
    (src/domain/consensus/model/externalapi/transaction.go,
    src/domain/consensus/utils/utxo/utxo_entry.go), with the [Clone] and
    [Equal] methods the rest of the consensus code compares them with.

    A Go array of bytes and a slice of bytes are both a [list Z]; a pointer
    that may be nil is an [option].  [Equal] panics when two values that
    agree on the hashed fields disagree on a derived field (fee, mass, id,
    UTXO entry); the panic is [Crash ExplicitPanic]. *)

From S2P Require Import Prelude.
Local Open Scope Z_scope.
Local Open Scope prog_scope.

(** ** Data *)

Abbreviation DomainHash := (list Z) (only parsing).
Abbreviation DomainTransactionID := (list Z) (only parsing).
Abbreviation DomainSubnetworkID := (list Z) (only parsing).

Record DomainOutpoint := NewDomainOutpoint {
  op_TransactionID : DomainTransactionID;
  op_Index : Z
}.

Record ScriptPublicKey := {
  spk_Script : list Z;
  spk_Version : Z
}.

Record utxoEntry := {
  ue_amount : Z;
  ue_scriptPublicKey : ScriptPublicKey;
  ue_blockDAAScore : Z;
  ue_isCoinbase : bool
}.

Record DomainTransactionInput := {
  in_PreviousOutpoint : DomainOutpoint;
  in_SignatureScript : list Z;
  in_Sequence : Z;
  in_UTXOEntry : option utxoEntry
}.

Record DomainTransactionOutput := {
  out_Value : Z;
  out_ScriptPublicKey : ScriptPublicKey
}.

Record DomainTransaction := {
  tx_Version : Z;
  tx_Inputs : list DomainTransactionInput;
  tx_Outputs : list DomainTransactionOutput;
  tx_LockTime : Z;
  tx_SubnetworkID : DomainSubnetworkID;
  tx_Gas : Z;
  tx_Payload : list Z;
  tx_Fee : Z;
  tx_Mass : Z;
  tx_ID : option DomainTransactionID
}.

#[export] Instance DomainOutpoint_eq_dec : EqDecision DomainOutpoint.
Proof. solve_decision. Defined.
#[export] Instance ScriptPublicKey_eq_dec : EqDecision ScriptPublicKey.
Proof. solve_decision. Defined.
#[export] Instance utxoEntry_eq_dec : EqDecision utxoEntry.
Proof. solve_decision. Defined.
#[export] Instance DomainTransactionInput_eq_dec : EqDecision DomainTransactionInput.
Proof. solve_decision. Defined.
#[export] Instance DomainTransactionOutput_eq_dec : EqDecision DomainTransactionOutput.
Proof. solve_decision. Defined.
#[export] Instance DomainTransaction_eq_dec : EqDecision DomainTransaction.
Proof. solve_decision. Defined.

#[export] Instance DomainOutpoint_countable : Countable DomainOutpoint.
Proof.
  refine (inj_countable' (λ o, (op_TransactionID o, op_Index o))
                         (λ p, NewDomainOutpoint (fst p) (snd p)) _).
  by intros [].
Defined.

(** ** Subnetworks *)

(** subnetworks.SubnetworkIDNative, subnetworks.SubnetworkIDCoinbase *)
Definition SubnetworkIDNative : DomainSubnetworkID := replicate 20 0.
Definition SubnetworkIDCoinbase : DomainSubnetworkID := 1 :: replicate 19 0.

Definition IsCoinBase (tx : DomainTransaction) : bool :=
  bool_decide (tx_SubnetworkID tx = SubnetworkIDCoinbase).

(** ** UTXO entries *)

Definition NewUTXOEntry (amount : Z) (scriptPubKey : ScriptPublicKey)
    (isCoinbase : bool) (blockDAAScore : Z) : utxoEntry :=
  let scriptPubKeyClone :=
    {| spk_Script := spk_Script scriptPubKey; spk_Version := spk_Version scriptPubKey |} in
  {| ue_amount := amount;
     ue_scriptPublicKey := scriptPubKeyClone;
     ue_blockDAAScore := blockDAAScore;
     ue_isCoinbase := isCoinbase |}.

Definition utxoEntry_Equal (u other : option utxoEntry) : bool :=
  match u, other with
  | None, None => true
  | Some u, Some other =>
      if negb (ue_amount u =? ue_amount other) then false
      else if negb (bool_decide (spk_Script (ue_scriptPublicKey u)
                                 = spk_Script (ue_scriptPublicKey other))) then false
      else if negb (spk_Version (ue_scriptPublicKey u)
                    =? spk_Version (ue_scriptPublicKey other)) then false
      else if negb (ue_blockDAAScore u =? ue_blockDAAScore other) then false
      else if negb (eqb (ue_isCoinbase u) (ue_isCoinbase other)) then false
      else true
  | _, _ => false
  end.

(** ** Equality of transactions *)

(** The type of a result that is never an error value. *)
Abbreviation panics A := (outcome Empty_set A).

Definition DomainOutpoint_Equal (op other : option DomainOutpoint) : bool :=
  match op, other with
  | None, None => true
  | Some op, Some other => bool_decide (op = other)
  | _, _ => false
  end.

Definition DomainOutpoint_Clone (op : DomainOutpoint) : DomainOutpoint :=
  {| op_TransactionID := op_TransactionID op; op_Index := op_Index op |}.

Definition DomainTransactionInput_Equal (input other : option DomainTransactionInput)
    : panics bool :=
  match input, other with
  | None, None => Ret true
  | Some input, Some other =>
      if negb (DomainOutpoint_Equal (Some (in_PreviousOutpoint input))
                                    (Some (in_PreviousOutpoint other))) then Ret false
      else if negb (bool_decide (in_SignatureScript input = in_SignatureScript other))
        then Ret false
      else if negb (in_Sequence input =? in_Sequence other) then Ret false
      else match in_UTXOEntry input, in_UTXOEntry other with
           | Some e, Some e' =>
               if negb (utxoEntry_Equal (Some e) (Some e')) then Crash ExplicitPanic
               else Ret true
           | _, _ => Ret true
           end
  | _, _ => Ret false
  end.

Definition DomainTransactionInput_Clone (input : DomainTransactionInput)
    : DomainTransactionInput :=
  {| in_PreviousOutpoint := DomainOutpoint_Clone (in_PreviousOutpoint input);
     in_SignatureScript := in_SignatureScript input;
     in_Sequence := in_Sequence input;
     in_UTXOEntry := in_UTXOEntry input |}.

Definition DomainTransactionOutput_Equal (output other : option DomainTransactionOutput) : bool :=
  match output, other with
  | None, None => true
  | Some output, Some other =>
      if negb (out_Value output =? out_Value other) then false
      else if negb (bool_decide (spk_Script (out_ScriptPublicKey output)
                                 = spk_Script (out_ScriptPublicKey other))) then false
      else true
  | _, _ => false
  end.

Definition DomainTransactionOutput_Clone (output : DomainTransactionOutput)
    : DomainTransactionOutput :=
  {| out_Value := out_Value output;
     out_ScriptPublicKey :=
       {| spk_Script := spk_Script (out_ScriptPublicKey output);
          spk_Version := spk_Version (out_ScriptPublicKey output) |} |}.

(** The two loops of [DomainTransaction.Equal], on slices whose lengths have
    been compared; reading [other] past its end is the runtime's panic. *)
Fixpoint inputs_equal (ins os : list DomainTransactionInput) : panics bool :=
  match ins, os with
  | [], _ => Ret true
  | i :: ins, o :: os =>
      let? b := DomainTransactionInput_Equal (Some i) (Some o) in
      if negb b then Ret false else inputs_equal ins os
  | _ :: _, [] => Crash IndexOutOfRange
  end.

Fixpoint outputs_equal (ins os : list DomainTransactionOutput) : panics bool :=
  match ins, os with
  | [], _ => Ret true
  | i :: ins, o :: os =>
      if negb (DomainTransactionOutput_Equal (Some i) (Some o)) then Ret false
      else outputs_equal ins os
  | _ :: _, [] => Crash IndexOutOfRange
  end.

Definition both_nonzero_differ (a b : Z) : bool :=
  negb (a =? 0) && negb (b =? 0) && negb (a =? b).

Definition DomainTransaction_Equal (tx other : option DomainTransaction) : panics bool :=
  match tx, other with
  | None, None => Ret true
  | Some tx, Some other =>
      if negb (tx_Version tx =? tx_Version other) then Ret false
      else if negb (zlen (tx_Inputs tx) =? zlen (tx_Inputs other)) then Ret false
      else
        let? inputs := inputs_equal (tx_Inputs tx) (tx_Inputs other) in
        if negb inputs then Ret false
        else if negb (zlen (tx_Outputs tx) =? zlen (tx_Outputs other)) then Ret false
        else
          let? outputs := outputs_equal (tx_Outputs tx) (tx_Outputs other) in
          if negb outputs then Ret false
          else if negb (tx_LockTime tx =? tx_LockTime other) then Ret false
          else if negb (bool_decide (tx_SubnetworkID tx = tx_SubnetworkID other)) then Ret false
          else if negb (tx_Gas tx =? tx_Gas other) then Ret false
          else if negb (bool_decide (tx_Payload tx = tx_Payload other)) then Ret false
          else if both_nonzero_differ (tx_Fee tx) (tx_Fee other) then Crash ExplicitPanic
          else if both_nonzero_differ (tx_Mass tx) (tx_Mass other) then Crash ExplicitPanic
          else match tx_ID tx, tx_ID other with
               | Some i, Some j =>
                   if negb (bool_decide (i = j)) then Crash ExplicitPanic else Ret true
               | _, _ => Ret true
               end
  | _, _ => Ret false
  end.

Definition DomainTransaction_Clone (tx : DomainTransaction) : DomainTransaction :=
  {| tx_Version := tx_Version tx;
     tx_Inputs := map DomainTransactionInput_Clone (tx_Inputs tx);
     tx_Outputs := map DomainTransactionOutput_Clone (tx_Outputs tx);
     tx_LockTime := tx_LockTime tx;
     tx_SubnetworkID := tx_SubnetworkID tx;
     tx_Gas := tx_Gas tx;
     tx_Payload := tx_Payload tx;
     tx_Fee := tx_Fee tx;
     tx_Mass := tx_Mass tx;
     tx_ID := tx_ID tx |}.

(** ** What the comparison decides *)

(** The part of an output, an input and a transaction that [Equal] reads. *)
Definition output_view (o : DomainTransactionOutput) : Z * list Z :=
  (out_Value o, spk_Script (out_ScriptPublicKey o)).
Definition input_view (i : DomainTransactionInput) : DomainOutpoint * list Z * Z :=
  (in_PreviousOutpoint i, in_SignatureScript i, in_Sequence i).
Definition tx_view (tx : DomainTransaction) :=
  (tx_Version tx, map input_view (tx_Inputs tx), map output_view (tx_Outputs tx),
   tx_LockTime tx, tx_SubnetworkID tx, tx_Gas tx, tx_Payload tx).

(** The derived fields of two transactions do not contradict each other. *)
Definition entries_agree (i j : DomainTransactionInput) : Prop :=
  match in_UTXOEntry i, in_UTXOEntry j with Some e, Some e' => e = e' | _, _ => True end.
Definition derived_agree (tx other : DomainTransaction) : Prop :=
  Forall2 entries_agree (tx_Inputs tx) (tx_Inputs other) ∧
  (tx_Fee tx = 0 ∨ tx_Fee other = 0 ∨ tx_Fee tx = tx_Fee other) ∧
  (tx_Mass tx = 0 ∨ tx_Mass other = 0 ∨ tx_Mass tx = tx_Mass other) ∧
  match tx_ID tx, tx_ID other with Some i, Some j => i = j | _, _ => True end.

(** Case analysis on the boolean tests of a Go conditional. *)
Ltac go_case :=
  match goal with
  | |- context [if negb ?t then _ else _] =>
      lazymatch t with
      | (?a =? ?b)%Z => destruct (Z.eqb_spec a b)
      | @bool_decide ?P ?D =>
          let H := fresh "Hd" in destruct (@bool_decide_reflect P D) as [H|H]
      | Bool.eqb ?a ?b => destruct (Bool.eqb_spec a b)
      end; cbn [negb]
  end.

Lemma utxoEntry_Equal_spec e e' :
  utxoEntry_Equal (Some e) (Some e') = bool_decide (e = e').
Proof.
  destruct e as [a [s v] d c], e' as [a' [s' v'] d' c']. unfold utxoEntry_Equal. simpl.
  repeat (go_case; [subst|by rewrite bool_decide_eq_false_2 by congruence]).
  by rewrite bool_decide_eq_true_2.
Qed.

Lemma DomainTransactionOutput_Equal_spec o o' :
  DomainTransactionOutput_Equal (Some o) (Some o') = bool_decide (output_view o = output_view o').
Proof.
  destruct o as [v [s k]], o' as [v' [s' k']].
  unfold DomainTransactionOutput_Equal, output_view. simpl.
  repeat (go_case; [subst|by rewrite bool_decide_eq_false_2 by congruence]).
  by rewrite bool_decide_eq_true_2.
Qed.

Lemma outputs_equal_spec os os' :
  length os = length os' →
  outputs_equal os os' = Ret (bool_decide (map output_view os = map output_view os')).
Proof.
  revert os'. induction os as [|o os IH]; intros [|o' os'] Hl; try discriminate; [done|].
  cbn [outputs_equal map]. rewrite DomainTransactionOutput_Equal_spec.
  go_case; [|by rewrite bool_decide_eq_false_2 by congruence].
  rewrite IH by (simpl in Hl; lia). f_equal. apply bool_decide_ext. rewrite Hd.
  split; congruence.
Qed.

Lemma DomainTransactionInput_Equal_spec i j :
  entries_agree i j →
  DomainTransactionInput_Equal (Some i) (Some j) = Ret (bool_decide (input_view i = input_view j)).
Proof.
  destruct i as [p s q u], j as [p' s' q' u'].
  unfold entries_agree, input_view, DomainTransactionInput_Equal, DomainOutpoint_Equal.
  cbn [in_PreviousOutpoint in_SignatureScript in_Sequence in_UTXOEntry]. intros Hu.
  repeat (go_case; [subst|by rewrite bool_decide_eq_false_2 by congruence]).
  rewrite (bool_decide_eq_true_2 (_ = _)) by done.
  destruct u as [e|], u' as [e'|]; try done. subst.
  by rewrite utxoEntry_Equal_spec, bool_decide_eq_true_2.
Qed.

Lemma inputs_equal_spec xs ys :
  Forall2 entries_agree xs ys →
  inputs_equal xs ys = Ret (bool_decide (map input_view xs = map input_view ys)).
Proof.
  induction 1 as [|x y xs ys Hxy Hxys IH]; [done|]. cbn [inputs_equal map].
  rewrite DomainTransactionInput_Equal_spec by done. cbn [obind].
  go_case; [|by rewrite bool_decide_eq_false_2 by congruence].
  rewrite IH. f_equal. apply bool_decide_ext. rewrite Hd. split; congruence.
Qed.

Lemma both_nonzero_differ_false a b :
  a = 0 ∨ b = 0 ∨ a = b → both_nonzero_differ a b = false.
Proof.
  unfold both_nonzero_differ.
  destruct (Z.eqb_spec a 0), (Z.eqb_spec b 0), (Z.eqb_spec a b); simpl; intuition lia.
Qed.

(** Rejecting two transactions whose views differ. *)
Ltac reject_views :=
  rewrite bool_decide_eq_false_2; [done|unfold tx_view; intros ?; simplify_eq].

(** [DomainTransaction.Equal] on transactions whose derived fields do not
    contradict each other returns, without a panic, whether the fields it
    reads are the same. *)
Lemma DomainTransaction_Equal_decides tx other :
  derived_agree tx other →
  DomainTransaction_Equal (Some tx) (Some other) = Ret (bool_decide (tx_view tx = tx_view other)).
Proof.
  intros (Hin & Hfee & Hmass & Hid). unfold DomainTransaction_Equal.
  go_case; [|reject_views; done].
  go_case; [|apply Forall2_length in Hin; unfold zlen in *; lia].
  rewrite inputs_equal_spec by done. cbn [obind].
  go_case; [|reject_views; congruence].
  go_case; [|reject_views].
  2:{ match goal with H : map output_view _ = map output_view _ |- _ =>
        apply (f_equal length) in H; rewrite !length_map in H end. unfold zlen in *; lia. }
  rewrite outputs_equal_spec by (unfold zlen in *; lia). cbn [obind].
  go_case; [|reject_views; congruence].
  do 4 (go_case; [|reject_views; congruence]).
  rewrite !both_nonzero_differ_false by done.
  rewrite (bool_decide_eq_true_2 (tx_view _ = _)) by (unfold tx_view; congruence).
  destruct (tx_ID tx), (tx_ID other); try done. subst. by rewrite bool_decide_eq_true_2.
Qed.

Lemma input_clone_id i : DomainTransactionInput_Clone i = i.
Proof. by destruct i as [[] ? ? ?]. Qed.
Lemma output_clone_id o : DomainTransactionOutput_Clone o = o.
Proof. by destruct o as [? []]. Qed.

(** A clone carries the same value in every field. *)
Lemma DomainTransaction_Clone_id tx : DomainTransaction_Clone tx = tx.
Proof.
  destruct tx. unfold DomainTransaction_Clone. simpl. f_equal.
  - rewrite <- (map_id tx_Inputs0) at 2. apply map_ext. apply input_clone_id.
  - rewrite <- (map_id tx_Outputs0) at 2. apply map_ext. apply output_clone_id.
Qed.
