(* ===== verification/UtxoDiff.v ===== *)
(** * UTXO collections and the algebra of UTXO diffs

    Models src/domain/consensus/utils/utxo: [utxoCollection]
    (utxo_collection.go), the algebra on pairs of collections
    (diff_algebra.go) and the per-entry updates of a mutable diff
    (mutable_utxo_diff.go).  A collection is a finite map from outpoints to
    entries; a Go loop that ranges over a map is a fold over the map, whose
    result does not depend on the order (the only order-dependent value is
    the offending outpoint that an error message mentions).

    The specification is semantic: a diff is a partial update of a UTXO set,
    [applicable] says on which sets it is defined and [apply_diff] what it
    yields.  [withDiff] implements composition of updates and [diffFrom] the
    difference of two updates of one base. *)

From S2P Require Import Prelude Externalapi.
Local Open Scope Z_scope.
Local Open Scope prog_scope.

Abbreviation utxoCollection := (gmap DomainOutpoint utxoEntry) (only parsing).

(** ** utxo_collection.go *)

Definition Get (uc : utxoCollection) (outpoint : DomainOutpoint) : option utxoEntry :=
  uc !! outpoint.

Definition Contains (uc : utxoCollection) (outpoint : DomainOutpoint) : bool :=
  bool_decide (is_Some (uc !! outpoint)).

Definition Len (uc : utxoCollection) : Z := Z.of_nat (size uc).

Definition collection_Clone (uc : utxoCollection) : utxoCollection :=
  map_fold (λ outpoint entry clone, <[outpoint := entry]> clone) ∅ uc.

Definition add (uc : utxoCollection) (outpoint : DomainOutpoint) (entry : utxoEntry)
    : utxoCollection := <[outpoint := entry]> uc.

Definition addMultiple (uc collectionToAdd : utxoCollection) : utxoCollection :=
  map_fold (λ outpoint entry uc, <[outpoint := entry]> uc) uc collectionToAdd.

Definition remove (uc : utxoCollection) (outpoint : DomainOutpoint) : utxoCollection :=
  delete outpoint uc.

Definition removeMultiple (uc collectionToRemove : utxoCollection) : utxoCollection :=
  map_fold (λ outpoint _ uc, delete outpoint uc) uc collectionToRemove.

Definition containsWithDAAScore (uc : utxoCollection) (outpoint : DomainOutpoint)
    (daaScore : Z) : bool :=
  match Get uc outpoint with
  | Some entry => ue_blockDAAScore entry =? daaScore
  | None => false
  end.

(** ** diff_algebra.go *)

Definition checkIntersection (collection1 collection2 : utxoCollection) : bool :=
  existsb (λ '(outpoint, _), Contains collection2 outpoint) (map_to_list collection1).

Definition checkIntersectionWithRule (collection1 collection2 : utxoCollection)
    (extraRule : DomainOutpoint → utxoEntry → utxoEntry → bool) : option DomainOutpoint :=
  fst <$> List.find
    (λ '(outpoint, entry),
       match Get collection2 outpoint with
       | Some diffEntry => extraRule outpoint entry diffEntry
       | None => false
       end) (map_to_list collection1).

Definition intersectionWithRemainderHavingDAAScoreInPlace
    (collection1 collection2 result remainder : utxoCollection)
    : utxoCollection * utxoCollection :=
  map_fold
    (λ outpoint entry '(result, remainder),
       if containsWithDAAScore collection2 outpoint (ue_blockDAAScore entry)
       then (add result outpoint entry, remainder)
       else (result, add remainder outpoint entry))
    (result, remainder) collection1.

Definition subtractionHavingDAAScoreInPlace
    (collection1 collection2 result : utxoCollection) : utxoCollection :=
  map_fold
    (λ outpoint entry result,
       if negb (containsWithDAAScore collection2 outpoint (ue_blockDAAScore entry))
       then add result outpoint entry else result)
    result collection1.

Definition subtractionWithRemainderHavingDAAScoreInPlace
    (collection1 collection2 result remainder : utxoCollection)
    : utxoCollection * utxoCollection :=
  map_fold
    (λ outpoint entry '(result, remainder),
       if negb (containsWithDAAScore collection2 outpoint (ue_blockDAAScore entry))
       then (add result outpoint entry, remainder)
       else (result, add remainder outpoint entry))
    (result, remainder) collection1.

(** The two collections of a mutableUTXODiff. *)
Record diff := mkDiff { toAdd : utxoCollection; toRemove : utxoCollection }.

(** The errors of the package, one constructor per message. *)
Inductive utxoError :=
  | DiffFromBothToAddAndToRemove (offending : DomainOutpoint)
  | DiffFromBothToRemoveAndToAdd (offending : DomainOutpoint)
  | DiffFromBothToRemoveDifferentDAAScores (offending : DomainOutpoint)
  | DiffFromOnlyOneToRemove
  | WithDiffBothToRemove (offending : DomainOutpoint)
  | WithDiffBothToAdd (offending : DomainOutpoint)
  | AddEntryTwice (outpoint : DomainOutpoint)
  | RemoveEntryTwice (outpoint : DomainOutpoint).

Definition diffFrom (this other : diff) : outcome utxoError diff :=
  let isNotAddedOutputRemovedWithDAAScore outpoint utxoEntry diffEntry :=
    negb (negb (ue_blockDAAScore diffEntry =? ue_blockDAAScore utxoEntry) &&
          (containsWithDAAScore (toAdd this) outpoint (ue_blockDAAScore diffEntry) ||
           containsWithDAAScore (toRemove other) outpoint (ue_blockDAAScore utxoEntry))) in
  let isNotRemovedOutputAddedWithDAAScore outpoint utxoEntry diffEntry :=
    negb (negb (ue_blockDAAScore diffEntry =? ue_blockDAAScore utxoEntry) &&
          (containsWithDAAScore (toRemove this) outpoint (ue_blockDAAScore diffEntry) ||
           containsWithDAAScore (toAdd other) outpoint (ue_blockDAAScore utxoEntry))) in
  match checkIntersectionWithRule (toRemove this) (toAdd other)
          isNotAddedOutputRemovedWithDAAScore with
  | Some offending => Fail (DiffFromBothToAddAndToRemove offending)
  | None =>
  match checkIntersectionWithRule (toAdd this) (toRemove other)
          isNotRemovedOutputAddedWithDAAScore with
  | Some offending => Fail (DiffFromBothToRemoveAndToAdd offending)
  | None =>
  match checkIntersectionWithRule (toRemove this) (toRemove other)
          (λ _ utxoEntry diffEntry,
             negb (ue_blockDAAScore utxoEntry =? ue_blockDAAScore diffEntry)) with
  | Some offending => Fail (DiffFromBothToRemoveDifferentDAAScores offending)
  | None =>
      let '(resultToRemove, inBothToAdd) :=
        subtractionWithRemainderHavingDAAScoreInPlace (toAdd this) (toAdd other) ∅ ∅ in
      if negb (eqb (checkIntersection inBothToAdd (toRemove this))
                   (checkIntersection inBothToAdd (toRemove other)))
      then Fail DiffFromOnlyOneToRemove
      else
        let resultToRemove :=
          subtractionHavingDAAScoreInPlace (toRemove other) (toRemove this) resultToRemove in
        let resultToAdd :=
          subtractionHavingDAAScoreInPlace (toRemove this) (toRemove other) ∅ in
        let resultToAdd :=
          subtractionHavingDAAScoreInPlace (toAdd other) (toAdd this) resultToAdd in
        Ret (mkDiff resultToAdd resultToRemove)
  end end end.

(** The two guards of withDiffInPlace (lines 174-188). *)
Definition withDiffConflict (this other : diff) : option utxoError :=
  match checkIntersectionWithRule (toRemove other) (toRemove this)
          (λ outpoint entryToAdd _,
             negb (containsWithDAAScore (toAdd this) outpoint (ue_blockDAAScore entryToAdd))) with
  | Some offending => Some (WithDiffBothToRemove offending)
  | None =>
  match checkIntersectionWithRule (toAdd other) (toAdd this)
          (λ outpoint _ existingEntry,
             negb (containsWithDAAScore (toRemove other) outpoint
                     (ue_blockDAAScore existingEntry))) with
  | Some offending => Some (WithDiffBothToAdd offending)
  | None => None
  end end.

(** Its two passes, over [other.toRemove] (lines 190-194) and over
    [other.toAdd] (lines 196-200). *)
Definition withRemovals (this : diff) (otherToRemove : utxoCollection) : diff :=
  let '(intersection, thisToRemove) :=
    intersectionWithRemainderHavingDAAScoreInPlace
      otherToRemove (toAdd this) ∅ (toRemove this) in
  mkDiff (removeMultiple (toAdd this) intersection) thisToRemove.

Definition withAdditions (this : diff) (otherToAdd : utxoCollection) : diff :=
  let '(intersection, thisToAdd) :=
    intersectionWithRemainderHavingDAAScoreInPlace
      otherToAdd (toRemove this) ∅ (toAdd this) in
  mkDiff thisToAdd (removeMultiple (toRemove this) intersection).

Definition withDiffInPlace (this other : diff) : diff * outcome utxoError unit :=
  match withDiffConflict this other with
  | Some err => (this, Fail err)
  | None => (withAdditions (withRemovals this (toRemove other)) (toAdd other), Ret ())
  end.

Definition diff_clone (d : diff) : diff :=
  mkDiff (collection_Clone (toAdd d)) (collection_Clone (toRemove d)).

Definition withDiff (this other : diff) : outcome utxoError diff :=
  let clone := diff_clone this in
  match withDiffInPlace clone other with
  | (clone, Ret _) => Ret clone
  | (_, Fail err) => Fail err
  | (_, Crash c) => Crash c
  end.

(** ** The per-entry updates of mutable_utxo_diff.go *)

Definition addEntry (outpoint : DomainOutpoint) (entry : utxoEntry) : prog diff utxoError unit :=
  λ mud,
  if containsWithDAAScore (toRemove mud) outpoint (ue_blockDAAScore entry) then
    (mkDiff (toAdd mud) (remove (toRemove mud) outpoint), Ret ())
  else if Contains (toAdd mud) outpoint then
    (mud, Fail (AddEntryTwice outpoint))
  else (mkDiff (add (toAdd mud) outpoint entry) (toRemove mud), Ret ()).

Definition removeEntry (outpoint : DomainOutpoint) (entry : utxoEntry)
    : prog diff utxoError unit :=
  λ mud,
  if containsWithDAAScore (toAdd mud) outpoint (ue_blockDAAScore entry) then
    (mkDiff (remove (toAdd mud) outpoint) (toRemove mud), Ret ())
  else if Contains (toRemove mud) outpoint then
    (mud, Fail (RemoveEntryTwice outpoint))
  else (mkDiff (toAdd mud) (add (toRemove mud) outpoint entry), Ret ()).

Definition diff_Reversed (d : diff) : diff := mkDiff (toRemove d) (toAdd d).

Section AddTransaction.
(** consensushashing.TransactionID: a blake2b hash of the transaction. *)
Context (TransactionID : DomainTransaction → DomainTransactionID).

Definition removeInputs : list DomainTransactionInput → prog diff utxoError unit :=
  fix go inputs :=
    match inputs with
    | [] => ret ()
    | input :: inputs =>
        match in_UTXOEntry input with
        | None => crash_with NilDereference
        | Some entry => removeEntry (in_PreviousOutpoint input) entry ;;* go inputs
        end
    end.

Definition addOutputs (transactionID : DomainTransactionID) (isCoinbase : bool)
    (blockDAAScore : Z) : Z → list DomainTransactionOutput → prog diff utxoError unit :=
  fix go i outputs :=
    match outputs with
    | [] => ret ()
    | output :: outputs =>
        let outpoint := {| op_TransactionID := transactionID; op_Index := GoInt.uint32 i |} in
        let entry := NewUTXOEntry (out_Value output) (out_ScriptPublicKey output)
                       isCoinbase blockDAAScore in
        addEntry outpoint entry ;;* go (i + 1) outputs
    end.

Definition AddTransaction (transaction : DomainTransaction) (blockDAAScore : Z)
    : prog diff utxoError unit :=
  removeInputs (tx_Inputs transaction) ;;*
  addOutputs (TransactionID transaction) (IsCoinBase transaction) blockDAAScore
    0 (tx_Outputs transaction).
End AddTransaction.

(** ** Semantics of a diff *)

(** [d] is an update of the UTXO set [B]: it removes entries that are there
    and adds outpoints that are not there once the removals are done. *)
Definition applicable (B : utxoCollection) (d : diff) : Prop :=
  toRemove d ⊆ B ∧ toAdd d ##ₘ (B ∖ toRemove d).

Definition apply_diff (B : utxoCollection) (d : diff) : utxoCollection :=
  toAdd d ∪ (B ∖ toRemove d).

(** An outpoint that occurs in two collections with one DAA score is one
    transaction output ("its underlying values would be the same"). *)
Definition same_txout (c1 c2 : utxoCollection) : Prop :=
  ∀ o e1 e2, c1 !! o = Some e1 → c2 !! o = Some e2 →
    ue_blockDAAScore e1 = ue_blockDAAScore e2 → e1 = e2.

(** No entry is both added and removed. *)
Definition canonical (d : diff) : Prop :=
  ∀ o e1 e2, toAdd d !! o = Some e1 → toRemove d !! o = Some e2 →
    ue_blockDAAScore e1 ≠ ue_blockDAAScore e2.

(** ** Pointwise description of the loops *)

Lemma Contains_true uc o : Contains uc o = true ↔ is_Some (uc !! o).
Proof. apply bool_decide_eq_true. Qed.

Lemma containsWithDAAScore_true uc o s :
  containsWithDAAScore uc o s = true ↔ ∃ e, uc !! o = Some e ∧ ue_blockDAAScore e = s.
Proof.
  unfold containsWithDAAScore, Get. destruct (uc !! o) as [e|]; [|naive_solver].
  rewrite Z.eqb_eq. naive_solver.
Qed.

Lemma checkIntersectionWithRule_None c1 c2 rule :
  checkIntersectionWithRule c1 c2 rule = None ↔
  ∀ o e1 e2, c1 !! o = Some e1 → c2 !! o = Some e2 → rule o e1 e2 = false.
Proof.
  unfold checkIntersectionWithRule. rewrite fmap_None. split.
  - intros H o e1 e2 H1 H2. apply elem_of_map_to_list, list_elem_of_In in H1.
    pose proof (List.find_none _ _ H _ H1) as Hn. cbn in Hn. unfold Get in Hn. by rewrite H2 in Hn.
  - intros H. destruct (List.find _ _) as [[o e]|] eqn:E; [|done].
    apply List.find_some in E as [Hin Hr]. apply list_elem_of_In, elem_of_map_to_list in Hin.
    unfold Get in Hr. destruct (c2 !! o) eqn:E2; [|done]. by rewrite (H o e u) in Hr.
Qed.

Lemma checkIntersectionWithRule_Some c1 c2 rule o :
  checkIntersectionWithRule c1 c2 rule = Some o →
  ∃ e1 e2, c1 !! o = Some e1 ∧ c2 !! o = Some e2 ∧ rule o e1 e2 = true.
Proof.
  unfold checkIntersectionWithRule. intros H.
  apply fmap_Some in H as ([o' e] & E & ->).
  apply List.find_some in E as [Hin Hr]. apply list_elem_of_In, elem_of_map_to_list in Hin.
  unfold Get in Hr. cbn [fst]. destruct (c2 !! o') eqn:E2; [eauto|done].
Qed.

Lemma checkIntersection_true c1 c2 :
  checkIntersection c1 c2 = true ↔ ∃ o, is_Some (c1 !! o) ∧ is_Some (c2 !! o).
Proof.
  unfold checkIntersection. rewrite existsb_exists. split.
  - intros ([o e] & Hin & Hc). apply list_elem_of_In, elem_of_map_to_list in Hin.
    apply Contains_true in Hc. eauto.
  - intros (o & [e He] & Hc). exists (o, e). split; [|by apply Contains_true].
    by apply list_elem_of_In, elem_of_map_to_list.
Qed.

Section FoldInsert.
Context (P : DomainOutpoint → utxoEntry → bool).

Lemma fold_insert_lookup (acc m : utxoCollection) o :
  map_fold (λ k v acc, if P k v then <[k := v]> acc else acc) acc m !! o =
  match m !! o with
  | Some e => if P o e then Some e else acc !! o
  | None => acc !! o
  end.
Proof.
  revert m. apply (map_fold_weak_ind (λ r m, r !! o = match m !! o with
    | Some e => if P o e then Some e else acc !! o | None => acc !! o end)).
  { by rewrite lookup_empty. }
  intros k v m r Hk IH. rewrite (lookup_insert m).
  case_decide as Ho; [subst|].
  - rewrite Hk in IH. destruct (P o v); [|done]. by rewrite lookup_insert_eq.
  - destruct (P k v); [|done]. by rewrite lookup_insert_ne.
Qed.

Lemma fold_split_lookup (res rem m : utxoCollection) o :
  let r := map_fold (λ k v '(res, rem),
             if P k v then (<[k := v]> res, rem) else (res, <[k := v]> rem)) (res, rem) m in
  fst r !! o = match m !! o with
               | Some e => if P o e then Some e else res !! o
               | None => res !! o
               end ∧
  snd r !! o = match m !! o with
               | Some e => if P o e then rem !! o else Some e
               | None => rem !! o
               end.
Proof.
  cbv zeta. revert m. apply (map_fold_weak_ind (λ r m,
    fst r !! o = match m !! o with
      | Some e => if P o e then Some e else res !! o | None => res !! o end ∧
    snd r !! o = match m !! o with
      | Some e => if P o e then rem !! o else Some e | None => rem !! o end)).
  { by rewrite lookup_empty. }
  intros k v m [r1 r2] Hk IH. cbn [fst snd] in IH. rewrite (lookup_insert m).
  case_decide as Ho; [subst|].
  - rewrite Hk in IH. destruct IH as [IH1 IH2], (P o v); simpl;
      by rewrite ?lookup_insert_eq, ?IH1, ?IH2.
  - destruct (P k v); simpl; by rewrite lookup_insert_ne.
Qed.
End FoldInsert.

Lemma removeMultiple_lookup (uc rm : utxoCollection) o :
  removeMultiple uc rm !! o = if decide (is_Some (rm !! o)) then None else uc !! o.
Proof.
  unfold removeMultiple. revert rm.
  apply (map_fold_weak_ind (λ r m, r !! o = if decide (is_Some (m !! o)) then None else uc !! o)).
  { by rewrite lookup_empty. }
  intros k v m r Hk IH. destruct (decide (k = o)) as [->|Hne].
  - rewrite lookup_insert_eq, lookup_delete_eq. by rewrite decide_True by eauto.
  - by rewrite lookup_insert_ne, lookup_delete_ne.
Qed.

Lemma collection_Clone_id uc : collection_Clone uc = uc.
Proof.
  apply map_eq. intros o. unfold collection_Clone.
  rewrite (fold_insert_lookup (λ _ _, true) ∅ uc o).
  destruct (uc !! o); [done|apply lookup_empty].
Qed.

Lemma diff_clone_id d : diff_clone d = d.
Proof. destruct d. unfold diff_clone. simpl. by rewrite !collection_Clone_id. Qed.

Lemma subtraction_lookup c1 c2 res o :
  subtractionHavingDAAScoreInPlace c1 c2 res !! o =
  match c1 !! o with
  | Some e => if containsWithDAAScore c2 o (ue_blockDAAScore e) then res !! o else Some e
  | None => res !! o
  end.
Proof.
  unfold subtractionHavingDAAScoreInPlace, add.
  rewrite (fold_insert_lookup (λ o e, negb (containsWithDAAScore c2 o (ue_blockDAAScore e)))).
  destruct (c1 !! o) as [e|]; [|done].
  by destruct (containsWithDAAScore c2 o (ue_blockDAAScore e)).
Qed.

(** ** The algebra at one outpoint

    Every collection of the results is determined outpoint by outpoint; [has]
    is [containsWithDAAScore] at a fixed outpoint. *)
Definition has (x : option utxoEntry) (s : Z) : bool :=
  match x with Some e => ue_blockDAAScore e =? s | None => false end.

Lemma containsWithDAAScore_has uc o s : containsWithDAAScore uc o s = has (uc !! o) s.
Proof. done. Qed.

Definition keep_unless (x : option utxoEntry) (y res : option utxoEntry) : option utxoEntry :=
  match x with
  | Some e => if has y (ue_blockDAAScore e) then res else Some e
  | None => res
  end.

Definition cancels (x y : option utxoEntry) : bool :=
  match x with Some e => has y (ue_blockDAAScore e) | None => false end.

(** [withDiffInPlace] at one outpoint: the new [toRemove] and [toAdd]. *)
Definition with_remove1 (a1 r1 r2 : option utxoEntry) := keep_unless r2 a1 r1.
Definition with_add1 (a1 r2 : option utxoEntry) := if cancels r2 a1 then None else a1.
Definition with_add (a1 r1 a2 r2 : option utxoEntry) :=
  keep_unless a2 (with_remove1 a1 r1 r2) (with_add1 a1 r2).
Definition with_remove (a1 r1 a2 r2 : option utxoEntry) :=
  if cancels a2 (with_remove1 a1 r1 r2) then None else with_remove1 a1 r1 r2.

(** The two guards of [withDiffInPlace], at one outpoint. *)
Definition with_guards (a1 r1 a2 r2 : option utxoEntry) : Prop :=
  (∀ e e', r2 = Some e → r1 = Some e' → has a1 (ue_blockDAAScore e) = true) ∧
  (∀ e e', a2 = Some e → a1 = Some e' → has r2 (ue_blockDAAScore e') = true).

Lemma subtraction_keep c1 c2 res o :
  subtractionHavingDAAScoreInPlace c1 c2 res !! o = keep_unless (c1 !! o) (c2 !! o) (res !! o).
Proof. apply subtraction_lookup. Qed.

Lemma intersection_lookup c1 c2 res rem o :
  let r := intersectionWithRemainderHavingDAAScoreInPlace c1 c2 res rem in
  fst r !! o = (if cancels (c1 !! o) (c2 !! o) then c1 !! o else res !! o) ∧
  snd r !! o = keep_unless (c1 !! o) (c2 !! o) (rem !! o).
Proof.
  cbv zeta. unfold intersectionWithRemainderHavingDAAScoreInPlace, add.
  pose proof (fold_split_lookup
    (λ o e, containsWithDAAScore c2 o (ue_blockDAAScore e)) res rem c1 o) as [H1 H2].
  rewrite H1, H2. unfold cancels, keep_unless. by destruct (c1 !! o).
Qed.

Lemma subtraction_split_lookup c1 c2 res rem o :
  let r := subtractionWithRemainderHavingDAAScoreInPlace c1 c2 res rem in
  fst r !! o = keep_unless (c1 !! o) (c2 !! o) (res !! o) ∧
  snd r !! o = (if cancels (c1 !! o) (c2 !! o) then c1 !! o else rem !! o).
Proof.
  cbv zeta. unfold subtractionWithRemainderHavingDAAScoreInPlace, add.
  pose proof (fold_split_lookup
    (λ o e, negb (containsWithDAAScore c2 o (ue_blockDAAScore e))) res rem c1 o) as [H1 H2].
  rewrite H1, H2. unfold cancels, keep_unless.
  destruct (c1 !! o) as [e|]; [|done]. rewrite containsWithDAAScore_has.
  by destruct (has (c2 !! o) (ue_blockDAAScore e)).
Qed.

Lemma is_Some_cancels x y : is_Some (if cancels x y then x else None) ↔ cancels x y = true.
Proof. destruct x as [e|]; simpl; [destruct (has y (ue_blockDAAScore e))|]; naive_solver. Qed.

Lemma removeMultiple_cancels (uc c1 c2 rm : utxoCollection) o :
  rm !! o = (if cancels (c1 !! o) (c2 !! o) then c1 !! o else (∅ : utxoCollection) !! o) →
  removeMultiple uc rm !! o = if cancels (c1 !! o) (c2 !! o) then None else uc !! o.
Proof.
  rewrite lookup_empty. intros H. rewrite removeMultiple_lookup, H.
  case_decide as Hd; rewrite is_Some_cancels in Hd;
    by destruct (cancels (c1 !! o) (c2 !! o)).
Qed.

(** [withDiff] succeeds exactly when the guards hold everywhere, and its
    result is the pointwise one. *)
Lemma withDiff_spec this other :
  (∀ o, with_guards (toAdd this !! o) (toRemove this !! o)
                    (toAdd other !! o) (toRemove other !! o)) →
  ∃ d, withDiff this other = Ret d ∧ ∀ o,
    toAdd d !! o = with_add (toAdd this !! o) (toRemove this !! o)
                            (toAdd other !! o) (toRemove other !! o) ∧
    toRemove d !! o = with_remove (toAdd this !! o) (toRemove this !! o)
                                  (toAdd other !! o) (toRemove other !! o).
Proof.
  intros Hg. unfold withDiff, withDiffInPlace, withDiffConflict. rewrite diff_clone_id.
  rewrite (proj2 (checkIntersectionWithRule_None (toRemove other) (toRemove this) _)).
  2:{ intros o e e' H1 H2. rewrite negb_false_iff. by eapply (proj1 (Hg o)). }
  rewrite (proj2 (checkIntersectionWithRule_None (toAdd other) (toAdd this) _)).
  2:{ intros o e e' H1 H2. rewrite negb_false_iff. by eapply (proj2 (Hg o)). }
  unfold withRemovals, withAdditions.
  pose proof (intersection_lookup (toRemove other) (toAdd this) ∅ (toRemove this)) as L1.
  destruct (intersectionWithRemainderHavingDAAScoreInPlace _ _ _ _) as [i1 rem1].
  cbn [fst snd toAdd toRemove] in *.
  pose proof (intersection_lookup (toAdd other) rem1 ∅ (removeMultiple (toAdd this) i1)) as L2.
  destruct (intersectionWithRemainderHavingDAAScoreInPlace (toAdd other) _ _ _) as [i2 add2].
  cbn [fst snd] in L2.
  eexists; split; [done|]. intros o. cbn [toAdd toRemove].
  destruct (L1 o) as [Hi1 Hr1], (L2 o) as [Hi2 Ha2].
  rewrite Ha2, (removeMultiple_cancels _ _ _ _ _ Hi1), (removeMultiple_cancels _ _ _ _ _ Hi2), Hr1.
  done.
Qed.

Lemma withDiff_fails this other :
  ¬ (∀ o, with_guards (toAdd this !! o) (toRemove this !! o)
                      (toAdd other !! o) (toRemove other !! o)) →
  ∃ e, withDiff this other = Fail e.
Proof.
  intros Hg. unfold withDiff, withDiffInPlace, withDiffConflict. rewrite diff_clone_id.
  destruct (checkIntersectionWithRule (toRemove other) (toRemove this) _) eqn:E1; [eauto|].
  destruct (checkIntersectionWithRule (toAdd other) (toAdd this) _) eqn:E2; [eauto|].
  exfalso. apply Hg. intros o. split; intros e e' H1 H2.
  - rewrite <- negb_false_iff. by eapply checkIntersectionWithRule_None in E1.
  - rewrite <- negb_false_iff. by eapply checkIntersectionWithRule_None in E2.
Qed.

(** ** Semantics at one outpoint *)

Definition app_ok (b a r : option utxoEntry) : Prop :=
  (∀ e, r = Some e → b = Some e) ∧ (is_Some a → b = None ∨ is_Some r).

Definition applied (b a r : option utxoEntry) : option utxoEntry :=
  match a with
  | Some e => Some e
  | None => match r with Some _ => None | None => b end
  end.

Lemma applicable_lookup B d :
  applicable B d ↔ ∀ o, app_ok (B !! o) (toAdd d !! o) (toRemove d !! o).
Proof.
  unfold applicable, app_ok. rewrite map_subseteq_spec, map_disjoint_alt. split.
  - intros [H1 H2] o. split; [eauto|]. intros Ha.
    destruct (H2 o) as [H|H]; [by rewrite H in Ha; destruct Ha|].
    rewrite lookup_difference in H. destruct (toRemove d !! o); eauto.
  - intros H. split; [intros o e; apply H|]. intros o.
    destruct (toAdd d !! o) eqn:E; [right|by left]. rewrite lookup_difference.
    destruct (proj2 (H o)) as [H'|[? H']]; [by rewrite E|..].
    + rewrite H'. by destruct (toRemove d !! o).
    + by rewrite H'.
Qed.

Lemma apply_diff_lookup B d o :
  apply_diff B d !! o = applied (B !! o) (toAdd d !! o) (toRemove d !! o).
Proof.
  unfold apply_diff, applied. rewrite lookup_union, lookup_difference.
  destruct (toAdd d !! o), (toRemove d !! o), (B !! o); done.
Qed.

Definition same_at (x y : option utxoEntry) : Prop :=
  ∀ e1 e2, x = Some e1 → y = Some e2 → ue_blockDAAScore e1 = ue_blockDAAScore e2 → e1 = e2.
Definition canon_at (a r : option utxoEntry) : Prop :=
  ∀ e1 e2, a = Some e1 → r = Some e2 → ue_blockDAAScore e1 ≠ ue_blockDAAScore e2.

(** Decide a statement about one outpoint by looking at which of the
    collections contain it and which DAA scores coincide. *)
Ltac at_outpoint :=
  unfold app_ok, applied, with_guards, with_add, with_remove, with_add1, with_remove1,
    keep_unless, cancels, same_at, canon_at in *;
  repeat match goal with x : option utxoEntry |- _ => destruct x end;
  simpl in *;
  repeat match goal with
    | H : context [ue_blockDAAScore ?e =? ue_blockDAAScore ?e] |- _ => rewrite Z.eqb_refl in H
    | |- context [ue_blockDAAScore ?e =? ue_blockDAAScore ?e] => rewrite Z.eqb_refl; simpl
    | H : _ ∧ _ |- _ => destruct H
    | H : ∀ e : utxoEntry, Some ?x = Some e → _ |- _ => specialize (H x eq_refl); simplify_eq
    | H : ∀ e e' : utxoEntry, Some ?x = Some e → Some ?y = Some e' → _ |- _ =>
        specialize (H x y eq_refl eq_refl)
    | H : is_Some (Some ?x) → _ |- _ => specialize (H (ex_intro _ x eq_refl))
    | H : ?x = None ∨ _ |- _ => destruct H; [try discriminate|]
    | H : is_Some None |- _ => by destruct H
    | |- context [ue_blockDAAScore ?e =? ue_blockDAAScore ?e'] =>
        destruct (Z.eqb_spec (ue_blockDAAScore e) (ue_blockDAAScore e')); simpl
    end;
  simplify_eq;
  split_and?; intros; simplify_eq; rewrite ?Z.eqb_refl;
  try solve [done | naive_solver | f_equal; naive_solver | exfalso; naive_solver].

Lemma with_correct_at b a1 r1 a2 r2 :
  app_ok b a1 r1 → app_ok (applied b a1 r1) a2 r2 → same_at b a2 →
  with_guards a1 r1 a2 r2 ∧
  app_ok b (with_add a1 r1 a2 r2) (with_remove a1 r1 a2 r2) ∧
  applied b (with_add a1 r1 a2 r2) (with_remove a1 r1 a2 r2) = applied (applied b a1 r1) a2 r2.
Proof. intros H1 H2 Hs. at_outpoint.
Qed.

(** [withDiff] is the composition of updates. *)
Lemma withDiff_composes B d1 d2 :
  applicable B d1 → applicable (apply_diff B d1) d2 → same_txout B (toAdd d2) →
  ∃ d, withDiff d1 d2 = Ret d ∧ applicable B d ∧
       apply_diff B d = apply_diff (apply_diff B d1) d2.
Proof.
  intros H1 H2 Hs.
  assert (∀ o, _) as Hat by (intros o; exact (with_correct_at _ _ _ _ _
    (proj1 (applicable_lookup _ _) H1 o)
    (eq_rect _ (λ x, app_ok x _ _) (proj1 (applicable_lookup _ _) H2 o) _ (apply_diff_lookup _ _ o))
    (Hs o))).
  destruct (withDiff_spec d1 d2) as (d & Hd & Hl); [intros o; apply Hat|].
  exists d. split; [done|]. split.
  - apply applicable_lookup. intros o. destruct (Hl o) as [-> ->]. apply Hat.
  - apply map_eq. intros o. rewrite !apply_diff_lookup. destruct (Hl o) as [-> ->]. apply Hat.
Qed.

(** ** [diffFrom] *)

Definition from_add (a1 r1 a2 r2 : option utxoEntry) := keep_unless a2 a1 (keep_unless r1 r2 None).
Definition from_remove (a1 r1 a2 r2 : option utxoEntry) :=
  keep_unless r2 r1 (keep_unless a1 a2 None).

Definition from_guards (a1 r1 a2 r2 : option utxoEntry) : Prop :=
  (∀ e e', r1 = Some e → a2 = Some e' → ue_blockDAAScore e' ≠ ue_blockDAAScore e ∧
     (has a1 (ue_blockDAAScore e') = true ∨ has r2 (ue_blockDAAScore e) = true)) ∧
  (∀ e e', a1 = Some e → r2 = Some e' → ue_blockDAAScore e' ≠ ue_blockDAAScore e ∧
     (has r1 (ue_blockDAAScore e') = true ∨ has a2 (ue_blockDAAScore e) = true)) ∧
  (∀ e e', r1 = Some e → r2 = Some e' → ue_blockDAAScore e = ue_blockDAAScore e') ∧
  (cancels a1 a2 = true → (is_Some r1 ↔ is_Some r2)).

Lemma rule_false (a b : Z) (x y : bool) :
  a ≠ b → x = true ∨ y = true → negb (negb (a =? b) && (x || y)) = false.
Proof. intros Hne Hxy. destruct (Z.eqb_spec a b), x, y; naive_solver. Qed.

Lemma diffFrom_spec this other :
  (∀ o, from_guards (toAdd this !! o) (toRemove this !! o)
                    (toAdd other !! o) (toRemove other !! o)) →
  ∃ d, diffFrom this other = Ret d ∧ ∀ o,
    toAdd d !! o = from_add (toAdd this !! o) (toRemove this !! o)
                            (toAdd other !! o) (toRemove other !! o) ∧
    toRemove d !! o = from_remove (toAdd this !! o) (toRemove this !! o)
                                  (toAdd other !! o) (toRemove other !! o).
Proof.
  intros Hg. unfold diffFrom. cbv zeta.
  rewrite (proj2 (checkIntersectionWithRule_None (toRemove this) (toAdd other) _)).
  2:{ intros o e e' H1 H2. destruct (proj1 (Hg o) _ _ H1 H2). by apply rule_false. }
  rewrite (proj2 (checkIntersectionWithRule_None (toAdd this) (toRemove other) _)).
  2:{ intros o e e' H1 H2. destruct (proj1 (proj2 (Hg o)) _ _ H1 H2). by apply rule_false. }
  rewrite (proj2 (checkIntersectionWithRule_None (toRemove this) (toRemove other) _)).
  2:{ intros o e e' H1 H2. apply negb_false_iff, Z.eqb_eq.
      by apply (proj1 (proj2 (proj2 (Hg o)))). }
  pose proof (subtraction_split_lookup (toAdd this) (toAdd other) ∅ ∅) as L.
  destruct (subtractionWithRemainderHavingDAAScoreInPlace _ _ _ _) as [res both].
  cbn [fst snd] in L.
  assert (checkIntersection both (toRemove this) = checkIntersection both (toRemove other)) as ->.
  { apply eq_true_iff_eq. rewrite !checkIntersection_true. split; intros (o & Hb & Hr);
      exists o; (split; [done|]); destruct (L o) as [_ Lo]; rewrite Lo, lookup_empty in Hb;
      apply is_Some_cancels in Hb; by apply (proj2 (proj2 (proj2 (Hg o)))). }
  rewrite eqb_reflx. eexists; split; [done|]. intros o. cbn [toAdd toRemove].
  rewrite !subtraction_keep, (proj1 (L o)), lookup_empty. done.
Qed.

Lemma from_correct_at b a1 r1 a2 r2 :
  app_ok b a1 r1 → app_ok b a2 r2 → canon_at a1 r1 → canon_at a2 r2 → same_at a1 a2 →
  from_guards a1 r1 a2 r2 ∧
  app_ok (applied b a1 r1) (from_add a1 r1 a2 r2) (from_remove a1 r1 a2 r2) ∧
  canon_at (from_add a1 r1 a2 r2) (from_remove a1 r1 a2 r2) ∧
  applied (applied b a1 r1) (from_add a1 r1 a2 r2) (from_remove a1 r1 a2 r2) = applied b a2 r2.
Proof.
  intros H1 H2 C1 C2 Hs. unfold from_guards, from_add, from_remove. at_outpoint.
Qed.

(** The pointwise facts about one pair of diffs, for every outpoint. *)
Lemma from_correct B d1 d2 :
  applicable B d1 → applicable B d2 → canonical d1 → canonical d2 →
  same_txout (toAdd d1) (toAdd d2) →
  ∃ d, diffFrom d1 d2 = Ret d ∧ applicable (apply_diff B d1) d ∧ canonical d ∧
       apply_diff (apply_diff B d1) d = apply_diff B d2 ∧
       ∀ o e, toAdd d !! o = Some e → toAdd d2 !! o = Some e ∨ B !! o = Some e.
Proof.
  intros H1 H2 C1 C2 Hs.
  pose proof (proj1 (applicable_lookup _ _) H1) as A1.
  pose proof (proj1 (applicable_lookup _ _) H2) as A2.
  pose proof (λ o, from_correct_at _ _ _ _ _ (A1 o) (A2 o) (C1 o) (C2 o) (Hs o)) as Hat.
  destruct (diffFrom_spec d1 d2) as (d & Hd & Hl); [intros o; apply Hat|].
  exists d. split; [done|]. split_and!.
  - apply applicable_lookup. intros o. rewrite apply_diff_lookup.
    destruct (Hl o) as [-> ->]. apply Hat.
  - intros o. destruct (Hl o) as [-> ->]. apply Hat.
  - apply map_eq. intros o. rewrite !apply_diff_lookup. destruct (Hl o) as [-> ->]. apply Hat.
  - intros o e. destruct (Hl o) as [-> _]. specialize (A1 o). unfold from_add, keep_unless.
    destruct A1 as [A1 _]. intros He. repeat case_match; simplify_eq; auto.
Qed.

Lemma unique_at b a r a' r' :
  app_ok b a r → app_ok b a' r' → canon_at a r → canon_at a' r' →
  same_at b a → same_at b a' → applied b a r = applied b a' r' → a = a' ∧ r = r'.
Proof. intros. at_outpoint. Qed.

(** A canonical diff is determined by the update it performs. *)
Lemma canonical_unique B d d' :
  applicable B d → applicable B d' → canonical d → canonical d' →
  same_txout B (toAdd d) → same_txout B (toAdd d') →
  apply_diff B d = apply_diff B d' → d = d'.
Proof.
  intros H H' C C' S S' E.
  assert (∀ o, toAdd d !! o = toAdd d' !! o ∧ toRemove d !! o = toRemove d' !! o) as Hat.
  { intros o. apply (unique_at (B !! o));
      [by apply applicable_lookup|by apply applicable_lookup|exact (C o)|exact (C' o)|exact (S o)|exact (S' o)|].
    by rewrite <- !apply_diff_lookup, E. }
  destruct d, d'. f_equal; apply map_eq; intros o; apply (Hat o).
Qed.

Lemma with_canonical_at a1 r1 a2 r2 :
  canon_at a1 r1 → canon_at (with_add a1 r1 a2 r2) (with_remove a1 r1 a2 r2).
Proof. intros C. at_outpoint. all: naive_solver. Qed.

Lemma withDiff_spec_of_ret d1 d2 d :
  withDiff d1 d2 = Ret d → ∀ o,
    toAdd d !! o = with_add (toAdd d1 !! o) (toRemove d1 !! o) (toAdd d2 !! o) (toRemove d2 !! o) ∧
    toRemove d !! o =
      with_remove (toAdd d1 !! o) (toRemove d1 !! o) (toAdd d2 !! o) (toRemove d2 !! o).
Proof.
  intros Hd.
  assert (∀ o, with_guards (toAdd d1 !! o) (toRemove d1 !! o)
                           (toAdd d2 !! o) (toRemove d2 !! o)) as Hg.
  { intros o. unfold withDiff, withDiffInPlace, withDiffConflict in Hd.
    rewrite diff_clone_id in Hd.
    destruct (checkIntersectionWithRule (toRemove d2) (toRemove d1) _) eqn:E1; [done|].
    destruct (checkIntersectionWithRule (toAdd d2) (toAdd d1) _) eqn:E2; [done|].
    split; intros e e' He He'; rewrite <- negb_false_iff.
    - by eapply checkIntersectionWithRule_None in E1.
    - by eapply checkIntersectionWithRule_None in E2. }
  destruct (withDiff_spec d1 d2 Hg) as (d' & Hd' & Hl). rewrite Hd in Hd'. by injection Hd' as <-.
Qed.

Lemma withDiff_canonical d1 d2 d :
  canonical d1 → withDiff d1 d2 = Ret d → canonical d.
Proof.
  intros C Hd o. destruct (withDiff_spec_of_ret _ _ _ Hd o) as [-> ->].
  apply with_canonical_at. exact (C o).
Qed.

(** ** Per-entry updates *)

Section Entries.
Context (B : utxoCollection).

Lemma diff_insert_lookup d d' o :
  (∀ o', o' ≠ o → toAdd d' !! o' = toAdd d !! o' ∧ toRemove d' !! o' = toRemove d !! o') →
  applicable B d → canonical d →
  app_ok (B !! o) (toAdd d' !! o) (toRemove d' !! o) →
  canon_at (toAdd d' !! o) (toRemove d' !! o) →
  applicable B d' ∧ canonical d' ∧
  ∀ o', apply_diff B d' !! o' =
    if decide (o' = o) then applied (B !! o) (toAdd d' !! o) (toRemove d' !! o)
    else apply_diff B d !! o'.
Proof.
  intros Hne Ha Hc Ho Hco. rewrite applicable_lookup in Ha.
  split_and!.
  - apply applicable_lookup. intros o'. destruct (decide (o' = o)) as [->|N]; [done|].
    destruct (Hne o' N) as [-> ->]. apply Ha.
  - intros o'. destruct (decide (o' = o)) as [->|N]; [done|].
    destruct (Hne o' N) as [-> ->]. apply Hc.
  - intros o'. case_decide as N; [by subst; rewrite apply_diff_lookup|].
    rewrite !apply_diff_lookup. by destruct (Hne o' N) as [-> ->].
Qed.

Lemma removeEntry_correct d o e :
  applicable B d → canonical d → apply_diff B d !! o = Some e →
  ∃ d', removeEntry o e d = (d', Ret ()) ∧ applicable B d' ∧ canonical d' ∧
        apply_diff B d' = delete o (apply_diff B d).
Proof.
  intros Ha Hc Ho. rewrite apply_diff_lookup in Ho.
  pose proof (proj1 (applicable_lookup _ _) Ha o) as Hao. specialize (Hc o) as Hco.
  unfold removeEntry, remove, add. rewrite containsWithDAAScore_has.
  destruct (toAdd d !! o) as [a|] eqn:Ea; cbn [has].
  - simpl in Ho. simplify_eq. rewrite Z.eqb_refl. eexists; split; [done|].
    destruct (diff_insert_lookup d (mkDiff (delete o (toAdd d)) (toRemove d)) o)
      as (H1 & H2 & H3); cbn [toAdd toRemove]; rewrite ?lookup_delete_eq; try done.
    { intros o' N. by rewrite lookup_delete_ne. }
    { destruct Hao as [? _]. split; [done|]. by intros []. }
    split_and!; try done. apply map_eq. intros o'. rewrite H3, lookup_delete.
    cbn [toAdd toRemove]. rewrite lookup_delete_eq.
    destruct (decide (o' = o)) as [->|]; [|by rewrite decide_False].
    rewrite decide_True by done. destruct (proj2 Hao) as [->|[? ->]]; [done|..]; [|done].
    by destruct (toRemove d !! o).
  - unfold Contains. destruct (toRemove d !! o) as [r|] eqn:Er; [done|]. simpl in Ho.
    rewrite bool_decide_eq_false_2 by (by intros []). eexists; split; [done|].
    destruct (diff_insert_lookup d (mkDiff (toAdd d) (<[o := e]> (toRemove d))) o)
      as (H1 & H2 & H3); cbn [toAdd toRemove]; rewrite ?lookup_insert_eq; try done.
    { intros o' N. by rewrite lookup_insert_ne. }
    { rewrite Ea. split; [naive_solver|by intros []]. }
    { by rewrite Ea. }
    split_and!; try done. apply map_eq. intros o'. rewrite H3, lookup_delete.
    cbn [toAdd toRemove]. rewrite lookup_insert_eq, Ea.
    destruct (decide (o' = o)) as [->|]; [by rewrite decide_True|by rewrite decide_False].
Qed.

Lemma addEntry_correct d o e :
  applicable B d → canonical d → apply_diff B d !! o = None → same_at (B !! o) (Some e) →
  ∃ d', addEntry o e d = (d', Ret ()) ∧ applicable B d' ∧ canonical d' ∧
        apply_diff B d' = <[o := e]> (apply_diff B d).
Proof.
  intros Ha Hc Ho Hs. rewrite apply_diff_lookup in Ho.
  pose proof (proj1 (applicable_lookup _ _) Ha o) as Hao.
  unfold addEntry, remove, add. rewrite containsWithDAAScore_has.
  destruct (toAdd d !! o) as [a|] eqn:Ea; [done|]. simpl in Ho.
  destruct (has (toRemove d !! o) (ue_blockDAAScore e)) eqn:Eh.
  - destruct (toRemove d !! o) as [r|] eqn:Er; [|done]. apply Z.eqb_eq in Eh.
    destruct Hao as [Hb _]. specialize (Hb r eq_refl).
    pose proof (Hs _ _ Hb eq_refl Eh) as ->. eexists; split; [done|].
    destruct (diff_insert_lookup d (mkDiff (toAdd d) (delete o (toRemove d))) o)
      as (H1 & H2 & H3); cbn [toAdd toRemove]; rewrite ?lookup_delete_eq; try done.
    { intros o' N. by rewrite lookup_delete_ne. }
    { rewrite Ea. split; [done|by intros []]. }
    split_and!; try done. apply map_eq. intros o'. rewrite H3, lookup_insert.
    cbn [toAdd toRemove]. rewrite lookup_delete_eq, Ea, Hb.
    destruct (decide (o' = o)) as [->|]; [by rewrite decide_True|by rewrite decide_False].
  - unfold Contains. rewrite Ea, bool_decide_eq_false_2 by (by intros []).
    eexists; split; [done|].
    destruct (diff_insert_lookup d (mkDiff (<[o := e]> (toAdd d)) (toRemove d)) o)
      as (H1 & H2 & H3); cbn [toAdd toRemove]; rewrite ?lookup_insert_eq; try done.
    { intros o' N. by rewrite lookup_insert_ne. }
    { destruct Hao as [Hb _]. split; [done|]. intros _.
      destruct (toRemove d !! o); [right; eauto|by left]. }
    { intros ? r [= <-] Hr. rewrite Hr in Eh. apply Z.eqb_neq in Eh. naive_solver. }
    split_and!; try done. apply map_eq. intros o'. rewrite H3, lookup_insert.
    cbn [toAdd toRemove]. rewrite lookup_insert_eq.
    destruct (decide (o' = o)) as [->|]; [by rewrite decide_True|by rewrite decide_False].
Qed.
End Entries.

(** ** Transactions *)

(** The set left once the inputs are spent. *)
Definition spend (U : utxoCollection) (inputs : list DomainTransactionInput) : utxoCollection :=
  foldl (λ U input, delete (in_PreviousOutpoint input) U) U inputs.

(** The entries a transaction creates, in output order. *)
Fixpoint created (transactionID : DomainTransactionID) (isCoinbase : bool) (blockDAAScore : Z)
    (i : Z) (outputs : list DomainTransactionOutput) : list (DomainOutpoint * utxoEntry) :=
  match outputs with
  | [] => []
  | output :: outputs =>
      ({| op_TransactionID := transactionID; op_Index := GoInt.uint32 i |},
       NewUTXOEntry (out_Value output) (out_ScriptPublicKey output) isCoinbase blockDAAScore)
      :: created transactionID isCoinbase blockDAAScore (i + 1) outputs
  end.

Definition insert_all (U : utxoCollection) (es : list (DomainOutpoint * utxoEntry))
    : utxoCollection := foldl (λ U oe, <[fst oe := snd oe]> U) U es.

(** Every input names an unspent entry of [U], no outpoint twice. *)
Definition spendable (U : utxoCollection) (inputs : list DomainTransactionInput) : Prop :=
  NoDup (in_PreviousOutpoint <$> inputs) ∧
  ∀ input, input ∈ inputs → ∃ e, in_UTXOEntry input = Some e ∧
    U !! in_PreviousOutpoint input = Some e.

(** No created outpoint is in [U], none is created twice, and an entry the
    base has under a created outpoint and DAA score is the created one. *)
Definition creatable (B U : utxoCollection) (es : list (DomainOutpoint * utxoEntry)) : Prop :=
  NoDup (fst <$> es) ∧
  ∀ o e, (o, e) ∈ es → U !! o = None ∧ same_at (B !! o) (Some e).

Section TransactionLemmas.
Context (B : utxoCollection).

Lemma removeInputs_correct inputs d :
  applicable B d → canonical d → spendable (apply_diff B d) inputs →
  ∃ d', removeInputs inputs d = (d', Ret ()) ∧ applicable B d' ∧ canonical d' ∧
        apply_diff B d' = spend (apply_diff B d) inputs.
Proof.
  revert d. induction inputs as [|i inputs IH]; intros d Ha Hc [Hnd Hin]; [by exists d|].
  rewrite fmap_cons, NoDup_cons in Hnd. destruct Hnd as [Hni Hnd].
  destruct (Hin i ltac:(left)) as (e & He & Hl).
  destruct (removeEntry_correct B d _ e Ha Hc Hl) as (d1 & Hd1 & Ha1 & Hc1 & Happ).
  destruct (IH d1 Ha1 Hc1) as (d2 & Hd2 & ?).
  { split; [done|]. intros j Hj. destruct (Hin j ltac:(by right)) as (e' & ? & ?).
    exists e'. split; [done|]. rewrite Happ, lookup_delete_ne; [done|].
    intros Heq. apply Hni. rewrite Heq. by apply list_elem_of_fmap_2. }
  exists d2. cbn [removeInputs]. rewrite He. unfold bind. rewrite Hd1.
  cbn [spend foldl]. by rewrite <- Happ.
Qed.

Lemma addOutputs_correct txid cb score outputs i d :
  applicable B d → canonical d →
  creatable B (apply_diff B d) (created txid cb score i outputs) →
  ∃ d', addOutputs txid cb score i outputs d = (d', Ret ()) ∧ applicable B d' ∧ canonical d' ∧
        apply_diff B d' = insert_all (apply_diff B d) (created txid cb score i outputs).
Proof.
  revert i d. induction outputs as [|output outputs IH]; intros i d Ha Hc [Hnd Hin];
    [by exists d|].
  cbn [created] in *. rewrite fmap_cons, NoDup_cons in Hnd. destruct Hnd as [Hni Hnd].
  destruct (Hin _ _ ltac:(left)) as [Hnone Hsame].
  edestruct (addEntry_correct B d) as (d1 & Hd1 & Ha1 & Hc1 & Happ); [done..|].
  destruct (IH (i + 1) d1 Ha1 Hc1) as (d2 & Hd2 & ?).
  { split; [done|]. intros o e Hoe. destruct (Hin o e ltac:(by right)) as [? ?].
    split; [|done]. rewrite Happ, lookup_insert_ne; [done|].
    intros Heq. apply Hni. cbn [fst]. rewrite Heq.
    by apply (list_elem_of_fmap_2 fst _ (o, e)). }
  exists d2. cbn [addOutputs]. unfold bind. rewrite Hd1.
  unfold insert_all in *. cbn [foldl fst snd]. by rewrite <- Happ.
Qed.
End TransactionLemmas.

(** The outpoints of one transaction are distinct: indices do not wrap. *)
Lemma created_nodup txid cb score i outputs :
  0 ≤ i → i + zlen outputs ≤ 2 ^ 32 → NoDup (fst <$> created txid cb score i outputs).
Proof.
  revert i. induction outputs as [|o outputs IH]; intros i H1 H2; [constructor|].
  rewrite zlen_cons in H2. cbn [created]. rewrite fmap_cons. apply NoDup_cons. split.
  2:{ apply IH; lia. }
  cbn [fst]. clear IH.
  assert (∀ j k, i < j → j + zlen k ≤ 2 ^ 32 →
    {| op_TransactionID := txid; op_Index := GoInt.uint32 i |} ∉ fst <$> created txid cb score j k)
    as Hfresh; [|apply Hfresh; lia].
  intros j k. revert j. induction k as [|o' k IH]; intros j Hj Hk; [apply not_elem_of_nil|].
  rewrite zlen_cons in Hk. pose proof (zlen_nonneg k). pose proof (zlen_nonneg outputs).
  cbn [created]. rewrite fmap_cons. apply not_elem_of_cons.
  split; [|apply IH; lia]. cbn [fst]. unfold GoInt.uint32. intros [= Heq].
  rewrite !GoInt.uwrap_id in Heq by (unfold GoInt.in_uint; lia). lia.
Qed.

(** Two collections satisfy a relation wherever both are defined. *)
Lemma pairwise_dec (R : utxoEntry → utxoEntry → Prop) (Rdec : ∀ e1 e2, Decision (R e1 e2)) (c1 c2 : utxoCollection) :
  Decision (∀ o e1 e2, c1 !! o = Some e1 → c2 !! o = Some e2 → R e1 e2).
Proof.
  pose (P o e1 := match c2 !! o with Some e2 => R e1 e2 | None => True end).
  assert (∀ o e1, Decision (P o e1)) as Pdec by (intros o e1; unfold P; destruct (c2 !! o); apply _).
  destruct (decide (map_Forall P c1)) as [m|n];
    [left; intros o e1 e2 H1 H2|right; intros H].
  - specialize (m o e1 H1). unfold P in m. by rewrite H2 in m.
  - apply n. intros o e1 H1. unfold P. destruct (c2 !! o) as [e2|] eqn:E; [|done]. eauto.
Defined.

#[export] Instance same_txout_dec c1 c2 : Decision (same_txout c1 c2).
Proof.
  apply (pairwise_dec (λ e1 e2, ue_blockDAAScore e1 = ue_blockDAAScore e2 → e1 = e2) _).
Defined.

#[export] Instance canonical_dec d : Decision (canonical d).
Proof.
  apply (pairwise_dec (λ e1 e2, ue_blockDAAScore e1 ≠ ue_blockDAAScore e2) _).
Defined.

#[export] Instance applicable_dec B d : Decision (applicable B d).
Proof. unfold applicable. apply _. Defined.

Lemma withDiff_fail_inv d1 d2 err :
  withDiff d1 d2 = Fail err →
  ∃ o, (∃ e e', toRemove d2 !! o = Some e ∧ toRemove d1 !! o = Some e' ∧
          containsWithDAAScore (toAdd d1) o (ue_blockDAAScore e) = false) ∨
       (∃ e e', toAdd d2 !! o = Some e ∧ toAdd d1 !! o = Some e' ∧
          containsWithDAAScore (toRemove d2) o (ue_blockDAAScore e') = false).
Proof.
  unfold withDiff, withDiffInPlace, withDiffConflict. rewrite diff_clone_id.
  destruct (checkIntersectionWithRule (toRemove d2) (toRemove d1) _) as [o|] eqn:E1.
  { intros _. apply checkIntersectionWithRule_Some in E1 as (e & e' & H1 & H2 & H3).
    apply negb_true_iff in H3. exists o. left. eauto 10. }
  destruct (checkIntersectionWithRule (toAdd d2) (toAdd d1) _) as [o|] eqn:E2; [|done].
  intros _. apply checkIntersectionWithRule_Some in E2 as (e & e' & H1 & H2 & H3).
  apply negb_true_iff in H3. exists o. right. eauto 10.
Qed.

Lemma reversed_at b a r :
  app_ok b a r → app_ok (applied b a r) r a ∧ applied (applied b a r) r a = b.
Proof. intros H. at_outpoint. Qed.

Lemma with_add_from a1 r1 a2 r2 e :
  with_add a1 r1 a2 r2 = Some e → a2 = Some e ∨ a1 = Some e.
Proof.
  unfold with_add, keep_unless, with_add1. intros H.
  repeat case_match; simplify_eq; auto.
Qed.

(** [AddTransaction] on the set the diff stands for. *)
Lemma AddTransaction_spec (TransactionID : DomainTransaction → DomainTransactionID)
    (B : utxoCollection) (d : diff) (tx : DomainTransaction) (score : Z)
    (H : applicable B d) (C : canonical d)
    (Hin : spendable (apply_diff B d) (tx_Inputs tx))
    (Hout : ∀ o e, (o, e) ∈ created (TransactionID tx) (IsCoinBase tx) score 0 (tx_Outputs tx) →
      spend (apply_diff B d) (tx_Inputs tx) !! o = None ∧ same_at (B !! o) (Some e))
    (Hlen : zlen (tx_Outputs tx) ≤ 2 ^ 32) :
  ∃ d', AddTransaction TransactionID tx score d = (d', Ret ()) ∧
    applicable B d' ∧ canonical d' ∧
    apply_diff B d' = insert_all (spend (apply_diff B d) (tx_Inputs tx))
      (created (TransactionID tx) (IsCoinBase tx) score 0 (tx_Outputs tx)).
Proof.
  destruct (removeInputs_correct B (tx_Inputs tx) d H C Hin) as (d1 & Hd1 & Ha1 & Hc1 & Happ1).
  rewrite <- Happ1 in *.
  destruct (addOutputs_correct B (TransactionID tx) (IsCoinBase tx) score (tx_Outputs tx) 0 d1)
    as (d2 & Hd2 & ? & ? & ?); [done..|split; [apply created_nodup; lia|done]|].
  exists d2. split_and!; try done. unfold AddTransaction, bind. by rewrite Hd1.
Qed.

(** ** Properties *)

Module UtxoProps.
(** Concrete data for the witnesses: a base with two entries, a diff that
    spends the first one and creates a third, and a diff that re-creates
    the first one with a later DAA score. *)
Definition ex_spk : ScriptPublicKey := {| spk_Script := [81]; spk_Version := 0 |}.
Definition ex_op (i : Z) : DomainOutpoint := NewDomainOutpoint [7] i.
Definition ex_entry (amount score : Z) : utxoEntry := NewUTXOEntry amount ex_spk false score.
Definition ex_base : utxoCollection :=
  {[ ex_op 0 := ex_entry 100 5; ex_op 1 := ex_entry 200 6 ]}.
Definition ex_d1 : diff :=
  mkDiff {[ ex_op 2 := ex_entry 90 9 ]} {[ ex_op 0 := ex_entry 100 5 ]}.
Definition ex_d2 : diff :=
  mkDiff {[ ex_op 0 := ex_entry 100 11 ]} {[ ex_op 2 := ex_entry 90 9 ]}.
Definition ex_d3 : diff :=
  mkDiff {[ ex_op 0 := ex_entry 100 11 ]} {[ ex_op 0 := ex_entry 100 5 ]}.

(** C29: [withDiff] implements sequential composition.  When [d1] is an update
    of the base and [d2] an update of the set [d1] yields, [withDiff d1 d2]
    returns a diff (it does not report a conflict), that diff is an update of
    the base, canonical if [d1] is, and applying it gives the same UTXO set as
    applying [d1] and then [d2]. *)
Theorem withDiff_correct (B : utxoCollection) (d1 d2 : diff)
    (H1 : applicable B d1) (H2 : applicable (apply_diff B d1) d2) (C1 : canonical d1)
    (Hs : same_txout B (toAdd d2)) :
  ∃ d, withDiff d1 d2 = Ret d ∧ applicable B d ∧ canonical d ∧
       apply_diff B d = apply_diff (apply_diff B d1) d2.
Proof.
  destruct (withDiff_composes B d1 d2 H1 H2 Hs) as (d & Hd & ? & ?).
  exists d. split_and!; try done. by eapply withDiff_canonical.
Qed.

Lemma withDiff_correct_witness :
  ∃ d, withDiff ex_d1 ex_d2 = Ret d ∧ applicable ex_base d ∧ canonical d ∧
       apply_diff ex_base d = apply_diff (apply_diff ex_base ex_d1) ex_d2.
Proof.
  apply (withDiff_correct ex_base ex_d1 ex_d2).
  - apply (bool_decide_unpack _). vm_compute. exact I.
  - apply (bool_decide_unpack _). vm_compute. exact I.
  - apply (bool_decide_unpack _). vm_compute. exact I.
  - apply (bool_decide_unpack _). vm_compute. exact I.
Defined.

(** C31: [diffFrom] implements the difference of two updates of one base.  For
    canonical updates [d1] and [d2] of the same base, [diffFrom d1 d2] reports
    no error, and its result is an update of the set [d1] yields that turns it
    into the set [d2] yields. *)
Theorem diffFrom_correct (B : utxoCollection) (d1 d2 : diff)
    (H1 : applicable B d1) (H2 : applicable B d2) (C1 : canonical d1) (C2 : canonical d2)
    (Hs : same_txout (toAdd d1) (toAdd d2)) :
  ∃ d, diffFrom d1 d2 = Ret d ∧ applicable (apply_diff B d1) d ∧ canonical d ∧
       apply_diff (apply_diff B d1) d = apply_diff B d2.
Proof.
  destruct (from_correct B d1 d2 H1 H2 C1 C2 Hs) as (d & ? & ? & ? & ? & _). by exists d.
Qed.

Lemma diffFrom_correct_witness :
  ∃ d, diffFrom ex_d1 ex_d3 = Ret d ∧ applicable (apply_diff ex_base ex_d1) d ∧ canonical d ∧
       apply_diff (apply_diff ex_base ex_d1) d = apply_diff ex_base ex_d3.
Proof.
  apply (diffFrom_correct ex_base ex_d1 ex_d3).
  - apply (bool_decide_unpack _). vm_compute. exact I.
  - apply (bool_decide_unpack _). vm_compute. exact I.
  - apply (bool_decide_unpack _). vm_compute. exact I.
  - apply (bool_decide_unpack _). vm_compute. exact I.
  - apply (bool_decide_unpack _). vm_compute. exact I.
Defined.

(** [diffFrom] and [withDiff] are inverse.  For canonical updates of one
    base, composing [d1] with [diffFrom d1 d2] gives back [d2] itself, not only
    a diff with the same effect. *)
Theorem diffFrom_withDiff_roundtrip (B : utxoCollection) (d1 d2 : diff)
    (H1 : applicable B d1) (H2 : applicable B d2) (C1 : canonical d1) (C2 : canonical d2)
    (Hs : same_txout (toAdd d1) (toAdd d2))
    (Hb1 : same_txout B (toAdd d1)) (Hb2 : same_txout B (toAdd d2)) :
  ∃ d, diffFrom d1 d2 = Ret d ∧ withDiff d1 d = Ret d2.
Proof.
  destruct (from_correct B d1 d2 H1 H2 C1 C2 Hs) as (d & Hd & Ha & Hc & Happ & Hfrom).
  exists d. split; [done|].
  assert (same_txout B (toAdd d)) as Hsd.
  { intros o e1 e2 Hb He. destruct (Hfrom o e2 He) as [He2|He2]; [by apply (Hb2 o)|].
    congruence. }
  destruct (withDiff_composes B d1 d H1 Ha Hsd) as (d' & Hd' & Ha' & Happ').
  rewrite Hd'. f_equal.
  pose proof (withDiff_spec_of_ret d1 d d' Hd') as Hl.
  apply (canonical_unique B);
    [done|done|exact (withDiff_canonical _ _ _ C1 Hd')|done| |done|by rewrite Happ'].
  intros o e1 e2 Hb He. rewrite (proj1 (Hl o)) in He.
  destruct (with_add_from _ _ _ _ _ He) as [He'|He']; [by apply (Hsd o)|by apply (Hb1 o)].
Qed.

Lemma diffFrom_withDiff_roundtrip_witness :
  ∃ d, diffFrom ex_d1 ex_d3 = Ret d ∧ withDiff ex_d1 d = Ret ex_d3.
Proof.
  apply (diffFrom_withDiff_roundtrip ex_base ex_d1 ex_d3);
    apply (bool_decide_unpack _); vm_compute; exact I.
Defined.

(** [AddTransaction] performs the transaction on the UTXO set the diff
    stands for.  If every input names an entry of the current set (none
    twice) and no output outpoint is already there, it succeeds, keeps the
    diff an update of the base and canonical, and the new set is the old one
    with the inputs deleted and the outputs, numbered from 0, inserted. *)
Theorem AddTransaction_correct (TransactionID : DomainTransaction → DomainTransactionID)
    (B : utxoCollection) (d : diff) (tx : DomainTransaction) (score : Z)
    (H : applicable B d) (C : canonical d)
    (Hin : spendable (apply_diff B d) (tx_Inputs tx))
    (Hout : ∀ o e, (o, e) ∈ created (TransactionID tx) (IsCoinBase tx) score 0 (tx_Outputs tx) →
      spend (apply_diff B d) (tx_Inputs tx) !! o = None ∧ same_at (B !! o) (Some e))
    (Hlen : zlen (tx_Outputs tx) ≤ 2 ^ 32) :
  ∃ d', AddTransaction TransactionID tx score d = (d', Ret ()) ∧
    applicable B d' ∧ canonical d' ∧
    apply_diff B d' = insert_all (spend (apply_diff B d) (tx_Inputs tx))
      (created (TransactionID tx) (IsCoinBase tx) score 0 (tx_Outputs tx)).
Proof. by apply AddTransaction_spec. Qed.

Definition ex_tx : DomainTransaction :=
  {| tx_Version := 0;
     tx_Inputs := [ {| in_PreviousOutpoint := ex_op 1; in_SignatureScript := [];
                       in_Sequence := 0; in_UTXOEntry := Some (ex_entry 200 6) |} ];
     tx_Outputs := [ {| out_Value := 120; out_ScriptPublicKey := ex_spk |};
                     {| out_Value := 70; out_ScriptPublicKey := ex_spk |} ];
     tx_LockTime := 0; tx_SubnetworkID := SubnetworkIDNative; tx_Gas := 0; tx_Payload := [];
     tx_Fee := 0; tx_Mass := 0; tx_ID := None |}.

Lemma AddTransaction_correct_witness :
  ∃ d', AddTransaction (λ _, [8]) ex_tx 12 ex_d1 = (d', Ret ()) ∧
    applicable ex_base d' ∧ canonical d' ∧
    apply_diff ex_base d' = insert_all (spend (apply_diff ex_base ex_d1) (tx_Inputs ex_tx))
      (created [8] false 12 0 (tx_Outputs ex_tx)).
Proof.
  apply (AddTransaction_correct (λ _, [8]) ex_base ex_d1 ex_tx 12).
  - apply (bool_decide_unpack _). vm_compute. exact I.
  - apply (bool_decide_unpack _). vm_compute. exact I.
  - split; [apply (bool_decide_unpack _); vm_compute; exact I|].
    intros input [->|Hn]%elem_of_cons; [|by apply not_elem_of_nil in Hn].
    exists (ex_entry 200 6). split; vm_compute; reflexivity.
  - intros o e [Heq|[Heq|Hn]%elem_of_cons]%elem_of_cons; [..|by apply not_elem_of_nil in Hn];
      injection Heq as -> ->; (split; [vm_compute; reflexivity|]); intros e1 e2; vm_compute;
      discriminate.
  - vm_compute. discriminate.
Defined.

(** [withDiff] reports an error exactly on a conflict: the second diff
    removes an outpoint the first one already removes without having re-added
    the entry being removed, or it adds an outpoint the first one already adds
    without removing that entry. *)
Theorem withDiff_error_iff (d1 d2 : diff) :
  (∃ err, withDiff d1 d2 = Fail err) ↔
  ∃ o, (∃ e e', toRemove d2 !! o = Some e ∧ toRemove d1 !! o = Some e' ∧
          containsWithDAAScore (toAdd d1) o (ue_blockDAAScore e) = false) ∨
       (∃ e e', toAdd d2 !! o = Some e ∧ toAdd d1 !! o = Some e' ∧
          containsWithDAAScore (toRemove d2) o (ue_blockDAAScore e') = false).
Proof.
  split.
  - intros [err Herr]. by eapply withDiff_fail_inv.
  - intros (o & Hc). apply withDiff_fails. intros Hg. destruct (Hg o) as [G1 G2].
    destruct Hc as [(e & e' & H1 & H2 & H3)|(e & e' & H1 & H2 & H3)];
      rewrite containsWithDAAScore_has in H3.
    + by rewrite (G1 e e' H1 H2) in H3.
    + by rewrite (G2 e e' H1 H2) in H3.
Qed.

(** [Reversed] undoes an update: if [d] is an update of [B], the reversed
    diff is an update of the set [d] yields and gives [B] back. *)
Theorem Reversed_undoes (B : utxoCollection) (d : diff) (H : applicable B d) :
  applicable (apply_diff B d) (diff_Reversed d) ∧
  apply_diff (apply_diff B d) (diff_Reversed d) = B.
Proof.
  pose proof (λ o, reversed_at _ _ _ (proj1 (applicable_lookup _ _) H o)) as Hat. split.
  - apply applicable_lookup. intros o. rewrite apply_diff_lookup. apply Hat.
  - apply map_eq. intros o. rewrite !apply_diff_lookup. apply Hat.
Qed.

Lemma Reversed_undoes_witness :
  applicable (apply_diff ex_base ex_d3) (diff_Reversed ex_d3) ∧
  apply_diff (apply_diff ex_base ex_d3) (diff_Reversed ex_d3) = ex_base.
Proof.
  apply (Reversed_undoes ex_base ex_d3). apply (bool_decide_unpack _). vm_compute. exact I.
Defined.
End UtxoProps.
