(* ===== verification/UtxoStore.v ===== *)
(** * Mutable and immutable UTXO diffs, with their sharing

    Models the objects of src/domain/consensus/utils/utxo:
    [mutableUTXODiff] (mutable_utxo_diff.go) and the [immutableUTXODiff]
    references handed out by [ToImmutable] (immutable_utxo_diff.go).  A Go
    map is a reference, so a diff object does not contain its collections but
    points to them, and an immutable reference points to the mutable object
    it was made from.  The store [heap] has the three kinds of objects; a
    pointer is an index.

    The promise of the package is that an immutable reference never shows a
    collection that changed after the reference was made: mutating a diff
    first marks every reference made from it, and reading a marked reference
    panics.  [stable_references] proves it for every sequence of client
    calls that does not use [Reversed]; [Reversed] shares the collections
    with an object that no mutation marks, see [Reversed_reads_mutated]. *)

From S2P Require Import Prelude Externalapi UtxoDiff.
Local Open Scope Z_scope.
Local Open Scope prog_scope.

Record mutableUTXODiff := {
  mud_toAdd : nat;
  mud_toRemove : nat;
  mud_immutableReferences : list nat
}.

Record immutableUTXODiff := {
  iud_mutableUTXODiff : nat;
  iud_isInvalidated : bool
}.

Record heap := {
  h_maps : list utxoCollection;
  h_muds : list mutableUTXODiff;
  h_iuds : list immutableUTXODiff
}.

Abbreviation method A := (prog heap utxoError A) (only parsing).

(** ** The store *)

Definition load {A} (l : list A) (p : nat) : method A :=
  match l !! p with
  | Some x => ret x
  | None => crash_with NilDereference
  end.

Definition alloc_map (c : utxoCollection) : method nat := λ h,
  ({| h_maps := h_maps h ++ [c]; h_muds := h_muds h; h_iuds := h_iuds h |},
   Ret (length (h_maps h))).

Definition alloc_mud (m : mutableUTXODiff) : method nat := λ h,
  ({| h_maps := h_maps h; h_muds := h_muds h ++ [m]; h_iuds := h_iuds h |},
   Ret (length (h_muds h))).

Definition alloc_iud (i : immutableUTXODiff) : method nat := λ h,
  ({| h_maps := h_maps h; h_muds := h_muds h; h_iuds := h_iuds h ++ [i] |},
   Ret (length (h_iuds h))).

Definition set_mud (p : nat) (m : mutableUTXODiff) : method unit := λ h,
  ({| h_maps := h_maps h; h_muds := <[p := m]> (h_muds h); h_iuds := h_iuds h |}, Ret ()).

Definition load_mud (p : nat) : method mutableUTXODiff :=
  let* h := get in load (h_muds h) p.
Definition load_iud (p : nat) : method immutableUTXODiff :=
  let* h := get in load (h_iuds h) p.

(** The two collections a mutable diff points to. *)
Definition load_diff (p : nat) : method diff :=
  let* mud := load_mud p in
  let* h := get in
  let* a := load (h_maps h) (mud_toAdd mud) in
  let* r := load (h_maps h) (mud_toRemove mud) in
  ret (mkDiff a r).

(** Writing through the two map references. *)
Definition store_diff (p : nat) (d : diff) : method unit :=
  let* mud := load_mud p in
  modify (λ h, {| h_maps := <[mud_toAdd mud := toAdd d]>
                              (<[mud_toRemove mud := toRemove d]> (h_maps h));
                  h_muds := h_muds h; h_iuds := h_iuds h |}).

(** ** mutable_utxo_diff.go *)

(** A new object with its own collections. *)
Definition alloc_diff (d : diff) : method nat :=
  let* a := alloc_map (toAdd d) in
  let* r := alloc_map (toRemove d) in
  alloc_mud {| mud_toAdd := a; mud_toRemove := r; mud_immutableReferences := [] |}.

Definition newMutableUTXODiff : method nat := alloc_diff (mkDiff ∅ ∅).

Definition ToImmutable (mud : nat) : method nat :=
  let* immutableReference :=
    alloc_iud {| iud_mutableUTXODiff := mud; iud_isInvalidated := false |} in
  let* m := load_mud mud in
  set_mud mud {| mud_toAdd := mud_toAdd m; mud_toRemove := mud_toRemove m;
                 mud_immutableReferences := mud_immutableReferences m ++ [immutableReference] |} ;;*
  ret immutableReference.

Definition invalidate (i : immutableUTXODiff) : immutableUTXODiff :=
  {| iud_mutableUTXODiff := iud_mutableUTXODiff i; iud_isInvalidated := true |}.

Definition invalidateImmutableReferences (mud : nat) : method unit :=
  let* m := load_mud mud in
  modify (λ h, {| h_maps := h_maps h; h_muds := h_muds h;
                  h_iuds := foldl (λ l p, alter invalidate p l) (h_iuds h)
                                  (mud_immutableReferences m) |}) ;;*
  set_mud mud {| mud_toAdd := mud_toAdd m; mud_toRemove := mud_toRemove m;
                 mud_immutableReferences := [] |}.

Definition mud_WithDiff (mud other : nat) : method nat :=
  let* o := load_iud other in
  let* this := load_diff mud in
  let* that := load_diff (iud_mutableUTXODiff o) in
  let* result := lift_outcome (withDiff this that) in
  let* result := alloc_diff result in
  ToImmutable result.

(** withDiffInPlace on the store: the second pass reads [other.toAdd] after
    the first one has written this diff's collections. *)
Definition store_withDiffInPlace (mud other : nat) : method unit :=
  let* this := load_diff mud in
  let* that := load_diff other in
  match withDiffConflict this that with
  | Some err => fail err
  | None =>
      store_diff mud (withRemovals this (toRemove that)) ;;*
      let* this := load_diff mud in
      let* that := load_diff other in
      store_diff mud (withAdditions this (toAdd that))
  end.

Definition mud_WithDiffInPlace (mud other : nat) : method unit :=
  let* o := load_iud other in
  invalidateImmutableReferences mud ;;*
  store_withDiffInPlace mud (iud_mutableUTXODiff o).

Definition mud_DiffFrom (mud other : nat) : method nat :=
  let* o := load_iud other in
  let* this := load_diff mud in
  let* that := load_diff (iud_mutableUTXODiff o) in
  let* result := lift_outcome (diffFrom this that) in
  let* result := alloc_diff result in
  ToImmutable result.

Definition mud_ToAdd (mud : nat) : method nat :=
  let* m := load_mud mud in ret (mud_toAdd m).
Definition mud_ToRemove (mud : nat) : method nat :=
  let* m := load_mud mud in ret (mud_toRemove m).

(** A failing AddTransaction leaves the entries it had already processed. *)
Definition mud_AddTransaction (TransactionID : DomainTransaction → DomainTransactionID)
    (mud : nat) (transaction : DomainTransaction) (blockDAAScore : Z) : method unit :=
  invalidateImmutableReferences mud ;;*
  let* d := load_diff mud in
  let '(d', o) := AddTransaction TransactionID transaction blockDAAScore d in
  store_diff mud d' ;;* lift_outcome o.

Definition mud_clone (mud : nat) : method nat :=
  let* d := load_diff mud in alloc_diff (diff_clone d).

Definition mud_Reversed (mud : nat) : method nat :=
  let* m := load_mud mud in
  alloc_mud {| mud_toAdd := mud_toRemove m; mud_toRemove := mud_toAdd m;
               mud_immutableReferences := mud_immutableReferences m |}.

(** ** immutable_utxo_diff.go *)

(** Every method first panics on an invalidated receiver. *)
Definition check_valid (i : immutableUTXODiff) : method unit :=
  if iud_isInvalidated i then crash_with ExplicitPanic else ret ().

Definition iud_ToAdd (iud : nat) : method nat :=
  let* i := load_iud iud in check_valid i ;;* mud_ToAdd (iud_mutableUTXODiff i).

Definition iud_ToRemove (iud : nat) : method nat :=
  let* i := load_iud iud in check_valid i ;;* mud_ToRemove (iud_mutableUTXODiff i).

Definition iud_WithDiff (iud other : nat) : method nat :=
  let* i := load_iud iud in check_valid i ;;* mud_WithDiff (iud_mutableUTXODiff i) other.

Definition iud_DiffFrom (iud other : nat) : method nat :=
  let* i := load_iud iud in check_valid i ;;* mud_DiffFrom (iud_mutableUTXODiff i) other.

Definition newUTXODiff : method nat :=
  let* m := newMutableUTXODiff in
  alloc_iud {| iud_mutableUTXODiff := m; iud_isInvalidated := false |}.

Definition NewUTXODiffFromCollections (add remove : nat) : method nat :=
  let* m := alloc_mud {| mud_toAdd := add; mud_toRemove := remove;
                         mud_immutableReferences := [] |} in
  alloc_iud {| iud_mutableUTXODiff := m; iud_isInvalidated := false |}.

Definition CloneMutable (iud : nat) : method nat :=
  let* i := load_iud iud in check_valid i ;;* mud_clone (iud_mutableUTXODiff i).

Definition iud_Reversed (iud : nat) : method nat :=
  let* i := load_iud iud in
  check_valid i ;;*
  let* m := mud_Reversed (iud_mutableUTXODiff i) in
  alloc_iud {| iud_mutableUTXODiff := m; iud_isInvalidated := false |}.

(** ** What a reference shows *)

Definition mud_view (h : heap) (m : nat) : option diff :=
  mud ← h_muds h !! m;
  a ← h_maps h !! mud_toAdd mud;
  r ← h_maps h !! mud_toRemove mud;
  Some (mkDiff a r).

(** No reference made from [m] is readable. *)
Definition quiet (h : heap) (m : nat) : Prop :=
  ∀ i r, h_iuds h !! i = Some r → iud_mutableUTXODiff r = m → iud_isInvalidated r = true.

(** The invariant of the store; [ms] are the mutable diffs a client holds. *)
Record store_inv (h : heap) (ms : list nat) : Prop := {
  inv_maps : ∀ m mud, h_muds h !! m = Some mud →
    (mud_toAdd mud < length (h_maps h))%nat ∧ (mud_toRemove mud < length (h_maps h))%nat ∧
    mud_toAdd mud ≠ mud_toRemove mud;
  inv_sep : ∀ m1 m2 mud1 mud2, m1 ≠ m2 →
    h_muds h !! m1 = Some mud1 → h_muds h !! m2 = Some mud2 →
    mud_toAdd mud1 ≠ mud_toAdd mud2 ∧ mud_toAdd mud1 ≠ mud_toRemove mud2 ∧
    mud_toRemove mud1 ≠ mud_toAdd mud2 ∧ mud_toRemove mud1 ≠ mud_toRemove mud2;
  inv_iuds : ∀ i r, h_iuds h !! i = Some r → (iud_mutableUTXODiff r < length (h_muds h))%nat;
  inv_held : ∀ m, m ∈ ms → (m < length (h_muds h))%nat;
  inv_registered : ∀ i r mud, h_iuds h !! i = Some r → iud_isInvalidated r = false →
    iud_mutableUTXODiff r ∈ ms → h_muds h !! iud_mutableUTXODiff r = Some mud →
    i ∈ mud_immutableReferences mud
}.

(** Every reference of [h] is in [h'], a marked one stays marked, and one that
    is not marked shows what it showed. *)
Definition keeps (h h' : heap) : Prop :=
  (length (h_muds h) ≤ length (h_muds h'))%nat ∧
  ∀ i r, h_iuds h !! i = Some r → ∃ r', h_iuds h' !! i = Some r' ∧
    iud_mutableUTXODiff r' = iud_mutableUTXODiff r ∧
    (iud_isInvalidated r = true → iud_isInvalidated r' = true) ∧
    (iud_isInvalidated r' = false →
     mud_view h' (iud_mutableUTXODiff r) = mud_view h (iud_mutableUTXODiff r)).

#[export] Instance keeps_preorder : PreOrder keeps.
Proof.
  split.
  - intros h. split; [done|]. intros i r H. by exists r.
  - intros h1 h2 h3 [L1 K1] [L2 K2]. split; [lia|]. intros i r H.
    destruct (K1 i r H) as (r1 & H1 & E1 & I1 & V1), (K2 i r1 H1) as (r2 & H2 & E2 & I2 & V2).
    exists r2. rewrite E1 in *. split_and!; [done|done|auto|].
    intros Hv. rewrite V2 by done. apply V1.
    destruct (iud_isInvalidated r1); [|done]. rewrite I2 in Hv by done. done.
Qed.

(** [m] run from a state of the invariant keeps it and every reference; a
    panic ends the process. *)
Definition preserving {A} (ms : list nat) (m : method A) (h : heap) (Q : A → heap → Prop) : Prop :=
  match m h with
  | (h', Ret a) => store_inv h' ms ∧ keeps h h' ∧ Q a h'
  | (h', Fail _) => store_inv h' ms ∧ keeps h h'
  | (_, Crash _) => True
  end.

Section Preserving.
Context (ms : list nat).

Lemma preserving_bind {A B} (m : method A) (k : A → method B) h Q :
  preserving ms m h (λ a h', store_inv h' ms → keeps h h' → preserving ms (k a) h' Q) →
  preserving ms (bind m k) h Q.
Proof.
  unfold preserving, bind. destruct (m h) as [h1 [a|e|c]]; [|done..].
  intros (I1 & K1 & H). specialize (H I1 K1).
  destruct (k a h1) as [h2 [b|e|c]]; [|..|done].
  - destruct H as (? & ? & ?). split_and!; [done|by etrans|done].
  - destruct H. split; [done|by etrans].
Qed.

Lemma preserving_mono {A} (m : method A) h (Q Q' : A → heap → Prop) :
  preserving ms m h Q → (∀ a h', Q a h' → Q' a h') → preserving ms m h Q'.
Proof. unfold preserving. destruct (m h) as [h1 [a|e|c]]; naive_solver. Qed.

(** Reading does not change the store. *)
Lemma preserving_read {A} (m : method A) h (Q : A → heap → Prop) :
  store_inv h ms → (∀ h', fst (m h') = h') → (∀ a, snd (m h) = Ret a → Q a h) →
  preserving ms m h Q.
Proof.
  intros I Hm HQ. unfold preserving. specialize (Hm h) as Hh.
  destruct (m h) as [h1 [a|e|c]] eqn:E; simpl in *; subst; naive_solver.
Qed.

Lemma bind_reads {A B} (m : method A) (k : A → method B) h :
  (∀ h, fst (m h) = h) → (∀ a h, fst (k a h) = h) → fst (bind m k h) = h.
Proof.
  intros H1 H2. unfold bind. specialize (H1 h). destruct (m h) as [h' [a|e|c]]; simpl in *;
    by subst.
Qed.

Lemma load_reads {A} (l : list A) p h : fst (load l p h) = h.
Proof. unfold load. by destruct (l !! p). Qed.

Lemma load_mud_reads p h : fst (load_mud p h) = h.
Proof. apply bind_reads; [done|]. intros. apply load_reads. Qed.

Lemma load_iud_reads p h : fst (load_iud p h) = h.
Proof. apply bind_reads; [done|]. intros. apply load_reads. Qed.

Lemma load_diff_reads p h : fst (load_diff p h) = h.
Proof.
  apply bind_reads; [apply load_mud_reads|intros mud h1].
  apply bind_reads; [done|intros h2 h3].
  repeat (apply bind_reads; [apply load_reads|intros]). done.
Qed.

Lemma check_valid_reads i h : fst (check_valid i h) = h.
Proof. unfold check_valid. by destruct (iud_isInvalidated i). Qed.

Lemma load_mud_ret p h mud : snd (load_mud p h) = Ret mud → h_muds h !! p = Some mud.
Proof.
  unfold load_mud, bind, get, load. destruct (h_muds h !! p) as [m|]; simpl; [|done].
  by intros [= ->].
Qed.
End Preserving.

(** ** The primitive updates *)

Lemma mud_view_app h maps muds m :
  (∀ m' mud, h_muds h !! m' = Some mud → (mud_toAdd mud < length (h_maps h))%nat ∧
     (mud_toRemove mud < length (h_maps h))%nat) →
  (m < length (h_muds h))%nat → ∀ iuds,
  mud_view {| h_maps := h_maps h ++ maps; h_muds := h_muds h ++ muds; h_iuds := iuds |} m
  = mud_view h m.
Proof.
  intros Hb Hm iuds. unfold mud_view. simpl. rewrite lookup_app_l by done.
  destruct (h_muds h !! m) as [mud|] eqn:E; [|done]. simpl.
  destruct (Hb m mud E). by rewrite !lookup_app_l by lia.
Qed.

Section Primitives.
Context (ms : list nat).

Lemma alloc_diff_preserving d h :
  store_inv h ms →
  preserving ms (alloc_diff d) h (λ m h', m ∉ ms ∧ (m < length (h_muds h'))%nat ∧ quiet h' m).
Proof.
  intros I. unfold preserving, alloc_diff, bind, alloc_map, alloc_mud. simpl.
  rewrite <- app_assoc, length_app. simpl. split_and!.
  - split; simpl.
    + intros m mud [H|[H1 [E <-]%list_lookup_singleton_Some]]%lookup_app_Some; simpl.
      * pose proof (inv_maps _ _ I m mud H). rewrite length_app. simpl. lia.
      * rewrite length_app. simpl. lia.
    + intros m1 m2 mud1 mud2 Hne
        [H1|[L1 [E1 <-]%list_lookup_singleton_Some]]%lookup_app_Some
        [H2|[L2 [E2 <-]%list_lookup_singleton_Some]]%lookup_app_Some; simpl.
      * by apply (inv_sep _ _ I m1 m2).
      * pose proof (inv_maps _ _ I m1 mud1 H1). lia.
      * pose proof (inv_maps _ _ I m2 mud2 H2). lia.
      * lia.
    + intros i r H. rewrite length_app. simpl. pose proof (inv_iuds _ _ I i r H). lia.
    + intros m H. rewrite length_app. pose proof (inv_held _ _ I m H). lia.
    + intros i r mud H1 H2 H3 H4. rewrite lookup_app_l in H4 by (by eapply inv_held).
      by eapply inv_registered.
  - split; [simpl; rewrite length_app; lia|]. intros i r H. exists r. split_and!; try done.
    intros _. apply mud_view_app; [intros m' mud Hm; pose proof (inv_maps _ _ I m' mud Hm); lia|].
    by eapply inv_iuds.
  - intros Hin. pose proof (inv_held _ _ I _ Hin). lia.
  - rewrite length_app. simpl. lia.
  - intros i r H E. pose proof (inv_iuds _ _ I i r H). lia.
Qed.

Lemma alloc_iud_preserving m h :
  store_inv h ms → m ∉ ms → (m < length (h_muds h))%nat →
  preserving ms (alloc_iud {| iud_mutableUTXODiff := m; iud_isInvalidated := false |}) h
    (λ _ _, True).
Proof.
  intros I Hm Hl. unfold preserving, alloc_iud. split_and!; [|split; [done|]|done]; simpl.
  - split; simpl; [apply I|apply I| |apply I|].
    + intros i r [H|[L [E <-]%list_lookup_singleton_Some]]%lookup_app_Some; [|done].
      by eapply inv_iuds.
    + intros i r mud [H|[L [E <-]%list_lookup_singleton_Some]]%lookup_app_Some; [|done].
      by eapply inv_registered.
  - intros i r H. exists r. split_and!; try done. by apply lookup_app_l_Some.
Qed.

Lemma set_refs_view h m mud refs iuds :
  h_muds h !! m = Some mud → ∀ m',
  mud_view {| h_maps := h_maps h;
              h_muds := <[m := {| mud_toAdd := mud_toAdd mud; mud_toRemove := mud_toRemove mud;
                                  mud_immutableReferences := refs |}]> (h_muds h);
              h_iuds := iuds |} m' = mud_view h m'.
Proof.
  intros Hm m'. unfold mud_view. simpl.
  destruct (decide (m = m')) as [->|Hne].
  - rewrite list_lookup_insert_eq by (by eapply lookup_lt_Some). by rewrite Hm.
  - by rewrite list_lookup_insert_ne.
Qed.

(** Changing only the reference list of one object keeps the shape of the
    store: the part of the invariant about collections. *)
Lemma set_refs_inv h m mud refs iuds :
  store_inv h ms → h_muds h !! m = Some mud →
  let mud' := {| mud_toAdd := mud_toAdd mud; mud_toRemove := mud_toRemove mud;
                 mud_immutableReferences := refs |} in
  let h' := {| h_maps := h_maps h; h_muds := <[m := mud']> (h_muds h); h_iuds := iuds |} in
  (∀ i r, iuds !! i = Some r → (iud_mutableUTXODiff r < length (h_muds h))%nat) →
  (∀ i r mud0, iuds !! i = Some r → iud_isInvalidated r = false →
     iud_mutableUTXODiff r ∈ ms → h_muds h !! iud_mutableUTXODiff r = Some mud0 →
     i ∈ if decide (iud_mutableUTXODiff r = m) then refs else mud_immutableReferences mud0) →
  store_inv h' ms.
Proof.
  intros I Hm mud' h' Hiud Hreg.
  assert (∀ m0 mud0, h_muds h' !! m0 = Some mud0 → ∃ mud1, h_muds h !! m0 = Some mud1 ∧
    mud_toAdd mud0 = mud_toAdd mud1 ∧ mud_toRemove mud0 = mud_toRemove mud1 ∧
    (mud_immutableReferences mud0 =
       if decide (m0 = m) then refs else mud_immutableReferences mud1)) as Hold.
  { intros m0 mud0 H. simpl in H. destruct (decide (m0 = m)) as [->|Hne].
    - rewrite list_lookup_insert_eq in H by (by eapply lookup_lt_Some). injection H as <-. eauto.
    - rewrite list_lookup_insert_ne in H by done. eauto. }
  split; simpl.
  - intros m0 mud0 H. destruct (Hold _ _ H) as (mud1 & H1 & -> & -> & _). by apply (inv_maps _ _ I m0).
  - intros m1 m2 mud1 mud2 Hne H1 H2.
    destruct (Hold _ _ H1) as (x & Hx & -> & -> & _), (Hold _ _ H2) as (y & Hy & -> & -> & _).
    by apply (inv_sep _ _ I m1 m2).
  - intros i r H. rewrite length_insert. by eapply Hiud.
  - intros m0 H. rewrite length_insert. by apply (inv_held _ _ I).
  - intros i r mud0 H1 H2 H3 H4. destruct (Hold _ _ H4) as (x & Hx & _ & _ & ->).
    by apply (Hreg i r x).
Qed.

Lemma ToImmutable_preserving m h :
  store_inv h ms → (m < length (h_muds h))%nat → preserving ms (ToImmutable m) h (λ _ _, True).
Proof.
  intros I [mud Hm]%lookup_lt_is_Some_2.
  unfold preserving, ToImmutable, alloc_iud, load_mud, get, load, set_mud, bind. simpl.
  rewrite Hm. simpl. split_and!; [|split; simpl; [by rewrite length_insert|]|done].
  - apply (set_refs_inv h m mud); try done.
    + intros i r [H|[L [E <-]%list_lookup_singleton_Some]]%lookup_app_Some.
      * by eapply inv_iuds.
      * by eapply lookup_lt_Some.
    + intros i r mud0 [H|[L [E <-]%list_lookup_singleton_Some]]%lookup_app_Some Hv Hin Hmud.
      * pose proof (inv_registered _ _ I i r mud0 H Hv Hin Hmud) as Hr.
        case_decide as Hd; [|done]. rewrite Hd, Hm in Hmud. injection Hmud as <-.
        apply elem_of_app. by left.
      * simpl. rewrite decide_True by done. apply elem_of_app. right.
        apply list_elem_of_singleton. lia.
  - intros i r H. exists r. split_and!; try done; [by apply lookup_app_l_Some|].
    intros _. by rewrite (set_refs_view h m mud).
Qed.
End Primitives.

Lemma invalidate_all_lookup (refs : list nat) (l : list immutableUTXODiff) (i : nat) :
  foldl (λ l p, alter invalidate p l) l refs !! i =
  if decide (i ∈ refs) then invalidate <$> l !! i else l !! i.
Proof.
  revert l. induction refs as [|p refs IH]; intros l.
  { rewrite decide_False; [done|apply not_elem_of_nil]. }
  cbn [foldl]. rewrite IH. destruct (decide (p = i)) as [->|Hne].
  - rewrite list_lookup_alter_eq, (decide_True (P := i ∈ i :: refs)) by left.
    case_decide; [|done]. by destruct (l !! i) as [[]|].
  - rewrite list_lookup_alter_ne by done.
    destruct (decide (i ∈ refs)); [by rewrite decide_True by (by right)|].
    rewrite decide_False; [done|]. by intros [->|]%elem_of_cons.
Qed.

Section Mutation.
Context (ms : list nat).

Lemma invalidate_preserving m h :
  store_inv h ms → m ∈ ms →
  preserving ms (invalidateImmutableReferences m) h (λ _ h', quiet h' m).
Proof.
  intros I Hin. pose proof (inv_held _ _ I m Hin) as [mud Hm]%lookup_lt_is_Some_2.
  unfold preserving, invalidateImmutableReferences, load_mud, get, load, set_mud, modify, bind.
  rewrite Hm. simpl.
  assert (∀ i r, foldl (λ l p, alter invalidate p l) (h_iuds h) (mud_immutableReferences mud) !! i
    = Some r → ∃ r0, h_iuds h !! i = Some r0 ∧ iud_mutableUTXODiff r = iud_mutableUTXODiff r0 ∧
      (iud_isInvalidated r = false → i ∉ mud_immutableReferences mud ∧
         iud_isInvalidated r0 = false)) as Hback.
  { intros i r H. rewrite invalidate_all_lookup in H. case_decide as Hd; [|by exists r].
    destruct (h_iuds h !! i) as [r0|]; [|done]. injection H as <-. by exists r0. }
  split_and!; [|split; simpl; [by rewrite length_insert|]|].
  - apply (set_refs_inv ms h m mud); try done.
    + intros i r H. destruct (Hback i r H) as (r0 & H0 & -> & _). by eapply inv_iuds.
    + intros i r mud0 H Hv Hms Hmud. destruct (Hback i r H) as (r0 & H0 & E & Hi).
      rewrite E in *. destruct (Hi Hv) as [Hn Hv0].
      pose proof (inv_registered _ _ I i r0 mud0 H0 Hv0 Hms Hmud) as Hr.
      case_decide as Hd; [|done]. rewrite Hd, Hm in Hmud. by injection Hmud as <-.
  - intros i r H. exists (if decide (i ∈ mud_immutableReferences mud) then invalidate r else r).
    rewrite invalidate_all_lookup, H. split_and!; [by case_decide|by case_decide|by case_decide|].
    intros _. by rewrite (set_refs_view h m mud).
  - intros i r H E. simpl in H. destruct (Hback i r H) as (r0 & H0 & E0 & Hi).
    destruct (iud_isInvalidated r) eqn:Ev; [done|]. destruct (Hi eq_refl) as [Hn Hv0].
    destruct Hn. rewrite E in E0. eapply inv_registered; [done|done|done|congruence|congruence].
Qed.

Lemma store_diff_preserving m d h :
  store_inv h ms → quiet h m → preserving ms (store_diff m d) h (λ _ h', quiet h' m).
Proof.
  intros I Hq. unfold preserving, store_diff, load_mud, get, load, modify, bind.
  destruct (h_muds h !! m) as [mud|] eqn:Hm; [|done]. simpl.
  split_and!; [|split; [done|]|done].
  - split; simpl; [|apply I..]. intros m' mud' H. rewrite !length_insert. by apply (inv_maps _ _ I m').
  - intros i r H. exists r. split_and!; try done. intros Hv.
    assert (iud_mutableUTXODiff r ≠ m) as Hne by (intros E; by rewrite (Hq i r H E) in Hv).
    unfold mud_view. simpl. destruct (h_muds h !! iud_mutableUTXODiff r) as [mud'|] eqn:Hm'; [|done].
    destruct (inv_sep _ _ I _ _ _ _ Hne Hm' Hm) as (? & ? & ? & ?). simpl.
    by rewrite !list_lookup_insert_ne by done.
Qed.

(** Decompose a method into its reads and its primitive updates. *)
Ltac reading R :=
  apply preserving_bind, preserving_read; [done|intros; apply R|intros ? _ _ _].

Lemma new_reference_preserving d h :
  store_inv h ms → preserving ms (let* p := alloc_diff d in ToImmutable p) h (λ _ _, True).
Proof.
  intros I. apply preserving_bind. eapply preserving_mono; [by apply alloc_diff_preserving|].
  intros m h1 (_ & Hl & _) I1 _. by apply ToImmutable_preserving.
Qed.

Lemma mud_WithDiff_preserving m i h :
  store_inv h ms → preserving ms (mud_WithDiff m i) h (λ _ _, True).
Proof.
  intros I. reading load_iud_reads. reading load_diff_reads. reading load_diff_reads.
  apply preserving_bind, preserving_read; [done..|]. intros d _ _ _. by apply new_reference_preserving.
Qed.

Lemma mud_DiffFrom_preserving m i h :
  store_inv h ms → preserving ms (mud_DiffFrom m i) h (λ _ _, True).
Proof.
  intros I. reading load_iud_reads. reading load_diff_reads. reading load_diff_reads.
  apply preserving_bind, preserving_read; [done..|]. intros d _ _ _. by apply new_reference_preserving.
Qed.

Lemma mud_WithDiffInPlace_preserving m i h :
  store_inv h ms → m ∈ ms → preserving ms (mud_WithDiffInPlace m i) h (λ _ _, True).
Proof.
  intros I Hm. reading load_iud_reads.
  apply preserving_bind. eapply preserving_mono; [by apply invalidate_preserving|].
  intros [] h1 Hq I1 _. reading load_diff_reads. reading load_diff_reads.
  destruct (withDiffConflict _ _); [split; done|].
  apply preserving_bind. eapply preserving_mono; [by apply store_diff_preserving|].
  intros [] h2 Hq2 I2 _. reading load_diff_reads. reading load_diff_reads.
  eapply preserving_mono; [by apply store_diff_preserving|done].
Qed.

Lemma mud_AddTransaction_preserving txid m tx score h :
  store_inv h ms → m ∈ ms → preserving ms (mud_AddTransaction txid m tx score) h (λ _ _, True).
Proof.
  intros I Hm.
  apply preserving_bind. eapply preserving_mono; [by apply invalidate_preserving|].
  intros [] h1 Hq I1 _. reading load_diff_reads.
  match goal with |- context [AddTransaction txid tx score ?d] =>
    destruct (AddTransaction txid tx score d) as [d' o] end.
  apply preserving_bind. eapply preserving_mono; [by apply store_diff_preserving|].
  intros [] h2 _ I2 _. by apply preserving_read.
Qed.

Lemma CloneMutable_preserving i h :
  store_inv h ms → preserving ms (CloneMutable i) h (λ m h', m ∉ ms ∧ (m < length (h_muds h'))%nat
    ∧ quiet h' m).
Proof.
  intros I. reading load_iud_reads. reading check_valid_reads. reading load_diff_reads.
  by apply alloc_diff_preserving.
Qed.

Lemma newUTXODiff_preserving h :
  store_inv h ms → preserving ms newUTXODiff h (λ _ _, True).
Proof.
  intros I. apply preserving_bind. eapply preserving_mono; [by apply alloc_diff_preserving|].
  intros m h1 (Hn & Hl & _) I1 _. by apply alloc_iud_preserving.
Qed.

(** A mutable diff that no readable reference points to may be handed out. *)
Lemma hand_out h m :
  store_inv h ms → (m < length (h_muds h))%nat → quiet h m → store_inv h (m :: ms).
Proof.
  intros I Hl Hq. split; [apply I|apply I|apply I| |].
  - intros m' [->|H]%elem_of_cons; [done|by apply (inv_held _ _ I)].
  - intros i r mud H1 H2 [E|H3]%elem_of_cons H4; [by rewrite (Hq i r H1 E) in H2|].
    by eapply inv_registered.
Qed.
End Mutation.

(** ** Clients *)

(** Reading both collections of an immutable reference. *)
Definition read_iud (iud : nat) : method diff :=
  let* a := iud_ToAdd iud in
  let* r := iud_ToRemove iud in
  let* h := get in
  let* toAdd := load (h_maps h) a in
  let* toRemove := load (h_maps h) r in
  ret (mkDiff toAdd toRemove).

Definition completes {A} (o : outcome utxoError A) : Prop :=
  match o with Crash _ => False | _ => True end.

Section Client.
Context (TransactionID : DomainTransaction → DomainTransactionID).

(** One call of a client: it holds the mutable diffs [ms] (the results of
    NewMutableUTXODiff and CloneMutable) and may use any immutable reference. *)
Inductive client_step : heap * list nat → heap * list nat → Prop :=
  | step_NewMutableUTXODiff h ms h' m :
      newMutableUTXODiff h = (h', Ret m) → client_step (h, ms) (h', m :: ms)
  | step_CloneMutable h ms i h' m :
      CloneMutable i h = (h', Ret m) → client_step (h, ms) (h', m :: ms)
  | step_ToImmutable h ms m h' o :
      m ∈ ms → ToImmutable m h = (h', o) → completes o → client_step (h, ms) (h', ms)
  | step_mud_WithDiff h ms m i h' o :
      m ∈ ms → mud_WithDiff m i h = (h', o) → completes o → client_step (h, ms) (h', ms)
  | step_mud_DiffFrom h ms m i h' o :
      m ∈ ms → mud_DiffFrom m i h = (h', o) → completes o → client_step (h, ms) (h', ms)
  | step_mud_WithDiffInPlace h ms m i h' o :
      m ∈ ms → mud_WithDiffInPlace m i h = (h', o) → completes o → client_step (h, ms) (h', ms)
  | step_mud_AddTransaction h ms m tx score h' o :
      m ∈ ms → mud_AddTransaction TransactionID m tx score h = (h', o) → completes o →
      client_step (h, ms) (h', ms)
  | step_NewUTXODiff h ms h' o :
      newUTXODiff h = (h', o) → completes o → client_step (h, ms) (h', ms)
  | step_iud_WithDiff h ms i j h' o :
      iud_WithDiff i j h = (h', o) → completes o → client_step (h, ms) (h', ms)
  | step_iud_DiffFrom h ms i j h' o :
      iud_DiffFrom i j h = (h', o) → completes o → client_step (h, ms) (h', ms).

Definition client_init : heap * list nat :=
  ({| h_maps := []; h_muds := []; h_iuds := [] |}, []).

Lemma preserving_step {A} ms (m : method A) h h' o Q :
  preserving ms m h Q → m h = (h', o) → completes o → store_inv h' ms ∧ keeps h h'.
Proof. unfold preserving, completes. intros H E. rewrite E in H. destruct o; naive_solver. Qed.

Lemma client_step_inv c c' :
  store_inv (fst c) (snd c) → client_step c c' →
  store_inv (fst c') (snd c') ∧ keeps (fst c) (fst c').
Proof.
  intros I Hs. destruct Hs as [h ms h' m E|h ms i h' m E|h ms m h' o Hm E Ho
    |h ms m i h' o Hm E Ho|h ms m i h' o Hm E Ho|h ms m i h' o Hm E Ho|h ms m tx score h' o Hm E Ho
    |h ms h' o E Ho|h ms i j h' o E Ho|h ms i j h' o E Ho]; simpl in *.
  - pose proof (alloc_diff_preserving ms (mkDiff ∅ ∅) h I) as P. unfold preserving in P.
    fold newMutableUTXODiff in P. rewrite E in P. destruct P as (I' & K & _ & Hl & Hq).
    split; [by apply hand_out|done].
  - pose proof (CloneMutable_preserving ms i h I) as P. unfold preserving in P. rewrite E in P.
    destruct P as (I' & K & _ & Hl & Hq). split; [by apply hand_out|done].
  - eapply preserving_step; [|done..]. apply ToImmutable_preserving; [done|].
    by apply (inv_held _ _ I).
  - eapply preserving_step; [|done..]. by apply mud_WithDiff_preserving.
  - eapply preserving_step; [|done..]. by apply mud_DiffFrom_preserving.
  - eapply preserving_step; [|done..]. by apply mud_WithDiffInPlace_preserving.
  - eapply preserving_step; [|done..]. by apply mud_AddTransaction_preserving.
  - eapply preserving_step; [|done..]. by apply newUTXODiff_preserving.
  - eapply preserving_step; [|done..]. unfold iud_WithDiff.
    apply preserving_bind, preserving_read; [done|apply load_iud_reads|intros r _ _ _].
    apply preserving_bind, preserving_read; [done|apply check_valid_reads|intros _ _ _ _].
    by apply mud_WithDiff_preserving.
  - eapply preserving_step; [|done..]. unfold iud_DiffFrom.
    apply preserving_bind, preserving_read; [done|apply load_iud_reads|intros r _ _ _].
    apply preserving_bind, preserving_read; [done|apply check_valid_reads|intros _ _ _ _].
    by apply mud_DiffFrom_preserving.
Qed.

Lemma client_steps_inv c c' :
  store_inv (fst c) (snd c) → rtc client_step c c' →
  store_inv (fst c') (snd c') ∧ keeps (fst c) (fst c').
Proof.
  intros I Hs. induction Hs as [c|c c1 c2 H1 Hs IH]; [done|].
  destruct (client_step_inv c c1 I H1) as [I1 K1], (IH I1) as [I2 K2]. split; [done|by etrans].
Qed.

Lemma client_init_inv : store_inv (fst client_init) (snd client_init).
Proof.
  split; simpl; intros *; try (by intros ?%not_elem_of_nil); rewrite ?lookup_nil; done.
Qed.
End Client.

Lemma read_iud_view iud h :
  snd (read_iud iud h) =
  match h_iuds h !! iud with
  | Some r => if iud_isInvalidated r then Crash ExplicitPanic
              else match mud_view h (iud_mutableUTXODiff r) with
                   | Some d => Ret d
                   | None => Crash NilDereference
                   end
  | None => Crash NilDereference
  end.
Proof.
  unfold read_iud, iud_ToAdd, iud_ToRemove, load_iud, mud_ToAdd, mud_ToRemove, load_mud,
    check_valid, bind, get, load, mud_view, crash_with, ret.
  destruct (h_iuds h !! iud) as [r|] eqn:E; [|done]. simpl.
  destruct (iud_isInvalidated r) eqn:Ei; [done|].
  destruct (h_muds h !! iud_mutableUTXODiff r) as [mud|] eqn:Em; [|done]. simpl.
  rewrite E. simpl. rewrite Ei, Em. simpl.
  destruct (h_maps h !! mud_toAdd mud); [|done]. simpl.
  by destruct (h_maps h !! mud_toRemove mud).
Qed.

Module UtxoStoreProps.

(** An immutable reference is stable.  Whatever a client does from a
    reachable state (short of [Reversed]), a reference that was readable and
    showed [d] either still shows [d] or panics when it is read: mutating a diff
    can never change what a reference made from it shows. *)
Theorem stable_references (TransactionID : DomainTransaction → DomainTransactionID)
    (c c' : heap * list nat) (iud : nat) (d : diff)
    (Hreach : rtc (client_step TransactionID) client_init c)
    (Hread : snd (read_iud iud (fst c)) = Ret d)
    (Hsteps : rtc (client_step TransactionID) c c') :
  snd (read_iud iud (fst c')) = Ret d ∨ snd (read_iud iud (fst c')) = Crash ExplicitPanic.
Proof.
  destruct (client_steps_inv _ _ _ client_init_inv Hreach) as [I _].
  destruct (client_steps_inv _ _ _ I Hsteps) as [_ [_ K]].
  rewrite read_iud_view in Hread. destruct (h_iuds (fst c) !! iud) as [r|] eqn:Hr; [|done].
  destruct (iud_isInvalidated r) eqn:Ei; [done|].
  destruct (K iud r Hr) as (r' & Hr' & E & _ & V).
  rewrite read_iud_view, Hr'. destruct (iud_isInvalidated r'); [by right|left].
  rewrite E, V by done. by destruct (mud_view (fst c) _).
Qed.

(** A run: make a diff, take a reference, add a transaction to the diff. *)
Definition ex_h0 : heap := fst (newMutableUTXODiff (fst client_init)).
Definition ex_h1 : heap := fst (ToImmutable 0 ex_h0).
Definition ex_coinbase : DomainTransaction :=
  {| tx_Version := 0; tx_Inputs := [];
     tx_Outputs := [ {| out_Value := 50; out_ScriptPublicKey := UtxoProps.ex_spk |} ];
     tx_LockTime := 0; tx_SubnetworkID := SubnetworkIDCoinbase; tx_Gas := 0; tx_Payload := [];
     tx_Fee := 0; tx_Mass := 0; tx_ID := None |}.
Definition ex_h2 : heap := fst (mud_AddTransaction (λ _, [9]) 0 ex_coinbase 3 ex_h1).

Lemma stable_references_witness :
  snd (read_iud 0 ex_h2) = Ret (mkDiff ∅ ∅) ∨ snd (read_iud 0 ex_h2) = Crash ExplicitPanic.
Proof.
  apply (stable_references (λ _, [9]) (ex_h1, [0%nat]) (ex_h2, [0%nat]) 0 (mkDiff ∅ ∅)).
  - apply (rtc_l _ _ (ex_h0, [0%nat])); [by apply step_NewMutableUTXODiff|].
    apply rtc_once. by eapply (step_ToImmutable _ _ [0%nat] 0 _ (Ret 0%nat)); [left|..].
  - reflexivity.
  - apply rtc_once.
    by eapply (step_mud_AddTransaction _ _ [0%nat] 0 ex_coinbase 3 _ (Ret ())); [left|..].
Defined.

(** [Reversed] escapes the protection.  After a reference is reversed and
    the diff it came from is mutated, the original reference panics as it
    should, but the reversed one is still readable and shows the entry the
    mutation added, which was not there when the reference was made. *)
Theorem Reversed_reads_mutated :
  ∃ h3 h4 : heap,
    iud_Reversed 0 ex_h1 = (h3, Ret 1%nat) ∧
    snd (read_iud 1 h3) = Ret (mkDiff ∅ ∅) ∧
    mud_AddTransaction (λ _, [9]) 0 ex_coinbase 3 h3 = (h4, Ret ()) ∧
    snd (read_iud 0 h4) = Crash ExplicitPanic ∧
    snd (read_iud 1 h4) =
      Ret (mkDiff ∅ {[ NewDomainOutpoint [9] 0 := NewUTXOEntry 50 UtxoProps.ex_spk true 3 ]}).
Proof. eexists _, _. split_and!; reflexivity. Qed.

End UtxoStoreProps.
