(* ===== verification/ScriptNum.v ===== *)
(** * Script errors and script numbers

    [ErrorCode] is the error type of the script engine (error.go); an [Error]'s
    description is a message and is not kept.  [scriptNum] values are the
    [int64]s of scriptnum.go, encoded on the stack as minimal little-endian
    sign-magnitude byte strings. *)
From S2P Require Import Prelude.
Local Open Scope Z_scope.
Local Open Scope prog_scope.

Inductive ErrorCode :=
  | ErrInternal
  | ErrInvalidFlags
  | ErrInvalidIndex
  | ErrUnsupportedAddress
  | ErrNotMultisigScript
  | ErrTooManyRequiredSigs
  | ErrEarlyReturn
  | ErrEmptyStack
  | ErrEvalFalse
  | ErrScriptUnfinished
  | ErrInvalidProgramCounter
  | ErrScriptTooBig
  | ErrElementTooBig
  | ErrTooManyOperations
  | ErrStackOverflow
  | ErrInvalidPubKeyCount
  | ErrInvalidSignatureCount
  | ErrNumberTooBig
  | ErrVerify
  | ErrEqualVerify
  | ErrNumEqualVerify
  | ErrCheckSigVerify
  | ErrCheckMultiSigVerify
  | ErrDisabledOpcode
  | ErrReservedOpcode
  | ErrMalformedPush
  | ErrInvalidStackOperation
  | ErrUnbalancedConditional
  | ErrMinimalData
  | ErrInvalidSigHashType
  | ErrSigLength
  | ErrSigHighS
  | ErrNotPushOnly
  | ErrPubKeyFormat
  | ErrCleanStack
  | ErrNullFail
  | ErrDiscourageUpgradableNOPs
  | ErrNegativeLockTime
  | ErrUnsatisfiedLockTime
  | ErrMinimalIf.

#[export] Instance ErrorCode_eq_dec : EqDecision ErrorCode.
Proof. solve_decision. Defined.

(** The dynamic type of an [error] the engine returns: an [Error] of the
    package, built by [scriptError], or an error of another package it calls. *)
Inductive error :=
  | scriptError (c : ErrorCode)
  | foreignError.
Coercion scriptError : ErrorCode >-> error.

#[export] Instance error_eq_dec : EqDecision error.
Proof. solve_decision. Defined.

(** A function of the package that returns [(A, error)]. *)
Abbreviation fallible A := (outcome error A) (only parsing).

Module ScriptNum.
Definition maxInt32 : Z := 2147483647.
Definition minInt32 : Z := -2147483648.
Definition defaultScriptNumLen : Z := 4.

Definition checkMinimalDataEncoding (v : list Z) : fallible unit :=
  if bool_decide (zlen v = 0) then Ret ()
  else
    let? top := index v (zlen v - 1) in
    if bool_decide (Z.land top 127 = 0) then
      if bool_decide (zlen v = 1) then Fail ErrMinimalData
      else
        let? second := index v (zlen v - 2) in
        if bool_decide (Z.land second 128 = 0) then Fail ErrMinimalData
        else Ret ()
    else Ret ().

(** [for n > 0 { result = append(result, byte(n&0xff)); n >>= 8 }]: eight
    rounds shift an [int64] to zero. *)
Fixpoint appendBytes (fuel : nat) (result : list Z) (n : Z) : fallible (list Z) :=
  if bool_decide (n > 0) then
    match fuel with
    | O => Crash OutOfFuel
    | S fuel => appendBytes fuel (result ++ [GoInt.uint8 (Z.land n 255)]) (Z.shiftr n 8)
    end
  else Ret result.

Definition Bytes (n : Z) : fallible (list Z) :=
  if bool_decide (n = 0) then Ret []
  else
    let isNegative := bool_decide (n < 0) in
    let n := if isNegative then GoInt.int64 (- n) else n in
    let? result := appendBytes 8 [] n in
    let? top := index result (zlen result - 1) in
    if bool_decide (Z.land top 128 ≠ 0) then
      let extraByte := if isNegative then 128 else 0 in
      Ret (result ++ [extraByte])
    else if isNegative then
      Ret (<[Z.to_nat (zlen result - 1) := Z.lor top 128]> result)
    else Ret result.

Definition Int32 (n : Z) : Z :=
  if bool_decide (n > maxInt32) then maxInt32
  else if bool_decide (n < minInt32) then minInt32
  else GoInt.int32 n.

(** [for i, val := range v { result |= int64(val) << uint8(8*i) }] *)
Fixpoint decodeBytes (i : Z) (result : Z) (v : list Z) : Z :=
  match v with
  | [] => result
  | val :: v =>
      decodeBytes (i + 1) (Z.lor result (GoInt.int64 (Z.shiftl val (GoInt.uint8 (8 * i))))) v
  end.

Definition makeScriptNum (v : list Z) (scriptNumLen : Z) : fallible Z :=
  if bool_decide (zlen v > scriptNumLen) then Fail ErrNumberTooBig
  else
    let? _ := checkMinimalDataEncoding v in
    if bool_decide (zlen v = 0) then Ret 0
    else
      let result := decodeBytes 0 0 v in
      let? top := index v (zlen v - 1) in
      if bool_decide (Z.land top 128 ≠ 0) then
        let result := Z.land result
          (Z.lnot (GoInt.int64 (Z.shiftl 128 (GoInt.uint8 (8 * (zlen v - 1)))))) in
        Ret (GoInt.int64 (- result))
      else Ret result.
End ScriptNum.
Import ScriptNum.

(** ** Minimal encodings *)

(** The sign-magnitude value of an encoding, by its most significant byte. *)
Definition signed_value (bs : list Z) (top : Z) : Z :=
  if decide (top < 128) then LE.of_bytes (bs ++ [top])
  else - LE.of_bytes (bs ++ [top - 128]).

Definition high_bit (bs : list Z) : Prop :=
  match last bs with Some b => 128 ≤ b | None => False end.

#[export] Instance high_bit_dec bs : Decision (high_bit bs).
Proof. unfold high_bit. destruct (last bs); apply _. Defined.

Lemma high_bit_snoc bs b : high_bit (bs ++ [b]) ↔ 128 ≤ b.
Proof. unfold high_bit. by rewrite last_snoc. Qed.

Definition minimal (bs : list Z) (top : Z) : Prop :=
  (top = 0 ∨ top = 128) → high_bit bs.

Lemma land_127 b : is_byte b → Z.land b 127 = b mod 128.
Proof. revert b. apply (byte_forall _). by vm_compute. Qed.

Lemma land_128 b : is_byte b → Z.land b 128 = if decide (b < 128) then 0 else 128.
Proof. revert b. apply (byte_forall _). by vm_compute. Qed.

Lemma lor_128 b : is_byte b → b < 128 → Z.lor b 128 = b + 128.
Proof. revert b. apply (byte_forall (λ b, b < 128 → _)). by vm_compute. Qed.

Lemma mod128_zero b : is_byte b → b mod 128 = 0 ↔ b = 0 ∨ b = 128.
Proof.
  unfold is_byte. intros Hb. pose proof (Z.div_mod b 128). split; [|by intros [-> | ->]].
  assert (b / 128 = 0 ∨ b / 128 = 1); [|lia].
  assert (0 ≤ b / 128 < 2); [|lia]. split; [apply Z.div_pos|apply Z.div_lt_upper_bound]; lia.
Qed.

Lemma checkMinimal_snoc bs top : are_bytes (bs ++ [top]) →
  checkMinimalDataEncoding (bs ++ [top]) =
  if decide ((top = 0 ∨ top = 128) ∧ ¬ high_bit bs) then Fail ErrMinimalData else Ret ().
Proof.
  intros Hb. apply are_bytes_snoc in Hb as [Hbs Htop].
  unfold checkMinimalDataEncoding. rewrite bool_decide_false by zlia.
  rewrite index_last. simpl.
  rewrite land_127 by done. pose proof (mod128_zero top Htop) as Hz.
  destruct (decide (top mod 128 = 0)) as [Ht|Ht]; [|rewrite bool_decide_false, decide_False by tauto; done].
  rewrite (bool_decide_true (_ = 0)) by done.
  destruct bs as [|b bs _] using rev_ind.
  { rewrite decide_True; [done|]. split; [tauto|]. unfold high_bit. simpl. tauto. }
  rewrite bool_decide_false by zlia. rewrite <- app_assoc. simpl.
  rewrite (index_middle bs [top] b) by zlia. simpl.
  apply are_bytes_snoc in Hbs as [_ Hb]. rewrite land_128 by done.
  pose proof (high_bit_snoc bs b) as Hh.
  destruct (decide (b < 128)); cbv [bool_decide decide_rel]; simpl.
  - rewrite decide_True; [done|]. split; [tauto|]. rewrite Hh. lia.
  - rewrite decide_False; [done|]. rewrite Hh. intros []. lia.
Qed.


(** ** The encoding loop *)
Lemma appendBytes_digits fuel bs acc :
  are_bytes bs → (length bs ≤ fuel)%nat → (bs = [] ∨ ∃ b, last bs = Some b ∧ b ≠ 0) →
  appendBytes fuel acc (LE.of_bytes bs) = Ret (acc ++ bs).
Proof.
  revert fuel acc. induction bs as [|b bs IH]; intros fuel acc Hb Hf Hl.
  { destruct fuel; simpl; by rewrite app_nil_r. }
  apply are_bytes_cons in Hb as [Hb Hbs]. pose proof (LE.of_bytes_bound bs Hbs) as Hbd.
  destruct fuel as [|fuel]; [simpl in *; lia|]. simpl in Hf.
  assert (bs = [] ∨ ∃ b, last bs = Some b ∧ b ≠ 0) as Hl'.
  { destruct bs as [|c bs]; [by left|right]. destruct Hl as [|(z & Hz & ?)]; [done|]. exists z.
    by rewrite last_cons_cons in Hz. }
  assert (0 < LE.of_bytes (b :: bs)) as Hpos.
  { cbn [LE.of_bytes]. unfold is_byte in Hb.
    destruct Hl' as [->|(z & Hz & ?)].
    - destruct Hl as [|(z & [= <-] & ?)]; [done|]. simpl. lia.
    - assert (0 < LE.of_bytes bs); [|lia].
      apply last_Some in Hz as [bs' ->]. rewrite LE.of_bytes_app in *.
      apply are_bytes_snoc in Hbs as [Hbs' Hz]. unfold is_byte in Hz.
      pose proof (LE.of_bytes_bound bs' Hbs'). simpl.
      assert (0 < 256 ^ zlen bs') by (apply Z.pow_pos_nonneg; [lia|apply zlen_nonneg]). nia. }
  cbn [appendBytes]. rewrite bool_decide_true by lia.
  replace (Z.shiftr _ 8) with (LE.of_bytes bs).
  2:{ rewrite Z.shiftr_div_pow2 by lia. cbn [LE.of_bytes]. change (2 ^ 8) with 256.
      rewrite (Z.mul_comm 256), Z.div_add by lia. unfold is_byte in Hb. rewrite Z.div_small; lia. }
  replace (GoInt.uint8 _) with b.
  2:{ change 255 with (Z.ones 8). rewrite Z.land_ones by lia. cbn [LE.of_bytes]. change (2 ^ 8) with 256.
      rewrite (Z.mul_comm 256), Z.mod_add by lia. unfold is_byte in Hb.
      rewrite Z.mod_small by lia. symmetry. by apply GoInt.uint8_id. }
  rewrite IH by (done || lia). by rewrite <- app_assoc.
Qed.

(** Every positive number is the value of a digit string without leading zero. *)
Lemma digits_exist k n : 0 < n < 256 ^ Z.of_nat k →
  ∃ bs top, LE.of_bytes (bs ++ [top]) = n ∧ are_bytes (bs ++ [top]) ∧ top ≠ 0 ∧ (length bs < k)%nat.
Proof.
  revert n. induction k as [|k IH]; intros n Hn; [simpl in Hn; lia|].
  rewrite Nat2Z.inj_succ, Z.pow_succ_r in Hn by lia.
  destruct (decide (n < 256)).
  { exists [], n. simpl. repeat split; [lia|repeat constructor; unfold is_byte; lia|lia|lia]. }
  destruct (IH (n / 256)) as (bs & top & Hv & Hb & Ht & Hl).
  { split; [apply Z.div_str_pos; lia|apply Z.div_lt_upper_bound; lia]. }
  exists (n mod 256 :: bs), top. cbn [app LE.of_bytes]. rewrite Hv. repeat split; auto.
  - pose proof (Z.div_mod n 256). lia.
  - apply are_bytes_cons. split; [|done]. apply Z.mod_pos_bound. lia.
  - simpl. lia.
Qed.

Lemma of_bytes_snoc bs top : LE.of_bytes (bs ++ [top]) = LE.of_bytes bs + 256 ^ zlen bs * top.
Proof. rewrite LE.of_bytes_app. simpl. lia. Qed.

Lemma of_bytes_low bs top : are_bytes bs → 0 ≤ top →
  top * 256 ^ zlen bs ≤ LE.of_bytes (bs ++ [top]) < (top + 1) * 256 ^ zlen bs.
Proof. intros Hb Ht. rewrite of_bytes_snoc. pose proof (LE.of_bytes_bound bs Hb). nia. Qed.

Lemma pow256_le k m : 0 ≤ k ≤ m → 1 ≤ 256 ^ k ≤ 256 ^ m.
Proof.
  intros. split; [|apply Z.pow_le_mono_r; lia].
  assert (0 < 256 ^ k) by (apply Z.pow_pos_nonneg; lia). lia.
Qed.

Lemma Bytes_encode bs top :
  are_bytes (bs ++ [top]) → minimal bs top → zlen bs ≤ 7 →
  Bytes (signed_value bs top) = Ret (bs ++ [top]).
Proof.
  intros Hb Hmin Hlen. pose proof Hb as [Hbs Htop]%are_bytes_snoc.
  pose proof (pow256_le (zlen bs) 7 (conj (zlen_nonneg bs) Hlen)) as Hp.
  change (256 ^ 7) with (2 ^ 56) in Hp.
  unfold is_byte in Htop. unfold signed_value, minimal in *.
  destruct (decide (top = 0 ∨ top = 128)) as [Hspecial|Hnormal].
  - (* the extra sign byte *)
    specialize (Hmin Hspecial).
    destruct bs as [|b bs _] using rev_ind; [done|].
    apply high_bit_snoc in Hmin. apply are_bytes_snoc in Hbs as [Hbs Hb'].
    assert (appendBytes 8 [] (LE.of_bytes (bs ++ [b])) = Ret (bs ++ [b])) as Happ.
    { apply (appendBytes_digits 8 (bs ++ [b]) []); [by apply are_bytes_snoc| |].
      - unfold zlen in Hlen. lia.
      - right. exists b. rewrite last_snoc. split; [done|lia]. }
    assert (LE.of_bytes ((bs ++ [b]) ++ [0]) = LE.of_bytes (bs ++ [b])) as Hv
      by (rewrite (of_bytes_snoc (bs ++ [b])); lia).
    assert (1 ≤ LE.of_bytes (bs ++ [b]) < 2 ^ 63) as Hr.
    { unfold is_byte in Hb'. pose proof (of_bytes_low bs b Hbs ltac:(lia)).
      assert (256 ^ zlen bs ≤ 256 ^ 6) by (apply Z.pow_le_mono_r; zlia).
      assert (1 ≤ 256 ^ zlen bs) by (apply (pow256_le _ 7); zlia).
      change (256 ^ 6) with (2 ^ 48) in *. set (q := 256 ^ zlen bs) in *. change (2 ^ 63) with (32768 * 2 ^ 48). nia. }
    destruct Hspecial as [-> | ->]; simpl decide; cbv [Bytes].
    + rewrite decide_True by lia. rewrite Hv, !bool_decide_false by lia.
      rewrite Happ. simpl. rewrite index_last. simpl. rewrite land_128 by done.
      by rewrite decide_False by lia.
    + rewrite decide_False by lia. change (128 - 128) with 0. rewrite Hv.
      rewrite (bool_decide_false (_ = 0)), bool_decide_true by lia. cbv zeta.
      rewrite GoInt.int64_id, Z.opp_involutive by lia.
      rewrite Happ. simpl. rewrite index_last. simpl. rewrite land_128 by done.
      by rewrite decide_False by lia.
  - set (m := if decide (top < 128) then top else top - 128).
    assert (1 ≤ m < 128 ∧ is_byte m) as [Hm Hmb].
    { unfold m, is_byte. destruct (decide (top < 128)); lia. }
    assert (appendBytes 8 [] (LE.of_bytes (bs ++ [m])) = Ret (bs ++ [m])) as Happ.
    { apply (appendBytes_digits 8 (bs ++ [m]) []).
      - apply are_bytes_snoc. auto.
      - rewrite length_app. unfold zlen in Hlen. simpl. lia.
      - right. exists m. rewrite last_snoc. split; [done|lia]. }
    pose proof (of_bytes_low bs m Hbs ltac:(lia)) as Hr.
    assert (1 ≤ LE.of_bytes (bs ++ [m]) < 2 ^ 63) as Hr'.
    { change (2 ^ 63) with (128 * 2 ^ 56). nia. }
    unfold m in *. destruct (decide (top < 128)); cbv [Bytes].
    + rewrite !bool_decide_false by lia. rewrite Happ. simpl. rewrite index_last. simpl.
      rewrite land_128 by done. by rewrite decide_True by lia.
    + rewrite (bool_decide_false (_ = 0)), bool_decide_true by lia. cbv zeta.
      rewrite GoInt.int64_id, Z.opp_involutive by lia.
      rewrite Happ. simpl. rewrite index_last. simpl.
      rewrite land_128 by done. rewrite decide_True by lia. simpl. f_equal.
      rewrite lor_128 by (done || lia). replace (top - 128 + 128) with top by lia.
      replace (Z.to_nat _) with (length bs + 0)%nat by (zlen_norm; unfold zlen; lia).
      by rewrite insert_app_r.
Qed.

(** ** The decoding loop *)
Lemma decodeBytes_value v i acc :
  are_bytes v → 0 ≤ i → i + zlen v ≤ 7 → 0 ≤ acc < 256 ^ i →
  decodeBytes i acc v = acc + 256 ^ i * LE.of_bytes v.
Proof.
  revert i acc. induction v as [|b v IH]; intros i acc Hv Hi Hlen Hacc; [simpl; lia|].
  apply are_bytes_cons in Hv as [Hb Hv]. unfold is_byte in Hb.
  rewrite zlen_cons in Hlen. pose proof (zlen_nonneg v). cbn [decodeBytes LE.of_bytes].
  assert (256 ^ i = 2 ^ (8 * i)) as Hpow by (rewrite Z.pow_mul_r by lia; done).
  assert (Z.lor acc (GoInt.int64 (Z.shiftl b (GoInt.uint8 (8 * i)))) = acc + b * 256 ^ i) as ->.
  { rewrite GoInt.uint8_id by lia. rewrite GoInt.int64_id.
    - rewrite lor_shiftl_disjoint by lia. by rewrite Hpow.
    - rewrite Z.shiftl_mul_pow2 by lia. rewrite <- Hpow.
      pose proof (pow256_le i 6 ltac:(lia)) as Hp. change (256 ^ 6) with (2 ^ 48) in Hp.
      change (2 ^ 63) with (32768 * 2 ^ 48). nia. }
  rewrite IH; [|done|lia|lia|].
  - rewrite Z.pow_add_r by lia. change (256 ^ 1) with 256. lia.
  - rewrite Z.pow_add_r by lia. change (256 ^ 1) with 256. nia.
Qed.

(** Clearing the sign bit of a word whose top byte has it set. *)
Lemma clear_sign_bit x k : 0 ≤ k → 0 ≤ x < 2 ^ k →
  Z.land (x + 2 ^ k) (Z.lnot (2 ^ k)) = x.
Proof.
  intros Hk Hx. rewrite <- (Z.mul_1_l (2 ^ k)) at 1.
  rewrite <- lor_shiftl_disjoint by lia. rewrite <- (Z.mul_1_l (2 ^ k)).
  rewrite <- Z.shiftl_mul_pow2 by lia.
  apply Z.bits_inj'. intros m Hm. rewrite Z.land_spec, Z.lor_spec, Z.lnot_spec by lia.
  destruct (decide (m < k)) as [Hlt|Hge].
  - rewrite Z.shiftl_spec_low by lia. destruct (Z.testbit x m); done.
  - rewrite <- (Z.mod_small x (2 ^ k)) by lia. rewrite Z.mod_pow2_bits_high by lia.
    destruct (Z.testbit _ m); done.
Qed.

Lemma makeScriptNum_decode bs top L :
  are_bytes (bs ++ [top]) → zlen (bs ++ [top]) ≤ L → L ≤ 7 →
  makeScriptNum (bs ++ [top]) L =
  if decide ((top = 0 ∨ top = 128) ∧ ¬ high_bit bs) then Fail ErrMinimalData
  else Ret (signed_value bs top).
Proof.
  intros Hb HL HL7. pose proof Hb as [Hbs Htop]%are_bytes_snoc.
  unfold makeScriptNum. rewrite bool_decide_false by lia.
  rewrite checkMinimal_snoc by done.
  destruct (decide _) as [|_]; [done|]. cbn [obind].
  rewrite bool_decide_false by zlia. rewrite index_last. cbn [obind].
  rewrite land_128 by done. unfold is_byte in Htop.
  rewrite decodeBytes_value by (done || zlia). rewrite Z.pow_0_r, Z.mul_1_l, Z.add_0_l.
  unfold signed_value. destruct (decide (top < 128)); [done|].
  rewrite bool_decide_true by done. f_equal.
  replace (zlen (bs ++ [top]) - 1) with (zlen bs) by zlia.
  pose proof (zlen_nonneg bs). rewrite zlen_app in HL. change (zlen [top]) with 1 in HL.
  assert (256 ^ zlen bs = 2 ^ (8 * zlen bs)) as Hpow by (rewrite Z.pow_mul_r by lia; done).
  pose proof (pow256_le (zlen bs) 6 ltac:(lia)) as Hp. change (256 ^ 6) with (2 ^ 48) in Hp.
  assert (2 ^ (8 * zlen bs + 7) = 128 * 256 ^ zlen bs) as Hpow'
    by (rewrite Z.pow_add_r by lia; rewrite Hpow; lia).
  pose proof (of_bytes_low bs (top - 128) Hbs ltac:(lia)) as Hlow.
  assert (GoInt.int64 (Z.shiftl 128 (GoInt.uint8 (8 * zlen bs))) = 2 ^ (8 * zlen bs + 7)) as ->.
  { rewrite GoInt.uint8_id by lia. rewrite Z.shiftl_mul_pow2, <- Hpow by lia. rewrite Hpow'.
    apply GoInt.int64_id. change (2 ^ 63) with (32768 * 2 ^ 48). lia. }
  assert (LE.of_bytes (bs ++ [top]) = LE.of_bytes (bs ++ [top - 128]) + 2 ^ (8 * zlen bs + 7)) as ->.
  { rewrite !of_bytes_snoc, Hpow'. lia. }
  rewrite clear_sign_bit by nia. apply GoInt.int64_id.
  change (2 ^ 63) with (32768 * 2 ^ 48). nia.
Qed.

(** Every [int64] but the smallest has a minimal encoding. *)
Lemma signed_value_exists n : n ≠ 0 → - 2 ^ 63 < n < 2 ^ 63 →
  ∃ bs top, are_bytes (bs ++ [top]) ∧ minimal bs top ∧ zlen bs ≤ 7 ∧ n = signed_value bs top.
Proof.
  intros Hn Hr.
  destruct (digits_exist 8 (Z.abs n)) as (d & t & Hv & Hb & Ht & Hl).
  { change (256 ^ Z.of_nat 8) with (2 * 2 ^ 63). lia. }
  pose proof Hb as [Hd Htb]%are_bytes_snoc. unfold is_byte in Htb.
  assert (zlen d ≤ 7) by (unfold zlen; lia). unfold signed_value, minimal.
  destruct (decide (t < 128)).
  - exists d, (if decide (0 < n) then t else t + 128).
    destruct (decide (0 < n)).
    + rewrite decide_True by lia. repeat split; auto; [|by rewrite Hv; lia]. lia.
    + rewrite decide_False by lia. replace (t + 128 - 128) with t by lia. rewrite Hv.
      repeat split; [apply are_bytes_snoc; unfold is_byte; lia || auto|lia|lia|lia].
      split; [done|unfold is_byte; lia].
  - assert (zlen d ≤ 6).
    { destruct (decide (zlen d = 7)) as [E|]; [|lia].
      pose proof (of_bytes_low d t Hd ltac:(lia)) as Hlow. rewrite E, Hv in Hlow.
      change (256 ^ 7) with (2 ^ 56) in Hlow. change (2 ^ 63) with (128 * 2 ^ 56) in Hr. lia. }
    exists (d ++ [t]), (if decide (0 < n) then 0 else 128).
    assert (LE.of_bytes ((d ++ [t]) ++ [0]) = Z.abs n) as Hv0.
    { rewrite (of_bytes_snoc (d ++ [t])). lia. }
    split; [apply are_bytes_snoc; split; [done|unfold is_byte; destruct (decide _); lia]|].
    split; [intros _; apply high_bit_snoc; lia|]. split; [zlia|].
    destruct (decide (0 < n)).
    + rewrite decide_True by lia. lia.
    + rewrite decide_False by lia. change (128 - 128) with 0. lia.
Qed.

Lemma signed_value_bound bs top : are_bytes (bs ++ [top]) → minimal bs top →
  128 * 256 ^ zlen bs ≤ 256 * Z.abs (signed_value bs top) ∧
  Z.abs (signed_value bs top) < 128 * 256 ^ zlen bs.
Proof.
  intros [Hbs Htop]%are_bytes_snoc Hmin. unfold is_byte in Htop.
  set (m := if decide (top < 128) then top else top - 128).
  assert (0 ≤ m < 128 ∧ (m = 0 → top = 0 ∨ top = 128)) as [Hm Hm0].
  { unfold m. destruct (decide (top < 128)); lia. }
  assert (Z.abs (signed_value bs top) = LE.of_bytes (bs ++ [m])) as ->.
  { pose proof (of_bytes_low bs m Hbs ltac:(lia)).
    assert (0 < 256 ^ zlen bs) by (apply Z.pow_pos_nonneg; zlia).
    unfold signed_value, m in *. destruct (decide (top < 128)); nia. }
  pose proof (of_bytes_low bs m Hbs ltac:(lia)) as Hlow.
  assert (0 < 256 ^ zlen bs) by (apply Z.pow_pos_nonneg; zlia).
  split; [|nia]. destruct (decide (m = 0)) as [E|]; [|nia].
  specialize (Hmin (Hm0 E)). destruct bs as [|b bs _] using rev_ind; [done|].
  apply high_bit_snoc in Hmin. apply are_bytes_snoc in Hbs as [Hbs Hb]. unfold is_byte in Hb.
  pose proof (of_bytes_low bs b Hbs ltac:(lia)).
  rewrite (of_bytes_snoc (bs ++ [b])), E.
  rewrite zlen_app, Z.pow_add_r by zlia. change (256 ^ zlen [b]) with 256. nia.
Qed.

Lemma makeScriptNum_nil L : 0 ≤ L → makeScriptNum [] L = Ret 0.
Proof. intros. unfold makeScriptNum. rewrite bool_decide_false by zlia. done. Qed.

Lemma Bytes_exists n : - 2 ^ 63 < n < 2 ^ 63 →
  (n = 0 ∧ Bytes n = Ret []) ∨
  ∃ bs top, Bytes n = Ret (bs ++ [top]) ∧ n = signed_value bs top ∧
            are_bytes (bs ++ [top]) ∧ minimal bs top ∧ zlen bs ≤ 7.
Proof.
  intros Hr. destruct (decide (n = 0)) as [->|Hn]; [by left|right].
  destruct (signed_value_exists n Hn Hr) as (bs & top & Hb & Hmin & Hl & ->).
  exists bs, top. by rewrite Bytes_encode.
Qed.

(** The encoding of an [int64] other than the smallest never panics; [k] bytes
    hold the numbers of magnitude below [2^(8k-1)]. *)
Lemma Bytes_length n k : 1 ≤ k ≤ 8 → Z.abs n < 2 ^ (8 * k - 1) →
  ∃ v, Bytes n = Ret v ∧ are_bytes v ∧ zlen v ≤ k.
Proof.
  intros Hk Hn.
  assert (2 ^ (8 * k - 1) = 128 * 256 ^ (k - 1)) as Hpow.
  { replace (8 * k - 1) with (8 * (k - 1) + 7) by lia.
    rewrite Z.pow_add_r, Z.pow_mul_r by lia. change (2 ^ 8) with 256. lia. }
  assert (2 ^ (8 * k - 1) ≤ 2 ^ 63) by (apply Z.pow_le_mono_r; lia).
  destruct (Bytes_exists n) as [[-> ->]|(bs & top & -> & -> & Hb & Hmin & Hl)]; [lia| |].
  { exists []. split; [done|split; [constructor|]]. change (zlen (@nil Z)) with 0. lia. }
  exists (bs ++ [top]). split; [done|split; [done|]].
  pose proof (signed_value_bound bs top Hb Hmin) as [Hlow _].
  destruct (decide (zlen bs ≤ k - 1)); [zlia|exfalso].
  assert (256 ^ k ≤ 256 ^ zlen bs) by (apply Z.pow_le_mono_r; lia).
  replace k with ((k - 1) + 1) in H0 by lia. rewrite Z.pow_add_r in H0 by lia. lia.
Qed.

Lemma makeScriptNum_range v L n :
  are_bytes v → 1 ≤ L ≤ 7 → makeScriptNum v L = Ret n →
  Bytes n = Ret v ∧ Z.abs n < 2 ^ (8 * L - 1).
Proof.
  intros Hv HL Hmk.
  destruct (decide (zlen v ≤ L)) as [Hlen|];
    [|unfold makeScriptNum in Hmk; by rewrite bool_decide_true in Hmk by lia].
  destruct v as [|top bs _] using rev_ind.
  { rewrite makeScriptNum_nil in Hmk by lia. injection Hmk as <-. split; [done|].
    simpl. apply Z.pow_pos_nonneg; lia. }
  rewrite makeScriptNum_decode in Hmk by (done || lia).
  destruct (decide _) as [|Hnot] in Hmk; [done|]. injection Hmk as <-.
  assert (minimal bs top) as Hmin.
  { intros Hs. destruct (decide (high_bit bs)); [done|]. tauto. }
  assert (zlen bs ≤ L - 1) by zlia. pose proof (zlen_nonneg bs).
  split; [apply Bytes_encode; [done..|lia]|].
  pose proof (signed_value_bound bs top Hv Hmin) as [_ Hup].
  assert (256 ^ zlen bs ≤ 256 ^ (L - 1)) by (apply Z.pow_le_mono_r; lia).
  replace (8 * L - 1) with (8 * (L - 1) + 7) by lia.
  rewrite Z.pow_add_r, Z.pow_mul_r by lia. change (2 ^ 8) with 256. change (2 ^ 7) with 128. lia.
Qed.

Lemma makeScriptNum_Bytes v L n :
  1 ≤ L ≤ 7 → Z.abs n < 2 ^ (8 * L - 1) → Bytes n = Ret v → makeScriptNum v L = Ret n.
Proof.
  intros HL Hn Henc.
  assert (2 ^ (8 * L - 1) ≤ 2 ^ 63) by (apply Z.pow_le_mono_r; lia).
  destruct (Bytes_length n L) as (v' & Hv' & Hb & Hlen); [lia|done|].
  rewrite Henc in Hv'. injection Hv' as <-.
  destruct (Bytes_exists n) as [[-> Hz]|(bs & top & Hz & -> & _ & Hmin & _)]; [lia| |];
    rewrite Henc in Hz; injection Hz as ->.
  { apply makeScriptNum_nil. lia. }
  rewrite makeScriptNum_decode by (done || lia). rewrite decide_False; [done|].
  unfold minimal in Hmin. tauto.
Qed.

Lemma makeScriptNum_no_crash v L : are_bytes v → L ≤ 7 → ∀ c, makeScriptNum v L ≠ Crash c.
Proof.
  intros Hv HL c. destruct (decide (zlen v ≤ L)).
  2:{ unfold makeScriptNum. by rewrite bool_decide_true by lia. }
  destruct v as [|top bs _] using rev_ind; [by rewrite makeScriptNum_nil|].
  rewrite makeScriptNum_decode by (done || lia). by destruct (decide _).
Qed.

(** ** Properties *)
Module ScriptNumProps.
(** For every byte string [v] and every operand size limit of one to seven
    bytes, [makeScriptNum] accepts [v] as the number [n] exactly when [v] is
    what [Bytes] produces for [n] and [n] fits the limit: each number has one
    accepted encoding, decoding inverts encoding in both directions, and the
    accepted range is [-2^(8L-1)+1, 2^(8L-1)-1], symmetric as documented. *)
Theorem scriptNum_codec (v : list Z) (L n : Z) :
  are_bytes v → 1 ≤ L ≤ 7 →
  makeScriptNum v L = Ret n ↔ Bytes n = Ret v ∧ Z.abs n < 2 ^ (8 * L - 1).
Proof.
  intros Hv HL. split.
  - by apply makeScriptNum_range.
  - intros [Henc Hn]. by apply makeScriptNum_Bytes.
Qed.

Lemma scriptNum_codec_witness :
  makeScriptNum [128; 128] 4 = Ret (-128) ∧
  (makeScriptNum [128; 128] 4 = Ret (-128) ↔
   Bytes (-128) = Ret [128; 128] ∧ Z.abs (-128) < 2 ^ (8 * 4 - 1)).
Proof.
  split; [reflexivity|]. apply (scriptNum_codec [128; 128] 4 (-128)); [|lia].
  repeat constructor; lia.
Defined.

(** The only [int64] on which [Bytes] panics is the smallest one, whose
    negation overflows; on every other it returns at most eight bytes (the nine
    bytes the code reserves are never needed), in minimal encoding. *)
Theorem Bytes_total (n : Z) : - 2 ^ 63 ≤ n < 2 ^ 63 →
  (n = - 2 ^ 63 ∧ Bytes n = Crash IndexOutOfRange) ∨
  ∃ v, Bytes n = Ret v ∧ are_bytes v ∧ zlen v ≤ 8 ∧ checkMinimalDataEncoding v = Ret ().
Proof.
  intros Hn. destruct (decide (n = - 2 ^ 63)) as [->|Hne]; [left; by vm_compute|right].
  destruct (Bytes_exists n) as [[-> ->]|(bs & top & -> & _ & Hb & Hmin & Hl)]; [lia| |].
  - exists []. split; [done|]. split; [constructor|done].
  - exists (bs ++ [top]). split; [done|]. split; [done|]. split; [zlia|].
    rewrite checkMinimal_snoc by done. rewrite decide_False; [done|].
    unfold minimal in Hmin. tauto.
Qed.

Lemma Bytes_total_witness :
  - 2 ^ 63 ≤ 1000 < 2 ^ 63 ∧
  (1000 = - 2 ^ 63 ∧ Bytes 1000 = Crash IndexOutOfRange ∨
   ∃ v, Bytes 1000 = Ret v ∧ are_bytes v ∧ zlen v ≤ 8 ∧ checkMinimalDataEncoding v = Ret ()).
Proof. split; [lia|]. apply (Bytes_total 1000). lia. Defined.
End ScriptNumProps.
