(* ===== verification/ScriptStack.v ===== *)
(** * The data stack of the script engine (stack.go)

    A stack is the slice [stk], bottom first.  Its methods are programs over
    it; [int32(len(s.stk))] keeps its truncation. *)
From S2P Require Import Prelude ScriptNum.
Local Open Scope Z_scope.
Local Open Scope prog_scope.

Module Stack.
Import ScriptNum.
Definition stack : Type := list (list Z).
Abbreviation stackM A := (prog stack error A) (only parsing).

(** [for i := range t]: the index is the number of bytes already seen. *)
Fixpoint asBool_from (len i : Z) (t : list Z) : bool :=
  match t with
  | [] => false
  | b :: t =>
      if bool_decide (b ≠ 0) then
        if bool_decide (i = len - 1) && bool_decide (b = 128) then false else true
      else asBool_from len (i + 1) t
  end.

Definition asBool (t : list Z) : bool := asBool_from (zlen t) 0 t.

Definition fromBool (v : bool) : list Z := if v then [1] else [].

Definition Depth : stackM Z := gets (λ s, GoInt.int32 (zlen s)).

Definition PushByteArray (so : list Z) : stackM unit := modify (λ s, s ++ [so]).

Definition PushInt (val : Z) : stackM unit :=
  let* so := lift_outcome (Bytes val) in
  PushByteArray so.

Definition PushBool (val : bool) : stackM unit := PushByteArray (fromBool val).

Definition PeekByteArray (idx : Z) : stackM (list Z) :=
  let* stk := get in
  let sz := GoInt.int32 (zlen stk) in
  if bool_decide (idx < 0) || bool_decide (idx >= sz) then fail ErrInvalidStackOperation
  else lift_outcome (index stk (GoInt.int32 (sz - idx - 1))).

(** The builtin [copy(dst, src)]. *)
Definition go_copy (dst src : stack) : stack :=
  take (length dst) src ++ drop (length src) dst.

Definition nipN (idx : Z) : stackM (list Z) :=
  let* stk := get in
  let sz := GoInt.int32 (zlen stk) in
  if bool_decide (idx < 0) || bool_decide (idx > GoInt.int32 (sz - 1))
  then fail ErrInvalidStackOperation
  else
    let* so := lift_outcome (index stk (GoInt.int32 (sz - idx - 1))) in
    (if bool_decide (idx = 0) then
       let* s1 := lift_outcome (slice stk 0 (sz - 1)) in
       modify (λ _, s1)
     else if bool_decide (idx = sz - 1) then
       let* s2 := lift_outcome (slice stk 1 (zlen stk)) in
       let s1 := go_copy (replicate (Z.to_nat (sz - 1)) []) s2 in
       modify (λ _, s1)
     else
       let* s1 := lift_outcome (slice stk (sz - idx) sz) in
       let* s2 := lift_outcome (slice stk 0 (sz - idx - 1)) in
       modify (λ _, s2 ++ s1)) ;;*
    ret so.

Definition NipN (idx : Z) : stackM unit :=
  nipN idx ;;* ret ().

Definition PopByteArray : stackM (list Z) := nipN 0.

Definition PopInt : stackM Z :=
  let* so := PopByteArray in
  lift_outcome (makeScriptNum so defaultScriptNumLen).

Definition PopBool : stackM bool :=
  let* so := PopByteArray in
  ret (asBool so).

Definition PeekInt (idx : Z) : stackM Z :=
  let* so := PeekByteArray idx in
  lift_outcome (makeScriptNum so defaultScriptNumLen).

Definition PeekBool (idx : Z) : stackM bool :=
  let* so := PeekByteArray idx in
  ret (asBool so).

Definition Tuck : stackM unit :=
  let* so2 := PopByteArray in
  let* so1 := PopByteArray in
  PushByteArray so2 ;;*
  PushByteArray so1 ;;*
  PushByteArray so2.

Definition DropN (n : Z) : stackM unit :=
  if bool_decide (n < 1) then fail ErrInvalidStackOperation
  else repeatM (Z.to_nat n) (PopByteArray ;;* ret ()).

Definition DupN (n : Z) : stackM unit :=
  if bool_decide (n < 1) then fail ErrInvalidStackOperation
  else
    repeatM (Z.to_nat n)
      (let* so := PeekByteArray (GoInt.int32 (n - 1)) in PushByteArray so).

Definition RotN (n : Z) : stackM unit :=
  if bool_decide (n < 1) then fail ErrInvalidStackOperation
  else
    let entry := GoInt.int32 (3 * n - 1) in
    repeatM (Z.to_nat n) (let* so := nipN entry in PushByteArray so).

Definition SwapN (n : Z) : stackM unit :=
  if bool_decide (n < 1) then fail ErrInvalidStackOperation
  else
    let entry := GoInt.int32 (2 * n - 1) in
    repeatM (Z.to_nat n) (let* so := nipN entry in PushByteArray so).

Definition OverN (n : Z) : stackM unit :=
  if bool_decide (n < 1) then fail ErrInvalidStackOperation
  else
    let entry := GoInt.int32 (2 * n - 1) in
    repeatM (Z.to_nat n) (let* so := PeekByteArray entry in PushByteArray so).

Definition PickN (n : Z) : stackM unit :=
  let* so := PeekByteArray n in
  PushByteArray so.

Definition RollN (n : Z) : stackM unit :=
  let* so := nipN n in
  PushByteArray so.
End Stack.
Import Stack.

(** ** Behaviour of the primitives *)

(** The depth a stack must stay below for [int32(len(s.stk))] to be exact. *)
Definition max_depth : Z := 2 ^ 31.

Lemma go_copy_full n s : length s = n → go_copy (replicate n []) s = s.
Proof.
  intros <-. unfold go_copy. rewrite length_replicate, take_ge by lia.
  rewrite drop_ge by (rewrite length_replicate; lia). apply app_nil_r.
Qed.

Lemma nipN_spec (l k : stack) x idx :
  zlen (l ++ x :: k) < max_depth → idx = zlen k →
  nipN idx (l ++ x :: k) = (l ++ k, Ret x).
Proof.
  unfold max_depth. intros Hd ->. set (s := l ++ x :: k) in *.
  assert (zlen s = zlen l + zlen k + 1) as Hs by (unfold s; zlia).
  pose proof (zlen_nonneg l); pose proof (zlen_nonneg k). change (2 ^ 31) with 2147483648 in Hd.
  unfold nipN, bind, get, lift_outcome, modify, ret. cbv zeta. rewrite !(GoInt.int32_id (zlen _)) by lia. rewrite ?GoInt.int32_id by lia.
  rewrite (bool_decide_false (zlen k < 0)), (bool_decide_false (zlen k > _)) by lia. simpl.
  rewrite (index_middle l k x) by lia.
  destruct (bool_decide_reflect (zlen k = 0)) as [E|].
  { apply zlen_zero in E as ->. unfold s in *.
    pose proof (@slice_app error _ [] l [x] 0 (zlen (l ++ [x]) - 1) ltac:(done) ltac:(zlia)) as Hsl.
    simpl in Hsl. rewrite Hsl. by rewrite app_nil_r. }
  destruct (bool_decide_reflect (zlen k = zlen s - 1)) as [E|].
  { assert (l = []) as -> by (apply zlen_zero; lia). unfold s in *. simpl in *.
    pose proof (@slice_app error _ [x] k [] 1 (zlen (x :: k)) ltac:(done) ltac:(zlia)) as Hsl.
    rewrite app_nil_r in Hsl. simpl in Hsl. rewrite Hsl.
    rewrite go_copy_full; [done|]. unfold zlen. simpl. lia. }
  pose proof (@slice_app error _ (l ++ [x]) k [] (zlen s - zlen k) (zlen s) ltac:(zlia) ltac:(zlia)) as Hs1.
  rewrite app_nil_r, <- app_assoc in Hs1. simpl in Hs1. fold s in Hs1. rewrite Hs1.
  pose proof (@slice_app error _ [] l (x :: k) 0 (zlen s - zlen k - 1) ltac:(done) ltac:(zlia)) as Hs2.
  simpl in Hs2. fold s in Hs2. by rewrite Hs2.
Qed.

Lemma nipN_fail (s : stack) idx :
  zlen s < max_depth → idx < 0 ∨ zlen s ≤ idx →
  nipN idx s = (s, Fail ErrInvalidStackOperation).
Proof.
  unfold max_depth. change (2 ^ 31) with 2147483648. intros Hd Hi. pose proof (zlen_nonneg s).
  unfold nipN, bind, get. cbv zeta. rewrite !(GoInt.int32_id (zlen _)) by lia. rewrite ?GoInt.int32_id by lia.
  destruct (bool_decide_reflect (idx < 0)); [done|].
  by rewrite bool_decide_true by lia.
Qed.

Lemma PeekByteArray_spec (l k : stack) x idx :
  zlen (l ++ x :: k) < max_depth → idx = zlen k →
  PeekByteArray idx (l ++ x :: k) = (l ++ x :: k, Ret x).
Proof.
  unfold max_depth. change (2 ^ 31) with 2147483648. intros Hd ->.
  pose proof (zlen_nonneg l); pose proof (zlen_nonneg k).
  assert (zlen (l ++ x :: k) = zlen l + zlen k + 1) as Hs by zlia.
  unfold PeekByteArray, bind, get, lift_outcome. cbv zeta. rewrite !(GoInt.int32_id (zlen _)) by lia. rewrite ?GoInt.int32_id by lia.
  rewrite !bool_decide_false by lia. simpl. by rewrite (index_middle l k x) by lia.
Qed.

Lemma PeekByteArray_fail (s : stack) idx :
  zlen s < max_depth → idx < 0 ∨ zlen s ≤ idx →
  PeekByteArray idx s = (s, Fail ErrInvalidStackOperation).
Proof.
  unfold max_depth. change (2 ^ 31) with 2147483648. intros Hd Hi. pose proof (zlen_nonneg s).
  unfold PeekByteArray, bind, get. cbv zeta. rewrite !(GoInt.int32_id (zlen _)) by lia. rewrite ?GoInt.int32_id by lia.
  destruct (bool_decide_reflect (idx < 0)); [done|].
  by rewrite bool_decide_true by lia.
Qed.

Lemma stack_split (s : stack) idx : 0 ≤ idx < zlen s →
  ∃ l x k, s = l ++ x :: k ∧ zlen k = idx.
Proof.
  intros Hi. set (n := Z.to_nat (zlen s - idx - 1)).
  destruct (lookup_lt_is_Some_2 s n) as [x Hx]; [unfold n, zlen in *; lia|].
  exists (take n s), x, (drop (S n) s). split; [symmetry; by apply take_drop_middle|].
  unfold zlen in *. rewrite length_drop. unfold n. lia.
Qed.

(** ** The loops *)
Lemma nip_push_spec (l k : stack) x entry :
  zlen (l ++ x :: k) < max_depth → entry = zlen k →
  bind (nipN entry) PushByteArray (l ++ x :: k) = (l ++ k ++ [x], Ret ()).
Proof.
  intros Hd He. erewrite bind_ret_l by (by apply nipN_spec).
  unfold PushByteArray, modify. by rewrite <- app_assoc.
Qed.

Lemma peek_push_spec (l k : stack) x entry :
  zlen (l ++ x :: k) < max_depth → entry = zlen k →
  bind (PeekByteArray entry) PushByteArray (l ++ x :: k) = (l ++ x :: k ++ [x], Ret ()).
Proof.
  intros Hd He. erewrite bind_ret_l by (by apply PeekByteArray_spec).
  unfold PushByteArray, modify. by rewrite <- app_assoc.
Qed.

Lemma repeat_nip_push (base xs ys : stack) entry :
  zlen (base ++ xs ++ ys) < max_depth → entry = zlen (xs ++ ys) - 1 →
  repeatM (length xs) (bind (nipN entry) PushByteArray) (base ++ xs ++ ys)
  = (base ++ ys ++ xs, Ret ()).
Proof.
  revert ys. induction xs as [|x xs IH]; intros ys Hd He; simpl.
  { by rewrite app_nil_r. }
  erewrite bind_ret_l by (apply nip_push_spec; [done|rewrite He; zlia]).
  rewrite <- app_assoc, IH.
  - by rewrite <- app_assoc.
  - revert Hd. zlen_norm. lia.
  - rewrite He. zlia.
Qed.

Lemma repeat_peek_push (base xs ys : stack) entry :
  zlen (base ++ xs ++ ys ++ xs) < max_depth → entry = zlen (xs ++ ys) - 1 →
  repeatM (length xs) (bind (PeekByteArray entry) PushByteArray) (base ++ xs ++ ys)
  = (base ++ xs ++ ys ++ xs, Ret ()).
Proof.
  revert base ys. induction xs as [|x xs IH]; intros base ys Hd He; simpl.
  { by rewrite app_nil_r. }
  pose proof (zlen_nonneg xs).
  erewrite bind_ret_l by (apply peek_push_spec; [revert Hd; zlen_norm; lia|rewrite He; zlia]).
  rewrite <- app_assoc. replace (base ++ x :: xs ++ ys ++ [x])
    with ((base ++ [x]) ++ xs ++ ys ++ [x]) by (by rewrite <- app_assoc).
  rewrite IH.
  - by rewrite <- !app_assoc.
  - revert Hd. zlen_norm. lia.
  - rewrite He. zlia.
Qed.

Lemma repeat_pop (base xs : stack) :
  zlen (base ++ xs) < max_depth →
  repeatM (length xs) (bind PopByteArray (λ _, ret ())) (base ++ xs) = (base, Ret ()).
Proof.
  induction xs as [|x xs IH] using rev_ind; intros Hd; [by rewrite app_nil_r|].
  rewrite length_app, Nat.add_comm. simpl.
  rewrite app_assoc in *. erewrite bind_ret_l.
  2:{ erewrite bind_ret_l by (apply (nipN_spec _ []); [done|done]). by rewrite app_nil_r. }
  apply IH. revert Hd. zlen_norm. lia.
Qed.

(** A loop whose first round fails, fails. *)
Lemma repeatM_fail {S E} n (m : prog S E unit) s e :
  (0 < n)%nat → m s = (s, Fail e) → repeatM n m s = (s, Fail e).
Proof. intros Hn Hm. destruct n; [lia|]. simpl. by apply bind_fail_l. Qed.

(** ** Operations on fewer items than they need *)
Lemma repeat_pop_fail n (s : stack) :
  zlen s < max_depth → (length s < n)%nat →
  repeatM n (bind PopByteArray (λ _, ret ())) s = ([], Fail ErrInvalidStackOperation).
Proof.
  revert s. induction n as [|n IH]; intros s Hd Hn; [lia|]. simpl.
  destruct s as [|x s _] using rev_ind.
  - erewrite bind_fail_l; [done|]. apply bind_fail_l. apply nipN_fail; [done|right; zlia].
  - rewrite length_app in Hn. simpl in Hn. erewrite bind_ret_l.
    2:{ erewrite bind_ret_l by (apply (nipN_spec _ []); [done|done]). by rewrite app_nil_r. }
    apply IH; [revert Hd; zlen_norm; lia|lia].
Qed.

(** ** Invariants

    Every operation only moves and copies items, so a property of the items
    and a bound on the depth go through it. *)
Definition items_ok (P : list Z → Prop) (N : Z) (s : stack) : Prop := Forall P s ∧ zlen s ≤ N.

Section Preservation.
Context (P : list Z → Prop) (N : Z).

Lemma wp_nipN idx (Q : list Z → stack → Prop) s :
  zlen s < max_depth → items_ok P N s →
  (∀ x s', P x → items_ok P (N - 1) s' → Q x s') →
  wp (nipN idx) Q (λ _ _, True) s.
Proof.
  intros Hd [HP HN] HQ.
  destruct (decide (0 ≤ idx < zlen s)) as [Hi|Hi].
  2:{ unfold wp. rewrite nipN_fail by lia. done. }
  destruct (stack_split s idx Hi) as (l & x & k & -> & Hk).
  unfold wp. rewrite nipN_spec by done.
  apply Forall_app in HP as [HPl [HPx HPk]%Forall_cons_iff].
  apply HQ; [done|]. split; [by apply Forall_app|zlia].
Qed.

Lemma wp_PopByteArray (Q : list Z → stack → Prop) s :
  zlen s < max_depth → items_ok P N s →
  (∀ x s', P x → items_ok P (N - 1) s' → Q x s') →
  wp PopByteArray Q (λ _ _, True) s.
Proof. apply wp_nipN. Qed.

Lemma wp_PeekByteArray idx (Q : list Z → stack → Prop) s :
  zlen s < max_depth → items_ok P N s → (∀ x, P x → Q x s) →
  wp (PeekByteArray idx) Q (λ _ _, True) s.
Proof.
  intros Hd [HP HN] HQ.
  destruct (decide (0 ≤ idx < zlen s)) as [Hi|Hi].
  2:{ unfold wp. rewrite PeekByteArray_fail by lia. done. }
  destruct (stack_split s idx Hi) as (l & x & k & -> & Hk).
  unfold wp. rewrite PeekByteArray_spec by done.
  apply Forall_app in HP as [_ [HPx _]%Forall_cons_iff]. auto.
Qed.

Lemma wp_PushByteArray so (Q : unit → stack → Prop) QE s :
  P so → items_ok P N s → (∀ s', items_ok P (N + 1) s' → Q () s') →
  wp (PushByteArray so) Q QE s.
Proof.
  intros Hso [HP HN] HQ. apply HQ. split; [|zlia].
  apply Forall_app. auto.
Qed.
End Preservation.

Lemma items_ok_mono P N N' s : items_ok P N s → N ≤ N' → items_ok P N' s.
Proof. intros [] ?. split; [done|lia]. Qed.

Lemma wp_repeatM {S E} (I : nat → S → Prop) QE (m : prog S E unit) n s :
  I n s →
  (∀ k s, I (Datatypes.S k) s → wp m (λ _, I k) QE s) →
  wp (repeatM n m) (λ _, I 0%nat) QE s.
Proof.
  revert s. induction n as [|n IH]; intros s Hs Hm; [done|].
  simpl. apply wp_bind. eapply wp_mono; [by apply Hm| |done]. intros [] s' Hs'. by apply IH.
Qed.

(** [grows m g]: [m] never crashes, keeps every property of the items, and
    leaves at most [g] more of them. *)
Definition grows {A} (m : prog stack error A) (g : Z) : Prop :=
  ∀ P N s, N + g < max_depth → N < max_depth → items_ok P N s →
  wp m (λ _ s', items_ok P (N + g) s') (λ _ _, True) s.

Lemma items_depth P N s : N < max_depth → items_ok P N s → zlen s < max_depth.
Proof. intros ? []. lia. Qed.

Lemma grows_nip_push e : grows (bind (nipN e) PushByteArray) 0.
Proof.
  intros P N s HN HN' Hs. apply wp_bind.
  apply (wp_nipN P N); [by eapply items_depth|done|]. intros x s1 Hx Hs1.
  apply (wp_PushByteArray P (N - 1)); [done|done|].
  intros s2 Hs2. eapply items_ok_mono; [done|lia].
Qed.

Lemma grows_peek_push e : grows (bind (PeekByteArray e) PushByteArray) 1.
Proof.
  intros P N s HN HN' Hs. apply wp_bind.
  apply (wp_PeekByteArray P N); [by eapply items_depth|done|]. intros x Hx.
  by apply (wp_PushByteArray P N).
Qed.

Lemma grows_pop : grows (bind PopByteArray (λ _, ret ())) 0.
Proof.
  intros P N s HN HN' Hs. apply wp_bind.
  apply (wp_PopByteArray P N); [by eapply items_depth|done|]. intros x s1 Hx Hs1.
  apply wp_ret. eapply items_ok_mono; [done|lia].
Qed.

Lemma grows_repeat (m : prog stack error unit) g n :
  0 ≤ g → grows m g → grows (repeatM n m) (Z.of_nat n * g).
Proof.
  intros Hg Hm P N s HN HN' Hs.
  eapply wp_mono;
    [apply (wp_repeatM (λ k s, (k ≤ n)%nat ∧ items_ok P (N + Z.of_nat (n - k) * g) s) (λ _ _, True))
    |simpl; rewrite Nat.sub_0_r; by intros _ s' []|done].
  { split; [done|]. rewrite Nat.sub_diag. eapply items_ok_mono; [done|lia]. }
  intros k s' [Hk Hs']. eapply wp_mono.
  - apply (Hm P (N + Z.of_nat (n - Datatypes.S k) * g)); [nia|nia|done].
  - intros [] s2 Hs2; simpl in Hs2. split; [lia|]. eapply items_ok_mono; [done|]. nia.
  - done.
Qed.

Lemma grows_fail {A} e g : grows (@fail stack error A e) g.
Proof. intros P N s _ _ _. done. Qed.

Lemma grows_guard (b : bool) e (m : prog stack error unit) g :
  grows m g → grows (if b then fail e else m) g.
Proof. intros Hm. destruct b; [apply grows_fail|done]. Qed.

Lemma grows_eq {A} (m : prog stack error A) g g' : g = g' → grows m g → grows m g'.
Proof. by intros <-. Qed.

Lemma grows_DropN n : grows (DropN n) 0.
Proof. eapply grows_eq; [|apply grows_guard, grows_repeat, grows_pop]; lia. Qed.
Lemma grows_DupN n : 1 ≤ n → grows (DupN n) n.
Proof.
  intros. eapply grows_eq; [|apply grows_guard, grows_repeat, grows_peek_push]; lia.
Qed.
Lemma grows_RotN n : grows (RotN n) 0.
Proof. eapply grows_eq; [|apply grows_guard, grows_repeat, grows_nip_push]; lia. Qed.
Lemma grows_SwapN n : grows (SwapN n) 0.
Proof. eapply grows_eq; [|apply grows_guard, grows_repeat, grows_nip_push]; lia. Qed.
Lemma grows_OverN n : 1 ≤ n → grows (OverN n) n.
Proof.
  intros. eapply grows_eq; [|apply grows_guard, grows_repeat, grows_peek_push]; lia.
Qed.
Lemma grows_PickN n : grows (PickN n) 1.
Proof. apply grows_peek_push. Qed.
Lemma grows_RollN n : grows (RollN n) 0.
Proof. apply grows_nip_push. Qed.
Lemma grows_NipN n : grows (NipN n) 0.
Proof.
  intros P N s HN HN' Hs. apply wp_bind.
  apply (wp_nipN P N); [by eapply items_depth|done|]. intros x s1 Hx Hs1.
  apply wp_ret. eapply items_ok_mono; [done|lia].
Qed.
Lemma grows_Tuck : grows Tuck 1.
Proof.
  intros P N s HN HN' Hs. apply wp_bind.
  apply (wp_PopByteArray P N); [by eapply items_depth|done|]. intros x s1 Hx Hs1.
  apply wp_bind. apply (wp_PopByteArray P (N - 1)); [eapply items_depth; [|done]; lia|done|].
  intros y s2 Hy Hs2.
  apply wp_bind, (wp_PushByteArray P (N - 1 - 1)); [done|done|]. intros s3 Hs3.
  apply wp_bind, (wp_PushByteArray P (N - 1 - 1 + 1)); [done|done|]. intros s4 Hs4.
  apply (wp_PushByteArray P (N - 1 - 1 + 1 + 1)); [done|done|]. intros s5 Hs5.
  eapply items_ok_mono; [done|lia].
Qed.
#[export] Hint Resolve grows_DropN grows_DupN grows_RotN grows_SwapN grows_OverN grows_PickN
  grows_RollN grows_NipN grows_Tuck : core.

(** ** Properties *)
Module StackProps.
(** The stack transformations documented in stack.go, for every item
    count [n] and every contents: with [a], [b], [c] of [n] items each on a stack
    whose depth stays an [int32], DropN removes the last group, DupN repeats it,
    OverN copies the group below it, SwapN exchanges the two last groups and RotN
    brings the third to the top. *)
Theorem group_operations (base a b c : stack) (n : Z) :
  1 ≤ n → zlen a = n → zlen b = n → zlen c = n →
  zlen base + 4 * n < max_depth →
  DropN n (base ++ a) = (base, Ret ()) ∧
  DupN n (base ++ a) = (base ++ a ++ a, Ret ()) ∧
  OverN n (base ++ a ++ b) = (base ++ a ++ b ++ a, Ret ()) ∧
  SwapN n (base ++ a ++ b) = (base ++ b ++ a, Ret ()) ∧
  RotN n (base ++ a ++ b ++ c) = (base ++ b ++ c ++ a, Ret ()).
Proof.
  intros Hn Ha Hb Hc Hd. unfold max_depth in Hd. change (2 ^ 31) with 2147483648 in Hd.
  pose proof (zlen_nonneg base).
  assert (Z.to_nat n = length a) as Hna by (unfold zlen in Ha; lia).
  unfold DropN, DupN, OverN, SwapN, RotN. rewrite !bool_decide_false by lia.
  rewrite !GoInt.int32_id by lia. rewrite Hna.
  split; [apply repeat_pop; unfold max_depth; zlia|].
  split; [pose proof (repeat_peek_push base a [] (n - 1)) as Hp; simpl in Hp;
          rewrite !app_nil_r in Hp; apply Hp; unfold max_depth; zlia|].
  split; [apply repeat_peek_push; unfold max_depth; zlia|].
  split; [apply repeat_nip_push; unfold max_depth; zlia|].
  rewrite repeat_nip_push by (unfold max_depth; zlia). by rewrite <- app_assoc.
Qed.

Lemma group_operations_witness :
  DropN 1 ([[9]] ++ [[1]]) = ([[9]], Ret ()) ∧
  DupN 1 ([[9]] ++ [[1]]) = ([[9]] ++ [[1]] ++ [[1]], Ret ()) ∧
  OverN 1 ([[9]] ++ [[1]] ++ [[2]]) = ([[9]] ++ [[1]] ++ [[2]] ++ [[1]], Ret ()) ∧
  SwapN 1 ([[9]] ++ [[1]] ++ [[2]]) = ([[9]] ++ [[2]] ++ [[1]], Ret ()) ∧
  RotN 1 ([[9]] ++ [[1]] ++ [[2]] ++ [[3]]) = ([[9]] ++ [[2]] ++ [[3]] ++ [[1]], Ret ()).
Proof. apply (group_operations [[9]] [[1]] [[2]] [[3]] 1); [lia|reflexivity..]. Defined.

(** An operation on a group reports [ErrInvalidStackOperation], and does
    not panic, when it is asked for less than one item or the stack holds too few;
    all of them then leave the stack as it was, except DropN of a positive count,
    which has by then emptied it. *)
Theorem group_operations_error (s : stack) (n : Z) :
  3 * n < max_depth → zlen s < max_depth →
  (n < 1 ∨ zlen s < n → DupN n s = (s, Fail ErrInvalidStackOperation)) ∧
  (n < 1 ∨ zlen s < 2 * n → OverN n s = (s, Fail ErrInvalidStackOperation) ∧
                            SwapN n s = (s, Fail ErrInvalidStackOperation)) ∧
  (n < 1 ∨ zlen s < 3 * n → RotN n s = (s, Fail ErrInvalidStackOperation)) ∧
  (n < 1 → DropN n s = (s, Fail ErrInvalidStackOperation)) ∧
  (1 ≤ n → zlen s < n → DropN n s = ([], Fail ErrInvalidStackOperation)).
Proof.
  intros Hn Hs. pose proof (zlen_nonneg s).
  unfold DropN, DupN, OverN, SwapN, RotN.
  destruct (bool_decide_reflect (n < 1)); [repeat split; auto; lia|].
  unfold max_depth in Hn. change (2 ^ 31) with 2147483648 in Hn.
  rewrite !GoInt.int32_id by lia.
  repeat split; intros.
  all: first
    [ lia
    | apply repeat_pop_fail; [done|unfold zlen in *; lia]
    | apply repeatM_fail; [lia|]; apply bind_fail_l;
      (apply nipN_fail || apply PeekByteArray_fail); [done|lia] ].
Qed.

Lemma group_operations_error_witness :
  RotN 1 [[1]; [2]] = ([[1]; [2]], Fail ErrInvalidStackOperation) ∧
  DropN 3 [[1]; [2]] = ([], Fail ErrInvalidStackOperation).
Proof.
  split.
  - apply (group_operations_error [[1]; [2]] 1); [reflexivity..|right; reflexivity].
  - apply (group_operations_error [[1]; [2]] 3); [reflexivity|reflexivity|lia|reflexivity].
Defined.
End StackProps.
