(* ===== verification/OpcodeTable.v ===== *)
(** * The opcode table (opcode.go)

    The opcode values, the type [opcode] and the array [opcodeArray].  The
    [opfunc] of an entry is the name of its handler, a [handler]; Opcode.v
    gives each handler its meaning.  An array element the literal leaves out is
    Go's zero value, [zeroOpcode]. *)
From S2P Require Import Prelude.
Local Open Scope Z_scope.

(** ** Opcode values *)
Module Op.
Definition Op0 : Z := 0.
Definition OpFalse : Z := 0.
Definition OpData1 : Z := 1.
Definition OpData2 : Z := 2.
Definition OpData3 : Z := 3.
Definition OpData4 : Z := 4.
Definition OpData5 : Z := 5.
Definition OpData6 : Z := 6.
Definition OpData7 : Z := 7.
Definition OpData8 : Z := 8.
Definition OpData9 : Z := 9.
Definition OpData10 : Z := 10.
Definition OpData11 : Z := 11.
Definition OpData12 : Z := 12.
Definition OpData13 : Z := 13.
Definition OpData14 : Z := 14.
Definition OpData15 : Z := 15.
Definition OpData16 : Z := 16.
Definition OpData17 : Z := 17.
Definition OpData18 : Z := 18.
Definition OpData19 : Z := 19.
Definition OpData20 : Z := 20.
Definition OpData21 : Z := 21.
Definition OpData22 : Z := 22.
Definition OpData23 : Z := 23.
Definition OpData24 : Z := 24.
Definition OpData25 : Z := 25.
Definition OpData26 : Z := 26.
Definition OpData27 : Z := 27.
Definition OpData28 : Z := 28.
Definition OpData29 : Z := 29.
Definition OpData30 : Z := 30.
Definition OpData31 : Z := 31.
Definition OpData32 : Z := 32.
Definition OpData33 : Z := 33.
Definition OpData34 : Z := 34.
Definition OpData35 : Z := 35.
Definition OpData36 : Z := 36.
Definition OpData37 : Z := 37.
Definition OpData38 : Z := 38.
Definition OpData39 : Z := 39.
Definition OpData40 : Z := 40.
Definition OpData41 : Z := 41.
Definition OpData42 : Z := 42.
Definition OpData43 : Z := 43.
Definition OpData44 : Z := 44.
Definition OpData45 : Z := 45.
Definition OpData46 : Z := 46.
Definition OpData47 : Z := 47.
Definition OpData48 : Z := 48.
Definition OpData49 : Z := 49.
Definition OpData50 : Z := 50.
Definition OpData51 : Z := 51.
Definition OpData52 : Z := 52.
Definition OpData53 : Z := 53.
Definition OpData54 : Z := 54.
Definition OpData55 : Z := 55.
Definition OpData56 : Z := 56.
Definition OpData57 : Z := 57.
Definition OpData58 : Z := 58.
Definition OpData59 : Z := 59.
Definition OpData60 : Z := 60.
Definition OpData61 : Z := 61.
Definition OpData62 : Z := 62.
Definition OpData63 : Z := 63.
Definition OpData64 : Z := 64.
Definition OpData65 : Z := 65.
Definition OpData66 : Z := 66.
Definition OpData67 : Z := 67.
Definition OpData68 : Z := 68.
Definition OpData69 : Z := 69.
Definition OpData70 : Z := 70.
Definition OpData71 : Z := 71.
Definition OpData72 : Z := 72.
Definition OpData73 : Z := 73.
Definition OpData74 : Z := 74.
Definition OpData75 : Z := 75.
Definition OpPushData1 : Z := 76.
Definition OpPushData2 : Z := 77.
Definition OpPushData4 : Z := 78.
Definition Op1Negate : Z := 79.
Definition OpReserved : Z := 80.
Definition Op1 : Z := 81.
Definition OpTrue : Z := 81.
Definition Op2 : Z := 82.
Definition Op3 : Z := 83.
Definition Op4 : Z := 84.
Definition Op5 : Z := 85.
Definition Op6 : Z := 86.
Definition Op7 : Z := 87.
Definition Op8 : Z := 88.
Definition Op9 : Z := 89.
Definition Op10 : Z := 90.
Definition Op11 : Z := 91.
Definition Op12 : Z := 92.
Definition Op13 : Z := 93.
Definition Op14 : Z := 94.
Definition Op15 : Z := 95.
Definition Op16 : Z := 96.
Definition OpNop : Z := 97.
Definition OpVer : Z := 98.
Definition OpIf : Z := 99.
Definition OpNotIf : Z := 100.
Definition OpVerIf : Z := 101.
Definition OpVerNotIf : Z := 102.
Definition OpElse : Z := 103.
Definition OpEndIf : Z := 104.
Definition OpVerify : Z := 105.
Definition OpReturn : Z := 106.
Definition OpToAltStack : Z := 107.
Definition OpFromAltStack : Z := 108.
Definition Op2Drop : Z := 109.
Definition Op2Dup : Z := 110.
Definition Op3Dup : Z := 111.
Definition Op2Over : Z := 112.
Definition Op2Rot : Z := 113.
Definition Op2Swap : Z := 114.
Definition OpIfDup : Z := 115.
Definition OpDepth : Z := 116.
Definition OpDrop : Z := 117.
Definition OpDup : Z := 118.
Definition OpNip : Z := 119.
Definition OpOver : Z := 120.
Definition OpPick : Z := 121.
Definition OpRoll : Z := 122.
Definition OpRot : Z := 123.
Definition OpSwap : Z := 124.
Definition OpTuck : Z := 125.
Definition OpCat : Z := 126.
Definition OpSubStr : Z := 127.
Definition OpLeft : Z := 128.
Definition OpRight : Z := 129.
Definition OpSize : Z := 130.
Definition OpInvert : Z := 131.
Definition OpAnd : Z := 132.
Definition OpOr : Z := 133.
Definition OpXor : Z := 134.
Definition OpEqual : Z := 135.
Definition OpEqualVerify : Z := 136.
Definition OpReserved1 : Z := 137.
Definition OpReserved2 : Z := 138.
Definition Op1Add : Z := 139.
Definition Op1Sub : Z := 140.
Definition Op2Mul : Z := 141.
Definition Op2Div : Z := 142.
Definition OpNegate : Z := 143.
Definition OpAbs : Z := 144.
Definition OpNot : Z := 145.
Definition Op0NotEqual : Z := 146.
Definition OpAdd : Z := 147.
Definition OpSub : Z := 148.
Definition OpMul : Z := 149.
Definition OpDiv : Z := 150.
Definition OpMod : Z := 151.
Definition OpLShift : Z := 152.
Definition OpRShift : Z := 153.
Definition OpBoolAnd : Z := 154.
Definition OpBoolOr : Z := 155.
Definition OpNumEqual : Z := 156.
Definition OpNumEqualVerify : Z := 157.
Definition OpNumNotEqual : Z := 158.
Definition OpLessThan : Z := 159.
Definition OpGreaterThan : Z := 160.
Definition OpLessThanOrEqual : Z := 161.
Definition OpGreaterThanOrEqual : Z := 162.
Definition OpMin : Z := 163.
Definition OpMax : Z := 164.
Definition OpWithin : Z := 165.
Definition OpUnknown166 : Z := 166.
Definition OpUnknown167 : Z := 167.
Definition OpSHA256 : Z := 168.
Definition OpCheckMultiSigECDSA : Z := 169.
Definition OpBlake2b : Z := 170.
Definition OpCheckSigECDSA : Z := 171.
Definition OpCheckSig : Z := 172.
Definition OpCheckSigVerify : Z := 173.
Definition OpCheckMultiSig : Z := 174.
Definition OpCheckMultiSigVerify : Z := 175.
Definition OpCheckLockTimeVerify : Z := 176.
Definition OpCheckSequenceVerify : Z := 177.
Definition OpNop1 : Z := 178.
Definition OpNop2 : Z := 179.
Definition OpNop3 : Z := 180.
Definition OpNop4 : Z := 181.
Definition OpNop5 : Z := 182.
Definition OpNop6 : Z := 183.
Definition OpNop7 : Z := 184.
Definition OpNop8 : Z := 185.
Definition OpNop9 : Z := 186.
Definition OpNop10 : Z := 187.
Definition OpUnknown188 : Z := 188.
Definition OpUnknown189 : Z := 189.
Definition OpUnknown190 : Z := 190.
Definition OpUnknown191 : Z := 191.
Definition OpUnknown192 : Z := 192.
Definition OpUnknown193 : Z := 193.
Definition OpUnknown194 : Z := 194.
Definition OpUnknown195 : Z := 195.
Definition OpUnknown196 : Z := 196.
Definition OpUnknown197 : Z := 197.
Definition OpUnknown198 : Z := 198.
Definition OpUnknown199 : Z := 199.
Definition OpUnknown200 : Z := 200.
Definition OpUnknown201 : Z := 201.
Definition OpUnknown202 : Z := 202.
Definition OpUnknown203 : Z := 203.
Definition OpUnknown204 : Z := 204.
Definition OpUnknown205 : Z := 205.
Definition OpUnknown206 : Z := 206.
Definition OpUnknown207 : Z := 207.
Definition OpUnknown208 : Z := 208.
Definition OpUnknown209 : Z := 209.
Definition OpUnknown210 : Z := 210.
Definition OpUnknown211 : Z := 211.
Definition OpUnknown212 : Z := 212.
Definition OpUnknown213 : Z := 213.
Definition OpUnknown214 : Z := 214.
Definition OpUnknown215 : Z := 215.
Definition OpUnknown216 : Z := 216.
Definition OpUnknown217 : Z := 217.
Definition OpUnknown218 : Z := 218.
Definition OpUnknown219 : Z := 219.
Definition OpUnknown220 : Z := 220.
Definition OpUnknown221 : Z := 221.
Definition OpUnknown222 : Z := 222.
Definition OpUnknown223 : Z := 223.
Definition OpUnknown224 : Z := 224.
Definition OpUnknown225 : Z := 225.
Definition OpUnknown226 : Z := 226.
Definition OpUnknown227 : Z := 227.
Definition OpUnknown228 : Z := 228.
Definition OpUnknown229 : Z := 229.
Definition OpUnknown230 : Z := 230.
Definition OpUnknown231 : Z := 231.
Definition OpUnknown232 : Z := 232.
Definition OpUnknown233 : Z := 233.
Definition OpUnknown234 : Z := 234.
Definition OpUnknown235 : Z := 235.
Definition OpUnknown236 : Z := 236.
Definition OpUnknown237 : Z := 237.
Definition OpUnknown238 : Z := 238.
Definition OpUnknown239 : Z := 239.
Definition OpUnknown240 : Z := 240.
Definition OpUnknown241 : Z := 241.
Definition OpUnknown242 : Z := 242.
Definition OpUnknown243 : Z := 243.
Definition OpUnknown244 : Z := 244.
Definition OpUnknown245 : Z := 245.
Definition OpUnknown246 : Z := 246.
Definition OpUnknown247 : Z := 247.
Definition OpUnknown248 : Z := 248.
Definition OpUnknown249 : Z := 249.
Definition OpSmallInteger : Z := 250.
Definition OpPubKeys : Z := 251.
Definition OpUnknown252 : Z := 252.
Definition OpPubKeyHash : Z := 253.
Definition OpPubKey : Z := 254.
Definition OpInvalidOpCode : Z := 255.
Definition OpCondFalse : Z := 0.
Definition OpCondTrue : Z := 1.
Definition OpCondSkip : Z := 2.
End Op.
Import Op.

(** ** The functions named in the [opfunc] column *)
Inductive handler :=
  | H_opcodeFalse
  | H_opcodePushData
  | H_opcode1Negate
  | H_opcodeReserved
  | H_opcodeN
  | H_opcodeNop
  | H_opcodeIf
  | H_opcodeNotIf
  | H_opcodeElse
  | H_opcodeEndif
  | H_opcodeVerify
  | H_opcodeReturn
  | H_opcodeCheckLockTimeVerify
  | H_opcodeCheckSequenceVerify
  | H_opcodeToAltStack
  | H_opcodeFromAltStack
  | H_opcode2Drop
  | H_opcode2Dup
  | H_opcode3Dup
  | H_opcode2Over
  | H_opcode2Rot
  | H_opcode2Swap
  | H_opcodeIfDup
  | H_opcodeDepth
  | H_opcodeDrop
  | H_opcodeDup
  | H_opcodeNip
  | H_opcodeOver
  | H_opcodePick
  | H_opcodeRoll
  | H_opcodeRot
  | H_opcodeSwap
  | H_opcodeTuck
  | H_opcodeDisabled
  | H_opcodeSize
  | H_opcodeEqual
  | H_opcodeEqualVerify
  | H_opcode1Add
  | H_opcode1Sub
  | H_opcodeNegate
  | H_opcodeAbs
  | H_opcodeNot
  | H_opcode0NotEqual
  | H_opcodeAdd
  | H_opcodeSub
  | H_opcodeBoolAnd
  | H_opcodeBoolOr
  | H_opcodeNumEqual
  | H_opcodeNumEqualVerify
  | H_opcodeNumNotEqual
  | H_opcodeLessThan
  | H_opcodeGreaterThan
  | H_opcodeLessThanOrEqual
  | H_opcodeGreaterThanOrEqual
  | H_opcodeMin
  | H_opcodeMax
  | H_opcodeWithin
  | H_opcodeCheckMultiSigECDSA
  | H_opcodeSha256
  | H_opcodeBlake2b
  | H_opcodeCheckSigECDSA
  | H_opcodeCheckSig
  | H_opcodeCheckSigVerify
  | H_opcodeCheckMultiSig
  | H_opcodeCheckMultiSigVerify
  | H_opcodeInvalid.

Record opcode := {
  opc_value : Z;
  opc_name : string;
  opc_length : Z;
  opc_opfunc : option handler
}.

Definition zeroOpcode : opcode := {| opc_value := 0; opc_name := ""; opc_length := 0; opc_opfunc := None |}.

(** An element [k: {v, n, l, f}] of the array literal. *)
Definition entry (k v : Z) (n : string) (l : Z) (f : handler) : Z * opcode :=
  (k, {| opc_value := v; opc_name := n; opc_length := l; opc_opfunc := Some f |}).

(** ** The array literal, section by section *)
(** Data push opcodes. *)
Definition dataPushOpcodes : list (Z * opcode) := [
  entry OpFalse OpFalse "OP_0" 1 H_opcodeFalse;
  entry OpData1 OpData1 "OP_DATA_1" 2 H_opcodePushData;
  entry OpData2 OpData2 "OP_DATA_2" 3 H_opcodePushData;
  entry OpData3 OpData3 "OP_DATA_3" 4 H_opcodePushData;
  entry OpData4 OpData4 "OP_DATA_4" 5 H_opcodePushData;
  entry OpData5 OpData5 "OP_DATA_5" 6 H_opcodePushData;
  entry OpData6 OpData6 "OP_DATA_6" 7 H_opcodePushData;
  entry OpData7 OpData7 "OP_DATA_7" 8 H_opcodePushData;
  entry OpData8 OpData8 "OP_DATA_8" 9 H_opcodePushData;
  entry OpData9 OpData9 "OP_DATA_9" 10 H_opcodePushData;
  entry OpData10 OpData10 "OP_DATA_10" 11 H_opcodePushData;
  entry OpData11 OpData11 "OP_DATA_11" 12 H_opcodePushData;
  entry OpData12 OpData12 "OP_DATA_12" 13 H_opcodePushData;
  entry OpData13 OpData13 "OP_DATA_13" 14 H_opcodePushData;
  entry OpData14 OpData14 "OP_DATA_14" 15 H_opcodePushData;
  entry OpData15 OpData15 "OP_DATA_15" 16 H_opcodePushData;
  entry OpData16 OpData16 "OP_DATA_16" 17 H_opcodePushData;
  entry OpData17 OpData17 "OP_DATA_17" 18 H_opcodePushData;
  entry OpData18 OpData18 "OP_DATA_18" 19 H_opcodePushData;
  entry OpData19 OpData19 "OP_DATA_19" 20 H_opcodePushData;
  entry OpData20 OpData20 "OP_DATA_20" 21 H_opcodePushData;
  entry OpData21 OpData21 "OP_DATA_21" 22 H_opcodePushData;
  entry OpData22 OpData22 "OP_DATA_22" 23 H_opcodePushData;
  entry OpData23 OpData23 "OP_DATA_23" 24 H_opcodePushData;
  entry OpData24 OpData24 "OP_DATA_24" 25 H_opcodePushData;
  entry OpData25 OpData25 "OP_DATA_25" 26 H_opcodePushData;
  entry OpData26 OpData26 "OP_DATA_26" 27 H_opcodePushData;
  entry OpData27 OpData27 "OP_DATA_27" 28 H_opcodePushData;
  entry OpData28 OpData28 "OP_DATA_28" 29 H_opcodePushData;
  entry OpData29 OpData29 "OP_DATA_29" 30 H_opcodePushData;
  entry OpData30 OpData30 "OP_DATA_30" 31 H_opcodePushData;
  entry OpData31 OpData31 "OP_DATA_31" 32 H_opcodePushData;
  entry OpData32 OpData32 "OP_DATA_32" 33 H_opcodePushData;
  entry OpData33 OpData33 "OP_DATA_33" 34 H_opcodePushData;
  entry OpData34 OpData34 "OP_DATA_34" 35 H_opcodePushData;
  entry OpData35 OpData35 "OP_DATA_35" 36 H_opcodePushData;
  entry OpData36 OpData36 "OP_DATA_36" 37 H_opcodePushData;
  entry OpData37 OpData37 "OP_DATA_37" 38 H_opcodePushData;
  entry OpData38 OpData38 "OP_DATA_38" 39 H_opcodePushData;
  entry OpData39 OpData39 "OP_DATA_39" 40 H_opcodePushData;
  entry OpData40 OpData40 "OP_DATA_40" 41 H_opcodePushData;
  entry OpData41 OpData41 "OP_DATA_41" 42 H_opcodePushData;
  entry OpData42 OpData42 "OP_DATA_42" 43 H_opcodePushData;
  entry OpData43 OpData43 "OP_DATA_43" 44 H_opcodePushData;
  entry OpData44 OpData44 "OP_DATA_44" 45 H_opcodePushData;
  entry OpData45 OpData45 "OP_DATA_45" 46 H_opcodePushData;
  entry OpData46 OpData46 "OP_DATA_46" 47 H_opcodePushData;
  entry OpData47 OpData47 "OP_DATA_47" 48 H_opcodePushData;
  entry OpData48 OpData48 "OP_DATA_48" 49 H_opcodePushData;
  entry OpData49 OpData49 "OP_DATA_49" 50 H_opcodePushData;
  entry OpData50 OpData50 "OP_DATA_50" 51 H_opcodePushData;
  entry OpData51 OpData51 "OP_DATA_51" 52 H_opcodePushData;
  entry OpData52 OpData52 "OP_DATA_52" 53 H_opcodePushData;
  entry OpData53 OpData53 "OP_DATA_53" 54 H_opcodePushData;
  entry OpData54 OpData54 "OP_DATA_54" 55 H_opcodePushData;
  entry OpData55 OpData55 "OP_DATA_55" 56 H_opcodePushData;
  entry OpData56 OpData56 "OP_DATA_56" 57 H_opcodePushData;
  entry OpData57 OpData57 "OP_DATA_57" 58 H_opcodePushData;
  entry OpData58 OpData58 "OP_DATA_58" 59 H_opcodePushData;
  entry OpData59 OpData59 "OP_DATA_59" 60 H_opcodePushData;
  entry OpData60 OpData60 "OP_DATA_60" 61 H_opcodePushData;
  entry OpData61 OpData61 "OP_DATA_61" 62 H_opcodePushData;
  entry OpData62 OpData62 "OP_DATA_62" 63 H_opcodePushData;
  entry OpData63 OpData63 "OP_DATA_63" 64 H_opcodePushData;
  entry OpData64 OpData64 "OP_DATA_64" 65 H_opcodePushData;
  entry OpData65 OpData65 "OP_DATA_65" 66 H_opcodePushData;
  entry OpData66 OpData66 "OP_DATA_66" 67 H_opcodePushData;
  entry OpData67 OpData67 "OP_DATA_67" 68 H_opcodePushData;
  entry OpData68 OpData68 "OP_DATA_68" 69 H_opcodePushData;
  entry OpData69 OpData69 "OP_DATA_69" 70 H_opcodePushData;
  entry OpData70 OpData70 "OP_DATA_70" 71 H_opcodePushData;
  entry OpData71 OpData71 "OP_DATA_71" 72 H_opcodePushData;
  entry OpData72 OpData72 "OP_DATA_72" 73 H_opcodePushData;
  entry OpData73 OpData73 "OP_DATA_73" 74 H_opcodePushData;
  entry OpData74 OpData74 "OP_DATA_74" 75 H_opcodePushData;
  entry OpData75 OpData75 "OP_DATA_75" 76 H_opcodePushData;
  entry OpPushData1 OpPushData1 "OP_PUSHDATA1" (-1) H_opcodePushData;
  entry OpPushData2 OpPushData2 "OP_PUSHDATA2" (-2) H_opcodePushData;
  entry OpPushData4 OpPushData4 "OP_PUSHDATA4" (-4) H_opcodePushData;
  entry Op1Negate Op1Negate "OP_1NEGATE" 1 H_opcode1Negate;
  entry OpReserved OpReserved "OP_RESERVED" 1 H_opcodeReserved;
  entry OpTrue OpTrue "OP_1" 1 H_opcodeN;
  entry Op2 Op2 "OP_2" 1 H_opcodeN;
  entry Op3 Op3 "OP_3" 1 H_opcodeN;
  entry Op4 Op4 "OP_4" 1 H_opcodeN;
  entry Op5 Op5 "OP_5" 1 H_opcodeN;
  entry Op6 Op6 "OP_6" 1 H_opcodeN;
  entry Op7 Op7 "OP_7" 1 H_opcodeN;
  entry Op8 Op8 "OP_8" 1 H_opcodeN;
  entry Op9 Op9 "OP_9" 1 H_opcodeN;
  entry Op10 Op10 "OP_10" 1 H_opcodeN;
  entry Op11 Op11 "OP_11" 1 H_opcodeN;
  entry Op12 Op12 "OP_12" 1 H_opcodeN;
  entry Op13 Op13 "OP_13" 1 H_opcodeN;
  entry Op14 Op14 "OP_14" 1 H_opcodeN;
  entry Op15 Op15 "OP_15" 1 H_opcodeN;
  entry Op16 Op16 "OP_16" 1 H_opcodeN].

(** Control opcodes. *)
Definition controlOpcodes : list (Z * opcode) := [
  entry OpNop OpNop "OP_NOP" 1 H_opcodeNop;
  entry OpVer OpVer "OP_VER" 1 H_opcodeReserved;
  entry OpIf OpIf "OP_IF" 1 H_opcodeIf;
  entry OpNotIf OpNotIf "OP_NOTIF" 1 H_opcodeNotIf;
  entry OpVerIf OpVerIf "OP_VERIF" 1 H_opcodeReserved;
  entry OpVerNotIf OpVerNotIf "OP_VERNOTIF" 1 H_opcodeReserved;
  entry OpElse OpElse "OP_ELSE" 1 H_opcodeElse;
  entry OpEndIf OpEndIf "OP_ENDIF" 1 H_opcodeEndif;
  entry OpVerify OpVerify "OP_VERIFY" 1 H_opcodeVerify;
  entry OpReturn OpReturn "OP_RETURN" 1 H_opcodeReturn;
  entry OpCheckLockTimeVerify OpCheckLockTimeVerify "OP_CHECKLOCKTIMEVERIFY" 1 H_opcodeCheckLockTimeVerify;
  entry OpCheckSequenceVerify OpCheckSequenceVerify "OP_CHECKSEQUENCEVERIFY" 1 H_opcodeCheckSequenceVerify].

(** Stack opcodes. *)
Definition stackOpcodes : list (Z * opcode) := [
  entry OpToAltStack OpToAltStack "OP_TOALTSTACK" 1 H_opcodeToAltStack;
  entry OpFromAltStack OpFromAltStack "OP_FROMALTSTACK" 1 H_opcodeFromAltStack;
  entry Op2Drop Op2Drop "OP_2DROP" 1 H_opcode2Drop;
  entry Op2Dup Op2Dup "OP_2DUP" 1 H_opcode2Dup;
  entry Op3Dup Op3Dup "OP_3DUP" 1 H_opcode3Dup;
  entry Op2Over Op2Over "OP_2OVER" 1 H_opcode2Over;
  entry Op2Rot Op2Rot "OP_2ROT" 1 H_opcode2Rot;
  entry Op2Swap Op2Swap "OP_2SWAP" 1 H_opcode2Swap;
  entry OpIfDup OpIfDup "OP_IFDUP" 1 H_opcodeIfDup;
  entry OpDepth OpDepth "OP_DEPTH" 1 H_opcodeDepth;
  entry OpDrop OpDrop "OP_DROP" 1 H_opcodeDrop;
  entry OpDup OpDup "OP_DUP" 1 H_opcodeDup;
  entry OpNip OpNip "OP_NIP" 1 H_opcodeNip;
  entry OpOver OpOver "OP_OVER" 1 H_opcodeOver;
  entry OpPick OpPick "OP_PICK" 1 H_opcodePick;
  entry OpRoll OpRoll "OP_ROLL" 1 H_opcodeRoll;
  entry OpRot OpRot "OP_ROT" 1 H_opcodeRot;
  entry OpSwap OpSwap "OP_SWAP" 1 H_opcodeSwap;
  entry OpTuck OpTuck "OP_TUCK" 1 H_opcodeTuck].

(** Splice opcodes. *)
Definition spliceOpcodes : list (Z * opcode) := [
  entry OpCat OpCat "OP_CAT" 1 H_opcodeDisabled;
  entry OpSubStr OpSubStr "OP_SUBSTR" 1 H_opcodeDisabled;
  entry OpLeft OpLeft "OP_LEFT" 1 H_opcodeDisabled;
  entry OpRight OpRight "OP_RIGHT" 1 H_opcodeDisabled;
  entry OpSize OpSize "OP_SIZE" 1 H_opcodeSize].

(** Bitwise logic opcodes. *)
Definition bitwiseOpcodes : list (Z * opcode) := [
  entry OpInvert OpInvert "OP_INVERT" 1 H_opcodeDisabled;
  entry OpAnd OpAnd "OP_AND" 1 H_opcodeDisabled;
  entry OpOr OpOr "OP_OR" 1 H_opcodeDisabled;
  entry OpXor OpXor "OP_XOR" 1 H_opcodeDisabled;
  entry OpEqual OpEqual "OP_EQUAL" 1 H_opcodeEqual;
  entry OpEqualVerify OpEqualVerify "OP_EQUALVERIFY" 1 H_opcodeEqualVerify;
  entry OpReserved1 OpReserved1 "OP_RESERVED1" 1 H_opcodeReserved;
  entry OpReserved2 OpReserved2 "OP_RESERVED2" 1 H_opcodeReserved].

(** Numeric related opcodes. *)
Definition numericOpcodes : list (Z * opcode) := [
  entry Op1Add Op1Add "OP_1ADD" 1 H_opcode1Add;
  entry Op1Sub Op1Sub "OP_1SUB" 1 H_opcode1Sub;
  entry Op2Mul Op2Mul "OP_2MUL" 1 H_opcodeDisabled;
  entry Op2Div Op2Div "OP_2DIV" 1 H_opcodeDisabled;
  entry OpNegate OpNegate "OP_NEGATE" 1 H_opcodeNegate;
  entry OpAbs OpAbs "OP_ABS" 1 H_opcodeAbs;
  entry OpNot OpNot "OP_NOT" 1 H_opcodeNot;
  entry Op0NotEqual Op0NotEqual "OP_0NOTEQUAL" 1 H_opcode0NotEqual;
  entry OpAdd OpAdd "OP_ADD" 1 H_opcodeAdd;
  entry OpSub OpSub "OP_SUB" 1 H_opcodeSub;
  entry OpMul OpMul "OP_MUL" 1 H_opcodeDisabled;
  entry OpDiv OpDiv "OP_DIV" 1 H_opcodeDisabled;
  entry OpMod OpMod "OP_MOD" 1 H_opcodeDisabled;
  entry OpLShift OpLShift "OP_LSHIFT" 1 H_opcodeDisabled;
  entry OpRShift OpRShift "OP_RSHIFT" 1 H_opcodeDisabled;
  entry OpBoolAnd OpBoolAnd "OP_BOOLAND" 1 H_opcodeBoolAnd;
  entry OpBoolOr OpBoolOr "OP_BOOLOR" 1 H_opcodeBoolOr;
  entry OpNumEqual OpNumEqual "OP_NUMEQUAL" 1 H_opcodeNumEqual;
  entry OpNumEqualVerify OpNumEqualVerify "OP_NUMEQUALVERIFY" 1 H_opcodeNumEqualVerify;
  entry OpNumNotEqual OpNumNotEqual "OP_NUMNOTEQUAL" 1 H_opcodeNumNotEqual;
  entry OpLessThan OpLessThan "OP_LESSTHAN" 1 H_opcodeLessThan;
  entry OpGreaterThan OpGreaterThan "OP_GREATERTHAN" 1 H_opcodeGreaterThan;
  entry OpLessThanOrEqual OpLessThanOrEqual "OP_LESSTHANOREQUAL" 1 H_opcodeLessThanOrEqual;
  entry OpGreaterThanOrEqual OpGreaterThanOrEqual "OP_GREATERTHANOREQUAL" 1 H_opcodeGreaterThanOrEqual;
  entry OpMin OpMin "OP_MIN" 1 H_opcodeMin;
  entry OpMax OpMax "OP_MAX" 1 H_opcodeMax;
  entry OpWithin OpWithin "OP_WITHIN" 1 H_opcodeWithin].

(** Crypto opcodes. *)
Definition cryptoOpcodes : list (Z * opcode) := [
  entry OpCheckMultiSigECDSA OpCheckMultiSigECDSA "OP_CHECKMULTISIGECDSA" 1 H_opcodeCheckMultiSigECDSA;
  entry OpSHA256 OpSHA256 "OP_SHA256" 1 H_opcodeSha256;
  entry OpBlake2b OpBlake2b "OP_BLAKE2B" 1 H_opcodeBlake2b;
  entry OpCheckSigECDSA OpCheckSigECDSA "OP_CHECKSIGECDSA" 1 H_opcodeCheckSigECDSA;
  entry OpCheckSig OpCheckSig "OP_CHECKSIG" 1 H_opcodeCheckSig;
  entry OpCheckSigVerify OpCheckSigVerify "OP_CHECKSIGVERIFY" 1 H_opcodeCheckSigVerify;
  entry OpCheckMultiSig OpCheckMultiSig "OP_CHECKMULTISIG" 1 H_opcodeCheckMultiSig;
  entry OpCheckMultiSigVerify OpCheckMultiSigVerify "OP_CHECKMULTISIGVERIFY" 1 H_opcodeCheckMultiSigVerify].

(** Reserved opcodes. *)
Definition reservedOpcodes : list (Z * opcode) := [
  entry OpNop1 OpNop1 "OP_NOP1" 1 H_opcodeNop;
  entry OpNop2 OpNop2 "OP_NOP2" 1 H_opcodeNop;
  entry OpNop3 OpNop3 "OP_NOP3" 1 H_opcodeNop;
  entry OpNop4 OpNop4 "OP_NOP4" 1 H_opcodeNop;
  entry OpNop5 OpNop5 "OP_NOP5" 1 H_opcodeNop;
  entry OpNop6 OpNop6 "OP_NOP6" 1 H_opcodeNop;
  entry OpNop7 OpNop7 "OP_NOP7" 1 H_opcodeNop;
  entry OpNop8 OpNop8 "OP_NOP8" 1 H_opcodeNop;
  entry OpNop9 OpNop9 "OP_NOP9" 1 H_opcodeNop;
  entry OpNop10 OpNop10 "OP_NOP10" 1 H_opcodeNop].

(** Undefined opcodes. *)
Definition undefinedOpcodes : list (Z * opcode) := [
  entry OpUnknown166 OpUnknown166 "OP_UNKNOWN166" 1 H_opcodeInvalid;
  entry OpUnknown167 OpUnknown167 "OP_UNKNOWN167" 1 H_opcodeInvalid;
  entry OpUnknown188 OpUnknown188 "OP_UNKNOWN188" 1 H_opcodeInvalid;
  entry OpUnknown189 OpUnknown189 "OP_UNKNOWN189" 1 H_opcodeInvalid;
  entry OpUnknown190 OpUnknown190 "OP_UNKNOWN190" 1 H_opcodeInvalid;
  entry OpUnknown191 OpUnknown191 "OP_UNKNOWN191" 1 H_opcodeInvalid;
  entry OpUnknown192 OpUnknown192 "OP_UNKNOWN192" 1 H_opcodeInvalid;
  entry OpUnknown193 OpUnknown193 "OP_UNKNOWN193" 1 H_opcodeInvalid;
  entry OpUnknown194 OpUnknown194 "OP_UNKNOWN194" 1 H_opcodeInvalid;
  entry OpUnknown195 OpUnknown195 "OP_UNKNOWN195" 1 H_opcodeInvalid;
  entry OpUnknown196 OpUnknown196 "OP_UNKNOWN196" 1 H_opcodeInvalid;
  entry OpUnknown197 OpUnknown197 "OP_UNKNOWN197" 1 H_opcodeInvalid;
  entry OpUnknown198 OpUnknown198 "OP_UNKNOWN198" 1 H_opcodeInvalid;
  entry OpUnknown199 OpUnknown199 "OP_UNKNOWN199" 1 H_opcodeInvalid;
  entry OpUnknown200 OpUnknown200 "OP_UNKNOWN200" 1 H_opcodeInvalid;
  entry OpUnknown201 OpUnknown201 "OP_UNKNOWN201" 1 H_opcodeInvalid;
  entry OpUnknown202 OpUnknown202 "OP_UNKNOWN202" 1 H_opcodeInvalid;
  entry OpUnknown203 OpUnknown203 "OP_UNKNOWN203" 1 H_opcodeInvalid;
  entry OpUnknown204 OpUnknown204 "OP_UNKNOWN204" 1 H_opcodeInvalid;
  entry OpUnknown205 OpUnknown205 "OP_UNKNOWN205" 1 H_opcodeInvalid;
  entry OpUnknown206 OpUnknown206 "OP_UNKNOWN206" 1 H_opcodeInvalid;
  entry OpUnknown207 OpUnknown207 "OP_UNKNOWN207" 1 H_opcodeInvalid;
  entry OpUnknown208 OpUnknown208 "OP_UNKNOWN208" 1 H_opcodeInvalid;
  entry OpUnknown209 OpUnknown209 "OP_UNKNOWN209" 1 H_opcodeInvalid;
  entry OpUnknown210 OpUnknown210 "OP_UNKNOWN210" 1 H_opcodeInvalid;
  entry OpUnknown211 OpUnknown211 "OP_UNKNOWN211" 1 H_opcodeInvalid;
  entry OpUnknown212 OpUnknown212 "OP_UNKNOWN212" 1 H_opcodeInvalid;
  entry OpUnknown213 OpUnknown213 "OP_UNKNOWN213" 1 H_opcodeInvalid;
  entry OpUnknown214 OpUnknown214 "OP_UNKNOWN214" 1 H_opcodeInvalid;
  entry OpUnknown215 OpUnknown215 "OP_UNKNOWN215" 1 H_opcodeInvalid;
  entry OpUnknown216 OpUnknown216 "OP_UNKNOWN216" 1 H_opcodeInvalid;
  entry OpUnknown217 OpUnknown217 "OP_UNKNOWN217" 1 H_opcodeInvalid;
  entry OpUnknown218 OpUnknown218 "OP_UNKNOWN218" 1 H_opcodeInvalid;
  entry OpUnknown219 OpUnknown219 "OP_UNKNOWN219" 1 H_opcodeInvalid;
  entry OpUnknown220 OpUnknown220 "OP_UNKNOWN220" 1 H_opcodeInvalid;
  entry OpUnknown221 OpUnknown221 "OP_UNKNOWN221" 1 H_opcodeInvalid;
  entry OpUnknown222 OpUnknown222 "OP_UNKNOWN222" 1 H_opcodeInvalid;
  entry OpUnknown223 OpUnknown223 "OP_UNKNOWN223" 1 H_opcodeInvalid;
  entry OpUnknown224 OpUnknown224 "OP_UNKNOWN224" 1 H_opcodeInvalid;
  entry OpUnknown225 OpUnknown225 "OP_UNKNOWN225" 1 H_opcodeInvalid;
  entry OpUnknown226 OpUnknown226 "OP_UNKNOWN226" 1 H_opcodeInvalid;
  entry OpUnknown227 OpUnknown227 "OP_UNKNOWN227" 1 H_opcodeInvalid;
  entry OpUnknown228 OpUnknown228 "OP_UNKNOWN228" 1 H_opcodeInvalid;
  entry OpUnknown229 OpUnknown229 "OP_UNKNOWN229" 1 H_opcodeInvalid;
  entry OpUnknown230 OpUnknown230 "OP_UNKNOWN230" 1 H_opcodeInvalid;
  entry OpUnknown231 OpUnknown231 "OP_UNKNOWN231" 1 H_opcodeInvalid;
  entry OpUnknown232 OpUnknown232 "OP_UNKNOWN232" 1 H_opcodeInvalid;
  entry OpUnknown233 OpUnknown233 "OP_UNKNOWN233" 1 H_opcodeInvalid;
  entry OpUnknown234 OpUnknown234 "OP_UNKNOWN234" 1 H_opcodeInvalid;
  entry OpUnknown235 OpUnknown235 "OP_UNKNOWN235" 1 H_opcodeInvalid;
  entry OpUnknown236 OpUnknown236 "OP_UNKNOWN236" 1 H_opcodeInvalid;
  entry OpUnknown237 OpUnknown237 "OP_UNKNOWN237" 1 H_opcodeInvalid;
  entry OpUnknown238 OpUnknown238 "OP_UNKNOWN238" 1 H_opcodeInvalid;
  entry OpUnknown239 OpUnknown239 "OP_UNKNOWN239" 1 H_opcodeInvalid;
  entry OpUnknown240 OpUnknown240 "OP_UNKNOWN240" 1 H_opcodeInvalid;
  entry OpUnknown241 OpUnknown241 "OP_UNKNOWN241" 1 H_opcodeInvalid;
  entry OpUnknown242 OpUnknown242 "OP_UNKNOWN242" 1 H_opcodeInvalid;
  entry OpUnknown243 OpUnknown243 "OP_UNKNOWN243" 1 H_opcodeInvalid;
  entry OpUnknown244 OpUnknown244 "OP_UNKNOWN244" 1 H_opcodeInvalid;
  entry OpUnknown245 OpUnknown245 "OP_UNKNOWN245" 1 H_opcodeInvalid;
  entry OpUnknown246 OpUnknown246 "OP_UNKNOWN246" 1 H_opcodeInvalid;
  entry OpUnknown247 OpUnknown247 "OP_UNKNOWN247" 1 H_opcodeInvalid;
  entry OpUnknown248 OpUnknown248 "OP_UNKNOWN248" 1 H_opcodeInvalid;
  entry OpUnknown249 OpUnknown249 "OP_UNKNOWN249" 1 H_opcodeInvalid;
  entry OpSmallInteger OpSmallInteger "OP_SMALLINTEGER" 1 H_opcodeInvalid;
  entry OpPubKeys OpPubKeys "OP_PUBKEYS" 1 H_opcodeInvalid;
  entry OpUnknown252 OpUnknown252 "OP_UNKNOWN252" 1 H_opcodeInvalid;
  entry OpPubKeyHash OpPubKeyHash "OP_PUBKEYHASH" 1 H_opcodeInvalid;
  entry OpPubKey OpPubKey "OP_PUBKEY" 1 H_opcodeInvalid;
  entry OpInvalidOpCode OpInvalidOpCode "OP_INVALIDOPCODE" 1 H_opcodeInvalid].

Definition opcodeLiteral : list (Z * opcode) :=
  dataPushOpcodes ++ controlOpcodes ++ stackOpcodes ++ spliceOpcodes ++ bitwiseOpcodes ++ numericOpcodes ++ cryptoOpcodes ++ reservedOpcodes ++ undefinedOpcodes.

Fixpoint literal_lookup (k : Z) (l : list (Z * opcode)) : opcode :=
  match l with
  | [] => zeroOpcode
  | (k', o) :: l => if k =? k' then o else literal_lookup k l
  end.

(** [var opcodeArray = [256]opcode{...}], evaluated. *)
Definition opcodeArray : list opcode :=
  Eval vm_compute in map (λ k, literal_lookup k opcodeLiteral) (seqZ 0 256).

(** ** The table is well formed *)
Definition entry_ok (k : Z) (o : opcode) : bool :=
  (opc_value o =? k) && bool_decide (is_Some (opc_opfunc o)) &&
  ((opc_length o =? 1) || ((2 <=? opc_length o) && (opc_length o =? k + 1) && (opc_length o <=? 76)) ||
   (opc_length o =? -1) || (opc_length o =? -2) || (opc_length o =? -4)).

Lemma opcodeArray_entry b : is_byte b →
  ∃ o, opcodeArray !! Z.to_nat b = Some o ∧ opc_value o = b ∧ is_Some (opc_opfunc o) ∧
       (opc_length o = 1 ∨ 2 ≤ opc_length o ≤ 76 ∧ opc_length o = b + 1 ∨
        opc_length o = -1 ∨ opc_length o = -2 ∨ opc_length o = -4).
Proof.
  intros Hb.
  assert (∃ o, opcodeArray !! Z.to_nat b = Some o ∧ entry_ok b o = true) as (o & Ho & Hok).
  { assert (match opcodeArray !! Z.to_nat b with Some o => entry_ok b o | None => false end = true) as H.
    { revert b Hb. apply (byte_forall _). by vm_compute. }
    destruct (opcodeArray !! Z.to_nat b) as [o|]; [eauto|done]. }
  exists o. split; [done|]. unfold entry_ok in Hok.
  apply andb_true_iff in Hok as [[Hv Hf]%andb_true_iff Hl].
  apply Z.eqb_eq in Hv. apply bool_decide_eq_true_1 in Hf. split; [done|]. split; [done|].
  rewrite !orb_true_iff, !andb_true_iff, !Z.eqb_eq, !Z.leb_le in Hl. lia.
Qed.

(** Only the data pushes, up to OP_PUSHDATA4, carry data. *)
Lemma opcodeArray_data b o : is_byte b →
  opcodeArray !! Z.to_nat b = Some o → opc_length o ≠ 1 → b ≤ OpPushData4.
Proof.
  intros Hb Ho Hl.
  assert (match opcodeArray !! Z.to_nat b with
          | Some o => (opc_length o =? 1) || (b <=? OpPushData4) | None => false end = true) as Hd.
  { clear Ho. revert b Hb. apply (byte_forall _). by vm_compute. }
  rewrite Ho in Hd. apply orb_true_iff in Hd as [Hd%Z.eqb_eq|Hd%Z.leb_le]; [done|exact Hd].
Qed.

(** The handlers of the opcodes up to OP_16. *)
Definition is_push_handler (h : handler) : bool :=
  match h with
  | H_opcodeFalse | H_opcodePushData | H_opcode1Negate | H_opcodeReserved | H_opcodeN => true
  | _ => false
  end.

Lemma opcodeArray_push b o h : is_byte b → b ≤ Op16 →
  opcodeArray !! Z.to_nat b = Some o → opc_opfunc o = Some h → is_push_handler h = true.
Proof.
  intros Hb Hle Ho Hh.
  assert (match opcodeArray !! Z.to_nat b with
          | Some {| opc_opfunc := Some h |} => (Op16 <? b) || is_push_handler h
          | _ => false end = true) as Hd.
  { clear Ho Hle. revert b Hb. apply (byte_forall _). by vm_compute. }
  rewrite Ho in Hd. destruct o; simpl in *. rewrite Hh in Hd.
  apply orb_true_iff in Hd as [Hd%Z.ltb_lt|Hd]; [lia|done].
Qed.

Lemma opcodeArray_Blake2b o : opcodeArray !! Z.to_nat OpBlake2b = Some o →
  opc_opfunc o = Some H_opcodeBlake2b.
Proof. vm_compute. by intros [= <-]. Qed.
