(* ===== verification/Script.v ===== *)
(** * Parsing and classifying scripts (opcode.go, script.go)

    Parsed opcodes, the predicates on them, [parseScript] and [unparseScript],
    and the signature-operation counts.

    [parseScriptTemplate] is a loop over an index; its fuel is the length of
    the script, since every opcode of [opcodeArray] consumes at least the byte
    that names it ([parse_total] below). *)
From S2P Require Import Prelude Externalapi ScriptNum OpcodeTable.
Import Op.
Local Open Scope Z_scope.
Local Open Scope prog_scope.

Definition MaxOpsPerScript : Z := 201.
Definition MaxPubKeysPerMultiSig : Z := 20.
Definition MaxScriptElementSize : Z := 520.

Record parsedOpcode := {
  pop_opcode : opcode;
  pop_data : list Z
}.

(** The Go expression [pop.opcode.value]. *)
Abbreviation pop_value pop := (opc_value (pop_opcode pop)).
Abbreviation pop_length pop := (opc_length (pop_opcode pop)).

Module Script.
(** ** Predicates of opcode.go *)
Definition isUpgradableNop (pop : parsedOpcode) : bool :=
  bool_decide (pop_value pop ∈ [OpNop1; OpNop2; OpNop3; OpNop4; OpNop5;
                                OpNop6; OpNop7; OpNop8; OpNop9; OpNop10]).

Definition isDisabled (pop : parsedOpcode) : bool :=
  bool_decide (pop_value pop ∈ [OpCat; OpSubStr; OpLeft; OpRight; OpInvert; OpAnd; OpOr; OpXor;
                                Op2Mul; Op2Div; OpMul; OpDiv; OpMod; OpLShift; OpRShift]).

Definition alwaysIllegal (pop : parsedOpcode) : bool :=
  bool_decide (pop_value pop ∈ [OpVerIf; OpVerNotIf]).

Definition isConditional (pop : parsedOpcode) : bool :=
  bool_decide (pop_value pop ∈ [OpIf; OpNotIf; OpElse; OpEndIf]).

Definition checkMinimalDataPush (pop : parsedOpcode) : fallible unit :=
  let data := pop_data pop in
  let dataLen := zlen data in
  let opcode := pop_value pop in
  let d0 := default 0 (head data) in
  if bool_decide (dataLen = 0) && negb (opcode =? Op0) then Fail ErrMinimalData
  else if bool_decide (dataLen = 1) && (1 <=? d0) && (d0 <=? 16) then
    if negb (opcode =? GoInt.uint8 (Op1 + d0 - 1)) then Fail ErrMinimalData else Ret ()
  else if bool_decide (dataLen = 1) && (d0 =? 129) then
    if negb (opcode =? Op1Negate) then Fail ErrMinimalData else Ret ()
  else if dataLen <=? 75 then
    if negb (opcode =? dataLen) then Fail ErrMinimalData else Ret ()
  else if dataLen <=? 255 then
    if negb (opcode =? OpPushData1) then Fail ErrMinimalData else Ret ()
  else if dataLen <=? 65535 then
    if negb (opcode =? OpPushData2) then Fail ErrMinimalData else Ret ()
  else Ret ().

(** [byte((l >> (8 * k)) & 0xff)] *)
Definition lengthByte (l k : Z) : Z := GoInt.uint8 (Z.land (Z.shiftr l (8 * k)) 255).

(** [parsedOpcode.bytes] *)
Definition bytes (pop : parsedOpcode) : fallible (list Z) :=
  let length := pop_length pop in
  let data := pop_data pop in
  let retbytes := [pop_value pop] in
  if length =? 1 then
    if negb (bool_decide (zlen data = 0)) then Fail ErrInternal else Ret retbytes
  else
    let l := zlen data in
    let '(retbytes, nbytes) :=
      if length =? -1 then
        let retbytes := retbytes ++ [GoInt.uint8 l] in
        (retbytes, LE.of_bytes (drop 1 retbytes) + zlen retbytes)
      else if length =? -2 then
        let retbytes := retbytes ++ [lengthByte l 0; lengthByte l 1] in
        (retbytes, LE.of_bytes (drop 1 retbytes) + zlen retbytes)
      else if length =? -4 then
        let retbytes := retbytes ++ [lengthByte l 0; lengthByte l 1; lengthByte l 2; lengthByte l 3] in
        (retbytes, LE.of_bytes (drop 1 retbytes) + zlen retbytes)
      else (retbytes, length) in
    let retbytes := retbytes ++ data in
    if negb (bool_decide (zlen retbytes = nbytes)) then Fail ErrInternal else Ret retbytes.

(** ** Parsing *)

(** The [switch op.length] that reads the length of an OP_PUSHDATA. *)
Definition pushLength (script : list Z) (off length : Z) : fallible Z :=
  if length =? -1 then
    index script off
  else if length =? -2 then
    let? b1 := index script (off + 1) in
    let? b0 := index script off in
    Ret (Z.lor (GoInt.uint64 (Z.shiftl b1 8)) b0)
  else if length =? -4 then
    let? b3 := index script (off + 3) in
    let? b2 := index script (off + 2) in
    let? b1 := index script (off + 1) in
    let? b0 := index script off in
    Ret (Z.lor (Z.lor (Z.lor (GoInt.uint64 (Z.shiftl b3 24)) (GoInt.uint64 (Z.shiftl b2 16)))
                      (GoInt.uint64 (Z.shiftl b1 8))) b0)
  else Fail ErrMalformedPush.

(** One iteration: the parsed opcode at [i] and the index after it. *)
Definition parseOpcodeAt (script : list Z) (opcodes : list opcode) (i : Z)
    : fallible (parsedOpcode * Z) :=
  let? instr := index script i in
  let? op := index opcodes instr in
  if opc_length op =? 1 then
    Ret ({| pop_opcode := op; pop_data := [] |}, i + 1)
  else if opc_length op >? 1 then
    let? rest := slice script i (zlen script) in
    if zlen rest <? opc_length op then Fail ErrMalformedPush
    else
      let? data := slice script (i + 1) (i + opc_length op) in
      Ret ({| pop_opcode := op; pop_data := data |}, i + opc_length op)
  else if opc_length op <? 0 then
    let off := i + 1 in
    let? rest := slice script off (zlen script) in
    if zlen rest <? - opc_length op then Fail ErrMalformedPush
    else
      let? l := pushLength script off (opc_length op) in
      let off := off + - opc_length op in
      let? rest := slice script off (zlen script) in
      if (GoInt.int64 l >? zlen rest) || (GoInt.int64 l <? 0) then Fail ErrMalformedPush
      else
        let? data := slice script off (off + GoInt.int64 l) in
        Ret ({| pop_opcode := op; pop_data := data |}, i + (1 - opc_length op + GoInt.int64 l))
  else Ret ({| pop_opcode := op; pop_data := [] |}, i).

(** Both results of [parseScriptTemplate]: on an error the opcodes parsed so
    far are returned with it. *)
Fixpoint parseLoop (fuel : nat) (script : list Z) (opcodes : list opcode) (i : Z)
    (retScript : list parsedOpcode) : list parsedOpcode * fallible unit :=
  if i <? zlen script then
    match fuel with
    | O => (retScript, Crash OutOfFuel)
    | S fuel =>
        match parseOpcodeAt script opcodes i with
        | Ret (pop, i) => parseLoop fuel script opcodes i (retScript ++ [pop])
        | Fail e => (retScript, Fail e)
        | Crash c => (retScript, Crash c)
        end
    end
  else (retScript, Ret ()).

Definition parseScriptTemplate (script : list Z) (opcodes : list opcode) :=
  parseLoop (length script) script opcodes 0 [].

Definition parseScript (script : list Z) : list parsedOpcode * fallible unit :=
  parseScriptTemplate script opcodeArray.

(** [pops, err := parseScript(script); if err != nil { return err }] *)
Definition parseScriptE (script : list Z) : fallible (list parsedOpcode) :=
  let '(pops, err) := parseScript script in
  let? _ := err in
  Ret pops.

Fixpoint unparseScript (pops : list parsedOpcode) : fallible (list Z) :=
  match pops with
  | [] => Ret []
  | pop :: pops =>
      let? b := bytes pop in
      let? script := unparseScript pops in
      Ret (b ++ script)
  end.

(** ** Predicates of script.go *)
Definition isSmallInt (op : opcode) : bool :=
  (opc_value op =? Op0) || ((opc_value op >=? Op1) && (opc_value op <=? Op16)).

Definition isScriptHash (pops : list parsedOpcode) : bool :=
  match pops with
  | [p0; p1; p2] =>
      (pop_value p0 =? OpBlake2b) && (pop_value p1 =? OpData32) && (pop_value p2 =? OpEqual)
  | _ => false
  end.

Definition IsPayToScriptHash (script : ScriptPublicKey) : bool :=
  match parseScript (spk_Script script) with
  | (pops, Ret _) => isScriptHash pops
  | _ => false
  end.

Definition isPushOnly (pops : list parsedOpcode) : bool :=
  forallb (λ pop, negb (pop_value pop >? Op16)) pops.

Definition canonicalPush (pop : parsedOpcode) : bool :=
  let opcode := pop_value pop in
  let data := pop_data pop in
  let dataLen := zlen data in
  if opcode >? Op16 then true
  else if (opcode <? OpPushData1) && (opcode >? Op0) &&
          ((dataLen =? 1) && (default 0 (head data) <=? 16)) then false
  else if (opcode =? OpPushData1) && (dataLen <? OpPushData1) then false
  else if (opcode =? OpPushData2) && (dataLen <=? 255) then false
  else if (opcode =? OpPushData4) && (dataLen <=? 65535) then false
  else true.

Definition asSmallInt (op : opcode) : Z :=
  if opc_value op =? Op0 then 0 else GoInt.uint8 (opc_value op - (Op1 - 1)).

(** The loop of [getSigOpCount]; [prev] is [pops[i-1]] when [i > 0]. *)
Fixpoint sigOpLoop (precise : bool) (prev : option parsedOpcode) (nSigs : Z)
    (pops : list parsedOpcode) : Z :=
  match pops with
  | [] => nSigs
  | pop :: pops =>
      let nSigs :=
        if (pop_value pop =? OpCheckSig) || (pop_value pop =? OpCheckSigVerify) then nSigs + 1
        else if (pop_value pop =? OpCheckMultiSig) || (pop_value pop =? OpCheckMultiSigVerify) then
          match prev with
          | Some p =>
              if precise && (pop_value p >=? Op1) && (pop_value p <=? Op16)
              then nSigs + asSmallInt (pop_opcode p)
              else nSigs + MaxPubKeysPerMultiSig
          | None => nSigs + MaxPubKeysPerMultiSig
          end
        else nSigs in
      sigOpLoop precise (Some pop) nSigs pops
  end.

Definition getSigOpCount (pops : list parsedOpcode) (precise : bool) : Z :=
  sigOpLoop precise None 0 pops.

Definition GetSigOpCount (script : list Z) : Z :=
  getSigOpCount (fst (parseScript script)) false.

Definition GetPreciseSigOpCount (scriptSig : list Z) (scriptPubKey : ScriptPublicKey)
    (isP2SH : bool) : Z :=
  let pops := fst (parseScript (spk_Script scriptPubKey)) in
  if negb (isP2SH && isScriptHash pops) then getSigOpCount pops true
  else
    match parseScript scriptSig with
    | (sigPops, Ret _) =>
        if negb (isPushOnly sigPops) || bool_decide (zlen sigPops = 0) then 0
        else
          let shScript := match last sigPops with Some p => pop_data p | None => [] end in
          if bool_decide (zlen shScript = 0) then 0
          else getSigOpCount (fst (parseScript shScript)) true
    | _ => 0
    end.

Definition IsUnspendable (scriptPubKey : list Z) : bool :=
  match parseScript scriptPubKey with
  | (pops, Ret _) => match pops with p :: _ => pop_value p =? OpReturn | [] => false end
  | _ => true
  end.
End Script.
Import Script.

(** ** Well-formed parsed opcodes and their encoding *)

(** The number of length bytes after an OP_PUSHDATA opcode. *)
Definition prefix_size (length : Z) : nat :=
  if length =? -1 then 1 else if length =? -2 then 2 else if length =? -4 then 4 else 0.

Definition data_fits (length : Z) (data : list Z) : Prop :=
  if length =? 1 then data = []
  else if 1 <? length then zlen data = length - 1
  else zlen data < 256 ^ Z.of_nat (prefix_size length).

(** What [parseScript] produces: an entry of the table, with data of the size
    the entry asks for. *)
Definition pop_ok (pop : parsedOpcode) : Prop :=
  is_byte (pop_value pop) ∧ opcodeArray !! Z.to_nat (pop_value pop) = Some (pop_opcode pop) ∧
  data_fits (pop_length pop) (pop_data pop).

Definition encoding (pop : parsedOpcode) : list Z :=
  pop_value pop :: LE.put (prefix_size (pop_length pop)) (zlen (pop_data pop)) ++ pop_data pop.

Definition encodings (pops : list parsedOpcode) : list Z := concat (map encoding pops).

Lemma pop_length_cases pop : pop_ok pop →
  pop_length pop = 1 ∨ 2 ≤ pop_length pop ≤ 76 ∨
  pop_length pop = -1 ∨ pop_length pop = -2 ∨ pop_length pop = -4.
Proof.
  intros (Hb & Ho & _). destruct (opcodeArray_entry _ Hb) as (o & Ho' & _ & _ & Hl).
  rewrite Ho' in Ho. injection Ho as ->. lia.
Qed.

Lemma lengthByte_mod l k : 0 ≤ k → lengthByte l k = (l / 256 ^ k) mod 256.
Proof.
  intros. unfold lengthByte. change 255 with (Z.ones 8).
  rewrite Z.land_ones, Z.shiftr_div_pow2, Z.pow_mul_r by lia. change (2 ^ 8) with 256.
  apply GoInt.uint8_id. by apply Z.mod_pos_bound.
Qed.

Lemma put_lengthBytes2 l : [lengthByte l 0; lengthByte l 1] = LE.put 2 l.
Proof. rewrite !lengthByte_mod by lia. simpl. rewrite Z.pow_0_r, Z.div_1_r. done. Qed.

Lemma put_lengthBytes4 l :
  [lengthByte l 0; lengthByte l 1; lengthByte l 2; lengthByte l 3] = LE.put 4 l.
Proof.
  rewrite !lengthByte_mod by lia. simpl. rewrite Z.pow_0_r, Z.div_1_r, !Z.div_div by lia. done.
Qed.

Lemma bytes_encoding pop : pop_ok pop → bytes pop = Ret (encoding pop).
Proof.
  intros Hok. pose proof (pop_length_cases pop Hok) as Hl. destruct Hok as (_ & _ & Hfit).
  pose proof (zlen_nonneg (pop_data pop)).
  unfold bytes, encoding, data_fits, prefix_size in *.
  rewrite put_lengthBytes2, put_lengthBytes4. revert Hfit.
  destruct Hl as [->|[Hlen|[->|[->| ->]]]];
    cbn [Z.eqb Z.ltb Z.compare Pos.compare Pos.compare_cont Pos.eqb negb]; intros Hfit.
  - by rewrite Hfit.
  - destruct (Z.eqb_spec (pop_length pop) 1); [lia|].
    destruct (Z.ltb_spec 1 (pop_length pop)); [|lia].
    destruct (Z.eqb_spec (pop_length pop) (-1)); [lia|].
    destruct (Z.eqb_spec (pop_length pop) (-2)); [lia|].
    destruct (Z.eqb_spec (pop_length pop) (-4)); [lia|].
    rewrite bool_decide_true by zlia. done.
  - change (256 ^ Z.of_nat 1) with 256 in Hfit. rewrite GoInt.uint8_id by lia. simpl.
    rewrite Z.mod_small by lia. rewrite bool_decide_true by zlia. done.
  - rewrite bool_decide_true; [done|]. cbn [app drop].
    rewrite drop_0, LE.of_bytes_put by lia. unfold zlen. simpl. lia.
  - rewrite bool_decide_true; [done|]. cbn [app drop].
    rewrite drop_0, LE.of_bytes_put by lia. unfold zlen. simpl. lia.
Qed.

Lemma unparse_encodings pops : Forall pop_ok pops → unparseScript pops = Ret (encodings pops).
Proof.
  induction 1 as [|pop pops Hok _ IH]; [done|].
  cbn [unparseScript]. rewrite bytes_encoding, IH by done. done.
Qed.

(** ** One iteration of the parser *)
Lemma lor2 b0 b1 : is_byte b0 → is_byte b1 →
  Z.lor (GoInt.uint64 (Z.shiftl b1 8)) b0 = LE.of_bytes [b0; b1].
Proof.
  unfold is_byte. intros. rewrite GoInt.uint64_id by (rewrite Z.shiftl_mul_pow2; lia).
  rewrite Z.lor_comm, lor_shiftl_disjoint by lia. simpl. lia.
Qed.

Lemma lor4 b0 b1 b2 b3 : is_byte b0 → is_byte b1 → is_byte b2 → is_byte b3 →
  Z.lor (Z.lor (Z.lor (GoInt.uint64 (Z.shiftl b3 24)) (GoInt.uint64 (Z.shiftl b2 16)))
               (GoInt.uint64 (Z.shiftl b1 8))) b0 = LE.of_bytes [b0; b1; b2; b3].
Proof.
  unfold is_byte. intros. rewrite !GoInt.uint64_id by (rewrite Z.shiftl_mul_pow2; lia).
  rewrite Z.lor_comm, (Z.lor_comm (Z.lor _ _) (Z.shiftl b1 8)), Z.lor_assoc.
  rewrite (Z.lor_comm (Z.shiftl b3 24)), Z.lor_assoc.
  rewrite (lor_shiftl_disjoint b0 b1 8) by lia. rewrite (lor_shiftl_disjoint _ b2 16) by lia.
  rewrite (lor_shiftl_disjoint _ b3 24) by lia. simpl. lia.
Qed.

Lemma pushLength_spec (pre rest p : list Z) length :
  are_bytes p → zlen p = - length → length = -1 ∨ length = -2 ∨ length = -4 →
  pushLength (pre ++ p ++ rest) (zlen pre) length = Ret (LE.of_bytes p).
Proof.
  intros Hp Hlen Hl. unfold pushLength. unfold zlen in Hlen.
  assert (∀ k p1 x p2, p = p1 ++ x :: p2 → k = zlen p1 →
    @index error Z (pre ++ p ++ rest) (zlen pre + k) = Ret x) as Hix.
  { intros k p1 x p2 -> ->. rewrite <- (app_assoc p1), (app_assoc pre). simpl.
    apply (index_middle _ (p2 ++ rest)). zlia. }
  assert (∀ x p2, p = x :: p2 → @index error Z (pre ++ p ++ rest) (zlen pre) = Ret x) as Hi0.
  { intros x p2 Hx. rewrite <- (Z.add_0_r (zlen pre)). by apply (Hix 0 [] x p2). }
  destruct Hl as [->|[->| ->]]; cbn [Z.eqb Pos.eqb].
  - destruct p as [|b0 [|]]; simpl in Hlen; try lia.
    rewrite (Hi0 b0 []) by done. simpl. f_equal. lia.
  - destruct p as [|b0 [|b1 [|]]]; simpl in Hlen; try lia.
    rewrite (Hix 1 [b0] b1 []), (Hi0 b0 [b1]) by done. cbn [obind].
    repeat (apply are_bytes_cons in Hp as [? Hp]). by rewrite lor2.
  - destruct p as [|b0 [|b1 [|b2 [|b3 [|]]]]]; simpl in Hlen; try lia.
    rewrite (Hix 3 [b0; b1; b2] b3 []), (Hix 2 [b0; b1] b2 [b3]), (Hix 1 [b0] b1 [b2; b3]),
      (Hi0 b0 [b1; b2; b3]) by done. cbn [obind].
    repeat (apply are_bytes_cons in Hp as [? Hp]). by rewrite lor4.
Qed.

Lemma opcodeArray_index b o : is_byte b → opcodeArray !! Z.to_nat b = Some o →
  @index error _ opcodeArray b = Ret o.
Proof. intros Hb Ho. unfold index. unfold is_byte in Hb. rewrite decide_True by lia. by rewrite Ho. Qed.

(** [opcodeArray] is only used through its entries. *)
#[global] Opaque opcodeArray.

Lemma slice_suffix {E A} (pre suf : list A) :
  @slice E A (pre ++ suf) (zlen pre) (zlen (pre ++ suf)) = Ret suf.
Proof. rewrite <- (app_nil_r suf) at 1. apply slice_app; zlia. Qed.

Lemma prefix_size_neg n : n = -1 ∨ n = -2 ∨ n = -4 → Z.of_nat (prefix_size n) = - n.
Proof. by intros [->|[->| ->]]. Qed.

Lemma prefix_size_bound n : 256 ^ Z.of_nat (prefix_size n) ≤ 2 ^ 32.
Proof.
  unfold prefix_size. destruct (n =? -1); [done|]. destruct (n =? -2); [done|].
  by destruct (n =? -4).
Qed.

Lemma parseOpcodeAt_encoding pre pop rest : pop_ok pop →
  parseOpcodeAt (pre ++ encoding pop ++ rest) opcodeArray (zlen pre)
  = Ret (pop, zlen pre + zlen (encoding pop)).
Proof.
  intros Hok. pose proof (pop_length_cases pop Hok) as Hl.
  destruct pop as [op data]. destruct Hok as (Hb & Ho & Hfit). simpl in *.
  pose proof (zlen_nonneg data). pose proof (zlen_nonneg rest). pose proof (zlen_nonneg pre).
  set (p := LE.put (prefix_size (opc_length op)) (zlen data)).
  assert (zlen (encoding {| pop_opcode := op; pop_data := data |}) = 1 + zlen p + zlen data) as Hz.
  { unfold encoding. simpl. fold p. zlia. }
  unfold parseOpcodeAt. rewrite Hz. unfold encoding. cbn [pop_opcode pop_data app]. fold p.
  rewrite index_middle by done. cbn [obind].
  rewrite (opcodeArray_index _ op) by done. cbn [obind].
  assert (pre ++ opc_value op :: (p ++ data) ++ rest
          = (pre ++ [opc_value op]) ++ p ++ data ++ rest) as Hs.
  { by rewrite <- !app_assoc. }
  destruct (Z.eqb_spec (opc_length op) 1) as [E|].
  { unfold data_fits in Hfit. rewrite E in Hfit. simpl in Hfit. subst data.
    unfold p. rewrite E. simpl. do 2 f_equal; zlia. }
  destruct (Z.gtb_spec (opc_length op) 1).
  { assert (prefix_size (opc_length op) = 0%nat) as E0.
    { unfold prefix_size. rewrite !(proj2 (Z.eqb_neq _ _)) by lia. done. }
    unfold p in *. rewrite E0 in *. simpl in *.
    unfold data_fits in Hfit. rewrite (proj2 (Z.eqb_neq _ _)), (proj2 (Z.ltb_lt _ _)) in Hfit by lia.
    rewrite slice_suffix. cbn [obind]. rewrite (proj2 (Z.ltb_ge _ _)) by (zlen_norm; lia).
    rewrite Hs, slice_app by zlia. cbn [obind]. do 2 f_equal; zlia. }
  assert (opc_length op = -1 ∨ opc_length op = -2 ∨ opc_length op = -4) as Hneg by lia.
  pose proof (prefix_size_neg _ Hneg) as Hp.
  assert (zlen p = - opc_length op) as Hzp by (unfold p, zlen; rewrite LE.put_length; lia).
  unfold data_fits in Hfit. rewrite (proj2 (Z.eqb_neq _ _)), (proj2 (Z.ltb_ge _ _)) in Hfit by lia.
  pose proof (prefix_size_bound (opc_length op)).
  rewrite (proj2 (Z.ltb_lt _ _)) by lia. cbv zeta. rewrite Hs.
  replace (zlen pre + 1) with (zlen (pre ++ [opc_value op])) by zlia.
  rewrite slice_suffix. cbn [obind]. rewrite (proj2 (Z.ltb_ge _ _)) by (zlen_norm; lia).
  rewrite pushLength_spec; [|apply LE.put_bytes|done|done]. cbn [obind].
  assert (LE.of_bytes p = zlen data) as -> by (apply LE.of_bytes_put; lia).
  rewrite GoInt.int64_id by lia. rewrite (app_assoc _ p).
  replace (zlen (pre ++ [opc_value op]) + - opc_length op)
    with (zlen ((pre ++ [opc_value op]) ++ p)) by zlia.
  rewrite slice_suffix. cbn [obind].
  rewrite Z.gtb_ltb, (proj2 (Z.ltb_ge _ (zlen data))) by (zlen_norm; lia).
  rewrite (proj2 (Z.ltb_ge (zlen data) 0)) by lia. cbn [orb].
  rewrite slice_app by zlia. cbn [obind]. do 2 f_equal; lia.
Qed.

(** Otherwise the opcode at the head of [suf] asks for more bytes than are left. *)
Lemma parseOpcodeAt_cases pre suf : are_bytes suf → suf ≠ [] →
  (∃ pop rest, pop_ok pop ∧ suf = encoding pop ++ rest) ∨
  parseOpcodeAt (pre ++ suf) opcodeArray (zlen pre) = Fail ErrMalformedPush.
Proof.
  intros Hb Hne. destruct suf as [|v t]; [done|]. apply are_bytes_cons in Hb as [Hv Ht].
  destruct (opcodeArray_entry v Hv) as (op & Ho & Hval & _ & Hl).
  pose proof (zlen_nonneg t). pose proof (zlen_nonneg pre).
  assert (∀ data rest, data_fits (opc_length op) data →
    t = LE.put (prefix_size (opc_length op)) (zlen data) ++ data ++ rest →
    ∃ pop rest, pop_ok pop ∧ v :: t = encoding pop ++ rest) as Hmk.
  { intros data rest Hfit Hts. exists {| pop_opcode := op; pop_data := data |}, rest. split.
    - unfold pop_ok. simpl. rewrite Hval. done.
    - unfold encoding. simpl. by rewrite Hval, Hts, <- app_assoc. }
  unfold data_fits in Hmk.
  destruct Hl as [El|[[Hl Hlv]|Hneg]].
  { left. apply (Hmk [] t); rewrite El; done. }
  { rewrite (proj2 (Z.eqb_neq _ _)), (proj2 (Z.ltb_lt _ _)) in Hmk by lia.
    unfold prefix_size in Hmk. rewrite !(proj2 (Z.eqb_neq _ _)) in Hmk by lia.
    destruct (decide (zlen t < opc_length op - 1)) as [Hshort|].
    - right. unfold parseOpcodeAt. rewrite index_middle by done. cbn [obind].
      rewrite (opcodeArray_index _ op) by done. cbn [obind].
      rewrite (proj2 (Z.eqb_neq _ _)), Z.gtb_ltb, (proj2 (Z.ltb_lt _ _)) by lia.
      rewrite slice_suffix. cbn [obind]. by rewrite (proj2 (Z.ltb_lt _ _)) by zlia.
    - left. set (k := Z.to_nat (opc_length op - 1)).
      apply (Hmk (take k t) (drop k t)); [rewrite zlen_take; unfold k; lia|].
      cbn [LE.put app]. by rewrite take_drop. }
  pose proof (prefix_size_neg _ Hneg) as Hk. set (k := prefix_size (opc_length op)) in *.
  rewrite (proj2 (Z.eqb_neq _ _)), (proj2 (Z.ltb_ge _ _)) in Hmk by lia.
  set (p := take k t). set (u := drop k t).
  assert (t = p ++ u) as Htpu by (symmetry; apply take_drop).
  assert (are_bytes p) as Hp by (by apply are_bytes_take).
  destruct (decide (zlen t < Z.of_nat k)) as [Hshort|Hlong];
    [|destruct (decide (zlen u < LE.of_bytes p)) as [Hshort|Hfits]].
  3:{ left. pose proof (LE.of_bytes_bound p Hp) as Hbd. rename p into p0.
      assert (length p0 = k) as Hlp by (unfold p0; rewrite length_take; unfold zlen in Hlong; lia).
      assert (zlen p0 = Z.of_nat k) as Hzp by (unfold zlen; by rewrite Hlp).
      set (l := Z.to_nat (LE.of_bytes p0)).
      assert (zlen (take l u) = LE.of_bytes p0) as Hd by (rewrite zlen_take; unfold l; lia).
      apply (Hmk (take l u) (drop l u)); [rewrite Hd, <- Hzp; lia|].
      rewrite Hd, <- Hlp, LE.put_of_bytes, take_drop by done. done. }
  all: right; unfold parseOpcodeAt; rewrite index_middle by done; cbn [obind];
    rewrite (opcodeArray_index _ op) by done; cbn [obind];
    rewrite (proj2 (Z.eqb_neq _ _)), Z.gtb_ltb, (proj2 (Z.ltb_ge _ _)), (proj2 (Z.ltb_lt _ _)) by lia;
    cbv zeta; replace (pre ++ v :: t) with ((pre ++ [v]) ++ t) by (by rewrite <- app_assoc);
    replace (zlen pre + 1) with (zlen (pre ++ [v])) by zlia;
    rewrite slice_suffix; cbn [obind].
  - by rewrite (proj2 (Z.ltb_lt _ _)) by lia.
  - rewrite (proj2 (Z.ltb_ge _ _)) by lia.
    assert (zlen p = - opc_length op) as Hzp by (unfold p; rewrite zlen_take; lia).
    rewrite Htpu, pushLength_spec by done. cbn [obind].
    pose proof (LE.of_bytes_bound p Hp). pose proof (prefix_size_bound (opc_length op)) as Hps.
    fold k in Hps. rewrite Hk, <- Hzp in Hps. rewrite GoInt.int64_id by lia.
    rewrite app_assoc. replace (zlen (pre ++ [v]) + - opc_length op)
      with (zlen ((pre ++ [v]) ++ p)) by zlia.
    rewrite slice_suffix. cbn [obind]. by rewrite Z.gtb_ltb, (proj2 (Z.ltb_lt _ _)) by lia.
Qed.

(** ** The parsing loop *)
Lemma encoding_nonempty pop : (1 ≤ length (encoding pop))%nat.
Proof. unfold encoding. simpl. lia. Qed.

Lemma encodings_cons pop pops : encodings (pop :: pops) = encoding pop ++ encodings pops.
Proof. done. Qed.

Definition parse_verdict (bad : list Z) : fallible unit :=
  match bad with [] => Ret () | _ => Fail ErrMalformedPush end.

Lemma parseLoop_spec fuel pre suf acc : are_bytes suf → (length suf ≤ fuel)%nat →
  ∃ pops bad,
    parseLoop fuel (pre ++ suf) opcodeArray (zlen pre) acc = (acc ++ pops, parse_verdict bad) ∧
    Forall pop_ok pops ∧ suf = encodings pops ++ bad.
Proof.
  revert pre suf acc. induction fuel as [|fuel IH]; intros pre suf acc Hb Hf.
  { destruct suf; [|simpl in Hf; lia]. exists [], []. simpl.
    rewrite !app_nil_r, Z.ltb_irrefl. auto. }
  destruct suf as [|v t].
  { exists [], []. simpl. rewrite !app_nil_r, Z.ltb_irrefl. auto. }
  cbn [parseLoop]. rewrite (proj2 (Z.ltb_lt _ _)) by zlia.
  destruct (parseOpcodeAt_cases pre (v :: t)) as [(pop & rest & Hok & Hs)|Hfail]; [done..| |].
  - rewrite Hs in *. rewrite parseOpcodeAt_encoding by done.
    apply are_bytes_app in Hb as [_ Hrest]. pose proof (encoding_nonempty pop).
    rewrite length_app in Hf.
    replace (zlen pre + zlen (encoding pop)) with (zlen (pre ++ encoding pop)) by zlia.
    rewrite app_assoc.
    destruct (IH (pre ++ encoding pop) rest (acc ++ [pop])) as (pops & bad & Hl & Hpops & ->); [done|lia|].
    exists (pop :: pops), bad. rewrite Hl. split; [by rewrite <- app_assoc|].
    split; [by constructor|]. by rewrite encodings_cons, app_assoc.
  - exists [], (v :: t). rewrite Hfail, app_nil_r. auto.
Qed.

Lemma parseScript_spec script : are_bytes script →
  ∃ pops bad, parseScript script = (pops, parse_verdict bad) ∧
              Forall pop_ok pops ∧ script = encodings pops ++ bad.
Proof. intros Hb. by apply (parseLoop_spec (length script) [] script []). Qed.

Lemma parseLoop_encodings fuel pre pops acc :
  Forall pop_ok pops → (length (encodings pops) ≤ fuel)%nat →
  parseLoop fuel (pre ++ encodings pops) opcodeArray (zlen pre) acc = (acc ++ pops, Ret ()).
Proof.
  intros Hok. revert fuel pre acc. induction Hok as [|pop pops Hpop _ IH]; intros fuel pre acc Hf.
  { simpl. rewrite !app_nil_r. destruct fuel; simpl; by rewrite Z.ltb_irrefl. }
  rewrite encodings_cons in *. rewrite length_app in Hf. pose proof (encoding_nonempty pop).
  destruct fuel as [|fuel]; [lia|]. cbn [parseLoop].
  rewrite (proj2 (Z.ltb_lt _ _)) by (zlen_norm; unfold zlen; lia).
  rewrite parseOpcodeAt_encoding by done.
  replace (zlen pre + zlen (encoding pop)) with (zlen (pre ++ encoding pop)) by zlia.
  rewrite app_assoc, IH by lia. by rewrite <- app_assoc.
Qed.

Lemma parseScript_encodings pops : Forall pop_ok pops → parseScript (encodings pops) = (pops, Ret ()).
Proof. intros Hok. by apply (parseLoop_encodings _ [] pops []). Qed.

Lemma parseScriptE_spec script : are_bytes script →
  (∃ pops, parseScriptE script = Ret pops ∧ Forall pop_ok pops ∧ script = encodings pops) ∨
  parseScriptE script = Fail ErrMalformedPush.
Proof.
  intros Hb. unfold parseScriptE.
  destruct (parseScript_spec script Hb) as (pops & bad & -> & Hok & ->).
  destruct bad; [left|by right]. exists pops. by rewrite app_nil_r.
Qed.

Lemma encodings_length pops : (length pops ≤ length (encodings pops))%nat.
Proof.
  induction pops as [|pop pops IH]; [done|]. rewrite encodings_cons, length_app.
  pose proof (encoding_nonempty pop). simpl. lia.
Qed.

Lemma encoding_bytes pop : are_bytes (encoding pop) → are_bytes (pop_data pop).
Proof.
  unfold encoding. intros [_ H]%are_bytes_cons. by apply are_bytes_app in H as [_ H].
Qed.

Lemma encodings_bytes pops : are_bytes (encodings pops) → Forall (λ p, are_bytes (pop_data p)) pops.
Proof.
  induction pops as [|pop pops IH]; [constructor|].
  rewrite encodings_cons. intros [H1 H2]%are_bytes_app.
  constructor; [by apply encoding_bytes|by apply IH].
Qed.

(** ** Properties *)
Module ScriptProps.
(** [parseScript] and [unparseScript] are inverse: a byte string parses
    without error to [pops] exactly when [pops] are well-formed (entries of the
    opcode table with data of the size they declare) and unparse to it.  So no
    two scripts have the same parse, and unparsing never reports the "internal
    consistency error" on what was parsed. *)
Theorem parseScript_unparseScript (script : list Z) (pops : list parsedOpcode) :
  are_bytes script →
  parseScript script = (pops, Ret ()) ↔ Forall pop_ok pops ∧ unparseScript pops = Ret script.
Proof.
  intros Hb. split.
  - destruct (parseScript_spec script Hb) as (pops' & bad & -> & Hok & ->).
    destruct bad; [|done]. intros [= <-]. by rewrite unparse_encodings, app_nil_r.
  - intros [Hok Hu]. rewrite unparse_encodings in Hu by done. injection Hu as <-.
    by apply parseScript_encodings.
Qed.

Lemma parseScript_unparseScript_witness :
  let script := [OpPushData1; 2; 7; 8; OpCheckSig] in
  Forall pop_ok (fst (parseScript script)) ∧
  unparseScript (fst (parseScript script)) = Ret script.
Proof.
  intros script. apply (parseScript_unparseScript script (fst (parseScript script))).
  - repeat constructor; discriminate || reflexivity.
  - reflexivity.
Defined.

(** Parsing terminates on every byte string and never reads outside of it:
    [parseScript] returns either no error, or [ErrMalformedPush] with the opcodes
    before the malformed push; these are well-formed and unparse to a prefix of
    the script, which is all of it only when there is no error. *)
Theorem parse_total (script : list Z) : are_bytes script →
  ∃ pops prefix rest, script = prefix ++ rest ∧ Forall pop_ok pops ∧
    unparseScript pops = Ret prefix ∧
    (rest = [] ∧ parseScript script = (pops, Ret ()) ∨
     rest ≠ [] ∧ parseScript script = (pops, Fail ErrMalformedPush)).
Proof.
  intros Hb. destruct (parseScript_spec script Hb) as (pops & bad & Hp & Hok & Hs).
  exists pops, (encodings pops), bad. split; [done|]. split; [done|].
  split; [by apply unparse_encodings|]. rewrite Hp. destruct bad; [by left|right; by split].
Qed.

Lemma parse_total_witness :
  ∃ pops prefix rest, [OpDup; OpData3; 1; 2] = prefix ++ rest ∧ Forall pop_ok pops ∧
    unparseScript pops = Ret prefix ∧
    (rest = [] ∧ parseScript [OpDup; OpData3; 1; 2] = (pops, Ret ()) ∨
     rest ≠ [] ∧ parseScript [OpDup; OpData3; 1; 2] = (pops, Fail ErrMalformedPush)).
Proof. apply (parse_total [OpDup; OpData3; 1; 2]). repeat constructor; discriminate || reflexivity. Defined.

(** [getSigOpCount] has no case for the ECDSA signature opcodes: however many
    of them a script executes, they add nothing to its count. *)
Lemma getSigOpCount_ignores_ECDSA (pops : list parsedOpcode) (precise : bool) :
  Forall (λ p, pop_value p = OpCheckSigECDSA ∨ pop_value p = OpCheckMultiSigECDSA) pops →
  getSigOpCount pops precise = 0.
Proof.
  unfold getSigOpCount. generalize (@None parsedOpcode).
  induction pops as [|p pops IH]; [done|]. intros prev [Hp Hpops]%Forall_cons_iff.
  simpl. destruct Hp as [-> | ->]; simpl; by apply IH.
Qed.
End ScriptProps.
