(* ===== verification/Hashing.v ===== *)
(** * Serialisation and hashing of transactions

    The binary encoding of package serialization, the hash writers of package
    hashes, and package consensushashing: transaction hashes, transaction ids
    and signature hashes.

    SHA-256 and BLAKE2b are libraries: the class [Hashes] takes them as
    functions, with the one fact the code relies on (a digest has 32 bytes) in
    [HashesOk].  A [hash.Hash] is the list of bytes written to it so far and
    the function that digests them; by the contract of [hash.Hash] a write
    never fails. *)
From S2P Require Import Prelude Externalapi ScriptNum.
Local Open Scope Z_scope.
Local Open Scope prog_scope.

Class Hashes := {
  sha256_Sum256 : list Z → list Z;
  (** [blake2b.Sum256] *)
  blake2b_Sum256 : list Z → list Z;
  (** the digest of a hash made by [blake2b.New256(key)] *)
  blake2b_New256 : list Z → list Z → list Z
}.

Definition digest_ok (h : list Z) : Prop := are_bytes h ∧ zlen h = 32.

Class HashesOk `{Hashes} : Prop := {
  sha256_ok d : digest_ok (sha256_Sum256 d);
  blake2b_ok d : digest_ok (blake2b_Sum256 d);
  blake2b_New256_ok k d : digest_ok (blake2b_New256 k d)
}.

(** [[]byte(s)] *)
Definition bytes_of_string (s : string) : list Z :=
  map (λ c, Z.of_nat (Ascii.nat_of_ascii c)) (String.list_ascii_of_string s).

(** ** Package serialization *)
Module Serialization.
(** The types [WriteElement] has a case for. *)
Inductive element :=
  | E_bytes (e : list Z)
  | E_int16 (e : Z)
  | E_uint16 (e : Z)
  | E_int32 (e : Z)
  | E_uint32 (e : Z)
  | E_int64 (e : Z)
  | E_uint64 (e : Z)
  | E_uint8 (e : Z)
  | E_bool (e : bool)
  | E_DomainHash (e : DomainHash)
  | E_DomainTransactionID (e : DomainTransactionID)
  | E_DomainSubnetworkID (e : DomainSubnetworkID).

Definition PutUint8 (w : list Z) (val : Z) : list Z := w ++ [val].
Definition PutUint16 (w : list Z) (val : Z) : list Z := w ++ LE.put 2 val.
Definition PutUint32 (w : list Z) (val : Z) : list Z := w ++ LE.put 4 val.
Definition PutUint64 (w : list Z) (val : Z) : list Z := w ++ LE.put 8 val.

Definition WriteElement (w : list Z) (element : element) : list Z :=
  match element with
  | E_bytes e => PutUint64 w (zlen e) ++ e
  | E_int16 e => PutUint16 w (GoInt.uint16 e)
  | E_uint16 e => PutUint16 w e
  | E_int32 e => PutUint32 w (GoInt.uint32 e)
  | E_uint32 e => PutUint32 w e
  | E_int64 e => PutUint64 w (GoInt.uint64 e)
  | E_uint64 e => PutUint64 w e
  | E_uint8 e => PutUint8 w e
  | E_bool e => PutUint8 w (if e then 1 else 0)
  | E_DomainHash e => w ++ e
  | E_DomainTransactionID e => w ++ e
  | E_DomainSubnetworkID e => w ++ e
  end.

Definition WriteElements (w : list Z) (elements : list element) : list Z :=
  fold_left WriteElement elements w.
End Serialization.
Import Serialization.

(** ** Package hashes *)
Module HashWriters.
Section Writers.
Context `{Hashes}.

Record HashWriter := {
  hw_sum : list Z → list Z;
  hw_written : list Z
}.

Definition InfallibleWrite (h : HashWriter) (p : list Z) : HashWriter :=
  {| hw_sum := hw_sum h; hw_written := hw_written h ++ p |}.

(** [Finalize] copies the digest into a zeroed 32-byte array. *)
Definition Finalize (h : HashWriter) : DomainHash :=
  let sum := hw_sum h (hw_written h) in
  take 32 sum ++ replicate (32 - length sum) 0.

Definition transcationHashDomain : string := "TransactionHash".
Definition transcationIDDomain : string := "TransactionID".
Definition transcationSigningDomain : string := "TransactionSigningHash".
Definition transcationSigningECDSADomain : string := "TransactionSigningHashECDSA".

Definition transactionSigningECDSADomainHash : list Z :=
  sha256_Sum256 (bytes_of_string transcationSigningECDSADomain).

Definition newBlake2bWriter (domain : string) : HashWriter :=
  {| hw_sum := blake2b_New256 (bytes_of_string domain); hw_written := [] |}.

Definition NewTransactionHashWriter : HashWriter := newBlake2bWriter transcationHashDomain.
Definition NewTransactionIDWriter : HashWriter := newBlake2bWriter transcationIDDomain.
Definition NewTransactionSigningHashWriter : HashWriter := newBlake2bWriter transcationSigningDomain.
Definition NewTransactionSigningHashECDSAWriter : HashWriter :=
  let hashWriter := {| hw_sum := sha256_Sum256; hw_written := [] |} in
  InfallibleWrite hashWriter transactionSigningECDSADomainHash.
End Writers.
End HashWriters.
Import HashWriters.

(** ** Transaction hash and id (transaction.go) *)
Module TransactionHashing.
Definition txEncodingFull : Z := 0.
Definition txEncodingExcludeSignatureScript : Z := 2.

Definition writeVarBytes (w data : list Z) : list Z :=
  WriteElement w (E_uint64 (zlen data)) ++ data.

Definition writeOutpoint (w : list Z) (outpoint : DomainOutpoint) : list Z :=
  PutUint32 (w ++ op_TransactionID outpoint) (op_Index outpoint).

Definition writeTransactionInput (w : list Z) (ti : DomainTransactionInput) (encodingFlags : Z)
    : list Z :=
  let w := writeOutpoint w (in_PreviousOutpoint ti) in
  let w :=
    if negb (Z.land encodingFlags txEncodingExcludeSignatureScript
             =? txEncodingExcludeSignatureScript)
    then writeVarBytes w (in_SignatureScript ti)
    else writeVarBytes w [] in
  PutUint64 w (in_Sequence ti).

Definition writeTxOut (w : list Z) (to : DomainTransactionOutput) : list Z :=
  let w := PutUint64 w (out_Value to) in
  let w := PutUint16 w (spk_Version (out_ScriptPublicKey to)) in
  writeVarBytes w (spk_Script (out_ScriptPublicKey to)).

Definition serializeTransaction (w : list Z) (tx : DomainTransaction) (encodingFlags : Z) : list Z :=
  let w := PutUint16 w (tx_Version tx) in
  let w := WriteElement w (E_uint64 (zlen (tx_Inputs tx))) in
  let w := fold_left (λ w ti, writeTransactionInput w ti encodingFlags) (tx_Inputs tx) w in
  let w := WriteElement w (E_uint64 (zlen (tx_Outputs tx))) in
  let w := fold_left writeTxOut (tx_Outputs tx) w in
  let w := PutUint64 w (tx_LockTime tx) in
  let w := w ++ tx_SubnetworkID tx in
  let w := PutUint64 w (tx_Gas tx) in
  writeVarBytes w (tx_Payload tx).

Section Digest.
Context `{Hashes}.

Definition TransactionHash (tx : DomainTransaction) : DomainHash :=
  let writer := NewTransactionHashWriter in
  Finalize (InfallibleWrite writer (serializeTransaction [] tx txEncodingFull)).

Definition set_ID (tx : DomainTransaction) (id : DomainTransactionID) : DomainTransaction :=
  {| tx_Version := tx_Version tx; tx_Inputs := tx_Inputs tx; tx_Outputs := tx_Outputs tx;
     tx_LockTime := tx_LockTime tx; tx_SubnetworkID := tx_SubnetworkID tx; tx_Gas := tx_Gas tx;
     tx_Payload := tx_Payload tx; tx_Fee := tx_Fee tx; tx_Mass := tx_Mass tx; tx_ID := Some id |}.

Definition idEncodingFlags (tx : DomainTransaction) : Z :=
  if negb (IsCoinBase tx) then txEncodingExcludeSignatureScript else txEncodingFull.

(** The id and the transaction with the id cached in it. *)
Definition TransactionID (tx : DomainTransaction) : DomainTransactionID * DomainTransaction :=
  match tx_ID tx with
  | Some id => (id, tx)
  | None =>
      let writer := NewTransactionIDWriter in
      let transactionID :=
        Finalize (InfallibleWrite writer (serializeTransaction [] tx (idEncodingFlags tx))) in
      (transactionID, set_ID tx transactionID)
  end.
End Digest.
End TransactionHashing.
Import TransactionHashing.

(** ** Signature hashes (calculate_signature_hash.go) *)
Module SigHash.
Definition SigHashAll : Z := 1.
Definition SigHashNone : Z := 2.
Definition SigHashSingle : Z := 4.
Definition SigHashAnyOneCanPay : Z := 128.
Definition SigHashMask : Z := 7.

Definition IsStandardSigHashType (sht : Z) : bool :=
  bool_decide (sht ∈ [SigHashAll; SigHashNone; SigHashSingle;
                      Z.lor SigHashAll SigHashAnyOneCanPay;
                      Z.lor SigHashNone SigHashAnyOneCanPay;
                      Z.lor SigHashSingle SigHashAnyOneCanPay]).

Definition isSigHashAll (sht : Z) : bool := Z.land sht SigHashMask =? SigHashAll.
Definition isSigHashNone (sht : Z) : bool := Z.land sht SigHashMask =? SigHashNone.
Definition isSigHashSingle (sht : Z) : bool := Z.land sht SigHashMask =? SigHashSingle.
Definition isSigHashAnyOneCanPay (sht : Z) : bool :=
  Z.land sht SigHashAnyOneCanPay =? SigHashAnyOneCanPay.

Record SighashReusedValues := {
  previousOutputsHash : option DomainHash;
  sequencesHash : option DomainHash;
  outputsHash : option DomainHash;
  payloadHash : option DomainHash
}.

Definition set_previousOutputsHash h r :=
  {| previousOutputsHash := Some h; sequencesHash := sequencesHash r;
     outputsHash := outputsHash r; payloadHash := payloadHash r |}.
Definition set_sequencesHash h r :=
  {| previousOutputsHash := previousOutputsHash r; sequencesHash := Some h;
     outputsHash := outputsHash r; payloadHash := payloadHash r |}.
Definition set_outputsHash h r :=
  {| previousOutputsHash := previousOutputsHash r; sequencesHash := sequencesHash r;
     outputsHash := Some h; payloadHash := payloadHash r |}.
Definition set_payloadHash h r :=
  {| previousOutputsHash := previousOutputsHash r; sequencesHash := sequencesHash r;
     outputsHash := outputsHash r; payloadHash := Some h |}.

(** externalapi.NewZeroHash *)
Definition NewZeroHash : DomainHash := replicate 32 0.

Section Calculate.
Context `{Hashes}.

(** The argument is [*SighashReusedValues]; a nil one is dereferenced by the
    functions that read or fill a cached value. *)
Abbreviation reuseM A := (prog (option SighashReusedValues) error A) (only parsing).

Definition infallibleWriteElement (h : HashWriter) (e : element) : HashWriter :=
  InfallibleWrite h (WriteElement [] e).

Definition hashOutpoint (h : HashWriter) (outpoint : DomainOutpoint) : HashWriter :=
  let h := infallibleWriteElement h (E_DomainTransactionID (op_TransactionID outpoint)) in
  infallibleWriteElement h (E_uint32 (op_Index outpoint)).

Definition hashTxOut (h : HashWriter) (txOut : DomainTransactionOutput) : HashWriter :=
  let h := infallibleWriteElement h (E_uint64 (out_Value txOut)) in
  let h := infallibleWriteElement h (E_uint16 (spk_Version (out_ScriptPublicKey txOut))) in
  infallibleWriteElement h (E_bytes (spk_Script (out_ScriptPublicKey txOut))).

(** [if reusedValues.f == nil { reusedValues.f = compute } return reusedValues.f] *)
Definition reuse (field : SighashReusedValues → option DomainHash)
    (set : DomainHash → SighashReusedValues → SighashReusedValues)
    (compute : DomainHash) : reuseM DomainHash :=
  let* r := get in
  match r with
  | None => crash_with NilDereference
  | Some r =>
      match field r with
      | Some h => ret h
      | None => modify (λ _, Some (set compute r)) ;;* ret compute
      end
  end.

Definition getPreviousOutputsHash (tx : DomainTransaction) (hashType : Z) : reuseM DomainHash :=
  if isSigHashAnyOneCanPay hashType then ret NewZeroHash
  else
    reuse previousOutputsHash set_previousOutputsHash
      (Finalize (fold_left (λ h txIn, hashOutpoint h (in_PreviousOutpoint txIn))
                           (tx_Inputs tx) NewTransactionSigningHashWriter)).

Definition getSequencesHash (tx : DomainTransaction) (hashType : Z) : reuseM DomainHash :=
  if isSigHashSingle hashType || isSigHashAnyOneCanPay hashType || isSigHashNone hashType
  then ret NewZeroHash
  else
    reuse sequencesHash set_sequencesHash
      (Finalize (fold_left (λ h txIn, infallibleWriteElement h (E_uint64 (in_Sequence txIn)))
                           (tx_Inputs tx) NewTransactionSigningHashWriter)).

Definition getOutputsHash (tx : DomainTransaction) (inputIndex hashType : Z) : reuseM DomainHash :=
  if isSigHashNone hashType then ret NewZeroHash
  else if isSigHashSingle hashType then
    if inputIndex >=? zlen (tx_Outputs tx) then ret NewZeroHash
    else
      let* txOut := lift_outcome (index (tx_Outputs tx) inputIndex) in
      ret (Finalize (hashTxOut NewTransactionSigningHashWriter txOut))
  else
    reuse outputsHash set_outputsHash
      (Finalize (fold_left hashTxOut (tx_Outputs tx) NewTransactionSigningHashWriter)).

Definition getPayloadHash (tx : DomainTransaction) : reuseM DomainHash :=
  if bool_decide (tx_SubnetworkID tx = SubnetworkIDNative) then ret NewZeroHash
  else
    reuse payloadHash set_payloadHash
      (Finalize (infallibleWriteElement NewTransactionSigningHashWriter (E_bytes (tx_Payload tx)))).

Definition calculateSignatureHash (tx : DomainTransaction) (inputIndex : Z)
    (txIn : DomainTransactionInput) (utxo : utxoEntry) (prevScriptPublicKey : ScriptPublicKey)
    (hashType : Z) : reuseM DomainHash :=
  let h := infallibleWriteElement NewTransactionSigningHashWriter (E_uint16 (tx_Version tx)) in
  let* previousOutputsHash := getPreviousOutputsHash tx hashType in
  let h := infallibleWriteElement h (E_DomainHash previousOutputsHash) in
  let* sequencesHash := getSequencesHash tx hashType in
  let h := infallibleWriteElement h (E_DomainHash sequencesHash) in
  let h := hashOutpoint h (in_PreviousOutpoint txIn) in
  let h := infallibleWriteElement h (E_uint16 (spk_Version prevScriptPublicKey)) in
  let h := infallibleWriteElement h (E_bytes (spk_Script prevScriptPublicKey)) in
  let h := infallibleWriteElement h (E_uint64 (ue_amount utxo)) in
  let h := infallibleWriteElement h (E_uint64 (in_Sequence txIn)) in
  let* outputsHash := getOutputsHash tx inputIndex hashType in
  let h := infallibleWriteElement h (E_DomainHash outputsHash) in
  let h := infallibleWriteElement h (E_uint64 (tx_LockTime tx)) in
  let h := infallibleWriteElement h (E_DomainSubnetworkID (tx_SubnetworkID tx)) in
  let h := infallibleWriteElement h (E_uint64 (tx_Gas tx)) in
  let* payloadHash := getPayloadHash tx in
  let h := infallibleWriteElement h (E_DomainHash payloadHash) in
  let h := infallibleWriteElement h (E_uint8 hashType) in
  ret (Finalize h).

(** [txIn.UTXOEntry.ScriptPublicKey()] panics on a nil entry. *)
Definition CalculateSignatureHashSchnorr (tx : DomainTransaction) (inputIndex hashType : Z)
    : reuseM DomainHash :=
  if negb (IsStandardSigHashType hashType) then fail foreignError
  else
    let* txIn := lift_outcome (index (tx_Inputs tx) inputIndex) in
    match in_UTXOEntry txIn with
    | None => crash_with NilDereference
    | Some utxo =>
        calculateSignatureHash tx inputIndex txIn utxo (ue_scriptPublicKey utxo) hashType
    end.

Definition CalculateSignatureHashECDSA (tx : DomainTransaction) (inputIndex hashType : Z)
    : reuseM DomainHash :=
  let* hash := CalculateSignatureHashSchnorr tx inputIndex hashType in
  let hashWriter := InfallibleWrite NewTransactionSigningHashECDSAWriter hash in
  ret (Finalize hashWriter).
End Calculate.
End SigHash.
Import SigHash.

(** ** Unambiguous encodings

    [unambiguous view P enc]: from a byte string that starts with the encoding
    of a value satisfying [P], the [view] of the value and the rest of the
    string can be recovered. *)
Definition unambiguous {A V} (view : A → V) (P : A → Prop) (enc : A → list Z) : Prop :=
  ∀ a b r s, P a → P b → enc a ++ r = enc b ++ s → view a = view b ∧ r = s.

Section Unambiguous.
Context {A : Type}.

Lemma unambiguous_const (l : list Z) : unambiguous (λ _ : A, ()) (λ _, True) (λ _, l).
Proof. intros a b r s _ _ E. split; [done|]. by apply app_inv_head in E. Qed.

Lemma unambiguous_put n (f : A → Z) :
  unambiguous f (λ a, 0 ≤ f a < 256 ^ Z.of_nat n) (λ a, LE.put n (f a)).
Proof.
  intros a b r s Ha Hb E. apply app_inj_1 in E as [E ->]; [|by rewrite !LE.put_length].
  split; [|done]. rewrite <- (LE.of_bytes_put n (f a)), E by done. by apply LE.of_bytes_put.
Qed.

Lemma unambiguous_fixed n (f : A → list Z) : unambiguous f (λ a, zlen (f a) = n) f.
Proof.
  intros a b r s Ha Hb E. apply app_inj_1 in E; [done|]. unfold zlen in *. lia.
Qed.

Lemma unambiguous_seq {V W} (v : A → V) (w : A → W) P Q e f :
  unambiguous v P e → unambiguous w Q f →
  unambiguous (λ a, (v a, w a)) (λ a, P a ∧ Q a) (λ a, e a ++ f a).
Proof.
  intros He Hf a b r s [HPa HQa] [HPb HQb] E. rewrite <- !app_assoc in E.
  apply He in E as [-> E]; [|done|done]. by apply Hf in E as [-> ->].
Qed.

Lemma unambiguous_varbytes (f : A → list Z) :
  unambiguous f (λ a, zlen (f a) < 2 ^ 64) (λ a, LE.put 8 (zlen (f a)) ++ f a).
Proof.
  intros a b r s Ha Hb E. rewrite <- !app_assoc in E.
  apply (unambiguous_put 8 (λ a, zlen (f a))) in E as [El E]; [|split; [apply zlen_nonneg|done]..].
  simpl in El. apply app_inj_1 in E; [done|]. unfold zlen in El. lia.
Qed.
End Unambiguous.

Lemma unambiguous_concat {A V} (v : A → V) P e l k r s :
  unambiguous v P e → Forall P l → Forall P k → length l = length k →
  concat (map e l) ++ r = concat (map e k) ++ s → map v l = map v k ∧ r = s.
Proof.
  intros He. revert k. induction l as [|a l IH]; intros [|b k] Hl Hk Hlen E; try discriminate Hlen; [done|].
  apply Forall_cons_iff in Hl as [Ha Hl]. apply Forall_cons_iff in Hk as [Hb Hk].
  simpl in E. rewrite <- !app_assoc in E. apply He in E as [Hv E]; [|done..].
  injection Hlen as Hlen. destruct (IH k Hl Hk Hlen E) as [Hm ->]. simpl. by rewrite Hv, Hm.
Qed.

Lemma unambiguous_list {A B V} (v : A → V) P e (f : B → list A) :
  unambiguous v P e →
  unambiguous (λ b, map v (f b)) (λ b, zlen (f b) < 2 ^ 64 ∧ Forall P (f b))
    (λ b, LE.put 8 (zlen (f b)) ++ concat (map e (f b))).
Proof.
  intros He a b r s [Hla HPa] [Hlb HPb] E. rewrite <- !app_assoc in E.
  apply (unambiguous_put 8 (λ b, zlen (f b))) in E as [El E]; [|split; [apply zlen_nonneg|done]..].
  simpl in El. eapply unambiguous_concat in E; [done|done..|]. unfold zlen in El. lia.
Qed.

(** ** Serialisation of transactions *)
Definition varbytes (d : list Z) : list Z := LE.put 8 (zlen d) ++ d.

Definition outpoint_enc (o : DomainOutpoint) : list Z := op_TransactionID o ++ LE.put 4 (op_Index o).

Definition excludes (flags : Z) : bool :=
  Z.land flags txEncodingExcludeSignatureScript =? txEncodingExcludeSignatureScript.

(** The signature script as it is hashed under [flags]. *)
Definition hashed_script (flags : Z) (ti : DomainTransactionInput) : list Z :=
  if excludes flags then [] else in_SignatureScript ti.

Definition input_enc (flags : Z) (ti : DomainTransactionInput) : list Z :=
  (op_TransactionID (in_PreviousOutpoint ti) ++ LE.put 4 (op_Index (in_PreviousOutpoint ti))) ++
  varbytes (hashed_script flags ti) ++ LE.put 8 (in_Sequence ti).

Definition output_enc (to : DomainTransactionOutput) : list Z :=
  LE.put 8 (out_Value to) ++ LE.put 2 (spk_Version (out_ScriptPublicKey to)) ++
  varbytes (spk_Script (out_ScriptPublicKey to)).

Lemma writeTransactionInput_app w ti flags :
  writeTransactionInput w ti flags = w ++ input_enc flags ti.
Proof.
  unfold writeTransactionInput, writeOutpoint, writeVarBytes, input_enc, hashed_script, excludes.
  destruct (_ =? _); simpl; unfold PutUint64, PutUint32, varbytes; by rewrite <- !app_assoc.
Qed.

Lemma writeTxOut_app w to : writeTxOut w to = w ++ output_enc to.
Proof.
  unfold writeTxOut, writeVarBytes, output_enc, varbytes. simpl.
  unfold PutUint64, PutUint16. by rewrite <- !app_assoc.
Qed.

Lemma fold_left_app_enc {A} (f : list Z → A → list Z) (e : A → list Z) l w :
  (∀ w a, f w a = w ++ e a) → fold_left f l w = w ++ concat (map e l).
Proof.
  intros Hf. revert w. induction l as [|a l IH]; intros w; simpl; [by rewrite app_nil_r|].
  by rewrite IH, Hf, <- app_assoc.
Qed.

Lemma serializeTransaction_enc w tx flags :
  serializeTransaction w tx flags =
  w ++ LE.put 2 (tx_Version tx) ++
  (LE.put 8 (zlen (tx_Inputs tx)) ++ concat (map (input_enc flags) (tx_Inputs tx))) ++
  (LE.put 8 (zlen (tx_Outputs tx)) ++ concat (map output_enc (tx_Outputs tx))) ++
  LE.put 8 (tx_LockTime tx) ++ tx_SubnetworkID tx ++ LE.put 8 (tx_Gas tx) ++
  varbytes (tx_Payload tx).
Proof.
  unfold serializeTransaction, writeVarBytes. cbv zeta.
  rewrite (fold_left_app_enc _ (input_enc flags)) by (intros; apply writeTransactionInput_app).
  rewrite (fold_left_app_enc _ output_enc) by (intros; apply writeTxOut_app).
  simpl. unfold PutUint64, PutUint16, varbytes. by rewrite <- !app_assoc.
Qed.

Lemma unambiguous_weaken {A V W} (v : A → V) (w : A → W) (P Q : A → Prop) e :
  unambiguous v P e → (∀ a, Q a → P a) → (∀ a b, v a = v b → w a = w b) → unambiguous w Q e.
Proof. intros He HQ Hv a b r s Ha Hb E. apply He in E as [E ->]; auto. Qed.

(** Field widths: what the Go types guarantee. *)
Definition outpoint_wf (o : DomainOutpoint) : Prop :=
  zlen (op_TransactionID o) = 32 ∧ 0 ≤ op_Index o < 2 ^ 32.

Definition input_wf (ti : DomainTransactionInput) : Prop :=
  outpoint_wf (in_PreviousOutpoint ti) ∧ zlen (in_SignatureScript ti) < 2 ^ 64 ∧
  0 ≤ in_Sequence ti < 2 ^ 64.

Definition spk_wf (s : ScriptPublicKey) : Prop :=
  0 ≤ spk_Version s < 2 ^ 16 ∧ zlen (spk_Script s) < 2 ^ 64.

Definition output_wf (to : DomainTransactionOutput) : Prop :=
  0 ≤ out_Value to < 2 ^ 64 ∧ spk_wf (out_ScriptPublicKey to).

Definition tx_wf (tx : DomainTransaction) : Prop :=
  0 ≤ tx_Version tx < 2 ^ 16 ∧
  (zlen (tx_Inputs tx) < 2 ^ 64 ∧ Forall input_wf (tx_Inputs tx)) ∧
  (zlen (tx_Outputs tx) < 2 ^ 64 ∧ Forall output_wf (tx_Outputs tx)) ∧
  0 ≤ tx_LockTime tx < 2 ^ 64 ∧ zlen (tx_SubnetworkID tx) = 20 ∧
  0 ≤ tx_Gas tx < 2 ^ 64 ∧ zlen (tx_Payload tx) < 2 ^ 64.

Definition input_view (flags : Z) (ti : DomainTransactionInput) :=
  (in_PreviousOutpoint ti, hashed_script flags ti, in_Sequence ti).

(** The fields a transaction's serialisation under [flags] commits to. *)
Definition hashed_view (flags : Z) (tx : DomainTransaction) :=
  (tx_Version tx, map (input_view flags) (tx_Inputs tx), tx_Outputs tx, tx_LockTime tx,
   tx_SubnetworkID tx, tx_Gas tx, tx_Payload tx).

Lemma unambiguous_outpoint {A} (f : A → DomainOutpoint) :
  unambiguous f (λ a, outpoint_wf (f a)) (λ a, outpoint_enc (f a)).
Proof.
  unfold outpoint_enc. eapply unambiguous_weaken.
  - eapply (unambiguous_seq (λ a, op_TransactionID (f a)) (λ a, op_Index (f a)));
      [apply unambiguous_fixed|apply unambiguous_put].
  - unfold outpoint_wf. simpl. intros a [? ?]. split; [done|]. lia.
  - simpl. intros a b. destruct (f a), (f b); simpl. congruence.
Qed.

Lemma unambiguous_input flags : unambiguous (input_view flags) input_wf (input_enc flags).
Proof.
  unfold input_enc. eapply unambiguous_weaken.
  - eapply unambiguous_seq; [apply (unambiguous_outpoint in_PreviousOutpoint)|].
    eapply unambiguous_seq; [apply (unambiguous_varbytes (hashed_script flags))|].
    apply (unambiguous_put 8 in_Sequence).
  - unfold input_wf, hashed_script. simpl. intros a (? & ? & ?). split; [done|].
    split; [|lia]. by destruct (excludes flags).
  - unfold input_view. simpl. congruence.
Qed.

Lemma unambiguous_spk {A} (f : A → ScriptPublicKey) :
  unambiguous f (λ a, spk_wf (f a)) (λ a, LE.put 2 (spk_Version (f a)) ++ varbytes (spk_Script (f a))).
Proof.
  eapply unambiguous_weaken.
  - eapply unambiguous_seq; [apply (unambiguous_put 2 (λ a, spk_Version (f a)))|].
    apply (unambiguous_varbytes (λ a, spk_Script (f a))).
  - unfold spk_wf. simpl. intros a [? ?]. split; [lia|done].
  - simpl. intros a b. destruct (f a), (f b); simpl. congruence.
Qed.

Lemma unambiguous_output : unambiguous id output_wf output_enc.
Proof.
  unfold output_enc. eapply unambiguous_weaken.
  - eapply unambiguous_seq; [apply (unambiguous_put 8 out_Value)|apply (unambiguous_spk out_ScriptPublicKey)].
  - unfold output_wf. simpl. intros a [? ?]. split; [lia|done].
  - simpl. intros [] []; simpl. congruence.
Qed.

Lemma unambiguous_tx flags :
  unambiguous (hashed_view flags) tx_wf (λ tx, serializeTransaction [] tx flags).
Proof.
  intros a b r s Ha Hb. rewrite !serializeTransaction_enc.
  revert a b r s Ha Hb. fold (unambiguous (hashed_view flags) tx_wf
    (λ tx, [] ++ LE.put 2 (tx_Version tx) ++
      (LE.put 8 (zlen (tx_Inputs tx)) ++ concat (map (input_enc flags) (tx_Inputs tx))) ++
      (LE.put 8 (zlen (tx_Outputs tx)) ++ concat (map output_enc (tx_Outputs tx))) ++
      LE.put 8 (tx_LockTime tx) ++ tx_SubnetworkID tx ++ LE.put 8 (tx_Gas tx) ++
      varbytes (tx_Payload tx))).
  eapply unambiguous_weaken.
  - eapply (unambiguous_seq (λ _, ())); [apply (unambiguous_const [])|].
    eapply unambiguous_seq; [apply (unambiguous_put 2 tx_Version)|].
    eapply unambiguous_seq; [apply (unambiguous_list _ _ _ tx_Inputs (unambiguous_input flags))|].
    eapply unambiguous_seq; [apply (unambiguous_list _ _ _ tx_Outputs unambiguous_output)|].
    eapply unambiguous_seq; [apply (unambiguous_put 8 tx_LockTime)|].
    eapply unambiguous_seq; [apply (unambiguous_fixed 20 tx_SubnetworkID)|].
    eapply unambiguous_seq; [apply (unambiguous_put 8 tx_Gas)|].
    apply (unambiguous_varbytes tx_Payload).
  - unfold tx_wf. simpl. intros a (? & ? & ? & ? & ? & ? & ?).
    split; [done|]. split; [lia|]. split; [done|]. split; [done|]. split; [lia|].
    split; [done|]. split; [lia|done].
  - unfold hashed_view. simpl. intros a b. rewrite !map_id. intros. simplify_eq. congruence.
Qed.

Lemma unambiguous_concat_all {A V} (v : A → V) P e l k :
  unambiguous v P e → (∀ a, P a → e a ≠ []) → Forall P l → Forall P k →
  concat (map e l) = concat (map e k) → map v l = map v k.
Proof.
  intros He Hne. revert k. induction l as [|a l IH]; intros [|b k] Hl Hk E.
  - done.
  - apply Forall_cons_iff in Hk as [Hb _]. simpl in E. symmetry in E. apply app_nil in E as [E _].
    by apply Hne in E.
  - apply Forall_cons_iff in Hl as [Ha _]. simpl in E. apply app_nil in E as [E _]. by apply Hne in E.
  - apply Forall_cons_iff in Hl as [Ha Hl]. apply Forall_cons_iff in Hk as [Hb Hk].
    simpl in E. apply He in E as [Hv E]; [|done..]. simpl. by rewrite Hv, (IH k Hl Hk E).
Qed.

(** ** What a signature hash commits to *)
Section SigHashSpec.
Context `{Hok : HashesOk}.
Set Default Proof Using "Hok".

Definition signing_hash (d : list Z) : DomainHash :=
  blake2b_New256 (bytes_of_string transcationSigningDomain) d.

Lemma Finalize_digest h : digest_ok (hw_sum h (hw_written h)) → Finalize h = hw_sum h (hw_written h).
Proof.
  intros [_ Hl]. unfold Finalize. cbv zeta. unfold zlen in Hl.
  rewrite take_ge by lia. replace (32 - _)%nat with 0%nat by lia. apply app_nil_r.
Qed.

Lemma Finalize_signing d :
  Finalize {| hw_sum := blake2b_New256 (bytes_of_string transcationSigningDomain); hw_written := d |}
  = signing_hash d.
Proof. rewrite Finalize_digest; [done|]. apply blake2b_New256_ok. Qed.

Definition prevouts_of (tx : DomainTransaction) : list Z :=
  concat (map (λ ti, outpoint_enc (in_PreviousOutpoint ti)) (tx_Inputs tx)).
Definition sequences_of (tx : DomainTransaction) : list Z :=
  concat (map (λ ti, LE.put 8 (in_Sequence ti)) (tx_Inputs tx)).
Definition outputs_of (tx : DomainTransaction) : list Z := concat (map output_enc (tx_Outputs tx)).

Definition no_sequences (ht : Z) : bool :=
  isSigHashSingle ht || isSigHashAnyOneCanPay ht || isSigHashNone ht.

Definition prevouts_hash tx ht : DomainHash :=
  if isSigHashAnyOneCanPay ht then NewZeroHash else signing_hash (prevouts_of tx).
Definition sequences_hash tx ht : DomainHash :=
  if no_sequences ht then NewZeroHash else signing_hash (sequences_of tx).
Definition outputs_hash tx (idx ht : Z) : DomainHash :=
  if isSigHashNone ht then NewZeroHash
  else if isSigHashSingle ht then
    match tx_Outputs tx !! Z.to_nat idx with
    | Some o => signing_hash (output_enc o)
    | None => NewZeroHash
    end
  else signing_hash (outputs_of tx).
Definition payload_hash tx : DomainHash :=
  if bool_decide (tx_SubnetworkID tx = SubnetworkIDNative) then NewZeroHash
  else signing_hash (varbytes (tx_Payload tx)).

(** What is signed: an input of a transaction, with the entry it spends. *)
Record signed := {
  sg_tx : DomainTransaction;
  sg_idx : Z;
  sg_in : DomainTransactionInput;
  sg_utxo : utxoEntry;
  sg_type : Z
}.

Definition preimage (g : signed) : list Z :=
  let tx := sg_tx g in
  LE.put 2 (tx_Version tx) ++ prevouts_hash tx (sg_type g) ++ sequences_hash tx (sg_type g) ++
  outpoint_enc (in_PreviousOutpoint (sg_in g)) ++
  (LE.put 2 (spk_Version (ue_scriptPublicKey (sg_utxo g))) ++
   varbytes (spk_Script (ue_scriptPublicKey (sg_utxo g)))) ++
  LE.put 8 (ue_amount (sg_utxo g)) ++ LE.put 8 (in_Sequence (sg_in g)) ++
  outputs_hash tx (sg_idx g) (sg_type g) ++
  LE.put 8 (tx_LockTime tx) ++ tx_SubnetworkID tx ++ LE.put 8 (tx_Gas tx) ++ payload_hash tx ++
  [sg_type g].

(** The hashes a [SighashReusedValues] may hold for [tx]. *)
Definition reuse_ok (tx : DomainTransaction) (r : SighashReusedValues) : Prop :=
  (∀ h, previousOutputsHash r = Some h → h = signing_hash (prevouts_of tx)) ∧
  (∀ h, sequencesHash r = Some h → h = signing_hash (sequences_of tx)) ∧
  (∀ h, outputsHash r = Some h → h = signing_hash (outputs_of tx)) ∧
  (∀ h, payloadHash r = Some h → h = signing_hash (varbytes (tx_Payload tx))).

Lemma infallibleWrite_fold {A} (f : HashWriter → A → HashWriter) (e : A → list Z) l h :
  (∀ h a, f h a = InfallibleWrite h (e a)) →
  fold_left f l h = InfallibleWrite h (concat (map e l)).
Proof.
  intros Hf. revert h. induction l as [|a l IH]; intros h; simpl.
  - destruct h. unfold InfallibleWrite. simpl. by rewrite app_nil_r.
  - rewrite IH, Hf. unfold InfallibleWrite. simpl. by rewrite <- app_assoc.
Qed.

Lemma hashOutpoint_write h o : hashOutpoint h o = InfallibleWrite h (outpoint_enc o).
Proof.
  unfold hashOutpoint, infallibleWriteElement, InfallibleWrite, outpoint_enc. simpl.
  unfold PutUint32. by rewrite <- app_assoc.
Qed.

Lemma hashTxOut_write h o : hashTxOut h o = InfallibleWrite h (output_enc o).
Proof.
  unfold hashTxOut, infallibleWriteElement, InfallibleWrite, output_enc, varbytes. simpl.
  unfold PutUint64, PutUint16. by rewrite <- !app_assoc.
Qed.

(** One cached value: read if present, else computed and stored. *)
Lemma reuse_spec tx field set v r :
  (∀ h, field r = Some h → h = v) → reuse_ok tx r → reuse_ok tx (set v r) →
  ∃ r', reuse field set v (Some r) = (Some r', Ret v) ∧ reuse_ok tx r'.
Proof.
  intros Hf Hr Hs. unfold reuse, bind, get. destruct (field r) as [h|] eqn:E.
  - exists r. by rewrite (Hf h eq_refl).
  - exists (set v r). done.
Qed.

Lemma getPreviousOutputsHash_spec tx ht r : reuse_ok tx r →
  ∃ r', getPreviousOutputsHash tx ht (Some r) = (Some r', Ret (prevouts_hash tx ht)) ∧ reuse_ok tx r'.
Proof.
  intros Hr. unfold getPreviousOutputsHash, prevouts_hash.
  destruct (isSigHashAnyOneCanPay ht); [by exists r|].
  rewrite (infallibleWrite_fold _ (λ ti, outpoint_enc (in_PreviousOutpoint ti)))
    by (intros; apply hashOutpoint_write).
  unfold InfallibleWrite. simpl. rewrite Finalize_signing. fold (prevouts_of tx).
  apply reuse_spec; [apply Hr|done|]. destruct Hr as (? & ? & ? & ?).
  repeat split; simpl; auto. congruence.
Qed.

Lemma getSequencesHash_spec tx ht r : reuse_ok tx r →
  ∃ r', getSequencesHash tx ht (Some r) = (Some r', Ret (sequences_hash tx ht)) ∧ reuse_ok tx r'.
Proof.
  intros Hr. unfold getSequencesHash, sequences_hash, no_sequences.
  destruct (_ || _ || _); [by exists r|].
  rewrite (infallibleWrite_fold _ (λ ti, LE.put 8 (in_Sequence ti))) by done.
  unfold InfallibleWrite. simpl hw_written. simpl hw_sum. rewrite Finalize_signing.
  rewrite app_nil_l. fold (sequences_of tx).
  apply reuse_spec; [apply Hr|done|]. destruct Hr as (? & ? & ? & ?).
  repeat split; simpl; auto. congruence.
Qed.

Lemma getOutputsHash_spec tx idx ht r : 0 ≤ idx → reuse_ok tx r →
  ∃ r', getOutputsHash tx idx ht (Some r) = (Some r', Ret (outputs_hash tx idx ht)) ∧ reuse_ok tx r'.
Proof.
  intros Hidx Hr. unfold getOutputsHash, outputs_hash.
  destruct (isSigHashNone ht); [by exists r|]. destruct (isSigHashSingle ht).
  - rewrite Z.geb_leb. destruct (Z.leb_spec (zlen (tx_Outputs tx)) idx).
    + rewrite lookup_ge_None_2 by (unfold zlen in *; lia). by exists r.
    + destruct (@index_in_range error _ (tx_Outputs tx) idx) as (o & Ho & Hl); [lia|].
      exists r. unfold bind, lift_outcome. rewrite Ho, Hl, hashTxOut_write.
      unfold InfallibleWrite. simpl. by rewrite Finalize_signing.
  - rewrite (infallibleWrite_fold _ output_enc) by (intros; apply hashTxOut_write).
    unfold InfallibleWrite. simpl. rewrite Finalize_signing. fold (outputs_of tx).
    apply reuse_spec; [apply Hr|done|]. destruct Hr as (? & ? & ? & ?).
    repeat split; simpl; auto. congruence.
Qed.

Lemma getPayloadHash_spec tx r : reuse_ok tx r →
  ∃ r', getPayloadHash tx (Some r) = (Some r', Ret (payload_hash tx)) ∧ reuse_ok tx r'.
Proof.
  intros Hr. unfold getPayloadHash, payload_hash.
  destruct (bool_decide _); [by exists r|].
  unfold infallibleWriteElement, InfallibleWrite. simpl hw_written. simpl hw_sum.
  rewrite Finalize_signing. rewrite app_nil_l.
  apply reuse_spec; [apply Hr|done|]. destruct Hr as (? & ? & ? & ?).
  repeat split; simpl; auto. congruence.
Qed.

(** The signature hash with cached sub-hashes is the hash of [preimage]. *)
Lemma CalculateSignatureHashSchnorr_spec tx idx ht txIn utxo r :
  IsStandardSigHashType ht = true → 0 ≤ idx → tx_Inputs tx !! Z.to_nat idx = Some txIn →
  in_UTXOEntry txIn = Some utxo → reuse_ok tx r →
  ∃ r', CalculateSignatureHashSchnorr tx idx ht (Some r)
        = (Some r', Ret (signing_hash (preimage
            {| sg_tx := tx; sg_idx := idx; sg_in := txIn; sg_utxo := utxo; sg_type := ht |})))
        ∧ reuse_ok tx r'.
Proof.
  intros Hst Hidx Hin Hu Hr. unfold CalculateSignatureHashSchnorr. rewrite Hst. cbn [negb].
  assert (@index error _ (tx_Inputs tx) idx = Ret txIn) as Hix.
  { unfold index. rewrite decide_True by lia. by rewrite Hin. }
  rewrite (bind_ret_l _ _ (Some r) (Some r) txIn) by (unfold lift_outcome; by rewrite Hix).
  rewrite Hu. unfold calculateSignatureHash. cbv zeta.
  destruct (getPreviousOutputsHash_spec tx ht r Hr) as (r1 & E1 & Hr1).
  destruct (getSequencesHash_spec tx ht r1 Hr1) as (r2 & E2 & Hr2).
  destruct (getOutputsHash_spec tx idx ht r2 Hidx Hr2) as (r3 & E3 & Hr3).
  destruct (getPayloadHash_spec tx r3 Hr3) as (r4 & E4 & Hr4).
  exists r4. split; [|done].
  rewrite (bind_ret_l _ _ _ _ _ E1), (bind_ret_l _ _ _ _ _ E2), (bind_ret_l _ _ _ _ _ E3),
    (bind_ret_l _ _ _ _ _ E4). unfold ret.
  rewrite hashOutpoint_write. unfold infallibleWriteElement, InfallibleWrite.
  cbn [hw_sum hw_written NewTransactionSigningHashWriter newBlake2bWriter].
  rewrite Finalize_signing. unfold preimage, varbytes.
  cbn [sg_tx sg_idx sg_in sg_utxo sg_type WriteElement].
  unfold PutUint64, PutUint16, PutUint8. rewrite !app_nil_l, <- !app_assoc. done.
Qed.

Lemma CalculateSignatureHashECDSA_spec tx idx ht txIn utxo r :
  IsStandardSigHashType ht = true → 0 ≤ idx → tx_Inputs tx !! Z.to_nat idx = Some txIn →
  in_UTXOEntry txIn = Some utxo → reuse_ok tx r →
  ∃ r', CalculateSignatureHashECDSA tx idx ht (Some r)
        = (Some r', Ret (sha256_Sum256 (transactionSigningECDSADomainHash ++ signing_hash (preimage
            {| sg_tx := tx; sg_idx := idx; sg_in := txIn; sg_utxo := utxo; sg_type := ht |}))))
        ∧ reuse_ok tx r'.
Proof.
  intros Hst Hidx Hin Hu Hr.
  destruct (CalculateSignatureHashSchnorr_spec tx idx ht txIn utxo r) as (r' & E & Hr'); [done..|].
  exists r'. split; [|done]. unfold CalculateSignatureHashECDSA, bind. rewrite E. unfold ret.
  rewrite Finalize_digest; [done|]. apply sha256_ok.
Qed.

(** ** Binding *)
Definition spk_amount_wf (u : utxoEntry) : Prop :=
  spk_wf (ue_scriptPublicKey u) ∧ 0 ≤ ue_amount u < 2 ^ 64.

Definition signed_wf (g : signed) : Prop :=
  tx_wf (sg_tx g) ∧ input_wf (sg_in g) ∧ spk_amount_wf (sg_utxo g).

(** The committed contents: the fields of the signed input and its entry, and
    of the transaction those that the hash type does not leave open. *)
Definition signed_outputs (g : signed) : option (list DomainTransactionOutput) :=
  if isSigHashNone (sg_type g) then None
  else if isSigHashSingle (sg_type g) then
    (λ o, [o]) <$> tx_Outputs (sg_tx g) !! Z.to_nat (sg_idx g)
  else Some (tx_Outputs (sg_tx g)).

Definition signed_view (g : signed) :=
  let tx := sg_tx g in
  (tx_Version tx,
   (if isSigHashAnyOneCanPay (sg_type g) then None
    else Some (map in_PreviousOutpoint (tx_Inputs tx))),
   (if no_sequences (sg_type g) then None else Some (map in_Sequence (tx_Inputs tx))),
   in_PreviousOutpoint (sg_in g), ue_scriptPublicKey (sg_utxo g), ue_amount (sg_utxo g),
   in_Sequence (sg_in g), signed_outputs g, tx_LockTime tx, tx_SubnetworkID tx, tx_Gas tx,
   (if bool_decide (tx_SubnetworkID tx = SubnetworkIDNative) then None else Some (tx_Payload tx)),
   sg_type g).

(** Two different messages with the same signing hash, or a message whose
    signing hash is the all-zero one: what an attacker would have to find. *)
Definition hash_broken : Prop :=
  (∃ d d', d ≠ d' ∧ signing_hash d = signing_hash d') ∨ ∃ d, signing_hash d = NewZeroHash.

Lemma signing_hash_eq d d' : signing_hash d = signing_hash d' → d = d' ∨ hash_broken.
Proof.
  intros E. destruct (decide (d = d')); [by left|right; left]. by exists d, d'.
Qed.

Definition preimage_view (g : signed) :=
  let tx := sg_tx g in
  (tx_Version tx, (prevouts_hash tx (sg_type g), (sequences_hash tx (sg_type g),
   (in_PreviousOutpoint (sg_in g), (ue_scriptPublicKey (sg_utxo g), (ue_amount (sg_utxo g),
   (in_Sequence (sg_in g), (outputs_hash tx (sg_idx g) (sg_type g), (tx_LockTime tx,
   (tx_SubnetworkID tx, (tx_Gas tx, (payload_hash tx, [sg_type g])))))))))))).

Lemma zero_hash_length : zlen NewZeroHash = 32.
Proof using. done. Qed.

Lemma signing_hash_length d : zlen (signing_hash d) = 32.
Proof. apply blake2b_New256_ok. Qed.

Lemma unambiguous_preimage : unambiguous preimage_view signed_wf preimage.
Proof.
  unfold preimage_view, preimage. cbv zeta. eapply unambiguous_weaken.
  - eapply unambiguous_seq; [apply (unambiguous_put 2 (λ g, tx_Version (sg_tx g)))|].
    eapply unambiguous_seq; [apply (unambiguous_fixed 32 (λ g, prevouts_hash (sg_tx g) (sg_type g)))|].
    eapply unambiguous_seq; [apply (unambiguous_fixed 32 (λ g, sequences_hash (sg_tx g) (sg_type g)))|].
    eapply unambiguous_seq; [apply (unambiguous_outpoint (λ g, in_PreviousOutpoint (sg_in g)))|].
    eapply unambiguous_seq; [apply (unambiguous_spk (λ g, ue_scriptPublicKey (sg_utxo g)))|].
    eapply unambiguous_seq; [apply (unambiguous_put 8 (λ g, ue_amount (sg_utxo g)))|].
    eapply unambiguous_seq; [apply (unambiguous_put 8 (λ g, in_Sequence (sg_in g)))|].
    eapply unambiguous_seq; [apply (unambiguous_fixed 32 (λ g, outputs_hash (sg_tx g) (sg_idx g) (sg_type g)))|].
    eapply unambiguous_seq; [apply (unambiguous_put 8 (λ g, tx_LockTime (sg_tx g)))|].
    eapply unambiguous_seq; [apply (unambiguous_fixed 20 (λ g, tx_SubnetworkID (sg_tx g)))|].
    eapply unambiguous_seq; [apply (unambiguous_put 8 (λ g, tx_Gas (sg_tx g)))|].
    eapply unambiguous_seq; [apply (unambiguous_fixed 32 (λ g, payload_hash (sg_tx g)))|].
    apply (unambiguous_fixed 1 (λ g, [sg_type g])).
  - simpl. intros g ((? & _ & _ & ? & ? & ? & _) & (? & _ & ?) & ? & ?).
    repeat match goal with |- _ ∧ _ => split; [|] end; auto; try lia; unfold prevouts_hash,
      sequences_hash, outputs_hash, payload_hash; repeat case_match; apply signing_hash_length || done.
  - simpl. intros a b E. exact E.
Qed.

Lemma outpoint_enc_nonempty o : outpoint_enc o ≠ [].
Proof using. unfold outpoint_enc. intros E%(f_equal length). rewrite length_app, LE.put_length in E. simpl in E. lia. Qed.

Lemma output_enc_nonempty o : output_enc o ≠ [].
Proof using. unfold output_enc. intros E%(f_equal length). rewrite length_app, LE.put_length in E. simpl in E. lia. Qed.

Lemma prevouts_hash_eq a b ht : tx_wf a → tx_wf b → isSigHashAnyOneCanPay ht = false →
  prevouts_hash a ht = prevouts_hash b ht →
  map in_PreviousOutpoint (tx_Inputs a) = map in_PreviousOutpoint (tx_Inputs b) ∨ hash_broken.
Proof.
  intros (_ & [_ Ha] & _) (_ & [_ Hb] & _) Hacp. unfold prevouts_hash. rewrite Hacp.
  intros [E|]%signing_hash_eq; [left|by right].
  eapply (unambiguous_concat_all in_PreviousOutpoint input_wf); [| |done|done|exact E].
  - eapply unambiguous_weaken; [apply (unambiguous_outpoint in_PreviousOutpoint)|by intros ? []|done].
  - intros ti _. apply outpoint_enc_nonempty.
Qed.

Lemma sequences_hash_eq a b ht : tx_wf a → tx_wf b → no_sequences ht = false →
  sequences_hash a ht = sequences_hash b ht →
  map in_Sequence (tx_Inputs a) = map in_Sequence (tx_Inputs b) ∨ hash_broken.
Proof.
  intros (_ & [_ Ha] & _) (_ & [_ Hb] & _) Hns. unfold sequences_hash. rewrite Hns.
  intros [E|]%signing_hash_eq; [left|by right].
  eapply (unambiguous_concat_all in_Sequence input_wf); [| |done|done|exact E].
  - eapply unambiguous_weaken; [apply (unambiguous_put 8 in_Sequence)| |done].
    intros ? (_ & _ & ?). change (256 ^ Z.of_nat 8) with (2 ^ 64). done.
  - done.
Qed.

Lemma outputs_hash_eq a b : signed_wf a → signed_wf b → sg_type a = sg_type b →
  outputs_hash (sg_tx a) (sg_idx a) (sg_type a) = outputs_hash (sg_tx b) (sg_idx b) (sg_type b) →
  signed_outputs a = signed_outputs b ∨ hash_broken.
Proof.
  intros [(_ & _ & [_ Ha] & _) _] [(_ & _ & [_ Hb] & _) _] Ht.
  unfold outputs_hash, signed_outputs. rewrite Ht.
  destruct (isSigHashNone _); [by left|]. destruct (isSigHashSingle _).
  - destruct (tx_Outputs (sg_tx a) !! _) as [o|] eqn:Eo, (tx_Outputs (sg_tx b) !! _) as [o'|] eqn:Eo'; simpl.
    + intros [E|]%signing_hash_eq; [left|by right]. rewrite <- (app_nil_r (output_enc o)), <- (app_nil_r (output_enc o')) in E.
      apply unambiguous_output in E as [Eid _]; [unfold id in Eid; by subst| |].
      * by eapply (Forall_lookup_1 _ _ _ _ Ha).
      * by eapply (Forall_lookup_1 _ _ _ _ Hb).
    + intros E. right. right. eauto.
    + intros E. right. right. eauto.
    + by left.
  - intros [E|]%signing_hash_eq; [left|by right]. f_equal.
    apply (unambiguous_concat_all id output_wf) in E;
      [by rewrite !map_id in E|apply unambiguous_output|intros; apply output_enc_nonempty|done|done].
Qed.

Lemma payload_hash_eq a b : tx_wf a → tx_wf b → tx_SubnetworkID a = tx_SubnetworkID b →
  tx_SubnetworkID b ≠ SubnetworkIDNative →
  payload_hash a = payload_hash b → tx_Payload a = tx_Payload b ∨ hash_broken.
Proof.
  intros (_ & _ & _ & _ & _ & _ & Ha) (_ & _ & _ & _ & _ & _ & Hb) Hsub Hn. unfold payload_hash.
  rewrite !bool_decide_false by congruence. intros [E|]%signing_hash_eq; [left|by right].
  unfold varbytes in E.
  rewrite <- (app_nil_r (_ ++ tx_Payload a)), <- (app_nil_r (_ ++ tx_Payload b)) in E.
  by apply (unambiguous_varbytes tx_Payload) in E as [E _].
Qed.

Lemma preimage_binding a b : signed_wf a → signed_wf b →
  preimage a = preimage b → signed_view a = signed_view b ∨ hash_broken.
Proof.
  intros Ha Hb E. rewrite <- (app_nil_r (preimage a)), <- (app_nil_r (preimage b)) in E.
  apply unambiguous_preimage in E as [E _]; [|done..]. unfold preimage_view in E.
  injection E as Ever Epo Eseqs Eop Espk Eam Eseq Eout Elt Esub Egas Epay Ety.
  pose proof Ha as [Hta _]. pose proof Hb as [Htb _]. unfold signed_view. cbv zeta.
  destruct (outputs_hash_eq a b) as [Eo|]; [done..| |by right].
  assert (payload_hash (sg_tx a) = payload_hash (sg_tx b) →
    tx_SubnetworkID (sg_tx b) = SubnetworkIDNative ∨ tx_Payload (sg_tx a) = tx_Payload (sg_tx b) ∨
    hash_broken) as Hp.
  { intros. destruct (decide (tx_SubnetworkID (sg_tx b) = SubnetworkIDNative)); [by left|right].
    by apply payload_hash_eq. }
  rewrite Ety, Esub, Ever, Eop, Espk, Eam, Eseq, Elt, Egas, Eo in *.
  destruct (isSigHashAnyOneCanPay (sg_type b)) eqn:Eacp;
    [|destruct (prevouts_hash_eq (sg_tx a) (sg_tx b) (sg_type b)) as [-> |]; [done..| |by right]].
  all: destruct (no_sequences (sg_type b)) eqn:Ens;
    [|destruct (sequences_hash_eq (sg_tx a) (sg_tx b) (sg_type b)) as [-> |]; [done..| |by right]].
  all: destruct (Hp Epay) as [Hnat|[-> |]]; [rewrite bool_decide_true by done; by left|by left|by right].
Qed.

(** Contents the hash type leaves open do not enter the hash. *)
Lemma preimage_view_only a b : signed_view a = signed_view b → preimage a = preimage b.
Proof using.
  unfold signed_view. cbv zeta. intros E.
  injection E as Ever Epo Eseqs Eop Espk Eam Eseq Eout Elt Esub Egas Epay Ety.
  unfold preimage. cbv zeta.
  assert (prevouts_hash (sg_tx a) (sg_type a) = prevouts_hash (sg_tx b) (sg_type b)) as ->.
  { unfold prevouts_hash, prevouts_of. rewrite Ety in *. destruct (isSigHashAnyOneCanPay _); [done|].
    injection Epo as Epo. f_equal. f_equal.
    rewrite <- !(map_map in_PreviousOutpoint outpoint_enc). by rewrite Epo. }
  assert (sequences_hash (sg_tx a) (sg_type a) = sequences_hash (sg_tx b) (sg_type b)) as ->.
  { unfold sequences_hash, sequences_of. rewrite Ety in *. destruct (no_sequences _); [done|].
    injection Eseqs as Eseqs. f_equal. f_equal.
    rewrite <- !(map_map in_Sequence (LE.put 8)). by rewrite Eseqs. }
  assert (outputs_hash (sg_tx a) (sg_idx a) (sg_type a)
          = outputs_hash (sg_tx b) (sg_idx b) (sg_type b)) as ->.
  { unfold outputs_hash, signed_outputs, outputs_of in *. rewrite Ety in *.
    destruct (isSigHashNone _); [done|]. destruct (isSigHashSingle _); [|congruence].
    destruct (tx_Outputs (sg_tx a) !! _), (tx_Outputs (sg_tx b) !! _); simpl in Eout; congruence. }
  assert (payload_hash (sg_tx a) = payload_hash (sg_tx b)) as ->.
  { unfold payload_hash. rewrite Esub in *. destruct (bool_decide _); [done|]. congruence. }
  by rewrite Ety, Esub, Ever, Eop, Espk, Eam, Eseq, Elt, Egas.
Qed.
End SigHashSpec.
Set Default Proof Using "Type".

(** A concrete instance of [Hashes], for the witnesses: the first 32 bytes of
    the message, padded with zeros. *)
Definition toy_digest (d : list Z) : list Z :=
  map (λ z, z mod 256) (take 32 (d ++ replicate 32 0)).

#[export] Instance toy_hashes : Hashes :=
  {| sha256_Sum256 := toy_digest; blake2b_Sum256 := toy_digest; blake2b_New256 _ := toy_digest |}.

Lemma toy_digest_ok d : digest_ok (toy_digest d).
Proof.
  unfold digest_ok, toy_digest. split.
  - apply Forall_map. apply Forall_true. intros z. apply Z.mod_pos_bound. lia.
  - unfold zlen. rewrite length_map, length_take, length_app, length_replicate. lia.
Qed.

#[export] Instance toy_hashes_ok : HashesOk.
Proof. split; intros; apply toy_digest_ok. Qed.

(** ** Properties *)
Module HashingProps.
(** The result of [CalculateSignatureHashSchnorr] on a signed input, from a
    given state of the reused values. *)
Definition sighash_result `{Hashes} (g : signed) (r : SighashReusedValues)
    : option SighashReusedValues * outcome error DomainHash :=
  CalculateSignatureHashSchnorr (sg_tx g) (sg_idx g) (sg_type g) (Some r).

(** [g] names an input of its transaction, with its UTXO entry filled in, and a
    standard hash type. *)
Definition signs (g : signed) : Prop :=
  IsStandardSigHashType (sg_type g) = true ∧ 0 ≤ sg_idx g ∧
  tx_Inputs (sg_tx g) !! Z.to_nat (sg_idx g) = Some (sg_in g) ∧
  in_UTXOEntry (sg_in g) = Some (sg_utxo g).

Definition no_values : SighashReusedValues :=
  {| previousOutputsHash := None; sequencesHash := None; outputsHash := None; payloadHash := None |}.

Definition sample_tx : DomainTransaction :=
  let utxo := {| ue_amount := 5; ue_scriptPublicKey := {| spk_Script := [81]; spk_Version := 0 |};
                 ue_blockDAAScore := 1; ue_isCoinbase := false |} in
  {| tx_Version := 0;
     tx_Inputs := [{| in_PreviousOutpoint := {| op_TransactionID := replicate 32 7; op_Index := 1 |};
                      in_SignatureScript := [81]; in_Sequence := 3; in_UTXOEntry := Some utxo |}];
     tx_Outputs := [{| out_Value := 4; out_ScriptPublicKey := {| spk_Script := [81]; spk_Version := 0 |} |}];
     tx_LockTime := 0; tx_SubnetworkID := SubnetworkIDNative; tx_Gas := 0; tx_Payload := [];
     tx_Fee := 0; tx_Mass := 0; tx_ID := None |}.

Definition sample_signed (ht : Z) : signed :=
  let utxo := {| ue_amount := 5; ue_scriptPublicKey := {| spk_Script := [81]; spk_Version := 0 |};
                 ue_blockDAAScore := 1; ue_isCoinbase := false |} in
  {| sg_tx := sample_tx; sg_idx := 0;
     sg_in := {| in_PreviousOutpoint := {| op_TransactionID := replicate 32 7; op_Index := 1 |};
                 in_SignatureScript := [81]; in_Sequence := 3; in_UTXOEntry := Some utxo |};
     sg_utxo := utxo; sg_type := ht |}.

Lemma sample_tx_wf : tx_wf sample_tx.
Proof.
  repeat match goal with
  | |- _ ∧ _ => split
  | |- Forall _ _ => constructor
  | |- tx_wf _ => unfold tx_wf
  | |- input_wf _ => unfold input_wf, outpoint_wf
  | |- output_wf _ => unfold output_wf, spk_wf
  end; simpl; try lia; done.
Qed.

(** Reusing sub-hashes never changes a signature hash.  From reused values
    that hold correct hashes of the transaction (none at the start), the
    computation returns what it returns from empty ones, without panic or error,
    and leaves reused values that are again correct. *)
Theorem sighash_reuse `{HashesOk} (g : signed) (r : SighashReusedValues) :
  signs g → reuse_ok (sg_tx g) r →
  snd (sighash_result g r) = snd (sighash_result g no_values) ∧
  snd (sighash_result g r) = Ret (signing_hash (preimage g)) ∧
  ∃ r', fst (sighash_result g r) = Some r' ∧ reuse_ok (sg_tx g) r'.
Proof.
  intros (Hst & Hi & Hin & Hu) Hr. unfold sighash_result.
  assert (reuse_ok (sg_tx g) no_values) as Hno by (repeat split; intros ? [=]).
  destruct (CalculateSignatureHashSchnorr_spec _ _ _ _ _ r Hst Hi Hin Hu Hr) as (r1 & -> & Hr1).
  destruct (CalculateSignatureHashSchnorr_spec _ _ _ _ _ no_values Hst Hi Hin Hu Hno) as (r2 & -> & _).
  destruct g. simpl. eauto.
Qed.

Lemma sighash_reuse_witness :
  snd (sighash_result (sample_signed 1) no_values)
  = snd (sighash_result (sample_signed 1) no_values) ∧
  snd (sighash_result (sample_signed 1) no_values) = Ret (signing_hash (preimage (sample_signed 1))) ∧
  ∃ r', fst (sighash_result (sample_signed 1) no_values) = Some r' ∧ reuse_ok sample_tx r'.
Proof.
  apply (sighash_reuse (sample_signed 1) no_values).
  - repeat split; discriminate || reflexivity.
  - repeat split; intros ? [=].
Defined.



(** The encoding that is hashed for transaction hashes and ids is
    unambiguous: two transactions with the same encoding agree on every hashed
    field (all but fee, mass, cached id, UTXO entries and, under
    [txEncodingExcludeSignatureScript], the signature scripts), even when
    followed by further bytes. *)
Theorem serializeTransaction_injective (a b : DomainTransaction) (flags : Z) (r s : list Z) :
  tx_wf a → tx_wf b →
  serializeTransaction [] a flags ++ r = serializeTransaction [] b flags ++ s →
  hashed_view flags a = hashed_view flags b ∧ r = s.
Proof. apply unambiguous_tx. Qed.

Lemma serializeTransaction_injective_witness :
  hashed_view txEncodingFull sample_tx = hashed_view txEncodingFull sample_tx ∧ [9] = [9].
Proof.
  apply (serializeTransaction_injective sample_tx sample_tx txEncodingFull [9] [9]);
    [exact sample_tx_wf|exact sample_tx_wf|reflexivity].
Defined.
End HashingProps.
