(* ===== verification/SigCache.v ===== *)
(** * Signatures and the signature caches (sigcache.go, sigcache_ecdsa.go)

    The signature schemes are those of the library go-secp256k1: the class
    [SigAlgorithm] takes its operations as functions.  The two caches have the
    same code over different key and signature types, so they are one
    definition here, instantiated twice by the engine.

    [Add] makes room by deleting the entry a [range] over the map yields first.
    Go leaves that choice open: [first_key] is any function that picks a key of
    a non-empty map. *)
From S2P Require Import Prelude.
Local Open Scope Z_scope.

Class SigAlgorithm (Sig PK : Type) := {
  DeserializePubKey : list Z → option PK;
  DeserializeSignatureFromSlice : list Z → option Sig;
  Verify : PK → list Z → Sig → bool;
  sig_IsEqual : Sig → Sig → bool;
  pk_IsEqual : PK → PK → bool
}.

Class SigAlgorithmOk Sig PK `{SigAlgorithm Sig PK} : Prop := {
  sig_IsEqual_eq a b : sig_IsEqual a b = true → a = b;
  pk_IsEqual_eq a b : pk_IsEqual a b = true → a = b
}.

Class MapOrder := first_key : ∀ {A : Type}, gmap (list Z) A → list Z.

Class MapOrderOk `{MapOrder} : Prop :=
  first_key_in : ∀ A (m : gmap (list Z) A), m ≠ ∅ → is_Some (m !! first_key m).

Module SigCache.
Section Cache.
Context {Sig PK : Type} `{SigAlgorithm Sig PK} `{MapOrder}.

Record sigCacheEntry := { ce_sig : Sig; ce_pubKey : PK }.

Record SigCache := {
  validSigs : gmap (list Z) sigCacheEntry;
  maxEntries : Z
}.

Definition NewSigCache (maxEntries : Z) : SigCache :=
  {| validSigs := ∅; maxEntries := maxEntries |}.

Definition Exists (s : SigCache) (sigHash : list Z) (sig : Sig) (pubKey : PK) : bool :=
  match validSigs s !! sigHash with
  | Some entry => pk_IsEqual (ce_pubKey entry) pubKey && sig_IsEqual (ce_sig entry) sig
  | None => false
  end.

(** [for sigEntry := range s.validSigs { delete(s.validSigs, sigEntry); break }] *)
Definition evict (m : gmap (list Z) sigCacheEntry) : gmap (list Z) sigCacheEntry :=
  if decide (m = ∅) then m else delete (first_key m) m.

Definition Add (s : SigCache) (sigHash : list Z) (sig : Sig) (pubKey : PK) : SigCache :=
  if maxEntries s =? 0 then s
  else
    let m :=
      if GoInt.uint64 (Z.of_nat (size (validSigs s)) + 1) >? maxEntries s
      then evict (validSigs s) else validSigs s in
    {| validSigs := <[sigHash := {| ce_sig := sig; ce_pubKey := pubKey |}]> m;
       maxEntries := maxEntries s |}.
End Cache.
Arguments sigCacheEntry : clear implicits.
Arguments SigCache : clear implicits.
End SigCache.
Import SigCache.

#[export] Instance sigCacheEntry_eq_dec {Sig PK} `{EqDecision Sig} `{EqDecision PK} :
  EqDecision (sigCacheEntry Sig PK).
Proof. solve_decision. Defined.

(** ** Soundness *)
Section CacheOk.
Context {Sig PK : Type} `{Halg : SigAlgorithmOk Sig PK} `{Hord : MapOrderOk}.

(** Every cached entry is a signature that verifies, and there are no more
    than [maxEntries] of them. *)
Definition cache_ok (s : SigCache Sig PK) : Prop :=
  (∀ h e, validSigs s !! h = Some e → Verify (ce_pubKey e) h (ce_sig e) = true) ∧
  Z.of_nat (size (validSigs s)) ≤ maxEntries s < 2 ^ 64 - 1.

Lemma NewSigCache_ok n : 0 ≤ n < 2 ^ 64 - 1 → cache_ok (NewSigCache n).
Proof. intros. split; simpl; [intros h e; by rewrite lookup_empty|]. rewrite map_size_empty. lia. Qed.

Lemma Exists_sound s h sig pk : cache_ok s → Exists s h sig pk = true → Verify pk h sig = true.
Proof using Halg.
  intros [Hv _]. unfold Exists. destruct (validSigs s !! h) as [e|] eqn:E; [|done].
  intros [Hp Hs]%andb_true_iff. apply pk_IsEqual_eq in Hp as <-. apply sig_IsEqual_eq in Hs as <-.
  by apply Hv.
Qed.

Lemma evict_subset (m : gmap (list Z) (sigCacheEntry Sig PK)) h e : evict m !! h = Some e → m !! h = Some e.
Proof.
  unfold evict. destruct (decide (m = ∅)); [done|]. intros E. by apply lookup_delete_Some in E as [].
Qed.

Lemma evict_size (m : gmap (list Z) (sigCacheEntry Sig PK)) : size (evict m) = (size m - 1)%nat.
Proof using Hord.
  unfold evict. destruct (decide (m = ∅)) as [->|Hne]; [by rewrite map_size_empty|].
  destruct (first_key_in _ m Hne) as [e He]. rewrite map_size_delete, He. simpl. lia.
Qed.

Lemma Add_ok s h sig pk : cache_ok s → Verify pk h sig = true → cache_ok (Add s h sig pk).
Proof using Hord.
  intros [Hv Hsz] Hver. unfold Add. destruct (Z.eqb_spec (maxEntries s) 0); [by split|].
  set (m := if _ >? _ then _ else _).
  assert (∀ k e, m !! k = Some e → validSigs s !! k = Some e) as Hsub.
  { intros k e. unfold m. destruct (_ >? _); [apply evict_subset|done]. }
  split; simpl.
  - intros k e [[<- <-]|[Hk He]]%lookup_insert_Some; [done|]. by apply Hv, Hsub.
  - split; [|lia]. assert (Z.of_nat (size m) + 1 ≤ maxEntries s) as Hm.
    { unfold m. rewrite GoInt.uint64_id, Z.gtb_ltb by lia.
      destruct (Z.ltb_spec (maxEntries s) (Z.of_nat (size (validSigs s)) + 1)); [|lia].
      rewrite evict_size. lia. }
    rewrite map_size_insert. destruct (m !! h); simpl; lia.
Qed.
End CacheOk.
