(* ===== verification/Opcode.v ===== *)
(** * The script engine's state and opcode handlers (engine.go, opcode.go)

    [Engine] is the struct of engine.go, and each [opcodeXxx] function of
    opcode.go is a program over it.  [run_handler] gives the [handler] named in
    the opcode table its function.

    The libraries the engine calls are arguments: hashes (Hashing.v), the two
    signature schemes and the order of map iteration (SigCache.v), bundled in
    the class [Libs].  [int] values (numOps, the counters of
    OP_CHECKMULTISIG) stay far below their 64 bits and are unbounded here. *)
From S2P Require Import Prelude Externalapi ScriptNum ScriptStack OpcodeTable Script Hashing SigCache.
Import Op ScriptNum Stack Script SigHash SigCache.
Local Open Scope Z_scope.
Local Open Scope prog_scope.

Class Libs := {
  libs_hashes :: Hashes;
  SchnorrSignature : Type;
  SchnorrPublicKey : Type;
  schnorr :: SigAlgorithm SchnorrSignature SchnorrPublicKey;
  ECDSASignature : Type;
  ECDSAPublicKey : Type;
  ecdsa :: SigAlgorithm ECDSASignature ECDSAPublicKey;
  map_order :: MapOrder
}.

Class LibsOk `{Libs} : Prop := {
  hashes_ok :: HashesOk;
  schnorr_ok :: SigAlgorithmOk SchnorrSignature SchnorrPublicKey;
  ecdsa_ok :: SigAlgorithmOk ECDSASignature ECDSAPublicKey;
  map_order_ok :: MapOrderOk
}.

(** ** Constants *)
Definition ScriptNoFlags : Z := 0.
(** [1 << iota], the second constant of its block *)
Definition ScriptDiscourageUpgradableNops : Z := 2.
Definition MaxStackSize : Z := 244.
Definition MaxScriptSize : Z := 10000.
Definition LockTimeThreshold : Z := 500000000.
Definition MaxScriptPublicKeyVersion : Z := 0.
Definition MaxTxInSequenceNum : Z := 18446744073709551615.
Definition SequenceLockTimeDisabled : Z := 2147483648.
Definition SequenceLockTimeIsSeconds : Z := 4194304.
Definition SequenceLockTimeMask : Z := 65535.

Module Opcode.
Section Handlers.
Context `{Libs}.

Record Engine := {
  vm_scriptVersion : Z;
  vm_scripts : list (list parsedOpcode);
  vm_scriptIdx : Z;
  vm_scriptOff : Z;
  vm_dstack : stack;
  vm_astack : stack;
  vm_tx : DomainTransaction;
  vm_txIdx : Z;
  vm_condStack : list Z;
  vm_numOps : Z;
  vm_flags : Z;
  vm_sigCache : option (SigCache SchnorrSignature SchnorrPublicKey);
  vm_sigCacheECDSA : option (SigCache ECDSASignature ECDSAPublicKey);
  vm_sigHashReusedValues : option SighashReusedValues;
  vm_isP2SH : bool;
  vm_savedFirstStack : list (list Z)
}.

Definition set_scripts (x : list (list parsedOpcode)) (vm : Engine) : Engine :=
  {| vm_scriptVersion := vm_scriptVersion vm; vm_scripts := x; vm_scriptIdx :=
     vm_scriptIdx vm; vm_scriptOff := vm_scriptOff vm; vm_dstack := vm_dstack vm;
     vm_astack := vm_astack vm; vm_tx := vm_tx vm; vm_txIdx := vm_txIdx vm; vm_condStack
     := vm_condStack vm; vm_numOps := vm_numOps vm; vm_flags := vm_flags vm; vm_sigCache
     := vm_sigCache vm; vm_sigCacheECDSA := vm_sigCacheECDSA vm; vm_sigHashReusedValues :=
     vm_sigHashReusedValues vm; vm_isP2SH := vm_isP2SH vm; vm_savedFirstStack :=
     vm_savedFirstStack vm |}.

Definition set_scriptIdx (x : Z) (vm : Engine) : Engine :=
  {| vm_scriptVersion := vm_scriptVersion vm; vm_scripts := vm_scripts vm; vm_scriptIdx :=
     x; vm_scriptOff := vm_scriptOff vm; vm_dstack := vm_dstack vm; vm_astack := vm_astack
     vm; vm_tx := vm_tx vm; vm_txIdx := vm_txIdx vm; vm_condStack := vm_condStack vm;
     vm_numOps := vm_numOps vm; vm_flags := vm_flags vm; vm_sigCache := vm_sigCache vm;
     vm_sigCacheECDSA := vm_sigCacheECDSA vm; vm_sigHashReusedValues :=
     vm_sigHashReusedValues vm; vm_isP2SH := vm_isP2SH vm; vm_savedFirstStack :=
     vm_savedFirstStack vm |}.

Definition set_scriptOff (x : Z) (vm : Engine) : Engine :=
  {| vm_scriptVersion := vm_scriptVersion vm; vm_scripts := vm_scripts vm; vm_scriptIdx :=
     vm_scriptIdx vm; vm_scriptOff := x; vm_dstack := vm_dstack vm; vm_astack := vm_astack
     vm; vm_tx := vm_tx vm; vm_txIdx := vm_txIdx vm; vm_condStack := vm_condStack vm;
     vm_numOps := vm_numOps vm; vm_flags := vm_flags vm; vm_sigCache := vm_sigCache vm;
     vm_sigCacheECDSA := vm_sigCacheECDSA vm; vm_sigHashReusedValues :=
     vm_sigHashReusedValues vm; vm_isP2SH := vm_isP2SH vm; vm_savedFirstStack :=
     vm_savedFirstStack vm |}.

Definition set_dstack (x : stack) (vm : Engine) : Engine :=
  {| vm_scriptVersion := vm_scriptVersion vm; vm_scripts := vm_scripts vm; vm_scriptIdx :=
     vm_scriptIdx vm; vm_scriptOff := vm_scriptOff vm; vm_dstack := x; vm_astack :=
     vm_astack vm; vm_tx := vm_tx vm; vm_txIdx := vm_txIdx vm; vm_condStack :=
     vm_condStack vm; vm_numOps := vm_numOps vm; vm_flags := vm_flags vm; vm_sigCache :=
     vm_sigCache vm; vm_sigCacheECDSA := vm_sigCacheECDSA vm; vm_sigHashReusedValues :=
     vm_sigHashReusedValues vm; vm_isP2SH := vm_isP2SH vm; vm_savedFirstStack :=
     vm_savedFirstStack vm |}.

Definition set_astack (x : stack) (vm : Engine) : Engine :=
  {| vm_scriptVersion := vm_scriptVersion vm; vm_scripts := vm_scripts vm; vm_scriptIdx :=
     vm_scriptIdx vm; vm_scriptOff := vm_scriptOff vm; vm_dstack := vm_dstack vm;
     vm_astack := x; vm_tx := vm_tx vm; vm_txIdx := vm_txIdx vm; vm_condStack :=
     vm_condStack vm; vm_numOps := vm_numOps vm; vm_flags := vm_flags vm; vm_sigCache :=
     vm_sigCache vm; vm_sigCacheECDSA := vm_sigCacheECDSA vm; vm_sigHashReusedValues :=
     vm_sigHashReusedValues vm; vm_isP2SH := vm_isP2SH vm; vm_savedFirstStack :=
     vm_savedFirstStack vm |}.

Definition set_condStack (x : list Z) (vm : Engine) : Engine :=
  {| vm_scriptVersion := vm_scriptVersion vm; vm_scripts := vm_scripts vm; vm_scriptIdx :=
     vm_scriptIdx vm; vm_scriptOff := vm_scriptOff vm; vm_dstack := vm_dstack vm;
     vm_astack := vm_astack vm; vm_tx := vm_tx vm; vm_txIdx := vm_txIdx vm; vm_condStack
     := x; vm_numOps := vm_numOps vm; vm_flags := vm_flags vm; vm_sigCache := vm_sigCache
     vm; vm_sigCacheECDSA := vm_sigCacheECDSA vm; vm_sigHashReusedValues :=
     vm_sigHashReusedValues vm; vm_isP2SH := vm_isP2SH vm; vm_savedFirstStack :=
     vm_savedFirstStack vm |}.

Definition set_numOps (x : Z) (vm : Engine) : Engine :=
  {| vm_scriptVersion := vm_scriptVersion vm; vm_scripts := vm_scripts vm; vm_scriptIdx :=
     vm_scriptIdx vm; vm_scriptOff := vm_scriptOff vm; vm_dstack := vm_dstack vm;
     vm_astack := vm_astack vm; vm_tx := vm_tx vm; vm_txIdx := vm_txIdx vm; vm_condStack
     := vm_condStack vm; vm_numOps := x; vm_flags := vm_flags vm; vm_sigCache :=
     vm_sigCache vm; vm_sigCacheECDSA := vm_sigCacheECDSA vm; vm_sigHashReusedValues :=
     vm_sigHashReusedValues vm; vm_isP2SH := vm_isP2SH vm; vm_savedFirstStack :=
     vm_savedFirstStack vm |}.

Definition set_sigCache (x : option (SigCache SchnorrSignature SchnorrPublicKey)) (vm : Engine) : Engine :=
  {| vm_scriptVersion := vm_scriptVersion vm; vm_scripts := vm_scripts vm; vm_scriptIdx :=
     vm_scriptIdx vm; vm_scriptOff := vm_scriptOff vm; vm_dstack := vm_dstack vm;
     vm_astack := vm_astack vm; vm_tx := vm_tx vm; vm_txIdx := vm_txIdx vm; vm_condStack
     := vm_condStack vm; vm_numOps := vm_numOps vm; vm_flags := vm_flags vm; vm_sigCache
     := x; vm_sigCacheECDSA := vm_sigCacheECDSA vm; vm_sigHashReusedValues :=
     vm_sigHashReusedValues vm; vm_isP2SH := vm_isP2SH vm; vm_savedFirstStack :=
     vm_savedFirstStack vm |}.

Definition set_sigCacheECDSA (x : option (SigCache ECDSASignature ECDSAPublicKey)) (vm : Engine) : Engine :=
  {| vm_scriptVersion := vm_scriptVersion vm; vm_scripts := vm_scripts vm; vm_scriptIdx :=
     vm_scriptIdx vm; vm_scriptOff := vm_scriptOff vm; vm_dstack := vm_dstack vm;
     vm_astack := vm_astack vm; vm_tx := vm_tx vm; vm_txIdx := vm_txIdx vm; vm_condStack
     := vm_condStack vm; vm_numOps := vm_numOps vm; vm_flags := vm_flags vm; vm_sigCache
     := vm_sigCache vm; vm_sigCacheECDSA := x; vm_sigHashReusedValues :=
     vm_sigHashReusedValues vm; vm_isP2SH := vm_isP2SH vm; vm_savedFirstStack :=
     vm_savedFirstStack vm |}.

Definition set_sigHashReusedValues (x : option SighashReusedValues) (vm : Engine) : Engine :=
  {| vm_scriptVersion := vm_scriptVersion vm; vm_scripts := vm_scripts vm; vm_scriptIdx :=
     vm_scriptIdx vm; vm_scriptOff := vm_scriptOff vm; vm_dstack := vm_dstack vm;
     vm_astack := vm_astack vm; vm_tx := vm_tx vm; vm_txIdx := vm_txIdx vm; vm_condStack
     := vm_condStack vm; vm_numOps := vm_numOps vm; vm_flags := vm_flags vm; vm_sigCache
     := vm_sigCache vm; vm_sigCacheECDSA := vm_sigCacheECDSA vm; vm_sigHashReusedValues :=
     x; vm_isP2SH := vm_isP2SH vm; vm_savedFirstStack := vm_savedFirstStack vm |}.

Definition set_savedFirstStack (x : list (list Z)) (vm : Engine) : Engine :=
  {| vm_scriptVersion := vm_scriptVersion vm; vm_scripts := vm_scripts vm; vm_scriptIdx :=
     vm_scriptIdx vm; vm_scriptOff := vm_scriptOff vm; vm_dstack := vm_dstack vm;
     vm_astack := vm_astack vm; vm_tx := vm_tx vm; vm_txIdx := vm_txIdx vm; vm_condStack
     := vm_condStack vm; vm_numOps := vm_numOps vm; vm_flags := vm_flags vm; vm_sigCache
     := vm_sigCache vm; vm_sigCacheECDSA := vm_sigCacheECDSA vm; vm_sigHashReusedValues :=
     vm_sigHashReusedValues vm; vm_isP2SH := vm_isP2SH vm; vm_savedFirstStack := x |}.
Abbreviation engineM A := (prog Engine error A) (only parsing).

(** [vm.dstack.Method(...)], [vm.astack.Method(...)] *)
Definition on_dstack {A} (m : prog stack error A) : engineM A := zoom vm_dstack set_dstack m.
Definition on_astack {A} (m : prog stack error A) : engineM A := zoom vm_astack set_astack m.

Definition hasFlag (vm : Engine) (flag : Z) : bool := Z.land (vm_flags vm) flag =? flag.

Definition isBranchExecuting (vm : Engine) : bool :=
  match last (vm_condStack vm) with
  | None => true
  | Some c => c =? OpCondTrue
  end.

Definition checkPubKeyEncoding (pubKey : list Z) : fallible unit :=
  if zlen pubKey =? 32 then Ret () else Fail ErrPubKeyFormat.

Definition checkPubKeyEncodingECDSA (pubKey : list Z) : fallible unit :=
  if zlen pubKey =? 33 then Ret () else Fail ErrPubKeyFormat.

Definition checkSignatureLength (sig : list Z) : fallible unit :=
  if negb (zlen sig =? 64) then Fail ErrSigLength else Ret ().

Definition checkSignatureLengthECDSA (sig : list Z) : fallible unit :=
  if negb (zlen sig =? 64) then Fail ErrSigLength else Ret ().

(** ** Handlers that only fail or push *)
Definition opcodeDisabled (op : parsedOpcode) : engineM unit := fail ErrDisabledOpcode.
Definition opcodeReserved (op : parsedOpcode) : engineM unit := fail ErrReservedOpcode.
Definition opcodeInvalid (op : parsedOpcode) : engineM unit := fail ErrReservedOpcode.
Definition opcodeFalse (op : parsedOpcode) : engineM unit := on_dstack (PushByteArray []).
Definition opcodePushData (op : parsedOpcode) : engineM unit :=
  on_dstack (PushByteArray (pop_data op)).
Definition opcode1Negate (op : parsedOpcode) : engineM unit := on_dstack (PushInt (-1)).
Definition opcodeN (op : parsedOpcode) : engineM unit :=
  on_dstack (PushInt (GoInt.uint8 (pop_value op - (Op1 - 1)))).

Definition opcodeNop (op : parsedOpcode) : engineM unit :=
  if isUpgradableNop op then
    let* vm := get in
    if hasFlag vm ScriptDiscourageUpgradableNops then fail ErrDiscourageUpgradableNOPs
    else ret ()
  else ret ().

(** ** Conditionals *)
Definition popIfBool : engineM bool :=
  let* so := on_dstack PopByteArray in
  if bool_decide (so = [1]) then ret true
  else if zlen so =? 0 then ret false
  else fail ErrMinimalIf.

Definition push_cond (condVal : Z) : engineM unit :=
  modify (λ vm, set_condStack (vm_condStack vm ++ [condVal]) vm).

Definition opcodeIf (op : parsedOpcode) : engineM unit :=
  let* vm := get in
  let* condVal :=
    (if isBranchExecuting vm then
       let* ok := popIfBool in
       ret (if ok : bool then OpCondTrue else OpCondFalse)
     else ret OpCondSkip) in
  push_cond condVal.

Definition opcodeNotIf (op : parsedOpcode) : engineM unit :=
  let* vm := get in
  let* condVal :=
    (if isBranchExecuting vm then
       let* ok := popIfBool in
       ret (if negb ok then OpCondTrue else OpCondFalse)
     else ret OpCondSkip) in
  push_cond condVal.

Definition opcodeElse (op : parsedOpcode) : engineM unit :=
  let* condStack := gets vm_condStack in
  if zlen condStack =? 0 then fail ErrUnbalancedConditional
  else
    let conditionalIdx := zlen condStack - 1 in
    let* c := lift_outcome (index condStack conditionalIdx) in
    if c =? OpCondTrue then
      modify (set_condStack (<[Z.to_nat conditionalIdx := OpCondFalse]> condStack))
    else if c =? OpCondFalse then
      modify (set_condStack (<[Z.to_nat conditionalIdx := OpCondTrue]> condStack))
    else ret ().

Definition opcodeEndif (op : parsedOpcode) : engineM unit :=
  let* condStack := gets vm_condStack in
  if zlen condStack =? 0 then fail ErrUnbalancedConditional
  else
    let* s := lift_outcome (slice condStack 0 (zlen condStack - 1)) in
    modify (set_condStack s).

Definition abstractVerify (op : parsedOpcode) (c : ErrorCode) : engineM unit :=
  let* verified := on_dstack PopBool in
  if negb verified then fail c else ret ().

Definition opcodeVerify (op : parsedOpcode) : engineM unit := abstractVerify op ErrVerify.
Definition opcodeReturn (op : parsedOpcode) : engineM unit := fail ErrEarlyReturn.

(** ** Lock times *)
Definition verifyLockTime (txLockTime threshold lockTime : Z) : fallible unit :=
  if negb ((txLockTime <? threshold) && (lockTime <? threshold) ||
           (txLockTime >=? threshold) && (lockTime >=? threshold))
  then Fail ErrUnsatisfiedLockTime
  else if lockTime >? txLockTime then Fail ErrUnsatisfiedLockTime
  else Ret ().

Definition opcodeCheckLockTimeVerify (op : parsedOpcode) : engineM unit :=
  let* so := on_dstack PopByteArray in
  let* lockTime := lift_outcome (makeScriptNum so 5) in
  if lockTime <? 0 then fail ErrNegativeLockTime
  else
    let* vm := get in
    lift_outcome (verifyLockTime (tx_LockTime (vm_tx vm)) LockTimeThreshold (GoInt.uint64 lockTime)) ;;*
    let* txIn := lift_outcome (index (tx_Inputs (vm_tx vm)) (vm_txIdx vm)) in
    if in_Sequence txIn =? MaxTxInSequenceNum then fail ErrUnsatisfiedLockTime
    else ret ().

Definition opcodeCheckSequenceVerify (op : parsedOpcode) : engineM unit :=
  let* so := on_dstack PopByteArray in
  let* stackSequence := lift_outcome (makeScriptNum so 5) in
  if stackSequence <? 0 then fail ErrNegativeLockTime
  else
    let sequence := GoInt.uint64 stackSequence in
    if negb (Z.land sequence SequenceLockTimeDisabled =? 0) then ret ()
    else
      let* vm := get in
      let* txIn := lift_outcome (index (tx_Inputs (vm_tx vm)) (vm_txIdx vm)) in
      let txSequence := in_Sequence txIn in
      if negb (Z.land txSequence SequenceLockTimeDisabled =? 0) then fail ErrUnsatisfiedLockTime
      else
        let lockTimeMask := Z.lor SequenceLockTimeIsSeconds SequenceLockTimeMask in
        lift_outcome (verifyLockTime (Z.land txSequence lockTimeMask) SequenceLockTimeIsSeconds
                                     (Z.land sequence lockTimeMask)).

(** ** Stack handlers *)
Definition opcodeToAltStack (op : parsedOpcode) : engineM unit :=
  let* so := on_dstack PopByteArray in
  on_astack (PushByteArray so).
Definition opcodeFromAltStack (op : parsedOpcode) : engineM unit :=
  let* so := on_astack PopByteArray in
  on_dstack (PushByteArray so).
Definition opcode2Drop (op : parsedOpcode) : engineM unit := on_dstack (DropN 2).
Definition opcode2Dup (op : parsedOpcode) : engineM unit := on_dstack (DupN 2).
Definition opcode3Dup (op : parsedOpcode) : engineM unit := on_dstack (DupN 3).
Definition opcode2Over (op : parsedOpcode) : engineM unit := on_dstack (OverN 2).
Definition opcode2Rot (op : parsedOpcode) : engineM unit := on_dstack (RotN 2).
Definition opcode2Swap (op : parsedOpcode) : engineM unit := on_dstack (SwapN 2).
Definition opcodeIfDup (op : parsedOpcode) : engineM unit :=
  on_dstack (
    let* so := PeekByteArray 0 in
    if asBool so then PushByteArray so else ret ()).
Definition opcodeDepth (op : parsedOpcode) : engineM unit :=
  on_dstack (let* d := Depth in PushInt d).
Definition opcodeDrop (op : parsedOpcode) : engineM unit := on_dstack (DropN 1).
Definition opcodeDup (op : parsedOpcode) : engineM unit := on_dstack (DupN 1).
Definition opcodeNip (op : parsedOpcode) : engineM unit := on_dstack (NipN 1).
Definition opcodeOver (op : parsedOpcode) : engineM unit := on_dstack (OverN 1).
Definition opcodePick (op : parsedOpcode) : engineM unit :=
  on_dstack (let* val := PopInt in PickN (Int32 val)).
Definition opcodeRoll (op : parsedOpcode) : engineM unit :=
  on_dstack (let* val := PopInt in RollN (Int32 val)).
Definition opcodeRot (op : parsedOpcode) : engineM unit := on_dstack (RotN 1).
Definition opcodeSwap (op : parsedOpcode) : engineM unit := on_dstack (SwapN 1).
Definition opcodeTuck (op : parsedOpcode) : engineM unit := on_dstack Tuck.
Definition opcodeSize (op : parsedOpcode) : engineM unit :=
  on_dstack (let* so := PeekByteArray 0 in PushInt (zlen so)).

Definition opcodeEqual (op : parsedOpcode) : engineM unit :=
  on_dstack (
    let* a := PopByteArray in
    let* b := PopByteArray in
    PushBool (bool_decide (a = b))).
Definition opcodeEqualVerify (op : parsedOpcode) : engineM unit :=
  opcodeEqual op ;;* abstractVerify op ErrEqualVerify.

(** ** Numeric handlers *)
Definition opcode1Add (op : parsedOpcode) : engineM unit :=
  on_dstack (let* m := PopInt in PushInt (GoInt.int64 (m + 1))).
Definition opcode1Sub (op : parsedOpcode) : engineM unit :=
  on_dstack (let* m := PopInt in PushInt (GoInt.int64 (m - 1))).
Definition opcodeNegate (op : parsedOpcode) : engineM unit :=
  on_dstack (let* m := PopInt in PushInt (GoInt.int64 (- m))).
Definition opcodeAbs (op : parsedOpcode) : engineM unit :=
  on_dstack (let* m := PopInt in PushInt (if m <? 0 then GoInt.int64 (- m) else m)).
Definition opcodeNot (op : parsedOpcode) : engineM unit :=
  on_dstack (let* m := PopInt in if m =? 0 then PushInt 1 else PushInt 0).
Definition opcode0NotEqual (op : parsedOpcode) : engineM unit :=
  on_dstack (let* m := PopInt in PushInt (if negb (m =? 0) then 1 else m)).
Definition opcodeAdd (op : parsedOpcode) : engineM unit :=
  on_dstack (let* v0 := PopInt in let* v1 := PopInt in PushInt (GoInt.int64 (v0 + v1))).
Definition opcodeSub (op : parsedOpcode) : engineM unit :=
  on_dstack (let* v0 := PopInt in let* v1 := PopInt in PushInt (GoInt.int64 (v1 - v0))).
Definition opcodeBoolAnd (op : parsedOpcode) : engineM unit :=
  on_dstack (let* v0 := PopInt in let* v1 := PopInt in
             if negb (v0 =? 0) && negb (v1 =? 0) then PushInt 1 else PushInt 0).
Definition opcodeBoolOr (op : parsedOpcode) : engineM unit :=
  on_dstack (let* v0 := PopInt in let* v1 := PopInt in
             if negb (v0 =? 0) || negb (v1 =? 0) then PushInt 1 else PushInt 0).
Definition opcodeNumEqual (op : parsedOpcode) : engineM unit :=
  on_dstack (let* v0 := PopInt in let* v1 := PopInt in
             if v0 =? v1 then PushInt 1 else PushInt 0).
Definition opcodeNumEqualVerify (op : parsedOpcode) : engineM unit :=
  opcodeNumEqual op ;;* abstractVerify op ErrNumEqualVerify.
Definition opcodeNumNotEqual (op : parsedOpcode) : engineM unit :=
  on_dstack (let* v0 := PopInt in let* v1 := PopInt in
             if negb (v0 =? v1) then PushInt 1 else PushInt 0).
Definition opcodeLessThan (op : parsedOpcode) : engineM unit :=
  on_dstack (let* v0 := PopInt in let* v1 := PopInt in
             if v1 <? v0 then PushInt 1 else PushInt 0).
Definition opcodeGreaterThan (op : parsedOpcode) : engineM unit :=
  on_dstack (let* v0 := PopInt in let* v1 := PopInt in
             if v1 >? v0 then PushInt 1 else PushInt 0).
Definition opcodeLessThanOrEqual (op : parsedOpcode) : engineM unit :=
  on_dstack (let* v0 := PopInt in let* v1 := PopInt in
             if v1 <=? v0 then PushInt 1 else PushInt 0).
Definition opcodeGreaterThanOrEqual (op : parsedOpcode) : engineM unit :=
  on_dstack (let* v0 := PopInt in let* v1 := PopInt in
             if v1 >=? v0 then PushInt 1 else PushInt 0).
Definition opcodeMin (op : parsedOpcode) : engineM unit :=
  on_dstack (let* v0 := PopInt in let* v1 := PopInt in
             if v1 <? v0 then PushInt v1 else PushInt v0).
Definition opcodeMax (op : parsedOpcode) : engineM unit :=
  on_dstack (let* v0 := PopInt in let* v1 := PopInt in
             if v1 >? v0 then PushInt v1 else PushInt v0).
Definition opcodeWithin (op : parsedOpcode) : engineM unit :=
  on_dstack (let* maxVal := PopInt in let* minVal := PopInt in let* x := PopInt in
             if (x >=? minVal) && (x <? maxVal) then PushInt 1 else PushInt 0).

(** ** Hash handlers *)
Definition opcodeSha256 (op : parsedOpcode) : engineM unit :=
  on_dstack (let* buf := PopByteArray in PushByteArray (sha256_Sum256 buf)).
Definition opcodeBlake2b (op : parsedOpcode) : engineM unit :=
  on_dstack (let* buf := PopByteArray in PushByteArray (blake2b_Sum256 buf)).

(** ** Signature handlers

    opcodeCheckSig and opcodeCheckSigECDSA, and the two multisig handlers, are
    the same code over the operations of their scheme, which [scheme] collects. *)
Record scheme (Sig PK : Type) := {
  sc_alg : SigAlgorithm Sig PK;
  sc_checkSignatureLength : list Z → fallible unit;
  sc_checkPubKeyEncoding : list Z → fallible unit;
  sc_CalculateSignatureHash :
    DomainTransaction → Z → Z → prog (option SighashReusedValues) error DomainHash;
  sc_sigCache : Engine → option (SigCache Sig PK);
  sc_set_sigCache : option (SigCache Sig PK) → Engine → Engine
}.

Definition schnorrScheme : scheme SchnorrSignature SchnorrPublicKey := {|
  sc_alg := schnorr;
  sc_checkSignatureLength := checkSignatureLength;
  sc_checkPubKeyEncoding := checkPubKeyEncoding;
  sc_CalculateSignatureHash := CalculateSignatureHashSchnorr;
  sc_sigCache := vm_sigCache;
  sc_set_sigCache := set_sigCache |}.

Definition ecdsaScheme : scheme ECDSASignature ECDSAPublicKey := {|
  sc_alg := ecdsa;
  sc_checkSignatureLength := checkSignatureLengthECDSA;
  sc_checkPubKeyEncoding := checkPubKeyEncodingECDSA;
  sc_CalculateSignatureHash := CalculateSignatureHashECDSA;
  sc_sigCache := vm_sigCacheECDSA;
  sc_set_sigCache := set_sigCacheECDSA |}.

Section Scheme.
Context {Sig PK : Type} (sc : scheme Sig PK).
#[local] Existing Instance sc_alg.

(** [CalculateSignatureHash(&vm.tx, vm.txIdx, hashType, vm.sigHashReusedValues)] *)
Definition signatureHash (hashType : Z) : engineM DomainHash :=
  let* vm := get in
  zoom vm_sigHashReusedValues set_sigHashReusedValues
    (sc_CalculateSignatureHash _ _ sc (vm_tx vm) (vm_txIdx vm) hashType).

(** The [valid] of a signature: from the cache, or by verification, which is
    then cached. *)
Definition verifySignature (secpHash : list Z) (signature : Sig) (pubKey : PK) : engineM bool :=
  let* vm := get in
  match sc_sigCache _ _ sc vm with
  | Some cache =>
      if Exists (H := sc_alg _ _ sc) cache secpHash signature pubKey then ret true
      else if Verify (SigAlgorithm := sc_alg _ _ sc) pubKey secpHash signature then
        modify (sc_set_sigCache _ _ sc (Some (Add cache secpHash signature pubKey))) ;;*
        ret true
      else ret false
  | None => ret (Verify (SigAlgorithm := sc_alg _ _ sc) pubKey secpHash signature)
  end.

(** [x, err := f(); if err != nil { push false; return nil }]: the errors of
    the signature hash, not its panics. *)
Definition try {A} (m : engineM A) (handle : engineM unit) (k : A → engineM unit) : engineM unit :=
  λ vm, match m vm with
        | (vm', Ret a) => k a vm'
        | (vm', Fail _) => handle vm'
        | (vm', Crash c) => (vm', Crash c)
        end.

Definition checkSig (op : parsedOpcode) : engineM unit :=
  let* pkBytes := on_dstack PopByteArray in
  let* fullSigBytes := on_dstack PopByteArray in
  if zlen fullSigBytes <? 1 then on_dstack (PushBool false)
  else
    let* hashType := lift_outcome (index fullSigBytes (zlen fullSigBytes - 1)) in
    let* sigBytes := lift_outcome (slice fullSigBytes 0 (zlen fullSigBytes - 1)) in
    if negb (IsStandardSigHashType hashType) then fail ErrInvalidSigHashType
    else
      lift_outcome (sc_checkSignatureLength _ _ sc sigBytes) ;;*
      lift_outcome (sc_checkPubKeyEncoding _ _ sc pkBytes) ;;*
      try (signatureHash hashType) (on_dstack (PushBool false)) (λ sigHash,
        match DeserializePubKey (SigAlgorithm := sc_alg _ _ sc) pkBytes with
        | None => on_dstack (PushBool false)
        | Some pubKey =>
            match DeserializeSignatureFromSlice (SigAlgorithm := sc_alg _ _ sc) sigBytes with
            | None => on_dstack (PushBool false)
            | Some signature =>
                let* valid := verifySignature sigHash signature pubKey in
                if negb valid && (zlen sigBytes >? 0) then fail ErrNullFail
                else on_dstack (PushBool valid)
            end
        end).

(** parsedSigInfo, parsedSigInfoECDSA *)
Record parsedSigInfo := {
  si_signature : list Z;
  si_parsedSignature : option Sig;
  si_parsed : bool
}.

(** "Only parse and check the signature encoding once": the parsed signature,
    if it parses, and the updated [sigInfo]. *)
Definition parseSigOnce (sigInfo : parsedSigInfo) (hashType : Z) (signature : list Z)
    : fallible (option Sig * parsedSigInfo) :=
  if negb (si_parsed sigInfo) then
    if negb (IsStandardSigHashType hashType) then Fail ErrInvalidSigHashType
    else
      let? _ := sc_checkSignatureLength _ _ sc signature in
      let parsedSig := DeserializeSignatureFromSlice (SigAlgorithm := sc_alg _ _ sc) signature in
      Ret (parsedSig, {| si_signature := si_signature sigInfo;
                         si_parsedSignature := parsedSig; si_parsed := true |})
  else Ret (si_parsedSignature sigInfo, sigInfo).

(** One pass over a signature that has at least one byte: is it the signature
    of [pubKey]?  ([valid], or the [continue]s as false). *)
Definition tryPubKey (sigInfo : parsedSigInfo) (pubKey : list Z) : engineM (bool * parsedSigInfo) :=
  let rawSig := si_signature sigInfo in
  let* hashType := lift_outcome (index rawSig (zlen rawSig - 1)) in
  let* signature := lift_outcome (slice rawSig 0 (zlen rawSig - 1)) in
  let* parsed := lift_outcome (parseSigOnce sigInfo hashType signature) in
  let '(parsedSig, sigInfo) := parsed in
  match parsedSig with
  | None => ret (false, sigInfo)
  | Some parsedSig =>
      lift_outcome (sc_checkPubKeyEncoding _ _ sc pubKey) ;;*
      match DeserializePubKey (SigAlgorithm := sc_alg _ _ sc) pubKey with
      | None => ret (false, sigInfo)
      | Some parsedPubKey =>
          let* sigHash := signatureHash hashType in
          let* valid := verifySignature sigHash parsedSig parsedPubKey in
          ret (valid, sigInfo)
      end
  end.

(** [for numSignatures > 0]: every round takes one from [numPubKeys], which
    starts one above the number of keys, so that many rounds are enough. *)
Fixpoint multiSigLoop (fuel : nat) (pubKeys : list (list Z)) (signatures : list parsedSigInfo)
    (numSignatures numPubKeys pubKeyIdx signatureIdx : Z) : engineM bool :=
  if numSignatures >? 0 then
    match fuel with
    | O => crash_with OutOfFuel
    | S fuel =>
        let pubKeyIdx := pubKeyIdx + 1 in
        let numPubKeys := numPubKeys - 1 in
        if numSignatures >? numPubKeys then ret false
        else
          let* sigInfo := lift_outcome (index signatures signatureIdx) in
          let* pubKey := lift_outcome (index pubKeys pubKeyIdx) in
          if zlen (si_signature sigInfo) =? 0 then
            multiSigLoop fuel pubKeys signatures numSignatures numPubKeys pubKeyIdx signatureIdx
          else
            let* tried := tryPubKey sigInfo pubKey in
            let '(valid, sigInfo) := tried in
            let signatures := <[Z.to_nat signatureIdx := sigInfo]> signatures in
            if valid : bool then
              multiSigLoop fuel pubKeys signatures (numSignatures - 1) numPubKeys pubKeyIdx
                           (signatureIdx + 1)
            else
              multiSigLoop fuel pubKeys signatures numSignatures numPubKeys pubKeyIdx signatureIdx
    end
  else ret true.

Definition newSigInfo (signature : list Z) : parsedSigInfo :=
  {| si_signature := signature; si_parsedSignature := None; si_parsed := false |}.

(** The verification loop and what follows it. *)
Definition multiSigVerify (pubKeys rawSigs : list (list Z)) (numPubKeys numSignatures : Z)
    : engineM unit :=
  let* success :=
    multiSigLoop (Z.to_nat (numPubKeys + 1)) pubKeys (map newSigInfo rawSigs) numSignatures
                 (numPubKeys + 1) (-1) 0 in
  if negb success && existsb (λ sig, zlen sig >? 0) rawSigs then fail ErrNullFail
  else on_dstack (PushBool success).

Definition checkMultiSig (op : parsedOpcode) : engineM unit :=
  let* numKeys := on_dstack PopInt in
  let numPubKeys := Int32 numKeys in
  if numPubKeys <? 0 then fail ErrInvalidPubKeyCount
  else if numPubKeys >? MaxPubKeysPerMultiSig then fail ErrInvalidPubKeyCount
  else
    modify (λ vm, set_numOps (vm_numOps vm + numPubKeys) vm) ;;*
    let* numOps := gets vm_numOps in
    if numOps >? MaxOpsPerScript then fail ErrTooManyOperations
    else
      let* pubKeys := collectM (Z.to_nat numPubKeys) (on_dstack PopByteArray) in
      let* numSigs := on_dstack PopInt in
      let numSignatures := Int32 numSigs in
      if numSignatures <? 0 then fail ErrInvalidSignatureCount
      else if numSignatures >? numPubKeys then fail ErrInvalidSignatureCount
      else
        let* rawSigs := collectM (Z.to_nat numSignatures) (on_dstack PopByteArray) in
        multiSigVerify pubKeys rawSigs numPubKeys numSignatures.
End Scheme.

Definition opcodeCheckSig (op : parsedOpcode) : engineM unit := checkSig schnorrScheme op.
Definition opcodeCheckSigECDSA (op : parsedOpcode) : engineM unit := checkSig ecdsaScheme op.
Definition opcodeCheckSigVerify (op : parsedOpcode) : engineM unit :=
  opcodeCheckSig op ;;* abstractVerify op ErrCheckSigVerify.
Definition opcodeCheckMultiSig (op : parsedOpcode) : engineM unit := checkMultiSig schnorrScheme op.
Definition opcodeCheckMultiSigECDSA (op : parsedOpcode) : engineM unit := checkMultiSig ecdsaScheme op.
Definition opcodeCheckMultiSigVerify (op : parsedOpcode) : engineM unit :=
  opcodeCheckMultiSig op ;;* abstractVerify op ErrCheckMultiSigVerify.

(** ** The functions the table names *)
Definition run_handler (h : handler) : parsedOpcode → engineM unit :=
  match h with
  | H_opcodeFalse => opcodeFalse
  | H_opcodePushData => opcodePushData
  | H_opcode1Negate => opcode1Negate
  | H_opcodeReserved => opcodeReserved
  | H_opcodeN => opcodeN
  | H_opcodeNop => opcodeNop
  | H_opcodeIf => opcodeIf
  | H_opcodeNotIf => opcodeNotIf
  | H_opcodeElse => opcodeElse
  | H_opcodeEndif => opcodeEndif
  | H_opcodeVerify => opcodeVerify
  | H_opcodeReturn => opcodeReturn
  | H_opcodeCheckLockTimeVerify => opcodeCheckLockTimeVerify
  | H_opcodeCheckSequenceVerify => opcodeCheckSequenceVerify
  | H_opcodeToAltStack => opcodeToAltStack
  | H_opcodeFromAltStack => opcodeFromAltStack
  | H_opcode2Drop => opcode2Drop
  | H_opcode2Dup => opcode2Dup
  | H_opcode3Dup => opcode3Dup
  | H_opcode2Over => opcode2Over
  | H_opcode2Rot => opcode2Rot
  | H_opcode2Swap => opcode2Swap
  | H_opcodeIfDup => opcodeIfDup
  | H_opcodeDepth => opcodeDepth
  | H_opcodeDrop => opcodeDrop
  | H_opcodeDup => opcodeDup
  | H_opcodeNip => opcodeNip
  | H_opcodeOver => opcodeOver
  | H_opcodePick => opcodePick
  | H_opcodeRoll => opcodeRoll
  | H_opcodeRot => opcodeRot
  | H_opcodeSwap => opcodeSwap
  | H_opcodeTuck => opcodeTuck
  | H_opcodeDisabled => opcodeDisabled
  | H_opcodeSize => opcodeSize
  | H_opcodeEqual => opcodeEqual
  | H_opcodeEqualVerify => opcodeEqualVerify
  | H_opcode1Add => opcode1Add
  | H_opcode1Sub => opcode1Sub
  | H_opcodeNegate => opcodeNegate
  | H_opcodeAbs => opcodeAbs
  | H_opcodeNot => opcodeNot
  | H_opcode0NotEqual => opcode0NotEqual
  | H_opcodeAdd => opcodeAdd
  | H_opcodeSub => opcodeSub
  | H_opcodeBoolAnd => opcodeBoolAnd
  | H_opcodeBoolOr => opcodeBoolOr
  | H_opcodeNumEqual => opcodeNumEqual
  | H_opcodeNumEqualVerify => opcodeNumEqualVerify
  | H_opcodeNumNotEqual => opcodeNumNotEqual
  | H_opcodeLessThan => opcodeLessThan
  | H_opcodeGreaterThan => opcodeGreaterThan
  | H_opcodeLessThanOrEqual => opcodeLessThanOrEqual
  | H_opcodeGreaterThanOrEqual => opcodeGreaterThanOrEqual
  | H_opcodeMin => opcodeMin
  | H_opcodeMax => opcodeMax
  | H_opcodeWithin => opcodeWithin
  | H_opcodeCheckMultiSigECDSA => opcodeCheckMultiSigECDSA
  | H_opcodeSha256 => opcodeSha256
  | H_opcodeBlake2b => opcodeBlake2b
  | H_opcodeCheckSigECDSA => opcodeCheckSigECDSA
  | H_opcodeCheckSig => opcodeCheckSig
  | H_opcodeCheckSigVerify => opcodeCheckSigVerify
  | H_opcodeCheckMultiSig => opcodeCheckMultiSig
  | H_opcodeCheckMultiSigVerify => opcodeCheckMultiSigVerify
  | H_opcodeInvalid => opcodeInvalid
  end.
End Handlers.
End Opcode.
Import Opcode.
