(* ===== verification/OpcodeSafety.v ===== *)
(** * Every opcode handler keeps the engine's invariant

    [run_inv B vm]: the items of both stacks are byte strings of at most
    [MaxScriptElementSize] bytes, there are at most [B] of them, the operation
    count is within [MaxOpsPerScript], the conditional stack holds condition
    values, the signature caches hold signatures that verify, and the
    transaction input exists with its UTXO entry and correct reused hashes.

    [safe B m g R]: from [run_inv B], [m] does not panic, and when it returns it
    leaves [run_inv (B + g)], the program counter, scripts and transaction
    untouched, and a result satisfying [R]. *)
From S2P Require Import Prelude Externalapi ScriptNum ScriptStack OpcodeTable Script Hashing SigCache Opcode.
Import Op ScriptNum Stack Script SigHash SigCache Opcode.
Local Open Scope Z_scope.
Local Open Scope prog_scope.

Definition item_ok (x : list Z) : Prop := are_bytes x ∧ zlen x ≤ MaxScriptElementSize.

(** ** Programs on one stack *)
Definition ssafe (N : Z) {A} (m : prog stack error A) (g : Z) (R : A → Prop) : Prop :=
  ∀ s, items_ok item_ok N s →
  wp m (λ a s', R a ∧ items_ok item_ok (N + g) s') (λ _ _, True) s.

Definition any {A} (_ : A) : Prop := True.

Lemma ssafe_bind N {A B} (m : prog stack error A) (k : A → prog stack error B) g g' h R R' :
  ssafe N m g R → (∀ a, R a → ssafe (N + g) (k a) g' R') → h = g + g' →
  ssafe N (bind m k) h R'.
Proof.
  intros Hm Hk -> s Hs. apply wp_bind. eapply wp_mono; [by apply Hm| |done].
  intros a s' [Ha Hs']. eapply wp_mono; [by apply Hk| |done].
  simpl. by rewrite Z.add_assoc.
Qed.

Lemma ssafe_ret N {A} (a : A) g (R : A → Prop) : 0 ≤ g → R a → ssafe N (ret a) g R.
Proof. intros Hg Ha s Hs. split; [done|]. eapply items_ok_mono; [done|lia]. Qed.

Lemma ssafe_fail N {A} e g (R : A → Prop) : ssafe N (fail e) g R.
Proof. intros s Hs. done. Qed.

Lemma ssafe_weaken N {A} (m : prog stack error A) g g' (R R' : A → Prop) :
  ssafe N m g R → g ≤ g' → (∀ a, R a → R' a) → ssafe N m g' R'.
Proof.
  intros Hm Hg HR s Hs. eapply wp_mono; [by apply Hm| |done].
  intros a s' [Ha Hs']. split; [by apply HR|]. eapply items_ok_mono; [done|lia].
Qed.

Lemma ssafe_grows N (m : prog stack error unit) g :
  grows m g → N + Z.max 0 g < max_depth → ssafe N m g any.
Proof.
  intros Hm HN s Hs. eapply wp_mono; [apply (Hm item_ok N); [lia|lia|done]| |done].
  intros [] s' Hs'. split; [exact I|done].
Qed.

Lemma ssafe_PopByteArray N : N < max_depth → ssafe N PopByteArray (-1) item_ok.
Proof.
  intros HN s Hs. apply (wp_PopByteArray item_ok N); [by eapply items_depth|done|].
  intros x s' Hx Hs'. split; [done|]. by replace (N + -1) with (N - 1) by lia.
Qed.

Lemma ssafe_PeekByteArray N i : N < max_depth → ssafe N (PeekByteArray i) 0 item_ok.
Proof.
  intros HN s Hs. apply (wp_PeekByteArray item_ok N); [by eapply items_depth|done|].
  intros x Hx. split; [done|]. by rewrite Z.add_0_r.
Qed.

Lemma ssafe_PushByteArray N so : item_ok so → ssafe N (PushByteArray so) 1 any.
Proof. intros Hso s Hs. apply (wp_PushByteArray item_ok N); [done..|]. intros. split; [exact I|done]. Qed.

Lemma item_ok_short x : are_bytes x → zlen x ≤ 32 → item_ok x.
Proof. intros. split; [done|]. unfold MaxScriptElementSize. lia. Qed.

Lemma ssafe_PushBool N b : ssafe N (PushBool b) 1 any.
Proof.
  apply ssafe_PushByteArray, item_ok_short; destruct b; simpl; try done.
  - apply are_bytes_cons. split; [unfold is_byte; lia|apply are_bytes_nil].
  - apply are_bytes_nil.
Qed.

Lemma ssafe_PushInt N n : Z.abs n < 2 ^ 62 → ssafe N (PushInt n) 1 any.
Proof.
  intros Hn. unfold PushInt.
  destruct (Bytes_length n 8) as (v & Hv & Hb & Hl); [lia|lia|].
  intros s Hs. rewrite Hv. unfold wp. rewrite (bind_ret_l _ _ s s v) by done.
  apply (ssafe_PushByteArray N v); [|done]. apply item_ok_short; [done|lia].
Qed.

Lemma ssafe_makeScriptNum N v L : are_bytes v → 1 ≤ L ≤ 7 →
  ssafe N (lift_outcome (makeScriptNum v L)) 0 (λ n, Z.abs n < 2 ^ (8 * L - 1)).
Proof.
  intros Hv HL s Hs. unfold wp, lift_outcome.
  destruct (makeScriptNum v L) as [n| |c] eqn:E; [|done|].
  - split; [by apply makeScriptNum_range in E as [_ ?]|]. by rewrite Z.add_0_r.
  - by apply (makeScriptNum_no_crash v L) in E; [|done|lia].
Qed.

Lemma ssafe_PopInt N : N < max_depth → ssafe N PopInt (-1) (λ n, Z.abs n < 2 ^ 31).
Proof.
  intros HN. eapply ssafe_bind; [by apply ssafe_PopByteArray|intros so [Hso _]|].
  - apply (ssafe_makeScriptNum _ so 4); [done|lia].
  - done.
Qed.

Lemma ssafe_PopBool N : N < max_depth → ssafe N PopBool (-1) any.
Proof.
  intros HN. eapply ssafe_bind; [by apply ssafe_PopByteArray|intros so Hso|].
  - by apply (ssafe_ret _ _ 0).
  - done.
Qed.

Lemma ssafe_Depth N : N < max_depth → ssafe N Depth 0 (λ d, 0 ≤ d < 2 ^ 31).
Proof.
  intros HN s Hs. split; [|by rewrite Z.add_0_r]. destruct Hs as [_ Hs]. unfold max_depth in HN.
  change (2 ^ 31) with 2147483648 in *. pose proof (zlen_nonneg s). rewrite GoInt.int32_id; lia.
Qed.

Lemma ssafe_seq N {A B} (m : prog stack error A) (k : A → prog stack error B) g h R R' :
  ssafe N m g R → (∀ a, R a → ssafe (N + g) (k a) (h - g) R') → ssafe N (bind m k) h R'.
Proof. intros Hm Hk. eapply ssafe_bind; [done..|lia]. Qed.

(** Walk through a stack program: pops, peeks, pushes, and the operations whose
    growth is known; [side] discharges the arithmetic. *)
Ltac side := unfold max_depth, any in *; simpl; try done; try lia.
Ltac num_side :=
  repeat match goal with
  | H : item_ok ?x |- context [zlen ?x] =>
      destruct H as [_ H]; unfold MaxScriptElementSize in H; pose proof (zlen_nonneg x)
  end; rewrite ?GoInt.int64_id by lia; repeat case_match; lia.
Ltac item_side := assumption || (apply item_ok_short; [apply are_bytes_nil|done]).
Ltac ssafe_leaf :=
  lazymatch goal with
  | |- ssafe _ (fail _) _ _ => apply ssafe_fail
  | |- ssafe _ (ret _) _ _ => apply ssafe_ret; side
  | |- ssafe _ (PushByteArray _) _ _ => eapply ssafe_weaken; [apply ssafe_PushByteArray; item_side|side|side]
  | |- ssafe _ (PushInt _) _ _ => eapply ssafe_weaken; [apply ssafe_PushInt; num_side|side|side]
  | |- ssafe _ (PushBool _) _ _ => eapply ssafe_weaken; [apply ssafe_PushBool|side|side]
  | |- ssafe _ (if ?b then _ else _) _ _ => destruct b eqn:?; ssafe_leaf
  | |- ssafe _ _ _ _ => eapply ssafe_weaken; [apply ssafe_grows; [by auto with lia|side]|side|side]
  end.
Ltac ssafe_step :=
  lazymatch goal with
  | |- ssafe _ (bind PopInt _) _ _ =>
      eapply ssafe_seq; [apply ssafe_PopInt; side|intros ? ?; cbv beta in *]
  | |- ssafe _ (bind PopByteArray _) _ _ =>
      eapply ssafe_seq; [apply ssafe_PopByteArray; side|intros ? ?; cbv beta in *]
  | |- ssafe _ (bind (PeekByteArray _) _) _ _ =>
      eapply ssafe_seq; [apply ssafe_PeekByteArray; side|intros ? ?; cbv beta in *]
  | |- ssafe _ (bind Depth _) _ _ =>
      eapply ssafe_seq; [apply ssafe_Depth; side|intros ? ?; cbv beta in *]
  end.
Ltac ssafe_tac := repeat ssafe_step; ssafe_leaf.

(** ** Programs on the engine *)
Definition cond_ok (c : Z) : Prop := c = OpCondFalse ∨ c = OpCondTrue ∨ c = OpCondSkip.

Section Engine.
Context `{Libs} `{!LibsOk}.
Abbreviation engineM A := (prog Engine error A) (only parsing).

Definition env_ok (vm : Engine) : Prop :=
  (∃ txIn utxo r, 0 ≤ vm_txIdx vm ∧ tx_Inputs (vm_tx vm) !! Z.to_nat (vm_txIdx vm) = Some txIn ∧
     in_UTXOEntry txIn = Some utxo ∧ vm_sigHashReusedValues vm = Some r ∧ reuse_ok (vm_tx vm) r) ∧
  (∀ c, vm_sigCache vm = Some c → cache_ok c) ∧
  (∀ c, vm_sigCacheECDSA vm = Some c → cache_ok c).

Definition run_inv (B : Z) (vm : Engine) : Prop :=
  Forall item_ok (vm_dstack vm) ∧ Forall item_ok (vm_astack vm) ∧
  zlen (vm_dstack vm) + zlen (vm_astack vm) ≤ B ∧
  0 ≤ vm_numOps vm ≤ MaxOpsPerScript ∧ Forall cond_ok (vm_condStack vm) ∧ env_ok vm.

(** What no handler writes. *)
Definition static (vm : Engine) :=
  (vm_scriptVersion vm, vm_scripts vm, vm_scriptIdx vm, vm_scriptOff vm, vm_tx vm, vm_txIdx vm,
   vm_flags vm, vm_isP2SH vm, vm_savedFirstStack vm).

Definition safe (B : Z) {A} (m : engineM A) (g : Z) (R : A → Prop) : Prop :=
  ∀ vm, run_inv B vm →
  wp m (λ a vm', R a ∧ run_inv (B + g) vm' ∧ static vm' = static vm) (λ _ _, True) vm.

Lemma run_inv_mono B B' vm : run_inv B vm → B ≤ B' → run_inv B' vm.
Proof using Type.
  intros (? & ? & Hk & ?) HB. split; [done|]. split; [done|]. split; [lia|]. done.
Qed.

Lemma safe_bind B {A C} (m : engineM A) (k : A → engineM C) g g' h R R' :
  safe B m g R → (∀ a, R a → safe (B + g) (k a) g' R') → h = g + g' → safe B (bind m k) h R'.
Proof using Type.
  intros Hm Hk -> vm Hvm. apply wp_bind. eapply wp_mono; [by apply Hm| |done].
  intros a vm' (Ha & Hvm' & Hst). eapply wp_mono; [by apply Hk| |done].
  simpl. intros c vm2 (Hc & Hvm2 & Hst2). rewrite Z.add_assoc. split; [done|]. split; [done|congruence].
Qed.

Lemma safe_ret B {A} (a : A) g (R : A → Prop) : 0 ≤ g → R a → safe B (ret a) g R.
Proof using Type. intros Hg Ha vm Hvm. split; [done|]. split; [|done]. eapply run_inv_mono; [done|lia]. Qed.

Lemma safe_fail B {A} e g (R : A → Prop) : safe B (fail e) g R.
Proof using Type. intros vm Hvm. done. Qed.

Lemma safe_weaken B {A} (m : engineM A) g g' (R R' : A → Prop) :
  safe B m g R → g ≤ g' → (∀ a, R a → R' a) → safe B m g' R'.
Proof using Type.
  intros Hm Hg HR vm Hvm. eapply wp_mono; [by apply Hm| |done].
  intros a vm' (Ha & Hvm' & Hst). split; [by apply HR|]. split; [|done].
  eapply run_inv_mono; [done|lia].
Qed.

Lemma safe_gets B {A} (f : Engine → A) (R : A → Prop) :
  (∀ vm, run_inv B vm → R (f vm)) → safe B (gets f) 0 R.
Proof using Type. intros HR vm Hvm. split; [by apply HR|]. by rewrite Z.add_0_r. Qed.

Lemma safe_get B (R : Engine → Prop) : (∀ vm, run_inv B vm → R vm) → safe B get 0 R.
Proof using Type. intros HR vm Hvm. split; [by apply HR|]. by rewrite Z.add_0_r. Qed.

Lemma safe_lift B {A} (o : outcome error A) (R : A → Prop) :
  (∀ a, o = Ret a → R a) → (∀ c, o ≠ Crash c) → safe B (lift_outcome o) 0 R.
Proof using Type.
  intros HR Hc vm Hvm. unfold wp, lift_outcome. destruct o as [a|e|c]; [|done|by destruct (Hc c)].
  split; [by apply HR|]. by rewrite Z.add_0_r.
Qed.

Lemma safe_modify B (f : Engine → Engine) g :
  (∀ vm, run_inv B vm → run_inv (B + g) (f vm) ∧ static (f vm) = static vm) →
  safe B (modify f) g any.
Proof using Type. intros Hf vm Hvm. split; [exact I|]. by apply Hf. Qed.

Lemma safe_dstack B {A} (m : prog stack error A) g R :
  (∀ N, 0 ≤ N ≤ B → ssafe N m g R) → safe B (on_dstack m) g R.
Proof using Type.
  intros Hm vm (Hd & Ha & HB & Hn & Hc & He). apply wp_zoom.
  pose proof (zlen_nonneg (vm_dstack vm)). pose proof (zlen_nonneg (vm_astack vm)).
  pose proof (Hm (zlen (vm_dstack vm)) ltac:(lia) (vm_dstack vm) (conj Hd (Z.le_refl _))) as Hwp.
  unfold wp in Hwp. destruct (m (vm_dstack vm)) as [s' [a|e|c]]; [|done|done].
  destruct Hwp as (HR & Hs' & Hl). split; [done|]. split; [|done].
  split; [done|]. split; [done|]. split; [simpl; lia|]. done.
Qed.

Lemma safe_astack B {A} (m : prog stack error A) g R :
  (∀ N, 0 ≤ N ≤ B → ssafe N m g R) → safe B (on_astack m) g R.
Proof using Type.
  intros Hm vm (Hd & Ha & HB & Hn & Hc & He). apply wp_zoom.
  pose proof (zlen_nonneg (vm_dstack vm)). pose proof (zlen_nonneg (vm_astack vm)).
  pose proof (Hm (zlen (vm_astack vm)) ltac:(lia) (vm_astack vm) (conj Ha (Z.le_refl _))) as Hwp.
  unfold wp in Hwp. destruct (m (vm_astack vm)) as [s' [a|e|c]]; [|done|done].
  destruct Hwp as (HR & Hs' & Hl). split; [done|]. split; [|done].
  split; [done|]. split; [done|]. split; [simpl; lia|]. done.
Qed.

Lemma safe_seq B {A C} (m : engineM A) (k : A → engineM C) g h R R' :
  safe B m g R → (∀ a, R a → safe (B + g) (k a) (h - g) R') → safe B (bind m k) h R'.
Proof using Type. intros Hm Hk. eapply safe_bind; [done..|lia]. Qed.

(** ** The handlers that work on the data stack only *)
Lemma safe_push B x : item_ok x → safe B (on_dstack (PushByteArray x)) 1 any.
Proof using Type. intros Hx. apply safe_dstack. intros N HN. by apply ssafe_PushByteArray. Qed.

Lemma safe_pushBool B b : safe B (on_dstack (PushBool b)) 1 any.
Proof using Type. apply safe_dstack. intros N HN. apply ssafe_PushBool. Qed.

Lemma safe_pop B : B < max_depth → safe B (on_dstack PopByteArray) (-1) item_ok.
Proof using Type. intros. apply safe_dstack. intros N HN. apply ssafe_PopByteArray. lia. Qed.

Lemma safe_popInt B : B < max_depth → safe B (on_dstack PopInt) (-1) (λ n, Z.abs n < 2 ^ 31).
Proof using Type. intros. apply safe_dstack. intros N HN. apply ssafe_PopInt. lia. Qed.

Lemma digest_item h : digest_ok h → item_ok h.
Proof using Type. intros [? ?]. apply item_ok_short; [done|lia]. Qed.

Definition dstack_handlers : list handler :=
  [H_opcodeFalse; H_opcode1Negate; H_opcode2Drop; H_opcode2Dup; H_opcode3Dup; H_opcode2Over;
   H_opcode2Rot; H_opcode2Swap; H_opcodeIfDup; H_opcodeDepth; H_opcodeDrop; H_opcodeDup; H_opcodeNip;
   H_opcodeOver; H_opcodePick; H_opcodeRoll; H_opcodeRot; H_opcodeSwap; H_opcodeTuck; H_opcodeSize;
   H_opcodeEqual; H_opcode1Add; H_opcode1Sub; H_opcodeNegate; H_opcodeAbs; H_opcodeNot;
   H_opcode0NotEqual; H_opcodeAdd; H_opcodeSub; H_opcodeBoolAnd; H_opcodeBoolOr; H_opcodeNumEqual;
   H_opcodeNumNotEqual; H_opcodeLessThan; H_opcodeGreaterThan; H_opcodeLessThanOrEqual;
   H_opcodeGreaterThanOrEqual; H_opcodeMin; H_opcodeMax; H_opcodeWithin].

Ltac in_list :=
  unfold dstack_handlers; repeat first [apply list_elem_of_here|apply list_elem_of_further].

Lemma safe_dstack_handler h pop B : h ∈ dstack_handlers → B ≤ 1000 →
  safe B (run_handler h pop) 3 any.
Proof using Type.
  intros Hh HB. unfold dstack_handlers in Hh.
  repeat (apply elem_of_cons in Hh as [-> |Hh]); [..|by apply elem_of_nil in Hh].
  all: apply safe_dstack; intros N HN.
  all: ssafe_tac.
Qed.

(** ** Conditionals, lock times, alternate stack *)
Lemma run_inv_condStack B vm c :
  run_inv B vm → Forall cond_ok c →
  run_inv (B + 0) (set_condStack c vm) ∧ static (set_condStack c vm) = static vm.
Proof using Type.
  rewrite Z.add_0_r. intros (? & ? & ? & ? & _ & ?) Hc. split; [|done]. by repeat (split; [done|]).
Qed.

Lemma safe_popIfBool B : B < max_depth → safe B popIfBool (-1) any.
Proof using Type.
  intros HB. eapply safe_seq; [by apply safe_pop|]. intros so Hso.
  destruct (bool_decide _); [by apply safe_ret|]. destruct (_ =? _); [by apply safe_ret|apply safe_fail].
Qed.

Lemma safe_push_cond B c : cond_ok c → safe B (push_cond c) 0 any.
Proof using Type.
  intros Hc. apply safe_modify. intros vm Hvm. apply run_inv_condStack; [done|].
  apply Forall_app. split; [apply Hvm|by constructor].
Qed.

Lemma safe_branch B (f : bool → Z) : B < max_depth → (∀ b, cond_ok (f b)) →
  safe B (let* vm := get in
          let* condVal :=
            (if isBranchExecuting vm then let* ok := popIfBool in ret (f ok) else ret OpCondSkip) in
          push_cond condVal) 0 any.
Proof using Type.
  intros HB Hf. eapply (safe_seq _ _ _ 0 _ any); [by apply safe_get|]. intros vm _.
  rewrite Z.add_0_r. eapply (safe_seq _ _ _ 0 _ cond_ok).
  - destruct (isBranchExecuting vm).
    + eapply safe_seq; [by apply safe_popIfBool|]. intros ok _. apply safe_ret; [lia|apply Hf].
    + apply safe_ret; [lia|]. right. by right.
  - intros c Hc. by apply safe_push_cond.
Qed.

Lemma safe_opcodeElse B op : safe B (opcodeElse op) 0 any.
Proof using Type.
  intros vm Hvm. unfold opcodeElse. apply wp_bind, wp_gets.
  destruct (Z.eqb_spec (zlen (vm_condStack vm)) 0) as [|Hne]; [done|].
  pose proof (zlen_nonneg (vm_condStack vm)).
  destruct (@index_in_range error _ (vm_condStack vm) (zlen (vm_condStack vm) - 1)) as (c & Hc & Hl); [lia|].
  unfold wp. rewrite (bind_ret_l _ _ vm vm c) by (unfold lift_outcome; by rewrite Hc).
  assert (∀ c', cond_ok c' →
    run_inv (B + 0) (set_condStack (<[Z.to_nat (zlen (vm_condStack vm) - 1):=c']> (vm_condStack vm)) vm)
    ∧ static (set_condStack (<[Z.to_nat (zlen (vm_condStack vm) - 1):=c']> (vm_condStack vm)) vm)
      = static vm) as Hset.
  { intros c' Hc'. apply run_inv_condStack; [done|]. apply Forall_insert; [apply Hvm|done]. }
  destruct (c =? OpCondTrue); [split; [exact I|]; apply Hset; by left|].
  destruct (c =? OpCondFalse); [split; [exact I|]; apply Hset; right; by left|].
  split; [exact I|]. by rewrite Z.add_0_r.
Qed.

Lemma safe_opcodeEndif B op : safe B (opcodeEndif op) 0 any.
Proof using Type.
  intros vm Hvm. unfold opcodeEndif. apply wp_bind, wp_gets.
  destruct (Z.eqb_spec (zlen (vm_condStack vm)) 0) as [|Hne]; [done|].
  pose proof (zlen_nonneg (vm_condStack vm)). unfold slice. rewrite decide_True by lia.
  unfold wp. simpl. split; [exact I|]. apply run_inv_condStack; [done|].
  apply Forall_take, Forall_drop, Hvm.
Qed.

Lemma safe_abstractVerify B op c : B < max_depth → safe B (abstractVerify op c) (-1) any.
Proof using Type.
  intros HB. eapply (safe_seq _ _ _ (-1) _ any).
  - apply safe_dstack. intros N HN. apply ssafe_PopBool. lia.
  - intros b _. destruct b; [by apply safe_ret|apply safe_fail].
Qed.

Lemma verifyLockTime_no_crash a b c k : verifyLockTime a b c ≠ Crash k.
Proof using Type. unfold verifyLockTime. by repeat case_match. Qed.

Lemma safe_txIn B : safe B (let* vm := get in lift_outcome (index (tx_Inputs (vm_tx vm)) (vm_txIdx vm))) 0 any.
Proof using Type.
  intros vm Hvm. unfold wp. simpl.
  pose proof Hvm as (_ & _ & _ & _ & _ & (txIn & utxo & r & Hi & Hl & _) & _).
  unfold lift_outcome, index. rewrite decide_True, Hl by lia. rewrite Z.add_0_r. done.
Qed.

Lemma safe_makeScriptNum B so : are_bytes so →
  safe B (lift_outcome (makeScriptNum so 5)) 0 (λ n, Z.abs n < 2 ^ 39).
Proof using Type.
  intros Hso. apply safe_lift.
  - intros n Hn. apply makeScriptNum_range in Hn as [_ Hn]; [exact Hn|done|lia].
  - apply makeScriptNum_no_crash; [done|lia].
Qed.

Lemma safe_CLTV B op : B < max_depth → safe B (opcodeCheckLockTimeVerify op) (-1) any.
Proof using Type.
  intros HB. eapply safe_seq; [by apply safe_pop|]. intros so [Hso _].
  eapply safe_seq; [by apply safe_makeScriptNum|]. intros n Hn.
  destruct (n <? 0); [apply safe_fail|].
  intros vm Hvm. apply wp_bind, wp_get.
  pose proof (safe_txIn _ vm Hvm) as Hin. unfold wp in Hin. simpl in Hin.
  apply wp_bind. unfold lift_outcome at 1. unfold wp at 1.
  destruct (verifyLockTime _ _ _) eqn:E; [|done|by apply verifyLockTime_no_crash in E].
  apply wp_bind. unfold wp, lift_outcome in *.
  destruct (index _ _); [|done|done]. destruct (_ =? _); [done|].
  split; [exact I|]. destruct Hin as (_ & Hinv & _). split; [|done].
  eapply run_inv_mono; [exact Hinv|lia].
Qed.

Lemma safe_CSV B op : B < max_depth → safe B (opcodeCheckSequenceVerify op) (-1) any.
Proof using Type.
  intros HB. eapply safe_seq; [by apply safe_pop|]. intros so [Hso _].
  eapply safe_seq; [by apply safe_makeScriptNum|]. intros n Hn.
  destruct (n <? 0); [apply safe_fail|]. cbv zeta.
  destruct (negb _); [by apply safe_ret|].
  intros vm Hvm. apply wp_bind, wp_get.
  pose proof (safe_txIn _ vm Hvm) as Hin. unfold wp in Hin. simpl in Hin.
  apply wp_bind. unfold wp, lift_outcome in *.
  destruct (index _ _); [|done|done]. destruct (negb _); [done|].
  destruct (verifyLockTime _ _ _) eqn:E; [|done|by apply verifyLockTime_no_crash in E].
  split; [exact I|]. destruct Hin as (_ & Hinv & _). split; [|done].
  eapply run_inv_mono; [exact Hinv|lia].
Qed.

Lemma safe_toAlt B op : B < max_depth → safe B (opcodeToAltStack op) 0 any.
Proof using Type.
  intros HB. eapply safe_seq; [by apply safe_pop|]. intros so Hso. apply safe_astack.
  intros N HN. by apply ssafe_PushByteArray.
Qed.

Lemma safe_fromAlt B op : B < max_depth → safe B (opcodeFromAltStack op) 0 any.
Proof using Type.
  intros HB. eapply (safe_seq _ _ _ (-1) _ item_ok).
  - apply safe_astack. intros N HN. apply ssafe_PopByteArray. lia.
  - intros so Hso. by apply safe_push.
Qed.

(** ** Signature checks

    The obligations of a scheme, discharged below by [schnorrScheme] and
    [ecdsaScheme]. *)
Record scheme_ok {Sig PK} (sc : scheme Sig PK) : Prop := {
  so_len s c : sc_checkSignatureLength _ _ sc s ≠ Crash c;
  so_pk p c : sc_checkPubKeyEncoding _ _ sc p ≠ Crash c;
  so_hash tx idx ht txIn utxo r :
    IsStandardSigHashType ht = true → 0 ≤ idx → tx_Inputs tx !! Z.to_nat idx = Some txIn →
    in_UTXOEntry txIn = Some utxo → reuse_ok tx r →
    ∃ r' h, sc_CalculateSignatureHash _ _ sc tx idx ht (Some r) = (Some r', Ret h) ∧ reuse_ok tx r';
  so_hash_fail tx idx ht r :
    IsStandardSigHashType ht = false →
    sc_CalculateSignatureHash _ _ sc tx idx ht r = (r, Fail foreignError);
  so_alg : @SigAlgorithmOk Sig PK (sc_alg _ _ sc);
  so_cache B vm c :
    run_inv B vm → sc_sigCache _ _ sc vm = Some c → @cache_ok Sig PK (sc_alg _ _ sc) c;
  so_set B vm c :
    run_inv B vm → @cache_ok Sig PK (sc_alg _ _ sc) c →
    run_inv B (sc_set_sigCache _ _ sc (Some c) vm) ∧
    static (sc_set_sigCache _ _ sc (Some c) vm) = static vm
}.

Lemma schnorrScheme_ok : scheme_ok schnorrScheme.
Proof using All.
  split; simpl.
  - intros s c. unfold checkSignatureLength. by case_match.
  - intros p c. unfold checkPubKeyEncoding. by case_match.
  - intros tx idx ht txIn utxo r Hst Hi Hl Hu Hr.
    destruct (CalculateSignatureHashSchnorr_spec tx idx ht txIn utxo r) as (r' & -> & Hr'); [done..|]. eauto.
  - intros tx idx ht r Hst. unfold CalculateSignatureHashSchnorr. by rewrite Hst.
  - apply schnorr_ok.
  - intros B vm c (_ & _ & _ & _ & _ & _ & Hc & _). apply Hc.
  - intros B vm c (? & ? & ? & ? & ? & He & _ & ?) Hc. split; [|done].
    repeat (split; [done|]). split; [|done]. by intros c' [= <-].
Qed.

Lemma ecdsaScheme_ok : scheme_ok ecdsaScheme.
Proof using All.
  split; simpl.
  - intros s c. unfold checkSignatureLengthECDSA. by case_match.
  - intros p c. unfold checkPubKeyEncodingECDSA. by case_match.
  - intros tx idx ht txIn utxo r Hst Hi Hl Hu Hr.
    destruct (CalculateSignatureHashECDSA_spec tx idx ht txIn utxo r) as (r' & -> & Hr'); [done..|]. eauto.
  - intros tx idx ht r Hst. unfold CalculateSignatureHashECDSA, CalculateSignatureHashSchnorr, bind.
    by rewrite Hst.
  - apply ecdsa_ok.
  - intros B vm c (_ & _ & _ & _ & _ & _ & _ & Hc). apply Hc.
  - intros B vm c (? & ? & ? & ? & ? & He & ? & _) Hc. split; [|done].
    repeat (split; [done|]). by intros c' [= <-].
Qed.

Section SchemeSafety.
Context {Sig PK : Type} (sc : scheme Sig PK) (Hsc : scheme_ok sc).

(** With a standard hash type the signature hash is computed; with another it
    is an error. *)
Lemma wp_signatureHash B ht vm (Q : DomainHash → Engine → Prop) :
  run_inv B vm → IsStandardSigHashType ht = true →
  (∀ h vm', run_inv B vm' → static vm' = static vm → Q h vm') →
  wp (signatureHash sc ht) Q (λ _ _, False) vm.
Proof using Hsc.
  intros (Hd & Ha & HB & Hn & Hc & (txIn & utxo & r & Hi & Hl & Hu & Hr & Hrok) & Hcaches) Hst HQ.
  unfold signatureHash. apply wp_bind, wp_get, wp_zoom. rewrite Hr.
  destruct (so_hash sc Hsc (vm_tx vm) (vm_txIdx vm) ht txIn utxo r) as (r' & h & -> & Hr'); [done..|].
  apply HQ; [|done]. repeat (split; [done|]). split; [|done]. exists txIn, utxo, r'. done.
Qed.

Lemma safe_signatureHash B ht : safe B (signatureHash sc ht) 0 any.
Proof using Hsc.
  intros vm Hvm. destruct (IsStandardSigHashType ht) eqn:Hst.
  - eapply wp_mono;
      [exact (wp_signatureHash B ht vm (λ _ vm', run_inv B vm' ∧ static vm' = static vm) Hvm Hst ltac:(done))
      | |done].
    simpl. intros h vm' []. rewrite Z.add_0_r. done.
  - unfold signatureHash. apply wp_bind, wp_get, wp_zoom. by rewrite (so_hash_fail sc Hsc).
Qed.

(** Whether from the cache or not, [valid] is the verdict of the verification. *)
Lemma safe_verifySignature B h sig pk :
  safe B (verifySignature sc h sig pk) 0 (λ b, b = @Verify _ _ (sc_alg _ _ sc) pk h sig).
Proof using All.
  intros vm Hvm. unfold verifySignature. apply wp_bind, wp_get.
  destruct (sc_sigCache _ _ sc vm) as [c|] eqn:Ec.
  2:{ apply wp_ret. rewrite Z.add_0_r. done. }
  pose proof (so_cache sc Hsc B vm c Hvm Ec) as Hc.
  pose proof (so_alg sc Hsc) as Halg.
  destruct (Exists c h sig pk) eqn:Ex.
  { apply wp_ret. rewrite Z.add_0_r. split; [|done]. symmetry. by eapply Exists_sound. }
  destruct (Verify pk h sig) eqn:Ev.
  2:{ apply wp_ret. rewrite Z.add_0_r. done. }
  apply wp_bind, wp_modify, wp_ret. rewrite Z.add_0_r. split; [done|].
  apply (so_set sc Hsc B); [done|]. by apply Add_ok.
Qed.

Lemma try_bind {A} (m : engineM A) handle k vm :
  (∀ e vm', m vm ≠ (vm', Fail e)) → try m handle k vm = bind m k vm.
Proof using Type.
  intros Hm. unfold try, bind. destruct (m vm) as [vm' [a|e|c]] eqn:E; [done| |done].
  by destruct (Hm e vm').
Qed.

Lemma safe_try_signatureHash B ht handle k h : IsStandardSigHashType ht = true →
  (∀ sigHash, safe B (k sigHash) h any) → safe B (try (signatureHash sc ht) handle k) h any.
Proof using Hsc.
  intros Hst Hk vm Hvm.
  pose proof (wp_signatureHash B ht vm (λ _ _, True) Hvm Hst ltac:(done)) as Hnf.
  unfold wp. rewrite try_bind.
  2:{ intros e vm' E. unfold wp in Hnf. by rewrite E in Hnf. }
  apply wp_bind. eapply wp_mono;
    [exact (wp_signatureHash B ht vm (λ _ vm', run_inv B vm' ∧ static vm' = static vm) Hvm Hst ltac:(done))
    | |done].
  intros sigHash vm' [Hvm' Hst']. eapply wp_mono; [by apply Hk| |done].
  simpl. intros a vm2 (? & ? & ?). split; [done|]. split; [done|congruence].
Qed.

Lemma index_last_lift (l : list Z) B : l ≠ [] →
  safe B (lift_outcome (index l (zlen l - 1))) 0 any.
Proof using Type.
  intros Hl. apply safe_lift; [done|]. intros c.
  destruct (@index_in_range error _ l (zlen l - 1)) as (x & -> & _); [|done].
  destruct l; [done|]. rewrite zlen_cons. pose proof (zlen_nonneg l). lia.
Qed.

Lemma slice_init_lift (l : list Z) B : l ≠ [] →
  safe B (lift_outcome (slice l 0 (zlen l - 1))) 0 any.
Proof using Type.
  intros Hl. apply safe_lift; [done|]. intros c. unfold slice.
  destruct l; [done|]. rewrite zlen_cons. pose proof (zlen_nonneg l).
  by rewrite decide_True by lia.
Qed.

Lemma safe_checkSig B op : B < max_depth → safe B (checkSig sc op) (-1) any.
Proof using All.
  intros HB. eapply safe_seq; [by apply safe_pop|]. intros pk Hpk.
  eapply safe_seq; [apply safe_pop; lia|]. intros sig Hsig.
  destruct (Z.ltb_spec (zlen sig) 1) as [|Hlen]; [apply safe_pushBool|].
  assert (sig ≠ []) as Hne by (intros ->; change (zlen (@nil Z)) with 0 in Hlen; lia).
  eapply (safe_seq _ _ _ 0); [by apply index_last_lift|]. intros ht _.
  eapply (safe_seq _ _ _ 0); [by apply slice_init_lift|]. intros sigBytes _.
  destruct (IsStandardSigHashType ht) eqn:Hst; [|apply safe_fail]. simpl negb. cbv iota.
  eapply (safe_seq _ _ _ 0 _ any); [apply safe_lift; [done|apply Hsc]|]. intros [] _.
  eapply (safe_seq _ _ _ 0 _ any); [apply safe_lift; [done|apply Hsc]|]. intros [] _.
  apply safe_try_signatureHash; [done|]. intros sigHash.
  eapply (safe_weaken _ _ 1); [|lia|done].
  destruct (DeserializePubKey pk); [|apply safe_pushBool].
  destruct (DeserializeSignatureFromSlice sigBytes); [|apply safe_pushBool].
  eapply safe_seq; [apply safe_verifySignature|]. intros b _.
  destruct (_ && _); [apply safe_fail|apply safe_pushBool].
Qed.

Lemma parseSigOnce_no_crash info ht sig c : parseSigOnce sc info ht sig ≠ Crash c.
Proof using Hsc.
  unfold parseSigOnce. destruct (negb _); [|done]. destruct (negb _); [done|].
  destruct (sc_checkSignatureLength _ _ sc sig) eqn:E; simpl; [done|done|].
  by apply (so_len sc Hsc) in E.
Qed.

Lemma safe_tryPubKey B info pk : si_signature info ≠ [] → safe B (tryPubKey sc info pk) 0 any.
Proof using All.
  intros Hne. unfold tryPubKey. cbv zeta.
  eapply (safe_seq _ _ _ 0); [by apply index_last_lift|]. intros ht _.
  eapply (safe_seq _ _ _ 0); [by apply slice_init_lift|]. intros sig _.
  eapply (safe_seq _ _ _ 0 _ any); [apply safe_lift; [done|apply parseSigOnce_no_crash]|].
  intros [[parsedSig|] info'] _; [|by apply safe_ret].
  eapply (safe_seq _ _ _ 0 _ any); [apply safe_lift; [done|apply Hsc]|]. intros [] _.
  destruct (DeserializePubKey pk); [|by apply safe_ret].
  eapply (safe_seq _ _ _ 0); [apply safe_signatureHash|]. intros h _.
  eapply safe_seq; [apply safe_verifySignature|]. intros b _. by apply safe_ret.
Qed.

(** Rounds and indices of the loop: the keys before [pubKeyIdx] and the
    signatures before [signatureIdx] are done. *)
Lemma safe_multiSigLoop fuel : ∀ B pubKeys sigs numSigs numKeys keyIdx sigIdx,
  1 ≤ numKeys ≤ Z.of_nat fuel → -1 ≤ keyIdx → keyIdx + numKeys = zlen pubKeys →
  0 ≤ sigIdx → sigIdx + numSigs = zlen sigs →
  safe B (multiSigLoop sc fuel pubKeys sigs numSigs numKeys keyIdx sigIdx) 0 any.
Proof using All.
  induction fuel as [|fuel IH]; intros B pubKeys sigs numSigs numKeys keyIdx sigIdx Hk Hki Hkz Hs Hsz; [lia|].
  cbn [multiSigLoop]. rewrite Z.gtb_ltb. destruct (Z.ltb_spec 0 numSigs); [|by apply safe_ret].
  cbv zeta. rewrite Z.gtb_ltb. destruct (Z.ltb_spec (numKeys - 1) numSigs); [by apply safe_ret|].
  eapply (safe_seq _ _ _ 0 _ any).
  { apply safe_lift; [done|]. intros c.
    destruct (@index_in_range error _ sigs sigIdx) as (x & -> & _); [lia|done]. }
  intros info _. eapply (safe_seq _ _ _ 0 _ any).
  { apply safe_lift; [done|]. intros c.
    destruct (@index_in_range error _ pubKeys (keyIdx + 1)) as (x & -> & _); [lia|done]. }
  intros pk _. destruct (Z.eqb_spec (zlen (si_signature info)) 0) as [|Hne].
  { apply IH; lia. }
  eapply (safe_seq _ _ _ 0 _ any).
  { apply safe_tryPubKey. intros E. by rewrite E in Hne. }
  intros [[] info'] _; apply IH; try lia; unfold zlen in *; rewrite length_insert; lia.
Qed.

Lemma collectM_pops B n : B < max_depth →
  safe B (collectM n (on_dstack PopByteArray)) (- Z.of_nat n) (λ l, zlen l = Z.of_nat n).
Proof using Type.
  revert B. induction n as [|n IH]; intros B HB; [by apply safe_ret|]. cbn [collectM].
  eapply safe_seq; [by apply safe_pop|]. intros x _.
  eapply (safe_seq _ _ _ (- Z.of_nat n)); [apply IH; lia|]. intros xs Hxs.
  apply safe_ret; [lia|]. rewrite zlen_cons, Hxs. lia.
Qed.

Lemma safe_multiSigVerify B pubKeys rawSigs n m :
  0 ≤ n → zlen pubKeys = n → zlen rawSigs = m → safe B (multiSigVerify sc pubKeys rawSigs n m) 1 any.
Proof using All.
  intros Hn Hp Hr. eapply (safe_seq _ _ _ 0 _ any).
  - apply safe_multiSigLoop; try lia. unfold zlen. rewrite length_map. unfold zlen in Hr. lia.
  - intros b _. destruct (_ && _); [apply safe_fail|apply safe_pushBool].
Qed.

Lemma Int32_id n : Z.abs n < 2 ^ 31 → Int32 n = n.
Proof using Type.
  intros Hn. unfold Int32, maxInt32, minInt32. change (2 ^ 31) with 2147483648 in Hn.
  rewrite !bool_decide_false by lia. apply GoInt.int32_id. lia.
Qed.

Lemma safe_addOps B n : 0 ≤ n →
  safe B (modify (λ vm, set_numOps (vm_numOps vm + n) vm) ;;*
          let* numOps := gets vm_numOps in
          if numOps >? MaxOpsPerScript then fail ErrTooManyOperations else ret ()) 0 any.
Proof using Type.
  intros Hn vm (Hd & Ha & HB & Ho & Hr). unfold wp, bind, modify, gets.
  cbn [vm_numOps set_numOps]. rewrite Z.gtb_ltb.
  destruct (Z.ltb_spec MaxOpsPerScript (vm_numOps vm + n)); [done|].
  split; [exact I|]. split; [|done]. rewrite Z.add_0_r.
  split; [done|]. split; [done|]. split; [done|]. split; [simpl; lia|done].
Qed.

Lemma safe_checkMultiSig B op : B < max_depth → safe B (checkMultiSig sc op) 0 any.
Proof using All.
  intros HB. eapply safe_seq; [by apply safe_popInt|]. intros n Hn. cbv zeta.
  rewrite (Int32_id n) by done.
  destruct (Z.ltb_spec n 0); [apply safe_fail|]. destruct (n >? _); [apply safe_fail|].
  intros vm Hvm.
  pose proof (safe_addOps (B + -1) n ltac:(lia) vm Hvm) as Hops. 
  unfold wp, bind, modify, gets in Hops. cbn [vm_numOps set_numOps] in Hops.
  apply wp_bind, wp_modify, wp_bind, wp_gets. cbn [vm_numOps set_numOps].
  destruct (_ >? MaxOpsPerScript); [done|]. destruct Hops as (_ & Hvm' & Hst).
  rewrite Z.add_0_r in Hvm'. rewrite <- Hst.
  refine ((_ : safe (B + -1) _ (0 - -1) any) _ Hvm').
  eapply (safe_seq _ _ _ (- Z.of_nat (Z.to_nat n))); [apply collectM_pops; lia|]. intros pubKeys Hp.
  eapply safe_seq; [apply safe_popInt; lia|]. intros m Hm. cbv beta in *. cbv zeta.
  rewrite (Int32_id m) by done.
  destruct (Z.ltb_spec m 0); [apply safe_fail|]. rewrite Z.gtb_ltb.
  destruct (Z.ltb_spec n m); [apply safe_fail|].
  eapply (safe_seq _ _ _ (- Z.of_nat (Z.to_nat m))); [apply collectM_pops; lia|]. intros rawSigs Hr.
  cbv beta in *. eapply (safe_weaken _ _ 1); [apply safe_multiSigVerify; lia|lia|done].
Qed.
End SchemeSafety.

(** ** All handlers *)
Lemma safe_handler h pop B :
  B ≤ 1000 → is_byte (pop_value pop) → item_ok (pop_data pop) → safe B (run_handler h pop) 3 any.
Proof using All.
  intros HB Hv Hd. assert (B < max_depth) as Hdepth by (unfold max_depth; lia).
  destruct h; try solve [apply safe_dstack_handler; [in_list|done]].
  all: try apply safe_fail.
  - eapply safe_weaken; [by apply safe_push|lia|done].
  - apply safe_dstack. intros N HN. eapply ssafe_weaken; [apply ssafe_PushInt|lia|done].
    pose proof (GoInt.uwrap_range 8 (pop_value pop - (Op1 - 1)) ltac:(lia)) as Hu.
    unfold GoInt.in_uint in Hu. unfold GoInt.uint8. lia.
  - cbn [run_handler]. unfold opcodeNop. destruct (isUpgradableNop pop); [|by apply safe_ret].
    eapply (safe_seq _ _ _ 0 _ any); [by apply safe_get|]. intros vm _.
    destruct (hasFlag _ _); [apply safe_fail|by apply safe_ret].
  - eapply safe_weaken; [apply (safe_branch _ (λ b, if b : bool then OpCondTrue else OpCondFalse)); [done|]|lia|done].
    intros []; unfold cond_ok; auto.
  - eapply safe_weaken; [apply (safe_branch _ (λ b, if negb b then OpCondTrue else OpCondFalse)); [done|]|lia|done].
    intros []; unfold cond_ok; simpl; auto.
  - eapply safe_weaken; [apply safe_opcodeElse|lia|done].
  - eapply safe_weaken; [apply safe_opcodeEndif|lia|done].
  - eapply safe_weaken; [by apply safe_abstractVerify|lia|done].
  - eapply safe_weaken; [by apply safe_CLTV|lia|done].
  - eapply safe_weaken; [by apply safe_CSV|lia|done].
  - eapply safe_weaken; [by apply safe_toAlt|lia|done].
  - eapply safe_weaken; [by apply safe_fromAlt|lia|done].
  - eapply (safe_seq _ _ _ 3); [apply (safe_dstack_handler H_opcodeEqual pop); [in_list|done]|].
    intros [] _. eapply safe_weaken; [apply safe_abstractVerify; unfold max_depth; lia|lia|done].
  - eapply (safe_seq _ _ _ 3); [apply (safe_dstack_handler H_opcodeNumEqual pop); [in_list|done]|].
    intros [] _. eapply safe_weaken; [apply safe_abstractVerify; unfold max_depth; lia|lia|done].
  - eapply safe_weaken; [by apply (safe_checkMultiSig ecdsaScheme ecdsaScheme_ok)|lia|done].
  - apply safe_dstack. intros N HN. eapply ssafe_seq; [apply ssafe_PopByteArray; lia|]. intros x _.
    eapply ssafe_weaken; [apply ssafe_PushByteArray, digest_item, sha256_ok|lia|done].
  - apply safe_dstack. intros N HN. eapply ssafe_seq; [apply ssafe_PopByteArray; lia|]. intros x _.
    eapply ssafe_weaken; [apply ssafe_PushByteArray, digest_item, blake2b_ok|lia|done].
  - eapply safe_weaken; [by apply (safe_checkSig ecdsaScheme ecdsaScheme_ok)|lia|done].
  - eapply safe_weaken; [by apply (safe_checkSig schnorrScheme schnorrScheme_ok)|lia|done].
  - eapply safe_seq; [by apply (safe_checkSig schnorrScheme schnorrScheme_ok)|].
    intros [] _. eapply safe_weaken; [apply safe_abstractVerify; lia|lia|done].
  - eapply safe_weaken; [by apply (safe_checkMultiSig schnorrScheme schnorrScheme_ok)|lia|done].
  - eapply safe_seq; [by apply (safe_checkMultiSig schnorrScheme schnorrScheme_ok)|].
    intros [] _. eapply safe_weaken; [apply safe_abstractVerify; lia|lia|done].
Qed.
End Engine.

(** ** A concrete set of libraries, for the witnesses

    Keys and signatures are byte strings; a signature verifies when it is the
    hash followed by the key. *)
#[export] Instance toy_algorithm : SigAlgorithm (list Z) (list Z) := {|
  DeserializePubKey := λ b, if bool_decide (are_bytes b) then Some b else None;
  DeserializeSignatureFromSlice := λ b, if bool_decide (are_bytes b) then Some b else None;
  Verify := λ pk h sig, bool_decide (sig = h ++ pk);
  sig_IsEqual := λ a b, bool_decide (a = b);
  pk_IsEqual := λ a b, bool_decide (a = b) |}.

#[export] Instance toy_algorithm_ok : SigAlgorithmOk (list Z) (list Z).
Proof. split; simpl; intros a b; apply bool_decide_eq_true_1. Qed.

#[export] Instance toy_order : MapOrder :=
  λ A m, match map_to_list m with (k, _) :: _ => k | [] => [] end.

#[export] Instance toy_order_ok : MapOrderOk.
Proof.
  intros A m Hm. unfold first_key, toy_order. destruct (map_to_list m) as [|[k v] l] eqn:E.
  - by apply map_to_list_empty_iff in E.
  - exists v. apply elem_of_map_to_list. rewrite E. apply list_elem_of_here.
Qed.

#[export] Instance toy_libs : Libs := {|
  libs_hashes := toy_hashes; schnorr := toy_algorithm; ecdsa := toy_algorithm; map_order := toy_order |}.

#[export] Instance toy_libs_ok : LibsOk.
Proof. split; apply _. Qed.

(** ** Properties *)
Module HandlerProps.
(** Every opcode handler of the table keeps the engine's invariant.  On an
    engine within its limits and an opcode whose data is a byte string of legal
    size, whatever the stacks hold, the handler does not panic; if it returns
    without error the stacks still hold legal items, at most three more of them,
    the operation count and the conditional stack are legal, the signature caches
    hold only signatures that verify, and the program counter, the scripts and
    the transaction are untouched. *)
Theorem handler_invariant `{LibsOk} (h : handler) (pop : parsedOpcode) (vm : Engine) :
  run_inv MaxStackSize vm → is_byte (pop_value pop) → item_ok (pop_data pop) →
  match run_handler h pop vm with
  | (vm', Ret _) => run_inv (MaxStackSize + 3) vm' ∧ static vm' = static vm
  | (_, Fail _) => True
  | (_, Crash _) => False
  end.
Proof.
  intros Hr Hv Hd.
  pose proof (safe_handler h pop MaxStackSize ltac:(unfold MaxStackSize; lia) Hv Hd vm Hr) as Hs.
  unfold wp in Hs. destruct (run_handler h pop vm) as [vm' [a|e|c]]; [|done|done].
  destruct Hs as (_ & ? & ?). done.
Qed.

Definition sample_vm : Engine :=
  {| vm_scriptVersion := 0; vm_scripts := []; vm_scriptIdx := 0; vm_scriptOff := 0;
     vm_dstack := [[1; 2; 3]]; vm_astack := []; vm_tx := HashingProps.sample_tx; vm_txIdx := 0; vm_condStack := [];
     vm_numOps := 0; vm_flags := 0; vm_sigCache := None; vm_sigCacheECDSA := None;
     vm_sigHashReusedValues := Some HashingProps.no_values; vm_isP2SH := false; vm_savedFirstStack := [] |}.

Definition sample_pop : parsedOpcode :=
  {| pop_opcode := {| opc_value := 168; opc_name := "OP_SHA256"; opc_length := 1;
                      opc_opfunc := Some H_opcodeSha256 |}; pop_data := [] |}.

Lemma handler_invariant_witness :
  match run_handler H_opcodeSha256 sample_pop sample_vm with
  | (vm', Ret _) => run_inv (MaxStackSize + 3) vm' ∧ static vm' = static sample_vm
  | (_, Fail _) => True
  | (_, Crash _) => False
  end.
Proof.
  apply (handler_invariant H_opcodeSha256 sample_pop sample_vm).
  - split; [repeat constructor; discriminate || reflexivity|].
    split; [constructor|]. split; [discriminate|].
    split; [split; discriminate|]. split; [constructor|]. split; [|split; intros c [=]].
    eexists _, _, HashingProps.no_values. split; [discriminate|].
    repeat (split; [reflexivity|]). repeat split; intros ? [=].
  - split; [discriminate|reflexivity].
  - split; [constructor|discriminate].
Defined.
End HandlerProps.
