(* ===== verification/Engine.v ===== *)
(** * The script engine (engine.go)

    Execution of one opcode, of one step and of all scripts of an engine, and
    the construction of an engine from a transaction input.

    [Execute] loops until [Step] reports the end.  Its fuel is a bound on the
    number of opcodes: each script has at most [MaxScriptSize] bytes, a
    pay-to-script-hash script at most [MaxScriptElementSize], and every step
    consumes an opcode ([Execute_total]). *)
From S2P Require Import Prelude Externalapi ScriptNum ScriptStack OpcodeTable Script Hashing SigCache Opcode.
Import Op ScriptNum Stack Script SigHash SigCache Opcode.
Local Open Scope Z_scope.
Local Open Scope prog_scope.

Module Exec.
Section Exec.
Context `{Libs}.
Abbreviation engineM A := (prog Engine error A) (only parsing).

Definition executeOpcode (pop : parsedOpcode) : engineM unit :=
  if isDisabled pop then fail ErrDisabledOpcode
  else if alwaysIllegal pop then fail ErrReservedOpcode
  else
    (if pop_value pop >? Op16 then
       modify (λ vm, set_numOps (vm_numOps vm + 1) vm) ;;*
       let* numOps := gets vm_numOps in
       if numOps >? MaxOpsPerScript then fail ErrTooManyOperations else ret ()
     else if zlen (pop_data pop) >? MaxScriptElementSize then fail ErrElementTooBig
     else ret ()) ;;*
    let* executing := gets isBranchExecuting in
    if negb executing && negb (isConditional pop) then ret ()
    else
      (if executing && negb (pop_value pop =? 0) && (pop_value pop <=? OpPushData4)
       then lift_outcome (checkMinimalDataPush pop)
       else ret ()) ;;*
      match opc_opfunc (pop_opcode pop) with
      | Some h => run_handler h pop
      | None => crash_with NilDereference
      end.

Definition validPC : engineM unit :=
  let* vm := get in
  if vm_scriptIdx vm >=? zlen (vm_scripts vm) then fail ErrInvalidProgramCounter
  else
    let* script := lift_outcome (index (vm_scripts vm) (vm_scriptIdx vm)) in
    if vm_scriptOff vm >=? zlen script then fail ErrInvalidProgramCounter
    else ret ().

Definition curPC : engineM (Z * Z) :=
  validPC ;;*
  gets (λ vm, (vm_scriptIdx vm, vm_scriptOff vm)).

Definition CheckErrorCondition (finalScript : bool) : engineM unit :=
  let* vm := get in
  if vm_scriptIdx vm <? zlen (vm_scripts vm) then fail ErrScriptUnfinished
  else
    (if finalScript then
       let* depth := on_dstack Depth in
       if depth >? 1 then fail ErrCleanStack
       else if depth <? 1 then fail ErrEmptyStack
       else ret ()
     else ret ()) ;;*
    let* v := on_dstack PopBool in
    if negb v then fail ErrEvalFalse else ret ().

(** [array[len(array)-i-1], _ = stack.PeekByteArray(int32(i))] for each [i] *)
Definition getStack (s : stack) : list (list Z) :=
  let depth := Z.to_nat (GoInt.int32 (zlen s)) in
  reverse (map (λ i, match PeekByteArray (GoInt.int32 (Z.of_nat i)) s with
                 | (_, Ret so) => so
                 | _ => []
                 end) (seq 0 depth)).

(** [_ = m]: the error of [m] is discarded. *)
Definition ignore_error {S} (m : prog S error unit) : prog S error unit :=
  λ s, match m s with
       | (s', Fail _) => (s', Ret ())
       | r => r
       end.

Definition setStack (data : list (list Z)) : prog stack error unit :=
  let* d := Depth in
  ignore_error (DropN d) ;;*
  modify (λ s, fold_left (λ s so, s ++ [so]) data s).

Definition GetStack (vm : Engine) : list (list Z) := getStack (vm_dstack vm).
Definition SetStack (data : list (list Z)) : engineM unit := on_dstack (setStack data).
Definition GetAltStack (vm : Engine) : list (list Z) := getStack (vm_astack vm).
Definition SetAltStack (data : list (list Z)) : engineM unit := on_astack (setStack data).

Definition incr_scriptIdx : engineM unit :=
  modify (λ vm, set_scriptIdx (vm_scriptIdx vm + 1) vm).

(** The end of a pay-to-script-hash public key script: the serialized script
    is taken from the saved stack and scheduled. *)
Definition scheduleRedeemScript : engineM unit :=
  incr_scriptIdx ;;*
  CheckErrorCondition false ;;*
  let* saved := gets vm_savedFirstStack in
  let* script := lift_outcome (index saved (zlen saved - 1)) in
  let* pops := lift_outcome (parseScriptE script) in
  modify (λ vm, set_scripts (vm_scripts vm ++ [pops]) vm) ;;*
  let* rest := lift_outcome (slice saved 0 (zlen saved - 1)) in
  SetStack rest.

(** The end of a script: "Prepare for next instruction". *)
Definition nextScript : engineM bool :=
  let* condStack := gets vm_condStack in
  if negb (zlen condStack =? 0) then fail ErrUnbalancedConditional
  else
    let* adepth := on_astack Depth in
    on_astack (ignore_error (DropN adepth)) ;;*
    modify (set_numOps 0) ;;*
    modify (set_scriptOff 0) ;;*
    let* vm := get in
    (if (vm_scriptIdx vm =? 0) && vm_isP2SH vm then
       incr_scriptIdx ;;*
       modify (λ vm, set_savedFirstStack (GetStack vm) vm)
     else if (vm_scriptIdx vm =? 1) && vm_isP2SH vm then scheduleRedeemScript
     else incr_scriptIdx) ;;*
    let* vm := get in
    (if vm_scriptIdx vm <? zlen (vm_scripts vm) then
       let* script := lift_outcome (index (vm_scripts vm) (vm_scriptIdx vm)) in
       if vm_scriptOff vm >=? zlen script then incr_scriptIdx else ret ()
     else ret ()) ;;*
    gets (λ vm, vm_scriptIdx vm >=? zlen (vm_scripts vm)).

Definition Step : engineM bool :=
  validPC ;;*
  let* vm := get in
  let* script := lift_outcome (index (vm_scripts vm) (vm_scriptIdx vm)) in
  let* opcode := lift_outcome (index script (vm_scriptOff vm)) in
  modify (λ vm, set_scriptOff (vm_scriptOff vm + 1) vm) ;;*
  executeOpcode opcode ;;*
  let* d := on_dstack Depth in
  let* a := on_astack Depth in
  if GoInt.int32 (d + a) >? MaxStackSize then fail ErrStackOverflow
  else
    let* vm := get in
    let* script := lift_outcome (index (vm_scripts vm) (vm_scriptIdx vm)) in
    if vm_scriptOff vm >=? zlen script then nextScript else ret false.

Fixpoint executeLoop (fuel : nat) : engineM unit :=
  match fuel with
  | O => crash_with OutOfFuel
  | S fuel =>
      let* done := Step in
      if done : bool then ret () else executeLoop fuel
  end.

(** Two scripts of [MaxScriptSize] bytes and a script of [MaxScriptElementSize]. *)
Definition execute_fuel : nat := Z.to_nat 20530.

Definition Execute : engineM unit :=
  let* version := gets vm_scriptVersion in
  if version >? MaxScriptPublicKeyVersion then ret ()
  else
    executeLoop execute_fuel ;;*
    CheckErrorCondition true.

Definition parseScriptAndVerifySize (script : list Z) : fallible (list parsedOpcode) :=
  if zlen script >? MaxScriptSize then Fail ErrScriptTooBig
  else parseScriptE script.

(** The [Engine{...}] literal: the zero value of the other fields. *)
Definition zeroTx : DomainTransaction :=
  {| tx_Version := 0; tx_Inputs := []; tx_Outputs := []; tx_LockTime := 0;
     tx_SubnetworkID := replicate 20 0; tx_Gas := 0; tx_Payload := []; tx_Fee := 0; tx_Mass := 0;
     tx_ID := None |}.

Definition NewEngine (scriptPubKey : ScriptPublicKey) (tx : DomainTransaction) (txIdx flags : Z)
    (sigCache : option (SigCache SchnorrSignature SchnorrPublicKey))
    (sigCacheECDSA : option (SigCache ECDSASignature ECDSAPublicKey))
    (sighashReusedValues : option SighashReusedValues) : fallible Engine :=
  if (txIdx <? 0) || (txIdx >=? zlen (tx_Inputs tx)) then Fail ErrInvalidIndex
  else
    let? txIn := index (tx_Inputs tx) txIdx in
    let scriptSig := in_SignatureScript txIn in
    if (zlen scriptSig =? 0) && (zlen (spk_Script scriptPubKey) =? 0) then Fail ErrEvalFalse
    else if spk_Version scriptPubKey >? MaxScriptPublicKeyVersion then
      Ret {| vm_scriptVersion := spk_Version scriptPubKey; vm_scripts := []; vm_scriptIdx := 0;
             vm_scriptOff := 0; vm_dstack := []; vm_astack := []; vm_tx := zeroTx; vm_txIdx := 0;
             vm_condStack := []; vm_numOps := 0; vm_flags := flags; vm_sigCache := sigCache;
             vm_sigCacheECDSA := sigCacheECDSA; vm_sigHashReusedValues := None;
             vm_isP2SH := false; vm_savedFirstStack := [] |}
    else
      let? parsedScriptSig := parseScriptAndVerifySize scriptSig in
      if negb (isPushOnly parsedScriptSig) then Fail ErrNotPushOnly
      else
        let? parsedScriptPubKey := parseScriptAndVerifySize (spk_Script scriptPubKey) in
        let isP2SH := isScriptHash parsedScriptPubKey in
        if isP2SH && negb (isPushOnly parsedScriptSig) then Fail ErrNotPushOnly
        else
          Ret {| vm_scriptVersion := spk_Version scriptPubKey;
                 vm_scripts := [parsedScriptSig; parsedScriptPubKey];
                 vm_scriptIdx := if zlen scriptSig =? 0 then 1 else 0;
                 vm_scriptOff := 0; vm_dstack := []; vm_astack := []; vm_tx := tx;
                 vm_txIdx := txIdx; vm_condStack := []; vm_numOps := 0; vm_flags := flags;
                 vm_sigCache := sigCache; vm_sigCacheECDSA := sigCacheECDSA;
                 vm_sigHashReusedValues := sighashReusedValues; vm_isP2SH := isP2SH;
                 vm_savedFirstStack := [] |}.
End Exec.
End Exec.
Import Exec.
