(* ===== verification/EngineSafety.v ===== *)
(** * Execution is safe and terminates

    [engine_ok] is the invariant of an engine between two steps;
    [Step_preserves] is the step lemma, and [opcodes_left] the measure that
    decreases with every step. *)
From S2P Require Import Prelude Externalapi ScriptNum ScriptStack OpcodeTable Script Hashing SigCache Opcode.
From S2P Require Import OpcodeSafety Engine.
Import Op ScriptNum Stack Script SigHash SigCache Opcode Exec.
Local Open Scope Z_scope.
Local Open Scope prog_scope.

Definition pop_good (pop : parsedOpcode) : Prop := pop_ok pop ∧ are_bytes (pop_data pop).

Lemma pop_good_handler pop : pop_good pop → is_Some (opc_opfunc (pop_opcode pop)).
Proof.
  intros [(Hb & Ho & _) _]. destruct (opcodeArray_entry _ Hb) as (o & Ho' & _ & Hf & _).
  rewrite Ho' in Ho. by injection Ho as ->.
Qed.

Lemma pop_good_no_data pop : pop_good pop → Op16 < pop_value pop → pop_data pop = [].
Proof.
  intros [(Hb & Ho & Hfit) _] Hv.
  assert (pop_length pop = 1) as E.
  { destruct (decide (pop_length pop = 1)) as [|Hne]; [done|].
    pose proof (opcodeArray_data _ _ Hb Ho Hne). unfold Op16, OpPushData4 in *. lia. }
  unfold data_fits in Hfit. by rewrite E in Hfit.
Qed.

(** ** Stack transfers *)
Lemma dropAll s : zlen s < max_depth →
  bind Depth (λ d, ignore_error (DropN d)) s = ([], Ret ()).
Proof.
  intros Hd. rewrite (bind_ret_l _ _ s s (zlen s)).
  2:{ unfold Depth, gets. rewrite GoInt.int32_id; [done|]. unfold max_depth in Hd. zlia. }
  unfold ignore_error, DropN. destruct (bool_decide_reflect (zlen s < 1)).
  - assert (s = []) as -> by (apply zlen_zero; zlia). done.
  - unfold zlen. rewrite Nat2Z.id. pose proof (repeat_pop [] s Hd) as Hp. simpl in Hp. by rewrite Hp.
Qed.

Lemma setStack_spec data s : zlen s < max_depth → setStack data s = (data, Ret ()).
Proof.
  intros Hd. unfold setStack. rewrite <- bind_assoc.
  rewrite (bind_ret_l _ _ s [] ()) by (by apply dropAll). unfold modify. f_equal.
  assert (∀ l : stack, fold_left (λ s so, s ++ [so]) data l = l ++ data) as ->; [|done].
  induction data as [|x data IH]; intros l; simpl; [by rewrite app_nil_r|].
  rewrite IH. by rewrite <- app_assoc.
Qed.

Lemma getStack_spec s : zlen s < max_depth → getStack s = s.
Proof.
  intros Hd. unfold getStack. pose proof Hd as Hd'. unfold max_depth in Hd'.
  change (2 ^ 31) with 2147483648 in Hd'. pose proof (zlen_nonneg s).
  rewrite GoInt.int32_id by lia. unfold zlen at 1. rewrite Nat2Z.id.
  rewrite <- (reverse_involutive s) at 2. f_equal. apply list_eq. intros i.
  destruct (decide (i < length s)%nat) as [Hi|Hi].
  2:{ rewrite !lookup_ge_None_2; [done| |]; rewrite ?length_reverse, ?length_map, ?length_seq; lia. }
  rewrite list_lookup_fmap, lookup_seq_lt by lia. simpl.
  destruct (stack_split s (Z.of_nat i)) as (l & x & k & -> & Hk); [unfold zlen in *; lia|].
  rewrite GoInt.int32_id by (unfold zlen in *; lia).
  rewrite PeekByteArray_spec by done. symmetry.
  rewrite reverse_app, reverse_cons, <- app_assoc. simpl.
  apply list_lookup_middle. rewrite length_reverse. unfold zlen in Hk. lia.
Qed.

Section Engine.
Context `{Libs} `{!LibsOk}.
Abbreviation engineM A := (prog Engine error A) (only parsing).

(** ** One opcode *)
Lemma safe_dispatch pop B : B ≤ 1000 → pop_good pop → item_ok (pop_data pop) →
  safe B (match opc_opfunc (pop_opcode pop) with
          | Some h => run_handler h pop
          | None => crash_with NilDereference
          end) 3 any.
Proof using All.
  intros HB Hg Hd. destruct (pop_good_handler pop Hg) as [h ->].
  apply safe_handler; [done|apply Hg|done].
Qed.

Lemma checkMinimalDataPush_no_crash pop c : checkMinimalDataPush pop ≠ Crash c.
Proof using Type. unfold checkMinimalDataPush. cbv zeta. by repeat case_match. Qed.

Lemma safe_executeOpcode pop B : B ≤ 1000 → pop_good pop → safe B (executeOpcode pop) 3 any.
Proof using All.
  intros HB Hg. unfold executeOpcode. destruct (isDisabled pop); [apply safe_fail|].
  destruct (alwaysIllegal pop); [apply safe_fail|].
  assert (item_ok (pop_data pop) → safe B (
    let* executing := gets isBranchExecuting in
    if negb executing && negb (isConditional pop) then ret ()
    else
      (if executing && negb (pop_value pop =? 0) && (pop_value pop <=? OpPushData4)
       then lift_outcome (checkMinimalDataPush pop)
       else ret ()) ;;*
      match opc_opfunc (pop_opcode pop) with
      | Some h => run_handler h pop
      | None => crash_with NilDereference
      end) 3 any) as Hrest.
  { intros Hd. eapply (safe_seq _ _ _ 0 _ any); [by apply safe_gets|]. intros ex _.
    destruct (_ && _); [by apply safe_ret|].
    eapply (safe_seq _ _ _ 0 _ any).
    - destruct (_ && _); [apply safe_lift; [done|apply checkMinimalDataPush_no_crash]|by apply safe_ret].
    - intros [] _. apply safe_dispatch; [lia|done|done]. }
  rewrite Z.gtb_ltb. destruct (Z.ltb_spec Op16 (pop_value pop)) as [Hv|Hv].
  - eapply (safe_seq _ _ _ 0); [apply safe_addOps; lia|]. intros [] _. rewrite Z.add_0_r.
    apply Hrest. rewrite (pop_good_no_data pop Hg Hv). apply item_ok_short; [apply are_bytes_nil|done].
  - rewrite Z.gtb_ltb. destruct (Z.ltb_spec MaxScriptElementSize (zlen (pop_data pop))).
    + by intros vm Hvm.
    + eapply (safe_seq _ _ _ 0 _ any); [by apply safe_ret|]. intros [] _. rewrite Z.add_0_r.
      apply Hrest. split; [apply Hg|done].
Qed.

(** An executed opcode of a push-only script leaves an item on the data stack. *)
Lemma push_handler_effect h pop vm vm' :
  is_push_handler h = true → run_handler h pop vm = (vm', Ret ()) →
  vm_dstack vm' ≠ [] ∧ vm_condStack vm' = vm_condStack vm.
Proof using Type.
  assert (∀ x, on_dstack (PushByteArray x) vm = (vm', Ret ()) →
    vm_dstack vm' ≠ [] ∧ vm_condStack vm' = vm_condStack vm) as Hpush.
  { intros x. unfold on_dstack, zoom. simpl. intros [= <-]. simpl. split; [|done].
    by destruct (vm_dstack vm). }
  assert (∀ n, on_dstack (PushInt n) vm = (vm', Ret ()) →
    vm_dstack vm' ≠ [] ∧ vm_condStack vm' = vm_condStack vm) as Hint.
  { intros n. unfold PushInt. unfold on_dstack, zoom, bind, lift_outcome.
    destruct (Bytes n) as [v|e|c]; [apply (Hpush v)|done|done]. }
  destruct h; try discriminate; intros _ Hrun; [exact (Hpush [] Hrun)|
    exact (Hpush (pop_data pop) Hrun)|exact (Hint (-1) Hrun)|
    exact (Hint (GoInt.uint8 (pop_value pop - (Op1 - 1))) Hrun)].
Qed.

Lemma executeOpcode_executing pop vm vm' :
  vm_condStack vm = [] → executeOpcode pop vm = (vm', Ret ()) →
  ∃ h vm1, opc_opfunc (pop_opcode pop) = Some h ∧ run_handler h pop vm1 = (vm', Ret ()) ∧
           vm_dstack vm1 = vm_dstack vm ∧ vm_condStack vm1 = [].
Proof using Type.
  intros Hc. unfold executeOpcode. destruct (isDisabled pop); [done|]. destruct (alwaysIllegal pop); [done|].
  intros (vm1 & [] & Hops & Hrun)%bind_ret_inv.
  assert (vm_dstack vm1 = vm_dstack vm ∧ vm_condStack vm1 = []) as [Hd1 Hc1].
  { rewrite <- Hc. destruct (pop_value pop >? Op16).
    - unfold bind, modify, gets in Hops. destruct (_ >? _) in Hops; [done|]. by injection Hops as <-.
    - destruct (_ >? _) in Hops; [done|]. by injection Hops as <-. }
  apply bind_ret_inv in Hrun as (vm2 & ex & Hex & Hrun). injection Hex as <- <-.
  unfold isBranchExecuting in Hrun. rewrite Hc1 in Hrun. simpl last in Hrun. cbv iota in Hrun.
  cbn [negb andb] in Hrun.
  apply bind_ret_inv in Hrun as (vm3 & [] & Hmin & Hrun).
  assert (vm3 = vm1) as ->.
  { destruct (_ && _) in Hmin; [|by injection Hmin as <-].
    unfold lift_outcome in Hmin. by injection Hmin as <- _. }
  destruct (opc_opfunc (pop_opcode pop)) as [h|]; [|done]. by exists h, vm1.
Qed.

Lemma executeOpcode_push pop vm vm' :
  pop_good pop → pop_value pop ≤ Op16 → vm_condStack vm = [] →
  executeOpcode pop vm = (vm', Ret ()) → vm_dstack vm' ≠ [] ∧ vm_condStack vm' = [].
Proof using Type.
  intros [(Hb & Ho & _) _] Hv Hc Hrun.
  destruct (executeOpcode_executing pop vm vm' Hc Hrun) as (h & vm1 & Hh & Hr & _ & Hc1).
  rewrite <- Hc1. apply (push_handler_effect h pop); [|done].
  by eapply (opcodeArray_push (pop_value pop)).
Qed.

(** OP_BLAKE2B, the first opcode of a pay-to-script-hash script, fails on an
    empty stack. *)
Lemma executeOpcode_Blake2b pop vm vm' :
  pop_good pop → pop_value pop = OpBlake2b → vm_condStack vm = [] → vm_dstack vm = [] →
  executeOpcode pop vm = (vm', Ret ()) → False.
Proof using Type.
  intros [(Hb & Ho & _) _] Hv Hc Hd Hrun.
  destruct (executeOpcode_executing pop vm vm' Hc Hrun) as (h & vm1 & Hh & Hr & Hd1 & _).
  rewrite Hv in Ho. apply opcodeArray_Blake2b in Ho. rewrite Ho in Hh. injection Hh as <-.
  cbn [run_handler] in Hr. unfold opcodeBlake2b, on_dstack, zoom in Hr. rewrite Hd1, Hd in Hr.
  done.
Qed.

(** ** The invariant of an engine between steps *)
Definition saved_ok (vm : Engine) : Prop :=
  vm_savedFirstStack vm ≠ [] ∧ Forall item_ok (vm_savedFirstStack vm) ∧
  zlen (vm_savedFirstStack vm) ≤ MaxStackSize.

Record engine_ok (vm : Engine) : Prop := {
  eo_run : run_inv MaxStackSize vm;
  eo_scripts : Forall (Forall pop_good) (vm_scripts vm);
  eo_pc : ∃ script, 0 ≤ vm_scriptIdx vm ∧ vm_scripts vm !! Z.to_nat (vm_scriptIdx vm) = Some script ∧
                    0 ≤ vm_scriptOff vm < zlen script;
  eo_shape : zlen (vm_scripts vm) = 2 ∨ zlen (vm_scripts vm) = 3 ∧ vm_scriptIdx vm = 2;
  eo_sig : vm_scriptIdx vm = 0 →
    (∀ script, vm_scripts vm !! 0%nat = Some script → isPushOnly script = true) ∧
    vm_condStack vm = [] ∧ (0 < vm_scriptOff vm → vm_dstack vm ≠ []);
  eo_p2sh : vm_isP2SH vm = true →
    (∃ script, vm_scripts vm !! 1%nat = Some script ∧ isScriptHash script = true) ∧
    (vm_scriptIdx vm = 1 →
     vm_scriptOff vm = 0 ∧ vm_dstack vm = [] ∧ vm_condStack vm = [] ∨ saved_ok vm)
}.

(** The state in which [Step] reports the end. *)
Definition engine_done (vm : Engine) : Prop :=
  run_inv MaxStackSize vm ∧ zlen (vm_scripts vm) ≤ vm_scriptIdx vm.

(** The opcodes not yet executed, counting a pay-to-script-hash script that is
    still to be parsed as [MaxScriptElementSize]. *)
Definition opcodes_left (vm : Engine) : Z :=
  zlen (concat (drop (Z.to_nat (vm_scriptIdx vm)) (vm_scripts vm))) - vm_scriptOff vm +
  (if vm_isP2SH vm && (zlen (vm_scripts vm) =? 2) then MaxScriptElementSize else 0).

(** ** Engine-level stack reads *)
Lemma run_inv_depth vm : run_inv MaxStackSize vm →
  zlen (vm_dstack vm) < max_depth ∧ zlen (vm_astack vm) < max_depth.
Proof using Type.
  intros (_ & _ & Hk & _). pose proof (zlen_nonneg (vm_dstack vm)). pose proof (zlen_nonneg (vm_astack vm)).
  unfold MaxStackSize, max_depth in *. lia.
Qed.

Lemma Depth_spec (s : stack) : zlen s < max_depth → Depth s = (s, Ret (zlen s)).
Proof using Type.
  intros Hd. unfold Depth, gets. rewrite GoInt.int32_id; [done|]. unfold max_depth in Hd.
  change (2 ^ 31) with 2147483648 in Hd. pose proof (zlen_nonneg s). lia.
Qed.

Lemma on_dstack_Depth vm : zlen (vm_dstack vm) < max_depth →
  on_dstack Depth vm = (vm, Ret (zlen (vm_dstack vm))).
Proof using Type. intros Hd. unfold on_dstack, zoom. rewrite Depth_spec by done. by destruct vm. Qed.

Lemma on_astack_Depth vm : zlen (vm_astack vm) < max_depth →
  on_astack Depth vm = (vm, Ret (zlen (vm_astack vm))).
Proof using Type. intros Hd. unfold on_astack, zoom. rewrite Depth_spec by done. by destruct vm. Qed.

Lemma on_astack_clear vm : zlen (vm_astack vm) < max_depth →
  on_astack (ignore_error (DropN (zlen (vm_astack vm)))) vm = (set_astack [] vm, Ret ()).
Proof using Type.
  intros Hd. unfold on_astack, zoom. pose proof (dropAll (vm_astack vm) Hd) as Hdrop.
  rewrite (bind_ret_l _ _ _ _ _ (Depth_spec _ Hd)) in Hdrop. by rewrite Hdrop.
Qed.

(** ** The end of a script *)

(** After the last opcode of the script at [vm_scriptIdx]. *)
Record script_end (vm : Engine) (script : list parsedOpcode) : Prop := {
  se_run : run_inv MaxStackSize vm;
  se_scripts : Forall (Forall pop_good) (vm_scripts vm);
  se_idx : 0 ≤ vm_scriptIdx vm;
  se_pc : vm_scripts vm !! Z.to_nat (vm_scriptIdx vm) = Some script;
  se_off : vm_scriptOff vm = zlen script;
  se_shape : zlen (vm_scripts vm) = 2 ∨ zlen (vm_scripts vm) = 3 ∧ vm_scriptIdx vm = 2;
  se_sig : vm_scriptIdx vm = 0 → vm_dstack vm ≠ [];
  se_p2sh : vm_isP2SH vm = true →
    (∃ s1, vm_scripts vm !! 1%nat = Some s1 ∧ isScriptHash s1 = true) ∧
    (vm_scriptIdx vm = 1 → saved_ok vm)
}.

(** The state every script starts from: empty alternate stack, no operations
    counted, program counter at the start. *)
Definition restarted (vm : Engine) : Engine :=
  set_scriptOff 0 (set_numOps 0 (set_astack [] vm)).

Lemma restarted_inv vm : run_inv MaxStackSize vm → run_inv MaxStackSize (restarted vm).
Proof using Type.
  intros (Hd & Ha & Hk & Hn & Hc & He). pose proof (zlen_nonneg (vm_astack vm)).
  split; [done|]. split; [constructor|]. split; [unfold restarted; simpl; rewrite zlen_nil; lia|].
  split; [simpl; unfold MaxOpsPerScript; lia|]. done.
Qed.

Lemma opcodes_left_at vm script :
  0 ≤ vm_scriptIdx vm → vm_scripts vm !! Z.to_nat (vm_scriptIdx vm) = Some script →
  opcodes_left vm =
  zlen script - vm_scriptOff vm +
  zlen (concat (drop (S (Z.to_nat (vm_scriptIdx vm))) (vm_scripts vm))) +
  (if vm_isP2SH vm && (zlen (vm_scripts vm) =? 2) then MaxScriptElementSize else 0).
Proof using Type.
  intros Hi Hs. unfold opcodes_left. rewrite (drop_S _ _ _ Hs). simpl. rewrite zlen_app. lia.
Qed.

Lemma restarted_static vm : vm_scripts (restarted vm) = vm_scripts vm ∧
  vm_scriptIdx (restarted vm) = vm_scriptIdx vm ∧ vm_isP2SH (restarted vm) = vm_isP2SH vm ∧
  vm_dstack (restarted vm) = vm_dstack vm ∧ vm_condStack (restarted vm) = vm_condStack vm ∧
  vm_savedFirstStack (restarted vm) = vm_savedFirstStack vm.
Proof using Type. done. Qed.

Lemma zlen_lookup {A} (l : list A) i x : l !! Z.to_nat i = Some x → 0 ≤ i → i < zlen l.
Proof using Type. intros Hl%lookup_lt_Some Hi. unfold zlen. lia. Qed.

Lemma run_inv_scriptIdx B i vm : run_inv B vm → run_inv B (set_scriptIdx i vm).
Proof using Type. done. Qed.

(** "there are zero length scripts in the wild": the tail of [nextScript]. *)
Lemma wp_skipEmpty vm (Q : bool → Engine → Prop) :
  1 ≤ vm_scriptIdx vm → vm_scriptOff vm = 0 →
  zlen (vm_scripts vm) ≤ vm_scriptIdx vm + 1 →
  (zlen (vm_scripts vm) ≤ vm_scriptIdx vm → Q true vm) →
  (∀ script, vm_scripts vm !! Z.to_nat (vm_scriptIdx vm) = Some script → 0 < zlen script → Q false vm) →
  (vm_scripts vm !! Z.to_nat (vm_scriptIdx vm) = Some [] →
   Q true (set_scriptIdx (vm_scriptIdx vm + 1) vm)) →
  wp (let* vm := get in
      (if vm_scriptIdx vm <? zlen (vm_scripts vm) then
         let* script := lift_outcome (index (vm_scripts vm) (vm_scriptIdx vm)) in
         if vm_scriptOff vm >=? zlen script then incr_scriptIdx else ret ()
       else ret ()) ;;*
      gets (λ vm, vm_scriptIdx vm >=? zlen (vm_scripts vm))) Q (λ _ _, True) vm.
Proof using Type.
  intros Hi Ho Hb Q1 Q2 Q3. apply wp_bind, wp_get, wp_bind.
  destruct (Z.ltb_spec (vm_scriptIdx vm) (zlen (vm_scripts vm))) as [Hlt|Hge].
  - destruct (@index_in_range error _ (vm_scripts vm) (vm_scriptIdx vm)) as (script & Hix & Hs); [lia|].
    apply wp_bind. unfold wp at 1, lift_outcome. rewrite Hix. rewrite Ho, Z.geb_leb.
    destruct (Z.leb_spec (zlen script) 0).
    + apply wp_modify, wp_gets. simpl. rewrite Z.geb_leb, (proj2 (Z.leb_le _ _)) by lia.
      apply Q3. rewrite Hs. f_equal. apply zlen_zero. pose proof (zlen_nonneg script). lia.
    + apply wp_ret, wp_gets. rewrite Z.geb_leb, (proj2 (Z.leb_gt _ _)) by lia. eauto.
  - apply wp_ret, wp_gets. rewrite Z.geb_leb, (proj2 (Z.leb_le _ _)) by lia. auto.
Qed.

(** Entering script [i + 1] at its first opcode. *)
Lemma isScriptHash_length script : isScriptHash script = true → zlen script = 3.
Proof using Type. destruct script as [|? [|? [|? [|]]]]; done. Qed.

Lemma wp_CheckErrorCondition_mid vm (Q : unit → Engine → Prop) :
  run_inv MaxStackSize vm → zlen (vm_scripts vm) ≤ vm_scriptIdx vm →
  (∀ vm', run_inv MaxStackSize vm' → static vm' = static vm → vm_condStack vm' = vm_condStack vm →
          vm_astack vm' = vm_astack vm → Q () vm') →
  wp (CheckErrorCondition false) Q (λ _ _, True) vm.
Proof using Type.
  intros Hr Hi HQ. unfold CheckErrorCondition. apply wp_bind, wp_get.
  rewrite (proj2 (Z.ltb_ge _ _)) by lia. apply wp_bind, wp_ret, wp_bind.
  pose proof Hr as (Hd & _). pose proof (run_inv_depth vm Hr) as [Hdd _].
  apply wp_zoom. pose proof (ssafe_PopBool (zlen (vm_dstack vm)) Hdd (vm_dstack vm) (conj Hd (Z.le_refl _))) as Hp.
  unfold wp in Hp. destruct (PopBool (vm_dstack vm)) as [s' [b|e|c]]; [|done|done].
  destruct b; [|done]. apply wp_ret. destruct Hp as (_ & Hs' & Hl). apply HQ; [|done..].
  destruct Hr as (_ & Ha & Hk & Hrest). split; [done|]. split; [done|]. split; [simpl; lia|done].
Qed.

Lemma last_lookup {A} (l : list A) : l ≠ [] → ∃ x, @index error A l (zlen l - 1) = Ret x ∧ x ∈ l.
Proof using Type.
  destruct l as [|x l _] using rev_ind; [done|]. intros _. exists x. rewrite index_last.
  split; [done|]. apply elem_of_app. right. apply list_elem_of_here.
Qed.

Lemma slice_init {A} (l : list A) : l ≠ [] →
  @slice error A l 0 (zlen l - 1) = Ret (take (length l - 1) l).
Proof using Type.
  intros Hl. unfold slice. assert (1 ≤ zlen l) by (destruct l; [done|zlia]).
  rewrite decide_True by lia. simpl. rewrite drop_0. do 2 f_equal. unfold zlen. lia.
Qed.

Lemma on_dstack_setStack data vm : zlen (vm_dstack vm) < max_depth →
  SetStack data vm = (set_dstack data vm, Ret ()).
Proof using Type. intros Hd. unfold SetStack, on_dstack, zoom. by rewrite setStack_spec. Qed.

(** The serialized script is on the saved stack; it is parsed and appended, and
    the rest of the saved stack becomes the data stack. *)
Lemma wp_scheduleRedeemScript vm (Q : unit → Engine → Prop) :
  run_inv MaxStackSize vm → vm_astack vm = [] → zlen (vm_scripts vm) = 2 → vm_scriptIdx vm = 1 →
  saved_ok vm →
  (∀ vm' pops, run_inv MaxStackSize vm' → vm_condStack vm' = vm_condStack vm →
     vm_scripts vm' = vm_scripts vm ++ [pops] → Forall pop_good pops →
     zlen pops ≤ MaxScriptElementSize → vm_scriptIdx vm' = 2 → vm_scriptOff vm' = vm_scriptOff vm →
     vm_isP2SH vm' = vm_isP2SH vm → Q () vm') →
  wp scheduleRedeemScript Q (λ _ _, True) vm.
Proof using Type.
  intros Hr Ha Hz Hi (Hne & Hitems & Hlen) HQ. unfold scheduleRedeemScript.
  apply wp_bind, wp_modify, wp_bind.
  apply wp_CheckErrorCondition_mid; [done|simpl; lia|]. intros vm1 Hr1 Hst Hc1 Ha1.
  injection Hst as Hv Hsc Hidx Hoff Htx Htxi Hfl Hp2 Hsv.
  apply wp_bind, wp_gets. rewrite Hsv.
  destruct (last_lookup (vm_savedFirstStack vm) Hne) as (script & Hix & Hin).
  assert (item_ok script) as [Hsb Hsl] by (by eapply Forall_forall in Hin).
  apply wp_bind. unfold wp at 1, lift_outcome at 1. simpl in Hsv. simpl (vm_savedFirstStack _). rewrite Hix.
  apply wp_bind. unfold wp at 1, lift_outcome at 1.
  destruct (parseScriptE_spec script Hsb) as [(pops & -> & Hok & Henc)|Hfail]; [|by rewrite Hfail].
  apply wp_bind, wp_modify, wp_bind. unfold wp at 1, lift_outcome at 1.
  rewrite slice_init by done. unfold wp. rewrite on_dstack_setStack by (apply (run_inv_depth vm1 Hr1)).
  apply (HQ _ pops); try done; simpl.
  - destruct Hr1 as (_ & _ & _ & Hn & Hc & He).
    simpl in Ha1. rewrite Ha in Ha1.
    split; [by apply Forall_take|]. split; [simpl; rewrite Ha1; constructor|].
    split; [|done]. simpl. rewrite Ha1, zlen_nil, zlen_take. lia.
  - by rewrite Hsc.
  - rewrite Henc in Hsb. pose proof (encodings_bytes pops Hsb) as Hdata.
    apply Forall_forall. intros p Hp. split; [by eapply Forall_forall in Hok|by eapply Forall_forall in Hdata].
  - pose proof (encodings_length pops). rewrite <- Henc in *. unfold zlen in *. lia.
  - simpl in Hidx. lia.
Qed.

(** What a step leaves: the end, or a state with fewer opcodes left. *)
Definition step_post (left : Z) (done : bool) (vm : Engine) : Prop :=
  if done then engine_done vm else engine_ok vm ∧ opcodes_left vm < left.

(** A script that starts: the engine invariant of its first state. *)
Lemma enter_script vm script :
  run_inv MaxStackSize vm → Forall (Forall pop_good) (vm_scripts vm) →
  1 ≤ vm_scriptIdx vm → vm_scriptOff vm = 0 →
  vm_scripts vm !! Z.to_nat (vm_scriptIdx vm) = Some script → 0 < zlen script →
  zlen (vm_scripts vm) = 2 ∨ zlen (vm_scripts vm) = 3 ∧ vm_scriptIdx vm = 2 →
  (vm_isP2SH vm = true →
   (∃ s1, vm_scripts vm !! 1%nat = Some s1 ∧ isScriptHash s1 = true) ∧
   (vm_scriptIdx vm = 1 → saved_ok vm)) →
  engine_ok vm.
Proof using Type.
  intros Hr Hs Hi Ho Hsc Hlen Hsh Hp. split; try done.
  - exists script. split; [lia|]. split; [done|lia].
  - lia.
  - intros Hp2. destruct (Hp Hp2) as [? Hsv]. split; [done|]. auto.
Qed.

Lemma wp_nextScript vm script left :
  script_end vm script → opcodes_left vm < left →
  wp nextScript (step_post left) (λ _ _, True) vm.
Proof using Type.
  intros [Hr Hsc Hi Hpc Hoff Hsh Hsig Hp2] Hleft. unfold nextScript. apply wp_bind, wp_gets.
  destruct (Z.eqb_spec (zlen (vm_condStack vm)) 0) as [Hc|]; [|done]. apply zlen_zero in Hc.
  pose proof (run_inv_depth vm Hr) as [Hdd Had]. cbn [negb].
  apply wp_bind. unfold wp at 1. rewrite on_astack_Depth by done.
  apply wp_bind. unfold wp at 1. rewrite on_astack_clear by done.
  apply wp_bind, wp_modify, wp_bind, wp_modify, wp_bind, wp_get. fold (restarted vm).
  pose proof (restarted_inv vm Hr) as Hr1.
  rewrite (opcodes_left_at vm script), Hoff in Hleft by done.
  pose proof (zlen_lookup _ _ _ Hpc Hi) as Hlt.
  apply wp_bind. simpl (vm_scriptIdx (restarted vm)). simpl (vm_isP2SH (restarted vm)).
  destruct (Z.eqb_spec (vm_scriptIdx vm) 0) as [Ei0|Ei0]; [destruct (vm_isP2SH vm) eqn:Ep2|]; cbn [andb].
  - (* end of the signature script of a pay-to-script-hash input *)
    apply wp_bind, wp_modify, wp_modify. simpl (vm_scriptIdx (restarted vm)).
    destruct (Hp2 eq_refl) as [(s1 & Hs1 & Hsh1) _].
    assert (zlen (vm_scripts vm) = 2) as Hz by lia.
    apply wp_skipEmpty; simpl; try lia.
    + intros s2 Hs2 Hpos. assert (s2 = s1) as ->.
      { replace (Z.to_nat (vm_scriptIdx vm + 1)) with 1%nat in Hs2 by lia. congruence. }
      split.
      * eapply enter_script; simpl; try done; try lia. intros _. split; [eauto|]. intros _.
        unfold saved_ok. simpl. unfold GetStack. simpl. rewrite getStack_spec by done.
        split; [by apply Hsig|]. pose proof (zlen_nonneg (vm_astack vm)). destruct Hr as (? & _ & ? & _).
        split; [done|lia].
      * rewrite (opcodes_left_at _ s1) by (simpl; done || lia). simpl. rewrite Ep2.
        replace (Z.to_nat (vm_scriptIdx vm)) with 0%nat in Hleft by lia.
        replace (Z.to_nat (vm_scriptIdx vm + 1)) with 1%nat by lia.
        rewrite (drop_S _ _ _ Hs1) in Hleft. simpl in Hleft.
        rewrite zlen_app in Hleft. cbn [andb]. lia.
    + replace (Z.to_nat (vm_scriptIdx vm + 1)) with 1%nat by lia. intros Hs2.
      rewrite Hs1 in Hs2. injection Hs2 as ->. done.
  - (* end of the signature script *)
    rewrite andb_false_r. apply wp_modify. simpl (vm_scriptIdx (restarted vm)).
    assert (zlen (vm_scripts vm) = 2) as Hz by lia.
    apply wp_skipEmpty; simpl; try lia.
    + intros s1 Hs1 Hpos. split.
      * eapply enter_script; simpl; try done; try lia. congruence.
      * rewrite (opcodes_left_at _ s1) by (simpl; done || lia). simpl. rewrite Ep2. simpl.
        replace (Z.to_nat (vm_scriptIdx vm)) with 0%nat in Hleft by lia.
        replace (Z.to_nat (vm_scriptIdx vm + 1)) with 1%nat in * by lia.
        rewrite (drop_S _ _ _ Hs1) in Hleft. simpl in Hleft.
        rewrite zlen_app in Hleft. lia.
    + intros _. split; [done|simpl; lia].
  - destruct (Z.eqb_spec (vm_scriptIdx vm) 1) as [Ei1|Ei1]; [destruct (vm_isP2SH vm) eqn:Ep2|]; cbn [andb].
    + (* end of a pay-to-script-hash public key script *)
      destruct (Hp2 eq_refl) as [Hsh1 Hsv]. assert (zlen (vm_scripts vm) = 2) as Hz by lia.
      apply wp_scheduleRedeemScript; simpl; [done|done|lia|lia|by apply Hsv|].
      intros vm2 pops Hr2 Hc2 Hs2 Hgood Hlen Hi2 Ho2 Hp22.
      assert (zlen (vm_scripts vm2) = 3) as Hz2 by (rewrite Hs2, zlen_app, Hz; done).
      assert (vm_scripts vm2 !! Z.to_nat (vm_scriptIdx vm2) = Some pops) as Hlast.
      { rewrite Hi2, Hs2. apply list_lookup_middle. unfold zlen in Hz. lia. }
      apply wp_skipEmpty; try lia.
      * intros s2 Hs2' Hpos. rewrite Hlast in Hs2'. injection Hs2' as <-. split.
        -- eapply enter_script; try done; try lia.
           ++ rewrite Hs2. apply Forall_app. split; [done|]. by constructor.
           ++ intros _. split; [|lia]. destruct Hsh1 as (s1 & Hs1 & Hh). exists s1. split; [|done].
              rewrite Hs2. by apply lookup_app_l_Some.
        -- rewrite (opcodes_left_at _ pops) by (done || lia). rewrite Hi2, Hs2, Hp22, Ep2.
           rewrite drop_ge by (rewrite length_app; unfold zlen in Hz; simpl; lia).
           rewrite <- Hs2, Hz2, Ho2. simpl. simpl in Hleft. rewrite Hz in Hleft. simpl in Hleft.
           pose proof (zlen_nonneg (concat (drop (S (Z.to_nat (vm_scriptIdx vm))) (vm_scripts vm)))).
           change (zlen (@nil parsedOpcode)) with 0. lia.
      * intros _. split; [by apply run_inv_scriptIdx|simpl; lia].
    + apply wp_modify. assert (zlen (vm_scripts vm) = 2) as Hz by lia.
      apply wp_skipEmpty; simpl; try lia.
      * intros _. split; [done|simpl; lia].
      * intros s2 Hs2 _. exfalso. apply zlen_lookup in Hs2; lia.
      * intros Hs2. exfalso. apply zlen_lookup in Hs2; lia.
    + apply wp_modify. assert (zlen (vm_scripts vm) = 3 ∧ vm_scriptIdx vm = 2) as [Hz Hi2] by lia.
      apply wp_skipEmpty; simpl; try lia.
      * intros _. split; [done|simpl; lia].
      * intros s2 Hs2 _. exfalso. apply zlen_lookup in Hs2; lia.
      * intros Hs2. exfalso. apply zlen_lookup in Hs2; lia.
Qed.

(** ** One step *)
Lemma isPushOnly_lookup script pop i :
  isPushOnly script = true → script !! i = Some pop → pop_value pop ≤ Op16.
Proof using Type.
  unfold isPushOnly. rewrite forallb_forall. intros Hall Hp.
  specialize (Hall pop (proj1 (list_elem_of_In _ _) (list_elem_of_lookup_2 _ _ _ Hp))).
  apply negb_true_iff in Hall. rewrite Z.gtb_ltb in Hall. by apply Z.ltb_ge in Hall.
Qed.

Lemma isScriptHash_head script pop :
  isScriptHash script = true → script !! 0%nat = Some pop → pop_value pop = OpBlake2b.
Proof using Type.
  destruct script as [|p0 [|p1 [|p2 [|]]]]; try done. simpl. intros Hh [= <-].
  apply andb_true_iff in Hh as [[Hh _]%andb_true_iff _]. by apply Z.eqb_eq in Hh.
Qed.

(** The state after the opcode at the program counter, before the bookkeeping. *)
Lemma opcode_executed vm script pop vm2 :
  engine_ok vm → vm_scripts vm !! Z.to_nat (vm_scriptIdx vm) = Some script →
  script !! Z.to_nat (vm_scriptOff vm) = Some pop →
  executeOpcode pop (set_scriptOff (vm_scriptOff vm + 1) vm) = (vm2, Ret ()) →
  (vm_scriptIdx vm = 0 → vm_dstack vm2 ≠ [] ∧ vm_condStack vm2 = []) ∧
  (vm_isP2SH vm = true → vm_scriptIdx vm = 1 → saved_ok vm).
Proof using Type.
  intros [Hr Hsc _ _ Hsig Hp2] Hs Hpop Hex.
  assert (pop_good pop) as Hg.
  { eapply Forall_lookup_1 in Hs; [|done]. by eapply Forall_lookup_1 in Hpop. }
  split.
  - intros Ei. destruct (Hsig Ei) as (Hpush & Hc & _). rewrite Ei in Hs.
    apply (executeOpcode_push pop (set_scriptOff (vm_scriptOff vm + 1) vm)); [done| |done|done].
    eapply isPushOnly_lookup; [|done]. by apply Hpush.
  - intros Ep Ei. destruct (Hp2 Ep) as [(s1 & Hs1 & Hh) Hsv].
    destruct (Hsv Ei) as [(Ho & Hd & Hc)|]; [|done]. exfalso.
    rewrite Ei in Hs. change (Z.to_nat 1) with 1%nat in Hs. rewrite Hs1 in Hs. injection Hs as ->.
    rewrite Ho in Hpop. change (Z.to_nat 0) with 0%nat in Hpop.
    eapply (executeOpcode_Blake2b pop); [done| | | |done]; [by eapply isScriptHash_head|done|done].
Qed.

Lemma Step_preserves vm : engine_ok vm →
  wp Step (step_post (opcodes_left vm)) (λ _ _, True) vm.
Proof using All.
  intros Hok. pose proof Hok as [Hr Hsc (script & Hi & Hs & Ho) Hsh _ Hp2]. unfold Step.
  pose proof (zlen_lookup _ _ _ Hs Hi) as Hlt.
  assert (@index error _ (vm_scripts vm) (vm_scriptIdx vm) = Ret script) as Hix.
  { unfold index. by rewrite decide_True, Hs by lia. }
  destruct (@index_in_range error _ script (vm_scriptOff vm)) as (pop & Hixp & Hpop); [lia|].
  apply wp_bind. unfold validPC. apply wp_bind, wp_get. rewrite Z.geb_leb, (proj2 (Z.leb_gt _ _)) by lia.
  apply wp_bind. unfold wp at 1, lift_outcome at 1. rewrite Hix.
  rewrite Z.geb_leb, (proj2 (Z.leb_gt _ _)) by lia. apply wp_ret, wp_bind, wp_get, wp_bind.
  unfold wp at 1, lift_outcome at 1. rewrite Hix. apply wp_bind.
  unfold wp at 1, lift_outcome at 1. rewrite Hixp. apply wp_bind, wp_modify, wp_bind.
  set (vm1 := set_scriptOff (vm_scriptOff vm + 1) vm).
  assert (pop_good pop) as Hg.
  { eapply Forall_lookup_1 in Hs; [|done]. by eapply Forall_lookup_1 in Hpop. }
  assert (run_inv MaxStackSize vm1) as Hr1 by exact Hr.
  pose proof (safe_executeOpcode pop MaxStackSize ltac:(unfold MaxStackSize; lia) Hg vm1 Hr1) as Hex.
  pose proof (opcode_executed vm script pop) as Hfacts. fold vm1 in Hfacts.
  unfold wp in Hex |- * at 1. destruct (executeOpcode pop vm1) as [vm2 [[]|e|c]] eqn:E; [|done|done].
  destruct Hex as (_ & Hr2 & Hst). destruct (Hfacts vm2 Hok Hs Hpop eq_refl) as [Hf0 Hf1].
  injection Hst as Hv2 Hsc2 Hi2 Ho2 Htx2 Htxi2 Hfl2 Hp22 Hsv2.
  pose proof Hr2 as (Hd2 & Ha2 & Hk2 & Hrest2).
  pose proof (zlen_nonneg (vm_dstack vm2)). pose proof (zlen_nonneg (vm_astack vm2)).
  unfold MaxStackSize in Hk2.
  apply wp_bind. unfold wp at 1. rewrite on_dstack_Depth by (unfold max_depth; lia).
  apply wp_bind. unfold wp at 1. rewrite on_astack_Depth by (unfold max_depth; lia).
  rewrite GoInt.int32_id, Z.gtb_ltb by lia.
  destruct (Z.ltb_spec MaxStackSize (zlen (vm_dstack vm2) + zlen (vm_astack vm2))) as [|Hfit]; [done|].
  assert (run_inv MaxStackSize vm2) as Hr2' by (repeat (split; [done|]); done).
  apply wp_bind, wp_get, wp_bind. unfold wp at 1, lift_outcome at 1.
  rewrite Hsc2, Hi2. simpl (vm_scripts vm1). simpl (vm_scriptIdx vm1). rewrite Hix.
  rewrite Ho2. simpl (vm_scriptOff vm1). rewrite Z.geb_leb.
  rewrite (opcodes_left_at vm script) by done.
  destruct (Z.leb_spec (zlen script) (vm_scriptOff vm + 1)) as [Hend|Hmore].
  - apply (wp_nextScript vm2 script).
    + split; rewrite ?Hsc2, ?Hi2, ?Ho2, ?Hp22; try done; simpl; try lia.
      * intros Ei. by apply Hf0.
      * intros Ep. destruct (Hp2 Ep) as [? _]. split; [done|]. intros Ei.
        unfold saved_ok. rewrite Hsv2. by apply Hf1.
    + rewrite (opcodes_left_at vm2 script); rewrite ?Hi2, ?Hsc2, ?Ho2, ?Hp22; try done; simpl. lia.
  - apply wp_ret. split.
    + split; rewrite ?Hsc2, ?Hi2, ?Ho2, ?Hp22; try done; simpl.
      * exists script. split; [done|]. split; [done|lia].
      * intros Ei. destruct (eo_sig vm Hok Ei) as (? & _ & _). split; [done|].
        destruct (Hf0 Ei) as [? ?]. done.
      * intros Ep. destruct (Hp2 Ep) as [? _]. split; [done|]. intros Ei. right.
        unfold saved_ok. rewrite Hsv2. by apply Hf1.
    + rewrite (opcodes_left_at vm2 script); rewrite ?Hi2, ?Hsc2, ?Ho2, ?Hp22; try done; simpl. lia.
Qed.

(** ** All steps *)
Lemma wp_executeLoop fuel vm : engine_ok vm → opcodes_left vm ≤ Z.of_nat fuel →
  wp (executeLoop fuel) (λ _, engine_done) (λ _ _, True) vm.
Proof using All.
  revert vm. induction fuel as [|fuel IH]; intros vm Hok Hf.
  - exfalso. pose proof Hok as [_ _ (script & Hi & Hs & Ho) _ _ _].
    rewrite (opcodes_left_at vm script) in Hf by done.
    pose proof (zlen_nonneg (concat (drop (S (Z.to_nat (vm_scriptIdx vm))) (vm_scripts vm)))).
    destruct (vm_isP2SH vm && (zlen (vm_scripts vm) =? 2)); unfold MaxScriptElementSize in Hf; lia.
  - cbn [executeLoop]. apply wp_bind. eapply wp_mono; [by apply Step_preserves| |done].
    intros [] vm' Hpost; simpl in Hpost; [done|]. destruct Hpost as [Hok' Hlt]. apply IH; [done|lia].
Qed.

(** What the caller of [NewEngine] provides. *)
Record inputs_ok (scriptPubKey : ScriptPublicKey) (tx : DomainTransaction) (txIdx : Z)
    (c1 : option (SigCache SchnorrSignature SchnorrPublicKey))
    (c2 : option (SigCache ECDSASignature ECDSAPublicKey))
    (r : option SighashReusedValues) : Prop := {
  io_spk : are_bytes (spk_Script scriptPubKey);
  io_sigs : Forall (λ i, are_bytes (in_SignatureScript i)) (tx_Inputs tx);
  io_utxos : Forall (λ i, is_Some (in_UTXOEntry i)) (tx_Inputs tx);
  io_reuse : ∃ v, r = Some v ∧ reuse_ok tx v;
  io_c1 : ∀ c, c1 = Some c → cache_ok c;
  io_c2 : ∀ c, c2 = Some c → cache_ok c
}.

Lemma parseAndVerify_spec script : are_bytes script →
  (∃ pops, parseScriptAndVerifySize script = Ret pops ∧ Forall pop_good pops ∧
           zlen pops ≤ MaxScriptSize ∧ (script ≠ [] → pops ≠ [])) ∨
  ∃ e, parseScriptAndVerifySize script = Fail e.
Proof using Type.
  intros Hb. unfold parseScriptAndVerifySize. rewrite Z.gtb_ltb.
  destruct (Z.ltb_spec MaxScriptSize (zlen script)); [right; eauto|].
  destruct (parseScriptE_spec script Hb) as [(pops & -> & Hok & Henc)|Hfail]; [left|right; eauto].
  exists pops. split; [done|]. split; [|split].
  - rewrite Henc in Hb. apply encodings_bytes in Hb. apply Forall_forall. intros p Hp.
    split; [by eapply Forall_forall in Hok|by eapply Forall_forall in Hb].
  - pose proof (encodings_length pops). rewrite <- Henc in *. unfold zlen in *. lia.
  - intros Hne ->. by apply Hne.
Qed.

Lemma index_inv {E A} (l : list A) i x : @index E A l i = Ret x → 0 ≤ i ∧ l !! Z.to_nat i = Some x.
Proof using Type. unfold index. destruct (decide _); [|done]. by destruct (l !! _); intros [= ->]. Qed.

Lemma NewEngine_ok spk tx txIdx flags c1 c2 r vm :
  inputs_ok spk tx txIdx c1 c2 r → NewEngine spk tx txIdx flags c1 c2 r = Ret vm →
  vm_scriptVersion vm = spk_Version spk ∧
  (spk_Version spk ≤ MaxScriptPublicKeyVersion → engine_ok vm ∧ opcodes_left vm ≤ Z.of_nat execute_fuel).
Proof using Type.
  intros [Hspk Hsigs Hutxos (v & Hr & Hrok) Hc1 Hc2]. unfold NewEngine.
  destruct (_ || _); [done|]. destruct (index (tx_Inputs tx) txIdx) as [txIn| |] eqn:Hix; [|done|done].
  apply index_inv in Hix as [Htxi Hin]. cbn [obind]. cbv zeta.
  destruct (_ && _) eqn:Eempty; [done|]. rewrite Z.gtb_ltb.
  destruct (Z.ltb_spec MaxScriptPublicKeyVersion (spk_Version spk)) as [Hver|Hver].
  { intros [= <-]. split; [done|]. simpl. lia. }
  assert (are_bytes (in_SignatureScript txIn)) as Hsig by (by eapply (Forall_lookup_1 _ _ _ _ Hsigs)).
  destruct (parseAndVerify_spec _ Hsig) as [(pops0 & -> & Hg0 & Hl0 & Hn0)|[e ->]]; [|done].
  cbn [obind]. destruct (isPushOnly pops0) eqn:Epush; [|done]. cbn [negb].
  destruct (parseAndVerify_spec _ Hspk) as [(pops1 & -> & Hg1 & Hl1 & Hn1)|[e ->]]; [|done].
  cbn [obind]. rewrite andb_false_r. intros [= <-]. split; [done|]. intros _.
  destruct (Forall_lookup_1 _ _ _ _ Hutxos Hin) as [utxo Hutxo].
  set (i0 := if zlen (in_SignatureScript txIn) =? 0 then 1 else 0).
  assert (0 ≤ i0 ≤ 1 ∧ ∃ script, [pops0; pops1] !! Z.to_nat i0 = Some script ∧ 0 < zlen script) as [Hi0 Hpc].
  { unfold i0. destruct (Z.eqb_spec (zlen (in_SignatureScript txIn)) 0) as [Ez|Ez].
    - split; [lia|]. exists pops1. split; [done|]. cbn [andb] in Eempty. apply Z.eqb_neq in Eempty.
      assert (pops1 ≠ []) by (apply Hn1; intros E; by rewrite E in Eempty).
      destruct pops1; [done|zlia].
    - split; [lia|]. exists pops0. split; [done|].
      assert (pops0 ≠ []) by (apply Hn0; intros E; by rewrite E in Ez).
      destruct pops0; [done|zlia]. }
  destruct Hpc as (script & Hpc & Hpos). split.
  - split; simpl.
    + split; [constructor|]. split; [constructor|]. split; [done|]. split; [done|]. split; [constructor|].
      split; [|done]. exists txIn, utxo, v. done.
    + by repeat constructor.
    + exists script. split; [lia|]. split; [done|lia].
    + by left.
    + intros _. split; [by intros ? [= <-]|]. split; [done|lia].
    + intros Ep. split; [by exists pops1|]. intros _. by left.
  - unfold opcodes_left. cbn [vm_scripts vm_scriptIdx vm_scriptOff vm_isP2SH]. fold i0.
    assert (zlen (concat (drop (Z.to_nat i0) [pops0; pops1])) ≤ zlen pops0 + zlen pops1) as Hcat.
    { assert (i0 = 0 ∨ i0 = 1) as [-> | ->] by lia; simpl; zlia. }
    unfold execute_fuel, MaxScriptSize, MaxScriptElementSize in *. rewrite Z2Nat.id by done.
    destruct (isScriptHash pops1 && _); lia.
Qed.

Lemma wp_CheckErrorCondition_final vm :
  engine_done vm → wp (CheckErrorCondition true)
    (λ _ vm', vm_dstack vm' = [] ∧ ∃ x, vm_dstack vm = [x] ∧ asBool x = true) (λ _ _, True) vm.
Proof using Type.
  intros [Hr Hi]. unfold CheckErrorCondition. apply wp_bind, wp_get.
  rewrite (proj2 (Z.ltb_ge _ _)) by lia. pose proof (run_inv_depth vm Hr) as [Hdd _].
  apply wp_bind, wp_bind. unfold wp at 1. rewrite on_dstack_Depth by done. rewrite Z.gtb_ltb.
  destruct (Z.ltb_spec 1 (zlen (vm_dstack vm))); [done|].
  destruct (Z.ltb_spec (zlen (vm_dstack vm)) 1); [done|].
  assert (∃ x, vm_dstack vm = [x]) as [x Hx].
  { destruct (vm_dstack vm) as [|x [|]]; [simpl in *; zlia|eauto|zlia]. }
  apply wp_ret, wp_bind. apply wp_zoom. rewrite Hx.
  unfold PopBool. rewrite (bind_ret_l _ _ [x] [] x) by (apply (nipN_spec [] []); done).
  unfold ret. destruct (asBool x) eqn:Eb; [|done]. apply wp_ret. split; [done|eauto].
Qed.

Lemma Execute_spec spk tx txIdx flags c1 c2 r :
  inputs_ok spk tx txIdx c1 c2 r →
  (∀ c, NewEngine spk tx txIdx flags c1 c2 r ≠ Crash c) ∧
  ∀ vm, NewEngine spk tx txIdx flags c1 c2 r = Ret vm →
    (∃ e, snd (Execute vm) = Fail e) ∨
    snd (Execute vm) = Ret () ∧
    (MaxScriptPublicKeyVersion < spk_Version spk ∨
     ∃ vm1 x, executeLoop execute_fuel vm = (vm1, Ret ()) ∧ engine_done vm1 ∧
              vm_dstack vm1 = [x] ∧ asBool x = true).
Proof using All.
  intros Hin. split.
  - intros c. destruct Hin as [Hspk Hsigs _ _ _ _]. unfold NewEngine.
    destruct (_ || _) eqn:Eidx; [done|]. apply orb_false_iff in Eidx as [E1%Z.ltb_ge E2].
    rewrite Z.geb_leb in E2. apply Z.leb_gt in E2.
    destruct (@index_in_range error _ (tx_Inputs tx) txIdx) as (txIn & -> & Hl); [lia|]. cbn [obind].
    assert (are_bytes (in_SignatureScript txIn)) as Hsig by (by eapply (Forall_lookup_1 _ _ _ _ Hsigs)).
    destruct (_ && _); [done|]. destruct (_ >? _); [done|].
    destruct (parseAndVerify_spec _ Hsig) as [(p0 & -> & _)|[e ->]]; [|done]. cbn [obind].
    destruct (negb _); [done|].
    destruct (parseAndVerify_spec _ Hspk) as [(p1 & -> & _)|[e ->]]; [|done]. cbn [obind].
    by destruct (_ && _).
  - intros vm Hnew. destruct (NewEngine_ok _ _ _ _ _ _ _ _ Hin Hnew) as [Hv Hok]. unfold Execute.
    rewrite (bind_ret_l _ _ vm vm (vm_scriptVersion vm)) by done. rewrite Hv, Z.gtb_ltb.
    destruct (Z.ltb_spec MaxScriptPublicKeyVersion (spk_Version spk)) as [|Hle]; [right; auto|].
    destruct (Hok Hle) as [Heo Hfuel].
    pose proof (wp_executeLoop execute_fuel vm Heo Hfuel) as Hloop. unfold wp in Hloop. unfold bind.
    destruct (executeLoop execute_fuel vm) as [vm1 [[]|e|c]]; [|left; by exists e|done].
    pose proof (wp_CheckErrorCondition_final vm1 Hloop) as Hfin. unfold wp in Hfin.
    destruct (CheckErrorCondition true vm1) as [vm2 [[]|e|c]]; [|left; by exists e|done].
    destruct Hfin as (_ & x & Hx & Hb). right. split; [done|]. right. by exists vm1, x.
Qed.
End Engine.

(** ** Properties *)
Module EngineProps.
(** The states an engine goes through. *)
Inductive reachable `{Libs} (vm0 : Engine) : Engine → Prop :=
  | reach_init : reachable vm0 vm0
  | reach_step vm vm' done :
      reachable vm0 vm → Step vm = (vm', Ret done) → reachable vm0 vm'.

Definition sample_spk : ScriptPublicKey := {| spk_Script := [OpNop]; spk_Version := 0 |}.

Definition sample_engine : Engine :=
  match NewEngine sample_spk HashingProps.sample_tx 0 0 None None (Some HashingProps.no_values) with
  | Ret vm => vm
  | _ => {| vm_scriptVersion := 0; vm_scripts := []; vm_scriptIdx := 0; vm_scriptOff := 0;
            vm_dstack := []; vm_astack := []; vm_tx := zeroTx; vm_txIdx := 0; vm_condStack := [];
            vm_numOps := 0; vm_flags := 0; vm_sigCache := None; vm_sigCacheECDSA := None;
            vm_sigHashReusedValues := None; vm_isP2SH := false; vm_savedFirstStack := [] |}
  end.

Lemma sample_inputs_ok :
  inputs_ok sample_spk HashingProps.sample_tx 0 None None (Some HashingProps.no_values).
Proof.
  split; simpl; try done.
  - apply are_bytes_cons. split; [done|apply are_bytes_nil].
  - repeat constructor; done.
  - constructor; [by eexists|constructor].
  - eexists. split; [done|]. repeat split; intros ? [=].
Qed.

(** C1: executing scripts is total.  For every byte string as public key script
    and signature script, [NewEngine] does not panic, and on the engine it
    returns [Execute] terminates, within the 20,530 steps the size limits allow,
    with nil or an error: no index out of range, no nil dereference, no
    unbounded loop.  Nil means that the script version is unknown, or that the
    scripts ran to the end and left exactly one item, true as a boolean. *)
Theorem Execute_total `{LibsOk} spk tx txIdx flags c1 c2 r :
  inputs_ok spk tx txIdx c1 c2 r →
  (∀ c, NewEngine spk tx txIdx flags c1 c2 r ≠ Crash c) ∧
  ∀ vm, NewEngine spk tx txIdx flags c1 c2 r = Ret vm →
    (∃ e, snd (Execute vm) = Fail e) ∨
    snd (Execute vm) = Ret () ∧
    (MaxScriptPublicKeyVersion < spk_Version spk ∨
     ∃ vm1 x, executeLoop execute_fuel vm = (vm1, Ret ()) ∧ engine_done vm1 ∧
              vm_dstack vm1 = [x] ∧ asBool x = true).
Proof. apply Execute_spec. Qed.

Lemma Execute_total_witness :
  (∀ c, NewEngine sample_spk HashingProps.sample_tx 0 0 None None (Some HashingProps.no_values)
        ≠ Crash c) ∧
  snd (Execute sample_engine) = Ret ().
Proof.
  split.
  - exact (proj1 (Execute_total sample_spk HashingProps.sample_tx 0 0 None None
                    (Some HashingProps.no_values) sample_inputs_ok)).
  - vm_compute. reflexivity.
Defined.

(** The resource limits hold in every state an execution goes through:
    no stack item is longer than 520 bytes, the two stacks together hold at most
    244 items, at most 201 operations are counted, and the next step does not
    panic. *)
Theorem reachable_limits `{LibsOk} spk tx txIdx flags c1 c2 r vm0 vm :
  inputs_ok spk tx txIdx c1 c2 r → NewEngine spk tx txIdx flags c1 c2 r = Ret vm0 →
  spk_Version spk ≤ MaxScriptPublicKeyVersion → reachable vm0 vm →
  Forall (λ x, zlen x ≤ MaxScriptElementSize) (vm_dstack vm ++ vm_astack vm) ∧
  zlen (vm_dstack vm) + zlen (vm_astack vm) ≤ MaxStackSize ∧
  0 ≤ vm_numOps vm ≤ MaxOpsPerScript ∧
  ∀ vm' c, Step vm ≠ (vm', Crash c).
Proof.
  intros Hin Hnew Hver Hreach.
  assert (engine_ok vm ∨ engine_done vm) as Hinv.
  { induction Hreach as [|vm vm' done Hreach IH Hstep].
    - left. by apply (NewEngine_ok _ _ _ _ _ _ _ _ Hin Hnew).
    - destruct IH as [Hok|[Hrun Hend]].
      + pose proof (Step_preserves vm Hok) as Hwp. unfold wp in Hwp. rewrite Hstep in Hwp.
        destruct done; [by right|left; apply Hwp].
      + exfalso. unfold Step, validPC, bind, get in Hstep.
        rewrite Z.geb_leb, (proj2 (Z.leb_le _ _)) in Hstep by lia. done. }
  assert (run_inv MaxStackSize vm) as (Hd & Ha & Hk & Hn & _).
  { destruct Hinv as [[]|[]]; done. }
  split; [|split; [done|split; [done|]]].
  - apply Forall_app. split; eapply Forall_impl; try done; by intros x [].
  - intros vm' c Hstep. destruct Hinv as [Hok|[_ Hend]].
    + pose proof (Step_preserves vm Hok) as Hwp. unfold wp in Hwp. by rewrite Hstep in Hwp.
    + unfold Step, validPC, bind, get in Hstep.
      rewrite Z.geb_leb, (proj2 (Z.leb_le _ _)) in Hstep by lia. done.
Qed.

Lemma reachable_limits_witness :
  let vm := fst (Step sample_engine) in
  Forall (λ x, zlen x ≤ MaxScriptElementSize) (vm_dstack vm ++ vm_astack vm) ∧
  zlen (vm_dstack vm) + zlen (vm_astack vm) ≤ MaxStackSize ∧
  0 ≤ vm_numOps vm ≤ MaxOpsPerScript ∧
  ∀ vm' c, Step vm ≠ (vm', Crash c).
Proof.
  intros vm.
  apply (reachable_limits sample_spk HashingProps.sample_tx 0 0 None None
           (Some HashingProps.no_values) sample_engine vm sample_inputs_ok).
  - reflexivity.
  - discriminate.
  - apply (reach_step _ sample_engine vm false); [constructor|vm_compute; reflexivity].
Defined.
End EngineProps.
