(* ===== verification/SigSpec.v ===== *)
(** * What the signature opcodes decide

    OP_CHECKSIG and OP_CHECKMULTISIG, and their ECDSA forms, against
    specifications without caches, reused hashes or loops: [sig_verdict] for one
    signature, and for several the order-preserving matching [matched] of
    signatures to keys. *)
From S2P Require Import Prelude Externalapi ScriptNum ScriptStack OpcodeTable Script Hashing SigCache Opcode.
From S2P Require Import OpcodeSafety Engine EngineSafety.
Import Op ScriptNum Stack Script SigHash SigCache Opcode.
Local Open Scope Z_scope.
Local Open Scope prog_scope.

(** ** Matching

    [matched V ss ks]: every element of [ss] can be given its own partner among
    [ks], in order. *)
Inductive matched {A B} (V : A → B → Prop) : list A → list B → Prop :=
  | matched_done ks : matched V [] ks
  | matched_take s k ss ks : V s k → matched V ss ks → matched V (s :: ss) (k :: ks)
  | matched_skip k ss ks : matched V ss ks → matched V ss (k :: ks).

Section Matching.
Context {A B : Type} (V : A → B → Prop).

Lemma matched_length ss ks : matched V ss ks → (length ss ≤ length ks)%nat.
Proof. induction 1; simpl; lia. Qed.

Lemma matched_tail s ss ks : matched V (s :: ss) ks → matched V ss ks.
Proof.
  intros Hm. remember (s :: ss) as l eqn:E. revert s ss E.
  induction Hm as [|s' k ss' ks HV Hm IH|k ss' ks Hm IH]; intros s ss E; [done| |].
  - injection E as -> ->. by apply matched_skip.
  - apply matched_skip. by eapply IH.
Qed.

(** Taking a match when there is one loses nothing. *)
Lemma matched_take_iff s k ss ks :
  V s k → matched V (s :: ss) (k :: ks) ↔ matched V ss ks.
Proof.
  intros HV. split; [|by apply matched_take].
  inversion 1; subst; [done|]. by eapply matched_tail.
Qed.

Lemma matched_skip_iff s k ss ks :
  ¬ V s k → matched V (s :: ss) (k :: ks) ↔ matched V (s :: ss) ks.
Proof. intros HV. split; [|by apply matched_skip]. by inversion 1; subst. Qed.

Lemma matched_snoc_skip k ss ks : matched V ss ks → matched V ss (ks ++ [k]).
Proof. induction 1; simpl; by constructor. Qed.

Lemma matched_snoc s k ss ks : V s k → matched V ss ks → matched V (ss ++ [s]) (ks ++ [k]).
Proof.
  intros HV. induction 1 as [ks|s' k' ss ks HV' Hm IH|k' ss ks Hm IH]; simpl; [|by constructor..].
  induction ks as [|k' ks IH]; simpl; [by repeat constructor|by apply matched_skip].
Qed.

Lemma matched_reverse ss ks : matched V ss ks → matched V (reverse ss) (reverse ks).
Proof.
  induction 1 as [ks|s k ss ks HV Hm IH|k ss ks Hm IH]; rewrite ?reverse_cons.
  - constructor.
  - by apply matched_snoc.
  - by apply matched_snoc_skip.
Qed.

Lemma matched_reverse_iff ss ks : matched V (reverse ss) (reverse ks) ↔ matched V ss ks.
Proof.
  split; [|apply matched_reverse]. intros Hm%matched_reverse. by rewrite !reverse_involutive in Hm.
Qed.
End Matching.

(** What a signature opcode leaves alone, apart from the data stack. *)
Definition others `{Libs} (vm : Engine) :=
  (static vm, vm_astack vm, vm_condStack vm).

Section Spec.
Context `{Libs} `{!LibsOk}.
Abbreviation engineM A := (prog Engine error A) (only parsing).

(** ** The message that is signed *)
Definition schnorr_digest (tx : DomainTransaction) (idx ht : Z) : DomainHash :=
  match tx_Inputs tx !! Z.to_nat idx with
  | Some txIn =>
      match in_UTXOEntry txIn with
      | Some utxo =>
          signing_hash (preimage {| sg_tx := tx; sg_idx := idx; sg_in := txIn; sg_utxo := utxo;
                                    sg_type := ht |})
      | None => []
      end
  | None => []
  end.

Definition ecdsa_digest (tx : DomainTransaction) (idx ht : Z) : DomainHash :=
  sha256_Sum256 (HashWriters.transactionSigningECDSADomainHash ++ schnorr_digest tx idx ht).

(** A scheme that signs [digest]. *)
Record scheme_signs {Sig PK} (sc : scheme Sig PK)
    (digest : DomainTransaction → Z → Z → DomainHash) : Prop := {
  ss_ok : scheme_ok sc;
  ss_hash tx idx ht txIn utxo r :
    IsStandardSigHashType ht = true → 0 ≤ idx → tx_Inputs tx !! Z.to_nat idx = Some txIn →
    in_UTXOEntry txIn = Some utxo → reuse_ok tx r →
    ∃ r', sc_CalculateSignatureHash _ _ sc tx idx ht (Some r) = (Some r', Ret (digest tx idx ht)) ∧
          reuse_ok tx r';
  ss_set c vm :
    let vm' := sc_set_sigCache _ _ sc c vm in
    others vm' = others vm ∧ vm_dstack vm' = vm_dstack vm ∧ vm_numOps vm' = vm_numOps vm
}.

Lemma schnorr_signs : scheme_signs schnorrScheme schnorr_digest.
Proof using All.
  split; [apply schnorrScheme_ok| |done]. intros tx idx ht txIn utxo r Hst Hi Hl Hu Hr. simpl.
  unfold schnorr_digest. rewrite Hl, Hu. by apply CalculateSignatureHashSchnorr_spec.
Qed.

Lemma ecdsa_signs : scheme_signs ecdsaScheme ecdsa_digest.
Proof using All.
  split; [apply ecdsaScheme_ok| |done]. intros tx idx ht txIn utxo r Hst Hi Hl Hu Hr. simpl.
  unfold ecdsa_digest, schnorr_digest. rewrite Hl, Hu. by apply CalculateSignatureHashECDSA_spec.
Qed.

Section Scheme.
Context {Sig PK : Type} (sc : scheme Sig PK) (digest : DomainTransaction → Z → Z → DomainHash).
Context (Hsc : scheme_signs sc digest).
#[local] Existing Instance sc_alg.

(** ** One signature *)

(** The verdict on the public key [pk] and the signature [full], which ends
    with its hash type. *)
Definition sig_verdict (tx : DomainTransaction) (idx : Z) (pk full : list Z) : fallible bool :=
  match last full with
  | None => Ret false
  | Some ht =>
      let sigBytes := removelast full in
      if negb (IsStandardSigHashType ht) then Fail ErrInvalidSigHashType
      else
        let? _ := sc_checkSignatureLength _ _ sc sigBytes in
        let? _ := sc_checkPubKeyEncoding _ _ sc pk in
        match @DeserializePubKey _ _ (sc_alg _ _ sc) pk,
              @DeserializeSignatureFromSlice _ _ (sc_alg _ _ sc) sigBytes with
        | Some p, Some s =>
            if @Verify _ _ (sc_alg _ _ sc) p (digest tx idx ht) s then Ret true
            else if zlen sigBytes >? 0 then Fail ErrNullFail else Ret false
        | _, _ => Ret false
        end
  end.

(** The two stacks apart, nothing observable changes. *)
Definition unchanged (vm vm' : Engine) : Prop :=
  others vm' = others vm ∧ vm_dstack vm' = vm_dstack vm ∧ vm_numOps vm' = vm_numOps vm.

Lemma unchanged_trans vm1 vm2 vm3 : unchanged vm1 vm2 → unchanged vm2 vm3 → unchanged vm1 vm3.
Proof using Type. unfold unchanged. intuition congruence. Qed.

Lemma signatureHash_exact B ht vm : run_inv B vm → IsStandardSigHashType ht = true →
  ∃ vm', signatureHash sc ht vm = (vm', Ret (digest (vm_tx vm) (vm_txIdx vm) ht)) ∧
         run_inv B vm' ∧ unchanged vm vm'.
Proof using Hsc.
  intros (Hd & Ha & HB & Hn & Hc & (txIn & utxo & r & Hi & Hl & Hu & Hr & Hrok) & Hcaches) Hst.
  destruct (ss_hash sc digest Hsc (vm_tx vm) (vm_txIdx vm) ht txIn utxo r) as (r' & Hh & Hr'); [done..|].
  unfold signatureHash, bind, get, zoom. rewrite Hr, Hh. eexists. split; [done|]. split; [|done].
  repeat (split; [done|]). split; [|done]. by exists txIn, utxo, r'.
Qed.

Lemma verifySignature_exact B h sig pk vm : run_inv B vm →
  ∃ vm', verifySignature sc h sig pk vm = (vm', Ret (@Verify _ _ (sc_alg _ _ sc) pk h sig)) ∧
         run_inv B vm' ∧ unchanged vm vm'.
Proof using All.
  intros Hvm. pose proof (ss_ok sc digest Hsc) as Hok. pose proof (so_alg sc Hok) as Halg.
  unfold verifySignature, bind, get. destruct (sc_sigCache _ _ sc vm) as [c|] eqn:Ec; [|by exists vm].
  pose proof (so_cache sc Hok B vm c Hvm Ec) as Hc. destruct (Exists c h sig pk) eqn:Ex.
  { rewrite (Exists_sound c h sig pk Hc Ex). by exists vm. }
  destruct (Verify pk h sig) eqn:Ev; [|by exists vm]. eexists. split; [done|]. split.
  - apply (so_set sc Hok B); [done|]. by apply Add_ok.
  - apply (ss_set sc digest Hsc).
Qed.

(** ** The data stack *)
Lemma run_inv_take B vm base xs :
  run_inv B vm → vm_dstack vm = base ++ xs → run_inv B (set_dstack base vm).
Proof using Type.
  intros (Hd & Ha & HB & Hrest) E. rewrite E in Hd, HB. apply Forall_app in Hd as [Hd _].
  split; [done|]. split; [done|]. split; [simpl; zlia|done].
Qed.

Lemma run_inv_depth_lt B vm : run_inv B vm → B < max_depth → zlen (vm_dstack vm) < max_depth.
Proof using Type. intros (_ & _ & HB & _) Hlt. pose proof (zlen_nonneg (vm_astack vm)). lia. Qed.

Lemma pop_exact vm base x : zlen (vm_dstack vm) < max_depth → vm_dstack vm = base ++ [x] →
  on_dstack PopByteArray vm = (set_dstack base vm, Ret x).
Proof using Type.
  intros Hd E. unfold on_dstack, zoom, PopByteArray. rewrite E in Hd |- *.
  rewrite (nipN_spec base [] x 0) by done. by rewrite app_nil_r.
Qed.

Lemma index_slice_snoc {E} (sb : list Z) ht :
  @index E _ (sb ++ [ht]) (zlen (sb ++ [ht]) - 1) = Ret ht ∧
  @slice E _ (sb ++ [ht]) 0 (zlen (sb ++ [ht]) - 1) = Ret sb.
Proof using Type.
  split; [apply index_last|]. apply (slice_app [] sb [ht]); zlia.
Qed.

(** [PushBool] at the end of a handler. *)
Definition decided (vm : Engine) (base : stack) (b : bool) (r : Engine * fallible unit) : Prop :=
  ∃ vm', r = (vm', Ret ()) ∧ vm_dstack vm' = base ++ [fromBool b] ∧ others vm' = others vm.

Lemma decided_push vm base b vm1 : vm_dstack vm1 = base → others vm1 = others vm →
  decided vm base b (on_dstack (PushBool b) vm1).
Proof using Type. intros Hd Ho. eexists. split; [done|]. split; [simpl; by rewrite Hd|done]. Qed.

(** The answer of a handler: [v] decides what it pushes or reports. *)
Definition answers (vm : Engine) (base : stack) (v : fallible bool) (r : Engine * fallible unit) : Prop :=
  match v with
  | Ret b => decided vm base b r
  | Fail e => snd r = Fail e
  | Crash _ => False
  end.

Lemma checkSig_exact B op vm base full pk :
  run_inv B vm → B < max_depth → vm_dstack vm = base ++ [full] ++ [pk] →
  answers vm base (sig_verdict (vm_tx vm) (vm_txIdx vm) pk full) (checkSig sc op vm).
Proof using All.
  intros Hvm HB Hd. pose proof (run_inv_depth_lt B vm Hvm HB) as Hlt. rewrite app_assoc in Hd.
  pose proof (run_inv_take B vm (base ++ [full]) [pk] Hvm Hd) as Hvm1.
  pose proof (run_inv_depth_lt B _ Hvm1 HB) as Hlt1.
  pose proof (run_inv_take B _ base [full] Hvm1 eq_refl) as Hvm2.
  change (set_dstack base (set_dstack (base ++ [full]) vm)) with (set_dstack base vm) in Hvm2.
  unfold checkSig. rewrite (bind_ret_l _ _ _ _ _ (pop_exact vm _ pk Hlt Hd)).
  rewrite (bind_ret_l _ _ _ _ _ (pop_exact _ base full Hlt1 eq_refl)).
  change (set_dstack base (set_dstack (base ++ [full]) vm)) with (set_dstack base vm).
  set (vm2 := set_dstack base vm) in *. unfold sig_verdict.
  destruct full as [|ht sb _] using rev_ind; [by apply decided_push|].
  rewrite last_snoc, removelast_last. rewrite (proj2 (Z.ltb_ge _ _)) by zlia.
  destruct (@index_slice_snoc error sb ht) as [-> ->]. unfold lift_outcome at 1 2, bind at 1 2.
  destruct (IsStandardSigHashType ht) eqn:Hst; [|done]. cbn [negb].
  unfold lift_outcome at 1, bind at 1.
  destruct (sc_checkSignatureLength _ _ sc sb) as [[]|e|c] eqn:El; cbn [obind]; [|done|].
  2:{ by apply (so_len sc (ss_ok sc digest Hsc)) in El. }
  unfold lift_outcome at 1, bind at 1.
  destruct (sc_checkPubKeyEncoding _ _ sc pk) as [[]|e|c] eqn:Ep; cbn [obind]; [|done|].
  2:{ by apply (so_pk sc (ss_ok sc digest Hsc)) in Ep. }
  unfold try. destruct (signatureHash_exact B ht vm2 Hvm2 Hst) as (vm3 & -> & Hvm3 & Ho3 & Hd3 & _).
  destruct (DeserializePubKey pk) as [p|]; [|by apply decided_push].
  destruct (DeserializeSignatureFromSlice sb) as [sg|]; [|by apply decided_push].
  destruct (verifySignature_exact B (digest (vm_tx vm2) (vm_txIdx vm2) ht) sg p vm3 Hvm3)
    as (vm4 & Hv & _ & Ho4 & Hd4 & _).
  rewrite (bind_ret_l _ _ _ _ _ Hv). change (vm_tx vm2) with (vm_tx vm). change (vm_txIdx vm2) with (vm_txIdx vm).
  destruct (Verify p (digest (vm_tx vm) (vm_txIdx vm) ht) sg); cbn [negb andb].
  - apply decided_push; [by rewrite Hd4, Hd3|by rewrite Ho4, Ho3].
  - destruct (_ >? _); [done|]. apply decided_push; [by rewrite Hd4, Hd3|by rewrite Ho4, Ho3].
Qed.

(** ** Several signatures *)
Definition signature_valid (tx : DomainTransaction) (idx : Z) (full pk : list Z) : bool :=
  match last full with
  | None => false
  | Some ht =>
      match @DeserializePubKey _ _ (sc_alg _ _ sc) pk,
            @DeserializeSignatureFromSlice _ _ (sc_alg _ _ sc) (removelast full) with
      | Some p, Some s => @Verify _ _ (sc_alg _ _ sc) p (digest tx idx ht) s
      | _, _ => false
      end
  end.

(** The formats the opcode insists on; a signature may also be empty. *)
Definition sig_format (full : list Z) : Prop :=
  ∀ sb ht, full = sb ++ [ht] → IsStandardSigHashType ht = true ∧
           sc_checkSignatureLength _ _ sc sb = Ret ().
Definition pk_format (pk : list Z) : Prop := sc_checkPubKeyEncoding _ _ sc pk = Ret ().

(** What a parsed [sigInfo] holds. *)
Definition info_ok (info : parsedSigInfo) : Prop :=
  si_parsed info = true → ∀ sb ht, si_signature info = sb ++ [ht] →
  IsStandardSigHashType ht = true ∧
  si_parsedSignature info = @DeserializeSignatureFromSlice _ _ (sc_alg _ _ sc) sb.

Lemma parseSigOnce_exact info sb ht : info_ok info → si_signature info = sb ++ [ht] →
  match parseSigOnce sc info ht sb with
  | Ret (s, info') =>
      IsStandardSigHashType ht = true ∧
      s = @DeserializeSignatureFromSlice _ _ (sc_alg _ _ sc) sb ∧
      info_ok info' ∧ si_signature info' = si_signature info
  | Fail _ => ¬ sig_format (si_signature info)
  | Crash _ => False
  end.
Proof using Hsc.
  intros Hinfo Hs. unfold parseSigOnce. destruct (si_parsed info) eqn:Ep; cbn [negb].
  { destruct (Hinfo Ep sb ht Hs) as [Hst Hp]. done. }
  destruct (IsStandardSigHashType ht) eqn:Hst; cbn [negb].
  2:{ intros Hf. destruct (Hf sb ht Hs) as [Hf1 _]. congruence. }
  destruct (sc_checkSignatureLength _ _ sc sb) as [[]|e|c] eqn:El; cbn [obind].
  - split; [done|]. split; [done|]. split; [|done]. intros _ sb' ht'. simpl.
    rewrite Hs. intros [-> ->]%app_inj_tail. done.
  - intros Hf. destruct (Hf sb ht Hs) as [_ Hf2]. congruence.
  - by apply (so_len sc (ss_ok sc digest Hsc)) in El.
Qed.

(** One round of the loop. *)
Lemma wp_tryPubKey B info pk vm : run_inv B vm → info_ok info → si_signature info ≠ [] →
  wp (tryPubKey sc info pk)
    (λ r vm', fst r = signature_valid (vm_tx vm) (vm_txIdx vm) (si_signature info) pk ∧
              info_ok (snd r) ∧ si_signature (snd r) = si_signature info ∧
              run_inv B vm' ∧ unchanged vm vm')
    (λ _ _, ¬ (sig_format (si_signature info) ∧ pk_format pk)) vm.
Proof using All.
  intros Hvm Hinfo Hne. unfold tryPubKey. cbv zeta.
  destruct (si_signature info) as [|ht sb _] eqn:Es using rev_ind; [done|].
  destruct (@index_slice_snoc error sb ht) as [-> ->]. unfold lift_outcome at 1 2.
  apply wp_bind. unfold wp at 1. apply wp_bind. unfold wp at 1.
  pose proof (parseSigOnce_exact info sb ht Hinfo Es) as Hp. rewrite Es in Hp.
  apply wp_bind. unfold wp at 1, lift_outcome at 1.
  destruct (parseSigOnce sc info ht sb) as [[s info']|e|c]; [|tauto|done].
  destruct Hp as (Hst & -> & Hi' & Hs'). unfold signature_valid. rewrite last_snoc, removelast_last.
  destruct (DeserializeSignatureFromSlice sb) as [sg|].
  2:{ apply wp_ret. simpl. by case_match. }
  apply wp_bind. unfold wp at 1, lift_outcome at 1.
  destruct (sc_checkPubKeyEncoding _ _ sc pk) as [[]|e|c] eqn:Ep.
  3:{ by apply (so_pk sc (ss_ok sc digest Hsc)) in Ep. }
  2:{ unfold pk_format. rewrite Ep. by intros [_ [=]]. }
  destruct (DeserializePubKey pk) as [p|]; [|by apply wp_ret].
  destruct (signatureHash_exact B ht vm Hvm Hst) as (vm1 & Hh & Hvm1 & Hu1).
  apply wp_bind. unfold wp at 1. rewrite Hh.
  destruct (verifySignature_exact B (digest (vm_tx vm) (vm_txIdx vm) ht) sg p vm1 Hvm1)
    as (vm2 & Hv & Hvm2 & Hu2).
  apply wp_bind. unfold wp at 1. rewrite Hv. apply wp_ret. simpl.
  split; [done|]. split; [done|]. split; [done|]. split; [done|]. by eapply unchanged_trans.
Qed.

Definition validly (vm : Engine) (full pk : list Z) : Prop :=
  signature_valid (vm_tx vm) (vm_txIdx vm) full pk = true.

Lemma validly_unchanged vm vm' ss ks :
  unchanged vm vm' → matched (validly vm') ss ks ↔ matched (validly vm) ss ks.
Proof using Type. intros [[= _ _ _ _ Et Ei _ _ _ _ _] _]. unfold validly. by rewrite Et, Ei. Qed.

(** What the loop returns about the signatures [ss] and keys [ks] not yet done. *)
Definition loop_post (B : Z) (vm : Engine) (ss ks : list (list Z)) (b : bool) (vm' : Engine) : Prop :=
  (b = true ↔ matched (validly vm) ss ks) ∧ run_inv B vm' ∧ unchanged vm vm'.

Lemma loop_post_step B vm vm1 ss ks ss' ks' b vm' :
  unchanged vm vm1 → (matched (validly vm) ss ks ↔ matched (validly vm) ss' ks') →
  loop_post B vm1 ss' ks' b vm' → loop_post B vm ss ks b vm'.
Proof using Type.
  intros Hu Hm (Hb & Hr & Hu'). split; [|split; [done|by eapply unchanged_trans]].
  rewrite Hm, Hb. by apply validly_unchanged.
Qed.

Lemma drop_lookup {A} (l : list A) i x : 0 ≤ i → l !! Z.to_nat i = Some x →
  drop (Z.to_nat i) l = x :: drop (Z.to_nat (i + 1)) l.
Proof using Type. intros Hi Hl. rewrite (drop_S _ _ _ Hl). do 2 f_equal. lia. Qed.

Lemma si_signature_insert (infos : list (@parsedSigInfo Sig)) i info info' :
  infos !! i = Some info → si_signature info' = si_signature info →
  map si_signature (<[i := info']> infos) = map si_signature infos.
Proof using Type.
  intros Hl Hs. rewrite list_fmap_insert. apply list_insert_id.
  rewrite list_lookup_fmap, Hl. simpl. by rewrite Hs.
Qed.

Lemma unchanged_refl vm : unchanged vm vm.
Proof using Type. done. Qed.

Lemma wp_multiSigLoop B fuel : ∀ pubKeys infos numSigs numKeys keyIdx sigIdx vm,
  1 ≤ numKeys ≤ Z.of_nat fuel → -1 ≤ keyIdx → keyIdx + numKeys = zlen pubKeys →
  0 ≤ sigIdx → sigIdx + numSigs = zlen infos → run_inv B vm → Forall info_ok infos →
  wp (multiSigLoop sc fuel pubKeys infos numSigs numKeys keyIdx sigIdx)
    (loop_post B vm (drop (Z.to_nat sigIdx) (map si_signature infos))
                    (drop (Z.to_nat (keyIdx + 1)) pubKeys))
    (λ _ _, ¬ (Forall sig_format (map si_signature infos) ∧ Forall pk_format pubKeys)) vm.
Proof using All.
  induction fuel as [|fuel IH];
    intros pubKeys infos numSigs numKeys keyIdx sigIdx vm Hk Hki Hkz Hs Hsz Hvm Hinfos; [lia|].
  cbn [multiSigLoop]. rewrite Z.gtb_ltb. destruct (Z.ltb_spec 0 numSigs) as [Hpos|Hdone].
  2:{ apply wp_ret. split; [|done]. rewrite drop_ge; [split; [constructor|done]|].
      rewrite length_map. unfold zlen in Hsz. lia. }
  cbv zeta. rewrite Z.gtb_ltb. destruct (Z.ltb_spec (numKeys - 1) numSigs) as [Hfew|Hmany].
  { apply wp_ret. split; [|done]. split; [done|]. intros Hm%matched_length.
    rewrite !length_drop, length_map in Hm. unfold zlen in *. lia. }
  destruct (@index_in_range error _ infos sigIdx) as (info & Hix & Hinfo); [lia|].
  destruct (@index_in_range error _ pubKeys (keyIdx + 1)) as (pk & Hixk & Hpk); [lia|].
  apply wp_bind. unfold wp at 1, lift_outcome at 1. rewrite Hix.
  apply wp_bind. unfold wp at 1, lift_outcome at 1. rewrite Hixk.
  assert (map si_signature infos !! Z.to_nat sigIdx = Some (si_signature info)) as Hsig
    by (by rewrite list_lookup_fmap, Hinfo).
  assert (0 ≤ keyIdx + 1) as Hki' by lia.
  rewrite (drop_lookup _ _ _ Hs Hsig), (drop_lookup _ _ _ Hki' Hpk).
  destruct (Z.eqb_spec (zlen (si_signature info)) 0) as [Hz|Hne].
  - (* an empty signature: next key *)
    apply zlen_zero in Hz. eapply wp_mono; [apply IH; try done; lia| |done].
    intros b vm'. rewrite (drop_lookup _ _ _ Hs Hsig). apply loop_post_step; [done|].
    apply matched_skip_iff. unfold validly. by rewrite Hz.
  - apply wp_bind. eapply wp_mono; [apply (wp_tryPubKey B info pk vm Hvm)| |].
    + by eapply Forall_lookup_1 in Hinfo.
    + intros E. by rewrite E in Hne.
    + intros [valid info'] vm1. simpl. intros (-> & Hok' & Hs' & Hvm1 & Hu1).
      pose proof (si_signature_insert infos _ info info' Hinfo Hs') as Hmap.
      assert (Forall info_ok (<[Z.to_nat sigIdx:=info']> infos)) as Hinfos'
        by (apply Forall_insert; done).
      assert (zlen (<[Z.to_nat sigIdx:=info']> infos) = zlen infos) as Hzl
        by (unfold zlen; by rewrite length_insert).
      destruct (signature_valid _ _ _ pk) eqn:Ev.
      * eapply wp_mono; [apply IH; try done; lia| |by rewrite Hmap].
        intros b vm'. rewrite Hmap. apply loop_post_step; [done|]. by apply matched_take_iff.
      * eapply wp_mono; [apply IH; try done; lia| |by rewrite Hmap].
        intros b vm'. rewrite Hmap, (drop_lookup _ _ _ Hs Hsig). apply loop_post_step; [done|].
        apply matched_skip_iff. unfold validly. by rewrite Ev.
    + intros e vm' Hbad [Hf1 Hf2]. apply Hbad. split.
      * by eapply Forall_lookup_1 in Hsig.
      * by eapply Forall_lookup_1 in Hpk.
Qed.

(** ** The operands on the stack *)
Lemma popInt_exact vm base x n : zlen (vm_dstack vm) < max_depth → vm_dstack vm = base ++ [x] →
  Bytes n = Ret x → Z.abs n < 2 ^ 31 → on_dstack PopInt vm = (set_dstack base vm, Ret n).
Proof using Type.
  intros Hd E Hx Hn. unfold on_dstack, zoom, PopInt. rewrite E in Hd |- *.
  rewrite (bind_ret_l _ _ _ base x) by (apply (nipN_spec base [] x 0) in Hd; [|done];
    by rewrite app_nil_r in Hd). unfold lift_outcome.
  by rewrite (makeScriptNum_Bytes x defaultScriptNumLen n).
Qed.

Lemma collect_exact xs : ∀ vm base, zlen (vm_dstack vm) < max_depth → vm_dstack vm = base ++ xs →
  collectM (length xs) (on_dstack PopByteArray) vm = (set_dstack base vm, Ret (reverse xs)).
Proof using Type.
  induction xs as [|x xs IH] using rev_ind; intros vm base Hd E.
  - rewrite app_nil_r in E. rewrite <- E. by destruct vm.
  - rewrite length_app, Nat.add_1_r. cbn [collectM]. rewrite app_assoc in E.
    rewrite (bind_ret_l _ _ _ _ _ (pop_exact vm _ x Hd E)).
    erewrite bind_ret_l; [|apply (IH _ base); [|done]].
    + unfold ret. by rewrite reverse_app.
    + simpl. rewrite E in Hd. zlia.
Qed.

(** The operands of the opcode: the number of keys on top, the keys, the number
    of signatures, the signatures. *)
Record multisig_operands (vm : Engine) (base sigs keys : stack) : Prop := {
  mo_stack : ∃ m n, vm_dstack vm = base ++ sigs ++ [m] ++ keys ++ [n] ∧
             Bytes (zlen sigs) = Ret m ∧ Bytes (zlen keys) = Ret n;
  mo_keys : zlen sigs ≤ zlen keys ≤ MaxPubKeysPerMultiSig;
  mo_ops : vm_numOps vm + zlen keys ≤ MaxOpsPerScript
}.

(** The verdict: true when the signatures match keys in order; otherwise false
    if all of them are empty, and an error if not. *)
Definition multisig_answer (vm : Engine) (base sigs keys : stack) (r : Engine * fallible unit) : Prop :=
  (matched (validly vm) sigs keys ∧ decided vm base true r) ∨
  (¬ matched (validly vm) sigs keys ∧
   (Forall (λ s, s = []) sigs ∧ decided vm base false r ∨
    ¬ Forall (λ s, s = []) sigs ∧ snd r = Fail ErrNullFail)).

Lemma existsb_nonempty (sigs : stack) :
  existsb (λ sig, zlen sig >? 0) sigs = false ↔ Forall (λ s, s = []) sigs.
Proof using Type.
  induction sigs as [|s sigs IH]; [by split|]. simpl. rewrite orb_false_iff, IH, Forall_cons.
  rewrite Z.gtb_ltb, Z.ltb_ge. split; intros [Hs ?]; (split; [|done]).
  - apply zlen_zero. pose proof (zlen_nonneg s). lia.
  - by rewrite Hs.
Qed.

Lemma multiSigVerify_exact B vm base sigs keys :
  run_inv B vm → vm_dstack vm = base →
  Forall sig_format sigs ∧ Forall pk_format keys ∨
    (∃ e, snd (multiSigVerify sc (reverse keys) (reverse sigs) (zlen keys) (zlen sigs) vm) = Ret e) →
  multisig_answer vm base sigs keys
    (multiSigVerify sc (reverse keys) (reverse sigs) (zlen keys) (zlen sigs) vm).
Proof using All.
  intros Hvm Hd Hformat.
  assert (map si_signature (map (newSigInfo (Sig := Sig)) (reverse sigs)) = reverse sigs) as Hmap.
  { rewrite map_map. simpl. apply map_id. }
  pose proof (wp_multiSigLoop B (Z.to_nat (zlen keys + 1)) (reverse keys) (map newSigInfo (reverse sigs))
    (zlen sigs) (zlen keys + 1) (-1) 0 vm) as Hloop. rewrite Hmap in Hloop.
  pose proof (zlen_nonneg keys). pose proof (zlen_nonneg sigs).
  assert (zlen (reverse keys) = zlen keys) as Hrk by (unfold zlen; by rewrite length_reverse).
  assert (zlen (map (newSigInfo (Sig := Sig)) (reverse sigs)) = zlen sigs) as Hrs
    by (unfold zlen; by rewrite length_map, length_reverse).
  rewrite Hrk, Hrs in Hloop.
  specialize (Hloop ltac:(lia) ltac:(lia) ltac:(lia) ltac:(lia) ltac:(lia) Hvm).
  specialize (Hloop ltac:(apply Forall_forall; intros x [y [-> _]]%list_elem_of_fmap; done)).
  change (Z.to_nat 0) with 0%nat in Hloop. change (Z.to_nat (-1 + 1)) with 0%nat in Hloop.
  rewrite !drop_0 in Hloop. revert Hformat. unfold multiSigVerify, wp, bind in *.
  destruct (multiSigLoop _ _ _ _ _ _ _ _ vm) as [vm1 [b|e|c]]; [|intros Hformat|done].
  2:{ exfalso. destruct Hformat as [[Hf1 Hf2]|[? [=]]]. apply Hloop. by rewrite !Forall_reverse. }
  intros _. destruct Hloop as (Hb & _ & Ho & Hd1 & _). rewrite matched_reverse_iff in Hb.
  destruct b; cbn [negb andb].
  - left. split; [by apply Hb|]. apply decided_push; [congruence|done].
  - right. split; [intros Hm; by apply Hb in Hm|].
    destruct (existsb _ (reverse sigs)) eqn:Ee; [right|left].
    + split; [|done]. rewrite <- Forall_reverse, <- existsb_nonempty. congruence.
    + apply existsb_nonempty in Ee. rewrite Forall_reverse in Ee. split; [done|].
      apply decided_push; [congruence|done].
Qed.

Lemma checkMultiSig_exact B op vm base sigs keys :
  run_inv B vm → B < max_depth → multisig_operands vm base sigs keys →
  Forall sig_format sigs ∧ Forall pk_format keys ∨ (∃ e, snd (checkMultiSig sc op vm) = Ret e) →
  multisig_answer vm base sigs keys (checkMultiSig sc op vm).
Proof using All.
  intros Hvm HB [(m & n & Hd & Hm & Hn) Hkeys Hops] Hformat.
  pose proof (run_inv_depth_lt B vm Hvm HB) as Hlt.
  pose proof (zlen_nonneg sigs). pose proof (zlen_nonneg keys). unfold MaxPubKeysPerMultiSig in Hkeys.
  assert (Z.abs (zlen keys) < 2 ^ 31) as Hk31 by lia.
  assert (Z.abs (zlen sigs) < 2 ^ 31) as Hs31 by lia.
  assert (vm_dstack vm = (((base ++ sigs) ++ [m]) ++ keys) ++ [n]) as Hd' by (rewrite Hd, <- !app_assoc; done).
  assert (checkMultiSig sc op vm =
    multiSigVerify sc (reverse keys) (reverse sigs) (zlen keys) (zlen sigs)
      (set_numOps (vm_numOps vm + zlen keys) (set_dstack base vm))) as Hrun.
  { unfold checkMultiSig. rewrite (bind_ret_l _ _ _ _ _ (popInt_exact vm _ n _ Hlt Hd' Hn Hk31)).
    cbv zeta. rewrite (Int32_id (zlen keys)) by done.
    rewrite (proj2 (Z.ltb_ge _ _)), Z.gtb_ltb, (proj2 (Z.ltb_ge _ _)) by (done || unfold MaxPubKeysPerMultiSig; lia).
    rewrite (bind_ret_l (modify _) _ _ _ _ eq_refl), (bind_ret_l (gets _) _ _ _ _ eq_refl). cbn [vm_numOps set_numOps set_dstack].
    rewrite Z.gtb_ltb, (proj2 (Z.ltb_ge _ _)) by done.
    replace (Z.to_nat (zlen keys)) with (length keys) by (unfold zlen; lia).
    rewrite Hd' in Hlt. pose proof (zlen_nonneg base).
    assert (zlen (((base ++ sigs) ++ [m]) ++ keys) < max_depth) as Hlt1 by (zlen_norm; lia).
    assert (zlen ((base ++ sigs) ++ [m]) < max_depth) as Hlt2 by (zlen_norm; lia).
    assert (zlen (base ++ sigs) < max_depth) as Hlt3 by (zlen_norm; lia).
    rewrite (bind_ret_l _ _ _ _ _ (collect_exact keys (set_numOps (vm_numOps vm + zlen keys)
      (set_dstack (((base ++ sigs) ++ [m]) ++ keys) vm)) ((base ++ sigs) ++ [m]) Hlt1 eq_refl)).
    rewrite (bind_ret_l _ _ _ _ _ (popInt_exact (set_dstack ((base ++ sigs) ++ [m]) (set_numOps (vm_numOps vm + zlen keys)
      (set_dstack (((base ++ sigs) ++ [m]) ++ keys) vm))) (base ++ sigs) m _ Hlt2 eq_refl Hm Hs31)).
    rewrite (Int32_id (zlen sigs)) by done.
    rewrite (proj2 (Z.ltb_ge _ _)), Z.gtb_ltb, (proj2 (Z.ltb_ge _ _)) by lia.
    replace (Z.to_nat (zlen sigs)) with (length sigs) by (unfold zlen; lia).
    by erewrite bind_ret_l by (apply (collect_exact sigs _ base); [exact Hlt3|done]). }
  rewrite Hrun in Hformat |- *.
  pose proof (run_inv_take B vm base _ Hvm Hd) as (Hd1 & Ha1 & HB1 & Hn1 & Hc1).
  apply (multiSigVerify_exact B (set_numOps (vm_numOps vm + zlen keys) (set_dstack base vm)));
    [|done|done].
  split; [done|]. split; [done|]. split; [done|]. split; [|done]. simpl in *. lia.
Qed.
End Scheme.
End Spec.

(** ** Properties *)
Module SigProps.
(** OP_CHECKSIG and its ECDSA form decide what [sig_verdict] says.  On an
    engine within its limits with a signature and a public key on top of the
    stack, whatever the signature cache and the reused hashes hold, the opcode
    replaces them by true exactly when the signature verifies for the key over
    the signature hash of this input, reports the error of the first failing
    format check, reports ErrNullFail for a well-formed signature that does not
    verify, and otherwise pushes false; nothing else of the engine changes. *)
Theorem checkSig_correct `{LibsOk} op vm base full pk :
  run_inv MaxStackSize vm → vm_dstack vm = base ++ [full] ++ [pk] →
  answers vm base (sig_verdict schnorrScheme schnorr_digest (vm_tx vm) (vm_txIdx vm) pk full)
    (opcodeCheckSig op vm) ∧
  answers vm base (sig_verdict ecdsaScheme ecdsa_digest (vm_tx vm) (vm_txIdx vm) pk full)
    (opcodeCheckSigECDSA op vm).
Proof.
  intros Hvm Hd. split.
  - by apply (checkSig_exact _ _ schnorr_signs MaxStackSize).
  - by apply (checkSig_exact _ _ ecdsa_signs MaxStackSize).
Qed.

Definition sample_key : list Z := replicate 32 7.
Definition sample_sig : list Z := (schnorr_digest HashingProps.sample_tx 0 1 ++ sample_key) ++ [1].

Definition vm_with (stk : stack) : Engine := set_dstack stk HandlerProps.sample_vm.

Lemma vm_with_inv stk :
  forallb (λ x, bool_decide (are_bytes x) && (zlen x <=? MaxScriptElementSize)) stk = true →
  zlen stk <= MaxStackSize → run_inv MaxStackSize (vm_with stk).
Proof.
  intros Hb Hl. split; [|split; [constructor|split; [simpl; zlen_norm; lia|]]].
  - apply Forall_forall. intros x Hx%list_elem_of_In. rewrite forallb_forall in Hb.
    apply Hb, andb_true_iff in Hx as [H1%bool_decide_eq_true H2%Z.leb_le]. by split.
  - split; [split; discriminate|]. split; [constructor|]. split; [|split; intros c [=]].
    eexists _, _, HashingProps.no_values. split; [discriminate|].
    repeat (split; [reflexivity|]). repeat split; intros ? [=].
Qed.

Lemma checkSig_correct_witness :
  sig_verdict schnorrScheme schnorr_digest HashingProps.sample_tx 0 sample_key sample_sig = Ret true ∧
  decided (vm_with [sample_sig; sample_key]) [] true
    (opcodeCheckSig HandlerProps.sample_pop (vm_with [sample_sig; sample_key])).
Proof.
  assert (sig_verdict schnorrScheme schnorr_digest HashingProps.sample_tx 0 sample_key sample_sig = Ret true)
    as E by (by vm_compute).
  split; [exact E|].
  pose proof (proj1 (checkSig_correct HandlerProps.sample_pop (vm_with [sample_sig; sample_key]) []
    sample_sig sample_key (vm_with_inv [sample_sig; sample_key] ltac:(by vm_compute) ltac:(done)) eq_refl)) as Ha.
  change (vm_tx (vm_with _)) with HashingProps.sample_tx in Ha.
  change (vm_txIdx (vm_with _)) with 0 in Ha. by rewrite E in Ha.
Defined.

(** C34: OP_CHECKMULTISIG accepts exactly when the signatures can be matched to
    keys in order.  With up to 20 keys and no more signatures than keys on the
    stack, in legal format, whatever the caches hold: if an order-preserving
    assignment of signatures to distinct keys exists under which each signature
    verifies, the loop finds one and true is pushed; if not, false is pushed when
    all signatures are empty and ErrNullFail is reported when not.  So the greedy
    loop loses no solution, and the parse-once bookkeeping and the cache do not
    change the verdict. *)
Theorem checkMultiSig_correct `{LibsOk} op vm base sigs keys :
  run_inv MaxStackSize vm → multisig_operands vm base sigs keys →
  (Forall (sig_format schnorrScheme) sigs → Forall (pk_format schnorrScheme) keys →
   multisig_answer schnorrScheme schnorr_digest vm base sigs keys (opcodeCheckMultiSig op vm)) ∧
  (Forall (sig_format ecdsaScheme) sigs → Forall (pk_format ecdsaScheme) keys →
   multisig_answer ecdsaScheme ecdsa_digest vm base sigs keys (opcodeCheckMultiSigECDSA op vm)).
Proof.
  intros Hvm Hops. split; intros Hs Hk.
  - apply (checkMultiSig_exact _ _ schnorr_signs MaxStackSize); auto. done.
  - apply (checkMultiSig_exact _ _ ecdsa_signs MaxStackSize); auto. done.
Qed.

(** One signature, by the second of two keys. *)
Lemma checkMultiSig_correct_witness :
  let vm := vm_with [sample_sig; [1]; replicate 32 9; sample_key; [2]] in
  multisig_answer schnorrScheme schnorr_digest vm [] [sample_sig] [replicate 32 9; sample_key]
    (opcodeCheckMultiSig HandlerProps.sample_pop vm) ∧
  vm_dstack (fst (opcodeCheckMultiSig HandlerProps.sample_pop vm)) = [[1]].
Proof.
  intros vm. split.
  - apply (checkMultiSig_correct HandlerProps.sample_pop vm [] [sample_sig] [replicate 32 9; sample_key]).
    + apply vm_with_inv; by vm_compute.
    + split; [by exists [1], [2]|done|done].
    + constructor; [|constructor]. intros sb ht E. unfold sample_sig in E.
      apply app_inj_tail in E as [<- <-]. by vm_compute.
    + by repeat constructor.
  - vm_compute. reflexivity.
Defined.
End SigProps.
