(* ===== verification/CacheTransparency.v ===== *)
(** * Signature caches and reused hashes are transparent

    Two engines that differ only in their signature caches and in the reused parts
    of signature hashes, all of them valid, run in lock step: every operation returns
    the same, and leaves engines that again differ only there.  So the verdict on an
    input's scripts is a function of the transaction alone. *)
From S2P Require Import Prelude Externalapi ScriptNum ScriptStack OpcodeTable Script Hashing SigCache Opcode.
From S2P Require Import OpcodeSafety Engine EngineSafety SigSpec.
Import Op ScriptNum Stack Script SigHash SigCache Opcode Exec.
Local Open Scope Z_scope.
Local Open Scope prog_scope.

Section Transparency.
Context `{Libs} `{!LibsOk}.
Abbreviation engineM A := (prog Engine error A) (only parsing).

(** The engine without caches and reused values. *)
Definition erase (vm : Engine) : Engine :=
  set_sigCache None (set_sigCacheECDSA None (set_sigHashReusedValues None vm)).

(** Both run for the transaction [T], with valid caches and reused values. *)
Variable T : DomainTransaction.
Definition sim (vm1 vm2 : Engine) : Prop := erase vm1 = erase vm2 ∧ (env_ok vm1 ∧ vm_tx vm1 = T) ∧ env_ok vm2.

Definition related {A} (m1 m2 : engineM A) : Prop :=
  ∀ vm1 vm2, sim vm1 vm2 → snd (m1 vm1) = snd (m2 vm2) ∧ sim (fst (m1 vm1)) (fst (m2 vm2)).

Lemma related_ret {A} (a : A) : related (ret a) (ret a).
Proof using Type. by intros vm1 vm2 Hs. Qed.
Lemma related_fail {A} e : related (fail (A := A) e) (fail e).
Proof using Type. by intros vm1 vm2 Hs. Qed.
Lemma related_lift {A} (o : outcome error A) : related (lift_outcome o) (lift_outcome o).
Proof using Type. by intros vm1 vm2 Hs. Qed.
Lemma related_crash {A} c : related (crash_with (A := A) c) (crash_with c).
Proof using Type. by intros vm1 vm2 Hs. Qed.

Lemma related_bind {A B} (m1 m2 : engineM A) (k1 k2 : A → engineM B) :
  related m1 m2 → (∀ a, related (k1 a) (k2 a)) → related (bind m1 k1) (bind m2 k2).
Proof using Type.
  intros Hm Hk vm1 vm2 Hs. destruct (Hm vm1 vm2 Hs) as [Ho Hs']. unfold bind.
  destruct (m1 vm1) as [s1 o1], (m2 vm2) as [s2 o2]. simpl in *. subst o2. destruct o1; [by apply Hk|done|done].
Qed.

Lemma related_get {B} (k1 k2 : Engine → engineM B) :
  (∀ v1 v2, sim v1 v2 → related (k1 v1) (k2 v2)) → related (bind get k1) (bind get k2).
Proof using Type. intros Hk vm1 vm2 Hs. by apply (Hk vm1 vm2 Hs vm1 vm2 Hs). Qed.

Lemma related_gets {A} (f : Engine → A) : (∀ vm, f (erase vm) = f vm) → related (gets f) (gets f).
Proof using Type.
  intros Hf vm1 vm2 Hs. split; [|done]. destruct Hs as [E _]. simpl. by rewrite <- (Hf vm1), <- (Hf vm2), E.
Qed.

Lemma related_modify f : (∀ vm, erase (f vm) = f (erase vm)) → (∀ vm, env_ok vm → env_ok (f vm)) →
  (∀ vm, vm_tx (f vm) = vm_tx vm) →
  related (modify f) (modify f).
Proof using Type.
  intros Hf Henv Htx vm1 vm2 (E & [H1 HT] & H2). split; [done|]. split; [simpl; by rewrite !Hf, E|].
  split; [split; [by apply (Henv vm1)|simpl; by rewrite Htx]|by apply (Henv vm2)].
Qed.

Lemma related_dstack {A} (m : prog stack error A) : related (on_dstack m) (on_dstack m).
Proof using Type.
  intros vm1 vm2 (E & H1 & H2). assert (vm_dstack vm1 = vm_dstack vm2) as Ed by (by injection E).
  unfold on_dstack, zoom. rewrite Ed. destruct (m (vm_dstack vm2)) as [t o]. split; [done|]. split; [|done].
  change (set_dstack t (erase vm1) = set_dstack t (erase vm2)). by rewrite E.
Qed.
Lemma related_astack {A} (m : prog stack error A) : related (on_astack m) (on_astack m).
Proof using Type.
  intros vm1 vm2 (E & H1 & H2). assert (vm_astack vm1 = vm_astack vm2) as Ed by (by injection E).
  unfold on_astack, zoom. rewrite Ed. destruct (m (vm_astack vm2)) as [t o]. split; [done|]. split; [|done].
  change (set_astack t (erase vm1) = set_astack t (erase vm2)). by rewrite E.
Qed.

Lemma related_repeatM n m : related m m → related (repeatM n m) (repeatM n m).
Proof using Type. intros Hm. induction n; [apply related_ret|by apply related_bind]. Qed.
Lemma related_collectM {A} n (m : engineM A) : related m m → related (collectM n m) (collectM n m).
Proof using Type.
  intros Hm. induction n as [|n IH]; [apply related_ret|].
  apply related_bind; [done|intros a]. apply related_bind; [done|intros l; apply related_ret].
Qed.

Lemma related_try {A} (m1 m2 : engineM A) h1 h2 k1 k2 :
  related m1 m2 → related h1 h2 → (∀ a, related (k1 a) (k2 a)) → related (try m1 h1 k1) (try m2 h2 k2).
Proof using Type.
  intros Hm Hh Hk vm1 vm2 Hs. destruct (Hm vm1 vm2 Hs) as [Ho Hs']. unfold try.
  destruct (m1 vm1) as [s1 o1], (m2 vm2) as [s2 o2]. simpl in *. subst o2.
  destruct o1; [by apply Hk|by apply Hh|done].
Qed.

(** Two similar engines agree on everything else. *)
Ltac fields Hv :=
  let E := fresh in pose proof (proj1 Hv) as E; unfold erase in E; simpl in E; injection E as
    ?Efield ?Efield ?Efield ?Efield ?Efield ?Efield ?Efield ?Efield ?Efield ?Efield ?Efield ?Efield ?Efield;
  clear Hv; repeat match goal with F : ?f _ = ?f _ |- _ => first [rewrite F in * | idtac]; clear F end.

Ltac related_step :=
  cbv zeta;
  lazymatch goal with
  | |- related (ret _) _ => apply related_ret
  | |- related (fail _) _ => apply related_fail
  | |- related (lift_outcome _) _ => apply related_lift
  | |- related (crash_with _) _ => apply related_crash
  | |- related (on_dstack _) _ => apply related_dstack
  | |- related (on_astack _) _ => apply related_astack
  | |- related (collectM _ _) _ => apply related_collectM
  | |- related (gets _) _ => apply related_gets; reflexivity
  | |- related (modify _) _ => apply related_modify; [reflexivity|intros ? Henv; exact Henv|reflexivity]
  | |- related (bind get _) _ =>
      let v1 := fresh "v" in let v2 := fresh "v" in let Hv := fresh "Hv" in
      apply related_get; intros v1 v2 Hv; fields Hv
  | |- related (bind _ _) _ => apply related_bind; [|intros ?]
  | |- related (match _ with _ => _ end) _ => case_match
  end.
Ltac related := repeat related_step.

(** ** Signature checks *)
Section Scheme.
Context {Sig PK : Type} (sc : scheme Sig PK) (digest : DomainTransaction → Z → Z → DomainHash).
Context (Hsc : scheme_signs sc digest).
Context (Hget : ∀ vm c, env_ok vm → sc_sigCache _ _ sc vm = Some c → @cache_ok _ _ (sc_alg _ _ sc) c).
Context (Hset : ∀ vm c, env_ok vm → @cache_ok _ _ (sc_alg _ _ sc) c → env_ok (sc_set_sigCache _ _ sc (Some c) vm)).
Context (Herase : ∀ vm c, erase (sc_set_sigCache _ _ sc c vm) = erase vm).
#[local] Existing Instance sc_alg.

Lemma signatureHash_env ht vm : env_ok vm → IsStandardSigHashType ht = true →
  ∃ vm', signatureHash sc ht vm = (vm', Ret (digest (vm_tx vm) (vm_txIdx vm) ht)) ∧ env_ok vm' ∧ erase vm' = erase vm.
Proof using Hsc.
  intros ((txIn & utxo & r & Hi & Hl & Hu & Hr & Hrok) & Hcaches) Hst.
  destruct (ss_hash sc digest Hsc (vm_tx vm) (vm_txIdx vm) ht txIn utxo r) as (r' & Hh & Hr'); [done..|].
  unfold signatureHash, bind, get, zoom. rewrite Hr, Hh. eexists. split; [done|]. split; [|done].
  split; [|done]. by exists txIn, utxo, r'.
Qed.

Lemma related_signatureHash ht : related (signatureHash sc ht) (signatureHash sc ht).
Proof using Hsc.
  intros vm1 vm2 (E & H1 & H2). assert (vm_tx vm1 = vm_tx vm2) as Etx by (by injection E).
  assert (vm_txIdx vm1 = vm_txIdx vm2) as Eidx by (by injection E).
  destruct (IsStandardSigHashType ht) eqn:Hst.
  - destruct (signatureHash_env ht vm1 (proj1 H1) Hst) as (vm1' & -> & H1' & E1).
    destruct (signatureHash_env ht vm2 H2 Hst) as (vm2' & -> & H2' & E2). simpl. rewrite Etx, Eidx.
    split; [done|]. split; [congruence|]. split; [|done]. split; [done|]. destruct H1 as [_ <-]. by injection E1.
  - unfold signatureHash, bind, get, zoom. rewrite !(so_hash_fail sc (ss_ok sc digest Hsc)) by done. split; [done|].
    split; [done|]. split; done.
Qed.

Lemma verifySignature_env h sig pk vm : env_ok vm →
  ∃ vm', verifySignature sc h sig pk vm = (vm', Ret (@Verify _ _ (sc_alg _ _ sc) pk h sig)) ∧ env_ok vm' ∧ erase vm' = erase vm.
Proof using All.
  intros Hvm. pose proof (so_alg sc (ss_ok sc digest Hsc)) as Halg.
  unfold verifySignature, bind, get. destruct (sc_sigCache _ _ sc vm) as [c|] eqn:Ec; [|by exists vm].
  pose proof (Hget vm c Hvm Ec) as Hc. destruct (Exists c h sig pk) eqn:Ex.
  { rewrite (Exists_sound c h sig pk Hc Ex). by exists vm. }
  destruct (Verify pk h sig) eqn:Ev; [|by exists vm]. eexists. split; [done|]. split; [|apply Herase].
  apply Hset; [done|]. by apply Add_ok.
Qed.

Lemma related_verifySignature h sig pk : related (verifySignature sc h sig pk) (verifySignature sc h sig pk).
Proof using All.
  intros vm1 vm2 (E & H1 & H2).
  destruct (verifySignature_env h sig pk vm1 (proj1 H1)) as (vm1' & -> & H1' & E1).
  destruct (verifySignature_env h sig pk vm2 H2) as (vm2' & -> & H2' & E2).
  split; [done|]. split; [simpl; congruence|]. split; [|done]. split; [done|]. destruct H1 as [_ <-]. by injection E1.
Qed.

Lemma related_checkSig op : related (checkSig sc op) (checkSig sc op).
Proof using All.
  unfold checkSig. apply related_bind; [related|intros pk]. apply related_bind; [related|intros full].
  related. apply related_try; [apply related_signatureHash|related|intros h]. related. apply related_verifySignature.
Qed.

Lemma related_multiSigLoop fuel pks : ∀ sigs ns np pi si,
  related (multiSigLoop sc fuel pks sigs ns np pi si) (multiSigLoop sc fuel pks sigs ns np pi si).
Proof using All.
  induction fuel as [|fuel IH]; intros sigs ns np pi si; cbn [multiSigLoop]; [related|]. related; try apply IH.
  unfold tryPubKey. related; [apply related_signatureHash|apply related_verifySignature].
Qed.

Lemma related_checkMultiSig op : related (checkMultiSig sc op) (checkMultiSig sc op).
Proof using All. unfold checkMultiSig, multiSigVerify. related. apply related_multiSigLoop. Qed.
End Scheme.

Lemma related_schnorr op : related (checkSig schnorrScheme op) (checkSig schnorrScheme op) ∧
  related (checkMultiSig schnorrScheme op) (checkMultiSig schnorrScheme op).
Proof using All.
  assert (∀ vm c, env_ok vm → cache_ok c → env_ok (set_sigCache (Some c) vm)) as Hset.
  { intros vm c (? & ? & ?) Hc. split; [done|]. split; [by intros ? [= <-]|done]. }
  split; [eapply (related_checkSig _ _ schnorr_signs)|eapply (related_checkMultiSig _ _ schnorr_signs)]; try done;
    intros vm c (_ & Hc & _) E; by apply Hc.
Qed.
Lemma related_ecdsa op : related (checkSig ecdsaScheme op) (checkSig ecdsaScheme op) ∧
  related (checkMultiSig ecdsaScheme op) (checkMultiSig ecdsaScheme op).
Proof using All.
  assert (∀ vm c, env_ok vm → cache_ok c → env_ok (set_sigCacheECDSA (Some c) vm)) as Hset.
  { intros vm c (? & ? & ?) Hc. split; [done|]. split; [done|by intros ? [= <-]]. }
  split; [eapply (related_checkSig _ _ ecdsa_signs)|eapply (related_checkMultiSig _ _ ecdsa_signs)]; try done;
    intros vm c (_ & _ & Hc) E; by apply Hc.
Qed.

(** ** The engine *)
Lemma related_handler h op : related (run_handler h op) (run_handler h op).
Proof using All.
  destruct h; cbn [run_handler];
    first [ apply related_dstack | apply related_fail | apply related_schnorr | apply related_ecdsa
          | apply related_bind; [apply related_schnorr|intros []; unfold abstractVerify; related]
          | idtac ].
  all: unfold opcodeNop, opcodeIf, opcodeNotIf, opcodeElse, opcodeEndif, opcodeVerify, opcodeToAltStack, opcodeFromAltStack,
    opcodeCheckLockTimeVerify, opcodeCheckSequenceVerify, opcodeEqualVerify, opcodeNumEqualVerify, opcodeEqual, opcodeNumEqual,
    abstractVerify, popIfBool, push_cond, hasFlag, isBranchExecuting; related.
Qed.

Lemma related_executeOpcode op : related (executeOpcode op) (executeOpcode op).
Proof using All. unfold executeOpcode. related; apply related_handler. Qed.

Lemma related_CheckErrorCondition final : related (CheckErrorCondition final) (CheckErrorCondition final).
Proof using Type. unfold CheckErrorCondition. related. Qed.

Lemma related_nextScript : related nextScript nextScript.
Proof using Type.
  unfold nextScript, scheduleRedeemScript, incr_scriptIdx, SetStack. related; apply related_CheckErrorCondition.
Qed.

Lemma related_Step : related Step Step.
Proof using All. unfold Step, validPC. related; apply related_executeOpcode || apply related_nextScript. Qed.

Lemma related_executeLoop fuel : related (executeLoop fuel) (executeLoop fuel).
Proof using All.
  induction fuel as [|fuel IH]; cbn [executeLoop]; related; [apply related_Step|apply IH].
Qed.

Lemma related_Execute : related Execute Execute.
Proof using All.
  unfold Execute. related; [apply related_executeLoop|apply related_CheckErrorCondition].
Qed.

(** ** The verdict *)
Abbreviation cache1 := (option (SigCache SchnorrSignature SchnorrPublicKey)) (only parsing).
Abbreviation cache2 := (option (SigCache ECDSASignature ECDSAPublicKey)) (only parsing).

(** What the caller of the engine learns, and the caches it finds afterwards. *)
Definition run_scripts (spk : ScriptPublicKey) (tx : DomainTransaction) (i flags : Z) (c1 : cache1) (c2 : cache2)
    (r : option SighashReusedValues) : outcome error unit * (cache1 * cache2 * option SighashReusedValues) :=
  match NewEngine spk tx i flags c1 c2 r with
  | Ret vm => let '(vm, o) := Execute vm in (o, (vm_sigCache vm, vm_sigCacheECDSA vm, vm_sigHashReusedValues vm))
  | Fail e => (Fail e, (c1, c2, r))
  | Crash c => (Crash c, (c1, c2, r))
  end.

Lemma NewEngine_shape spk tx i flags c1 c2 r vm : NewEngine spk tx i flags c1 c2 r = Ret vm →
  if spk_Version spk >? MaxScriptPublicKeyVersion
  then vm_scriptVersion vm = spk_Version spk ∧ vm_sigCache vm = c1 ∧ vm_sigCacheECDSA vm = c2 ∧ vm_sigHashReusedValues vm = None
  else vm = set_sigCache c1 (set_sigCacheECDSA c2 (set_sigHashReusedValues r (erase vm))) ∧ vm_tx vm = tx ∧ vm_txIdx vm = i.
Proof using Type.
  unfold NewEngine. destruct (_ || _); [done|]. destruct (index _ _) as [txIn| |]; [|done|done]. cbn [obind].
  destruct (_ && _); [done|]. destruct (_ >? _); [by intros [= <-]|].
  destruct (parseScriptAndVerifySize _) as [p0| |]; [|done|done]. cbn [obind]. destruct (negb _); [done|].
  destruct (parseScriptAndVerifySize _) as [p1| |]; [|done|done]. cbn [obind]. destruct (_ && _); [done|].
  by intros [= <-].
Qed.

Lemma NewEngine_caches spk tx i flags c1 c2 r c1' c2' r' :
  match NewEngine spk tx i flags c1 c2 r with
  | Ret vm => ∃ vm', NewEngine spk tx i flags c1' c2' r' = Ret vm' ∧ erase vm' = erase vm
  | Fail e => NewEngine spk tx i flags c1' c2' r' = Fail e
  | Crash c => NewEngine spk tx i flags c1' c2' r' = Crash c
  end.
Proof using Type.
  unfold NewEngine. destruct (_ || _); [done|]. destruct (index _ _) as [txIn| |]; [|done|done]. cbn [obind].
  destruct (_ && _); [done|]. destruct (_ >? _); [by eexists|].
  destruct (parseScriptAndVerifySize _) as [p0| |]; [|done|done]. cbn [obind]. destruct (negb _); [done|].
  destruct (parseScriptAndVerifySize _) as [p1| |]; [|done|done]. cbn [obind]. destruct (_ && _); [done|].
  by eexists.
Qed.

(** The values found after a run serve the next one. *)
Definition after_ok (r : SighashReusedValues) (after : cache1 * cache2 * option SighashReusedValues) : Prop :=
  let '(c1, c2, r') := after in
  (∀ c, c1 = Some c → cache_ok c) ∧ (∀ c, c2 = Some c → cache_ok c) ∧ reuse_ok T (default r r').

Lemma run_scripts_transparent spk i flags c1 c2 r c1' c2' r' :
  inputs_ok spk T i c1 c2 (Some r) → inputs_ok spk T i c1' c2' (Some r') →
  fst (run_scripts spk T i flags c1 c2 (Some r)) = fst (run_scripts spk T i flags c1' c2' (Some r')) ∧
  after_ok r (snd (run_scripts spk T i flags c1 c2 (Some r))).
Proof using All.
  intros Hin Hin'. pose proof (NewEngine_caches spk T i flags c1 c2 (Some r) c1' c2' (Some r')) as Hnew. unfold run_scripts.
  pose proof Hin as [_ _ _ (? & [= <-] & Hr) Hc1 Hc2]. pose proof Hin' as [_ _ _ (? & [= <-] & Hr') Hc1' Hc2'].
  destruct (NewEngine spk T i flags c1 c2 (Some r)) as [vm|e|c] eqn:E1; [|by rewrite Hnew; split_and!..].
  destruct Hnew as (vm' & E2 & Herase). rewrite E2. pose proof (NewEngine_shape _ _ _ _ _ _ _ _ E1) as Hs1.
  pose proof (NewEngine_shape _ _ _ _ _ _ _ _ E2) as Hs2.
  destruct (NewEngine_ok _ _ _ _ _ _ _ _ Hin E1) as [Hv Hok]. destruct (NewEngine_ok _ _ _ _ _ _ _ _ Hin' E2) as [Hv' Hok'].
  rewrite Z.gtb_ltb in Hs1, Hs2. destruct (Z.ltb_spec MaxScriptPublicKeyVersion (spk_Version spk)) as [Hlt|Hle].
  - unfold Execute, bind, gets. rewrite Hv, Hv', Z.gtb_ltb, (proj2 (Z.ltb_lt _ _)) by done. split; [done|].
    destruct Hs1 as (_ & <- & <- & Er). simpl. rewrite Er. by split_and!.
  - assert (sim vm vm') as Hsim.
    { split; [done|]. split; [split; [|by destruct Hs1 as (_ & -> & _)]|]; [apply (Hok Hle)|apply (Hok' Hle)]. }
    destruct (related_Execute vm vm' Hsim) as [Ho Hs']. destruct (Execute vm) as [vm1 o1], (Execute vm') as [vm2 o2].
    simpl in *. split; [done|]. destruct Hs' as (_ & [((i0 & u & r0 & _ & _ & _ & Er & Hr0) & H1 & H2) HT] & _).
    rewrite Er. rewrite HT in Hr0. by split_and!.
Qed.
End Transparency.

(** ** Properties *)
Module CacheProps.
(** C30: signature caches and reused hash parts do not change a verdict.  Whatever
    valid caches and reused values an engine is given, it accepts, rejects or reports
    exactly what it does with no caches and nothing to reuse; and after the run, also
    after a failed one, the caches and the reused values are valid for the next. *)
Theorem caches_transparent `{LibsOk} (spk : ScriptPublicKey) (tx : DomainTransaction) (i flags : Z)
    (c1 : option (SigCache SchnorrSignature SchnorrPublicKey)) (c2 : option (SigCache ECDSASignature ECDSAPublicKey))
    (r : SighashReusedValues) :
  inputs_ok spk tx i c1 c2 (Some r) →
  fst (run_scripts spk tx i flags c1 c2 (Some r)) = fst (run_scripts spk tx i flags None None (Some HashingProps.no_values)) ∧
  after_ok tx r (snd (run_scripts spk tx i flags c1 c2 (Some r))).
Proof.
  intros Hin. apply run_scripts_transparent; [done|]. destruct Hin as [? ? ? _ _ _]. split; try done.
  eexists. split; [done|]. repeat split; intros ? [=].
Qed.

Lemma caches_transparent_witness :
  fst (run_scripts EngineProps.sample_spk HashingProps.sample_tx 0 0 (Some (NewSigCache 10)) None (Some HashingProps.no_values)) =
  fst (run_scripts EngineProps.sample_spk HashingProps.sample_tx 0 0 None None (Some HashingProps.no_values)) ∧
  after_ok HashingProps.sample_tx HashingProps.no_values
    (snd (run_scripts EngineProps.sample_spk HashingProps.sample_tx 0 0 (Some (NewSigCache 10)) None (Some HashingProps.no_values))).
Proof.
  apply (caches_transparent EngineProps.sample_spk HashingProps.sample_tx 0 0 (Some (NewSigCache 10)) None HashingProps.no_values).
  destruct EngineProps.sample_inputs_ok as [? ? ? ? _ _]. split; try done.
  intros c [= <-]. apply NewSigCache_ok. lia.
Defined.
End CacheProps.
