(* ===== verification/Spend.v ===== *)
(** * Spending a pay-to-public-key output

    The engine run from end to end: a signature script against the public key
    script [<pubkey> OP_CHECKSIG]. *)
From S2P Require Import Prelude Externalapi ScriptNum ScriptStack OpcodeTable Script Hashing SigCache Opcode.
From S2P Require Import OpcodeSafety Engine EngineSafety SigSpec.
Import Op ScriptNum Stack Script SigHash SigCache Opcode Exec.
Local Open Scope Z_scope.
Local Open Scope prog_scope.

(** ** Scripts *)
Definition data_opcode (n : Z) (name : string) : opcode :=
  {| opc_value := n; opc_name := name; opc_length := n + 1; opc_opfunc := Some H_opcodePushData |}.

Definition pk_pop (pk : list Z) : parsedOpcode :=
  {| pop_opcode := data_opcode 32 "OP_DATA_32"; pop_data := pk |}.
Definition sig_pop (full : list Z) : parsedOpcode :=
  {| pop_opcode := data_opcode 65 "OP_DATA_65"; pop_data := full |}.
Definition checksig_pop : parsedOpcode :=
  {| pop_opcode := {| opc_value := 172; opc_name := "OP_CHECKSIG"; opc_length := 1;
                      opc_opfunc := Some H_opcodeCheckSig |}; pop_data := [] |}.

Definition p2pk_script (pk : list Z) : list Z := OpData32 :: pk ++ [OpCheckSig].
Definition p2pk_pops (pk : list Z) : list parsedOpcode := [pk_pop pk; checksig_pop].

Lemma p2pk_parses pk : zlen pk = 32 → parseScriptE (p2pk_script pk) = Ret (p2pk_pops pk).
Proof.
  intros Hl. change (p2pk_script pk) with (encodings (p2pk_pops pk)). unfold parseScriptE.
  rewrite parseScript_encodings; [done|].
  repeat constructor; simpl; try done; try (unfold data_fits; simpl; lia); by vm_compute.
Qed.

Lemma sig_parses full : zlen full = 65 → parseScriptE (OpData65 :: full) = Ret [sig_pop full].
Proof.
  intros Hl. replace (OpData65 :: full) with (encodings [sig_pop full]) by (cbn; by rewrite app_nil_r).
  unfold parseScriptE. rewrite parseScript_encodings; [done|].
  repeat constructor; simpl; try done; try (unfold data_fits; simpl; lia); by vm_compute.
Qed.

Section Run.
Context `{Libs} `{!LibsOk}.

(** ** Opcodes *)
Lemma executeOpcode_data n name data vm :
  2 ≤ n ≤ 75 → zlen data = n → vm_condStack vm = [] →
  executeOpcode {| pop_opcode := data_opcode n name; pop_data := data |} vm
  = (set_dstack (vm_dstack vm ++ [data]) vm, Ret ()).
Proof using Type.
  intros Hn Hl Hc. unfold executeOpcode, isDisabled, alwaysIllegal, checkMinimalDataPush.
  cbn [pop_opcode pop_data data_opcode opc_value opc_opfunc].
  assert (∀ l, forallb (λ x, 75 <? x) l = true → bool_decide (n ∈ l) = false) as Hnot.
  { intros l Hall. apply bool_decide_false. intros Hin%list_elem_of_In. rewrite forallb_forall in Hall.
    apply Hall, Z.ltb_lt in Hin. lia. }
  rewrite !Hnot by done. rewrite Z.gtb_ltb, (proj2 (Z.ltb_ge _ _)) by (unfold Op16; lia).
  rewrite Z.gtb_ltb, (proj2 (Z.ltb_ge _ _)) by (unfold MaxScriptElementSize; lia).
  rewrite (bind_ret_l (ret ()) _ _ _ _ eq_refl), (bind_ret_l (gets _) _ _ _ _ eq_refl).
  unfold isBranchExecuting. rewrite Hc. simpl last. cbv iota. cbn [negb andb].
  rewrite (proj2 (Z.eqb_neq n 0)) by lia. cbn [negb].
  rewrite (proj2 (Z.leb_le n OpPushData4)) by (unfold OpPushData4; lia).
  cbv zeta. rewrite Hl.
  rewrite (bool_decide_false (n = 0)), (bool_decide_false (n = 1)) by lia. cbn [andb].
  rewrite (proj2 (Z.leb_le n 75)), Z.eqb_refl by lia. done.
Qed.

Lemma executeOpcode_checksig vm :
  0 ≤ vm_numOps vm < MaxOpsPerScript → vm_condStack vm = [] →
  executeOpcode checksig_pop vm = opcodeCheckSig checksig_pop (set_numOps (vm_numOps vm + 1) vm).
Proof using Type.
  intros Hn Hc. unfold executeOpcode. change (isDisabled checksig_pop) with false.
  change (alwaysIllegal checksig_pop) with false. change (pop_value checksig_pop >? Op16) with true. cbv iota.
  rewrite (bind_ret_l _ _ vm (set_numOps (vm_numOps vm + 1) vm) ()).
  2:{ unfold bind, modify, gets. cbn [vm_numOps set_numOps].
      rewrite Z.gtb_ltb, (proj2 (Z.ltb_ge _ _)) by lia. done. }
  rewrite (bind_ret_l (gets _) _ _ _ _ eq_refl). unfold isBranchExecuting.
  change (vm_condStack (set_numOps (vm_numOps vm + 1) vm)) with (vm_condStack vm). by rewrite Hc.
Qed.

(** ** Steps *)

Lemma index_lookup {E A} (l : list A) i x : 0 ≤ i → l !! Z.to_nat i = Some x → @index E A l i = Ret x.
Proof using Type. intros Hi Hl. unfold index. by rewrite decide_True, Hl. Qed.

(** The opcode at the program counter is executed. *)
Lemma Step_fetch vm script pop :
  0 ≤ vm_scriptIdx vm → vm_scripts vm !! Z.to_nat (vm_scriptIdx vm) = Some script →
  0 ≤ vm_scriptOff vm → script !! Z.to_nat (vm_scriptOff vm) = Some pop →
  Step vm =
    (executeOpcode pop ;;*
     let* d := on_dstack Depth in
     let* a := on_astack Depth in
     if GoInt.int32 (d + a) >? MaxStackSize then fail ErrStackOverflow
     else
       let* vm := get in
       let* script := lift_outcome (index (vm_scripts vm) (vm_scriptIdx vm)) in
       if vm_scriptOff vm >=? zlen script then nextScript else ret false)
    (set_scriptOff (vm_scriptOff vm + 1) vm).
Proof using Type.
  intros Hi Hs Ho Hp.
  pose proof (zlen_lookup _ _ _ Hs Hi). pose proof (zlen_lookup _ _ _ Hp Ho).
  pose proof (@index_lookup error _ _ _ _ Hi Hs) as Hix. pose proof (@index_lookup error _ _ _ _ Ho Hp) as Hixp.
  unfold Step. rewrite (bind_ret_l validPC _ vm vm ()).
  2:{ unfold validPC, bind, get, lift_outcome. rewrite Z.geb_leb, (proj2 (Z.leb_gt _ _)) by lia.
      by rewrite Hix, Z.geb_leb, (proj2 (Z.leb_gt _ _)) by lia. }
  rewrite (bind_ret_l get _ _ _ _ eq_refl).
  rewrite (bind_ret_l _ _ vm vm script) by (unfold lift_outcome; by rewrite Hix).
  rewrite (bind_ret_l _ _ vm vm pop) by (unfold lift_outcome; by rewrite Hixp).
  by rewrite (bind_ret_l (modify _) _ _ _ _ eq_refl).
Qed.

(** A step whose opcode succeeds within the stack limit. *)
Lemma Step_ok vm script pop vm2 :
  0 ≤ vm_scriptIdx vm → vm_scripts vm !! Z.to_nat (vm_scriptIdx vm) = Some script →
  0 ≤ vm_scriptOff vm → script !! Z.to_nat (vm_scriptOff vm) = Some pop →
  executeOpcode pop (set_scriptOff (vm_scriptOff vm + 1) vm) = (vm2, Ret ()) →
  static vm2 = static (set_scriptOff (vm_scriptOff vm + 1) vm) →
  zlen (vm_dstack vm2) + zlen (vm_astack vm2) < 1000 →
  Step vm =
    if zlen (vm_dstack vm2) + zlen (vm_astack vm2) >? MaxStackSize then (vm2, Fail ErrStackOverflow)
    else if vm_scriptOff vm + 1 >=? zlen script then nextScript vm2 else (vm2, Ret false).
Proof using Type.
  intros Hi Hs Ho Hp Hex Hst Hd.
  rewrite (Step_fetch vm script pop) by done. rewrite (bind_ret_l _ _ _ _ _ Hex).
  pose proof (zlen_nonneg (vm_dstack vm2)). pose proof (zlen_nonneg (vm_astack vm2)).
  rewrite (bind_ret_l _ _ _ _ _ (on_dstack_Depth vm2 ltac:(unfold max_depth; lia))).
  rewrite (bind_ret_l _ _ _ _ _ (on_astack_Depth vm2 ltac:(unfold max_depth; lia))).
  rewrite GoInt.int32_id by lia. destruct (_ >? _); [done|].
  injection Hst as _ Hsc Hidx Hoff _ _ _ _ _.
  rewrite (bind_ret_l get _ _ _ _ eq_refl).
  rewrite (bind_ret_l _ _ vm2 vm2 script) by
    (unfold lift_outcome; rewrite Hsc, Hidx; simpl; by rewrite (index_lookup _ _ _ Hi Hs)).
  rewrite Hoff. simpl vm_scriptOff. by destruct (_ >=? _).
Qed.

Lemma Step_fail vm script pop vm2 e :
  0 ≤ vm_scriptIdx vm → vm_scripts vm !! Z.to_nat (vm_scriptIdx vm) = Some script →
  0 ≤ vm_scriptOff vm → script !! Z.to_nat (vm_scriptOff vm) = Some pop →
  executeOpcode pop (set_scriptOff (vm_scriptOff vm + 1) vm) = (vm2, Fail e) →
  Step vm = (vm2, Fail e).
Proof using Type.
  intros Hi Hs Ho Hp Hex. rewrite (Step_fetch vm script pop) by done. by apply bind_fail_l.
Qed.

Definition next_start (vm : Engine) : Engine := set_scriptIdx (vm_scriptIdx vm + 1) (restarted vm).

(** The end of a script, not for pay-to-script-hash. *)
Lemma nextScript_plain vm :
  vm_condStack vm = [] → vm_isP2SH vm = false → zlen (vm_astack vm) < max_depth →
  0 ≤ vm_scriptIdx vm →
  nextScript vm =
    (let* vm := get in
     (if vm_scriptIdx vm <? zlen (vm_scripts vm) then
        let* script := lift_outcome (index (vm_scripts vm) (vm_scriptIdx vm)) in
        if vm_scriptOff vm >=? zlen script then incr_scriptIdx else ret ()
      else ret ()) ;;*
     gets (λ vm, vm_scriptIdx vm >=? zlen (vm_scripts vm))) (next_start vm).
Proof using Type.
  intros Hc Hp Ha Hi. unfold nextScript. rewrite (bind_ret_l (gets _) _ _ _ _ eq_refl), Hc. cbn [negb].
  change (zlen (@nil Z) =? 0) with true. cbn [negb].
  rewrite (bind_ret_l _ _ _ _ _ (on_astack_Depth vm Ha)), (bind_ret_l _ _ _ _ _ (on_astack_clear vm Ha)).
  rewrite (bind_ret_l (modify _) _ _ _ _ eq_refl), (bind_ret_l (modify _) _ _ _ _ eq_refl).
  rewrite (bind_ret_l get _ _ _ _ eq_refl). fold (restarted vm).
  change (vm_isP2SH (restarted vm)) with (vm_isP2SH vm). rewrite Hp, !andb_false_r.
  by rewrite (bind_ret_l incr_scriptIdx _ _ _ _ eq_refl).
Qed.

Lemma nextScript_more vm script :
  vm_condStack vm = [] → vm_isP2SH vm = false → zlen (vm_astack vm) < max_depth →
  0 ≤ vm_scriptIdx vm → vm_scripts vm !! Z.to_nat (vm_scriptIdx vm + 1) = Some script → script ≠ [] →
  nextScript vm = (next_start vm, Ret false).
Proof using Type.
  intros Hc Hp Ha Hi Hs Hne. rewrite nextScript_plain by done.
  pose proof (zlen_lookup _ _ _ Hs ltac:(lia)) as Hlt.
  rewrite (bind_ret_l get _ _ _ _ eq_refl).
  change (vm_scriptIdx (next_start vm)) with (vm_scriptIdx vm + 1).
  change (vm_scripts (next_start vm)) with (vm_scripts vm).
  change (vm_scriptOff (next_start vm)) with 0.
  rewrite (proj2 (Z.ltb_lt _ _)) by done.
  rewrite (bind_ret_l _ _ _ (next_start vm) ()).
  - unfold gets. simpl. by rewrite Z.geb_leb, (proj2 (Z.leb_gt _ _)) by lia.
  - unfold bind, lift_outcome, index. rewrite decide_True by lia. rewrite Hs.
    destruct script as [|pop script]; [done|].
    rewrite Z.geb_leb, (proj2 (Z.leb_gt _ _)) by (rewrite zlen_cons; pose proof (zlen_nonneg script); lia).
    done.
Qed.

Lemma nextScript_last vm :
  vm_condStack vm = [] → vm_isP2SH vm = false → zlen (vm_astack vm) < max_depth →
  0 ≤ vm_scriptIdx vm → zlen (vm_scripts vm) = vm_scriptIdx vm + 1 →
  nextScript vm = (next_start vm, Ret true).
Proof using Type.
  intros Hc Hp Ha Hi Hz. rewrite nextScript_plain by done.
  unfold bind, get, gets, next_start. cbn [vm_scriptIdx vm_scripts set_scriptIdx restarted].
  change (vm_scripts (restarted vm)) with (vm_scripts vm).
  rewrite Hz, Z.ltb_irrefl. unfold ret. cbn [vm_scriptIdx vm_scripts set_scriptIdx].
  change (vm_scripts (restarted vm)) with (vm_scripts vm). by rewrite Hz, Z.geb_leb, Z.leb_refl.
Qed.

(** ** From the signature script to the public key script *)

(** The start of the public key script. *)
Definition started (vm : Engine) : Prop :=
  vm_scriptIdx vm = 1 ∧ vm_scriptOff vm = 0 ∧ vm_condStack vm = [] ∧ vm_numOps vm = 0 ∧ vm_astack vm = [].

(** What the signature script cannot change. *)
Definition context_of (vm : Engine) :=
  (vm_scripts vm, vm_tx vm, vm_txIdx vm, vm_isP2SH vm).

Lemma Step_sigScript vm s1 :
  engine_ok vm → vm_scriptIdx vm = 0 → vm_isP2SH vm = false →
  vm_scripts vm !! 1%nat = Some s1 → s1 ≠ [] →
  wp Step (λ done vm', done = false ∧ context_of vm' = context_of vm ∧
                       (vm_scriptIdx vm' = 0 ∨ started vm')) (λ _ _, True) vm.
Proof using All.
  intros Hok Hi Hp Hs1 Hne. pose proof Hok as [Hr Hsc (script & _ & Hs & Ho) _ Hsig _].
  destruct (lookup_lt_is_Some_2 script (Z.to_nat (vm_scriptOff vm))) as [pop Hpop]; [unfold zlen in Ho; lia|].
  assert (pop_good pop) as Hg.
  { eapply Forall_lookup_1 in Hs; [|done]. by eapply Forall_lookup_1 in Hpop. }
  set (vm1 := set_scriptOff (vm_scriptOff vm + 1) vm).
  pose proof (safe_executeOpcode pop MaxStackSize ltac:(unfold MaxStackSize; lia) Hg vm1 Hr) as Hex.
  pose proof (opcode_executed vm script pop) as Hfacts. fold vm1 in Hfacts.
  unfold wp in Hex |- *. destruct (executeOpcode pop vm1) as [vm2 [[]|e|c]] eqn:E; [| |done].
  2:{ by rewrite (Step_fail vm script pop vm2 e) by (done || lia). }
  destruct Hex as (_ & (Hd2 & Ha2 & Hk2 & Hrest2) & Hst).
  destruct (Hfacts vm2 Hok Hs Hpop eq_refl) as [Hf0 _]. destruct (Hf0 Hi) as [_ Hc2].
  pose proof (zlen_nonneg (vm_dstack vm2)). pose proof (zlen_nonneg (vm_astack vm2)).
  unfold MaxStackSize in Hk2.
  rewrite (Step_ok vm script pop vm2) by (done || lia).
  injection Hst as _ Hsc2 Hi2 Ho2 Htx2 Htxi2 _ Hp2 _.
  destruct (_ >? _); [done|]. destruct (_ >=? _).
  - rewrite (nextScript_more vm2 s1); try done.
    + split; [done|]. split; [|right].
      * unfold context_of. simpl. unfold restarted. simpl. by rewrite Hsc2, Htx2, Htxi2, Hp2.
      * unfold started, next_start. simpl. by rewrite Hi2, Hc2; simpl; rewrite Hi.
    + by rewrite Hp2.
    + unfold max_depth. lia.
    + rewrite Hi2. simpl. lia.
    + rewrite Hsc2, Hi2. simpl. by rewrite Hi.
  - split; [done|]. split; [|left; by rewrite Hi2]. unfold context_of. by rewrite Hsc2, Htx2, Htxi2, Hp2.
Qed.

(** A run that ends well passes through the start of the public key script. *)
Lemma run_to_pubkey fuel : ∀ vm vm1 s1,
  engine_ok vm → vm_isP2SH vm = false → vm_scripts vm !! 1%nat = Some s1 → s1 ≠ [] →
  vm_scriptIdx vm = 0 ∨ started vm → executeLoop fuel vm = (vm1, Ret ()) →
  ∃ fuel' vm', engine_ok vm' ∧ started vm' ∧ context_of vm' = context_of vm ∧
               executeLoop fuel' vm' = (vm1, Ret ()).
Proof using All.
  induction fuel as [|fuel IH]; intros vm vm1 s1 Hok Hp Hs1 Hne [Hi|Hst] Hrun;
    [done|by exists 0%nat, vm| |by exists (S fuel), vm].
  cbn [executeLoop] in Hrun. apply bind_ret_inv in Hrun as (vm2 & done & Hstep & Hrun).
  pose proof (Step_sigScript vm s1 Hok Hi Hp Hs1 Hne) as Hsig. unfold wp in Hsig. rewrite Hstep in Hsig.
  destruct Hsig as (-> & Hctx & Hnext).
  pose proof (Step_preserves vm Hok) as Hpres. unfold wp in Hpres. rewrite Hstep in Hpres.
  destruct Hpres as [Hok2 _]. pose proof Hctx as [= Hsc Htx Htxi Hp2].
  destruct (IH vm2 vm1 s1) as (fuel' & vm' & Hok' & Hst' & Hctx' & Hrun');
    [done|by rewrite Hp2|by rewrite Hsc|done|done|done|].
  exists fuel', vm'. split; [done|]. split; [done|]. split; [by rewrite Hctx'|done].
Qed.

(** ** The public key script *)
Definition verdict_on (vm : Engine) (pk full : list Z) : fallible bool :=
  sig_verdict schnorrScheme schnorr_digest (vm_tx vm) (vm_txIdx vm) pk full.

Definition pk_pushed (pk : list Z) (vm : Engine) : Engine :=
  set_dstack (vm_dstack vm ++ [pk]) (set_scriptOff 1 vm).

(** Its first step pushes the key. *)
Lemma p2pk_step1 fuel vm s0 pk :
  engine_ok vm → started vm → vm_scripts vm = [s0; p2pk_pops pk] → zlen pk = 32 →
  executeLoop (S fuel) vm =
    if zlen (vm_dstack vm) + 1 >? MaxStackSize then (pk_pushed pk vm, Fail ErrStackOverflow)
    else executeLoop fuel (pk_pushed pk vm).
Proof using Type.
  intros Hok (Hi & Ho & Hc & Hn & Ha) Hsc Hpk.
  pose proof (eo_run vm Hok) as (_ & _ & Hk & _). rewrite Ha in Hk.
  change (zlen (@nil (list Z))) with 0 in Hk. unfold MaxStackSize in Hk.
  assert (zlen (vm_dstack (pk_pushed pk vm)) + zlen (vm_astack (pk_pushed pk vm))
          = zlen (vm_dstack vm) + 1) as Hz.
  { simpl. rewrite Ha, zlen_app. change (zlen [pk]) with 1. change (zlen (@nil (list Z))) with 0. lia. }
  cbn [executeLoop]. unfold bind at 1. rewrite <- Hz.
  rewrite (Step_ok vm (p2pk_pops pk) (pk_pop pk) (pk_pushed pk vm)); rewrite ?Hi, ?Ho, ?Hsc; try done; try lia.
  - by destruct (_ >? _).
  - by rewrite (executeOpcode_data 32 "OP_DATA_32" pk) by (done || lia).
Qed.

(** On an empty stack the second fails. *)
Lemma p2pk_empty fuel vm s0 pk :
  engine_ok vm → started vm → vm_scripts vm = [s0; p2pk_pops pk] → zlen pk = 32 → vm_dstack vm = [] →
  snd (executeLoop (S (S fuel)) vm) = Fail ErrInvalidStackOperation.
Proof using Type.
  intros Hok Hst Hsc Hpk Hd. rewrite (p2pk_step1 (S fuel) vm s0 pk) by done. rewrite Hd.
  change (zlen (@nil (list Z)) + 1 >? MaxStackSize) with false.
  destruct Hst as (Hi & Ho & Hc & Hn & Ha). cbn [executeLoop]. unfold bind at 1.
  destruct (opcodeCheckSig checksig_pop (set_numOps 1 (set_scriptOff 2 (pk_pushed pk vm)))) as [vm2 r] eqn:E.
  assert (r = Fail ErrInvalidStackOperation) as ->.
  { apply (f_equal snd) in E. simpl in E. rewrite <- E. unfold opcodeCheckSig, checkSig.
    unfold bind at 1, on_dstack at 1, zoom at 1. simpl vm_dstack. by rewrite Hd. }
  erewrite (Step_fail _ (p2pk_pops pk) checksig_pop); simpl; rewrite ?Hi, ?Hsc; [done..|].
  rewrite executeOpcode_checksig; [|simpl; rewrite Hn; done|done]. simpl. rewrite Hn. exact E.
Qed.

(** Its two steps, from a stack with a signature on top that fits the limit. *)
Lemma p2pk_two_steps fuel vm s0 pk base full :
  engine_ok vm → started vm → vm_scripts vm = [s0; p2pk_pops pk] → vm_isP2SH vm = false →
  zlen pk = 32 → vm_dstack vm = base ++ [full] → are_bytes pk →
  if zlen base + 2 >? MaxStackSize then snd (executeLoop (S (S fuel)) vm) = Fail ErrStackOverflow
  else
    match verdict_on vm pk full with
    | Ret b =>
        ∃ vm', executeLoop (S (S fuel)) vm = (vm', Ret ()) ∧ vm_dstack vm' = base ++ [fromBool b] ∧
               vm_scriptIdx vm' = zlen (vm_scripts vm')
    | Fail e => snd (executeLoop (S (S fuel)) vm) = Fail e
    | Crash _ => False
    end.
Proof using All.
  intros Hok (Hi & Ho & Hc & Hn & Ha) Hsc Hp Hpk Hd Hbytes.
  pose proof (eo_run vm Hok) as Hr. pose proof Hr as (Hitems & _ & Hk & Hrest).
  rewrite Hd, Ha in Hk. change (zlen (@nil (list Z))) with 0 in Hk. unfold MaxStackSize in Hk.
  pose proof (zlen_nonneg base).
  assert (zlen (base ++ [full]) = zlen base + 1) as Hz1 by (rewrite zlen_app; done).
  assert (executeLoop (S (S fuel)) vm = if zlen base + 2 >? MaxStackSize
          then (pk_pushed pk vm, Fail ErrStackOverflow) else executeLoop (S fuel) (pk_pushed pk vm)) as ->.
  { replace (zlen base + 2) with (zlen (vm_dstack vm) + 1) by (rewrite Hd; lia).
    by apply (p2pk_step1 (S fuel) vm s0). }
  set (vm1 := pk_pushed pk vm).
  assert (zlen (vm_dstack vm1) + zlen (vm_astack vm1) = zlen base + 2) as Hz.
  { simpl. rewrite Hd, Ha, zlen_app, Hz1. change (zlen [pk]) with 1. change (zlen (@nil (list Z))) with 0. lia. }
  rewrite Z.gtb_ltb. destruct (Z.ltb_spec MaxStackSize (zlen base + 2)) as [|Hfit]; [done|].
  assert (run_inv MaxStackSize (set_numOps 1 (set_scriptOff 2 vm1))) as Hr2.
  { destruct Hrest as (_ & Hrest). split.
    - simpl. apply Forall_app. split; [done|]. constructor; [|constructor]. split; [done|].
      rewrite Hpk. done.
    - split; [simpl; rewrite Ha; constructor|]. split; [unfold MaxStackSize in *; simpl in *; lia|].
      split; [simpl; unfold MaxOpsPerScript; lia|]. apply Hrest. }
  assert (executeOpcode checksig_pop (set_scriptOff (vm_scriptOff vm1 + 1) vm1)
          = opcodeCheckSig checksig_pop (set_numOps 1 (set_scriptOff 2 vm1))) as Hex.
  { rewrite executeOpcode_checksig; simpl; rewrite ?Hn; try done. }
  pose proof (checkSig_exact _ _ schnorr_signs MaxStackSize checksig_pop _ base full pk Hr2 ltac:(done)) as Hcs.
  specialize (Hcs ltac:(simpl; by rewrite Hd, <- app_assoc)). fold opcodeCheckSig in Hcs.
  change (vm_tx (set_numOps 1 _)) with (vm_tx vm) in Hcs.
  change (vm_txIdx (set_numOps 1 _)) with (vm_txIdx vm) in Hcs. fold (verdict_on vm pk full) in Hcs.
  change (checkSig schnorrScheme checksig_pop) with (opcodeCheckSig checksig_pop) in Hcs.
  rewrite <- Hex in Hcs. unfold answers in Hcs.
  destruct (verdict_on vm pk full) as [b|e|c]; [| |done].
  2:{ destruct (executeOpcode checksig_pop _) as [vm2 r] eqn:E. simpl in Hcs. subst r.
      cbn [executeLoop]. unfold bind at 1.
      by rewrite (Step_fail vm1 (p2pk_pops pk) checksig_pop vm2 e); simpl; rewrite ?Hi, ?Ho, ?Hsc. }
  destruct Hcs as (vm2 & E & Hd2 & Hoth). injection Hoth as Hv2 Hsc2 Hi2 Ho2 Htx2 Htxi2 Hf2 Hp2 Hsv2 Ha2 Hc2.
  assert (zlen (vm_dstack vm2) + zlen (vm_astack vm2) ≤ MaxStackSize) as Hz2.
  { rewrite Hd2, Ha2. simpl. rewrite Ha, zlen_app. change (zlen [fromBool b]) with 1.
    change (zlen (@nil (list Z))) with 0. lia. }
  exists (next_start vm2). split; [|split; [done|]].
  2:{ unfold next_start. simpl. rewrite Hi2, Hsc2. simpl. by rewrite Hi, Hsc. }
  cbn [executeLoop]. unfold bind at 1. rewrite (Step_ok vm1 (p2pk_pops pk) checksig_pop vm2);
    simpl; rewrite ?Hi, ?Ho, ?Hsc; try done; try lia.
  - rewrite Z.gtb_ltb, (proj2 (Z.ltb_ge _ _)) by done. change (1 + 1 >=? zlen (p2pk_pops pk)) with true.
    rewrite nextScript_last; [done|by rewrite Hc2|by rewrite Hp2| | |].
    + rewrite Ha2. simpl. by rewrite Ha.
    + rewrite Hi2. simpl. lia.
    + rewrite Hi2, Hsc2. simpl. by rewrite Hi, Hsc.
  - unfold static. rewrite Hv2, Hsc2, Hi2, Ho2, Htx2, Htxi2, Hf2, Hp2, Hsv2. done.
  - unfold MaxStackSize in Hz2. lia.
Qed.

(** ** The whole run *)
Lemma executeLoop_more fuel k : ∀ vm vm1,
  executeLoop fuel vm = (vm1, Ret ()) → executeLoop (fuel + k) vm = (vm1, Ret ()).
Proof using Type.
  induction fuel as [|fuel IH]; intros vm vm1 Hrun; [done|]. cbn [executeLoop Nat.add] in *.
  apply bind_ret_inv in Hrun as (vm2 & done & Hstep & Hrun).
  rewrite (bind_ret_l _ _ _ _ _ Hstep). destruct done; [done|by apply IH].
Qed.

Lemma CheckErrorCondition_one vm x :
  zlen (vm_scripts vm) ≤ vm_scriptIdx vm → vm_dstack vm = [x] →
  snd (CheckErrorCondition true vm) = if asBool x then Ret () else Fail ErrEvalFalse.
Proof using Type.
  intros Hi Hd. unfold CheckErrorCondition. rewrite (bind_ret_l get _ _ _ _ eq_refl).
  rewrite (proj2 (Z.ltb_ge _ _)) by lia.
  rewrite (bind_ret_l _ _ vm vm ()).
  2:{ rewrite (bind_ret_l _ _ _ _ _ (on_dstack_Depth vm ltac:(by rewrite Hd))). by rewrite Hd. }
  unfold bind, on_dstack, zoom. rewrite Hd. unfold PopBool.
  rewrite (bind_ret_l _ _ [x] [] x) by (apply (nipN_spec [] []); done).
  unfold ret. by destruct (asBool x).
Qed.

(** A signature script that spends: its bytes carry a hash type, and the rest is
    a signature that verifies for the key over the signature hash of this input. *)
Definition signs_spend (tx : DomainTransaction) (txIdx : Z) (pk full : list Z) : Prop :=
  ∃ sb ht p s, full = sb ++ [ht] ∧ IsStandardSigHashType ht = true ∧ zlen sb = 64 ∧
    @DeserializePubKey _ _ schnorr pk = Some p ∧
    @DeserializeSignatureFromSlice _ _ schnorr sb = Some s ∧
    @Verify _ _ schnorr p (schnorr_digest tx txIdx ht) s = true.

Lemma verdict_true tx txIdx pk full : zlen pk = 32 →
  sig_verdict schnorrScheme schnorr_digest tx txIdx pk full = Ret true ↔ signs_spend tx txIdx pk full.
Proof using Type.
  intros Hpk. unfold sig_verdict, signs_spend. destruct full as [|ht sb _] using rev_ind.
  { split; [done|]. intros (sb & ht & p & s & E & _). by destruct sb. }
  rewrite last_snoc, removelast_last. simpl sc_checkSignatureLength. simpl sc_checkPubKeyEncoding.
  simpl sc_alg. unfold checkSignatureLength, checkPubKeyEncoding. rewrite Hpk. split.
  - destruct (IsStandardSigHashType ht) eqn:Hst; [|done]. cbn [negb].
    destruct (Z.eqb_spec (zlen sb) 64) as [Hl|]; [|done]. cbn [negb obind Z.eqb].
    change (32 =? 32) with true. cbn [obind].
    destruct (DeserializePubKey pk) as [p|] eqn:Ep; [|done].
    destruct (DeserializeSignatureFromSlice sb) as [sg|] eqn:Es; [|done].
    destruct (Verify p _ sg) eqn:Ev; [|by destruct (_ >? _)]. intros _. by exists sb, ht, p, sg.
  - intros (sb' & ht' & p & sg & [-> ->]%app_inj_tail & Hst & Hl & Ep & Es & Ev).
    rewrite Hst, Hl. cbn [negb obind]. change (64 =? 64) with true. change (32 =? 32) with true.
    cbn [negb obind]. by rewrite Ep, Es, Ev.
Qed.

Lemma NewEngine_p2pk spk tx txIdx flags c1 c2 r vm txIn pk :
  tx_Inputs tx !! Z.to_nat txIdx = Some txIn → are_bytes (in_SignatureScript txIn) →
  spk_Version spk ≤ MaxScriptPublicKeyVersion → zlen pk = 32 → spk_Script spk = p2pk_script pk →
  NewEngine spk tx txIdx flags c1 c2 r = Ret vm →
  ∃ s0, parseScriptE (in_SignatureScript txIn) = Ret s0 ∧
        context_of vm = ([s0; p2pk_pops pk], tx, txIdx, false) ∧ vm_scriptOff vm = 0 ∧
        vm_dstack vm = [] ∧ vm_condStack vm = [] ∧ vm_numOps vm = 0 ∧ vm_astack vm = [] ∧
        vm_scriptVersion vm = spk_Version spk ∧
        vm_scriptIdx vm = if zlen (in_SignatureScript txIn) =? 0 then 1 else 0.
Proof using Type.
  intros Hin Hb Hver Hpk Hspk. unfold NewEngine. destruct (_ || _) eqn:Eor; [done|].
  apply orb_false_iff in Eor as [Hge%Z.ltb_ge _].
  rewrite (index_lookup _ _ _ Hge Hin). cbn [obind]. cbv zeta. destruct (_ && _); [done|].
  rewrite Z.gtb_ltb, (proj2 (Z.ltb_ge _ _)) by done.
  unfold parseScriptAndVerifySize. destruct (_ >? MaxScriptSize); [done|].
  destruct (parseScriptE (in_SignatureScript txIn)) as [s0| |] eqn:E0; [|done|done]. cbn [obind].
  destruct (isPushOnly s0); [|done]. cbn [negb].
  rewrite Hspk, Z.gtb_ltb, (proj2 (Z.ltb_ge _ _)).
  2:{ unfold p2pk_script. rewrite zlen_cons, zlen_app. change (zlen [OpCheckSig]) with 1.
      unfold MaxScriptSize. lia. }
  rewrite p2pk_parses by done. cbn [obind]. change (isScriptHash (p2pk_pops pk)) with false. cbn [andb].
  intros [= <-]. exists s0. done.
Qed.

(** What a successful [Execute] says of the loop. *)
Lemma Execute_ret_inv vm : vm_scriptVersion vm ≤ MaxScriptPublicKeyVersion → engine_ok vm →
  opcodes_left vm ≤ Z.of_nat execute_fuel → snd (Execute vm) = Ret () →
  ∃ vm1 x, executeLoop execute_fuel vm = (vm1, Ret ()) ∧ vm_dstack vm1 = [x] ∧ asBool x = true.
Proof using All.
  intros Hv Hok Hfuel. unfold Execute. rewrite (bind_ret_l (gets _) _ _ _ _ eq_refl), Z.gtb_ltb.
  rewrite (proj2 (Z.ltb_ge _ _)) by done. unfold bind.
  pose proof (wp_executeLoop execute_fuel vm Hok Hfuel) as Hloop. unfold wp in Hloop.
  destruct (executeLoop execute_fuel vm) as [vm1 [[]|e|c]]; [|done|done].
  pose proof (wp_CheckErrorCondition_final vm1 Hloop) as Hfin. unfold wp in Hfin.
  destruct (CheckErrorCondition true vm1) as [vm2 [[]|e|c]]; [|done|done].
  intros _. destruct Hfin as (_ & x & Hx & Hb). by exists vm1, x.
Qed.

Lemma Execute_ret vm vm1 x k : vm_scriptVersion vm ≤ MaxScriptPublicKeyVersion →
  executeLoop k vm = (vm1, Ret ()) → (k ≤ execute_fuel)%nat →
  zlen (vm_scripts vm1) ≤ vm_scriptIdx vm1 → vm_dstack vm1 = [x] → asBool x = true →
  snd (Execute vm) = Ret ().
Proof using Type.
  intros Hv Hrun Hk Hi Hd Hx. unfold Execute. rewrite (bind_ret_l (gets _) _ _ _ _ eq_refl), Z.gtb_ltb.
  rewrite (proj2 (Z.ltb_ge _ _)) by done.
  replace execute_fuel with (k + (execute_fuel - k))%nat by lia.
  rewrite (bind_ret_l _ _ _ _ _ (executeLoop_more k _ vm vm1 Hrun)).
  rewrite (CheckErrorCondition_one vm1 x Hi Hd). by rewrite Hx.
Qed.

(** From the start of the public key script: the run ends well exactly when the
    stack is one signature that signs the spend. *)
Lemma p2pk_from_start fuel vm vm1 s0 pk x :
  engine_ok vm → started vm → context_of vm = ([s0; p2pk_pops pk], vm_tx vm, vm_txIdx vm, false) →
  zlen pk = 32 → are_bytes pk → executeLoop fuel vm = (vm1, Ret ()) → vm_dstack vm1 = [x] →
  asBool x = true → ∃ full, vm_dstack vm = [full] ∧ signs_spend (vm_tx vm) (vm_txIdx vm) pk full.
Proof using All.
  intros Hok Hst [= Hsc Hp] Hpk Hb Hrun Hx Hbx. apply (executeLoop_more _ 2) in Hrun.
  rewrite Nat.add_comm in Hrun. cbn [Nat.add] in Hrun.
  destruct (vm_dstack vm) as [|full base _] eqn:Hd using rev_ind.
  { pose proof (p2pk_empty fuel vm s0 pk Hok Hst Hsc Hpk Hd) as Hf. by rewrite Hrun in Hf. }
  pose proof (p2pk_two_steps fuel vm s0 pk base full Hok Hst Hsc Hp Hpk Hd Hb) as Htwo.
  rewrite Hrun in Htwo. destruct (_ >? _); [done|].
  destruct (verdict_on vm pk full) as [b|e|c] eqn:Ev; [|done|done].
  destruct Htwo as (vm' & [= <-] & Hd' & _). rewrite Hx in Hd'.
  destruct base as [|? [|]]; [|done|done]. injection Hd' as ->. exists full. split; [done|].
  apply verdict_true; [done|]. destruct b; [exact Ev|done].
Qed.

(** The signature script that pushes one signature. *)
Lemma sig_push_step vm s1 full fuel :
  engine_ok vm → context_of vm = ([[sig_pop full]; s1], vm_tx vm, vm_txIdx vm, false) → s1 ≠ [] →
  vm_scriptIdx vm = 0 → vm_scriptOff vm = 0 → vm_dstack vm = [] → vm_condStack vm = [] →
  vm_astack vm = [] → zlen full = 65 →
  ∃ vm', engine_ok vm' ∧ started vm' ∧ context_of vm' = context_of vm ∧ vm_dstack vm' = [full] ∧
         executeLoop (S fuel) vm = executeLoop fuel vm'.
Proof using All.
  intros Hok [= Hsc Hp] Hne Hi Ho Hd Hc Ha Hl.
  set (vm2 := set_dstack [full] (set_scriptOff 1 vm)).
  assert (Step vm = (next_start vm2, Ret false)) as Hstep.
  { rewrite (Step_ok vm [sig_pop full] (sig_pop full) vm2); rewrite ?Hi, ?Ho, ?Hsc; try done.
    - simpl. rewrite Ha. simpl. apply (nextScript_more _ s1); simpl; try done; try lia.
      + by rewrite Ha.
      + by rewrite Hsc, Hi.
    - unfold sig_pop. rewrite (executeOpcode_data 65 "OP_DATA_65" full) by (done || lia).
      simpl. by rewrite Hd.
    - simpl. by rewrite Ha. }
  exists (next_start vm2). pose proof (Step_preserves vm Hok) as Hpres. unfold wp in Hpres.
  rewrite Hstep in Hpres. split; [apply Hpres|]. split.
  { unfold started, next_start. simpl. by rewrite Hi, Hc. }
  split; [done|]. split; [done|]. cbn [executeLoop]. by rewrite (bind_ret_l _ _ _ _ _ Hstep).
Qed.

(** An engine made by [NewEngine] for a pay-to-public-key output. *)
Record p2pk_engine (vm : Engine) tx txIdx txIn pk : Prop := {
  pe_ok : engine_ok vm;
  pe_fuel : opcodes_left vm ≤ Z.of_nat execute_fuel;
  pe_version : vm_scriptVersion vm ≤ MaxScriptPublicKeyVersion;
  pe_pk : zlen pk = 32 ∧ are_bytes pk;
  pe_context : ∃ s0, parseScriptE (in_SignatureScript txIn) = Ret s0 ∧
                     context_of vm = ([s0; p2pk_pops pk], tx, txIdx, false);
  pe_fresh : vm_scriptOff vm = 0 ∧ vm_dstack vm = [] ∧ vm_condStack vm = [] ∧ vm_numOps vm = 0 ∧
             vm_astack vm = [];
  pe_idx : vm_scriptIdx vm = if zlen (in_SignatureScript txIn) =? 0 then 1 else 0
}.

Lemma NewEngine_p2pk_engine spk tx txIdx flags c1 c2 r vm txIn pk :
  inputs_ok spk tx txIdx c1 c2 r → tx_Inputs tx !! Z.to_nat txIdx = Some txIn →
  spk_Version spk = 0 → zlen pk = 32 → spk_Script spk = p2pk_script pk →
  NewEngine spk tx txIdx flags c1 c2 r = Ret vm → p2pk_engine vm tx txIdx txIn pk.
Proof using Type.
  intros Hin Htx Hver Hpk Hspk Hnew.
  assert (are_bytes pk) as Hb.
  { pose proof (io_spk _ _ _ _ _ _ Hin) as Hb. rewrite Hspk in Hb.
    by apply are_bytes_cons in Hb as [_ [Hb _]%are_bytes_app]. }
  assert (are_bytes (in_SignatureScript txIn)) as Hsigb
    by (by eapply (Forall_lookup_1 _ _ _ _ (io_sigs _ _ _ _ _ _ Hin))).
  assert (spk_Version spk ≤ MaxScriptPublicKeyVersion) as Hver' by (by rewrite Hver).
  destruct (NewEngine_ok _ _ _ _ _ _ _ _ Hin Hnew) as [Hv Hok]. destruct (Hok Hver') as [Heo Hfuel].
  destruct (NewEngine_p2pk _ _ _ _ _ _ _ _ _ _ Htx Hsigb Hver' Hpk Hspk Hnew)
    as (s0 & Hs0 & Hctx & Ho & Hd & Hc & Hn & Ha & _ & Hi).
  split; try done; [by rewrite Hv|by exists s0].
Qed.

(** From any start of the public key script within the run. *)
Lemma p2pk_tail vm tx txIdx txIn pk k vm1 vm2 x :
  p2pk_engine vm tx txIdx txIn pk → engine_ok vm1 → started vm1 → context_of vm1 = context_of vm →
  executeLoop k vm1 = (vm2, Ret ()) → vm_dstack vm2 = [x] → asBool x = true →
  ∃ full, vm_dstack vm1 = [full] ∧ signs_spend tx txIdx pk full.
Proof using All.
  intros [_ _ _ [Hpk Hb] (s0 & _ & Hctx) _ _] Ho1 Hst1 Hc1 Hrun Hx Hbx.
  rewrite Hctx in Hc1. pose proof Hc1 as [= E1 E2 E3 E4]. rewrite <- E2, <- E3.
  apply (p2pk_from_start k vm1 vm2 s0 pk x); try done. by rewrite E2, E3.
Qed.

Lemma p2pk_sound vm tx txIdx txIn pk :
  p2pk_engine vm tx txIdx txIn pk → snd (Execute vm) = Ret () → ∃ full, signs_spend tx txIdx pk full.
Proof using All.
  intros Hpe Hex. pose proof Hpe as [Hok Hfuel Hv _ (s0 & _ & Hctx) (Ho & Hd & Hc & Hn & Ha) Hi].
  destruct (Execute_ret_inv vm Hv Hok Hfuel Hex) as (vm1 & x & Hrun & Hx & Hbx).
  injection Hctx as Hsc _ _ Hp.
  destruct (run_to_pubkey execute_fuel vm vm1 (p2pk_pops pk)) as (k & vm' & Hok' & Hst' & Hctx' & Hrun');
    [done|done|by rewrite Hsc|done| |done|].
  - revert Hi. destruct (_ =? 0); intros Hi; [by right|by left].
  - destruct (p2pk_tail vm tx txIdx txIn pk k vm' vm1 x) as (full & _ & Hs); [done..|]. by exists full.
Qed.

Lemma p2pk_canonical vm tx txIdx txIn pk full :
  p2pk_engine vm tx txIdx txIn pk → in_SignatureScript txIn = OpData65 :: full → zlen full = 65 →
  snd (Execute vm) = Ret () ↔ signs_spend tx txIdx pk full.
Proof using All.
  intros Hpe Hsig Hl.
  pose proof Hpe as [Hok Hfuel Hv [Hpk Hb] (s0 & Hs0 & Hctx) (Ho & Hd & Hc & Hn & Ha) Hi].
  rewrite Hsig in Hs0, Hi. rewrite sig_parses in Hs0 by done. injection Hs0 as <-.
  rewrite zlen_cons, Hl in Hi. change (65 + 1 =? 0) with false in Hi.
  pose proof Hctx as [= Hsc Htx Htxi Hp].
  assert (∀ fuel, ∃ vm', engine_ok vm' ∧ started vm' ∧ context_of vm' = context_of vm ∧
    vm_dstack vm' = [full] ∧ executeLoop (S fuel) vm = executeLoop fuel vm') as Hpush.
  { intros fuel. apply (sig_push_step vm (p2pk_pops pk)); try done. by rewrite Htx, Htxi. }
  split.
  - intros Hex. destruct (Execute_ret_inv vm Hv Hok Hfuel Hex) as (vm1 & x & Hrun & Hx & Hbx).
    replace execute_fuel with (S (execute_fuel - 1)) in Hrun by (unfold execute_fuel; lia).
    destruct (Hpush (execute_fuel - 1)%nat) as (vm' & Hok' & Hst' & Hctx' & Hd' & E). rewrite E in Hrun.
    destruct (p2pk_tail vm tx txIdx txIn pk (execute_fuel - 1)%nat vm' vm1 x) as (full' & Hf & Hs); [done..|].
    rewrite Hd' in Hf. by injection Hf as <-.
  - intros Hs. destruct (Hpush 2%nat) as (vm' & Hok' & Hst' & Hctx' & Hd' & E).
    pose proof Hctx' as [= E1 E2 E3 E4].
    pose proof (p2pk_two_steps 0 vm' [sig_pop full] pk [] full Hok' Hst' ltac:(congruence)
      ltac:(congruence) Hpk Hd' Hb) as Htwo. change (zlen [] + 2 >? MaxStackSize) with false in Htwo.
    cbv iota in Htwo. unfold verdict_on in Htwo. rewrite E2, E3, Htx, Htxi in Htwo.
    rewrite (proj2 (verdict_true tx txIdx pk full Hpk) Hs) in Htwo.
    destruct Htwo as (vm1 & Hrun & Hd1 & Hi1). rewrite <- E in Hrun.
    apply (Execute_ret vm vm1 [1] 3); [done|done|unfold execute_fuel; lia|lia|done|done].
Qed.
End Run.

(** ** Properties *)
Module SpendProps.
(** C12: what it takes to spend a pay-to-public-key output.  For the public key
    script [<pk> OP_CHECKSIG] of version 0, whatever bytes the signature script
    has and whatever the signature caches hold: if the engine accepts, some
    signature verifies for [pk] over the signature hash of this input of this
    transaction, with a standard hash type.  Conversely, for the signature script
    that pushes a signature of 64 bytes and its hash type, the engine accepts
    exactly when that signature does. *)
Theorem p2pk_spend `{LibsOk} spk tx txIdx flags c1 c2 r vm txIn pk :
  inputs_ok spk tx txIdx c1 c2 r → tx_Inputs tx !! Z.to_nat txIdx = Some txIn →
  spk_Version spk = 0 → zlen pk = 32 → spk_Script spk = p2pk_script pk →
  NewEngine spk tx txIdx flags c1 c2 r = Ret vm →
  (snd (Execute vm) = Ret () → ∃ full, signs_spend tx txIdx pk full) ∧
  (∀ full, in_SignatureScript txIn = OpData65 :: full → zlen full = 65 →
     (snd (Execute vm) = Ret () ↔ signs_spend tx txIdx pk full)).
Proof.
  intros Hin Htx Hver Hpk Hspk Hnew.
  pose proof (NewEngine_p2pk_engine _ _ _ _ _ _ _ _ _ _ Hin Htx Hver Hpk Hspk Hnew) as Hpe.
  split; [by eapply p2pk_sound|]. intros full. by eapply p2pk_canonical.
Qed.

Definition p2pk_spk : ScriptPublicKey :=
  {| spk_Script := p2pk_script SigProps.sample_key; spk_Version := 0 |}.

Definition p2pk_input (sigScript : list Z) : DomainTransactionInput :=
  {| in_PreviousOutpoint := {| op_TransactionID := replicate 32 7; op_Index := 1 |};
     in_SignatureScript := sigScript; in_Sequence := 3;
     in_UTXOEntry := Some {| ue_amount := 5; ue_scriptPublicKey := p2pk_spk; ue_blockDAAScore := 1;
                             ue_isCoinbase := false |} |}.

Definition p2pk_tx (sigScript : list Z) : DomainTransaction :=
  {| tx_Version := 0; tx_Inputs := [p2pk_input sigScript]; tx_Outputs := []; tx_LockTime := 0;
     tx_SubnetworkID := SubnetworkIDNative; tx_Gas := 0; tx_Payload := []; tx_Fee := 0; tx_Mass := 0;
     tx_ID := None |}.

(** The signature of the toy scheme, over the unsigned transaction. *)
Definition p2pk_sig : list Z := schnorr_digest (p2pk_tx []) 0 1 ++ SigProps.sample_key ++ [1].
Definition p2pk_signed : DomainTransaction := p2pk_tx (OpData65 :: p2pk_sig).

Lemma p2pk_inputs_ok :
  inputs_ok p2pk_spk p2pk_signed 0 None None (Some HashingProps.no_values).
Proof.
  split; try done.
  - apply (bool_decide_eq_true_1 (are_bytes (spk_Script p2pk_spk))). by vm_compute.
  - constructor; [|constructor].
    apply (bool_decide_eq_true_1 (are_bytes (OpData65 :: p2pk_sig))). by vm_compute.
  - constructor; [by eexists|constructor].
  - eexists. split; [done|]. repeat split; intros ? [=].
Qed.

Lemma p2pk_new :
  match NewEngine p2pk_spk p2pk_signed 0 0 None None (Some HashingProps.no_values) with
  | Ret _ => True
  | _ => False
  end.
Proof. vm_compute. exact I. Qed.

Lemma p2pk_spend_witness :
  ∃ vm, NewEngine p2pk_spk p2pk_signed 0 0 None None (Some HashingProps.no_values) = Ret vm ∧
        snd (Execute vm) = Ret () ∧ ∃ full, signs_spend p2pk_signed 0 SigProps.sample_key full.
Proof.
  pose proof p2pk_new as Hnew.
  destruct (NewEngine p2pk_spk p2pk_signed 0 0 None None (Some HashingProps.no_values)) as [vm| |] eqn:E;
    [|destruct Hnew..].
  exists vm. split; [reflexivity|].
  assert (snd (Execute vm) = Ret ()) as Hex.
  { apply (proj2 (p2pk_spend p2pk_spk p2pk_signed 0 0 None None (Some HashingProps.no_values) vm
      (p2pk_input (OpData65 :: p2pk_sig)) SigProps.sample_key p2pk_inputs_ok eq_refl eq_refl eq_refl eq_refl E)
      p2pk_sig eq_refl eq_refl).
    exists (schnorr_digest (p2pk_tx []) 0 1 ++ SigProps.sample_key), 1, SigProps.sample_key,
      (schnorr_digest (p2pk_tx []) 0 1 ++ SigProps.sample_key).
    repeat split; by vm_compute. }
  split; [exact Hex|].
  exact (proj1 (p2pk_spend p2pk_spk p2pk_signed 0 0 None None (Some HashingProps.no_values) vm
    (p2pk_input (OpData65 :: p2pk_sig)) SigProps.sample_key p2pk_inputs_ok eq_refl eq_refl eq_refl eq_refl E)
    Hex).
Defined.
End SpendProps.
