(* ===== verification/Interval.v ===== *)
(** * Reachability intervals (reachabilitymanager/interval.go)

    An interval is a pair of [uint64]s, inclusive on both sides; the empty
    interval at [s] is [s, s-1].  Arithmetic wraps at 64 bits as in Go.  The
    [float64] computations are those of Stdlib's [SpecFloat], IEEE 754 with 53
    bits of precision, rounded to nearest even. *)
From Stdlib Require Import Floats.SpecFloat.
From S2P Require Import Prelude.
Local Open Scope Z_scope.
Local Open Scope prog_scope.

(** ** float64 *)
Module Float64.
Definition prec : Z := 53.
Definition emax : Z := 1024.

(** [float64(n)] for a [uint64] *)
Definition of_uint64 (n : Z) : spec_float := binary_normalize prec emax n 0 false.
Definition mul : spec_float → spec_float → spec_float := SFmul prec emax.
Definition div : spec_float → spec_float → spec_float := SFdiv prec emax.
Definition add : spec_float → spec_float → spec_float := SFadd prec emax.
Definition lt (x y : spec_float) : bool :=
  match SFcompare x y with Some Lt => true | _ => false end.
Definition zero : spec_float := S754_zero false.
Definition one : spec_float := of_uint64 1.
Definition half : spec_float := S754_finite false (2 ^ 52) (-53).

(** [math.Pow(2, float64(k))] for a [uint64] [k]: a power of two, or infinity. *)
Definition pow2 (k : Z) : spec_float :=
  if k <? emax then S754_finite false (2 ^ 52) (k - 52) else S754_infinity false.

(** The integers [math.Ceil] and [math.Round] (half away from zero) return on
    numbers that are not negative; [None] on the others. *)
Definition ceil (x : spec_float) : option Z :=
  match x with
  | S754_zero _ => Some 0
  | S754_finite false m e =>
      Some (if 0 <=? e then Z.pos m * 2 ^ e else (Z.pos m + 2 ^ (- e) - 1) / 2 ^ (- e))
  | _ => None
  end.

Definition round (x : spec_float) : option Z :=
  match x with
  | S754_zero _ => Some 0
  | S754_finite false m e =>
      Some (if 0 <=? e then Z.pos m * 2 ^ e else (2 * Z.pos m + 2 ^ (- e)) / 2 ^ (1 - e))
  | _ => None
  end.
End Float64.

(** Go leaves open what [uint64(x)] is for a float that no [uint64] represents. *)
Class FloatConversion := uint64_unrepresentable : option Z → Z.
Class FloatConversionOk `{FloatConversion} : Prop :=
  uint64_unrepresentable_range x : 0 ≤ uint64_unrepresentable x < 2 ^ 64.

Definition uint64_of_float `{FloatConversion} (x : option Z) : Z :=
  match x with
  | Some n => if n <? 2 ^ 64 then n else uint64_unrepresentable x
  | None => uint64_unrepresentable x
  end.

Record ReachabilityInterval := { Start : Z; End : Z }.

#[export] Instance ReachabilityInterval_eq_dec : EqDecision ReachabilityInterval.
Proof. solve_decision. Defined.

(** The errors of the package. *)
Inductive reachabilityError :=
  | ErrNotFound
  | ErrFraction
  | ErrSplitEmpty
  | ErrSizesSum
  | ErrSizesTooLarge
  | ErrNotAncestor
  | ErrPivot
  | ErrMissingParent
  | ErrRootCapacity
  | ErrChosenChildBlueScore.

Module Interval.
Section Interval.
Context `{FloatConversion}.

Abbreviation u64 := GoInt.uint64 (only parsing).
Abbreviation failing A := (outcome reachabilityError A) (only parsing).

Definition newReachabilityInterval (start end_ : Z) : ReachabilityInterval :=
  {| Start := start; End := end_ |}.

Definition intervalSize (ri : ReachabilityInterval) : Z := u64 (End ri - Start ri + 1).

Definition intervalIncrease (ri : ReachabilityInterval) (offset : Z) : ReachabilityInterval :=
  {| Start := u64 (Start ri + offset); End := u64 (End ri + offset) |}.
Definition intervalDecrease (ri : ReachabilityInterval) (offset : Z) : ReachabilityInterval :=
  {| Start := u64 (Start ri - offset); End := u64 (End ri - offset) |}.
Definition intervalIncreaseStart (ri : ReachabilityInterval) (offset : Z) : ReachabilityInterval :=
  {| Start := u64 (Start ri + offset); End := End ri |}.
Definition intervalDecreaseStart (ri : ReachabilityInterval) (offset : Z) : ReachabilityInterval :=
  {| Start := u64 (Start ri - offset); End := End ri |}.
Definition intervalIncreaseEnd (ri : ReachabilityInterval) (offset : Z) : ReachabilityInterval :=
  {| Start := Start ri; End := u64 (End ri + offset) |}.
Definition intervalDecreaseEnd (ri : ReachabilityInterval) (offset : Z) : ReachabilityInterval :=
  {| Start := Start ri; End := u64 (End ri - offset) |}.

Definition intervalSplitFraction (ri : ReachabilityInterval) (fraction : spec_float)
    : failing (ReachabilityInterval * ReachabilityInterval) :=
  if Float64.lt fraction Float64.zero || Float64.lt Float64.one fraction then Fail ErrFraction
  else if intervalSize ri =? 0 then Fail ErrSplitEmpty
  else
    let allocationSize :=
      uint64_of_float (Float64.ceil (Float64.mul (Float64.of_uint64 (intervalSize ri)) fraction)) in
    let left := newReachabilityInterval (Start ri) (u64 (u64 (Start ri + allocationSize) - 1)) in
    let right := newReachabilityInterval (u64 (Start ri + allocationSize)) (End ri) in
    Ret (left, right).

Definition intervalSplitInHalf (ri : ReachabilityInterval)
    : failing (ReachabilityInterval * ReachabilityInterval) :=
  intervalSplitFraction ri Float64.half.

(** [sizesSum := uint64(0); for _, size := range sizes { sizesSum += size }] *)
Definition sumSizes (sizes : list Z) : Z := fold_left (λ sum size, u64 (sum + size)) sizes 0.

Fixpoint splitAt (start : Z) (sizes : list Z) : list ReachabilityInterval :=
  match sizes with
  | [] => []
  | size :: sizes =>
      newReachabilityInterval start (u64 (u64 (start + size) - 1)) :: splitAt (u64 (start + size)) sizes
  end.

Definition intervalSplitExact (ri : ReachabilityInterval) (sizes : list Z)
    : failing (list ReachabilityInterval) :=
  if negb (sumSizes sizes =? intervalSize ri) then Fail ErrSizesSum
  else Ret (splitAt (Start ri) sizes).

Definition exponentialFractions (sizes : list Z) : list spec_float :=
  let maxSize := fold_left (λ maxSize size, if size >? maxSize then size else maxSize) sizes 0 in
  let fractions := map (λ size, Float64.div Float64.one (Float64.pow2 (u64 (maxSize - size)))) sizes in
  let fractionsSum := fold_left Float64.add fractions Float64.zero in
  map (λ fraction, Float64.div fraction fractionsSum) fractions.

(** [for i, fraction := range fractions]: the last part takes what remains. *)
Fixpoint biasSizes (totalBias remainingBias : Z) (sizes : list Z) (fractions : list spec_float)
    : list Z :=
  match sizes, fractions with
  | size :: sizes, fraction :: fractions =>
      let bias :=
        match fractions with
        | [] => remainingBias
        | _ =>
            let bias := uint64_of_float
              (Float64.round (Float64.mul (Float64.of_uint64 totalBias) fraction)) in
            if bias >? remainingBias then remainingBias else bias
        end in
      u64 (size + bias) :: biasSizes totalBias (u64 (remainingBias - bias)) sizes fractions
  | _, _ => []
  end.

Definition intervalSplitWithExponentialBias (ri : ReachabilityInterval) (sizes : list Z)
    : failing (list ReachabilityInterval) :=
  let size := intervalSize ri in
  let sizesSum := sumSizes sizes in
  if sizesSum >? size then Fail ErrSizesTooLarge
  else if sizesSum =? size then intervalSplitExact ri sizes
  else
    let totalBias := u64 (size - sizesSum) in
    let biasedSizes := biasSizes totalBias totalBias sizes (exponentialFractions sizes) in
    intervalSplitExact ri biasedSizes.

Definition intervalContains (ri other : ReachabilityInterval) : bool :=
  (Start ri <=? Start other) && (End other <=? End ri).
End Interval.
End Interval.
Import Interval.

(** ** Well-formed intervals and partitions *)

(** The intervals of the tree lie within [1, 2^64 - 2] and may be empty. *)
Definition interval_ok (ri : ReachabilityInterval) : Prop :=
  0 < Start ri ∧ Start ri ≤ End ri + 1 ∧ End ri < 2 ^ 64 - 1.

#[export] Instance interval_ok_dec ri : Decision (interval_ok ri).
Proof. unfold interval_ok. apply _. Defined.

Definition zsum (l : list Z) : Z := foldr Z.add 0 l.

Lemma zsum_cons x l : zsum (x :: l) = x + zsum l.
Proof. done. Qed.

Lemma zsum_nonneg l : Forall (λ x, 0 ≤ x) l → 0 ≤ zsum l.
Proof. induction 1; [done|]. rewrite zsum_cons. lia. Qed.

(** [tiles s parts ivs]: the intervals [ivs] have the sizes [parts] and follow
    one another from [s]. *)
Fixpoint tiles (s : Z) (parts : list Z) (ivs : list ReachabilityInterval) : Prop :=
  match parts, ivs with
  | [], [] => True
  | part :: parts, iv :: ivs => Start iv = s ∧ End iv = s + part - 1 ∧ tiles (s + part) parts ivs
  | _, _ => False
  end.

Lemma intervalSize_ok ri : interval_ok ri → intervalSize ri = End ri - Start ri + 1.
Proof. intros (? & ? & ?). unfold intervalSize. apply GoInt.uint64_id. lia. Qed.

Lemma sumSizes_exact sizes :
  Forall (λ x, 0 ≤ x) sizes → zsum sizes < 2 ^ 64 → sumSizes sizes = zsum sizes.
Proof.
  intros Hpos Hsum. unfold sumSizes.
  assert (∀ acc, 0 ≤ acc → acc + zsum sizes < 2 ^ 64 →
    fold_left (λ sum size, GoInt.uint64 (sum + size)) sizes acc = acc + zsum sizes) as Hgen.
  { clear Hsum. induction Hpos as [|x l Hx Hl IH]; intros acc Ha Hlt; [simpl; lia|].
    rewrite zsum_cons in Hlt. pose proof (zsum_nonneg l Hl). cbn [fold_left].
    rewrite GoInt.uint64_id by lia. rewrite IH by lia. rewrite zsum_cons. lia. }
  rewrite Hgen; lia.
Qed.

Lemma splitAt_tiles sizes : ∀ s, 0 < s → Forall (λ x, 0 ≤ x) sizes → s + zsum sizes < 2 ^ 64 →
  tiles s sizes (splitAt s sizes).
Proof.
  induction sizes as [|x l IH]; intros s Hs Hpos Hlt; [done|]. apply Forall_cons in Hpos as [Hx Hl].
  rewrite zsum_cons in Hlt. pose proof (zsum_nonneg l Hl). cbn [splitAt tiles].
  rewrite !(GoInt.uint64_id (s + x)) by lia. rewrite GoInt.uint64_id by lia.
  split; [done|]. split; [done|]. apply IH; [lia|done|lia].
Qed.

Lemma intervalSplitExact_spec ri sizes : interval_ok ri → Forall (λ x, 0 ≤ x) sizes →
  zsum sizes = intervalSize ri →
  ∃ ivs, intervalSplitExact ri sizes = Ret ivs ∧ tiles (Start ri) sizes ivs.
Proof.
  intros Hok Hpos Hsum. rewrite intervalSize_ok in Hsum by done. destruct Hok as (? & ? & ?).
  unfold intervalSplitExact. rewrite sumSizes_exact, intervalSize_ok by (done || lia).
  rewrite Hsum, Z.eqb_refl. cbn [negb]. eexists. split; [done|]. apply splitAt_tiles; [lia|done|lia].
Qed.

Section Bias.
Context `{FloatConversionOk}.

Lemma uint64_of_float_nonneg x : (∀ n, x = Some n → 0 ≤ n) → 0 ≤ uint64_of_float x.
Proof using All.
  intros Hx. unfold uint64_of_float. destruct x as [n|]; [|apply uint64_unrepresentable_range].
  destruct (n <? 2 ^ 64); [by apply Hx|apply uint64_unrepresentable_range].
Qed.

Lemma round_nonneg x n : Float64.round x = Some n → 0 ≤ n.
Proof using Type.
  unfold Float64.round. destruct x as [| | |[] m e]; try done; intros [= <-]; [done|].
  destruct (Z.leb_spec 0 e).
  - pose proof (Z.pow_nonneg 2 e). lia.
  - apply Z.div_pos; [|apply Z.pow_pos_nonneg; lia]. pose proof (Z.pow_nonneg 2 (- e)). lia.
Qed.

(** Each part gets its size and a share of the bias, and the shares add up. *)
Lemma biasSizes_spec total sizes : ∀ fractions remaining,
  sizes ≠ [] → length fractions = length sizes → Forall (λ x, 0 ≤ x) sizes → 0 ≤ remaining →
  zsum sizes + remaining < 2 ^ 64 →
  ∃ parts, biasSizes total remaining sizes fractions = parts ∧ Forall2 Z.le sizes parts ∧
           zsum parts = zsum sizes + remaining.
Proof using All.
  induction sizes as [|x l IH]; intros [|f fs] rem Hne Hlen Hpos Hrem Hlt; [done..|].
  apply Forall_cons in Hpos as [Hx Hl]. rewrite zsum_cons in *. pose proof (zsum_nonneg l Hl).
  injection Hlen as Hlen. cbn [biasSizes]. eexists. split; [done|].
  destruct l as [|y l].
  { destruct fs; [|done]. cbn [biasSizes zsum foldr]. simpl in Hlt. rewrite GoInt.uint64_id by lia.
    split; [repeat constructor; lia|]. lia. }
  destruct fs as [|f' fs]; [done|].
  set (b0 := uint64_of_float _). set (b := if b0 >? rem then rem else b0).
  assert (0 ≤ b ≤ rem) as Hb.
  { unfold b. rewrite Z.gtb_ltb. destruct (Z.ltb_spec rem b0); [lia|]. split; [|lia].
    apply uint64_of_float_nonneg. intros n. apply round_nonneg. }
  destruct (IH (f' :: fs) (GoInt.uint64 (rem - b))) as (parts & -> & Hf & Hs);
    rewrite ?(GoInt.uint64_id (rem - b)) by lia; try done; try lia.
  rewrite (GoInt.uint64_id (rem - b)) in Hs by lia. rewrite (GoInt.uint64_id (x + b)) by lia.
  split; [constructor; [lia|done]|]. rewrite zsum_cons, Hs. lia.
Qed.

Lemma exponentialFractions_length sizes : length (exponentialFractions sizes) = length sizes.
Proof using Type. unfold exponentialFractions. cbv zeta. by rewrite !length_map. Qed.

Lemma le_nonneg sizes parts : Forall2 Z.le sizes parts → Forall (λ x, 0 ≤ x) sizes → Forall (λ x, 0 ≤ x) parts.
Proof using Type.
  induction 1; intros Hpos; [constructor|]. apply Forall_cons in Hpos as []. constructor; [lia|auto].
Qed.

Lemma exponentialBias_spec ri sizes :
  interval_ok ri → sizes ≠ [] → Forall (λ x, 0 ≤ x) sizes → zsum sizes ≤ intervalSize ri →
  ∃ parts ivs, intervalSplitWithExponentialBias ri sizes = Ret ivs ∧ Forall2 Z.le sizes parts ∧
               zsum parts = intervalSize ri ∧ tiles (Start ri) parts ivs.
Proof using All.
  intros Hok Hne Hpos Hsum. pose proof (intervalSize_ok ri Hok) as Hsize.
  pose proof Hok as (? & ? & ?). pose proof (zsum_nonneg sizes Hpos).
  unfold intervalSplitWithExponentialBias. rewrite sumSizes_exact by (done || lia).
  rewrite Z.gtb_ltb, (proj2 (Z.ltb_ge _ _)) by done.
  destruct (Z.eqb_spec (zsum sizes) (intervalSize ri)) as [Heq|Hlt].
  - destruct (intervalSplitExact_spec ri sizes Hok Hpos Heq) as (ivs & -> & Ht).
    exists sizes, ivs. split; [done|]. split; [|done]. clear. induction sizes; constructor; [lia|done].
  - rewrite GoInt.uint64_id by lia.
    destruct (biasSizes_spec (intervalSize ri - zsum sizes) sizes (exponentialFractions sizes)
      (intervalSize ri - zsum sizes)) as (parts & -> & Hf & Hs); [done|apply exponentialFractions_length|done|lia|lia|].
    assert (zsum parts = intervalSize ri) as Hs' by lia.
    destruct (intervalSplitExact_spec ri parts Hok (le_nonneg _ _ Hf Hpos) Hs') as (ivs & -> & Ht).
    by exists parts, ivs.
Qed.
End Bias.

(** ** Halving

    The rounding of [SpecFloat] moves a number by less than one unit in the last
    place; that is all the split needs. *)
Lemma shr_1_m mrs : 0 ≤ shr_m mrs → shr_m (shr_1 mrs) = shr_m mrs / 2.
Proof.
  destruct mrs as [m r s]. simpl. intros Hm. destruct m as [|[p|p|]|]; try done; simpl.
  - change (Z.pos p~1) with (2 * Z.pos p + 1). apply (Z.div_unique _ _ _ 1); lia.
  - change (Z.pos p~0) with (2 * Z.pos p). rewrite Z.mul_comm, Z.div_mul; lia.
Qed.

Lemma shr_iter_m p : ∀ mrs, 0 ≤ shr_m mrs → shr_m (SpecFloat.iter_pos shr_1 p mrs) = shr_m mrs / 2 ^ Z.pos p.
Proof.
  assert (∀ a n, 0 ≤ a → 0 ≤ a / 2 ^ Z.pos n) as Hpos by (intros; apply Z.div_pos; lia).
  assert (∀ a n k, a / 2 ^ Z.pos n / 2 ^ Z.pos k = a / 2 ^ (Z.pos n + Z.pos k)) as Hdiv.
  { intros. rewrite Z.div_div, Z.pow_add_r by lia. done. }
  induction p as [p IH|p IH|]; intros mrs Hm; cbn [SpecFloat.iter_pos].
  - assert (shr_m (shr_1 mrs) = shr_m mrs / 2 ^ 1) as E1 by (by rewrite shr_1_m).
    assert (0 ≤ shr_m (shr_1 mrs)) as H1 by (rewrite E1; by apply (Hpos _ 1%positive)).
    rewrite IH, IH, E1 by (rewrite ?IH by done; auto). rewrite Hdiv.
    change (Z.pos p + Z.pos p) with (Z.pos (p + p)). rewrite (Hdiv _ 1%positive). do 2 f_equal. lia.
  - rewrite IH, IH by (rewrite ?IH by done; auto). rewrite Hdiv. do 2 f_equal. lia.
  - by rewrite shr_1_m.
Qed.

Lemma digits_bounds m : 0 < m → 1 ≤ Zdigits2 m ∧ 2 ^ (Zdigits2 m - 1) ≤ m < 2 ^ Zdigits2 m.
Proof.
  destruct m as [|p|]; try lia. intros _. cbn [Zdigits2].
  split; [lia|]. induction p as [p IH|p IH|]; cbn [digits2_pos].
  - rewrite Pos2Z.inj_succ. replace (Z.succ _ - 1) with (Z.succ (Z.pos (digits2_pos p) - 1)) by lia.
    rewrite !Z.pow_succ_r by lia. lia.
  - rewrite Pos2Z.inj_succ. replace (Z.succ _ - 1) with (Z.succ (Z.pos (digits2_pos p) - 1)) by lia.
    rewrite !Z.pow_succ_r by lia. lia.
  - lia.
Qed.

Lemma digits_unique m d : 0 < d → 2 ^ (d - 1) ≤ m < 2 ^ d → Zdigits2 m = d.
Proof.
  intros Hd Hm. assert (0 < 2 ^ (d - 1)) by (apply Z.pow_pos_nonneg; lia).
  destruct (digits_bounds m) as (Hd' & Hl & Hu); [lia|].
  destruct (Z.lt_trichotomy (Zdigits2 m) d) as [Hlt|[|Hgt]]; [|done|].
  - assert (2 ^ Zdigits2 m ≤ 2 ^ (d - 1)) by (apply Z.pow_le_mono_r; lia). lia.
  - assert (2 ^ d ≤ 2 ^ (Zdigits2 m - 1)) by (apply Z.pow_le_mono_r; lia). lia.
Qed.

Lemma fexp_normal d : -1000 ≤ d → fexp Float64.prec Float64.emax d = d - 53.
Proof. intros. unfold fexp, emin, Float64.prec, Float64.emax. lia. Qed.

(** Rounding a number of 53 bits or fewer does nothing. *)
Lemma binary_round_aux_short m e : 0 < m → Zdigits2 m ≤ 53 → -900 ≤ e ≤ 900 → 53 ≤ Zdigits2 m →
  binary_round_aux Float64.prec Float64.emax false m e loc_Exact = S754_finite false (Z.to_pos m) e.
Proof.
  intros Hm Hd He Hd'. assert (Zdigits2 m = 53) as E by lia. unfold binary_round_aux, shr_fexp.
  rewrite fexp_normal, E by lia. replace (53 + e - 53 - e) with 0 by lia. cbn [shr shr_record_of_loc].
  cbn [shr_m loc_of_shr_record round_nearest_even]. rewrite fexp_normal, E by lia.
  replace (53 + e - 53 - e) with 0 by lia. cbn [shr shr_record_of_loc shr_m].
  destruct m as [|p|]; try lia. rewrite (proj2 (Z.leb_le _ _)) by (unfold Float64.emax, Float64.prec; lia).
  done.
Qed.

(** Rounding a longer one truncates it to 53 bits and may add one unit. *)
Lemma binary_round_aux_long m e : 0 < m → 53 < Zdigits2 m ≤ 200 → -900 ≤ e ≤ 500 →
  let k := Zdigits2 m - 53 in
  ∃ m' e', binary_round_aux Float64.prec Float64.emax false m e loc_Exact = S754_finite false m' e' ∧
    e + k ≤ e' ≤ e + k + 1 ∧ 2 ^ 52 ≤ Z.pos m' < 2 ^ 53 ∧
    (Z.pos m' * 2 ^ (e' - e - k) = m / 2 ^ k ∨ Z.pos m' * 2 ^ (e' - e - k) = m / 2 ^ k + 1).
Proof.
  intros Hm Hd He k. destruct (digits_bounds m Hm) as (_ & Hl & Hu).
  assert (2 ^ 52 ≤ m / 2 ^ k < 2 ^ 53) as Hm1.
  { assert (0 < 2 ^ k) by (apply Z.pow_pos_nonneg; lia). split.
    - apply Z.div_le_lower_bound; [done|]. rewrite Z.mul_comm, <- Z.pow_add_r by lia.
      by replace (52 + k) with (Zdigits2 m - 1) by lia.
    - apply Z.div_lt_upper_bound; [done|]. rewrite <- Z.pow_add_r by lia.
      by replace (k + 53) with (Zdigits2 m) by lia. }
  unfold binary_round_aux, shr_fexp at 1. rewrite fexp_normal by lia.
  replace (Zdigits2 m + e - 53 - e) with k by lia. cbn [shr_record_of_loc].
  assert (∃ p, k = Z.pos p) as [p Hp] by (destruct k as [|p|] eqn:E; [lia|eauto|lia]).
  unfold shr. rewrite Hp. set (mrs := SpecFloat.iter_pos shr_1 p _).
  assert (shr_m mrs = m / 2 ^ k) as Hmrs by (unfold mrs; rewrite shr_iter_m by (simpl; lia); by rewrite Hp).
  set (m2 := round_nearest_even _ _).
  assert (m2 = m / 2 ^ k ∨ m2 = m / 2 ^ k + 1) as Hm2.
  { unfold m2. rewrite Hmrs. destruct (loc_of_shr_record mrs) as [|[]]; simpl; auto.
    destruct (Z.even _); auto. }
  unfold shr_fexp. rewrite <- Hp. destruct (Z.eq_dec m2 (2 ^ 53)) as [E2|E2].
  - rewrite (digits_unique m2 54) by lia. rewrite fexp_normal by lia.
    replace (54 + (e + k) - 53 - (e + k)) with 1 by lia. unfold shr. cbn [SpecFloat.iter_pos].
    rewrite shr_1_m by (simpl; lia). cbn [shr_record_of_loc shr_m]. rewrite E2.
    change (2 ^ 53 / 2) with (Z.pos (2 ^ 52)). cbn iota.
    rewrite (proj2 (Z.leb_le _ _)) by (unfold Float64.emax, Float64.prec; lia).
    eexists _, _. split; [done|]. split; [lia|]. split; [lia|]. replace (e + k + 1 - e - k) with 1 by lia.
    change (Z.pos (2 ^ 52) * 2 ^ 1) with (2 ^ 53). lia.
  - rewrite (digits_unique m2 53) by lia. rewrite fexp_normal by lia.
    replace (53 + (e + k) - 53 - (e + k)) with 0 by lia. cbn [shr shr_record_of_loc shr_m].
    destruct m2 as [|p2|] eqn:Em2; [lia| |lia].
    rewrite (proj2 (Z.leb_le _ _)) by (unfold Float64.emax, Float64.prec; lia).
    eexists _, _. split; [done|]. split; [lia|]. split; [lia|]. replace (e + k - e - k) with 0 by lia. lia.
Qed.

Lemma iter_xO m d : Z.pos (Pos.iter xO m d) = Z.pos m * 2 ^ Z.pos d.
Proof.
  induction d as [|d IH] using Pos.peano_ind; [simpl; lia|].
  rewrite Pos.iter_succ, Pos2Z.inj_succ, Z.pow_succ_r by lia.
  rewrite (Pos2Z.inj_xO (Pos.iter xO m d)), IH. ring.
Qed.

(** [float64(n)]: exact up to 2^53, within one unit above. *)
Lemma of_uint64_bound n : 0 < n < 2 ^ 64 →
  ∃ m e, Float64.of_uint64 n = S754_finite false m e ∧ 2 ^ 52 ≤ Z.pos m < 2 ^ 53 ∧
    (-52 ≤ e ≤ 0 ∧ Z.pos m = n * 2 ^ (- e) ∨ 1 ≤ e ≤ 12 ∧ Z.pos m * 2 ^ e ≤ n + 2 ^ 11 ∧ 2 ^ 53 ≤ n).
Proof.
  intros Hn. destruct (digits_bounds n ltac:(lia)) as (HD & Hl & Hu).
  assert (Zdigits2 n ≤ 64) as HD'.
  { destruct (decide (Zdigits2 n ≤ 64)); [done|].
    assert (2 ^ 64 ≤ 2 ^ (Zdigits2 n - 1)) by (apply Z.pow_le_mono_r; lia). lia. }
  unfold Float64.of_uint64, binary_normalize. destruct n as [|p|] eqn:En; [lia| |lia].
  unfold binary_round. cbn [Zdigits2] in *. rewrite fexp_normal by lia. unfold shl_align.
  set (D := Z.pos (digits2_pos p)) in *. destruct (decide (D ≤ 52)) as [Hs|Hs].
  - destruct (D + 0 - 53 - 0) as [|d|d] eqn:Ed; [lia|lia|].
    assert (Z.pos (Pos.iter xO p d) = Z.pos p * 2 ^ (53 - D)) as Em.
    { rewrite iter_xO. do 2 f_equal. lia. }
    assert (2 ^ 52 ≤ Z.pos (Pos.iter xO p d) < 2 ^ 53) as Hm.
    { assert (2 ^ 52 = 2 ^ (D - 1) * 2 ^ (53 - D)) as -> by (rewrite <- Z.pow_add_r by lia; f_equal; lia).
      assert (2 ^ 53 = 2 ^ D * 2 ^ (53 - D)) as -> by (rewrite <- Z.pow_add_r by lia; f_equal; lia).
      rewrite Em. assert (0 < 2 ^ (53 - D)) by (apply Z.pow_pos_nonneg; lia). nia. }
    rewrite binary_round_aux_short by (try rewrite (digits_unique _ 53) by lia; lia).
    eexists _, _. split; [done|]. split; [done|]. left. split; [lia|]. simpl Z.to_pos. rewrite Em. do 2 f_equal. lia.
  - assert (match D + 0 - 53 - 0 with Z.neg d => (Pos.iter xO p d, D + 0 - 53) | _ => (p, 0) end = (p, 0)) as ->.
    { destruct (D + 0 - 53 - 0) eqn:E; [done|done|lia]. }
    destruct (decide (D = 53)) as [E53|Hb].
    + rewrite binary_round_aux_short by (cbn [Zdigits2]; fold D; lia).
      eexists _, _. split; [done|]. rewrite E53 in *. split; [simpl in *; lia|]. left. split; [lia|]. simpl. lia.
    + destruct (binary_round_aux_long (Z.pos p) 0) as (m & e & -> & He & Hm & Hv); [lia|cbn [Zdigits2]; fold D; lia|lia|].
      cbn [Zdigits2] in *. fold D in He, Hv. exists m, e. split; [done|]. split; [done|]. right. split; [lia|].
      assert (2 ^ 53 ≤ 2 ^ (D - 1)) by (apply Z.pow_le_mono_r; lia). split; [|lia].
      assert (2 ^ (D - 53) ≤ 2 ^ 11) by (apply Z.pow_le_mono_r; lia).
      assert (0 < 2 ^ (D - 53)) by (apply Z.pow_pos_nonneg; lia).
      pose proof (Z.mul_div_le (Z.pos p) (2 ^ (D - 53)) ltac:(lia)).
      replace e with ((e - 0 - (D - 53)) + (D - 53)) at 1 by lia. rewrite Z.pow_add_r, Z.mul_assoc by lia. nia.
Qed.

Lemma ceil_le m e n : 0 < n → (0 ≤ e → Z.pos m * 2 ^ e ≤ n) → (e < 0 → Z.pos m ≤ n * 2 ^ (- e)) →
  ∃ a, Float64.ceil (S754_finite false m e) = Some a ∧ 1 ≤ a ≤ n.
Proof.
  intros Hn Hp Hq. unfold Float64.ceil. eexists. split; [done|]. destruct (Z.leb_spec 0 e) as [He|He].
  - split; [|by apply Hp]. assert (0 < 2 ^ e) by (apply Z.pow_pos_nonneg; lia). nia.
  - specialize (Hq He). assert (0 < 2 ^ (- e)) by (apply Z.pow_pos_nonneg; lia). split.
    + apply Z.div_le_lower_bound; lia.
    + apply Z.lt_succ_r, Z.div_lt_upper_bound; lia.
Qed.

(** [uint64(math.Ceil(float64(n) * 0.5))] is between 1 and [n]. *)
Lemma half_bound n : 0 < n < 2 ^ 64 →
  ∃ a, Float64.ceil (Float64.mul (Float64.of_uint64 n) Float64.half) = Some a ∧ 1 ≤ a ≤ n.
Proof.
  intros Hn. destruct (of_uint64_bound n Hn) as (m & e & -> & Hm & Hv).
  unfold Float64.mul, Float64.half, SFmul. cbn [xorb].
  assert (Zdigits2 (Z.pos (m * 2 ^ 52)) = 105) as Hd.
  { apply digits_unique; [lia|]. rewrite Pos2Z.inj_mul. change (Z.pos (2 ^ 52)) with (2 ^ 52).
    change (2 ^ (105 - 1)) with (2 ^ 52 * 2 ^ 52). change (2 ^ 105) with (2 ^ 53 * 2 ^ 52). lia. }
  destruct (binary_round_aux_long (Z.pos (m * 2 ^ 52)) (e + -53)) as (m' & e' & -> & He' & Hm' & Hv');
    [lia|lia|lia|].
  rewrite Hd, Pos2Z.inj_mul in Hv'. change (Z.pos (2 ^ 52)) with (2 ^ 52) in Hv'.
  change (105 - 53) with 52 in Hv'. rewrite Z.div_mul in Hv' by lia. rewrite Hd in He'.
  replace (e' - (e + -53) - 52) with (e' - e + 1) in Hv' by lia.
  assert (e' = e - 1 ∧ Z.pos m' ≤ Z.pos m + 1 ∨ e' = e ∧ Z.pos m' * 2 ≤ Z.pos m + 1) as Hcases.
  { destruct (decide (e' = e - 1)) as [->|]; [left|right; assert (e' = e) as -> by lia].
    - replace (e - 1 - e + 1) with 0 in Hv' by lia. lia.
    - replace (e - e + 1) with 1 in Hv' by lia. lia. }
  apply ceil_le; [lia| |].
  - intros He0. destruct Hv as [(He & E)|(He & E & H53)].
    + assert (e = 0 ∧ e' = 0) as [-> ->] by lia. simpl in *. lia.
    + assert (0 < 2 ^ (e - 1)) by (apply Z.pow_pos_nonneg; lia).
      assert (2 ^ e = 2 * 2 ^ (e - 1)) as E2 by (rewrite <- Z.pow_succ_r by lia; f_equal; lia).
      assert (2 ^ (e - 1) ≤ 2 ^ 11) by (apply Z.pow_le_mono_r; lia). rewrite E2 in E.
      destruct Hcases as [[-> ?]|[-> ?]]; [nia|rewrite E2; nia].
  - intros He0. destruct Hv as [(He & E)|(He & _)]; [|lia].
    assert (0 < 2 ^ (- e)) by (apply Z.pow_pos_nonneg; lia).
    destruct Hcases as [[-> ?]|[-> ?]]; [|nia].
    assert (2 ^ (- (e - 1)) = 2 * 2 ^ (- e)) as -> by (rewrite <- Z.pow_succ_r by lia; f_equal; lia). nia.
Qed.

(** The left half of a non-empty interval is a non-empty prefix of it. *)
Lemma splitInHalf_spec `{FloatConversion} ri : interval_ok ri → Start ri ≤ End ri →
  ∃ left right, intervalSplitInHalf ri = Ret (left, right) ∧
    Start left = Start ri ∧ Start ri ≤ End left ≤ End ri ∧ Start right = End left + 1 ∧ End right = End ri.
Proof.
  intros Hok Hne. pose proof (intervalSize_ok ri Hok) as Hsize. destruct Hok as (H1 & H2 & H3).
  unfold intervalSplitInHalf, intervalSplitFraction.
  change (Float64.lt Float64.half Float64.zero || Float64.lt Float64.one Float64.half) with false.
  rewrite (proj2 (Z.eqb_neq _ _)) by lia.
  destruct (half_bound (intervalSize ri)) as (a & -> & Ha); [lia|].
  unfold uint64_of_float. rewrite (proj2 (Z.ltb_lt _ _)) by lia.
  eexists _, _. split; [done|]. simpl.
  rewrite !(GoInt.uint64_id (Start ri + a)) by lia. rewrite GoInt.uint64_id by lia. lia.
Qed.

(** ** Properties *)
Module IntervalProps.
(** The exponentially biased split is a partition.  For an interval of the
    tree and sizes that fit into it, it returns one interval per size: they
    follow one another, the first starts where the interval starts and the last
    ends where it ends, and each has at least the size asked for, whatever the
    floating-point shares are.  Sizes that add up to more are refused. *)
Theorem exponentialBias_partition `{FloatConversionOk} (ri : ReachabilityInterval) (sizes : list Z) :
  interval_ok ri → sizes ≠ [] → Forall (λ x, 0 ≤ x) sizes → zsum sizes < 2 ^ 64 →
  (zsum sizes ≤ End ri - Start ri + 1 →
   ∃ parts ivs, intervalSplitWithExponentialBias ri sizes = Ret ivs ∧ Forall2 Z.le sizes parts ∧
                tiles (Start ri) parts ivs ∧ Start ri + zsum parts - 1 = End ri) ∧
  (End ri - Start ri + 1 < zsum sizes →
   intervalSplitWithExponentialBias ri sizes = Fail ErrSizesTooLarge).
Proof.
  intros Hok Hne Hpos Hlt. pose proof (intervalSize_ok ri Hok) as Hsize. split; intros Hsum.
  - destruct (exponentialBias_spec ri sizes) as (parts & ivs & ? & ? & ? & ?); [done..|lia|].
    exists parts, ivs. split; [done|]. split; [done|]. split; [done|lia].
  - unfold intervalSplitWithExponentialBias. rewrite sumSizes_exact by done.
    by rewrite Z.gtb_ltb, (proj2 (Z.ltb_lt _ _)) by lia.
Qed.

#[export] Instance toy_conversion : FloatConversion := λ _, 0.
#[export] Instance toy_conversion_ok : FloatConversionOk.
Proof. intros x. unfold uint64_unrepresentable, toy_conversion. lia. Qed.

Lemma exponentialBias_partition_witness :
  intervalSplitWithExponentialBias {| Start := 1; End := 100 |} [1; 2]
    = Ret [{| Start := 1; End := 33 |}; {| Start := 34; End := 100 |}] ∧
  ∃ parts ivs, intervalSplitWithExponentialBias {| Start := 1; End := 100 |} [1; 2] = Ret ivs ∧
    Forall2 Z.le [1; 2] parts ∧ tiles 1 parts ivs ∧ 1 + zsum parts - 1 = 100.
Proof.
  split; [reflexivity|].
  apply (proj1 (exponentialBias_partition {| Start := 1; End := 100 |} [1; 2] ltac:(unfold interval_ok; simpl; lia)
    ltac:(discriminate) ltac:(repeat constructor; lia) ltac:(simpl; lia))).
  simpl. lia.
Defined.

(** Splitting in half gives a non-empty first part, however the float
    arithmetic rounds: for every non-empty interval of the tree, the left part
    is not empty, starts where the interval starts and ends within it, and the
    right part is the rest. *)
Theorem splitInHalf_left `{FloatConversion} (ri : ReachabilityInterval) :
  interval_ok ri → Start ri ≤ End ri →
  ∃ left right, intervalSplitInHalf ri = Ret (left, right) ∧
    Start left = Start ri ∧ Start ri ≤ End left ≤ End ri ∧ Start right = End left + 1 ∧ End right = End ri.
Proof. apply splitInHalf_spec. Qed.

Lemma splitInHalf_left_witness :
  intervalSplitInHalf {| Start := 1; End := 2 ^ 64 - 2 |}
    = Ret ({| Start := 1; End := 2 ^ 63 |}, {| Start := 2 ^ 63 + 1; End := 2 ^ 64 - 2 |}) ∧
  ∃ left right, intervalSplitInHalf {| Start := 1; End := 2 ^ 64 - 2 |} = Ret (left, right) ∧
    Start left = 1 ∧ 1 ≤ End left ≤ 2 ^ 64 - 2 ∧ Start right = End left + 1 ∧ End right = 2 ^ 64 - 2.
Proof.
  split; [reflexivity|].
  apply (splitInHalf_left {| Start := 1; End := 2 ^ 64 - 2 |}); [unfold interval_ok; simpl; lia|simpl; lia].
Defined.
End IntervalProps.
