(* ===== verification/ReachabilityData.v ===== *)
(** * Reachability data and its store

    The record of a block in the reachability tree (utils/reachabilitydata), the
    GHOSTDAG data of a block (model/ghostdag.go) and the receiver of the
    reachability manager with its two stores.  A store is the map a reader sees
    through the staging area, the cache and the database; a missing key is
    [ErrNotFound].  A nil pointer is [None], and [deref] panics on it. *)
From S2P Require Import Prelude Interval.
Local Open Scope Z_scope.
Local Open Scope prog_scope.

Abbreviation hash := (list Z) (only parsing).

(** ** Data *)
Record reachabilityData := {
  rd_children : list hash;
  rd_parent : option hash;
  rd_interval : option ReachabilityInterval;
  rd_futureCoveringSet : list hash
}.

Definition EmptyReachabilityData : reachabilityData :=
  {| rd_children := []; rd_parent := None; rd_interval := None; rd_futureCoveringSet := [] |}.

(** [CloneMutable] copies the slices and dereferences the interval to copy it. *)
Definition rd_CloneMutable (rd : reachabilityData) : outcome reachabilityError reachabilityData :=
  match rd_interval rd with
  | Some _ => Ret rd
  | None => Crash NilDereference
  end.

Definition AddChild (rd : reachabilityData) (child : hash) : reachabilityData :=
  {| rd_children := rd_children rd ++ [child]; rd_parent := rd_parent rd;
     rd_interval := rd_interval rd; rd_futureCoveringSet := rd_futureCoveringSet rd |}.
Definition SetParent (rd : reachabilityData) (parent : hash) : reachabilityData :=
  {| rd_children := rd_children rd; rd_parent := Some parent;
     rd_interval := rd_interval rd; rd_futureCoveringSet := rd_futureCoveringSet rd |}.
Definition SetInterval (rd : reachabilityData) (interval : ReachabilityInterval) : reachabilityData :=
  {| rd_children := rd_children rd; rd_parent := rd_parent rd;
     rd_interval := Some interval; rd_futureCoveringSet := rd_futureCoveringSet rd |}.
Definition SetFutureCoveringSet (rd : reachabilityData) (set : list hash) : reachabilityData :=
  {| rd_children := rd_children rd; rd_parent := rd_parent rd;
     rd_interval := rd_interval rd; rd_futureCoveringSet := set |}.

Record BlockGHOSTDAGData := {
  blueScore : Z;
  blueWork : Z;
  selectedParent : option hash;
  mergeSetBlues : list hash;
  mergeSetReds : list hash;
  bluesAnticoneSizes : gmap hash Z
}.

(** ** The manager *)
Record reachabilityManager := {
  reachabilityDataStore : gmap hash reachabilityData;
  reachabilityReindexRoot : option hash;
  ghostdagDataStore : gmap hash BlockGHOSTDAGData;
  reindexSlack : Z;
  reindexWindow : Z
}.

Definition with_store (f : gmap hash reachabilityData → gmap hash reachabilityData)
    (rt : reachabilityManager) : reachabilityManager :=
  {| reachabilityDataStore := f (reachabilityDataStore rt);
     reachabilityReindexRoot := reachabilityReindexRoot rt;
     ghostdagDataStore := ghostdagDataStore rt;
     reindexSlack := reindexSlack rt; reindexWindow := reindexWindow rt |}.

Definition with_reindexRoot (root : hash) (rt : reachabilityManager) : reachabilityManager :=
  {| reachabilityDataStore := reachabilityDataStore rt;
     reachabilityReindexRoot := Some root;
     ghostdagDataStore := ghostdagDataStore rt;
     reindexSlack := reindexSlack rt; reindexWindow := reindexWindow rt |}.

Definition defaultReindexWindow : Z := 200.
Definition defaultReindexSlack : Z := 4096.

Module Store.
Abbreviation managed A := (prog reachabilityManager reachabilityError A) (only parsing).

Definition deref {A} (pointer : option A) : managed A :=
  match pointer with
  | Some x => ret x
  | None => crash_with NilDereference
  end.

(** A lookup in a store. *)
Definition found {A} (entry : option A) : managed A :=
  match entry with
  | Some x => ret x
  | None => fail ErrNotFound
  end.

Definition ReachabilityData (blockHash : hash) : managed reachabilityData :=
  let* rt := get in found (reachabilityDataStore rt !! blockHash).

Definition StageReachabilityData (blockHash : hash) (data : reachabilityData) : managed unit :=
  modify (with_store (<[blockHash := data]>)).

Definition ReachabilityReindexRoot : managed hash :=
  let* rt := get in found (reachabilityReindexRoot rt).

Definition StageReachabilityReindexRoot (root : hash) : managed unit :=
  modify (with_reindexRoot root).

Definition ghostdagData (blockHash : hash) : managed BlockGHOSTDAGData :=
  let* rt := get in found (ghostdagDataStore rt !! blockHash).

(** *** fetch.go *)

(** The [ErrNotFound] of the store becomes empty data; it has no other error. *)
Definition reachabilityDataForInsertion (blockHash : hash) : managed reachabilityData :=
  λ rt, match ReachabilityData blockHash rt with
        | (rt, Ret data) => (rt, rd_CloneMutable data)
        | (rt, Fail ErrNotFound) => (rt, Ret EmptyReachabilityData)
        | (rt, Fail e) => (rt, Fail e)
        | (rt, Crash c) => (rt, Crash c)
        end.

Definition futureCoveringSet (blockHash : hash) : managed (list hash) :=
  let* data := ReachabilityData blockHash in ret (rd_futureCoveringSet data).
Definition interval (blockHash : hash) : managed (option ReachabilityInterval) :=
  let* data := ReachabilityData blockHash in ret (rd_interval data).
Definition children (blockHash : hash) : managed (list hash) :=
  let* data := ReachabilityData blockHash in ret (rd_children data).
Definition parent (blockHash : hash) : managed (option hash) :=
  let* data := ReachabilityData blockHash in ret (rd_parent data).
Definition reindexRoot : managed hash := ReachabilityReindexRoot.

(** *** stage.go *)
Definition stageData (blockHash : hash) (data : reachabilityData) : managed unit :=
  StageReachabilityData blockHash data.

Definition stageFutureCoveringSet (blockHash : hash) (set : list hash) : managed unit :=
  let* data := reachabilityDataForInsertion blockHash in
  StageReachabilityData blockHash (SetFutureCoveringSet data set).

Definition stageReindexRoot (blockHash : hash) : managed unit :=
  StageReachabilityReindexRoot blockHash.

Definition stageAddChild (node child : hash) : managed unit :=
  let* nodeData := reachabilityDataForInsertion node in
  stageData node (AddChild nodeData child).

Definition stageParent (node parent : hash) : managed unit :=
  let* nodeData := reachabilityDataForInsertion node in
  stageData node (SetParent nodeData parent).

Definition stageInterval (node : hash) (interval : ReachabilityInterval) : managed unit :=
  let* nodeData := reachabilityDataForInsertion node in
  stageData node (SetInterval nodeData interval).
End Store.
