(* ===== verification/Reachability.v ===== *)
(** * Queries and future covering sets of the reachability tree

    The interval helpers, the queries and the tree helpers of tree.go,
    ordered_tree_node_set.go, future_covering_set.go and reachability.go. *)
From S2P Require Import Prelude Interval ReachabilityData.
Import Interval Store.
Local Open Scope Z_scope.
Local Open Scope prog_scope.

Module Reachability.
Abbreviation hash := (list Z) (only parsing).
Abbreviation managed A := (prog reachabilityManager reachabilityError A) (only parsing).
Abbreviation u64 := GoInt.uint64 (only parsing).

(** ** Interval helpers *)
Definition newReachabilityTreeData : reachabilityData :=
  SetInterval EmptyReachabilityData (newReachabilityInterval 1 (2 ^ 64 - 1 - 1)).

Definition intervalRangeForChildAllocation (node : hash) : managed ReachabilityInterval :=
  let* interval := interval node in
  let* i := deref interval in
  ret (newReachabilityInterval (Start i) (u64 (End i - 1))).

Definition remainingIntervalBefore (node : hash) : managed ReachabilityInterval :=
  let* childrenRange := intervalRangeForChildAllocation node in
  let* children := children node in
  match children with
  | [] => ret childrenRange
  | first :: _ =>
      let* firstChildInterval := interval first in
      let* i := deref firstChildInterval in
      ret (newReachabilityInterval (Start childrenRange) (u64 (Start i - 1)))
  end.

Definition remainingIntervalAfter (node : hash) : managed ReachabilityInterval :=
  let* childrenRange := intervalRangeForChildAllocation node in
  let* children := children node in
  match last children with
  | None => ret childrenRange
  | Some lastChild =>
      let* lastChildInterval := interval lastChild in
      let* i := deref lastChildInterval in
      ret (newReachabilityInterval (u64 (End i + 1)) (End childrenRange))
  end.

Definition remainingSlackBefore (node : hash) : managed Z :=
  let* i := remainingIntervalBefore node in ret (intervalSize i).
Definition remainingSlackAfter (node : hash) : managed Z :=
  let* i := remainingIntervalAfter node in ret (intervalSize i).
Definition hasSlackIntervalBefore (node : hash) : managed bool :=
  let* i := remainingIntervalBefore node in ret (intervalSize i >? 0).
Definition hasSlackIntervalAfter (node : hash) : managed bool :=
  let* i := remainingIntervalAfter node in ret (intervalSize i >? 0).

(** ** Queries *)
Definition IsReachabilityTreeAncestorOf (node other : hash) : managed bool :=
  let* nodeInterval := interval node in
  let* otherInterval := interval other in
  let* i := deref nodeInterval in
  let* j := deref otherInterval in
  ret (intervalContains i j).

(** [for low < high]: the binary search over [tns]. *)
Fixpoint searchLoop (fuel : nat) (tns : list hash) (end_ low high : Z) : managed Z :=
  match fuel with
  | O => crash_with OutOfFuel
  | S fuel =>
      if low <? high then
        let middle := (low + high) / 2 in
        let* node := lift_outcome (index tns middle) in
        let* middleInterval := interval node in
        let* i := deref middleInterval in
        if end_ <? Start i then searchLoop fuel tns end_ low middle
        else searchLoop fuel tns end_ (middle + 1) high
      else ret low
  end.

Definition findAncestorIndexOfNode (tns : list hash) (node : hash) : managed (Z * bool) :=
  let* blockInterval := interval node in
  let* i := deref blockInterval in
  let* low := searchLoop (S (length tns)) tns (End i) 0 (zlen tns) in
  if low =? 0 then ret (0, false) else ret (low - 1, true).

(** An error of the search is reported as "not found". *)
Definition findAncestorOfNode (tns : list hash) (node : hash) : managed (option hash) :=
  λ rt, match findAncestorIndexOfNode tns node rt with
        | (rt, Ret (ancestorIndex, true)) =>
            (let* ancestor := lift_outcome (index tns ancestorIndex) in ret (Some ancestor)) rt
        | (rt, Ret (_, false)) => (rt, Ret None)
        | (rt, Fail _) => (rt, Ret None)
        | (rt, Crash c) => (rt, Crash c)
        end.

Definition FindNextAncestor (descendant ancestor : hash) : managed hash :=
  let* childrenOfAncestor := children ancestor in
  let* nextAncestor := findAncestorOfNode childrenOfAncestor descendant in
  match nextAncestor with
  | None => fail ErrNotAncestor
  | Some nextAncestor => ret nextAncestor
  end.

(** ** Tree helpers *)
Definition isStrictAncestorOf (node other : hash) : managed bool :=
  if bool_decide (node = other) then ret false
  else IsReachabilityTreeAncestorOf node other.

(** The walk to the root visits each node of the store at most once. *)
Definition walkFuel (rt : reachabilityManager) : nat := S (size (reachabilityDataStore rt)).

Fixpoint commonAncestorLoop (fuel : nat) (current root : hash) : managed hash :=
  match fuel with
  | O => crash_with OutOfFuel
  | S fuel =>
      let* isAncestorOf := IsReachabilityTreeAncestorOf current root in
      if (isAncestorOf : bool) then ret current
      else
        let* next := parent current in
        let* current := deref next in
        commonAncestorLoop fuel current root
  end.

Definition findCommonAncestor (node root : hash) : managed hash :=
  let* rt := get in commonAncestorLoop (walkFuel rt) node root.

(** [for i, child := range children]: the slices on both sides of [pivot]. *)
Fixpoint splitAround (before children : list hash) (pivot : hash) : option (list hash * list hash) :=
  match children with
  | [] => None
  | child :: rest =>
      if bool_decide (child = pivot) then Some (before, rest)
      else splitAround (before ++ [child]) rest pivot
  end.

Definition splitChildren (node pivot : hash) : managed (list hash * list hash) :=
  let* children := children node in
  match splitAround [] children pivot with
  | Some parts => ret parts
  | None => fail ErrPivot
  end.

(** ** Future covering sets *)
Definition insertToFutureCoveringSet (node futureNode : hash) : managed unit :=
  let* data := reachabilityDataForInsertion node in
  let futureCoveringSet := rd_futureCoveringSet data in
  let stage newSet := stageData node (SetFutureCoveringSet data newSet) in
  let* found := findAncestorIndexOfNode futureCoveringSet futureNode in
  if negb (snd found) then stage (futureNode :: futureCoveringSet)
  else
    let ancestorIndex := fst found in
    let* candidate := lift_outcome (index futureCoveringSet ancestorIndex) in
    let* candidateIsAncestorOfFutureNode := IsReachabilityTreeAncestorOf candidate futureNode in
    if (candidateIsAncestorOfFutureNode : bool) then ret ()
    else
      let* futureNodeIsAncestorOfCandidate := IsReachabilityTreeAncestorOf futureNode candidate in
      if (futureNodeIsAncestorOfCandidate : bool)
      then stageFutureCoveringSet node (<[Z.to_nat ancestorIndex := futureNode]> futureCoveringSet)
      else
        let* left := lift_outcome (slice futureCoveringSet 0 (ancestorIndex + 1)) in
        let* right := lift_outcome (slice futureCoveringSet (ancestorIndex + 1) (zlen futureCoveringSet)) in
        stage (left ++ futureNode :: right).

Definition futureCoveringSetHasAncestorOf (this other : hash) : managed bool :=
  let* futureCoveringSet := futureCoveringSet this in
  let* found := findAncestorIndexOfNode futureCoveringSet other in
  if negb (snd found) then ret false
  else
    let* candidate := lift_outcome (index futureCoveringSet (fst found)) in
    IsReachabilityTreeAncestorOf candidate other.

Definition IsDAGAncestorOf (blockHashA blockHashB : hash) : managed bool :=
  let* isReachabilityTreeAncestor := IsReachabilityTreeAncestorOf blockHashA blockHashB in
  if (isReachabilityTreeAncestor : bool) then ret true
  else futureCoveringSetHasAncestorOf blockHashA blockHashB.
End Reachability.
