(* ===== verification/Reindex.v ===== *)
(** * Growing and reindexing the reachability tree

    reindex_context.go: subtree sizes, the propagation of an interval through a
    subtree, the two ways of finding space for a new child, and the concentration
    of intervals around the reindex root; then the operations of tree.go and
    reachabilitymanager.go that use them: [addChild], [updateReindexRoot] and
    [AddBlock].

    A loop over the tree has [walkFuel] rounds, one more than the store has
    nodes: a queue holds each node of a subtree once and a walk visits each node
    once. *)
From S2P Require Import Prelude Interval ReachabilityData Reachability.
Import Interval Store Reachability.
Local Open Scope Z_scope.
Local Open Scope prog_scope.

Record reindexContext := {
  rc_manager : reachabilityManager;
  subTreeSizesCache : gmap (list Z) Z
}.

Module Reindex.
Abbreviation hash := (list Z) (only parsing).
Abbreviation managed A := (prog reachabilityManager reachabilityError A) (only parsing).
Abbreviation reindexing A := (prog reindexContext reachabilityError A) (only parsing).
Abbreviation u64 := GoInt.uint64 (only parsing).

Section Reindex.
Context `{FloatConversion}.

Definition newReindexContext (rt : reachabilityManager) : reindexContext :=
  {| rc_manager := rt; subTreeSizesCache := ∅ |}.

(** [rc.manager.f(...)] *)
Definition manager {A} (m : managed A) : reindexing A :=
  zoom rc_manager (λ rt rc, {| rc_manager := rt; subTreeSizesCache := subTreeSizesCache rc |}) m.

(** [rc := newReindexContext(rt); rc.f(...)] in a method of [rt] *)
Definition in_context {A} (m : reindexing A) : managed A :=
  λ rt, let '(rc, o) := m (newReindexContext rt) in (rc_manager rc, o).

(** [rc.subTreeSizesCache[*node]]: zero when it is missing *)
Definition cachedSize (node : hash) (rc : reindexContext) : Z := default 0 (subTreeSizesCache rc !! node).

Definition cacheSize (node : hash) (size : Z) : reindexing unit :=
  modify (λ rc, {| rc_manager := rc_manager rc;
                   subTreeSizesCache := <[node := size]> (subTreeSizesCache rc) |}).

(** ** Subtree sizes and propagation *)

(** [for !current.Equal(node)]: push the size of [current] up. *)
Fixpoint pushUpLoop (fuel : nat) (node current : hash) (calculatedChildrenCount : gmap hash Z)
    : reindexing (gmap hash Z) :=
  match fuel with
  | O => crash_with OutOfFuel
  | S fuel =>
      if bool_decide (current = node) then ret calculatedChildrenCount
      else
        let* next := manager (parent current) in
        match next with
        | None => ret calculatedChildrenCount
        | Some current =>
            let count := u64 (default 0 (calculatedChildrenCount !! current) + 1) in
            let calculatedChildrenCount := <[current := count]> calculatedChildrenCount in
            let* children := manager (children current) in
            if negb (count =? u64 (zlen children)) then ret calculatedChildrenCount
            else
              let* rc := get in
              let childSubtreeSizeSum := fold_left (λ sum child, u64 (sum + cachedSize child rc)) children 0 in
              cacheSize current (u64 (childSubtreeSizeSum + 1)) ;;*
              pushUpLoop fuel node current calculatedChildrenCount
        end
  end.

(** [for len(queue) > 0] of [countSubtrees] *)
Fixpoint countLoop (fuel : nat) (node : hash) (queue : list hash) (calculatedChildrenCount : gmap hash Z)
    : reindexing unit :=
  match fuel with
  | O => crash_with OutOfFuel
  | S fuel =>
      match queue with
      | [] => ret ()
      | current :: queue =>
          let* children := manager (children current) in
          let* rc := get in
          let pushUp :=
            let* calculatedChildrenCount :=
              pushUpLoop (walkFuel (rc_manager rc)) node current calculatedChildrenCount in
            countLoop fuel node queue calculatedChildrenCount in
          match children with
          | [] => cacheSize current 1 ;;* pushUp
          | _ =>
              match subTreeSizesCache rc !! current with
              | None => countLoop fuel node (queue ++ children) calculatedChildrenCount
              | Some _ => pushUp
              end
          end
      end
  end.

Definition countSubtrees (node : hash) : reindexing unit :=
  let* rc := get in
  match subTreeSizesCache rc !! node with
  | Some _ => ret ()
  | None => countLoop (walkFuel (rc_manager rc)) node [node] ∅
  end.

(** [for i, child := range children { stageInterval(child, intervals[i]) ... }] *)
Fixpoint stageIntervals (children : list hash) (intervals : list ReachabilityInterval) : managed unit :=
  match children, intervals with
  | [], _ => ret ()
  | child :: children, childInterval :: intervals =>
      stageInterval child childInterval ;;* stageIntervals children intervals
  | _ :: _, [] => crash_with IndexOutOfRange
  end.

Fixpoint propagateLoop (fuel : nat) (queue : list hash) : reindexing unit :=
  match fuel with
  | O => crash_with OutOfFuel
  | S fuel =>
      match queue with
      | [] => ret ()
      | current :: queue =>
          let* children := manager (children current) in
          match children with
          | [] => propagateLoop fuel queue
          | _ =>
              let* rc := get in
              let sizes := map (λ child, cachedSize child rc) children in
              let* interval := manager (intervalRangeForChildAllocation current) in
              let* intervals := lift_outcome (intervalSplitWithExponentialBias interval sizes) in
              manager (stageIntervals children intervals) ;;*
              propagateLoop fuel (queue ++ children)
          end
      end
  end.

Definition propagateInterval (node : hash) : reindexing unit :=
  countSubtrees node ;;*
  let* rc := get in
  propagateLoop (walkFuel (rc_manager rc)) [node].

(** ** Reindexing for a new child *)

(** The loop of [offsetSiblingsBefore] and [offsetSiblingsAfter]: the siblings in
    the order of the loop, and what it does to [allocationNode] and to the
    others. *)
Fixpoint offsetLoop (allocate shift : ReachabilityInterval → Z → ReachabilityInterval)
    (allocationNode : hash) (offset : Z) (siblings : list hash) : reindexing unit :=
  match siblings with
  | [] => ret ()
  | sibling :: siblings =>
      let* previousInterval := manager (interval sibling) in
      let* i := manager (deref previousInterval) in
      if bool_decide (sibling = allocationNode) then
        manager (stageInterval allocationNode (allocate i offset)) ;;*
        propagateInterval allocationNode
      else
        manager (stageInterval sibling (shift i offset)) ;;*
        propagateInterval sibling ;;*
        offsetLoop allocate shift allocationNode offset siblings
  end.

Definition offsetSiblingsBefore (allocationNode current : hash) (offset : Z) : reindexing unit :=
  let* parent := manager (parent current) in
  let* parent := manager (deref parent) in
  let* siblings := manager (splitChildren parent current) in
  offsetLoop intervalIncreaseEnd intervalIncrease allocationNode offset (reverse (fst siblings)).

Definition offsetSiblingsAfter (allocationNode current : hash) (offset : Z) : reindexing unit :=
  let* parent := manager (parent current) in
  let* parent := manager (deref parent) in
  let* siblings := manager (splitChildren parent current) in
  offsetLoop intervalDecreaseStart intervalDecrease allocationNode offset (snd siblings).

(** The two sides of [reclaimIntervalBefore] and [reclaimIntervalAfter], which are
    otherwise the same code. *)
Record side := {
  remainingSlack : hash → prog reachabilityManager reachabilityError Z;
  shrink : ReachabilityInterval → Z → ReachabilityInterval;
  offsetSiblings : hash → hash → Z → prog reindexContext reachabilityError unit
}.

Definition before : side :=
  {| remainingSlack := remainingSlackBefore; shrink := intervalIncreaseStart;
     offsetSiblings := offsetSiblingsBefore |}.
Definition after : side :=
  {| remainingSlack := remainingSlackAfter; shrink := intervalDecreaseEnd;
     offsetSiblings := offsetSiblingsAfter |}.

(** The first loop, from [chosenChild] towards [reindexRoot]: the node where it
    stops and the slack to leave at each node on the way back. *)
Fixpoint reclaimUpLoop (sd : side) (fuel : nat) (allocationNode reindexRoot : hash) (requiredAllocation : Z)
    (current : hash) (slackSum pathLen : Z) : reindexing (hash * Z) :=
  match fuel with
  | O => crash_with OutOfFuel
  | S fuel =>
      let* rc := get in
      if bool_decide (current = reindexRoot) then
        let* previousInterval := manager (interval current) in
        let offset := u64 (requiredAllocation + reindexSlack (rc_manager rc) * pathLen - slackSum) in
        let* i := manager (deref previousInterval) in
        manager (stageInterval current (shrink sd i offset)) ;;*
        propagateInterval current ;;*
        offsetSiblings sd allocationNode current offset ;;*
        ret (current, reindexSlack (rc_manager rc))
      else
        let* slackOfCurrent := manager (remainingSlack sd current) in
        let slackSum := u64 (slackSum + slackOfCurrent) in
        if slackSum >=? requiredAllocation then
          let* previousInterval := manager (interval current) in
          let offset := u64 (slackOfCurrent - (slackSum - requiredAllocation)) in
          let* i := manager (deref previousInterval) in
          manager (stageInterval current (shrink sd i offset)) ;;*
          offsetSiblings sd allocationNode current offset ;;*
          ret (current, 0)
        else
          let* current := manager (FindNextAncestor reindexRoot current) in
          reclaimUpLoop sd fuel allocationNode reindexRoot requiredAllocation current slackSum (u64 (pathLen + 1))
  end.

(** The second loop, back to [commonAncestor] *)
Fixpoint reclaimDownLoop (sd : side) (fuel : nat) (allocationNode commonAncestor : hash) (pathSlackAlloc : Z)
    (current : hash) : reindexing unit :=
  match fuel with
  | O => crash_with OutOfFuel
  | S fuel =>
      let* next := manager (parent current) in
      let* current := manager (deref next) in
      if bool_decide (current = commonAncestor) then ret ()
      else
        let* originalInterval := manager (interval current) in
        let* slackOfCurrent := manager (remainingSlack sd current) in
        let offset := u64 (slackOfCurrent - pathSlackAlloc) in
        let* i := manager (deref originalInterval) in
        manager (stageInterval current (shrink sd i offset)) ;;*
        offsetSiblings sd allocationNode current offset ;;*
        reclaimDownLoop sd fuel allocationNode commonAncestor pathSlackAlloc current
  end.

Definition reclaimInterval (sd : side) (allocationNode commonAncestor chosenChild reindexRoot : hash)
    (requiredAllocation : Z) : reindexing unit :=
  let* rc := get in
  let fuel := walkFuel (rc_manager rc) in
  let* reached := reclaimUpLoop sd fuel allocationNode reindexRoot requiredAllocation chosenChild 0 0 in
  reclaimDownLoop sd fuel allocationNode commonAncestor (snd reached) (fst reached).

Definition reclaimIntervalBefore := reclaimInterval before.
Definition reclaimIntervalAfter := reclaimInterval after.

Definition reindexIntervalsEarlierThanRoot (allocationNode reindexRoot commonAncestor : hash)
    (requiredAllocation : Z) : reindexing unit :=
  let* chosenChild := manager (FindNextAncestor reindexRoot commonAncestor) in
  let* nodeInterval := manager (interval allocationNode) in
  let* chosenInterval := manager (interval chosenChild) in
  let* i := manager (deref nodeInterval) in
  let* j := manager (deref chosenInterval) in
  if Start i <? Start j
  then reclaimIntervalBefore allocationNode commonAncestor chosenChild reindexRoot requiredAllocation
  else reclaimIntervalAfter allocationNode commonAncestor chosenChild reindexRoot requiredAllocation.

Fixpoint reindexLoop (fuel : nat) (current reindexRoot : hash) : reindexing unit :=
  match fuel with
  | O => crash_with OutOfFuel
  | S fuel =>
      let* currentInterval := manager (interval current) in
      let* i := manager (deref currentInterval) in
      let currentIntervalSize := intervalSize i in
      countSubtrees current ;;*
      let* rc := get in
      let currentSubtreeSize := cachedSize current rc in
      if currentIntervalSize >=? currentSubtreeSize then propagateInterval current
      else
        let* next := manager (parent current) in
        match next with
        | None => fail ErrMissingParent
        | Some parent =>
            if bool_decide (current = reindexRoot) then fail ErrRootCapacity
            else
              let* isParentStrictAncestorOfRoot := manager (isStrictAncestorOf parent reindexRoot) in
              if (isParentStrictAncestorOfRoot : bool)
              then reindexIntervalsEarlierThanRoot current reindexRoot parent currentSubtreeSize
              else reindexLoop fuel parent reindexRoot
        end
  end.

Definition reindexIntervals (newChild reindexRoot : hash) : reindexing unit :=
  let* rc := get in reindexLoop (walkFuel (rc_manager rc)) newChild reindexRoot.

(** ** Moving the reindex root *)

Fixpoint countChildrenLoop (children : list hash) (sum : Z) : reindexing (list Z * Z) :=
  match children with
  | [] => ret ([], sum)
  | node :: children =>
      countSubtrees node ;;*
      let* rc := get in
      let subtreeSize := cachedSize node rc in
      let* rest := countChildrenLoop children (u64 (sum + subtreeSize)) in
      ret (subtreeSize :: fst rest, snd rest)
  end.

(** An error of [countSubtrees] is swallowed: [return nil, 0]. *)
Definition countChildrenSubtrees (children : list hash) : reindexing (list Z * Z) :=
  λ rc, match countChildrenLoop children 0 rc with
        | (rc, Ret r) => (rc, Ret r)
        | (rc, Fail _) => (rc, Ret ([], 0))
        | (rc, Crash c) => (rc, Crash c)
        end.

Fixpoint propagateChildrenLoop (children : list hash) (childIntervals : list ReachabilityInterval)
    : reindexing unit :=
  match children, childIntervals with
  | [], _ => ret ()
  | child :: children, childInterval :: childIntervals =>
      manager (stageInterval child childInterval) ;;*
      propagateInterval child ;;*
      propagateChildrenLoop children childIntervals
  | _ :: _, [] => crash_with IndexOutOfRange
  end.

Definition propagateChildrenIntervals (interval : ReachabilityInterval) (children : list hash) (sizes : list Z)
    : reindexing unit :=
  let* childIntervals := lift_outcome (intervalSplitExact interval sizes) in
  propagateChildrenLoop children childIntervals.

Definition tightenIntervalsBefore (reindexRoot : hash) (siblingsBeforeChosen : list hash) : reindexing Z :=
  let* sizes := countChildrenSubtrees siblingsBeforeChosen in
  let sizesSum := snd sizes in
  let* rootInterval := manager (interval reindexRoot) in
  let* i := manager (deref rootInterval) in
  let* rc := get in
  let slack := reindexSlack (rc_manager rc) in
  let intervalBeforeChosen :=
    newReachabilityInterval (u64 (Start i + slack)) (u64 (Start i + slack + sizesSum - 1)) in
  propagateChildrenIntervals intervalBeforeChosen siblingsBeforeChosen (fst sizes) ;;*
  ret sizesSum.

Definition tightenIntervalsAfter (reindexRoot : hash) (siblingsAfterChosen : list hash) : reindexing Z :=
  let* sizes := countChildrenSubtrees siblingsAfterChosen in
  let sizesSum := snd sizes in
  let* rootInterval := manager (interval reindexRoot) in
  let* i := manager (deref rootInterval) in
  let* rc := get in
  let slack := reindexSlack (rc_manager rc) in
  let intervalAfterChosen :=
    newReachabilityInterval (u64 (End i - slack - sizesSum)) (u64 (End i - slack - 1)) in
  propagateChildrenIntervals intervalAfterChosen siblingsAfterChosen (fst sizes) ;;*
  ret sizesSum.

Definition expandIntervalToChosen (reindexRoot chosenChild : hash) (sizesSumBefore sizesSumAfter : Z)
    (isFinalReindexRoot : bool) : reindexing unit :=
  let* rootInterval := manager (interval reindexRoot) in
  let* i := manager (deref rootInterval) in
  let* rc := get in
  let slack := reindexSlack (rc_manager rc) in
  let newChosenInterval :=
    newReachabilityInterval (u64 (Start i + sizesSumBefore + slack)) (u64 (End i - sizesSumAfter - slack - 1)) in
  let* currentChosenInterval := manager (interval chosenChild) in
  (if isFinalReindexRoot then
     let* j := manager (deref currentChosenInterval) in
     if negb (intervalContains newChosenInterval j) then
       manager (stageInterval chosenChild
         (newReachabilityInterval (u64 (Start newChosenInterval + slack)) (u64 (End newChosenInterval - slack)))) ;;*
       propagateInterval chosenChild
     else ret ()
   else ret ()) ;;*
  manager (stageInterval chosenChild newChosenInterval).

Definition concentrateInterval (reindexRoot chosenChild : hash) (isFinalReindexRoot : bool) : reindexing unit :=
  let* siblings := manager (splitChildren reindexRoot chosenChild) in
  let* siblingsBeforeSizesSum := tightenIntervalsBefore reindexRoot (fst siblings) in
  let* siblingsAfterSizesSum := tightenIntervalsAfter reindexRoot (snd siblings) in
  expandIntervalToChosen reindexRoot chosenChild siblingsBeforeSizesSum siblingsAfterSizesSum isFinalReindexRoot.

(** ** The manager's operations that change the tree *)
Definition addChild (node child reindexRoot : hash) : managed unit :=
  let* remaining := remainingIntervalAfter node in
  stageAddChild node child ;;*
  stageParent child node ;;*
  if intervalSize remaining =? 0 then
    stageInterval child remaining ;;*
    in_context (reindexIntervals child reindexRoot)
  else
    let* parts := lift_outcome (intervalSplitInHalf remaining) in
    stageInterval child (fst parts).

(** The loop of [findNextReindexRoot] *)
Fixpoint nextRootLoop (fuel : nat) (selectedTip : hash) (tipBlueScore : Z) (newReindexRoot : hash) : managed hash :=
  match fuel with
  | O => crash_with OutOfFuel
  | S fuel =>
      let* chosenChild := FindNextAncestor selectedTip newReindexRoot in
      let* chosenChildGHOSTDAGData := ghostdagData chosenChild in
      let* rt := get in
      if tipBlueScore <? blueScore chosenChildGHOSTDAGData then fail ErrChosenChildBlueScore
      else if u64 (tipBlueScore - blueScore chosenChildGHOSTDAGData) <? reindexWindow rt
      then ret newReindexRoot
      else nextRootLoop fuel selectedTip tipBlueScore chosenChild
  end.

Definition findNextReindexRoot (currentReindexRoot selectedTip : hash) : managed (hash * hash) :=
  let* selectedTipGHOSTDAGData := ghostdagData selectedTip in
  let* isCurrentAncestorOfTip := IsReachabilityTreeAncestorOf currentReindexRoot selectedTip in
  let* rt := get in
  let walk ancestor :=
    let* newReindexRoot := nextRootLoop (walkFuel rt) selectedTip (blueScore selectedTipGHOSTDAGData) ancestor in
    ret (ancestor, newReindexRoot) in
  if (isCurrentAncestorOfTip : bool) then walk currentReindexRoot
  else
    let* currentRootGHOSTDAGData := ghostdagData currentReindexRoot in
    if (blueScore selectedTipGHOSTDAGData <? blueScore currentRootGHOSTDAGData)
       || (u64 (blueScore selectedTipGHOSTDAGData - blueScore currentRootGHOSTDAGData) <? reindexSlack rt)
    then ret (currentReindexRoot, currentReindexRoot)
    else
      let* commonAncestor := findCommonAncestor selectedTip currentReindexRoot in
      walk commonAncestor.

(** The loop of [updateReindexRoot] from the ancestor to the new root *)
Fixpoint concentrateLoop (fuel : nat) (selectedTip newReindexRoot reindexRootAncestor : hash) : reindexing unit :=
  match fuel with
  | O => crash_with OutOfFuel
  | S fuel =>
      let* chosenChild := manager (FindNextAncestor selectedTip reindexRootAncestor) in
      let isFinalReindexRoot := bool_decide (chosenChild = newReindexRoot) in
      concentrateInterval reindexRootAncestor chosenChild isFinalReindexRoot ;;*
      if isFinalReindexRoot then ret ()
      else concentrateLoop fuel selectedTip newReindexRoot chosenChild
  end.

Definition updateReindexRoot (selectedTip : hash) : managed unit :=
  let* currentReindexRoot := reindexRoot in
  let* next := findNextReindexRoot currentReindexRoot selectedTip in
  let reindexRootAncestor := fst next in
  let newReindexRoot := snd next in
  if bool_decide (currentReindexRoot = newReindexRoot) then ret ()
  else
    let* rt := get in
    (if bool_decide (newReindexRoot = reindexRootAncestor) then ret ()
     else in_context (concentrateLoop (walkFuel rt) selectedTip newReindexRoot reindexRootAncestor)) ;;*
    stageReindexRoot newReindexRoot.

Definition UpdateReindexRoot (selectedTip : hash) : managed unit := updateReindexRoot selectedTip.

(** [for _, current := range mergeSet] *)
Fixpoint insertToAll (mergeSet : list hash) (blockHash : hash) : managed unit :=
  match mergeSet with
  | [] => ret ()
  | current :: mergeSet => insertToFutureCoveringSet current blockHash ;;* insertToAll mergeSet blockHash
  end.

Definition AddBlock (blockHash : hash) : managed unit :=
  stageData blockHash newReachabilityTreeData ;;*
  let* data := ghostdagData blockHash in
  match selectedParent data with
  | None => stageReindexRoot blockHash
  | Some selectedParent =>
      let* root := reindexRoot in
      addChild selectedParent blockHash root ;;*
      insertToAll (mergeSetBlues data ++ mergeSetReds data) blockHash
  end.
End Reindex.
End Reindex.
