(* ===== verification/ReachabilityTree.v ===== *)
(** * Correctness of the reachability tree

    The tree the store holds ([parent_of], [children_of]), the indexing invariant
    [tree_ok] that the comment of model/reachabilitydata.go promises, and what the
    queries of Reachability.v answer under it. *)
From stdpp Require Import sorting.
From S2P Require Import Prelude Interval ReachabilityData Reachability.
Import Interval Store Reachability.
Local Open Scope Z_scope.
Local Open Scope prog_scope.

Abbreviation hash := (list Z) (only parsing).

Section Shape.
Context (d : gmap (list Z) reachabilityData).

Definition parent_of (x : hash) : option hash := d !! x ≫= rd_parent.
Definition children_of (x : hash) : list hash := from_option rd_children [] (d !! x).
Definition fcs_of (x : hash) : list hash := from_option rd_futureCoveringSet [] (d !! x).
Definition iv (x : hash) : ReachabilityInterval :=
  default {| Start := 0; End := 0 |} (d !! x ≫= rd_interval).

(** [tree_anc a b]: the chain of parents of [b] reaches [a]. *)
Definition tree_anc (a b : hash) : Prop := rtc (λ x y, parent_of x = Some y) b a.

(** The interval of [x] lies before that of [y]. *)
Definition left_of (x y : hash) : Prop := End (iv x) < Start (iv y).

Record tree_ok (root : hash) : Prop := {
  tree_interval x rd : d !! x = Some rd → is_Some (rd_interval rd);
  tree_range x : x ∈ dom d → 0 < Start (iv x) ∧ Start (iv x) ≤ End (iv x) ∧ End (iv x) < 2 ^ 64 - 1;
  tree_root : root ∈ dom d;
  tree_rootless x : x ∈ dom d → parent_of x = None → x = root;
  tree_parent x p : parent_of x = Some p → p ∈ dom d ∧ x ∈ children_of p;
  tree_child p x : x ∈ children_of p → x ∈ dom d ∧ parent_of x = Some p;
  tree_sorted p : StronglySorted left_of (children_of p);
  tree_inside x p : parent_of x = Some p → Start (iv p) ≤ Start (iv x) ∧ End (iv x) < End (iv p)
}.
End Shape.

Lemma tree_anc_trans d a b c : tree_anc d a b → tree_anc d b c → tree_anc d a c.
Proof. unfold tree_anc. intros Ha Hb. by etrans. Qed.

(** ** Nested and disjoint intervals *)
Section Laminar.
Context (d : gmap (list Z) reachabilityData) (root : list Z) (Hok : tree_ok d root).

Lemma parent_dom x p : parent_of d x = Some p → x ∈ dom d.
Proof using Type. unfold parent_of. destruct (d !! x) eqn:E; [|done]. intros _. by apply elem_of_dom. Qed.

Lemma tree_anc_inside a b : tree_anc d a b → Start (iv d a) ≤ Start (iv d b) ∧ End (iv d b) ≤ End (iv d a).
Proof using All.
  induction 1 as [|x p a Hp _ IH]; [lia|]. pose proof (tree_inside d root Hok x p Hp). lia.
Qed.

Lemma tree_anc_strict a b : tree_anc d a b → a ≠ b → End (iv d b) < End (iv d a).
Proof using All.
  inversion 1 as [|x p ? Hp Ha]; subst; [done|]. intros _.
  pose proof (tree_inside d root Hok _ _ Hp). pose proof (tree_anc_inside _ _ Ha). lia.
Qed.

Lemma tree_anc_antisym a b : tree_anc d a b → tree_anc d b a → a = b.
Proof using All.
  intros H1 H2. destruct (decide (a = b)) as [|Hne]; [done|].
  pose proof (tree_anc_strict _ _ H1 Hne). pose proof (tree_anc_strict _ _ H2 (not_eq_sym Hne)). lia.
Qed.

Lemma tree_anc_dom a b : tree_anc d a b → b ∈ dom d → a ∈ dom d.
Proof using All.
  induction 1 as [|x p a Hp _ IH]; [done|]. intros _. apply IH. apply (tree_parent d root Hok _ _ Hp).
Qed.

(** Every node descends from the root. *)
Lemma root_anc x : x ∈ dom d → tree_anc d root x.
Proof using All.
  intros Hx. remember (Z.to_nat (2 ^ 64 - End (iv d x))) as n eqn:Hn. revert x Hx Hn.
  induction n as [n IH] using lt_wf_ind. intros x Hx ->.
  destruct (parent_of d x) as [p|] eqn:Hp.
  - destruct (tree_parent d root Hok _ _ Hp) as [Hpd _]. apply (rtc_l _ _ p); [done|].
    eapply IH; [|done|reflexivity].
    pose proof (tree_inside d root Hok _ _ Hp). pose proof (tree_range d root Hok p Hpd). lia.
  - rewrite (tree_rootless d root Hok x Hx Hp). apply rtc_refl.
Qed.

(** A proper descendant is reached through a child. *)
Lemma tree_anc_child a b : tree_anc d a b → a ≠ b → ∃ c, parent_of d c = Some a ∧ tree_anc d c b.
Proof using Type.
  intros H Hne. apply rtc_inv_r in H as [->|(c & Hc & Hca)]; [done|]. by exists c.
Qed.

Lemma siblings_disjoint p x y : parent_of d x = Some p → parent_of d y = Some p → x ≠ y →
  left_of d x y ∨ left_of d y x.
Proof using All.
  intros Hx Hy Hne. apply (tree_parent d root Hok) in Hx as [_ Hx], Hy as [_ Hy].
  pose proof (tree_sorted d root Hok p) as Hs. revert Hx Hy Hs. generalize (children_of d p) as l.
  induction l as [|z l IH]; [intros []%elem_of_nil|]. intros Hx Hy Hs.
  apply StronglySorted_cons in Hs as [Hz Hs]. rewrite Forall_forall in Hz.
  apply elem_of_cons in Hx as [->|Hx], Hy as [->|Hy]; [done|by left; apply Hz|by right; apply Hz|by apply IH].
Qed.

(** Two nodes are on one chain, or their intervals are disjoint. *)
Lemma laminar a b : a ∈ dom d → b ∈ dom d →
  tree_anc d a b ∨ tree_anc d b a ∨ left_of d a b ∨ left_of d b a.
Proof using All.
  intros Ha Hb. pose proof (root_anc a Ha) as Hra.
  assert (∀ r, tree_anc d r a → tree_anc d r b →
    tree_anc d a b ∨ tree_anc d b a ∨ left_of d a b ∨ left_of d b a) as Hgen; [|by eauto using root_anc].
  clear Hra. intros r Hr. revert Ha. induction Hr as [|x p r Hp Hr IH]; intros Ha Hrb; [by left|].
  destruct (tree_parent d root Hok _ _ Hp) as [Hpd _].
  destruct (IH Hpd Hrb) as [Hpb|[Hbp|[Hl|Hl]]].
  - destruct (decide (p = b)) as [->|Hne]; [right; left; by apply rtc_once|].
    destruct (tree_anc_child _ _ Hpb Hne) as (c & Hc & Hcb).
    destruct (decide (c = x)) as [->|Hcx]; [by left|]. pose proof (tree_anc_inside _ _ Hcb).
    destruct (siblings_disjoint p x c Hp Hc (not_eq_sym Hcx)); unfold left_of in *; right; right; lia.
  - right. left. by apply (rtc_l _ _ p).
  - pose proof (tree_inside d root Hok _ _ Hp). unfold left_of in *. right; right; lia.
  - pose proof (tree_inside d root Hok _ _ Hp). unfold left_of in *. right; right; lia.
Qed.

Lemma contains_anc a b : a ∈ dom d → b ∈ dom d →
  intervalContains (iv d a) (iv d b) = true ↔ tree_anc d a b.
Proof using All.
  intros Ha Hb. unfold intervalContains. rewrite andb_true_iff, !Z.leb_le.
  split; [|apply tree_anc_inside]. intros Hc.
  pose proof (tree_range d root Hok a Ha). pose proof (tree_range d root Hok b Hb).
  destruct (laminar a b Ha Hb) as [Hl|[Hl|[Hl|Hl]]]; [done| |unfold left_of in Hl; lia..].
  destruct (decide (b = a)) as [->|Hne]; [apply rtc_refl|].
  pose proof (tree_anc_strict _ _ Hl Hne). lia.
Qed.

Lemma anc_decision a b : a ∈ dom d → b ∈ dom d → tree_anc d a b ∨ ¬ tree_anc d a b.
Proof using All.
  intros Ha Hb. rewrite <- contains_anc by done. destruct (intervalContains _ _); auto.
Qed.
End Laminar.

(** ** Running the queries *)
Section Run.
Context (rt : reachabilityManager) (root : list Z).
Abbreviation d := (reachabilityDataStore rt) (only parsing).
Context (Hok : tree_ok d root).

Lemma lookup_data x : x ∈ dom d → ∃ rd, d !! x = Some rd ∧ rd_interval rd = Some (iv d x).
Proof using All.
  intros [rd Hrd]%elem_of_dom. destruct (tree_interval d root Hok x rd Hrd) as [i Hi].
  exists rd. split; [done|]. unfold iv. by rewrite Hrd; simpl; rewrite Hi.
Qed.

Lemma interval_run x : x ∈ dom d → interval x rt = (rt, Ret (Some (iv d x))).
Proof using All.
  intros Hx. destruct (lookup_data x Hx) as (rd & Hrd & Hi).
  unfold interval, ReachabilityData, bind, get. rewrite Hrd. simpl. by rewrite Hi.
Qed.

Lemma children_run x : x ∈ dom d → children x rt = (rt, Ret (children_of d x)).
Proof using Type.
  intros [rd Hrd]%elem_of_dom. unfold children, children_of, ReachabilityData, bind, get. by rewrite Hrd.
Qed.

Lemma parent_run x : x ∈ dom d → parent x rt = (rt, Ret (parent_of d x)).
Proof using Type.
  intros [rd Hrd]%elem_of_dom. unfold parent, parent_of, ReachabilityData, bind, get. by rewrite Hrd.
Qed.

Lemma fcs_run x : x ∈ dom d → futureCoveringSet x rt = (rt, Ret (fcs_of d x)).
Proof using Type.
  intros [rd Hrd]%elem_of_dom. unfold futureCoveringSet, fcs_of, ReachabilityData, bind, get. by rewrite Hrd.
Qed.

Lemma deref_run {A} (x : A) (s : reachabilityManager) : deref (Some x) s = (s, Ret x).
Proof using Type. done. Qed.

Lemma treeAncestor_run a b : a ∈ dom d → b ∈ dom d →
  IsReachabilityTreeAncestorOf a b rt = (rt, Ret (intervalContains (iv d a) (iv d b))).
Proof using All.
  intros Ha Hb. unfold IsReachabilityTreeAncestorOf.
  by rewrite (bind_ret_l _ _ _ _ _ (interval_run a Ha)), (bind_ret_l _ _ _ _ _ (interval_run b Hb)).
Qed.

(** The binary search: the first [k] nodes start at or before [e], the others
    after it. *)
Lemma searchLoop_run l e : (∀ x, x ∈ l → x ∈ dom d) → StronglySorted (left_of d) l →
  ∀ fuel l1 m l2, l = l1 ++ m ++ l2 → (length m < fuel)%nat →
    Forall (λ x, Start (iv d x) ≤ e) l1 → Forall (λ x, e < Start (iv d x)) l2 →
    ∃ k1 k2, searchLoop fuel l e (zlen l1) (zlen l1 + zlen m) rt = (rt, Ret (zlen k1)) ∧ l = k1 ++ k2 ∧
             Forall (λ x, Start (iv d x) ≤ e) k1 ∧ Forall (λ x, e < Start (iv d x)) k2.
Proof using All.
  intros Hdom Hs. induction fuel as [|fuel IH]; intros l1 m l2 -> Hf Hl1 Hl2; [lia|]. cbn [searchLoop].
  destruct m as [|y m']; [|set (m := y :: m') in *].
  { change (zlen (@nil (list Z))) with 0. rewrite Z.add_0_r, Z.ltb_irrefl. exists l1, l2. done. }
  rewrite (proj2 (Z.ltb_lt _ _)) by (unfold m; zlia).
  set (j := (length m / 2)%nat).
  assert (j < length m)%nat as Hj by (apply Nat.div_lt; simpl; lia).
  destruct (lookup_lt_is_Some_2 m j Hj) as [x Hx].
  pose proof (take_drop_middle m j x Hx) as Hm. set (ma := take j m) in *. set (mb := drop (S j) m) in *.
  assert (length ma = j) as Hma by (unfold ma; rewrite length_take; lia).
  assert (length mb = length m - S j)%nat as Hmb by (unfold mb; rewrite length_drop; lia).
  assert ((zlen l1 + (zlen l1 + zlen m)) / 2 = zlen (l1 ++ ma)) as ->.
  { unfold zlen. rewrite length_app, Hma. unfold j. rewrite Nat2Z.inj_add, Nat2Z.inj_div.
    replace (Z.of_nat (length l1) + (Z.of_nat (length l1) + Z.of_nat (length m)))
      with (Z.of_nat (length m) + Z.of_nat (length l1) * 2) by lia.
    rewrite Z.div_add by lia. simpl (Z.of_nat 2). lia. }
  rewrite <- Hm in *. clearbody ma mb. clear Hm Hx.
  replace (l1 ++ (ma ++ x :: mb) ++ l2) with ((l1 ++ ma) ++ x :: (mb ++ l2)) in * by (rewrite <- !app_assoc; done).
  erewrite bind_ret_l by (unfold lift_outcome; rewrite index_middle; done).
  assert (x ∈ dom d) as Hxd by (apply Hdom; set_solver).
  rewrite (bind_ret_l _ _ _ _ _ (interval_run x Hxd)), (bind_ret_l _ _ _ _ _ (deref_run _ _)).
  destruct (Z.ltb_spec e (Start (iv d x))) as [Hlt|Hge].
  - replace (zlen (l1 ++ ma)) with (zlen l1 + zlen ma) by zlia.
    apply (IH l1 ma (x :: mb ++ l2)); [by rewrite <- app_assoc|lia|done|]. constructor; [done|].
    apply StronglySorted_app_1_r, StronglySorted_cons in Hs as [Hx _].
    eapply Forall_impl; [exact Hx|]. intros z Hz. unfold left_of in Hz.
    pose proof (tree_range d root Hok x Hxd). simpl in Hz. lia.
  - replace (zlen (l1 ++ ma) + 1) with (zlen (l1 ++ ma ++ [x])) by zlia.
    replace (zlen l1 + zlen (ma ++ x :: mb)) with (zlen (l1 ++ ma ++ [x]) + zlen mb) by zlia.
    apply (IH _ mb l2); [by rewrite <- !app_assoc|rewrite length_app in Hf; simpl in Hf; lia| |done].
    rewrite Forall_forall in *. intros z Hz. apply elem_of_app in Hz as [Hz|Hz]; [by apply Hl1|].
    apply elem_of_app in Hz as [Hz|Hz%list_elem_of_singleton]; [|by subst].
    assert (left_of d z x) as Hzx by (apply (StronglySorted_app_1_elem_of _ _ _ _ _ Hs); set_solver).
    pose proof (tree_range d root Hok z ltac:(apply Hdom; set_solver)). unfold left_of in Hzx. lia.
Qed.

Lemma findAncestorIndexOfNode_run l x : (∀ y, y ∈ l → y ∈ dom d) → StronglySorted (left_of d) l → x ∈ dom d →
  ∃ k1 k2, l = k1 ++ k2 ∧ Forall (λ y, Start (iv d y) ≤ End (iv d x)) k1 ∧
    Forall (λ y, End (iv d x) < Start (iv d y)) k2 ∧
    findAncestorIndexOfNode l x rt
      = (rt, Ret (if zlen k1 =? 0 then (0, false) else (zlen k1 - 1, true))).
Proof using All.
  intros Hdom Hs Hx. unfold findAncestorIndexOfNode.
  rewrite (bind_ret_l _ _ _ _ _ (interval_run x Hx)), (bind_ret_l _ _ _ _ _ (deref_run _ _)).
  destruct (searchLoop_run l (End (iv d x)) Hdom Hs (S (length l)) [] l []) as (k1 & k2 & Hr & Hl & H1 & H2);
    [by rewrite app_nil_r|lia|done|done|].
  exists k1, k2. split; [done|]. split; [done|]. split; [done|].
  change (zlen (@nil (list Z)) + zlen l) with (zlen l) in Hr.
  rewrite (bind_ret_l _ _ _ _ _ Hr). by destruct (_ =? _).
Qed.
End Run.

(** ** What the queries answer *)
Section Answers.
Context (rt : reachabilityManager) (root : list Z).
Abbreviation d := (reachabilityDataStore rt) (only parsing).
Context (Hok : tree_ok d root).

(** [tns] as the code keeps it: nodes of the tree in the order of their intervals. *)
Definition ordered (tns : list hash) : Prop :=
  (∀ x, x ∈ tns → x ∈ dom d) ∧ StronglySorted (left_of d) tns.

(** The node of an ordered set that is an ancestor of [x] is the last one that
    starts at or before the end of [x]. *)
Lemma covering_last k1 k2 x c : ordered (k1 ++ k2) → x ∈ dom d →
  Forall (λ y, Start (iv d y) ≤ End (iv d x)) k1 → Forall (λ y, End (iv d x) < Start (iv d y)) k2 →
  c ∈ k1 ++ k2 → tree_anc d c x → ∃ k, k1 = k ++ [c].
Proof using All.
  intros [Hdom Hs] Hx H1 H2 Hc Ha. pose proof (tree_anc_inside d root Hok _ _ Ha).
  pose proof (tree_range d root Hok x Hx). rewrite Forall_forall in H1, H2.
  apply elem_of_app in Hc as [Hc|Hc]; [|specialize (H2 c Hc); simpl in H2; lia].
  apply list_elem_of_split in Hc as (k & r & ->). destruct r as [|y r]; [by exists k|].
  apply StronglySorted_app_1_l, StronglySorted_app_1_r, StronglySorted_cons in Hs as [Hl _].
  rewrite Forall_forall in Hl. specialize (Hl y ltac:(set_solver)). unfold left_of in Hl.
  specialize (H1 y ltac:(set_solver)). simpl in H1. lia.
Qed.

Lemma index_candidate {E} (k : list hash) c k2 : @index E _ ((k ++ [c]) ++ k2) (zlen (k ++ [c]) - 1) = Ret c.
Proof using Type. rewrite <- app_assoc. apply index_middle. rewrite zlen_app. change (zlen [c]) with 1. lia. Qed.

Lemma zlen_snoc_nonzero (k : list hash) c : (zlen (k ++ [c]) =? 0) = false.
Proof using Type.
  apply Z.eqb_neq. rewrite zlen_app. change (zlen [c]) with 1. pose proof (zlen_nonneg k). lia.
Qed.

Lemma futureCoveringSet_run A x : A ∈ dom d → x ∈ dom d → ordered (fcs_of d A) →
  ∃ b : bool, futureCoveringSetHasAncestorOf A x rt = (rt, Ret b) ∧
              (b = true ↔ ∃ c, c ∈ fcs_of d A ∧ tree_anc d c x).
Proof using All.
  intros HA Hx Hord. unfold futureCoveringSetHasAncestorOf.
  rewrite (bind_ret_l _ _ _ _ _ (fcs_run rt A HA)). pose proof Hord as [Hdom Hs].
  destruct (findAncestorIndexOfNode_run rt root Hok _ x Hdom Hs Hx) as (k1 & k2 & Hl & H1 & H2 & Hr).
  rewrite (bind_ret_l _ _ _ _ _ Hr). rewrite Hl in *.
  destruct k1 as [|c k1 _] using rev_ind.
  - exists false. split; [done|]. split; [done|]. intros (c & Hc & Ha).
    destruct (covering_last [] k2 x c Hord Hx H1 H2 Hc Ha) as ([] & ?); done.
  - rewrite zlen_snoc_nonzero. cbn [snd fst negb].
    rewrite (bind_ret_l _ _ rt rt c) by (unfold lift_outcome; by rewrite index_candidate).
    assert (c ∈ dom d) as Hcd by (apply Hdom; set_solver).
    rewrite (treeAncestor_run rt root Hok c x Hcd Hx). eexists. split; [done|].
    rewrite (contains_anc d root Hok) by done. split; [intros; exists c; set_solver|].
    intros (c' & Hc' & Ha). destruct (covering_last _ k2 x c' Hord Hx H1 H2 Hc' Ha) as (k & Hk).
    apply app_inj_tail in Hk as [_ ->]. done.
Qed.

Lemma IsDAGAncestorOf_run A B : A ∈ dom d → B ∈ dom d → ordered (fcs_of d A) →
  ∃ b : bool, IsDAGAncestorOf A B rt = (rt, Ret b) ∧
              (b = true ↔ tree_anc d A B ∨ ∃ c, c ∈ fcs_of d A ∧ tree_anc d c B).
Proof using All.
  intros HA HB Hord. unfold IsDAGAncestorOf.
  rewrite (bind_ret_l _ _ _ _ _ (treeAncestor_run rt root Hok A B HA HB)).
  pose proof (contains_anc d root Hok A B HA HB) as Hc. destruct (intervalContains _ _).
  - exists true. split; [done|]. split; [|done]. intros _. left. by apply Hc.
  - destruct (futureCoveringSet_run A B HA HB Hord) as (b & -> & Hb). exists b. split; [done|].
    rewrite Hb. split; [by right|]. intros [Ht|He]; [apply Hc in Ht; done|done].
Qed.

Lemma ordered_children p : ordered (children_of d p).
Proof using All.
  split; [|apply (tree_sorted d root Hok)]. intros x Hx. by apply (tree_child d root Hok p).
Qed.

Lemma FindNextAncestor_run x a : x ∈ dom d → tree_anc d a x → a ≠ x →
  ∃ c, FindNextAncestor x a rt = (rt, Ret c) ∧ parent_of d c = Some a ∧ tree_anc d c x.
Proof using All.
  intros Hx Ha Hne. pose proof (tree_anc_dom d root Hok _ _ Ha Hx) as Had.
  destruct (tree_anc_child d a x Ha Hne) as (c & Hc & Hcx).
  destruct (tree_parent d root Hok _ _ Hc) as [_ Hin].
  exists c. split; [|done]. unfold FindNextAncestor. rewrite (bind_ret_l _ _ _ _ _ (children_run rt a Had)).
  pose proof (ordered_children a) as Hord. pose proof Hord as [Hdom Hs].
  destruct (findAncestorIndexOfNode_run rt root Hok _ x Hdom Hs Hx) as (k1 & k2 & Hl & H1 & H2 & Hr).
  rewrite Hl in *. destruct (covering_last k1 k2 x c Hord Hx H1 H2 Hin Hcx) as (k & ->).
  rewrite zlen_snoc_nonzero in Hr.
  rewrite (bind_ret_l _ _ rt rt (Some c)); [done|]. unfold findAncestorOfNode. rewrite Hr.
  by rewrite (bind_ret_l _ _ rt rt c) by (unfold lift_outcome; by rewrite index_candidate).
Qed.
End Answers.

(** ** Stores that differ in the future covering sets only *)
Definition node_index (rd : reachabilityData) : list hash * option hash * option ReachabilityInterval :=
  (rd_children rd, rd_parent rd, rd_interval rd).

Definition same_index (d d' : gmap (list Z) reachabilityData) : Prop :=
  ∀ x, node_index <$> d !! x = node_index <$> d' !! x.

#[export] Instance same_index_equivalence : Equivalence same_index.
Proof.
  split; unfold same_index; [done|by intros d d' H x|].
  intros d1 d2 d3 H1 H2 x. by rewrite H1.
Qed.

Ltac same_index_lookup H x := specialize (H x); simpl in H;
  repeat match type of H with context [?d !! x] => destruct (d !! x) eqn:? end;
  simplify_eq/=.

#[export] Instance parent_of_proper : Proper (same_index ==> eq ==> eq) parent_of.
Proof. intros d d' H x ? <-. unfold parent_of. by same_index_lookup H x. Qed.
#[export] Instance children_of_proper : Proper (same_index ==> eq ==> eq) children_of.
Proof. intros d d' H x ? <-. unfold children_of. by same_index_lookup H x. Qed.
#[export] Instance iv_proper : Proper (same_index ==> eq ==> eq) iv.
Proof.
  intros d d' H x ? <-. unfold iv. same_index_lookup H x; [|done].
  congruence.
Qed.

Lemma same_index_dom d d' : same_index d d' → dom d = dom d'.
Proof.
  intros H. apply set_eq. intros x. rewrite !elem_of_dom. same_index_lookup H x; [|done].
  split; eauto.
Qed.

#[export] Instance left_of_proper : Proper (same_index ==> eq ==> eq ==> iff) left_of.
Proof. intros d d' H x ? <- y ? <-. unfold left_of. by rewrite H. Qed.

#[export] Instance tree_anc_proper : Proper (same_index ==> eq ==> eq ==> iff) tree_anc.
Proof.
  intros d d' H x ? <- y ? <-. unfold tree_anc.
  split; induction 1 as [|u v w Hp]; [apply rtc_refl| |apply rtc_refl|];
    (apply (rtc_l _ _ v); [|done]); [by rewrite <- H|by rewrite H].
Qed.

Lemma left_of_sorted d d' l : same_index d d' → StronglySorted (left_of d) l → StronglySorted (left_of d') l.
Proof.
  intros H. induction 1 as [|x l _ IH Hx]; constructor; [done|].
  eapply Forall_impl; [exact Hx|]. intros y Hy. by rewrite <- H.
Qed.

#[export] Instance tree_ok_proper : Proper (same_index ==> eq ==> iff) tree_ok.
Proof.
  assert (∀ d d' root, same_index d d' → tree_ok d root → tree_ok d' root) as Himp.
  { intros d d' root H Hok. pose proof (same_index_dom d d' H) as Hd.
    assert (∀ x, parent_of d x = parent_of d' x) as Ep by (intros; by apply parent_of_proper).
    assert (∀ x, children_of d x = children_of d' x) as Ec by (intros; by apply children_of_proper).
    assert (∀ x, iv d x = iv d' x) as Ei by (intros; by apply iv_proper). split.
    - intros x rd Hrd. pose proof (H x) as Hx. rewrite Hrd in Hx. destruct (d !! x) as [rd'|] eqn:E; [|done].
      simpl in Hx. injection Hx as _ _ Hi. rewrite <- Hi. by apply (tree_interval d root Hok x).
    - intros x. rewrite <- Ei, <- Hd. apply (tree_range d root Hok).
    - rewrite <- Hd. apply (tree_root d root Hok).
    - intros x. rewrite <- Ep, <- Hd. apply (tree_rootless d root Hok).
    - intros x p. rewrite <- Ep, <- Ec, <- Hd. apply (tree_parent d root Hok).
    - intros p x. rewrite <- Ep, <- Ec, <- Hd. apply (tree_child d root Hok).
    - intros p. rewrite <- Ec. apply (left_of_sorted d d' _ H), (tree_sorted d root Hok).
    - intros x p. rewrite <- Ep, <- !Ei. apply (tree_inside d root Hok). }
  intros d d' H r ? <-. split; apply Himp; [done|by symmetry].
Qed.

(** ** Insertion into a future covering set *)
Definition set_fcs (A : hash) (l : list hash) (d : gmap (list Z) reachabilityData) : gmap (list Z) reachabilityData :=
  alter (λ rd, SetFutureCoveringSet rd l) A d.

Lemma set_fcs_index A l d : same_index (set_fcs A l d) d.
Proof.
  intros x. unfold set_fcs. destruct (decide (x = A)) as [->|Hne]; [|by rewrite lookup_alter_ne].
  rewrite lookup_alter_eq. by destruct (d !! A).
Qed.

Lemma set_fcs_lookup A l d : A ∈ dom d → fcs_of (set_fcs A l d) A = l.
Proof. intros [rd Hrd]%elem_of_dom. unfold fcs_of, set_fcs. by rewrite lookup_alter_eq, Hrd. Qed.

Lemma set_fcs_lookup_ne A l d x : x ≠ A → fcs_of (set_fcs A l d) x = fcs_of d x.
Proof. intros Hne. unfold fcs_of, set_fcs. by rewrite lookup_alter_ne by done. Qed.

Lemma set_fcs_insert A l d rd : d !! A = Some rd → <[A := SetFutureCoveringSet rd l]> d = set_fcs A l d.
Proof.
  intros Hrd. apply map_eq. intros x. unfold set_fcs.
  destruct (decide (x = A)) as [->|Hne]; [by rewrite lookup_insert_eq, lookup_alter_eq, Hrd|].
  by rewrite lookup_insert_ne, lookup_alter_ne.
Qed.

Lemma set_fcs_id A d : set_fcs A (fcs_of d A) d = d.
Proof.
  apply map_eq. intros x. unfold set_fcs, fcs_of.
  destruct (decide (x = A)) as [->|Hne]; [|by rewrite lookup_alter_ne].
  rewrite lookup_alter_eq. by destruct (d !! A) as [[]|].
Qed.

Lemma with_store_id rt f : f (reachabilityDataStore rt) = reachabilityDataStore rt → with_store f rt = rt.
Proof. destruct rt as [ds rr gd sl wi]. unfold with_store. simpl. by intros ->. Qed.

Lemma with_store_ext rt f g : f (reachabilityDataStore rt) = g (reachabilityDataStore rt) → with_store f rt = with_store g rt.
Proof. unfold with_store. by intros ->. Qed.

Section Insertion.
Context (rt : reachabilityManager) (root : list Z).
Abbreviation d := (reachabilityDataStore rt) (only parsing).
Context (Hok : tree_ok d root).

Lemma forInsertion_run x rd : d !! x = Some rd → reachabilityDataForInsertion x rt = (rt, Ret rd).
Proof using All.
  intros Hrd. unfold reachabilityDataForInsertion, ReachabilityData, bind, get. rewrite Hrd. simpl.
  unfold rd_CloneMutable. by destruct (tree_interval d root Hok x rd Hrd) as [i ->].
Qed.

(** A node placed after the nodes that start before its end, none of which it is
    related to, keeps the order. *)
Lemma ordered_insert k1 k2 x : ordered rt (k1 ++ k2) → x ∈ dom d →
  Forall (λ y, Start (iv d y) ≤ End (iv d x)) k1 → Forall (λ y, End (iv d x) < Start (iv d y)) k2 →
  (∀ c, c ∈ k1 → ¬ tree_anc d c x ∧ ¬ tree_anc d x c) → ordered rt (k1 ++ x :: k2).
Proof using All.
  intros [Hdom Hs] Hx H1 H2 Hrel. split; [intros y Hy; apply elem_of_app in Hy; set_solver|].
  assert (∀ c, c ∈ k1 → left_of d c x) as Hleft.
  { intros c Hc. destruct (Hrel c Hc) as [Hcx Hxc]. rewrite Forall_forall in H1. specialize (H1 c Hc). simpl in H1.
    assert (c ∈ dom d) as Hcd by (apply Hdom; set_solver).
    destruct (laminar d root Hok c x Hcd Hx) as [?|[?|[?|Hl]]]; [done..|]. unfold left_of in Hl. lia. }
  clear H1 Hrel Hdom. induction k1 as [|c k1 IH]; simpl.
  - constructor; [done|]. exact H2.
  - apply StronglySorted_cons in Hs as [Hc Hs]. constructor; [apply IH; set_solver|].
    rewrite Forall_app in Hc. destruct Hc. apply Forall_app. split; [done|].
    constructor; [apply Hleft; set_solver|done].
Qed.

Lemma insertToFutureCoveringSet_run A x : A ∈ dom d → x ∈ dom d → ordered rt (fcs_of d A) →
  (∀ c, c ∈ fcs_of d A → tree_anc d x c → c = x) →
  ∃ l', insertToFutureCoveringSet A x rt = (with_store (set_fcs A l') rt, Ret ()) ∧ ordered rt l' ∧
        (∀ c, c ∈ fcs_of d A → c ∈ l') ∧ (∀ c, c ∈ l' → c = x ∨ c ∈ fcs_of d A) ∧ ∃ c, c ∈ l' ∧ tree_anc d c x.
Proof using All.
  intros HA Hx Hord Hleaf. pose proof HA as [rd Hrd]%elem_of_dom.
  assert (fcs_of d A = rd_futureCoveringSet rd) as El by (unfold fcs_of; by rewrite Hrd).
  unfold insertToFutureCoveringSet. rewrite (bind_ret_l _ _ _ _ _ (forInsertion_run A rd Hrd)), <- El.
  assert (∀ l, stageData A (SetFutureCoveringSet rd l) rt = (with_store (set_fcs A l) rt, Ret ())) as Hstage.
  { intros l. unfold stageData, StageReachabilityData, modify. f_equal. apply with_store_ext. by apply set_fcs_insert. }
  pose proof Hord as [Hdom Hs].
  destruct (findAncestorIndexOfNode_run rt root Hok _ x Hdom Hs Hx) as (k1 & k2 & Hl & H1 & H2 & Hr).
  rewrite (bind_ret_l _ _ _ _ _ Hr). rewrite Hl in *.
  destruct k1 as [|c k1 _] using rev_ind.
  { exists (x :: k2). change (zlen (@nil hash) =? 0) with true. cbn [snd negb]. rewrite Hstage. split; [done|].
    split; [apply (ordered_insert [] k2); [done..|]; by intros c ?%elem_of_nil|]. split; [set_solver|].
    split; [set_solver|]. exists x. split; [set_solver|apply rtc_refl]. }
  rewrite zlen_snoc_nonzero. cbn [snd fst negb].
  rewrite (bind_ret_l _ _ rt rt c) by (unfold lift_outcome; by rewrite index_candidate).
  assert (c ∈ dom d) as Hcd by (apply Hdom; set_solver).
  rewrite (bind_ret_l _ _ _ _ _ (treeAncestor_run rt root Hok c x Hcd Hx)).
  pose proof (contains_anc d root Hok c x Hcd Hx) as Hcx. destruct (intervalContains (iv d c) _).
  { exists (fcs_of d A). rewrite with_store_id by apply set_fcs_id. rewrite Hl. split; [done|].
    split; [done|]. split; [done|]. split; [auto|]. exists c. split; [set_solver|by apply Hcx]. }
  rewrite (bind_ret_l _ _ _ _ _ (treeAncestor_run rt root Hok x c Hx Hcd)).
  pose proof (contains_anc d root Hok x c Hx Hcd) as Hxc. destruct (intervalContains (iv d x) _).
  { assert (c = x) as -> by (apply Hleaf; [set_solver|by apply Hxc]).
    assert (false = true) as [=] by (apply Hcx, rtc_refl). }
  assert (∀ y, y ∈ k1 ++ [c] → ¬ tree_anc d y x ∧ ¬ tree_anc d x y) as Hrel.
  { intros y Hy. assert (¬ tree_anc d y x) as Hyx.
    { intros Ha. destruct (covering_last rt root Hok (k1 ++ [c]) k2 x y Hord Hx H1 H2) as (k & Hk); [set_solver|done|].
      apply app_inj_tail in Hk as [_ <-]. by apply Hcx in Ha. }
    split; [done|]. intros Ha. assert (y = x) as -> by (apply Hleaf; [set_solver|done]). by apply Hyx, rtc_refl. }
  exists ((k1 ++ [c]) ++ x :: k2).
  rewrite (bind_ret_l _ _ rt rt (k1 ++ [c])).
  2:{ unfold lift_outcome. f_equal. apply (slice_app [] (k1 ++ [c]) k2); [done|change (zlen (@nil hash)) with 0; lia]. }
  rewrite (bind_ret_l _ _ rt rt k2).
  2:{ unfold lift_outcome. f_equal.
      rewrite <- (app_nil_r k2) at 1. apply (slice_app (k1 ++ [c]) k2 []); [lia|].
      rewrite zlen_app. lia. }
  rewrite Hstage. split; [done|]. split; [by apply ordered_insert|]. split; [set_solver|]. split; [set_solver|].
  exists x. split; [set_solver|apply rtc_refl].
Qed.
End Insertion.

(** ** Walks towards the root *)

(** The nodes whose interval ends after that of [x]: the walk from [x] stays among
    them. *)
Definition above (d : gmap (list Z) reachabilityData) (x : hash) : gset (list Z) :=
  filter (λ z, End (iv d x) < End (iv d z)) (dom d).

Lemma above_size d x : (size (above d x) ≤ size d)%nat.
Proof. rewrite <- (size_dom d). apply subseteq_size. unfold above. set_solver. Qed.

Lemma above_parent d root x p : tree_ok d root → parent_of d x = Some p → (size (above d p) < size (above d x))%nat.
Proof.
  intros Hok Hp. apply subset_size. pose proof (tree_inside d root Hok x p Hp) as Hin.
  destruct (tree_parent d root Hok x p Hp) as [Hpd _]. unfold above. split.
  - intros z. rewrite !elem_of_filter. intros [? ?]. split; [lia|done].
  - intros Hsub. specialize (Hsub p). rewrite !elem_of_filter in Hsub. destruct Hsub; [split; [lia|done]|lia].
Qed.

Lemma commonAncestorLoop_run rt root r : tree_ok (reachabilityDataStore rt) root →
  r ∈ dom (reachabilityDataStore rt) → ∀ fuel x, x ∈ dom (reachabilityDataStore rt) →
  (size (above (reachabilityDataStore rt) x) < fuel)%nat →
  ∃ c, commonAncestorLoop fuel x r rt = (rt, Ret c) ∧ tree_anc (reachabilityDataStore rt) c x ∧
       tree_anc (reachabilityDataStore rt) c r ∧
       ∀ a, tree_anc (reachabilityDataStore rt) a x → tree_anc (reachabilityDataStore rt) a r →
            tree_anc (reachabilityDataStore rt) a c.
Proof.
  intros Hok Hr. set (d := reachabilityDataStore rt) in *.
  induction fuel as [|fuel IH]; intros x Hx Hf; [lia|]. cbn [commonAncestorLoop].
  rewrite (bind_ret_l _ _ _ _ _ (treeAncestor_run rt root Hok x r Hx Hr)).
  pose proof (contains_anc d root Hok x r Hx Hr) as Hc. fold d. destruct (intervalContains _ _).
  { exists x. split; [done|]. split; [apply rtc_refl|]. split; [by apply Hc|done]. }
  rewrite (bind_ret_l _ _ _ _ _ (parent_run rt x Hx)). fold d.
  destruct (parent_of d x) as [p|] eqn:Hp.
  - rewrite (bind_ret_l _ _ _ _ _ (deref_run p rt)).
    destruct (tree_parent d root Hok x p Hp) as [Hpd _]. pose proof (above_parent d root x p Hok Hp).
    destruct (IH p Hpd ltac:(lia)) as (c & Hrun & Hcx & Hcr & Hmin). exists c. split; [done|].
    split; [by apply (rtc_l _ _ p)|]. split; [done|]. intros a Hax Har. apply Hmin; [|done].
    inversion Hax as [|? q ? Hq Hqa]; subst; [|by simplify_eq].
    apply Hc in Har. done.
  - pose proof (root_anc d root Hok r Hr) as Hroot. rewrite (tree_rootless d root Hok x Hx Hp) in Hc.
    apply Hc in Hroot. done.
Qed.

Module TreeProps.
(** The interval queries answer questions about the tree.  On a store whose
    intervals are nested and ordered, [IsReachabilityTreeAncestorOf] says whether
    the chain of parents of a block reaches the other one; [FindNextAncestor]
    returns the child of an ancestor on the way to a descendant; and
    [findCommonAncestor] terminates with the lowest common ancestor. *)
Theorem tree_queries (rt : reachabilityManager) (root : list Z) :
  let d := reachabilityDataStore rt in
  tree_ok d root →
  (∀ a b, a ∈ dom d → b ∈ dom d →
   ∃ answer, IsReachabilityTreeAncestorOf a b rt = (rt, Ret answer) ∧ (answer = true ↔ tree_anc d a b)) ∧
  (∀ x a, x ∈ dom d → tree_anc d a x → a ≠ x →
   ∃ c, FindNextAncestor x a rt = (rt, Ret c) ∧ parent_of d c = Some a ∧ tree_anc d c x) ∧
  (∀ x r, x ∈ dom d → r ∈ dom d →
   ∃ c, findCommonAncestor x r rt = (rt, Ret c) ∧ tree_anc d c x ∧ tree_anc d c r ∧
        ∀ a, tree_anc d a x → tree_anc d a r → tree_anc d a c).
Proof.
  intros d Hok. split; [|split].
  - intros a b Ha Hb. eexists. split; [by apply treeAncestor_run with root|]. by apply (contains_anc d root).
  - intros x a. by apply (FindNextAncestor_run rt root).
  - intros x r Hx Hr. pose proof (above_size d x). apply (commonAncestorLoop_run rt root r Hok Hr); [done|].
    unfold walkFuel. fold d. lia.
Qed.

(** A root with two children, the first of which has a child. *)
Definition node (children : list (list Z)) (parent : option (list Z)) (s e : Z) : reachabilityData :=
  {| rd_children := children; rd_parent := parent; rd_interval := Some {| Start := s; End := e |};
     rd_futureCoveringSet := [] |}.
Definition sample_tree : gmap (list Z) reachabilityData :=
  {[ [0] := node [[1]; [2]] None 1 100; [1] := node [[3]] (Some [0]) 1 50;
     [2] := node [] (Some [0]) 51 80; [3] := node [] (Some [1]) 10 20 ]}.
Definition sample_manager (d : gmap (list Z) reachabilityData) : reachabilityManager :=
  {| reachabilityDataStore := d; reachabilityReindexRoot := Some [0]; ghostdagDataStore := ∅;
     reindexSlack := defaultReindexSlack; reindexWindow := defaultReindexWindow |}.

Lemma sample_keys x rd : sample_tree !! x = Some rd →
  x = [0] ∧ rd = node [[1]; [2]] None 1 100 ∨ x = [1] ∧ rd = node [[3]] (Some [0]) 1 50 ∨
  x = [2] ∧ rd = node [] (Some [0]) 51 80 ∨ x = [3] ∧ rd = node [] (Some [1]) 10 20.
Proof.
  unfold sample_tree. rewrite !lookup_insert_Some, lookup_singleton_Some. naive_solver.
Qed.

Lemma sample_tree_ok : tree_ok sample_tree [0].
Proof.
  assert (∀ x, x ∈ dom sample_tree → x = [0] ∨ x = [1] ∨ x = [2] ∨ x = [3]) as Hdom.
  { intros x [rd Hrd]%elem_of_dom. apply sample_keys in Hrd. naive_solver. }
  assert (∀ x p, parent_of sample_tree x = Some p → x = [1] ∧ p = [0] ∨ x = [2] ∧ p = [0] ∨ x = [3] ∧ p = [1]) as Hpar.
  { intros x p. unfold parent_of. destruct (sample_tree !! x) as [rd|] eqn:E; [|done]. simpl.
    apply sample_keys in E. naive_solver. }
  assert (∀ p x, x ∈ children_of sample_tree p → x = [1] ∧ p = [0] ∨ x = [2] ∧ p = [0] ∨ x = [3] ∧ p = [1]) as Hch.
  { intros p x. unfold children_of. destruct (sample_tree !! p) as [rd|] eqn:E; simpl; [|by intros ?%elem_of_nil].
    apply sample_keys in E. destruct E as [[-> ->]|[[-> ->]|[[-> ->]|[-> ->]]]]; simpl; set_solver. }
  split.
  - intros x rd Hrd%sample_keys. naive_solver.
  - intros x [->|[->|[->| ->]]]%Hdom; (split; [|split]); vm_compute; reflexivity || discriminate.
  - apply elem_of_dom. by eexists.
  - intros x [->|[->|[->| ->]]]%Hdom; [done|vm_compute; discriminate..].
  - intros x p [[-> ->]|[[-> ->]|[-> ->]]]%Hpar; split; try (apply elem_of_dom; by eexists); vm_compute; set_solver.
  - intros p x [[-> ->]|[[-> ->]|[-> ->]]]%Hch; split; try (apply elem_of_dom; by eexists); done.
  - intros p. unfold children_of. destruct (sample_tree !! p) as [rd|] eqn:E; simpl; [|constructor].
    apply sample_keys in E. destruct E as [[-> ->]|[[-> ->]|[[-> ->]|[-> ->]]]]; repeat constructor.
  - intros x p [[-> ->]|[[-> ->]|[-> ->]]]%Hpar; split; vm_compute; reflexivity || discriminate.
Qed.

Lemma tree_queries_witness :
  (∃ answer, IsReachabilityTreeAncestorOf [0] [3] (sample_manager sample_tree)
     = (sample_manager sample_tree, Ret answer) ∧ (answer = true ↔ tree_anc sample_tree [0] [3])) ∧
  findCommonAncestor [3] [2] (sample_manager sample_tree) = (sample_manager sample_tree, Ret [0]).
Proof.
  split; [|vm_compute; reflexivity].
  apply (proj1 (tree_queries (sample_manager sample_tree) [0] sample_tree_ok)); apply elem_of_dom; by eexists.
Defined.
End TreeProps.
