(* ===== verification/ReachabilityAdd.v ===== *)
(** * Adding blocks to the reachability tree

    A new leaf keeps the indexing invariant; [addChild] and [AddBlock] where the
    parent has room; the future covering sets complete the tree to the DAG. *)
From stdpp Require Import sorting.
From S2P Require Import Prelude Interval ReachabilityData Reachability Reindex ReachabilityTree.
Import Interval Store Reachability Reindex.
Local Open Scope Z_scope.
Local Open Scope prog_scope.

Abbreviation hash := (list Z) (only parsing).

(** ** A new leaf *)
Definition leaf (p : hash) (i : ReachabilityInterval) : reachabilityData :=
  {| rd_children := []; rd_parent := Some p; rd_interval := Some i; rd_futureCoveringSet := [] |}.

Definition add_leaf (p c : hash) (i : ReachabilityInterval) (d : gmap (list Z) reachabilityData)
    : gmap (list Z) reachabilityData :=
  <[c := leaf p i]> (alter (λ rd, AddChild rd c) p d).

(** Where the free space of a node begins: after its last child. *)
Definition free_start (d : gmap (list Z) reachabilityData) (p : hash) : Z :=
  match last (children_of d p) with
  | Some l => End (iv d l) + 1
  | None => Start (iv d p)
  end.

Section Leaf.
Context (d : gmap (list Z) reachabilityData) (root p c : list Z) (i : ReachabilityInterval).
Context (Hok : tree_ok d root) (Hp : p ∈ dom d) (Hc : c ∉ dom d).
Abbreviation d' := (add_leaf p c i d) (only parsing).

Lemma leaf_ne x : x ∈ dom d → x ≠ c.
Proof using Hc. by intros Hx ->. Qed.

Lemma add_leaf_dom x : x ∈ dom d' ↔ x = c ∨ x ∈ dom d.
Proof using Type. unfold add_leaf. by rewrite dom_insert, dom_alter, elem_of_union, elem_of_singleton. Qed.

Lemma add_leaf_parent x : parent_of d' x = if decide (x = c) then Some p else parent_of d x.
Proof using Type.
  unfold parent_of, add_leaf. case_decide as Hx; [by subst; rewrite lookup_insert_eq|].
  rewrite lookup_insert_ne by done. destruct (decide (x = p)) as [->|]; [|by rewrite lookup_alter_ne].
  rewrite lookup_alter_eq. by destruct (d !! p).
Qed.

Lemma add_leaf_children x : children_of d' x =
  if decide (x = c) then [] else if decide (x = p) then children_of d p ++ [c] else children_of d x.
Proof using Hp.
  unfold children_of, add_leaf. case_decide as Hx; [by subst; rewrite lookup_insert_eq|].
  rewrite lookup_insert_ne by done. case_decide as Hxp; [|by rewrite lookup_alter_ne].
  subst. rewrite lookup_alter_eq. apply elem_of_dom in Hp as [rd ->]. done.
Qed.

Lemma add_leaf_iv x : iv d' x = if decide (x = c) then i else iv d x.
Proof using Type.
  unfold iv, add_leaf. case_decide as Hx; [by subst; rewrite lookup_insert_eq|].
  rewrite lookup_insert_ne by done. destruct (decide (x = p)) as [->|]; [|by rewrite lookup_alter_ne].
  rewrite lookup_alter_eq. by destruct (d !! p).
Qed.

Lemma add_leaf_iv_old x : x ∈ dom d → iv d' x = iv d x.
Proof using Hc. intros Hx. rewrite add_leaf_iv. by rewrite decide_False by (by apply leaf_ne). Qed.

Lemma add_leaf_fcs x : fcs_of d' x = if decide (x = c) then [] else fcs_of d x.
Proof using Type.
  unfold fcs_of, add_leaf. case_decide as Hx; [by subst; rewrite lookup_insert_eq|].
  rewrite lookup_insert_ne by done. destruct (decide (x = p)) as [->|]; [|by rewrite lookup_alter_ne].
  rewrite lookup_alter_eq. by destruct (d !! p).
Qed.

Lemma children_dom x y : y ∈ children_of d x → y ∈ dom d.
Proof using Hok. intros Hy. by apply (tree_child d root Hok x). Qed.

Lemma left_of_old x y : x ∈ dom d → y ∈ dom d → left_of d' x y ↔ left_of d x y.
Proof using Hc. intros. unfold left_of. by rewrite !add_leaf_iv_old. Qed.

Lemma sorted_old l : (∀ x, x ∈ l → x ∈ dom d) → StronglySorted (left_of d) l → StronglySorted (left_of d') l.
Proof using Hc.
  intros Hdom Hs. induction Hs as [|x l Hs IH Hx]; constructor.
  - apply IH. intros y Hy. apply Hdom. by right.
  - rewrite Forall_forall in *. intros y Hy. apply left_of_old; [apply Hdom; by left|apply Hdom; by right|by apply Hx].
Qed.

(** Old nodes keep their ancestors; those of the leaf are itself and those of its
    parent. *)
Lemma add_leaf_anc_old a b : b ∈ dom d → tree_anc d' a b ↔ tree_anc d a b.
Proof using Hok Hc.
  intros Hb. split.
  - intros H. revert Hb. induction H as [|x y a Hx Ha IH]; intros Hb; [apply rtc_refl|].
    rewrite add_leaf_parent, decide_False in Hx by (by apply leaf_ne).
    apply (rtc_l _ _ y); [done|]. apply IH. apply (tree_parent d root Hok _ _ Hx).
  - intros H. revert Hb. induction H as [|x y a Hx Ha IH]; intros Hb; [apply rtc_refl|].
    apply (rtc_l _ _ y); [by rewrite add_leaf_parent, decide_False by (by apply leaf_ne)|].
    apply IH. apply (tree_parent d root Hok _ _ Hx).
Qed.

Lemma add_leaf_anc_new a : tree_anc d' a c ↔ a = c ∨ tree_anc d a p.
Proof using Hok Hp Hc.
  split.
  - inversion 1 as [|x y ? Hx Ha]; subst; [by left|]. right.
    rewrite add_leaf_parent, decide_True in Hx by done. injection Hx as <-. by apply add_leaf_anc_old.
  - intros [->|Ha]; [apply rtc_refl|]. apply (rtc_l _ _ p); [by rewrite add_leaf_parent, decide_True|].
    by apply add_leaf_anc_old.
Qed.

Context (Hne : Start i ≤ End i) (Hleft : free_start d p ≤ Start i) (Hright : End i < End (iv d p)).

Lemma last_child_max l x : last (children_of d p) = Some l → x ∈ children_of d p → End (iv d x) ≤ End (iv d l).
Proof using Hok.
  intros Hl Hx. pose proof (tree_sorted d root Hok p) as Hs.
  destruct (children_of d p) as [|z k _] eqn:E using rev_ind; [done|].
  rewrite last_snoc in Hl. injection Hl as ->. apply elem_of_app in Hx as [Hx|Hx%list_elem_of_singleton]; [|by subst].
  assert (left_of d x l) as Hxl by (apply (StronglySorted_app_1_elem_of _ _ _ _ _ Hs); [done|by left]).
  assert (l ∈ dom d) as Hld by (apply (children_dom p); rewrite E; apply elem_of_app; right; by left).
  pose proof (tree_range d root Hok l Hld). unfold left_of in Hxl. lia.
Qed.

Lemma free_start_after : Start (iv d p) ≤ Start i ∧ ∀ x, x ∈ children_of d p → End (iv d x) < Start i.
Proof using All.
  unfold free_start in Hleft. destruct (last (children_of d p)) as [l|] eqn:El.
  - assert (l ∈ children_of d p) as Hl by (by apply last_Some_elem_of).
    destruct (tree_child d root Hok p l Hl) as [Hld Hlp].
    pose proof (tree_inside d root Hok l p Hlp). pose proof (tree_range d root Hok l Hld).
    split; [lia|]. intros x Hx. pose proof (last_child_max l x El Hx). lia.
  - apply last_None in El. rewrite El. split; [lia|]. by intros x ?%elem_of_nil.
Qed.

Lemma add_leaf_ok : tree_ok d' root.
Proof using All.
  destruct free_start_after as [Hstart Hafter]. pose proof (tree_range d root Hok p Hp) as Hrp.
  assert (∀ x q, parent_of d x = Some q → x ∈ dom d ∧ q ∈ dom d) as Hdoms.
  { intros x q Hx. split; [by apply (parent_dom d x q)|apply (tree_parent d root Hok _ _ Hx)]. }
  split.
  - intros x rd. unfold add_leaf. destruct (decide (x = c)) as [->|Hx].
    { rewrite lookup_insert_eq. intros [= <-]. by eexists. }
    rewrite lookup_insert_ne by done. destruct (decide (x = p)) as [->|].
    + rewrite lookup_alter_eq. destruct (d !! p) as [rd'|] eqn:E; [|done]. intros [= <-].
      by apply (tree_interval d root Hok p rd').
    + rewrite lookup_alter_ne by done. by apply (tree_interval d root Hok x).
  - intros x [->|Hx]%add_leaf_dom; rewrite add_leaf_iv; [rewrite decide_True by done; lia|].
    rewrite decide_False by (by apply leaf_ne). by apply (tree_range d root Hok).
  - apply add_leaf_dom. right. apply (tree_root d root Hok).
  - intros x [->|Hx]%add_leaf_dom; rewrite add_leaf_parent; [by rewrite decide_True|].
    rewrite decide_False by (by apply leaf_ne). by apply (tree_rootless d root Hok).
  - intros x q. rewrite add_leaf_parent, add_leaf_dom, add_leaf_children. case_decide as Hx.
    + intros [= <-]. split; [by right|]. rewrite decide_False, decide_True by (done || by apply leaf_ne). set_solver.
    + intros Hq. destruct (Hdoms x q Hq) as [_ Hqd]. split; [by right|].
      rewrite decide_False by (by apply leaf_ne). pose proof (proj2 (tree_parent d root Hok _ _ Hq)).
      case_decide; [subst|done]. set_solver.
  - intros q x. rewrite add_leaf_children, add_leaf_dom, add_leaf_parent. case_decide as Hq; [by intros ?%elem_of_nil|].
    case_decide as Hqp.
    + subst q. rewrite elem_of_app, list_elem_of_singleton. intros [Hx| ->]; [|by rewrite decide_True; auto].
      destruct (tree_child d root Hok p x Hx). rewrite decide_False by (by apply leaf_ne). auto.
    + intros Hx. destruct (tree_child d root Hok q x Hx). rewrite decide_False by (by apply leaf_ne). auto.
  - intros q. rewrite add_leaf_children. case_decide as Hq; [constructor|].
    assert (∀ q, StronglySorted (left_of d') (children_of d q)) as Hold.
    { intros q'. apply sorted_old; [apply children_dom|apply (tree_sorted d root Hok)]. }
    case_decide as Hqp; [|done]. apply StronglySorted_app_2; [|done|repeat constructor].
    intros x y Hx ->%list_elem_of_singleton. unfold left_of. rewrite add_leaf_iv_old by (by apply (children_dom p)).
    rewrite add_leaf_iv, decide_True by done. by apply Hafter.
  - intros x q. rewrite add_leaf_parent. case_decide as Hx.
    + intros [= <-]. rewrite add_leaf_iv_old by done. rewrite add_leaf_iv, decide_True by done. lia.
    + intros Hq. destruct (Hdoms x q Hq). rewrite !add_leaf_iv_old by done. by apply (tree_inside d root Hok).
Qed.
End Leaf.

(** ** [addChild] where the parent has room *)
Section AddChild.
Context `{FloatConversion} (rt : reachabilityManager) (root p c : list Z).
Abbreviation d := (reachabilityDataStore rt) (only parsing).
Context (Hok : tree_ok d root) (Hp : p ∈ dom d) (Hc : c ∉ dom d).

(** [AddBlock] has staged the data of the new block when it calls [addChild]. *)
Definition staged : reachabilityManager := with_store (<[c := newReachabilityTreeData]>) rt.

Lemma staged_lookup x : x ∈ dom d → reachabilityDataStore staged !! x = d !! x.
Proof using Hc. intros Hx. apply lookup_insert_ne. by intros ->. Qed.

Lemma staged_interval x : x ∈ dom d → interval x staged = (staged, Ret (Some (iv d x))).
Proof using Hok Hc.
  intros Hx. destruct (lookup_data rt root Hok x Hx) as (rd & Hrd & Hi).
  unfold interval, ReachabilityData, bind, get. rewrite staged_lookup, Hrd by done. simpl. by rewrite Hi.
Qed.

Lemma staged_children x : x ∈ dom d → children x staged = (staged, Ret (children_of d x)).
Proof using Hc.
  intros Hx. pose proof Hx as [rd Hrd]%elem_of_dom.
  unfold children, ReachabilityData, bind, get, children_of. by rewrite staged_lookup, Hrd.
Qed.

Lemma remainingIntervalAfter_run :
  remainingIntervalAfter p staged = (staged, Ret {| Start := free_start d p; End := End (iv d p) - 1 |}).
Proof using Hok Hp Hc.
  pose proof (tree_range d root Hok p Hp). unfold remainingIntervalAfter, intervalRangeForChildAllocation.
  rewrite bind_assoc, (bind_ret_l _ _ _ _ _ (staged_interval p Hp)), bind_assoc, (bind_ret_l _ _ _ _ _ (deref_run _ _)).
  rewrite bind_ret,  (bind_ret_l _ _ _ _ _ (staged_children p Hp)).
  unfold newReachabilityInterval, free_start. cbn [Start End]. rewrite GoInt.uint64_id by lia.
  destruct (last (children_of d p)) as [l|] eqn:El; [|done].
  destruct (tree_child d root Hok p l (last_Some_elem_of _ _ El)) as [Hl _].
  pose proof (tree_range d root Hok l Hl).
  rewrite (bind_ret_l _ _ _ _ _ (staged_interval l Hl)), (bind_ret_l _ _ _ _ _ (deref_run _ _)).
  by rewrite GoInt.uint64_id by lia.
Qed.

Lemma forInsertion_lookup (s : reachabilityManager) x rd i : reachabilityDataStore s !! x = Some rd →
  rd_interval rd = Some i → reachabilityDataForInsertion x s = (s, Ret rd).
Proof using Type.
  intros Hrd Hi. unfold reachabilityDataForInsertion, ReachabilityData, bind, get. rewrite Hrd. simpl.
  unfold rd_CloneMutable. by rewrite Hi.
Qed.

Lemma stage_run {A} (s : reachabilityManager) x rd i (f : reachabilityData → reachabilityData) (k : unit → prog _ reachabilityError A) :
  reachabilityDataStore s !! x = Some rd → rd_interval rd = Some i →
  bind (let* data := reachabilityDataForInsertion x in stageData x (f data)) k s
    = k () (with_store (<[x := f rd]>) s).
Proof using Type.
  intros Hrd Hi. rewrite bind_assoc, (bind_ret_l _ _ _ _ _ (forInsertion_lookup s x rd i Hrd Hi)). done.
Qed.

(** The parent–child link, without the interval of the child *)
Definition linked : reachabilityManager := with_store (add_leaf p c {| Start := 1; End := 2 ^ 64 - 2 |}) rt.

Lemma link_run {A} (k : prog reachabilityManager reachabilityError A) :
  (stageAddChild p c ;;* stageParent c p ;;* k) staged = k linked.
Proof using Hok Hp Hc.
  destruct (lookup_data rt root Hok p Hp) as (rd & Hrd & Hi). unfold stageAddChild, stageParent.
  rewrite (stage_run _ _ _ _ (λ data, AddChild data c) _ (eq_trans (staged_lookup p Hp) Hrd) Hi).
  rewrite (stage_run _ c newReachabilityTreeData {| Start := 1; End := 2 ^ 64 - 2 |} (λ data, SetParent data p));
    [|simpl; rewrite lookup_insert_ne by (intros ->; done); apply lookup_insert_eq|done].
  f_equal. unfold linked, staged, with_store, add_leaf. simpl. f_equal.
  assert (p ≠ c) as Hne by (by intros ->).
  apply map_eq. intros x. destruct (decide (x = c)) as [->|Hxc]; [by rewrite !lookup_insert_eq|].
  rewrite !(lookup_insert_ne _ c x) by done.
  destruct (decide (x = p)) as [->|Hxp]; [by rewrite lookup_insert_eq, lookup_alter_eq, Hrd|].
  by rewrite lookup_insert_ne, lookup_insert_ne, lookup_alter_ne.
Qed.

Lemma addChild_room rr : free_start d p < End (iv d p) →
  ∃ i, addChild p c rr staged = (with_store (add_leaf p c i) rt, Ret ()) ∧
       Start i ≤ End i ∧ free_start d p ≤ Start i ∧ End i < End (iv d p).
Proof using Hok Hp Hc.
  intros Hroom. pose proof (tree_range d root Hok p Hp).
  assert (0 < free_start d p) as Hfs.
  { unfold free_start. destruct (last (children_of d p)) as [l|] eqn:El; [|lia].
    destruct (tree_child d root Hok p l (last_Some_elem_of _ _ El)) as [Hl _]. pose proof (tree_range d root Hok l Hl). lia. }
  set (ri := {| Start := free_start d p; End := End (iv d p) - 1 |}).
  assert (interval_ok ri) as Hri by (unfold interval_ok, ri; simpl; lia).
  unfold addChild. rewrite (bind_ret_l _ _ _ _ _ remainingIntervalAfter_run). fold ri.
  rewrite link_run, intervalSize_ok by done. cbn [Start End ri].
  rewrite (proj2 (Z.eqb_neq _ _)) by lia.
  destruct (splitInHalf_spec ri Hri) as (left & right & Hs & Hl & Hle & _); [simpl; lia|].
  rewrite (bind_ret_l _ _ linked linked (left, right)) by (unfold lift_outcome; by rewrite Hs).
  exists left. simpl in Hl, Hle. split; [|lia]. unfold stageInterval. cbn [fst].
  rewrite (bind_ret_l _ _ linked linked (leaf p {| Start := 1; End := 2 ^ 64 - 2 |})).
  2:{ eapply forInsertion_lookup; [apply lookup_insert_eq|done]. }
  unfold stageData, StageReachabilityData, modify, linked, with_store, add_leaf. simpl.
  by rewrite insert_insert_eq.
Qed.
End AddChild.

(** ** The merge set registers the block *)
Definition set_store (d : gmap (list Z) reachabilityData) (rt : reachabilityManager) : reachabilityManager :=
  with_store (λ _, d) rt.

Lemma ordered_same rt rt' l : same_index (reachabilityDataStore rt) (reachabilityDataStore rt') →
  ordered rt l → ordered rt' l.
Proof.
  intros Hsame [Hdom Hs]. split; [by rewrite <- (same_index_dom _ _ Hsame)|]. by apply (left_of_sorted _ _ _ Hsame).
Qed.

(** How the future covering set [l] of a node becomes [l'] when [x] is inserted into
    the sets of the nodes [ms]. *)
Definition registered (d : gmap (list Z) reachabilityData) (ms : list hash) (x A : hash) (l l' : list hash) : Prop :=
  (∀ c, c ∈ l → c ∈ l') ∧ (∀ c, c ∈ l' → c ∈ l ∨ c = x ∧ A ∈ ms) ∧ (A ∈ ms → ∃ c, c ∈ l' ∧ tree_anc d c x).

Lemma insertToAll_run root x ms : ∀ rt,
  tree_ok (reachabilityDataStore rt) root → x ∈ dom (reachabilityDataStore rt) →
  (∀ y, y ∈ dom (reachabilityDataStore rt) → tree_anc (reachabilityDataStore rt) x y → y = x) →
  (∀ A, A ∈ dom (reachabilityDataStore rt) → ordered rt (fcs_of (reachabilityDataStore rt) A)) →
  (∀ A, A ∈ ms → A ∈ dom (reachabilityDataStore rt)) →
  ∃ d', insertToAll ms x rt = (set_store d' rt, Ret ()) ∧ same_index d' (reachabilityDataStore rt) ∧
    ∀ A, A ∈ dom (reachabilityDataStore rt) → ordered rt (fcs_of d' A) ∧
         registered (reachabilityDataStore rt) ms x A (fcs_of (reachabilityDataStore rt) A) (fcs_of d' A).
Proof.
  induction ms as [|B ms IH]; intros rt Hok Hx Hleaf Hord Hms; cbn [insertToAll].
  { exists (reachabilityDataStore rt). split; [by destruct rt|]. split; [done|]. intros A HA.
    split; [by apply Hord|]. split; [done|]. split; [auto|]. by intros ?%elem_of_nil. }
  set (d := reachabilityDataStore rt) in *.
  assert (B ∈ dom d) as HB by (apply Hms; set_solver).
  destruct (insertToFutureCoveringSet_run rt root Hok B x HB Hx (Hord B HB)) as (l & Hrun & Hl & Hsub & Hsup & Hcov).
  { intros c Hc. apply Hleaf. by apply (Hord B HB). }
  rewrite (bind_ret_l _ _ _ _ _ Hrun). set (rt1 := with_store _ rt). fold d in Hsub, Hsup, Hcov.
  assert (same_index (set_fcs B l d) d) as Hs1 by apply set_fcs_index.
  pose proof (same_index_dom _ _ Hs1) as Hd1.
  destruct (IH rt1) as (d' & Hrun' & Hs' & HA').
  1-5: unfold rt1; simpl; fold d; rewrite ?Hd1; try done.
  - by rewrite Hs1.
  - intros y. rewrite Hs1. apply Hleaf.
  - intros A HA. apply (ordered_same rt); [by symmetry|]. destruct (decide (A = B)) as [->|].
    + by rewrite set_fcs_lookup.
    + rewrite set_fcs_lookup_ne by done. by apply Hord.
  - intros A HA. apply Hms. by right.
  - exists d'. rewrite Hrun'. split; [done|]. split; [by rewrite Hs'|]. intros A HA.
    destruct (HA' A) as (Ho & Hsub' & Hsup' & Hcov'); [simpl; fold d; by rewrite Hd1|].
    split; [by apply (ordered_same rt1 rt)|]. simpl in Hsub', Hsup', Hcov'. fold d in Hsub', Hsup', Hcov'.
    unfold registered. destruct (decide (A = B)) as [->|Hne].
    + rewrite set_fcs_lookup in Hsub', Hsup' by done. split; [auto|]. split.
      * intros c Hc. destruct (Hsup' c Hc) as [Hc'|[-> _]]; [|right; split; [done|by left]].
        destruct (Hsup c Hc') as [->|]; [right; split; [done|by left]|auto].
      * intros _. destruct Hcov as (c & Hc & Ha). exists c. split; [by apply Hsub'|done].
    + rewrite set_fcs_lookup_ne in Hsub', Hsup' by done. split; [done|]. split.
      * intros c Hc. destruct (Hsup' c Hc) as [|[-> ?]]; [auto|]. right. split; [done|by right].
      * intros [->|HAm]%elem_of_cons; [done|]. destruct (Hcov' HAm) as (c & Hc & Ha). exists c. split; [done|].
        by rewrite Hs1 in Ha.
Qed.

(** ** The DAG *)
Section Dag.
Context (dag_parents : list Z → list (list Z)).

Definition dag_anc (A B : hash) : Prop := rtc (λ x y, y ∈ dag_parents x) B A.

(** The state of the manager of a DAG whose blocks are the nodes of the tree: the
    past of a block is what the tree and the future covering sets say. *)
Record reach_ok (rt : reachabilityManager) (root : hash) : Prop := {
  reach_tree : tree_ok (reachabilityDataStore rt) root;
  reach_closed x y : x ∈ dom (reachabilityDataStore rt) → y ∈ dag_parents x → y ∈ dom (reachabilityDataStore rt);
  reach_ordered A : A ∈ dom (reachabilityDataStore rt) → ordered rt (fcs_of (reachabilityDataStore rt) A);
  reach_dag A B : A ∈ dom (reachabilityDataStore rt) → B ∈ dom (reachabilityDataStore rt) →
    dag_anc A B ↔ tree_anc (reachabilityDataStore rt) A B ∨
                  ∃ c, c ∈ fcs_of (reachabilityDataStore rt) A ∧ tree_anc (reachabilityDataStore rt) c B
}.

(** The GHOSTDAG data of a block [c]: its selected parent is one of its parents, and
    its merge set is the selected parent and the part of the past of [c] that is
    not in the past of the selected parent. *)
Record merges (rt : reachabilityManager) (c p : hash) (g : BlockGHOSTDAGData) : Prop := {
  merges_data : ghostdagDataStore rt !! c = Some g;
  merges_selected : selectedParent g = Some p;
  merges_parent : p ∈ dag_parents c;
  merges_set A : A ∈ mergeSetBlues g ++ mergeSetReds g ↔ A = p ∨ A ≠ c ∧ dag_anc A c ∧ ¬ dag_anc A p
}.

Lemma dag_anc_dom rt root A B : reach_ok rt root → B ∈ dom (reachabilityDataStore rt) → dag_anc A B →
  A ∈ dom (reachabilityDataStore rt).
Proof.
  intros Hok HB H. revert HB. induction H as [|x y A Hy _ IH]; intros HB; [done|].
  apply IH. by apply (reach_closed rt root Hok x).
Qed.

Lemma dag_anc_dec rt root A B : reach_ok rt root →
  A ∈ dom (reachabilityDataStore rt) → B ∈ dom (reachabilityDataStore rt) → dag_anc A B ∨ ¬ dag_anc A B.
Proof.
  intros Hok HA HB. rewrite (reach_dag rt root Hok) by done.
  destruct (IsDAGAncestorOf_run rt root (reach_tree rt root Hok) A B HA HB (reach_ordered rt root Hok A HA)) as (b & _ & Hb).
  rewrite <- Hb. destruct b; auto.
Qed.

(** [d2] is [d] with the new leaf [c] under [p], whatever happened to the intervals. *)
Record grown (d d2 : gmap (list Z) reachabilityData) (p c : hash) : Prop := {
  grown_dom x : x ∈ dom d2 ↔ x = c ∨ x ∈ dom d;
  grown_old a b : b ∈ dom d → tree_anc d2 a b ↔ tree_anc d a b;
  grown_new a : tree_anc d2 a c ↔ a = c ∨ tree_anc d a p;
  grown_fcs x : fcs_of d2 x = if decide (x = c) then [] else fcs_of d x;
  grown_left x y : x ∈ dom d → y ∈ dom d → left_of d x y → left_of d2 x y
}.

Section Insert.
Context `{FloatConversion} (rt : reachabilityManager) (root c p : list Z) (g : BlockGHOSTDAGData).
Abbreviation d := (reachabilityDataStore rt) (only parsing).
Context (Hok : reach_ok rt root) (Hm : merges rt c p g) (Hc : c ∉ dom d).
Context (Hpar : ∀ q, q ∈ dag_parents c → q ∈ dom d).
Context (d2 : gmap (list Z) reachabilityData) (Hd2 : tree_ok d2 root) (Hg : grown d d2 p c).

Lemma old_leaf a : a ∈ dom d → ¬ tree_anc d2 c a.
Proof using Hok Hc Hg.
  intros Ha Ht. apply (grown_old _ _ _ _ Hg) in Ht; [|done].
  by apply Hc, (tree_anc_dom d root (reach_tree rt root Hok) _ _ Ht).
Qed.

Lemma merged_old A : A ∈ mergeSetBlues g ++ mergeSetReds g → A ∈ dom d.
Proof using All.
  rewrite (merges_set rt c p g Hm). intros [->|(Hne & Ha & _)]; [apply Hpar, Hm|].
  inversion Ha as [|x q ? Hq Hqa]; subst; [done|]. by apply (dag_anc_dom rt root A q Hok (Hpar q Hq)).
Qed.

(** The past of the new block, before and after the registration. *)
Lemma past_of_new A l' : A ∈ dom d → registered d2 (mergeSetBlues g ++ mergeSetReds g) c A (fcs_of d A) l' →
  dag_anc A c ↔ tree_anc d2 A c ∨ ∃ y, y ∈ l' ∧ tree_anc d2 y c.
Proof using All.
  intros HA (Hsub & Hsup & Hcov). assert (p ∈ dom d) as Hp by apply Hpar, Hm.
  assert (A ≠ c) as HAc by (by intros ->).
  assert (dag_anc A p → dag_anc A c) as Hstep.
  { intros Ha. apply (rtc_l _ _ p); [apply (merges_parent _ _ _ _ Hm)|done]. }
  split.
  - intros Ha. destruct (dag_anc_dec rt root A p Hok HA Hp) as [Hap|Hap].
    + apply (reach_dag rt root Hok) in Hap as [Ht|(y & Hy & Ht)]; [left|right; exists y; split; [auto|]|done..];
        apply (grown_new _ _ _ _ Hg); auto.
    + right. apply Hcov, (merges_set rt c p g Hm). auto.
  - assert (∀ y, y ∈ dom d → tree_anc d2 y c → tree_anc d y p) as Hold.
    { intros y Hy Ht. apply (grown_new _ _ _ _ Hg) in Ht as [->|]; done. }
    intros [Ht|(y & Hy & Ht)].
    { apply Hstep, (reach_dag rt root Hok); auto. }
    destruct (Hsup y Hy) as [Hy'|[-> Hms]].
    + apply Hstep, (reach_dag rt root Hok); [done..|]. right. exists y. split; [done|].
      apply Hold; [by apply (reach_ordered rt root Hok A HA)|done].
    + apply (merges_set rt c p g Hm) in Hms as [->|(_ & ? & _)]; [|done]. apply Hstep, rtc_refl.
Qed.

Lemma registered_ok d3 : same_index d3 d2 →
  (∀ A, A ∈ dom d2 → ordered (set_store d2 rt) (fcs_of d3 A) ∧
        registered d2 (mergeSetBlues g ++ mergeSetReds g) c A (fcs_of d2 A) (fcs_of d3 A)) →
  reach_ok (set_store d3 rt) root.
Proof using All.
  intros Hs HA. pose proof (same_index_dom _ _ Hs) as Hdom.
  assert (∀ A, A ∈ dom d3 ↔ A = c ∨ A ∈ dom d) as Hin by (intros A; rewrite Hdom; apply (grown_dom _ _ _ _ Hg)).
  assert (∀ A, A ∈ dom d → fcs_of d2 A = fcs_of d A) as Hfcs.
  { intros A HAd. rewrite (grown_fcs _ _ _ _ Hg), decide_False; [done|]. by intros ->. }
  split; simpl.
  - by rewrite Hs.
  - intros x y. rewrite !Hin. intros [->|Hx] Hy; [right; by apply Hpar|]. right. by apply (reach_closed rt root Hok x).
  - intros A HAd. rewrite Hdom in HAd. apply (ordered_same (set_store d2 rt)); [by symmetry|]. by apply HA.
  - assert (∀ x y, tree_anc d3 x y ↔ tree_anc d2 x y) as Ht by (intros x y; by apply tree_anc_proper).
    intros A B HAd HBd. setoid_rewrite Ht. clear Ht. destruct (HA A) as [_ Hreg]; [by rewrite <- Hdom|].
    apply Hin in HAd as [->|HAd], HBd as [->|HBd].
    + split; [intros _; left; apply rtc_refl|intros _; apply rtc_refl].
    + split.
      * intros Ha. destruct Hc. by apply (dag_anc_dom rt root c B Hok).
      * destruct Hreg as (_ & Hsup & _). rewrite (grown_fcs _ _ _ _ Hg), decide_True in Hsup by done.
        intros [Ht|(y & Hy & Ht)]; [by apply old_leaf in Ht|].
        destruct (Hsup y Hy) as [Hy'%elem_of_nil|[-> _]]; [done|]. by apply old_leaf in Ht.
    + rewrite Hfcs in Hreg by done. by apply past_of_new.
    + rewrite Hfcs in Hreg by done. rewrite (reach_dag rt root Hok) by done. rewrite (grown_old _ _ _ _ Hg) by done.
      destruct Hreg as (Hsub & Hsup & _). split; (intros [Ht|(y & Hy & Ht)]; [by left|right; exists y]).
      * split; [auto|]. by apply (grown_old _ _ _ _ Hg).
      * destruct (Hsup y Hy) as [Hy'|[-> _]]; [|by apply old_leaf in Ht]. split; [done|].
        by apply (grown_old _ _ _ _ Hg) in Ht.
Qed.

Lemma AddBlock_grown rr : reachabilityReindexRoot rt = Some rr →
  addChild p c rr (staged rt c) = (set_store d2 rt, Ret ()) →
  ∃ rt', AddBlock c rt = (rt', Ret ()) ∧ reach_ok rt' root ∧
         (∀ x, x ∈ dom (reachabilityDataStore rt') ↔ x = c ∨ x ∈ dom d) ∧
         ghostdagDataStore rt' = ghostdagDataStore rt ∧ reachabilityReindexRoot rt' = Some rr.
Proof using All.
  intros Hrr Hadd. unfold AddBlock.
  rewrite (bind_ret_l _ _ rt (staged rt c) ()) by done.
  rewrite (bind_ret_l _ _ _ (staged rt c) g).
  2:{ unfold ghostdagData, bind, get. cbn [staged with_store ghostdagDataStore]. by rewrite (merges_data _ _ _ _ Hm). }
  rewrite (merges_selected _ _ _ _ Hm).
  rewrite (bind_ret_l _ _ _ (staged rt c) rr).
  2:{ unfold reindexRoot, ReachabilityReindexRoot, bind, get. cbn [staged with_store reachabilityReindexRoot]. by rewrite Hrr. }
  rewrite (bind_ret_l _ _ _ _ _ Hadd).
  assert (∀ A, A ∈ dom d → A ∈ dom d2) as Hsub by (intros; apply (grown_dom _ _ _ _ Hg); auto).
  destruct (insertToAll_run root c (mergeSetBlues g ++ mergeSetReds g) (set_store d2 rt)) as (d3 & Hrun & Hs & HA); simpl.
  - done.
  - apply (grown_dom _ _ _ _ Hg). by left.
  - intros y Hy Ht. apply (grown_dom _ _ _ _ Hg) in Hy as [|Hy]; [done|]. by apply old_leaf in Ht.
  - intros A HA. rewrite (grown_fcs _ _ _ _ Hg). case_decide; [split; [by intros x ?%elem_of_nil|constructor]|].
    apply (grown_dom _ _ _ _ Hg) in HA as [|HA]; [done|]. destruct (reach_ordered rt root Hok A HA) as [Hdom Hsort].
    split; [auto|]. clear -Hg Hdom Hsort. induction Hsort as [|x l Hsort IH Hx]; constructor.
    + apply IH. intros. apply Hdom. by right.
    + rewrite Forall_forall in *. intros y Hy. apply (grown_left _ _ _ _ Hg); [apply Hdom; by left|apply Hdom; by right|].
      by apply Hx.
  - intros A HA. by apply Hsub, merged_old.
  - exists (set_store d3 (set_store d2 rt)). rewrite Hrun. split; [done|]. split; [by apply registered_ok|].
    split; [|done]. intros x. simpl. rewrite (same_index_dom _ _ Hs). apply (grown_dom _ _ _ _ Hg).
Qed.
End Insert.

Lemma add_leaf_grown d root p c i : tree_ok d root → p ∈ dom d → c ∉ dom d → grown d (add_leaf p c i d) p c.
Proof.
  intros Hok Hp Hc. split.
  - apply add_leaf_dom.
  - intros a b. by apply (add_leaf_anc_old d root).
  - intros a. by apply (add_leaf_anc_new d root).
  - apply add_leaf_fcs.
  - intros x y Hx Hy Hl. by apply left_of_old.
Qed.
End Dag.

(** Genesis: the first block of an empty store. *)
Lemma AddBlock_genesis `{FloatConversion} dag_parents rt c g :
  reachabilityDataStore rt = ∅ → ghostdagDataStore rt !! c = Some g → selectedParent g = None →
  dag_parents c = [] →
  ∃ rt', AddBlock c rt = (rt', Ret ()) ∧ reach_ok dag_parents rt' c ∧
         dom (reachabilityDataStore rt') = {[c]} ∧ ghostdagDataStore rt' = ghostdagDataStore rt ∧
         reachabilityReindexRoot rt' = Some c.
Proof.
  intros Hempty Hg Hsel Hpar. set (rt' := with_reindexRoot c (staged rt c)).
  assert (reachabilityDataStore rt' = {[c := newReachabilityTreeData]}) as Hst.
  { unfold rt', staged, with_reindexRoot, with_store. simpl. by rewrite Hempty. }
  assert (∀ x, x ∈ dom (reachabilityDataStore rt') → x = c) as Hdom.
  { intros x. rewrite Hst, dom_singleton. by intros ->%elem_of_singleton. }
  assert (∀ x, parent_of (reachabilityDataStore rt') x = None) as Hparent.
  { intros x. rewrite Hst. unfold parent_of. destruct (decide (x = c)) as [->|].
    - by rewrite lookup_singleton_eq.
    - by rewrite lookup_singleton_ne. }
  assert (∀ x, children_of (reachabilityDataStore rt') x = [] ∧ fcs_of (reachabilityDataStore rt') x = []) as Hnil.
  { intros x. rewrite Hst. unfold children_of, fcs_of. destruct (decide (x = c)) as [->|].
    - by rewrite lookup_singleton_eq.
    - by rewrite lookup_singleton_ne. }
  exists rt'. split.
  { unfold AddBlock. rewrite (bind_ret_l _ _ rt (staged rt c) ()) by done.
    rewrite (bind_ret_l _ _ _ (staged rt c) g); [by rewrite Hsel|].
    unfold ghostdagData, bind, get. cbn [staged with_store ghostdagDataStore]. by rewrite Hg. }
  split; [|split; [by rewrite Hst, dom_singleton_L|done]].
  split.
  - split.
    + intros x rd. rewrite Hst. intros [-> <-]%lookup_singleton_Some. by eexists.
    + intros x ->%Hdom. rewrite Hst. unfold iv. rewrite lookup_singleton_eq. simpl. lia.
    + rewrite Hst. apply elem_of_dom. by rewrite lookup_singleton_eq.
    + by intros x ->%Hdom.
    + intros x p. by rewrite Hparent.
    + intros p x. rewrite (proj1 (Hnil p)). by intros ?%elem_of_nil.
    + intros p. rewrite (proj1 (Hnil p)). constructor.
    + intros x p. by rewrite Hparent.
  - intros x y ->%Hdom. rewrite Hpar. by intros ?%elem_of_nil.
  - intros A _. rewrite (proj2 (Hnil A)). split; [by intros x ?%elem_of_nil|constructor].
  - intros A B ->%Hdom ->%Hdom. split; [intros _; left|intros _]; apply rtc_refl.
Qed.
