(* ===== verification/ReindexTree.v ===== *)
(** * Subtrees and their sizes

    The subtrees of a store as finite trees, [countSubtrees] as the size of one and
    [propagateInterval] as a re-indexing of one. *)
From stdpp Require Import sorting.
From S2P Require Import Prelude Interval ReachabilityData Reachability Reindex ReachabilityTree.
Import Interval Store Reachability Reindex.
Local Open Scope Z_scope.
Local Open Scope prog_scope.

Abbreviation hash := (list Z) (only parsing).

(** ** Finite trees *)
Inductive tree := Node (x : list Z) (kids : list tree).

Definition troot (t : tree) : hash := let 'Node x _ := t in x.
Definition kids (t : tree) : list tree := let 'Node _ ts := t in ts.

Fixpoint nodes (t : tree) : list hash :=
  let 'Node x ts := t in x :: concat (map nodes ts).

Definition forest (ts : list tree) : list hash := concat (map nodes ts).
Definition tsize (t : tree) : Z := zlen (nodes t).

Section TreeInd.
Context (P : tree → Prop) (HP : ∀ x ts, Forall P ts → P (Node x ts)).
Fixpoint tree_ind' (t : tree) : P t :=
  let 'Node x ts := t in
  HP x ts ((fix go ts : Forall P ts := match ts with [] => Forall_nil_2 P | t :: ts => Forall_cons_2 P t ts (tree_ind' t) (go ts) end) ts).
End TreeInd.

Lemma nodes_eq t : nodes t = troot t :: forest (kids t).
Proof. by destruct t. Qed.
Lemma forest_cons t ts : forest (t :: ts) = nodes t ++ forest ts.
Proof. done. Qed.
Lemma forest_app ts us : forest (ts ++ us) = forest ts ++ forest us.
Proof. unfold forest. by rewrite map_app, concat_app. Qed.
Lemma root_in_nodes t : troot t ∈ nodes t.
Proof. rewrite nodes_eq. by left. Qed.
Lemma elem_of_forest x ts : x ∈ forest ts ↔ ∃ t, t ∈ ts ∧ x ∈ nodes t.
Proof.
  induction ts as [|t ts IH]; [rewrite elem_of_nil; split; [done|]; by intros (? & ?%elem_of_nil & _)|].
  rewrite forest_cons, elem_of_app, IH. setoid_rewrite elem_of_cons. naive_solver.
Qed.
Lemma roots_in_forest t ts : t ∈ ts → troot t ∈ forest ts.
Proof. intros Ht. apply elem_of_forest. exists t. split; [done|apply root_in_nodes]. Qed.

Lemma tsize_eq t : tsize t = 1 + zsum (map tsize (kids t)).
Proof.
  unfold tsize at 1. rewrite nodes_eq, zlen_cons. enough (zlen (forest (kids t)) = zsum (map tsize (kids t))) by lia.
  induction (kids t) as [|u us IH]; [done|]. rewrite forest_cons, zlen_app, IH. done.
Qed.

Lemma tsize_pos t : 0 < tsize t.
Proof. unfold tsize. rewrite nodes_eq, zlen_cons. pose proof (zlen_nonneg (forest (kids t))). lia. Qed.

(** ** The trees of a store *)
Section Rep.
Context (ch : list Z → list (list Z)).

(** [rep t]: the tree lists the children of each of its nodes. *)
Fixpoint rep (t : tree) : Prop :=
  let 'Node x ts := t in
  ch x = map troot ts ∧ (fix all ts := match ts with [] => True | t :: ts => rep t ∧ all ts end) ts.

Lemma rep_eq t : rep t ↔ ch (troot t) = map troot (kids t) ∧ Forall rep (kids t).
Proof.
  destruct t as [x ts]. simpl. apply and_iff_compat_l.
  induction ts as [|t ts IH]; [split; [constructor|done]|]. rewrite Forall_cons, IH. done.
Qed.

Lemma rep_unique t : ∀ u, rep t → rep u → troot t = troot u → t = u.
Proof.
  induction t as [x ts IH] using tree_ind'. intros [y us] [Hx Ht]%rep_eq [Hy Hu]%rep_eq Heq. simpl in *. subst y.
  f_equal. rewrite Hx in Hy. clear Hx. revert us Hu Hy. induction ts as [|t ts IHts]; intros [|u us] Hu Hy; try done.
  apply Forall_cons in IH as [IHt IH], Ht as [Ht Hts], Hu as [Hu Hus]. simpl in Hy. injection Hy as E1 E2.
  f_equal; [by apply IHt|by apply IHts].
Qed.

(** The subtree at a node. *)
Lemma rep_subtree t : rep t → ∀ x, x ∈ nodes t →
  ∃ u, rep u ∧ troot u = x ∧ (∀ y, y ∈ nodes u → y ∈ nodes t) ∧ (∀ y, y ∈ forest (kids u) → y ∈ forest (kids t)) ∧
       (NoDup (nodes t) → NoDup (nodes u)).
Proof.
  induction t as [r ts IH] using tree_ind'. intros Hrep x. rewrite nodes_eq. simpl. intros [->|Hx]%elem_of_cons.
  { exists (Node r ts). rewrite nodes_eq. done. }
  apply elem_of_forest in Hx as (t & Ht & Hx). apply rep_eq in Hrep as [_ Hrep]. simpl in Hrep.
  rewrite Forall_forall in IH, Hrep. destruct (IH t Ht (Hrep t Ht) x Hx) as (u & Hu & Hr & Hsub & Hsub' & Hnd).
  assert (∀ y, y ∈ nodes u → y ∈ forest ts) as Hin by (intros y Hy; apply elem_of_forest; exists t; auto).
  exists u. split; [done|]. split; [done|]. split; [intros y Hy; right; auto|]. split.
  - intros y Hy. apply Hin. rewrite nodes_eq. by right.
  - intros [_ Hts]%NoDup_cons. apply Hnd. apply list_elem_of_split in Ht as (l1 & l2 & ->).
    rewrite forest_app, forest_cons in Hts. apply NoDup_app in Hts as (_ & _ & [? _]%NoDup_app). done.
Qed.

Lemma rep_child_forest t x y : rep t → x ∈ nodes t → y ∈ ch x → y ∈ forest (kids t).
Proof.
  intros Ht Hx Hy. destruct (rep_subtree t Ht x Hx) as (u & Hu & <- & _ & Hsub & _). apply Hsub.
  apply rep_eq in Hu as [Hc _]. rewrite Hc in Hy. apply list_elem_of_fmap in Hy as (v & -> & Hv).
  by apply roots_in_forest.
Qed.

Lemma rep_children_in t x y : rep t → x ∈ nodes t → y ∈ ch x → y ∈ nodes t.
Proof. intros Ht Hx Hy. rewrite nodes_eq. right. by apply (rep_child_forest t x). Qed.

Lemma rep_child_ne t x y : rep t → NoDup (nodes t) → x ∈ nodes t → y ∈ ch x → y ≠ troot t.
Proof.
  intros Ht Hnd Hx Hy ->. rewrite nodes_eq in Hnd. apply NoDup_cons in Hnd as [Hr _].
  by apply Hr, (rep_child_forest t x).
Qed.

Lemma rep_child_irrefl t x : rep t → NoDup (nodes t) → x ∈ nodes t → x ∉ ch x.
Proof.
  intros Ht Hnd Hx Hy. destruct (rep_subtree t Ht x Hx) as (u & Hu & Hr & _ & _ & Hndu).
  apply (rep_child_ne u x x); rewrite ?Hr; auto. rewrite <- Hr. apply root_in_nodes.
Qed.

Lemma forest_roots_nodup ts : NoDup (forest ts) → NoDup (map troot ts).
Proof.
  induction ts as [|t ts IH]; [constructor|]. rewrite forest_cons. intros (Ht & Hdis & Hts)%NoDup_app.
  simpl. apply NoDup_cons. split; [|by apply IH]. intros Hin. apply list_elem_of_fmap in Hin as (u & Hu & Hin).
  apply (Hdis (troot t)); [apply root_in_nodes|]. rewrite Hu. by apply roots_in_forest.
Qed.

Lemma rep_children_nodup t x : rep t → NoDup (nodes t) → x ∈ nodes t → NoDup (ch x).
Proof.
  intros Ht Hnd Hx. destruct (rep_subtree t Ht x Hx) as (u & Hu & <- & _ & _ & Hndu).
  apply rep_eq in Hu as [-> _]. apply forest_roots_nodup. specialize (Hndu Hnd). rewrite nodes_eq in Hndu.
  by apply NoDup_cons in Hndu as [_ ?].
Qed.

Lemma rep_parent_in t x : rep t → x ∈ nodes t → x = troot t ∨ ∃ p, p ∈ nodes t ∧ x ∈ ch p.
Proof.
  induction t as [r ts IH] using tree_ind'. intros Hrep. rewrite nodes_eq. simpl. intros [->|Hx]%elem_of_cons; [by left|].
  right. apply elem_of_forest in Hx as (t & Ht & Hx). pose proof Hrep as [Hc Hrep']%rep_eq. simpl in *.
  rewrite Forall_forall in IH, Hrep'. destruct (IH t Ht (Hrep' t Ht) Hx) as [->|(p & Hp & Hxp)].
  - exists r. split; [by left|]. rewrite Hc. apply list_elem_of_fmap. eauto.
  - exists p. split; [|done]. right. apply elem_of_forest. eauto.
Qed.
End Rep.

(** ** Counting subtrees *)
Lemma filter_grow (R : gset hash) (l : list hash) c : NoDup l → c ∉ R →
  length (filter (.∈ R ∪ {[c]}) l) = (length (filter (.∈ R) l) + if decide (c ∈ l) then 1 else 0)%nat.
Proof.
  intros Hl Hc. induction Hl as [|x l Hx Hl IH]; [done|]. rewrite !filter_cons.
  destruct (decide (x = c)) as [->|Hne].
  - rewrite decide_True by set_solver. rewrite decide_False by done. rewrite (decide_True (P := c ∈ c :: l)) by set_solver.
    simpl. rewrite IH, decide_False by done. lia.
  - destruct (decide (x ∈ R)) as [HxR|HxR].
    + rewrite decide_True by set_solver. simpl. rewrite IH. destruct (decide (c ∈ l)).
      * rewrite decide_True by set_solver. lia.
      * rewrite decide_False by set_solver. lia.
    + rewrite decide_False by set_solver. rewrite IH. destruct (decide (c ∈ l)).
      * by rewrite decide_True by set_solver.
      * by rewrite decide_False by set_solver.
Qed.

Lemma filter_full (R : gset hash) (l : list hash) : length (filter (.∈ R) l) = length l ↔ ∀ y, y ∈ l → y ∈ R.
Proof.
  induction l as [|x l IH]; [split; [by intros _ y ?%elem_of_nil|done]|]. rewrite filter_cons.
  pose proof (length_filter (.∈ R) l). case_decide as Hx; simpl.
  - rewrite Nat.succ_inj_wd, IH. set_solver.
  - split; [lia|]. intros Hall. destruct Hx. apply Hall. by left.
Qed.

Section Count.
Context (rt : reachabilityManager) (t : tree).
Abbreviation d := (reachabilityDataStore rt) (only parsing).
Abbreviation ch := (children_of d) (only parsing).
Abbreviation node := (troot t) (only parsing).
Context (Ht : rep ch t) (Hnd : NoDup (nodes t)).
Context (Hdom : ∀ x, x ∈ nodes t → x ∈ dom d).
Context (Hpar : ∀ x y, x ∈ nodes t → y ∈ ch x → parent_of d y = Some x).
Context (Hsize : Z.of_nat (size d) < 2 ^ 64).

(** Cached sizes are right, and a cached node has its subtree cached. *)
Definition sizes_ok (C : gmap hash Z) : Prop :=
  ∀ x n, C !! x = Some n → ∃ u, rep ch u ∧ troot u = x ∧ n = tsize u ∧ ∀ y, y ∈ nodes u → is_Some (C !! y).

Lemma sizes_ok_size C x n u : sizes_ok C → C !! x = Some n → rep ch u → troot u = x → n = tsize u.
Proof using Type.
  intros HC Hx Hu Hr. destruct (HC x n Hx) as (v & Hv & Hrv & -> & _). f_equal.
  apply (rep_unique ch); [done|done|by rewrite Hr].
Qed.

Lemma cache_insert C u : sizes_ok C → rep ch u → (∀ y, y ∈ forest (kids u) → is_Some (C !! y)) →
  sizes_ok (<[troot u := tsize u]> C).
Proof using Type.
  intros HC Hu Hk x n. destruct (decide (x = troot u)) as [->|Hne].
  - rewrite lookup_insert_eq. intros [= <-]. exists u. split; [done|]. split; [done|]. split; [done|].
    intros y Hy. rewrite nodes_eq in Hy. apply elem_of_cons in Hy as [->|Hy]; [rewrite lookup_insert_eq; eauto|].
    destruct (decide (y = troot u)) as [->|]; [rewrite lookup_insert_eq; eauto|]. rewrite lookup_insert_ne by done. auto.
  - rewrite lookup_insert_ne by done. intros Hx. destruct (HC x n Hx) as (v & Hv & Hr & Hn & Hall).
    exists v. split; [done|]. split; [done|]. split; [done|]. intros y Hy.
    destruct (decide (y = troot u)) as [->|]; [rewrite lookup_insert_eq; eauto|]. rewrite lookup_insert_ne by done. auto.
Qed.

Definition cnt (R : gset hash) (x : hash) : nat := length (filter (.∈ R) (ch x)).

(** The state of the search: [D] the nodes taken from the queue, [E] those among
    them whose children were put into it, [R] those whose size was pushed to their
    parent; [pend] is the node whose size is about to be pushed. *)
Record count_inv (E R D : gset hash) (Q : list hash) (C N : gmap hash Z) (pend : option hash) : Prop := {
  ci_sub : (∀ x, x ∈ D → x ∈ nodes t) ∧ E ⊆ D;
  ci_queue : NoDup Q ∧ ∀ x, x ∈ Q → x ∈ nodes t ∧ x ∉ D;
  ci_pushed x y : x ∈ E → y ∈ ch x → y ∈ D ∨ y ∈ Q;
  ci_leaf x : x ∈ D → x ∉ E → is_Some (C !! x);
  ci_from y : y ∈ D ∨ y ∈ Q → y = node ∨ ∃ p, p ∈ E ∧ y ∈ ch p;
  ci_node : node ∈ D ∨ node ∈ Q;
  ci_count x : x ∈ nodes t → default 0 (N !! x) = Z.of_nat (cnt R x);
  ci_reported y : y ∈ R → y ∈ D ∧ is_Some (C !! y);
  ci_cached x : x ∈ E → is_Some (C !! x) ↔ ∀ y, y ∈ ch x → y ∈ R;
  ci_report y : y ∈ D → is_Some (C !! y) → y ≠ node → y ∈ R ∨ pend = Some y;
  ci_ok : sizes_ok C
}.

Definition ctx (C : gmap hash Z) : reindexContext := {| rc_manager := rt; subTreeSizesCache := C |}.

Lemma manager_run {A} (m : prog reachabilityManager reachabilityError A) C a :
  m rt = (rt, Ret a) → manager m (ctx C) = (ctx C, Ret a).
Proof using Type. intros Hm. unfold manager, zoom. simpl. by rewrite Hm. Qed.

Lemma nodes_small : Z.of_nat (length (nodes t)) < 2 ^ 64.
Proof using Hnd Hdom Hsize.
  assert (list_to_set (nodes t) ⊆ dom d) as Hsub by (intros x Hx%elem_of_list_to_set; auto).
  apply subseteq_size in Hsub. rewrite size_list_to_set, size_dom in Hsub by done. lia.
Qed.

Lemma subtree_small u x : rep ch u → troot u = x → x ∈ nodes t → tsize u < 2 ^ 64.
Proof using Ht Hnd Hdom Hsize.
  intros Hu Hr Hx. destruct (rep_subtree ch t Ht x Hx) as (v & Hv & Hrv & Hsub & _ & Hndv).
  assert (u = v) as -> by (apply (rep_unique ch); [done|done|by rewrite Hr]).
  unfold tsize, zlen. pose proof nodes_small.
  assert (length (nodes v) ≤ length (nodes t))%nat; [|lia].
  apply submseteq_length, NoDup_submseteq; auto.
Qed.

Lemma part_small (R : gset hash) : (∀ x, x ∈ R → x ∈ nodes t) → (size R ≤ length (nodes t))%nat.
Proof using Hnd.
  intros HR. rewrite <- (size_list_to_set (C := gset hash) (nodes t)) by done. apply subseteq_size.
  intros x Hx. by apply elem_of_list_to_set, HR.
Qed.

Lemma children_small x : x ∈ nodes t → Z.of_nat (length (ch x)) < 2 ^ 64.
Proof using Ht Hnd Hdom Hsize.
  intros Hx. pose proof nodes_small. assert (length (ch x) ≤ length (nodes t))%nat; [|lia].
  apply submseteq_length, NoDup_submseteq; [by apply (rep_children_nodup ch t)|].
  intros y Hy. by apply (rep_children_in ch t x).
Qed.

(** Reporting the size of [cur] to its parent [p]. *)
Lemma report_inv E R D Q C N cur p :
  count_inv E R D Q C N (Some cur) → cur ∈ D → is_Some (C !! cur) → cur ∉ R → p ∈ E → cur ∈ ch p →
  cnt (R ∪ {[cur]}) p = S (cnt R p) ∧ ¬ is_Some (C !! p) ∧
  (∀ x, x ∈ E → x ≠ p → is_Some (C !! x) ↔ ∀ y, y ∈ ch x → y ∈ R ∪ {[cur]}) ∧
  ∀ N', N' = <[p := Z.of_nat (cnt (R ∪ {[cur]}) p)]> N →
    ∀ x, x ∈ nodes t → default 0 (N' !! x) = Z.of_nat (cnt (R ∪ {[cur]}) x).
Proof using All.
  intros Hi HcD HcC HcR HpE Hcp. destruct (ci_sub _ _ _ _ _ _ _ Hi) as [HD HE].
  assert (p ∈ nodes t) as Hp by auto.
  assert (∀ x, x ∈ nodes t → x ≠ p → cur ∉ ch x) as Hother.
  { intros x Hx Hne Hc. apply Hpar in Hc; [|done]. apply Hpar in Hcp; [|done]. congruence. }
  assert (∀ x, x ∈ nodes t → cnt (R ∪ {[cur]}) x = (cnt R x + if decide (cur ∈ ch x) then 1 else 0)%nat) as Hcnt.
  { intros x Hx. apply filter_grow; [by apply (rep_children_nodup ch t)|done]. }
  split; [rewrite Hcnt, decide_True by done; lia|]. split.
  { rewrite (ci_cached _ _ _ _ _ _ _ Hi p HpE). intros Hall. by apply HcR, Hall. }
  split.
  - intros x HxE Hne. rewrite (ci_cached _ _ _ _ _ _ _ Hi x HxE). split; [set_solver|]. intros Hall y Hy.
    specialize (Hall y Hy). apply elem_of_union in Hall as [| ->%elem_of_singleton]; [done|].
    destruct (Hother x (HD x (HE x HxE)) Hne Hy).
  - intros N' -> x Hx. destruct (decide (x = p)) as [->|Hne]; [by rewrite lookup_insert_eq|].
    rewrite lookup_insert_ne by done. rewrite (ci_count _ _ _ _ _ _ _ Hi x Hx), Hcnt, decide_False by auto. lia.
Qed.

Lemma sum_cached C u : sizes_ok C → rep ch u → (∀ y, y ∈ ch (troot u) → is_Some (C !! y)) → tsize u < 2 ^ 64 →
  GoInt.uint64 (fold_left (λ sum child, GoInt.uint64 (sum + cachedSize child (ctx C))) (ch (troot u)) 0 + 1) = tsize u ∧
  ∀ y, y ∈ forest (kids u) → is_Some (C !! y).
Proof using Type.
  intros HC Hu Hk Hlt. apply rep_eq in Hu as [Hc Hks]. rewrite Hc in *. rewrite tsize_eq in Hlt |- *. clear Hc.
  assert (map (λ child, cachedSize child (ctx C)) (map troot (kids u)) = map tsize (kids u) ∧
          ∀ y, y ∈ forest (kids u) → is_Some (C !! y)) as [Hmap Hin].
  { clear Hlt. induction (kids u) as [|v vs IH]; [by split; [|intros y ?%elem_of_nil]|].
    apply Forall_cons in Hks as [Hv Hvs]. destruct (IH Hvs) as [IHm IHin]; [intros y Hy; apply Hk; by right|].
    destruct (Hk (troot v)) as [n Hn]; [by left|]. destruct (HC _ _ Hn) as (v' & Hv' & Hr & -> & Hall).
    assert (v' = v) as -> by (by apply (rep_unique ch)). split.
    - simpl. f_equal; [|done]. unfold cachedSize. simpl. by rewrite Hn.
    - intros y. rewrite forest_cons. intros [|]%elem_of_app; auto. }
  split; [|done].
  assert (Forall (λ x, 0 ≤ x) (map tsize (kids u))) as Hpos.
  { apply Forall_forall. intros n Hn. apply list_elem_of_fmap in Hn as (v & -> & _). pose proof (tsize_pos v). lia. }
  pose proof (zsum_nonneg _ Hpos).
  pose proof (sumSizes_exact (map tsize (kids u)) Hpos ltac:(lia)) as Hsum.
  assert (∀ l acc, fold_left (λ sum child, GoInt.uint64 (sum + cachedSize child (ctx C))) l acc
    = fold_left (λ sum size, GoInt.uint64 (sum + size)) (map (λ child, cachedSize child (ctx C)) l) acc) as ->.
  { intros l. induction l as [|x l IHl]; intros acc; [done|]. simpl. apply IHl. }
  rewrite Hmap. unfold sumSizes in Hsum. rewrite Hsum, GoInt.uint64_id by lia. lia.
Qed.

Lemma pushUpLoop_run E D Q : ∀ fuel R C N cur,
  count_inv E R D Q C N (Some cur) → cur ∈ D → is_Some (C !! cur) → cur ∉ R →
  (length (nodes t) - size R < fuel)%nat →
  ∃ R' C' N', pushUpLoop fuel node cur N (ctx C) = (ctx C', Ret N') ∧ C ⊆ C' ∧ count_inv E R' D Q C' N' None.
Proof using All.
  induction fuel as [|fuel IH]; intros R C N cur Hi HcD HcC HcR Hf; [lia|]. cbn [pushUpLoop].
  destruct (ci_sub _ _ _ _ _ _ _ Hi) as [HD HE]. case_bool_decide as Hroot.
  { exists R, C, N. split; [done|]. split; [done|]. destruct Hi. split; try done.
    intros y Hy HyC Hne. destruct (ci_report0 y Hy HyC Hne) as [|[= ->]]; [by left|done]. }
  destruct (ci_from _ _ _ _ _ _ _ Hi cur (or_introl HcD)) as [|(p & HpE & Hcp)]; [done|].
  assert (p ∈ nodes t) as Hp by auto.
  rewrite (bind_ret_l _ _ _ _ _ (manager_run _ C _ (parent_run rt cur (Hdom cur (HD cur HcD))))).
  rewrite (Hpar p cur Hp Hcp).
  destruct (report_inv E R D Q C N cur p Hi HcD HcC HcR HpE Hcp) as (HS & HpC & Hcached & Hcount).
  rewrite (ci_count _ _ _ _ _ _ _ Hi p Hp).
  assert (cnt (R ∪ {[cur]}) p ≤ length (ch p))%nat as Hle by apply length_filter.
  pose proof (children_small p Hp).
  rewrite GoInt.uint64_id by lia. replace (Z.of_nat (cnt R p) + 1) with (Z.of_nat (cnt (R ∪ {[cur]}) p)) by lia.
  set (N' := <[p := _]> N). specialize (Hcount N' eq_refl). set (R' := R ∪ {[cur]}) in *.
  rewrite (bind_ret_l _ _ _ _ _ (manager_run _ C _ (children_run rt p (Hdom p Hp)))).
  unfold zlen. rewrite GoInt.uint64_id by lia.
  assert (∀ y, y ∈ R' → y ∈ D ∧ is_Some (C !! y)) as Hrep'.
  { intros y [Hy| ->%elem_of_singleton]%elem_of_union; [by apply (ci_reported _ _ _ _ _ _ _ Hi)|done]. }
  pose proof (filter_full R' (ch p)) as Hfull. fold (cnt R' p) in Hfull.
  destruct (Z.eqb_spec (Z.of_nat (cnt R' p)) (Z.of_nat (length (ch p)))) as [Heq|Hneq]; cbn [negb].
  - (* all children of p have reported *)
    assert (∀ y, y ∈ ch p → y ∈ R') as Hall by (apply Hfull; lia).
    rewrite (bind_ret_l _ _ _ _ _ (eq_refl : get (ctx C) = (ctx C, Ret (ctx C)))).
    destruct (rep_subtree ch t Ht p Hp) as (u & Hu & Hr & Hsub & _). rewrite <- Hr in *.
    pose proof (subtree_small u (troot u) Hu eq_refl Hp) as Hsmall.
    destruct (sum_cached C u (ci_ok _ _ _ _ _ _ _ Hi) Hu) as [Hsum Hkids]; [intros y Hy; by apply Hrep', Hall|done|].
    unfold cacheSize. rewrite (bind_ret_l _ _ _ (ctx (<[troot u := tsize u]> C)) ()) by (unfold modify; simpl; by rewrite Hsum).
    assert (C ⊆ <[troot u := tsize u]> C) as Hinc.
    { apply insert_subseteq. apply eq_None_not_Some. done. }
    assert (∀ y, is_Some (C !! y) → is_Some (<[troot u := tsize u]> C !! y)) as Hgrow.
    { intros y [n Hn]. exists n. by apply (lookup_weaken _ _ _ _ Hn). }
    destruct (IH R' (<[troot u := tsize u]> C) N' (troot u)) as (R2 & C2 & N2 & Hrun & HC2 & Hi2).
    + destruct Hi. split; try done.
      * intros x Hx HxE. by apply Hgrow, ci_leaf0.
      * intros y Hy. destruct (Hrep' y Hy). auto.
      * intros x HxE. destruct (decide (x = troot u)) as [->|Hne]; [rewrite lookup_insert_eq; split; eauto|].
        rewrite lookup_insert_ne by done. by apply Hcached.
      * intros y Hy. destruct (decide (y = troot u)) as [->|Hne]; [by right|]. rewrite lookup_insert_ne by done.
        intros HyC Hyn. left. destruct (ci_report0 y Hy HyC Hyn) as [|[= ->]]; unfold R'; set_solver.
      * by apply cache_insert.
    + auto.
    + rewrite lookup_insert_eq. eauto.
    + intros Hin. by apply HpC, Hrep'.
    + assert (size R' ≤ length (nodes t))%nat by (apply part_small; intros y Hy; by apply HD, Hrep').
      assert (size R' = S (size R)) as E' by (unfold R'; rewrite size_union by set_solver; rewrite size_singleton; lia).
      lia.
    + exists R2, C2, N2. split; [done|]. split; [by etrans|done].
  - exists R', C, N'. split; [done|]. split; [done|]. destruct Hi. split; try done.
    + intros x HxE. destruct (decide (x = p)) as [->|Hne]; [|by apply Hcached]. split; [done|].
      intros Hall. apply Hfull in Hall. lia.
    + intros y Hy HyC Hyn. left. destruct (ci_report0 y Hy HyC Hyn) as [|[= ->]]; unfold R'; set_solver.
Qed.

(** When the queue is empty, every node that was taken from it is cached. *)
Lemma drained E R D C N : count_inv E R D [] C N None → is_Some (C !! node).
Proof using All.
  intros Hi. destruct (ci_sub _ _ _ _ _ _ _ Hi) as [HD HE].
  assert (∀ u, rep ch u → (∀ y, y ∈ nodes u → y ∈ nodes t) → troot u ∈ D → is_Some (C !! troot u)) as Hgen.
  { intros u. induction u as [x us IH] using tree_ind'. intros Hu Hsub HxD. cbn [troot] in *.
    destruct (decide (x ∈ E)) as [HxE|HxE]; [|by apply (ci_leaf _ _ _ _ _ _ _ Hi)].
    apply (ci_cached _ _ _ _ _ _ _ Hi x HxE). intros y Hy.
    assert (x ∈ nodes t) as Hx by (apply Hsub, (root_in_nodes (Node x us))).
    assert (y ∈ D) as HyD by (destruct (ci_pushed _ _ _ _ _ _ _ Hi x y HxE Hy) as [|?%elem_of_nil]; done).
    assert (is_Some (C !! y)) as HyC.
    { apply (rep_eq ch) in Hu as [Hc Hus]. simpl in Hc, Hus. rewrite Hc in Hy.
      apply list_elem_of_fmap in Hy as (v & -> & Hv). rewrite Forall_forall in IH, Hus.
      apply IH; auto. intros z Hz. apply Hsub. rewrite nodes_eq. right. apply elem_of_forest. eauto. }
    destruct (ci_report _ _ _ _ _ _ _ Hi y HyD HyC) as [|?]; [by apply (rep_child_ne ch t x)|done|done]. }
  apply Hgen; [done|done|]. destruct (ci_node _ _ _ _ _ _ _ Hi) as [|?%elem_of_nil]; done.
Qed.

Lemma nodes_fuel : (length (nodes t) < walkFuel rt)%nat.
Proof using Hnd Hdom.
  unfold walkFuel. assert (list_to_set (nodes t) ⊆ dom d) as Hsub by (intros x Hx%elem_of_list_to_set; auto).
  apply subseteq_size in Hsub. rewrite size_list_to_set, size_dom in Hsub by done. lia.
Qed.

(** Taking a cached node from the queue. *)
Lemma dequeue_cached E R D Q C C' N cur : count_inv E R D (cur :: Q) C N None → C ⊆ C' → sizes_ok C' →
  (∀ x, x ≠ cur → is_Some (C' !! x) → is_Some (C !! x)) → is_Some (C' !! cur) →
  count_inv E R (D ∪ {[cur]}) Q C' N (Some cur) ∧ cur ∉ R.
Proof using All.
  intros Hi HC Hok Hsame Hcur. destruct (ci_sub _ _ _ _ _ _ _ Hi) as [HD HE].
  destruct (ci_queue _ _ _ _ _ _ _ Hi) as [[Hnew HQ]%NoDup_cons Hin].
  destruct (Hin cur) as [Hc HcD]; [by left|].
  assert (∀ y, is_Some (C !! y) → is_Some (C' !! y)) as Hgrow.
  { intros y [n Hn]. exists n. by apply (lookup_weaken _ _ _ _ Hn). }
  assert (cur ∉ R) as HcR by (intros Hr; by apply HcD, (ci_reported _ _ _ _ _ _ _ Hi)).
  split; [|done]. destruct Hi. split; try done.
  - split; [|set_solver]. intros x [| ->%elem_of_singleton]%elem_of_union; auto.
  - split; [done|]. intros x Hx. destruct (Hin x) as [? ?]; [by right|]. set_solver.
  - intros x y Hx Hy. destruct (ci_pushed0 x y Hx Hy) as [|[->|]%elem_of_cons]; set_solver.
  - intros x Hx HxE. apply elem_of_union in Hx as [Hx| ->%elem_of_singleton]; [|done]. by apply Hgrow, ci_leaf0.
  - intros y Hy. apply ci_from0. set_solver.
  - set_solver.
  - intros y Hy. destruct (ci_reported0 y Hy). split; [set_solver|auto].
  - intros x HxE. rewrite <- (ci_cached0 x HxE). split; [|auto]. apply Hsame. intros ->. by apply HcD, HE.
  - intros y Hy HyC Hyn. apply elem_of_union in Hy as [Hy| ->%elem_of_singleton]; [|by right].
    assert (y ≠ cur) as Hne by (by intros ->).
    destruct (ci_report0 y Hy (Hsame y Hne HyC) Hyn); [by left|done].
Qed.

(** Taking a node from the queue whose size is not known: its children follow. *)
Lemma dequeue_expand E R D Q C N cur : count_inv E R D (cur :: Q) C N None → ch cur ≠ [] → C !! cur = None →
  count_inv (E ∪ {[cur]}) R (D ∪ {[cur]}) (Q ++ ch cur) C N None.
Proof using All.
  intros Hi Hne HcC. destruct (ci_sub _ _ _ _ _ _ _ Hi) as [HD HE].
  destruct (ci_queue _ _ _ _ _ _ _ Hi) as [[Hnew HQ]%NoDup_cons Hin].
  destruct (Hin cur) as [Hc HcD]; [by left|].
  assert (∀ y, y ∈ ch cur → y ∉ D ∧ y ∉ Q ∧ y ≠ cur) as Hfresh.
  { intros y Hy. assert (y ≠ node) by (by apply (rep_child_ne ch t cur)).
    assert (¬ (y ∈ D ∨ y ∈ cur :: Q)) as Hno.
    { intros Hin'. destruct (ci_from _ _ _ _ _ _ _ Hi y Hin') as [|(p & HpE & Hyp)]; [done|].
      apply Hpar in Hyp; [|by apply HD, HE]. apply Hpar in Hy; [|done]. assert (p = cur) by congruence. subst p.
      by apply HcD, HE. }
    rewrite elem_of_cons in Hno. tauto. }
  destruct Hi. split; try done.
  - split; [|set_solver]. intros x [| ->%elem_of_singleton]%elem_of_union; auto.
  - split.
    + apply NoDup_app. split; [done|]. split; [|by apply (rep_children_nodup ch t)].
      intros x Hx Hx'. by destruct (Hfresh x Hx') as (_ & ? & _).
    + intros x [Hx|Hx]%elem_of_app.
      * destruct (Hin x) as [? ?]; [by right|]. split; [done|]. intros [| ->%elem_of_singleton]%elem_of_union; done.
      * split; [by apply (rep_children_in ch t cur)|]. destruct (Hfresh x Hx) as (? & ? & ?). set_solver.
  - intros x y [Hx| ->%elem_of_singleton]%elem_of_union Hy; [|set_solver].
    destruct (ci_pushed0 x y Hx Hy) as [|[->|]%elem_of_cons]; set_solver.
  - intros x Hx HxE. apply ci_leaf0; set_solver.
  - intros y [Hy|Hy].
    + destruct (ci_from0 y) as [|(p & Hp & Hyp)]; [set_solver|by left|]. right. exists p. set_solver.
    + apply elem_of_app in Hy as [Hy|Hy]; [|right; exists cur; set_solver].
      destruct (ci_from0 y) as [|(p & Hp & Hyp)]; [set_solver|by left|]. right. exists p. set_solver.
  - set_solver.
  - intros y Hy. destruct (ci_reported0 y Hy). split; [set_solver|done].
  - intros x [Hx| ->%elem_of_singleton]%elem_of_union; [by apply ci_cached0|]. rewrite HcC. split; [by intros []|].
    intros Hall. destruct (ch cur) as [|y l] eqn:El; [done|]. specialize (Hall y ltac:(by left)).
    apply ci_reported0 in Hall as [HyD _]. destruct (Hfresh y) as [? _]; [by left|done].
  - intros y [Hy| ->%elem_of_singleton]%elem_of_union HyC Hyn; [by apply ci_report0|]. rewrite HcC in HyC. by destruct HyC.
Qed.

Lemma countLoop_run : ∀ fuel E R D Q C N, count_inv E R D Q C N None → (length (nodes t) - size D < fuel)%nat →
  ∃ C', countLoop fuel node Q N (ctx C) = (ctx C', Ret ()) ∧ C ⊆ C' ∧ sizes_ok C' ∧ is_Some (C' !! node).
Proof using All.
  induction fuel as [|fuel IH]; intros E R D Q C N Hi Hf; [lia|]. cbn [countLoop].
  destruct Q as [|cur Q].
  { exists C. split; [done|]. split; [done|]. split; [apply Hi|by apply (drained E R D C N)]. }
  destruct (ci_sub _ _ _ _ _ _ _ Hi) as [HD HE]. destruct (ci_queue _ _ _ _ _ _ _ Hi) as [_ Hin].
  destruct (Hin cur) as [Hc HcD]; [by left|].
  assert (size (D ∪ {[cur]}) = S (size D)) as HsD by (rewrite size_union by set_solver; rewrite size_singleton; lia).
  assert (size (D ∪ {[cur]}) ≤ length (nodes t))%nat.
  { apply part_small. intros x [| ->%elem_of_singleton]%elem_of_union; auto. }
  rewrite (bind_ret_l _ _ _ _ _ (manager_run _ C _ (children_run rt cur (Hdom cur Hc)))).
  rewrite (bind_ret_l _ _ _ _ _ (eq_refl : get (ctx C) = (ctx C, Ret (ctx C)))).
  cbn [rc_manager ctx subTreeSizesCache].
  assert (∀ C', count_inv E R (D ∪ {[cur]}) Q C' N (Some cur) → is_Some (C' !! cur) → cur ∉ R →
    ∃ C2, bind (pushUpLoop (walkFuel rt) node cur N) (λ N, countLoop fuel node Q N) (ctx C') = (ctx C2, Ret ()) ∧
          C' ⊆ C2 ∧ sizes_ok C2 ∧ is_Some (C2 !! node)) as Hpush.
  { intros C' Hi' HcC HcR. pose proof nodes_fuel.
    destruct (pushUpLoop_run E (D ∪ {[cur]}) Q (walkFuel rt) R C' N cur Hi') as (R' & C1 & N' & Hrun & HC1 & Hi1);
      [set_solver|done|done|lia|].
    rewrite (bind_ret_l _ _ _ _ _ Hrun).
    destruct (IH E R' (D ∪ {[cur]}) Q C1 N' Hi1) as (C2 & Hrun2 & HC2 & ?); [lia|].
    exists C2. split; [done|]. split; [by etrans|done]. }
  destruct (ch cur) as [|y l] eqn:El.
  - destruct (rep_subtree ch t Ht cur Hc) as (u & Hu & Hr & _). pose proof Hu as [Hk _]%rep_eq.
    rewrite Hr, El in Hk. destruct (kids u) as [|] eqn:Ek; [|done].
    assert (tsize u = 1) as Hs1 by (rewrite tsize_eq, Ek; done).
    assert (sizes_ok (<[cur := 1]> C)) as Hok'.
    { rewrite <- Hr, <- Hs1. apply cache_insert; [apply Hi|done|]. rewrite Ek. by intros z ?%elem_of_nil. }
    assert (C ⊆ <[cur := 1]> C) as HCC.
    { destruct (C !! cur) as [n|] eqn:Ec; [|by apply insert_subseteq].
      rewrite (sizes_ok_size C cur n u (ci_ok _ _ _ _ _ _ _ Hi) Ec Hu Hr), Hs1 in Ec. by rewrite insert_id. }
    destruct (dequeue_cached E R D Q C (<[cur := 1]> C) N cur Hi HCC Hok') as [Hi' HcR].
    { intros x Hx. by rewrite lookup_insert_ne. }
    { rewrite lookup_insert_eq. eauto. }
    unfold cacheSize. rewrite (bind_ret_l _ _ _ (ctx (<[cur := 1]> C)) ()) by done.
    destruct (Hpush _ Hi') as (C2 & Hrun & HC2 & ?); [rewrite lookup_insert_eq; eauto|done|].
    exists C2. split; [done|]. split; [by etrans|done].
  - destruct (C !! cur) as [n|] eqn:Ec.
    + destruct (dequeue_cached E R D Q C C N cur Hi) as [Hi' HcR]; [done|apply Hi|done|eauto|]. by apply Hpush; [|eauto|].
    + rewrite <- El. apply (IH (E ∪ {[cur]}) R (D ∪ {[cur]})); [|lia].
      apply dequeue_expand; [done|by rewrite El|done].
Qed.

Lemma countSubtrees_run C : sizes_ok C →
  ∃ C', countSubtrees node (ctx C) = (ctx C', Ret ()) ∧ C ⊆ C' ∧ sizes_ok C' ∧ C' !! node = Some (tsize t) ∧
        ∀ x, x ∈ nodes t → is_Some (C' !! x).
Proof using All.
  intros HC.
  assert (∃ C', countSubtrees node (ctx C) = (ctx C', Ret ()) ∧ C ⊆ C' ∧ sizes_ok C' ∧ is_Some (C' !! node))
    as (C' & Hrun & HCC & Hok & n & Hn).
  { unfold countSubtrees. rewrite (bind_ret_l _ _ _ _ _ (eq_refl : get (ctx C) = (ctx C, Ret (ctx C)))).
    cbn [subTreeSizesCache ctx rc_manager]. destruct (C !! node) as [n|] eqn:Ec; [by eauto 6|].
    apply (countLoop_run (walkFuel rt) ∅ ∅ ∅ [node] C ∅).
    - pose proof (root_in_nodes t) as Hroot. split; try set_solver.
      + split; [apply NoDup_singleton|]. set_solver.
      + intros x Hx. rewrite lookup_empty. simpl. unfold cnt. symmetry. apply (f_equal Z.of_nat (y := 0%nat)).
        induction (ch x) as [|y l IH]; [done|]. rewrite filter_cons, decide_False by set_solver. done.
    - rewrite size_empty. pose proof nodes_fuel. lia. }
  exists C'. split; [done|]. split; [done|]. split; [done|].
  destruct (Hok node n Hn) as (u & Hu & Hr & -> & Hall).
  assert (u = t) as -> by (by apply (rep_unique ch)). auto.
Qed.
End Count.
