(* ===== verification/ReindexPropagate.v ===== *)
(** * Propagating an interval through a subtree

    [propagateInterval] gives every node below its argument a new interval: the
    subtree is correctly indexed afterwards, and nothing else has changed. *)
From stdpp Require Import sorting.
From S2P Require Import Prelude Interval ReachabilityData Reachability Reindex ReachabilityTree ReachabilityAdd ReindexTree.
Import Interval Store Reachability Reindex.
Local Open Scope Z_scope.
Local Open Scope prog_scope.

Abbreviation hash := (list Z) (only parsing).

(** ** Stores that differ in the intervals only *)
Record same_shape (d d' : gmap (list Z) reachabilityData) : Prop := {
  ss_dom : dom d' = dom d;
  ss_parent x : parent_of d' x = parent_of d x;
  ss_children x : children_of d' x = children_of d x;
  ss_fcs x : fcs_of d' x = fcs_of d x
}.

Definition has_intervals (d : gmap (list Z) reachabilityData) : Prop :=
  ∀ x rd, d !! x = Some rd → is_Some (rd_interval rd).

#[export] Instance same_shape_equivalence : Equivalence same_shape.
Proof.
  split.
  - by intros d.
  - intros d d' [E1 E2 E3 E4]. by split.
  - intros d1 d2 d3 [E1 E2 E3 E4] [F1 F2 F3 F4]. split; congruence.
Qed.

Lemma same_shape_anc d d' a b : same_shape d d' → tree_anc d' a b ↔ tree_anc d a b.
Proof.
  intros Hs. split; induction 1 as [|x y z Hxy _ IH]; [apply rtc_refl| |apply rtc_refl|].
  - apply (rtc_l _ _ y); [by rewrite <- (ss_parent _ _ Hs)|done].
  - apply (rtc_l _ _ y); [by rewrite (ss_parent _ _ Hs)|done].
Qed.

Lemma has_interval_lookup d x : has_intervals d → x ∈ dom d → ∃ rd, d !! x = Some rd ∧ rd_interval rd = Some (iv d x).
Proof.
  intros Hi [rd Hrd]%elem_of_dom. destruct (Hi x rd Hrd) as [i Ei]. exists rd. split; [done|].
  unfold iv. rewrite Hrd. simpl. by rewrite Ei.
Qed.

Definition set_iv (x : hash) (i : ReachabilityInterval) (d : gmap (list Z) reachabilityData)
    : gmap (list Z) reachabilityData := alter (λ rd, SetInterval rd i) x d.

Lemma set_iv_shape x i d : same_shape d (set_iv x i d).
Proof.
  unfold set_iv. split; [apply dom_alter_L|..]; intros y; unfold parent_of, children_of, fcs_of.
  all: destruct (decide (y = x)) as [->|]; [rewrite lookup_alter_eq; by destruct (d !! x)|by rewrite lookup_alter_ne].
Qed.

Lemma set_iv_intervals x i d : has_intervals d → has_intervals (set_iv x i d).
Proof.
  intros Hi y rd. unfold set_iv. destruct (decide (y = x)) as [->|]; [|rewrite lookup_alter_ne by done; apply Hi].
  rewrite lookup_alter_eq. destruct (d !! x); [|done]. intros [= <-]. by eexists.
Qed.

Lemma set_iv_eq x i d : x ∈ dom d → iv (set_iv x i d) x = i.
Proof. intros [rd Hrd]%elem_of_dom. unfold iv, set_iv. by rewrite lookup_alter_eq, Hrd. Qed.

Lemma set_iv_ne x i d y : y ≠ x → iv (set_iv x i d) y = iv d y.
Proof. intros Hne. unfold iv, set_iv. by rewrite lookup_alter_ne. Qed.

Lemma set_store_twice d1 d2 rt : set_store d2 (set_store d1 rt) = set_store d2 rt.
Proof. done. Qed.

Section Runs.
Context (rt : reachabilityManager).
Abbreviation d := (reachabilityDataStore rt) (only parsing).
Context (Hi : has_intervals d).

Lemma stageInterval_run x i : x ∈ dom d → stageInterval x i rt = (set_store (set_iv x i d) rt, Ret ()).
Proof using Hi.
  intros Hx. destruct (has_interval_lookup d x Hi Hx) as (rd & Hrd & Ei). unfold stageInterval.
  rewrite (bind_ret_l _ _ _ _ _ (forInsertion_lookup rt x rd _ Hrd Ei)).
  unfold stageData, StageReachabilityData, modify, set_store, with_store. simpl. do 2 f_equal.
  apply map_eq. intros y. unfold set_iv. destruct (decide (y = x)) as [->|Hne].
  - by rewrite lookup_insert_eq, lookup_alter_eq, Hrd.
  - by rewrite lookup_insert_ne, lookup_alter_ne.
Qed.

Lemma interval_run' x : x ∈ dom d → interval x rt = (rt, Ret (Some (iv d x))).
Proof using Hi.
  intros Hx. destruct (has_interval_lookup d x Hi Hx) as (rd & Hrd & Ei).
  unfold interval, ReachabilityData, bind, get. rewrite Hrd. simpl. by rewrite Ei.
Qed.
End Runs.

Lemma stageIntervals_run xs : ∀ ivs rt, has_intervals (reachabilityDataStore rt) → NoDup xs →
  length ivs = length xs → (∀ x, x ∈ xs → x ∈ dom (reachabilityDataStore rt)) →
  ∃ d', stageIntervals xs ivs rt = (set_store d' rt, Ret ()) ∧ same_shape (reachabilityDataStore rt) d' ∧
        has_intervals d' ∧ (∀ y, y ∉ xs → iv d' y = iv (reachabilityDataStore rt) y) ∧
        Forall2 (λ x i, iv d' x = i) xs ivs.
Proof.
  induction xs as [|x xs IH]; intros [|i ivs] rt Hi Hnd Hlen Hdom; try done.
  { exists (reachabilityDataStore rt). split; [by destruct rt|]. done. }
  apply NoDup_cons in Hnd as [Hx Hnd]. injection Hlen as Hlen. cbn [stageIntervals].
  assert (x ∈ dom (reachabilityDataStore rt)) as Hxd by (apply Hdom; by left).
  rewrite (bind_ret_l _ _ _ _ _ (stageInterval_run rt Hi x i Hxd)).
  set (d1 := set_iv x i _). pose proof (set_iv_shape x i (reachabilityDataStore rt)) as Hs1. fold d1 in Hs1.
  destruct (IH ivs (set_store d1 rt)) as (d' & Hrun & Hs & Hi' & Hout & Hf); simpl; [by apply set_iv_intervals|done|done| |].
  { intros y Hy. rewrite (ss_dom _ _ Hs1). apply Hdom. by right. }
  exists d'. rewrite Hrun, set_store_twice. split; [done|]. simpl in Hs, Hout. split; [by etrans|]. split; [done|]. split.
  - intros y [Hy1 Hy2]%not_elem_of_cons. rewrite Hout by done. by apply set_iv_ne.
  - constructor; [|done]. rewrite Hout by done. by apply set_iv_eq.
Qed.

(** Consecutive intervals of positive sizes are ordered and fill their range. *)
Lemma tiles_sorted d xs : ∀ s parts ivs, tiles s parts ivs → Forall2 (λ x i, iv d x = i) xs ivs → Forall (λ n, 0 < n) parts →
  StronglySorted (left_of d) xs ∧
  Forall (λ x, s ≤ Start (iv d x) ∧ Start (iv d x) ≤ End (iv d x) ∧ End (iv d x) ≤ s + zsum parts - 1) xs ∧
  Forall2 (λ x n, End (iv d x) - Start (iv d x) + 1 = n) xs parts.
Proof.
  induction xs as [|x xs IH]; intros s [|n parts] [|i ivs] Ht Hf Hpos; simpl in Ht; try done; try by inversion Hf.
  { split; [constructor|]. split; constructor. }
  destruct Ht as (Hs & He & Ht). inversion Hf as [|? ? ? ? Ex Hf']; subst. inversion Hpos as [|? ? Hn Hpos']; subst.
  destruct (IH _ _ _ Ht Hf' Hpos') as (Hsort & Hin & Hsz).
  assert (0 ≤ zsum parts) by (apply zsum_nonneg; eapply Forall_impl; [done|]; simpl; lia).
  rewrite zsum_cons. split; [|split].
  - constructor; [done|]. eapply Forall_impl; [exact Hin|]. simpl. unfold left_of. lia.
  - constructor; [lia|]. eapply Forall_impl; [exact Hin|]. simpl. lia.
  - constructor; [lia|done].
Qed.

Lemma tiles_length s parts ivs : tiles s parts ivs → length ivs = length parts.
Proof. revert s ivs. induction parts; intros s [|i ivs] Ht; simpl in *; try done. f_equal. by eapply IHparts, Ht. Qed.

(** ** The propagation loop *)
Lemma Forall2_map_l {A B D} (R : B → D → Prop) (f : A → B) l k : Forall2 R (map f l) k → Forall2 (λ x y, R (f x) y) l k.
Proof. revert k. induction l; intros k Hk; inversion Hk; constructor; auto. Qed.

(** A node and its children are indexed as [tree_ok] asks. *)
Definition local_ok (d : gmap (list Z) reachabilityData) (x : hash) : Prop :=
  (0 < Start (iv d x) ∧ Start (iv d x) ≤ End (iv d x) ∧ End (iv d x) < 2 ^ 64 - 1) ∧
  StronglySorted (left_of d) (children_of d x) ∧
  ∀ y, y ∈ children_of d x → Start (iv d x) ≤ Start (iv d y) ∧ End (iv d y) < End (iv d x).

(** The interval of the root has room for the subtree. *)
Definition fits (d : gmap (list Z) reachabilityData) (t : tree) : Prop :=
  0 < Start (iv d (troot t)) ∧ End (iv d (troot t)) < 2 ^ 64 - 1 ∧
  tsize t ≤ End (iv d (troot t)) - Start (iv d (troot t)) + 1.

Lemma local_ok_ext d d' x : children_of d' x = children_of d x → iv d' x = iv d x →
  (∀ y, y ∈ children_of d x → iv d' y = iv d y) → local_ok d x → local_ok d' x.
Proof.
  intros Hc Hx Hy (Hr & Hs & Hin). unfold local_ok. rewrite Hc, Hx. split; [done|]. split.
  - clear Hin Hc. induction Hs as [|z l Hs IH Hz]; constructor; [apply IH; intros; apply Hy; by right|].
    rewrite Forall_forall in *. intros w Hw. unfold left_of. rewrite !Hy by set_solver. by apply Hz.
  - intros y Hyc. rewrite Hy by done. by apply Hin.
Qed.

Section Propagate.
Context `{FloatConversionOk} (ch : list Z → list (list Z)) (C : gmap (list Z) Z).

(** The state of the propagation: the trees whose roots are in the queue. *)
Record queue_ok (rt : reachabilityManager) (ts : list tree) : Prop := {
  qo_rep : Forall (rep ch) ts;
  qo_children x : children_of (reachabilityDataStore rt) x = ch x;
  qo_intervals : has_intervals (reachabilityDataStore rt);
  qo_nodup : NoDup (forest ts);
  qo_dom x : x ∈ forest ts → x ∈ dom (reachabilityDataStore rt);
  qo_cached u : rep ch u → troot u ∈ forest ts → C !! troot u = Some (tsize u);
  qo_fits : Forall (fits (reachabilityDataStore rt)) ts
}.

Lemma split_range rt t ts : queue_ok rt (t :: ts) → kids t ≠ [] →
  ∃ ri parts ivs, intervalRangeForChildAllocation (troot t) rt = (rt, Ret ri) ∧
    intervalSplitWithExponentialBias ri (map tsize (kids t)) = Ret ivs ∧
    Forall2 Z.le (map tsize (kids t)) parts ∧ tiles (Start (iv (reachabilityDataStore rt) (troot t))) parts ivs ∧
    Start (iv (reachabilityDataStore rt) (troot t)) + zsum parts = End (iv (reachabilityDataStore rt) (troot t)).
Proof using All.
  intros Hq Hk. destruct (Forall_cons_1 _ _ _ (qo_fits rt _ Hq)) as [(Hs & He & Hz) _].
  set (d := reachabilityDataStore rt) in *. set (x := troot t) in *.
  assert (x ∈ dom d) as Hx by (apply (qo_dom rt _ Hq); rewrite forest_cons, nodes_eq; by left).
  assert (Forall (λ n, 0 ≤ n) (map tsize (kids t))) as Hpos.
  { apply Forall_forall. intros n Hn. apply list_elem_of_fmap in Hn as (v & -> & _). pose proof (tsize_pos v). lia. }
  rewrite tsize_eq in Hz.
  assert (0 < zsum (map tsize (kids t))) as Hz0.
  { destruct (kids t) as [|v vs]; [done|]. simpl in Hpos |- *. apply Forall_cons in Hpos as [_ Hpos].
    pose proof (tsize_pos v). pose proof (zsum_nonneg _ Hpos). unfold zsum in *. lia. }
  set (ri := {| Start := Start (iv d x); End := End (iv d x) - 1 |}).
  assert (interval_ok ri) as Hri by (unfold interval_ok, ri; simpl; lia).
  destruct (exponentialBias_spec ri (map tsize (kids t))) as (parts & ivs & Hsplit & Hle & Hsum & Ht);
    [done|by destruct (kids t)|done|rewrite intervalSize_ok by done; simpl; lia|].
  rewrite intervalSize_ok in Hsum by done. simpl in Hsum.
  exists ri, parts, ivs. split.
  { unfold intervalRangeForChildAllocation.
    rewrite (bind_ret_l _ _ _ _ _ (interval_run' rt (qo_intervals rt _ Hq) x Hx)), (bind_ret_l _ _ _ _ _ (deref_run _ _)).
    unfold newReachabilityInterval. rewrite GoInt.uint64_id by (fold d; lia). done. }
  split; [done|]. split; [done|]. split; [done|]. lia.
Qed.

Lemma cached_sizes rt t ts : queue_ok rt (t :: ts) →
  map (λ child, cachedSize child (ctx rt C)) (map troot (kids t)) = map tsize (kids t).
Proof using Type.
  intros Hq. destruct (Forall_cons_1 _ _ _ (qo_rep rt _ Hq)) as [[_ Hr]%rep_eq _].
  rewrite map_map. apply map_ext_in. intros u Hu. apply list_elem_of_In in Hu. rewrite Forall_forall in Hr.
  unfold cachedSize. simpl. rewrite (qo_cached rt _ Hq u); [done|by apply Hr|].
  rewrite forest_cons, nodes_eq, <- app_comm_cons. right. apply elem_of_app. left. by apply roots_in_forest.
Qed.

(** Indexing the children of the first tree of the queue and queueing them. *)
Lemma queue_step rt t ts : queue_ok rt (t :: ts) → kids t ≠ [] →
  ∃ ri ivs d1, intervalRangeForChildAllocation (troot t) rt = (rt, Ret ri) ∧
    intervalSplitWithExponentialBias ri (map tsize (kids t)) = Ret ivs ∧
    stageIntervals (map troot (kids t)) ivs rt = (set_store d1 rt, Ret ()) ∧
    queue_ok (set_store d1 rt) (ts ++ kids t) ∧ same_shape (reachabilityDataStore rt) d1 ∧
    (∀ y, y ∉ map troot (kids t) → iv d1 y = iv (reachabilityDataStore rt) y) ∧ local_ok d1 (troot t).
Proof using All.
  intros Hq Hk. set (d := reachabilityDataStore rt) in *.
  destruct (split_range rt t ts Hq Hk) as (ri & parts & ivs & Hri & Hsplit & Hle & Ht & Hend). fold d in Ht, Hend.
  destruct (Forall_cons_1 _ _ _ (qo_rep rt _ Hq)) as [[Hc Hrk]%rep_eq Hrts].
  destruct (Forall_cons_1 _ _ _ (qo_fits rt _ Hq)) as [(Hs & He & Hz) Hfts]. fold d in Hs, He, Hz, Hfts.
  pose proof (qo_nodup rt _ Hq) as Hnd. rewrite forest_cons, nodes_eq in Hnd.
  apply NoDup_app in Hnd as ([Hroot Hndk]%NoDup_cons & Hdis & Hndts).
  assert (∀ y, y ∈ forest (kids t) → y ∈ forest (t :: ts)) as Hink.
  { intros y Hy. rewrite forest_cons, nodes_eq, <- app_comm_cons. right. apply elem_of_app. by left. }
  destruct (stageIntervals_run (map troot (kids t)) ivs rt (qo_intervals rt _ Hq)) as (d1 & Hstage & Hs1 & Hi1 & Hout & Hf).
  { by apply forest_roots_nodup. }
  { rewrite (tiles_length _ _ _ Ht), length_map. apply Forall2_length in Hle. by rewrite length_map in Hle. }
  { intros y Hy. apply list_elem_of_fmap in Hy as (u & -> & Hu). apply (qo_dom rt _ Hq), Hink. by apply roots_in_forest. }
  assert (Forall (λ n, 0 < n) parts) as Hpos.
  { clear -Hle. remember (map tsize (kids t)) as ns eqn:Ens. assert (Forall (λ n, 0 < n) ns) as Hns.
    { subst. apply Forall_forall. intros n Hn. apply list_elem_of_fmap in Hn as (v & -> & _). apply tsize_pos. }
    clear Ens. induction Hle; inversion Hns; constructor; [lia|auto]. }
  destruct (tiles_sorted d1 _ _ _ _ Ht Hf Hpos) as (Hsorted & Hin & Hsz). rewrite Forall_forall in Hin.
  assert (troot t ∉ map troot (kids t)) as Hrk'.
  { intros Hr. apply list_elem_of_fmap in Hr as (u & Hu & Hin'). apply Hroot. rewrite Hu. by apply roots_in_forest. }
  exists ri, ivs, d1. split; [done|]. split; [done|]. split; [done|]. split; [|split; [done|split; [done|]]].
  - split; simpl.
    + apply Forall_app. done.
    + intros y. rewrite (ss_children _ _ Hs1). apply (qo_children rt _ Hq).
    + done.
    + rewrite forest_app. apply NoDup_app. split; [done|]. split; [|done]. intros y Hy Hyk. apply (Hdis y); [by right|done].
    + intros y Hy. rewrite (ss_dom _ _ Hs1). apply (qo_dom rt _ Hq). rewrite forest_app in Hy.
      apply elem_of_app in Hy as [Hy|Hy]; [rewrite forest_cons; apply elem_of_app; by right|by apply Hink].
    + intros u Hu Hy. apply (qo_cached rt _ Hq u Hu). rewrite forest_app in Hy.
      apply elem_of_app in Hy as [Hy|Hy]; [rewrite forest_cons; apply elem_of_app; by right|by apply Hink].
    + apply Forall_app. split.
      * rewrite Forall_forall in Hfts |- *. intros u Hu. specialize (Hfts u Hu). unfold fits in *. rewrite Hout; [done|].
        intros Hr. apply list_elem_of_fmap in Hr as (v & Hv & Hvk).
        apply (Hdis (troot v)); [right; by apply roots_in_forest|]. rewrite <- Hv. by apply roots_in_forest.
      * apply Forall_forall. intros u Hu. unfold fits.
        assert (troot u ∈ map troot (kids t)) as Hur by (apply list_elem_of_fmap; eauto).
        specialize (Hin _ Hur). simpl in Hin. split; [lia|]. split; [lia|].
        assert (Forall2 (λ v n, tsize v ≤ n) (kids t) parts) as Hle' by (by apply Forall2_map_l in Hle).
        apply Forall2_map_l in Hsz. clear -Hle' Hsz Hu. revert Hle' Hsz. generalize parts as ns.
        induction (kids t) as [|v vs IHv]; intros ns H1 H2; [by apply elem_of_nil in Hu|].
        inversion H1; subst. inversion H2; subst. apply elem_of_cons in Hu as [->|Hu]; [lia|by eapply IHv].
  - unfold local_ok. rewrite (ss_children _ _ Hs1), Hout by done. fold d. rewrite (qo_children rt _ Hq), Hc.
    pose proof (tsize_pos t). split; [lia|]. split; [done|]. intros y Hy. specialize (Hin y Hy). simpl in Hin. lia.
Qed.

(** The nodes strictly below the roots. *)
Definition below (ts : list tree) : list hash := concat (map (λ t, forest (kids t)) ts).

Lemma below_cons t ts : below (t :: ts) = forest (kids t) ++ below ts.
Proof using Type. done. Qed.
Lemma below_app ts us : below (ts ++ us) = below ts ++ below us.
Proof using Type. unfold below. by rewrite map_app, concat_app. Qed.
Lemma below_forest y ts : y ∈ below ts → y ∈ forest ts.
Proof using Type.
  induction ts as [|t ts IH]; [done|]. rewrite below_cons, forest_cons, nodes_eq. intros [Hy|Hy]%elem_of_app.
  - apply elem_of_app. left. by right.
  - apply elem_of_app. right. auto.
Qed.
Lemma root_not_below t ts : NoDup (forest ts) → t ∈ ts → troot t ∉ below ts.
Proof using Type.
  induction ts as [|u ts IH]; [by intros _ ?%elem_of_nil|]. rewrite forest_cons, nodes_eq, below_cons.
  intros ([Hr Hu]%NoDup_cons & Hdis & Hts)%NoDup_app Ht [Hb|Hb]%elem_of_app.
  - apply elem_of_cons in Ht as [->|Ht]; [done|]. apply (Hdis (troot t)); [by right|by apply roots_in_forest].
  - apply elem_of_cons in Ht as [->|Ht]; [|by apply IH]. apply (Hdis (troot u)); [by left|by apply below_forest].
Qed.

Lemma manager_step {A} (m : prog reachabilityManager reachabilityError A) rt rt' a :
  m rt = (rt', Ret a) → manager m (ctx rt C) = (ctx rt' C, Ret a).
Proof using Type. intros Hm. unfold manager, zoom. simpl. by rewrite Hm. Qed.

Lemma propagateLoop_run : ∀ fuel ts rt, queue_ok rt ts → (length (forest ts) < fuel)%nat →
  ∃ d', propagateLoop fuel (map troot ts) (ctx rt C) = (ctx (set_store d' rt) C, Ret ()) ∧
        same_shape (reachabilityDataStore rt) d' ∧ has_intervals d' ∧
        (∀ y, y ∉ below ts → iv d' y = iv (reachabilityDataStore rt) y) ∧ ∀ x, x ∈ forest ts → local_ok d' x.
Proof using All.
  induction fuel as [|fuel IH]; intros ts rt Hq Hf; [lia|]. cbn [propagateLoop].
  destruct ts as [|t ts]; cbn [map].
  { exists (reachabilityDataStore rt). split; [by destruct rt|]. split; [done|]. split; [apply Hq|].
    split; [done|by intros x ?%elem_of_nil]. }
  destruct (Forall_cons_1 _ _ _ (qo_rep rt _ Hq)) as [[Hc _]%rep_eq Hrts].
  assert (troot t ∈ dom (reachabilityDataStore rt)) as Hroot.
  { apply (qo_dom rt _ Hq). rewrite forest_cons, nodes_eq. by left. }
  pose proof (qo_nodup rt _ Hq) as Hnd. rewrite forest_cons, nodes_eq in Hnd.
  apply NoDup_app in Hnd as ([Hrk Hndk]%NoDup_cons & Hdis & Hndts).
  assert (length (forest (t :: ts)) = S (length (forest (kids t)) + length (forest ts))) as Hlen.
  { rewrite forest_cons, nodes_eq, length_app. done. }
  rewrite (bind_ret_l _ _ _ _ _ (manager_step _ rt _ _ (children_run rt (troot t) Hroot))).
  rewrite (qo_children rt _ Hq), Hc. destruct (kids t) as [|k ks] eqn:Ek.
  - destruct (IH ts rt) as (d' & Hrun & Hs & Hi & Hout & Hok).
    { destruct Hq. split; try done.
      - intros x Hx. apply qo_dom0. rewrite forest_cons. apply elem_of_app. by right.
      - intros u Hu Hx. apply qo_cached0; [done|]. rewrite forest_cons. apply elem_of_app. by right.
      - by apply Forall_cons_1 in qo_fits0 as [_ ?]. }
    { simpl in Hlen. lia. }
    exists d'. split; [done|]. split; [done|]. split; [done|]. rewrite below_cons, Ek. split; [done|].
    intros x. rewrite forest_cons, nodes_eq, Ek. intros [[->|?%elem_of_nil]%elem_of_cons|Hx]%elem_of_app; [|done|by apply Hok].
    unfold local_ok. rewrite (ss_children _ _ Hs), (qo_children rt _ Hq), Hc, ?Ek. cbn [map].
    rewrite Hout by (intros Hy; apply (Hdis (troot t)); [by left|by apply below_forest]).
    destruct (Forall_cons_1 _ _ _ (qo_fits rt _ Hq)) as [(Hs1 & He1 & Hz1) _]. pose proof (tsize_pos t).
    split; [lia|]. split; [constructor|by intros y ?%elem_of_nil].
  - rewrite <- Ek in *. assert (kids t ≠ []) as Hne by (by rewrite Ek).
    destruct (queue_step rt t ts Hq Hne) as (ri & ivs & d1 & Hri & Hsplit & Hstage & Hq1 & Hs1 & Hout1 & Hloc).
    assert (∀ A (m m' : A), match map troot (kids t) with [] => m | _ :: _ => m' end = m') as Hmatch by (by rewrite Ek).
    rewrite Hmatch.
    rewrite (bind_ret_l _ _ _ _ _ (eq_refl : get (ctx rt C) = (ctx rt C, Ret (ctx rt C)))).
    rewrite (bind_ret_l _ _ _ _ _ (manager_step _ rt _ _ Hri)).
    rewrite (cached_sizes rt t ts Hq), (bind_ret_l _ _ (ctx rt C) (ctx rt C) ivs) by (unfold lift_outcome; by rewrite Hsplit).
    rewrite (bind_ret_l _ _ _ _ _ (manager_step _ rt _ _ Hstage)), <- map_app.
    destruct (IH (ts ++ kids t) (set_store d1 rt) Hq1) as (d' & Hrun & Hs & Hi & Hout & Hok).
    { rewrite forest_app, length_app. lia. }
    simpl in Hs, Hout. rewrite below_app in Hout.
    exists d'. rewrite Hrun. split; [done|]. split; [by etrans|]. split; [done|]. split.
    + intros y. rewrite below_cons. intros [Hy1 Hy2]%not_elem_of_app. rewrite Hout.
      * apply Hout1. intros Hy. apply list_elem_of_fmap in Hy as (u & -> & Hu). by apply Hy1, roots_in_forest.
      * intros [?|Hy]%elem_of_app; [done|]. by apply Hy1, below_forest.
    + intros x. rewrite forest_cons, nodes_eq, <- app_comm_cons. intros [->|Hx]%elem_of_cons.
      * apply (local_ok_ext d1); [apply (ss_children _ _ Hs)|..|done].
        -- apply Hout. intros [Hy|Hy]%elem_of_app; [apply (Hdis (troot t)); [by left|]|apply Hrk]; by apply below_forest.
        -- intros y Hy. rewrite (ss_children _ _ Hs1), (qo_children rt _ Hq), Hc in Hy.
           apply list_elem_of_fmap in Hy as (u & -> & Hu). apply Hout.
           intros [Hy|Hy]%elem_of_app; [|by apply (root_not_below u (kids t))].
           apply (Hdis (troot u)); [right; by apply roots_in_forest|by apply below_forest].
      * apply Hok. rewrite forest_app. apply elem_of_app. apply elem_of_app in Hx. tauto.
Qed.
End Propagate.

(** ** [propagateInterval] *)
Section PropagateInterval.
Context `{FloatConversionOk} (rt : reachabilityManager) (t : tree).
Abbreviation d := (reachabilityDataStore rt) (only parsing).
Context (Ht : rep (children_of d) t) (Hnd : NoDup (nodes t)).
Context (Hdom : ∀ x, x ∈ nodes t → x ∈ dom d).
Context (Hpar : ∀ x y, x ∈ nodes t → y ∈ children_of d x → parent_of d y = Some x).
Context (Hsize : Z.of_nat (size d) < 2 ^ 64) (Hi : has_intervals d) (Hfits : fits d t).

Lemma propagateInterval_run C : sizes_ok rt C →
  ∃ d' C', propagateInterval (troot t) (ctx rt C) = (ctx (set_store d' rt) C', Ret ()) ∧
    same_shape d d' ∧ has_intervals d' ∧ (∀ y, y ∉ forest (kids t) → iv d' y = iv d y) ∧
    (∀ x, x ∈ nodes t → local_ok d' x).
Proof using All.
  intros HC. destruct (countSubtrees_run rt t Ht Hnd Hdom Hpar Hsize C HC) as (C' & Hrun & _ & Hok & _ & Hall).
  unfold propagateInterval. rewrite (bind_ret_l _ _ _ _ _ Hrun).
  rewrite (bind_ret_l _ _ _ _ _ (eq_refl : get (ctx rt C') = (ctx rt C', Ret (ctx rt C')))).
  destruct (propagateLoop_run (children_of d) C' (walkFuel rt) [t] rt) as (d' & Hrun' & Hs & Hi' & Hout & Hloc).
  - split; try done.
    + by constructor.
    + by rewrite forest_cons, app_nil_r.
    + intros x. rewrite forest_cons, app_nil_r. apply Hdom.
    + intros u Hu. rewrite forest_cons, app_nil_r. intros Hin. destruct (Hall _ Hin) as [n Hn]. rewrite Hn. f_equal.
      by apply (sizes_ok_size rt C' (troot u) n u Hok Hn).
    + by constructor.
  - rewrite forest_cons, app_nil_r. by apply nodes_fuel.
  - exists d', C'. split; [done|]. split; [done|]. split; [done|]. split.
    + intros y Hy. apply Hout. by rewrite below_cons, app_nil_r.
    + intros x Hx. apply Hloc. by rewrite forest_cons, app_nil_r.
Qed.
End PropagateInterval.
