(* ===== verification/ReindexAdd.v ===== *)
(** * Adding a block where its parent has no room

    [addChild] inside the subtree of the reindex root: the reindexing finds an
    ancestor with room for its subtree, re-indexes it, and the tree is correct
    again; with that, [AddBlock] and [IsDAGAncestorOf]. *)
From stdpp Require Import sorting.
From S2P Require Import Prelude Interval ReachabilityData Reachability Reindex ReachabilityTree ReachabilityAdd.
From S2P Require Import ReindexTree ReindexPropagate.
Import Interval Store Reachability Reindex.
Local Open Scope Z_scope.
Local Open Scope prog_scope.

Abbreviation hash := (list Z) (only parsing).

(** ** The tree without its intervals *)
Record shape_ok (d : gmap (list Z) reachabilityData) : Prop := {
  sh_parent x p : parent_of d x = Some p → p ∈ dom d ∧ x ∈ children_of d p;
  sh_child p x : x ∈ children_of d p → x ∈ dom d ∧ parent_of d x = Some p;
  sh_nodup p : NoDup (children_of d p);
  sh_acc x : Acc (λ y p, parent_of d y = Some p) x
}.

Lemma sorted_nodup d l : (∀ x, x ∈ l → Start (iv d x) ≤ End (iv d x)) → StronglySorted (left_of d) l → NoDup l.
Proof.
  intros Hr Hs. induction Hs as [|x l Hs IH Hx]; [constructor|]. apply NoDup_cons. split.
  - intros Hin. rewrite Forall_forall in Hx. specialize (Hx x Hin). unfold left_of in Hx.
    specialize (Hr x ltac:(by left)). lia.
  - apply IH. intros y Hy. apply Hr. by right.
Qed.

Lemma tree_shape d root : tree_ok d root → shape_ok d.
Proof.
  intros Hok. split; [apply (tree_parent d root Hok)|apply (tree_child d root Hok)|..].
  - intros p. apply (sorted_nodup d); [|apply (tree_sorted d root Hok)]. intros x Hx.
    apply (tree_range d root Hok). by apply (tree_child d root Hok p).
  - intros x. remember (Z.to_nat (End (iv d x))) as n eqn:Hn. revert x Hn.
    induction n as [n IH] using lt_wf_ind. intros x ->. constructor. intros y Hy.
    pose proof (tree_inside d root Hok y x Hy). pose proof (tree_range d root Hok y (parent_dom d y x Hy)).
    eapply IH; [|reflexivity]. lia.
Qed.

Section Shape.
Context (d : gmap (list Z) reachabilityData) (Hsh : shape_ok d).

Lemma anc_linear a b y : tree_anc d a y → tree_anc d b y → tree_anc d a b ∨ tree_anc d b a.
Proof using Type.
  intros Ha. revert b. induction Ha as [|y p a Hp Ha IH]; intros b Hb; [by right|].
  inversion Hb as [|? q ? Hq Hb']; subst; [left; by apply (rtc_l _ _ p)|]. simplify_eq. by apply IH.
Qed.

Lemma anc_irrefl a p : parent_of d a = Some p → ¬ tree_anc d a p.
Proof using Hsh.
  revert p. induction (sh_acc d Hsh a) as [a _ IH]. intros p Hp Ha.
  destruct (decide (a = p)) as [->|Hne]; [by apply (IH p Hp p Hp), rtc_refl|].
  destruct (tree_anc_child d a p Ha Hne) as (c & Hc & Hcp). apply (IH c Hc a Hc).
  apply (tree_anc_trans d c p a); [done|by apply rtc_once].
Qed.

Lemma shape_tree x : ∃ t, rep (children_of d) t ∧ troot t = x.
Proof using Hsh.
  induction (sh_acc d Hsh x) as [x _ IH].
  assert (∃ ts, map troot ts = children_of d x ∧ Forall (rep (children_of d)) ts) as (ts & Hr & Hrep).
  { assert (∀ y, y ∈ children_of d x → parent_of d y = Some x) as Hc by (intros y Hy; by apply (sh_child d Hsh)).
    induction (children_of d x) as [|y l IHl]; [exists []; done|].
    destruct IHl as (ts & Hr & Hrep); [intros; apply Hc; by right|].
    destruct (IH y) as (t & Ht & Hty); [apply Hc; by left|].
    exists (t :: ts). simpl. rewrite Hty, Hr. split; [done|by constructor]. }
  exists (Node x ts). split; [by apply rep_eq|done].
Qed.

Lemma nodes_anc t : rep (children_of d) t → ∀ y, y ∈ nodes t ↔ tree_anc d (troot t) y.
Proof using Hsh.
  induction t as [x ts IH] using tree_ind'. intros [Hc Hts]%rep_eq y. cbn [troot kids] in *. rewrite nodes_eq. cbn [troot kids].
  rewrite Forall_forall in IH, Hts. rewrite elem_of_cons, elem_of_forest. split.
  - intros [->|(t & Ht & Hy)]; [apply rtc_refl|]. apply IH in Hy; [|done|by apply Hts].
    apply (tree_anc_trans d x (troot t) y); [|done]. apply rtc_once. apply (sh_child d Hsh).
    rewrite Hc. apply list_elem_of_fmap. eauto.
  - intros Ha. destruct (decide (x = y)) as [->|Hne]; [by left|]. right.
    destruct (tree_anc_child d x y Ha Hne) as (c & Hcx & Hcy). apply (sh_parent d Hsh) in Hcx as [_ Hcx].
    rewrite Hc in Hcx. apply list_elem_of_fmap in Hcx as (t & -> & Ht). exists t. split; [done|].
    apply IH; [done|by apply Hts|done].
Qed.

Lemma nodes_nodup t : rep (children_of d) t → NoDup (nodes t).
Proof using Hsh.
  induction t as [x ts IH] using tree_ind'. intros Hrep. pose proof Hrep as [Hc Hts]%rep_eq. cbn [troot kids] in *.
  rewrite nodes_eq. cbn [troot kids]. rewrite Forall_forall in IH, Hts.
  assert (∀ t, t ∈ ts → parent_of d (troot t) = Some x) as Hpar.
  { intros t Ht. apply (sh_child d Hsh). rewrite Hc. apply list_elem_of_fmap. eauto. }
  apply NoDup_cons. split.
  - intros (t & Ht & Hx)%elem_of_forest. apply nodes_anc in Hx; [|by apply Hts].
    by apply (anc_irrefl (troot t) x (Hpar t Ht)).
  - pose proof (sh_nodup d Hsh x) as Hnd. rewrite Hc in Hnd. clear Hc Hrep.
    induction ts as [|t ts IHts]; [constructor|]. apply NoDup_cons in Hnd as [Hr Hnd]. rewrite forest_cons.
    apply NoDup_app. split; [apply IH; [by left|apply Hts; by left]|]. split.
    + intros y Hy (u & Hu & Hyu)%elem_of_forest.
      apply nodes_anc in Hy; [|apply Hts; by left]. apply nodes_anc in Hyu; [|apply Hts; by right].
      assert (parent_of d (troot t) = Some x) as Ht by (apply Hpar; by left).
      assert (parent_of d (troot u) = Some x) as Hu' by (apply Hpar; by right).
      assert (troot t ≠ troot u) as Hne.
      { intros E. apply Hr. rewrite E. apply list_elem_of_fmap. eauto. }
      destruct (anc_linear _ _ _ Hy Hyu) as [Ha|Ha].
      * inversion Ha as [|? q ? Hq Ha']; subst; [done|]. simplify_eq. by apply (anc_irrefl _ _ Ht).
      * inversion Ha as [|? q ? Hq Ha']; subst; [done|]. simplify_eq. by apply (anc_irrefl _ _ Hu').
    + apply IHts; [..|done]; intros u Hu; [apply IH|apply Hts|apply Hpar]; by right.
Qed.
End Shape.

Lemma add_leaf_shape d p c i : shape_ok d → p ∈ dom d → c ∉ dom d → shape_ok (add_leaf p c i d).
Proof.
  intros Hsh Hp Hc.
  assert (∀ x, x ∈ dom d → x ≠ c) as Hold by (by intros x Hx ->).
  assert (c ∉ children_of d p) as Hcp by (intros Hin; by apply Hc, (sh_child d Hsh p)).
  split.
  - intros x q. rewrite add_leaf_parent, add_leaf_dom, add_leaf_children by done. case_decide as Hx.
    + intros [= <-]. rewrite decide_False, decide_True by auto. split; [by right|set_solver].
    + intros [Hq Hin]%(sh_parent d Hsh). rewrite decide_False by auto. split; [by right|]. case_decide; [subst|done]. set_solver.
  - intros q x. rewrite add_leaf_children, add_leaf_dom, add_leaf_parent by done.
    case_decide as Hq; [by intros ?%elem_of_nil|]. case_decide as Hqp.
    + subst q. intros [Hx| ->%list_elem_of_singleton]%elem_of_app; [|by rewrite decide_True; auto].
      destruct (sh_child d Hsh p x Hx). rewrite decide_False by auto. auto.
    + intros Hx. destruct (sh_child d Hsh q x Hx). rewrite decide_False by auto. auto.
  - intros q. rewrite add_leaf_children by done. case_decide; [constructor|]. case_decide; [|apply (sh_nodup d Hsh)].
    apply NoDup_app. split; [apply (sh_nodup d Hsh)|]. split; [|apply NoDup_singleton].
    by intros y Hy ->%list_elem_of_singleton.
  - assert (Acc (λ y q, parent_of (add_leaf p c i d) y = Some q) c) as Hacc.
    { constructor. intros y. rewrite add_leaf_parent. case_decide; [intros [= ->]; by destruct (Hold c Hp)|].
      intros [Hq _]%(sh_parent d Hsh). done. }
    intros x. induction (sh_acc d Hsh x) as [x _ IH]. constructor. intros y. rewrite add_leaf_parent.
    case_decide as Hy; [by subst|]. apply IH.
Qed.

(** ** Reindexing below the reindex root *)
Section Reindexed.
Context `{FloatConversionOk} (rt : reachabilityManager) (root p c rr : list Z) (ri : ReachabilityInterval).
Abbreviation d := (reachabilityDataStore rt) (only parsing).
Context (Hok : tree_ok d root) (Hp : p ∈ dom d) (Hc : c ∉ dom d).
Context (Hsize : Z.of_nat (size d) + 1 < 2 ^ 64) (Hri : intervalSize ri = 0).
Context (Hrr : tree_anc d rr p).
Abbreviation d1 := (add_leaf p c ri d) (only parsing).

Definition rt1 : reachabilityManager := set_store (add_leaf p c ri d) rt.

(** The reindex root has room for its subtree and the new block. *)
Context (Hcap : ∀ t, rep (children_of d1) t → troot t = rr → tsize t ≤ End (iv d rr) - Start (iv d rr) + 1).

Lemma linked_shape : shape_ok d1.
Proof using Hok Hp Hc. apply add_leaf_shape; [by apply (tree_shape d root)|done|done]. Qed.

Lemma linked_intervals : has_intervals d1.
Proof using Hok.
  intros x rd. unfold add_leaf. destruct (decide (x = c)) as [->|Hx].
  { rewrite lookup_insert_eq. intros [= <-]. by eexists. }
  rewrite lookup_insert_ne by done. destruct (decide (x = p)) as [->|].
  - rewrite lookup_alter_eq. destruct (d !! p) as [rd'|] eqn:E; [|done]. intros [= <-].
    by apply (tree_interval d root Hok p rd').
  - rewrite lookup_alter_ne by done. by apply (tree_interval d root Hok x).
Qed.

Lemma linked_size : size d1 = S (size d).
Proof using Hc.
  unfold add_leaf. rewrite map_size_insert_None, <- !size_dom, dom_alter_L; [done|].
  apply not_elem_of_dom. by rewrite dom_alter_L.
Qed.

(** The subtree of a node, with what the algorithms ask of it. *)
Lemma subtree_of x : x ∈ dom d1 → ∃ t, troot t = x ∧ rep (children_of d1) t ∧ NoDup (nodes t) ∧
  (∀ y, y ∈ nodes t ↔ tree_anc d1 x y) ∧ (∀ y, y ∈ nodes t → y ∈ dom d1) ∧
  (∀ y z, y ∈ nodes t → z ∈ children_of d1 y → parent_of d1 z = Some y).
Proof using Hok Hp Hc.
  intros Hx. destruct (shape_tree d1 linked_shape x) as (t & Ht & Hr). exists t. split; [done|]. split; [done|].
  split; [by apply (nodes_nodup d1 linked_shape)|]. rewrite <- Hr. split; [by apply (nodes_anc d1 linked_shape)|]. split.
  - intros y Hy%(nodes_anc d1 linked_shape); [|done]. rewrite Hr in Hy.
    inversion Hy as [|? q ? Hq _]; subst; [done|]. by apply (parent_dom d1 y q).
  - intros y z _ Hz. by apply (sh_child d1 linked_shape).
Qed.

(** Re-indexing the subtree of [x] repairs the tree. *)
Lemma reindex_repairs x t d' : x ∈ dom d → tree_anc d x p → troot t = x → NoDup (nodes t) →
  (∀ y, y ∈ nodes t ↔ tree_anc d1 x y) →
  same_shape d1 d' → has_intervals d' → (∀ y, y ∉ forest (kids t) → iv d' y = iv d1 y) →
  (∀ y, y ∈ nodes t → local_ok d' y) → tree_ok d' root.
Proof using Hok Hp Hc.
  intros Hx Hxp Hr Hnd Hin Hs Hi Hout Hloc.
  assert (∀ y, y ∈ dom d → y ≠ c) as Hold by (by intros y Hy ->).
  assert (c ∈ nodes t) as Hcn by (apply Hin, (add_leaf_anc_new d root); auto).
  assert (p ∈ nodes t) as Hpn by (apply Hin, (add_leaf_anc_old d root); auto).
  assert (∀ y, y ∈ dom d → y ∉ forest (kids t) → iv d' y = iv d y) as Houter.
  { intros y Hy Hf. rewrite Hout, add_leaf_iv, decide_False by auto. done. }
  assert (∀ y, y ∉ nodes t → y ∉ forest (kids t)) as Hnf.
  { intros y Hy Hf. apply Hy. rewrite nodes_eq. by right. }
  rewrite nodes_eq in Hnd. apply NoDup_cons in Hnd as [Hroot _]. rewrite Hr in Hroot.
  (* a child of an outer node is old and keeps its interval *)
  assert (∀ q y, q ∉ nodes t → y ∈ children_of d' q → q ∈ dom d ∧ y ∈ children_of d q ∧ iv d' y = iv d y) as Hchild.
  { intros q y Hq Hy. rewrite (ss_children _ _ Hs), add_leaf_children in Hy by done.
    case_decide as Hqc; [by apply elem_of_nil in Hy|]. case_decide as Hqp; [by subst|].
    destruct (tree_child d root Hok q y Hy) as [Hyd Hyq]. pose proof (tree_parent d root Hok y q Hyq) as [Hqd _].
    split; [done|]. split; [done|]. apply Houter; [done|]. intros Hf.
    assert (y ∈ nodes t) as Hyn by (rewrite nodes_eq; by right).
    apply Hin, (add_leaf_anc_old d root) in Hyn; [|done..].
    inversion Hyn as [|? q' ? Hq' Ha]; [by subst|]. subst. simplify_eq.
    apply Hq, Hin, (add_leaf_anc_old d root); done. }
  assert (∀ q, q ∈ dom d1 → q ∉ nodes t → q ∈ dom d) as Hqd.
  { intros q [->|Hq]%add_leaf_dom Hqn; done. }
  assert (∀ q, q ∈ dom d1 → local_ok d' q) as Hall.
  { intros q Hq. destruct (decide (q ∈ nodes t)) as [|Hqn]; [by apply Hloc|]. specialize (Hqd q Hq Hqn).
    assert (q ≠ p) as Hqp by (by intros ->).
    apply (local_ok_ext d).
    - by rewrite (ss_children _ _ Hs), add_leaf_children, !decide_False by auto.
    - auto.
    - intros y Hy. apply (Hchild q y Hqn). by rewrite (ss_children _ _ Hs), add_leaf_children, !decide_False by auto.
    - split; [by apply (tree_range d root Hok)|]. split; [apply (tree_sorted d root Hok)|].
      intros y Hy. apply (tree_inside d root Hok). by apply (tree_child d root Hok). }
  pose proof linked_shape as Hsh.
  split.
  - exact Hi.
  - intros y Hy. rewrite (ss_dom _ _ Hs) in Hy. apply (Hall y Hy).
  - rewrite (ss_dom _ _ Hs). apply add_leaf_dom. right. apply (tree_root d root Hok).
  - intros y Hy. rewrite (ss_dom _ _ Hs) in Hy. rewrite (ss_parent _ _ Hs), add_leaf_parent.
    case_decide; [done|]. apply add_leaf_dom in Hy as [|Hy]; [done|]. by apply (tree_rootless d root Hok).
  - intros y q. rewrite (ss_parent _ _ Hs), (ss_dom _ _ Hs), (ss_children _ _ Hs). apply (sh_parent d1 Hsh).
  - intros q y. rewrite (ss_parent _ _ Hs), (ss_dom _ _ Hs), (ss_children _ _ Hs). apply (sh_child d1 Hsh).
  - intros q. destruct (decide (q ∈ dom d1)) as [Hq|Hq]; [apply (Hall q Hq)|].
    rewrite (ss_children _ _ Hs). unfold children_of. apply not_elem_of_dom in Hq. rewrite Hq. constructor.
  - intros y q Hyq. rewrite (ss_parent _ _ Hs) in Hyq. destruct (sh_parent d1 Hsh y q Hyq) as [Hq Hyc].
    apply (Hall q Hq). by rewrite (ss_children _ _ Hs).
Qed.

(** The search for an ancestor with room, and the propagation from it. *)
Lemma reindexLoop_run : ∀ fuel x C, sizes_ok rt1 C → (x = c ∨ x ∈ dom d ∧ tree_anc d rr x ∧ tree_anc d x p) →
  ((if decide (x = c) then S (size d) else size (above d x)) < fuel)%nat →
  ∃ d' C', reindexLoop fuel x rr (ctx rt1 C) = (ctx (set_store d' rt) C', Ret ()) ∧
           tree_ok d' root ∧ same_shape d1 d'.
Proof using All.
  induction fuel as [|fuel IH]; intros x C HC Hx Hf; [lia|]. cbn [reindexLoop].
  assert (∀ y, y ∈ dom d → y ≠ c) as Hold by (by intros y Hy ->).
  assert (x ∈ dom d1) as Hxd by (apply add_leaf_dom; tauto).
  assert (rr ∈ dom d) as Hrrd by (by apply (tree_anc_dom d root Hok rr p)).
  pose proof linked_intervals as Hint.
  destruct (subtree_of x Hxd) as (t & Hr & Hrep & Hnd & Hin & Hdom & Hpar).
  assert (Z.of_nat (size d1) < 2 ^ 64) as Hsz by (rewrite linked_size; lia).
  rewrite (bind_ret_l _ _ _ _ _ (manager_step C _ rt1 _ _ (interval_run' rt1 Hint x Hxd))).
  rewrite (bind_ret_l _ _ _ _ _ (manager_step C _ rt1 rt1 _ (deref_run _ _))).
  destruct (countSubtrees_run rt1 t Hrep Hnd Hdom Hpar Hsz C HC) as (C1 & Hcount & _ & HC1 & Hcached & _).
  rewrite Hr in Hcount, Hcached. rewrite (bind_ret_l _ _ _ _ _ Hcount).
  rewrite (bind_ret_l _ _ _ _ _ (eq_refl : get (ctx rt1 C1) = (ctx rt1 C1, Ret (ctx rt1 C1)))).
  unfold cachedSize. cbn [subTreeSizesCache ctx]. rewrite Hcached.
  change (default 0 (Some (tsize t))) with (tsize t).
  change (reachabilityDataStore rt1) with d1.
  assert (x ∈ dom d → intervalSize (iv d1 x) = End (iv d x) - Start (iv d x) + 1 ∧ iv d1 x = iv d x) as Hsizex.
  { intros Hxo. rewrite add_leaf_iv, decide_False by auto. split; [|done]. apply intervalSize_ok.
    pose proof (tree_range d root Hok x Hxo). unfold interval_ok. lia. }
  rewrite Z.geb_leb. destruct (Z.leb_spec (tsize t) (intervalSize (iv d1 x))) as [Hroom|Hnoroom].
  - (* enough room: propagate *)
    destruct Hx as [->|(Hxo & Hrx & Hxp)].
    { rewrite add_leaf_iv, decide_True, Hri in Hroom by done. pose proof (tsize_pos t). lia. }
    destruct (Hsizex Hxo) as [Hsx Hivx]. rewrite Hsx in Hroom. pose proof (tree_range d root Hok x Hxo).
    destruct (propagateInterval_run rt1 t Hrep Hnd Hdom Hpar Hsz Hint) with (C := C1)
      as (d' & C' & Hrun & Hs & Hi' & Hout & Hloc); [|done|].
    { unfold fits. change (reachabilityDataStore rt1) with d1. rewrite Hr, Hivx. lia. }
    rewrite Hr in Hrun. exists d', C'. split; [exact Hrun|]. split; [|done]. by apply (reindex_repairs x t).
  - (* go to the parent *)
    assert (parent x rt1 = (rt1, Ret (parent_of d1 x))) as Hprun by (by apply parent_run).
    rewrite (bind_ret_l _ _ _ _ _ (manager_step C1 _ rt1 _ _ Hprun)). rewrite add_leaf_parent.
    assert (∃ q, (if decide (x = c) then Some p else parent_of d x) = Some q ∧ x ≠ rr ∧ q ∈ dom d ∧ tree_anc d rr q ∧
      tree_anc d q p ∧ (size (above d q) < fuel)%nat) as (q & Hq & Hxrr & Hqd & Hrq & Hqp & Hqf).
    { destruct Hx as [->|(Hxo & Hrx & Hxp)].
      - exists p. rewrite decide_True by done. destruct (decide (c = c)) in Hf; [|done]. pose proof (above_size d p).
        split; [done|]. split; [intros ->; by destruct (Hold rr Hrrd)|]. split; [done|]. split; [done|]. split; [apply rtc_refl|lia].
      - assert (x ≠ rr) as Hne.
        { intros ->. specialize (Hcap t Hrep Hr). destruct (Hsizex Hxo) as [Hsx _]. lia. }
        rewrite decide_False by auto. destruct (decide (x = c)) in Hf; [by destruct (Hold x Hxo)|].
        apply rtc_inv in Hrx as [Heq|(q & Hq & Hrq)]; [done|]. exists q.
        destruct (tree_parent d root Hok x q Hq) as [Hqd _]. pose proof (above_parent d root x q Hok Hq).
        split; [done|]. split; [done|]. split; [done|]. split; [done|]. split; [|lia].
        apply (tree_anc_trans d q x p); [by apply rtc_once|done]. }
    rewrite Hq, bool_decide_false by done.
    assert (isStrictAncestorOf q rr rt1 = (rt1, Ret false)) as Hstrict.
    { unfold isStrictAncestorOf. case_bool_decide as Hqr; [done|]. unfold IsReachabilityTreeAncestorOf.
      assert (q ∈ dom d1 ∧ rr ∈ dom d1) as [Hq1 Hr1] by (split; apply add_leaf_dom; auto).
      rewrite (bind_ret_l _ _ _ _ _ (interval_run' rt1 Hint q Hq1)), (bind_ret_l _ _ _ _ _ (interval_run' rt1 Hint rr Hr1)).
      rewrite !(bind_ret_l _ _ _ _ _ (deref_run _ _)). change (reachabilityDataStore rt1) with d1.
      rewrite !add_leaf_iv, !decide_False by auto. unfold ret. do 2 f_equal.
      apply not_true_is_false. intros Hcon%(contains_anc d root Hok); [|done..].
      by apply Hqr, (tree_anc_antisym d root Hok). }
    rewrite (bind_ret_l _ _ _ _ _ (manager_step C1 _ rt1 _ _ Hstrict)).
    apply IH; [done|auto|]. rewrite decide_False by auto. done.
Qed.

(** The room of the reindex root in terms of the tree before the block. *)
Lemma grown_size t t1 : rep (children_of d) t → troot t = rr → rep (children_of d1) t1 → troot t1 = rr →
  tsize t1 = tsize t + 1.
Proof using Hok Hp Hc Hrr.
  intros Ht Hr Ht1 Hr1. pose proof (tree_shape d root Hok) as Hsh. pose proof linked_shape as Hsh1.
  assert (rr ∈ dom d) as Hrrd by (by apply (tree_anc_dom d root Hok rr p)).
  assert (c ∉ nodes t) as Hcn.
  { intros Ha%(nodes_anc d Hsh); [|done]. rewrite Hr in Ha.
    apply rtc_inv in Ha as [Heq|(q & Hq & _)]; [by apply Hc; rewrite Heq|]. by apply Hc, (parent_dom d c q). }
  enough (nodes t1 ≡ₚ c :: nodes t) as Hperm.
  { unfold tsize, zlen. rewrite Hperm. simpl. lia. }
  apply NoDup_Permutation; [by apply (nodes_nodup d1 Hsh1)|apply NoDup_cons; split; [done|by apply (nodes_nodup d Hsh)]|].
  intros y. rewrite (nodes_anc d1 Hsh1 t1 Ht1), elem_of_cons, (nodes_anc d Hsh t Ht), Hr, Hr1.
  destruct (decide (y = c)) as [->|Hy].
  - split; [by left|]. intros _. apply (add_leaf_anc_new d root); auto.
  - assert (∀ a, tree_anc d a y ∨ tree_anc d1 a y → y ∉ dom d → a = y) as Hout.
    { intros a Ha Hyd. assert (parent_of d y = None) as Hn.
      { destruct (parent_of d y) as [q|] eqn:E; [|done]. by destruct Hyd; apply (parent_dom d y q). }
      destruct Ha as [Ha|Ha]; apply rtc_inv in Ha as [->|(q & Hq & _)]; [done|by rewrite Hn in Hq|done|].
      rewrite add_leaf_parent, decide_False in Hq by done. by rewrite Hn in Hq. }
    destruct (decide (y ∈ dom d)) as [Hyd|Hyd]; [rewrite (add_leaf_anc_old d root) by done; split; [by right|by intros [|]]|].
    split; [intros Ha|intros [|Ha]; [done|]]; rewrite (Hout rr) by (first [by left|by right|done]).
    + right. apply rtc_refl.
    + apply rtc_refl.
Qed.
End Reindexed.

(** ** The order of unrelated nodes is that of the tree *)
Lemma sorted_pair d d2 l x y : StronglySorted (left_of d) l → StronglySorted (left_of d2) l → x ∈ l → y ∈ l → x ≠ y →
  left_of d x y → ¬ left_of d y x → left_of d2 x y.
Proof.
  intros Hs Hs2 Hx Hy Hne Hl Hnl. induction l as [|z l IH]; [by apply elem_of_nil in Hx|].
  apply StronglySorted_cons in Hs as [Hz Hs], Hs2 as [Hz2 Hs2]. rewrite Forall_forall in Hz, Hz2.
  apply elem_of_cons in Hx as [->|Hx], Hy as [->|Hy]; [done|by apply Hz2| |by apply IH].
  destruct Hnl. by apply Hz.
Qed.

Lemma left_stable rt d2 root : let d := reachabilityDataStore rt in tree_ok d root → tree_ok d2 root →
  (∀ q, q ∈ dom d → ∃ k, children_of d2 q = children_of d q ++ k) →
  (∀ a b, b ∈ dom d → tree_anc d a b → tree_anc d2 a b) →
  ∀ x y, x ∈ dom d → y ∈ dom d → left_of d x y → left_of d2 x y.
Proof.
  intros d Hok Hok2 Hch Hanc x y Hx Hy Hl. pose proof (above_size d x) as Hab.
  pose proof (tree_range d root Hok x Hx) as Hrx. pose proof (tree_range d root Hok y Hy) as Hry.
  destruct (commonAncestorLoop_run rt root y Hok Hy (S (size d)) x Hx) as (q & _ & Hqx & Hqy & Hmin); [fold d; lia|]. fold d in Hqx, Hqy, Hmin.
  assert (q ≠ x) as Hnx.
  { intros ->. pose proof (tree_anc_inside d root Hok _ _ Hqy). unfold left_of in Hl. lia. }
  assert (q ≠ y) as Hny.
  { intros ->. pose proof (tree_anc_inside d root Hok _ _ Hqx). unfold left_of in Hl. lia. }
  destruct (tree_anc_child d q x Hqx Hnx) as (cx & Hcx & Hxx). destruct (tree_anc_child d q y Hqy Hny) as (cy & Hcy & Hyy).
  assert (cx ≠ cy) as Hne.
  { intros ->. pose proof (Hmin cy Hxx Hyy) as Hcq. apply (anc_irrefl d (tree_shape d root Hok) cy q Hcy Hcq). }
  pose proof (tree_anc_inside d root Hok _ _ Hxx). pose proof (tree_anc_inside d root Hok _ _ Hyy).
  assert (left_of d cx cy ∧ ¬ left_of d cy cx) as [Hlc Hnlc].
  { destruct (siblings_disjoint d root Hok q cx cy Hcx Hcy Hne); unfold left_of in *; split; lia. }
  destruct (tree_parent d root Hok cx q Hcx) as [Hq Hcxin]. destruct (tree_parent d root Hok cy q Hcy) as [_ Hcyin].
  destruct (Hch q Hq) as [k Hk]. pose proof (tree_sorted d2 root Hok2 q) as Hs2. rewrite Hk in Hs2.
  apply StronglySorted_app_1_l in Hs2.
  pose proof (sorted_pair d d2 _ cx cy (tree_sorted d root Hok q) Hs2 Hcxin Hcyin Hne Hlc Hnlc) as Hl2.
  pose proof (tree_anc_inside d2 root Hok2 _ _ (Hanc _ _ Hx Hxx)).
  pose proof (tree_anc_inside d2 root Hok2 _ _ (Hanc _ _ Hy Hyy)). unfold left_of in *. lia.
Qed.

Lemma reindexed_grown rt root p c ri d' : tree_ok (reachabilityDataStore rt) root → p ∈ dom (reachabilityDataStore rt) →
  c ∉ dom (reachabilityDataStore rt) → tree_ok d' root → same_shape (add_leaf p c ri (reachabilityDataStore rt)) d' →
  grown (reachabilityDataStore rt) d' p c.
Proof.
  intros Hok Hp Hc Hok' Hs. set (d := reachabilityDataStore rt) in *.
  pose proof (add_leaf_grown d root p c ri Hok Hp Hc) as Hg. split.
  - intros x. rewrite (ss_dom _ _ Hs). apply (grown_dom _ _ _ _ Hg).
  - intros a b Hb. rewrite (same_shape_anc _ _ _ _ Hs). by apply (grown_old _ _ _ _ Hg).
  - intros a. rewrite (same_shape_anc _ _ _ _ Hs). apply (grown_new _ _ _ _ Hg).
  - intros x. rewrite (ss_fcs _ _ Hs). apply (grown_fcs _ _ _ _ Hg).
  - apply (left_stable rt d' root Hok Hok').
    + intros q Hq. rewrite (ss_children _ _ Hs), add_leaf_children, decide_False by (done || by intros ->).
      case_decide; [subst; eauto|]. exists []. by rewrite app_nil_r.
    + intros a b Hb Ha. rewrite (same_shape_anc _ _ _ _ Hs). by apply (grown_old _ _ _ _ Hg).
Qed.

(** ** [addChild] and [AddBlock] *)

(** Where a child of [p] finds room: at [p] itself, or, if [p] is below the reindex
    root, anywhere there: the reindex root has an interval larger than its subtree. *)
Definition has_room (d : gmap (list Z) reachabilityData) (p rr : hash) : Prop :=
  free_start d p < End (iv d p) ∨
  tree_anc d rr p ∧ Z.of_nat (size d) + 1 < 2 ^ 64 ∧
  ∃ t, rep (children_of d) t ∧ troot t = rr ∧ tsize t < End (iv d rr) - Start (iv d rr) + 1.

Lemma free_start_le d root p : tree_ok d root → p ∈ dom d → free_start d p ≤ End (iv d p) ∧ 0 < free_start d p.
Proof.
  intros Hok Hp. pose proof (tree_range d root Hok p Hp). unfold free_start.
  destruct (last (children_of d p)) as [l|] eqn:El; [|lia].
  destruct (tree_child d root Hok p l (last_Some_elem_of _ _ El)) as [Hl Hlp].
  pose proof (tree_inside d root Hok l p Hlp). pose proof (tree_range d root Hok l Hl). lia.
Qed.

Lemma addChild_reindex `{FloatConversionOk} rt root p c rr : let d := reachabilityDataStore rt in
  tree_ok d root → p ∈ dom d → c ∉ dom d → free_start d p = End (iv d p) →
  tree_anc d rr p → Z.of_nat (size d) + 1 < 2 ^ 64 →
  (∃ t, rep (children_of d) t ∧ troot t = rr ∧ tsize t < End (iv d rr) - Start (iv d rr) + 1) →
  ∃ d2, addChild p c rr (staged rt c) = (set_store d2 rt, Ret ()) ∧ tree_ok d2 root ∧ grown d d2 p c.
Proof.
  intros d Hok Hp Hc Hfull Hrr Hsize (t & Ht & Hr & Hcap).
  set (ri := {| Start := free_start d p; End := End (iv d p) - 1 |}).
  assert (intervalSize ri = 0) as Hri.
  { unfold intervalSize, ri. simpl. rewrite Hfull. by replace (End (iv d p) - 1 - End (iv d p) + 1) with 0 by lia. }
  destruct (reindexLoop_run rt root p c rr ri Hok Hp Hc Hsize Hri Hrr) with (fuel := S (size (add_leaf p c ri d))) (x := c) (C := ∅ : gmap (list Z) Z)
    as (d2 & C' & Hrun & Hok2 & Hs).
  - intros t1 Ht1 Hr1. fold d. rewrite (grown_size rt root p c rr ri Hok Hp Hc Hrr t t1 Ht Hr Ht1 Hr1). lia.
  - intros x n. by rewrite lookup_empty.
  - by left.
  - rewrite decide_True by done. pose proof (linked_size rt p c ri Hc) as Hls. fold d in Hls |- *. lia.
  - exists d2. split; [|split; [done|by apply (reindexed_grown rt root p c ri)]].
    unfold addChild. rewrite (bind_ret_l _ _ _ _ _ (remainingIntervalAfter_run rt root p c Hok Hp Hc)). fold d ri.
    rewrite (link_run rt root p c Hok Hp Hc), Hri. cbn [Z.eqb].
    rewrite (bind_ret_l _ _ _ (rt1 rt p c ri) ()).
    2:{ unfold stageInterval. rewrite (bind_ret_l _ _ (linked rt p c) (linked rt p c) (leaf p {| Start := 1; End := 2 ^ 64 - 2 |})).
        2:{ eapply forInsertion_lookup; [apply lookup_insert_eq|done]. }
        unfold stageData, StageReachabilityData, modify, linked, rt1, set_store, with_store, add_leaf. simpl.
        by rewrite insert_insert_eq. }
    unfold in_context, reindexIntervals. change (newReindexContext (rt1 rt p c ri)) with (ctx (rt1 rt p c ri) ∅).
    rewrite (bind_ret_l _ _ _ _ _ (eq_refl : get (ctx (rt1 rt p c ri) ∅) = (ctx (rt1 rt p c ri) ∅, Ret (ctx (rt1 rt p c ri) ∅)))).
    unfold walkFuel. cbn [rc_manager ctx]. change (reachabilityDataStore (rt1 rt p c ri)) with (add_leaf p c ri d).
    by rewrite Hrun.
Qed.

Lemma addChild_grown `{FloatConversionOk} rt root p c rr : let d := reachabilityDataStore rt in
  tree_ok d root → p ∈ dom d → c ∉ dom d → has_room d p rr →
  ∃ d2, addChild p c rr (staged rt c) = (set_store d2 rt, Ret ()) ∧ tree_ok d2 root ∧ grown d d2 p c.
Proof.
  intros d Hok Hp Hc Hroom. destruct (decide (free_start d p < End (iv d p))) as [Hlt|Hge].
  - destruct (addChild_room rt root p c Hok Hp Hc rr Hlt) as (i & Hrun & Hne & Hleft & Hright).
    exists (add_leaf p c i d). split; [done|]. split; [by apply (add_leaf_ok d root)|by apply (add_leaf_grown d root)].
  - destruct Hroom as [?|(Hrr & Hsize & Ht)]; [done|].
    apply (addChild_reindex rt root p c rr); try done. pose proof (free_start_le d root p Hok Hp). fold d. lia.
Qed.

Lemma AddBlock_spec `{FloatConversionOk} (dag_parents : list Z → list (list Z)) (rt : reachabilityManager)
    (root c p rr : list Z) (g : BlockGHOSTDAGData) :
  reach_ok dag_parents rt root → merges dag_parents rt c p g →
  c ∉ dom (reachabilityDataStore rt) → (∀ q, q ∈ dag_parents c → q ∈ dom (reachabilityDataStore rt)) →
  reachabilityReindexRoot rt = Some rr → has_room (reachabilityDataStore rt) p rr →
  ∃ rt', AddBlock c rt = (rt', Ret ()) ∧ reach_ok dag_parents rt' root ∧
         (∀ x, x ∈ dom (reachabilityDataStore rt') ↔ x = c ∨ x ∈ dom (reachabilityDataStore rt)) ∧
         ghostdagDataStore rt' = ghostdagDataStore rt ∧ reachabilityReindexRoot rt' = Some rr.
Proof.
  intros Hok Hm Hc Hpar Hrr Hroom.
  destruct (addChild_grown rt root p c rr (reach_tree _ rt root Hok) (Hpar p (merges_parent _ _ _ _ _ Hm)) Hc Hroom)
    as (d2 & Hrun & Hok2 & Hg).
  by apply (AddBlock_grown dag_parents rt root c p g Hok Hm Hc Hpar d2 Hok2 Hg rr).
Qed.

Module ReachProps.
Import IntervalProps.

(** C15: [AddBlock] keeps the reachability data right, with and without reindexing.
    In a state that describes a DAG ([reach_ok]), add a new block whose parents are
    known and whose merge set is what GHOSTDAG defines, where its selected parent
    has room or lies below a reindex root that has: [AddBlock] terminates without
    error, and the new state describes the DAG with the block. *)
Theorem AddBlock_correct `{FloatConversionOk} (dag_parents : list Z → list (list Z)) (rt : reachabilityManager)
    (root c p rr : list Z) (g : BlockGHOSTDAGData) :
  reach_ok dag_parents rt root → merges dag_parents rt c p g →
  c ∉ dom (reachabilityDataStore rt) → (∀ q, q ∈ dag_parents c → q ∈ dom (reachabilityDataStore rt)) →
  reachabilityReindexRoot rt = Some rr → has_room (reachabilityDataStore rt) p rr →
  ∃ rt', AddBlock c rt = (rt', Ret ()) ∧ reach_ok dag_parents rt' root ∧
         (∀ x, x ∈ dom (reachabilityDataStore rt') ↔ x = c ∨ x ∈ dom (reachabilityDataStore rt)) ∧
         ghostdagDataStore rt' = ghostdagDataStore rt ∧ reachabilityReindexRoot rt' = Some rr.
Proof. apply AddBlock_spec. Qed.

(** [IsDAGAncestorOf] answers questions about the DAG: in a state that describes
    it, the answer is whether the parents of the second block lead to the first. *)
Theorem IsDAGAncestorOf_correct (dag_parents : list Z → list (list Z)) (rt : reachabilityManager) (root A B : list Z) :
  reach_ok dag_parents rt root → A ∈ dom (reachabilityDataStore rt) → B ∈ dom (reachabilityDataStore rt) →
  ∃ answer, IsDAGAncestorOf A B rt = (rt, Ret answer) ∧ (answer = true ↔ dag_anc dag_parents A B).
Proof.
  intros Hok HA HB.
  destruct (IsDAGAncestorOf_run rt root (reach_tree _ _ _ Hok) A B HA HB (reach_ordered _ _ _ Hok A HA)) as (b & Hrun & Hb).
  exists b. split; [done|]. by rewrite Hb, (reach_dag _ rt root Hok).
Qed.

(** Genesis and a block on it. *)
Definition sample_parents (x : list Z) : list (list Z) := if decide (x = [1]) then [[0]] else [].
Definition sample_ghostdag (sp : option (list Z)) : BlockGHOSTDAGData :=
  {| blueScore := 0; blueWork := 0; selectedParent := sp; mergeSetBlues := from_option (λ p, [p]) [] sp;
     mergeSetReds := []; bluesAnticoneSizes := ∅ |}.
Definition sample_empty : reachabilityManager :=
  {| reachabilityDataStore := ∅; reachabilityReindexRoot := None;
     ghostdagDataStore := {[ [0] := sample_ghostdag None; [1] := sample_ghostdag (Some [0]) ]};
     reindexSlack := defaultReindexSlack; reindexWindow := defaultReindexWindow |}.
Definition sample_genesis : reachabilityManager := fst (AddBlock [0] sample_empty).

Lemma sample_genesis_ok : reach_ok sample_parents sample_genesis [0] ∧ dom (reachabilityDataStore sample_genesis) = {[ [0] ]} ∧
  ghostdagDataStore sample_genesis = ghostdagDataStore sample_empty ∧ reachabilityReindexRoot sample_genesis = Some [0].
Proof.
  destruct (AddBlock_genesis sample_parents sample_empty [0] (sample_ghostdag None)) as (rt' & Hrun & Hok); [done..|].
  unfold sample_genesis. by rewrite Hrun.
Qed.

Lemma sample_merges : merges sample_parents sample_genesis [1] [0] (sample_ghostdag (Some [0])).
Proof.
  destruct sample_genesis_ok as (_ & _ & Hg & _). split; [by rewrite Hg|done|by left|].
  intros A. simpl. rewrite list_elem_of_singleton. split; [by left|]. intros [|(Hne & Ha & Hna)]; [done|].
  inversion Ha as [|x q ? Hq Hqa]; subst; [done|]. apply list_elem_of_singleton in Hq as ->. done.
Qed.

Lemma AddBlock_correct_witness :
  ∃ rt', AddBlock [1] sample_genesis = (rt', Ret ()) ∧ reach_ok sample_parents rt' [0] ∧
         (∀ x, x ∈ dom (reachabilityDataStore rt') ↔ x = [1] ∨ x ∈ dom (reachabilityDataStore sample_genesis)) ∧
         ghostdagDataStore rt' = ghostdagDataStore sample_genesis ∧ reachabilityReindexRoot rt' = Some [0].
Proof.
  destruct sample_genesis_ok as (Hok & Hdom & Hg & Hrr).
  apply (AddBlock_correct sample_parents sample_genesis [0] [1] [0] [0] (sample_ghostdag (Some [0])) Hok sample_merges).
  - rewrite Hdom. set_solver.
  - intros q Hq. apply list_elem_of_singleton in Hq as ->. rewrite Hdom. set_solver.
  - done.
  - left. vm_compute. reflexivity.
Defined.

Lemma IsDAGAncestorOf_correct_witness :
  ∃ answer, IsDAGAncestorOf [0] [0] sample_genesis = (sample_genesis, Ret answer) ∧
            (answer = true ↔ dag_anc sample_parents [0] [0]).
Proof.
  destruct sample_genesis_ok as (Hok & Hdom & _).
  apply (IsDAGAncestorOf_correct sample_parents sample_genesis [0] [0] [0] Hok); rewrite Hdom; set_solver.
Defined.

(** The breadth-first [countSubtrees] computes what the recursive definition in
    its comment does.  On the subtree [t] of a node in a store of fewer than 2^64
    nodes, with a cache of right sizes, it terminates without error, changes
    nothing but the cache, and caches the number of nodes of [t] for its root and
    a right size for every node of [t]. *)
Theorem countSubtrees_correct (rt : reachabilityManager) (root : list Z) (t : tree) (C : gmap (list Z) Z) :
  tree_ok (reachabilityDataStore rt) root → rep (children_of (reachabilityDataStore rt)) t →
  troot t ∈ dom (reachabilityDataStore rt) →
  Z.of_nat (size (reachabilityDataStore rt)) < 2 ^ 64 → sizes_ok rt C →
  ∃ C', countSubtrees (troot t) (ctx rt C) = (ctx rt C', Ret ()) ∧ C ⊆ C' ∧ sizes_ok rt C' ∧
        C' !! troot t = Some (1 + zsum (map tsize (kids t))) ∧ ∀ x, x ∈ nodes t → is_Some (C' !! x).
Proof.
  intros Hok Ht Hroot Hsize HC. pose proof (tree_shape _ root Hok) as Hsh. rewrite <- tsize_eq.
  apply (countSubtrees_run rt t Ht); [by apply (nodes_nodup _ Hsh)|..|done|done].
  - intros x Hx%(nodes_anc _ Hsh); [|done]. apply rtc_inv in Hx as [->|(q & Hq & _)]; [done|].
    by apply (parent_dom _ x q).
  - intros x y _ Hy. by apply (sh_child _ Hsh).
Qed.

Definition sample_subtree : tree := Node [0] [Node [1] [Node [3] []]; Node [2] []].

Lemma countSubtrees_correct_witness :
  snd (countSubtrees [0] (ctx (TreeProps.sample_manager TreeProps.sample_tree) ∅)) = Ret () ∧
  ∃ C', countSubtrees [0] (ctx (TreeProps.sample_manager TreeProps.sample_tree) ∅)
          = (ctx (TreeProps.sample_manager TreeProps.sample_tree) C', Ret ()) ∧
        ∅ ⊆ C' ∧ sizes_ok (TreeProps.sample_manager TreeProps.sample_tree) C' ∧
        C' !! [0] = Some (1 + zsum (map tsize (kids sample_subtree))) ∧
        ∀ x, x ∈ nodes sample_subtree → is_Some (C' !! x).
Proof.
  split; [vm_compute; reflexivity|].
  apply (countSubtrees_correct (TreeProps.sample_manager TreeProps.sample_tree) [0] sample_subtree ∅ TreeProps.sample_tree_ok).
  - repeat split.
  - apply elem_of_dom. by eexists.
  - vm_compute. reflexivity.
  - intros x n. by rewrite lookup_empty.
Defined.
End ReachProps.
