(* ===== verification/Difficulty.v ===== *)
(** * Compact targets and work (util/difficulty/difficulty.go)

    A [big.Int] is a [Z].  Of its methods the code uses [Bytes] (the bytes of the
    absolute value), [Bits] (its 64-bit words), [Lsh], [Rsh] (arithmetic) and [Div]
    (Euclidean: the remainder is not negative). *)
From S2P Require Import Prelude.
Local Open Scope Z_scope.

Module Difficulty.
(** [len(n.Bytes())] for [n] not zero *)
Definition byteLen (n : Z) : Z := Z.log2 (Z.abs n) / 8 + 1.

(** [uint32(n.Bits()[0])] for [n] not zero *)
Definition lowWord (n : Z) : Z := GoInt.uint32 (GoInt.uint64 (Z.abs n)).

(** [big.Int.Div]: Euclidean division; the divisors here are not negative. *)
Definition bigDiv (a b : Z) : Z := a / b.

Definition oneLsh256 : Z := Z.shiftl 1 256.

Definition CompactToBigWithDestination (compact : Z) : Z :=
  let mantissa := Z.land compact 0x007fffff in
  let isNegative := negb (Z.land compact 0x00800000 =? 0) in
  let exponent := Z.shiftr compact 24 in
  let destination :=
    if exponent <=? 3 then Z.shiftr mantissa (8 * (3 - exponent))
    else Z.shiftl mantissa (8 * (exponent - 3)) in
  if isNegative then - destination else destination.

Definition CompactToBig (compact : Z) : Z := CompactToBigWithDestination compact.

Definition BigToCompact (n : Z) : Z :=
  if n =? 0 then 0
  else
    let exponent := byteLen n in
    let mantissa :=
      if exponent <=? 3 then GoInt.uint32 (Z.shiftl (lowWord n) (8 * (3 - exponent)))
      else lowWord (Z.shiftr n (8 * (exponent - 3))) in
    let '(mantissa, exponent) :=
      if negb (Z.land mantissa 0x00800000 =? 0) then (Z.shiftr mantissa 8, exponent + 1)
      else (mantissa, exponent) in
    let compact := Z.lor (GoInt.uint32 (Z.shiftl exponent 24)) mantissa in
    if n <? 0 then Z.lor compact 0x00800000 else compact.

Definition CalcWork (bits : Z) : Z :=
  let difficultyNum := CompactToBig bits in
  if difficultyNum <=? 0 then 0
  else bigDiv oneLsh256 (difficultyNum + 1).

(** [getHashrate]: [None] where [big.Int.Div] panics on a zero divisor. *)
Definition getHashrate (target targetTimePerBlockMilliseconds : Z) : option Z :=
  let divisor := bigDiv (target * targetTimePerBlockMilliseconds) 1000 in
  if divisor =? 0 then None else Some (bigDiv oneLsh256 divisor).
End Difficulty.
Import Difficulty.

(** ** The value of a compact number *)

(** [pack e m]: the compact number with exponent [e] and mantissa [m] *)
Definition pack (e m : Z) : Z := e * 2 ^ 24 + m.

Lemma pack_parts e m : 0 ≤ e < 256 → 0 ≤ m < 2 ^ 23 →
  Z.land (pack e m) 0x007fffff = m ∧ Z.land (pack e m) 0x00800000 = 0 ∧ Z.shiftr (pack e m) 24 = e.
Proof.
  intros He Hm. unfold pack. split; [|split].
  - change 0x007fffff with (Z.ones 23). rewrite Z.land_ones by lia.
    replace (e * 2 ^ 24 + m) with (m + (e * 2) * 2 ^ 23) by lia. rewrite Z.mod_add by lia. by apply Z.mod_small.
  - apply Z.bits_inj'. intros i Hi. rewrite Z.land_spec, Z.bits_0.
    change 0x00800000 with (2 ^ 23). destruct (decide (i = 23)) as [->|Hne].
    + replace (e * 2 ^ 24 + m) with (m + (e * 2) * 2 ^ 23) by lia.
      apply andb_false_intro1, not_true_is_false. intros Hb.
      apply Z.testbit_true in Hb; [|lia]. rewrite Z.div_add, Z.div_small in Hb by lia.
      rewrite Z.add_0_l, Z.mod_mul in Hb by lia. lia.
    + rewrite Z.pow2_bits_false by done. apply andb_false_r.
  - rewrite Z.shiftr_div_pow2 by lia. rewrite Z.add_comm, Z.div_add, Z.div_small by lia. lia.
Qed.

Lemma CompactToBig_pack e m : 0 ≤ e < 256 → 0 ≤ m < 2 ^ 23 →
  CompactToBig (pack e m) = if e <=? 3 then m / 256 ^ (3 - e) else m * 256 ^ (e - 3).
Proof.
  intros He Hm. unfold CompactToBig, CompactToBigWithDestination.
  destruct (pack_parts e m He Hm) as (-> & -> & ->). cbn [negb Z.eqb].
  assert (∀ k, 0 ≤ k → 256 ^ k = 2 ^ (8 * k)) as Hpow by (intros k Hk; by rewrite Z.pow_mul_r by lia).
  destruct (Z.leb_spec e 3).
  - by rewrite Z.shiftr_div_pow2, Hpow by lia.
  - by rewrite Z.shiftl_mul_pow2, Hpow by lia.
Qed.

(** The exponent and the mantissa [BigToCompact] finds. *)
Lemma byteLen_bounds n : 0 < n → 1 ≤ byteLen n ∧ 256 ^ (byteLen n - 1) ≤ n < 256 ^ byteLen n.
Proof.
  intros Hn. unfold byteLen. rewrite Z.abs_eq by lia. set (k := Z.log2 n / 8).
  pose proof (Z.log2_nonneg n). assert (0 ≤ k) by (apply Z.div_pos; lia).
  destruct (Z.log2_spec n Hn) as [Hlo Hhi]. pose proof (Z.div_mod (Z.log2 n) 8). pose proof (Z.mod_pos_bound (Z.log2 n) 8).
  fold k in H1. split; [lia|]. replace (k + 1 - 1) with k by lia. change 256 with (2 ^ 8). rewrite <- !Z.pow_mul_r by lia.
  split.
  - etrans; [|exact Hlo]. apply Z.pow_le_mono_r; lia.
  - eapply Z.lt_le_trans; [exact Hhi|]. apply Z.pow_le_mono_r; lia.
Qed.

Lemma pack_lor e m : 0 ≤ e < 256 → 0 ≤ m < 2 ^ 24 → Z.lor (GoInt.uint32 (Z.shiftl e 24)) m = pack e m.
Proof.
  intros He Hm. unfold pack. rewrite Z.lor_comm.
  assert (GoInt.uint32 (Z.shiftl e 24) = Z.shiftl e 24) as ->.
  { apply GoInt.uwrap_id. unfold GoInt.in_uint. rewrite Z.shiftl_mul_pow2 by lia. lia. }
  rewrite lor_shiftl_disjoint by lia. lia.
Qed.

Lemma sign_bit m : 0 ≤ m < 2 ^ 24 → (Z.land m 0x00800000 =? 0) = (m <? 2 ^ 23).
Proof.
  intros Hm. change 0x00800000 with (2 ^ 23).
  assert (Z.land m (2 ^ 23) = if Z.testbit m 23 then 2 ^ 23 else 0) as ->.
  { apply Z.bits_inj'. intros i Hi. rewrite Z.land_spec. destruct (decide (i = 23)) as [->|Hne].
    - rewrite Z.pow2_bits_true by lia. rewrite andb_true_r. destruct (Z.testbit m 23); [by rewrite Z.pow2_bits_true|by rewrite Z.bits_0].
    - rewrite Z.pow2_bits_false by done. rewrite andb_false_r.
      destruct (Z.testbit m 23); [by rewrite Z.pow2_bits_false|by rewrite Z.bits_0]. }
  destruct (Z.ltb_spec m (2 ^ 23)) as [Hlt|Hge].
  - assert (Z.testbit m 23 = false) as ->; [|done]. apply not_true_is_false. intros Hb.
    apply Z.testbit_true in Hb; [|lia]. rewrite Z.div_small in Hb by lia. done.
  - assert (Z.testbit m 23 = true) as ->; [|done]. apply Z.testbit_true; [lia|].
    assert (m / 2 ^ 23 = 1) as ->; [|done]. symmetry. apply (Z.div_unique _ _ _ (m - 2 ^ 23)); lia.
Qed.

(** [scaled n e]: [n] in units of [256 ^ (e - 3)], rounded down *)
Definition scaled (n e : Z) : Z := if e <=? 3 then n * 256 ^ (3 - e) else n / 256 ^ (e - 3).

Lemma lowWord_id n : 0 ≤ n < 2 ^ 32 → lowWord n = n.
Proof.
  intros Hn. unfold lowWord. rewrite Z.abs_eq, GoInt.uint64_id by lia. by apply GoInt.uwrap_id.
Qed.

Lemma scaled_range n : 0 < n → 2 ^ 16 ≤ scaled n (byteLen n) < 2 ^ 24.
Proof.
  intros Hn. destruct (byteLen_bounds n Hn) as (He & Hlo & Hhi). set (e := byteLen n) in *. unfold scaled.
  change (2 ^ 16) with (256 ^ 2). change (2 ^ 24) with (256 ^ 3). destruct (Z.leb_spec e 3) as [Hle|Hgt].
  - assert (0 < 256 ^ (3 - e)) by (apply Z.pow_pos_nonneg; lia).
    replace (256 ^ 2) with (256 ^ (e - 1) * 256 ^ (3 - e)) by (rewrite <- Z.pow_add_r by lia; f_equal; lia).
    replace (256 ^ 3) with (256 ^ e * 256 ^ (3 - e)) by (rewrite <- Z.pow_add_r by lia; f_equal; lia). nia.
  - assert (0 < 256 ^ (e - 3)) by (apply Z.pow_pos_nonneg; lia). split.
    + apply Z.div_le_lower_bound; [done|]. rewrite <- Z.pow_add_r by lia. by replace (e - 3 + 2) with (e - 1) by lia.
    + apply Z.div_lt_upper_bound; [done|]. rewrite <- Z.pow_add_r by lia. by replace (e - 3 + 3) with e by lia.
Qed.

Lemma BigToCompact_pos n : 0 < n < 256 ^ 254 →
  BigToCompact n =
    let e := byteLen n in
    if scaled n e <? 2 ^ 23 then pack e (scaled n e) else pack (e + 1) (scaled n e / 256).
Proof.
  intros Hn. destruct (byteLen_bounds n ltac:(lia)) as (He & Hlo & Hhi). pose proof (scaled_range n ltac:(lia)) as Hs.
  unfold BigToCompact. rewrite (proj2 (Z.eqb_neq _ _)) by lia. rewrite (proj2 (Z.ltb_ge n 0)) by lia.
  set (e := byteLen n) in *. cbv zeta.
  assert (e ≤ 254) as He'.
  { destruct (decide (e ≤ 254)) as [|Hgt]; [done|]. assert (256 ^ 254 ≤ 256 ^ (e - 1)) by (apply Z.pow_le_mono_r; lia). lia. }
  assert ((if e <=? 3 then GoInt.uint32 (Z.shiftl (lowWord n) (8 * (3 - e))) else lowWord (Z.shiftr n (8 * (e - 3))))
    = scaled n e) as ->.
  { unfold scaled in *. destruct (Z.leb_spec e 3).
    - assert (n < 2 ^ 24).
      { eapply Z.lt_le_trans; [exact Hhi|]. change (2 ^ 24) with (256 ^ 3). apply Z.pow_le_mono_r; lia. }
      rewrite lowWord_id by lia. rewrite Z.shiftl_mul_pow2, Z.pow_mul_r by lia. apply GoInt.uwrap_id.
      unfold GoInt.in_uint. change (2 ^ 8) with 256. lia.
    - rewrite Z.shiftr_div_pow2, Z.pow_mul_r by lia. change (2 ^ 8) with 256. apply lowWord_id. lia. }
  rewrite sign_bit by lia. destruct (Z.ltb_spec (scaled n e) (2 ^ 23)); cbn [negb].
  - apply pack_lor; lia.
  - rewrite Z.shiftr_div_pow2 by lia. apply pack_lor; [lia|]. change (2 ^ 8) with 256. split.
    + apply Z.div_pos; lia.
    + apply Z.div_lt_upper_bound; lia.
Qed.

Lemma byteLen_unique n k : 1 ≤ k → 256 ^ (k - 1) ≤ n < 256 ^ k → byteLen n = k.
Proof.
  intros Hk Hn. assert (0 < 256 ^ (k - 1)) by (apply Z.pow_pos_nonneg; lia).
  destruct (byteLen_bounds n ltac:(lia)) as (He & Hlo & Hhi).
  destruct (Z.lt_trichotomy (byteLen n) k) as [Hlt|[|Hgt]]; [|done|].
  - assert (256 ^ byteLen n ≤ 256 ^ (k - 1)) by (apply Z.pow_le_mono_r; lia). lia.
  - assert (256 ^ k ≤ 256 ^ (byteLen n - 1)) by (apply Z.pow_le_mono_r; lia). lia.
Qed.

(** A normalized compact number is recovered from its value. *)
Lemma BigToCompact_CompactToBig e m : 3 ≤ e ≤ 253 → 2 ^ 15 ≤ m < 2 ^ 23 →
  CompactToBig (pack e m) = m * 256 ^ (e - 3) ∧ BigToCompact (CompactToBig (pack e m)) = pack e m.
Proof.
  intros He Hm. assert (0 < 256 ^ (e - 3)) as Hp by (apply Z.pow_pos_nonneg; lia).
  assert (CompactToBig (pack e m) = m * 256 ^ (e - 3)) as Hval.
  { rewrite CompactToBig_pack by lia. destruct (Z.leb_spec e 3); [|done]. assert (e = 3) as -> by lia.
    change (256 ^ (3 - 3)) with 1. by rewrite Z.div_1_r, Z.mul_1_r. }
  split; [done|]. rewrite Hval. set (n := m * 256 ^ (e - 3)).
  assert (∀ k, 0 ≤ k → 256 ^ (e - 3 + k) = 256 ^ (e - 3) * 256 ^ k) as Hadd by (intros; apply Z.pow_add_r; lia).
  assert (256 ^ e = 256 ^ (e - 3) * 256 ^ 3) as E3 by (rewrite <- Hadd by lia; f_equal; lia).
  assert (256 ^ (e - 1) = 256 ^ (e - 3) * 256 ^ 2) as E2 by (rewrite <- Hadd by lia; f_equal; lia).
  assert (256 ^ (e - 2) = 256 ^ (e - 3) * 256 ^ 1) as E1 by (rewrite <- Hadd by lia; f_equal; lia).
  change (256 ^ 3) with (2 ^ 24) in E3. change (256 ^ 2) with (2 ^ 16) in E2. change (256 ^ 1) with (2 ^ 8) in E1.
  assert (n < 256 ^ 254) as Hn.
  { assert (256 ^ e ≤ 256 ^ 254) by (apply Z.pow_le_mono_r; lia). unfold n. nia. }
  rewrite BigToCompact_pos by (unfold n in *; nia). cbv zeta.
  destruct (Z.le_gt_cases (2 ^ 16) m) as [Hbig|Hsmall].
  - assert (byteLen n = e) as -> by (apply byteLen_unique; [lia|]; unfold n; nia).
    assert (scaled n e = m) as ->; [|by rewrite (proj2 (Z.ltb_lt _ _)) by lia].
    unfold scaled, n. destruct (Z.leb_spec e 3); [|by apply Z.div_mul; lia].
    assert (e = 3) as -> by lia. change (256 ^ (3 - 3)) with 1. lia.
  - assert (byteLen n = e - 1) as ->.
    { apply byteLen_unique; [lia|]. replace (e - 1 - 1) with (e - 2) by lia. unfold n. nia. }
    assert (scaled n (e - 1) = m * 256) as ->.
    { unfold scaled, n. destruct (Z.leb_spec (e - 1) 3).
      - rewrite <- Z.mul_assoc, <- Z.pow_add_r by lia. replace (e - 3 + (3 - (e - 1))) with 1 by lia. lia.
      - replace (256 ^ (e - 3)) with (256 * 256 ^ (e - 1 - 3)) by (rewrite <- Z.pow_succ_r by lia; f_equal; lia).
        rewrite Z.mul_assoc. apply Z.div_mul. apply Z.pow_nonzero; lia. }
    rewrite (proj2 (Z.ltb_ge _ _)) by lia. rewrite Z.div_mul by lia. f_equal. lia.
Qed.

(** The value of [BigToCompact n] is [n] with all but its highest bits cleared. *)
Lemma CompactToBig_BigToCompact n : 0 < n < 256 ^ 252 →
  CompactToBig (BigToCompact n) = n ∨
  ∃ e, 4 ≤ e ≤ 253 ∧ 2 ^ 15 ≤ n / 256 ^ (e - 3) < 2 ^ 23 ∧ BigToCompact n = pack e (n / 256 ^ (e - 3)).
Proof.
  intros Hn. assert (256 ^ 252 < 256 ^ 254) as Hpp by (apply Z.pow_lt_mono_r; lia).
  rewrite BigToCompact_pos by lia. cbv zeta. destruct (byteLen_bounds n ltac:(lia)) as (He & Hlo & Hhi).
  pose proof (scaled_range n ltac:(lia)) as Hs. set (e := byteLen n) in *.
  assert (e ≤ 252) as He'.
  { destruct (decide (e ≤ 252)) as [|Hgt]; [done|]. assert (256 ^ 252 ≤ 256 ^ (e - 1)) by (apply Z.pow_le_mono_r; lia). lia. }
  unfold scaled in *. destruct (Z.leb_spec e 3) as [Hle|Hgt].
  - assert (0 < 256 ^ (3 - e)) by (apply Z.pow_pos_nonneg; lia). destruct (Z.ltb_spec (n * 256 ^ (3 - e)) (2 ^ 23)).
    + left. rewrite CompactToBig_pack by lia. rewrite (proj2 (Z.leb_le _ _)) by lia. by rewrite Z.div_mul by lia.
    + destruct (decide (e = 3)) as [->|Hne].
      * right. exists 4. change (256 ^ (3 - 3)) with 1 in *. rewrite Z.mul_1_r in *. change (256 ^ (4 - 3)) with 256.
        split; [lia|]. split; [|done]. split; [apply Z.div_le_lower_bound; lia|apply Z.div_lt_upper_bound; lia].
      * left. replace (256 ^ (3 - e)) with (256 ^ (3 - (e + 1)) * 256) in * by
          (rewrite Z.mul_comm, <- Z.pow_succ_r by lia; f_equal; lia).
        rewrite Z.mul_assoc, Z.div_mul by lia. assert (0 < 256 ^ (3 - (e + 1))) by (apply Z.pow_pos_nonneg; lia).
        rewrite CompactToBig_pack by nia. rewrite (proj2 (Z.leb_le _ _)) by lia. by rewrite Z.div_mul by lia.
  - right. destruct (Z.ltb_spec (n / 256 ^ (e - 3)) (2 ^ 23)); [by exists e; repeat split; lia|].
    exists (e + 1). assert (n / 256 ^ (e + 1 - 3) = n / 256 ^ (e - 3) / 256) as ->.
    { rewrite Z.div_div by (try apply Z.pow_nonzero; lia). f_equal. rewrite Z.mul_comm, <- Z.pow_succ_r by lia. f_equal. lia. }
    split; [lia|]. split; [|done]. split; [apply Z.div_le_lower_bound; lia|apply Z.div_lt_upper_bound; lia].
Qed.

Module DifficultyProps.
(** Compact targets.  A compact number in normal form (mantissa between 2^15 and
    2^23 - 1, exponent at least 3) is what [BigToCompact] makes of its value; and
    [BigToCompact] rounds a positive target down by less than one part in 2^15, to a
    positive target with the same compact form.  The work of a positive target
    below 2^256 is positive. *)
Theorem compact_roundtrip :
  (∀ e m, 3 ≤ e ≤ 253 → 2 ^ 15 ≤ m < 2 ^ 23 → BigToCompact (CompactToBig (pack e m)) = pack e m) ∧
  (∀ n, 0 < n < 256 ^ 252 →
   let r := CompactToBig (BigToCompact n) in
   0 < r ≤ n ∧ (n - r) * 2 ^ 15 < n ∧ BigToCompact r = BigToCompact n) ∧
  (∀ bits, 0 < CompactToBig bits < 2 ^ 256 → 0 < CalcWork bits).
Proof.
  split; [|split].
  - intros e m He Hm. by apply BigToCompact_CompactToBig.
  - intros n Hn r. destruct (CompactToBig_BigToCompact n Hn) as [Hr|(e & He & Hm & Hc)].
    + fold r in Hr. rewrite Hr. lia.
    + destruct (BigToCompact_CompactToBig e (n / 256 ^ (e - 3)) ltac:(lia) Hm) as [Hval Hround].
      rewrite <- Hc in Hval, Hround. fold r in Hval, Hround. split; [|split; [|done]].
      * assert (0 < 256 ^ (e - 3)) by (apply Z.pow_pos_nonneg; lia). pose proof (Z.mul_div_le n (256 ^ (e - 3))). nia.
      * assert (0 < 256 ^ (e - 3)) by (apply Z.pow_pos_nonneg; lia). pose proof (Z.div_mod n (256 ^ (e - 3))).
        pose proof (Z.mod_pos_bound n (256 ^ (e - 3))). nia.
  - intros bits Hb. unfold CalcWork. rewrite (proj2 (Z.leb_gt _ _)) by lia. unfold bigDiv.
    change oneLsh256 with (2 ^ 256). apply Z.div_str_pos. lia.
Qed.

Example compact_mainnet : CompactToBig 0x207fffff = 0x7fffff * 256 ^ 29 ∧ BigToCompact (2 ^ 255 - 1) = 0x207fffff.
Proof. split; vm_compute; reflexivity. Qed.
End DifficultyProps.
