(* ===== verification/DagTopology.v ===== *)
(** * DAG relations (processes/dagtopologymanager)

    The interface [DAGTopologyManager] that GHOSTDAG and its clients use, with what
    it promises ([TopologyOk]); the manager that implements it over the relation
    store and the reachability manager; [SetParents].  The relation store hands
    out and keeps copies, so it is a map of values. *)
From S2P Require Import Prelude Interval ReachabilityData Reachability ReachabilityTree ReachabilityAdd.
Import Interval Store Reachability.
Local Open Scope Z_scope.
Local Open Scope prog_scope.

Abbreviation hash := (list Z) (only parsing).

(** ** The interface *)
Class DAGTopologyManager := {
  Parents : hash → outcome reachabilityError (list hash);
  IsAncestorOf : hash → hash → outcome reachabilityError bool
}.

(** What it promises on the known blocks of a DAG. *)
Class TopologyOk `{DAGTopologyManager} (dag_parents : hash → list hash) (known : gset hash) : Prop := {
  parents_ok x : x ∈ known → Parents x = Ret (dag_parents x);
  ancestor_ok a b : a ∈ known → b ∈ known →
    ∃ answer, IsAncestorOf a b = Ret answer ∧ (answer = true ↔ dag_anc dag_parents a b)
}.

(** ** The manager *)
Record BlockRelations := { br_Parents : list hash; br_Children : list hash }.

Record dagTopologyManager := {
  dt_reachabilityManager : reachabilityManager;
  dt_blockRelationStore : gmap hash BlockRelations
}.

Module DagTopology.
Abbreviation topology A := (prog dagTopologyManager reachabilityError A) (only parsing).

Definition reachability {A} (m : prog reachabilityManager reachabilityError A) : topology A :=
  zoom dt_reachabilityManager
    (λ rt dtm, {| dt_reachabilityManager := rt; dt_blockRelationStore := dt_blockRelationStore dtm |}) m.

Definition BlockRelation (blockHash : hash) : topology BlockRelations :=
  let* dtm := get in
  match dt_blockRelationStore dtm !! blockHash with
  | Some relations => ret relations
  | None => fail ErrNotFound
  end.

Definition HasBlockRelation (blockHash : hash) : topology bool :=
  let* dtm := get in ret (bool_decide (is_Some (dt_blockRelationStore dtm !! blockHash))).

Definition StageBlockRelation (blockHash : hash) (relations : BlockRelations) : topology unit :=
  modify (λ dtm, {| dt_reachabilityManager := dt_reachabilityManager dtm;
                    dt_blockRelationStore := <[blockHash := relations]> (dt_blockRelationStore dtm) |}).

Definition dtm_Parents (blockHash : hash) : topology (list hash) :=
  let* relations := BlockRelation blockHash in ret (br_Parents relations).
Definition dtm_Children (blockHash : hash) : topology (list hash) :=
  let* relations := BlockRelation blockHash in ret (br_Children relations).

(** [isHashInSlice] *)
Fixpoint isHashInSlice (x : hash) (hashes : list hash) : bool :=
  match hashes with
  | [] => false
  | h :: hashes => if bool_decide (h = x) then true else isHashInSlice x hashes
  end.

Definition IsParentOf (blockHashA blockHashB : hash) : topology bool :=
  let* relations := BlockRelation blockHashB in ret (isHashInSlice blockHashA (br_Parents relations)).
Definition IsChildOf (blockHashA blockHashB : hash) : topology bool :=
  let* relations := BlockRelation blockHashB in ret (isHashInSlice blockHashA (br_Children relations)).

Definition dtm_IsAncestorOf (blockHashA blockHashB : hash) : topology bool :=
  reachability (IsDAGAncestorOf blockHashA blockHashB).

Fixpoint IsAncestorOfAny (blockHash : hash) (potentialDescendants : list hash) : topology bool :=
  match potentialDescendants with
  | [] => ret false
  | potentialDescendant :: rest =>
      let* isAncestorOf := dtm_IsAncestorOf blockHash potentialDescendant in
      if (isAncestorOf : bool) then ret true else IsAncestorOfAny blockHash rest
  end.

Fixpoint IsAnyAncestorOf (potentialAncestors : list hash) (blockHash : hash) : topology bool :=
  match potentialAncestors with
  | [] => ret false
  | potentialAncestor :: rest =>
      let* isAncestorOf := dtm_IsAncestorOf potentialAncestor blockHash in
      if (isAncestorOf : bool) then ret true else IsAnyAncestorOf rest blockHash
  end.

Definition IsInSelectedParentChainOf (blockHashA blockHashB : hash) : topology bool :=
  reachability (IsReachabilityTreeAncestorOf blockHashA blockHashB).

(** [for i, parentChild := range Children]: remove the first occurrence *)
Fixpoint removeFirst (child : hash) (children : list hash) : option (list hash) :=
  match children with
  | [] => None
  | c :: rest => if bool_decide (c = child) then Some rest else (c ::.) <$> removeFirst child rest
  end.

(** Remove the block from its current parents. *)
Fixpoint unlinkParents (blockHash : hash) (currentParents : list hash) : topology unit :=
  match currentParents with
  | [] => ret ()
  | currentParent :: rest =>
      let* parentRelations := BlockRelation currentParent in
      (match removeFirst blockHash (br_Children parentRelations) with
       | Some children =>
           StageBlockRelation currentParent {| br_Parents := br_Parents parentRelations; br_Children := children |}
       | None => ret ()
       end) ;;*
      unlinkParents blockHash rest
  end.

(** Add the block to the children of its new parents. *)
Fixpoint linkParents (blockHash : hash) (parentHashes : list hash) : topology unit :=
  match parentHashes with
  | [] => ret ()
  | parent :: rest =>
      let* parentRelations := BlockRelation parent in
      (if isHashInSlice blockHash (br_Children parentRelations) then ret ()
       else StageBlockRelation parent
              {| br_Parents := br_Parents parentRelations; br_Children := br_Children parentRelations ++ [blockHash] |}) ;;*
      linkParents blockHash rest
  end.

Definition SetParents (blockHash : hash) (parentHashes : list hash) : topology unit :=
  let* hasRelations := HasBlockRelation blockHash in
  (if (hasRelations : bool) then
     let* currentRelations := BlockRelation blockHash in
     unlinkParents blockHash (br_Parents currentRelations)
   else ret ()) ;;*
  linkParents blockHash parentHashes ;;*
  StageBlockRelation blockHash {| br_Parents := parentHashes; br_Children := [] |}.

(** [highHash == model.VirtualBlockHash] compares pointers; a hash that is not the
    shared value [VirtualBlockHash] never equals it, whatever its bytes, so the
    caller says which it is. *)
Definition ChildInSelectedParentChainOf (context highHash : hash) (isVirtual : bool) : topology hash :=
  let chain highHash :=
    let* isInSelectedParentChain := IsInSelectedParentChainOf context highHash in
    if (isInSelectedParentChain : bool) then reachability (FindNextAncestor highHash context)
    else fail ErrNotAncestor in
  if isVirtual then
    let* data := reachability (ghostdagData highHash) in
    if bool_decide (Some context = selectedParent data) then ret highHash
    else let* highHash := reachability (deref (selectedParent data)) in chain highHash
  else chain highHash.

(** ** The manager implements the interface *)
Definition as_interface (dtm : dagTopologyManager) : DAGTopologyManager :=
  {| Parents x := snd (dtm_Parents x dtm); IsAncestorOf a b := snd (dtm_IsAncestorOf a b dtm) |}.
End DagTopology.
Import DagTopology.

(** Relations that describe the DAG on the nodes of the tree, and reachability data
    that does: the interface keeps its promise. *)
Lemma as_interface_ok dtm dag_parents root :
  reach_ok dag_parents (dt_reachabilityManager dtm) root →
  (∀ x, x ∈ dom (reachabilityDataStore (dt_reachabilityManager dtm)) →
        br_Parents <$> dt_blockRelationStore dtm !! x = Some (dag_parents x)) →
  @TopologyOk (as_interface dtm) dag_parents (dom (reachabilityDataStore (dt_reachabilityManager dtm))).
Proof.
  intros Hok Hrel. split.
  - intros x Hx. specialize (Hrel x Hx). simpl. unfold dtm_Parents, BlockRelation, bind, get.
    destruct (dt_blockRelationStore dtm !! x); [|done]. simpl in *. congruence.
  - intros a b Ha Hb. simpl. unfold dtm_IsAncestorOf, reachability, zoom.
    destruct (IsDAGAncestorOf_run _ root (reach_tree _ _ _ Hok) a b Ha Hb (reach_ordered _ _ _ Hok a Ha)) as (ans & -> & Hans).
    exists ans. split; [done|]. by rewrite Hans, (reach_dag _ _ root Hok).
Qed.

(** ** [SetParents] keeps the relations mutual *)
Definition relations_ok (R : gmap (list Z) BlockRelations) : Prop :=
  ∀ x rx, R !! x = Some rx → NoDup (br_Children rx) ∧
    (∀ y, y ∈ br_Parents rx → ∃ ry, R !! y = Some ry ∧ x ∈ br_Children ry) ∧
    (∀ c, c ∈ br_Children rx → ∃ rc, R !! c = Some rc ∧ x ∈ br_Parents rc).

Definition with_relations (R : gmap (list Z) BlockRelations) (dtm : dagTopologyManager) : dagTopologyManager :=
  {| dt_reachabilityManager := dt_reachabilityManager dtm; dt_blockRelationStore := R |}.

(** The effect of the two loops on the entry [r] of a parent. *)
Definition drop_child (b : hash) (r : BlockRelations) : BlockRelations :=
  {| br_Parents := br_Parents r; br_Children := filter (.≠ b) (br_Children r) |}.
Definition add_child (b : hash) (r : BlockRelations) : BlockRelations :=
  {| br_Parents := br_Parents r; br_Children := if decide (b ∈ br_Children r) then br_Children r else br_Children r ++ [b] |}.

Lemma isHashInSlice_spec x l : isHashInSlice x l = bool_decide (x ∈ l).
Proof.
  induction l as [|y l IH]; [by rewrite bool_decide_eq_false_2 by (by intros ?%elem_of_nil)|]. simpl. destruct (bool_decide_reflect (y = x)) as [Hy|Hy].
  - subst. symmetry. apply bool_decide_eq_true_2. apply list_elem_of_here.
  - rewrite IH. apply bool_decide_ext. rewrite elem_of_cons. naive_solver.
Qed.

Lemma filter_all {A} (P : A → Prop) `{∀ x, Decision (P x)} (l : list A) : (∀ x, x ∈ l → P x) → filter P l = l.
Proof.
  induction l as [|x l IH]; intros Hall; [done|]. rewrite filter_cons, decide_True by (apply Hall; by left).
  f_equal. apply IH. intros y Hy. apply Hall. by right.
Qed.

Lemma removeFirst_spec b l : NoDup l →
  removeFirst b l = if decide (b ∈ l) then Some (filter (.≠ b) l) else None.
Proof.
  induction 1 as [|y l Hy Hl IH]; [done|]. simpl. rewrite filter_cons. case_bool_decide as Hyb.
  - subst. rewrite (decide_True (P := b ∈ b :: l)) by apply list_elem_of_here. rewrite decide_False by naive_solver. f_equal.
    symmetry. apply filter_all. by intros z Hz ->.
  - rewrite IH, (decide_True (P := y ≠ b)) by done. destruct (decide (b ∈ l)).
    + by rewrite decide_True by (by right).
    + by rewrite decide_False by (rewrite elem_of_cons; naive_solver).
Qed.

(** Updating the entries of the blocks [ps] with an idempotent function. *)
Definition update_all (f : BlockRelations → BlockRelations) (ps : list hash) (R : gmap (list Z) BlockRelations) :=
  map_imap (λ x r, Some (if decide (x ∈ ps) then f r else r)) R.

Lemma update_all_lookup f ps R x : update_all f ps R !! x = (λ r, if decide (x ∈ ps) then f r else r) <$> R !! x.
Proof. unfold update_all. rewrite map_lookup_imap. by destruct (R !! x). Qed.

Lemma update_all_nil f R : update_all f [] R = R.
Proof.
  apply map_eq. intros x. rewrite update_all_lookup. by destruct (R !! x).
Qed.

Lemma update_all_step f p ps R r : (∀ r, f (f r) = f r) → R !! p = Some r →
  update_all f ps (<[p := f r]> R) = update_all f (p :: ps) R.
Proof.
  intros Hf Hr. apply map_eq. intros x. rewrite !update_all_lookup. destruct (decide (x = p)) as [->|Hne].
  - rewrite lookup_insert_eq, Hr. simpl. rewrite (decide_True (P := p ∈ p :: ps)) by (by left). case_decide; by rewrite ?Hf.
  - rewrite lookup_insert_ne by done. destruct (R !! x); [|done]. simpl. f_equal.
    destruct (decide (x ∈ ps)); [by rewrite decide_True by (by right)|]. by rewrite decide_False by (rewrite elem_of_cons; naive_solver).
Qed.

Lemma drop_child_idemp b r : drop_child b (drop_child b r) = drop_child b r.
Proof.
  unfold drop_child. simpl. f_equal. apply filter_all. intros x Hx.
  by apply list_elem_of_filter in Hx as [? _].
Qed.
Lemma add_child_in b r : b ∈ br_Children (add_child b r).
Proof. unfold add_child. simpl. case_decide; [done|]. apply elem_of_app. right. by left. Qed.
Lemma add_child_idemp b r : add_child b (add_child b r) = add_child b r.
Proof. pose proof (add_child_in b r). unfold add_child at 1. rewrite decide_True by done. by destruct (add_child b r). Qed.

Lemma unlinkParents_run b ps : ∀ dtm, (∀ p, p ∈ ps → p ∈ dom (dt_blockRelationStore dtm)) →
  (∀ x r, dt_blockRelationStore dtm !! x = Some r → NoDup (br_Children r)) →
  unlinkParents b ps dtm = (with_relations (update_all (drop_child b) ps (dt_blockRelationStore dtm)) dtm, Ret ()).
Proof.
  induction ps as [|p ps IH]; intros dtm Hdom Hnd; cbn [unlinkParents].
  { rewrite update_all_nil. by destruct dtm. }
  pose proof (Hdom p ltac:(by left)) as [r Hr]%elem_of_dom.
  rewrite (bind_ret_l _ _ dtm dtm r) by (unfold BlockRelation, bind, get; by rewrite Hr).
  rewrite removeFirst_spec by (by apply (Hnd p)).
  set (R1 := <[p := drop_child b r]> (dt_blockRelationStore dtm)).
  assert ((match (if decide (b ∈ br_Children r) then Some (filter (.≠ b) (br_Children r)) else None) with
    | Some children => StageBlockRelation p {| br_Parents := br_Parents r; br_Children := children |}
    | None => ret () end) dtm = (with_relations R1 dtm, Ret ())) as Hstep.
  { case_decide as Hb; [done|]. unfold ret. f_equal. destruct dtm as [m R]. unfold with_relations, R1. simpl in *. f_equal.
    symmetry. apply insert_id. rewrite Hr. f_equal. destruct r as [ps' cs]. unfold drop_child. simpl in *. f_equal.
    symmetry. apply filter_all. by intros x Hx ->. }
  rewrite (bind_ret_l _ _ _ _ _ Hstep), IH.
  - unfold with_relations. simpl. unfold R1. by rewrite update_all_step by (done || apply drop_child_idemp).
  - intros q Hq. simpl. unfold R1. rewrite dom_insert. apply elem_of_union_r, Hdom. by right.
  - intros x rx. simpl. unfold R1. rewrite lookup_insert_Some. intros [[<- <-]|[_ Hx]]; [|by apply (Hnd x)].
    apply NoDup_filter. by apply (Hnd p).
Qed.

Lemma linkParents_run b ps : ∀ dtm, (∀ p, p ∈ ps → p ∈ dom (dt_blockRelationStore dtm)) →
  linkParents b ps dtm = (with_relations (update_all (add_child b) ps (dt_blockRelationStore dtm)) dtm, Ret ()).
Proof.
  induction ps as [|p ps IH]; intros dtm Hdom; cbn [linkParents].
  { rewrite update_all_nil. by destruct dtm. }
  pose proof (Hdom p ltac:(by left)) as [r Hr]%elem_of_dom.
  rewrite (bind_ret_l _ _ dtm dtm r) by (unfold BlockRelation, bind, get; by rewrite Hr).
  rewrite isHashInSlice_spec. set (R1 := <[p := add_child b r]> (dt_blockRelationStore dtm)).
  assert ((if bool_decide (b ∈ br_Children r) then ret () else StageBlockRelation p
    {| br_Parents := br_Parents r; br_Children := br_Children r ++ [b] |}) dtm = (with_relations R1 dtm, Ret ())) as Hstep.
  { unfold R1, add_child. case_bool_decide as Hb; [rewrite decide_True by done|by rewrite decide_False by done].
    unfold ret. f_equal. destruct dtm as [m R]. unfold with_relations. simpl in *. f_equal. symmetry. apply insert_id.
    rewrite Hr. by destruct r. }
  rewrite (bind_ret_l _ _ _ _ _ Hstep), IH.
  - unfold with_relations. simpl. unfold R1. by rewrite update_all_step by (done || apply add_child_idemp).
  - intros q Hq. simpl. unfold R1. rewrite dom_insert. apply elem_of_union_r, Hdom. by right.
Qed.

(** The relations after [SetParents b ps], given the old parents of [b]. *)
Definition reparented (b : hash) (old ps : list hash) (R : gmap (list Z) BlockRelations) : gmap (list Z) BlockRelations :=
  <[b := {| br_Parents := ps; br_Children := [] |}]> (update_all (add_child b) ps (update_all (drop_child b) old R)).

Lemma update_all_dom f ps R : dom (update_all f ps R) = dom R.
Proof. apply set_eq. intros x. rewrite !elem_of_dom, update_all_lookup. by rewrite fmap_is_Some. Qed.

Lemma SetParents_run b ps dtm : relations_ok (dt_blockRelationStore dtm) →
  (∀ p, p ∈ ps → p ∈ dom (dt_blockRelationStore dtm)) →
  SetParents b ps dtm =
    (with_relations (reparented b (from_option br_Parents [] (dt_blockRelationStore dtm !! b)) ps (dt_blockRelationStore dtm)) dtm, Ret ()).
Proof.
  intros Hok Hps. unfold SetParents. destruct dtm as [m R]. simpl in *.
  erewrite bind_ret_l by reflexivity. simpl.
  set (R1 := update_all (drop_child b) (from_option br_Parents [] (R !! b)) R).
  rewrite (bind_ret_l _ _ _ (with_relations R1 {| dt_reachabilityManager := m; dt_blockRelationStore := R |}) ()).
  - erewrite bind_ret_l by (apply linkParents_run; simpl; unfold R1; rewrite update_all_dom; exact Hps). done.
  - unfold R1. destruct (R !! b) as [rb|] eqn:Hb.
    + rewrite bool_decide_eq_true_2 by eauto. erewrite bind_ret_l by (unfold BlockRelation, bind, get; simpl; by rewrite Hb).
      rewrite unlinkParents_run; [done|..]; simpl.
      * intros p Hp. destruct (Hok b rb Hb) as (_ & Hp' & _). destruct (Hp' p Hp) as (? & ? & _). by apply elem_of_dom_2 with x.
      * intros x r Hx. by apply (Hok x r Hx).
    + rewrite bool_decide_eq_false_2 by (by intros [? ?]). simpl. by rewrite update_all_nil.
Qed.

(** The entry of a block other than [b] after [SetParents]. *)
Lemma reparented_other b ps R x r : relations_ok R → x ≠ b → R !! x = Some r →
  ∃ r', reparented b (from_option br_Parents [] (R !! b)) ps R !! x = Some r' ∧
    br_Parents r' = br_Parents r ∧ NoDup (br_Children r') ∧
    ∀ c, c ∈ br_Children r' ↔ (c ≠ b ∧ c ∈ br_Children r) ∨ (c = b ∧ x ∈ ps).
Proof.
  intros Hok Hne Hx. destruct (Hok x r Hx) as (Hnd & _ & Hch). unfold reparented.
  rewrite lookup_insert_ne, !update_all_lookup, Hx by done. simpl. eexists. split; [done|].
  set (old := from_option br_Parents [] (R !! b)). set (r1 := if decide (x ∈ old) then drop_child b r else r).
  assert (br_Parents r1 = br_Parents r) as Hp by (unfold r1; by case_decide).
  assert (NoDup (br_Children r1)) as Hnd1 by (unfold r1; case_decide; [by apply NoDup_filter|done]).
  assert (∀ c, c ∈ br_Children r1 ↔ c ≠ b ∧ c ∈ br_Children r) as Hc.
  { intros c. unfold r1. case_decide as Hold; [simpl; by rewrite list_elem_of_filter|]. split; [|by intros [_ ?]].
    intros Hc. split; [|done]. intros ->. destruct (Hch b Hc) as (rb & Hb & Hxb).
    apply Hold. unfold old. by rewrite Hb. }
  case_decide as Hps; [|naive_solver].
  unfold add_child. simpl. split; [done|]. case_decide as Hbin; [by apply Hc in Hbin as [? _]|].
  split; [apply NoDup_app; split_and!; [done|set_solver|apply NoDup_singleton]|].
  intros c. rewrite elem_of_app, Hc, list_elem_of_singleton. naive_solver.
Qed.

Lemma SetParents_spec dtm b ps :
  let R := dt_blockRelationStore dtm in
  relations_ok R → (∀ rb, R !! b = Some rb → br_Children rb = []) → (∀ p, p ∈ ps → p ∈ dom R ∧ p ≠ b) →
  ∃ R', SetParents b ps dtm = (with_relations R' dtm, Ret ()) ∧ relations_ok R' ∧
    R' !! b = Some {| br_Parents := ps; br_Children := [] |} ∧ dom R' = {[b]} ∪ dom R ∧
    ∀ x r, x ≠ b → R !! x = Some r → ∃ r', R' !! x = Some r' ∧ br_Parents r' = br_Parents r ∧
      ∀ c, c ∈ br_Children r' ↔ (c ≠ b ∧ c ∈ br_Children r) ∨ (c = b ∧ x ∈ ps).
Proof.
  intros R Hok Hleaf Hps. eexists. split; [apply SetParents_run; [done|]; intros p Hp; by apply Hps|].
  fold R. set (R' := reparented _ _ _ _).
  assert (R' !! b = Some {| br_Parents := ps; br_Children := [] |}) as Hb by (by apply lookup_insert_eq).
  assert (∀ x, x ≠ b → is_Some (R' !! x) → is_Some (R !! x)) as Hback.
  { intros x Hne. unfold R', reparented. rewrite lookup_insert_ne, !update_all_lookup by done. by rewrite !fmap_is_Some. }
  split_and!; [|done|by unfold R', reparented; rewrite dom_insert_L, !update_all_dom|].
  2:{ intros x r Hne Hx. destruct (reparented_other b ps R x r Hok Hne Hx) as (r' & ? & ? & _ & ?). by exists r'. }
  intros x rx Hx. destruct (decide (x = b)) as [->|Hne].
  - rewrite Hb in Hx. simplify_eq. simpl. split_and!; [apply NoDup_nil_2| |by intros ? ?%elem_of_nil].
    intros y Hy. destruct (Hps y Hy) as [[ry Hry]%elem_of_dom Hyb].
    destruct (reparented_other b ps R y ry Hok Hyb Hry) as (r' & Hr' & _ & _ & Hc). exists r'. split; [done|]. apply Hc. by right.
  - destruct (Hback x Hne ltac:(by eexists)) as [r Hr]. destruct (Hok x r Hr) as (_ & Hpar & Hch).
    destruct (reparented_other b ps R x r Hok Hne Hr) as (r' & Hr' & Hp & Hnd & Hc).
    assert (rx = r') as -> by (unfold R' in Hx; congruence). split_and!; [done|..].
    + intros y Hy. rewrite Hp in Hy. destruct (Hpar y Hy) as (ry & Hry & Hxy).
      assert (y ≠ b) as Hyb by (intros ->; rewrite (Hleaf ry Hry) in Hxy; by apply elem_of_nil in Hxy).
      destruct (reparented_other b ps R y ry Hok Hyb Hry) as (r2 & Hr2 & _ & _ & Hc2). exists r2. split; [done|]. apply Hc2. by left.
    + intros c [[Hcb Hcr]|[-> Hxps]]%Hc; [|by eexists]. destruct (Hch c Hcr) as (rc & Hrc & Hxc).
      destruct (reparented_other b ps R c rc Hok Hcb Hrc) as (r2 & Hr2 & Hp2 & _). exists r2. split; [done|]. by rewrite Hp2.
Qed.

Module TopologyProps.
(** [SetParents] on a block that has no children (a new block, or the virtual
    block), with parents that are known and different from it, succeeds; the block's
    parents are then the given ones; no other block's parents change; every other
    block's children are what they were, less the block where it is no longer a
    parent and with it where it is; and the relations stay mutual: [y] is listed as
    a parent of [x] exactly where [x] is listed (once) as a child of [y]. *)
Theorem SetParents_correct dtm b ps :
  let R := dt_blockRelationStore dtm in
  relations_ok R → (∀ rb, R !! b = Some rb → br_Children rb = []) → (∀ p, p ∈ ps → p ∈ dom R ∧ p ≠ b) →
  ∃ R', SetParents b ps dtm = (with_relations R' dtm, Ret ()) ∧ relations_ok R' ∧
    R' !! b = Some {| br_Parents := ps; br_Children := [] |} ∧ dom R' = {[b]} ∪ dom R ∧
    ∀ x r, x ≠ b → R !! x = Some r → ∃ r', R' !! x = Some r' ∧ br_Parents r' = br_Parents r ∧
      ∀ c, c ∈ br_Children r' ↔ (c ≠ b ∧ c ∈ br_Children r) ∨ (c = b ∧ x ∈ ps).
Proof. apply SetParents_spec. Qed.

Definition sample_topology : dagTopologyManager :=
  {| dt_reachabilityManager := {| reachabilityDataStore := ∅; reachabilityReindexRoot := None; ghostdagDataStore := ∅;
                                  reindexSlack := defaultReindexSlack; reindexWindow := defaultReindexWindow |};
     dt_blockRelationStore := {[ [0] := {| br_Parents := []; br_Children := [] |} ]} |}.

Lemma SetParents_correct_witness :
  ∃ R', SetParents [1] [[0]] sample_topology = (with_relations R' sample_topology, Ret ()) ∧ relations_ok R' ∧
    R' !! [1] = Some {| br_Parents := [[0]]; br_Children := [] |} ∧ dom R' = {[ [1] ]} ∪ dom (dt_blockRelationStore sample_topology) ∧
    ∀ x r, x ≠ [1] → dt_blockRelationStore sample_topology !! x = Some r → ∃ r', R' !! x = Some r' ∧ br_Parents r' = br_Parents r ∧
      ∀ c, c ∈ br_Children r' ↔ (c ≠ [1] ∧ c ∈ br_Children r) ∨ (c = [1] ∧ x ∈ [[0]]).
Proof.
  apply (SetParents_correct sample_topology [1] [[0]]).
  - intros x rx Hx. simpl in Hx. apply lookup_singleton_Some in Hx as [<- <-]. simpl. split_and!; [apply NoDup_nil_2|by intros ? ?%elem_of_nil..].
  - intros rb Hb. simpl in Hb. by apply lookup_singleton_Some in Hb as [? _].
  - intros p ->%list_elem_of_singleton. split; [|done]. simpl. rewrite dom_singleton. by apply elem_of_singleton.
Defined.
End TopologyProps.
