(* ===== verification/Block.v ===== *)
(** * Block headers (utils/blockheader, consensushashing/block.go)

    The header record, its comparison and its hash; the hashed bytes determine the
    header.  The [...ToImmutable] and [ToMutable] methods copy the header and are the
    identity on values. *)
From S2P Require Import Prelude Externalapi Hashing.
Import Serialization HashWriters.
Local Open Scope Z_scope.

Record BlockHeader := {
  hd_version : Z;
  hd_parentHashes : list DomainHash;
  hd_hashMerkleRoot : DomainHash;
  hd_acceptedIDMerkleRoot : DomainHash;
  hd_utxoCommitment : DomainHash;
  hd_timeInMilliseconds : Z;
  hd_bits : Z;
  hd_nonce : Z
}.

Record DomainBlock := {
  bk_Header : BlockHeader;
  bk_Transactions : list DomainTransaction
}.

Module Header.
Definition SetNonce (bh : BlockHeader) (nonce : Z) : BlockHeader :=
  {| hd_version := hd_version bh; hd_parentHashes := hd_parentHashes bh; hd_hashMerkleRoot := hd_hashMerkleRoot bh;
     hd_acceptedIDMerkleRoot := hd_acceptedIDMerkleRoot bh; hd_utxoCommitment := hd_utxoCommitment bh;
     hd_timeInMilliseconds := hd_timeInMilliseconds bh; hd_bits := hd_bits bh; hd_nonce := nonce |}.

Definition SetTimeInMilliseconds (bh : BlockHeader) (timeInMilliseconds : Z) : BlockHeader :=
  {| hd_version := hd_version bh; hd_parentHashes := hd_parentHashes bh; hd_hashMerkleRoot := hd_hashMerkleRoot bh;
     hd_acceptedIDMerkleRoot := hd_acceptedIDMerkleRoot bh; hd_utxoCommitment := hd_utxoCommitment bh;
     hd_timeInMilliseconds := timeInMilliseconds; hd_bits := hd_bits bh; hd_nonce := hd_nonce bh |}.

(** [HashesEqual]: the lengths, then the hashes one by one *)
Fixpoint hashesEqualLoop (a b : list DomainHash) : bool :=
  match a, b with
  | hash :: a, other :: b => if negb (bool_decide (hash = other)) then false else hashesEqualLoop a b
  | _, _ => true
  end.
Definition HashesEqual (a b : list DomainHash) : bool :=
  if negb (zlen a =? zlen b) then false else hashesEqualLoop a b.

(** [Equal] on two headers that are not nil *)
Definition header_Equal (bh other : BlockHeader) : bool :=
  if negb (hd_version bh =? hd_version other) then false
  else if negb (HashesEqual (hd_parentHashes bh) (hd_parentHashes other)) then false
  else if negb (bool_decide (hd_hashMerkleRoot bh = hd_hashMerkleRoot other)) then false
  else if negb (bool_decide (hd_acceptedIDMerkleRoot bh = hd_acceptedIDMerkleRoot other)) then false
  else if negb (bool_decide (hd_utxoCommitment bh = hd_utxoCommitment other)) then false
  else if negb (hd_timeInMilliseconds bh =? hd_timeInMilliseconds other) then false
  else if negb (hd_bits bh =? hd_bits other) then false
  else if negb (hd_nonce bh =? hd_nonce other) then false
  else true.

Definition serializeHeader (w : list Z) (header : BlockHeader) : list Z :=
  let timestamp := hd_timeInMilliseconds header in
  let numParents := zlen (hd_parentHashes header) in
  let w := WriteElements w [E_uint16 (hd_version header); E_uint64 (GoInt.uint64 numParents)] in
  let w := fold_left (λ w hash, WriteElement w (E_DomainHash hash)) (hd_parentHashes header) w in
  WriteElements w [E_DomainHash (hd_hashMerkleRoot header); E_DomainHash (hd_acceptedIDMerkleRoot header);
                   E_DomainHash (hd_utxoCommitment header); E_int64 timestamp;
                   E_uint32 (hd_bits header); E_uint64 (hd_nonce header)].

Section Hash.
Context `{Hashes}.

Definition blockDomain : string := "BlockHash".
Definition proofOfWorkDomain : string := "ProofOfWorkHash".
Definition merkleBranchDomain : string := "MerkleBranchHash".
Definition NewBlockHashWriter : HashWriter := newBlake2bWriter blockDomain.
Definition NewPoWHashWriter : HashWriter := newBlake2bWriter proofOfWorkDomain.
Definition NewMerkleBranchHashWriter : HashWriter := newBlake2bWriter merkleBranchDomain.

Definition HeaderHash (header : BlockHeader) : DomainHash :=
  Finalize (InfallibleWrite NewBlockHashWriter (serializeHeader [] header)).

Definition BlockHash (block : DomainBlock) : DomainHash := HeaderHash (bk_Header block).
End Hash.
End Header.
Import Header.

(** Field widths: what the Go types guarantee. *)
Definition header_wf (h : BlockHeader) : Prop :=
  0 ≤ hd_version h < 2 ^ 16 ∧ zlen (hd_parentHashes h) < 2 ^ 64 ∧ Forall (λ p, zlen p = 32) (hd_parentHashes h) ∧
  zlen (hd_hashMerkleRoot h) = 32 ∧ zlen (hd_acceptedIDMerkleRoot h) = 32 ∧ zlen (hd_utxoCommitment h) = 32 ∧
  GoInt.in_sint 64 (hd_timeInMilliseconds h) ∧ 0 ≤ hd_bits h < 2 ^ 32 ∧ 0 ≤ hd_nonce h < 2 ^ 64.

Lemma serializeHeader_enc w h : zlen (hd_parentHashes h) < 2 ^ 64 →
  serializeHeader w h = w ++ LE.put 2 (hd_version h) ++
    (LE.put 8 (zlen (hd_parentHashes h)) ++ concat (map id (hd_parentHashes h))) ++
    hd_hashMerkleRoot h ++ hd_acceptedIDMerkleRoot h ++ hd_utxoCommitment h ++
    LE.put 8 (GoInt.uint64 (hd_timeInMilliseconds h)) ++ LE.put 4 (hd_bits h) ++ LE.put 8 (hd_nonce h).
Proof.
  intros Hlen. unfold serializeHeader. cbv zeta. rewrite (fold_left_app_enc _ id) by done. simpl.
  rewrite GoInt.uint64_id by (split; [apply zlen_nonneg|done]).
  unfold PutUint64, PutUint32, PutUint16. by rewrite <- !app_assoc.
Qed.

Lemma sint64_uint64_inj x y : GoInt.in_sint 64 x → GoInt.in_sint 64 y → GoInt.uint64 x = GoInt.uint64 y → x = y.
Proof. unfold GoInt.in_sint, GoInt.uint64, GoInt.uwrap. intros. Z.div_mod_to_equations. lia. Qed.

Lemma unambiguous_header : unambiguous id header_wf (serializeHeader []).
Proof.
  intros a b r s Ha Hb. pose proof Ha as (_ & La & _). pose proof Hb as (_ & Lb & _).
  rewrite !serializeHeader_enc by done. revert a b r s Ha Hb La Lb.
  assert (unambiguous (λ h, (SetTimeInMilliseconds h 0, GoInt.uint64 (hd_timeInMilliseconds h))) header_wf (λ h, LE.put 2 (hd_version h) ++
    (LE.put 8 (zlen (hd_parentHashes h)) ++ concat (map id (hd_parentHashes h))) ++
    hd_hashMerkleRoot h ++ hd_acceptedIDMerkleRoot h ++ hd_utxoCommitment h ++
    LE.put 8 (GoInt.uint64 (hd_timeInMilliseconds h)) ++ LE.put 4 (hd_bits h) ++ LE.put 8 (hd_nonce h))) as Hu.
  { eapply unambiguous_weaken.
    - eapply unambiguous_seq; [apply (unambiguous_put 2 hd_version)|].
      eapply unambiguous_seq; [apply (unambiguous_list id (λ p, zlen p = 32) id hd_parentHashes (unambiguous_fixed 32 id))|].
      eapply unambiguous_seq; [apply (unambiguous_fixed 32 hd_hashMerkleRoot)|].
      eapply unambiguous_seq; [apply (unambiguous_fixed 32 hd_acceptedIDMerkleRoot)|].
      eapply unambiguous_seq; [apply (unambiguous_fixed 32 hd_utxoCommitment)|].
      eapply unambiguous_seq; [apply (unambiguous_put 8 (λ h, GoInt.uint64 (hd_timeInMilliseconds h)))|].
      eapply unambiguous_seq; [apply (unambiguous_put 4 hd_bits)|apply (unambiguous_put 8 hd_nonce)].
    - unfold header_wf. simpl. intros h (? & ? & ? & ? & ? & ? & ? & ? & ?).
      pose proof (GoInt.uwrap_range 64 (hd_timeInMilliseconds h)). unfold GoInt.in_uint, GoInt.uint64 in *. split_and!; try done; lia.
    - simpl. intros [] []; unfold SetTimeInMilliseconds. simpl. rewrite !map_id. intros E. injection E. intros. congruence. }
  intros a b r s Ha Hb _ _ E. apply Hu in E as [[= ? ? ? ? ? ? ? Ht] ->]; [|done..]. split; [|done].
  assert (hd_timeInMilliseconds a = hd_timeInMilliseconds b); [|destruct a, b; simpl in *; congruence].
  apply sint64_uint64_inj; [apply Ha|apply Hb|done].
Qed.

Lemma HashesEqual_spec a b : HashesEqual a b = bool_decide (a = b).
Proof.
  unfold HashesEqual. destruct (zlen a =? zlen b) eqn:Hlen; simpl.
  - apply Z.eqb_eq in Hlen. revert b Hlen. induction a as [|x a IH]; intros [|y b] Hlen; try (unfold zlen in Hlen; simpl in Hlen; lia); [done|].
    cbn [hashesEqualLoop]. case_bool_decide as Hxy; simpl.
    + subst. rewrite IH by (rewrite !zlen_cons in Hlen; lia). apply bool_decide_ext. naive_solver.
    + symmetry. apply bool_decide_eq_false_2. naive_solver.
  - symmetry. apply bool_decide_eq_false_2. intros ->. by rewrite Z.eqb_refl in Hlen.
Qed.

Module HeaderProps.
(** Headers are identified by what is hashed: [Equal] decides equality of headers,
    [serializeHeader] writes different bytes for different headers (with fields of
    the widths of the Go types), also when more bytes follow, so two blocks with the
    same hash have equal headers or exhibit a collision of the keyed BLAKE2b hash. *)
Theorem header_identified `{Hashes} `{!HashesOk} (a b : BlockHeader) :
  (header_Equal a b = true ↔ a = b) ∧
  (header_wf a → header_wf b → HeaderHash a = HeaderHash b →
   a = b ∨ ∃ x y, x ≠ y ∧ blake2b_New256 (bytes_of_string blockDomain) x = blake2b_New256 (bytes_of_string blockDomain) y).
Proof.
  split.
  - unfold header_Equal. rewrite HashesEqual_spec. destruct a, b; simpl.
    split; [|intros [= -> -> -> -> -> -> -> ->]].
    + repeat (case_bool_decide || case_match); simpl; try done; rewrite ?Bool.negb_false_iff, ?Z.eqb_eq in *; by subst.
    + rewrite !Z.eqb_refl, !bool_decide_eq_true_2 by done. done.
  - intros Ha Hb Hh. destruct (decide (serializeHeader [] a = serializeHeader [] b)) as [E|E].
    + left. rewrite <- (app_nil_r (serializeHeader [] a)), <- (app_nil_r (serializeHeader [] b)) in E.
      by apply unambiguous_header in E as [? _].
    + right. eexists _, _. split; [exact E|]. unfold HeaderHash in Hh.
      rewrite !Finalize_digest in Hh by apply blake2b_New256_ok. exact Hh.
Qed.

Definition sample_header : BlockHeader :=
  {| hd_version := 0; hd_parentHashes := []; hd_hashMerkleRoot := replicate 32 1; hd_acceptedIDMerkleRoot := replicate 32 2;
     hd_utxoCommitment := replicate 32 3; hd_timeInMilliseconds := 4; hd_bits := 5; hd_nonce := 6 |}.

Lemma header_identified_witness :
  header_Equal sample_header (SetNonce sample_header 6) = true ∧ header_Equal sample_header (SetNonce sample_header 7) = false ∧
  (header_Equal sample_header (SetNonce sample_header 7) = true ↔ sample_header = SetNonce sample_header 7).
Proof.
  split; [reflexivity|]. split; [reflexivity|].
  apply (proj1 (@header_identified toy_hashes toy_hashes_ok sample_header (SetNonce sample_header 7))).
Defined.
End HeaderProps.
