(* ===== verification/Merkle.v ===== *)
(** * Merkle roots (utils/merkle)

    [merkleRoot] fills an array with the levels of a binary tree, from the leaves to the
    root.  Its result is the root of the tree of hashes, and binds the
    list of leaves. *)
From S2P Require Import Prelude Externalapi Hashing Block.
Import Serialization HashWriters TransactionHashing SigHash Header.
Local Open Scope Z_scope.
Local Open Scope prog_scope.

Module Merkle.
Section Root.
Context `{Hashes} {E : Type}.

(** [uint(math.Log2(float64(n)))] is the integer logarithm: the rounding of [math.Log2] does not reach
    the next integer for an [n] below 2^46, and no slice is that long. *)
Definition nextPowerOfTwo (n : Z) : Z :=
  if Z.land n (n - 1) =? 0 then n
  else let exponent := Z.log2 n + 1 in Z.shiftl 1 exponent.

Definition hashMerkleBranches (left right : DomainHash) : DomainHash :=
  let w := NewMerkleBranchHashWriter in
  let w := InfallibleWrite w left in
  let w := InfallibleWrite w right in
  Finalize w.

(** The three cases of the loop body *)
Definition merkleParent (left right : option DomainHash) : option DomainHash :=
  match left, right with
  | None, _ => None
  | Some l, None => Some (hashMerkleBranches l NewZeroHash)
  | Some l, Some r => Some (hashMerkleBranches l r)
  end.

(** [l[i] = x] *)
Definition assign {A} (l : list A) (i : Z) (x : A) : outcome E (list A) :=
  let? _ := index l i in Ret (<[Z.to_nat i := x]> l).

(** [for i := 0; i < arraySize-1; i += 2], by the rounds that are left; the right child is
    read only if there is a left one *)
Fixpoint merkleLoop (rounds : nat) (i offset : Z) (merkles : list (option DomainHash)) : outcome E (list (option DomainHash)) :=
  match rounds with
  | O => Ret merkles
  | S rounds =>
      let? left := index merkles i in
      let? right := match left with None => Ret None | Some _ => index merkles (i + 1) end in
      let? merkles := assign merkles offset (merkleParent left right) in
      merkleLoop rounds (i + 2) (offset + 1) merkles
  end.

(** [make] of a negative size panics. *)
Definition merkleRoot (hashes : list DomainHash) : outcome E (option DomainHash) :=
  let nextPoT := nextPowerOfTwo (zlen hashes) in
  let arraySize := nextPoT * 2 - 1 in
  if arraySize <? 0 then Crash IndexOutOfRange
  else
    let merkles := map Some hashes ++ replicate (Z.to_nat (arraySize - zlen hashes)) None in
    let? merkles := merkleLoop (Z.to_nat (nextPoT - 1)) 0 nextPoT merkles in
    index merkles (zlen merkles - 1).

Definition CalculateHashMerkleRoot (transactions : list DomainTransaction) : outcome E (option DomainHash) :=
  merkleRoot (map TransactionHash transactions).
Definition CalculateIDMerkleRoot (transactions : list DomainTransaction) : outcome E (option DomainHash) :=
  if zlen transactions =? 0 then Ret (Some NewZeroHash)
  else merkleRoot (map (λ tx, fst (TransactionID tx)) transactions).
End Root.
End Merkle.
Import Merkle.

(** ** The tree *)
Section Tree.
Context `{Hashes} {E : Type}.
Abbreviation node := (option DomainHash) (only parsing).

(** The root of the tree of height [k] over the leaves [hs], of which there are at most
    [2^k]; there is nothing above no leaves, and a missing right branch counts as zeros. *)
Fixpoint tree (k : nat) (hs : list DomainHash) : node :=
  match k with
  | O => head hs
  | S k => merkleParent (tree k (take (2 ^ k) hs)) (tree k (drop (2 ^ k) hs))
  end.

(** The levels of the array. *)
Fixpoint pairs (l : list node) : list node :=
  match l with
  | a :: b :: l => merkleParent a b :: pairs l
  | _ => []
  end.
Fixpoint levels (k : nat) (l : list node) : list node :=
  l ++ match k with O => [] | S k => levels k (pairs l) end.
Fixpoint top (k : nat) (l : list node) : node :=
  match k with
  | O => from_option id None (head l)
  | S k => top k (pairs l)
  end.

Lemma even_ind (P : list node → Prop) : P [] → (∀ a b l, P l → P (a :: b :: l)) → ∀ n l, length l = (2 * n)%nat → P l.
Proof.
  intros H0 H2. induction n as [|n IH]; intros [|a [|b l]] Hl; simpl in Hl; try lia; [done|]. apply H2, IH. lia.
Qed.

Lemma pairs_length n l : length l = (2 * n)%nat → length (pairs l) = n.
Proof.
  intros Hl. assert (length l = 2 * length (pairs l))%nat; [|lia].
  apply (even_ind (λ l, length l = 2 * length (pairs l))%nat) with (n := n); [done| |done]. intros a b l' IH. simpl. lia.
Qed.

Lemma pairs_app n l l' : length l = (2 * n)%nat → pairs (l ++ l') = pairs l ++ pairs l'.
Proof.
  intros Hl. apply (even_ind (λ l, pairs (l ++ l') = pairs l ++ pairs l')) with (n := n); [done| |done].
  intros a b l0 IH. simpl. by rewrite IH.
Qed.

Lemma pairs_lookup t : ∀ l a b, l !! (2 * t)%nat = Some a → l !! (2 * t + 1)%nat = Some b → pairs l !! t = Some (merkleParent a b).
Proof.
  induction t as [|t IH]; intros [|x [|y l]] a b Ha Hb; try done.
  - by injection Ha as ->; injection Hb as ->.
  - replace (2 * S t)%nat with (S (S (2 * t))) in Ha by lia. replace (2 * S t + 1)%nat with (S (S (2 * t + 1))) in Hb by lia. by apply IH.
Qed.

Lemma levels_length k : ∀ l, length l = (2 ^ k)%nat → length (levels k l) = (2 * 2 ^ k - 1)%nat.
Proof.
  induction k as [|k IH]; intros l Hl; simpl; rewrite length_app; [simpl in *; lia|].
  rewrite IH by (apply pairs_length; simpl in Hl; lia). simpl in Hl. pose proof (Nat.pow_nonzero 2 k). lia.
Qed.

(** A node above the leaves is made of two before it. *)
Lemma levels_parent k : ∀ l t, length l = (2 ^ k)%nat → (t < 2 ^ k - 1)%nat →
  ∃ a b, levels k l !! (2 * t)%nat = Some a ∧ levels k l !! (2 * t + 1)%nat = Some b ∧ levels k l !! (2 ^ k + t)%nat = Some (merkleParent a b).
Proof.
  induction k as [|k IH]; intros l t Hl Ht; [simpl in Ht; lia|]. cbn [levels].
  assert (length (pairs l) = 2 ^ k)%nat as Hp by (apply pairs_length; simpl in Hl; lia).
  rewrite (Nat.pow_succ_r' 2 k) in *. destruct (decide (t < 2 ^ k)%nat) as [Hlt|Hge].
  - destruct (lookup_lt_is_Some_2 l (2 * t)) as [a Ha]; [lia|]. destruct (lookup_lt_is_Some_2 l (2 * t + 1)) as [b Hb]; [lia|].
    exists a, b. rewrite !lookup_app_l, lookup_app_r by lia. split; [done|]. split; [done|]. rewrite Hl.
    replace (2 * 2 ^ k + t - 2 * 2 ^ k)%nat with t by lia. pose proof (pairs_lookup t l a b Ha Hb) as Hpl.
    destruct k; cbn [levels]; rewrite lookup_app_l; try done; simpl in *; lia.
  - destruct (IH (pairs l) (t - 2 ^ k)%nat Hp) as (a & b & Ha & Hb & Hab); [lia|]. exists a, b.
    rewrite !lookup_app_r, Hl by lia.
    replace (2 * t - 2 * 2 ^ k)%nat with (2 * (t - 2 ^ k))%nat by lia. replace (2 * t + 1 - 2 * 2 ^ k)%nat with (2 * (t - 2 ^ k) + 1)%nat by lia.
    by replace (2 * 2 ^ k + t - 2 * 2 ^ k)%nat with (2 ^ k + (t - 2 ^ k))%nat by lia.
Qed.

Lemma levels_last k : ∀ l, length l = (2 ^ k)%nat → last (levels k l) = Some (top k l).
Proof.
  induction k as [|k IH]; intros l Hl; cbn [levels top].
  - destruct l as [|a [|]]; simpl in Hl; try lia. done.
  - assert (length (pairs l) = 2 ^ k)%nat as Hp by (apply pairs_length; simpl in Hl; lia).
    by rewrite last_app, (IH _ Hp).
Qed.

Lemma top_halves k : ∀ l1 l2, length l1 = (2 ^ k)%nat → length l2 = (2 ^ k)%nat → top (S k) (l1 ++ l2) = merkleParent (top k l1) (top k l2).
Proof.
  induction k as [|k IH]; intros l1 l2 H1 H2.
  - destruct l1 as [|a [|]], l2 as [|b [|]]; simpl in *; try lia. done.
  - cbn [top]. rewrite (pairs_app (2 ^ k)) by (simpl in *; lia). apply (IH (pairs l1) (pairs l2)); apply pairs_length; simpl in *; lia.
Qed.

(** Leaves padded to a full level. *)
Definition padded (n : nat) (hs : list DomainHash) : list node := map Some hs ++ replicate (n - length hs) None.

Lemma padded_length n hs : (length hs ≤ n)%nat → length (padded n hs) = n.
Proof. intros. unfold padded. rewrite length_app, length_map, length_replicate. lia. Qed.

Lemma padded_halves n hs : (length hs ≤ 2 * n)%nat → padded (2 * n) hs = padded n (take n hs) ++ padded n (drop n hs).
Proof.
  intros Hl. unfold padded. rewrite length_take, length_drop. destruct (decide (length hs ≤ n)%nat).
  - rewrite take_ge, drop_ge by done. simpl. rewrite <- app_assoc, <- replicate_add. do 2 f_equal. lia.
  - replace (n - n `min` length hs)%nat with 0%nat by lia. simpl. rewrite app_nil_r, app_assoc, <- map_app, take_drop. do 2 f_equal. lia.
Qed.

Lemma top_padded k : ∀ hs, (length hs ≤ 2 ^ k)%nat → top k (padded (2 ^ k) hs) = tree k hs.
Proof.
  induction k as [|k IH]; intros hs Hl.
  - unfold padded. destruct hs as [|h [|]]; simpl in *; try lia; done.
  - rewrite Nat.pow_succ_r' in *. rewrite padded_halves by done.
    assert (length (take (2 ^ k) hs) ≤ 2 ^ k)%nat by (rewrite length_take; lia). assert (length (drop (2 ^ k) hs) ≤ 2 ^ k)%nat by (rewrite length_drop; lia).
    rewrite top_halves by (by apply padded_length). cbn [tree]. by rewrite !IH.
Qed.

(** ** The array holds the tree *)
Lemma index_of_lookup {A} (l : list A) i x : l !! i = Some x → @index E A l (Z.of_nat i) = Ret x.
Proof. intros Hx. unfold index. rewrite decide_True by lia. by rewrite Nat2Z.id, Hx. Qed.

Lemma merkleLoop_spec k l : length l = (2 ^ k)%nat → ∀ rounds r, (r + rounds = 2 ^ k - 1)%nat →
  merkleLoop (E := E) rounds (Z.of_nat (2 * r)) (Z.of_nat (2 ^ k + r)) (take (2 ^ k + r) (levels k l) ++ replicate rounds None) = Ret (levels k l).
Proof.
  intros Hl. pose proof (levels_length k l Hl) as Hfull. pose proof (Nat.pow_nonzero 2 k).
  induction rounds as [|rounds IH]; intros r Hr; cbn [merkleLoop].
  { rewrite take_ge by lia. by rewrite app_nil_r. }
  destruct (levels_parent k l r Hl) as (a & b & Ha & Hb & Hab); [lia|]. set (full := levels k l) in *.
  assert (∀ i x, (i < 2 ^ k + r)%nat → full !! i = Some x → (take (2 ^ k + r) full ++ replicate (S rounds) None) !! i = Some x) as Hread.
  { intros i x Hi Hx. rewrite lookup_app_l by (rewrite length_take; lia). by rewrite lookup_take_lt. }
  rewrite (index_of_lookup _ (2 * r) a) by (apply Hread; [lia|done]). cbn [obind].
  assert (∃ c, (match a with None => Ret None | Some _ => index (E := E) (take (2 ^ k + r) full ++ replicate (S rounds) None) (Z.of_nat (2 * r) + 1) end) = Ret c ∧
    merkleParent a c = merkleParent a b) as (c & -> & Hc).
  { destruct a as [h|]; [|by exists None]. exists b. split; [|done]. replace (Z.of_nat (2 * r) + 1) with (Z.of_nat (2 * r + 1)) by lia.
    apply index_of_lookup, Hread; [lia|done]. }
  cbn [obind]. rewrite Hc. unfold assign. rewrite (index_of_lookup _ (2 ^ k + r) None).
  2:{ rewrite lookup_app_r by (rewrite length_take; lia). rewrite length_take. replace (2 ^ k + r - _)%nat with 0%nat by lia. done. }
  cbn [obind]. rewrite Nat2Z.id. rewrite insert_app_r_alt by (rewrite length_take; lia). rewrite length_take.
  replace (2 ^ k + r - (2 ^ k + r) `min` length full)%nat with 0%nat by lia. cbn [replicate insert list_insert].
  specialize (IH (S r)). replace (2 ^ k + S r)%nat with (S (2 ^ k + r)) in IH by lia. rewrite (take_S_r _ _ _ Hab), <- app_assoc in IH.
  replace (Z.of_nat (2 * r) + 2) with (Z.of_nat (2 * S r)) by lia. replace (Z.of_nat (2 ^ k + r) + 1) with (Z.of_nat (S (2 ^ k + r))) by lia.
  apply IH. lia.
Qed.

Lemma nextPowerOfTwo_spec n : 1 ≤ n → nextPowerOfTwo n = 2 ^ Z.log2_up n.
Proof.
  intros Hn. unfold nextPowerOfTwo. pose proof (Z.log2_spec n ltac:(lia)) as [Hlo Hhi]. set (m := Z.log2 n) in *.
  assert (0 ≤ m) by apply Z.log2_nonneg.
  destruct (decide (n = 2 ^ m)) as [E0|Hne].
  - rewrite (proj2 (Z.eqb_eq _ 0)); [rewrite E0, Z.log2_up_pow2 by done; done|]. rewrite E0, Z.sub_1_r, <- Z.ones_equiv, Z.land_ones by done.
    apply Z.mod_same. lia.
  - assert (Z.log2 (n - 1) = m) as Hm by (apply Z.log2_unique; lia).
    rewrite (proj2 (Z.eqb_neq _ 0)).
    + rewrite Z.log2_up_eqn by lia. rewrite <- Z.sub_1_r, Hm, Z.add_1_r. rewrite Z.shiftl_1_l. f_equal.
    + intros E0. pose proof (Z.bit_log2 n ltac:(lia)) as B1. pose proof (Z.bit_log2 (n - 1) ltac:(lia)) as B2. rewrite Hm in B2. fold m in B1.
      assert (Z.testbit (Z.land n (n - 1)) m = true) as B by (by rewrite Z.land_spec, B1, B2). by rewrite E0, Z.bits_0 in B.
Qed.

(** The height of the tree over [n] leaves. *)
Definition height (n : Z) : nat := Z.to_nat (Z.log2_up n).

Lemma height_spec n : 1 ≤ n → nextPowerOfTwo n = Z.of_nat (2 ^ height n) ∧ n ≤ nextPowerOfTwo n.
Proof.
  intros Hn. rewrite nextPowerOfTwo_spec by done. unfold height. split; [|destruct (decide (n = 1)) as [->|]; [done|apply Z.log2_up_spec; lia]].
  rewrite Nat2Z.inj_pow, Z2Nat.id by apply Z.log2_up_nonneg. done.
Qed.

Lemma merkleRoot_spec hs : hs ≠ [] → merkleRoot (E := E) hs = Ret (tree (height (zlen hs)) hs).
Proof.
  intros Hne. assert (1 ≤ zlen hs) as Hl by (destruct hs; [done|rewrite zlen_cons; pose proof (zlen_nonneg hs); lia]).
  destruct (height_spec (zlen hs) Hl) as [Hpow Hle]. set (k := height (zlen hs)) in *. unfold merkleRoot. rewrite Hpow in *.
  pose proof (Nat.pow_nonzero 2 k). rewrite (proj2 (Z.ltb_ge _ 0)) by lia.
  assert (length hs ≤ 2 ^ k)%nat as Hle' by (unfold zlen in *; lia). pose proof (padded_length (2 ^ k) hs Hle') as Hpl.
  assert (map Some hs ++ replicate (Z.to_nat (Z.of_nat (2 ^ k) * 2 - 1 - zlen hs)) None =
    take (2 ^ k + 0) (levels k (padded (2 ^ k) hs)) ++ replicate (2 ^ k - 1) None) as ->.
  { rewrite Nat.add_0_r. rewrite <- Hpl at 2. destruct k; cbn [levels]; rewrite take_app_length; unfold padded;
      rewrite <- app_assoc, <- replicate_add; do 2 f_equal; unfold zlen in *; lia. }
  change 0 with (Z.of_nat (2 * 0)). replace (Z.of_nat (2 ^ k)) with (Z.of_nat (2 ^ k + 0)) by lia.
  replace (Z.to_nat (Z.of_nat (2 ^ k + 0) - 1)) with (2 ^ k - 1)%nat by lia.
  rewrite merkleLoop_spec by (done || lia). cbn [obind]. pose proof (levels_last k _ Hpl) as Hlast. rewrite last_lookup, (levels_length k _ Hpl) in Hlast.
  unfold zlen. rewrite (levels_length k _ Hpl). replace (Z.of_nat (2 * 2 ^ k - 1) - 1) with (Z.of_nat (Nat.pred (2 * 2 ^ k - 1))) by lia.
  rewrite (index_of_lookup _ _ _ Hlast). by rewrite top_padded.
Qed.
End Tree.

(** ** The root binds the leaves *)
Section Binding.
Context `{HashesOk}.

Definition branch_hash (d : list Z) : DomainHash := blake2b_New256 (bytes_of_string merkleBranchDomain) d.

Lemma hashMerkleBranches_spec l r : hashMerkleBranches l r = branch_hash (l ++ r).
Proof using Type*. unfold hashMerkleBranches. cbv zeta. by rewrite Finalize_digest by apply blake2b_New256_ok. Qed.
Lemma branch_hash_length d : zlen (branch_hash d) = 32.
Proof using Type*. apply (blake2b_New256_ok (bytes_of_string merkleBranchDomain) d). Qed.

(** What someone has to find to fool the root: a collision of the branch hash, a branch
    that hashes to zeros, or a leaf that is the zero hash or itself the hash of a branch. *)
Definition merkle_broken (leaves : list DomainHash) : Prop :=
  (∃ d d', d ≠ d' ∧ branch_hash d = branch_hash d') ∨ (∃ d, branch_hash d = NewZeroHash) ∨
  ∃ h, h ∈ leaves ∧ (h = NewZeroHash ∨ ∃ d, h = branch_hash d).

Lemma merkle_broken_mono a b : a ⊆ b → merkle_broken a → merkle_broken b.
Proof using Type. intros Hs [?|[?|(h & Hh & ?)]]; [by left|by right; left|]. right. right. exists h. auto. Qed.

Definition leaves_ok (hs : list DomainHash) : Prop := Forall (λ h, zlen h = 32) hs.
Lemma leaves_take n hs : leaves_ok hs → leaves_ok (take n hs).
Proof using Type. apply Forall_take. Qed.
Lemma leaves_drop n hs : leaves_ok hs → leaves_ok (drop n hs).
Proof using Type. apply Forall_drop. Qed.
Lemma halves_length k (hs : list DomainHash) : (length hs ≤ 2 ^ S k)%nat → (length (take (2 ^ k) hs) ≤ 2 ^ k)%nat ∧ (length (drop (2 ^ k) hs) ≤ 2 ^ k)%nat.
Proof using Type. rewrite Nat.pow_succ_r', length_take, length_drop. lia. Qed.

Lemma tree_None k : ∀ hs, (length hs ≤ 2 ^ k)%nat → tree k hs = None → hs = [].
Proof using Type.
  induction k as [|k IH]; intros hs Hl; cbn [tree]; [by destruct hs|]. destruct (halves_length k hs Hl) as [Hl1 _].
  destruct (tree k (take _ hs)) as [l|] eqn:El; [by destruct (tree k (drop _ hs))|]. intros _. apply IH in El; [|done].
  pose proof (Nat.pow_nonzero 2 k ltac:(done)) as Hne. destruct hs; [done|]. by destruct (2 ^ k)%nat.
Qed.

(** Above the leaves a root is the hash of a branch. *)
Lemma tree_branch k hs r : tree (S k) hs = Some r →
  ∃ l x, tree k (take (2 ^ k) hs) = Some l ∧ r = branch_hash (l ++ x) ∧ from_option id NewZeroHash (tree k (drop (2 ^ k) hs)) = x.
Proof using Type*.
  cbn [tree]. destruct (tree k (take _ hs)) as [l|]; [|done]. destruct (tree k (drop _ hs)) as [x|]; simpl; intros [= <-];
    rewrite hashMerkleBranches_spec; by eexists l, _.
Qed.

Lemma tree_length k hs r : leaves_ok hs → tree k hs = Some r → zlen r = 32.
Proof using Type*.
  intros Hok. destruct k as [|k].
  - cbn [tree]. intros Hh. unfold leaves_ok in Hok. rewrite Forall_forall in Hok. apply Hok. destruct hs; [done|]. injection Hh as ->. by left.
  - intros (l & x & _ & -> & _)%tree_branch. apply branch_hash_length.
Qed.

Lemma tree_zero k hs : tree k hs = Some NewZeroHash → merkle_broken hs.
Proof using Type*.
  destruct k as [|k]; [|intros (l & x & _ & E & _)%tree_branch; right; left; by exists (l ++ x)].
  cbn [tree]. intros Hh. right. right. exists NewZeroHash. split; [|by left]. destruct hs; [done|]. injection Hh as ->. by left.
Qed.

Lemma branch_hash_eq a b d : branch_hash a = branch_hash b → a = b ∨ merkle_broken d.
Proof using Type. intros E. destruct (decide (a = b)); [by left|right; left; by exists a, b]. Qed.

Lemma branches_eq l x l' x' d : zlen l = 32 → zlen l' = 32 → branch_hash (l ++ x) = branch_hash (l' ++ x') →
  l = l' ∧ x = x' ∨ merkle_broken d.
Proof using Type.
  intros H1 H2 E. destruct (branch_hash_eq _ _ d E) as [Ea|]; [left|by right]. apply app_inj_1 in Ea; [done|]. unfold zlen in *. lia.
Qed.

Lemma tree_binds k : ∀ a b, (length a ≤ 2 ^ k)%nat → (length b ≤ 2 ^ k)%nat → leaves_ok a → leaves_ok b → tree k a = tree k b →
  a = b ∨ merkle_broken (a ++ b).
Proof using Type*.
  induction k as [|k IH]; intros a b La Lb Oa Ob Ht.
  { left. destruct a as [|x [|]], b as [|y [|]]; simpl in *; try lia; congruence. }
  destruct (halves_length k a La) as [La1 La2], (halves_length k b Lb) as [Lb1 Lb2].
  destruct (tree (S k) a) as [r|] eqn:Ea; [|left; symmetry in Ht; by rewrite (tree_None (S k) a La Ea), (tree_None (S k) b Lb Ht)].
  symmetry in Ht. apply tree_branch in Ea as (l & x & Hl & -> & Hx), Ht as (l' & x' & Hl' & E & Hx').
  assert (∀ d d', d ⊆ a → d' ⊆ b → merkle_broken (d ++ d') → merkle_broken (a ++ b)) as Hmono
    by (intros d d' Hd Hd'; apply merkle_broken_mono; set_solver).
  assert (∀ n (c : list DomainHash), drop n c ⊆ c) as Hdrop by (intros; apply subseteq_drop).
  assert (∀ n (c : list DomainHash), take n c ⊆ c) as Htake by (intros; apply subseteq_take).
  destruct (branches_eq _ _ _ _ (a ++ b) (tree_length _ _ _ (leaves_take _ _ Oa) Hl) (tree_length _ _ _ (leaves_take _ _ Ob) Hl') E) as [[-> Exx]|]; [|by right].
  destruct (IH _ _ La1 Lb1 (leaves_take _ _ Oa) (leaves_take _ _ Ob)) as [E1|]; [congruence| |right; by eapply Hmono; [apply Htake..|]].
  assert (drop (2 ^ k) a = drop (2 ^ k) b ∨ merkle_broken (a ++ b)) as [E2|]; [|left; by rewrite <- (take_drop (2 ^ k) a), <- (take_drop (2 ^ k) b), E1, E2|by right].
  destruct (tree k (drop _ a)) as [ya|] eqn:Ta, (tree k (drop _ b)) as [yb|] eqn:Tb; simpl in Hx, Hx'; subst.
  - destruct (IH _ _ La2 Lb2 (leaves_drop _ _ Oa) (leaves_drop _ _ Ob)) as [E2|]; [congruence|by left|right; by eapply Hmono; [apply Hdrop..|]].
  - right. apply tree_zero in Ta. eapply merkle_broken_mono; [|exact Ta]. specialize (Hdrop (2 ^ k)%nat a). set_solver.
  - right. apply tree_zero in Tb. eapply merkle_broken_mono; [|exact Tb]. specialize (Hdrop (2 ^ k)%nat b). set_solver.
  - left. by rewrite (tree_None k _ La2 Ta), (tree_None k _ Lb2 Tb).
Qed.

Lemma tree_heights j : ∀ k a b r, (j < k)%nat → leaves_ok a → leaves_ok b → tree j a = Some r → tree k b = Some r → merkle_broken a.
Proof using Type*.
  induction j as [|j IH]; intros k a b r Hjk Oa Ob Ha Hb; (destruct k as [|k]; [lia|]).
  - apply tree_branch in Hb as (l & x & _ & -> & _). right. right. eexists. split; [|right; by eexists]. cbn [tree] in Ha.
    destruct a; [done|]. injection Ha as ->. by left.
  - apply tree_branch in Ha as (l & x & Hl & -> & _), Hb as (l' & x' & Hl' & E & _).
    destruct (branches_eq _ _ _ _ a (tree_length _ _ _ (leaves_take _ _ Oa) Hl) (tree_length _ _ _ (leaves_take _ _ Ob) Hl') E) as [[-> _]|]; [|done].
    apply (merkle_broken_mono (take (2 ^ j) a)); [apply subseteq_take|].
    eapply (IH k); [lia|by apply leaves_take|by apply leaves_take|done|done].
Qed.

Lemma merkleRoot_binds {E} a b : a ≠ [] → b ≠ [] → leaves_ok a → leaves_ok b → merkleRoot (E := E) a = merkleRoot b →
  a = b ∨ merkle_broken (a ++ b).
Proof using Type*.
  intros Na Nb Oa Ob. rewrite !merkleRoot_spec by done. intros [= Ht].
  assert (∀ hs : list DomainHash, hs ≠ [] → (length hs ≤ 2 ^ height (zlen hs))%nat) as Hfit.
  { intros hs Hne. destruct (height_spec (zlen hs)) as [E1 E2]; [destruct hs; [done|rewrite zlen_cons; pose proof (zlen_nonneg hs); lia]|].
    rewrite E1 in E2. unfold zlen in *. lia. }
  pose proof (Hfit a Na) as La. pose proof (Hfit b Nb) as Lb. set (j := height (zlen a)) in *. set (k := height (zlen b)) in *.
  destruct (decide (j = k)) as [E0|Hne]; [rewrite E0 in *; by apply (tree_binds k)|]. right.
  destruct (tree j a) as [r|] eqn:Ta; [|by apply tree_None in Ta]. symmetry in Ht.
  destruct (decide (j < k)%nat); [apply (merkle_broken_mono a); [set_solver|by eapply (tree_heights j k)]|].
  apply (merkle_broken_mono b); [set_solver|]. apply (tree_heights k j b a r); done || lia.
Qed.
End Binding.

Module MerkleProps.
(** The merkle root is the root of the tree of hashes, and it binds the leaves.
    On every non-empty list of hashes the array algorithm returns, without a panic,
    the root of the binary tree over the leaves; two lists with the same root, of
    any lengths, are equal, unless someone found a collision of the branch
    hash or a leaf that is the hash of a branch or the zero hash.  On the empty list
    it panics. *)
Theorem merkleRoot_correct `{HashesOk} {E} (a b : list DomainHash) :
  merkleRoot (E := E) [] = Crash IndexOutOfRange ∧
  (a ≠ [] → merkleRoot (E := E) a = Ret (tree (height (zlen a)) a)) ∧
  (a ≠ [] → b ≠ [] → leaves_ok a → leaves_ok b → merkleRoot (E := E) a = merkleRoot b → a = b ∨ merkle_broken (a ++ b)).
Proof. split; [done|]. split; [apply merkleRoot_spec|apply merkleRoot_binds]. Qed.

Definition sample_leaves : list DomainHash := [replicate 32 1; replicate 32 2; replicate 32 3].

Lemma merkleRoot_correct_witness :
  merkleRoot (H := toy_hashes) (E := unit) sample_leaves = Ret (tree (H := toy_hashes) 2 sample_leaves) ∧
  (∃ r, merkleRoot (H := toy_hashes) (E := unit) sample_leaves = Ret (Some r)).
Proof.
  split; [|eexists; vm_compute; reflexivity].
  apply (proj1 (proj2 (@merkleRoot_correct toy_hashes toy_hashes_ok unit sample_leaves []))). done.
Defined.
End MerkleProps.
