(* ===== verification/Ghostdag.v ===== *)
(** * GHOSTDAG (processes/ghostdagmanager)

    The manager's operations against the interface [DAGTopologyManager]: choosing a
    selected parent, collecting and ordering the merge set, and colouring it.  The
    operations but [GHOSTDAG] only read the data store [S]; a [KType] is a byte.

    [less] compares pointers: [chosenSelectedParent == blockHashB].  The two hashes it
    is given are at different positions of a list, so the comparison of values made
    here differs only for a hash that is listed twice, where both answers sort
    and select the same values. *)
From stdpp Require Import sorting.
From S2P Require Import Prelude Interval ReachabilityData Reachability ReachabilityTree ReachabilityAdd DagTopology Difficulty Externalapi Hashing Block.
Import Difficulty.
Local Open Scope Z_scope.
Local Open Scope prog_scope.

Abbreviation hash := (list Z) (only parsing).

Inductive ghostdagError :=
  | DagError (e : reachabilityError)
  | ErrAnticoneTooLarge
  | ErrNotInBlueSet.

(** ** The order of blocks *)

(** [bytes.Compare] *)
Fixpoint bytesCompare (a b : list Z) : comparison :=
  match a, b with
  | [], [] => Eq
  | [], _ :: _ => Lt
  | _ :: _, [] => Gt
  | x :: a, y :: b => match x ?= y with Eq => bytesCompare a b | c => c end
  end.

Definition hash_Less (h other : hash) : bool :=
  match bytesCompare h other with Lt => true | _ => false end.
Definition hash_LessOrEqual (h other : hash) : bool :=
  match bytesCompare h other with Gt => false | _ => true end.

Module Ghostdag.
Abbreviation result A := (outcome ghostdagError A) (only parsing).
Abbreviation store := (gmap hash BlockGHOSTDAGData) (only parsing).

Definition fromDag {A} (o : outcome reachabilityError A) : result A :=
  match o with
  | Ret a => Ret a
  | Fail e => Fail (DagError e)
  | Crash c => Crash c
  end.

(** [ghostdagDataStore.Get] *)
Definition Get {A} (S : gmap hash A) (blockHash : hash) : result A :=
  match S !! blockHash with
  | Some data => Ret data
  | None => Fail (DagError ErrNotFound)
  end.

(** The pointer is dereferenced to look it up. *)
Definition GetPointer (S : store) (blockHash : option hash) : result BlockGHOSTDAGData :=
  match blockHash with
  | Some blockHash => Get S blockHash
  | None => Crash NilDereference
  end.

Definition emptyData : BlockGHOSTDAGData :=
  {| blueScore := 0; blueWork := 0; selectedParent := None; mergeSetBlues := []; mergeSetReds := []; bluesAnticoneSizes := ∅ |}.

(** *** compare.go *)
Definition Less (blockHashA : hash) (ghostdagDataA : BlockGHOSTDAGData)
    (blockHashB : hash) (ghostdagDataB : BlockGHOSTDAGData) : bool :=
  match blueWork ghostdagDataA ?= blueWork ghostdagDataB with
  | Lt => true
  | Gt => false
  | Eq => hash_Less blockHashA blockHashB
  end.

Fixpoint chooseLoop (S : store) (blockHashes : list hash) (selectedParent : hash)
    (selectedParentGHOSTDAGData : BlockGHOSTDAGData) : result hash :=
  match blockHashes with
  | [] => Ret selectedParent
  | blockHash :: rest =>
      let? blockGHOSTDAGData := Get S blockHash in
      if Less selectedParent selectedParentGHOSTDAGData blockHash blockGHOSTDAGData
      then chooseLoop S rest blockHash blockGHOSTDAGData
      else chooseLoop S rest selectedParent selectedParentGHOSTDAGData
  end.

Definition ChooseSelectedParent (S : store) (blockHashes : list hash) : result hash :=
  match blockHashes with
  | [] => Crash IndexOutOfRange
  | first :: _ =>
      let? data := Get S first in chooseLoop S blockHashes first data
  end.

Definition less (S : store) (blockHashA blockHashB : hash) : result bool :=
  let? chosenSelectedParent := ChooseSelectedParent S [blockHashA; blockHashB] in
  Ret (bool_decide (chosenSelectedParent = blockHashB)).

Fixpoint findSelectedParentLoop (S : store) (parentHashes : list hash) (selectedParent : option hash) : result (option hash) :=
  match parentHashes with
  | [] => Ret selectedParent
  | hash :: rest =>
      match selectedParent with
      | None => findSelectedParentLoop S rest (Some hash)
      | Some selected =>
          let? isHashBiggerThanSelectedParent := less S selected hash in
          findSelectedParentLoop S rest (if (isHashBiggerThanSelectedParent : bool) then Some hash else Some selected)
      end
  end.
Definition findSelectedParent (S : store) (parentHashes : list hash) : result (option hash) :=
  findSelectedParentLoop S parentHashes None.

(** *** mergeset.go *)

(** The order [sort.Slice] sorts by, of hashes that are in the store. *)
Definition dataOf (S : store) (x : hash) : BlockGHOSTDAGData := default emptyData (S !! x).
Definition notBigger (S : store) (a b : hash) : bool := negb (Less b (dataOf S b) a (dataOf S a)).
Definition sorted_by (S : store) (a b : hash) : Prop := notBigger S a b = true.
#[export] Instance sorted_by_dec S a b : Decision (sorted_by S a b) := decide (notBigger S a b = true).

(** [sort.Slice] compares every element of a slice of at least two with another; an
    element that is not in the store makes [less] fail and the sort return that error. *)
Definition sortMergeSet (S : store) (mergeSetSlice : list hash) : result (list hash) :=
  if (2 <=? zlen mergeSetSlice) && negb (forallb (λ x, bool_decide (is_Some (S !! x))) mergeSetSlice)
  then Fail (DagError ErrNotFound)
  else Ret (merge_sort (sorted_by S) mergeSetSlice).

Section Manager.
Context `{DAGTopologyManager}.
Variable k : Z.

Record mergeState := {
  ms_mergeSetMap : gset hash;
  ms_mergeSetSlice : list hash;
  ms_selectedParentPast : gset hash;
  ms_queue : list hash
}.

(** Queue the parents other than the selected parent. *)
Fixpoint queueParents (selectedParent : option hash) (blockParents : list hash) (st : mergeState) : mergeState :=
  match blockParents with
  | [] => st
  | parent :: rest =>
      if bool_decide (Some parent = selectedParent) then queueParents selectedParent rest st
      else queueParents selectedParent rest
             {| ms_mergeSetMap := {[parent]} ∪ ms_mergeSetMap st; ms_mergeSetSlice := ms_mergeSetSlice st ++ [parent];
                ms_selectedParentPast := ms_selectedParentPast st; ms_queue := ms_queue st ++ [parent] |}
  end.

Fixpoint visitParents (selectedParent : option hash) (currentParents : list hash) (st : mergeState) : result mergeState :=
  match currentParents with
  | [] => Ret st
  | parent :: rest =>
      if bool_decide (parent ∈ ms_mergeSetMap st) then visitParents selectedParent rest st
      else if bool_decide (parent ∈ ms_selectedParentPast st) then visitParents selectedParent rest st
      else
        match selectedParent with
        | None => Crash NilDereference
        | Some selected =>
            let? isAncestorOfSelectedParent := fromDag (IsAncestorOf parent selected) in
            if (isAncestorOfSelectedParent : bool)
            then visitParents selectedParent rest
                   {| ms_mergeSetMap := ms_mergeSetMap st; ms_mergeSetSlice := ms_mergeSetSlice st;
                      ms_selectedParentPast := {[parent]} ∪ ms_selectedParentPast st; ms_queue := ms_queue st |}
            else visitParents selectedParent rest
                   {| ms_mergeSetMap := {[parent]} ∪ ms_mergeSetMap st; ms_mergeSetSlice := ms_mergeSetSlice st ++ [parent];
                      ms_selectedParentPast := ms_selectedParentPast st; ms_queue := ms_queue st ++ [parent] |}
        end
  end.

Fixpoint mergeSetLoop (fuel : nat) (selectedParent : option hash) (st : mergeState) : result mergeState :=
  match ms_queue st with
  | [] => Ret st
  | current :: queue =>
      match fuel with
      | O => Crash OutOfFuel
      | Datatypes.S fuel =>
          let? currentParents := fromDag (Parents current) in
          let? st := visitParents selectedParent currentParents
            {| ms_mergeSetMap := ms_mergeSetMap st; ms_mergeSetSlice := ms_mergeSetSlice st;
               ms_selectedParentPast := ms_selectedParentPast st; ms_queue := queue |} in
          mergeSetLoop fuel selectedParent st
      end
  end.

(** Each block is queued once. *)
Definition mergeFuel (S : store) (blockParents : list hash) : nat := length blockParents + size S.

Definition mergeSetWithoutSelectedParent (S : store) (selectedParent : option hash) (blockParents : list hash) : result (list hash) :=
  let st := queueParents selectedParent blockParents
    {| ms_mergeSetMap := ∅; ms_mergeSetSlice := []; ms_selectedParentPast := ∅; ms_queue := [] |} in
  let? st := mergeSetLoop (mergeFuel S blockParents) selectedParent st in
  sortMergeSet S (ms_mergeSetSlice st).

(** *** ghostdag.go *)

(** A chain of selected parents visits a block of the store at most once. *)
Definition chainFuel (S : store) : nat := Datatypes.S (Datatypes.S (size S)).

Fixpoint blueAnticoneSizeLoop (fuel : nat) (S : store) (block : hash) (current : BlockGHOSTDAGData) : result Z :=
  match fuel with
  | O => Crash OutOfFuel
  | Datatypes.S fuel =>
      match bluesAnticoneSizes current !! block with
      | Some blueAnticoneSize => Ret blueAnticoneSize
      | None =>
          match selectedParent current with
          | None => Fail ErrNotInBlueSet
          | Some parent =>
              let? current := Get S parent in blueAnticoneSizeLoop fuel S block current
          end
      end
  end.
Definition blueAnticoneSize (S : store) (block : hash) (context : BlockGHOSTDAGData) : result Z :=
  blueAnticoneSizeLoop (chainFuel S) S block context.

(** What [checkBlueCandidateWithChainBlock] returns, with the map and the counter it
    updates. *)
Record candidate := {
  ca_isBlue : bool;
  ca_isRed : bool;
  ca_sizes : gmap hash Z;
  ca_size : Z
}.

Fixpoint checkBlues (S : store) (newBlockData : BlockGHOSTDAGData) (blueCandidate : hash) (blues : list hash)
    (sizes : gmap hash Z) (size : Z) : result candidate :=
  match blues with
  | [] => Ret {| ca_isBlue := false; ca_isRed := false; ca_sizes := sizes; ca_size := size |}
  | block :: rest =>
      let? isAncestorOfBlueCandidate := fromDag (IsAncestorOf block blueCandidate) in
      if (isAncestorOfBlueCandidate : bool) then checkBlues S newBlockData blueCandidate rest sizes size
      else
        let? anticoneSize := blueAnticoneSize S block newBlockData in
        let sizes := <[block := anticoneSize]> sizes in
        let size := GoInt.uint8 (size + 1) in
        if k <? size then Ret {| ca_isBlue := false; ca_isRed := true; ca_sizes := sizes; ca_size := size |}
        else if anticoneSize =? k then Ret {| ca_isBlue := false; ca_isRed := true; ca_sizes := sizes; ca_size := size |}
        else if k <? anticoneSize then Fail ErrAnticoneTooLarge
        else checkBlues S newBlockData blueCandidate rest sizes size
  end.

Definition checkBlueCandidateWithChainBlock (S : store) (newBlockData : BlockGHOSTDAGData)
    (chainBlockHash : option hash) (chainBlockData : BlockGHOSTDAGData) (blueCandidate : hash)
    (sizes : gmap hash Z) (size : Z) : result candidate :=
  let? isAncestorOfBlueCandidate :=
    match chainBlockHash with
    | Some chainBlock => fromDag (IsAncestorOf chainBlock blueCandidate)
    | None => Ret false
    end in
  if (isAncestorOfBlueCandidate : bool)
  then Ret {| ca_isBlue := true; ca_isRed := false; ca_sizes := sizes; ca_size := size |}
  else checkBlues S newBlockData blueCandidate (mergeSetBlues chainBlockData) sizes size.

Fixpoint checkBlueCandidateLoop (fuel : nat) (S : store) (newBlockData : BlockGHOSTDAGData)
    (chainBlockHash : option hash) (chainBlockData : BlockGHOSTDAGData) (blueCandidate : hash)
    (sizes : gmap hash Z) (size : Z) : result (option (Z * gmap hash Z)) :=
  match fuel with
  | O => Crash OutOfFuel
  | Datatypes.S fuel =>
      let? c := checkBlueCandidateWithChainBlock S newBlockData chainBlockHash chainBlockData blueCandidate sizes size in
      if ca_isBlue c then Ret (Some (ca_size c, ca_sizes c))
      else if ca_isRed c then Ret None
      else
        let? selectedParentGHOSTDAGData := GetPointer S (selectedParent chainBlockData) in
        checkBlueCandidateLoop fuel S newBlockData (selectedParent chainBlockData) selectedParentGHOSTDAGData
          blueCandidate (ca_sizes c) (ca_size c)
  end.

(** [None]: the candidate is red; else its blue anticone size and the sizes of the
    blue blocks in its anticone. *)
Definition checkBlueCandidate (S : store) (newBlockData : BlockGHOSTDAGData) (blueCandidate : hash) :
    result (option (Z * gmap hash Z)) :=
  if GoInt.uint8 (zlen (mergeSetBlues newBlockData)) =? GoInt.uint8 (k + 1) then Ret None
  else checkBlueCandidateLoop (chainFuel S) S newBlockData None newBlockData blueCandidate ∅ 0.

Definition addBlue (newBlockData : BlockGHOSTDAGData) (blue : hash) (size : Z) (sizes : gmap hash Z) : BlockGHOSTDAGData :=
  {| blueScore := blueScore newBlockData; blueWork := blueWork newBlockData; selectedParent := selectedParent newBlockData;
     mergeSetBlues := mergeSetBlues newBlockData ++ [blue]; mergeSetReds := mergeSetReds newBlockData;
     bluesAnticoneSizes := ((λ n, GoInt.uint8 (n + 1)) <$> sizes) ∪ <[blue := size]> (bluesAnticoneSizes newBlockData) |}.

Definition addRed (newBlockData : BlockGHOSTDAGData) (red : hash) : BlockGHOSTDAGData :=
  {| blueScore := blueScore newBlockData; blueWork := blueWork newBlockData; selectedParent := selectedParent newBlockData;
     mergeSetBlues := mergeSetBlues newBlockData; mergeSetReds := mergeSetReds newBlockData ++ [red];
     bluesAnticoneSizes := bluesAnticoneSizes newBlockData |}.

Fixpoint colourMergeSet (S : store) (candidates : list hash) (newBlockData : BlockGHOSTDAGData) : result BlockGHOSTDAGData :=
  match candidates with
  | [] => Ret newBlockData
  | blueCandidate :: rest =>
      let? answer := checkBlueCandidate S newBlockData blueCandidate in
      colourMergeSet S rest
        (match answer with
         | Some (size, sizes) => addBlue newBlockData blueCandidate size sizes
         | None => addRed newBlockData blueCandidate
         end)
  end.

(** The sum of the works of the blue blocks, onto [work]. *)
Fixpoint addWorks (headers : gmap hash BlockHeader) (blues : list hash) (work : Z) : result Z :=
  match blues with
  | [] => Ret work
  | blue :: rest =>
      let? header := Get headers blue in
      addWorks headers rest (work + CalcWork (hd_bits header))
  end.

Definition initialData (selected : option hash) : BlockGHOSTDAGData :=
  match selected with
  | Some parent => {| blueScore := 0; blueWork := 0; selectedParent := Some parent; mergeSetBlues := [parent];
                      mergeSetReds := []; bluesAnticoneSizes := {[parent := 0]} |}
  | None => emptyData
  end.
Definition withScore (data : BlockGHOSTDAGData) (score work : Z) : BlockGHOSTDAGData :=
  {| blueScore := score; blueWork := work; selectedParent := selectedParent data; mergeSetBlues := mergeSetBlues data;
     mergeSetReds := mergeSetReds data; bluesAnticoneSizes := bluesAnticoneSizes data |}.

(** The data [GHOSTDAG] computes and the store it stages it in. *)
Definition ghostdagOf (S : store) (headers : gmap hash BlockHeader) (blockHash : hash) : result BlockGHOSTDAGData :=
  let? blockParents := fromDag (Parents blockHash) in
  let? selected := match blockParents with [] => Ret None | _ => findSelectedParent S blockParents end in
  let? candidates := mergeSetWithoutSelectedParent S selected blockParents in
  let? newBlockData := colourMergeSet S candidates (initialData selected) in
  match blockParents with
  | [] => Ret (withScore newBlockData 0 0)
  | _ =>
      let? selectedParentGHOSTDAGData := GetPointer S (selectedParent newBlockData) in
      let? work := addWorks headers (mergeSetBlues newBlockData) (blueWork selectedParentGHOSTDAGData) in
      Ret (withScore newBlockData
        (GoInt.uint64 (blueScore selectedParentGHOSTDAGData + zlen (mergeSetBlues newBlockData))) work)
  end.

Definition GHOSTDAG (headers : gmap hash BlockHeader) (blockHash : hash) : prog store ghostdagError unit :=
  let* S := get in
  let* newBlockData := lift_outcome (ghostdagOf S headers blockHash) in
  modify (<[blockHash := newBlockData]>).
End Manager.
End Ghostdag.
