(* ===== verification/GhostdagOrder.v ===== *)
(** * GHOSTDAG: the order of blocks and the merge set

    The order by blue work, then hash, is total; [findSelectedParent] takes the
    greatest parent; the merge set is the part of the block's past that is not in the
    selected parent's past, in that order. *)
From stdpp Require Import sorting.
From S2P Require Import Prelude Interval ReachabilityData Reachability ReachabilityTree ReachabilityAdd DagTopology Difficulty Externalapi Hashing Block Ghostdag.
Import Ghostdag.
Local Open Scope Z_scope.
Local Open Scope prog_scope.

Abbreviation hash := (list Z) (only parsing).
Abbreviation store := (gmap (list Z) BlockGHOSTDAGData) (only parsing).

(** ** [bytes.Compare] is a total order *)
Lemma bytesCompare_eq a b : bytesCompare a b = Eq ↔ a = b.
Proof.
  revert b. induction a as [|x a IH]; intros [|y b]; simpl; try done.
  destruct (Z.compare_spec x y) as [->|?|?].
  - rewrite IH. naive_solver.
  - split; [done|]. intros [= -> ?]. lia.
  - split; [done|]. intros [= -> ?]. lia.
Qed.

Lemma bytesCompare_sym a b : bytesCompare b a = CompOpp (bytesCompare a b).
Proof.
  revert b. induction a as [|x a IH]; intros [|y b]; simpl; try done.
  rewrite (Z.compare_antisym x y). destruct (x ?= y); simpl; auto.
Qed.

Lemma bytesCompare_trans a b c : bytesCompare a b = Lt → bytesCompare b c = Lt → bytesCompare a c = Lt.
Proof.
  revert b c. induction a as [|x a IH]; intros [|y b] [|z c]; simpl; try done.
  destruct (Z.compare_spec x y), (Z.compare_spec y z), (Z.compare_spec x z); intros; try done; try lia.
  by apply (IH b c).
Qed.

(** ** The order of blocks *)
Section Order.
Variable S : store.

Definition workOf (x : hash) : Z := blueWork (dataOf S x).

Lemma sorted_by_spec a b : sorted_by S a b ↔ workOf a < workOf b ∨ (workOf a = workOf b ∧ bytesCompare a b ≠ Gt).
Proof.
  unfold sorted_by, notBigger, Less, hash_Less, workOf. rewrite (bytesCompare_sym a b), negb_true_iff.
  destruct (Z.compare_spec (blueWork (dataOf S b)) (blueWork (dataOf S a))) as [->|?|?].
  - destruct (bytesCompare a b); simpl; naive_solver lia.
  - naive_solver lia.
  - naive_solver lia.
Qed.

#[global] Instance sorted_by_total : Total (sorted_by S).
Proof.
  intros a b. rewrite !sorted_by_spec, (bytesCompare_sym a b).
  destruct (Z.lt_trichotomy (workOf a) (workOf b)) as [?|[?|?]]; [by left; left| |by right; left].
  destruct (bytesCompare a b); simpl; naive_solver.
Qed.

#[global] Instance sorted_by_trans : Transitive (sorted_by S).
Proof.
  intros a b c. rewrite !sorted_by_spec. intros [Hab|[Eab Hab]] [Hbc|[Ebc Hbc]]; [left; lia..|]. right. split; [lia|].
  destruct (bytesCompare a b) eqn:E1; [apply bytesCompare_eq in E1 as ->; done| |done].
  destruct (bytesCompare b c) eqn:E2; [apply bytesCompare_eq in E2 as <-; by rewrite E1| |done].
  by rewrite (bytesCompare_trans a b c E1 E2).
Qed.

#[global] Instance sorted_by_refl : Reflexive (sorted_by S).
Proof. intros a. rewrite sorted_by_spec. right. split; [done|]. by rewrite (proj2 (bytesCompare_eq a a) eq_refl). Qed.

#[global] Instance sorted_by_antisymm : AntiSymm eq (sorted_by S).
Proof.
  intros a b. rewrite !sorted_by_spec, (bytesCompare_sym a b). intros H1 H2. apply bytesCompare_eq.
  destruct H1 as [?|[? H1]], H2 as [?|[? H2]]; try lia. by destruct (bytesCompare a b).
Qed.

Lemma Get_known x : x ∈ dom S → Get S x = Ret (dataOf S x).
Proof. intros [g Hg]%elem_of_dom. unfold Get, dataOf. by rewrite Hg. Qed.

Lemma Less_sorted a b : Less a (dataOf S a) b (dataOf S b) = negb (bool_decide (sorted_by S b a)).
Proof.
  destruct (Less a (dataOf S a) b (dataOf S b)) eqn:E; symmetry.
  - apply negb_true_iff, bool_decide_eq_false_2. unfold sorted_by, notBigger. by rewrite E.
  - apply negb_false_iff, bool_decide_eq_true_2. unfold sorted_by, notBigger. by rewrite E.
Qed.

(** [ChooseSelectedParent] returns the greatest of the hashes. *)
Lemma chooseLoop_spec l cur : (∀ x, x ∈ l → x ∈ dom S) →
  ∃ best, chooseLoop S l cur (dataOf S cur) = Ret best ∧ best ∈ cur :: l ∧ ∀ x, x ∈ cur :: l → sorted_by S x best.
Proof.
  revert cur. induction l as [|x l IH]; intros cur Hl; cbn [chooseLoop].
  { exists cur. split; [done|]. split; [by left|]. intros x ->%list_elem_of_singleton. reflexivity. }
  rewrite Get_known by (apply Hl; by left). cbn [obind]. rewrite Less_sorted.
  case_bool_decide as Hx; simpl.
  - destruct (IH cur) as (best & -> & Hbest & Hmax); [set_solver|]. exists best. split; [done|]. split; [set_solver|].
    intros y [->|[->|Hy]%elem_of_cons]%elem_of_cons; [apply Hmax; by left| |apply Hmax; by right].
    etrans; [exact Hx|]. apply Hmax. by left.
  - destruct (IH x) as (best & -> & Hbest & Hmax); [set_solver|]. exists best. split; [done|]. split; [set_solver|].
    intros y [->|Hy]%elem_of_cons; [|by apply Hmax]. etrans; [|apply Hmax; by left].
    by destruct (total (sorted_by S) x cur).
Qed.

Lemma less_spec a b : a ∈ dom S → b ∈ dom S → less S a b = Ret (bool_decide (sorted_by S a b)).
Proof.
  intros Ha Hb. unfold less, ChooseSelectedParent. rewrite Get_known by done. cbn [obind].
  destruct (chooseLoop_spec [a; b] a) as (best & -> & Hbest & Hmax); [set_solver|]. cbn [obind]. f_equal.
  apply bool_decide_ext. split; [intros ->; apply Hmax; set_solver|]. intros Hab.
  destruct (decide (best = b)) as [|Hne]; [done|]. assert (best = a) as -> by set_solver.
  apply (anti_symm (sorted_by S)); [done|]. apply Hmax. set_solver.
Qed.

Lemma findSelectedParent_loop l cur : cur ∈ dom S → (∀ x, x ∈ l → x ∈ dom S) →
  ∃ best, findSelectedParentLoop S l (Some cur) = Ret (Some best) ∧ best ∈ cur :: l ∧ ∀ x, x ∈ cur :: l → sorted_by S x best.
Proof.
  revert cur. induction l as [|x l IH]; intros cur Hcur Hl; cbn [findSelectedParentLoop].
  { exists cur. split; [done|]. split; [by left|]. intros x ->%list_elem_of_singleton. reflexivity. }
  rewrite less_spec by set_solver. cbn [obind]. case_bool_decide as Hx.
  - destruct (IH x) as (best & -> & Hbest & Hmax); [set_solver..|]. exists best. split; [done|]. split; [set_solver|].
    intros y [->|Hy]%elem_of_cons; [|by apply Hmax]. etrans; [exact Hx|]. apply Hmax. by left.
  - destruct (IH cur) as (best & -> & Hbest & Hmax); [set_solver..|]. exists best. split; [done|]. split; [set_solver|].
    intros y [->|[->|Hy]%elem_of_cons]%elem_of_cons; [apply Hmax; by left| |apply Hmax; by right].
    etrans; [|apply Hmax; by left]. by destruct (total (sorted_by S) x cur).
Qed.

Lemma findSelectedParent_spec ps : ps ≠ [] → (∀ x, x ∈ ps → x ∈ dom S) →
  ∃ best, findSelectedParent S ps = Ret (Some best) ∧ best ∈ ps ∧ ∀ x, x ∈ ps → sorted_by S x best.
Proof. destruct ps as [|p ps]; [done|]. intros _ Hps. apply findSelectedParent_loop; set_solver. Qed.

Lemma sortMergeSet_spec l : (∀ x, x ∈ l → x ∈ dom S) →
  ∃ l', sortMergeSet S l = Ret l' ∧ l' ≡ₚ l ∧ StronglySorted (sorted_by S) l'.
Proof.
  intros Hl. unfold sortMergeSet.
  assert (forallb (λ x, bool_decide (is_Some (S !! x))) l = true) as ->.
  { apply forallb_forall. intros x Hx. apply bool_decide_eq_true_2, elem_of_dom, Hl. by apply list_elem_of_In. }
  rewrite andb_false_r. eexists. split; [done|]. split; [apply merge_sort_Permutation|apply StronglySorted_merge_sort; apply _].
Qed.
Lemma nodup_known l : NoDup l → (∀ x, x ∈ l → x ∈ dom S) → (length l ≤ size S)%nat.
Proof.
  intros Hnd Hl. rewrite <- size_dom, <- (size_list_to_set (C := gset hash)) by done. apply subseteq_size.
  intros x. rewrite elem_of_list_to_set. auto.
Qed.
End Order.

(** ** The merge set *)
Section MergeSet.
Context (dag_parents : list Z → list (list Z)) `{DAGTopologyManager} (S : store) `{!TopologyOk dag_parents (dom S)}.
Hypothesis Hclosed : ∀ x y, x ∈ dom S → y ∈ dag_parents x → y ∈ dom S.

Abbreviation anc := (dag_anc dag_parents).

Lemma anc_refl x : anc x x.
Proof. apply rtc_refl. Qed.
Lemma anc_trans x y z : anc x y → anc y z → anc x z.
Proof. intros Hxy Hyz. unfold dag_anc in *. by etrans. Qed.
Lemma anc_parent x y : y ∈ dag_parents x → anc y x.
Proof. intros Hy. by apply rtc_once. Qed.
Lemma anc_inv x y : anc x y → x = y ∨ ∃ p, p ∈ dag_parents y ∧ anc x p.
Proof. intros [->|(p & Hp & Hr)]%rtc_inv; [by left|]. right. by exists p. Qed.
Lemma anc_known x y : y ∈ dom S → anc x y → x ∈ dom S.
Proof using Hclosed. intros Hy Hxy. induction Hxy as [|? p ? Hp _ IH]; [done|]. apply IH. by eapply Hclosed. Qed.

Lemma IsAncestorOf_known a b : a ∈ dom S → b ∈ dom S → ∃ r, fromDag (IsAncestorOf a b) = Ret r ∧ (r = true ↔ anc a b).
Proof using TopologyOk0. intros Ha Hb. destruct (ancestor_ok a b Ha Hb) as (r & -> & Hr). by exists r. Qed.

Variables (sp : list Z) (ps : list (list Z)).
Hypothesis Hsp : sp ∈ dom S.
Hypothesis Hps : ∀ p, p ∈ ps → p ∈ dom S.
Hypothesis Hnodup : NoDup ps.
Hypothesis Hnotanc : ∀ p, p ∈ ps → p ≠ sp → ¬ anc p sp.

(** The blocks to collect: in the past of a parent and not in that of [sp]. *)
Definition collected (x : hash) : Prop := (∃ p, p ∈ ps ∧ p ≠ sp ∧ anc x p) ∧ ¬ anc x sp.

Record visiting (processed : list hash) (st : mergeState) : Prop := {
  vis_map : ms_mergeSetMap st = list_to_set (ms_mergeSetSlice st);
  vis_nodup : NoDup (ms_mergeSetSlice st);
  vis_in x : x ∈ ms_mergeSetSlice st → x ∈ dom S ∧ collected x;
  vis_past x : x ∈ ms_selectedParentPast st → anc x sp;
  vis_split : ms_mergeSetSlice st = processed ++ ms_queue st
}.

Lemma collect_step processed st x : visiting processed st → x ∉ ms_mergeSetSlice st → x ∈ dom S → collected x →
  visiting processed {| ms_mergeSetMap := {[x]} ∪ ms_mergeSetMap st; ms_mergeSetSlice := ms_mergeSetSlice st ++ [x];
                        ms_selectedParentPast := ms_selectedParentPast st; ms_queue := ms_queue st ++ [x] |}.
Proof using All.
  intros [Hmap Hnd Hin Hpast Hsplit] Hx Hdom Hcol. split; simpl.
  - rewrite Hmap, list_to_set_app_L. simpl. set_solver.
  - apply NoDup_app. split_and!; [done|set_solver|apply NoDup_singleton].
  - intros y [Hy| ->%list_elem_of_singleton]%elem_of_app; auto.
  - done.
  - by rewrite Hsplit, app_assoc.
Qed.

Lemma queueParents_spec l : ∀ st, visiting [] st → NoDup l → (∀ x, x ∈ l → x ∈ ps ∧ x ∉ ms_mergeSetSlice st) →
  let st' := queueParents (Some sp) l st in
  visiting [] st' ∧ (∀ x, x ∈ ms_mergeSetSlice st → x ∈ ms_mergeSetSlice st') ∧
  ∀ x, x ∈ l → x ≠ sp → x ∈ ms_mergeSetSlice st'.
Proof using All.
  induction l as [|x l IH]; intros st Hst Hnd Hl; cbn [queueParents]; [set_solver|].
  apply NoDup_cons in Hnd as [Hx Hnd]. case_bool_decide as Hxsp; [simplify_eq|].
  - destruct (IH st) as (? & ? & ?); [done|done|set_solver|]. split_and!; [done|done|set_solver].
  - assert (x ≠ sp) as Hne by congruence. destruct (Hl x) as [Hxps Hxnew]; [by left|].
    destruct (IH {| ms_mergeSetMap := {[x]} ∪ ms_mergeSetMap st; ms_mergeSetSlice := ms_mergeSetSlice st ++ [x];
      ms_selectedParentPast := ms_selectedParentPast st; ms_queue := ms_queue st ++ [x] |}) as (Hv & Hkeep & Hall).
    + apply collect_step; [done|done|auto|]. split; [exists x; split_and!; [done|done|apply rtc_refl]|auto].
    + done.
    + simpl. intros y Hy. split; [apply Hl; by right|]. rewrite elem_of_app, list_elem_of_singleton.
      intros [?| ->]; [|done]. by apply (Hl y); [right|].
    + simpl in Hkeep. split_and!; [done|set_solver|]. intros y [->|Hy]%elem_of_cons Hysp; [apply Hkeep; set_solver|auto].
Qed.

Lemma visitParents_spec processed l : ∀ st, visiting processed st →
  (∀ y, y ∈ l → y ∈ dom S ∧ ∃ p, p ∈ ps ∧ p ≠ sp ∧ anc y p) →
  ∃ st', visitParents (Some sp) l st = Ret st' ∧ visiting processed st' ∧
    (∀ x, x ∈ ms_mergeSetSlice st → x ∈ ms_mergeSetSlice st') ∧
    ∀ y, y ∈ l → y ∈ ms_mergeSetSlice st' ∨ anc y sp.
Proof using All.
  induction l as [|y l IH]; intros st Hst Hl; cbn [visitParents]; [exists st; set_solver|].
  destruct (Hl y) as [Hy Hanc]; [by left|]. assert (∀ z, z ∈ l → z ∈ dom S ∧ ∃ p, p ∈ ps ∧ p ≠ sp ∧ anc z p) as Hl' by (intros z Hz; apply Hl; by right).
  case_bool_decide as Hm.
  { destruct (IH st Hst Hl') as (st' & -> & Hv & Hk & Hd). exists st'. split_and!; [done..|].
    intros z [->|Hz]%elem_of_cons; [|auto]. left. apply Hk. rewrite (vis_map _ _ Hst) in Hm. by apply elem_of_list_to_set in Hm. }
  case_bool_decide as Hp.
  { destruct (IH st Hst Hl') as (st' & -> & Hv & Hk & Hd). exists st'. split_and!; [done..|].
    intros z [->|Hz]%elem_of_cons; [|auto]. right. by apply (vis_past _ _ Hst). }
  destruct (IsAncestorOf_known y sp Hy Hsp) as (r & -> & Hr). cbn [obind]. destruct r.
  - destruct (IH {| ms_mergeSetMap := ms_mergeSetMap st; ms_mergeSetSlice := ms_mergeSetSlice st;
      ms_selectedParentPast := {[y]} ∪ ms_selectedParentPast st; ms_queue := ms_queue st |}) as (st' & -> & Hv & Hk & Hd); [|done|].
    + destruct Hst. split; simpl; try done. intros x [->%elem_of_singleton|?]%elem_of_union; [by apply Hr|auto].
    + exists st'. split_and!; [done..|]. intros z [->|Hz]%elem_of_cons; [right; by apply Hr|auto].
  - assert (¬ anc y sp) as Hn by (intros ?%Hr; done).
    destruct (IH {| ms_mergeSetMap := {[y]} ∪ ms_mergeSetMap st; ms_mergeSetSlice := ms_mergeSetSlice st ++ [y];
      ms_selectedParentPast := ms_selectedParentPast st; ms_queue := ms_queue st ++ [y] |}) as (st' & -> & Hv & Hk & Hd); [|done|].
    + apply collect_step; [done| |done|done]. by rewrite (vis_map _ _ Hst), elem_of_list_to_set in Hm.
    + simpl in Hk. exists st'. split_and!; [done|done|set_solver|]. intros z [->|Hz]%elem_of_cons; [left; apply Hk; set_solver|auto].
Qed.

Definition expanded (processed : list hash) (slice : list hash) : Prop :=
  ∀ x y, x ∈ processed → y ∈ dag_parents x → y ∈ slice ∨ anc y sp.

Lemma queue_empty processed st : visiting processed st → expanded processed (ms_mergeSetSlice st) → ms_queue st = [] →
  visiting (ms_mergeSetSlice st) st ∧ expanded (ms_mergeSetSlice st) (ms_mergeSetSlice st).
Proof using All.
  intros Hst Hexp Hq. pose proof (vis_split _ _ Hst) as Hs. rewrite Hq, app_nil_r in Hs. by rewrite <- Hs in Hst, Hexp.
Qed.

Lemma mergeSetLoop_spec fuel : ∀ processed st, visiting processed st → expanded processed (ms_mergeSetSlice st) →
  (size S ≤ length processed + fuel)%nat →
  ∃ st', mergeSetLoop fuel (Some sp) st = Ret st' ∧ visiting (ms_mergeSetSlice st') st' ∧
    expanded (ms_mergeSetSlice st') (ms_mergeSetSlice st') ∧ ∀ x, x ∈ ms_mergeSetSlice st → x ∈ ms_mergeSetSlice st'.
Proof using All.
  induction fuel as [|fuel IH]; intros processed st Hst Hexp Hfuel; cbn [mergeSetLoop];
    (destruct (ms_queue st) as [|current queue] eqn:Hq; [exists st; by destruct (queue_empty processed st Hst Hexp Hq)|]).
  - exfalso. pose proof (nodup_known S _ (vis_nodup _ _ Hst) (λ x Hx, proj1 (vis_in _ _ Hst x Hx))) as Hlen.
    rewrite (vis_split _ _ Hst), Hq, length_app in Hlen. simpl in Hlen. lia.
  - assert (current ∈ ms_mergeSetSlice st) as Hcur by (rewrite (vis_split _ _ Hst), Hq; set_solver).
    destruct (vis_in _ _ Hst current Hcur) as [Hdom [(p & Hp & Hpsp & Hcp) Hn]].
    rewrite (parents_ok current Hdom). cbn [fromDag obind].
    destruct (visitParents_spec (processed ++ [current]) (dag_parents current)
      {| ms_mergeSetMap := ms_mergeSetMap st; ms_mergeSetSlice := ms_mergeSetSlice st;
         ms_selectedParentPast := ms_selectedParentPast st; ms_queue := queue |}) as (st' & -> & Hv & Hk & Hd).
    + destruct Hst as [? ? ? ? Hsplit]. split; simpl; try done. rewrite Hsplit, Hq. by rewrite <- app_assoc.
    + intros y Hy. split; [by eapply Hclosed|]. exists p. split_and!; [done|done|]. eapply anc_trans; [by apply anc_parent|done].
    + cbn [obind]. simpl in Hk. destruct (IH (processed ++ [current]) st' Hv) as (st2 & -> & Hv2 & He2 & Hk2).
      * intros x y [Hx| ->%list_elem_of_singleton]%elem_of_app Hy; [|auto]. destruct (Hexp x y Hx Hy); auto.
      * rewrite length_app. simpl. lia.
      * exists st2. split_and!; auto.
Qed.

Lemma expanded_collected slice : expanded slice slice → (∀ p, p ∈ ps → p ≠ sp → p ∈ slice) → ∀ x, collected x → x ∈ slice.
Proof using All.
  intros Hexp Hq x [(p & Hp & Hpsp & Hxp) Hn]. specialize (Hq p Hp Hpsp). clear Hp Hpsp.
  induction Hxp as [|y z x Hyz Hzx IH]; [done|]. apply IH; [|done]. destruct (Hexp y z Hq Hyz) as [|Hz]; [done|].
  exfalso. apply Hn. by apply (anc_trans x z sp).
Qed.

(** The merge set without the selected parent. *)
Lemma mergeSet_spec : ∃ l, mergeSetWithoutSelectedParent S (Some sp) ps = Ret l ∧ NoDup l ∧
  StronglySorted (sorted_by S) l ∧ ∀ x, x ∈ l ↔ collected x.
Proof using All.
  unfold mergeSetWithoutSelectedParent.
  destruct (queueParents_spec ps {| ms_mergeSetMap := ∅; ms_mergeSetSlice := []; ms_selectedParentPast := ∅; ms_queue := [] |})
    as (Hv & _ & Hall); [|done|set_solver|].
  { split; simpl; [done|apply NoDup_nil_2|set_solver|set_solver|done]. }
  destruct (mergeSetLoop_spec (mergeFuel S ps) [] _ Hv) as (st & -> & Hv2 & He & Hk); [intros x y Hx; set_solver|unfold mergeFuel; simpl; lia|].
  cbn [obind]. destruct (sortMergeSet_spec S (ms_mergeSetSlice st)) as (l & -> & Hperm & Hsort).
  { intros x Hx. by apply (vis_in _ _ Hv2). }
  exists l. split_and!; [done|by rewrite Hperm; apply (vis_nodup _ _ Hv2)|done|]. intros x. rewrite Hperm. split.
  - intros Hx. by apply (vis_in _ _ Hv2).
  - apply expanded_collected; [done|]. auto.
Qed.
End MergeSet.
