(* ===== verification/GhostdagColour.v ===== *)
(** * GHOSTDAG: the colouring is a k-cluster

    The invariant of the GHOSTDAG data store ([ghostdag_ok]), and that [GHOSTDAG]
    keeps it: the selected parent of a block is its greatest parent, its merge set is
    the part of its past outside the selected parent's, blue work grows along the
    DAG, and the blue blocks of its past form a k-cluster whose anticone sizes are
    the recorded ones. *)
From stdpp Require Import sorting.
From S2P Require Import Prelude Interval ReachabilityData Reachability ReachabilityTree ReachabilityAdd DagTopology Difficulty Externalapi Hashing Block Ghostdag GhostdagOrder.
Import Difficulty Ghostdag.
Local Open Scope Z_scope.
Local Open Scope prog_scope.

Abbreviation hash := (list Z) (only parsing).
Abbreviation store := (gmap (list Z) BlockGHOSTDAGData) (only parsing).

(** ** The selected chain, its blue blocks and their anticone sizes *)
Inductive chain_of (S : store) : BlockGHOSTDAGData → list hash → Prop :=
  | chain_end g : selectedParent g = None → chain_of S g []
  | chain_step g p ch : selectedParent g = Some p → p ∈ dom S → chain_of S (dataOf S p) ch → chain_of S g (p :: ch).

Definition blues (S : store) (g : BlockGHOSTDAGData) (ch : list hash) : list hash :=
  mergeSetBlues g ++ concat (map (λ p, mergeSetBlues (dataOf S p)) ch).

Fixpoint size_in (S : store) (g : BlockGHOSTDAGData) (ch : list hash) (b : hash) : option Z :=
  match bluesAnticoneSizes g !! b with
  | Some n => Some n
  | None =>
      match ch with
      | [] => None
      | p :: ch => size_in S (dataOf S p) ch b
      end
  end.

(** [n] elements of [l] satisfy [P] ([l] has no duplicates). *)
Definition count (P : hash → Prop) (l : list hash) (n : Z) : Prop :=
  ∃ m, NoDup m ∧ (∀ y, y ∈ m ↔ y ∈ l ∧ P y) ∧ zlen m = n.

Lemma count_skip P l l' n c : count P l n → (∀ y, y ∈ l' ↔ y = c ∨ y ∈ l) → ¬ P c → count P l' n.
Proof.
  intros (m & Hm & Hin & Hn) Hl Hc. exists m. split_and!; [done| |done]. intros y. rewrite Hin, Hl. naive_solver.
Qed.

Lemma count_add P l l' n c : count P l n → (∀ y, y ∈ l' ↔ y = c ∨ y ∈ l) → c ∉ l → P c → count P l' (n + 1).
Proof.
  intros (m & Hm & Hin & Hn) Hl Hc HP. exists (c :: m). split_and!.
  - apply NoDup_cons. split; [|done]. rewrite Hin. naive_solver.
  - intros y. rewrite elem_of_cons, Hin, Hl. naive_solver.
  - rewrite zlen_cons. lia.
Qed.

Lemma StronglySorted_sublist {A} (R : relation A) (l k : list A) : k `sublist_of` l → StronglySorted R l → StronglySorted R k.
Proof.
  induction 1 as [|x k l Hsub IH|x k l Hsub IH]; [done| |]; intros [Hs Hall]%StronglySorted_inv; [|auto].
  constructor; [auto|]. rewrite Forall_forall in *. intros y Hy. apply Hall. by eapply sublist_subseteq.
Qed.

Section Ghostdag.
Context (dag_parents : list Z → list (list Z)) (k : Z).
Abbreviation anc := (dag_anc dag_parents).

Definition anticone (a b : hash) : Prop := ¬ anc a b ∧ ¬ anc b a.

(** The blue blocks known to [g] form a k-cluster, and its sizes are right. *)
Definition cluster (S : store) (g : BlockGHOSTDAGData) : Prop :=
  ∃ ch, chain_of S g ch ∧ NoDup (blues S g ch) ∧
    ∀ b, b ∈ blues S g ch → ∃ n, size_in S g ch b = Some n ∧ count (anticone b) (blues S g ch) n ∧ n ≤ k.

Record block_ok (S : store) (x p : hash) (g : BlockGHOSTDAGData) : Prop := {
  bo_selected : selectedParent g = Some p;
  bo_parent : p ∈ dag_parents x;
  bo_greatest q : q ∈ dag_parents x → sorted_by S q p;
  bo_work : workOf S p < blueWork g;
  bo_nodup : NoDup (mergeSetBlues g ++ mergeSetReds g);
  bo_merged y : y ∈ mergeSetBlues g ++ mergeSetReds g ↔ y = p ∨ y ≠ x ∧ anc y x ∧ ¬ anc y p;
  bo_first : ∃ bl, mergeSetBlues g = p :: bl ∧ StronglySorted (sorted_by S) bl;
  bo_reds : StronglySorted (sorted_by S) (mergeSetReds g);
  bo_size : zlen (mergeSetBlues g) ≤ k + 1
}.

Record ghostdag_ok (S : store) (root : hash) : Prop := {
  gd_closed x y : x ∈ dom S → y ∈ dag_parents x → y ∈ dom S;
  gd_root : root ∈ dom S ∧ dag_parents root = [];
  gd_rooted x : x ∈ dom S → anc root x;
  gd_genesis g : S !! root = Some g → selectedParent g = None ∧ mergeSetBlues g = [] ∧ mergeSetReds g = [];
  gd_block x g : S !! x = Some g → x ≠ root → ∃ p, block_ok S x p g;
  gd_cluster x g : S !! x = Some g → cluster S g
}.

Section Known.
Variables (S : store) (root : list Z).
Hypothesis Hok : ghostdag_ok S root.

Lemma dataOf_eq x g : S !! x = Some g → dataOf S x = g.
Proof. intros Hx. unfold dataOf. by rewrite Hx. Qed.
Lemma known_data x : x ∈ dom S → S !! x = Some (dataOf S x).
Proof. intros [g Hg]%elem_of_dom. by rewrite (dataOf_eq x g Hg). Qed.

Lemma parent_work x p : x ∈ dom S → p ∈ dag_parents x → workOf S p < workOf S x.
Proof using Hok.
  intros Hx Hp. destruct (decide (x = root)) as [->|Hne].
  { rewrite (proj2 (gd_root _ _ Hok)) in Hp. by apply elem_of_nil in Hp. }
  destruct (gd_block _ _ Hok x _ (known_data x Hx) Hne) as (q & Hq). pose proof (bo_greatest _ _ _ _ Hq p Hp) as Hs.
  pose proof (bo_work _ _ _ _ Hq). apply sorted_by_spec in Hs. unfold workOf in *. lia.
Qed.

(** Blue work grows along the DAG, which is therefore acyclic. *)
Lemma anc_work x y : x ∈ dom S → anc y x → y = x ∨ workOf S y < workOf S x.
Proof using Hok.
  intros Hx Hyx. induction Hyx as [|x q y Hq _ IH]; [by left|]. right.
  pose proof (parent_work x q Hx Hq). destruct (IH (gd_closed _ _ Hok x q Hx Hq)) as [->|?]; lia.
Qed.

Lemma known_anc x y : x ∈ dom S → anc y x → y ∈ dom S.
Proof using Hok. intros Hx. apply anc_known; [|done]. apply (gd_closed _ _ Hok). Qed.

Lemma not_anc_root c x : x ∈ dom S → c ∈ dom S → ¬ anc x c → x ≠ root.
Proof using Hok. intros _ Hc Hn ->. by apply Hn, (gd_rooted _ _ Hok). Qed.

(** A chain of selected parents has decreasing works. *)
Lemma chain_facts g ch : chain_of S g ch → (∀ p, selectedParent g = Some p → p ∈ dom S) →
  NoDup ch ∧ ∀ y, y ∈ ch → y ∈ dom S ∧ ∀ p, selectedParent g = Some p → workOf S y ≤ workOf S p.
Proof using Hok.
  induction 1 as [g Hg|g p ch Hg Hp Hch IH]; intros Hsel; [split; [apply NoDup_nil_2|by intros ? ?%elem_of_nil]|].
  assert (∀ q, selectedParent (dataOf S p) = Some q → q ∈ dom S ∧ workOf S q < workOf S p) as Hnext.
  { intros q Hq. destruct (decide (p = root)) as [->|Hne].
    - destruct (gd_genesis _ _ Hok _ (known_data root Hp)) as [? _]. congruence.
    - destruct (gd_block _ _ Hok p _ (known_data p Hp) Hne) as (q' & Hq'). assert (q' = q) as -> by (destruct Hq'; congruence).
      split; [|exact (bo_work _ _ _ _ Hq')]. apply (gd_closed _ _ Hok p); [done|]. by apply (bo_parent _ _ _ _ Hq'). }
  destruct IH as [Hnd Hall]; [by intros q Hq; apply Hnext|]. assert (∀ y, y ∈ ch → workOf S y < workOf S p) as Hlt.
  { intros y Hy. destruct (Hall y Hy) as [_ Hle]. destruct ch as [|q ch]; [by apply elem_of_nil in Hy|].
    inversion Hch as [|? ? ? Hq]; subst. pose proof (Hle q Hq). pose proof (Hnext q Hq). lia. }
  split.
  - apply NoDup_cons. split; [|done]. intros Hin. specialize (Hlt p Hin). lia.
  - intros y [->|Hy]%elem_of_cons; split; [done| | |].
    + intros q Hq. rewrite Hg in Hq. by simplify_eq.
    + by apply Hall.
    + intros q Hq. rewrite Hg in Hq. simplify_eq. specialize (Hlt y Hy). lia.
Qed.

Lemma chain_length g ch : chain_of S g ch → (∀ p, selectedParent g = Some p → p ∈ dom S) → (length ch ≤ size S)%nat.
Proof using Hok.
  intros Hch Hsel. destruct (chain_facts g ch Hch Hsel) as [Hnd Hin]. apply nodup_known; [done|]. intros x Hx. by apply Hin.
Qed.

Lemma chain_unique g ch1 ch2 : chain_of S g ch1 → chain_of S g ch2 → ch1 = ch2.
Proof.
  intros H1. revert ch2. induction H1 as [g Hg|g p ch Hg Hp Hch IH]; intros ch2; inversion 1; subst; try congruence.
  assert (p0 = p) as -> by congruence. f_equal. by apply IH.
Qed.

Lemma chain_known x : x ∈ dom S → ∃ ch, chain_of S (dataOf S x) ch.
Proof using Hok. intros Hx. destruct (gd_cluster _ _ Hok x _ (known_data x Hx)) as (ch & Hch & _). by exists ch. Qed.

(** The blue blocks of a known block are in its past. *)
Lemma blues_past x ch b : x ∈ dom S → chain_of S (dataOf S x) ch → b ∈ blues S (dataOf S x) ch → anc b x ∧ b ≠ x.
Proof using Hok.
  intros Hx Hch. remember (dataOf S x) as g eqn:Hg. revert x Hx Hg.
  induction Hch as [g Hsel|g p ch Hsel Hp Hch IH]; intros x Hx ->; unfold blues; simpl.
  - rewrite app_nil_r. intros Hb. destruct (decide (x = root)) as [->|Hne].
    + destruct (gd_genesis _ _ Hok _ (known_data root Hx)) as (_ & E & _). rewrite E in Hb. by apply elem_of_nil in Hb.
    + destruct (gd_block _ _ Hok x _ (known_data x Hx) Hne) as (q & Hq). pose proof (bo_selected _ _ _ _ Hq). congruence.
  - assert (x ≠ root) as Hne.
    { intros ->. destruct (gd_genesis _ _ Hok _ (known_data root Hx)) as (E & _). congruence. }
    destruct (gd_block _ _ Hok x _ (known_data x Hx) Hne) as (q & Hq).
    assert (q = p) as -> by (pose proof (bo_selected _ _ _ _ Hq); congruence).
    pose proof (bo_parent _ _ _ _ Hq) as Hpx. pose proof (parent_work x p Hx Hpx).
    intros [Hb|Hb]%elem_of_app.
    + destruct (proj1 (bo_merged _ _ _ _ Hq b) ltac:(apply elem_of_app; by left)) as [->|(? & ? & _)]; [|done].
      split; [by apply anc_parent|]. intros ->. lia.
    + destruct (IH p Hp eq_refl Hb) as [Hbp Hbne]. split; [eapply anc_trans; [exact Hbp|by apply anc_parent]|].
      intros ->. destruct (anc_work p x Hp Hbp) as [->|?]; lia.
Qed.

(** [blueAnticoneSize] finds the size the chain records. *)
Lemma blueAnticoneSizeLoop_spec fuel b g ch : chain_of S g ch → (length ch < fuel)%nat →
  blueAnticoneSizeLoop fuel S b g = match size_in S g ch b with Some n => Ret n | None => Fail ErrNotInBlueSet end.
Proof.
  intros Hch. revert fuel. induction Hch as [g Hg|g p ch Hg Hp Hch IH]; intros [|fuel] Hf; try (simpl in Hf; lia);
    cbn [blueAnticoneSizeLoop size_in]; destruct (bluesAnticoneSizes g !! b); try done; rewrite Hg; [done|].
  rewrite (Get_known S p Hp). cbn [obind]. apply IH. simpl in Hf. lia.
Qed.
End Known.

(** ** A blue candidate *)
Section Colour.
Context `{DAGTopologyManager} (S : store) (root : list Z) `{!TopologyOk dag_parents (dom S)}.
Hypothesis Hok : ghostdag_ok S root.
Hypothesis Hk : 0 ≤ k < 255.

Section Candidate.
Variables (g : BlockGHOSTDAGData) (ch : list (list Z)) (c p : list Z).
Hypothesis Hsel : selectedParent g = Some p.
Hypothesis Hp : p ∈ dom S.
Hypothesis Hch : chain_of S g ch.
Hypothesis Hnd : NoDup (blues S g ch).
Hypothesis Hsizes : ∀ b, b ∈ blues S g ch → b ∈ dom S ∧ ∃ n, size_in S g ch b = Some n ∧ n ≤ k.
Hypothesis Hc : c ∈ dom S.

Lemma blueAnticoneSize_known b n : size_in S g ch b = Some n → blueAnticoneSize S b g = Ret n.
Proof using Hok Hsel Hp Hch.
  intros Hb. unfold blueAnticoneSize. rewrite (blueAnticoneSizeLoop_spec S _ b g ch Hch), Hb; [done|].
  assert (length ch ≤ size S)%nat; [|unfold chainFuel; lia].
  apply (chain_length S root Hok g ch Hch). intros q Hq. rewrite Hsel in Hq. by simplify_eq.
Qed.

(** The blue blocks of [seen] outside the past of [c] are the list [m]. *)
Record counted (seen : list hash) (sizes : gmap hash Z) (n : Z) (m : list hash) : Prop := {
  ct_nodup : NoDup m;
  ct_in y : y ∈ m ↔ y ∈ seen ∧ ¬ anc y c;
  ct_size : n = zlen m;
  ct_bound : zlen m ≤ k;
  ct_sizes b : b ∈ m → ∃ s, size_in S g ch b = Some s ∧ sizes !! b = Some s ∧ s < k;
  ct_none b : b ∉ m → sizes !! b = None
}.

Lemma counted_skip seen sizes n m l : counted seen sizes n m → (∀ b, b ∈ l → anc b c) → counted (seen ++ l) sizes n m.
Proof using All.
  intros [? Hin ? ? ? ?] Hl. split; try done. intros y. rewrite Hin, elem_of_app. naive_solver.
Qed.

Lemma counted_add seen sizes n m b s : counted seen sizes n m → b ∉ seen → ¬ anc b c → n + 1 ≤ k →
  size_in S g ch b = Some s → s < k → counted (seen ++ [b]) (<[b := s]> sizes) (n + 1) (m ++ [b]).
Proof using All.
  intros [Hm Hin Hn Hb Hs Hnone] Hseen Hanc Hle Hsz Hlt. assert (b ∉ m) as Hbm by (rewrite Hin; naive_solver). split.
  - apply NoDup_app. split_and!; [done| |apply NoDup_singleton]. by intros x Hx ->%list_elem_of_singleton.
  - intros y. rewrite !elem_of_app, Hin, list_elem_of_singleton. naive_solver.
  - rewrite zlen_app, Hn. done.
  - rewrite zlen_app. change (zlen [b]) with 1. lia.
  - intros x Hx. destruct (decide (x = b)) as [->|Hne].
    + exists s. by rewrite lookup_insert_eq.
    + rewrite lookup_insert_ne by done. apply Hs. apply elem_of_app in Hx as [|Hx]; [done|]. by apply list_elem_of_singleton in Hx.
  - intros x Hx. rewrite elem_of_app, list_elem_of_singleton in Hx. rewrite lookup_insert_ne by naive_solver. apply Hnone. naive_solver.
Qed.

Lemma checkBlues_spec l : ∀ seen sizes n m, counted seen sizes n m → NoDup (seen ++ l) → (∀ b, b ∈ l → b ∈ blues S g ch) →
  ∃ r, checkBlues k S g c l sizes n = Ret r ∧ ca_isBlue r = false ∧
    (ca_isRed r = true ∨ ca_isRed r = false ∧ ∃ m', counted (seen ++ l) (ca_sizes r) (ca_size r) m').
Proof using All.
  induction l as [|b l IH]; intros seen sizes n m Hct Hnds Hl; cbn [checkBlues].
  { eexists. split; [done|]. split; [done|]. right. split; [done|]. exists m. by rewrite app_nil_r. }
  destruct (Hsizes b ltac:(apply Hl; by left)) as (Hb & s & Hs & Hsk).
  destruct (IsAncestorOf_known dag_parents S b c Hb Hc) as (r & -> & Hr). cbn [obind].
  assert (∀ x, x ∈ l → x ∈ blues S g ch) as Hl' by (intros x Hx; apply Hl; by right).
  destruct (proj1 (NoDup_app seen (b :: l)) Hnds) as (_ & Hdisj & _).
  replace (seen ++ b :: l) with ((seen ++ [b]) ++ l) in * by (by rewrite <- app_assoc). destruct r.
  { apply (IH (seen ++ [b]) sizes n m); [|done|done]. apply counted_skip; [done|]. intros x ->%list_elem_of_singleton. by apply Hr. }
  assert (¬ anc b c) as Hanc by (intros ?%Hr; done). rewrite (blueAnticoneSize_known b s Hs). cbn [obind]. cbv zeta.
  pose proof (ct_size _ _ _ _ Hct). pose proof (ct_bound _ _ _ _ Hct). pose proof (zlen_nonneg m).
  rewrite GoInt.uint8_id by lia.
  destruct (Z.ltb_spec k (n + 1)); [eexists; split; [done|]; split; [done|]; by left|].
  destruct (Z.eqb_spec s k); [eexists; split; [done|]; split; [done|]; by left|].
  rewrite (proj2 (Z.ltb_ge k s)) by lia.
  apply (IH (seen ++ [b]) (<[b := s]> sizes) (n + 1) (m ++ [b])); [|done|done].
  apply counted_add; try done; try lia. intros Hin. apply (Hdisj b Hin). by left.
Qed.

Lemma checkLoop_spec rest : ∀ fuel x seen sizes n m, x ∈ dom S → chain_of S (dataOf S x) rest → (length rest < fuel)%nat →
  counted seen sizes n m → blues S g ch = seen ++ blues S (dataOf S x) rest →
  ∃ ans, checkBlueCandidateLoop k fuel S g (Some x) (dataOf S x) c sizes n = Ret ans ∧
    match ans with None => True | Some (n', sizes') => ∃ m', counted (blues S g ch) sizes' n' m' end.
Proof using All.
  induction rest as [|q rest IH]; intros [|fuel] x seen sizes n m Hx Hrest Hf Hct Hsplit; try (simpl in Hf; lia);
    cbn [checkBlueCandidateLoop]; unfold checkBlueCandidateWithChainBlock;
    destruct (IsAncestorOf_known dag_parents S x c Hx Hc) as (r & -> & Hr); cbn [obind]; destruct r.
  1, 3: cbn [obind ca_isBlue ca_size ca_sizes]; eexists; (split; [done|]); exists m; rewrite Hsplit; apply counted_skip; [done|];
    intros b Hb; eapply anc_trans; [by eapply (proj1 (blues_past S root Hok x _ b Hx Hrest Hb))|by apply Hr].
  - exfalso. assert (x ≠ root) as Hne by (apply (not_anc_root S root Hok c); [done|done|]; intros ?%Hr; done).
    destruct (gd_block _ _ Hok x _ (known_data S x Hx) Hne) as (q & Hq). pose proof (bo_selected _ _ _ _ Hq).
    inversion Hrest. congruence.
  - inversion Hrest as [|? ? ? Hsq Hqd Hrest']; subst.
    assert (blues S (dataOf S x) (q :: rest) = mergeSetBlues (dataOf S x) ++ blues S (dataOf S q) rest) as Hb by done.
    rewrite Hb, app_assoc in Hsplit.
    destruct (checkBlues_spec (mergeSetBlues (dataOf S x)) seen sizes n m Hct) as (r & -> & Hblue & Hred).
    + rewrite Hsplit in Hnd. by apply NoDup_app in Hnd as [? _].
    + intros b Hbl. rewrite Hsplit, !elem_of_app. left. by right.
    + cbn [obind]. rewrite Hblue. destruct Hred as [->|[-> [m' Hct']]]; [by eexists|].
      rewrite Hsq. cbn [GetPointer]. rewrite (Get_known S q Hqd). cbn [obind].
      apply (IH fuel q (seen ++ mergeSetBlues (dataOf S x)) _ _ m'); try done. simpl in Hf. lia.
Qed.

Lemma counted_nil : counted [] ∅ 0 [].
Proof using All.
  split; try done; [apply NoDup_nil_2| |change (zlen (@nil hash)) with 0; lia|by intros b ?%elem_of_nil].
  intros y. rewrite elem_of_nil. naive_solver.
Qed.

Lemma checkBlueCandidate_spec : zlen (mergeSetBlues g) ≤ k + 1 →
  ∃ ans, checkBlueCandidate k S g c = Ret ans ∧
    match ans with
    | None => True
    | Some (n, sizes) => zlen (mergeSetBlues g) ≤ k ∧ ∃ m, counted (blues S g ch) sizes n m
    end.
Proof using All.
  intros Hlen. unfold checkBlueCandidate. pose proof (zlen_nonneg (mergeSetBlues g)). rewrite !GoInt.uint8_id by lia.
  destruct (Z.eqb_spec (zlen (mergeSetBlues g)) (k + 1)); [by eexists|].
  assert (∃ rest, ch = p :: rest ∧ chain_of S (dataOf S p) rest) as (rest & Ech & Hrest).
  { destruct Hch as [? Hnone|? q rest Hq ? ?]; [congruence|]. exists rest. assert (q = p) as -> by congruence. done. }
  assert (blues S g ch = mergeSetBlues g ++ blues S (dataOf S p) rest) as Hb by (by rewrite Ech).
  unfold chainFuel. set (fuel := Datatypes.S (size S)). cbn [checkBlueCandidateLoop].
  unfold checkBlueCandidateWithChainBlock at 1. cbn [obind].
  destruct (checkBlues_spec (mergeSetBlues g) [] ∅ 0 [] counted_nil) as (r & -> & Hblue & Hred).
  - simpl. rewrite Hb in Hnd. by apply NoDup_app in Hnd as [? _].
  - intros b Hbl. rewrite Hb, elem_of_app. by left.
  - cbn [obind]. rewrite Hblue. destruct Hred as [->|[-> [m' Hct']]]; [by eexists|].
    rewrite Hsel. cbn [GetPointer]. rewrite (Get_known S p Hp). cbn [obind].
    destruct (checkLoop_spec rest fuel p (mergeSetBlues g) (ca_sizes r) (ca_size r) m') as (ans & -> & Hans); try done.
    + assert (length ch ≤ size S)%nat as Hl; [|rewrite Ech in Hl; unfold fuel; simpl in Hl; lia].
      apply (chain_length S root Hok g _ Hch). intros q Hq. congruence.
    + exists ans. split; [done|]. destruct ans as [[? ?]|]; [|done]. split; [lia|done].
Qed.
End Candidate.

(** ** Colouring the merge set *)
Section Block.
Variables (p : list Z) (chp : list (list Z)).
Hypothesis Hp : p ∈ dom S.
Hypothesis Hchp : chain_of S (dataOf S p) chp.
Abbreviation ch := (p :: chp).

Record partial (g : BlockGHOSTDAGData) (processed : list hash) : Prop := {
  pa_selected : selectedParent g = Some p;
  pa_nodup : NoDup (blues S g ch);
  pa_sizes b : b ∈ blues S g ch → ∃ n, size_in S g ch b = Some n ∧ count (anticone b) (blues S g ch) n ∧ n ≤ k;
  pa_length : zlen (mergeSetBlues g) ≤ k + 1;
  pa_first : ∃ bl, mergeSetBlues g = p :: bl ∧ bl `sublist_of` processed;
  pa_reds : mergeSetReds g `sublist_of` processed;
  pa_merged : mergeSetBlues g ++ mergeSetReds g ≡ₚ p :: processed
}.

Lemma partial_chain g processed : partial g processed → chain_of S g ch.
Proof using Hp Hchp. intros Hg. by apply chain_step; [apply (pa_selected _ _ Hg)| |]. Qed.

Lemma partial_blue g processed b : partial g processed → b ∈ blues S g ch → b ∈ processed ∨ anc b p.
Proof using Hp Hchp Hok.
  intros Hg [Hb|Hb]%elem_of_app.
  - assert (b ∈ p :: processed) as [->|?]%elem_of_cons; [|right; apply rtc_refl|by left].
    rewrite <- (pa_merged _ _ Hg). apply elem_of_app. by left.
  - right. by apply (blues_past S root Hok p chp b Hp Hchp).
Qed.

Lemma addBlue_blues g c n sizes y : y ∈ blues S (addBlue g c n sizes) ch ↔ y = c ∨ y ∈ blues S g ch.
Proof using All. unfold blues. simpl. rewrite !elem_of_app, list_elem_of_singleton. tauto. Qed.

Section Step.
Variables (g : BlockGHOSTDAGData) (processed : list (list Z)) (c : list Z).
Hypothesis Hg : partial g processed.
Hypothesis Hknown : ∀ x, x ∈ processed → x ∈ dom S.
Hypothesis Hc : c ∈ dom S.
Hypothesis Hcp : ¬ anc c p.
Hypothesis Hcnew : c ∉ processed.
Hypothesis Hbefore : ∀ x, x ∈ processed → sorted_by S x c.

Lemma blue_known b : b ∈ blues S g ch → b ∈ dom S.
Proof using All. intros [?|?]%(partial_blue g processed b Hg); [auto|by apply (known_anc S root Hok p)]. Qed.

(** The candidate is in the past of no blue block. *)
Lemma candidate_not_anc b : b ∈ blues S g ch → ¬ anc c b.
Proof using All.
  intros Hb Hcb. pose proof (blue_known b Hb) as Hbd. destruct (partial_blue g processed b Hg Hb) as [Hpr|Hbp].
  - destruct (anc_work S root Hok b c Hbd Hcb) as [->|Hlt]; [done|].
    pose proof (Hbefore b Hpr) as Hs. apply sorted_by_spec in Hs. lia.
  - apply Hcp. by eapply anc_trans.
Qed.

Lemma candidate_not_blue : c ∉ blues S g ch.
Proof using All. intros Hb. by apply (candidate_not_anc c Hb), rtc_refl. Qed.

Lemma addBlue_size_in n sizes m b : counted g ch c (blues S g ch) sizes n m →
  size_in S (addBlue g c n sizes) ch b =
    if decide (b = c) then Some n
    else if decide (b ∈ m) then (λ s, GoInt.uint8 (s + 1)) <$> sizes !! b else size_in S g ch b.
Proof using All.
  intros Hct. cbn [size_in addBlue bluesAnticoneSizes]. rewrite lookup_union, lookup_fmap.
  case_decide as Hbc; [subst b|rewrite lookup_insert_ne by done; case_decide as Hbm].
  - rewrite (ct_none _ _ _ _ _ _ _ Hct c); [by rewrite lookup_insert_eq|].
    rewrite (ct_in _ _ _ _ _ _ _ Hct). intros [Hcb _]. by apply candidate_not_blue.
  - destruct (ct_sizes _ _ _ _ _ _ _ Hct b Hbm) as (s & _ & -> & _). simpl. by destruct (bluesAnticoneSizes g !! b).
  - rewrite (ct_none _ _ _ _ _ _ _ Hct b Hbm). simpl. by destruct (bluesAnticoneSizes g !! b).
Qed.

Lemma addBlue_partial n sizes m : counted g ch c (blues S g ch) sizes n m → zlen (mergeSetBlues g) ≤ k →
  partial (addBlue g c n sizes) (processed ++ [c]).
Proof using All.
  intros Hct Hlen. pose proof candidate_not_blue as Hnew. split.
  - apply (pa_selected _ _ Hg).
  - unfold blues. simpl. rewrite <- app_assoc.
    rewrite (Permutation_app_comm [c]), app_assoc. apply NoDup_app. split_and!; [apply (pa_nodup _ _ Hg)| |apply NoDup_singleton].
    by intros x Hx ->%list_elem_of_singleton.
  - intros b Hb%addBlue_blues. rewrite (addBlue_size_in n sizes m b Hct). case_decide as Hbc; [subst b|].
    + exists n. split; [done|]. split; [|by rewrite (ct_size _ _ _ _ _ _ _ Hct); apply (ct_bound _ _ _ _ _ _ _ Hct)].
      exists m. split_and!; [apply (ct_nodup _ _ _ _ _ _ _ Hct)| |by rewrite (ct_size _ _ _ _ _ _ _ Hct)].
      intros y. rewrite (ct_in _ _ _ _ _ _ _ Hct), addBlue_blues. unfold anticone. split.
      * intros [Hy Hn]. split; [by right|]. split; [by apply candidate_not_anc|done].
      * intros [[->|Hy] [Hn1 Hn2]]; [by destruct Hn1; apply rtc_refl|done].
    + destruct Hb as [?|Hb]; [done|]. destruct (pa_sizes _ _ Hg b Hb) as (s & Hs & Hcount & Hle).
      pose proof (ct_in _ _ _ _ _ _ _ Hct b) as Hin. case_decide as Hbm.
      * destruct (ct_sizes _ _ _ _ _ _ _ Hct b Hbm) as (s' & Hs' & -> & Hlt). assert (s' = s) as -> by congruence.
        assert (0 ≤ s) by (destruct Hcount as (? & _ & _ & <-); apply zlen_nonneg).
        exists (s + 1). simpl. rewrite GoInt.uint8_id by lia. split; [done|]. split; [|lia].
        apply (count_add _ (blues S g ch) _ _ c); [done|intros y; apply addBlue_blues|done|].
        split; [by apply Hin in Hbm as [_ ?]|by apply candidate_not_anc].
      * exists s. split; [done|]. split; [|done]. apply (count_skip _ (blues S g ch) _ _ c); [done|intros y; apply addBlue_blues|].
        intros [Hn _]. by apply Hbm, Hin.
  - simpl. rewrite zlen_app. change (zlen [c]) with 1. lia.
  - simpl. destruct (pa_first _ _ Hg) as (bl & -> & Hbl). exists (bl ++ [c]). split; [done|]. by apply sublist_app.
  - simpl. apply sublist_inserts_r, (pa_reds _ _ Hg).
  - simpl. rewrite <- app_assoc, (Permutation_app_comm [c]), app_assoc, (pa_merged _ _ Hg). done.
Qed.

Lemma addRed_partial : partial (addRed g c) (processed ++ [c]).
Proof using Hg.
  destruct Hg as [? ? ? ? (bl & Hbl & Hsub) Hreds Hm]. split; try done; simpl.
  - exists bl. split; [done|]. by apply sublist_inserts_r.
  - by apply sublist_app.
  - by rewrite app_assoc, Hm.
Qed.

Lemma colour_step : ∃ ans, checkBlueCandidate k S g c = Ret ans ∧
  partial (match ans with Some (n, sizes) => addBlue g c n sizes | None => addRed g c end) (processed ++ [c]).
Proof using All.
  destruct (checkBlueCandidate_spec g ch c p (pa_selected _ _ Hg) Hp (partial_chain g processed Hg) (pa_nodup _ _ Hg))
    as (ans & Hrun & Hans); [|done|apply (pa_length _ _ Hg)|].
  { intros b Hb. split; [by apply blue_known|]. destruct (pa_sizes _ _ Hg b Hb) as (n & ? & _ & ?). by exists n. }
  exists ans. split; [done|]. destruct ans as [[n sizes]|]; [|apply addRed_partial].
  destruct Hans as (Hlen & m & Hct). by apply (addBlue_partial n sizes m).
Qed.
End Step.

Lemma colour_spec l : ∀ g processed, partial g processed → (∀ x, x ∈ processed → x ∈ dom S) →
  StronglySorted (sorted_by S) l → NoDup (processed ++ l) → (∀ x y, x ∈ processed → y ∈ l → sorted_by S x y) →
  (∀ x, x ∈ l → x ∈ dom S ∧ ¬ anc x p) →
  ∃ g', colourMergeSet k S l g = Ret g' ∧ partial g' (processed ++ l).
Proof using All.
  induction l as [|c l IH]; intros g processed Hg Hknown Hsort Hnd Hbefore Hl; cbn [colourMergeSet].
  { exists g. by rewrite app_nil_r. }
  apply StronglySorted_inv in Hsort as [Hsort Hall]. rewrite Forall_forall in Hall. destruct (Hl c) as [Hc Hcp]; [by left|].
  destruct (proj1 (NoDup_app _ _) Hnd) as (_ & Hdisj & _).
  destruct (colour_step g processed c) as (ans & -> & Hpart); try done.
  { intros Hin. apply (Hdisj c Hin). by left. }
  { intros x Hx. apply Hbefore; [done|by left]. }
  cbn [obind]. replace (processed ++ c :: l) with ((processed ++ [c]) ++ l) in * by (by rewrite <- app_assoc).
  apply IH; try done.
  - intros x [?| ->%list_elem_of_singleton]%elem_of_app; auto.
  - intros x y [?| ->%list_elem_of_singleton]%elem_of_app Hy; [apply Hbefore; [done|by right]|by apply Hall].
  - intros x Hx. apply Hl. by right.
Qed.
End Block.

Lemma initial_partial p : p ∈ dom S → ∃ chp, chain_of S (dataOf S p) chp ∧ partial p chp (initialData (Some p)) [].
Proof using All.
  intros Hp. destruct (gd_cluster _ _ Hok p _ (known_data S p Hp)) as (chp & Hchp & Hnd & Hsizes).
  exists chp. split; [done|]. set (old := blues S (dataOf S p) chp) in *.
  assert (blues S (initialData (Some p)) (p :: chp) = p :: old) as Eb by done.
  assert (∀ b, b ∈ old → anc b p ∧ b ≠ p) as Hold by (intros b; by apply (blues_past S root Hok p chp b)).
  split; rewrite ?Eb; [done| | | |by exists []|done|done].
  - apply NoDup_cons. split; [|done]. intros Hin. by apply Hold in Hin as [_ ?].
  - intros b [->|Hb]%elem_of_cons.
    + exists 0. split; [simpl; by rewrite lookup_singleton_eq|]. split; [|lia]. exists []. split_and!; [apply NoDup_nil_2| |done].
      intros y. split; [by intros ?%elem_of_nil|]. intros [[->|Hy]%elem_of_cons [Hn1 Hn2]]; [by destruct Hn1; apply rtc_refl|].
      by apply Hold in Hy as [? _].
    + destruct (Hsizes b Hb) as (n & Hs & Hcount & Hle). exists n. destruct (Hold b Hb) as [Hbp Hbne]. split_and!; [| |done].
      * cbn [size_in initialData bluesAnticoneSizes]. by rewrite lookup_singleton_ne.
      * apply (count_skip _ old _ _ p); [done|intros y; apply elem_of_cons|]. by intros [? _].
  - change (zlen (mergeSetBlues (initialData (Some p)))) with 1. lia.
Qed.
End Colour.

(** ** A store that grows *)
Section Extend.
Variables (S : store) (root B : list Z) (g : BlockGHOSTDAGData).
Hypothesis HB : B ∉ dom S.
Abbreviation S' := (<[B := g]> S).

Lemma dataOf_extend x : x ∈ dom S → dataOf S' x = dataOf S x.
Proof using HB. intros Hx. unfold dataOf. by rewrite lookup_insert_ne by (by intros ->). Qed.

Lemma sorted_extend a b : a ∈ dom S → b ∈ dom S → sorted_by S' a b ↔ sorted_by S a b.
Proof using HB. intros Ha Hb. unfold sorted_by, notBigger. by rewrite !dataOf_extend. Qed.

Lemma chain_extend d ch : chain_of S d ch →
  chain_of S' d ch ∧ blues S' d ch = blues S d ch ∧ ∀ b, size_in S' d ch b = size_in S d ch b.
Proof using HB.
  induction 1 as [d Hd|d p ch Hd Hp Hch (IH1 & IH2 & IH3)]; [split_and!; [by apply chain_end|done|done]|].
  assert (dataOf S' p = dataOf S p) as Ep by (by apply dataOf_extend). split_and!.
  - apply chain_step; [done|rewrite dom_insert; by apply elem_of_union_r|by rewrite Ep].
  - unfold blues in *. simpl. rewrite Ep. f_equal. exact IH2.
  - intros b. cbn [size_in]. destruct (bluesAnticoneSizes d !! b); [done|]. by rewrite Ep, IH3.
Qed.

Lemma cluster_extend d : cluster S d → cluster S' d.
Proof using HB.
  intros (ch & Hch & Hnd & Hall). destruct (chain_extend d ch Hch) as (Hch' & Eb & Es). exists ch.
  split; [done|]. rewrite Eb. split; [done|]. intros b Hb. rewrite Es. by apply Hall.
Qed.

Lemma sorted_list_extend l : (∀ x, x ∈ l → x ∈ dom S) → StronglySorted (sorted_by S) l → StronglySorted (sorted_by S') l.
Proof using HB.
  intros Hl. induction 1 as [|x l Hs IH Hall]; constructor; [apply IH; intros y Hy; apply Hl; by right|].
  rewrite Forall_forall in *. intros y Hy. apply sorted_extend; [apply Hl; by left|apply Hl; by right|auto].
Qed.

Lemma block_extend x p d : x ∈ dom S → (∀ y, y ∈ mergeSetBlues d → y ∈ dom S) → (∀ y, y ∈ mergeSetReds d → y ∈ dom S) → (∀ y, y ∈ dag_parents x → y ∈ dom S) → block_ok S x p d → block_ok S' x p d.
Proof using HB.
  intros Hx Hmk Hmr Hpar [Hsel Hp Hgr Hw Hnd Hm (bl & Hbl & Hs) Hr Hsz]. split; try done.
  - intros q Hq. apply sorted_extend; auto.
  - unfold workOf. rewrite dataOf_extend by auto. done.
  - exists bl. split; [done|]. apply sorted_list_extend; [|done]. intros y Hy. apply Hmk. rewrite Hbl. by right.
  - apply sorted_list_extend; [|done]. intros y Hy. apply Hmr, Hy.
Qed.
End Extend.

(** ** [GHOSTDAG] *)

(** The headers of the known blocks, with targets that have positive work. *)
Definition headers_ok (S : store) (headers : gmap hash BlockHeader) : Prop :=
  ∀ x, x ∈ dom S → ∃ h, headers !! x = Some h ∧ 0 < CalcWork (hd_bits h).

Lemma addWorks_spec S headers l : headers_ok S headers → (∀ x, x ∈ l → x ∈ dom S) → ∀ work,
  ∃ work', addWorks headers l work = Ret work' ∧ work ≤ work' ∧ (l ≠ [] → work < work').
Proof.
  intros Hh. induction l as [|x l IH]; intros Hl work; cbn [addWorks]; [by exists work; split_and!; [|lia|]|].
  destruct (Hh x) as (h & Hx & Hw); [apply Hl; by left|]. unfold Get. rewrite Hx. cbn [obind].
  destruct (IH (λ y Hy, Hl y (list_elem_of_further _ _ _ Hy)) (work + CalcWork (hd_bits h))) as (w & -> & Hle & _).
  exists w. split_and!; [done|lia|lia].
Qed.

Section New.
Context `{DAGTopologyManager} (S : store) (root B : list Z) (headers : gmap (list Z) BlockHeader) `{!TopologyOk dag_parents (dom S)}.
Hypothesis Hok : ghostdag_ok S root.
Hypothesis Hk : 0 ≤ k < 255.
Hypothesis Hheaders : headers_ok S headers.
Hypothesis HB : B ∉ dom S.
Hypothesis HBparents : Parents B = Ret (dag_parents B).
Hypothesis Hsome : dag_parents B ≠ [].
Hypothesis Hknown : ∀ p, p ∈ dag_parents B → p ∈ dom S.
Hypothesis Hnodup : NoDup (dag_parents B).
Hypothesis Hantichain : ∀ p q, p ∈ dag_parents B → q ∈ dag_parents B → p ≠ q → ¬ anc p q.

Lemma collected_merged sp x : sp ∈ dag_parents B →
  collected dag_parents sp (dag_parents B) x ↔ x ≠ B ∧ anc x B ∧ ¬ anc x sp.
Proof using Hok HB Hknown.
  intros Hsp. split.
  - intros [(p & Hp & Hne & Hxp) Hn]. split_and!; [|by eapply anc_trans; [exact Hxp|apply anc_parent]|done].
    intros ->. apply HB. apply (known_anc S root Hok p); auto.
  - intros (Hne & Hxb & Hn). destruct (anc_inv _ _ _ Hxb) as [?|(p & Hp & Hxp)]; [done|]. split; [|done].
    exists p. split_and!; [done| |done]. by intros ->.
Qed.

Lemma ghostdagOf_spec : ∃ p g, ghostdagOf k S headers B = Ret g ∧ block_ok S B p g ∧ cluster S g ∧ p ∈ dom S ∧
  blueScore g = GoInt.uint64 (blueScore (dataOf S p) + zlen (mergeSetBlues g)) ∧
  addWorks headers (mergeSetBlues g) (workOf S p) = Ret (blueWork g).
Proof using All.
  unfold ghostdagOf. rewrite HBparents. cbn [fromDag obind].
  destruct (findSelectedParent_spec S (dag_parents B) Hsome Hknown) as (p & Hfind & Hp & Hmax).
  assert (match dag_parents B with [] => Ret None | _ => findSelectedParent S (dag_parents B) end = Ret (Some p)) as ->
    by (by destruct (dag_parents B)). cbn [obind].
  destruct (mergeSet_spec dag_parents S (gd_closed _ _ Hok) p (dag_parents B)) as (l & -> & Hnd & Hsort & Hin); auto.
  cbn [obind]. destruct (initial_partial S root Hok Hk p (Hknown p Hp)) as (chp & Hchp & Hinit).
  assert (∀ x, x ∈ l → x ∈ dom S ∧ ¬ anc x p) as Hl.
  { intros x [(q & Hq & _ & Hxq) Hn]%Hin. split; [|done]. apply (known_anc S root Hok q); auto. }
  destruct (colour_spec S root Hok Hk p chp (Hknown p Hp) Hchp l _ [] Hinit) as (g & -> & Hg); try done;
    [by intros ? ?%elem_of_nil|by intros ? ? ?%elem_of_nil|].
  cbn [obind]. simpl in Hg. rewrite (pa_selected _ _ _ _ _ Hg). cbn [GetPointer]. rewrite (Get_known S p) by auto. cbn [obind].
  assert (∀ y, y ∈ mergeSetBlues g ++ mergeSetReds g ↔ y = p ∨ y ≠ B ∧ anc y B ∧ ¬ anc y p) as Hm.
  { intros y. rewrite (pa_merged _ _ _ _ _ Hg), elem_of_cons, Hin. by rewrite (collected_merged p y Hp). }
  assert (∀ x, x ∈ mergeSetBlues g → x ∈ dom S) as Hbk.
  { intros x Hx. assert (x ∈ p :: l) as [->|?]%elem_of_cons; [|auto|by apply Hl].
    rewrite <- (pa_merged _ _ _ _ _ Hg). apply elem_of_app. by left. }
  destruct (addWorks_spec S headers (mergeSetBlues g) Hheaders Hbk (workOf S p)) as (w & Hw & Hle & Hlt).
  exists p, (withScore g (GoInt.uint64 (blueScore (dataOf S p) + zlen (mergeSetBlues g))) w).
  change (blueWork (dataOf S p)) with (workOf S p). rewrite Hw. cbn [obind].
  split; [by destruct (dag_parents B)|]. split; [|split; [|by auto]].
  - split; simpl; try done.
    + apply (pa_selected _ _ _ _ _ Hg).
    + apply Hlt. intros E. destruct (pa_first _ _ _ _ _ Hg) as (bl & Hf & _). congruence.
    + rewrite (pa_merged _ _ _ _ _ Hg). apply NoDup_cons. split; [|done]. intros Hpl. apply Hl in Hpl as [_ []]. apply rtc_refl.
    + destruct (pa_first _ _ _ _ _ Hg) as (bl & Hf & Hsub). exists bl. split; [done|]. by apply (StronglySorted_sublist _ l).
    + apply (StronglySorted_sublist _ l); [apply (pa_reds _ _ _ _ _ Hg)|done].
    + apply (pa_length _ _ _ _ _ Hg).
  - exists (p :: chp). split; [by apply chain_step; [apply (pa_selected _ _ _ _ _ Hg)|auto|]|]. split; [apply (pa_nodup _ _ _ _ _ Hg)|].
    apply (pa_sizes _ _ _ _ _ Hg).
Qed.

Lemma ghostdag_extend p g : block_ok S B p g → cluster S g → ghostdag_ok (<[B := g]> S) root.
Proof using Hok HB Hknown.
  intros Hg Hcl. pose proof (bo_parent _ _ _ _ Hg) as Hp.
  assert (root ≠ B) as Hroot by (intros ->; by apply HB, (gd_root _ _ Hok)).
  assert (∀ x y, x ∈ dom S → y ∈ dag_parents x → y ∈ dom S) as Hclosed by apply (gd_closed _ _ Hok).
  split.
  - intros x y. rewrite !dom_insert, !elem_of_union, !elem_of_singleton. intros [->|Hx] Hy; right; eauto.
  - destruct (gd_root _ _ Hok) as [? ?]. split; [|done]. rewrite dom_insert. by apply elem_of_union_r.
  - intros x. rewrite dom_insert, elem_of_union, elem_of_singleton. intros [->|Hx]; [|by apply (gd_rooted _ _ Hok)].
    apply (anc_trans _ root p B); [|by apply anc_parent]. by apply (gd_rooted _ _ Hok), Hknown.
  - intros d. rewrite lookup_insert_ne by done. apply (gd_genesis _ _ Hok).
  - intros x d [[<- <-]|[Hne Hx]]%lookup_insert_Some Hr.
    + exists p. destruct Hg as [Hsel ? Hgr Hw ? Hm (bl & Hbl & Hs) Hreds ?].
      assert (∀ y, y ∈ mergeSetBlues g ++ mergeSetReds g → y ∈ dom S) as Hmk.
      { intros y [->|(Hne & [->|(q & Hq & Hyq)]%anc_inv & _)]%Hm; [auto|done|]. apply (known_anc S root Hok q); auto. }
      split; try done.
      * intros q Hq. apply sorted_extend; auto.
      * unfold workOf. by rewrite dataOf_extend by auto.
      * exists bl. split; [done|]. apply sorted_list_extend; [done| |done]. intros y Hy. apply Hmk. rewrite Hbl. apply elem_of_app. left. by right.
      * apply sorted_list_extend; [done| |done]. intros y Hy. apply Hmk. apply elem_of_app. by right.
    + destruct (gd_block _ _ Hok x d Hx Hr) as (q & Hq). exists q. apply elem_of_dom_2 in Hx. 
      assert (∀ y, y ∈ mergeSetBlues d ++ mergeSetReds d → y ∈ dom S) as Hmk.
      { intros y [->|(_ & Hyx & _)]%(bo_merged _ _ _ _ Hq); [eapply Hclosed, (bo_parent _ _ _ _ Hq); done|by apply (known_anc S root Hok x)]. }
      apply block_extend; [done|done| | |eauto|done]; intros y Hy; apply Hmk, elem_of_app; [by left|by right].
  - intros x d [[<- <-]|[Hne Hx]]%lookup_insert_Some; apply cluster_extend; try done. by apply (gd_cluster _ _ Hok x).
Qed.
End New.
End Ghostdag.

Lemma genesis_ok (dag_parents : list Z → list (list Z)) (k : Z) (root : list Z) : dag_parents root = [] →
  ghostdag_ok dag_parents k {[root := emptyData]} root.
Proof.
  intros Hroot. assert (∀ x g, ({[root := emptyData]} : gmap (list Z) BlockGHOSTDAGData) !! x = Some g → x = root ∧ g = emptyData) as Hx.
  { intros x g [<- <-]%lookup_singleton_Some. done. }
  split.
  - intros x y. rewrite dom_singleton, elem_of_singleton. intros ->. rewrite Hroot. by intros ?%elem_of_nil.
  - rewrite dom_singleton. by split; [apply elem_of_singleton|].
  - intros x. rewrite dom_singleton, elem_of_singleton. intros ->. apply rtc_refl.
  - by intros g [_ ->]%Hx.
  - by intros x g [-> _]%Hx.
  - intros x g [-> ->]%Hx. exists []. split_and!; [by apply chain_end|apply NoDup_nil_2|by intros ? ?%elem_of_nil].
Qed.

(** [GHOSTDAG] on a new block. *)
Lemma GHOSTDAG_spec (dag_parents : list Z → list (list Z)) (k : Z) `{DAGTopologyManager} (S : gmap (list Z) BlockGHOSTDAGData)
    (root B : list Z) (headers : gmap (list Z) BlockHeader) :
  TopologyOk dag_parents (dom S) → ghostdag_ok dag_parents k S root → 0 ≤ k < 255 → headers_ok S headers →
  B ∉ dom S → Parents B = Ret (dag_parents B) → dag_parents B ≠ [] →
  (∀ p, p ∈ dag_parents B → p ∈ dom S) → NoDup (dag_parents B) →
  (∀ p q, p ∈ dag_parents B → q ∈ dag_parents B → p ≠ q → ¬ dag_anc dag_parents p q) →
  ∃ p g, GHOSTDAG k headers B S = (<[B := g]> S, Ret ()) ∧ block_ok dag_parents k S B p g ∧
    ghostdag_ok dag_parents k (<[B := g]> S) root ∧
    blueScore g = GoInt.uint64 (blueScore (dataOf S p) + zlen (mergeSetBlues g)) ∧
    addWorks headers (mergeSetBlues g) (workOf S p) = Ret (blueWork g).
Proof.
  intros Htop Hok Hk Hh HB HP Hne Hknown Hnd Hanti.
  destruct (ghostdagOf_spec dag_parents k S root B headers Hok Hk Hh HB HP Hne Hknown Hnd Hanti)
    as (p & g & Hrun & Hblock & Hcl & _ & Hscore & Hwork).
  exists p, g. split_and!; [|done|by apply (ghostdag_extend dag_parents k S root B Hok HB Hknown p)|done|done].
  unfold GHOSTDAG. erewrite bind_ret_l by reflexivity. unfold lift_outcome. rewrite Hrun. done.
Qed.

Module GhostdagProps.

(** The genesis block, which has no parents, gets data with no selected parent, an
    empty merge set, blue score and blue work 0, and starts a store that is right. *)
Theorem GHOSTDAG_genesis (dag_parents : list Z → list (list Z)) (k : Z) `{DAGTopologyManager} (root : list Z)
    (headers : gmap (list Z) BlockHeader) :
  Parents root = Ret [] → dag_parents root = [] →
  GHOSTDAG k headers root ∅ = ({[root := emptyData]}, Ret ()) ∧ ghostdag_ok dag_parents k {[root := emptyData]} root.
Proof.
  intros HP Hroot. split.
  - unfold GHOSTDAG. erewrite bind_ret_l by reflexivity. unfold lift_outcome, ghostdagOf. rewrite HP. done.
  - by apply genesis_ok.
Qed.

(** A DAG: two blocks on the genesis block, and blocks that merge them. *)
Definition sample_dag (x : list Z) : list (list Z) :=
  match x with
  | [1] | [2] => [[0]]
  | [3] => [[1]; [2]]
  | [4] => [[1]; [2]; [1]]
  | _ => []
  end.
Definition sample_topology : DAGTopologyManager :=
  {| Parents x := Ret (sample_dag x);
     IsAncestorOf a b := Ret (bool_decide (a = b) || bool_decide (a ∈ sample_dag b) || bool_decide (a ∈ (sample_dag b ≫= sample_dag))) |}.
Definition sample_header : BlockHeader :=
  {| hd_version := 0; hd_parentHashes := []; hd_hashMerkleRoot := []; hd_acceptedIDMerkleRoot := []; hd_utxoCommitment := [];
     hd_timeInMilliseconds := 0; hd_bits := 0x207fffff; hd_nonce := 0 |}.
Definition sample_headers : gmap (list Z) BlockHeader :=
  list_to_map ((λ i, ([i], sample_header)) <$> [0; 1; 2; 3; 4]).

(** The data of the blocks, inserted in the given order. *)
Definition run_ghostdag (k : Z) (blocks : list (list Z)) : gmap (list Z) BlockGHOSTDAGData :=
  fold_left (λ S b, fst (@GHOSTDAG sample_topology k sample_headers b S)) blocks ∅.

(** With [k = 0] the lesser of two parallel blocks is red; with [k = 1] both are blue. *)
Example sample_colours :
  (λ g, (selectedParent g, mergeSetBlues g, mergeSetReds g, blueScore g, blueWork g)) <$>
    run_ghostdag 0 [[0]; [1]; [2]; [3]] !! [3] = Some (Some [2], [[2]], [[1]], 2, 4) ∧
  (λ g, (selectedParent g, mergeSetBlues g, mergeSetReds g, blueScore g, blueWork g)) <$>
    run_ghostdag 1 [[0]; [1]; [2]; [3]] !! [3] = Some (Some [2], [[2]; [1]], [], 3, 6).
Proof. split; vm_compute; reflexivity. Qed.

Lemma GHOSTDAG_genesis_witness :
  @GHOSTDAG sample_topology 18 sample_headers [0] ∅ = ({[ [0] := emptyData ]}, Ret ()) ∧
  ghostdag_ok sample_dag 18 {[ [0] := emptyData ]} [0].
Proof. apply (@GHOSTDAG_genesis sample_dag 18 sample_topology [0] sample_headers); reflexivity. Defined.

Lemma sample_topology_ok : @TopologyOk sample_topology sample_dag (dom ({[ [0] := emptyData ]} : gmap (list Z) BlockGHOSTDAGData)).
Proof.
  split; [done|]. intros a b. rewrite dom_singleton, !elem_of_singleton. intros -> ->. exists true. split; [reflexivity|].
  split; [intros _; apply rtc_refl|done].
Qed.


(** The store with the genesis block and one block on it. *)
Lemma sample_two_ok : ghostdag_ok sample_dag 18 (run_ghostdag 18 [[0]; [1]]) [0].
Proof.
  destruct (@GHOSTDAG_spec sample_dag 18 sample_topology {[ [0] := emptyData ]} [0] [1] sample_headers) as (p & g & Hrun & _ & Hok & _).
  - apply sample_topology_ok.
  - by apply genesis_ok.
  - lia.
  - intros x. rewrite dom_singleton, elem_of_singleton. intros ->. exists sample_header. split; vm_compute; reflexivity.
  - rewrite dom_singleton, elem_of_singleton. done.
  - reflexivity.
  - done.
  - intros p ->%list_elem_of_singleton. rewrite dom_singleton. by apply elem_of_singleton.
  - apply NoDup_singleton.
  - by intros p q ->%list_elem_of_singleton ->%list_elem_of_singleton.
  - assert (run_ghostdag 18 [[0]; [1]] = <[[1] := g]> {[ [0] := emptyData ]}) as ->; [|done].
    change (fst (@GHOSTDAG sample_topology 18 sample_headers [1] {[ [0] := emptyData ]}) = <[[1] := g]> {[ [0] := emptyData ]}). by rewrite Hrun.
Qed.

(** A header may list a parent twice: no check on headers rejects it, and
    [GHOSTDAG] then counts the block twice in the blue merge set, in the blue score
    and in the blue work.  Block [4] merges the same blocks as block [3] and names the
    parent [1] twice; its blue work exceeds that of [3]. *)
Theorem duplicate_parents_counted_twice :
  let S := run_ghostdag 2 [[0]; [1]; [2]; [3]; [4]] in
  (λ g, (mergeSetBlues g, blueScore g, blueWork g)) <$> S !! [3] = Some ([[2]; [1]], 3, 6) ∧
  (λ g, (mergeSetBlues g, blueScore g, blueWork g)) <$> S !! [4] = Some ([[2]; [1]; [1]], 4, 8).
Proof. split; vm_compute; reflexivity. Qed.
End GhostdagProps.
