(* ===== verification/Heap.v ===== *)
(** * Binary heaps (the standard library's container/heap)

    What the block heaps use of [container/heap]: [Push] and [Pop] over a slice, with
    the [up] and [down] loops as the library has them.  For a comparison that is
    compatible with a total preorder [le], [Push] and [Pop] keep the heap order,
    permute the elements, and [Pop] returns a least element. *)
From S2P Require Import Prelude.

Module Heap.
Section Heap.
Context {A : Type} (less : A → A → bool).

(** [h.Less(i, j)] and [h.Swap(i, j)] on indices in range *)
Definition lessAt (h : list A) (i j : nat) : bool :=
  match h !! i, h !! j with
  | Some x, Some y => less x y
  | _, _ => false
  end.

Definition swap (h : list A) (i j : nat) : list A :=
  match h !! i, h !! j with
  | Some x, Some y => <[i := y]> (<[j := x]> h)
  | _, _ => h
  end.

Fixpoint up (fuel : nat) (h : list A) (j : nat) : list A :=
  match fuel with
  | O => h
  | S fuel =>
      let i := (j - 1) / 2 in
      if (i =? j)%nat || negb (lessAt h j i) then h else up fuel (swap h i j) i
  end.

Fixpoint down (fuel : nat) (h : list A) (i n : nat) : list A :=
  match fuel with
  | O => h
  | S fuel =>
      let j1 := 2 * i + 1 in
      if (n <=? j1)%nat then h
      else
        let j2 := j1 + 1 in
        let j := if (j2 <? n)%nat && lessAt h j2 j1 then j2 else j1 in
        if negb (lessAt h j i) then h else down fuel (swap h i j) j n
  end.

Definition heap_Push (h : list A) (x : A) : list A :=
  let h := h ++ [x] in up (length h) h (length h - 1).

(** The method [Pop] of the slice removes its last element. *)
Definition heap_Pop (h : list A) : option (A * list A) :=
  let n := length h - 1 in
  let h := down (length h) (swap h 0 n) 0 n in
  x ← h !! n; Some (x, take n h).
End Heap.
End Heap.
Import Heap.

Section HeapSpec.
Context {A : Type} (less : A → A → bool) (le : A → A → Prop).
Hypothesis le_refl : ∀ x, le x x.
Hypothesis le_trans : ∀ x y z, le x y → le y z → le x z.
Hypothesis less_true : ∀ x y, less x y = true → le x y.
Hypothesis less_false : ∀ x y, less x y = false → le y x.

Definition heap_parent (i : nat) : nat := (i - 1) / 2.

(** The order holds on the first [n] elements, but between [i] and its parent for the
    [i] excluded by [P]. *)
Definition ordered_but (P : nat → Prop) (n : nat) (h : list A) : Prop :=
  ∀ i x p, (0 < i < n)%nat → ¬ P i → h !! i = Some x → h !! heap_parent i = Some p → le p x.

Definition heap_ok (h : list A) : Prop := ordered_but (λ _, False) (length h) h.

Lemma heap_parent_lt i : (0 < i)%nat → (heap_parent i < i)%nat.
Proof. intros Hi. unfold heap_parent. apply Nat.Div0.div_lt_upper_bound; lia. Qed.

Lemma heap_parent_child i j : (0 < j)%nat → heap_parent j = i ↔ (j = 2 * i + 1 ∨ j = 2 * i + 2)%nat.
Proof.
  intros Hj. unfold heap_parent. pose proof (Nat.div_mod_eq (j - 1) 2). pose proof (Nat.mod_upper_bound (j - 1) 2). lia.
Qed.

Lemma swap_lookup (h : list A) i j x y : h !! i = Some x → h !! j = Some y →
  ∀ l, swap h i j !! l = if decide (l = i) then Some y else if decide (l = j) then Some x else h !! l.
Proof.
  intros Hi Hj l. unfold swap. rewrite Hi, Hj. pose proof (lookup_lt_Some _ _ _ Hi). pose proof (lookup_lt_Some _ _ _ Hj).
  destruct (decide (l = i)) as [->|]; [by rewrite list_lookup_insert_eq by (rewrite length_insert; lia)|].
  rewrite list_lookup_insert_ne by done. destruct (decide (l = j)) as [->|]; [by rewrite list_lookup_insert_eq by lia|].
  by rewrite list_lookup_insert_ne.
Qed.

Lemma swap_length (h : list A) i j : length (swap h i j) = length h.
Proof. unfold swap. destruct (h !! i), (h !! j); by rewrite ?length_insert. Qed.

Lemma swap_perm (h : list A) i j : swap h i j ≡ₚ h.
Proof.
  unfold swap. destruct (h !! i) as [x|] eqn:Hi; [|done]. destruct (h !! j) as [y|] eqn:Hj; [|done].
  by apply Permutation_insert_swap.
Qed.

Lemma up_perm fuel : ∀ h j, up less fuel h j ≡ₚ h.
Proof.
  induction fuel as [|fuel IH]; intros h j; cbn [up]; [done|]. cbv zeta.
  destruct (_ || _); [done|]. rewrite IH. apply swap_perm.
Qed.

Lemma up_ordered fuel : ∀ h j, (j < fuel)%nat → (j < length h)%nat → ordered_but (λ i, i = j) (length h) h →
  (∀ l x p, (0 < j)%nat → (0 < l)%nat → heap_parent l = j → h !! l = Some x → h !! heap_parent j = Some p → le p x) →
  heap_ok (up less fuel h j).
Proof using All.
  induction fuel as [|fuel IH]; intros h j Hf Hj Hord Hgp; [lia|]. cbn [up]. cbv zeta. fold (heap_parent j).
  destruct (Nat.eqb_spec (heap_parent j) j) as [E|Hne]; cbn [orb].
  { intros i x q Hi _. apply Hord; [done|]. intros ->. pose proof (heap_parent_lt j). lia. }
  destruct (decide (j = 0)) as [->|Hj0]; [done|]. pose proof (heap_parent_lt j ltac:(lia)) as Hlt.
  destruct (lookup_lt_is_Some_2 h j Hj) as [y Hy]. destruct (lookup_lt_is_Some_2 h (heap_parent j)) as [x Hx]; [lia|].
  unfold lessAt. rewrite Hy, Hx. destruct (less y x) eqn:Hless; cbn [negb].
  - apply less_true in Hless. pose proof (swap_lookup h (heap_parent j) j x y Hx Hy) as Hsw.
    apply IH; rewrite ?swap_length; [lia|lia| |].
    + intros l a b Hl Hlne. rewrite !Hsw. destruct (decide (l = heap_parent j)); [done|].
      destruct (decide (l = j)) as [->|Hlj].
      { rewrite decide_True by done. intros. by simplify_eq. }
      intros Ha. destruct (decide (heap_parent l = heap_parent j)) as [Ep|].
      { intros [= <-]. eapply le_trans; [exact Hless|]. apply (Hord l a x); [done|done|done|]. by rewrite Ep. }
      destruct (decide (heap_parent l = j)) as [Ep|]; [|by apply Hord].
      intros [= <-]. by apply (Hgp l a x); [lia|lia| | |].
    + intros l a b Hpos Hl Hpl. rewrite !Hsw.
      pose proof (heap_parent_lt (heap_parent j) Hpos). rewrite (decide_False (P := heap_parent (heap_parent j) = heap_parent j)) by lia.
      rewrite (decide_False (P := heap_parent (heap_parent j) = j)) by lia.
      assert (∀ b, h !! heap_parent (heap_parent j) = Some b → le b x) as Hbx.
      { intros b' Hb'. apply (Hord (heap_parent j) x b'); [lia|lia|done|done]. }
      destruct (decide (l = heap_parent j)) as [->|]; [lia|]. destruct (decide (l = j)) as [->|Hlj]; [intros [= <-]; apply Hbx|].
      intros Ha Hb. eapply le_trans; [by apply Hbx|]. apply (Hord l a x); [|done|done|by rewrite Hpl].
      pose proof (lookup_lt_Some _ _ _ Ha). lia.
  - apply less_false in Hless. intros i a b Hi _ Ha Hb. destruct (decide (i = j)) as [->|]; [|by apply (Hord i)].
    by simplify_eq.
Qed.

Lemma heap_Push_spec h x : heap_ok h → heap_ok (heap_Push less h x) ∧ heap_Push less h x ≡ₚ x :: h.
Proof using All.
  intros Hh. unfold heap_Push. cbv zeta. split; [|rewrite up_perm; by rewrite Permutation_app_comm].
  rewrite length_app. simpl. replace (length h + 1 - 1)%nat with (length h) by lia. apply up_ordered.
  - lia.
  - rewrite length_app. simpl. lia.
  - intros i a b Hi Hne Ha Hb. rewrite length_app in Hi. simpl in Hi. pose proof (heap_parent_lt i ltac:(lia)).
    rewrite lookup_app_l in Ha, Hb by lia. apply (Hh i); [lia|by intros []|done|done].
  - intros l a b _ Hl Hpl Ha _. exfalso. apply lookup_lt_Some in Ha. rewrite length_app in Ha. simpl in Ha.
    pose proof (heap_parent_lt l Hl). lia.
Qed.

Lemma down_perm fuel n : ∀ h i, down less fuel h i n ≡ₚ h.
Proof.
  induction fuel as [|fuel IH]; intros h i; cbn [down]; [done|]. cbv zeta.
  destruct (_ <=? _)%nat; [done|]. destruct (negb _); [done|]. rewrite IH. apply swap_perm.
Qed.

(** The elements from [n] on stay where they are. *)
Lemma down_rest fuel n : ∀ h i l, (i < n)%nat → (n ≤ l)%nat → down less fuel h i n !! l = h !! l.
Proof.
  induction fuel as [|fuel IH]; intros h i l Hi Hl; cbn [down]; [done|]. cbv zeta.
  destruct (Nat.leb_spec n (2 * i + 1)) as [|Hlt]; [done|]. set (j := if _ && _ then _ else _).
  assert (j < n)%nat as Hj by (unfold j; destruct (Nat.ltb_spec (2 * i + 1 + 1) n); simpl; [destruct (lessAt _ _ _ _)|]; lia).
  destruct (negb _); [done|]. rewrite IH by done. unfold swap.
  destruct (h !! i), (h !! j); [|done..]. rewrite !list_lookup_insert_ne by lia. done.
Qed.

(** [j]: the lesser child of [i] *)
Lemma lesser_child h i n j : (n ≤ length h)%nat → (2 * i + 1 < n)%nat →
  j = (if (2 * i + 1 + 1 <? n)%nat && lessAt less h (2 * i + 1 + 1) (2 * i + 1) then 2 * i + 1 + 1 else 2 * i + 1)%nat →
  (i < j < n)%nat ∧ heap_parent j = i ∧
  ∀ l x y, (0 < l < n)%nat → heap_parent l = i → h !! l = Some x → h !! j = Some y → le y x.
Proof using All.
  intros Hn Hi ->. split; [destruct (Nat.ltb_spec (2 * i + 1 + 1) n); simpl; [destruct (lessAt _ _ _ _)|]; lia|].
  split; [apply heap_parent_child; destruct (_ && _); lia|].
  intros l x y Hl Hp%heap_parent_child Hx Hy; [|lia].
  destruct (Nat.ltb_spec (2 * i + 1 + 1) n) as [Hlt|Hge]; cbn [andb] in Hy.
  - destruct (lookup_lt_is_Some_2 h (2 * i + 1)%nat) as [a Ha]; [lia|].
    destruct (lookup_lt_is_Some_2 h (2 * i + 1 + 1)%nat) as [b Hb]; [lia|]. unfold lessAt in Hy. rewrite Ha, Hb in Hy.
    destruct (less b a) eqn:Hba; [apply less_true in Hba|apply less_false in Hba];
      (destruct Hp as [->|Hp]; [|assert (l = 2 * i + 1 + 1)%nat as -> by lia]); simplify_eq; auto.
  - destruct Hp as [->|Hp]; [|lia]. simplify_eq. auto.
Qed.

Lemma down_ordered fuel n : ∀ h i, (n ≤ i + fuel)%nat → (i < n)%nat → (n ≤ length h)%nat →
  ordered_but (λ l, heap_parent l = i) n h →
  (∀ l x p, (0 < i)%nat → (0 < l < n)%nat → heap_parent l = i → h !! l = Some x → h !! heap_parent i = Some p → le p x) →
  ordered_but (λ _, False) n (down less fuel h i n).
Proof using All.
  induction fuel as [|fuel IH]; intros h i Hf Hi Hn Hord Hgp; [lia|]. cbn [down]. cbv zeta.
  destruct (Nat.leb_spec n (2 * i + 1)) as [Hge|Hlt].
  { intros l x p Hl _. apply Hord; [done|]. intros Hp%heap_parent_child; lia. }
  set (j := if _ && _ then _ else _). destruct (lesser_child h i n j Hn Hlt eq_refl) as (Hj & Hpj & Hmin).
  destruct (lookup_lt_is_Some_2 h i) as [x Hx]; [lia|]. destruct (lookup_lt_is_Some_2 h j) as [y Hy]; [lia|].
  unfold lessAt. rewrite Hx, Hy. destruct (less y x) eqn:Hless; cbn [negb].
  - apply less_true in Hless. pose proof (swap_lookup h i j x y Hx Hy) as Hsw. apply IH; rewrite ?swap_length; [lia|lia|lia| |].
    + intros l a b Hl Hpl. rewrite !Hsw. rewrite (decide_False (P := heap_parent l = j)) by done.
      destruct (decide (l = i)) as [->|Hli].
      { pose proof (heap_parent_lt i ltac:(lia)). rewrite decide_False by lia. intros [= <-] Hb. by apply (Hgp j y b); [lia|lia| | |]. }
      destruct (decide (l = j)) as [->|Hlj]; [rewrite decide_True by done; intros; by simplify_eq|].
      destruct (decide (heap_parent l = i)) as [Ep|]; [|by apply Hord].
      intros Ha [= <-]. by apply (Hmin l a y).
    + intros l a b _ Hl Hpl. rewrite !Hsw, Hpj. rewrite (decide_True (P := i = i)) by done.
      pose proof (heap_parent_lt l ltac:(lia)). rewrite (decide_False (P := l = i)), (decide_False (P := l = j)) by lia.
      intros Ha [= <-]. apply (Hord l a y); [lia|lia|done|by rewrite Hpl].
  - apply less_false in Hless. intros l a b Hl _ Ha Hb. destruct (decide (heap_parent l = i)) as [Ep|]; [|by apply (Hord l)].
    rewrite Ep in Hb. simplify_eq. eapply le_trans; [exact Hless|]. by apply (Hmin l a y).
Qed.

Lemma heap_root_least h m x : heap_ok h → h !! 0 = Some m → x ∈ h → le m x.
Proof using le_refl le_trans.
  intros Hh Hm [i Hi]%list_elem_of_lookup. revert x Hi. induction (lt_wf i) as [i _ IH]. intros x Hi.
  destruct (decide (i = 0)) as [->|Hne]; [simplify_eq; apply le_refl|].
  pose proof (heap_parent_lt i ltac:(lia)) as Hlt. pose proof (lookup_lt_Some _ _ _ Hi).
  destruct (lookup_lt_is_Some_2 h (heap_parent i)) as [p Hp]; [lia|].
  eapply le_trans; [by apply (IH (heap_parent i))|]. apply (Hh i x p); [lia|by intros []|done|done].
Qed.

Lemma heap_Pop_spec h : h ≠ [] → heap_ok h →
  ∃ m h', heap_Pop less h = Some (m, h') ∧ heap_ok h' ∧ h ≡ₚ m :: h' ∧ h !! 0 = Some m ∧ ∀ x, x ∈ h → le m x.
Proof using All.
  intros Hne Hh. assert (0 < length h)%nat as Hlen by (destruct h; [done|simpl; lia]).
  destruct (lookup_lt_is_Some_2 h 0 Hlen) as [m Hm]. destruct (lookup_lt_is_Some_2 h (length h - 1)) as [z Hz]; [lia|].
  unfold heap_Pop. cbv zeta. set (n := (length h - 1)%nat) in *. set (g := down _ _ _ _ _).
  pose proof (swap_lookup h 0 n m z Hm Hz) as Hsw.
  assert (g !! n = Some m) as Hgn.
  { unfold g. destruct (decide (n = 0)) as [E|Hn0].
    - destruct (length h) as [|[|?]] eqn:El; [lia| |lia]. cbn [down]. rewrite E. cbn [Nat.leb]. rewrite Hsw.
      rewrite E in Hz. rewrite decide_True by done. congruence.
    - rewrite down_rest by lia. rewrite Hsw. rewrite decide_False by lia. by rewrite decide_True. }
  assert (length g = length h) as Hg by (unfold g; rewrite down_perm; apply swap_length).
  exists m, (take n g). rewrite Hgn. split; [done|]. split_and!.
  - intros i x p Hi Hno Hx Hp. rewrite length_take in Hi. assert (i < n)%nat as Hin by lia.
    pose proof (heap_parent_lt i ltac:(lia)).
    rewrite lookup_take_lt in Hx, Hp by lia. revert Hx Hp. apply (down_ordered (length h) n (swap h 0 n) 0); [lia|lia|rewrite swap_length; lia| | |lia|done].
    + intros l a b Hl Hpl. rewrite !Hsw. rewrite (decide_False (P := l = 0)), (decide_False (P := l = n)) by lia.
      pose proof (heap_parent_lt l ltac:(lia)). rewrite (decide_False (P := heap_parent l = 0)), (decide_False (P := heap_parent l = n)) by lia.
      apply Hh; [lia|by intros []].
    + intros l a b H0. lia.
  - rewrite <- (swap_perm h 0 n), <- (down_perm (length h) n (swap h 0 n) 0). fold g.
    rewrite <- (take_drop n g) at 1. rewrite Permutation_app_comm.
    assert (drop n g = [m]) as ->; [|done].
    rewrite (drop_S g m n Hgn). f_equal. apply drop_ge. lia.
  - done.
  - intros x Hx. by apply (heap_root_least h).
Qed.
End HeapSpec.
