(* ===== verification/Window.v ===== *)
(** * Block heaps and block windows (processes/dagtraversalmanager)

    The heaps of blocks ordered by blue work and hash, the heap of bounded size, and
    [BlockWindow], which collects the greatest blocks of the past of a block by walking
    its selected chain.  The slices are heaps of [Heap.v]. *)
From stdpp Require Import sorting.
From S2P Require Import Prelude Interval ReachabilityData Reachability ReachabilityTree ReachabilityAdd DagTopology Difficulty Externalapi Hashing Block Ghostdag GhostdagOrder GhostdagColour Heap.
Import Ghostdag Heap.
Local Open Scope Z_scope.
Local Open Scope prog_scope.

Abbreviation hash := (list Z) (only parsing).
Abbreviation store := (gmap (list Z) BlockGHOSTDAGData) (only parsing).

Module BlockHeap.
Record blockHeapNode := {
  hn_hash : hash;
  hn_ghostdagData : BlockGHOSTDAGData
}.

Definition node_less (left right : blockHeapNode) : bool :=
  Less (hn_hash left) (hn_ghostdagData left) (hn_hash right) (hn_ghostdagData right).

Definition upHeap_Less : blockHeapNode → blockHeapNode → bool := node_less.
Definition downHeap_Less (i j : blockHeapNode) : bool := negb (node_less i j).

(** A [blockHeap]: which comparison it uses, and the slice. *)
Record blockHeap := {
  bh_down : bool;
  bh_slice : list blockHeapNode
}.
Definition bh_Less (bh : blockHeap) : blockHeapNode → blockHeapNode → bool :=
  if bh_down bh then downHeap_Less else upHeap_Less.

Definition NewDownHeap : blockHeap := {| bh_down := true; bh_slice := [] |}.
Definition NewUpHeap : blockHeap := {| bh_down := false; bh_slice := [] |}.

(** [Swap(0, -1)] on an empty heap indexes out of range. *)
Definition bh_Pop (bh : blockHeap) : outcome ghostdagError (hash * blockHeap) :=
  match heap_Pop (bh_Less bh) (bh_slice bh) with
  | Some (node, slice) => Ret (hn_hash node, {| bh_down := bh_down bh; bh_slice := slice |})
  | None => Crash IndexOutOfRange
  end.

Definition bh_Push (S : store) (bh : blockHeap) (blockHash : hash) : outcome ghostdagError blockHeap :=
  let? ghostdagData := Get S blockHash in
  Ret {| bh_down := bh_down bh;
         bh_slice := heap_Push (bh_Less bh) (bh_slice bh) {| hn_hash := blockHash; hn_ghostdagData := ghostdagData |} |}.

Fixpoint PushSlice (S : store) (bh : blockHeap) (blockHashes : list hash) : outcome ghostdagError blockHeap :=
  match blockHashes with
  | [] => Ret bh
  | blockHash :: rest => let? bh := bh_Push S bh blockHash in PushSlice S bh rest
  end.

Definition bh_Len (bh : blockHeap) : Z := zlen (bh_slice bh).

Fixpoint popAll (n : nat) (bh : blockHeap) : outcome ghostdagError (list hash) :=
  match n with
  | O => Ret []
  | Datatypes.S n => let? '(h, bh) := bh_Pop bh in let? rest := popAll n bh in Ret (h :: rest)
  end.
Definition ToSlice (bh : blockHeap) : outcome ghostdagError (list hash) := popAll (length (bh_slice bh)) bh.

(** A [sizedUpBlockHeap]: the capacity of its slice and the slice. *)
Record sizedUpBlockHeap := {
  sh_cap : Z;
  sh_slice : list blockHeapNode
}.

(** [make] panics on a negative capacity. *)
Definition newSizedUpHeap (cap : Z) : outcome ghostdagError sizedUpBlockHeap :=
  if cap <? 0 then Crash IndexOutOfRange else Ret {| sh_cap := cap; sh_slice := [] |}.

Definition sh_pop (sbh : sizedUpBlockHeap) : outcome ghostdagError (hash * sizedUpBlockHeap) :=
  match heap_Pop upHeap_Less (sh_slice sbh) with
  | Some (node, slice) => Ret (hn_hash node, {| sh_cap := sh_cap sbh; sh_slice := slice |})
  | None => Crash IndexOutOfRange
  end.

Definition tryPushWithGHOSTDAGData (sbh : sizedUpBlockHeap) (blockHash : hash) (ghostdagData : BlockGHOSTDAGData) :
    outcome ghostdagError (bool * sizedUpBlockHeap) :=
  let node := {| hn_hash := blockHash; hn_ghostdagData := ghostdagData |} in
  let push sbh := Ret (true, {| sh_cap := sh_cap sbh; sh_slice := heap_Push upHeap_Less (sh_slice sbh) node |}) in
  if zlen (sh_slice sbh) =? sh_cap sbh then
    let? min := index (sh_slice sbh) 0 in
    if node_less node min then Ret (false, sbh)
    else let? '(_, sbh) := sh_pop sbh in push sbh
  else push sbh.

Definition tryPush (S : store) (sbh : sizedUpBlockHeap) (blockHash : hash) : outcome ghostdagError (bool * sizedUpBlockHeap) :=
  let? ghostdagData := Get S blockHash in
  tryPushWithGHOSTDAGData sbh blockHash ghostdagData.
End BlockHeap.
Import BlockHeap.

Module Window.
(** [for i := len(set) - 1; i >= 0; i--], on the reversed list, with [break] *)
Fixpoint pushUntilRejected (S : store) (sbh : sizedUpBlockHeap) (reversed : list hash) : outcome ghostdagError sizedUpBlockHeap :=
  match reversed with
  | [] => Ret sbh
  | h :: rest =>
      let? '(added, sbh) := tryPush S sbh h in
      if (added : bool) then pushUntilRejected S sbh rest else Ret sbh
  end.

Fixpoint windowLoop (fuel : nat) (S : store) (genesisHash : hash) (windowSize : Z)
    (current : BlockGHOSTDAGData) (windowHeap : sizedUpBlockHeap) : outcome ghostdagError sizedUpBlockHeap :=
  match fuel with
  | O => Crash OutOfFuel
  | Datatypes.S fuel =>
      match selectedParent current with
      | None => Ret windowHeap
      | Some parent =>
          if (zlen (sh_slice windowHeap) <=? windowSize) && negb (bool_decide (parent = genesisHash)) then
            let? selectedParentGHOSTDAGData := Get S parent in
            let? '(added, windowHeap) := tryPushWithGHOSTDAGData windowHeap parent selectedParentGHOSTDAGData in
            if negb added then Ret windowHeap
            else
              let? blues := slice (mergeSetBlues current) 1 (zlen (mergeSetBlues current)) in
              let? windowHeap := pushUntilRejected S windowHeap (rev blues) in
              let? windowHeap := pushUntilRejected S windowHeap (rev (mergeSetReds current)) in
              windowLoop fuel S genesisHash windowSize selectedParentGHOSTDAGData windowHeap
          else Ret windowHeap
      end
  end.

Definition BlockWindow (S : store) (genesisHash highHash : hash) (windowSize : Z) : outcome ghostdagError (list hash) :=
  let? current := Get S highHash in
  let? windowHeap := newSizedUpHeap windowSize in
  let? windowHeap := windowLoop (chainFuel S) S genesisHash windowSize current windowHeap in
  Ret (map hn_hash (sh_slice windowHeap)).
End Window.
Import Window.

(** ** The order of nodes *)
Definition node_le (a b : blockHeapNode) : Prop := node_less b a = false.

Lemma node_le_spec a b : node_le a b ↔
  blueWork (hn_ghostdagData a) < blueWork (hn_ghostdagData b) ∨
  (blueWork (hn_ghostdagData a) = blueWork (hn_ghostdagData b) ∧ bytesCompare (hn_hash a) (hn_hash b) ≠ Gt).
Proof.
  unfold node_le, node_less, Less, hash_Less. rewrite (bytesCompare_sym (hn_hash a) (hn_hash b)).
  destruct (Z.compare_spec (blueWork (hn_ghostdagData b)) (blueWork (hn_ghostdagData a))) as [->|?|?].
  - destruct (bytesCompare (hn_hash a) (hn_hash b)); simpl; naive_solver lia.
  - naive_solver lia.
  - naive_solver lia.
Qed.

Lemma node_le_refl a : node_le a a.
Proof. apply node_le_spec. right. split; [done|]. by rewrite (proj2 (bytesCompare_eq _ _) eq_refl). Qed.

Lemma node_le_trans a b c : node_le a b → node_le b c → node_le a c.
Proof.
  rewrite !node_le_spec. intros [Hab|[Eab Hab]] [Hbc|[Ebc Hbc]]; [left; lia..|]. right. split; [lia|].
  destruct (bytesCompare (hn_hash a) (hn_hash b)) eqn:E1; [apply bytesCompare_eq in E1 as ->; done| |done].
  destruct (bytesCompare (hn_hash b) (hn_hash c)) eqn:E2; [apply bytesCompare_eq in E2 as <-; by rewrite E1| |done].
  by rewrite (bytesCompare_trans _ _ _ E1 E2).
Qed.

Lemma node_less_true a b : node_less a b = true → node_le a b.
Proof.
  intros Hl. destruct (node_less b a) eqn:E; [|done]. exfalso. revert Hl E. unfold node_less, Less, hash_Less.
  rewrite (bytesCompare_sym (hn_hash b) (hn_hash a)), (Z.compare_antisym (blueWork (hn_ghostdagData b))).
  destruct (_ ?= _); simpl; try done. by destruct (bytesCompare _ _).
Qed.

Definition node_heap : list blockHeapNode → Prop := heap_ok node_le.

Lemma push_node h x : node_heap h → node_heap (heap_Push upHeap_Less h x) ∧ heap_Push upHeap_Less h x ≡ₚ x :: h.
Proof. apply heap_Push_spec; [apply node_le_refl|apply node_le_trans|apply node_less_true|done]. Qed.

Lemma pop_node h : h ≠ [] → node_heap h →
  ∃ m h', heap_Pop upHeap_Less h = Some (m, h') ∧ node_heap h' ∧ h ≡ₚ m :: h' ∧ h !! 0%nat = Some m ∧ ∀ x, x ∈ h → node_le m x.
Proof. apply heap_Pop_spec; [apply node_le_refl|apply node_le_trans|apply node_less_true|done]. Qed.

(** ** The greatest blocks of a set *)
Section Top.
Variable S : store.

Definition nodes_ok (h : list blockHeapNode) : Prop :=
  ∀ n, n ∈ h → hn_hash n ∈ dom S ∧ hn_ghostdagData n = dataOf S (hn_hash n).

Lemma node_le_sorted h a b : nodes_ok h → a ∈ h → b ∈ h → node_le a b ↔ sorted_by S (hn_hash a) (hn_hash b).
Proof. intros Hh Ha Hb. rewrite node_le_spec, sorted_by_spec. unfold workOf. by rewrite (proj2 (Hh a Ha)), (proj2 (Hh b Hb)). Qed.

(** [W] holds the [N] greatest blocks of [C], or all of them. *)
Definition top (N : Z) (C : hash → Prop) (W : list hash) : Prop :=
  NoDup W ∧ (∀ x, x ∈ W → C x) ∧
  ((∀ x, C x → x ∈ W) ∧ zlen W ≤ N ∨ zlen W = N ∧ ∀ x w, C x → x ∉ W → w ∈ W → sorted_by S x w).

Definition heap_top (N : Z) (C : hash → Prop) (sbh : sizedUpBlockHeap) : Prop :=
  sh_cap sbh = N ∧ node_heap (sh_slice sbh) ∧ nodes_ok (sh_slice sbh) ∧ top N C (map hn_hash (sh_slice sbh)).

Lemma top_ext N C D W : (∀ x, C x ↔ D x) → top N C W → top N D W.
Proof.
  intros Hext (Hnd & Hin & Hcase). split; [done|]. split; [intros x Hx; by apply Hext, Hin|].
  destruct Hcase as [[Hall ?]|[? Hout]]; [left; split; [|done]|right; split; [done|]].
  - intros x Hx. by apply Hall, Hext.
  - intros x w Hx. by apply Hout, Hext.
Qed.

(** Once [x] is not above the least of [N] blocks, nor is anything below [x]. *)
Lemma top_reject N C D W x : top N C W → zlen W = N → (∀ w, w ∈ W → sorted_by S x w) →
  (∀ y, C y → D y) → (∀ y, D y → C y ∨ sorted_by S y x) → top N D W.
Proof.
  intros (Hnd & Hin & Hcase) Hlen Hx HCD HDC. split; [done|]. split; [auto|]. right. split; [done|].
  intros y w Hy Hyw Hw. destruct (HDC y Hy) as [HC|Hyx]; [|etrans; [exact Hyx|auto]].
  destruct Hcase as [[Hall _]|[_ Hout]]; [by destruct Hyw; apply Hall|by apply Hout].
Qed.

Lemma top_perm N C W W' : W ≡ₚ W' → top N C W → top N C W'.
Proof.
  intros Hp (Hnd & Hin & Hcase). split; [by rewrite <- Hp|]. split; [intros x; rewrite <- Hp; apply Hin|].
  unfold zlen in *. rewrite <- (Permutation_length Hp). destruct Hcase as [[Hall ?]|[? Hout]]; [left; split; [|done]|right; split; [done|]].
  - intros x Hx. rewrite <- Hp. auto.
  - intros x w Hx. rewrite <- Hp. auto.
Qed.

Lemma push_heap_top N C cap h x : node_heap h → nodes_ok h → x ∈ dom S → cap = N →
  top N C (x :: map hn_hash h) →
  heap_top N C {| sh_cap := cap; sh_slice := heap_Push upHeap_Less h {| hn_hash := x; hn_ghostdagData := dataOf S x |} |}.
Proof.
  intros Hh Hok Hx -> Htop. destruct (push_node h {| hn_hash := x; hn_ghostdagData := dataOf S x |} Hh) as [Hh' Hp].
  split; [done|]. split; [done|]. split.
  - intros n. simpl. rewrite Hp. intros [->|Hn]%elem_of_cons; [done|auto].
  - simpl. eapply top_perm; [|exact Htop]. by rewrite Hp.
Qed.

Lemma tryPush_spec N C sbh x : 1 ≤ N → heap_top N C sbh → x ∈ dom S → ¬ C x →
  ∃ added sbh', tryPushWithGHOSTDAGData sbh x (dataOf S x) = Ret (added, sbh') ∧ heap_top N (λ y, y = x ∨ C y) sbh' ∧
    (added = false → zlen (map hn_hash (sh_slice sbh')) = N ∧ ∀ w, w ∈ map hn_hash (sh_slice sbh') → sorted_by S x w).
Proof.
  intros HN (Hcap & Hheap & Hok & Htop) Hx HnC. unfold tryPushWithGHOSTDAGData. cbv zeta. rewrite Hcap.
  set (W := map hn_hash (sh_slice sbh)) in *.
  assert (zlen W = zlen (sh_slice sbh)) as HlenW by (unfold W, zlen; by rewrite length_map).
  destruct Htop as (Hnd & Hin & Hcase). assert (x ∉ W) as HxW by (intros ?%Hin; done).
  destruct (Z.eqb_spec (zlen (sh_slice sbh)) N) as [Hfull|Hroom].
  - assert (sh_slice sbh ≠ []) as Hne by (intros E; rewrite E in Hfull; change (zlen (@nil blockHeapNode)) with 0 in Hfull; lia).
    destruct (pop_node _ Hne Hheap) as (m & h' & Hpop & Hheap' & Hperm & Hm & Hmin).
    assert (m ∈ sh_slice sbh) as Hmin' by (by eapply list_elem_of_lookup_2).
    assert (index (E := ghostdagError) (sh_slice sbh) 0 = Ret m) as -> by (destruct (sh_slice sbh); simpl in Hm; [done|by simplify_eq]).
    cbn [obind].
    assert (∀ w, w ∈ W → sorted_by S (hn_hash m) w) as HmW.
    { intros w Hw. unfold W in Hw. apply list_elem_of_fmap in Hw as (n & -> & Hn). apply (node_le_sorted _ m n Hok); auto. }
    assert (W ≡ₚ hn_hash m :: map hn_hash h') as HpW by (unfold W; by rewrite Hperm).
    destruct (Hok m Hmin') as [Hmdom Hmdata].
    destruct (node_less _ m) eqn:Hless.
    + apply node_less_true in Hless. rewrite node_le_spec in Hless. simpl in Hless. rewrite Hmdata in Hless.
      assert (sorted_by S x (hn_hash m)) as Hxm by (by apply sorted_by_spec).
      assert (∀ w, w ∈ W → sorted_by S x w) as HxW' by (intros w Hw; etrans; [exact Hxm|auto]).
      exists false, sbh. split; [done|]. split; [|intros _; split; [exact (eq_trans HlenW Hfull)|done]].
      split_and!; try done. eapply (top_reject N C); [split; done|exact (eq_trans HlenW Hfull)|exact HxW'|by right|].
      intros y [->|?]; [right; reflexivity|by left].
    + unfold sh_pop. rewrite Hpop. cbn [obind]. eexists true, _. split; [done|]. split; [|done].
      change (node_le m {| hn_hash := x; hn_ghostdagData := dataOf S x |}) in Hless. rewrite node_le_spec in Hless. simpl in Hless. rewrite Hmdata in Hless.
      assert (sorted_by S (hn_hash m) x) as Hmx by (by apply sorted_by_spec).
      simpl. apply push_heap_top; [done|intros n Hn; apply Hok; rewrite Hperm; by right|done|done|].
      rewrite HpW in Hnd, HxW. apply NoDup_cons in Hnd as [Hm' Hnd].
      split; [apply NoDup_cons; split; [by intros ?; apply HxW; right|done]|]. split.
      { intros y [->|Hy]%elem_of_cons; [by left|]. right. apply Hin. rewrite HpW. by right. }
      right. split.
      { pose proof (Permutation_length HpW) as Hl. simpl in Hl. rewrite zlen_cons. unfold zlen in *. lia. }
      intros y w Hy Hyn Hw. assert (y = hn_hash m ∨ sorted_by S y (hn_hash m)) as Hym.
      { destruct Hy as [->|Hy]; [by destruct Hyn; left|]. destruct (decide (y = hn_hash m)) as [|Hne2]; [by left|]. right.
        assert (y ∉ W) as HyW by (rewrite HpW; intros [|]%elem_of_cons; [done|]; apply Hyn; by right).
        destruct Hcase as [[Hall _]|[_ Hout]]; [by destruct HyW; apply Hall|]. apply Hout; [done|done|]. rewrite HpW. by left. }
      assert (sorted_by S (hn_hash m) w) as Hmw.
      { apply elem_of_cons in Hw as [->|Hw]; [done|]. apply HmW. rewrite HpW. by right. }
      destruct Hym as [->|Hym]; [done|by etrans].
  - eexists true, _. split; [done|]. split; [|done]. apply push_heap_top; [done|done|done|done|]. fold W.
    destruct Hcase as [[Hall Hle]|[Hlen _]]; [|lia]. split; [by apply NoDup_cons|]. split.
    { intros y [->|Hy]%elem_of_cons; [by left|right; auto]. }
    left. split; [|rewrite zlen_cons; lia]. intros y [->|Hy]; [by left|right; auto].
Qed.

Lemma pushUntilRejected_spec N l : 1 ≤ N → ∀ C sbh, heap_top N C sbh → NoDup l → (∀ x, x ∈ l → x ∈ dom S ∧ ¬ C x) →
  StronglySorted (λ a b, sorted_by S b a) l →
  ∃ sbh', pushUntilRejected S sbh l = Ret sbh' ∧ heap_top N (λ y, y ∈ l ∨ C y) sbh'.
Proof.
  intros HN. induction l as [|x l IH]; intros C sbh Hst Hnd Hl Hs; cbn [pushUntilRejected].
  { exists sbh. split; [done|]. destruct Hst as (? & ? & ? & Ht). split_and!; try done. eapply top_ext; [|exact Ht].
    intros y. rewrite elem_of_nil. naive_solver. }
  apply NoDup_cons in Hnd as [Hx Hnd]. apply StronglySorted_inv in Hs as [Hs Hall]. rewrite Forall_forall in Hall.
  destruct (Hl x ltac:(by left)) as [Hxd HxC]. unfold tryPush. rewrite (Get_known S x Hxd). cbn [obind].
  destruct (tryPush_spec N C sbh x HN Hst Hxd HxC) as (added & sbh' & -> & Hst' & Hrej). cbn [obind]. destruct added.
  - destruct (IH (λ y, y = x ∨ C y) sbh' Hst' Hnd) as (sbh2 & -> & (? & ? & ? & Ht)); [|done|].
    { intros y Hy. destruct (Hl y ltac:(by right)) as [? ?]. split; [done|]. intros [->|?]; done. }
    exists sbh2. split; [done|]. split_and!; try done. eapply top_ext; [|exact Ht]. intros y. rewrite elem_of_cons. naive_solver.
  - exists sbh'. split; [done|]. destruct (Hrej eq_refl) as [Hlen Hw]. destruct Hst' as (? & ? & ? & Ht). split_and!; try done.
    eapply (top_reject N _ _ _ x); [exact Ht|done|done| |].
    + intros y [->|?]; [left; by left|by right].
    + intros y [[->|Hy]%elem_of_cons|?]; [left; by left|right; by apply Hall|left; by right].
Qed.
End Top.

Lemma StronglySorted_rev {A} (R : relation A) l : StronglySorted R l → StronglySorted (λ a b, R b a) (rev l).
Proof.
  induction 1 as [|x l Hs IH Hall]; [constructor|]. simpl. rewrite Forall_forall in Hall.
  assert (∀ k, StronglySorted (λ a b, R b a) k → (∀ y, y ∈ k → R x y) → StronglySorted (λ a b, R b a) (k ++ [x])) as Hsnoc.
  { intros k Hk. induction Hk as [|y k Hk IHk Hy]; intros Hx; simpl; [repeat constructor|]. constructor; [apply IHk; intros z Hz; apply Hx; by right|].
    rewrite Forall_forall in *. intros z [Hz| ->%list_elem_of_singleton]%elem_of_app; [auto|]. apply Hx. by left. }
  apply Hsnoc; [done|]. intros y Hy. apply Hall. by apply list_elem_of_In, in_rev, list_elem_of_In.
Qed.

Lemma slice_tail {E A} (a : A) l : slice (E := E) (a :: l) 1 (zlen (a :: l)) = Ret l.
Proof.
  unfold slice. rewrite zlen_cons. pose proof (zlen_nonneg l). rewrite decide_True by lia.
  f_equal. simpl. rewrite drop_0, take_ge; [done|]. unfold zlen. lia.
Qed.

(** ** [BlockWindow] *)
Section BlockWindow.
Context (dag_parents : list Z → list (list Z)) (k : Z) (S : store) (root : list Z).
Hypothesis Hok : ghostdag_ok dag_parents k S root.
Abbreviation anc := (dag_anc dag_parents).

(** The past of [x] without the genesis block. *)
Definition past (x y : hash) : Prop := anc y x ∧ y ≠ x ∧ y ≠ root.

Lemma root_least x : x ∈ dom S → x ≠ root → workOf S root < workOf S x.
Proof using Hok.
  intros Hx Hne. destruct (anc_work dag_parents k S root Hok x root Hx (gd_rooted _ _ _ _ Hok x Hx)) as [->|?]; done.
Qed.

Lemma anc_sorted x y : x ∈ dom S → anc y x → sorted_by S y x.
Proof using Hok.
  intros Hx Hyx. destruct (anc_work dag_parents k S root Hok x y Hx Hyx) as [->|Hlt]; [reflexivity|].
  apply sorted_by_spec. by left.
Qed.

Lemma anc_dec x y : x ∈ dom S → anc y x ∨ ¬ anc y x.
Proof using Hok.
  intros Hx. destruct (chain_known dag_parents k S root Hok x Hx) as [ch Hch]. remember (dataOf S x) as g eqn:Hg. revert x Hx Hg.
  induction Hch as [g Hsel|g p ch Hsel Hp _ IH]; intros x Hx ->.
  - destruct (decide (x = root)) as [->|Hne].
    + destruct (decide (y = root)) as [->|Hy]; [left; apply rtc_refl|right]. intros [?|(q & Hq & _)]%anc_inv; [done|].
      rewrite (proj2 (gd_root _ _ _ _ Hok)) in Hq. by apply elem_of_nil in Hq.
    + destruct (gd_block _ _ _ _ Hok x _ (known_data S x Hx) Hne) as (q & Hq). pose proof (bo_selected _ _ _ _ _ _ Hq). congruence.
  - assert (x ≠ root) as Hne.
    { intros ->. destruct (gd_genesis _ _ _ _ Hok _ (known_data S root Hx)) as (E & _). congruence. }
    destruct (gd_block _ _ _ _ Hok x _ (known_data S x Hx) Hne) as (q & Hq).
    assert (q = p) as -> by (pose proof (bo_selected _ _ _ _ _ _ Hq); congruence).
    destruct (decide (y = x)) as [->|Hyx]; [left; apply rtc_refl|].
    destruct (IH p Hp eq_refl) as [Hyp|Hyp]; [left; eapply anc_trans; [exact Hyp|apply anc_parent, (bo_parent _ _ _ _ _ _ Hq)]|].
    destruct (decide (y ∈ mergeSetBlues (dataOf S x) ++ mergeSetReds (dataOf S x))) as [Hin|Hin].
    + apply (bo_merged _ _ _ _ _ _ Hq) in Hin as [->|(_ & ? & _)]; [|by left]. destruct Hyp. apply rtc_refl.
    + right. intros Ha. apply Hin, (bo_merged _ _ _ _ _ _ Hq). by right.
Qed.

Section Chain.
Variables (x p : list Z).
Hypothesis Hx : x ∈ dom S.
Hypothesis Hb : block_ok dag_parents k S x p (dataOf S x).

Lemma selected_known : p ∈ dom S.
Proof using Hok Hx Hb. eapply gd_closed; [exact Hok|exact Hx|exact (bo_parent _ _ _ _ _ _ Hb)]. Qed.

Lemma selected_anc : anc p x ∧ p ≠ x.
Proof using Hok Hx Hb.
  pose proof (bo_parent _ _ _ _ _ _ Hb) as Hp. split; [by apply anc_parent|]. intros E.
  pose proof (parent_work dag_parents k S root Hok x p Hx Hp). rewrite E in H. lia.
Qed.

(** No block of the merge set is greater than the selected parent. *)
Lemma past_below y : anc y x → y ≠ x → sorted_by S y p.
Proof using Hok Hx Hb.
  intros Hyx Hne. destruct (anc_inv _ _ _ Hyx) as [?|(q & Hq & Hyq)]; [done|].
  etrans; [apply (anc_sorted q y); [by eapply gd_closed|done]|]. by apply (bo_greatest _ _ _ _ _ _ Hb).
Qed.

Lemma past_split y : p ≠ root → past x y ↔ y ∈ mergeSetBlues (dataOf S x) ++ mergeSetReds (dataOf S x) ∨ past p y.
Proof using Hok Hx Hb.
  intros Hpr. destruct selected_anc as [Hpx Hpne]. rewrite (bo_merged _ _ _ _ _ _ Hb y). unfold past. split.
  - intros (Hyx & Hne & Hr). destruct (decide (y = p)) as [->|Hyp]; [by left; left|].
    destruct (anc_dec p y selected_known) as [Hanc|Hanc]; [by right|]. left. right. done.
  - intros [[->|(Hne & Hyx & Hn)]|(Hyp & Hne & Hr)].
    + done.
    + split_and!; [done|done|]. intros ->. apply Hn. apply (gd_rooted _ _ _ _ Hok), selected_known.
    + split_and!; [by eapply anc_trans|intros ->|done].
      destruct (anc_work dag_parents k S root Hok p x selected_known Hyp) as [->|Hlt]; [done|].
      pose proof (parent_work dag_parents k S root Hok x p Hx (bo_parent _ _ _ _ _ _ Hb)). lia.
Qed.
End Chain.

Variable N : Z.
Hypothesis HN : 1 ≤ N.
Variable high : list Z.

Lemma heap_top_length C sbh : heap_top S N C sbh → zlen (sh_slice sbh) ≤ N.
Proof using HN.
  intros (_ & _ & _ & _ & _ & Hcase). assert (zlen (map hn_hash (sh_slice sbh)) = zlen (sh_slice sbh)) as E by (unfold zlen; by rewrite length_map).
  rewrite E in Hcase. lia.
Qed.

Lemma heap_top_ext C D sbh : (∀ y, C y ↔ D y) → heap_top S N C sbh → heap_top S N D sbh.
Proof. intros Hext (? & ? & ? & Ht). split_and!; try done. by eapply top_ext. Qed.

(** Pushing the merge set of a chain block, greatest first. *)
Lemma push_merge_set x p : x ∈ dom S → block_ok dag_parents k S x p (dataOf S x) → p ≠ root →
  (∀ y, past x y → past high y) → ∀ sbh, heap_top S N (λ y, y = p ∨ past high y ∧ ¬ past x y) sbh →
  ∃ sbh2 sbh3 bl, slice (E := ghostdagError) (mergeSetBlues (dataOf S x)) 1 (zlen (mergeSetBlues (dataOf S x))) = Ret bl ∧
    pushUntilRejected S sbh (rev bl) = Ret sbh2 ∧
    pushUntilRejected S sbh2 (rev (mergeSetReds (dataOf S x))) = Ret sbh3 ∧
    heap_top S N (λ y, past high y ∧ ¬ past p y) sbh3.
Proof using All.
  intros Hx Hb Hpr Hsub sbh Hst. destruct (bo_first _ _ _ _ _ _ Hb) as (bl & Hbl & Hs). pose proof (bo_reds _ _ _ _ _ _ Hb) as Hsr.
  set (reds := mergeSetReds (dataOf S x)) in *. pose proof (bo_nodup _ _ _ _ _ _ Hb) as Hnd. fold reds in Hnd. rewrite Hbl in Hnd.
  apply NoDup_app in Hnd as (Hndb & Hdisj & Hndr). apply NoDup_cons in Hndb as [Hpbl Hndb].
  pose proof (λ y, past_split x p Hx Hb y Hpr) as Hsplit. fold reds in Hsplit. rewrite Hbl in Hsplit.
  assert (∀ y, y ∈ bl ∨ y ∈ reds → y ∈ dom S ∧ past x y ∧ ¬ past p y) as Hm.
  { intros y Hy. assert (y ∈ (p :: bl) ++ reds) as Hin by (rewrite elem_of_app, elem_of_cons; tauto).
    assert (past x y) as Hp by (apply Hsplit; by left). split; [apply (known_anc dag_parents k S root Hok x); [done|apply Hp]|].
    split; [done|]. intros (Hyp & Hne & _). rewrite <- Hbl in Hin. apply (bo_merged _ _ _ _ _ _ Hb) in Hin as [->|(_ & _ & Hn)]; done. }
  destruct (pushUntilRejected_spec S N (rev bl) HN _ sbh Hst) as (sbh2 & E2 & Hst2).
  { by apply NoDup_ListNoDup, NoDup_rev, NoDup_ListNoDup. }
  { intros y Hy. assert (y ∈ bl) as Hy' by (by apply list_elem_of_In, in_rev, list_elem_of_In).
    destruct (Hm y (or_introl Hy')) as (Hd & Hpx & _). split; [done|]. intros [->|[_ Hn]]; done. }
  { by apply StronglySorted_rev. }
  destruct (pushUntilRejected_spec S N (rev reds) HN _ sbh2 Hst2) as (sbh3 & E3 & Hst3).
  { by apply NoDup_ListNoDup, NoDup_rev, NoDup_ListNoDup. }
  { intros y Hy. assert (y ∈ reds) as Hy' by (by apply list_elem_of_In, in_rev, list_elem_of_In).
    destruct (Hm y (or_intror Hy')) as (Hd & Hpx & _). split; [done|]. intros [Hyb|[->|[_ Hn]]].
    - apply (Hdisj y); [right; by apply list_elem_of_In, in_rev, list_elem_of_In|done].
    - by apply (Hdisj p); [left|].
    - done. }
  { by apply StronglySorted_rev. }
  exists sbh2, sbh3, bl. rewrite Hbl. split; [apply slice_tail|]. split; [done|]. split; [done|]. eapply heap_top_ext; [|exact Hst3].
  assert (∀ (y : hash) (l : list hash), y ∈ rev l ↔ y ∈ l) as Hrev by (intros y l; rewrite !list_elem_of_In; symmetry; apply in_rev).
  intros y. cbv beta. rewrite !Hrev. split.
  - intros [Hy|[Hy|[->|[Hh Hn]]]].
    + destruct (Hm y (or_intror Hy)) as (_ & ? & ?). auto.
    + destruct (Hm y (or_introl Hy)) as (_ & ? & ?). auto.
    + split; [|by intros (_ & ? & _)]. apply Hsub, Hsplit. left. apply elem_of_app. left. by left.
    + split; [done|]. intros Hp. apply Hn, Hsplit. by right.
  - intros [Hh Hn]. destruct (anc_dec x y Hx) as [Hyx|Hyx]; [|right; right; right; split; [done|]; by intros [? _]].
    destruct (decide (y = x)) as [->|Hne]; [right; right; right; split; [done|]; by intros (_ & ? & _)|].
    assert (past x y) as [Hin|?]%Hsplit; [split_and!; [done|done|apply Hh]| |done].
    rewrite elem_of_app, elem_of_cons in Hin. tauto.
Qed.

Lemma windowLoop_spec ch : ∀ fuel x sbh, (length ch < fuel)%nat → x ∈ dom S → chain_of S (dataOf S x) ch →
  (∀ y, past x y → past high y) → heap_top S N (λ y, past high y ∧ ¬ past x y) sbh →
  ∃ sbh', windowLoop fuel S root N (dataOf S x) sbh = Ret sbh' ∧ heap_top S N (past high) sbh'.
Proof using All.
  induction ch as [|p ch IH]; intros [|fuel] x sbh Hf Hx Hch Hsub Hst; try (simpl in Hf; lia); cbn [windowLoop].
  - inversion Hch as [? Hsel|]. rewrite Hsel. exists sbh. split; [done|]. eapply heap_top_ext; [|exact Hst].
    assert (x = root) as ->.
    { destruct (decide (x = root)) as [|Hne]; [done|]. destruct (gd_block _ _ _ _ Hok x _ (known_data S x Hx) Hne) as (q & Hq).
      pose proof (bo_selected _ _ _ _ _ _ Hq). congruence. }
    intros y. split; [by intros [? _]|]. intros Hy. split; [done|]. intros (Hyr & Hne & _). apply Hne.
    destruct (anc_inv _ _ _ Hyr) as [?|(q & Hq & _)]; [done|]. rewrite (proj2 (gd_root _ _ _ _ Hok)) in Hq. by apply elem_of_nil in Hq.
  - inversion Hch as [|? ? ? Hsel Hpd Hch']; subst. rewrite Hsel.
    assert (x ≠ root) as Hxr.
    { intros ->. destruct (gd_genesis _ _ _ _ Hok _ (known_data S root Hx)) as (E & _). congruence. }
    destruct (gd_block _ _ _ _ Hok x _ (known_data S x Hx) Hxr) as (q & Hb).
    assert (q = p) as -> by (pose proof (bo_selected _ _ _ _ _ _ Hb); congruence).
    rewrite (proj2 (Z.leb_le _ _)) by (by apply (heap_top_length _ _ Hst)). cbn [andb].
    destruct (bool_decide_reflect (p = root)) as [->|Hpr]; cbn [negb].
    { exists sbh. split; [done|]. eapply heap_top_ext; [|exact Hst]. intros y. split; [by intros [? _]|]. intros Hy. split; [done|].
      intros (Hyx & Hne & Hr). pose proof (past_below x root Hx Hb y Hyx Hne) as Hs.
      assert (y ∈ dom S) as Hyd by (by apply (known_anc dag_parents k S root Hok x)).
      pose proof (root_least y Hyd Hr). apply sorted_by_spec in Hs. lia. }
    rewrite (Get_known S p Hpd). cbn [obind].
    pose proof (past_split x p Hx Hb) as Hsplit. destruct (selected_anc x p Hx Hb) as [Hpx Hpne].
    assert (past x p) as Hxp by (split_and!; done).
    destruct (tryPush_spec S N _ sbh p HN Hst Hpd) as (added & sbh1 & -> & Hst1 & Hrej); [by intros [_ []]|].
    cbn [obind]. destruct added; cbn [negb].
    + destruct (push_merge_set x p Hx Hb Hpr Hsub sbh1) as (sbh2 & sbh3 & blues & E1 & E2 & E3 & Hst3).
      { eapply heap_top_ext; [|exact Hst1]. done. }
      rewrite E1. cbn [obind]. rewrite E2. cbn [obind]. rewrite E3. cbn [obind]. apply (IH fuel p sbh3); try done; [simpl in Hf; lia|].
      intros y Hy. apply Hsub, Hsplit; [done|]. by right.
    + exists sbh1. split; [done|]. destruct (Hrej eq_refl) as [Hlen Hw]. destruct Hst1 as (? & ? & ? & Ht). split_and!; try done.
      eapply (top_reject S N _ _ _ p); [exact Ht|done|done| |].
      * intros y [->|[? _]]; [by apply Hsub|done].
      * intros y Hy. destruct (anc_dec x y Hx) as [Hyx|Hyx]; [|left; right; split; [done|]; by intros [? _]].
        destruct (decide (y = x)) as [->|Hne]; [left; right; split; [done|]; by intros (_ & ? & _)|].
        right. by apply (past_below x p Hx Hb).
Qed.
End BlockWindow.

Lemma BlockWindow_spec (dag_parents : list Z → list (list Z)) (k : Z) (S : gmap (list Z) BlockGHOSTDAGData)
    (root high : list Z) (N : Z) :
  ghostdag_ok dag_parents k S root → high ∈ dom S → 1 ≤ N →
  ∃ W, BlockWindow S root high N = Ret W ∧ top S N (past dag_parents root high) W.
Proof.
  intros Hok Hh HN. unfold BlockWindow. rewrite (Get_known S high Hh). cbn [obind].
  unfold newSizedUpHeap. rewrite (proj2 (Z.ltb_ge N 0)) by lia. cbn [obind].
  destruct (chain_known dag_parents k S root Hok high Hh) as [ch Hch].
  destruct (windowLoop_spec dag_parents k S root Hok N HN high ch (chainFuel S) high {| sh_cap := N; sh_slice := [] |})
    as (sbh & -> & (_ & _ & _ & Htop)); try done.
  - assert (length ch ≤ size S)%nat; [|unfold chainFuel; lia].
    apply (chain_length dag_parents k S root Hok _ ch Hch). intros p Hp. destruct Hch as [|? q ? Hq Hqd _]; congruence.
  - split_and!; [done| | |].
    + intros i x p. simpl. lia.
    + by intros n ?%elem_of_nil.
    + split; [apply NoDup_nil_2|]. split; [by intros ? ?%elem_of_nil|]. left. split; [by intros x [? []]|].
      unfold zlen. simpl. lia.
  - cbn [obind]. by eexists.
Qed.

Module WindowProps.
(** C32: [BlockWindow] of size [N >= 1] on the data of a rooted DAG terminates without
    error for every known block, and returns the [N] greatest blocks (by blue work,
    then hash) of the block's past without the genesis block, each once; or all of
    them when there are at most [N].  It walks only the selected chain and stops
    early, and the heap of size [N] drops what the stop skips. *)
Theorem BlockWindow_correct (dag_parents : list Z → list (list Z)) (k : Z) (S : gmap (list Z) BlockGHOSTDAGData)
    (root high : list Z) (N : Z) :
  ghostdag_ok dag_parents k S root → high ∈ dom S → 1 ≤ N →
  ∃ W, BlockWindow S root high N = Ret W ∧ top S N (past dag_parents root high) W.
Proof. apply BlockWindow_spec. Qed.

Lemma BlockWindow_correct_witness :
  ∃ W, BlockWindow {[ [0] := emptyData ]} [0] [0] 3 = Ret W ∧
       top {[ [0] := emptyData ]} 3 (past GhostdagProps.sample_dag [0] [0]) W.
Proof.
  apply (BlockWindow_correct GhostdagProps.sample_dag 18 {[ [0] := emptyData ]} [0] [0] 3).
  - by apply genesis_ok.
  - rewrite dom_singleton. by apply elem_of_singleton.
  - lia.
Defined.

(** The two greatest blocks below block 3, and all three blocks below it but genesis. *)
Example sample_window :
  BlockWindow (GhostdagProps.run_ghostdag 1 [[0]; [1]; [2]; [3]]) [0] [3] 1 = Ret [[2]] ∧
  BlockWindow (GhostdagProps.run_ghostdag 1 [[0]; [1]; [2]; [3]]) [0] [3] 5 = Ret [[1]; [2]].
Proof. split; vm_compute; reflexivity. Qed.
End WindowProps.
