(* ===== verification/DifficultyManager.v ===== *)
(** * Difficulty adjustment and median time
    (processes/difficultymanager, processes/pastmediantimemanager)

    The required difficulty and the DAA score of a block from its block window, and
    the median of the timestamps of a window.  A [big.Int] is a [Z]; times are
    milliseconds, as [int64].  [sort.Sort] of a slice of [int64] returns its sorted
    permutation. *)
From stdpp Require Import sorting.
From S2P Require Import Prelude Interval ReachabilityData Reachability ReachabilityTree ReachabilityAdd DagTopology Difficulty Externalapi Hashing Block Ghostdag GhostdagOrder GhostdagColour Heap Window.
Import Difficulty Ghostdag Window.
Local Open Scope Z_scope.
Local Open Scope prog_scope.

Abbreviation hash := (list Z) (only parsing).
Abbreviation store := (gmap (list Z) BlockGHOSTDAGData) (only parsing).

Record difficultyManager := {
  dm_genesisHash : hash;
  dm_powMax : Z;
  dm_difficultyAdjustmentWindowSize : Z;
  dm_disableDifficultyAdjustment : bool;
  dm_targetTimePerBlock : Z
}.

Record difficultyBlock := {
  db_timeInMilliseconds : Z;
  db_Bits : Z
}.

(** The DAA scores and added blocks: the map readers see. *)
Record daaBlocksStore := {
  daa_scores : gmap hash Z;
  daa_addedBlocks : gmap hash (list hash)
}.

Definition maxInt64 : Z := 2 ^ 63 - 1.

Module DifficultyManager.
Abbreviation result A := (outcome ghostdagError A) (only parsing).

(** *** blockwindow.go *)
Definition getDifficultyBlock (headers : gmap hash BlockHeader) (blockHash : hash) : result difficultyBlock :=
  let? header := Get headers blockHash in
  Ret {| db_timeInMilliseconds := hd_timeInMilliseconds header; db_Bits := hd_bits header |}.

Fixpoint difficultyBlocks (headers : gmap hash BlockHeader) (windowHashes : list hash) : result (list difficultyBlock) :=
  match windowHashes with
  | [] => Ret []
  | h :: rest =>
      let? block := getDifficultyBlock headers h in
      let? window := difficultyBlocks headers rest in
      Ret (block :: window)
  end.

Definition blockWindow (dm : difficultyManager) (S : store) (headers : gmap hash BlockHeader) (startingNode : hash) (windowSize : Z) :
    result (list difficultyBlock * list hash) :=
  let? windowHashes := BlockWindow S (dm_genesisHash dm) startingNode windowSize in
  let? window := difficultyBlocks headers windowHashes in
  Ret (window, windowHashes).

Record minMax := { mm_min : Z; mm_max : Z; mm_minIndex : Z; mm_maxIndex : Z }.

Fixpoint minMaxLoop (window : list difficultyBlock) (i : Z) (m : minMax) : minMax :=
  match window with
  | [] => m
  | block :: rest =>
      let m := if db_timeInMilliseconds block <? mm_min m
        then {| mm_min := db_timeInMilliseconds block; mm_max := mm_max m; mm_minIndex := i; mm_maxIndex := mm_maxIndex m |} else m in
      let m := if mm_max m <? db_timeInMilliseconds block
        then {| mm_min := mm_min m; mm_max := db_timeInMilliseconds block; mm_minIndex := mm_minIndex m; mm_maxIndex := i |} else m in
      minMaxLoop rest (i + 1) m
  end.

Definition minMaxTimestamps (window : list difficultyBlock) : minMax :=
  minMaxLoop window 0 {| mm_min := maxInt64; mm_max := 0; mm_minIndex := maxInt64; mm_maxIndex := 0 |}.

(** [window[n] = window[len - 1]], then drop the last element *)
Definition remove (window : list difficultyBlock) (n : Z) : result (list difficultyBlock) :=
  let? last := index window (zlen window - 1) in
  if (0 <=? n) && (n <? zlen window)
  then Ret (take (length window - 1) (<[Z.to_nat n := last]> window))
  else Crash IndexOutOfRange.

(** [big.Int.Div] panics on a zero divisor. *)
Definition divOrPanic (a b : Z) : result Z := if b =? 0 then Crash ExplicitPanic else Ret (bigDiv a b).

Definition averageTarget (window : list difficultyBlock) : result Z :=
  divOrPanic (fold_left (λ sum block, sum + CompactToBigWithDestination (db_Bits block)) window 0) (zlen window).

(** *** difficultymanager.go *)
Definition genesisBits (dm : difficultyManager) (headers : gmap hash BlockHeader) : result Z :=
  let? header := Get headers (dm_genesisHash dm) in Ret (hd_bits header).

Definition requiredDifficultyFromTargetsWindow (dm : difficultyManager) (headers : gmap hash BlockHeader)
    (targetsWindow : list difficultyBlock) : result Z :=
  if dm_disableDifficultyAdjustment dm then genesisBits dm headers
  else if zlen targetsWindow <? 2 then genesisBits dm headers
  else
    let m := minMaxTimestamps targetsWindow in
    let? targetsWindow := remove targetsWindow (mm_minIndex m) in
    let? newTarget := averageTarget targetsWindow in
    let newTarget := newTarget * Z.max (GoInt.int64 (mm_max m - mm_min m)) 1 in
    let? newTarget := divOrPanic newTarget (dm_targetTimePerBlock dm) in
    let? newTarget := divOrPanic newTarget (zlen targetsWindow) in
    if dm_powMax dm <? newTarget then Ret (BigToCompact (dm_powMax dm))
    else Ret (BigToCompact newTarget).

(** [for _, hash := range windowHashes], with [break] *)
Fixpoint addedBlocksLoop (mergeSet : gset hash) (windowHashes daaAddedBlocks : list hash) : list hash :=
  match windowHashes with
  | [] => daaAddedBlocks
  | h :: rest =>
      if bool_decide (h ∈ mergeSet) then
        let daaAddedBlocks := daaAddedBlocks ++ [h] in
        if zlen daaAddedBlocks =? Z.of_nat (size mergeSet) then daaAddedBlocks
        else addedBlocksLoop mergeSet rest daaAddedBlocks
      else addedBlocksLoop mergeSet rest daaAddedBlocks
  end.

Definition calculateDaaScoreAndAddedBlocks (dm : difficultyManager) (S : store) (daa : daaBlocksStore)
    (blockHash : hash) (windowHashes : list hash) : result (Z * list hash) :=
  if bool_decide (blockHash = dm_genesisHash dm) then Ret (0, [])
  else
    let? ghostdagData := Get S blockHash in
    let mergeSet : gset hash := list_to_set (mergeSetBlues ghostdagData ++ mergeSetReds ghostdagData) in
    let daaAddedBlocks := addedBlocksLoop mergeSet windowHashes [] in
    let? selectedParentDAAScore :=
      match selectedParent ghostdagData with
      | Some parent => Get (daa_scores daa) parent
      | None => Crash NilDereference
      end in
    Ret (GoInt.uint64 (selectedParentDAAScore + zlen daaAddedBlocks), daaAddedBlocks).

Definition stageDAAScoreAndAddedBlocks (dm : difficultyManager) (S : store) (blockHash : hash) (windowHashes : list hash) :
    prog daaBlocksStore ghostdagError unit :=
  let* daa := get in
  let* scored := lift_outcome (calculateDaaScoreAndAddedBlocks dm S daa blockHash windowHashes) in
  modify (λ daa, {| daa_scores := <[blockHash := fst scored]> (daa_scores daa);
                    daa_addedBlocks := <[blockHash := snd scored]> (daa_addedBlocks daa) |}).

Definition StageDAADataAndReturnRequiredDifficulty (dm : difficultyManager) (S : store) (headers : gmap hash BlockHeader)
    (blockHash : hash) : prog daaBlocksStore ghostdagError Z :=
  let* windows := lift_outcome (blockWindow dm S headers blockHash (dm_difficultyAdjustmentWindowSize dm + 1)) in
  stageDAAScoreAndAddedBlocks dm S blockHash (snd windows) ;;*
  lift_outcome (requiredDifficultyFromTargetsWindow dm headers (fst windows)).

Definition RequiredDifficulty (dm : difficultyManager) (S : store) (headers : gmap hash BlockHeader) (blockHash : hash) : result Z :=
  let? windows := blockWindow dm S headers blockHash (dm_difficultyAdjustmentWindowSize dm + 1) in
  requiredDifficultyFromTargetsWindow dm headers (fst windows).
End DifficultyManager.
Import DifficultyManager.

(** ** Median time *)
Record pastMedianTimeManager := {
  pm_timestampDeviationTolerance : Z;
  pm_genesisHash : hash
}.

Inductive medianError := MedianDag (e : ghostdagError) | ErrEmptyWindow.

Module PastMedianTime.
Definition fromGhostdag {A} (o : outcome ghostdagError A) : outcome medianError A :=
  match o with
  | Ret a => Ret a
  | Fail e => Fail (MedianDag e)
  | Crash c => Crash c
  end.

Fixpoint timestampsOf (headers : gmap hash BlockHeader) (window : list hash) : outcome medianError (list Z) :=
  match window with
  | [] => Ret []
  | blockHash :: rest =>
      let? blockHeader := fromGhostdag (Get headers blockHash) in
      let? timestamps := timestampsOf headers rest in
      Ret (hd_timeInMilliseconds blockHeader :: timestamps)
  end.

Definition windowMedianTimestamp (headers : gmap hash BlockHeader) (window : list hash) : outcome medianError Z :=
  if zlen window =? 0 then Fail ErrEmptyWindow
  else
    let? timestamps := timestampsOf headers window in
    let timestamps := merge_sort Z.le timestamps in
    index timestamps (zlen timestamps / 2).

Definition PastMedianTime (pmtm : pastMedianTimeManager) (S : store) (headers : gmap hash BlockHeader) (blockHash : hash) :
    outcome medianError Z :=
  let? window := fromGhostdag (BlockWindow S (pm_genesisHash pmtm) blockHash (2 * pm_timestampDeviationTolerance pmtm - 1)) in
  if zlen window =? 0 then
    let? header := fromGhostdag (Get headers (pm_genesisHash pmtm)) in Ret (hd_timeInMilliseconds header)
  else windowMedianTimestamp headers window.
End PastMedianTime.
Import PastMedianTime.

(** ** The window's timestamps *)
Definition time (b : difficultyBlock) : Z := db_timeInMilliseconds b.
Definition target (b : difficultyBlock) : Z := CompactToBig (db_Bits b).

(** [m] describes the blocks [l]: the first oldest one and its index, and the latest time. *)
Definition describes (l : list difficultyBlock) (m : minMax) : Prop :=
  (∃ b, 0 ≤ mm_minIndex m ∧ l !! Z.to_nat (mm_minIndex m) = Some b ∧ mm_min m = time b) ∧
  (∀ b, b ∈ l → mm_min m ≤ time b ≤ mm_max m) ∧ (mm_max m = 0 ∨ ∃ b, b ∈ l ∧ mm_max m = time b).

Lemma minMaxLoop_spec l : ∀ seen m, describes seen m →
  describes (seen ++ l) (minMaxLoop l (zlen seen) m).
Proof.
  induction l as [|b l IH]; intros seen m Hm; cbn [minMaxLoop]; [by rewrite app_nil_r|]. cbv zeta.
  replace (seen ++ b :: l) with ((seen ++ [b]) ++ l) by (by rewrite <- app_assoc).
  replace (zlen seen + 1) with (zlen (seen ++ [b])) by (rewrite zlen_app; done). apply IH. clear IH.
  destruct Hm as ((c & Hi & Hc & Hmin) & Hall & Hmax).
  assert ((seen ++ [b]) !! Z.to_nat (zlen seen) = Some b) as Hb by (unfold zlen; rewrite Nat2Z.id; by apply list_lookup_middle).
  assert ((seen ++ [b]) !! Z.to_nat (mm_minIndex m) = Some c) as Hc' by (by apply lookup_app_l_Some).
  pose proof (zlen_nonneg seen).
  assert (∀ (P : difficultyBlock → Prop), (∀ x, x ∈ seen → P x) → P b → ∀ x, x ∈ seen ++ [b] → P x) as Happ.
  { intros P Hs Hb' x [?| ->%list_elem_of_singleton]%elem_of_app; auto. }
  destruct (Z.ltb_spec (db_timeInMilliseconds b) (mm_min m)) as [Hlt|Hge]; cbn [mm_max mm_min mm_minIndex mm_maxIndex];
    destruct (Z.ltb_spec (mm_max m) (db_timeInMilliseconds b)) as [Hlt2|Hge2]; cbn [mm_max mm_min mm_minIndex mm_maxIndex];
    split_and!; cbn [mm_max mm_min mm_minIndex mm_maxIndex]; try (by eexists); unfold time in *;
    try (apply Happ; [intros x Hx; specialize (Hall x Hx)|]; lia);
    try (right; exists b; split; [apply elem_of_app; right; by left|done]);
    (destruct Hmax as [?|(x & Hx & ?)]; [by left|right; exists x; split; [apply elem_of_app; by left|done]]).
Qed.

Lemma minMax_describes w : w ≠ [] → (∀ b, b ∈ w → 0 ≤ time b < maxInt64) → describes w (minMaxTimestamps w).
Proof.
  destruct w as [|b w]; [done|]. intros _ Hw. unfold minMaxTimestamps. cbn [minMaxLoop mm_min mm_max mm_minIndex mm_maxIndex]. cbv zeta.
  destruct (Hw b ltac:(by left)) as [Hlo Hhi]. unfold time in *. rewrite !(proj2 (Z.ltb_lt (db_timeInMilliseconds b) maxInt64)) by done. cbn [mm_max mm_min mm_minIndex mm_maxIndex].
  apply (minMaxLoop_spec w [b]). split_and!.
  - exists b. destruct (0 <? _); cbn [mm_min mm_minIndex]; done.
  - intros x ->%list_elem_of_singleton. destruct (Z.ltb_spec 0 (db_timeInMilliseconds b)); cbn [mm_min mm_max]; unfold time; lia.
  - destruct (Z.ltb_spec 0 (db_timeInMilliseconds b)); cbn [mm_min mm_max]; [right; exists b; split; [by left|done]|by left].
Qed.

Lemma remove_spec w n b : 0 ≤ n → w !! Z.to_nat n = Some b →
  ∃ rest, remove w n = Ret rest ∧ w ≡ₚ b :: rest.
Proof.
  intros Hn Hb. destruct w as [|x w _] using rev_ind; [by rewrite lookup_nil in Hb|].
  unfold remove. rewrite zlen_app. change (zlen [x]) with 1. replace (zlen w + 1 - 1) with (zlen w) by lia.
  rewrite (index_middle w [] x (zlen w)) by done. cbn [obind].
  pose proof (lookup_lt_Some _ _ _ Hb) as Hlt. rewrite length_app in Hlt. simpl in Hlt.
  rewrite (proj2 (Z.leb_le 0 n)), (proj2 (Z.ltb_lt n _)) by (unfold zlen; lia). cbn [andb]. eexists. split; [done|].
  rewrite length_app. simpl. replace (length w + 1 - 1)%nat with (length w) by lia.
  destruct (decide (Z.to_nat n = length w)) as [E|Hne].
  - rewrite E, list_lookup_middle in Hb by done. simplify_eq. rewrite E, list_insert_id by (by apply list_lookup_middle).
    rewrite take_app_length. apply Permutation_app_comm.
  - rewrite lookup_app_l in Hb by lia. rewrite insert_app_l by lia. rewrite take_app_length' by (by rewrite length_insert).
    rewrite Permutation_app_comm. simpl. rewrite <- (take_drop_middle w _ b Hb) at 1.
    rewrite (insert_take_drop w (Z.to_nat n) x) by lia. rewrite !Permutation_middle. 
    rewrite <- !Permutation_middle. apply Permutation_swap.
Qed.

Lemma BigToCompact_floor n : 0 ≤ n < 256 ^ 252 → 0 ≤ CompactToBig (BigToCompact n) ≤ n ∧ (0 < n → 0 < CompactToBig (BigToCompact n)).
Proof.
  intros Hn. destruct (decide (n = 0)) as [->|Hne]; [change (CompactToBig (BigToCompact 0)) with 0; lia|].
  destruct (CompactToBig_BigToCompact n ltac:(lia)) as [->|(e & He & Hm & Hc)]; [lia|].
  destruct (BigToCompact_CompactToBig e (n / 256 ^ (e - 3)) ltac:(lia) Hm) as [Hval _]. rewrite <- Hc in Hval. rewrite Hval.
  assert (0 < 256 ^ (e - 3)) by (apply Z.pow_pos_nonneg; lia). pose proof (Z.mul_div_le n (256 ^ (e - 3))). nia.
Qed.

Definition sum_targets (w : list difficultyBlock) : Z := foldr (λ b s, target b + s) 0 w.

Lemma fold_targets w : ∀ a, fold_left (λ sum block, sum + CompactToBigWithDestination (db_Bits block)) w a = a + sum_targets w.
Proof. induction w as [|b w IH]; intros a; simpl; [lia|]. rewrite IH. unfold target, CompactToBig. lia. Qed.

Lemma sum_targets_bound w M : (∀ b, b ∈ w → 0 < target b ≤ M) → zlen w ≤ sum_targets w ≤ M * zlen w.
Proof.
  induction w as [|b w IH]; intros Hw; [unfold zlen; simpl; lia|]. rewrite zlen_cons. simpl.
  pose proof (Hw b ltac:(by left)). specialize (IH (λ x Hx, Hw x (list_elem_of_further _ _ _ Hx))). lia.
Qed.

(** The blocks of a window whose targets are averaged: all but the oldest. *)
Definition retarget (dm : difficultyManager) (oldest newest : difficultyBlock) (rest : list difficultyBlock) : Z :=
  Z.min (dm_powMax dm)
    (sum_targets rest / zlen rest * Z.max (time newest - time oldest) 1 / dm_targetTimePerBlock dm / zlen rest).

Lemma addedBlocksLoop_spec mergeSet l : ∀ acc, NoDup (acc ++ l) → (∀ x, x ∈ acc → x ∈ mergeSet) →
  addedBlocksLoop mergeSet l acc = acc ++ filter (.∈ mergeSet) l.
Proof.
  induction l as [|x l IH]; intros acc Hnd Hacc; cbn [addedBlocksLoop]; [by rewrite app_nil_r|]. rewrite filter_cons.
  case_bool_decide as Hx.
  - rewrite decide_True by done. cbv zeta.
    replace (acc ++ x :: l) with ((acc ++ [x]) ++ l) in Hnd by (by rewrite <- app_assoc).
    replace (acc ++ x :: filter (.∈ mergeSet) l) with ((acc ++ [x]) ++ filter (.∈ mergeSet) l) by (by rewrite <- app_assoc).
    assert (∀ y, y ∈ acc ++ [x] → y ∈ mergeSet) as Hacc' by (intros y [?| ->%list_elem_of_singleton]%elem_of_app; auto).
    destruct (Z.eqb_spec (zlen (acc ++ [x])) (Z.of_nat (size mergeSet))) as [Hfull|_]; [|by apply IH].
    assert (filter (.∈ mergeSet) l = []) as ->; [|by rewrite app_nil_r].
    destruct (filter (.∈ mergeSet) l) as [|z k] eqn:Hf; [done|]. exfalso.
    assert (z ∈ filter (.∈ mergeSet) l) as [Hz Hzl]%list_elem_of_filter by (rewrite Hf; by left).
    apply NoDup_app in Hnd as (Hnd & Hdisj & _).
    assert (size (list_to_set (z :: (acc ++ [x])) : gset hash) ≤ size mergeSet)%nat as Hle.
    { apply subseteq_size. intros y. rewrite elem_of_list_to_set. intros [->|?]%elem_of_cons; [done|auto]. }
    rewrite size_list_to_set in Hle by (apply NoDup_cons; split; [by intros ?%Hdisj|done]). unfold zlen in Hfull. simpl in Hle. lia.
  - rewrite decide_False by done. apply IH; [|done]. apply NoDup_app in Hnd as (Ha & Hd & [_ Hl]%NoDup_cons). apply NoDup_app.
    split_and!; [done|intros y Hy Hyl; apply (Hd y Hy); by right|done].
Qed.

(** The median of a list: an element with at most half of the others on either side. *)
Definition is_median (l : list Z) (m : Z) : Prop :=
  m ∈ l ∧ zlen (filter (λ x, x < m) l) ≤ zlen l / 2 ∧ zlen (filter (λ x, m < x) l) ≤ zlen l - 1 - zlen l / 2.

Lemma sorted_filter_lt l1 m l2 : StronglySorted Z.le (l1 ++ m :: l2) →
  zlen (filter (λ x, x < m) (l1 ++ m :: l2)) ≤ zlen l1 ∧ zlen (filter (λ x, m < x) (l1 ++ m :: l2)) ≤ zlen l2.
Proof.
  intros Hs. assert (∀ x, x ∈ l1 → x ≤ m) as H1.
  { induction l1 as [|y l1 IH]; intros x; [by intros ?%elem_of_nil|]. apply StronglySorted_inv in Hs as [Hs Hall]. rewrite Forall_forall in Hall.
    intros [->|Hx]%elem_of_cons; [apply Hall, elem_of_app; right; by left|by apply IH]. }
  assert (∀ x, x ∈ l2 → m ≤ x) as H2.
  { clear H1. induction l1 as [|y l1 IH]; apply StronglySorted_inv in Hs as [Hs Hall]; [|by apply IH]. rewrite Forall_forall in Hall. auto. }
  assert (∀ (P : Z → Prop) `{∀ x, Decision (P x)} (l : list Z), zlen (filter P l) ≤ zlen l) as Hle.
  { intros P ? l. unfold zlen. pose proof (length_filter P l). lia. }
  assert (∀ (P : Z → Prop) `{∀ x, Decision (P x)} (l : list Z), (∀ x, x ∈ l → ¬ P x) → filter P l = []) as Hnil.
  { intros P ? l. induction l as [|x l IH]; intros Hl; [done|]. rewrite filter_cons, decide_False by (apply Hl; by left).
    apply IH. intros y Hy. apply Hl. by right. }
  rewrite !filter_app, !zlen_app. split.
  - rewrite (Hnil (λ x, x < m) _ (m :: l2)); [pose proof (Hle (λ x, x < m) _ l1); change (zlen (@nil Z)) with 0; lia|].
    intros x [->|Hx]%elem_of_cons; [lia|]. specialize (H2 x Hx). lia.
  - rewrite (Hnil (λ x, m < x) _ l1) by (intros x Hx; specialize (H1 x Hx); lia). rewrite filter_cons, decide_False by lia.
    pose proof (Hle (λ x, m < x) _ l2). change (zlen (@nil Z)) with 0. lia.
Qed.

Lemma sorted_median l : l ≠ [] → ∃ m, index (E := medianError) (merge_sort Z.le l) (zlen (merge_sort Z.le l) / 2) = Ret m ∧ is_median l m.
Proof.
  intros Hne. set (s := merge_sort Z.le l). assert (s ≡ₚ l) as Hp by apply merge_sort_Permutation.
  assert (zlen s = zlen l) as Hlen by (unfold zlen; by rewrite Hp).
  assert (0 < zlen s) as Hpos by (rewrite Hlen; destruct l; [done|]; rewrite zlen_cons; pose proof (zlen_nonneg l); lia).
  assert (0 ≤ zlen s / 2 < zlen s) as Hidx by (split; [apply Z.div_pos; lia|apply Z.div_lt_upper_bound; lia]).
  destruct (lookup_lt_is_Some_2 s (Z.to_nat (zlen s / 2))) as [m Hm]; [unfold zlen in *; lia|].
  pose proof (take_drop_middle s _ m Hm) as Hsplit. exists m. split.
  - rewrite <- Hsplit at 1. apply index_middle. rewrite zlen_take. unfold zlen in *. lia.
  - assert (StronglySorted Z.le s) as Hs by (apply StronglySorted_merge_sort; apply _). rewrite <- Hsplit in Hs.
    apply sorted_filter_lt in Hs as [H1 H2]. rewrite Hsplit in H1, H2. rewrite zlen_take, Z2Nat.id in H1 by lia.
    rewrite zlen_drop in H2. rewrite Nat2Z.inj_succ, Z2Nat.id in H2 by lia. split_and!.
    + rewrite <- Hp. by eapply list_elem_of_lookup_2.
    + assert (zlen (filter (λ x, x < m) l) = zlen (filter (λ x, x < m) s)) as -> by (unfold zlen; by rewrite Hp). rewrite <- Hlen. lia.
    + assert (zlen (filter (λ x, m < x) l) = zlen (filter (λ x, m < x) s)) as -> by (unfold zlen; by rewrite Hp). rewrite <- Hlen. lia.
Qed.

Lemma required_spec dm headers w :
  dm_disableDifficultyAdjustment dm = false → 2 ≤ zlen w → 0 < dm_targetTimePerBlock dm → 0 < dm_powMax dm < 256 ^ 252 →
  (∀ b, b ∈ w → 0 ≤ time b < maxInt64 ∧ 0 < target b) →
  ∃ oldest newest rest, w ≡ₚ oldest :: rest ∧ newest ∈ w ∧ (∀ b, b ∈ w → time oldest ≤ time b ≤ time newest) ∧
    requiredDifficultyFromTargetsWindow dm headers w = Ret (BigToCompact (retarget dm oldest newest rest)) ∧
    0 ≤ retarget dm oldest newest rest ≤ dm_powMax dm.
Proof.
  intros Hdis Hlen HT Hpow Hw. unfold requiredDifficultyFromTargetsWindow. rewrite Hdis, (proj2 (Z.ltb_ge _ _)) by lia. cbv zeta.
  assert (w ≠ []) as Hne by (intros ->; by unfold zlen in Hlen).
  destruct (minMax_describes w Hne) as ((oldest & Hi & Hold & Hmin) & Hall & Hmax); [intros b Hb; by apply Hw|].
  destruct (remove_spec w _ oldest Hi Hold) as (rest & -> & Hperm). cbn [obind].
  assert (zlen rest = zlen w - 1) as Hrest by (pose proof (Permutation_length Hperm) as E; simpl in E; unfold zlen; lia).
  unfold averageTarget. rewrite fold_targets, Z.add_0_l. unfold divOrPanic at 1. rewrite (proj2 (Z.eqb_neq _ _)) by lia. cbn [obind].
  assert (oldest ∈ w) as Hoin by (by eapply list_elem_of_lookup_2).
  assert (∃ newest, newest ∈ w ∧ mm_max (minMaxTimestamps w) = time newest) as (newest & Hn & Hnewest).
  { destruct Hmax as [H0|?]; [|done]. exists oldest. split; [done|]. pose proof (Hall oldest Hoin). pose proof (proj1 (Hw oldest Hoin)). lia. }
  rewrite Hnewest, Hmin in *. rewrite GoInt.int64_id.
  2:{ pose proof (proj1 (Hw newest Hn)). pose proof (proj1 (Hw oldest Hoin)). unfold maxInt64 in *. lia. }
  unfold divOrPanic. rewrite (proj2 (Z.eqb_neq (dm_targetTimePerBlock dm) 0)) by lia. cbn [obind].
  rewrite (proj2 (Z.eqb_neq (zlen rest) 0)) by lia. cbn [obind]. unfold bigDiv.
  exists oldest, newest, rest. split_and!; [done|done|done|..].
  - unfold retarget. destruct (Z.ltb_spec (dm_powMax dm) (sum_targets rest / zlen rest * Z.max (time newest - time oldest) 1 / dm_targetTimePerBlock dm / zlen rest)).
    + by rewrite Z.min_l by lia.
    + by rewrite Z.min_r by lia.
  - unfold retarget. apply Z.min_glb; [lia|]. apply Z.div_pos; [|lia]. apply Z.div_pos; [|lia]. apply Z.mul_nonneg_nonneg; [|lia].
    apply Z.div_pos; [|lia]. assert (∀ b, b ∈ rest → 0 < target b) as Hpos by (intros b Hb; apply Hw; rewrite Hperm; by right).
    clear -Hpos. induction rest as [|b rest IH]; simpl; [lia|].
    pose proof (Hpos b ltac:(by left)). specialize (IH (λ x Hx, Hpos x (list_elem_of_further _ _ _ Hx))). lia.
  - unfold retarget. lia.
Qed.

Lemma PastMedianTime_spec (dag_parents : list Z → list (list Z)) (k : Z) (S : gmap (list Z) BlockGHOSTDAGData)
    (headers : gmap (list Z) BlockHeader) (pmtm : pastMedianTimeManager) (high : list Z) :
  ghostdag_ok dag_parents k S (pm_genesisHash pmtm) → high ∈ dom S → 1 ≤ pm_timestampDeviationTolerance pmtm →
  (∀ x, x = pm_genesisHash pmtm ∨ past dag_parents (pm_genesisHash pmtm) high x → is_Some (headers !! x)) →
  ∃ W t times, PastMedianTime pmtm S headers high = Ret t ∧
    top S (2 * pm_timestampDeviationTolerance pmtm - 1) (past dag_parents (pm_genesisHash pmtm) high) W ∧
    Forall2 (λ x time, hd_timeInMilliseconds <$> headers !! x = Some time) W times ∧
    (if decide (W = []) then hd_timeInMilliseconds <$> headers !! pm_genesisHash pmtm = Some t else is_median times t).
Proof.
  intros Hok Hh Hn Hheaders.
  destruct (BlockWindow_spec dag_parents k S (pm_genesisHash pmtm) high (2 * pm_timestampDeviationTolerance pmtm - 1) Hok Hh) as (W & Hrun & Htop); [lia|].
  assert (∀ x, x ∈ W → is_Some (headers !! x)) as HW.
  { intros x Hx. apply Hheaders. right. destruct Htop as (_ & Hin & _). by apply Hin. }
  assert (∃ times, timestampsOf headers W = Ret times ∧ Forall2 (λ x time, hd_timeInMilliseconds <$> headers !! x = Some time) W times) as (times & Ht & Hf).
  { clear -HW. induction W as [|x W IH]; [by exists []|]. destruct IH as (times & Ht & Hf); [intros y Hy; apply HW; by right|].
    destruct (HW x ltac:(by left)) as [h Hx]. exists (hd_timeInMilliseconds h :: times). cbn [timestampsOf]. unfold Get. rewrite Hx.
    cbn [fromGhostdag obind]. rewrite Ht. cbn [obind]. split; [done|]. constructor; [by rewrite Hx|done]. }
  unfold PastMedianTime. rewrite Hrun. cbn [fromGhostdag obind].
  destruct (decide (W = [])) as [->|Hne].
  - cbn [zlen length Z.of_nat Z.eqb]. destruct (Hheaders (pm_genesisHash pmtm)) as [h Hg]; [by left|].
    unfold Get. change (zlen (@nil (list Z)) =? 0) with true. rewrite Hg. cbn [fromGhostdag obind]. by exists [], (hd_timeInMilliseconds h), times.
  - assert (zlen W ≠ 0) as Hz by (by intros ?%zlen_zero). rewrite (proj2 (Z.eqb_neq _ _)) by done. unfold windowMedianTimestamp.
    rewrite (proj2 (Z.eqb_neq _ _)) by done. rewrite Ht. cbn [obind].
    destruct (sorted_median times) as (m & Hm & Hmed); [intros ->; apply Forall2_nil_inv_r in Hf; done|].
    exists W, m, times. by rewrite decide_False by done.
Qed.

Module DifficultyManagerProps.
(** C36: retargeting.  On a window of at least two blocks with timestamps below the
    greatest [int64] and positive targets, the required difficulty is the compact
    form of the average target of all but an oldest block, scaled by the time from
    the oldest to the newest block (at least one millisecond) over the intended
    time, and capped by [powMax]: no index is out of range, no division by zero
    happens, and the target the bits stand for is at most [powMax], at most the
    formula's value, and positive when that value is. *)
Theorem requiredDifficulty_correct (dm : difficultyManager) (headers : gmap (list Z) BlockHeader) (w : list difficultyBlock) :
  dm_disableDifficultyAdjustment dm = false → 2 ≤ zlen w → 0 < dm_targetTimePerBlock dm → 0 < dm_powMax dm < 256 ^ 252 →
  (∀ b, b ∈ w → 0 ≤ time b < maxInt64 ∧ 0 < target b) →
  ∃ oldest newest rest bits, w ≡ₚ oldest :: rest ∧ newest ∈ w ∧ (∀ b, b ∈ w → time oldest ≤ time b ≤ time newest) ∧
    requiredDifficultyFromTargetsWindow dm headers w = Ret bits ∧ bits = BigToCompact (retarget dm oldest newest rest) ∧
    0 ≤ CompactToBig bits ≤ retarget dm oldest newest rest ∧ retarget dm oldest newest rest ≤ dm_powMax dm ∧
    (0 < retarget dm oldest newest rest → 0 < CompactToBig bits).
Proof.
  intros Hdis Hlen HT Hpow Hw.
  destruct (required_spec dm headers w Hdis Hlen HT Hpow Hw) as (oldest & newest & rest & Hp & Hn & Hall & Hrun & Hr).
  exists oldest, newest, rest, (BigToCompact (retarget dm oldest newest rest)).
  destruct (BigToCompact_floor (retarget dm oldest newest rest)) as [Hb Hpos]; [lia|]. split_and!; try done; lia.
Qed.

Definition sample_dm : difficultyManager :=
  {| dm_genesisHash := [0]; dm_powMax := 2 ^ 255 - 1; dm_difficultyAdjustmentWindowSize := 2; dm_disableDifficultyAdjustment := false;
     dm_targetTimePerBlock := 1000 |}.
Definition sample_blocks : list difficultyBlock :=
  [{| db_timeInMilliseconds := 5000; db_Bits := 0x1d00ffff |}; {| db_timeInMilliseconds := 4000; db_Bits := 0x1d00ffff |};
   {| db_timeInMilliseconds := 8000; db_Bits := 0x1d00ffff |}].

Lemma requiredDifficulty_correct_witness :
  requiredDifficultyFromTargetsWindow sample_dm ∅ sample_blocks = Ret 0x1d01fffe ∧
  ∃ oldest newest rest bits, sample_blocks ≡ₚ oldest :: rest ∧ newest ∈ sample_blocks ∧
    (∀ b, b ∈ sample_blocks → time oldest ≤ time b ≤ time newest) ∧
    requiredDifficultyFromTargetsWindow sample_dm ∅ sample_blocks = Ret bits ∧ bits = BigToCompact (retarget sample_dm oldest newest rest) ∧
    0 ≤ CompactToBig bits ≤ retarget sample_dm oldest newest rest ∧ retarget sample_dm oldest newest rest ≤ dm_powMax sample_dm ∧
    (0 < retarget sample_dm oldest newest rest → 0 < CompactToBig bits).
Proof.
  split; [vm_compute; reflexivity|].
  apply (requiredDifficulty_correct sample_dm ∅ sample_blocks); [reflexivity|vm_compute; discriminate|reflexivity|split; reflexivity|].
  intros b Hb. unfold sample_blocks in Hb. rewrite !elem_of_cons, elem_of_nil in Hb.
  destruct Hb as [->|[->|[->|[]]]]; split; vm_compute; (split; [discriminate|reflexivity]) || reflexivity.
Defined.

(** The order of a window matters when two blocks have the oldest timestamp: the first
    of them is left out of the average. *)
Example window_order_matters :
  let a := {| db_timeInMilliseconds := 0; db_Bits := 0x1d00ffff |} in
  let b := {| db_timeInMilliseconds := 0; db_Bits := 0x1c00ffff |} in
  requiredDifficultyFromTargetsWindow sample_dm ∅ [a; b] ≠ requiredDifficultyFromTargetsWindow sample_dm ∅ [b; a].
Proof. vm_compute. discriminate. Qed.

(** The time difference is clamped to one millisecond so as never to get a zero target,
    yet a low enough average target still gives one. *)
Example zero_target :
  let a := {| db_timeInMilliseconds := 0; db_Bits := 0x030003e7 |} in
  requiredDifficultyFromTargetsWindow sample_dm ∅ [a; a] = Ret 0.
Proof. vm_compute. reflexivity. Qed.

(** The past median time of a known block exists and is the genesis timestamp when
    its window is empty, and else a median of the timestamps of its window: at most
    half of them are smaller, and fewer than half are greater. *)
Theorem PastMedianTime_correct (dag_parents : list Z → list (list Z)) (k : Z) (S : gmap (list Z) BlockGHOSTDAGData)
    (headers : gmap (list Z) BlockHeader) (pmtm : pastMedianTimeManager) (high : list Z) :
  ghostdag_ok dag_parents k S (pm_genesisHash pmtm) → high ∈ dom S → 1 ≤ pm_timestampDeviationTolerance pmtm →
  (∀ x, x ∈ dom S → is_Some (headers !! x)) →
  ∃ W t times, PastMedianTime pmtm S headers high = Ret t ∧
    top S (2 * pm_timestampDeviationTolerance pmtm - 1) (past dag_parents (pm_genesisHash pmtm) high) W ∧
    Forall2 (λ x time, hd_timeInMilliseconds <$> headers !! x = Some time) W times ∧
    (if decide (W = []) then hd_timeInMilliseconds <$> headers !! pm_genesisHash pmtm = Some t else is_median times t).
Proof.
  intros Hok Hh Hn Hheaders. apply (PastMedianTime_spec dag_parents k); try done. intros x [->|(Hanc & _)]; apply Hheaders; [apply (gd_root _ _ _ _ Hok)|].
  by apply (known_anc dag_parents k S _ Hok high).
Qed.

Lemma PastMedianTime_correct_witness :
  ∃ W t times, PastMedianTime {| pm_timestampDeviationTolerance := 2; pm_genesisHash := [0] |} {[ [0] := emptyData ]}
      GhostdagProps.sample_headers [0] = Ret t ∧
    top {[ [0] := emptyData ]} (2 * 2 - 1) (past GhostdagProps.sample_dag [0] [0]) W ∧
    Forall2 (λ x time, hd_timeInMilliseconds <$> GhostdagProps.sample_headers !! x = Some time) W times ∧
    (if decide (W = []) then hd_timeInMilliseconds <$> GhostdagProps.sample_headers !! [0] = Some t else is_median times t).
Proof.
  apply (PastMedianTime_correct GhostdagProps.sample_dag 18 {[ [0] := emptyData ]} GhostdagProps.sample_headers
    {| pm_timestampDeviationTolerance := 2; pm_genesisHash := [0] |} [0]).
  - by apply genesis_ok.
  - rewrite dom_singleton. by apply elem_of_singleton.
  - simpl. lia.
  - intros x. rewrite dom_singleton, elem_of_singleton. intros ->. by eexists.
Defined.
End DifficultyManagerProps.
