(* ===== verification/Traversal.v ===== *)
(** * Walks over the DAG (processes/dagtraversalmanager, finalitymanager, mergedepthmanager)

    The walks along selected chains, the anticone, the iterator over a selected chain,
    finality points and the bound on merge depth.  They read the state of the
    topology manager ([dagTopologyManager], which has the GHOSTDAG data and the
    reachability data); finality points are staged in a store of their own. *)
From S2P Require Import Prelude Interval ReachabilityData Reachability ReachabilityTree ReachabilityAdd DagTopology Ghostdag.
Import Interval Store Reachability DagTopology.
Local Open Scope Z_scope.
Local Open Scope prog_scope.

Abbreviation hash := (list Z) (only parsing).

Module Traversal.
Abbreviation topology A := (prog dagTopologyManager reachabilityError A) (only parsing).

(** [ghostdagDataStore.Get] of a pointer *)
Definition dataAt (blockHash : hash) : topology BlockGHOSTDAGData := reachability (ghostdagData blockHash).

(** A chain of selected parents visits a block of the store at most once. *)
Definition chainWalkFuel : topology nat :=
  let* dtm := get in ret (Datatypes.S (size (ghostdagDataStore (dt_reachabilityManager dtm)))).

(** *** dagtraversalmanager.go *)
Fixpoint blockAtDepthLoop (fuel : nat) (requiredBlueScore : Z) (currentBlockHash : hash) (current : BlockGHOSTDAGData) : topology hash :=
  match fuel with
  | O => crash_with OutOfFuel
  | Datatypes.S fuel =>
      if requiredBlueScore <=? blueScore current then
        match selectedParent current with
        | None => ret currentBlockHash
        | Some parent =>
            let* current := dataAt parent in blockAtDepthLoop fuel requiredBlueScore parent current
        end
      else ret currentBlockHash
  end.

Definition BlockAtDepth (highHash : hash) (depth : Z) : topology hash :=
  let* highBlockGHOSTDAGData := dataAt highHash in
  let requiredBlueScore := if depth <? blueScore highBlockGHOSTDAGData then blueScore highBlockGHOSTDAGData - depth else 0 in
  let* fuel := chainWalkFuel in
  blockAtDepthLoop fuel requiredBlueScore highHash highBlockGHOSTDAGData.

Fixpoint lowestAboveLoop (fuel : nat) (score : Z) (currentHash : hash) (current : BlockGHOSTDAGData) : topology hash :=
  match fuel with
  | O => crash_with OutOfFuel
  | Datatypes.S fuel =>
      match selectedParent current with
      | None => ret currentHash
      | Some parent =>
          let* parentData := dataAt parent in
          if blueScore parentData <? score then ret currentHash
          else lowestAboveLoop fuel score parent parentData
      end
  end.

(** [ErrChosenChildBlueScore] stands for the unnamed error of a blue score that is too high. *)
Definition LowestChainBlockAboveOrEqualToBlueScore (highHash : hash) (score : Z) : topology hash :=
  let* highBlockGHOSTDAGData := dataAt highHash in
  if blueScore highBlockGHOSTDAGData <? score then fail ErrChosenChildBlueScore
  else let* fuel := chainWalkFuel in lowestAboveLoop fuel score highHash highBlockGHOSTDAGData.

Record SelectedChainPath := { scp_Added : list hash; scp_Removed : list hash }.

(** Walk down from [current] to the chain of [toBlockHash]. *)
Fixpoint removedLoop (fuel : nat) (toBlockHash current : hash) (removed : list hash) : topology (hash * list hash) :=
  match fuel with
  | O => crash_with OutOfFuel
  | Datatypes.S fuel =>
      let* isInChain := IsInSelectedParentChainOf current toBlockHash in
      if (isInChain : bool) then ret (current, removed)
      else
        let* data := dataAt current in
        let* parent := reachability (deref (selectedParent data)) in
        removedLoop fuel toBlockHash parent (removed ++ [current])
  end.

Fixpoint addedLoop (fuel : nat) (commonAncestor current : hash) (added : list hash) : topology (list hash) :=
  match fuel with
  | O => crash_with OutOfFuel
  | Datatypes.S fuel =>
      if bool_decide (current = commonAncestor) then ret added
      else
        let* data := dataAt current in
        let* parent := reachability (deref (selectedParent data)) in
        addedLoop fuel commonAncestor parent (added ++ [current])
  end.

Definition CalculateChainPath (fromBlockHash toBlockHash : hash) : topology SelectedChainPath :=
  let* fuel := chainWalkFuel in
  let* walked := removedLoop fuel toBlockHash fromBlockHash [] in
  let* added := addedLoop fuel (fst walked) toBlockHash [] in
  ret {| scp_Added := rev added; scp_Removed := snd walked |}.

(** *** anticone.go *)
Fixpoint anticoneLoop (fuel : nat) (blockHash : hash) (queue : list hash) (visited : gset hash) (anticone : list hash) : topology (list hash) :=
  match queue with
  | [] => ret anticone
  | current :: queue =>
      match fuel with
      | O => crash_with OutOfFuel
      | Datatypes.S fuel =>
          if bool_decide (current ∈ visited) then anticoneLoop fuel blockHash queue visited anticone
          else
            let visited := {[current]} ∪ visited in
            let* currentIsAncestorOfBlock := dtm_IsAncestorOf current blockHash in
            if (currentIsAncestorOfBlock : bool) then anticoneLoop fuel blockHash queue visited anticone
            else
              let* blockIsAncestorOfCurrent := dtm_IsAncestorOf blockHash current in
              let anticone := if (blockIsAncestorOfCurrent : bool) then anticone else anticone ++ [current] in
              let* currentParents := dtm_Parents current in
              anticoneLoop fuel blockHash (queue ++ currentParents) visited anticone
      end
  end.

(** Each block queues its parents once. *)
Definition anticoneFuel (tips : list hash) (dtm : dagTopologyManager) : nat :=
  length tips + map_fold (λ _ relations n, length (br_Parents relations) + n)%nat 0%nat (dt_blockRelationStore dtm).

Definition Anticone (tips : list hash) (blockHash : hash) : topology (list hash) :=
  let* dtm := get in anticoneLoop (anticoneFuel tips dtm) blockHash tips ∅ [].

(** *** selected_child_iterator.go *)
Record selectedChildIterator := {
  it_highHash : hash;
  it_lowHash : hash;
  it_current : option hash;
  it_err : option reachabilityError;
  it_isClosed : bool
}.
Definition it_set (it : selectedChildIterator) (current : option hash) (err : option reachabilityError) : selectedChildIterator :=
  {| it_highHash := it_highHash it; it_lowHash := it_lowHash it; it_current := current; it_err := err; it_isClosed := it_isClosed it |}.

(** A failing lookup is kept in the iterator. *)
Definition attempt {A} (m : topology A) : topology (A + reachabilityError) :=
  λ dtm, match m dtm with
         | (dtm, Ret a) => (dtm, Ret (inl a))
         | (dtm, Fail e) => (dtm, Ret (inr e))
         | (dtm, Crash c) => (dtm, Crash c)
         end.

Fixpoint firstInChain (highHash : hash) (children : list hash) : topology (option hash) :=
  match children with
  | [] => ret None
  | child :: rest =>
      let* isInChain := IsInSelectedParentChainOf child highHash in
      if (isInChain : bool) then ret (Some child) else firstInChain highHash rest
  end.

Definition it_Next (it : selectedChildIterator) : topology (bool * selectedChildIterator) :=
  if it_isClosed it then crash_with ExplicitPanic
  else
    match it_err it with
    | Some _ => ret (true, it)
    | None =>
        let* current := reachability (deref (it_current it)) in
        let* found := attempt (let* data := reachability (ReachabilityData current) in firstInChain (it_highHash it) (rd_children data)) in
        match found with
        | inr err => ret (true, it_set it None (Some err))
        | inl (Some child) => ret (true, it_set it (Some child) None)
        | inl None => ret (false, it)
        end
    end.

Definition it_First (it : selectedChildIterator) : topology (bool * selectedChildIterator) :=
  if it_isClosed it then crash_with ExplicitPanic
  else it_Next (it_set it (Some (it_lowHash it)) (it_err it)).

Definition SelectedChildIterator (highHash lowHash : hash) : topology selectedChildIterator :=
  let* isInChain := IsInSelectedParentChainOf lowHash highHash in
  if negb isInChain then fail ErrNotAncestor
  else ret {| it_highHash := highHash; it_lowHash := lowHash; it_current := Some lowHash; it_err := None; it_isClosed := false |}.
End Traversal.
Import Traversal.

(** ** Finality points *)
Record finalityManager := {
  fm_topology : dagTopologyManager;
  fm_finalityStore : gmap hash hash;
  fm_genesisHash : hash;
  fm_finalityDepth : Z
}.

(** [model.VirtualBlockHash]: 32 bytes of ones; [FinalityPoint] compares values *)
Definition VirtualBlockHash : hash := replicate 32 255.

Module Finality.
Abbreviation finality A := (prog finalityManager reachabilityError A) (only parsing).

Definition topo {A} (m : prog dagTopologyManager reachabilityError A) : finality A :=
  zoom fm_topology
    (λ t fm, {| fm_topology := t; fm_finalityStore := fm_finalityStore fm; fm_genesisHash := fm_genesisHash fm; fm_finalityDepth := fm_finalityDepth fm |}) m.

Definition StoredFinalityPoint (blockHash : hash) : finality hash :=
  let* fm := get in
  match fm_finalityStore fm !! blockHash with
  | Some point => ret point
  | None => fail ErrNotFound
  end.

Definition StageFinalityPoint (blockHash finalityPoint : hash) : finality unit :=
  modify (λ fm, {| fm_topology := fm_topology fm; fm_finalityStore := <[blockHash := finalityPoint]> (fm_finalityStore fm);
                   fm_genesisHash := fm_genesisHash fm; fm_finalityDepth := fm_finalityDepth fm |}).

(** Walk up the selected chain of [blockHash]; [isVirtual] as in [ChildInSelectedParentChainOf]. *)
Fixpoint finalityLoop (fuel : nat) (requiredBlueScore : Z) (blockHash : hash) (isVirtual : bool) (current : hash) : finality hash :=
  match fuel with
  | O => crash_with OutOfFuel
  | Datatypes.S fuel =>
      let* next := topo (ChildInSelectedParentChainOf current blockHash isVirtual) in
      let* nextGHOSTDAGData := topo (dataAt next) in
      if requiredBlueScore <=? blueScore nextGHOSTDAGData then ret current
      else finalityLoop fuel requiredBlueScore blockHash isVirtual next
  end.

Definition calculateFinalityPoint (blockHash : hash) (isVirtual : bool) : finality hash :=
  let* fm := get in
  let* ghostdagData := topo (dataAt blockHash) in
  if blueScore ghostdagData <? fm_finalityDepth fm then ret (fm_genesisHash fm)
  else
    let* selected := topo (reachability (deref (selectedParent ghostdagData))) in
    if bool_decide (selected = fm_genesisHash fm) then ret (fm_genesisHash fm)
    else
      let* current := StoredFinalityPoint selected in
      let requiredBlueScore := blueScore ghostdagData - fm_finalityDepth fm in
      let* fuel := topo chainWalkFuel in
      finalityLoop fuel requiredBlueScore blockHash isVirtual current.

Definition VirtualFinalityPoint : finality hash := calculateFinalityPoint VirtualBlockHash true.

Definition calculateAndStageFinalityPoint (blockHash : hash) : finality hash :=
  let* finalityPoint := calculateFinalityPoint blockHash false in
  StageFinalityPoint blockHash finalityPoint ;;*
  ret finalityPoint.

Definition FinalityPoint (blockHash : hash) : finality hash :=
  if bool_decide (blockHash = VirtualBlockHash) then VirtualFinalityPoint
  else
    λ fm, match StoredFinalityPoint blockHash fm with
          | (fm, Fail ErrNotFound) => calculateAndStageFinalityPoint blockHash fm
          | result => result
          end.

(** *** merge_depth_manager.go; [None]: ErrViolatingBoundedMergeDepth *)
Fixpoint nonViolating (finalityPoint : hash) (blues : list hash) : finality (list hash) :=
  match blues with
  | [] => ret []
  | blue :: rest =>
      let* notViolatingFinality := topo (IsInSelectedParentChainOf finalityPoint blue) in
      let* others := nonViolating finalityPoint rest in
      ret (if (notViolatingFinality : bool) then blue :: others else others)
  end.

Definition NonBoundedMergeDepthViolatingBlues (blockHash : hash) : finality (list hash) :=
  let* ghostdagData := topo (dataAt blockHash) in
  let* finalityPoint := FinalityPoint blockHash in
  nonViolating finalityPoint (mergeSetBlues ghostdagData).

Fixpoint checkReds (finalityPoint : hash) (blues reds : list hash) : finality bool :=
  match reds with
  | [] => ret true
  | red :: rest =>
      let* doesRedHaveFinalityPointInPast := topo (dtm_IsAncestorOf finalityPoint red) in
      if (doesRedHaveFinalityPointInPast : bool) then checkReds finalityPoint blues rest
      else
        let* isRedInPast := topo (IsAncestorOfAny red blues) in
        if (isRedInPast : bool) then checkReds finalityPoint blues rest else ret false
  end.

(** [true]: the block does not violate the bound *)
Definition CheckBoundedMergeDepth (blockHash : hash) : finality bool :=
  let* nonViolatingBlues := NonBoundedMergeDepthViolatingBlues blockHash in
  let* ghostdagData := topo (dataAt blockHash) in
  match selectedParent ghostdagData with
  | None => ret true
  | Some _ =>
      let* finalityPoint := FinalityPoint blockHash in
      checkReds finalityPoint nonViolatingBlues (mergeSetReds ghostdagData)
  end.
End Finality.
