(* ===== verification/HeaderValidation.v ===== *)
(** * Validation of block headers (processes/blockvalidator, blockprocessor)

    The checks a header passes before its block joins the DAG, in the order
    [validateBlock] makes them for a block without body, with the operations that
    change state: the header is staged, [SetParents], [GHOSTDAG], the DAA data,
    [AddBlock], and the finality point that the bound on merge depth stages.  The
    clock is an argument.  [IndexOutOfRange] and the like are panics. *)
From S2P Require Import Prelude Interval ReachabilityData Reachability ReachabilityTree ReachabilityAdd Reindex DagTopology Difficulty Externalapi Hashing Block Ghostdag GhostdagOrder GhostdagColour Heap Window DifficultyManager Traversal.
Import Difficulty Interval Store Reachability Reindex DagTopology Ghostdag DifficultyManager PastMedianTime Traversal Finality Serialization HashWriters Header.
Local Open Scope Z_scope.
Local Open Scope prog_scope.

Abbreviation hash := (list Z) (only parsing).

Inductive BlockStatus :=
  | StatusInvalid
  | StatusUTXOValid
  | StatusUTXOPendingVerification
  | StatusDisqualifiedFromChain
  | StatusHeaderOnly.
#[export] Instance BlockStatus_eq_dec : EqDecision BlockStatus.
Proof. solve_decision. Defined.

Inductive ruleError :=
  | ErrBlockVersionIsUnknown
  | ErrTimeTooMuchInTheFuture
  | ErrNoParents
  | ErrTooManyParents
  | ErrMissingParents (missing : list hash)
  | ErrInvalidAncestorBlock
  | ErrInvalidParentsRelation
  | ErrPruningPointViolation
  | ErrNegativeTarget
  | ErrTargetTooHigh
  | ErrInvalidPoW
  | ErrUnexpectedDifficulty
  | ErrTimeTooOld
  | ErrViolatingMergeLimit
  | ErrViolatingBoundedMergeDepth
  | ErrKnownInvalid
  | ErrDuplicateBlock.

Inductive headerError :=
  | HeaderDag (e : reachabilityError)
  | HeaderGhostdag (e : ghostdagError)
  | HeaderMedian (e : medianError)
  | ErrUnexpectedStatus
  | RuleError (e : ruleError).

(** The stores, as the staging area shows them. *)
Record consensus := {
  cs_finality : finalityManager;
  cs_headers : gmap hash BlockHeader;
  cs_daa : daaBlocksStore;
  cs_statuses : gmap hash BlockStatus;
  cs_pruningPoint : option hash
}.

Record blockValidator := {
  bv_powMax : Z;
  bv_skipPoW : bool;
  bv_genesisHash : hash;
  bv_mergeSetSizeLimit : Z;
  bv_maxBlockParents : Z;
  bv_timestampDeviationTolerance : Z;
  bv_targetTimePerBlock : Z;
  bv_k : Z;
  bv_difficultyManager : difficultyManager;
  bv_pastMedianTimeManager : pastMedianTimeManager
}.

Definition MaxBlockVersion : Z := 0.

Module Pow.
Section Pow.
Context `{Hashes}.

(** [toBig] reverses the bytes and reads them big-endian. *)
Definition toBig (h : hash) : Z := LE.of_bytes h.

Definition calcPowValue (header : BlockHeader) : Z :=
  let timestamp := hd_timeInMilliseconds header in
  let nonce := hd_nonce header in
  let prePowHash := HeaderHash (SetNonce (SetTimeInMilliseconds header 0) 0) in
  let writer := InfallibleWrite NewPoWHashWriter prePowHash in
  let writer := InfallibleWrite writer (WriteElement [] (E_int64 timestamp)) in
  let writer := InfallibleWrite writer (replicate 32 0) in
  let writer := InfallibleWrite writer (WriteElement [] (E_uint64 nonce)) in
  toBig (Finalize writer).

Definition CheckProofOfWorkWithTarget (header : BlockHeader) (target : Z) : bool := calcPowValue header <=? target.
Definition CheckProofOfWorkByBits (header : BlockHeader) : bool :=
  CheckProofOfWorkWithTarget header (CompactToBig (hd_bits header)).
End Pow.
End Pow.
Import Pow.

Module HeaderValidation.
Abbreviation validation A := (prog consensus headerError A) (only parsing).

Definition rule {A} (e : ruleError) : validation A := fail (RuleError e).

(** Run an operation on a part of the state, with its errors. *)
Definition run_on {T E A} (view : consensus → T) (put : T → consensus → consensus) (err : E → headerError) (m : prog T E A) : validation A :=
  λ s, match m (view s) with
       | (t, Ret a) => (put t s, Ret a)
       | (t, Fail e) => (put t s, Fail (err e))
       | (t, Crash c) => (put t s, Crash c)
       end.

Definition put_finality (fm : finalityManager) (s : consensus) : consensus :=
  {| cs_finality := fm; cs_headers := cs_headers s; cs_daa := cs_daa s; cs_statuses := cs_statuses s; cs_pruningPoint := cs_pruningPoint s |}.
Definition put_headers (headers : gmap hash BlockHeader) (s : consensus) : consensus :=
  {| cs_finality := cs_finality s; cs_headers := headers; cs_daa := cs_daa s; cs_statuses := cs_statuses s; cs_pruningPoint := cs_pruningPoint s |}.
Definition put_daa (daa : daaBlocksStore) (s : consensus) : consensus :=
  {| cs_finality := cs_finality s; cs_headers := cs_headers s; cs_daa := daa; cs_statuses := cs_statuses s; cs_pruningPoint := cs_pruningPoint s |}.
Definition put_statuses (statuses : gmap hash BlockStatus) (s : consensus) : consensus :=
  {| cs_finality := cs_finality s; cs_headers := cs_headers s; cs_daa := cs_daa s; cs_statuses := statuses; cs_pruningPoint := cs_pruningPoint s |}.

Definition dtm_of (s : consensus) : dagTopologyManager := fm_topology (cs_finality s).
Definition put_dtm (t : dagTopologyManager) (s : consensus) : consensus :=
  put_finality {| fm_topology := t; fm_finalityStore := fm_finalityStore (cs_finality s); fm_genesisHash := fm_genesisHash (cs_finality s);
                  fm_finalityDepth := fm_finalityDepth (cs_finality s) |} s.
Definition rt_of (s : consensus) : reachabilityManager := dt_reachabilityManager (dtm_of s).
Definition put_rt (rt : reachabilityManager) (s : consensus) : consensus :=
  put_dtm {| dt_reachabilityManager := rt; dt_blockRelationStore := dt_blockRelationStore (dtm_of s) |} s.
Definition ghostdag_of (s : consensus) : gmap hash BlockGHOSTDAGData := ghostdagDataStore (rt_of s).
Definition put_ghostdag (S : gmap hash BlockGHOSTDAGData) (s : consensus) : consensus :=
  put_rt {| reachabilityDataStore := reachabilityDataStore (rt_of s); reachabilityReindexRoot := reachabilityReindexRoot (rt_of s);
            ghostdagDataStore := S; reindexSlack := reindexSlack (rt_of s); reindexWindow := reindexWindow (rt_of s) |} s.

Definition onFinality {A} : prog finalityManager reachabilityError A → validation A := run_on cs_finality put_finality HeaderDag.
Definition onTopology {A} : prog dagTopologyManager reachabilityError A → validation A := run_on dtm_of put_dtm HeaderDag.
Definition onReachability {A} : prog reachabilityManager reachabilityError A → validation A := run_on rt_of put_rt HeaderDag.
Definition onGhostdag {A} : prog (gmap hash BlockGHOSTDAGData) ghostdagError A → validation A := run_on ghostdag_of put_ghostdag HeaderGhostdag.
Definition onDaa {A} : prog daaBlocksStore ghostdagError A → validation A := run_on cs_daa put_daa HeaderGhostdag.

(** An operation that only reads. *)
Definition reading {E A} (err : E → headerError) (o : consensus → outcome E A) : validation A :=
  λ s, (s, match o s with Ret a => Ret a | Fail e => Fail (err e) | Crash c => Crash c end).

Definition BlockHeaderOf (blockHash : hash) : validation BlockHeader :=
  reading HeaderGhostdag (λ s, Get (cs_headers s) blockHash).

Section Validator.
Context `{Hashes} `{FloatConversion}.
Variable v : blockValidator.
Variable now : Z.

(** *** block_header_in_isolation.go *)
Definition checkParentsLimit (header : BlockHeader) : validation unit :=
  let hash := HeaderHash header in
  if (zlen (hd_parentHashes header) =? 0) && negb (bool_decide (hash = bv_genesisHash v)) then rule ErrNoParents
  else if bv_maxBlockParents v <? zlen (hd_parentHashes header) then rule ErrTooManyParents
  else ret ().

Definition checkBlockVersion (header : BlockHeader) : validation unit :=
  if MaxBlockVersion <? hd_version header then rule ErrBlockVersionIsUnknown else ret ().

Definition checkBlockTimestampInIsolation (header : BlockHeader) : validation unit :=
  let blockTimestamp := hd_timeInMilliseconds header in
  let maxCurrentTime := GoInt.int64 (now + GoInt.int64 (bv_timestampDeviationTolerance v * bv_targetTimePerBlock v)) in
  if maxCurrentTime <? blockTimestamp then rule ErrTimeTooMuchInTheFuture else ret ().

Definition ValidateHeaderInIsolation (blockHash : hash) : validation unit :=
  let* header := BlockHeaderOf blockHash in
  checkBlockVersion header ;;*
  checkBlockTimestampInIsolation header ;;*
  checkParentsLimit header.

(** *** pruning_violation_proof_of_work_and_difficulty.go *)
Fixpoint missingParents (parents : list hash) : validation (list hash) :=
  match parents with
  | [] => ret []
  | parent :: rest =>
      let* s := get in
      if bool_decide (is_Some (cs_headers s !! parent)) then missingParents rest
      else if bool_decide (cs_statuses s !! parent = Some StatusInvalid) then rule ErrInvalidAncestorBlock
      else let* missing := missingParents rest in ret (parent :: missing)
  end.

Definition checkParentHeadersExist (header : BlockHeader) : validation unit :=
  let* missingParentHashes := missingParents (hd_parentHashes header) in
  match missingParentHashes with
  | [] => ret ()
  | _ => rule (ErrMissingParents missingParentHashes)
  end.

Definition checkPruningPointViolation (header : BlockHeader) : validation unit :=
  let* s := get in
  match cs_pruningPoint s with
  | None => ret ()
  | Some pruningPoint =>
      let* isAncestorOfAny := onTopology (IsAncestorOfAny pruningPoint (hd_parentHashes header)) in
      if negb isAncestorOfAny then rule ErrPruningPointViolation else ret ()
  end.

Definition checkProofOfWork (header : BlockHeader) : validation unit :=
  let target := CompactToBig (hd_bits header) in
  if target <=? 0 then rule ErrNegativeTarget
  else if bv_powMax v <? target then rule ErrTargetTooHigh
  else if negb (bv_skipPoW v) then
    if negb (CheckProofOfWorkWithTarget header target) then rule ErrInvalidPoW else ret ()
  else ret ().

Definition validateDifficulty (blockHash : hash) : validation unit :=
  let* s := get in
  onGhostdag (@GHOSTDAG (as_interface (dtm_of s)) (bv_k v) (cs_headers s) blockHash) ;;*
  let* s := get in
  let* expectedBits := onDaa (StageDAADataAndReturnRequiredDifficulty (bv_difficultyManager v) (ghostdag_of s) (cs_headers s) blockHash) in
  let* header := BlockHeaderOf blockHash in
  if negb (hd_bits header =? expectedBits) then rule ErrUnexpectedDifficulty else ret ().

(** *** checkParentsIncest of block_header_in_context.go *)
Fixpoint incestWith (parentA : hash) (parents : list hash) : validation unit :=
  match parents with
  | [] => ret ()
  | parentB :: rest =>
      if bool_decide (parentA = parentB) then incestWith parentA rest
      else
        let* isAAncestorOfB := onTopology (dtm_IsAncestorOf parentA parentB) in
        if (isAAncestorOfB : bool) then rule ErrInvalidParentsRelation else incestWith parentA rest
  end.

Fixpoint incestLoop (parents all : list hash) : validation unit :=
  match parents with
  | [] => ret ()
  | parentA :: rest => incestWith parentA all ;;* incestLoop rest all
  end.

Definition checkParentsIncest (header : BlockHeader) : validation unit :=
  incestLoop (hd_parentHashes header) (hd_parentHashes header).

Definition ValidatePruningPointViolationAndProofOfWorkAndDifficulty (blockHash : hash) : validation unit :=
  let* header := BlockHeaderOf blockHash in
  checkParentHeadersExist header ;;*
  checkParentsIncest header ;;*
  checkPruningPointViolation header ;;*
  checkProofOfWork header ;;*
  onTopology (SetParents blockHash (hd_parentHashes header)) ;;*
  validateDifficulty blockHash.

(** *** block_header_in_context.go *)
Definition validateMedianTime (header : BlockHeader) : validation unit :=
  if zlen (hd_parentHashes header) =? 0 then ret ()
  else
    let hash := HeaderHash header in
    let* pastMedianTime := reading HeaderMedian (λ s, PastMedianTime (bv_pastMedianTimeManager v) (ghostdag_of s) (cs_headers s) hash) in
    if hd_timeInMilliseconds header <=? pastMedianTime then rule ErrTimeTooOld else ret ().

Definition checkMergeSizeLimit (blockHash : hash) : validation unit :=
  let* ghostdagData := reading HeaderGhostdag (λ s, Get (ghostdag_of s) blockHash) in
  let mergeSetSize := zlen (mergeSetBlues ghostdagData ++ mergeSetReds ghostdagData) in
  if bv_mergeSetSizeLimit v <? GoInt.uint64 mergeSetSize then rule ErrViolatingMergeLimit else ret ().

(** The debug message, which reads the GHOSTDAG data, is left out. *)
Definition ValidateHeaderInContext (blockHash : hash) : validation unit :=
  let* header := BlockHeaderOf blockHash in
  validateMedianTime header ;;*
  checkMergeSizeLimit blockHash ;;*
  let* s := get in
  (if bool_decide (is_Some (reachabilityDataStore (rt_of s) !! blockHash)) then ret ()
   else onReachability (AddBlock blockHash)) ;;*
  let* bounded := onFinality (CheckBoundedMergeDepth blockHash) in
  if negb bounded then rule ErrViolatingBoundedMergeDepth else ret ().

(** ** A block without body (blockprocessor)

    [checkBlockStatus] and [hasValidatedHeader] look at the status; a header that was
    validated before is not checked again. *)
Definition checkBlockStatus (blockHash : hash) : validation unit :=
  let* s := get in
  match cs_statuses s !! blockHash with
  | None => ret ()
  | Some StatusInvalid => rule ErrKnownInvalid
  | Some _ => if bool_decide (is_Some (cs_headers s !! blockHash)) then rule ErrDuplicateBlock else ret ()
  end.

Definition hasValidatedHeader (blockHash : hash) : validation bool :=
  let* s := get in
  match cs_statuses s !! blockHash with
  | None => ret false
  | Some status => ret (negb (bool_decide (status = StatusInvalid)))
  end.

(** [validateBlock] up to and including proof of work and difficulty *)
Definition validateBeforeContext (header : BlockHeader) : validation bool :=
  let blockHash := HeaderHash header in
  checkBlockStatus blockHash ;;*
  let* validated := hasValidatedHeader blockHash in
  (if (validated : bool) then ret () else modify (λ s, put_headers (<[blockHash := header]> (cs_headers s)) s)) ;;*
  (if (validated : bool) then ret () else ValidateHeaderInIsolation blockHash) ;;*
  (if (validated : bool) then ret () else ValidatePruningPointViolationAndProofOfWorkAndDifficulty blockHash) ;;*
  ret validated.

(** Whether an error of the in-context checks marks the block invalid. *)
Definition marksInvalid (e : headerError) : bool :=
  match e with
  | RuleError (ErrMissingParents _) => false
  | RuleError _ => true
  | _ => false
  end.

Definition setBlockStatusAfterBlockValidation (blockHash : hash) : validation unit :=
  let* s := get in
  if bool_decide (cs_statuses s !! blockHash = Some StatusUTXOValid) then fail ErrUnexpectedStatus
  else modify (λ s, put_statuses (<[blockHash := StatusHeaderOnly]> (cs_statuses s)) s).

(** [validateBlock] and [setBlockStatusAfterBlockValidation] on a block without body.
    On an error the staging area is dropped, so the state is the one before; an
    error of the last stage may first commit the status [StatusInvalid]. *)
Definition validateHeader (header : BlockHeader) : validation unit :=
  λ s,
    let blockHash := HeaderHash header in
    match validateBeforeContext header s with
    | (_, Fail e) => (s, Fail e)
    | (_, Crash c) => (s, Crash c)
    | (s1, Ret validated) =>
        match (if (validated : bool) then ret () else ValidateHeaderInContext blockHash) s1 with
        | (s2, Ret tt) =>
            match setBlockStatusAfterBlockValidation blockHash s2 with
            | (s3, Ret tt) => (s3, Ret ())
            | (_, Fail e) => (s, Fail e)
            | (_, Crash c) => (s, Crash c)
            end
        | (_, Fail e) => (if marksInvalid e then put_statuses (<[blockHash := StatusInvalid]> (cs_statuses s)) s else s, Fail e)
        | (_, Crash c) => (s, Crash c)
        end
    end.
End Validator.
End HeaderValidation.
