(* ===== verification/HeaderSafety.v ===== *)
(** * An accepted header keeps the DAG's data right

    What each stage of header validation may change, and the composition: when
    [validateHeader] accepts a new header, the relations, the GHOSTDAG data, the
    reachability data and the headers again describe one DAG, with the new block. *)
From S2P Require Import Prelude Interval ReachabilityData Reachability ReachabilityTree ReachabilityAdd Reindex ReindexTree ReindexPropagate ReindexAdd DagTopology Difficulty Externalapi Hashing Block Ghostdag GhostdagOrder GhostdagColour Heap Window DifficultyManager Traversal HeaderValidation.
Import Difficulty Interval Store Reachability Reindex DagTopology Ghostdag DifficultyManager PastMedianTime Traversal Finality Header Pow HeaderValidation.
Local Open Scope Z_scope.
Local Open Scope prog_scope.

Abbreviation hash := (list Z) (only parsing).

(** ** What an operation preserves *)
Definition preserves {S E A T} (view : S → T) (m : prog S E A) : Prop := ∀ s, view (fst (m s)) = view s.

Create HintDb preserves.

Section Preserves.
Context {S E T : Type} (view : S → T).

Lemma preserves_ret {A} (a : A) : preserves (E := E) view (ret a).
Proof. done. Qed.
Lemma preserves_fail {A} (e : E) : preserves (A := A) view (fail e).
Proof. done. Qed.
Lemma preserves_crash {A} c : preserves (E := E) (A := A) view (crash_with c).
Proof. done. Qed.
Lemma preserves_get : preserves (E := E) view get.
Proof. done. Qed.
Lemma preserves_lift {A} (o : outcome E A) : preserves view (lift_outcome o).
Proof. done. Qed.
Lemma preserves_bind {A B} (m : prog S E A) (k : A → prog S E B) :
  preserves view m → (∀ a, preserves view (k a)) → preserves view (bind m k).
Proof.
  intros Hm Hk s. unfold bind. specialize (Hm s). destruct (m s) as [s' [a|e|c]]; simpl in *; [|done..]. by rewrite Hk.
Qed.
Lemma preserves_zoom {U A} (get : S → U) (put : U → S → S) (m : prog U E A) :
  (∀ s, put (get s) s = s) → preserves id m → preserves view (zoom get put m).
Proof. intros Hput Hm s. unfold zoom. specialize (Hm (get s)). destruct (m (get s)) as [u o]. simpl in *. unfold id in Hm. by rewrite Hm, Hput. Qed.
End Preserves.

#[export] Hint Resolve preserves_ret preserves_fail preserves_crash preserves_get preserves_lift preserves_bind : preserves.
#[export] Hint Extern 2 (preserves _ (if ?b then _ else _)) => destruct b : preserves.
#[export] Hint Extern 2 (preserves _ (match ?x with _ => _ end)) => destruct x : preserves.

Ltac reads f := intros; unfold f; auto 12 with preserves.

(** ** Queries change nothing *)
Section Queries.
Context {T : Type} (view : reachabilityManager → T).

Lemma found_reads {A} (o : option A) : preserves view (found o).
Proof. destruct o; reads @found. Qed.
Lemma deref_reads {A} (o : option A) : preserves view (deref o).
Proof. destruct o; reads @deref. Qed.
#[local] Hint Resolve found_reads deref_reads : preserves.
Lemma ReachabilityData_reads x : preserves view (ReachabilityData x).
Proof. reads ReachabilityData. Qed.
Lemma ghostdagData_reads x : preserves view (ghostdagData x).
Proof. reads ghostdagData. Qed.
#[local] Hint Resolve ReachabilityData_reads : preserves.
Lemma interval_reads x : preserves view (interval x).
Proof. reads interval. Qed.
Lemma children_reads x : preserves view (children x).
Proof. reads children. Qed.
Lemma futureCoveringSet_reads x : preserves view (futureCoveringSet x).
Proof. reads futureCoveringSet. Qed.
#[local] Hint Resolve interval_reads children_reads futureCoveringSet_reads : preserves.
Lemma IsReachabilityTreeAncestorOf_reads x y : preserves view (IsReachabilityTreeAncestorOf x y).
Proof. reads IsReachabilityTreeAncestorOf. Qed.
Lemma searchLoop_reads fuel : ∀ tns e low high, preserves view (searchLoop fuel tns e low high).
Proof. induction fuel; intros; cbn [searchLoop]; auto 12 with preserves. Qed.
#[local] Hint Resolve IsReachabilityTreeAncestorOf_reads searchLoop_reads : preserves.
Lemma findAncestorIndexOfNode_reads tns x : preserves view (findAncestorIndexOfNode tns x).
Proof. reads findAncestorIndexOfNode. Qed.
#[local] Hint Resolve findAncestorIndexOfNode_reads : preserves.
Lemma findAncestorOfNode_reads tns x : preserves view (findAncestorOfNode tns x).
Proof.
  intros rt. unfold findAncestorOfNode. pose proof (findAncestorIndexOfNode_reads tns x rt) as Hr.
  destruct (findAncestorIndexOfNode tns x rt) as [rt' [[i []]|e|c]]; simpl in *; try done.
  rewrite <- Hr. apply (preserves_bind view); auto with preserves.
Qed.
#[local] Hint Resolve findAncestorOfNode_reads : preserves.
Lemma FindNextAncestor_reads x y : preserves view (FindNextAncestor x y).
Proof. reads FindNextAncestor. Qed.
Lemma futureCoveringSetHasAncestorOf_reads x y : preserves view (futureCoveringSetHasAncestorOf x y).
Proof. reads futureCoveringSetHasAncestorOf. Qed.
#[local] Hint Resolve futureCoveringSetHasAncestorOf_reads : preserves.
Lemma IsDAGAncestorOf_reads x y : preserves view (IsDAGAncestorOf x y).
Proof. reads IsDAGAncestorOf. Qed.
End Queries.
#[export] Hint Resolve found_reads deref_reads ReachabilityData_reads ghostdagData_reads IsReachabilityTreeAncestorOf_reads
  FindNextAncestor_reads IsDAGAncestorOf_reads : preserves.

Section Topology.
Context {T : Type} (view : dagTopologyManager → T).
Lemma reachability_reads {A} (m : prog reachabilityManager reachabilityError A) : preserves id m → preserves view (reachability m).
Proof. apply preserves_zoom. by intros []. Qed.
#[local] Hint Resolve reachability_reads : preserves.
Lemma dataAt_reads x : preserves view (dataAt x).
Proof. reads dataAt. Qed.
Lemma dtm_IsAncestorOf_reads x y : preserves view (dtm_IsAncestorOf x y).
Proof. reads dtm_IsAncestorOf. Qed.
Lemma IsInSelectedParentChainOf_reads x y : preserves view (IsInSelectedParentChainOf x y).
Proof. reads IsInSelectedParentChainOf. Qed.
#[local] Hint Resolve dtm_IsAncestorOf_reads IsInSelectedParentChainOf_reads dataAt_reads : preserves.
Lemma IsAncestorOfAny_reads x l : preserves view (IsAncestorOfAny x l).
Proof. induction l; cbn [IsAncestorOfAny]; auto 12 with preserves. Qed.
Lemma ChildInSelectedParentChainOf_reads x y b : preserves view (ChildInSelectedParentChainOf x y b).
Proof. reads ChildInSelectedParentChainOf. Qed.
Lemma chainWalkFuel_reads : preserves view chainWalkFuel.
Proof. reads chainWalkFuel. Qed.
End Topology.
#[export] Hint Resolve reachability_reads dataAt_reads dtm_IsAncestorOf_reads IsInSelectedParentChainOf_reads IsAncestorOfAny_reads
  ChildInSelectedParentChainOf_reads chainWalkFuel_reads : preserves.

(** Finality points and the merge depth stage nothing but finality points. *)
Lemma topo_reads {A T} (view : finalityManager → T) (m : prog dagTopologyManager reachabilityError A) : preserves id m → preserves view (topo m).
Proof. apply preserves_zoom. by intros []. Qed.
#[export] Hint Resolve topo_reads : preserves.

Lemma finalityLoop_reads {T} (view : finalityManager → T) fuel : ∀ r b v x, preserves view (finalityLoop fuel r b v x).
Proof. induction fuel; intros; cbn [finalityLoop]; auto 12 with preserves. Qed.
#[export] Hint Resolve finalityLoop_reads : preserves.
Lemma StoredFinalityPoint_reads {T} (view : finalityManager → T) x : preserves view (StoredFinalityPoint x).
Proof. reads StoredFinalityPoint. Qed.
#[export] Hint Resolve StoredFinalityPoint_reads : preserves.
Lemma calculateFinalityPoint_reads {T} (view : finalityManager → T) x v : preserves view (calculateFinalityPoint x v).
Proof. reads calculateFinalityPoint. Qed.
#[export] Hint Resolve calculateFinalityPoint_reads : preserves.
Lemma calculateAndStage_preserves x : preserves fm_topology (calculateAndStageFinalityPoint x).
Proof. unfold calculateAndStageFinalityPoint. apply preserves_bind; [auto with preserves|]. intros p. by apply preserves_bind. Qed.
Lemma FinalityPoint_preserves x : preserves fm_topology (FinalityPoint x).
Proof.
  unfold FinalityPoint. destruct (bool_decide _); [apply calculateFinalityPoint_reads|]. intros fm.
  pose proof (StoredFinalityPoint_reads id x fm) as Hr. destruct (StoredFinalityPoint x fm) as [fm' [p|[]|c]]; simpl in Hr; unfold id in Hr; subst; try done.
  apply calculateAndStage_preserves.
Qed.
#[export] Hint Resolve FinalityPoint_preserves : preserves.
Lemma nonViolating_reads {T} (view : finalityManager → T) p l : preserves view (nonViolating p l).
Proof. induction l; cbn [nonViolating]; auto 12 with preserves. Qed.
Lemma checkReds_reads {T} (view : finalityManager → T) p b l : preserves view (checkReds p b l).
Proof. induction l; cbn [checkReds]; auto 12 with preserves. Qed.
#[export] Hint Resolve nonViolating_reads checkReds_reads : preserves.
Lemma CheckBoundedMergeDepth_preserves x : preserves fm_topology (CheckBoundedMergeDepth x).
Proof.
  unfold CheckBoundedMergeDepth, NonBoundedMergeDepthViolatingBlues. repeat (apply preserves_bind; [auto with preserves|intros]); auto 12 with preserves.
Qed.

(** ** Stages of validation *)
Lemma run_on_inv {T E A} (view : consensus → T) put (err : E → headerError) (m : prog T E A) s s' a :
  run_on view put err m s = (s', Ret a) → ∃ t, m (view s) = (t, Ret a) ∧ s' = put t s.
Proof. unfold run_on. destruct (m (view s)) as [t [b|e|c]]; intros [= <- E']; try done. exists t. split; congruence. Qed.

Lemma onTopology_reads {A} (m : prog dagTopologyManager reachabilityError A) : preserves id m → preserves id (onTopology m).
Proof.
  intros Hm s. unfold onTopology, run_on. specialize (Hm (dtm_of s)).
  assert (put_dtm (dtm_of s) s = s) as Hput by (by destruct s as [[] ? ? ? ?]).
  destruct (m (dtm_of s)) as [t [a|e|c]]; simpl in *; unfold id in *; by rewrite Hm, Hput.
Qed.
Lemma reading_reads {E A} (err : E → headerError) (o : consensus → outcome E A) : preserves id (reading err o).
Proof. done. Qed.
#[export] Hint Resolve onTopology_reads reading_reads : preserves.

Lemma reads_inv {S E A} (m : prog S E A) s s' a : preserves id m → m s = (s', Ret a) → s' = s.
Proof. intros Hm Hr. specialize (Hm s). rewrite Hr in Hm. exact Hm. Qed.

(** [H : bind m k s = (s', Ret a)] for an [m] that only reads *)
Lemma bind_reads_inv {S E A B} (m : prog S E A) (k : A → prog S E B) s s' b :
  preserves id m → bind m k s = (s', Ret b) → ∃ a, m s = (s, Ret a) ∧ k a s = (s', Ret b).
Proof.
  intros Hm (s1 & a & H1 & H2)%bind_ret_inv. exists a. pose proof (reads_inv m s s1 a Hm H1). subst s1. done.
Qed.

Section Checks.
Context `{Hashes} (v : blockValidator).

Lemma missingParents_reads l : preserves id (missingParents l).
Proof. induction l; cbn [missingParents]; unfold rule; auto 12 with preserves. Qed.
#[local] Hint Resolve missingParents_reads : preserves.
Lemma checkParentHeadersExist_reads h : preserves id (checkParentHeadersExist h).
Proof. unfold checkParentHeadersExist, rule. auto 12 with preserves. Qed.
Lemma incestWith_reads a l : preserves id (incestWith a l).
Proof. induction l; cbn [incestWith]; unfold rule; auto 12 with preserves. Qed.
#[local] Hint Resolve incestWith_reads : preserves.
Lemma incestLoop_reads l all : preserves id (incestLoop l all).
Proof. induction l; cbn [incestLoop]; auto 12 with preserves. Qed.
Lemma checkPruningPointViolation_reads h : preserves id (checkPruningPointViolation h).
Proof. unfold checkPruningPointViolation, rule. auto 12 with preserves. Qed.
Lemma checkProofOfWork_reads h : preserves id (checkProofOfWork v h).
Proof. unfold checkProofOfWork, rule. auto 12 with preserves. Qed.
Lemma isolation_reads now x : preserves id (ValidateHeaderInIsolation v now x).
Proof.
  unfold ValidateHeaderInIsolation, BlockHeaderOf, checkBlockVersion, checkBlockTimestampInIsolation, checkParentsLimit, rule.
  auto 12 with preserves.
Qed.
Lemma validateMedianTime_reads h : preserves id (validateMedianTime v h).
Proof. unfold validateMedianTime, rule. auto 12 with preserves. Qed.
Lemma checkMergeSizeLimit_reads x : preserves id (checkMergeSizeLimit v x).
Proof. unfold checkMergeSizeLimit, rule. auto 12 with preserves. Qed.

(** Proof of work: the target of an accepted header has positive work. *)
Lemma checkProofOfWork_target h s s' : bv_powMax v < 2 ^ 256 → checkProofOfWork v h s = (s', Ret ()) → 0 < CalcWork (hd_bits h).
Proof.
  intros Hmax. unfold checkProofOfWork, rule. cbv zeta. destruct (Z.leb_spec (CompactToBig (hd_bits h)) 0); [done|].
  destruct (Z.ltb_spec (bv_powMax v) (CompactToBig (hd_bits h))); [done|]. intros _.
  unfold CalcWork. rewrite (proj2 (Z.leb_gt _ _)) by lia. unfold bigDiv. change oneLsh256 with (2 ^ 256). apply Z.div_str_pos. lia.
Qed.

(** No parent is an ancestor of another. *)
Lemma incestWith_inv a l s s' : incestWith a l s = (s', Ret ()) →
  ∀ b, b ∈ l → a ≠ b → snd (dtm_IsAncestorOf a b (dtm_of s)) = Ret false.
Proof.
  induction l as [|c l IH]; intros Hrun b Hb Hne; [by apply elem_of_nil in Hb|]. cbn [incestWith] in Hrun.
  case_bool_decide as Hac.
  - subst c. apply elem_of_cons in Hb as [->|Hb]; [done|]. by apply IH.
  - apply bind_reads_inv in Hrun as (r & Hr & Hrun); [|auto with preserves].
    apply run_on_inv in Hr as (t & Hr & _). destruct r; [done|]. apply elem_of_cons in Hb as [->|Hb]; [by rewrite Hr|by apply IH].
Qed.

Lemma incestLoop_inv l all s s' : incestLoop l all s = (s', Ret ()) →
  ∀ a b, a ∈ l → b ∈ all → a ≠ b → snd (dtm_IsAncestorOf a b (dtm_of s)) = Ret false.
Proof.
  induction l as [|c l IH]; intros Hrun a b Ha Hb Hne; [by apply elem_of_nil in Ha|]. cbn [incestLoop] in Hrun.
  apply bind_reads_inv in Hrun as ([] & Hr & Hrun); [|auto with preserves].
  apply elem_of_cons in Ha as [->|Ha]; [by eapply incestWith_inv|by apply IH].
Qed.
End Checks.

Lemma linkParents_known b ps : ∀ dtm dtm', linkParents b ps dtm = (dtm', Ret ()) → ∀ p, p ∈ ps → p ∈ dom (dt_blockRelationStore dtm).
Proof.
  induction ps as [|q ps IH]; intros dtm dtm' Hrun p Hp; [by apply elem_of_nil in Hp|]. cbn [linkParents] in Hrun.
  apply bind_ret_inv in Hrun as (d1 & r & H1 & Hrun). unfold BlockRelation, bind, get in H1.
  destruct (dt_blockRelationStore dtm !! q) as [rq|] eqn:Hq; [|done]. injection H1 as <- <-.
  assert (q ∈ dom (dt_blockRelationStore dtm)) as Hqd by (by eapply elem_of_dom_2).
  apply elem_of_cons in Hp as [->|Hp]; [done|].
  apply bind_ret_inv in Hrun as (d2 & [] & H2 & Hrun). specialize (IH d2 dtm' Hrun p Hp). revert H2 IH.
  destruct (isHashInSlice b (br_Children rq)); intros [= <-]; [done|]. simpl. rewrite dom_insert. set_solver.
Qed.

(** ** The data of a DAG *)
Section Dag.
Context (dag_parents : list Z → list (list Z)) (k : Z) (root : list Z).
Abbreviation rt dtm := (dt_reachabilityManager dtm) (only parsing).
Abbreviation nodes dtm := (dom (reachabilityDataStore (dt_reachabilityManager dtm))) (only parsing).

(** The stores of the topology manager and the headers describe one DAG, whose blocks
    are the nodes of the reachability tree. *)
Record dag_ok (dtm : dagTopologyManager) (headers : gmap hash BlockHeader) : Prop := {
  ok_reach : reach_ok dag_parents (rt dtm) root;
  ok_ghostdag : ghostdag_ok dag_parents k (ghostdagDataStore (rt dtm)) root;
  ok_relations : relations_ok (dt_blockRelationStore dtm);
  ok_parents x : x ∈ nodes dtm → br_Parents <$> dt_blockRelationStore dtm !! x = Some (dag_parents x);
  ok_dom_ghostdag : dom (ghostdagDataStore (rt dtm)) = nodes dtm;
  ok_dom_relations : dom (dt_blockRelationStore dtm) = nodes dtm;
  ok_headers : headers_ok (ghostdagDataStore (rt dtm)) headers
}.

Section Insert.
Variables (dtm : dagTopologyManager) (headers : gmap (list Z) BlockHeader) (B : list Z) (header : BlockHeader).
Hypothesis Hok : dag_ok dtm headers.
Hypothesis Hk : 0 ≤ k < 255.
Hypothesis HB : B ∉ nodes dtm.
Hypothesis Hparents : hd_parentHashes header = dag_parents B.
Hypothesis Hsome : dag_parents B ≠ [].
Hypothesis Hnodup : NoDup (dag_parents B).
Hypothesis Hwork : 0 < CalcWork (hd_bits header).
Hypothesis Hanti : ∀ a b, a ∈ dag_parents B → b ∈ dag_parents B → a ≠ b → snd (dtm_IsAncestorOf a b dtm) = Ret false.

Lemma insert_relations dtm2 : SetParents B (dag_parents B) dtm = (dtm2, Ret ()) →
  (∀ p, p ∈ dag_parents B → p ∈ nodes dtm) ∧
  ∃ R', dtm2 = with_relations R' dtm ∧ relations_ok R' ∧ dom R' = {[B]} ∪ nodes dtm ∧
    ∀ x, x = B ∨ x ∈ nodes dtm → br_Parents <$> R' !! x = Some (dag_parents x).
Proof using Hok HB.
  intros Hrun. assert (∀ p, p ∈ dag_parents B → p ∈ nodes dtm) as Hknown.
  { intros p Hp. rewrite <- (ok_dom_relations _ _ Hok). unfold SetParents in Hrun.
    erewrite bind_ret_l in Hrun by reflexivity. simpl in Hrun. rewrite bool_decide_eq_false_2 in Hrun.
    - rewrite bind_ret in Hrun. apply bind_ret_inv in Hrun as (d1 & [] & Hl & _). by eapply linkParents_known.
    - rewrite <- elem_of_dom, (ok_dom_relations _ _ Hok). done. }
  split; [done|].
  destruct (SetParents_spec dtm B (dag_parents B) (ok_relations _ _ Hok)) as (R' & Hrun' & Hrel & HRB & Hdom & Hothers).
  - intros rb Hb. apply elem_of_dom_2 in Hb. rewrite (ok_dom_relations _ _ Hok) in Hb. done.
  - intros p Hp. rewrite (ok_dom_relations _ _ Hok). split; [auto|]. intros ->. auto.
  - rewrite Hrun' in Hrun. injection Hrun as <-. exists R'. rewrite (ok_dom_relations _ _ Hok) in Hdom. split_and!; [done|done|done|].
    intros x [->|Hx]; [by rewrite HRB|]. pose proof (ok_parents _ _ Hok x Hx) as Hpx.
    destruct (dt_blockRelationStore dtm !! x) as [r|] eqn:Hr; [|done].
    destruct (Hothers x r) as (r' & -> & Hp' & _); [by intros ->|done|]. simpl in *. by rewrite Hp'.
Qed.

Lemma insert_antichain : (∀ p, p ∈ dag_parents B → p ∈ nodes dtm) →
  ∀ p q, p ∈ dag_parents B → q ∈ dag_parents B → p ≠ q → ¬ dag_anc dag_parents p q.
Proof using Hok Hanti.
  intros Hknown p q Hp Hq Hne Hanc. specialize (Hanti p q Hp Hq Hne).
  destruct (ancestor_ok (TopologyOk := as_interface_ok dtm dag_parents root (ok_reach _ _ Hok) (ok_parents _ _ Hok)) p q
    (Hknown p Hp) (Hknown q Hq)) as (ans & Hrun & Hans).
  simpl in Hrun. rewrite Hanti in Hrun. injection Hrun as <-. by apply Hans in Hanc.
Qed.

Lemma insert_ghostdag R' : (∀ p, p ∈ dag_parents B → p ∈ nodes dtm) →
  (∀ x, x = B ∨ x ∈ nodes dtm → br_Parents <$> R' !! x = Some (dag_parents x)) →
  ∃ p g, @GHOSTDAG (as_interface (with_relations R' dtm)) k (<[B := header]> headers) B (ghostdagDataStore (rt dtm))
           = (<[B := g]> (ghostdagDataStore (rt dtm)), Ret ()) ∧
    block_ok dag_parents k (ghostdagDataStore (rt dtm)) B p g ∧
    ghostdag_ok dag_parents k (<[B := g]> (ghostdagDataStore (rt dtm))) root.
Proof using All.
  intros Hknown HR. set (G := ghostdagDataStore (rt dtm)). pose proof (ok_dom_ghostdag _ _ Hok) as HG. fold G in HG.
  assert (@TopologyOk (as_interface (with_relations R' dtm)) dag_parents (dom G)) as Htop.
  { rewrite HG. apply (as_interface_ok (with_relations R' dtm) dag_parents root); [apply (ok_reach _ _ Hok)|]. intros x Hx. apply HR. by right. }
  assert (headers_ok G (<[B := header]> headers)) as Hh.
  { intros x Hx. rewrite lookup_insert_ne; [by apply (ok_headers _ _ Hok)|]. intros ->. apply HB. by rewrite <- HG. }
  destruct (ghostdagOf_spec (H := as_interface (with_relations R' dtm)) dag_parents k G root B (<[B := header]> headers)
    (ok_ghostdag _ _ Hok) Hk Hh) as (p & g & Hrun & Hblock & Hcl & _).
  - by rewrite HG.
  - simpl. unfold dtm_Parents, BlockRelation, bind, get. simpl. specialize (HR B (or_introl eq_refl)).
    destruct (R' !! B) as [r|]; [|done]. simpl in *. congruence.
  - done.
  - intros q Hq. rewrite HG. auto.
  - done.
  - by apply insert_antichain.
  - exists p, g. split_and!; [|done|].
    + unfold GHOSTDAG. erewrite bind_ret_l by reflexivity. unfold lift_outcome. by rewrite Hrun.
    + eapply (ghostdag_extend dag_parents k G root B (ok_ghostdag _ _ Hok)); [by rewrite HG| |exact Hblock|exact Hcl].
      intros q Hq. rewrite HG. auto.
Qed.

(** The state after [SetParents] and [GHOSTDAG]. *)
Definition with_ghostdag (G : gmap (list Z) BlockGHOSTDAGData) (m : reachabilityManager) : reachabilityManager :=
  {| reachabilityDataStore := reachabilityDataStore m; reachabilityReindexRoot := reachabilityReindexRoot m;
     ghostdagDataStore := G; reindexSlack := reindexSlack m; reindexWindow := reindexWindow m |}.

Lemma insert_reachability `{FloatConversionOk} p g rr R' : (∀ p, p ∈ dag_parents B → p ∈ nodes dtm) →
  block_ok dag_parents k (ghostdagDataStore (rt dtm)) B p g →
  ghostdag_ok dag_parents k (<[B := g]> (ghostdagDataStore (rt dtm))) root →
  relations_ok R' → dom R' = {[B]} ∪ nodes dtm → (∀ x, x = B ∨ x ∈ nodes dtm → br_Parents <$> R' !! x = Some (dag_parents x)) →
  reachabilityReindexRoot (rt dtm) = Some rr → has_room (reachabilityDataStore (rt dtm)) p rr →
  ∃ rt', AddBlock B (with_ghostdag (<[B := g]> (ghostdagDataStore (rt dtm))) (rt dtm)) = (rt', Ret ()) ∧
    dag_ok {| dt_reachabilityManager := rt'; dt_blockRelationStore := R' |} (<[B := header]> headers) ∧
    dom (reachabilityDataStore rt') = {[B]} ∪ nodes dtm.
Proof using All.
  intros Hknown Hblock HG Hrel HdomR HR Hrr Hroom. set (G := ghostdagDataStore (rt dtm)) in *.
  set (rt3 := with_ghostdag (<[B := g]> G) (rt dtm)).
  assert (reach_ok dag_parents rt3 root) as Hreach by (destruct (ok_reach _ _ Hok); by split).
  assert (merges dag_parents rt3 B p g) as Hm.
  { split; [by apply lookup_insert_eq|apply (bo_selected _ _ _ _ _ _ Hblock)|apply (bo_parent _ _ _ _ _ _ Hblock)|].
    apply (bo_merged _ _ _ _ _ _ Hblock). }
  destruct (AddBlock_spec dag_parents rt3 root B p rr g Hreach Hm HB Hknown Hrr Hroom) as (rt' & Hrun & Hreach' & Hdom & HG' & Hrr').
  assert (dom (reachabilityDataStore rt') = {[B]} ∪ nodes dtm) as Hdom'.
  { apply set_eq. intros x. rewrite Hdom, elem_of_union, elem_of_singleton. done. }
  exists rt'. split; [done|]. split; [|done]. split; cbn [dt_reachabilityManager dt_blockRelationStore]; rewrite ?HG', ?Hdom'; try done.
  - intros x. rewrite elem_of_union, elem_of_singleton. apply HR.
  - change (ghostdagDataStore rt3) with (<[B := g]> G). rewrite dom_insert_L. f_equal. apply (ok_dom_ghostdag _ _ Hok).
  - change (ghostdagDataStore rt3) with (<[B := g]> G). intros x. rewrite dom_insert_L, elem_of_union, elem_of_singleton.
    intros [->|Hx]; [exists header; by rewrite lookup_insert_eq|]. rewrite lookup_insert_ne; [by apply (ok_headers _ _ Hok)|].
    intros ->. apply HB. by rewrite <- (ok_dom_ghostdag _ _ Hok).
Qed.
End Insert.
End Dag.

(** The part of [validateHeader] before the in-context checks. *)
Lemma validateBeforeContext_inv `{Hashes} v now header s s1 validated :
  cs_statuses s !! HeaderHash header = None → validateBeforeContext v now header s = (s1, Ret validated) →
  validated = false ∧ ∃ s0, s0 = put_headers (<[HeaderHash header := header]> (cs_headers s)) s ∧
    ValidateHeaderInIsolation v now (HeaderHash header) s0 = (s0, Ret ()) ∧
    ValidatePruningPointViolationAndProofOfWorkAndDifficulty v (HeaderHash header) s0 = (s1, Ret ()).
Proof.
  intros Hstatus Hrun. unfold validateBeforeContext in Hrun. cbv zeta in Hrun. set (B := HeaderHash header) in *.
  assert (checkBlockStatus B s = (s, Ret ())) as H1 by (unfold checkBlockStatus, bind, get; by rewrite Hstatus).
  assert (hasValidatedHeader B s = (s, Ret false)) as H2 by (unfold hasValidatedHeader, bind, get; by rewrite Hstatus).
  rewrite (bind_ret_l _ _ _ _ _ H1), (bind_ret_l _ _ _ _ _ H2) in Hrun. cbn iota in Hrun.
  erewrite bind_ret_l in Hrun by reflexivity.
  apply bind_reads_inv in Hrun as ([] & Hiso & Hrun); [|apply isolation_reads].
  apply bind_ret_inv in Hrun as (s2 & [] & Hpow & [= <- <-]). split; [done|]. eexists. split; [done|]. by split.
Qed.

Lemma powStage_inv `{Hashes} v B header s0 s1 : cs_headers s0 !! B = Some header → bv_powMax v < 2 ^ 256 →
  ValidatePruningPointViolationAndProofOfWorkAndDifficulty v B s0 = (s1, Ret ()) →
  0 < CalcWork (hd_bits header) ∧
  (∀ a b, a ∈ hd_parentHashes header → b ∈ hd_parentHashes header → a ≠ b → snd (dtm_IsAncestorOf a b (dtm_of s0)) = Ret false) ∧
  ∃ t G' daa', SetParents B (hd_parentHashes header) (dtm_of s0) = (t, Ret ()) ∧
    @GHOSTDAG (as_interface t) (bv_k v) (cs_headers s0) B (ghostdagDataStore (dt_reachabilityManager t)) = (G', Ret ()) ∧
    s1 = put_daa daa' (put_ghostdag G' (put_dtm t s0)).
Proof.
  intros Hh Hmax Hrun. unfold ValidatePruningPointViolationAndProofOfWorkAndDifficulty in Hrun.
  apply bind_reads_inv in Hrun as (h & Hget & Hrun); [|apply reading_reads].
  unfold BlockHeaderOf, reading, Get in Hget. rewrite Hh in Hget. injection Hget as <-.
  apply bind_reads_inv in Hrun as ([] & _ & Hrun); [|apply checkParentHeadersExist_reads].
  apply bind_reads_inv in Hrun as ([] & Hinc & Hrun); [|apply incestLoop_reads].
  apply bind_reads_inv in Hrun as ([] & _ & Hrun); [|apply checkPruningPointViolation_reads].
  apply bind_reads_inv in Hrun as ([] & Hpow & Hrun); [|apply checkProofOfWork_reads].
  apply bind_ret_inv in Hrun as (s2 & [] & Hset & Hrun). apply run_on_inv in Hset as (t & Hset & ->).
  split; [by eapply checkProofOfWork_target|]. split; [by eapply incestLoop_inv|]. exists t. unfold validateDifficulty in Hrun.
  erewrite bind_ret_l in Hrun by reflexivity.
  apply bind_ret_inv in Hrun as (s3 & [] & Hg & Hrun). apply run_on_inv in Hg as (G' & Hg & ->).
  erewrite bind_ret_l in Hrun by reflexivity.
  apply bind_ret_inv in Hrun as (s4 & bits & Hd & Hrun). apply run_on_inv in Hd as (daa' & _ & ->).
  apply bind_reads_inv in Hrun as (h & _ & Hrun); [|apply reading_reads].
  destruct (negb _); [done|]. injection Hrun as <-. exists G', daa'. by split_and!.
Qed.

Lemma contextStage_inv `{Hashes} `{FloatConversion} v B s1 s2 :
  reachabilityDataStore (rt_of s1) !! B = None → ValidateHeaderInContext v B s1 = (s2, Ret ()) →
  ∃ rt', AddBlock B (rt_of s1) = (rt', Ret ()) ∧ rt_of s2 = rt' ∧
    dt_blockRelationStore (dtm_of s2) = dt_blockRelationStore (dtm_of s1) ∧ cs_headers s2 = cs_headers s1 ∧ cs_statuses s2 = cs_statuses s1.
Proof.
  intros Hnone Hrun. unfold ValidateHeaderInContext in Hrun.
  apply bind_reads_inv in Hrun as (h & _ & Hrun); [|apply reading_reads].
  apply bind_reads_inv in Hrun as ([] & _ & Hrun); [|apply validateMedianTime_reads].
  apply bind_reads_inv in Hrun as ([] & _ & Hrun); [|apply checkMergeSizeLimit_reads].
  erewrite bind_ret_l in Hrun by reflexivity.
  rewrite bool_decide_eq_false_2 in Hrun by (rewrite Hnone; by intros [? ?]).
  apply bind_ret_inv in Hrun as (s3 & [] & Hadd & Hrun). apply run_on_inv in Hadd as (rt' & Hadd & ->).
  apply bind_ret_inv in Hrun as (s4 & bounded & Hfin & Hrun). apply run_on_inv in Hfin as (fm & Hfin & ->).
  destruct (negb bounded); [done|]. injection Hrun as <-. exists rt'. split; [done|].
  pose proof (CheckBoundedMergeDepth_preserves B (cs_finality (put_rt rt' s1))) as Hp. rewrite Hfin in Hp. simpl in Hp.
  unfold rt_of, dtm_of. simpl. by rewrite Hp.
Qed.

(** Only the genesis block may have no parents. *)
Lemma isolation_parents `{Hashes} v now header s s' : cs_headers s !! HeaderHash header = Some header →
  HeaderHash header ≠ bv_genesisHash v → ValidateHeaderInIsolation v now (HeaderHash header) s = (s', Ret ()) → hd_parentHashes header ≠ [].
Proof.
  intros Hh Hne Hiso E. unfold ValidateHeaderInIsolation in Hiso.
  apply bind_reads_inv in Hiso as (h & Hget & Hiso); [|apply reading_reads].
  unfold BlockHeaderOf, reading, Get in Hget. rewrite Hh in Hget. injection Hget as <-.
  apply bind_ret_inv in Hiso as (? & [] & _ & Hiso). apply bind_ret_inv in Hiso as (sx & [] & _ & Hiso).
  unfold checkParentsLimit in Hiso. rewrite E in Hiso. cbv zeta in Hiso. by rewrite bool_decide_eq_false_2 in Hiso.
Qed.

(** From end to end. *)
Lemma validateHeader_spec `{Hashes} `{FloatConversionOk} (dag_parents : list Z → list (list Z)) (v : blockValidator)
    (now : Z) (header : BlockHeader) (s s' : consensus) (rr : list Z) (answer : outcome headerError unit) :
  let B := HeaderHash header in
  let d := reachabilityDataStore (rt_of s) in
  dag_ok dag_parents (bv_k v) (bv_genesisHash v) (dtm_of s) (cs_headers s) →
  0 ≤ bv_k v < 255 → bv_powMax v < 2 ^ 256 →
  cs_statuses s !! B = None → B ∉ dom d → hd_parentHashes header = dag_parents B → NoDup (dag_parents B) →
  reachabilityReindexRoot (rt_of s) = Some rr → (∀ p, p ∈ dag_parents B → has_room d p rr) →
  validateHeader v now header s = (s', answer) →
  match answer with
  | Ret _ => dag_ok dag_parents (bv_k v) (bv_genesisHash v) (dtm_of s') (cs_headers s') ∧
             dom (reachabilityDataStore (rt_of s')) = {[B]} ∪ dom d ∧ cs_statuses s' !! B = Some StatusHeaderOnly ∧
             (∀ p, p ∈ dag_parents B → p ∈ dom d)
  | _ => s' = s ∨ s' = put_statuses (<[B := StatusInvalid]> (cs_statuses s)) s
  end.
Proof.
  intros B d Hok Hk Hmax Hstatus HB Hpar Hnd Hrr Hroom Hrun. unfold validateHeader in Hrun. cbv zeta in Hrun. fold B in Hrun.
  destruct (validateBeforeContext v now header s) as [s1 [validated|e|c]] eqn:Hpre; [|injection Hrun as <- <-; by left..].
  destruct (validateBeforeContext_inv v now header s s1 validated Hstatus Hpre) as (-> & s0 & Hs0 & Hiso & Hpow). fold B in Hpow, Hs0, Hiso.
  destruct (ValidateHeaderInContext v B s1) as [s2 [[]|e|c]] eqn:Hctx;
    [|injection Hrun as <- <-; destruct (marksInvalid e); [by right|by left]|injection Hrun as <- <-; by left].
  destruct (setBlockStatusAfterBlockValidation B s2) as [s3 [[]|e|c]] eqn:Hst; [|injection Hrun as <- <-; by left..].
  injection Hrun as <- <-.
  assert (cs_headers s0 !! B = Some header) as Hh by (rewrite Hs0; by apply lookup_insert_eq).
  destruct (powStage_inv v B header s0 s1 Hh Hmax Hpow) as (Hwork & Hanti & t & G' & daa' & Hset & Hghost & Hs1).
  assert (dtm_of s0 = dtm_of s) as Hdtm by (by rewrite Hs0). rewrite Hdtm, Hpar in *.
  assert (dag_parents B ≠ []) as Hsome.
  { rewrite <- Hpar. apply (isolation_parents v now header s0 s0 Hh); [|done]. fold B. intros Hg. apply HB. rewrite Hg. unfold d, rt_of.
    rewrite <- (ok_dom_ghostdag _ _ _ _ _ Hok). apply (gd_root _ _ _ _ (ok_ghostdag _ _ _ _ _ Hok)). }
  destruct (insert_relations dag_parents (bv_k v) (bv_genesisHash v) (dtm_of s) (cs_headers s) B Hok HB t Hset)
    as (Hknown & R' & -> & Hrel & HdomR & HR).
  destruct (insert_ghostdag dag_parents (bv_k v) (bv_genesisHash v) (dtm_of s) (cs_headers s) B header Hok Hk HB Hpar Hsome Hnd Hwork Hanti R' Hknown HR)
    as (p & g & Hghost' & Hblock & HG).
  assert (cs_headers s0 = <[B := header]> (cs_headers s)) as Hheaders by (by rewrite Hs0). rewrite Hheaders in Hghost.
  assert (G' = <[B := g]> (ghostdagDataStore (dt_reachabilityManager (dtm_of s)))) as -> by (simpl in Hghost; congruence).
  destruct (insert_reachability dag_parents (bv_k v) (bv_genesisHash v) (dtm_of s) (cs_headers s) B header Hok Hk HB Hpar Hsome Hnd Hwork Hanti
    p g rr R' Hknown Hblock HG Hrel HdomR HR Hrr (Hroom p (bo_parent _ _ _ _ _ _ Hblock))) as (rt' & Hadd & Hfinal & Hdom).
  destruct (contextStage_inv v B s1 s2) as (rt2 & Hadd2 & Hrt & HR2 & Hh2 & _); [|done|].
  { rewrite Hs1. apply not_elem_of_dom. simpl. exact HB. }
  assert (rt2 = rt') as -> by (rewrite Hs1 in Hadd2; change (AddBlock B (with_ghostdag (<[B := g]> (ghostdagDataStore (rt_of s))) (rt_of s)) = (rt2, Ret ())) in Hadd2; unfold rt_of in Hadd2; congruence).
  unfold setBlockStatusAfterBlockValidation, bind, get in Hst. destruct (bool_decide _); [done|]. injection Hst as <-.
  assert (dtm_of s2 = {| dt_reachabilityManager := rt'; dt_blockRelationStore := R' |}) as Hd2.
  { destruct (dtm_of s2) as [r2 rel2] eqn:E2. unfold rt_of in Hrt. rewrite E2 in Hrt. simpl in Hrt, HR2. rewrite Hs1 in HR2. simpl in HR2. by subst. }
  assert (cs_headers s2 = <[B := header]> (cs_headers s)) as Hh2' by (rewrite Hh2, Hs1; simpl; exact Hheaders).
  change (dtm_of (put_statuses _ s2)) with (dtm_of s2). unfold rt_of. change (dtm_of (put_statuses _ s2)) with (dtm_of s2).
  rewrite Hd2. simpl. rewrite Hh2'. split_and!; [done|done|by apply lookup_insert_eq|done].
Qed.

Module HeaderSafetyProps.

(** A header on the genesis block. *)
Definition sample_child : BlockHeader :=
  {| hd_version := 0; hd_parentHashes := [[0]]; hd_hashMerkleRoot := []; hd_acceptedIDMerkleRoot := []; hd_utxoCommitment := [];
     hd_timeInMilliseconds := 5; hd_bits := 0x207fffff; hd_nonce := 7 |}.
Definition sample_child_hash : list Z := @HeaderHash toy_hashes sample_child.
Definition sample_tree (x : list Z) : list (list Z) := if decide (x = sample_child_hash) then [[0]] else [].

Definition sample_rt : reachabilityManager :=
  fst (@AddBlock IntervalProps.toy_conversion [0]
    {| reachabilityDataStore := ∅; reachabilityReindexRoot := None; ghostdagDataStore := {[ [0] := emptyData ]};
       reindexSlack := defaultReindexSlack; reindexWindow := defaultReindexWindow |}).
Definition sample_dtm : dagTopologyManager :=
  {| dt_reachabilityManager := sample_rt; dt_blockRelationStore := {[ [0] := {| br_Parents := []; br_Children := [] |} ]} |}.
Definition sample_state : consensus :=
  {| cs_finality := {| fm_topology := sample_dtm; fm_finalityStore := ∅; fm_genesisHash := [0]; fm_finalityDepth := 86400 |};
     cs_headers := {[ [0] := GhostdagProps.sample_header ]};
     cs_daa := {| daa_scores := {[ [0] := 0 ]}; daa_addedBlocks := ∅ |}; cs_statuses := ∅; cs_pruningPoint := Some [0] |}.
Definition sample_validator : blockValidator :=
  {| bv_powMax := 2 ^ 255 - 1; bv_skipPoW := true; bv_genesisHash := [0]; bv_mergeSetSizeLimit := 180; bv_maxBlockParents := 10;
     bv_timestampDeviationTolerance := 132; bv_targetTimePerBlock := 1000; bv_k := 18;
     bv_difficultyManager := {| dm_genesisHash := [0]; dm_powMax := 2 ^ 255 - 1; dm_difficultyAdjustmentWindowSize := 2641;
                                dm_disableDifficultyAdjustment := true; dm_targetTimePerBlock := 1000 |};
     bv_pastMedianTimeManager := {| pm_timestampDeviationTolerance := 132; pm_genesisHash := [0] |} |}.

Lemma sample_dag_ok : dag_ok sample_tree 18 [0] sample_dtm (cs_headers sample_state) ∧
  reachabilityReindexRoot sample_rt = Some [0] ∧ dom (reachabilityDataStore sample_rt) = {[ [0] ]}.
Proof.
  destruct (@AddBlock_genesis IntervalProps.toy_conversion sample_tree
    {| reachabilityDataStore := ∅; reachabilityReindexRoot := None; ghostdagDataStore := {[ [0] := emptyData ]};
       reindexSlack := defaultReindexSlack; reindexWindow := defaultReindexWindow |} [0] emptyData) as (rt' & Hrun & Hreach & Hdom & HG & Hrr); try done.
  assert (sample_rt = rt') as E by (unfold sample_rt; by rewrite Hrun). rewrite E. split; [|done].
  assert (∀ x, x ∈ ({[ [0] ]} : gset (list Z)) → x = [0]) as H0 by (intros x; by rewrite elem_of_singleton).
  assert (dt_reachabilityManager sample_dtm = rt') as Ed by exact E.
  split; rewrite ?Ed, ?HG, ?Hdom; cbn [ghostdagDataStore].
  - done.
  - by apply genesis_ok.
  - intros x rx Hx. simpl in Hx. apply lookup_singleton_Some in Hx as [<- <-]. simpl. split_and!; [apply NoDup_nil_2|by intros ? ?%elem_of_nil..].
  - by intros x ->%H0.
  - by rewrite dom_singleton_L.
  - simpl. by rewrite dom_singleton_L.
  - intros x Hx. rewrite dom_singleton_L in Hx. apply H0 in Hx as ->. exists GhostdagProps.sample_header. split; vm_compute; reflexivity.
Qed.

Definition sample_run : consensus * outcome headerError unit :=
  @validateHeader toy_hashes IntervalProps.toy_conversion sample_validator 1000 sample_child sample_state.

Lemma sample_run_ok : dag_ok sample_tree 18 [0] (dtm_of (fst sample_run)) (cs_headers (fst sample_run)) ∧
  dom (reachabilityDataStore (rt_of (fst sample_run))) = {[sample_child_hash; [0]]}.
Proof.
  assert (snd sample_run = Ret ()) as Hret by (vm_compute; reflexivity). destruct sample_dag_ok as (Hok & Hrr & Hdom).
  destruct (@validateHeader_spec toy_hashes IntervalProps.toy_conversion IntervalProps.toy_conversion_ok sample_tree sample_validator 1000 sample_child sample_state
    (fst sample_run) [0] (Ret ())) as (Hok' & Hdom' & _).
  - exact Hok.
  - simpl. lia.
  - reflexivity.
  - apply lookup_empty.
  - change (sample_child_hash ∉ dom (reachabilityDataStore sample_rt)). rewrite Hdom, elem_of_singleton. vm_compute. discriminate.
  - vm_compute. reflexivity.
  - vm_compute. apply NoDup_singleton.
  - exact Hrr.
  - intros p Hp. left. vm_compute in Hp. apply list_elem_of_singleton in Hp as ->. vm_compute. reflexivity.
  - rewrite <- Hret. unfold sample_run. apply surjective_pairing.
  - split; [done|]. rewrite Hdom'. change (rt_of sample_state) with sample_rt. by rewrite Hdom.
Qed.

End HeaderSafetyProps.
