(* ===== verification/TransactionValidator.v ===== *)
(** * Transaction validation (processes/transactionvalidator)

    The checks of a transaction on its own and against the entries it spends, with
    its fee and mass.  The validator's state is the transaction, whose [Fee] and [Mass]
    it writes, and its two signature caches; the stores it reads are those of
    [consensus].  The reused signature hashes live as long as one call. *)
From S2P Require Import Prelude Externalapi ScriptNum ScriptStack OpcodeTable Script Hashing SigCache Opcode Engine.
From S2P Require Import Interval ReachabilityData Reachability DagTopology Block Ghostdag Window DifficultyManager Traversal HeaderValidation.
Import Script SigHash SigCache Opcode Exec Ghostdag PastMedianTime HeaderValidation.
Local Open Scope Z_scope.
Local Open Scope prog_scope.

Abbreviation hash := (list Z) (only parsing).

(** ** Constants *)
Definition MaxTransactionVersion : Z := 0.
Definition SompiPerKaspa : Z := 100000000.
Definition MaxSompi : Z := 21000000 * SompiPerKaspa.
Definition SequenceLockTimeGranularity : Z := 19.
Definition SubnetworkIDRegistry : DomainSubnetworkID := 2 :: replicate 19 0.
Definition DomainHashSize : Z := 32.
Definition DomainSubnetworkIDSize : Z := 20.

Definition IsBuiltIn (id : DomainSubnetworkID) : bool :=
  bool_decide (id = SubnetworkIDCoinbase) || bool_decide (id = SubnetworkIDRegistry).
Definition IsBuiltInOrNative (id : DomainSubnetworkID) : bool :=
  bool_decide (id = SubnetworkIDNative) || IsBuiltIn id.

Inductive txRuleError :=
  | ErrNoTxInputs
  | ErrBadTxOutValue
  | ErrDuplicateTxInputs
  | ErrBadCoinbasePayloadLen
  | ErrInvalidGas
  | ErrSubnetworkRegistry
  | ErrInvalidPayload
  | ErrSubnetworksDisabled
  | ErrTransactionVersionIsUnknown
  | ErrImmatureSpend
  | ErrMissingTxOut (missingOutpoints : list DomainOutpoint)
  | ErrSpendTooHigh
  | ErrUnfinalizedTx
  | ErrScriptMalformed
  | ErrScriptValidation.

Inductive txError :=
  | TxRule (e : txRuleError)
  | TxStore (e : ghostdagError)
  | TxMedian (e : medianError).

Record transactionValidator := {
  tv_blockCoinbaseMaturity : Z;
  tv_enableNonNativeSubnetworks : bool;
  tv_massPerTxByte : Z;
  tv_massPerScriptPubKeyByte : Z;
  tv_massPerSigOp : Z;
  tv_maxCoinbasePayloadLength : Z;
  tv_pastMedianTimeManager : pastMedianTimeManager
}.

Record sequenceLock := { Milliseconds : Z; BlockDAAScore : Z }.

Definition set_Fee (fee : Z) (tx : DomainTransaction) : DomainTransaction :=
  {| tx_Version := tx_Version tx; tx_Inputs := tx_Inputs tx; tx_Outputs := tx_Outputs tx; tx_LockTime := tx_LockTime tx;
     tx_SubnetworkID := tx_SubnetworkID tx; tx_Gas := tx_Gas tx; tx_Payload := tx_Payload tx; tx_Fee := fee;
     tx_Mass := tx_Mass tx; tx_ID := tx_ID tx |}.
Definition set_Mass (mass : Z) (tx : DomainTransaction) : DomainTransaction :=
  {| tx_Version := tx_Version tx; tx_Inputs := tx_Inputs tx; tx_Outputs := tx_Outputs tx; tx_LockTime := tx_LockTime tx;
     tx_SubnetworkID := tx_SubnetworkID tx; tx_Gas := tx_Gas tx; tx_Payload := tx_Payload tx; tx_Fee := tx_Fee tx;
     tx_Mass := mass; tx_ID := tx_ID tx |}.

Module TransactionValidator.
Abbreviation result A := (outcome txError A) (only parsing).

Definition ruleError {A} (e : txRuleError) : result A := Fail (TxRule e).
Definition fromStore {A} (o : outcome ghostdagError A) : result A :=
  match o with Ret a => Ret a | Fail e => Fail (TxStore e) | Crash c => Crash c end.
Definition fromMedian {A} (o : outcome medianError A) : result A :=
  match o with Ret a => Ret a | Fail e => Fail (TxMedian e) | Crash c => Crash c end.

(** [if len(missingOutpoints) > 0] *)
Definition orMissing {A} (missingOutpoints : list DomainOutpoint) (a : A) : result A :=
  match missingOutpoints with
  | [] => Ret a
  | _ => ruleError (ErrMissingTxOut missingOutpoints)
  end.

(** ** Estimated sizes (utils/estimatedsize) *)
Definition outpointEstimatedSerializedSize : Z := DomainHashSize + 4.
Definition transactionInputEstimatedSerializedSize (input : DomainTransactionInput) : Z :=
  GoInt.uint64 (outpointEstimatedSerializedSize + 8 + zlen (in_SignatureScript input) + 8).
Definition TransactionOutputEstimatedSerializedSize (output : DomainTransactionOutput) : Z :=
  GoInt.uint64 (8 + 2 + 8 + zlen (spk_Script (out_ScriptPublicKey output))).

Definition TransactionEstimatedSerializedSize (tx : DomainTransaction) : Z :=
  if IsCoinBase tx then 0
  else
    let size := 2 + 8 in
    let size := fold_left (λ size input, GoInt.uint64 (size + transactionInputEstimatedSerializedSize input)) (tx_Inputs tx) size in
    let size := GoInt.uint64 (size + 8) in
    let size := fold_left (λ size output, GoInt.uint64 (size + TransactionOutputEstimatedSerializedSize output)) (tx_Outputs tx) size in
    GoInt.uint64 (size + 8 + DomainSubnetworkIDSize + 8 + DomainHashSize + 8 + zlen (tx_Payload tx)).

Section Validator.
Context `{Libs}.
Variable v : transactionValidator.

(** ** In isolation (transaction_in_isolation.go) *)
Definition checkTransactionInputCount (tx : DomainTransaction) : result unit :=
  if negb (IsCoinBase tx) && (zlen (tx_Inputs tx) =? 0) then ruleError ErrNoTxInputs else Ret ().

Fixpoint amountRangesLoop (outputs : list DomainTransactionOutput) (totalSompi : Z) : result unit :=
  match outputs with
  | [] => Ret ()
  | txOut :: rest =>
      let sompi := out_Value txOut in
      if MaxSompi <? sompi then ruleError ErrBadTxOutValue
      else
        let newTotalSompi := GoInt.uint64 (totalSompi + sompi) in
        if newTotalSompi <? totalSompi then ruleError ErrBadTxOutValue
        else if MaxSompi <? newTotalSompi then ruleError ErrBadTxOutValue
        else amountRangesLoop rest newTotalSompi
  end.
Definition checkTransactionAmountRanges (tx : DomainTransaction) : result unit := amountRangesLoop (tx_Outputs tx) 0.

Fixpoint duplicatesLoop (inputs : list DomainTransactionInput) (existingTxOut : gset DomainOutpoint) : result unit :=
  match inputs with
  | [] => Ret ()
  | txIn :: rest =>
      if bool_decide (in_PreviousOutpoint txIn ∈ existingTxOut) then ruleError ErrDuplicateTxInputs
      else duplicatesLoop rest ({[in_PreviousOutpoint txIn]} ∪ existingTxOut)
  end.
Definition checkDuplicateTransactionInputs (tx : DomainTransaction) : result unit := duplicatesLoop (tx_Inputs tx) ∅.

Definition checkCoinbaseLength (tx : DomainTransaction) : result unit :=
  if negb (IsCoinBase tx) then Ret ()
  else if tv_maxCoinbasePayloadLength v <? zlen (tx_Payload tx) then ruleError ErrBadCoinbasePayloadLen else Ret ().

Definition checkGasInBuiltInOrNativeTransactions (tx : DomainTransaction) : result unit :=
  if IsBuiltInOrNative (tx_SubnetworkID tx) && (0 <? tx_Gas tx) then ruleError ErrInvalidGas else Ret ().

Definition checkSubnetworkRegistryTransaction (tx : DomainTransaction) : result unit :=
  if negb (bool_decide (tx_SubnetworkID tx = SubnetworkIDRegistry)) then Ret ()
  else if negb (zlen (tx_Payload tx) =? 8) then ruleError ErrSubnetworkRegistry else Ret ().

Definition checkNativeTransactionPayload (tx : DomainTransaction) : result unit :=
  if bool_decide (tx_SubnetworkID tx = SubnetworkIDNative) && (0 <? zlen (tx_Payload tx)) then ruleError ErrInvalidPayload else Ret ().

(** The local subnetwork is nil on a full node. *)
Definition checkTransactionSubnetwork (tx : DomainTransaction) (localNodeSubnetworkID : option DomainSubnetworkID) : result unit :=
  if negb (tv_enableNonNativeSubnetworks v) && negb (bool_decide (tx_SubnetworkID tx = SubnetworkIDNative)) &&
     negb (bool_decide (tx_SubnetworkID tx = SubnetworkIDCoinbase))
  then ruleError ErrSubnetworksDisabled
  else
    let isLocalNodeFull := bool_decide (localNodeSubnetworkID = None) in
    let shouldTxBeFull := IsBuiltIn (tx_SubnetworkID tx) || bool_decide (Some (tx_SubnetworkID tx) = localNodeSubnetworkID) in
    if negb isLocalNodeFull && negb shouldTxBeFull && (0 <? zlen (tx_Payload tx)) then ruleError ErrInvalidPayload else Ret ().

Definition ValidateTransactionInIsolation (tx : DomainTransaction) : result unit :=
  let? _ := checkTransactionInputCount tx in
  let? _ := checkTransactionAmountRanges tx in
  let? _ := checkDuplicateTransactionInputs tx in
  let? _ := checkCoinbaseLength tx in
  let? _ := checkGasInBuiltInOrNativeTransactions tx in
  let? _ := checkSubnetworkRegistryTransaction tx in
  let? _ := checkNativeTransactionPayload tx in
  let? _ := checkTransactionSubnetwork tx None in
  if MaxTransactionVersion <? tx_Version tx then ruleError ErrTransactionVersionIsUnknown else Ret ().

(** ** Mass (mass.go) *)
Definition transactionMassStandalonePart (tx : DomainTransaction) : Z :=
  let size := TransactionEstimatedSerializedSize tx in
  let totalScriptPubKeySize := fold_left (λ total output,
    GoInt.uint64 (GoInt.uint64 (total + 2) + zlen (spk_Script (out_ScriptPublicKey output)))) (tx_Outputs tx) 0 in
  GoInt.uint64 (size * tv_massPerTxByte v + totalScriptPubKeySize * tv_massPerScriptPubKeyByte v).

Fixpoint sigOpsLoop (inputs : list DomainTransactionInput) (sigOpsCount : Z) (missingOutpoints : list DomainOutpoint) : result Z :=
  match inputs with
  | [] => orMissing missingOutpoints sigOpsCount
  | input :: rest =>
      match in_UTXOEntry input with
      | None => sigOpsLoop rest sigOpsCount (missingOutpoints ++ [in_PreviousOutpoint input])
      | Some utxoEntry =>
          let isP2SH := IsPayToScriptHash (ue_scriptPublicKey utxoEntry) in
          sigOpsLoop rest (GoInt.uint64 (sigOpsCount +
            GoInt.uint64 (GetPreciseSigOpCount (in_SignatureScript input) (ue_scriptPublicKey utxoEntry) isP2SH))) missingOutpoints
      end
  end.

Definition transactionMass (tx : DomainTransaction) : result Z :=
  if IsCoinBase tx then Ret 0
  else
    let standaloneMass := transactionMassStandalonePart tx in
    let? sigOpsCount := sigOpsLoop (tx_Inputs tx) 0 [] in
    Ret (GoInt.uint64 (standaloneMass + sigOpsCount * tv_massPerSigOp v)).

(** ** In context (transaction_in_context.go) *)
Section Context.
Variable cs : consensus.

Definition DAAScore (blockHash : hash) : result Z := fromStore (Get (daa_scores (cs_daa cs)) blockHash).

Fixpoint maturityLoop (povDAAScore : Z) (inputs : list DomainTransactionInput) (missingOutpoints : list DomainOutpoint) : result unit :=
  match inputs with
  | [] => orMissing missingOutpoints ()
  | input :: rest =>
      match in_UTXOEntry input with
      | None => maturityLoop povDAAScore rest (missingOutpoints ++ [in_PreviousOutpoint input])
      | Some utxoEntry =>
          if ue_isCoinbase utxoEntry && (povDAAScore <? GoInt.uint64 (ue_blockDAAScore utxoEntry + tv_blockCoinbaseMaturity v))
          then ruleError ErrImmatureSpend
          else maturityLoop povDAAScore rest missingOutpoints
      end
  end.
Definition checkTransactionCoinbaseMaturity (povBlockHash : hash) (tx : DomainTransaction) : result unit :=
  let? povDAAScore := DAAScore povBlockHash in
  maturityLoop povDAAScore (tx_Inputs tx) [].

Definition checkEntryAmounts (entry : utxoEntry) (totalSompiInBefore : Z) : result Z :=
  let totalSompiInAfter := GoInt.uint64 (totalSompiInBefore + ue_amount entry) in
  if (totalSompiInAfter <? totalSompiInBefore) || (MaxSompi <? totalSompiInAfter) then ruleError ErrBadTxOutValue
  else Ret totalSompiInAfter.

Fixpoint inputAmountsLoop (inputs : list DomainTransactionInput) (totalSompiIn : Z) (missingOutpoints : list DomainOutpoint) : result Z :=
  match inputs with
  | [] => orMissing missingOutpoints totalSompiIn
  | input :: rest =>
      match in_UTXOEntry input with
      | None => inputAmountsLoop rest totalSompiIn (missingOutpoints ++ [in_PreviousOutpoint input])
      | Some utxoEntry =>
          let? totalSompiIn := checkEntryAmounts utxoEntry totalSompiIn in
          inputAmountsLoop rest totalSompiIn missingOutpoints
      end
  end.
Definition checkTransactionInputAmounts (tx : DomainTransaction) : result Z := inputAmountsLoop (tx_Inputs tx) 0 [].

Definition checkTransactionOutputAmounts (tx : DomainTransaction) (totalSompiIn : Z) : result Z :=
  let totalSompiOut := fold_left (λ total output, GoInt.uint64 (total + out_Value output)) (tx_Outputs tx) 0 in
  if totalSompiIn <? totalSompiOut then ruleError ErrSpendTooHigh else Ret totalSompiOut.

(** The last chain block whose DAA score is not above the input's; the fuel allows
    each block of the store once. *)
Fixpoint lockBaseLoop (fuel : nat) (inputDAAScore : Z) (baseHash : hash) (baseGHOSTDAGData : BlockGHOSTDAGData) : result hash :=
  match fuel with
  | O => Crash OutOfFuel
  | Datatypes.S fuel =>
      let? selectedParentDAAScore := DAAScore baseHash in
      if selectedParentDAAScore <=? inputDAAScore then Ret baseHash
      else
        match selectedParent baseGHOSTDAGData with
        | None => Crash NilDereference
        | Some parent =>
            let? selectedParentGHOSTDAGData := fromStore (Get (ghostdag_of cs) parent) in
            lockBaseLoop fuel inputDAAScore parent selectedParentGHOSTDAGData
        end
  end.

Definition lockOfInput (povBlockHash : hash) (sequenceNum inputDAAScore : Z) (lock : sequenceLock) : result sequenceLock :=
  let relativeLock := GoInt.int64 (Z.land sequenceNum SequenceLockTimeMask) in
  if Z.land sequenceNum SequenceLockTimeDisabled =? SequenceLockTimeDisabled then Ret lock
  else if Z.land sequenceNum SequenceLockTimeIsSeconds =? SequenceLockTimeIsSeconds then
    let? baseGHOSTDAGData := fromStore (Get (ghostdag_of cs) povBlockHash) in
    let? baseHash := lockBaseLoop (Datatypes.S (size (ghostdag_of cs))) inputDAAScore povBlockHash baseGHOSTDAGData in
    let? medianTime := fromMedian (PastMedianTime (tv_pastMedianTimeManager v) (ghostdag_of cs) (cs_headers cs) baseHash) in
    let timeLockMilliseconds := GoInt.int64 (Z.shiftl relativeLock SequenceLockTimeGranularity - 1) in
    let timeLock := GoInt.int64 (medianTime + timeLockMilliseconds) in
    Ret (if Milliseconds lock <? timeLock then {| Milliseconds := timeLock; BlockDAAScore := BlockDAAScore lock |} else lock)
  else
    let blockDAAScore := GoInt.int64 (GoInt.int64 inputDAAScore + relativeLock - 1) in
    Ret (if BlockDAAScore lock <? blockDAAScore then {| Milliseconds := Milliseconds lock; BlockDAAScore := blockDAAScore |} else lock).

Fixpoint sequenceLockLoop (povBlockHash : hash) (inputs : list DomainTransactionInput) (lock : sequenceLock)
    (missingOutpoints : list DomainOutpoint) : result sequenceLock :=
  match inputs with
  | [] => orMissing missingOutpoints lock
  | input :: rest =>
      match in_UTXOEntry input with
      | None => sequenceLockLoop povBlockHash rest lock (missingOutpoints ++ [in_PreviousOutpoint input])
      | Some utxoEntry =>
          let? lock := lockOfInput povBlockHash (in_Sequence input) (ue_blockDAAScore utxoEntry) lock in
          sequenceLockLoop povBlockHash rest lock missingOutpoints
      end
  end.

Definition calcTxSequenceLockFromReferencedUTXOEntries (povBlockHash : hash) (tx : DomainTransaction) : result sequenceLock :=
  let lock := {| Milliseconds := -1; BlockDAAScore := -1 |} in
  if IsCoinBase tx then Ret lock else sequenceLockLoop povBlockHash (tx_Inputs tx) lock [].

Definition sequenceLockActive (lock : sequenceLock) (blockDAAScore medianTimePast : Z) : bool :=
  if (medianTimePast <=? Milliseconds lock) || (GoInt.int64 blockDAAScore <=? BlockDAAScore lock) then false else true.

Definition checkTransactionSequenceLock (povBlockHash : hash) (tx : DomainTransaction) (medianTime : Z) : result unit :=
  let? lock := calcTxSequenceLockFromReferencedUTXOEntries povBlockHash tx in
  let? daaScore := DAAScore povBlockHash in
  if negb (sequenceLockActive lock daaScore medianTime) then ruleError ErrUnfinalizedTx else Ret ().

(** *** Scripts *)
Record txState := {
  ts_tx : DomainTransaction;
  ts_sigCache : option (SigCache SchnorrSignature SchnorrPublicKey);
  ts_sigCacheECDSA : option (SigCache ECDSASignature ECDSAPublicKey)
}.
Abbreviation validating A := (prog txState txError A) (only parsing).

Definition put_tx (f : DomainTransaction → DomainTransaction) (s : txState) : txState :=
  {| ts_tx := f (ts_tx s); ts_sigCache := ts_sigCache s; ts_sigCacheECDSA := ts_sigCacheECDSA s |}.
(** The caches are shared by pointer: what the engine added is there afterwards. *)
Definition put_caches (vm : Engine) (s : txState) : txState :=
  {| ts_tx := ts_tx s; ts_sigCache := vm_sigCache vm; ts_sigCacheECDSA := vm_sigCacheECDSA vm |}.

(** An engine of an unknown script version does not get the pointer to the reused values. *)
Definition reusedAfter (vm : Engine) (reused : SighashReusedValues) : SighashReusedValues :=
  default reused (vm_sigHashReusedValues vm).

Fixpoint scriptsLoop (i : Z) (inputs : list DomainTransactionInput) (sighashReusedValues : SighashReusedValues)
    (missingOutpoints : list DomainOutpoint) : validating unit :=
  match inputs with
  | [] => lift_outcome (orMissing missingOutpoints ())
  | input :: rest =>
      match in_UTXOEntry input with
      | None => scriptsLoop (i + 1) rest sighashReusedValues (missingOutpoints ++ [in_PreviousOutpoint input])
      | Some utxoEntry =>
          λ s, match NewEngine (ue_scriptPublicKey utxoEntry) (ts_tx s) i ScriptNoFlags (ts_sigCache s) (ts_sigCacheECDSA s)
                       (Some sighashReusedValues) with
               | Fail _ => (s, ruleError ErrScriptMalformed)
               | Crash c => (s, Crash c)
               | Ret vm =>
                   match Execute vm with
                   | (vm, Fail _) => (put_caches vm s, ruleError ErrScriptValidation)
                   | (vm, Crash c) => (put_caches vm s, Crash c)
                   | (vm, Ret _) => scriptsLoop (i + 1) rest (reusedAfter vm sighashReusedValues) missingOutpoints (put_caches vm s)
                   end
               end
      end
  end.

Definition noReusedValues : SighashReusedValues :=
  {| previousOutputsHash := None; sequencesHash := None; outputsHash := None; payloadHash := None |}.

Definition validateTransactionScripts : validating unit :=
  let* tx := gets ts_tx in scriptsLoop 0 (tx_Inputs tx) noReusedValues [].

(** [tx.Mass, err = v.transactionMass(tx)]: the mass is 0 with an error. *)
Definition populateMass (tx : DomainTransaction) : validating unit :=
  λ s, match transactionMass tx with
       | Ret mass => (put_tx (set_Mass mass) s, Ret ())
       | Fail e => (put_tx (set_Mass 0) s, Fail e)
       | Crash c => (s, Crash c)
       end.

Definition ValidateTransactionInContextAndPopulateMassAndFee (povBlockHash : hash) (selectedParentMedianTime : Z) : validating unit :=
  let* tx := gets ts_tx in
  lift_outcome (checkTransactionCoinbaseMaturity povBlockHash tx) ;;*
  let* totalSompiIn := lift_outcome (checkTransactionInputAmounts tx) in
  let* totalSompiOut := lift_outcome (checkTransactionOutputAmounts tx totalSompiIn) in
  modify (put_tx (set_Fee (GoInt.uint64 (totalSompiIn - totalSompiOut)))) ;;*
  lift_outcome (checkTransactionSequenceLock povBlockHash tx selectedParentMedianTime) ;;*
  validateTransactionScripts ;;*
  populateMass tx.
End Context.
End Validator.
End TransactionValidator.
