(* ===== verification/TransactionSafety.v ===== *)
(** * What transaction validation guarantees

    The checks of TransactionValidator.v against specifications over the integers:
    sums do not wrap, lock times and maturities are plain inequalities, and scripts are
    judged without caches. *)
From S2P Require Import Prelude Externalapi ScriptNum ScriptStack OpcodeTable Script Hashing SigCache Opcode Engine.
From S2P Require Import OpcodeSafety EngineSafety SigSpec CacheTransparency.
From S2P Require Import Interval ReachabilityData Reachability ReachabilityTree ReachabilityAdd DagTopology Block Ghostdag GhostdagOrder GhostdagColour Window DifficultyManager Traversal HeaderValidation TransactionValidator.
Import Script SigHash SigCache Opcode Exec Ghostdag PastMedianTime HeaderValidation TransactionValidator.
Local Open Scope Z_scope.
Local Open Scope prog_scope.

(** A check that ends with nil or a rule error: no panic, and no store or median time
    that is missing. *)
Definition rules_only {A} (o : outcome txError A) : Prop :=
  match o with Ret _ | Fail (TxRule _) => True | _ => False end.

(** ** Sums *)
Definition sumZ (l : list Z) : Z := foldr Z.add 0 l.
Definition total_out (tx : DomainTransaction) : Z := sumZ (map out_Value (tx_Outputs tx)).
Definition total_in (tx : DomainTransaction) : Z := sumZ (map ue_amount (omap in_UTXOEntry (tx_Inputs tx))).

Lemma sumZ_app l k : sumZ (l ++ k) = sumZ l + sumZ k.
Proof. induction l as [|x l IH]; simpl; [done|]. unfold sumZ in *. simpl. lia. Qed.
Lemma sumZ_nonneg l : (∀ x, x ∈ l → 0 ≤ x) → 0 ≤ sumZ l.
Proof.
  induction l as [|x l IH]; intros Hl; [done|]. unfold sumZ in *. simpl.
  pose proof (Hl x ltac:(by left)). specialize (IH (λ y Hy, Hl y (list_elem_of_further _ _ _ Hy))). lia.
Qed.

(** ** In isolation *)
Record isolation_ok (v : transactionValidator) (tx : DomainTransaction) : Prop := {
  is_inputs : IsCoinBase tx = false → tx_Inputs tx ≠ [];
  is_values : total_out tx ≤ MaxSompi;
  is_nodup : NoDup (map in_PreviousOutpoint (tx_Inputs tx));
  is_coinbase : IsCoinBase tx = true → zlen (tx_Payload tx) ≤ tv_maxCoinbasePayloadLength v;
  is_gas : tx_SubnetworkID tx ∈ [SubnetworkIDNative; SubnetworkIDCoinbase; SubnetworkIDRegistry] → tx_Gas tx = 0;
  is_registry : tx_SubnetworkID tx = SubnetworkIDRegistry → zlen (tx_Payload tx) = 8;
  is_native : tx_SubnetworkID tx = SubnetworkIDNative → tx_Payload tx = [];
  is_subnetwork : tv_enableNonNativeSubnetworks v = true ∨ tx_SubnetworkID tx ∈ [SubnetworkIDNative; SubnetworkIDCoinbase];
  is_version : tx_Version tx ≤ MaxTransactionVersion
}.

Definition uint64_values (tx : DomainTransaction) : Prop := ∀ o, o ∈ tx_Outputs tx → 0 ≤ out_Value o < 2 ^ 64.

Lemma amountRangesLoop_spec outputs : ∀ t, (∀ o, o ∈ outputs → 0 ≤ out_Value o < 2 ^ 64) → 0 ≤ t ≤ MaxSompi →
  rules_only (amountRangesLoop outputs t) ∧ (amountRangesLoop outputs t = Ret () ↔ t + sumZ (map out_Value outputs) ≤ MaxSompi).
Proof.
  induction outputs as [|o outputs IH]; intros t Ho Ht; cbn [amountRangesLoop]; unfold sumZ in *; simpl; [split; [done|]; split; [lia|done]|].
  pose proof (Ho o ltac:(by left)) as Hv. assert (∀ o', o' ∈ outputs → 0 ≤ out_Value o' < 2 ^ 64) as Ho' by (intros; apply Ho; by right).
  pose proof (sumZ_nonneg (map out_Value outputs)) as Hnn. unfold sumZ in Hnn.
  assert (0 ≤ foldr Z.add 0 (map out_Value outputs)).
  { apply Hnn. intros x (o' & -> & Hin)%list_elem_of_fmap. by apply Ho'. }
  destruct (Z.ltb_spec MaxSompi (out_Value o)); [split; [done|]; split; [done|lia]|].
  rewrite GoInt.uint64_id by (unfold MaxSompi, SompiPerKaspa in *; lia).
  destruct (Z.ltb_spec (t + out_Value o) t); [lia|].
  destruct (Z.ltb_spec MaxSompi (t + out_Value o)); [split; [done|]; split; [done|lia]|].
  destruct (IH (t + out_Value o) Ho' ltac:(lia)) as [Hc Hi]. split; [done|]. rewrite Hi. lia.
Qed.

Lemma duplicatesLoop_spec inputs : ∀ seen,
  rules_only (duplicatesLoop inputs seen) ∧
  (duplicatesLoop inputs seen = Ret () ↔ NoDup (map in_PreviousOutpoint inputs) ∧ ∀ i, i ∈ inputs → in_PreviousOutpoint i ∉ seen).
Proof.
  induction inputs as [|i inputs IH]; intros seen; cbn [duplicatesLoop map].
  { split; [done|]. split; [|done]. intros _. split; [constructor|by intros ? ?%elem_of_nil]. }
  case_bool_decide as Hi.
  - split; [done|]. split; [done|]. intros [_ Hn]. by destruct (Hn i ltac:(by left)).
  - destruct (IH ({[in_PreviousOutpoint i]} ∪ seen)) as [Hc Hiff]. split; [done|]. rewrite Hiff, NoDup_cons. split.
    + intros [Hnd Hn]. split_and!; [|done|].
      * intros (j & E & Hj)%list_elem_of_fmap. apply (Hn j Hj). rewrite <- E. set_solver.
      * intros j [->|Hj]%elem_of_cons; [done|]. specialize (Hn j Hj). set_solver.
    + intros [[Hni Hnd] Hn]. split; [done|]. intros j Hj. specialize (Hn j ltac:(by right)).
      intros [E%elem_of_singleton|?]%elem_of_union; [|done].
      apply Hni. rewrite <- E. apply list_elem_of_fmap. by exists j.
Qed.

(** A sequence of checks that do not panic. *)
Lemma checks_spec {A} (o : outcome txError unit) (k : unit → outcome txError A) (P Q : Prop) a :
  rules_only o ∧ (o = Ret () ↔ P) → rules_only (k ()) ∧ (k () = Ret a ↔ Q) →
  rules_only (obind o k) ∧ (obind o k = Ret a ↔ P ∧ Q).
Proof.
  intros [Hc Ho] [Hck Hk]. destruct o as [[]|e|c]; cbn [obind].
  - split; [done|]. rewrite Hk. tauto.
  - split; [done|]. split; [done|]. intros [HP _]. by apply Ho in HP.
  - done.
Qed.

Lemma check_if (b : bool) e (P : Prop) : (b = false ↔ P) →
  rules_only (if b then ruleError e else Ret ()) ∧ ((if b then ruleError e else Ret ()) = Ret () ↔ P).
Proof. intros <-. by destruct b. Qed.

Lemma isolation_spec v tx : uint64_values tx → 0 ≤ tx_Gas tx →
  rules_only (ValidateTransactionInIsolation v tx) ∧ (ValidateTransactionInIsolation v tx = Ret () ↔ isolation_ok v tx).
Proof.
  intros Hv Hgas.
  destruct (amountRangesLoop_spec (tx_Outputs tx) 0 Hv ltac:(by vm_compute)) as [Hac Ha].
  destruct (duplicatesLoop_spec (tx_Inputs tx) ∅) as [Hdc Hd].
  assert (rules_only (ValidateTransactionInIsolation v tx) ∧ (ValidateTransactionInIsolation v tx = Ret () ↔
    (negb (IsCoinBase tx) && (zlen (tx_Inputs tx) =? 0) = false) ∧ total_out tx ≤ MaxSompi ∧ NoDup (map in_PreviousOutpoint (tx_Inputs tx)) ∧
    (IsCoinBase tx && (tv_maxCoinbasePayloadLength v <? zlen (tx_Payload tx)) = false) ∧
    (IsBuiltInOrNative (tx_SubnetworkID tx) && (0 <? tx_Gas tx) = false) ∧
    (bool_decide (tx_SubnetworkID tx = SubnetworkIDRegistry) && negb (zlen (tx_Payload tx) =? 8) = false) ∧
    (bool_decide (tx_SubnetworkID tx = SubnetworkIDNative) && (0 <? zlen (tx_Payload tx)) = false) ∧
    (negb (tv_enableNonNativeSubnetworks v) && negb (bool_decide (tx_SubnetworkID tx = SubnetworkIDNative)) &&
     negb (bool_decide (tx_SubnetworkID tx = SubnetworkIDCoinbase)) = false) ∧ (MaxTransactionVersion <? tx_Version tx) = false)) as [Hc Hiff].
  { unfold ValidateTransactionInIsolation.
    apply checks_spec; [by apply check_if|]. apply checks_spec; [split; [done|]; rewrite Ha; unfold total_out; by rewrite Z.add_0_l|].
    apply checks_spec; [split; [done|]; unfold checkDuplicateTransactionInputs; rewrite Hd; set_solver|].
    apply checks_spec; [unfold checkCoinbaseLength; destruct (IsCoinBase tx); [by apply check_if|by split]|].
    apply checks_spec; [by apply check_if|].
    apply checks_spec; [unfold checkSubnetworkRegistryTransaction; case_bool_decide; [by apply check_if|by split]|].
    apply checks_spec; [by apply check_if|].
    apply checks_spec; [|by apply check_if]. unfold checkTransactionSubnetwork. destruct (negb _ && _ && _); by split. }
  split; [done|]. rewrite Hiff. clear Hiff Hc Ha Hac Hd Hdc. unfold IsBuiltInOrNative, IsBuiltIn.
  rewrite !andb_false_iff, !orb_false_iff, !negb_false_iff, !bool_decide_eq_true, !bool_decide_eq_false, !Z.ltb_ge, !Z.eqb_eq, Z.eqb_neq.
  split.
  - intros (Hin & Hval & Hnd & Hcb & Hg & Hreg & Hnat & Hsub & Hver). split; try done.
    + intros Hcb' E. rewrite E in Hin. destruct Hin; [congruence|done].
    + intros E. destruct Hcb; [congruence|done].
    + rewrite !elem_of_cons, elem_of_nil. intros Hid. destruct Hg as [(? & ? & ?)|?]; [tauto|lia].
    + tauto.
    + intros E. destruct Hnat as [?|?]; [done|]. apply zlen_zero. pose proof (zlen_nonneg (tx_Payload tx)). lia.
    + rewrite !elem_of_cons, elem_of_nil. destruct Hsub as [[?|?]|?]; tauto.
  - intros [Hin Hval Hnd Hcb Hg Hreg Hnat Hsub Hver]. rewrite !elem_of_cons, elem_of_nil in Hsub. rewrite !elem_of_cons in Hg. split_and!; try done.
    + destruct (IsCoinBase tx); [by left|]. right. intros E%zlen_zero. by apply Hin.
    + destruct (IsCoinBase tx); [right; auto|by left].
    + destruct (decide (tx_Gas tx = 0)) as [->|Hne]; [by right|]. left.
      destruct (decide (tx_SubnetworkID tx = SubnetworkIDNative)); [by destruct Hne; apply Hg; left|].
      destruct (decide (tx_SubnetworkID tx = SubnetworkIDCoinbase)); [by destruct Hne; apply Hg; right; left|].
      destruct (decide (tx_SubnetworkID tx = SubnetworkIDRegistry)); [by destruct Hne; apply Hg; right; right; left|done].
    + destruct (decide (tx_SubnetworkID tx = SubnetworkIDRegistry)); [right; auto|by left].
    + destruct (decide (tx_SubnetworkID tx = SubnetworkIDNative)) as [E|]; [right; by rewrite (Hnat E)|by left].
    + destruct Hsub as [?|[?|[?|[]]]]; tauto.
Qed.

(** ** In context *)
Section Context.
Context `{Libs} `{!LibsOk}.
Variables (v : transactionValidator) (cs : consensus) (dag_parents : list Z → list (list Z)) (k : Z).
Abbreviation S := (ghostdag_of cs).
Abbreviation root := (pm_genesisHash (tv_pastMedianTimeManager v)).
Abbreviation times := (PastMedianTime (tv_pastMedianTimeManager v) S (cs_headers cs)).

Definition daaOf (x : hash) : Z := default 0 (daa_scores (cs_daa cs) !! x).

(** The stores describe one DAG, with DAA scores and timestamps that fit; a block that
    is in nobody's past, such as the virtual block, need not have a header. *)
Record context_ok : Prop := {
  co_ghostdag : ghostdag_ok dag_parents k S root;
  co_tolerance : 1 ≤ pm_timestampDeviationTolerance (tv_pastMedianTimeManager v);
  co_headers x : x ∈ dom S → x = root ∨ (∃ y, y ∈ dom S ∧ past dag_parents root y x) → ∃ h, cs_headers cs !! x = Some h ∧ 0 ≤ hd_timeInMilliseconds h < 2 ^ 62;
  co_scores x : x ∈ dom S → is_Some (daa_scores (cs_daa cs) !! x) ∧ 0 ≤ daaOf x < 2 ^ 62;
  co_genesis : daaOf root = 0;
  co_maturity : 0 ≤ tv_blockCoinbaseMaturity v < 2 ^ 62
}.

(** A transaction as its types allow, with entries that were created in the DAG. *)
Record tx_ok (tx : DomainTransaction) : Prop := {
  to_values : uint64_values tx;
  to_sigs : Forall (λ i, are_bytes (in_SignatureScript i)) (tx_Inputs tx);
  to_amounts i e : i ∈ tx_Inputs tx → in_UTXOEntry i = Some e → 0 ≤ ue_amount e < 2 ^ 64;
  to_scores i e : i ∈ tx_Inputs tx → in_UTXOEntry i = Some e → 0 ≤ ue_blockDAAScore e < 2 ^ 62;
  to_scripts i e : i ∈ tx_Inputs tx → in_UTXOEntry i = Some e → are_bytes (spk_Script (ue_scriptPublicKey e))
}.

(** The last block of the selected chain that is not above [score]: the chain starts
    with [pov] itself. *)
Definition lock_base (score : Z) (pov base : hash) : Prop :=
  ∃ ch, chain_of S (dataOf S pov) ch ∧ head (filter (λ x, daaOf x ≤ score) (pov :: ch)) = Some base.

(** A relative lock: disabled, in units of 2^19 milliseconds, or in DAA score. *)
Definition lock_met (pov : hash) (medianTime : Z) (input : DomainTransactionInput) (entry : utxoEntry) : Prop :=
  let relative := Z.land (in_Sequence input) SequenceLockTimeMask in
  if Z.land (in_Sequence input) SequenceLockTimeDisabled =? SequenceLockTimeDisabled then True
  else if Z.land (in_Sequence input) SequenceLockTimeIsSeconds =? SequenceLockTimeIsSeconds then
    ∃ base t, lock_base (ue_blockDAAScore entry) pov base ∧ times base = Ret t ∧ t + relative * 2 ^ 19 ≤ medianTime
  else ue_blockDAAScore entry + relative ≤ daaOf pov.

Definition mature (pov : hash) (entry : utxoEntry) : Prop :=
  ue_isCoinbase entry = true → ue_blockDAAScore entry + tv_blockCoinbaseMaturity v ≤ daaOf pov.

Record spends_ok (pov : hash) (medianTime : Z) (tx : DomainTransaction) : Prop := {
  so_entries : Forall (λ i, is_Some (in_UTXOEntry i)) (tx_Inputs tx);
  so_values : total_out tx ≤ total_in tx ≤ MaxSompi;
  so_mature i e : i ∈ tx_Inputs tx → in_UTXOEntry i = Some e → mature pov e;
  so_locks i e : i ∈ tx_Inputs tx → in_UTXOEntry i = Some e → lock_met pov medianTime i e
}.

Hypothesis Hok : context_ok.

Lemma DAAScore_known x : x ∈ dom S → DAAScore cs x = Ret (daaOf x).
Proof using Hok.
  intros Hx. destruct (co_scores Hok x Hx) as [[s Hs] _]. unfold DAAScore, Get, daaOf. by rewrite Hs.
Qed.

Lemma times_known x : x ∈ dom S → ∃ t, times x = Ret t ∧ 0 ≤ t < 2 ^ 62.
Proof using Hok.
  intros Hx. destruct (PastMedianTime_spec dag_parents k S (cs_headers cs) (tv_pastMedianTimeManager v) x) as (W & t & ts & Ht & Htop & Hf & Hm).
  { apply (co_ghostdag Hok). } { done. } { apply (co_tolerance Hok). }
  { intros y Hy. destruct (co_headers Hok y) as (h & -> & _); [|destruct Hy; eauto|by eexists]. destruct Hy as [->|(Hanc & _)]; [apply (gd_root _ _ _ _ (co_ghostdag Hok))|].
    by apply (known_anc dag_parents k S _ (co_ghostdag Hok) x). }
  exists t. split; [done|]. assert (∃ y, y ∈ dom S ∧ (y = root ∨ ∃ z, z ∈ dom S ∧ past dag_parents root z y) ∧ hd_timeInMilliseconds <$> cs_headers cs !! y = Some t) as (y & Hy & Hpast & Hty).
  { destruct (decide (W = [])) as [->|Hne].
    - exists root. split; [apply (gd_root _ _ _ _ (co_ghostdag Hok))|]. split; [by left|done].
    - destruct Hm as [Hin _]. apply list_elem_of_lookup_1 in Hin as [i Hi]. destruct (Forall2_lookup_r _ _ _ _ _ Hf Hi) as (y & Hy & Hty).
      exists y. destruct Htop as (_ & HW & _). pose proof (HW y) as Hy'. destruct Hy' as (Hanc & Hne' & Hr'); [by eapply list_elem_of_lookup_2|].
      split; [by apply (known_anc dag_parents k S _ (co_ghostdag Hok) x)|]. split; [|done]. right. by exists x. }
  destruct (co_headers Hok y Hy Hpast) as (h & Hh & Hr). rewrite Hh in Hty. by injection Hty as <-.
Qed.

Lemma lockBaseLoop_spec score ch : 0 ≤ score → ∀ fuel x, x ∈ dom S → chain_of S (dataOf S x) ch → (length ch < fuel)%nat →
  ∃ base, lockBaseLoop cs fuel score x (dataOf S x) = Ret base ∧ base ∈ dom S ∧ head (filter (λ x, daaOf x ≤ score) (x :: ch)) = Some base.
Proof using Hok.
  intros Hscore. induction ch as [|p ch IH]; intros [|fuel] x Hx Hch Hf; simpl in Hf; try lia; cbn [lockBaseLoop];
    rewrite (DAAScore_known x Hx); cbn [obind]; rewrite filter_cons.
  - inversion Hch as [? Hsel|]; subst. destruct (decide (x = root)) as [->|Hne].
    + rewrite (co_genesis Hok), (proj2 (Z.leb_le 0 score)), decide_True by done. by exists root.
    + destruct (gd_block _ _ _ _ (co_ghostdag Hok) x _ (known_data S x Hx) Hne) as (q & Hq). pose proof (bo_selected _ _ _ _ _ _ Hq). congruence.
  - inversion Hch as [|? q ? Hsel Hp Hch']; subst. destruct (Z.leb_spec (daaOf x) score) as [Hle|Hgt].
    + rewrite decide_True by done. by exists x.
    + rewrite decide_False by lia. rewrite Hsel. rewrite (Get_known S p Hp). cbn [fromStore obind]. apply IH; [done|done|lia].
Qed.

Lemma lock_base_exists score pov : 0 ≤ score → pov ∈ dom S →
  ∃ base, lockBaseLoop cs (Datatypes.S (size S)) score pov (dataOf S pov) = Ret base ∧ base ∈ dom S ∧ lock_base score pov base.
Proof using Hok.
  intros Hs Hp. pose proof (co_ghostdag Hok) as Hg. destruct (chain_known dag_parents k S root Hg pov Hp) as [ch Hch].
  destruct (lockBaseLoop_spec score ch Hs (Datatypes.S (size S)) pov Hp Hch) as (base & Hrun & Hb & Hhead).
  - assert (length ch ≤ size S)%nat; [|lia]. apply (chain_length dag_parents k S root Hg _ ch Hch).
    intros p Hsel. inversion Hch; subst; congruence.
  - exists base. split_and!; [done|done|]. by exists ch.
Qed.

Lemma lock_base_unique score pov b1 b2 : lock_base score pov b1 → lock_base score pov b2 → b1 = b2.
Proof. intros (c1 & H1 & E1) (c2 & H2 & E2). pose proof (chain_unique S _ _ _ H1 H2) as ->. congruence. Qed.

(** *** One input *)
Lemma mask_bound n : 0 ≤ Z.land n SequenceLockTimeMask < 2 ^ 16.
Proof. change SequenceLockTimeMask with (Z.ones 16). rewrite Z.land_ones by lia. apply Z.mod_pos_bound. lia. Qed.

Lemma lockOfInput_spec pov m input entry lock : pov ∈ dom S → 0 ≤ ue_blockDAAScore entry < 2 ^ 62 →
  ∃ lock', lockOfInput v cs pov (in_Sequence input) (ue_blockDAAScore entry) lock = Ret lock' ∧
    (sequenceLockActive lock' (daaOf pov) m = true ↔ sequenceLockActive lock (daaOf pov) m = true ∧ lock_met pov m input entry).
Proof using Hok.
  intros Hp He. unfold lockOfInput, lock_met. pose proof (mask_bound (in_Sequence input)) as Hrel.
  set (rel := Z.land (in_Sequence input) SequenceLockTimeMask) in *. rewrite (GoInt.int64_id rel) by lia.
  destruct (Z.land (in_Sequence input) SequenceLockTimeDisabled =? SequenceLockTimeDisabled); [exists lock; tauto|].
  assert (∀ l, sequenceLockActive l (daaOf pov) m = true ↔ Milliseconds l < m ∧ BlockDAAScore l < daaOf pov) as Hact.
  { intros l. unfold sequenceLockActive. destruct (co_scores Hok pov Hp) as [_ Hd]. rewrite (GoInt.int64_id (daaOf pov)) by lia.
    destruct (Z.leb_spec m (Milliseconds l)), (Z.leb_spec (daaOf pov) (BlockDAAScore l)); simpl; split; try done; lia. }
  destruct (Z.land (in_Sequence input) SequenceLockTimeIsSeconds =? SequenceLockTimeIsSeconds).
  - rewrite (Get_known S pov Hp). cbn [fromStore obind].
    destruct (lock_base_exists (ue_blockDAAScore entry) pov) as (base & -> & Hb & Hbase); [lia|done|]. cbn [obind].
    destruct (times_known base Hb) as (t & Ht & Htr). rewrite Ht. cbn [fromMedian obind].
    rewrite Z.shiftl_mul_pow2 by done. change SequenceLockTimeGranularity with 19.
    rewrite (GoInt.int64_id (rel * 2 ^ 19 - 1)) by lia. rewrite (GoInt.int64_id (t + _)) by lia. eexists. split; [done|].
    rewrite !Hact. transitivity ((Milliseconds lock < m ∧ BlockDAAScore lock < daaOf pov) ∧ t + rel * 2 ^ 19 ≤ m).
    + destruct (Z.ltb_spec (Milliseconds lock) (t + (rel * 2 ^ 19 - 1))); simpl; lia.
    + split; intros [Hl Hm]; split; try done; [by exists base, t|].
            destruct Hm as (b' & t' & Hb' & Ht' & Hm). pose proof (lock_base_unique _ _ _ _ Hbase Hb') as <-. congruence.
  - rewrite (GoInt.int64_id (ue_blockDAAScore entry)) by lia. rewrite (GoInt.int64_id (_ + rel - 1)) by lia.
    eexists. split; [done|]. rewrite !Hact. destruct (Z.ltb_spec (BlockDAAScore lock) (ue_blockDAAScore entry + rel - 1)); simpl; lia.
Qed.

(** *** All inputs *)

(** The input has its entry, and [P] holds of them. *)
Definition on_entry (P : DomainTransactionInput → utxoEntry → Prop) (i : DomainTransactionInput) : Prop :=
  ∃ e, in_UTXOEntry i = Some e ∧ P i e.

Lemma on_entry_None P i inputs missing : in_UTXOEntry i = None →
  (missing ++ [in_PreviousOutpoint i] = [] ∧ Forall (on_entry P) inputs) ↔ (missing = [] ∧ Forall (on_entry P) (i :: inputs)).
Proof using Type.
  intros Hi. split; [by intros [?%app_nil _]; naive_solver|]. intros [_ [(e & He & _) _]%Forall_cons]. congruence.
Qed.

Lemma on_entry_Some P i e inputs : in_UTXOEntry i = Some e → Forall (on_entry P) (i :: inputs) ↔ P i e ∧ Forall (on_entry P) inputs.
Proof using Type.
  intros Hi. rewrite Forall_cons. unfold on_entry at 1. rewrite Hi. naive_solver.
Qed.

Lemma orMissing_spec {A} missing (a b : A) : rules_only (orMissing missing a) ∧ (orMissing missing a = Ret b ↔ missing = [] ∧ a = b).
Proof using Type. destruct missing; simpl; split; try done; naive_solver. Qed.

Definition entry_typed (i : DomainTransactionInput) (e : utxoEntry) : Prop :=
  0 ≤ ue_amount e < 2 ^ 64 ∧ 0 ≤ ue_blockDAAScore e < 2 ^ 62 ∧ are_bytes (spk_Script (ue_scriptPublicKey e)).
Definition typed (inputs : list DomainTransactionInput) : Prop := Forall (λ i, ∀ e, in_UTXOEntry i = Some e → entry_typed i e) inputs.

Lemma maturityLoop_spec pov inputs : pov ∈ dom S → typed inputs → ∀ missing,
  rules_only (maturityLoop v (daaOf pov) inputs missing) ∧
  (maturityLoop v (daaOf pov) inputs missing = Ret () ↔ missing = [] ∧ Forall (on_entry (λ _ e, mature pov e)) inputs).
Proof using Hok.
  intros Hp. induction inputs as [|i inputs IH]; intros Ht missing; cbn [maturityLoop].
  { destruct (orMissing_spec missing () ()) as [? Hm]. split; [done|]. rewrite Hm. split; intros [? _]; done. }
  apply Forall_cons in Ht as [Hi Ht]. specialize (IH Ht). destruct (in_UTXOEntry i) as [e|] eqn:Ei.
  - rewrite (on_entry_Some _ i e inputs Ei). destruct (Hi e eq_refl) as (_ & He & _). pose proof (co_maturity Hok).
    rewrite GoInt.uint64_id by lia. unfold mature. destruct (ue_isCoinbase e); cbn [andb].
    + destruct (Z.ltb_spec (daaOf pov) (ue_blockDAAScore e + tv_blockCoinbaseMaturity v)) as [Hlt|Hge].
      * split; [done|]. split; [done|]. intros (_ & Hm & _). specialize (Hm eq_refl). lia.
      * destruct (IH missing) as [Hc Hm]. split; [done|]. rewrite Hm. naive_solver.
    + destruct (IH missing) as [Hc Hm]. split; [done|]. rewrite Hm. naive_solver.
  - rewrite <- (on_entry_None _ i inputs missing Ei). apply IH.
Qed.

Abbreviation amounts inputs := (sumZ (map ue_amount (omap in_UTXOEntry inputs))) (only parsing).

Lemma amounts_nonneg inputs : typed inputs → 0 ≤ amounts inputs.
Proof using Type.
  intros Ht. apply sumZ_nonneg. intros x (e & -> & (i & Hi & Ei)%list_elem_of_omap)%list_elem_of_fmap.
  unfold typed in Ht. rewrite Forall_forall in Ht. by destruct (Ht i Hi e Ei) as [[? _] _].
Qed.

Lemma amounts_cons i inputs :
  amounts (i :: inputs) = match in_UTXOEntry i with Some e => ue_amount e | None => 0 end + amounts inputs.
Proof using Type. unfold sumZ. simpl. by destruct (in_UTXOEntry i). Qed.

Lemma inputAmountsLoop_spec inputs : typed inputs → ∀ t missing, 0 ≤ t ≤ MaxSompi →
  rules_only (inputAmountsLoop inputs t missing) ∧
  ∀ n, inputAmountsLoop inputs t missing = Ret n ↔
    (missing = [] ∧ Forall (on_entry (λ _ _, True)) inputs) ∧ n = t + amounts inputs ∧ n ≤ MaxSompi.
Proof using Type.
  induction inputs as [|i inputs IH]; intros Ht t missing Hle; cbn [inputAmountsLoop].
  { split; [apply (orMissing_spec missing t t)|]. intros n. rewrite (proj2 (orMissing_spec missing t n)). simpl.
    split; [intros [-> <-]|intros ([-> _] & -> & ?)]; split_and!; done || lia. }
  pose proof (amounts_nonneg inputs) as Hnn. apply Forall_cons in Ht as [Hi Ht]. specialize (IH Ht). specialize (Hnn Ht).
  rewrite amounts_cons.
  destruct (in_UTXOEntry i) as [e|] eqn:Ei.
  - destruct (Hi e eq_refl) as ((Ha & Hb) & _). unfold checkEntryAmounts.
    assert (∀ n, (missing = [] ∧ Forall (on_entry (λ _ _, True)) (i :: inputs)) ∧ n = t + (ue_amount e + amounts inputs) ∧ n ≤ MaxSompi ↔
      (missing = [] ∧ Forall (on_entry (λ _ _, True)) inputs) ∧ n = t + ue_amount e + amounts inputs ∧ n ≤ MaxSompi) as Hn.
    { intros n. rewrite (on_entry_Some _ i e inputs Ei), Z.add_assoc. tauto. }
    destruct (decide (t + ue_amount e < 2 ^ 64)) as [Hs|Hs].
    + rewrite GoInt.uint64_id by lia. rewrite (proj2 (Z.ltb_ge (t + ue_amount e) t)) by lia. cbn [orb].
      destruct (Z.ltb_spec MaxSompi (t + ue_amount e)) as [Hbig|Hsmall]; cbn [obind].
      * split; [done|]. intros n. rewrite Hn. split; [done|]. intros (_ & -> & ?). lia.
      * destruct (IH (t + ue_amount e) missing ltac:(lia)) as [Hc Hr]. split; [done|]. intros n. by rewrite Hn, Hr.
    + assert (GoInt.uint64 (t + ue_amount e) < t) as Hw.
      { unfold GoInt.uint64, GoInt.uwrap. unfold MaxSompi, SompiPerKaspa in Hle.
        replace (t + ue_amount e) with (t + ue_amount e - 2 ^ 64 + 1 * 2 ^ 64) by lia. rewrite Z.mod_add, Z.mod_small by lia. lia. }
      rewrite (proj2 (Z.ltb_lt _ t)) by done. cbn [orb obind]. split; [done|]. intros n. rewrite Hn. split; [done|].
      intros (_ & -> & ?). unfold MaxSompi, SompiPerKaspa in *. lia.
  - rewrite Z.add_0_l. destruct (IH t (missing ++ [in_PreviousOutpoint i]) Hle) as [Hc Hr]. split; [done|]. intros n. rewrite Hr.
    by rewrite (on_entry_None _ i inputs missing Ei).
Qed.

Lemma sequenceLockLoop_spec pov m inputs : pov ∈ dom S → typed inputs → ∀ lock missing,
  rules_only (sequenceLockLoop v cs pov inputs lock missing) ∧
  ((∃ lock', sequenceLockLoop v cs pov inputs lock missing = Ret lock' ∧ sequenceLockActive lock' (daaOf pov) m = true) ↔
   (missing = [] ∧ Forall (on_entry (lock_met pov m)) inputs) ∧ sequenceLockActive lock (daaOf pov) m = true).
Proof using Hok.
  intros Hp. induction inputs as [|i inputs IH]; intros Ht lock missing; cbn [sequenceLockLoop].
  { split; [apply (orMissing_spec missing lock lock)|]. split.
    - intros (lock' & [-> <-]%orMissing_spec & Ha). done.
    - intros ([-> _] & Ha). by exists lock. }
  apply Forall_cons in Ht as [Hi Ht]. specialize (IH Ht). destruct (in_UTXOEntry i) as [e|] eqn:Ei.
  - destruct (Hi e eq_refl) as (_ & He & _). destruct (lockOfInput_spec pov m i e lock Hp He) as (lock1 & -> & Hact). cbn [obind].
    destruct (IH lock1 missing) as [Hc Hm]. split; [done|]. rewrite Hm, Hact, (on_entry_Some _ i e inputs Ei). tauto.
  - rewrite <- (on_entry_None _ i inputs missing Ei). apply IH.
Qed.

Lemma sigOpsLoop_populated inputs : Forall (on_entry (λ _ _, True)) inputs → ∀ n, ∃ count, sigOpsLoop inputs n [] = Ret count.
Proof using Type.
  induction 1 as [|i inputs (e & He & _) Hall IH]; intros n; cbn [sigOpsLoop]; [by exists n|]. rewrite He. apply IH.
Qed.

Lemma fold_outputs outputs : ∀ t, 0 ≤ t → (∀ o, o ∈ outputs → 0 ≤ out_Value o) → t + sumZ (map out_Value outputs) < 2 ^ 64 →
  fold_left (λ total output, GoInt.uint64 (total + out_Value output)) outputs t = t + sumZ (map out_Value outputs).
Proof using Type.
  induction outputs as [|o outputs IH]; intros t Ht Ho Hs; simpl; [unfold sumZ; simpl; lia|].
  pose proof (Ho o ltac:(by left)). pose proof (sumZ_nonneg (map out_Value outputs)) as Hnn. unfold sumZ in *. simpl in *.
  assert (0 ≤ foldr Z.add 0 (map out_Value outputs)).
  { apply Hnn. intros x (o' & -> & Hin)%list_elem_of_fmap. apply Ho. by right. }
  rewrite GoInt.uint64_id by lia. rewrite IH; [lia|lia|intros; apply Ho; by right|lia].
Qed.

(** *** Scripts *)

(** The scripts of input [j] accept, judged without caches. *)
Definition script_ok (T : DomainTransaction) (j : nat) (e : utxoEntry) : Prop :=
  fst (run_scripts (ue_scriptPublicKey e) T (Z.of_nat j) ScriptNoFlags None None (Some HashingProps.no_values)) = Ret ().
Definition scripts_ok (T : DomainTransaction) : Prop :=
  ∀ j i e, tx_Inputs T !! j = Some i → in_UTXOEntry i = Some e → script_ok T j e.

Definition caches_ok (s : txState) : Prop :=
  (∀ c, ts_sigCache s = Some c → cache_ok c) ∧ (∀ c, ts_sigCacheECDSA s = Some c → cache_ok c).

(** One round of the loop over the inputs. *)
Lemma scriptsLoop_cons i input e rest r s : in_UTXOEntry input = Some e →
  let '(o, (c1, c2, r')) := run_scripts (ue_scriptPublicKey e) (ts_tx s) i ScriptNoFlags (ts_sigCache s) (ts_sigCacheECDSA s) (Some r) in
  let s' := {| ts_tx := ts_tx s; ts_sigCache := c1; ts_sigCacheECDSA := c2 |} in
  match o with
  | Ret _ => scriptsLoop i (input :: rest) r [] s = scriptsLoop (i + 1) rest (default r r') [] s'
  | Fail _ => ∃ e, scriptsLoop i (input :: rest) r [] s = (s', ruleError e)
  | Crash c => True
  end.
Proof using Type.
  intros He. cbn [scriptsLoop]. rewrite He. unfold run_scripts. destruct (NewEngine _ _ _ _ _ _ _) as [vm|err|c]; [|destruct s; by eexists|done].
  destruct (Execute vm) as [vm1 [[]|err|c]]; [done|by eexists|done].
Qed.

(** One input, whatever the caches. *)
Lemma script_input T j i e c1 c2 r : Forall (λ i, are_bytes (in_SignatureScript i)) (tx_Inputs T) →
  Forall (on_entry entry_typed) (tx_Inputs T) → tx_Inputs T !! j = Some i → in_UTXOEntry i = Some e →
  (∀ c, c1 = Some c → cache_ok c) → (∀ c, c2 = Some c → cache_ok c) → reuse_ok T r →
  let run := run_scripts (ue_scriptPublicKey e) T (Z.of_nat j) ScriptNoFlags c1 c2 (Some r) in
  (∀ c, fst run ≠ Crash c) ∧ (fst run = Ret () ↔ script_ok T j e) ∧ after_ok T r (snd run).
Proof using All.
  intros Hsigs Hall Hj He H1 H2 Hr. cbv zeta.
  assert (are_bytes (spk_Script (ue_scriptPublicKey e))) as Hb.
  { destruct (Forall_lookup_1 _ _ _ _ Hall Hj) as (e' & He' & _ & _ & Hb). congruence. }
  assert (∀ c1 c2 r, (∀ c, c1 = Some c → cache_ok c) → (∀ c, c2 = Some c → cache_ok c) → reuse_ok T r →
    inputs_ok (ue_scriptPublicKey e) T (Z.of_nat j) c1 c2 (Some r)) as Hin.
  { intros ? ? r' ? ? Hr'. split; try done; [|by exists r']. eapply Forall_impl; [exact Hall|]. intros ? (? & -> & _). by eexists. }
  pose proof (Hin c1 c2 r H1 H2 Hr) as Hin1.
  destruct (run_scripts_transparent T (ue_scriptPublicKey e) (Z.of_nat j) ScriptNoFlags c1 c2 r None None HashingProps.no_values Hin1)
    as [Hv Hafter]; [apply Hin; [done|done|repeat split; intros ? [=]]|].
  split_and!; [|by rewrite Hv|done]. unfold run_scripts.
  destruct (Execute_spec _ _ _ ScriptNoFlags _ _ _ Hin1) as [Hnc Htotal].
  destruct (NewEngine _ _ _ _ _ _ _) as [vm|err|c]; [|done|by destruct (Hnc c)].
  specialize (Htotal vm eq_refl). destruct (Execute vm) as [vm1 o]. cbn [fst snd] in Htotal |- *. destruct Htotal as [[? ->]|[-> _]]; done.
Qed.

Lemma scriptsLoop_spec T inputs : Forall (λ i, are_bytes (in_SignatureScript i)) (tx_Inputs T) →
  Forall (on_entry entry_typed) (tx_Inputs T) → ∀ pre r s, tx_Inputs T = pre ++ inputs → ts_tx s = T → caches_ok s → reuse_ok T r →
  ∃ s' o, scriptsLoop (zlen pre) inputs r [] s = (s', o) ∧ rules_only o ∧ ts_tx s' = T ∧ caches_ok s' ∧
    (o = Ret () ↔ ∀ j i e, inputs !! j = Some i → in_UTXOEntry i = Some e → script_ok T (length pre + j) e).
Proof using All.
  intros Hsigs Hall. induction inputs as [|i inputs IH]; intros pre r s HT Hs [Hc1 Hc2] Hr.
  { exists s, (Ret ()). by split_and!. }
  assert (tx_Inputs T !! length pre = Some i) as Hi by (rewrite HT; by apply list_lookup_middle).
  destruct (Forall_lookup_1 _ _ _ i Hall Hi) as (e & He & _).
  destruct (script_input T (length pre) i e _ _ r Hsigs Hall Hi He Hc1 Hc2 Hr) as (Hnc & Hok1 & Hafter).
  pose proof (scriptsLoop_cons (zlen pre) i e inputs r s He) as Hrun. rewrite Hs in Hrun. change (Z.of_nat (length pre)) with (zlen pre) in *.
  destruct (run_scripts _ _ _ _ _ _ _) as [o [[c1 c2] r']]. simpl in *. destruct Hafter as (H1 & H2 & Hr').
  destruct o as [[]|err|c]; [|destruct Hrun as [e' ->]; eexists _, _|by destruct (Hnc c)].
  - rewrite Hrun. destruct (IH (pre ++ [i]) (default r r') {| ts_tx := T; ts_sigCache := c1; ts_sigCacheECDSA := c2 |}) as (s' & o & Hr1 & Ho1 & HT1 & Hc1' & Ho);
      [by rewrite <- app_assoc|done|done|done|].
    rewrite zlen_app in Hr1. exists s', o. split_and!; try done. rewrite Ho, length_app. simpl. split.
    + intros Hj [|j] i' e' Hji He'; simplify_eq/=; [rewrite Nat.add_0_r; by apply Hok1|].
      replace (length pre + Datatypes.S j)%nat with (length pre + 1 + j)%nat by lia. by eapply Hj.
    + intros Hj j i' e' Hji He'. replace (length pre + 1 + j)%nat with (length pre + Datatypes.S j)%nat by lia. by eapply Hj.
  - split_and!; try done. split; [done|]. intros Hj. assert (Fail err = Ret ()) as [=]; apply Hok1.
    rewrite <- (Nat.add_0_r (length pre)). by apply (Hj 0%nat i).
Qed.

(** *** The whole check *)

(** The state is valid, with [T] up to its fee and mass. *)
Definition state_ok (T : DomainTransaction) (s : txState) : Prop :=
  caches_ok s ∧ ∃ fee mass, ts_tx s = set_Mass mass (set_Fee fee T).

Lemma state_ok_self T s : caches_ok s → ts_tx s = T → state_ok T s.
Proof using Type. intros Hc <-. split; [done|]. exists (tx_Fee (ts_tx s)), (tx_Mass (ts_tx s)). by destruct (ts_tx s). Qed.

Definition decides (T : DomainTransaction) (P : Prop) (r : txState * outcome txError unit) : Prop :=
  rules_only (snd r) ∧ state_ok T (fst r) ∧ (snd r = Ret () ↔ P) ∧ (snd r = Ret () → ∃ mass, ts_tx (fst r) = set_Mass mass T).

Lemma decides_fail T P s e : rules_only (Fail e : outcome txError unit) → state_ok T s → ¬ P → decides T P (s, Fail e).
Proof using Type. intros Hr Hc HP. split_and!; done. Qed.

Lemma decides_check {A} T P (o : outcome txError A) (f : A → prog txState txError unit) s :
  rules_only o → state_ok T s → (∀ a, o = Ret a → decides T P (f a s)) → ((∀ a, o ≠ Ret a) → ¬ P) → decides T P (bind (lift_outcome o) f s).
Proof using Type.
  intros Hnc Hc Hret Hfail. unfold bind, lift_outcome. destruct o as [a|e|c]; [by apply Hret|apply decides_fail; [done|done|]; by apply Hfail|done].
Qed.

Lemma populated_all inputs P : Forall (on_entry P) inputs ↔
  Forall (λ i, is_Some (in_UTXOEntry i)) inputs ∧ ∀ i e, i ∈ inputs → in_UTXOEntry i = Some e → P i e.
Proof using Type.
  rewrite !Forall_forall. split.
  - intros Hall. split; [intros i Hi; destruct (Hall i Hi) as (e & He & _); by eexists|].
    intros i e Hi He. destruct (Hall i Hi) as (e' & He' & HP). congruence.
  - intros [Hsome HP] i Hi. destruct (Hsome i Hi) as [e He]. exists e. auto.
Qed.

Abbreviation fee tx := (total_in tx - total_out tx) (only parsing).

Lemma maturity_check_spec pov tx : pov ∈ dom S → typed (tx_Inputs tx) →
  rules_only (checkTransactionCoinbaseMaturity v cs pov tx) ∧
  (checkTransactionCoinbaseMaturity v cs pov tx = Ret () ↔ Forall (on_entry (λ _ e, mature pov e)) (tx_Inputs tx)).
Proof using Hok.
  intros Hp Ht. destruct (maturityLoop_spec pov (tx_Inputs tx) Hp Ht []) as [Hc Hm].
  unfold checkTransactionCoinbaseMaturity. rewrite (DAAScore_known pov Hp). cbn [obind]. split; [done|]. rewrite Hm. tauto.
Qed.

Lemma sequence_check_spec pov m tx : pov ∈ dom S → 0 ≤ m → IsCoinBase tx = false → typed (tx_Inputs tx) →
  rules_only (checkTransactionSequenceLock v cs pov tx m) ∧
  (checkTransactionSequenceLock v cs pov tx m = Ret () ↔ Forall (on_entry (lock_met pov m)) (tx_Inputs tx)).
Proof using Hok.
  intros Hp Hm Hcb Ht.
  destruct (sequenceLockLoop_spec pov m (tx_Inputs tx) Hp Ht {| Milliseconds := -1; BlockDAAScore := -1 |} []) as [Hc Hlocks].
  assert (sequenceLockActive {| Milliseconds := -1; BlockDAAScore := -1 |} (daaOf pov) m = true) as Hact0.
  { unfold sequenceLockActive. simpl. destruct (co_scores Hok pov Hp) as [_ ?]. rewrite (GoInt.int64_id (daaOf pov)) by lia.
    by rewrite !(proj2 (Z.leb_gt _ _)) by lia. }
  unfold checkTransactionSequenceLock, calcTxSequenceLockFromReferencedUTXOEntries. rewrite Hcb, (DAAScore_known pov Hp).
  assert (Forall (on_entry (lock_met pov m)) (tx_Inputs tx) ↔
    ∃ lock', sequenceLockLoop v cs pov (tx_Inputs tx) {| Milliseconds := -1; BlockDAAScore := -1 |} [] = Ret lock' ∧
      sequenceLockActive lock' (daaOf pov) m = true) as -> by (rewrite Hlocks; tauto).
  destruct (sequenceLockLoop _ _ _ _ _ _) as [lock'|e|c]; cbn [obind]; [|split; [done|]; naive_solver|done].
  destruct (sequenceLockActive lock' (daaOf pov) m) eqn:Ha; cbn [negb]; split; try done; split; try done; [by exists lock'|].
  intros (? & [= <-] & Ha'). congruence.
Qed.

Lemma outputs_check_spec tx totalIn : uint64_values tx → total_out tx ≤ MaxSompi →
  checkTransactionOutputAmounts tx totalIn = if totalIn <? total_out tx then ruleError ErrSpendTooHigh else Ret (total_out tx).
Proof using Type.
  intros Hval Hout. unfold checkTransactionOutputAmounts. rewrite (fold_outputs (tx_Outputs tx) 0); [done|done|intros o Ho; by apply Hval|].
  fold (total_out tx). unfold MaxSompi, SompiPerKaspa in Hout. lia.
Qed.

Lemma scripts_and_mass_spec T s tx (P : Prop) : Forall (λ i, are_bytes (in_SignatureScript i)) (tx_Inputs T) →
  Forall (on_entry entry_typed) (tx_Inputs T) → ts_tx s = T → caches_ok s → tx_Inputs tx = tx_Inputs T → IsCoinBase tx = false → P →
  decides T (P ∧ scripts_ok T) (bind validateTransactionScripts (λ _, populateMass v tx) s).
Proof using All.
  intros Hsigs Hall Hs Hc Hin Hcb HP.
  destruct (scriptsLoop_spec T (tx_Inputs T) Hsigs Hall) with (pre := @nil DomainTransactionInput) (r := noReusedValues) (s := s)
    as (s2 & o & Hrun & Hoc & HT & Hcs & Hscripts); [done|done|done|repeat split; intros ? [=]|].
  change (zlen (@nil DomainTransactionInput)) with 0 in Hrun. unfold validateTransactionScripts. unfold bind at 1.
  rewrite (bind_ret_l _ _ s s T) by (by rewrite <- Hs). rewrite Hrun. assert (o = Ret () ↔ scripts_ok T) as Hiff by exact Hscripts.
  assert (state_ok T s2) as Hs2 by (by apply state_ok_self).
  destruct o as [[]|e|c]; [|apply decides_fail; [done|done|]; intros [_ Hno]; by apply Hiff in Hno|done].
  assert (∃ mass, transactionMass v tx = Ret mass) as [mass Hmass].
  { unfold transactionMass. rewrite Hcb. destruct (sigOpsLoop_populated (tx_Inputs tx)) with (n := 0) as [count ->]; [|by eexists].
    rewrite Hin. eapply Forall_impl; [exact Hall|]. intros i (e & He & _). by exists e. }
  assert (ts_tx (put_tx (set_Mass mass) s2) = set_Mass mass T) as Hfinal by (simpl; by rewrite HT).
  unfold populateMass. rewrite Hmass. split; [done|]. split; [|split; [split; [|done]; intros _; split; [done|by apply Hiff]|]].
  - split; [done|]. exists (tx_Fee T), mass. simpl. rewrite HT. by destruct T.
  - intros _. by exists mass.
Qed.

Lemma in_context_spec pov m tx c1 c2 : pov ∈ dom S → 0 ≤ m → tx_ok tx → IsCoinBase tx = false → total_out tx ≤ MaxSompi →
  (∀ c, c1 = Some c → cache_ok c) → (∀ c, c2 = Some c → cache_ok c) →
  decides (set_Fee (fee tx) tx) (spends_ok pov m tx ∧ scripts_ok (set_Fee (fee tx) tx))
    (ValidateTransactionInContextAndPopulateMassAndFee v cs pov m {| ts_tx := tx; ts_sigCache := c1; ts_sigCacheECDSA := c2 |}).
Proof using All.
  intros Hp Hm [Hval Hsigs Ham Hsc Hscr] Hcb Hout H1 H2. set (s := {| ts_tx := tx; ts_sigCache := c1; ts_sigCacheECDSA := c2 |}).
  assert (state_ok (set_Fee (fee tx) tx) s) as Hs.
  { split; [done|]. exists (tx_Fee tx), (tx_Mass tx). simpl. by destruct tx. }
  assert (typed (tx_Inputs tx)) as Htyped.
  { apply Forall_forall. intros i Hi e He. split_and!; try (by eapply Ham); try (by eapply Hsc). by eapply Hscr. }
  assert (0 ≤ total_out tx) as Hnn by (apply sumZ_nonneg; intros x (o & -> & Ho)%list_elem_of_fmap; by apply Hval).
  unfold ValidateTransactionInContextAndPopulateMassAndFee. rewrite (bind_ret_l _ _ s s tx) by done.
  destruct (maturity_check_spec pov tx Hp Htyped) as [Hc1 Hmat]. apply decides_check; [done|done| |].
  2:{ intros Hno [[He _ Hma _] _]. apply (Hno ()), Hmat, populated_all. split; [done|]. intros i e Hi. by apply Hma. }
  intros [] [Hpop Hma]%Hmat%populated_all.
  destruct (inputAmountsLoop_spec (tx_Inputs tx) Htyped 0 [] ltac:(by vm_compute)) as [Hc2 Hin]. apply decides_check; [done|done| |].
  2:{ intros Hno [[He Hv _ _] _]. apply (Hno (total_in tx)), Hin. split_and!; [done|by apply populated_all|done|apply Hv]. }
  intros totalIn (_ & Etot & Hle)%Hin. rewrite Z.add_0_l in Etot. fold (total_in tx) in Etot. subst totalIn.
  rewrite outputs_check_spec by done. apply decides_check; [by case_match|done| |].
  2:{ intros Hno [[_ Hv _ _] _]. destruct (Z.ltb_spec (total_in tx) (total_out tx)); [lia|by destruct (Hno (total_out tx))]. }
  intros totalOut. destruct (Z.ltb_spec (total_in tx) (total_out tx)) as [|Hspend]; [done|]. intros [= <-].
  rewrite GoInt.uint64_id by (unfold MaxSompi, SompiPerKaspa in *; lia).
  set (s1 := {| ts_tx := set_Fee (fee tx) tx; ts_sigCache := c1; ts_sigCacheECDSA := c2 |}). rewrite (bind_ret_l _ _ s s1 ()) by done.
  assert (state_ok (set_Fee (fee tx) tx) s1) as Hs1 by (by apply state_ok_self).
  destruct (sequence_check_spec pov m tx Hp Hm Hcb Htyped) as [Hc3 Hlocks]. apply decides_check; [done|done| |].
  2:{ intros Hno [[He _ _ Hlk] _]. apply (Hno ()), Hlocks, populated_all. done. }
  intros [] [_ Hlk]%Hlocks%populated_all. apply scripts_and_mass_spec; try done.
  apply populated_all. split; [done|]. intros i e Hi He. unfold typed in Htyped. rewrite Forall_forall in Htyped. by apply (Htyped i).
Qed.
End Context.

(** ** Properties *)
Module TransactionProps.
(** Validation in isolation decides [isolation_ok], for every transaction whose
    output values are 64-bit: no sum wraps, no check panics, and a transaction passes
    exactly when it has an input (or is a coinbase), its outputs sum to at most
    [MaxSompi], its inputs are distinct, and payload, gas, subnetwork and version are
    as its subnetwork demands. *)
Theorem ValidateTransactionInIsolation_correct (v : transactionValidator) (tx : DomainTransaction) :
  uint64_values tx → 0 ≤ tx_Gas tx →
  rules_only (ValidateTransactionInIsolation v tx) ∧ (ValidateTransactionInIsolation v tx = Ret () ↔ isolation_ok v tx).
Proof. apply isolation_spec. Qed.

Definition sample_validator : transactionValidator :=
  {| tv_blockCoinbaseMaturity := 100; tv_enableNonNativeSubnetworks := false; tv_massPerTxByte := 1; tv_massPerScriptPubKeyByte := 10;
     tv_massPerSigOp := 10000; tv_maxCoinbasePayloadLength := 150;
     tv_pastMedianTimeManager := {| pm_timestampDeviationTolerance := 2; pm_genesisHash := [0] |} |}.
Definition sample_spend : DomainTransaction :=
  {| tx_Version := 0;
     tx_Inputs := [{| in_PreviousOutpoint := NewDomainOutpoint (replicate 32 0) 0; in_SignatureScript := [OpcodeTable.Op.Op1]; in_Sequence := 2 ^ 31;
                      in_UTXOEntry := Some {| ue_amount := 1000; ue_scriptPublicKey := EngineProps.sample_spk; ue_blockDAAScore := 0;
                                              ue_isCoinbase := false |} |}];
     tx_Outputs := [{| out_Value := 900; out_ScriptPublicKey := EngineProps.sample_spk |}];
     tx_LockTime := 0; tx_SubnetworkID := SubnetworkIDNative; tx_Gas := 0; tx_Payload := []; tx_Fee := 0; tx_Mass := 0; tx_ID := None |}.

Lemma ValidateTransactionInIsolation_correct_witness :
  rules_only (ValidateTransactionInIsolation sample_validator sample_spend) ∧
  (ValidateTransactionInIsolation sample_validator sample_spend = Ret () ↔ isolation_ok sample_validator sample_spend).
Proof.
  apply (ValidateTransactionInIsolation_correct sample_validator sample_spend); [|done].
  intros o [->|?%elem_of_nil]%elem_of_cons; [vm_compute; split; [discriminate|reflexivity]|done].
Defined.

(** C14: validation in context decides whether a transaction may spend its inputs.  On
    a consistent DAG, for a transaction that passed in isolation, it never panics,
    loops or misses data, and ends with nil or a rule error; it accepts exactly
    when every input has its entry, the inputs' sum is at most [MaxSompi] and covers
    the outputs, coinbase entries are mature, relative locks have passed and every
    input's scripts accept (judged without caches); the fee it
    writes is then exactly the difference of the sums, in every case only fee and
    mass of the transaction change, and the signature caches stay valid. *)
Theorem ValidateTransactionInContext_correct `{LibsOk} (v : transactionValidator) (cs : consensus)
    (dag_parents : list Z → list (list Z)) (k : Z) (pov : list Z) (m : Z) (tx : DomainTransaction)
    (c1 : option (SigCache SchnorrSignature SchnorrPublicKey)) (c2 : option (SigCache ECDSASignature ECDSAPublicKey)) :
  context_ok v cs dag_parents k → pov ∈ dom (ghostdag_of cs) → 0 ≤ m → tx_ok tx → 0 ≤ tx_Gas tx → IsCoinBase tx = false →
  ValidateTransactionInIsolation v tx = Ret () →
  (∀ c, c1 = Some c → cache_ok c) → (∀ c, c2 = Some c → cache_ok c) →
  let fee := total_in tx - total_out tx in
  let '(s', o) := ValidateTransactionInContextAndPopulateMassAndFee v cs pov m {| ts_tx := tx; ts_sigCache := c1; ts_sigCacheECDSA := c2 |} in
  rules_only o ∧ state_ok tx s' ∧
  (o = Ret () ↔ spends_ok v cs pov m tx ∧ scripts_ok (set_Fee fee tx)) ∧
  (o = Ret () → ∃ mass, ts_tx s' = set_Mass mass (set_Fee fee tx)).
Proof.
  intros Hok Hp Hm Htx Hgas Hcb Hiso H1 H2. cbv zeta. pose proof Htx as [Hval _ _ _ _].
  apply (isolation_spec v tx Hval Hgas) in Hiso as [_ Hout _ _ _ _ _ _ _].
  pose proof (in_context_spec v cs dag_parents k Hok pov m tx c1 c2 Hp Hm Htx Hcb Hout H1 H2) as Hd.
  destruct (ValidateTransactionInContextAndPopulateMassAndFee _ _ _ _ _) as [s' o]. destruct Hd as (? & [Hc (f & mass & E)] & ? & ?).
  split_and!; try done. split; [done|]. by exists f, mass.
Qed.

Definition sample_cs : consensus :=
  {| cs_finality := {| fm_topology := {| dt_reachabilityManager :=
         {| reachabilityDataStore := ∅; reachabilityReindexRoot := None; ghostdagDataStore := {[ [0] := emptyData ]};
            reindexSlack := 0; reindexWindow := 0 |}; dt_blockRelationStore := ∅ |};
       fm_finalityStore := ∅; fm_genesisHash := [0]; fm_finalityDepth := 86400 |};
     cs_headers := {[ [0] := GhostdagProps.sample_header ]};
     cs_daa := {| daa_scores := {[ [0] := 0 ]}; daa_addedBlocks := ∅ |}; cs_statuses := ∅; cs_pruningPoint := None |}.

Lemma sample_context_ok : context_ok sample_validator sample_cs GhostdagProps.sample_dag 18.
Proof.
  assert (∀ x, x ∈ dom (ghostdag_of sample_cs) → x = [0]) as H0.
  { intros x Hx. change (x ∈ dom ({[ [0] := emptyData ]} : gmap (list Z) BlockGHOSTDAGData)) in Hx. rewrite dom_singleton in Hx.
    by apply elem_of_singleton in Hx. }
  split; [by apply genesis_ok|done| | |done|done].
  - intros x ->%H0 _. exists GhostdagProps.sample_header. split; [reflexivity|split; vm_compute; [discriminate|reflexivity]].
  - intros x ->%H0. split; [by eexists|split; vm_compute; [discriminate|reflexivity]].
Qed.

Lemma sample_spend_ok : tx_ok sample_spend.
Proof.
  split.
  - intros o [->|?%elem_of_nil]%elem_of_cons; [vm_compute; split; [discriminate|reflexivity]|done].
  - repeat constructor; vm_compute; discriminate.
  - intros i e Hi He. apply elem_of_cons in Hi as [->|?%elem_of_nil]; [|done]. injection He as <-. vm_compute. split; [discriminate|reflexivity].
  - intros i e Hi He. apply elem_of_cons in Hi as [->|?%elem_of_nil]; [|done]. injection He as <-. vm_compute. split; [discriminate|reflexivity].
  - intros i e Hi He. apply elem_of_cons in Hi as [->|?%elem_of_nil]; [|done]. injection He as <-. repeat constructor; vm_compute; discriminate.
Qed.

Definition sample_validated :=
  ValidateTransactionInContextAndPopulateMassAndFee sample_validator sample_cs [0] 10 {| ts_tx := sample_spend; ts_sigCache := None; ts_sigCacheECDSA := None |}.

Lemma ValidateTransactionInContext_correct_witness :
  snd sample_validated = Ret () ∧ tx_Fee (ts_tx (fst sample_validated)) = 100 ∧
  let '(s', o) := sample_validated in
  rules_only o ∧ state_ok sample_spend s' ∧
  (o = Ret () ↔ spends_ok sample_validator sample_cs [0] 10 sample_spend ∧ scripts_ok (set_Fee (1000 - 900) sample_spend)) ∧
  (o = Ret () → ∃ mass, ts_tx s' = set_Mass mass (set_Fee (1000 - 900) sample_spend)).
Proof.
  split; [vm_compute; reflexivity|]. split; [vm_compute; reflexivity|].
  apply (ValidateTransactionInContext_correct sample_validator sample_cs GhostdagProps.sample_dag 18 [0] 10 sample_spend None None).
  - exact sample_context_ok.
  - change ([0] ∈ dom ({[ [0] := emptyData ]} : gmap (list Z) BlockGHOSTDAGData)). rewrite dom_singleton. by apply elem_of_singleton.
  - lia.
  - exact sample_spend_ok.
  - done.
  - reflexivity.
  - vm_compute. reflexivity.
  - done.
  - done.
Defined.
End TransactionProps.
