(* ===== verification/PastUtxo.v ===== *)
(** * Past UTXO sets and acceptance (processes/consensusstatemanager)

    calculate_past_utxo.go, populate_tx_with_utxo_entries.go and multisets.go: how a block
    applies the transactions of its merge set to the UTXO set of its selected parent,
    which of them it accepts, and the multiset that commits to the result.

    The stores are the maps a reader sees.  Blocks come out of the block store as
    copies, so a transaction is a value that is returned with its entries, fee and mass
    filled in; the mutable state is the diff that accumulates and the validator's
    signature caches.  MuHash (go-muhash) is the class [MuHash]: its group laws hold
    up to [ms_equiv], since a MuHash is a fraction that is only reduced when it is
    finalized. *)
From S2P Require Import Prelude Externalapi UtxoDiff ScriptNum ScriptStack OpcodeTable Script Hashing SigCache Opcode Engine.
From S2P Require Import Interval ReachabilityData Reachability DagTopology Block Ghostdag Window DifficultyManager Traversal HeaderValidation TransactionValidator.
Import Serialization TransactionHashing SigCache Opcode Ghostdag PastMedianTime Header HeaderValidation TransactionValidator.
Local Open Scope Z_scope.
Local Open Scope prog_scope.

Abbreviation hash := (list Z) (only parsing).

(** ** Multisets (utils/multiset) *)
Class MuHash := {
  muhash : Type;
  ms_New : muhash;
  ms_Add : muhash → list Z → muhash;
  ms_Remove : muhash → list Z → muhash;
  ms_Hash : muhash → hash;
  ms_equiv : relation muhash
}.

Class MuHashOk `{MuHash} : Prop := {
  ms_equivalence :: Equivalence ms_equiv;
  ms_Add_proper :: Proper (ms_equiv ==> eq ==> ms_equiv) ms_Add;
  ms_Remove_proper :: Proper (ms_equiv ==> eq ==> ms_equiv) ms_Remove;
  ms_Hash_proper :: Proper (ms_equiv ==> eq) ms_Hash;
  ms_Add_Add m a b : ms_equiv (ms_Add (ms_Add m a) b) (ms_Add (ms_Add m b) a);
  ms_Remove_Add m a b : ms_equiv (ms_Remove (ms_Add m b) a) (ms_Add (ms_Remove m a) b);
  ms_Remove_Remove m a b : ms_equiv (ms_Remove (ms_Remove m a) b) (ms_Remove (ms_Remove m b) a);
  ms_inverse m a : ms_equiv (ms_Remove (ms_Add m a) a) m
}.

(** ** Serialized entries (utils/utxo/serialization.go); writing to a buffer does not fail *)
Definition serializeOutpoint (w : list Z) (outpoint : DomainOutpoint) : list Z :=
  WriteElement (w ++ op_TransactionID outpoint) (E_uint32 (op_Index outpoint)).
Definition serializeUTXOEntry (w : list Z) (entry : utxoEntry) : list Z :=
  let w := WriteElements w [E_uint64 (ue_blockDAAScore entry); E_uint64 (ue_amount entry); E_bool (ue_isCoinbase entry)] in
  let w := WriteElement w (E_uint16 (spk_Version (ue_scriptPublicKey entry))) in
  let count := zlen (spk_Script (ue_scriptPublicKey entry)) in
  WriteElement w (E_uint64 count) ++ spk_Script (ue_scriptPublicKey entry).
Definition SerializeUTXO (entry : utxoEntry) (outpoint : DomainOutpoint) : list Z :=
  serializeUTXOEntry (serializeOutpoint [] outpoint) entry.

(** ** Acceptance data (model/externalapi/acceptancedata.go) *)
Record TransactionAcceptanceData := {
  ta_Transaction : DomainTransaction;
  ta_Fee : Z;
  ta_IsAccepted : bool;
  ta_TransactionInputUTXOEntries : list (option utxoEntry)
}.
Record BlockAcceptanceData := {
  ba_BlockHash : hash;
  ba_TransactionAcceptanceData : list TransactionAcceptanceData
}.

Inductive acceptError :=
  | AcceptTx (e : txError)
  | AcceptUtxo (e : utxoError).

Record consensusStateManager := {
  csm_maxMassAcceptedByBlock : Z;
  csm_genesisHash : hash;
  csm_transactionValidator : transactionValidator
}.

Record utxoStores `{MuHash} := {
  us_consensus : consensus;
  us_blocks : gmap hash DomainBlock;
  us_virtualUTXO : utxoCollection;
  us_utxoDiffs : gmap hash diff;
  us_utxoDiffChildren : gmap hash hash;
  us_multisets : gmap hash muhash
}.

Definition set_Inputs (inputs : list DomainTransactionInput) (tx : DomainTransaction) : DomainTransaction :=
  {| tx_Version := tx_Version tx; tx_Inputs := inputs; tx_Outputs := tx_Outputs tx; tx_LockTime := tx_LockTime tx;
     tx_SubnetworkID := tx_SubnetworkID tx; tx_Gas := tx_Gas tx; tx_Payload := tx_Payload tx; tx_Fee := tx_Fee tx;
     tx_Mass := tx_Mass tx; tx_ID := tx_ID tx |}.
Definition set_UTXOEntry (entry : utxoEntry) (input : DomainTransactionInput) : DomainTransactionInput :=
  {| in_PreviousOutpoint := in_PreviousOutpoint input; in_SignatureScript := in_SignatureScript input;
     in_Sequence := in_Sequence input; in_UTXOEntry := Some entry |}.

Module PastUtxo.
(** ** Populating a transaction *)

(** One input: [None] when its outpoint is missing. *)
Definition populateInput (virtual : utxoCollection) (utxoDiff : option diff) (transactionInput : DomainTransactionInput) : option DomainTransactionInput :=
  match in_UTXOEntry transactionInput with
  | Some _ => Some transactionInput
  | None =>
      let outpoint := in_PreviousOutpoint transactionInput in
      let fromVirtual := (λ utxoEntry, set_UTXOEntry utxoEntry transactionInput) <$> virtual !! outpoint in
      match utxoDiff with
      | None => fromVirtual
      | Some utxoDiff =>
          match toAdd utxoDiff !! outpoint with
          | Some utxoEntry => Some (set_UTXOEntry utxoEntry transactionInput)
          | None => if bool_decide (is_Some (toRemove utxoDiff !! outpoint)) then None else fromVirtual
          end
      end
  end.

Fixpoint populateInputs (virtual : utxoCollection) (utxoDiff : option diff) (inputs : list DomainTransactionInput) :
    list DomainTransactionInput * list DomainOutpoint :=
  match inputs with
  | [] => ([], [])
  | input :: rest =>
      let '(populated, missingOutpoints) := populateInputs virtual utxoDiff rest in
      match populateInput virtual utxoDiff input with
      | Some input => (input :: populated, missingOutpoints)
      | None => (input :: populated, in_PreviousOutpoint input :: missingOutpoints)
      end
  end.

(** The inputs that were found keep their entries also when another one is missing. *)
Definition populateTransactionWithUTXOEntriesFromVirtualOrDiff (virtual : utxoCollection) (transaction : DomainTransaction)
    (utxoDiff : option diff) : DomainTransaction * outcome txError unit :=
  let '(inputs, missingOutpoints) := populateInputs virtual utxoDiff (tx_Inputs transaction) in
  (set_Inputs inputs transaction, orMissing missingOutpoints ()).

Definition PopulateTransactionWithUTXOEntries (virtual : utxoCollection) (transaction : DomainTransaction) :
    DomainTransaction * outcome txError unit :=
  populateTransactionWithUTXOEntriesFromVirtualOrDiff virtual transaction None.

Section StateManager.
Context `{Libs} `{MuHash}.
Variable csm : consensusStateManager.
Variable stores : utxoStores.
Abbreviation cs := (us_consensus stores).

Record acceptState := {
  ac_diff : diff;
  ac_sigCache : option (SigCache SchnorrSignature SchnorrPublicKey);
  ac_sigCacheECDSA : option (SigCache ECDSASignature ECDSAPublicKey)
}.
Abbreviation accepting A := (prog acceptState acceptError A) (only parsing).

Definition fromTx {A} (o : outcome txError A) : outcome acceptError A :=
  match o with Ret a => Ret a | Fail e => Fail (AcceptTx e) | Crash c => Crash c end.

Definition checkTransactionMass (transaction : DomainTransaction) (accumulatedMassBefore : Z) : bool * Z :=
  let accumulatedMassAfter := GoInt.uint64 (accumulatedMassBefore + tx_Mass transaction) in
  if (accumulatedMassAfter <? tx_Mass transaction) || (csm_maxMassAcceptedByBlock csm <? accumulatedMassAfter) then (false, 0)
  else (true, accumulatedMassAfter).

(** [accumulatedUTXODiff.AddTransaction] *)
Definition addToDiff (transaction : DomainTransaction) (blockDAAScore : Z) : accepting unit :=
  λ s, let '(d, o) := AddTransaction (λ tx, fst (TransactionID tx)) transaction blockDAAScore (ac_diff s) in
       ({| ac_diff := d; ac_sigCache := ac_sigCache s; ac_sigCacheECDSA := ac_sigCacheECDSA s |},
        match o with Ret a => Ret a | Fail e => Fail (AcceptUtxo e) | Crash c => Crash c end).

(** [ValidateTransactionInContextAndPopulateMassAndFee] with the caches of the validator: the
    transaction as it is afterwards and the result, where an error that is not a rule
    error is an error. *)
Definition validateInContext (transaction : DomainTransaction) (blockHash : hash) (medianTime : Z) : accepting (DomainTransaction * bool) :=
  λ s, let '(t, o) := ValidateTransactionInContextAndPopulateMassAndFee (csm_transactionValidator csm) cs blockHash medianTime
                        {| ts_tx := transaction; ts_sigCache := ac_sigCache s; ts_sigCacheECDSA := ac_sigCacheECDSA s |} in
       ({| ac_diff := ac_diff s; ac_sigCache := ts_sigCache t; ac_sigCacheECDSA := ts_sigCacheECDSA t |},
        match o with
        | Ret _ => Ret (ts_tx t, true)
        | Fail (TxRule _) => Ret (ts_tx t, false)
        | Fail e => Fail (AcceptTx e)
        | Crash c => Crash c
        end).

(** The result: is it accepted, the accumulated mass, and the transaction.  A coinbase
    returns the named result [accumulatedMassAfter] unset, which is 0. *)
Definition maybeAcceptTransaction (transaction : DomainTransaction) (blockHash : hash) (isSelectedParent : bool)
    (accumulatedMassBefore selectedParentPastMedianTime blockDAAScore : Z) : accepting (bool * Z * DomainTransaction) :=
  let transaction := snd (TransactionID transaction) in
  let* utxoDiff := gets ac_diff in
  match populateTransactionWithUTXOEntriesFromVirtualOrDiff (us_virtualUTXO stores) transaction (Some utxoDiff) with
  | (transaction, Fail (TxRule _)) => ret (false, accumulatedMassBefore, transaction)
  | (_, Fail e) => fail (AcceptTx e)
  | (_, Crash c) => crash_with c
  | (transaction, Ret _) =>
      if IsCoinBase transaction then
        if negb isSelectedParent then ret (false, accumulatedMassBefore, transaction)
        else addToDiff transaction blockDAAScore ;;* ret (true, 0, transaction)
      else
        let* validated := validateInContext transaction blockHash selectedParentPastMedianTime in
        let '(transaction, isValid) := validated in
        if negb isValid then ret (false, accumulatedMassBefore, transaction)
        else
          let '(isAccepted, accumulatedMassAfter) := checkTransactionMass transaction accumulatedMassBefore in
          if negb isAccepted then ret (false, accumulatedMassBefore, transaction)
          else addToDiff transaction blockDAAScore ;;* ret (true, accumulatedMassAfter, transaction)
  end.

(** [for j, transaction := range mergeSetBlock.Transactions] *)
Fixpoint acceptTransactions (transactions : list DomainTransaction) (blockHash : hash) (isSelectedParent : bool)
    (accumulatedMass medianTime daaScore : Z) : accepting (Z * list TransactionAcceptanceData) :=
  match transactions with
  | [] => ret (accumulatedMass, [])
  | transaction :: rest =>
      let* result := maybeAcceptTransaction transaction blockHash isSelectedParent accumulatedMass medianTime daaScore in
      let '(isAccepted, accumulatedMass, transaction) := result in
      let data := {| ta_Transaction := transaction; ta_Fee := tx_Fee transaction; ta_IsAccepted := isAccepted;
                     ta_TransactionInputUTXOEntries := if isAccepted : bool then map in_UTXOEntry (tx_Inputs transaction) else [] |} in
      let* accepted := acceptTransactions rest blockHash isSelectedParent accumulatedMass medianTime daaScore in
      ret (fst accepted, data :: snd accepted)
  end.

(** [for i, mergeSetBlock := range mergeSetBlocks] *)
Fixpoint acceptBlocks (mergeSetBlocks : list DomainBlock) (i : Z) (blockHash : hash) (accumulatedMass medianTime daaScore : Z) :
    accepting (list BlockAcceptanceData) :=
  match mergeSetBlocks with
  | [] => ret []
  | mergeSetBlock :: rest =>
      let isSelectedParent := i =? 0 in
      let* accepted := acceptTransactions (bk_Transactions mergeSetBlock) blockHash isSelectedParent accumulatedMass medianTime daaScore in
      let '(accumulatedMass, transactionAcceptanceData) := accepted in
      let data := {| ba_BlockHash := BlockHash mergeSetBlock; ba_TransactionAcceptanceData := transactionAcceptanceData |} in
      let* multiblockAcceptanceData := acceptBlocks rest (i + 1) blockHash accumulatedMass medianTime daaScore in
      ret (data :: multiblockAcceptanceData)
  end.

(** [blockStore.Blocks] *)
Fixpoint Blocks (blockHashes : list hash) : outcome acceptError (list DomainBlock) :=
  match blockHashes with
  | [] => Ret []
  | h :: rest =>
      let? block := fromTx (fromStore (Get (us_blocks stores) h)) in
      let? blocks := Blocks rest in
      Ret (block :: blocks)
  end.

(** The diff starts as a copy of the selected parent's. *)
Definition applyMergeSetBlocks (blockHash : hash) (selectedParentPastUTXODiff : diff) (ghostdagData : BlockGHOSTDAGData) (daaScore : Z) :
    accepting (list BlockAcceptanceData) :=
  let* mergeSetBlocks := lift_outcome (Blocks (mergeSetBlues ghostdagData ++ mergeSetReds ghostdagData)) in
  let* selectedParentMedianTime := lift_outcome (fromTx (fromMedian (PastMedianTime
    (tv_pastMedianTimeManager (csm_transactionValidator csm)) (ghostdag_of cs) (cs_headers cs) blockHash))) in
  modify (λ s, {| ac_diff := diff_clone selectedParentPastUTXODiff; ac_sigCache := ac_sigCache s; ac_sigCacheECDSA := ac_sigCacheECDSA s |}) ;;*
  acceptBlocks mergeSetBlocks 0 blockHash 0 selectedParentMedianTime daaScore.

(** ** Multisets (multisets.go) *)
Definition addUTXOToMultiset (multiset : muhash) (entry : utxoEntry) (outpoint : DomainOutpoint) : muhash :=
  ms_Add multiset (SerializeUTXO entry outpoint).
Definition removeUTXOFromMultiset (multiset : muhash) (entry : utxoEntry) (outpoint : DomainOutpoint) : muhash :=
  ms_Remove multiset (SerializeUTXO entry outpoint).

Fixpoint removeInputsFromMultiset (inputs : list DomainTransactionInput) (multiset : muhash) : outcome acceptError muhash :=
  match inputs with
  | [] => Ret multiset
  | input :: rest =>
      match in_UTXOEntry input with
      | None => Crash NilDereference
      | Some entry => removeInputsFromMultiset rest (removeUTXOFromMultiset multiset entry (in_PreviousOutpoint input))
      end
  end.
Fixpoint addOutputsToMultiset (transactionID : DomainTransactionID) (blockDAAScore : Z) (isCoinbase : bool) (i : Z)
    (outputs : list DomainTransactionOutput) (multiset : muhash) : muhash :=
  match outputs with
  | [] => multiset
  | output :: rest =>
      let outpoint := {| op_TransactionID := transactionID; op_Index := GoInt.uint32 i |} in
      let utxoEntry := NewUTXOEntry (out_Value output) (out_ScriptPublicKey output) isCoinbase blockDAAScore in
      addOutputsToMultiset transactionID blockDAAScore isCoinbase (i + 1) rest (addUTXOToMultiset multiset utxoEntry outpoint)
  end.

Definition addTransactionToMultiset (multiset : muhash) (transaction : DomainTransaction) (blockDAAScore : Z) (isCoinbase : bool) :
    outcome acceptError muhash :=
  let? multiset := removeInputsFromMultiset (tx_Inputs transaction) multiset in
  Ret (addOutputsToMultiset (fst (TransactionID transaction)) blockDAAScore isCoinbase 0 (tx_Outputs transaction) multiset).

Fixpoint addBlockToMultiset (data : list TransactionAcceptanceData) (i daaScore : Z) (multiset : muhash) : outcome acceptError muhash :=
  match data with
  | [] => Ret multiset
  | transactionAcceptanceData :: rest =>
      let? multiset :=
        if negb (ta_IsAccepted transactionAcceptanceData) then Ret multiset
        else addTransactionToMultiset multiset (ta_Transaction transactionAcceptanceData) daaScore (i =? 0) in
      addBlockToMultiset rest (i + 1) daaScore multiset
  end.
Fixpoint addBlocksToMultiset (acceptanceData : list BlockAcceptanceData) (daaScore : Z) (multiset : muhash) : outcome acceptError muhash :=
  match acceptanceData with
  | [] => Ret multiset
  | blockAcceptanceData :: rest =>
      let? multiset := addBlockToMultiset (ba_TransactionAcceptanceData blockAcceptanceData) 0 daaScore multiset in
      addBlocksToMultiset rest daaScore multiset
  end.

Definition calculateMultiset (acceptanceData : list BlockAcceptanceData) (blockGHOSTDAGData : BlockGHOSTDAGData) (daaScore : Z) :
    outcome acceptError muhash :=
  match selectedParent blockGHOSTDAGData with
  | None => Ret ms_New
  | Some parent =>
      let? ms := fromTx (fromStore (Get (us_multisets stores) parent)) in
      addBlocksToMultiset acceptanceData daaScore ms
  end.

(** ** The past UTXO of a block *)

(** Follow the diff children up to the virtual; they form a chain of known blocks. *)
Fixpoint collectDiffs (fuel : nat) (nextBlockHash : hash) : outcome acceptError (list diff) :=
  match fuel with
  | O => Crash OutOfFuel
  | Datatypes.S fuel =>
      let? utxoDiff := fromTx (fromStore (Get (us_utxoDiffs stores) nextBlockHash)) in
      match us_utxoDiffChildren stores !! nextBlockHash with
      | None => Ret [utxoDiff]
      | Some child => let? utxoDiffs := collectDiffs fuel child in Ret (utxoDiff :: utxoDiffs)
      end
  end.

(** The diffs in reverse order, each applied to the ones before it. *)
Fixpoint accumulateDiffs (utxoDiffs : list diff) (accumulatedDiff : diff) : outcome acceptError diff :=
  match utxoDiffs with
  | [] => Ret accumulatedDiff
  | utxoDiff :: rest =>
      match withDiffInPlace accumulatedDiff utxoDiff with
      | (accumulatedDiff, Ret _) => accumulateDiffs rest accumulatedDiff
      | (_, Fail e) => Fail (AcceptUtxo e)
      | (_, Crash c) => Crash c
      end
  end.

Definition restorePastUTXO (blockHash : hash) : outcome acceptError diff :=
  let? utxoDiffs := collectDiffs (Datatypes.S (size (us_utxoDiffs stores))) blockHash in
  accumulateDiffs (reverse utxoDiffs) (mkDiff ∅ ∅).

Definition calculatePastUTXOAndAcceptanceDataWithSelectedParentUTXO (blockHash : hash) (selectedParentPastUTXO : diff) :
    accepting (diff * list BlockAcceptanceData * muhash) :=
  let* blockGHOSTDAGData := lift_outcome (fromTx (fromStore (Get (ghostdag_of cs) blockHash))) in
  let* daaScore := lift_outcome (fromTx (DAAScore cs blockHash)) in
  let* acceptanceData := applyMergeSetBlocks blockHash selectedParentPastUTXO blockGHOSTDAGData daaScore in
  let* multiset := lift_outcome (calculateMultiset acceptanceData blockGHOSTDAGData daaScore) in
  let* utxoDiff := gets ac_diff in
  ret (utxoDiff, acceptanceData, multiset).

Definition CalculatePastUTXOAndAcceptanceData (blockHash : hash) : accepting (diff * list BlockAcceptanceData * muhash) :=
  if bool_decide (blockHash = csm_genesisHash csm) then ret (mkDiff ∅ ∅, [], ms_New)
  else
    let* blockGHOSTDAGData := lift_outcome (fromTx (fromStore (Get (ghostdag_of cs) blockHash))) in
    let* selectedParentPastUTXO :=
      match selectedParent blockGHOSTDAGData with
      | None => crash_with NilDereference
      | Some parent => lift_outcome (restorePastUTXO parent)
      end in
    calculatePastUTXOAndAcceptanceDataWithSelectedParentUTXO blockHash selectedParentPastUTXO.
End StateManager.
End PastUtxo.
