(* ===== verification/UtxoAcceptance.v ===== *)
(** * What a block does to the UTXO set of its selected parent

    The acceptance of a merge set as a sequence of transactions on UTXO sets: every
    accepted transaction spends entries of the set at its turn and creates new ones, no
    value appears out of nothing, and the multiset follows the set.

    Outpoints are not created twice because transaction ids are not reused: [history]
    has the ids of the transactions accepted so far with the outpoints they spent, and
    [history_ok] is its invariant. *)
From S2P Require Import Prelude Externalapi UtxoDiff ScriptNum ScriptStack OpcodeTable Script Hashing SigCache Opcode Engine.
From S2P Require Import OpcodeSafety EngineSafety SigSpec CacheTransparency.
From S2P Require Import Interval ReachabilityData Reachability ReachabilityTree ReachabilityAdd DagTopology Block Ghostdag GhostdagOrder GhostdagColour Window DifficultyManager Traversal HeaderValidation TransactionValidator TransactionSafety PastUtxo.
Import TransactionHashing SigCache Opcode Ghostdag PastMedianTime Header HeaderValidation TransactionValidator PastUtxo.
Local Open Scope Z_scope.
Local Open Scope prog_scope.

(** ** The value of a UTXO set *)
Definition value (U : utxoCollection) : Z := map_fold (λ _ e total, ue_amount e + total) 0 U.

Lemma value_insert U o e : U !! o = None → value (<[o := e]> U) = ue_amount e + value U.
Proof. intros Ho. unfold value. rewrite map_fold_insert_L; [done|intros; lia|done]. Qed.
Lemma value_delete U o e : U !! o = Some e → value U = ue_amount e + value (delete o U).
Proof. intros Ho. unfold value. rewrite (map_fold_delete_L _ _ o e); [done|intros; lia|done]. Qed.

Definition outpoints (tx : DomainTransaction) : list DomainOutpoint := map in_PreviousOutpoint (tx_Inputs tx).

Lemma spend_lookup inputs : ∀ U o, spend U inputs !! o = if decide (o ∈ map in_PreviousOutpoint inputs) then None else U !! o.
Proof.
  induction inputs as [|i inputs IH]; intros U o; [done|]. unfold spend in *. simpl. rewrite IH.
  destruct (decide (o ∈ map in_PreviousOutpoint inputs)) as [Hin|Hin]; [by rewrite decide_True by (by right)|].
  destruct (decide (o = in_PreviousOutpoint i)) as [->|Hne]; [rewrite decide_True by (by left); by rewrite lookup_delete_eq|].
  rewrite decide_False by (rewrite elem_of_cons; tauto). by rewrite lookup_delete_ne.
Qed.

Lemma spendable_cons U i inputs : spendable U (i :: inputs) ↔
  in_PreviousOutpoint i ∉ map in_PreviousOutpoint inputs ∧
  (∃ e, in_UTXOEntry i = Some e ∧ U !! in_PreviousOutpoint i = Some e) ∧ spendable (delete (in_PreviousOutpoint i) U) inputs.
Proof.
  unfold spendable. rewrite fmap_cons, NoDup_cons. split.
  - intros [[Hni Hnd] Hall]. split_and!; [done|apply Hall; by left|done|]. intros j Hj. destruct (Hall j ltac:(by right)) as (e & He & Hl).
    exists e. split; [done|]. rewrite lookup_delete_ne; [done|]. intros E. apply Hni. rewrite E. by apply list_elem_of_fmap_2.
  - intros (Hni & Hi & Hnd & Hall). split; [done|]. intros j [->|Hj]%elem_of_cons; [done|]. destruct (Hall j Hj) as (e & He & Hl).
    exists e. split; [done|]. by apply lookup_delete_Some in Hl as [].
Qed.

Lemma value_spend inputs : ∀ U, spendable U inputs → value U = sumZ (map ue_amount (omap in_UTXOEntry inputs)) + value (spend U inputs).
Proof.
  induction inputs as [|i inputs IH]; intros U Hs; [unfold sumZ; simpl; done|].
  apply spendable_cons in Hs as (_ & (e & He & Hl) & Hs). rewrite (value_delete U _ e Hl), (IH _ Hs). rewrite amounts_cons, He.
  unfold spend. simpl. lia.
Qed.

Lemma created_id txid cb score outputs : ∀ i o e, (o, e) ∈ created txid cb score i outputs → op_TransactionID o = txid.
Proof.
  induction outputs as [|out outputs IH]; intros i o e; cbn [created]; [by intros ?%elem_of_nil|].
  intros [[= -> ->]|Hin]%elem_of_cons; [done|by eapply IH].
Qed.

Lemma insert_all_lookup es : ∀ U o, is_Some (insert_all U es !! o) → is_Some (U !! o) ∨ ∃ e, (o, e) ∈ es.
Proof.
  induction es as [|[o' e'] es IH]; intros U o; [by left|]. unfold insert_all in *. simpl.
  intros [Hs|(e & He)]%IH; [|right; exists e; by right].
  destruct (decide (o = o')) as [->|Hne]; [right; exists e'; by left|]. rewrite lookup_insert_ne in Hs by done. by left.
Qed.

Lemma insert_all_Some es : ∀ U o e, insert_all U es !! o = Some e → U !! o = Some e ∨ (o, e) ∈ es.
Proof.
  induction es as [|[o' e'] es IH]; intros U o e; [by left|]. unfold insert_all in *. simpl.
  intros [Hs|He]%IH; [|right; by right].
  destruct (decide (o = o')) as [->|Hne]; [rewrite lookup_insert_eq in Hs; injection Hs as ->; right; by left|].
  rewrite lookup_insert_ne in Hs by done. by left.
Qed.

(** Created entries are new to the set. *)
Definition fresh (U : utxoCollection) (es : list (DomainOutpoint * utxoEntry)) : Prop :=
  NoDup (fst <$> es) ∧ ∀ o e, (o, e) ∈ es → U !! o = None.

Lemma fresh_cons U o e es : fresh U ((o, e) :: es) ↔ U !! o = None ∧ fresh (<[o := e]> U) es ∧ o ∉ (fst <$> es).
Proof.
  unfold fresh. rewrite fmap_cons, NoDup_cons. split.
  - intros [[Hni Hnd] Hall]. split_and!; [apply (Hall o e); by left|done| |done]. intros o' e' Hin.
    rewrite lookup_insert_ne; [apply (Hall o' e'); by right|]. intros <-. apply Hni. by apply (list_elem_of_fmap_2 fst _ (o, e')).
  - intros (Ho & [Hnd Hall] & Hni). split; [done|]. intros o' e' [[= -> ->]|Hin]%elem_of_cons; [done|].
    specialize (Hall o' e' Hin). by apply lookup_insert_None in Hall as [].
Qed.

Lemma value_insert_all es : ∀ U, fresh U es → value (insert_all U es) = value U + sumZ (map (λ oe, ue_amount (snd oe)) es).
Proof.
  induction es as [|[o e] es IH]; intros U Hf; [unfold sumZ; simpl; unfold insert_all; simpl; lia|].
  apply fresh_cons in Hf as (Ho & Hf & _). unfold insert_all in *. simpl. rewrite (IH _ Hf), value_insert by done. unfold sumZ. simpl. lia.
Qed.

Lemma created_amounts txid cb score outputs : ∀ i, map (λ oe, ue_amount (snd oe)) (created txid cb score i outputs) = map out_Value outputs.
Proof. induction outputs as [|o outputs IH]; intros i; [done|]. cbn [created map]. by rewrite IH. Qed.

(** ** Histories *)
Abbreviation history := (gmap (list Z) (list DomainOutpoint)) (only parsing).

(** Every entry comes from an accepted transaction; and what an accepted transaction
    spent is gone, and cannot come back without its creator being accepted again. *)
Definition history_ok (H : history) (U : utxoCollection) : Prop :=
  (∀ o, is_Some (U !! o) → is_Some (H !! op_TransactionID o)) ∧
  (∀ id ins, H !! id = Some ins → ins ≠ [] → ∃ o, o ∈ ins ∧ U !! o = None ∧ is_Some (H !! op_TransactionID o)).

Lemma history_accept H U id ins es : history_ok H U → H !! id = None → (∀ o, o ∈ ins → is_Some (U !! o)) →
  (∀ o e, (o, e) ∈ es → op_TransactionID o = id) → (∀ inputs, map in_PreviousOutpoint inputs = ins →
  history_ok (<[id := ins]> H) (insert_all (spend U inputs) es)).
Proof.
  intros [Hin Hdead] Hid Hins Hes inputs Hi. split.
  - intros o [Ho|(e & He)]%insert_all_lookup.
    + rewrite spend_lookup in Ho. case_decide; [by destruct Ho|]. apply lookup_insert_is_Some'. right. by apply Hin.
    + rewrite (Hes o e He). by rewrite lookup_insert_eq.
  - assert (∀ o, is_Some (H !! op_TransactionID o) → (o ∈ ins ∨ U !! o = None) → insert_all (spend U inputs) es !! o = None) as Hgone.
    { intros o Hids Ho. destruct (insert_all _ _ !! o) as [e|] eqn:E; [|done].
      apply mk_is_Some, insert_all_lookup in E as [Hs|(e' & He')].
      - rewrite spend_lookup, Hi in Hs. case_decide; [by destruct Hs|]. destruct Ho as [?|E]; [done|]. rewrite E in Hs. by destruct Hs.
      - rewrite (Hes o e' He'), Hid in Hids. by destruct Hids. }
    intros id' ins' Hid' Hne. destruct (decide (id' = id)) as [->|Hni].
    + rewrite lookup_insert_eq in Hid'. injection Hid' as <-. destruct ins as [|o ins]; [done|].
      exists o. assert (is_Some (H !! op_TransactionID o)) as Ho by (apply Hin, Hins; by left).
      split_and!; [by left|apply Hgone; [done|left; by left]|apply lookup_insert_is_Some'; by right].
    + rewrite lookup_insert_ne in Hid' by done. destruct (Hdead id' ins' Hid' Hne) as (o & Ho & HU & Hids).
      exists o. split_and!; [done|by apply Hgone; [|right]|apply lookup_insert_is_Some'; by right].
Qed.

(** A transaction whose inputs are all there has not been accepted before. *)
Lemma history_new H U id ins : history_ok H U → ins ≠ [] → (∀ ins', H !! id = Some ins' → ins' = ins) → (∀ o, o ∈ ins → is_Some (U !! o)) →
  H !! id = None.
Proof.
  intros [_ Hdead] Hne Hag Hall. destruct (H !! id) as [ins'|] eqn:E; [|done]. specialize (Hag ins' eq_refl) as ->.
  destruct (Hdead id ins E Hne) as (o & Ho & HU & _). specialize (Hall o Ho). rewrite HU in Hall. by destruct Hall.
Qed.

(** ** Transactions as blocks have them *)
Definition utxo_typed (U : utxoCollection) : Prop :=
  ∀ o e, U !! o = Some e → 0 ≤ ue_amount e < 2 ^ 64 ∧ 0 ≤ ue_blockDAAScore e < 2 ^ 62 ∧ are_bytes (spk_Script (ue_scriptPublicKey e)).

Section Acceptance.
Context `{Libs} `{!LibsOk} `{MuHash}.
Variables (csm : consensusStateManager) (stores : utxoStores) (dag_parents : list Z → list (list Z)) (k : Z).
Variables (pov : list Z) (m : Z).
Abbreviation B := (us_virtualUTXO stores).
Abbreviation v := (csm_transactionValidator csm).
Abbreviation cs := (us_consensus stores).
Abbreviation score := (daaOf cs pov).
Abbreviation txid tx := (fst (TransactionID tx)).
Abbreviation set_of s := (apply_diff B (ac_diff s)).
Abbreviation outputs_of tx := (created (txid tx) (IsCoinBase tx) score 0 (tx_Outputs tx)).

(** A transaction of a block that passed validation in isolation, as the block store
    returns it; a coinbase is what has no inputs. *)
Record block_tx (tx : DomainTransaction) : Prop := {
  bt_unpopulated : Forall (λ i, in_UTXOEntry i = None) (tx_Inputs tx);
  bt_fee : tx_Fee tx = 0 ∧ tx_Mass tx = 0;
  bt_values : uint64_values tx;
  bt_isolation : isolation_ok v tx;
  bt_coinbase : IsCoinBase tx = true → tx_Inputs tx = [];
  bt_sigs : Forall (λ i, are_bytes (in_SignatureScript i)) (tx_Inputs tx);
  bt_outputs : zlen (tx_Outputs tx) ≤ 2 ^ 32;
  bt_scripts o : o ∈ tx_Outputs tx → are_bytes (spk_Script (out_ScriptPublicKey o));
  bt_base o e : (o, e) ∈ outputs_of tx → same_at (B !! o) (Some e)
}.

(** The state between two transactions. *)
Record accept_ok (Hist : history) (s : acceptState) : Prop := {
  ao_applicable : applicable B (ac_diff s);
  ao_canonical : canonical (ac_diff s);
  ao_typed : utxo_typed (set_of s);
  ao_history : history_ok Hist (set_of s);
  ao_sigCache c : ac_sigCache s = Some c → cache_ok c;
  ao_sigCacheECDSA c : ac_sigCacheECDSA s = Some c → cache_ok c
}.

(** What the set [U] becomes when the accepted transactions of [data] are performed. *)
Definition performs (U : utxoCollection) (d : TransactionAcceptanceData) (U' : utxoCollection) : Prop :=
  let tx := ta_Transaction d in
  spendable U (tx_Inputs tx) ∧ fresh U (outputs_of tx) ∧ U' = insert_all (spend U (tx_Inputs tx)) (outputs_of tx) ∧
  (if IsCoinBase tx then tx_Inputs tx = [] ∧ ta_Fee d = 0
   else spends_ok v cs pov m tx ∧ scripts_ok (set_Mass 0 tx) ∧ ta_Fee d = total_in tx - total_out tx).

Inductive accepts : utxoCollection → list TransactionAcceptanceData → utxoCollection → Prop :=
  | accepts_done U : accepts U [] U
  | accepts_skip U d ds U' : ta_IsAccepted d = false → accepts U ds U' → accepts U (d :: ds) U'
  | accepts_take U d ds U1 U' : ta_IsAccepted d = true → performs U d U1 → accepts U1 ds U' → accepts U (d :: ds) U'.

(** ** Populating *)
Lemma populateInput_spec d input : applicable B d → in_UTXOEntry input = None →
  populateInput B (Some d) input = (λ e, set_UTXOEntry e input) <$> apply_diff B d !! in_PreviousOutpoint input.
Proof using Type.
  intros Ha Hi. unfold populateInput. rewrite Hi, apply_diff_lookup. cbv zeta.
  destruct (toAdd d !! _) as [e|]; [done|]. simpl. destruct (toRemove d !! _) as [r|] eqn:Er.
  - by rewrite bool_decide_eq_true_2.
  - by rewrite bool_decide_eq_false_2 by (by intros []).
Qed.

(** The populated inputs differ from the inputs in their entries only. *)
Lemma populateInputs_spec d inputs : applicable B d → Forall (λ i, in_UTXOEntry i = None) inputs →
  let '(populated, missing) := populateInputs B (Some d) inputs in
  map in_PreviousOutpoint populated = map in_PreviousOutpoint inputs ∧
  map in_SignatureScript populated = map in_SignatureScript inputs ∧
  (∀ i e, i ∈ populated → in_UTXOEntry i = Some e → apply_diff B d !! in_PreviousOutpoint i = Some e) ∧
  (missing = [] → Forall (λ i, is_Some (in_UTXOEntry i)) populated).
Proof using Type.
  intros Ha. induction inputs as [|i inputs IH]; intros Hun; cbn [populateInputs].
  { split_and!; [done|done|by intros ? ? ?%elem_of_nil|by constructor]. }
  apply Forall_cons in Hun as [Hi Hun]. specialize (IH Hun). destruct (populateInputs B (Some d) inputs) as [p missing].
  destruct IH as (P1 & P2 & P3 & P4). rewrite (populateInput_spec d i Ha Hi).
  destruct (apply_diff B d !! in_PreviousOutpoint i) as [e|] eqn:El; cbn [fmap option_fmap option_map map]; rewrite ?P1, ?P2; split_and!; try done.
  - intros j e' [->|Hj]%elem_of_cons; [by intros [= <-]|by apply P3].
  - intros E. constructor; [by eexists|by apply P4].
  - intros j e' [->|Hj]%elem_of_cons; [by rewrite Hi|by apply P3].
Qed.

(** ** Performing a transaction *)
Hypothesis Hcontext : context_ok v cs dag_parents k.
Hypothesis Hpov : pov ∈ dom (ghostdag_of cs).
Hypothesis Hmedian : 0 ≤ m.

Lemma score_range : 0 ≤ score < 2 ^ 62.
Proof using Hcontext Hpov. apply (co_scores _ _ _ _ Hcontext pov Hpov). Qed.

Lemma created_typed txid cb outputs : (∀ o, o ∈ outputs → 0 ≤ out_Value o < 2 ^ 64 ∧ are_bytes (spk_Script (out_ScriptPublicKey o))) →
  ∀ i o e, (o, e) ∈ created txid cb score i outputs →
  0 ≤ ue_amount e < 2 ^ 64 ∧ 0 ≤ ue_blockDAAScore e < 2 ^ 62 ∧ are_bytes (spk_Script (ue_scriptPublicKey e)).
Proof using Hcontext Hpov.
  intros Ho. induction outputs as [|out outputs IH]; intros i o e; cbn [created]; [by intros ?%elem_of_nil|].
  intros [[= -> ->]|Hin]%elem_of_cons; [|by eapply IH; [intros; apply Ho; by right|]].
  destruct (Ho out ltac:(by left)) as [? ?]. pose proof score_range. split_and!; simpl; done || lia.
Qed.

Definition accepted_history (Hist : history) (tx : DomainTransaction) (isAccepted : bool) : history :=
  if isAccepted then <[txid tx := outpoints tx]> Hist else Hist.

Lemma addToDiff_spec Hist s tx : accept_ok Hist s → spendable (set_of s) (tx_Inputs tx) → Hist !! txid tx = None →
  uint64_values tx → zlen (tx_Outputs tx) ≤ 2 ^ 32 → (∀ o, o ∈ tx_Outputs tx → are_bytes (spk_Script (out_ScriptPublicKey o))) →
  (∀ o e, (o, e) ∈ outputs_of tx → same_at (B !! o) (Some e)) →
  ∃ s', addToDiff tx score s = (s', Ret ()) ∧ accept_ok (accepted_history Hist tx true) s' ∧ fresh (set_of s) (outputs_of tx) ∧
    set_of s' = insert_all (spend (set_of s) (tx_Inputs tx)) (outputs_of tx).
Proof using Hcontext Hpov.
  intros [Ha Hc Ht Hh Hc1 Hc2] Hsp Hnew Hval Hlen Hscr Hbase.
  assert (∀ o e, (o, e) ∈ outputs_of tx → set_of s !! o = None) as Hfresh.
  { intros o e He. pose proof (created_id _ _ _ _ _ _ _ He) as Hid. destruct (set_of s !! o) as [e'|] eqn:E; [|done].
    apply mk_is_Some, (proj1 Hh) in E. rewrite Hid, Hnew in E. by destruct E. }
  destruct (AddTransaction_spec (λ tx, txid tx) B (ac_diff s) tx score Ha Hc Hsp) as (d' & Hrun & Ha' & Hc' & Hset); [|done|].
  { intros o e He. split; [|by apply Hbase]. rewrite spend_lookup. case_decide; [done|by eapply Hfresh]. }
  eexists. split; [unfold addToDiff; by rewrite Hrun|]. split_and!; [|split; [apply created_nodup; lia|done]|done].
  split; simpl; try done; rewrite Hset.
  - intros o e [Ho|He]%insert_all_Some; [|eapply created_typed; [|done]; intros out Hout; split; [by apply Hval|by apply Hscr]].
    rewrite spend_lookup in Ho. case_decide; [done|by eapply Ht].
  - apply history_accept with (ins := outpoints tx); try done.
    + intros o (i & -> & Hi)%list_elem_of_fmap. destruct Hsp as [_ Hsp]. destruct (Hsp i Hi) as (e & _ & He). by exists e.
    + intros o e He. by eapply created_id.
Qed.

(** ** One transaction of the merge set *)
Definition acceptance (tx : DomainTransaction) (isAccepted : bool) : TransactionAcceptanceData :=
  {| ta_Transaction := tx; ta_Fee := tx_Fee tx; ta_IsAccepted := isAccepted;
     ta_TransactionInputUTXOEntries := if isAccepted then map in_UTXOEntry (tx_Inputs tx) else [] |}.

(** The same transaction, with its entries, fee, mass and id filled in. *)
Definition same_tx (tx tx' : DomainTransaction) : Prop :=
  txid tx' = txid tx ∧ outpoints tx' = outpoints tx ∧ tx_Outputs tx' = tx_Outputs tx ∧ tx_SubnetworkID tx' = tx_SubnetworkID tx ∧
  tx_Payload tx' = tx_Payload tx.

Lemma cached_id tx : let tx0 := snd (TransactionID tx) in
  tx_ID tx0 = Some (txid tx) ∧ tx_Inputs tx0 = tx_Inputs tx ∧ tx_Outputs tx0 = tx_Outputs tx ∧ tx_SubnetworkID tx0 = tx_SubnetworkID tx ∧
  tx_Fee tx0 = tx_Fee tx ∧ tx_Mass tx0 = tx_Mass tx ∧ tx_Payload tx0 = tx_Payload tx.
Proof using Type. unfold TransactionID. destruct (tx_ID tx) eqn:E; simpl; by split_and!. Qed.

Lemma populated_tx s tx tx1 o : block_tx tx → applicable B (ac_diff s) → utxo_typed (set_of s) →
  populateTransactionWithUTXOEntriesFromVirtualOrDiff B (snd (TransactionID tx)) (Some (ac_diff s)) = (tx1, o) →
  same_tx tx tx1 ∧ tx_ID tx1 = Some (txid tx) ∧ tx_Fee tx1 = 0 ∧ tx_Mass tx1 = 0 ∧ tx_ok tx1 ∧ rules_only o ∧
  (o = Ret () → spendable (set_of s) (tx_Inputs tx1)).
Proof using Type.
  intros Hb Ha Ht. destruct (cached_id tx) as (Hid & Hin & Hout & Hsub & Hfee & Hmass & Hpay). set (tx0 := snd (TransactionID tx)) in *.
  unfold populateTransactionWithUTXOEntriesFromVirtualOrDiff. rewrite Hin. pose proof (populateInputs_spec (ac_diff s) (tx_Inputs tx) Ha (bt_unpopulated _ Hb)) as Hp.
  destruct (populateInputs B (Some (ac_diff s)) (tx_Inputs tx)) as [p missing]. destruct Hp as (P1 & P2 & P3 & P4). intros [= <- <-].
  split_and!; [split_and!|..]; simpl; try done; try (by rewrite ?Hfee, ?Hmass; apply (bt_fee _ Hb)).
  - unfold TransactionID at 1. simpl. by rewrite Hid.
  - split; simpl.
    + unfold uint64_values. simpl. rewrite Hout. apply (bt_values _ Hb).
    + pose proof (bt_sigs _ Hb) as Hs. apply Forall_forall. intros i Hi.
      assert (in_SignatureScript i ∈ map in_SignatureScript p) as Hi' by (by apply list_elem_of_fmap_2). rewrite P2 in Hi'.
      apply list_elem_of_fmap in Hi' as (j & -> & Hj). rewrite Forall_forall in Hs. by apply Hs.
    + intros i e Hi He. eapply Ht. by apply P3.
    + intros i e Hi He. eapply Ht. by apply P3.
    + intros i e Hi He. eapply Ht. by apply P3.
  - apply (orMissing_spec missing () ()).
  - intros [-> _]%orMissing_spec. split.
    + change (NoDup (map in_PreviousOutpoint p)). rewrite P1. apply (is_nodup _ _ (bt_isolation _ Hb)).
    + intros i Hi. pose proof (P4 eq_refl) as Hall. rewrite Forall_forall in Hall. destruct (Hall i Hi) as [e He]. exists e. auto.
Qed.

Lemma same_tx_trans tx1 tx2 tx3 : same_tx tx1 tx2 → same_tx tx2 tx3 → same_tx tx1 tx3.
Proof using Type. unfold same_tx. intuition congruence. Qed.
Lemma same_tx_coinbase tx tx' : same_tx tx tx' → IsCoinBase tx' = IsCoinBase tx.
Proof using Type. intros (_ & _ & _ & E & _). unfold IsCoinBase. by rewrite E. Qed.
Lemma same_tx_outputs tx tx' : same_tx tx tx' → outputs_of tx' = outputs_of tx.
Proof using Type. intros Hs. pose proof (same_tx_coinbase _ _ Hs) as ->. by destruct Hs as (-> & _ & -> & _). Qed.

(** The outcome of [maybeAcceptTransaction] on [tx]. *)
Definition accepted_as (Hist : history) (isSelectedParent : bool) (tx : DomainTransaction) (s s' : acceptState) (acc : bool)
    (tx' : DomainTransaction) : Prop :=
  same_tx tx tx' ∧ accept_ok (accepted_history Hist tx acc) s' ∧
  (if acc then performs (set_of s) (acceptance tx' true) (set_of s') ∧ (IsCoinBase tx = true → isSelectedParent = true)
   else set_of s' = set_of s).

Lemma perform_accepted Hist isSel s s1 tx tx1 tx' : block_tx tx → accept_ok Hist s1 → set_of s1 = set_of s → same_tx tx tx' →
  tx_Inputs tx' = tx_Inputs tx1 → spendable (set_of s) (tx_Inputs tx1) → Hist !! txid tx = None → (IsCoinBase tx = true → isSel = true) →
  (if IsCoinBase tx' then tx_Inputs tx' = [] ∧ tx_Fee tx' = 0
   else spends_ok v cs pov m tx' ∧ scripts_ok (set_Mass 0 tx') ∧ tx_Fee tx' = total_in tx' - total_out tx') →
  ∃ s', addToDiff tx' score s1 = (s', Ret ()) ∧ accepted_as Hist isSel tx s s' true tx'.
Proof using Hcontext Hpov.
  intros Hb Hs1 Hset Hsame Hin Hsp Hnew Hsel Hvalid. pose proof Hsame as (Hid & Hops & Houts & _).
  destruct (addToDiff_spec Hist s1 tx' Hs1) as (s' & Hrun & Hok & Hfresh & Hset').
  - by rewrite Hset, Hin.
  - by rewrite Hid.
  - unfold uint64_values. rewrite Houts. apply (bt_values _ Hb).
  - rewrite Houts. apply (bt_outputs _ Hb).
  - rewrite Houts. apply (bt_scripts _ Hb).
  - rewrite (same_tx_outputs _ _ Hsame). apply (bt_base _ Hb).
  - exists s'. split; [done|]. split; [done|]. split; [|split; [|done]].
    + unfold accepted_history in *. by rewrite <- Hid, <- Hops.
    + unfold performs. cbn [ta_Transaction ta_Fee acceptance]. rewrite Hset in Hfresh, Hset'. by rewrite Hin in *.
Qed.

Lemma maybeAcceptTransaction_spec Hist isSel mass s tx : block_tx tx → accept_ok Hist s →
  (∀ ins, Hist !! txid tx = Some ins → ins = outpoints tx) → (IsCoinBase tx = true → isSel = true → Hist !! txid tx = None) →
  ∃ s' acc mass' tx', maybeAcceptTransaction csm stores tx pov isSel mass m score s = (s', Ret (acc, mass', tx')) ∧
    accepted_as Hist isSel tx s s' acc tx'.
Proof using All.
  intros Hb Hs Hagree Hcbnew. pose proof Hs as [Ha Hc Ht Hh Hc1 Hc2]. unfold maybeAcceptTransaction. cbv zeta.
  rewrite (bind_ret_l _ _ s s (ac_diff s)) by done.
  destruct (populateTransactionWithUTXOEntriesFromVirtualOrDiff B (snd (TransactionID tx)) (Some (ac_diff s))) as [tx1 o] eqn:Hpop.
  destruct (populated_tx s tx tx1 o Hb Ha Ht Hpop) as (Hsame & Hid1 & Hfee1 & Hmass1 & Htx1 & Hrules & Hsp).
  pose proof (same_tx_coinbase _ _ Hsame) as Hcb. pose proof Hsame as (_ & Hops & Houts & _).
  destruct o as [[]|[e| |]|c]; try done; [|by exists s, false, mass, tx1]. specialize (Hsp eq_refl).
  rewrite Hcb. destruct (IsCoinBase tx) eqn:Ecb.
  - destruct isSel; cbn [negb]; [|by exists s, false, mass, tx1].
    destruct (perform_accepted Hist true s s tx tx1 tx1) as (s' & Hadd & Hacc); try done; [by apply Hcbnew| |].
    { rewrite Hcb. split; [|done]. apply (map_eq_nil in_PreviousOutpoint). change (outpoints tx1 = []). rewrite Hops.
      unfold outpoints. by rewrite (bt_coinbase _ Hb Ecb). }
    exists s', true, 0, tx1. split; [|done]. unfold bind. by rewrite Hadd.
  - pose proof (in_context_spec v cs dag_parents k Hcontext pov m tx1 (ac_sigCache s) (ac_sigCacheECDSA s) Hpov Hmedian Htx1) as Hd.
    unfold validateInContext, bind at 1. assert (total_out tx1 ≤ MaxSompi) as Htotal.
    { unfold total_out. rewrite Houts. apply (is_values _ _ (bt_isolation _ Hb)). }
    specialize (Hd Hcb Htotal Hc1 Hc2).
    destruct (ValidateTransactionInContextAndPopulateMassAndFee _ _ _ _ _) as [t o]. destruct Hd as (Hro & Hcaches & Hiff & Hmass). simpl in *.
    set (s1 := {| ac_diff := ac_diff s; ac_sigCache := ts_sigCache t; ac_sigCacheECDSA := ts_sigCacheECDSA t |}).
    assert (accept_ok Hist s1) as Hs1 by (split; done || apply (proj1 Hcaches)).
    destruct Hcaches as (Hcs & f & mass' & Et).
    assert (same_tx tx (ts_tx t)) as Hsame'.
    { rewrite Et. eapply same_tx_trans; [exact Hsame|]. split_and!; try done. unfold TransactionID. simpl. by rewrite Hid1. }
    destruct o as [[]|[e| |]|c]; try done; cbn [negb]; [|by exists s1, false, mass, (ts_tx t)].
    destruct (checkTransactionMass csm (ts_tx t) mass) as [isAccepted massAfter]. destruct isAccepted; cbn [negb]; [|by exists s1, false, mass, (ts_tx t)].
    destruct (proj1 Hiff eq_refl) as [Hspends Hscripts]. destruct (Hmass eq_refl) as [mass1 Et1].
    destruct (perform_accepted Hist isSel s s1 tx tx1 (ts_tx t)) as (s' & Hadd & Hacc); try done.
    + by rewrite Et1.
    + apply (history_new Hist (set_of s) _ (outpoints tx)); try done.
      * intros E. apply (is_inputs _ _ (bt_isolation _ Hb) Ecb). by apply (map_eq_nil in_PreviousOutpoint).
      * rewrite <- Hops. intros o (i & -> & Hi)%list_elem_of_fmap. destruct Hsp as [_ Hsp]. destruct (Hsp i Hi) as (e & _ & He). by exists e.
    + by rewrite Ecb.
    + rewrite (same_tx_coinbase _ _ Hsame'), Ecb, Et1. split_and!; [by destruct Hspends| |done].
      replace (set_Mass 0 (set_Mass mass1 (set_Fee (total_in tx1 - total_out tx1) tx1))) with (set_Fee (total_in tx1 - total_out tx1) tx1); [done|].
      unfold set_Mass, set_Fee. simpl. by rewrite Hmass1.
    + exists s', true, massAfter, (ts_tx t). split; [|done]. unfold bind. by rewrite Hadd.
Qed.

(** ** All transactions of the merge set *)

(** No two transactions that matter have the same id and different inputs. *)
Definition ids_ok (Hist : history) (txs : list DomainTransaction) : Prop :=
  (∀ tx ins, tx ∈ txs → Hist !! txid tx = Some ins → ins = outpoints tx) ∧
  (∀ tx tx', tx ∈ txs → tx' ∈ txs → txid tx = txid tx' → outpoints tx = outpoints tx').

Lemma ids_ok_accept Hist tx acc txs : ids_ok Hist (tx :: txs) → ids_ok (accepted_history Hist tx acc) txs.
Proof using Type.
  intros [Hh Hp]. split; [|intros ? ? ? ?; apply Hp; by right]. intros tx' ins Hin. unfold accepted_history. destruct acc; [|apply Hh; by right].
  destruct (decide (txid tx' = txid tx)) as [E|Hne]; [|rewrite lookup_insert_ne by done; apply Hh; by right].
  rewrite E, lookup_insert_eq. intros [= <-]. apply Hp; [by left|by right|done].
Qed.

Lemma accepts_app U a U1 b U2 : accepts U a U1 → accepts U1 b U2 → accepts U (a ++ b) U2.
Proof using Type. induction 1; simpl; intros; [done|by apply accepts_skip; auto|by eapply accepts_take; eauto]. Qed.

(** Only the selected parent's first transaction may be a coinbase that is accepted. *)
Definition coinbase_ok (Hist : history) (isSel : bool) (txs : list DomainTransaction) : Prop :=
  isSel = true → (∀ tx, head txs = Some tx → IsCoinBase tx = true → Hist !! txid tx = None) ∧ ∀ tx, tx ∈ tail txs → IsCoinBase tx = false.

(** The data of the transactions [txs], in order. *)
Definition data_of (isSel : bool) (txs : list DomainTransaction) (ads : list TransactionAcceptanceData) : Prop :=
  Forall2 (λ tx d, same_tx tx (ta_Transaction d) ∧ (ta_IsAccepted d = true → IsCoinBase tx = true → isSel = true)) txs ads.

Lemma acceptTransactions_spec isSel rest txs : ∀ Hist mass s, Forall block_tx txs → ids_ok Hist (txs ++ rest) → coinbase_ok Hist isSel txs → accept_ok Hist s →
  ∃ s' mass' ads Hist', acceptTransactions csm stores txs pov isSel mass m score s = (s', Ret (mass', ads)) ∧
    accept_ok Hist' s' ∧ ids_ok Hist' rest ∧ accepts (set_of s) ads (set_of s') ∧ data_of isSel txs ads.
Proof using All.
  induction txs as [|tx txs IH]; intros Hist mass s Hb Hids Hcb Hs; cbn [acceptTransactions].
  { exists s, mass, [], Hist. split_and!; try done; [constructor|apply Forall2_nil_2]. }
  apply Forall_cons in Hb as [Hbt Hb].
  destruct (maybeAcceptTransaction_spec Hist isSel mass s tx Hbt Hs) as (s1 & acc & mass1 & tx' & Hrun & Hsame & Hs1 & Hacc).
  { intros ins. apply (proj1 Hids). by left. }
  { intros Hc Hsel. by apply (proj1 (Hcb Hsel)). }
  destruct (IH (accepted_history Hist tx acc) mass1 s1 Hb) as (s2 & mass2 & ads & Hist2 & Hrun2 & Hs2 & Hids2 & Haccs & Hdata).
  { by apply ids_ok_accept. }
  { intros Hsel. destruct (Hcb Hsel) as [_ Htail]. simpl in Htail. split; [|intros; apply Htail; destruct txs; [done|by right]].
    intros tx2 Hh Hc. destruct txs as [|tx3 txs]; [done|]. injection Hh as ->. rewrite Htail in Hc by (by left). done. }
  { done. }
  exists s2, mass2, (acceptance tx' acc :: ads), Hist2. rewrite (bind_ret_l _ _ _ _ _ Hrun), (bind_ret_l _ _ _ _ _ Hrun2).
  split; [by destruct acc|]. split; [done|]. split; [done|]. split.
  - destruct acc; [by eapply accepts_take; [|apply Hacc|]|]. apply accepts_skip; [done|]. by rewrite <- Hacc.
  - apply Forall2_cons; split; [|done]. split; [done|]. destruct acc; [|done]. intros _. apply Hacc.
Qed.

Definition block_data (isSel : bool) (block : DomainBlock) (d : BlockAcceptanceData) : Prop :=
  ba_BlockHash d = BlockHash block ∧ data_of isSel (bk_Transactions block) (ba_TransactionAcceptanceData d).

Abbreviation all_txs blocks := (concat (map bk_Transactions blocks)) (only parsing).
Abbreviation all_data ads := (concat (map ba_TransactionAcceptanceData ads)) (only parsing).

Lemma acceptBlocks_tail blocks : ∀ Hist i mass s, 0 < i → Forall block_tx (all_txs blocks) → ids_ok Hist (all_txs blocks) → accept_ok Hist s →
  ∃ s' ads Hist', acceptBlocks csm stores blocks i pov mass m score s = (s', Ret ads) ∧ accept_ok Hist' s' ∧
    accepts (set_of s) (all_data ads) (set_of s') ∧ Forall2 (block_data false) blocks ads.
Proof using All.
  induction blocks as [|block blocks IH]; intros Hist i mass s Hi Hb Hids Hs; cbn [acceptBlocks].
  { exists s, [], Hist. split_and!; try done. constructor. }
  cbn [map concat] in *. apply Forall_app in Hb as [Hb1 Hb2]. rewrite (proj2 (Z.eqb_neq i 0)) by lia. cbv zeta.
  destruct (acceptTransactions_spec false (all_txs blocks) (bk_Transactions block) Hist mass s Hb1 Hids) as (s1 & mass1 & ads1 & Hist1 & Hrun & Hs1 & Hids1 & Hacc & Hdata);
    [done|done|].
  destruct (IH Hist1 (i + 1) mass1 s1 ltac:(lia) Hb2 Hids1 Hs1) as (s2 & ads & Hist2 & Hrun2 & Hs2 & Hacc2 & Hdata2).
  rewrite (bind_ret_l _ _ _ _ _ Hrun), (bind_ret_l _ _ _ _ _ Hrun2). eexists s2, _, Hist2. split; [done|]. split; [done|]. split.
  - cbn [map concat ba_TransactionAcceptanceData]. by eapply accepts_app.
  - by apply Forall2_cons.
Qed.

Lemma acceptBlocks_spec parent blocks Hist s : Forall block_tx (all_txs (parent :: blocks)) → ids_ok Hist (all_txs (parent :: blocks)) →
  coinbase_ok Hist true (bk_Transactions parent) → accept_ok Hist s →
  ∃ s' pd ads Hist', acceptBlocks csm stores (parent :: blocks) 0 pov 0 m score s = (s', Ret (pd :: ads)) ∧ accept_ok Hist' s' ∧
    accepts (set_of s) (all_data (pd :: ads)) (set_of s') ∧ block_data true parent pd ∧ Forall2 (block_data false) blocks ads.
Proof using All.
  intros Hb Hids Hcb Hs. cbn [acceptBlocks map concat] in *. apply Forall_app in Hb as [Hb1 Hb2]. change (0 =? 0) with true. cbv zeta.
  destruct (acceptTransactions_spec true (all_txs blocks) (bk_Transactions parent) Hist 0 s Hb1 Hids Hcb Hs)
    as (s1 & mass1 & ads1 & Hist1 & Hrun & Hs1 & Hids1 & Hacc & Hdata).
  destruct (acceptBlocks_tail blocks Hist1 (0 + 1) mass1 s1 ltac:(lia) Hb2 Hids1 Hs1) as (s2 & ads & Hist2 & Hrun2 & Hs2 & Hacc2 & Hdata2).
  rewrite (bind_ret_l _ _ _ _ _ Hrun), (bind_ret_l _ _ _ _ _ Hrun2). eexists s2, _, ads, Hist2. split; [done|]. split; [done|]. split; [|done].
  cbn [map concat ba_TransactionAcceptanceData]. by eapply accepts_app.
Qed.

(** ** Value *)
Definition fees (ads : list TransactionAcceptanceData) : Z := sumZ (map (λ d, if ta_IsAccepted d then ta_Fee d else 0) ads).
Definition minted (ads : list TransactionAcceptanceData) : Z :=
  sumZ (map (λ d, if ta_IsAccepted d && IsCoinBase (ta_Transaction d) then total_out (ta_Transaction d) else 0) ads).

Lemma performs_value U d U' : performs U d U' →
  value U' + ta_Fee d = value U + if IsCoinBase (ta_Transaction d) then total_out (ta_Transaction d) else 0.
Proof using Type.
  intros (Hsp & Hf & -> & Hcase). set (tx := ta_Transaction d) in *.
  assert (fresh (spend U (tx_Inputs tx)) (outputs_of tx)) as Hf'.
  { split; [apply Hf|]. intros o e He. rewrite spend_lookup. case_decide; [done|by eapply Hf]. }
  rewrite (value_insert_all _ _ Hf'), created_amounts, (value_spend _ _ Hsp). fold (total_in tx) (total_out tx).
  destruct (IsCoinBase tx); [|destruct Hcase as (_ & _ & ->); lia].
  destruct Hcase as [Hin ->]. unfold total_in. rewrite Hin. unfold sumZ. simpl. lia.
Qed.

Lemma accepts_value U ads U' : accepts U ads U' → value U' + fees ads = value U + minted ads.
Proof using Type.
  unfold fees, minted. induction 1 as [|U d ds U' Hd Hacc IH|U d ds U1 U' Hd Hp Hacc IH]; [unfold sumZ; simpl; lia| |].
  - unfold sumZ in *. simpl. rewrite Hd. simpl. lia.
  - pose proof (performs_value _ _ _ Hp). unfold sumZ in *. simpl. rewrite Hd. simpl. lia.
Qed.
(** The entries of the resulting set are old ones or outputs of accepted transactions. *)
Lemma accepts_entries U ads U' : accepts U ads U' → ∀ o e, U' !! o = Some e → U !! o = Some e ∨ ∃ d, d ∈ ads ∧ (o, e) ∈ outputs_of (ta_Transaction d).
Proof using Type.
  induction 1 as [U|U d ds U' Hd Hacc IH|U d ds U1 U' Hd Hp Hacc IH]; intros o e He; [by left| |]; destruct (IH o e He) as [Ho|(d' & ? & ?)].
  - by left.
  - right. exists d'. split; [by right|done].
  - destruct Hp as (_ & _ & -> & _). apply insert_all_Some in Ho as [Ho|Ho].
    + left. rewrite spend_lookup in Ho. by case_decide.
    + right. exists d. split; [by left|done].
  - right. exists d'. split; [by right|done].
Qed.

(** The fee of an accepted transaction is an amount. *)
Lemma accepts_fees U ads U' : accepts U ads U' → ∀ d, d ∈ ads → ta_IsAccepted d = true → 0 ≤ total_out (ta_Transaction d) → 0 ≤ ta_Fee d ≤ MaxSompi.
Proof using Type.
  induction 1 as [U|U d ds U' Hd Hacc IH|U d ds U1 U' Hd Hp Hacc IH]; intros x Hx Ha Ho; [by apply elem_of_nil in Hx| |];
    (apply elem_of_cons in Hx as [->|Hx]; [|by apply IH]); [congruence|].
  destruct Hp as (_ & _ & _ & Hcase). destruct (IsCoinBase _); [destruct Hcase as [_ ->]; by vm_compute|].
  destruct Hcase as ([_ Hv _ _] & _ & ->). lia.
Qed.
End Acceptance.

(** ** The multiset of a UTXO set *)
Section Multiset.
Context `{Libs} `{MuHashOk}.

Definition ms_of (U : utxoCollection) : muhash := map_fold (λ o e ms, addUTXOToMultiset ms e o) ms_New U.

Lemma ms_of_insert U o e : U !! o = None → ms_equiv (ms_of (<[o := e]> U)) (addUTXOToMultiset (ms_of U) e o).
Proof using Type*.
  intros Ho. unfold ms_of. apply (map_fold_insert ms_equiv (λ o e ms, addUTXOToMultiset ms e o)); [|intros; apply ms_Add_Add|done].
  intros o' e' m1 m2 Hm. unfold addUTXOToMultiset. by rewrite Hm.
Qed.

Lemma ms_of_delete U o e : U !! o = Some e → ms_equiv (ms_of (delete o U)) (removeUTXOFromMultiset (ms_of U) e o).
Proof using Type*.
  intros Ho. pose proof (ms_of_insert (delete o U) o e (lookup_delete_eq _ _)) as Hi. rewrite insert_delete_id in Hi by done.
  unfold removeUTXOFromMultiset. rewrite Hi. unfold addUTXOToMultiset. by rewrite ms_inverse.
Qed.

#[local] Instance removeUTXO_proper : Proper (ms_equiv ==> eq ==> eq ==> ms_equiv) removeUTXOFromMultiset.
Proof using Type*. intros m1 m2 Hm e ? <- o ? <-. unfold removeUTXOFromMultiset. by rewrite Hm. Qed.
#[local] Instance addUTXO_proper : Proper (ms_equiv ==> eq ==> eq ==> ms_equiv) addUTXOToMultiset.
Proof using Type*. intros m1 m2 Hm e ? <- o ? <-. unfold addUTXOToMultiset. by rewrite Hm. Qed.

Lemma removeInputs_multiset inputs : ∀ U ms, spendable U inputs → ms_equiv ms (ms_of U) →
  ∃ ms', removeInputsFromMultiset inputs ms = Ret ms' ∧ ms_equiv ms' (ms_of (spend U inputs)).
Proof using Type*.
  induction inputs as [|i inputs IH]; intros U ms Hsp Hms; cbn [removeInputsFromMultiset]; [by exists ms|].
  apply spendable_cons in Hsp as (_ & (e & He & Hl) & Hsp). rewrite He. unfold spend. simpl. apply IH; [done|].
  by rewrite Hms, ms_of_delete.
Qed.

Lemma addOutputs_multiset txid score cb outputs : ∀ i U ms, fresh U (created txid cb score i outputs) → ms_equiv ms (ms_of U) →
  ms_equiv (addOutputsToMultiset txid score cb i outputs ms) (ms_of (insert_all U (created txid cb score i outputs))).
Proof using Type*.
  induction outputs as [|out outputs IH]; intros i U ms Hf Hms; cbn [addOutputsToMultiset created]; [done|].
  cbn [created] in Hf. apply fresh_cons in Hf as (Ho & Hf & _). unfold insert_all in *. simpl. apply IH; [done|].
  by rewrite Hms, ms_of_insert.
Qed.

Lemma performs_multiset csm stores pov m U d U' ms : performs csm stores pov m U d U' → ms_equiv ms (ms_of U) →
  ∃ ms', addTransactionToMultiset ms (ta_Transaction d) (daaOf (us_consensus stores) pov) (IsCoinBase (ta_Transaction d)) = Ret ms' ∧
    ms_equiv ms' (ms_of U').
Proof using Type*.
  intros (Hsp & Hf & -> & _) Hms. unfold addTransactionToMultiset.
  destruct (removeInputs_multiset _ _ _ Hsp Hms) as (ms1 & -> & Hms1). cbn [obind]. eexists. split; [done|].
  apply addOutputs_multiset; [|done]. split; [apply Hf|]. intros o e He. rewrite spend_lookup. case_decide; [done|by eapply Hf].
Qed.

(** The first transaction of a block, and no other, is its coinbase. *)
Fixpoint coinbase_first (i : Z) (ads : list TransactionAcceptanceData) : Prop :=
  match ads with
  | [] => True
  | d :: ads => (ta_IsAccepted d = true → IsCoinBase (ta_Transaction d) = (i =? 0)) ∧ coinbase_first (i + 1) ads
  end.

Lemma addBlock_multiset csm stores pov m ads : ∀ U U' i ms, accepts csm stores pov m U ads U' → coinbase_first i ads → ms_equiv ms (ms_of U) →
  ∃ ms', addBlockToMultiset ads i (daaOf (us_consensus stores) pov) ms = Ret ms' ∧ ms_equiv ms' (ms_of U').
Proof using Type*.
  induction ads as [|d ads IH]; intros U U' i ms Hacc Hcb Hms; cbn [addBlockToMultiset].
  { inversion Hacc; subst. by exists ms. }
  destruct Hcb as [Hd Hcb]. inversion Hacc as [|? ? ? ? Hskip Hrest|? ? ? U1 ? Htake Hp Hrest]; subst.
  - rewrite Hskip. cbn [negb obind]. by apply (IH U).
  - rewrite Htake, <- (Hd Htake). cbn [negb]. destruct (performs_multiset _ _ _ _ _ _ _ ms Hp Hms) as (ms1 & -> & Hms1). cbn [obind]. by apply (IH U1).
Qed.

Lemma accepts_app_inv csm stores pov m a : ∀ U b U', accepts csm stores pov m U (a ++ b) U' →
  ∃ U1, accepts csm stores pov m U a U1 ∧ accepts csm stores pov m U1 b U'.
Proof using Type.
  induction a as [|d a IH]; intros U b U' Hacc; simpl in *; [exists U; split; [constructor|done]|].
  inversion Hacc as [|? ? ? ? Hskip Hrest|? ? ? U1 ? Htake Hp Hrest]; subst.
  - destruct (IH U b U' Hrest) as (U1 & ? & ?). exists U1. split; [by apply accepts_skip|done].
  - destruct (IH U1 b U' Hrest) as (U2 & ? & ?). exists U2. split; [by eapply accepts_take|done].
Qed.

Lemma addBlocks_multiset csm stores pov m ads : ∀ U U' ms,
  accepts csm stores pov m U (concat (map ba_TransactionAcceptanceData ads)) U' →
  Forall (λ b, coinbase_first 0 (ba_TransactionAcceptanceData b)) ads → ms_equiv ms (ms_of U) →
  ∃ ms', addBlocksToMultiset ads (daaOf (us_consensus stores) pov) ms = Ret ms' ∧ ms_equiv ms' (ms_of U').
Proof using Type*.
  induction ads as [|b ads IH]; intros U U' ms Hacc Hcb Hms; cbn [addBlocksToMultiset]; simpl in Hacc.
  { inversion Hacc; subst. by exists ms. }
  apply accepts_app_inv in Hacc as (U1 & A1 & A2). apply Forall_cons in Hcb as [Hb Hcb].
  destruct (addBlock_multiset _ _ _ _ _ _ _ 0 ms A1 Hb Hms) as (ms1 & -> & Hms1). cbn [obind]. by apply (IH U1).
Qed.
End Multiset.
