(* ===== verification/PastUtxoSpec.v ===== *)
(** * The past UTXO of a block

    Restoring the UTXO set of a block from the chain of stored diffs, applying a merge
    set to it, and the multiset of the result: [CalculatePastUTXOAndAcceptanceData]
    from end to end. *)
From S2P Require Import Prelude Externalapi UtxoDiff ScriptNum ScriptStack OpcodeTable Script Hashing SigCache Opcode Engine.
From S2P Require Import OpcodeSafety EngineSafety SigSpec CacheTransparency.
From S2P Require Import Interval ReachabilityData Reachability ReachabilityTree ReachabilityAdd DagTopology Block Ghostdag GhostdagOrder GhostdagColour Window DifficultyManager Traversal HeaderValidation TransactionValidator TransactionSafety PastUtxo UtxoAcceptance.
Import TransactionHashing SigCache Opcode Ghostdag PastMedianTime Header HeaderValidation TransactionValidator PastUtxo.
Local Open Scope Z_scope.
Local Open Scope prog_scope.

(** ** The chain of diffs *)
Section Chain.
Context `{MuHash}.
Variable stores : utxoStores.
Abbreviation B := (us_virtualUTXO stores).

(** The past UTXO of [h] is the set [U]: [chain] are the blocks from [h] up to the one whose
    diff applies to the virtual's set; every diff applies to the set of its diff child. *)
Inductive past_set : list Z → list (list Z) → utxoCollection → Prop :=
  | past_base h d : us_utxoDiffChildren stores !! h = None → us_utxoDiffs stores !! h = Some d →
      applicable B d → same_txout B (toAdd d) → past_set h [h] (apply_diff B d)
  | past_step h c chain U d : us_utxoDiffChildren stores !! h = Some c → past_set c chain U → us_utxoDiffs stores !! h = Some d →
      applicable U d → same_txout B (toAdd d) → past_set h (h :: chain) (apply_diff U d).

Lemma past_set_chain h chain1 U1 : past_set h chain1 U1 → ∀ chain2 U2, past_set h chain2 U2 → chain1 = chain2.
Proof.
  induction 1 as [h d Hc Hd|h c chain U d Hc Hp IH Hd Ha]; intros chain2 U2 P2; inversion P2; subst; simplify_eq; [done|].
  f_equal. by eapply IH.
Qed.

Lemma past_set_suffix h chain U x : past_set h chain U → x ∈ chain → ∃ suffix U', past_set x suffix U' ∧ (length suffix ≤ length chain)%nat.
Proof.
  induction 1 as [h d|h c chain U d Hc Hp IH]; intros Hx.
  - apply list_elem_of_singleton in Hx as ->. eexists [h], _. split; [by apply past_base|done].
  - apply elem_of_cons in Hx as [->|Hx]; [eexists (h :: chain), _; split; [by eapply past_step|done]|].
    destruct (IH Hx) as (s & U' & ? & ?). exists s, U'. split; [done|simpl; lia].
Qed.

(** A diff child is never an earlier block of the chain. *)
Lemma past_set_nodup h chain U : past_set h chain U → NoDup chain.
Proof.
  induction 1 as [h d|h c chain U d Hc Hp IH]; [apply NoDup_singleton|]. apply NoDup_cons. split; [|done].
  intros Hin. destruct (past_set_suffix c chain U h Hp Hin) as (s & U' & Hs & Hl).
  assert (past_set h (h :: chain) (apply_diff U d)) as Hh by (by eapply past_step).
  rewrite <- (past_set_chain _ _ _ Hh _ _ Hs) in Hl. simpl in Hl. lia.
Qed.

Lemma past_set_known h chain U : past_set h chain U → chain ⊆ elements (dom (us_utxoDiffs stores)).
Proof.
  induction 1 as [h d|h c chain U d Hc Hp IH]; intros x; rewrite elem_of_elements.
  - intros ->%list_elem_of_singleton. by apply elem_of_dom.
  - intros [->|Hx]%elem_of_cons; [by apply elem_of_dom|]. apply elem_of_elements. by apply IH.
Qed.

Lemma past_set_length h chain U : past_set h chain U → (length chain ≤ size (us_utxoDiffs stores))%nat.
Proof.
  intros Hp. rewrite <- size_dom. unfold size, set_size. simpl.
  apply submseteq_length, NoDup_submseteq; [by eapply past_set_nodup|]. intros x. by eapply past_set_known.
Qed.

(** ** Restoring *)
Lemma withDiffInPlace_composes d1 d2 : applicable B d1 → canonical d1 → applicable (apply_diff B d1) d2 → same_txout B (toAdd d2) →
  ∃ d, withDiffInPlace d1 d2 = (d, Ret ()) ∧ applicable B d ∧ canonical d ∧ apply_diff B d = apply_diff (apply_diff B d1) d2.
Proof.
  intros A1 C1 A2 Hs. destruct (withDiff_composes B d1 d2 A1 A2 Hs) as (d & Hd & Ha & Hset). exists d. split; [|split_and!; try done; by eapply withDiff_canonical].
  unfold withDiff in Hd. rewrite diff_clone_id in Hd. destruct (withDiffInPlace d1 d2) as [d' [[]|e|c]]; try done. by injection Hd as ->.
Qed.

Lemma accumulateDiffs_app l1 l2 : ∀ acc, accumulateDiffs (l1 ++ l2) acc = obind (accumulateDiffs l1 acc) (accumulateDiffs l2).
Proof.
  induction l1 as [|d l1 IH]; intros acc; [done|]. cbn [app accumulateDiffs]. destruct (withDiffInPlace acc d) as [acc' [[]|e|c]]; [apply IH|done|done].
Qed.

Lemma collectDiffs_spec h chain U : past_set h chain U → ∀ fuel, (length chain ≤ fuel)%nat →
  ∃ ds d, collectDiffs stores fuel h = Ret ds ∧ accumulateDiffs (reverse ds) (mkDiff ∅ ∅) = Ret d ∧
    applicable B d ∧ canonical d ∧ apply_diff B d = U.
Proof.
  assert (applicable B (mkDiff ∅ ∅) ∧ canonical (mkDiff ∅ ∅) ∧ apply_diff B (mkDiff ∅ ∅) = B) as (A0 & C0 & E0).
  { split_and!; [split; [apply map_empty_subseteq|apply map_disjoint_empty_l]|intros o e1 e2; simpl; by rewrite lookup_empty|].
    unfold apply_diff. simpl. by rewrite (left_id_L ∅ (∪)), map_difference_empty. }
  induction 1 as [h d Hc Hd Ha Hs|h c chain U d Hc Hp IH Hd Ha Hs]; intros fuel Hf; (destruct fuel as [|fuel]; [simpl in Hf; lia|]);
    cbn [collectDiffs]; unfold Get; rewrite Hd, Hc; cbn [fromStore fromTx obind].
  - destruct (withDiffInPlace_composes (mkDiff ∅ ∅) d) as (d' & Hw & ? & ? & Hset); [done|done|by rewrite E0|done|].
    exists [d], d'. rewrite E0 in Hset. simpl. by rewrite Hw.
  - destruct (IH fuel) as (ds & acc & -> & Hacc & Aacc & Cacc & Eacc); [simpl in Hf; lia|].
    destruct (withDiffInPlace_composes acc d) as (d' & Hw & ? & ? & Hset); [done|done|by rewrite Eacc|done|].
    exists (d :: ds), d'. split; [done|]. rewrite reverse_cons, accumulateDiffs_app, Hacc. simpl. rewrite Hw. by rewrite <- Eacc.
Qed.

Lemma restorePastUTXO_spec h chain U : past_set h chain U →
  ∃ d, restorePastUTXO stores h = Ret d ∧ applicable B d ∧ canonical d ∧ apply_diff B d = U.
Proof.
  intros Hp. pose proof (past_set_length _ _ _ Hp).
  destruct (collectDiffs_spec h chain U Hp (Datatypes.S (size (us_utxoDiffs stores)))) as (ds & d & Hc & Hacc & Hrest); [lia|].
  exists d. unfold restorePastUTXO. rewrite Hc. cbn [obind]. by rewrite Hacc.
Qed.
End Chain.

(** ** The merge set *)
Section Past.
Context `{Libs} `{!LibsOk} `{MuHash} `{!MuHashOk}.
Variables (csm : consensusStateManager) (stores : utxoStores) (dag_parents : list Z → list (list Z)) (k : Z) (pov : list Z).
Abbreviation B := (us_virtualUTXO stores).
Abbreviation v := (csm_transactionValidator csm).
Abbreviation cs := (us_consensus stores).
Abbreviation txid tx := (fst (TransactionID tx)).
Abbreviation all_txs blocks := (concat (map bk_Transactions blocks)) (only parsing).
Abbreviation all_data ads := (concat (map ba_TransactionAcceptanceData ads)) (only parsing).

(** The first transaction of a block, and no other, is its coinbase. *)
Definition block_shape (block : DomainBlock) : Prop :=
  match bk_Transactions block with
  | [] => False
  | coinbase :: txs => IsCoinBase coinbase = true ∧ Forall (λ tx, IsCoinBase tx = false) txs
  end.

(** The merge set [parent :: blocks] of [pov] over the set [U0] of its selected parent. *)
Record merge_ok (Hist : gmap (list Z) (list DomainOutpoint)) (U0 : utxoCollection) (parent : DomainBlock) (blocks : list DomainBlock) : Prop := {
  mg_txs : Forall (block_tx csm stores pov) (all_txs (parent :: blocks));
  mg_shape : Forall block_shape (parent :: blocks);
  mg_ids : ids_ok Hist (all_txs (parent :: blocks));
  mg_coinbase tx : head (bk_Transactions parent) = Some tx → Hist !! txid tx = None;
  mg_typed : utxo_typed U0;
  mg_history : history_ok Hist U0
}.

(** The caches of the validator. *)
Definition caches_ok (s : acceptState) : Prop :=
  (∀ c, ac_sigCache s = Some c → cache_ok c) ∧ (∀ c, ac_sigCacheECDSA s = Some c → cache_ok c).

(** What acceptance comes to: the data describe the merge set in order, and
    their accepted transactions take [U0] to [U]. *)
Definition accepted_set (m : Z) (U0 : utxoCollection) (parent : DomainBlock) (blocks : list DomainBlock) (ads : list BlockAcceptanceData)
    (U : utxoCollection) : Prop :=
  accepts csm stores pov m U0 (all_data ads) U ∧
  ∃ pd rest, ads = pd :: rest ∧ block_data true parent pd ∧ Forall2 (block_data false) blocks rest.

Lemma applyMergeSetBlocks_spec Hist U0 d0 g parent blocks s : context_ok v cs dag_parents k → pov ∈ dom (ghostdag_of cs) →
  Blocks stores (mergeSetBlues g ++ mergeSetReds g) = Ret (parent :: blocks) → merge_ok Hist U0 parent blocks →
  applicable B d0 → canonical d0 → apply_diff B d0 = U0 → caches_ok s →
  ∃ m s' ads, PastMedianTime (tv_pastMedianTimeManager v) (ghostdag_of cs) (cs_headers cs) pov = Ret m ∧
    applyMergeSetBlocks csm stores pov d0 g (daaOf cs pov) s = (s', Ret ads) ∧
    (∃ Hist', accept_ok stores Hist' s') ∧ accepted_set m U0 parent blocks ads (apply_diff B (ac_diff s')).
Proof using Type*.
  intros Hctx Hpov Hb Hm Ha Hc HU0 [Hc1 Hc2]. destruct (times_known v cs dag_parents k Hctx pov Hpov) as (m & Hmed & Hrange).
  set (s0 := {| ac_diff := diff_clone d0; ac_sigCache := ac_sigCache s; ac_sigCacheECDSA := ac_sigCacheECDSA s |}).
  assert (accept_ok stores Hist s0) as Hs0.
  { split; simpl; rewrite ?diff_clone_id, ?HU0; try done; [apply (mg_typed _ _ _ _ Hm)|apply (mg_history _ _ _ _ Hm)]. }
  assert (coinbase_ok Hist true (bk_Transactions parent)) as Hcb.
  { intros _. split; [intros tx Hh _; by apply (mg_coinbase _ _ _ _ Hm)|]. pose proof (mg_shape _ _ _ _ Hm) as [Hsh _]%Forall_cons.
    unfold block_shape in Hsh. destruct (bk_Transactions parent) as [|t txs]; [done|]. destruct Hsh as [_ Hall]. by rewrite Forall_forall in Hall. }
  destruct (acceptBlocks_spec csm stores dag_parents k pov m Hctx Hpov ltac:(lia) parent blocks Hist s0 (mg_txs _ _ _ _ Hm) (mg_ids _ _ _ _ Hm) Hcb Hs0)
    as (s' & pd & ads & Hist' & Hrun & Hok & Hacc & Hpd & Hads).
  exists m, s', (pd :: ads). split; [done|]. split; [|split; [by exists Hist'|split]].
  - unfold applyMergeSetBlocks. rewrite Hb. rewrite (bind_ret_l _ _ s s (parent :: blocks)) by done.
    rewrite (bind_ret_l _ _ s s m) by (by rewrite Hmed). by rewrite (bind_ret_l _ _ s s0 ()) by done.
  - simpl in Hacc. rewrite diff_clone_id, HU0 in Hacc. done.
  - by exists pd, ads.
Qed.

Lemma data_coinbase_first isSel block d : block_shape block → data_of isSel (bk_Transactions block) (ba_TransactionAcceptanceData d) →
  coinbase_first 0 (ba_TransactionAcceptanceData d).
Proof using Type.
  unfold block_shape, data_of. intros Hsh Hd. destruct (bk_Transactions block) as [|t txs]; [done|]. destruct Hsh as [Hcb Hall].
  apply Forall2_cons_inv_l in Hd as (a & ads & [Hs _] & Hd & ->). split; [by rewrite (same_tx_coinbase _ _ Hs)|].
  cut (∀ i, 0 < i → coinbase_first i ads); [intros Hi; apply Hi; lia|]. clear -Hall Hd.
  induction Hd as [|tx a txs ads [Hs _] Hd IH]; intros i Hi; [done|]. apply Forall_cons in Hall as [Htx Hall]. split; [|apply IH; [done|lia]].
  intros _. rewrite (same_tx_coinbase _ _ Hs), Htx. symmetry. apply Z.eqb_neq. lia.
Qed.

Lemma accepted_coinbase_first m U0 parent blocks ads U : Forall block_shape (parent :: blocks) → accepted_set m U0 parent blocks ads U →
  Forall (λ b, coinbase_first 0 (ba_TransactionAcceptanceData b)) ads.
Proof using Type.
  intros Hsh (_ & pd & rest & -> & [_ Hpd] & Hrest). apply Forall_cons in Hsh as [Hp Hsh].
  constructor; [by eapply data_coinbase_first|]. clear -Hsh Hrest. induction Hrest as [|b d bs ds [_ Hd] Hrest IH]; [constructor|].
  apply Forall_cons in Hsh as [Hb Hsh]. constructor; [by eapply data_coinbase_first|by apply IH].
Qed.

(** ** From end to end *)
Lemma CalculatePastUTXO_spec Hist U0 chain p g ms parent blocks s : context_ok v cs dag_parents k →
  csm_genesisHash csm = pm_genesisHash (tv_pastMedianTimeManager v) →
  ghostdag_of cs !! pov = Some g → selectedParent g = Some p →
  past_set stores p chain U0 → us_multisets stores !! p = Some ms → ms_equiv ms (ms_of U0) →
  Blocks stores (mergeSetBlues g ++ mergeSetReds g) = Ret (parent :: blocks) → merge_ok Hist U0 parent blocks → caches_ok s →
  ∃ m s' d ads ms' U, PastMedianTime (tv_pastMedianTimeManager v) (ghostdag_of cs) (cs_headers cs) pov = Ret m ∧
    CalculatePastUTXOAndAcceptanceData csm stores pov s = (s', Ret (d, ads, ms')) ∧ caches_ok s' ∧
    applicable B d ∧ canonical d ∧ apply_diff B d = U ∧ accepted_set m U0 parent blocks ads U ∧
    ms_equiv ms' (ms_of U) ∧ value U + fees (all_data ads) = value U0 + minted (all_data ads).
Proof using Type*.
  intros Hctx Hgen Hg Hp Hpast Hms Heq Hb Hm Hc.
  assert (pov ∈ dom (ghostdag_of cs)) as Hpov by (apply elem_of_dom; by eexists).
  destruct (restorePastUTXO_spec stores p chain U0 Hpast) as (d0 & Hrest & Ha & Hcan & HU0).
  destruct (applyMergeSetBlocks_spec Hist U0 d0 g parent blocks s Hctx Hpov Hb Hm Ha Hcan HU0 Hc) as (m & s' & ads & Hmed & Hrun & (Hist' & Hok) & Hacc).
  destruct (addBlocks_multiset csm stores pov m ads U0 (apply_diff B (ac_diff s')) ms (proj1 Hacc)) as (ms' & Hadd & Hms');
    [eapply accepted_coinbase_first; [apply (mg_shape _ _ _ _ Hm)|done]|done|].
  exists m, s', (ac_diff s'), ads, ms', (apply_diff B (ac_diff s')). split; [done|]. split; [|split_and!; try done].
  - unfold CalculatePastUTXOAndAcceptanceData. rewrite bool_decide_eq_false_2.
    2:{ intros E. destruct (gd_genesis _ _ _ _ (co_ghostdag _ _ _ _ Hctx) g) as (Hn & _); [by rewrite <- Hgen, <- E|congruence]. }
    assert (Get (ghostdag_of cs) pov = Ret g) as Hget by (unfold Get; by rewrite Hg).
    rewrite (bind_ret_l _ _ s s g) by (unfold lift_outcome; by rewrite Hget). rewrite Hp. rewrite (bind_ret_l _ _ s s d0) by (unfold lift_outcome; by rewrite Hrest).
    unfold calculatePastUTXOAndAcceptanceDataWithSelectedParentUTXO. rewrite (bind_ret_l _ _ s s g) by (unfold lift_outcome; by rewrite Hget).
    rewrite (bind_ret_l _ _ s s (daaOf cs pov)) by (unfold lift_outcome; by rewrite (DAAScore_known v cs dag_parents k Hctx pov Hpov)).
    rewrite (bind_ret_l _ _ s s' ads Hrun). rewrite (bind_ret_l _ _ s' s' ms'); [done|].
    unfold calculateMultiset, lift_outcome. rewrite Hp. unfold Get. rewrite Hms. cbn [fromStore fromTx obind]. by rewrite Hadd.
  - split; [apply (ao_sigCache _ _ _ Hok)|apply (ao_sigCacheECDSA _ _ _ Hok)].
  - apply (ao_applicable _ _ _ Hok).
  - apply (ao_canonical _ _ _ Hok).
  - eapply accepts_value, (proj1 Hacc).
Qed.
End Past.

(** ** Properties *)

(** A multiset hash for the examples: sums of polynomial codes. *)
Definition toy_code (data : list Z) : Z := foldr (λ b acc, 1 + b + 257 * acc) 0 data.
#[export] Instance toy_muhash : MuHash := {|
  muhash := Z; ms_New := 0; ms_Add m a := m + toy_code a; ms_Remove m a := m - toy_code a; ms_Hash m := [m]; ms_equiv := eq |}.
#[export] Instance toy_muhash_ok : MuHashOk.
Proof. split; simpl; try (intros; lia). - apply _. - by intros ? ? -> ? ? ->. - by intros ? ? -> ? ? ->. - by intros ? ? ->. Qed.

Module PastUtxoProps.
Definition sample_outpoint : DomainOutpoint := NewDomainOutpoint (replicate 32 0) 0.
Definition sample_entry : utxoEntry :=
  {| ue_amount := 1000; ue_scriptPublicKey := EngineProps.sample_spk; ue_blockDAAScore := 0; ue_isCoinbase := false |}.
Definition sample_set : utxoCollection := {[ sample_outpoint := sample_entry ]}.
Definition sample_coinbase : DomainTransaction :=
  {| tx_Version := 0; tx_Inputs := []; tx_Outputs := [{| out_Value := 50; out_ScriptPublicKey := EngineProps.sample_spk |}];
     tx_LockTime := 0; tx_SubnetworkID := SubnetworkIDCoinbase; tx_Gas := 0; tx_Payload := [1]; tx_Fee := 0; tx_Mass := 0; tx_ID := None |}.
(** The coinbase of a block with an empty merge set. *)
Definition genesis_coinbase : DomainTransaction :=
  {| tx_Version := 0; tx_Inputs := []; tx_Outputs := []; tx_LockTime := 0; tx_SubnetworkID := SubnetworkIDCoinbase; tx_Gas := 0;
     tx_Payload := replicate 11 0; tx_Fee := 0; tx_Mass := 0; tx_ID := None |}.
(** The coinbase of a block that merges the genesis block. *)
Definition reward_coinbase : DomainTransaction :=
  {| tx_Version := 0; tx_Inputs := []; tx_Outputs := [{| out_Value := 5000000000; out_ScriptPublicKey := {| spk_Script := []; spk_Version := 0 |} |}];
     tx_LockTime := 0; tx_SubnetworkID := SubnetworkIDCoinbase; tx_Gas := 0; tx_Payload := 1 :: replicate 10 0; tx_Fee := 0; tx_Mass := 0; tx_ID := None |}.
(** The same, where the genesis block had a transaction with a fee of 100. *)
Definition fee_coinbase : DomainTransaction :=
  {| tx_Version := 0; tx_Inputs := []; tx_Outputs := [{| out_Value := 5000000100; out_ScriptPublicKey := {| spk_Script := []; spk_Version := 0 |} |}];
     tx_LockTime := 0; tx_SubnetworkID := SubnetworkIDCoinbase; tx_Gas := 0; tx_Payload := 1 :: replicate 10 0; tx_Fee := 0; tx_Mass := 0; tx_ID := None |}.
Definition sample_spending : DomainTransaction :=
  {| tx_Version := 0;
     tx_Inputs := [{| in_PreviousOutpoint := sample_outpoint; in_SignatureScript := [OpcodeTable.Op.Op1]; in_Sequence := 2 ^ 31; in_UTXOEntry := None |}];
     tx_Outputs := [{| out_Value := 900; out_ScriptPublicKey := EngineProps.sample_spk |}];
     tx_LockTime := 0; tx_SubnetworkID := SubnetworkIDNative; tx_Gas := 0; tx_Payload := []; tx_Fee := 0; tx_Mass := 0; tx_ID := None |}.
Definition block_with (coinbase : DomainTransaction) : DomainBlock :=
  {| bk_Header := GhostdagProps.sample_header; bk_Transactions := [coinbase; sample_spending] |}.
Definition sample_consensus : consensus :=
  {| cs_finality := {| fm_topology := {| dt_reachabilityManager :=
         {| reachabilityDataStore := ∅; reachabilityReindexRoot := None; ghostdagDataStore := GhostdagProps.run_ghostdag 18 [[0]; [1]];
            reindexSlack := 0; reindexWindow := 0 |}; dt_blockRelationStore := ∅ |};
       fm_finalityStore := ∅; fm_genesisHash := [0]; fm_finalityDepth := 86400 |};
     cs_headers := GhostdagProps.sample_headers;
     cs_daa := {| daa_scores := {[ [0] := 0; [1] := 1 ]}; daa_addedBlocks := {[ [0] := [] ]} |}; cs_statuses := ∅; cs_pruningPoint := None |}.
Definition stores_with (coinbase : DomainTransaction) : utxoStores :=
  {| us_consensus := sample_consensus; us_blocks := {[ [0] := block_with coinbase ]}; us_virtualUTXO := sample_set;
     us_utxoDiffs := {[ [0] := mkDiff ∅ ∅ ]}; us_utxoDiffChildren := ∅; us_multisets := {[ [0] := ms_of sample_set ]} |}.
Definition sample_block : DomainBlock := block_with sample_coinbase.
Definition sample_stores : utxoStores := stores_with sample_coinbase.
Definition csm_at (genesis : list Z) : consensusStateManager :=
  {| csm_maxMassAcceptedByBlock := 10000000; csm_genesisHash := genesis;
     csm_transactionValidator :=
       {| tv_blockCoinbaseMaturity := 100; tv_enableNonNativeSubnetworks := false; tv_massPerTxByte := 1; tv_massPerScriptPubKeyByte := 10;
          tv_massPerSigOp := 10000; tv_maxCoinbasePayloadLength := 150;
          tv_pastMedianTimeManager := {| pm_timestampDeviationTolerance := 2; pm_genesisHash := genesis |} |} |}.
Definition sample_csm : consensusStateManager := csm_at [0].
Definition sample_state : acceptState := {| ac_diff := mkDiff ∅ ∅; ac_sigCache := None; ac_sigCacheECDSA := None |}.
Definition sample_history : gmap (list Z) (list DomainOutpoint) := {[ replicate 32 0 := [] ]}.

Lemma sample_dom x : x ∈ dom (ghostdag_of sample_consensus) → x = [0] ∨ x = [1].
Proof.
  intros Hx. assert (dom (GhostdagProps.run_ghostdag 18 [[0]; [1]]) = {[ [0]; [1] ]}) as E by (apply (bool_decide_unpack _); vm_compute; exact I).
  change (x ∈ dom (GhostdagProps.run_ghostdag 18 [[0]; [1]])) in Hx. rewrite E in Hx. set_solver.
Qed.

Lemma sample_past_context : context_ok TransactionProps.sample_validator sample_consensus GhostdagProps.sample_dag 18.
Proof.
  split; [exact GhostdagProps.sample_two_ok|done| | |done|done].
  - intros x Hx _. exists GhostdagProps.sample_header. destruct (sample_dom x Hx) as [-> | ->]; (split; [reflexivity|split; vm_compute; [discriminate|reflexivity]]).
  - intros x Hx. destruct (sample_dom x Hx) as [-> | ->]; (split; [by eexists|split; vm_compute; [discriminate|reflexivity]]).
Qed.

Definition sample_txs : list DomainTransaction := [sample_coinbase; genesis_coinbase; reward_coinbase; fee_coinbase; sample_spending].

Lemma sample_forall (P : DomainTransaction → Prop) tx : tx ∈ sample_txs → P sample_coinbase → P genesis_coinbase → P reward_coinbase → P fee_coinbase → P sample_spending → P tx.
Proof. intros Htx ? ? ? ? ?. repeat (apply elem_of_cons in Htx as [->|Htx]; [done|]). by apply elem_of_nil in Htx. Qed.

Ltac sample_cases tx := match goal with Htx : tx ∈ sample_txs |- _ => pattern tx; apply (sample_forall _ tx Htx); clear tx Htx end.

Lemma sample_values tx : tx ∈ sample_txs → uint64_values tx.
Proof. intros Htx. sample_cases tx; intros o Ho; repeat (apply elem_of_cons in Ho as [->|Ho]; [vm_compute; split; [discriminate|reflexivity]|]); by apply elem_of_nil in Ho. Qed.

Lemma sample_created tx score o e : tx ∈ sample_txs →
  (o, e) ∈ created (fst (TransactionID tx)) (IsCoinBase tx) score 0 (tx_Outputs tx) → sample_set !! o = None.
Proof.
  intros Htx. sample_cases tx; intros Ho; repeat (apply elem_of_cons in Ho as [[= -> ->]|Ho]; [vm_compute; reflexivity|]); by apply elem_of_nil in Ho.
Qed.

Lemma sample_block_tx genesis stores pov tx : us_virtualUTXO stores = sample_set → tx ∈ sample_txs → block_tx (csm_at genesis) stores pov tx.
Proof.
  intros Hset Htx. split.
  - sample_cases tx; repeat constructor.
  - by sample_cases tx.
  - by apply sample_values.
  - apply (isolation_spec _ _ (sample_values tx Htx)); [by sample_cases tx|]. sample_cases tx; vm_compute; reflexivity.
  - by sample_cases tx.
  - sample_cases tx; repeat constructor; vm_compute; discriminate.
  - sample_cases tx; vm_compute; discriminate.
  - sample_cases tx; intros o Ho; repeat (apply elem_of_cons in Ho as [->|Ho]; [repeat constructor; vm_compute; discriminate|]); by apply elem_of_nil in Ho.
  - intros o e He. by rewrite Hset, (sample_created tx _ o e Htx He).
Qed.

Lemma sample_merge_ok genesis stores pov coinbase : us_virtualUTXO stores = sample_set → coinbase = sample_coinbase ∨ coinbase = genesis_coinbase →
  merge_ok (csm_at genesis) stores pov sample_history sample_set (block_with coinbase) [].
Proof.
  intros Hset Hcb. assert (∀ tx, tx ∈ concat (map bk_Transactions [block_with coinbase]) → tx = coinbase ∨ tx = sample_spending) as Htxs by set_solver.
  assert (∀ tx, tx = coinbase ∨ tx = sample_spending → tx ∈ sample_txs) as Hin by (intros tx [-> | ->]; [destruct Hcb as [-> | ->]|]; unfold sample_txs; set_solver).
  assert (∀ tx, tx ∈ sample_txs → sample_history !! fst (TransactionID tx) = None) as Hnew by (intros tx Htx; sample_cases tx; vm_compute; reflexivity).
  split.
  - apply Forall_forall. intros tx Htx. by apply sample_block_tx; [|apply Hin, Htxs].
  - destruct Hcb as [-> | ->]; repeat constructor.
  - split; [intros tx ins Htx; by rewrite (Hnew tx (Hin _ (Htxs tx Htx)))|]. intros tx tx' Htx Htx'.
    destruct Hcb as [-> | ->]; destruct (Htxs _ Htx) as [-> | ->], (Htxs _ Htx') as [-> | ->]; try done; intros E; vm_compute in E; discriminate E.
  - intros tx [= <-]. apply Hnew, Hin. by left.
  - unfold sample_set. intros o e [<- <-]%lookup_singleton_Some. split_and!; [done|done|done|done|]. repeat constructor; vm_compute; discriminate.
  - unfold sample_set, sample_history. split.
    + intros o [e [<- _]%lookup_singleton_Some]. by eexists.
    + intros id ins [_ <-]%lookup_singleton_Some. done.
Qed.

Lemma sample_past_set coinbase : past_set (stores_with coinbase) [0] [[0]] sample_set.
Proof.
  assert (apply_diff (us_virtualUTXO (stores_with coinbase)) (mkDiff ∅ ∅) = sample_set) as <- by reflexivity.
  apply past_base; [done|done| |]; [split; [apply map_empty_subseteq|apply map_disjoint_empty_l]|]. intros o e1 e2 _ He. simpl in He. by rewrite lookup_empty in He.
Qed.

(** The UTXO set of a block is restored from the stored diffs.  Following the
    diff children from a block ends, and the diff that is accumulated on the way back
    is a canonical update of the virtual's UTXO set that leads to exactly the set that
    the diffs describe one after the other. *)
Theorem restorePastUTXO_correct `{MuHash} (stores : utxoStores) (h : list Z) (chain : list (list Z)) (U : utxoCollection) :
  past_set stores h chain U →
  ∃ d, restorePastUTXO stores h = Ret d ∧ applicable (us_virtualUTXO stores) d ∧ canonical d ∧ apply_diff (us_virtualUTXO stores) d = U.
Proof. apply restorePastUTXO_spec. Qed.

Lemma restorePastUTXO_correct_witness :
  ∃ d, restorePastUTXO sample_stores [0] = Ret d ∧ applicable sample_set d ∧ canonical d ∧ apply_diff sample_set d = sample_set.
Proof. apply (restorePastUTXO_correct sample_stores [0] [[0]] sample_set). exact (sample_past_set _). Defined.

(** C2: what accepting a merge set does.  For a block [pov] of a consistent DAG whose
    merge set holds blocks that passed their checks, the computation
    returns, never an error or a panic: the acceptance data list the transactions of the merge set in order;
    every accepted transaction spends entries of the UTXO set as its predecessors
    left it (none twice), is valid in context and creates new entries, and only
    the selected parent's coinbase is accepted; the diff that is returned leads from
    the virtual's set to the resulting set, the multiset is that of the resulting
    set, and value is conserved: the set's value changes by what the coinbase mints less the fees. *)
Theorem CalculatePastUTXO_correct `{LibsOk} `{MuHashOk} (csm : consensusStateManager) (stores : utxoStores)
    (dag_parents : list Z → list (list Z)) (k : Z) (pov p : list Z) (Hist : gmap (list Z) (list DomainOutpoint)) (U0 : utxoCollection)
    (chain : list (list Z)) (g : BlockGHOSTDAGData) (ms : muhash) (parent : DomainBlock) (blocks : list DomainBlock) (s : acceptState) :
  let v := csm_transactionValidator csm in let cs := us_consensus stores in let B := us_virtualUTXO stores in
  context_ok v cs dag_parents k → csm_genesisHash csm = pm_genesisHash (tv_pastMedianTimeManager v) →
  ghostdag_of cs !! pov = Some g → selectedParent g = Some p →
  past_set stores p chain U0 → us_multisets stores !! p = Some ms → ms_equiv ms (ms_of U0) →
  Blocks stores (mergeSetBlues g ++ mergeSetReds g) = Ret (parent :: blocks) → merge_ok csm stores pov Hist U0 parent blocks → caches_ok s →
  ∃ m s' d ads ms' U, PastMedianTime (tv_pastMedianTimeManager v) (ghostdag_of cs) (cs_headers cs) pov = Ret m ∧
    CalculatePastUTXOAndAcceptanceData csm stores pov s = (s', Ret (d, ads, ms')) ∧ caches_ok s' ∧
    applicable B d ∧ canonical d ∧ apply_diff B d = U ∧ accepted_set csm stores pov m U0 parent blocks ads U ∧
    ms_equiv ms' (ms_of U) ∧
    let data := concat (map ba_TransactionAcceptanceData ads) in value U + fees data = value U0 + minted data.
Proof. intros v cs B. apply CalculatePastUTXO_spec. Qed.

Definition sample_result := CalculatePastUTXOAndAcceptanceData sample_csm sample_stores [1] sample_state.

(** Both transactions are accepted: 1000 + 50 = 950 + 100. *)
Lemma CalculatePastUTXO_correct_witness :
  (match snd sample_result with
   | Ret (d, ads, _) => (map (λ a, map (λ t, (ta_IsAccepted t, ta_Fee t)) (ba_TransactionAcceptanceData a)) ads, value (apply_diff sample_set d))
   | _ => ([], 0)
   end) = ([[(true, 0); (true, 100)]], 950) ∧
  ∃ m s' d ads ms' U, PastMedianTime (tv_pastMedianTimeManager TransactionProps.sample_validator) (ghostdag_of (us_consensus sample_stores))
      (cs_headers (us_consensus sample_stores)) [1] = Ret m ∧
    sample_result = (s', Ret (d, ads, ms')) ∧ caches_ok s' ∧ applicable sample_set d ∧ canonical d ∧ apply_diff sample_set d = U ∧
    accepted_set sample_csm sample_stores [1] m sample_set sample_block [] ads U ∧ ms_equiv ms' (ms_of U) ∧
    let data := concat (map ba_TransactionAcceptanceData ads) in value U + fees data = value sample_set + minted data.
Proof.
  split; [vm_compute; reflexivity|].
  apply (CalculatePastUTXO_correct sample_csm sample_stores GhostdagProps.sample_dag 18 [1] [0] sample_history sample_set [[0]]
    (dataOf (ghostdag_of (us_consensus sample_stores)) [1]) (ms_of sample_set) sample_block [] sample_state).
  - exact sample_past_context.
  - reflexivity.
  - vm_compute. reflexivity.
  - vm_compute. reflexivity.
  - exact (sample_past_set _).
  - reflexivity.
  - reflexivity.
  - vm_compute. reflexivity.
  - apply sample_merge_ok; [reflexivity|by left].
  - by split.
Defined.
End PastUtxoProps.
