(* ===== verification/Coinbase.v ===== *)
(** * Coinbase transactions (processes/coinbasemanager)

    The payload of a coinbase transaction, and the coinbase that a block must have:
    an output for every rewarded blue block of its merge set, and one for the rewards
    of the red blocks. *)
From S2P Require Import Prelude Externalapi UtxoDiff ScriptNum ScriptStack OpcodeTable Script Hashing SigCache Opcode Engine.
From S2P Require Import Interval ReachabilityData Reachability DagTopology Block Ghostdag Window DifficultyManager Traversal HeaderValidation TransactionValidator TransactionSafety PastUtxo.
Import TransactionHashing Ghostdag Header HeaderValidation TransactionValidator.
Local Open Scope Z_scope.
Local Open Scope prog_scope.

Abbreviation hash := (list Z) (only parsing).

(** model/externalapi/coinbase.go *)
Record DomainCoinbaseData := {
  cd_ScriptPublicKey : ScriptPublicKey;
  cd_ExtraData : list Z
}.

Record coinbaseManager := {
  cb_subsidyReductionInterval : Z;
  cb_baseSubsidy : Z;
  cb_coinbasePayloadScriptPublicKeyMaxLength : Z
}.

(** [ErrBadCoinbasePayloadLen] is a rule error; the others are not. *)
Inductive coinbaseError :=
  | CoinbaseRule (e : txRuleError)
  | CoinbaseWrongBlock (expected got : hash)
  | CoinbaseStore (e : ghostdagError).

Definition uint64Len : Z := 8.
Definition uint16Len : Z := 2.
Definition lengthOfscriptPubKeyLength : Z := 1.
Definition lengthOfVersionScriptPubKey : Z := uint16Len.

Module Coinbase.
Abbreviation result A := (outcome coinbaseError A) (only parsing).

Definition fromStore {A} (o : outcome ghostdagError A) : result A :=
  match o with Ret a => Ret a | Fail e => Fail (CoinbaseStore e) | Crash c => Crash c end.

Section Manager.
Variable c : coinbaseManager.

(** ** The payload (payload.go) *)

(** [payload[uint64Len+1]] keeps the zero that [make] gave it. *)
Definition serializeCoinbasePayload (blueScore : Z) (coinbaseData : DomainCoinbaseData) : result (list Z) :=
  let scriptLengthOfScriptPubKey := zlen (spk_Script (cd_ScriptPublicKey coinbaseData)) in
  if cb_coinbasePayloadScriptPublicKeyMaxLength c <? scriptLengthOfScriptPubKey then Fail (CoinbaseRule ErrBadCoinbasePayloadLen)
  else
    Ret (LE.put 8 blueScore ++ [GoInt.uint8 (spk_Version (cd_ScriptPublicKey coinbaseData)); 0] ++
         [GoInt.uint8 (zlen (spk_Script (cd_ScriptPublicKey coinbaseData)))] ++
         spk_Script (cd_ScriptPublicKey coinbaseData) ++ cd_ExtraData coinbaseData).

(** The bounds of the two slice expressions are computed as [uint8], the type of
    [scriptPubKeyScriptLength]. *)
Definition ExtractCoinbaseDataAndBlueScore (coinbaseTx : DomainTransaction) : result (Z * DomainCoinbaseData) :=
  let payload := tx_Payload coinbaseTx in
  let minLength := uint64Len + lengthOfVersionScriptPubKey + lengthOfscriptPubKeyLength in
  if zlen payload <? minLength then Fail (CoinbaseRule ErrBadCoinbasePayloadLen)
  else
    let? blueScoreBytes := slice payload 0 uint64Len in
    let blueScore := LE.of_bytes blueScoreBytes in
    let? scriptPubKeyVersion := index payload uint64Len in
    let? scriptPubKeyScriptLength := index payload (uint64Len + lengthOfVersionScriptPubKey) in
    if cb_coinbasePayloadScriptPublicKeyMaxLength c <? scriptPubKeyScriptLength then Fail (CoinbaseRule ErrBadCoinbasePayloadLen)
    else if zlen payload <? minLength + scriptPubKeyScriptLength then Fail (CoinbaseRule ErrBadCoinbasePayloadLen)
    else
      let scriptEnd := GoInt.uint8 (minLength + scriptPubKeyScriptLength) in
      let? scriptPubKeyScript := slice payload minLength scriptEnd in
      let? extraData := slice payload scriptEnd (zlen payload) in
      Ret (blueScore, {| cd_ScriptPublicKey := {| spk_Script := scriptPubKeyScript; spk_Version := scriptPubKeyVersion |};
                         cd_ExtraData := extraData |}).

(** ** Rewards (coinbasemanager.go) *)
Section Rewards.
Variable cs : consensus.
Variable acceptanceDataStore : gmap hash (list BlockAcceptanceData).

Definition DAAAddedBlocks (blockHash : hash) : result (list hash) := fromStore (Get (daa_addedBlocks (cs_daa cs)) blockHash).
Definition daaAddedBlocksSet (blockHash : hash) : result (gset hash) :=
  let? daaAddedBlocks := DAAAddedBlocks blockHash in Ret (list_to_set daaAddedBlocks).

(** A shift by 64 or more gives 0. *)
Definition calcBlockSubsidy (blockHash : hash) : result Z :=
  if cb_subsidyReductionInterval c =? 0 then Ret (cb_baseSubsidy c)
  else
    let? daaScore := fromStore (Get (daa_scores (cs_daa cs)) blockHash) in
    Ret (Z.shiftr (cb_baseSubsidy c) (daaScore / cb_subsidyReductionInterval c)).

Definition totalFeesOf (data : list TransactionAcceptanceData) : Z :=
  fold_left (λ totalFees txAcceptanceData,
    if ta_IsAccepted txAcceptanceData then GoInt.uint64 (totalFees + ta_Fee txAcceptanceData) else totalFees) data 0.

Definition calcMergedBlockReward (blockHash : hash) (blockAcceptanceData : BlockAcceptanceData)
    (mergingBlockDAAAddedBlocksSet : gset hash) : result Z :=
  if negb (bool_decide (blockHash = ba_BlockHash blockAcceptanceData)) then Fail (CoinbaseWrongBlock blockHash (ba_BlockHash blockAcceptanceData))
  else if negb (bool_decide (blockHash ∈ mergingBlockDAAAddedBlocksSet)) then Ret 0
  else
    let totalFees := totalFeesOf (ba_TransactionAcceptanceData blockAcceptanceData) in
    let? subsidy := calcBlockSubsidy blockHash in
    Ret (GoInt.uint64 (subsidy + totalFees)).

(** [None] when there is no reward *)
Definition coinbaseOutputForBlueBlock (blueBlock : hash) (blockAcceptanceData : BlockAcceptanceData)
    (mergingBlockDAAAddedBlocksSet : gset hash) : result (option DomainTransactionOutput) :=
  let? totalReward := calcMergedBlockReward blueBlock blockAcceptanceData mergingBlockDAAAddedBlocksSet in
  if totalReward =? 0 then Ret None
  else
    let? coinbase := index (ba_TransactionAcceptanceData blockAcceptanceData) 0 in
    let? '(_, coinbaseData) := ExtractCoinbaseDataAndBlueScore (ta_Transaction coinbase) in
    Ret (Some {| out_Value := totalReward; out_ScriptPublicKey := cd_ScriptPublicKey coinbaseData |}).

(** [for i, red := range ghostdagData.MergeSetReds()] *)
Fixpoint redRewards (reds : list hash) (i : Z) (acceptanceData : list BlockAcceptanceData) (daaAddedBlocksSet : gset hash)
    (totalReward : Z) : result Z :=
  match reds with
  | [] => Ret totalReward
  | red :: rest =>
      let? blockAcceptanceData := index acceptanceData i in
      let? reward := calcMergedBlockReward red blockAcceptanceData daaAddedBlocksSet in
      redRewards rest (i + 1) acceptanceData daaAddedBlocksSet (GoInt.uint64 (totalReward + reward))
  end.

Definition coinbaseOutputForRewardFromRedBlocks (ghostdagData : BlockGHOSTDAGData) (acceptanceData : list BlockAcceptanceData)
    (daaAddedBlocksSet : gset hash) (coinbaseData : DomainCoinbaseData) : result (option DomainTransactionOutput) :=
  let mergeSetBluesCount := zlen (mergeSetBlues ghostdagData) in
  let? totalReward := redRewards (mergeSetReds ghostdagData) mergeSetBluesCount acceptanceData daaAddedBlocksSet 0 in
  if totalReward =? 0 then Ret None
  else Ret (Some {| out_Value := totalReward; out_ScriptPublicKey := cd_ScriptPublicKey coinbaseData |}).

(** [for i, blue := range ghostdagData.MergeSetBlues()] *)
Fixpoint blueOutputs (blues : list hash) (i : Z) (acceptanceData : list BlockAcceptanceData) (daaAddedBlocksSet : gset hash) :
    result (list DomainTransactionOutput) :=
  match blues with
  | [] => Ret []
  | blue :: rest =>
      let? blockAcceptanceData := index acceptanceData i in
      let? txOut := coinbaseOutputForBlueBlock blue blockAcceptanceData daaAddedBlocksSet in
      let? txOuts := blueOutputs rest (i + 1) acceptanceData daaAddedBlocksSet in
      Ret (option_list txOut ++ txOuts)
  end.

Definition ExpectedCoinbaseTransaction (blockHash : hash) (coinbaseData : DomainCoinbaseData) : result DomainTransaction :=
  let? ghostdagData := fromStore (Get (ghostdag_of cs) blockHash) in
  let? acceptanceData := fromStore (Get acceptanceDataStore blockHash) in
  let? daaAddedBlocksSet := daaAddedBlocksSet blockHash in
  let? txOuts := blueOutputs (mergeSetBlues ghostdagData) 0 acceptanceData daaAddedBlocksSet in
  let? txOut := coinbaseOutputForRewardFromRedBlocks ghostdagData acceptanceData daaAddedBlocksSet coinbaseData in
  let txOuts := txOuts ++ option_list txOut in
  let? payload := serializeCoinbasePayload (blueScore ghostdagData) coinbaseData in
  Ret {| tx_Version := MaxTransactionVersion; tx_Inputs := []; tx_Outputs := txOuts; tx_LockTime := 0;
         tx_SubnetworkID := SubnetworkIDCoinbase; tx_Gas := 0; tx_Payload := payload; tx_Fee := 0; tx_Mass := 0; tx_ID := None |}.
End Rewards.
End Manager.
End Coinbase.
Import Coinbase.

(** ** The payload is a codec *)

Lemma slice_prefix {E A} (l k : list A) j : j = zlen l → @slice E A (l ++ k) 0 j = Ret l.
Proof. intros ->. by apply (slice_app [] l k). Qed.

(** The three parts of a payload that is long enough. *)
Lemma payload_parts (p : list Z) : 11 ≤ zlen p →
  ∃ score version zero len rest, p = score ++ version :: zero :: len :: rest ∧ zlen score = 8.
Proof.
  intros Hl. pose proof (take_drop 8 p) as Hp. assert (zlen (take 8 p) = 8) as H8 by (unfold zlen in *; rewrite length_take; lia).
  assert (3 ≤ zlen (drop 8 p)) as H3 by (unfold zlen in *; rewrite length_drop; lia).
  destruct (drop 8 p) as [|a [|b [|d rest]]]; try (unfold zlen in H3; simpl in H3; lia). by exists (take 8 p), a, b, d, rest.
Qed.

Definition payload_of (score : list Z) (version zero : Z) (script extra : list Z) : list Z :=
  score ++ version :: zero :: zlen script :: script ++ extra.

Lemma extract_payload c tx score version zero script extra : cb_coinbasePayloadScriptPublicKeyMaxLength c ≤ 244 →
  zlen score = 8 → zlen script ≤ cb_coinbasePayloadScriptPublicKeyMaxLength c → tx_Payload tx = payload_of score version zero script extra →
  ExtractCoinbaseDataAndBlueScore c tx =
    Ret (LE.of_bytes score, {| cd_ScriptPublicKey := {| spk_Script := script; spk_Version := version |}; cd_ExtraData := extra |}).
Proof.
  intros Hmax Hs Hl Hp. unfold ExtractCoinbaseDataAndBlueScore. rewrite Hp. unfold uint64Len, lengthOfVersionScriptPubKey, uint16Len, lengthOfscriptPubKeyLength.
  cbv zeta. change (8 + 2 + 1) with 11. pose proof (zlen_nonneg script). pose proof (zlen_nonneg extra).
  assert (zlen (payload_of score version zero script extra) = 11 + zlen script + zlen extra) as Hlen.
  { unfold payload_of. rewrite zlen_app, !zlen_cons, zlen_app. lia. }
  rewrite Hlen. rewrite (proj2 (Z.ltb_ge _ 11)) by lia. unfold payload_of.
  rewrite (slice_prefix score _ 8) by done. cbn [obind].
  rewrite (index_middle score _ version 8) by done. cbn [obind].
  assert (∀ A B : list Z, score ++ version :: zero :: zlen script :: A = (score ++ [version; zero]) ++ zlen script :: A) as E1
    by (intros; by rewrite <- app_assoc).
  rewrite (E1 _ []), (index_middle (score ++ [version; zero]) _ (zlen script) (8 + 2)) by (rewrite zlen_app; unfold zlen in *; simpl; lia). cbn [obind].
  rewrite (proj2 (Z.ltb_ge _ (zlen script))) by lia. rewrite (proj2 (Z.ltb_ge _ (11 + zlen script))) by lia.
  assert (GoInt.uint8 (11 + zlen script) = 11 + zlen script) as -> by (unfold GoInt.uint8, GoInt.uwrap; apply Z.mod_small; lia).
  assert ((score ++ [version; zero]) ++ zlen script :: script ++ extra = (score ++ [version; zero; zlen script]) ++ script ++ extra) as -> by (by rewrite <- !app_assoc).
  assert (zlen (score ++ [version; zero; zlen script]) = 11) as H11 by (rewrite zlen_app; unfold zlen in *; simpl; lia).
  rewrite (slice_app _ script extra 11) by lia. cbn [obind].
  assert ((score ++ [version; zero; zlen script]) ++ script ++ extra = ((score ++ [version; zero; zlen script]) ++ script) ++ extra ++ []) as ->
    by (by rewrite app_nil_r, app_assoc).
  rewrite (slice_app _ extra []) by (rewrite zlen_app; lia). done.
Qed.

Lemma serialize_payload c score d : cb_coinbasePayloadScriptPublicKeyMaxLength c ≤ 244 → 0 ≤ spk_Version (cd_ScriptPublicKey d) < 256 →
  zlen (spk_Script (cd_ScriptPublicKey d)) ≤ cb_coinbasePayloadScriptPublicKeyMaxLength c →
  serializeCoinbasePayload c score d =
    Ret (payload_of (LE.put 8 score) (spk_Version (cd_ScriptPublicKey d)) 0 (spk_Script (cd_ScriptPublicKey d)) (cd_ExtraData d)).
Proof.
  intros Hmax Hv Hl. unfold serializeCoinbasePayload. cbv zeta. rewrite (proj2 (Z.ltb_ge _ _)) by done.
  pose proof (zlen_nonneg (spk_Script (cd_ScriptPublicKey d))).
  unfold GoInt.uint8, GoInt.uwrap. change (2 ^ 8) with 256. by rewrite !Z.mod_small by lia.
Qed.

(** The extraction reports a bad length, or takes the payload apart. *)
Lemma extract_cases c tx : cb_coinbasePayloadScriptPublicKeyMaxLength c ≤ 244 → are_bytes (tx_Payload tx) →
  ExtractCoinbaseDataAndBlueScore c tx = Fail (CoinbaseRule ErrBadCoinbasePayloadLen) ∨
  ∃ score version zero script extra, tx_Payload tx = payload_of score version zero script extra ∧ zlen score = 8 ∧ are_bytes score ∧ is_byte version ∧
    zlen script ≤ cb_coinbasePayloadScriptPublicKeyMaxLength c ∧
    ExtractCoinbaseDataAndBlueScore c tx =
      Ret (LE.of_bytes score, {| cd_ScriptPublicKey := {| spk_Script := script; spk_Version := version |}; cd_ExtraData := extra |}).
Proof.
  intros Hmax Hb. destruct (decide (zlen (tx_Payload tx) < 11)) as [Hlt|Hge].
  { left. unfold ExtractCoinbaseDataAndBlueScore. cbv zeta. by rewrite (proj2 (Z.ltb_lt _ _)) by done. }
  destruct (payload_parts (tx_Payload tx)) as (score & version & zero & len & rest & Hp & H8); [lia|].
  rewrite Hp in Hb. apply are_bytes_app in Hb as [Hbs Hb]. apply are_bytes_cons in Hb as [Hv Hb]. apply are_bytes_cons in Hb as [_ Hb].
  apply are_bytes_cons in Hb as [Hlen _]. unfold is_byte in Hlen.
  destruct (decide (cb_coinbasePayloadScriptPublicKeyMaxLength c < len ∨ zlen rest < len)) as [Hbad|Hok].
  - left. unfold ExtractCoinbaseDataAndBlueScore. cbv zeta. rewrite (proj2 (Z.ltb_ge _ _)) by (unfold uint64Len, lengthOfVersionScriptPubKey, uint16Len, lengthOfscriptPubKeyLength; lia).
    rewrite Hp. rewrite (slice_prefix score _ uint64Len) by done. cbn [obind]. rewrite (index_middle score _ version uint64Len) by done. cbn [obind].
    assert (score ++ version :: zero :: len :: rest = (score ++ [version; zero]) ++ len :: rest) as E1 by (by rewrite <- app_assoc).
    rewrite E1, (index_middle (score ++ [version; zero]) _ len (uint64Len + lengthOfVersionScriptPubKey)) by (change (uint64Len + lengthOfVersionScriptPubKey) with 10; rewrite zlen_app; unfold zlen in *; simpl; lia).
    cbn [obind]. destruct (Z.ltb_spec (cb_coinbasePayloadScriptPublicKeyMaxLength c) len) as [|Hge']; [done|]. rewrite (proj2 (Z.ltb_lt _ _)); [done|].
    rewrite !zlen_app, zlen_cons. unfold zlen in *. simpl. unfold uint64Len, lengthOfVersionScriptPubKey, uint16Len, lengthOfscriptPubKeyLength. lia.
  - right. set (script := take (Z.to_nat len) rest). set (extra := drop (Z.to_nat len) rest).
    assert (zlen script = len) as Hsl by (unfold script, zlen in *; rewrite length_take; lia).
    assert (tx_Payload tx = payload_of score version zero script extra) as Hp'.
    { unfold payload_of. rewrite Hsl. unfold script, extra. by rewrite take_drop. }
    exists score, version, zero, script, extra. split_and!; try done; try lia. apply extract_payload with zero; done || lia.
Qed.

Lemma extract_total c tx : cb_coinbasePayloadScriptPublicKeyMaxLength c ≤ 244 → are_bytes (tx_Payload tx) →
  match ExtractCoinbaseDataAndBlueScore c tx with
  | Ret (score, d) => tx_Payload tx !! 9%nat = Some 0 → serializeCoinbasePayload c score d = Ret (tx_Payload tx)
  | Fail e => e = CoinbaseRule ErrBadCoinbasePayloadLen
  | Crash _ => False
  end.
Proof.
  intros Hmax Hb. destruct (extract_cases c tx Hmax Hb) as [->|(score & version & zero & script & extra & Hp & H8 & Hbs & Hv & Hl & ->)]; [done|].
  unfold is_byte in Hv. intros H9. rewrite serialize_payload by (simpl; lia). simpl. rewrite Hp in H9 |- *. f_equal. unfold payload_of in *. f_equal.
  - pose proof (LE.put_of_bytes score Hbs) as E8. by replace (length score) with 8%nat in E8 by (unfold zlen in *; lia).
  - rewrite lookup_app_r in H9 by (unfold zlen in *; lia). replace (9 - length score)%nat with 1%nat in H9 by (unfold zlen in *; lia).
    by injection H9 as ->.
Qed.

Module CoinbasePayloadProps.
(** The coinbase payload is a codec.  When scripts are limited to 244 bytes (the
    networks allow 150), what [serializeCoinbasePayload] writes is read back as it was, for
    every blue score and every data with a version below 256 and a script within the limit; and
    on every payload whatsoever the extraction returns or reports a bad length, never panics,
    and what it returns is written back to the same payload if the padding byte is zero. *)
Theorem coinbase_payload_codec (c : coinbaseManager) (score : Z) (d : DomainCoinbaseData) (tx : DomainTransaction) :
  cb_coinbasePayloadScriptPublicKeyMaxLength c ≤ 244 →
  (0 ≤ score < 2 ^ 64 → 0 ≤ spk_Version (cd_ScriptPublicKey d) < 256 →
   zlen (spk_Script (cd_ScriptPublicKey d)) ≤ cb_coinbasePayloadScriptPublicKeyMaxLength c →
   ∃ payload, serializeCoinbasePayload c score d = Ret payload ∧
     (tx_Payload tx = payload → ExtractCoinbaseDataAndBlueScore c tx = Ret (score, d))) ∧
  (are_bytes (tx_Payload tx) →
   match ExtractCoinbaseDataAndBlueScore c tx with
   | Ret (score, d) => tx_Payload tx !! 9%nat = Some 0 → serializeCoinbasePayload c score d = Ret (tx_Payload tx)
   | Fail e => e = CoinbaseRule ErrBadCoinbasePayloadLen
   | Crash _ => False
   end).
Proof.
  intros Hmax. split.
  - intros Hs Hv Hl. eexists. split; [by apply serialize_payload|]. intros Hp.
    rewrite (extract_payload c tx _ _ _ _ _ Hmax) with (3 := Hp); [|unfold zlen; by rewrite LE.put_length|done].
    rewrite LE.of_bytes_put by lia. by destruct d as [[] ?].
  - apply extract_total. done.
Qed.

Definition sample_manager : coinbaseManager :=
  {| cb_subsidyReductionInterval := 210000; cb_baseSubsidy := 5000000000; cb_coinbasePayloadScriptPublicKeyMaxLength := 150 |}.
Definition sample_data : DomainCoinbaseData :=
  {| cd_ScriptPublicKey := {| spk_Script := [81; 82]; spk_Version := 0 |}; cd_ExtraData := [1; 2; 3] |}.
Definition sample_tx : DomainTransaction :=
  {| tx_Version := 0; tx_Inputs := []; tx_Outputs := []; tx_LockTime := 0; tx_SubnetworkID := SubnetworkIDCoinbase; tx_Gas := 0;
     tx_Payload := [7; 0; 0; 0; 0; 0; 0; 0; 0; 0; 2; 81; 82; 1; 2; 3]; tx_Fee := 0; tx_Mass := 0; tx_ID := None |}.

Lemma coinbase_payload_codec_witness :
  ∃ payload, serializeCoinbasePayload sample_manager 7 sample_data = Ret payload ∧
    (tx_Payload sample_tx = payload → ExtractCoinbaseDataAndBlueScore sample_manager sample_tx = Ret (7, sample_data)).
Proof. apply (coinbase_payload_codec sample_manager 7 sample_data sample_tx); simpl; done || lia. Defined.

(** With a limit above 244 the bounds wrap around: a payload with a script of 245 bytes makes the extraction panic. *)
Example extract_panics :
  let c := {| cb_subsidyReductionInterval := 0; cb_baseSubsidy := 0; cb_coinbasePayloadScriptPublicKeyMaxLength := 255 |} in
  let tx := {| tx_Version := 0; tx_Inputs := []; tx_Outputs := []; tx_LockTime := 0; tx_SubnetworkID := SubnetworkIDCoinbase; tx_Gas := 0;
               tx_Payload := replicate 10 0 ++ [245] ++ replicate 245 81; tx_Fee := 0; tx_Mass := 0; tx_ID := None |} in
  ExtractCoinbaseDataAndBlueScore c tx = Crash IndexOutOfRange.
Proof. vm_compute. reflexivity. Qed.
End CoinbasePayloadProps.
