(* ===== verification/BlockBody.v ===== *)
(** * Validation of block bodies (processes/blockvalidator)

    block_body_in_isolation.go, block_body_in_context.go and header_estimated_size.go.
    The checks only read: the block, and in context the stores and the DAG.  The id
    that [TransactionID] caches in a transaction is not visible in the results. *)
From S2P Require Import Prelude Externalapi UtxoDiff ScriptNum ScriptStack OpcodeTable Script Hashing SigCache Opcode Engine.
From S2P Require Import Interval ReachabilityData Reachability DagTopology Block Merkle Ghostdag Window DifficultyManager Traversal HeaderValidation TransactionValidator TransactionSafety PastUtxo Coinbase.
Import TransactionHashing Opcode Ghostdag DagTopology PastMedianTime Header Merkle HeaderValidation TransactionValidator.
Local Open Scope Z_scope.
Local Open Scope prog_scope.

Abbreviation hash := (list Z) (only parsing).

Inductive bodyRuleError :=
  | ErrBadMerkleRoot
  | ErrBlockSizeTooHigh
  | ErrNoTransactions
  | ErrFirstTxNotCoinbase
  | ErrMultipleCoinbases
  | ErrTransactionsNotSorted
  | ErrDuplicateTx
  | ErrDoubleSpendInSameBlock
  | ErrChainedTransactions
  | ErrPrunedBlock
  | ErrUnfinalizedTransaction
  | ErrMissingParentBodies (missing : list hash).

Inductive bodyError :=
  | BodyRule (e : bodyRuleError)
  | BodyTransaction (e : txError)
  | BodyCoinbase (e : coinbaseError)
  | BodyPrefilledInput
  | BodyStore (e : ghostdagError)
  | BodyMedian (e : medianError)
  | BodyDag (e : reachabilityError).

Record bodyValidator := {
  bd_maxBlockSize : Z;
  bd_coinbaseManager : coinbaseManager;
  bd_transactionValidator : transactionValidator;
  bd_pastMedianTimeManager : pastMedianTimeManager
}.

Definition CoinbaseTransactionIndex : Z := 0.

(** [subnetworks.Less] *)
Definition subnetwork_Less (a b : DomainSubnetworkID) : bool :=
  match bytesCompare a b with Lt => true | _ => false end.

Module BlockBody.
Abbreviation result A := (outcome bodyError A) (only parsing).
Definition bodyRule {A} (e : bodyRuleError) : result A := Fail (BodyRule e).
Definition with_error {E A} (err : E → bodyError) (o : outcome E A) : result A :=
  match o with Ret a => Ret a | Fail e => Fail (err e) | Crash c => Crash c end.

Definition headerEstimatedSerializedSize (header : BlockHeader) : Z :=
  let size := 0 in
  let size := GoInt.uint64 (size + 2) in
  let size := GoInt.uint64 (size + 8) in
  let size := GoInt.uint64 (size + GoInt.uint64 (DomainHashSize * zlen (hd_parentHashes header))) in
  let size := GoInt.uint64 (size + DomainHashSize) in
  let size := GoInt.uint64 (size + DomainHashSize) in
  let size := GoInt.uint64 (size + DomainHashSize) in
  let size := GoInt.uint64 (size + 8) in
  let size := GoInt.uint64 (size + 4) in
  GoInt.uint64 (size + 8).

Section Validator.
Context `{Hashes}.
Variable v : bodyValidator.

(** ** In isolation *)
Definition checkNoPrefilledInputs (block : DomainBlock) : result unit :=
  if forallb (λ tx, forallb (λ input, bool_decide (in_UTXOEntry input = None)) (tx_Inputs tx)) (bk_Transactions block) then Ret ()
  else Fail BodyPrefilledInput.

Definition checkBlockHashMerkleRoot (block : DomainBlock) : result unit :=
  let? calculatedHashMerkleRoot := CalculateHashMerkleRoot (bk_Transactions block) in
  if negb (bool_decide (Some (hd_hashMerkleRoot (bk_Header block)) = calculatedHashMerkleRoot)) then bodyRule ErrBadMerkleRoot else Ret ().

Fixpoint sizeLoop (size : Z) (transactions : list DomainTransaction) : result unit :=
  match transactions with
  | [] => Ret ()
  | tx :: rest =>
      let sizeBefore := size in
      let size := GoInt.uint64 (size + TransactionEstimatedSerializedSize tx) in
      if (bd_maxBlockSize v <? size) || (size <? sizeBefore) then bodyRule ErrBlockSizeTooHigh else sizeLoop size rest
  end.
Definition checkBlockSize (block : DomainBlock) : result unit :=
  let size := 0 in
  let size := GoInt.uint64 (size + headerEstimatedSerializedSize (bk_Header block)) in
  sizeLoop size (bk_Transactions block).

Definition checkBlockContainsAtLeastOneTransaction (block : DomainBlock) : result unit :=
  if zlen (bk_Transactions block) =? 0 then bodyRule ErrNoTransactions else Ret ().

Definition checkFirstBlockTransactionIsCoinbase (block : DomainBlock) : result unit :=
  let? tx := index (bk_Transactions block) CoinbaseTransactionIndex in
  if negb (IsCoinBase tx) then bodyRule ErrFirstTxNotCoinbase else Ret ().

Definition checkBlockContainsOnlyOneCoinbase (block : DomainBlock) : result unit :=
  let? rest := slice (bk_Transactions block) (CoinbaseTransactionIndex + 1) (zlen (bk_Transactions block)) in
  if existsb IsCoinBase rest then bodyRule ErrMultipleCoinbases else Ret ().

Definition checkCoinbase (block : DomainBlock) : result unit :=
  let? tx := index (bk_Transactions block) CoinbaseTransactionIndex in
  let? _ := with_error BodyCoinbase (Coinbase.ExtractCoinbaseDataAndBlueScore (bd_coinbaseManager v) tx) in Ret ().

(** [block.Transactions[i]] is the transaction before [tx]: the range starts at index 1. *)
Fixpoint orderLoop (block : DomainBlock) (i : Z) (transactions : list DomainTransaction) : result unit :=
  match transactions with
  | [] => Ret ()
  | tx :: rest =>
      let? notSorted :=
        if i =? 0 then Ret false
        else let? before := index (bk_Transactions block) i in
             Ret (subnetwork_Less (tx_SubnetworkID tx) (tx_SubnetworkID before)) in
      if (notSorted : bool) then bodyRule ErrTransactionsNotSorted else orderLoop block (i + 1) rest
  end.
Definition checkBlockTransactionOrder (block : DomainBlock) : result unit :=
  let? rest := slice (bk_Transactions block) (CoinbaseTransactionIndex + 1) (zlen (bk_Transactions block)) in
  orderLoop block 0 rest.

Fixpoint isolationLoop (transactions : list DomainTransaction) : result unit :=
  match transactions with
  | [] => Ret ()
  | tx :: rest =>
      let? _ := with_error BodyTransaction (ValidateTransactionInIsolation (bd_transactionValidator v) tx) in
      isolationLoop rest
  end.
Definition checkTransactionsInIsolation (block : DomainBlock) : result unit := isolationLoop (bk_Transactions block).

Fixpoint duplicateIDsLoop (existingTxIDs : gset DomainTransactionID) (transactions : list DomainTransaction) : result unit :=
  match transactions with
  | [] => Ret ()
  | tx :: rest =>
      let id := fst (TransactionID tx) in
      if bool_decide (id ∈ existingTxIDs) then bodyRule ErrDuplicateTx
      else duplicateIDsLoop ({[ id ]} ∪ existingTxIDs) rest
  end.
Definition checkBlockDuplicateTransactions (block : DomainBlock) : result unit := duplicateIDsLoop ∅ (bk_Transactions block).

Fixpoint spendInputs (txID : DomainTransactionID) (usedOutpoints : gmap DomainOutpoint DomainTransactionID)
    (inputs : list DomainTransactionInput) : result (gmap DomainOutpoint DomainTransactionID) :=
  match inputs with
  | [] => Ret usedOutpoints
  | input :: rest =>
      if bool_decide (is_Some (usedOutpoints !! in_PreviousOutpoint input)) then bodyRule ErrDoubleSpendInSameBlock
      else spendInputs txID (<[in_PreviousOutpoint input := txID]> usedOutpoints) rest
  end.
Fixpoint doubleSpendsLoop (usedOutpoints : gmap DomainOutpoint DomainTransactionID) (transactions : list DomainTransaction) : result unit :=
  match transactions with
  | [] => Ret ()
  | tx :: rest =>
      let? usedOutpoints := spendInputs (fst (TransactionID tx)) usedOutpoints (tx_Inputs tx) in
      doubleSpendsLoop usedOutpoints rest
  end.
Definition checkBlockDoubleSpends (block : DomainBlock) : result unit := doubleSpendsLoop ∅ (bk_Transactions block).

Definition checkBlockHasNoChainedTransactions (block : DomainBlock) : result unit :=
  let transactions := bk_Transactions block in
  let transactionsSet : gset DomainTransactionID := list_to_set (map (λ tx, fst (TransactionID tx)) transactions) in
  if existsb (λ transaction, existsb (λ transactionInput,
       bool_decide (op_TransactionID (in_PreviousOutpoint transactionInput) ∈ transactionsSet)) (tx_Inputs transaction)) transactions
  then bodyRule ErrChainedTransactions else Ret ().

Definition validateGasLimit (block : DomainBlock) : result unit := Ret ().

Definition ValidateBodyInIsolation (blocks : gmap hash DomainBlock) (blockHash : hash) : result unit :=
  let? block := with_error BodyStore (Get blocks blockHash) in
  let? _ := checkNoPrefilledInputs block in
  let? _ := checkBlockHashMerkleRoot block in
  let? _ := checkBlockSize block in
  let? _ := checkBlockContainsAtLeastOneTransaction block in
  let? _ := checkFirstBlockTransactionIsCoinbase block in
  let? _ := checkBlockContainsOnlyOneCoinbase block in
  let? _ := checkCoinbase block in
  let? _ := checkBlockTransactionOrder block in
  let? _ := checkTransactionsInIsolation block in
  let? _ := checkBlockDuplicateTransactions block in
  let? _ := checkBlockDoubleSpends block in
  let? _ := checkBlockHasNoChainedTransactions block in
  validateGasLimit block.

(** ** In context *)
Section Context.
Variable cs : consensus.
Variable blocks : gmap hash DomainBlock.
Variable tips : list hash.

(** [hasValidatedHeader] of the block validator *)
Definition isHeaderOnly (blockHash : hash) : bool := bool_decide (cs_statuses cs !! blockHash = Some StatusHeaderOnly).

Definition checkBlockIsNotPruned (blockHash : hash) : result unit :=
  if negb (isHeaderOnly blockHash) then Ret ()
  else
    let? isAncestorOfSomeTips := with_error BodyDag (snd (IsAncestorOfAny blockHash tips (dtm_of cs))) in
    if (isAncestorOfSomeTips : bool) then bodyRule ErrPrunedBlock else Ret ().

Definition isFinalizedTransaction (tx : DomainTransaction) (blockBlueScore blockTime : Z) : bool :=
  let lockTime := tx_LockTime tx in
  if lockTime =? 0 then true
  else
    let blockTimeOrBlueScore := if lockTime <? LockTimeThreshold then blockBlueScore else GoInt.uint64 blockTime in
    if lockTime <? blockTimeOrBlueScore then true
    else forallb (λ input, in_Sequence input =? 2 ^ 64 - 1) (tx_Inputs tx).

Definition checkBlockTransactionsFinalized (blockHash : hash) : result unit :=
  let? block := with_error BodyStore (Get blocks blockHash) in
  let? ghostdagData := with_error BodyStore (Get (ghostdag_of cs) blockHash) in
  let? blockTime := with_error BodyMedian (PastMedianTime (bd_pastMedianTimeManager v) (ghostdag_of cs) (cs_headers cs) blockHash) in
  if negb (forallb (λ tx, isFinalizedTransaction tx (blueScore ghostdagData) blockTime) (bk_Transactions block))
  then bodyRule ErrUnfinalizedTransaction else Ret ().

Fixpoint missingBodies (parents : list hash) : result (list hash) :=
  match parents with
  | [] => Ret []
  | parent :: rest =>
      let? isMissing :=
        if bool_decide (is_Some (blocks !! parent)) then Ret false
        else
          match cs_pruningPoint cs with
          | None => Fail (BodyStore (DagError ErrNotFound))
          | Some pruningPoint =>
              let? isInPastOfPruningPoint := with_error BodyDag (snd (dtm_IsAncestorOf parent pruningPoint (dtm_of cs))) in
              Ret (negb isInPastOfPruningPoint)
          end in
      let? missingParentHashes := missingBodies rest in
      Ret (if (isMissing : bool) then parent :: missingParentHashes else missingParentHashes)
  end.
Definition checkParentBlockBodiesExist (blockHash : hash) : result unit :=
  let? header := with_error BodyStore (Get (cs_headers cs) blockHash) in
  let? missingParentHashes := missingBodies (hd_parentHashes header) in
  match missingParentHashes with
  | [] => Ret ()
  | _ => bodyRule (ErrMissingParentBodies missingParentHashes)
  end.

Definition ValidateBodyInContext (blockHash : hash) (isPruningPoint : bool) : result unit :=
  let? _ := checkBlockIsNotPruned blockHash in
  let? _ := checkBlockTransactionsFinalized blockHash in
  if negb isPruningPoint then checkParentBlockBodiesExist blockHash else Ret ().
End Context.
End Validator.
End BlockBody.
Import BlockBody.

(** ** What the checks decide *)

(** A check that does not panic and passes exactly when [P] holds. *)
Definition checks {E} (o : outcome E unit) (P : Prop) : Prop := (∀ c, o ≠ Crash c) ∧ (o = Ret () ↔ P).

#[export] Instance checks_proper {E} (o : outcome E unit) : Proper (iff ==> iff) (checks o).
Proof. intros P Q HPQ. unfold checks. by rewrite HPQ. Qed.

Lemma checks_bind {E} (o : outcome E unit) (k : unit → outcome E unit) (P Q : Prop) :
  checks o P → (P → checks (k ()) Q) → checks (obind o k) (P ∧ Q).
Proof.
  intros [Hc Ho] Hk. destruct o as [[]|e|c]; cbn [obind].
  - destruct (Hk (proj1 Ho eq_refl)) as [Hck Hkk]. split; [done|]. rewrite Hkk. tauto.
  - split; [done|]. split; [done|]. intros [HP _]. by apply Ho in HP.
  - by destruct (Hc c).
Qed.
Lemma checks_if {E} (b : bool) (e : E) (P : Prop) : (b = false ↔ P) → checks (if b then Fail e else Ret ()) P.
Proof. intros <-. by destruct b. Qed.
Lemma checks_iff {E} (o : outcome E unit) (P Q : Prop) : (P ↔ Q) → checks o P → checks o Q.
Proof. unfold checks. intros HPQ [? Ho]. split; [done|]. by rewrite Ho. Qed.

Section Spec.
Context `{Hashes}.
Variable v : bodyValidator.
Abbreviation txid tx := (fst (TransactionID tx)).
Abbreviation spent txs := (concat (map (λ tx, map in_PreviousOutpoint (tx_Inputs tx)) txs)).

(** A block is well formed on its own. *)
Record body_ok (block : DomainBlock) : Prop := {
  bo_unfilled tx i : tx ∈ bk_Transactions block → i ∈ tx_Inputs tx → in_UTXOEntry i = None;
  bo_root : Some (hd_hashMerkleRoot (bk_Header block)) =
    tree (height (zlen (bk_Transactions block))) (map TransactionHash (bk_Transactions block));
  bo_size : headerEstimatedSerializedSize (bk_Header block) +
    sumZ (map TransactionEstimatedSerializedSize (bk_Transactions block)) ≤ bd_maxBlockSize v;
  bo_coinbase : ∃ coinbase txs d, bk_Transactions block = coinbase :: txs ∧ IsCoinBase coinbase = true ∧
    Forall (λ tx, IsCoinBase tx = false) txs ∧ Coinbase.ExtractCoinbaseDataAndBlueScore (bd_coinbaseManager v) coinbase = Ret d;
  bo_sorted i a b : (1 ≤ i)%nat → bk_Transactions block !! i = Some a → bk_Transactions block !! S i = Some b →
    subnetwork_Less (tx_SubnetworkID b) (tx_SubnetworkID a) = false;
  bo_isolation : Forall (isolation_ok (bd_transactionValidator v)) (bk_Transactions block);
  bo_ids : NoDup (map (λ tx, txid tx) (bk_Transactions block));
  bo_spent : NoDup (spent (bk_Transactions block));
  bo_unchained o tx : o ∈ spent (bk_Transactions block) → tx ∈ bk_Transactions block → op_TransactionID o ≠ txid tx
}.

(** A block as its types allow. *)
Record body_typed (block : DomainBlock) : Prop := {
  bt_nonempty : bk_Transactions block ≠ [];
  bt_values : Forall uint64_values (bk_Transactions block);
  bt_gas : Forall (λ tx, 0 ≤ tx_Gas tx) (bk_Transactions block);
  bt_payload : Forall (λ tx, are_bytes (tx_Payload tx)) (bk_Transactions block)
}.

Lemma uint64_range z : 0 ≤ GoInt.uint64 z < 2 ^ 64.
Proof using Type. unfold GoInt.uint64. apply (GoInt.uwrap_range 64). lia. Qed.

Lemma estimated_range tx : 0 ≤ TransactionEstimatedSerializedSize tx < 2 ^ 64.
Proof using Type. unfold TransactionEstimatedSerializedSize. destruct (IsCoinBase tx); [lia|]. apply uint64_range. Qed.

Lemma sizeLoop_spec txs : ∀ size, 0 ≤ size < 2 ^ 64 → bd_maxBlockSize v < 2 ^ 64 →
  checks (sizeLoop v size txs) (txs = [] ∨ size + sumZ (map TransactionEstimatedSerializedSize txs) ≤ bd_maxBlockSize v).
Proof using Type.
  induction txs as [|tx txs IH]; intros size Hs Hmax; cbn [sizeLoop]; [split; [done|split; [by left|done]]|].
  pose proof (estimated_range tx) as Ht. assert (0 ≤ sumZ (map TransactionEstimatedSerializedSize txs)) as Hnn.
  { apply sumZ_nonneg. intros x (y & -> & _)%list_elem_of_fmap. apply estimated_range. }
  set (t := TransactionEstimatedSerializedSize tx) in *. set (size' := GoInt.uint64 (size + t)).
  assert (sumZ (map TransactionEstimatedSerializedSize (tx :: txs)) = t + sumZ (map TransactionEstimatedSerializedSize txs)) as Hsum by done.
  destruct (decide (size + t < 2 ^ 64)) as [Hfit|Hover].
  - assert (size' = size + t) as -> by (apply GoInt.uint64_id; lia). rewrite (proj2 (Z.ltb_ge (size + t) size)) by lia. rewrite orb_false_r.
    destruct (Z.ltb_spec (bd_maxBlockSize v) (size + t)) as [Hgt|Hle].
    + split; [done|]. split; [done|]. intros [?|?]; [done|]. lia.
    + eapply checks_iff; [|apply IH; lia]. rewrite Hsum. split; [intros [-> | ?]; right; [unfold sumZ; simpl; lia|lia]|intros [?|?]; [done|right; lia]].
  - assert (size' = size + t - 2 ^ 64) as -> by (unfold size', GoInt.uint64, GoInt.uwrap; Z.div_mod_to_equations; lia).
    rewrite (proj2 (Z.ltb_lt _ size)) by lia. rewrite orb_true_r. split; [done|]. split; [done|]. intros [?|?]; [done|lia].
Qed.

Lemma orderLoop_spec block txs : ∀ i, 0 ≤ i → (∀ j, txs !! j = bk_Transactions block !! (Z.to_nat i + 1 + j)%nat) →
  checks (orderLoop block i txs) (∀ j a b, (Z.to_nat i ≤ j)%nat → (1 ≤ j)%nat → bk_Transactions block !! j = Some a → bk_Transactions block !! S j = Some b →
    subnetwork_Less (tx_SubnetworkID b) (tx_SubnetworkID a) = false).
Proof using Type.
  induction txs as [|tx txs IH]; intros i Hi Htxs; cbn [orderLoop].
  { split; [done|]. split; [|done]. intros _ j a b Hj _ _ Hb. specialize (Htxs (j - Z.to_nat i)%nat).
    replace (Z.to_nat i + 1 + (j - Z.to_nat i))%nat with (S j) in Htxs by lia. rewrite Hb in Htxs. done. }
  assert (bk_Transactions block !! S (Z.to_nat i) = Some tx) as Htx by (specialize (Htxs 0%nat); by replace (Z.to_nat i + 1 + 0)%nat with (S (Z.to_nat i)) in Htxs by lia).
  destruct (lookup_lt_is_Some_2 (bk_Transactions block) (Z.to_nat i)) as [before Hbefore]; [apply lookup_lt_Some in Htx; lia|].
  set (P := λ j, ∀ a b, (1 ≤ j)%nat → bk_Transactions block !! j = Some a → bk_Transactions block !! S j = Some b →
    subnetwork_Less (tx_SubnetworkID b) (tx_SubnetworkID a) = false).
  assert (∃ ns : bool, (if i =? 0 then Ret false else let? before := index (bk_Transactions block) i in
    Ret (subnetwork_Less (tx_SubnetworkID tx) (tx_SubnetworkID before)) : outcome bodyError bool) = Ret ns ∧ (ns = false ↔ P (Z.to_nat i))) as (ns & -> & Hns).
  { destruct (Z.eqb_spec i 0) as [->|Hne].
    - exists false. split; [done|]. split; [|done]. intros _ a b H1. simpl in H1. lia.
    - eexists. unfold index. rewrite decide_True by done. rewrite Hbefore. cbn [obind]. split; [done|]. unfold P. split.
      + intros Hf a b _ Ha Hb. rewrite Hbefore in Ha. rewrite Htx in Hb. by injection Ha as <-; injection Hb as <-.
      + intros Hp. apply (Hp before tx); [lia|done|done]. }
  cbn [obind]. destruct ns.
  - split; [done|]. split; [done|]. intros Hall. destruct Hns as [_ Hns]. by discriminate Hns; intros a b; apply Hall.
  - eapply checks_iff; [|apply (IH (i + 1)); [lia|]].
    + split; [|intros Hall j a b Hj; apply Hall; lia]. intros Hall j a b Hj. destruct (decide (j = Z.to_nat i)) as [->|Hne]; [by apply Hns|apply Hall; lia].
    + intros j. specialize (Htxs (S j)). by replace (Z.to_nat (i + 1) + 1 + j)%nat with (Z.to_nat i + 1 + S j)%nat by lia.
Qed.

Lemma isolationLoop_spec txs : Forall uint64_values txs → Forall (λ tx, 0 ≤ tx_Gas tx) txs →
  checks (isolationLoop v txs) (Forall (isolation_ok (bd_transactionValidator v)) txs).
Proof using Type.
  induction 1 as [|tx txs Hv Hvs IH]; intros Hg; cbn [isolationLoop]; [split; [done|split; [constructor|done]]|].
  apply Forall_cons in Hg as [Hg Hgs]. rewrite Forall_cons. destruct (isolation_spec (bd_transactionValidator v) tx Hv Hg) as [Hr Hi].
  destruct (ValidateTransactionInIsolation _ tx) as [[]|e|c]; cbn [with_error obind].
  - eapply checks_iff; [|by apply IH]. tauto.
  - split; [done|]. split; [done|]. intros [Htx _]. by apply Hi in Htx.
  - done.
Qed.

Lemma duplicateIDsLoop_spec txs : ∀ seen, checks (duplicateIDsLoop seen txs) (NoDup (map (λ tx, txid tx) txs) ∧ ∀ tx, tx ∈ txs → txid tx ∉ seen).
Proof using Type.
  induction txs as [|tx txs IH]; intros seen; cbn [duplicateIDsLoop map].
  { split; [done|]. split; [|done]. intros _. split; [constructor|by intros ? ?%elem_of_nil]. }
  case_bool_decide as Hi.
  - split; [done|]. split; [done|]. intros [_ Hn]. by destruct (Hn tx ltac:(by left)).
  - eapply checks_iff; [|apply IH]. rewrite NoDup_cons. split.
    + intros [Hnd Hn]. split_and!; [|done|].
      * intros (t & E & Ht)%list_elem_of_fmap. apply (Hn t Ht). rewrite <- E. set_solver.
      * intros t [->|Ht]%elem_of_cons; [done|]. specialize (Hn t Ht). set_solver.
    + intros [[Hni Hnd] Hn]. split; [done|]. intros t Ht. specialize (Hn t ltac:(by right)).
      intros [E%elem_of_singleton|?]%elem_of_union; [|done]. apply Hni. rewrite <- E. apply list_elem_of_fmap. by exists t.
Qed.

Lemma spendInputs_spec id inputs : ∀ used,
  match spendInputs id used inputs with
  | Ret used' => NoDup (map in_PreviousOutpoint inputs) ∧ (∀ o, o ∈ map in_PreviousOutpoint inputs → used !! o = None) ∧
      ∀ o, is_Some (used' !! o) ↔ is_Some (used !! o) ∨ o ∈ map in_PreviousOutpoint inputs
  | Fail _ => ¬ (NoDup (map in_PreviousOutpoint inputs) ∧ ∀ o, o ∈ map in_PreviousOutpoint inputs → used !! o = None)
  | Crash _ => False
  end.
Proof using Type.
  induction inputs as [|i inputs IH]; intros used; cbn [spendInputs map].
  { split_and!; [constructor|by intros ? ?%elem_of_nil|]. intros o. rewrite elem_of_nil. tauto. }
  case_bool_decide as Hi.
  - intros [_ Hn]. rewrite (Hn (in_PreviousOutpoint i)) in Hi by (by left). by destruct Hi.
  - specialize (IH (<[in_PreviousOutpoint i := id]> used)). destruct (spendInputs _ _ _) as [used'|e|c]; [| |done].
    + destruct IH as (Hnd & Hn & Hu). split_and!.
      * apply NoDup_cons. split; [|done]. intros Hin. specialize (Hn _ Hin). by rewrite lookup_insert_eq in Hn.
      * intros o [->|Ho]%elem_of_cons; [by apply eq_None_not_Some|]. specialize (Hn o Ho). by apply lookup_insert_None in Hn as [].
      * intros o. rewrite Hu, lookup_insert_is_Some', elem_of_cons. naive_solver.
    + intros [Hnd Hn]. apply NoDup_cons in Hnd as [Hni Hnd]. apply IH. split; [done|]. intros o Ho. rewrite lookup_insert_ne; [apply Hn; by right|].
      intros <-. done.
Qed.

Lemma doubleSpendsLoop_spec txs : ∀ used, checks (doubleSpendsLoop used txs) (NoDup (spent txs) ∧ ∀ o, o ∈ spent txs → used !! o = None).
Proof using Type.
  induction txs as [|tx txs IH]; intros used; cbn [doubleSpendsLoop map concat].
  { split; [done|]. split; [|done]. intros _. split; [constructor|by intros ? ?%elem_of_nil]. }
  pose proof (spendInputs_spec (txid tx) (tx_Inputs tx) used) as Hs. destruct (spendInputs _ _ _) as [used'|e|c]; cbn [obind]; [| |done].
  - destruct Hs as (Hnd & Hn & Hu). eapply checks_iff; [|apply IH]. rewrite NoDup_app. split.
    + intros [Hnd' Hn']. split_and!; [done| |done|].
      * intros o Ho Ho'. specialize (Hn' o Ho'). assert (is_Some (used' !! o)) as Hs by (apply Hu; by right). rewrite Hn' in Hs. by destruct Hs.
      * intros o [Ho|Ho]%elem_of_app; [by apply Hn|]. specialize (Hn' o Ho). apply eq_None_not_Some. intros Hs.
        assert (is_Some (used' !! o)) as Hs' by (apply Hu; by left). rewrite Hn' in Hs'. by destruct Hs'.
    + intros [(_ & Hdis & Hnd') Hn']. split; [done|]. intros o Ho. apply eq_None_not_Some. intros [Hs|Hs]%Hu; [|by apply (Hdis o)].
      rewrite (Hn' o) in Hs by (apply elem_of_app; by right). by destruct Hs.
  - split; [done|]. split; [done|]. rewrite NoDup_app. intros [(Hnd & _ & _) Hn]. exfalso. apply Hs. split; [done|]. intros o Ho. apply Hn. apply elem_of_app. by left.
Qed.

Lemma chained_spec block : checks (checkBlockHasNoChainedTransactions block)
  (∀ o tx, o ∈ spent (bk_Transactions block) → tx ∈ bk_Transactions block → op_TransactionID o ≠ txid tx).
Proof using Type.
  unfold checkBlockHasNoChainedTransactions. apply checks_if. rewrite <- not_true_iff_false, existsb_exists. split.
  - intros Hn o tx Ho Htx E. apply Hn. apply list_elem_of_In in Ho. apply in_concat in Ho as (l & Hl & Ho). apply in_map_iff in Hl as (t & <- & Ht).
    exists t. split; [done|]. apply existsb_exists. apply in_map_iff in Ho as (i & <- & Hi). exists i. split; [done|].
    apply bool_decide_eq_true. apply elem_of_list_to_set. rewrite E. apply list_elem_of_fmap. by exists tx.
  - intros Hall (t & Ht & He). apply existsb_exists in He as (i & Hi & Hs). apply bool_decide_eq_true, elem_of_list_to_set, list_elem_of_fmap in Hs as (tx & E & Htx).
    eapply Hall; [|exact Htx|exact E]. apply list_elem_of_In, in_concat. exists (map in_PreviousOutpoint (tx_Inputs t)).
    split; [apply in_map_iff; by exists t|]. apply in_map_iff. by exists i.
Qed.

Lemma prefilled_spec block : checks (checkNoPrefilledInputs block)
  (∀ tx i, tx ∈ bk_Transactions block → i ∈ tx_Inputs tx → in_UTXOEntry i = None).
Proof using Type.
  unfold checkNoPrefilledInputs. destruct (forallb _ _) eqn:E; (split; [done|]); rewrite ?forallb_forall in E.
  - split; [|done]. intros _ tx i Htx%list_elem_of_In Hi%list_elem_of_In. specialize (E tx Htx). rewrite forallb_forall in E. specialize (E i Hi). by apply bool_decide_eq_true in E.
  - split; [done|]. intros Hall. assert (forallb (λ tx, forallb (λ input, bool_decide (in_UTXOEntry input = None)) (tx_Inputs tx)) (bk_Transactions block) = true) as E'.
    { apply forallb_forall. intros tx Htx. apply forallb_forall. intros i Hi. apply bool_decide_eq_true. by eapply Hall; apply list_elem_of_In. }
    by rewrite E' in E.
Qed.

Lemma merkle_spec block : bk_Transactions block ≠ [] → checks (checkBlockHashMerkleRoot block)
  (Some (hd_hashMerkleRoot (bk_Header block)) = tree (height (zlen (bk_Transactions block))) (map TransactionHash (bk_Transactions block))).
Proof using Type.
  intros Hne. unfold checkBlockHashMerkleRoot, CalculateHashMerkleRoot. rewrite merkleRoot_spec by (by destruct (bk_Transactions block)).
  unfold zlen. rewrite length_map. cbn [obind]. apply checks_if. rewrite negb_false_iff. apply bool_decide_eq_true.
Qed.

Lemma tail_slice {E A} (x : A) l : @slice E A (x :: l) (CoinbaseTransactionIndex + 1) (zlen (x :: l)) = Ret l.
Proof using Type. rewrite <- (app_nil_r l) at 1. apply (slice_app [x] l []); [done|]. rewrite zlen_cons. unfold zlen. simpl. lia. Qed.

Lemma only_coinbase_spec coinbase txs h : checks (checkBlockContainsOnlyOneCoinbase {| bk_Header := h; bk_Transactions := coinbase :: txs |})
  (Forall (λ tx, IsCoinBase tx = false) txs).
Proof using Type.
  unfold checkBlockContainsOnlyOneCoinbase. cbn [bk_Transactions]. rewrite tail_slice. cbn [obind]. apply checks_if. rewrite Forall_forall. split.
  - intros E tx Htx%list_elem_of_In. apply not_true_iff_false. intros Hc. assert (existsb IsCoinBase txs = true) as E' by (apply existsb_exists; eauto). congruence.
  - intros Hall. apply not_true_iff_false. intros (tx & Htx%list_elem_of_In & Hc)%existsb_exists. by rewrite (Hall tx Htx) in Hc.
Qed.

Lemma coinbase_spec coinbase txs h : cb_coinbasePayloadScriptPublicKeyMaxLength (bd_coinbaseManager v) ≤ 244 → are_bytes (tx_Payload coinbase) →
  checks (checkCoinbase v {| bk_Header := h; bk_Transactions := coinbase :: txs |})
    (∃ d, Coinbase.ExtractCoinbaseDataAndBlueScore (bd_coinbaseManager v) coinbase = Ret d).
Proof using Type.
  intros Hmax Hb. unfold checkCoinbase. change (index (E := bodyError) _ CoinbaseTransactionIndex) with (Ret (E := bodyError) coinbase). cbn [obind].
  pose proof (extract_total (bd_coinbaseManager v) coinbase Hmax Hb) as Ht.
  destruct (Coinbase.ExtractCoinbaseDataAndBlueScore _ coinbase) as [[s d]|e|c]; cbn [with_error obind]; [| |done]; (split; [done|]); split; try done; [by eexists|by intros [? ?]].
Qed.

Lemma ValidateBodyInIsolation_spec blocks blockHash block : blocks !! blockHash = Some block → body_typed block →
  cb_coinbasePayloadScriptPublicKeyMaxLength (bd_coinbaseManager v) ≤ 244 → bd_maxBlockSize v < 2 ^ 64 →
  checks (ValidateBodyInIsolation v blocks blockHash) (body_ok block).
Proof using Type.
  intros Hb [Hne Hval Hgas Hpay] Hmax Hsize. unfold ValidateBodyInIsolation, Get. rewrite Hb. cbn [with_error obind].
  destruct block as [header [|coinbase txs]]; [done|]. set (block := {| bk_Header := header; bk_Transactions := coinbase :: txs |}).
  eapply checks_iff; cycle 1.
  { apply checks_bind; [apply prefilled_spec|intros _].
    apply checks_bind; [by apply merkle_spec|intros _].
    apply checks_bind; [unfold checkBlockSize; apply sizeLoop_spec; [apply uint64_range|done]|intros _].
    apply checks_bind; [apply (checks_if _ _ True); split; [done|intros _; by destruct txs]|intros _].
    apply checks_bind; [apply (checks_if (negb (IsCoinBase coinbase)) _ (IsCoinBase coinbase = true)), negb_false_iff|intros _].
    apply checks_bind; [apply only_coinbase_spec|intros _].
    apply checks_bind; [apply coinbase_spec; [done|by apply Forall_cons in Hpay as []]|intros _].
    apply checks_bind; [unfold checkBlockTransactionOrder, block; cbn [bk_Transactions]; rewrite tail_slice; cbn [obind]; by apply (orderLoop_spec block txs 0)|intros _].
    apply checks_bind; [by apply isolationLoop_spec|intros _].
    apply checks_bind; [apply duplicateIDsLoop_spec|intros _].
    apply checks_bind; [apply doubleSpendsLoop_spec|intros _].
    apply checks_bind; [apply chained_spec|intros _]. instantiate (1 := True). by split. }
  assert (GoInt.uint64 (0 + headerEstimatedSerializedSize header) = headerEstimatedSerializedSize header) as Hh.
  { apply GoInt.uint64_id. rewrite ?Z.add_0_l. apply uint64_range. }
  split.
  - intros (P1 & P2 & [?|P3] & _ & P5 & P6 & (d & P7) & P8 & P9 & [P10 _] & [P11 _] & P12 & _); [done|]. split; try done.
    + cbn [bk_Header block] in P3. by rewrite Hh in P3.
    + by exists coinbase, txs, d.
    + intros i a b Hi. apply P8; [simpl; lia|done].
  - intros [P1 P2 P3 (cb & txs' & d & [= <- <-] & P5 & P6 & P7) P8 P9 P10 P11 P12]. split_and!; try done.
    + right. cbn [bk_Header block] in *. by rewrite Hh.
    + by exists d.
    + intros j a b _. apply P8.
Qed.
End Spec.

Module BlockBodyProps.
(** C33: body validation in isolation decides [body_ok].  On a block with at least one
    transaction it never panics, and it accepts exactly when no input carries an
    entry, the header's merkle root is that of the transactions, the estimated sizes
    sum up to at most the limit (without wrap-around), the first transaction and no
    other is a coinbase, with a readable payload, the others are sorted by subnetwork,
    each transaction passes in isolation, no two have the same id, no outpoint is
    spent twice in the block and none of the block's own outputs is spent. *)
Theorem ValidateBodyInIsolation_correct `{Hashes} (v : bodyValidator) (blocks : gmap (list Z) DomainBlock) (blockHash : list Z) (block : DomainBlock) :
  blocks !! blockHash = Some block → body_typed block →
  cb_coinbasePayloadScriptPublicKeyMaxLength (bd_coinbaseManager v) ≤ 244 → bd_maxBlockSize v < 2 ^ 64 →
  (∀ c, ValidateBodyInIsolation v blocks blockHash ≠ Crash c) ∧ (ValidateBodyInIsolation v blocks blockHash = Ret () ↔ body_ok v block).
Proof. apply ValidateBodyInIsolation_spec. Qed.

(** A block without transactions panics before the check for transactions is reached. *)
Example empty_block_panics `{Hashes} (v : bodyValidator) (header : BlockHeader) (blockHash : list Z) :
  ValidateBodyInIsolation v {[ blockHash := {| bk_Header := header; bk_Transactions := [] |} ]} blockHash = Crash IndexOutOfRange.
Proof. unfold ValidateBodyInIsolation, Get. by rewrite lookup_singleton_eq. Qed.

Definition sample_body_validator : bodyValidator :=
  {| bd_maxBlockSize := 1000000; bd_coinbaseManager := CoinbasePayloadProps.sample_manager;
     bd_transactionValidator := TransactionProps.sample_validator;
     bd_pastMedianTimeManager := {| pm_timestampDeviationTolerance := 2; pm_genesisHash := [0] |} |}.
Definition sample_root : list Z := TransactionHash (H := toy_hashes) CoinbasePayloadProps.sample_tx.
Definition sample_body : DomainBlock :=
  {| bk_Header := {| hd_version := 0; hd_parentHashes := []; hd_hashMerkleRoot := sample_root; hd_acceptedIDMerkleRoot := []; hd_utxoCommitment := [];
                     hd_timeInMilliseconds := 0; hd_bits := 0; hd_nonce := 0 |};
     bk_Transactions := [CoinbasePayloadProps.sample_tx] |}.

Lemma ValidateBodyInIsolation_correct_witness :
  ValidateBodyInIsolation (H := toy_hashes) sample_body_validator {[ [0] := sample_body ]} [0] = Ret () ∧
  (∀ c, ValidateBodyInIsolation (H := toy_hashes) sample_body_validator {[ [0] := sample_body ]} [0] ≠ Crash c) ∧
  (ValidateBodyInIsolation (H := toy_hashes) sample_body_validator {[ [0] := sample_body ]} [0] = Ret () ↔ body_ok (H := toy_hashes) sample_body_validator sample_body).
Proof.
  split; [vm_compute; reflexivity|].
  apply (ValidateBodyInIsolation_correct (H := toy_hashes) sample_body_validator {[ [0] := sample_body ]} [0] sample_body).
  - reflexivity.
  - split; [done| | |]; apply Forall_singleton; [by intros o ?%elem_of_nil|vm_compute; discriminate|].
    apply (bool_decide_unpack (Forall (λ b, 0 ≤ b < 256) _)). vm_compute. exact I.
  - vm_compute. discriminate.
  - vm_compute. reflexivity.
Defined.
End BlockBodyProps.
