(* ===== verification/VerifyUtxo.v ===== *)
(** * UTXO verification of a block (consensusstatemanager/verify_and_build_utxo.go)

    The checks of a block against the UTXO set of its past: its commitments, its coinbase and its
    transactions.  The block's transactions are populated on the way, which nothing reads
    afterwards; what stays are the validator's signature caches. *)
From stdpp Require Import sorting.
From S2P Require Import Prelude Externalapi UtxoDiff ScriptNum ScriptStack OpcodeTable Script Hashing SigCache Opcode Engine.
From S2P Require Import OpcodeSafety EngineSafety SigSpec CacheTransparency.
From S2P Require Import Interval ReachabilityData Reachability ReachabilityTree ReachabilityAdd DagTopology Block Merkle Ghostdag GhostdagOrder GhostdagColour Window DifficultyManager Traversal HeaderValidation TransactionValidator TransactionSafety PastUtxo UtxoAcceptance PastUtxoSpec Coinbase.
Import TransactionHashing SigCache Opcode Ghostdag PastMedianTime Header Merkle HeaderValidation TransactionValidator PastUtxo.
Local Open Scope Z_scope.
Local Open Scope prog_scope.

Abbreviation hash := (list Z) (only parsing).

Inductive verifyError :=
  | ErrBadUTXOCommitment
  | ErrBadMerkleRoot
  | ErrBadCoinbaseTransaction
  | VerifyTx (e : txError)
  | VerifyCoinbase (e : coinbaseError).

(** [errors.As(err, &ruleerrors.RuleError{})] *)
Definition isRuleError (e : verifyError) : bool :=
  match e with
  | ErrBadUTXOCommitment | ErrBadMerkleRoot | ErrBadCoinbaseTransaction => true
  | VerifyTx (TxRule _) => true
  | VerifyTx _ => false
  | VerifyCoinbase (CoinbaseRule _) => true
  | VerifyCoinbase _ => false
  end.

Module VerifyUtxo.
Definition with_error {E A} (err : E → verifyError) (o : outcome E A) : outcome verifyError A :=
  match o with Ret a => Ret a | Fail e => Fail (err e) | Crash c => Crash c end.

Section Verify.
Context `{Libs} `{MuHash}.
Variable csm : consensusStateManager.
Variable cbm : coinbaseManager.
Variable stores : utxoStores.
Variable acceptanceDataStore : gmap hash (list BlockAcceptanceData).
Abbreviation cs := (us_consensus stores).

(** The order of [sort.Slice]: ids that are equal may come in any order, and are equal. *)
Definition idOrder (a b : DomainTransaction) : Prop := hash_Less (fst (TransactionID b)) (fst (TransactionID a)) = false.
#[export] Instance idOrder_dec a b : Decision (idOrder a b) := decide (_ = false).

Definition acceptedTransactions (multiblockAcceptanceData : list BlockAcceptanceData) : list DomainTransaction :=
  concat (map (λ blockAcceptanceData,
    map ta_Transaction (filter (λ transactionAcceptance, ta_IsAccepted transactionAcceptance = true)
                               (ba_TransactionAcceptanceData blockAcceptanceData))) multiblockAcceptanceData).
Definition calculateAcceptedIDMerkleRoot (multiblockAcceptanceData : list BlockAcceptanceData) : outcome verifyError (option DomainHash) :=
  CalculateIDMerkleRoot (merge_sort idOrder (acceptedTransactions multiblockAcceptanceData)).

Definition validateAcceptedIDMerkleRoot (block : DomainBlock) (acceptanceData : list BlockAcceptanceData) : outcome verifyError unit :=
  let? calculatedAcceptedIDMerkleRoot := calculateAcceptedIDMerkleRoot acceptanceData in
  if negb (bool_decide (Some (hd_acceptedIDMerkleRoot (bk_Header block)) = calculatedAcceptedIDMerkleRoot)) then Fail ErrBadMerkleRoot
  else Ret ().

Definition validateUTXOCommitment (block : DomainBlock) (multiset : muhash) : outcome verifyError unit :=
  let multisetHash := ms_Hash multiset in
  if negb (bool_decide (hd_utxoCommitment (bk_Header block) = multisetHash)) then Fail ErrBadUTXOCommitment else Ret ().

Definition validateCoinbaseTransaction (blockHash : hash) (coinbaseTransaction : DomainTransaction) : outcome verifyError unit :=
  let? '(_, coinbaseData) := with_error VerifyCoinbase (Coinbase.ExtractCoinbaseDataAndBlueScore cbm coinbaseTransaction) in
  let? expectedCoinbaseTransaction :=
    with_error VerifyCoinbase (Coinbase.ExpectedCoinbaseTransaction cbm cs acceptanceDataStore blockHash coinbaseData) in
  let coinbaseTransactionHash := TransactionHash coinbaseTransaction in
  let expectedCoinbaseTransactionHash := TransactionHash expectedCoinbaseTransaction in
  if negb (bool_decide (coinbaseTransactionHash = expectedCoinbaseTransactionHash)) then Fail ErrBadCoinbaseTransaction else Ret ().

(** ** Transactions against the past UTXO *)
Record validatorCaches := {
  vc_sigCache : option (SigCache SchnorrSignature SchnorrPublicKey);
  vc_sigCacheECDSA : option (SigCache ECDSASignature ECDSAPublicKey)
}.
Abbreviation verifying A := (prog validatorCaches verifyError A) (only parsing).

Definition validateTransaction (blockHash : hash) (medianTime : Z) (transaction : DomainTransaction) : verifying unit :=
  λ s, let '(t, o) := ValidateTransactionInContextAndPopulateMassAndFee (csm_transactionValidator csm) cs blockHash medianTime
                        {| ts_tx := transaction; ts_sigCache := vc_sigCache s; ts_sigCacheECDSA := vc_sigCacheECDSA s |} in
       ({| vc_sigCache := ts_sigCache t; vc_sigCacheECDSA := ts_sigCacheECDSA t |}, with_error VerifyTx o).

(** [for i, transaction := range block.Transactions] *)
Fixpoint transactionsLoop (i : Z) (transactions : list DomainTransaction) (blockHash : hash) (medianTime : Z) (pastUTXODiff : diff) : verifying unit :=
  match transactions with
  | [] => ret ()
  | transaction :: rest =>
      (if i =? 0 then ret ()
       else
         let transaction := snd (TransactionID transaction) in
         let '(transaction, populated) :=
           populateTransactionWithUTXOEntriesFromVirtualOrDiff (us_virtualUTXO stores) transaction (Some pastUTXODiff) in
         lift_outcome (with_error VerifyTx populated) ;;*
         validateTransaction blockHash medianTime transaction) ;;*
      transactionsLoop (i + 1) rest blockHash medianTime pastUTXODiff
  end.

Definition validateBlockTransactionsAgainstPastUTXO (block : DomainBlock) (pastUTXODiff : diff) : verifying unit :=
  let blockHash := BlockHash block in
  let* selectedParentMedianTime := lift_outcome (with_error VerifyTx (fromMedian (PastMedianTime
    (tv_pastMedianTimeManager (csm_transactionValidator csm)) (ghostdag_of cs) (cs_headers cs) blockHash))) in
  transactionsLoop 0 (bk_Transactions block) blockHash selectedParentMedianTime pastUTXODiff.

Definition verifyUTXO (block : DomainBlock) (blockHash : hash) (pastUTXODiff : diff) (acceptanceData : list BlockAcceptanceData)
    (multiset : muhash) : verifying unit :=
  lift_outcome (validateUTXOCommitment block multiset) ;;*
  lift_outcome (validateAcceptedIDMerkleRoot block acceptanceData) ;;*
  let* coinbaseTransaction := lift_outcome (index (bk_Transactions block) 0) in
  lift_outcome (validateCoinbaseTransaction blockHash coinbaseTransaction) ;;*
  validateBlockTransactionsAgainstPastUTXO block pastUTXODiff.
End Verify.
End VerifyUtxo.
Import VerifyUtxo.
