(* ===== verification/Supply.v ===== *)
(** * Rewards and the money supply

    What the expected coinbase of a block pays, what UTXO verification of a block
    establishes, and the composition with acceptance: along the selected chain value is only created by
    the subsidies of merged blocks. *)
From S2P Require Import Prelude Externalapi UtxoDiff ScriptNum ScriptStack OpcodeTable Script Hashing SigCache Opcode Engine.
From S2P Require Import OpcodeSafety EngineSafety SigSpec CacheTransparency.
From S2P Require Import Interval ReachabilityData Reachability ReachabilityTree ReachabilityAdd DagTopology Block Merkle Ghostdag GhostdagOrder GhostdagColour Window DifficultyManager Traversal HeaderValidation TransactionValidator TransactionSafety PastUtxo UtxoAcceptance PastUtxoSpec Coinbase VerifyUtxo.
Import TransactionHashing SigCache Opcode Ghostdag PastMedianTime Header Merkle HeaderValidation TransactionValidator PastUtxo VerifyUtxo.
Local Open Scope Z_scope.
Local Open Scope prog_scope.

Abbreviation hash := (list Z) (only parsing).

(** ** Rewards *)
Section Rewards.
Variables (c : coinbaseManager) (cs : consensus) (store : gmap hash (list BlockAcceptanceData)).

Definition subsidyOf (h : hash) : Z :=
  if decide (cb_subsidyReductionInterval c = 0) then cb_baseSubsidy c
  else Z.shiftr (cb_baseSubsidy c) (daaOf cs h / cb_subsidyReductionInterval c).

(** What the block [h] with acceptance data [d] earns its miner in a block that counts the blocks [added]. *)
Definition reward (added : gset hash) (h : hash) (d : BlockAcceptanceData) : Z :=
  if decide (h ∈ added) then subsidyOf h + fees (ba_TransactionAcceptanceData d) else 0.

Definition rewards (added : gset hash) (hs : list hash) (ads : list BlockAcceptanceData) : Z := sumZ (zip_with (reward added) hs ads).

(** The data of a merged block: its own, with fees, and with a first transaction whose payload can be read. *)
Record merged_ok (h : hash) (d : BlockAcceptanceData) : Prop := {
  mo_hash : ba_BlockHash d = h;
  mo_score : is_Some (daa_scores (cs_daa cs) !! h);
  mo_fees t : t ∈ ba_TransactionAcceptanceData d → ta_IsAccepted t = true → 0 ≤ ta_Fee t;
  mo_coinbase : ∃ t ts s x, ba_TransactionAcceptanceData d = t :: ts ∧ Coinbase.ExtractCoinbaseDataAndBlueScore c (ta_Transaction t) = Ret (s, x) ∧
    spk_wf (cd_ScriptPublicKey x)
}.

Lemma fees_nonneg ads : (∀ t, t ∈ ads → ta_IsAccepted t = true → 0 ≤ ta_Fee t) → 0 ≤ fees ads.
Proof.
  intros Hf. apply sumZ_nonneg. intros x (t & -> & Ht)%list_elem_of_fmap. specialize (Hf t Ht). destruct (ta_IsAccepted t); [by apply Hf|done].
Qed.

Lemma totalFeesOf_spec ads : (∀ t, t ∈ ads → ta_IsAccepted t = true → 0 ≤ ta_Fee t) → fees ads < 2 ^ 64 → Coinbase.totalFeesOf ads = fees ads.
Proof.
  intros Hf Hb. unfold Coinbase.totalFeesOf. cut (∀ acc, 0 ≤ acc → acc + fees ads < 2 ^ 64 →
    fold_left (λ totalFees d, if ta_IsAccepted d then GoInt.uint64 (totalFees + ta_Fee d) else totalFees) ads acc = acc + fees ads).
  { intros Hc. rewrite Hc; lia. }
  clear Hb. induction ads as [|t ads IH]; intros acc Ha Hb; [unfold fees, sumZ; simpl; lia|].
  assert (ta_IsAccepted t = true → 0 ≤ ta_Fee t) as Hft by (apply Hf; by left). assert (0 ≤ fees ads) by (apply fees_nonneg; intros; apply Hf; [by right|done]).
  assert (fees (t :: ads) = (if ta_IsAccepted t then ta_Fee t else 0) + fees ads) as Hc by done. rewrite Hc in *. cbn [fold_left].
  destruct (ta_IsAccepted t); [specialize (Hft eq_refl)|].
  - rewrite GoInt.uint64_id by lia. rewrite IH by (first [intros; apply Hf; [by right|done]|lia]). lia.
  - rewrite IH by (first [intros; apply Hf; [by right|done]|lia]). lia.
Qed.

Hypothesis Hbase : 0 ≤ cb_baseSubsidy c.

Lemma subsidy_nonneg h : 0 ≤ subsidyOf h.
Proof using Hbase. unfold subsidyOf. case_decide; [done|]. by apply Z.shiftr_nonneg. Qed.

Lemma reward_nonneg added h d : merged_ok h d → 0 ≤ reward added h d.
Proof using Hbase.
  intros [_ _ Hf _]. unfold reward. case_decide; [|lia]. pose proof (subsidy_nonneg h). pose proof (fees_nonneg _ Hf). lia.
Qed.

Lemma calcMergedBlockReward_spec added h d : merged_ok h d → reward added h d < 2 ^ 64 →
  Coinbase.calcMergedBlockReward c cs h d added = Ret (reward added h d).
Proof using Hbase.
  intros [Hh [s Hs] Hf _] Hb. unfold Coinbase.calcMergedBlockReward. rewrite Hh, bool_decide_eq_true_2 by done. cbn [negb].
  unfold reward in *. case_decide as Hin; [rewrite bool_decide_eq_true_2 by done|by rewrite bool_decide_eq_false_2 by done]. cbn [negb].
  pose proof (subsidy_nonneg h). pose proof (fees_nonneg _ Hf). rewrite totalFeesOf_spec by (done || lia).
  assert (Coinbase.calcBlockSubsidy c cs h = Ret (subsidyOf h)) as ->.
  { unfold Coinbase.calcBlockSubsidy, subsidyOf. case_decide as E; [by rewrite E|]. rewrite (proj2 (Z.eqb_neq _ _)) by done.
    unfold Get, daaOf. rewrite Hs. done. }
  cbn [obind]. by rewrite GoInt.uint64_id by lia.
Qed.

Lemma rewards_nonneg added hs ads : Forall2 merged_ok hs ads → 0 ≤ rewards added hs ads.
Proof using Hbase.
  unfold rewards. induction 1 as [|h d hs ads Hm Hms IH]; [done|]. cbn [zip_with]. unfold sumZ in *. simpl. pose proof (reward_nonneg added h d Hm). lia.
Qed.

Lemma rewards_cons added h hs d ads : rewards added (h :: hs) (d :: ads) = reward added h d + rewards added hs ads.
Proof. done. Qed.
Lemma rewards_app added hs1 hs2 ads1 ads2 : length hs1 = length ads1 → rewards added (hs1 ++ hs2) (ads1 ++ ads2) = rewards added hs1 ads1 + rewards added hs2 ads2.
Proof. intros. unfold rewards. by rewrite zip_with_app, sumZ_app. Qed.

Lemma blueOutputs_spec added hs ads : Forall2 merged_ok hs ads → ∀ pre post, rewards added hs ads < 2 ^ 64 →
  ∃ outs, Coinbase.blueOutputs c cs hs (zlen pre) (pre ++ ads ++ post) added = Ret outs ∧ sumZ (map out_Value outs) = rewards added hs ads ∧
    Forall output_wf outs ∧ zlen outs ≤ zlen hs.
Proof using Hbase.
  induction 1 as [|h d hs ads Hm Hms IH]; intros pre post Hb; cbn [Coinbase.blueOutputs]; [by exists []; split_and!|].
  rewrite rewards_cons in *. pose proof (reward_nonneg added h d Hm). pose proof (rewards_nonneg added hs ads Hms).
  simpl. rewrite index_middle by done. cbn [obind]. unfold Coinbase.coinbaseOutputForBlueBlock.
  rewrite calcMergedBlockReward_spec by (done || lia). cbn [obind].
  assert (zlen pre + 1 = zlen (pre ++ [d])) as Hl by (rewrite zlen_app; unfold zlen; simpl; lia).
  assert (pre ++ d :: ads ++ post = (pre ++ [d]) ++ ads ++ post) as Ha by (by rewrite <- app_assoc).
  destruct (IH (pre ++ [d]) post) as (outs & Hrun & Hsum & Hwf & Hlen); [lia|]. rewrite <- Hl, <- Ha in Hrun.
  destruct (Z.eqb_spec (reward added h d) 0) as [E|Hne].
  - cbn [obind]. rewrite Hrun. cbn [obind]. exists outs. rewrite zlen_cons. split_and!; [done|lia|done|lia].
  - destruct (mo_coinbase h d Hm) as (t & ts & s & x & Hd & Hx & Hspk). rewrite Hd. rewrite (index_middle [] ts t 0) by done. cbn [obind]. rewrite Hx. cbn [obind].
    rewrite Hrun. cbn [obind]. eexists. split; [done|]. simpl. split; [unfold sumZ in *; simpl; lia|].
    split; [constructor; [split; [simpl; lia|done]|done]|]. rewrite !zlen_cons. lia.
Qed.

Lemma redRewards_spec added hs ads : Forall2 merged_ok hs ads → ∀ pre total, 0 ≤ total → total + rewards added hs ads < 2 ^ 64 →
  Coinbase.redRewards c cs hs (zlen pre) (pre ++ ads) added total = Ret (total + rewards added hs ads).
Proof using Hbase.
  induction 1 as [|h d hs ads Hm Hms IH]; intros pre total Ht Hb; cbn [Coinbase.redRewards]; [f_equal; unfold rewards, sumZ; simpl; lia|].
  rewrite rewards_cons in *. pose proof (reward_nonneg added h d Hm). pose proof (rewards_nonneg added hs ads Hms).
  rewrite index_middle by done. cbn [obind]. rewrite calcMergedBlockReward_spec by (done || lia). cbn [obind]. rewrite GoInt.uint64_id by lia.
  assert (zlen pre + 1 = zlen (pre ++ [d])) as -> by (rewrite zlen_app; unfold zlen; simpl; lia).
  assert (pre ++ d :: ads = (pre ++ [d]) ++ ads) as -> by (by rewrite <- app_assoc). rewrite IH by lia. f_equal. lia.
Qed.

(** ** The expected coinbase *)
Record merge_data_ok (blockHash : hash) (g : BlockGHOSTDAGData) (added : list hash) (ads : list BlockAcceptanceData) : Prop := {
  md_ghostdag : ghostdag_of cs !! blockHash = Some g;
  md_data : store !! blockHash = Some ads;
  md_added : daa_addedBlocks (cs_daa cs) !! blockHash = Some added;
  md_merged : Forall2 merged_ok (mergeSetBlues g ++ mergeSetReds g) ads;
  md_bound : rewards (list_to_set added) (mergeSetBlues g ++ mergeSetReds g) ads < 2 ^ 64;
  md_small : zlen (mergeSetBlues g ++ mergeSetReds g) < 2 ^ 32
}.

Lemma ExpectedCoinbaseTransaction_spec blockHash g added ads d : merge_data_ok blockHash g added ads →
  zlen (spk_Script (cd_ScriptPublicKey d)) ≤ cb_coinbasePayloadScriptPublicKeyMaxLength c → spk_wf (cd_ScriptPublicKey d) → zlen (cd_ExtraData d) < 2 ^ 63 →
  cb_coinbasePayloadScriptPublicKeyMaxLength c < 256 →
  ∃ tx, Coinbase.ExpectedCoinbaseTransaction c cs store blockHash d = Ret tx ∧ IsCoinBase tx = true ∧ tx_Inputs tx = [] ∧
    total_out tx = rewards (list_to_set added) (mergeSetBlues g ++ mergeSetReds g) ads ∧ tx_wf tx.
Proof using Hbase.
  intros [Hg Hads Hadded Hm Hb Hsmall] Hscript Hspk Hextra Hmax. unfold Coinbase.ExpectedCoinbaseTransaction, Get. rewrite Hg, Hads. cbn [Coinbase.fromStore obind].
  unfold Coinbase.daaAddedBlocksSet, Coinbase.DAAAddedBlocks, Get. rewrite Hadded. cbn [Coinbase.fromStore obind]. set (A := list_to_set added) in *.
  apply Forall2_app_inv_l in Hm as (adsB & adsR & HB & HR & ->). rewrite rewards_app in * by (by eapply Forall2_length).
  pose proof (rewards_nonneg A _ _ HB). pose proof (rewards_nonneg A _ _ HR).
  destruct (blueOutputs_spec A _ _ HB [] adsR) as (outs & Hrun & Hsum & Hwf & Hlen); [lia|]. change (zlen (@nil BlockAcceptanceData)) with 0 in Hrun. simpl in Hrun. rewrite Hrun. cbn [obind].
  unfold Coinbase.coinbaseOutputForRewardFromRedBlocks. cbv zeta.
  assert (zlen (mergeSetBlues g) = zlen adsB) as HlB by (unfold zlen; f_equal; by eapply Forall2_length). rewrite HlB.
  rewrite redRewards_spec by (done || lia). rewrite Z.add_0_l. cbn [obind]. set (r := rewards A (mergeSetReds g) adsR) in *.
  assert (∃ p, Coinbase.serializeCoinbasePayload c (blueScore g) d = Ret p ∧ zlen p < 2 ^ 64) as (p & Hp & Hpl).
  { unfold Coinbase.serializeCoinbasePayload. cbv zeta. rewrite (proj2 (Z.ltb_ge _ _)) by done. eexists. split; [done|].
    rewrite !zlen_app. unfold zlen at 1 2 3. rewrite LE.put_length. simpl. lia. }
  set (out := if r =? 0 then None else Some {| out_Value := r; out_ScriptPublicKey := cd_ScriptPublicKey d |}).
  assert ((if r =? 0 then Ret None else Ret (Some {| out_Value := r; out_ScriptPublicKey := cd_ScriptPublicKey d |})) = Ret (E := coinbaseError) out) as -> by (unfold out; by destruct (r =? 0)).
  cbn [obind]. rewrite Hp. cbn [obind]. eexists. split; [done|]. split; [done|]. split; [done|].
  assert (sumZ (map out_Value (option_list out)) = r ∧ Forall output_wf (option_list out) ∧ zlen (option_list out) ≤ 1) as (Hr & Hrwf & Hrl).
  { unfold out. destruct (Z.eqb_spec r 0) as [E|Hne]; [by rewrite E|]. simpl. split; [unfold sumZ; simpl; lia|]. split; [|done]. apply Forall_singleton. split; [simpl; lia|done]. }
  split; [unfold total_out; cbn [tx_Outputs]; rewrite map_app, sumZ_app; lia|]. unfold tx_wf. cbn [tx_Version tx_Inputs tx_Outputs tx_LockTime tx_SubnetworkID tx_Gas tx_Payload].
  rewrite zlen_app in Hsmall. pose proof (zlen_nonneg (mergeSetReds g)). unfold MaxTransactionVersion.
  split_and!; try done; try lia; [rewrite zlen_app; lia|by apply Forall_app].
Qed.
End Rewards.

(** ** Transaction hashes bind the outputs *)
Section Hash.
Context `{HashesOk}.

Definition tx_hash_broken : Prop :=
  ∃ x y, x ≠ y ∧ blake2b_New256 (bytes_of_string HashWriters.transcationHashDomain) x = blake2b_New256 (bytes_of_string HashWriters.transcationHashDomain) y.

Lemma TransactionHash_binds a b : tx_wf a → tx_wf b → TransactionHash a = TransactionHash b →
  hashed_view txEncodingFull a = hashed_view txEncodingFull b ∨ tx_hash_broken.
Proof using Type*.
  intros Ha Hb Hh. unfold TransactionHash in Hh. rewrite !Finalize_digest in Hh by apply blake2b_New256_ok.
  destruct (decide (serializeTransaction [] a txEncodingFull = serializeTransaction [] b txEncodingFull)) as [E|E]; [left|right; by eexists _, _].
  rewrite <- (app_nil_r (serializeTransaction [] a _)), <- (app_nil_r (serializeTransaction [] b _)) in E. by apply (unambiguous_tx txEncodingFull a b [] [] Ha Hb) in E as [? _].
Qed.
End Hash.

(** Success or a rule error. *)
Definition verify_rules {A} (o : outcome verifyError A) : Prop :=
  match o with Ret _ => True | Fail e => isRuleError e = true | Crash _ => False end.

(** ** The coinbase of a verified block *)
Section Coinbase.
Context `{Libs} `{!LibsOk} `{MuHash}.
Variables (cbm : coinbaseManager) (stores : utxoStores) (store : gmap hash (list BlockAcceptanceData)) (pov : hash).
Abbreviation cs := (us_consensus stores).
Hypothesis Hbase : 0 ≤ cb_baseSubsidy cbm.
Hypothesis Hmax : cb_coinbasePayloadScriptPublicKeyMaxLength cbm ≤ 244.
Variables (g : BlockGHOSTDAGData) (added : list hash) (ads : list BlockAcceptanceData).
Hypothesis Hdata : merge_data_ok cbm cs store pov g added ads.

Abbreviation earned := (rewards cbm cs (list_to_set added) (mergeSetBlues g ++ mergeSetReds g) ads).

Lemma validateCoinbaseTransaction_spec coinbase : tx_wf coinbase → are_bytes (tx_Payload coinbase) → zlen (tx_Payload coinbase) < 2 ^ 63 →
  let o := validateCoinbaseTransaction cbm stores store pov coinbase in
  verify_rules o ∧ (o = Ret () → total_out coinbase = earned ∧ tx_Inputs coinbase = [] ∨ tx_hash_broken).
Proof using All.
  intros Hwf Hb Hlen. cbv zeta. unfold validateCoinbaseTransaction.
  destruct (extract_cases cbm coinbase Hmax Hb) as [->|(score & version & zero & script & extra & Hp & H8 & _ & Hv & Hl & ->)]; [done|]. cbn [VerifyUtxo.with_error obind].
  set (d := {| cd_ScriptPublicKey := _; cd_ExtraData := _ |}). unfold is_byte in Hv.
  assert (zlen (tx_Payload coinbase) = 11 + zlen script + zlen extra) as Hpl by (rewrite Hp; unfold payload_of; rewrite zlen_app, !zlen_cons, zlen_app; lia).
  pose proof (zlen_nonneg script). destruct (ExpectedCoinbaseTransaction_spec cbm cs store Hbase pov g added ads d Hdata) as (tx & -> & Hcb & Hin & Htotal & Htwf);
    [done|split; simpl; lia|simpl; lia|lia|]. cbn [VerifyUtxo.with_error obind].
  case_bool_decide as Hh; [|done]. cbn [negb]. split; [done|]. intros _.
  destruct (TransactionHash_binds coinbase tx Hwf Htwf Hh) as [Hview|]; [left|by right]. injection Hview as _ Ei Eo _ _ _ _.
  split; [unfold total_out; by rewrite Eo|]. rewrite Hin in Ei. by apply map_eq_nil in Ei.
Qed.
End Coinbase.

(** ** What verification establishes *)
Section Verify.
Context `{Libs} `{!LibsOk} `{MuHash}.
Variables (csm : consensusStateManager) (cbm : coinbaseManager) (stores : utxoStores) (store : gmap hash (list BlockAcceptanceData)).
Variables (dag_parents : list Z → list (list Z)) (k : Z) (block : DomainBlock).
Abbreviation B := (us_virtualUTXO stores).
Abbreviation v := (csm_transactionValidator csm).
Abbreviation cs := (us_consensus stores).
Abbreviation pov := (BlockHash block).

(** The transaction, with the entries of [U], may spend its inputs. *)
Definition spends_validly (m : Z) (U : utxoCollection) (tx : DomainTransaction) : Prop :=
  ∃ tx', same_tx tx tx' ∧ spendable U (tx_Inputs tx') ∧ spends_ok v cs pov m tx' ∧ scripts_ok (set_Fee (total_in tx' - total_out tx') tx').

Definition vcaches_ok (s : validatorCaches) : Prop :=
  (∀ c, vc_sigCache s = Some c → cache_ok c) ∧ (∀ c, vc_sigCacheECDSA s = Some c → cache_ok c).

Hypothesis Hcontext : context_ok v cs dag_parents k.
Hypothesis Hpov : pov ∈ dom (ghostdag_of cs).

(** [r] ends with nil or a rule error, keeps the caches valid, and success means [P]. *)
Definition verifies (P : Prop) (r : validatorCaches * outcome verifyError unit) : Prop :=
  vcaches_ok (fst r) ∧ verify_rules (snd r) ∧ (snd r = Ret () → P).

#[local] Instance verifies_proper : Proper (iff ==> eq ==> iff) verifies.
Proof using Type. intros P Q HPQ r ? <-. unfold verifies. by rewrite HPQ. Qed.

Lemma verifies_bind P Q (o : prog validatorCaches verifyError unit) k' s :
  verifies P (o s) → (∀ s', vcaches_ok s' → verifies Q (k' () s')) → verifies (P ∧ Q) (bind o k' s).
Proof using Type.
  intros (Hs & Hc & HP) Hk. unfold bind. destruct (o s) as [s' [[]|e|c]]; cbn [fst snd] in *.
  - destruct (Hk s' Hs) as (? & ? & ?). split_and!; auto.
  - by split_and!.
  - done.
Qed.

Lemma transactionsLoop_spec m d U txs : 0 ≤ m → applicable B d → apply_diff B d = U → utxo_typed U → ∀ i s, 0 ≤ i →
  Forall (block_tx csm stores pov) txs → (i = 0 → match txs with [] => True | _ :: txs => Forall (λ tx, IsCoinBase tx = false) txs end) →
  (i ≠ 0 → Forall (λ tx, IsCoinBase tx = false) txs) → vcaches_ok s →
  verifies (Forall (spends_validly m U) (if i =? 0 then tail txs else txs)) (transactionsLoop csm stores i txs pov m d s).
Proof using All.
  intros Hm Ha HU Ht. induction txs as [|tx txs IH]; intros i s Hi Hb Hz Hnz Hs; cbn [transactionsLoop].
  { split_and!; [done|done|]. intros _. by destruct (i =? 0); constructor. }
  apply Forall_cons in Hb as [Hbt Hb].
  assert (∀ s', vcaches_ok s' → Forall (λ tx, IsCoinBase tx = false) txs → verifies (Forall (spends_validly m U) txs) (transactionsLoop csm stores (i + 1) txs pov m d s')) as Hrest.
  { intros s' Hs' Hcb. specialize (IH (i + 1) s' ltac:(lia) Hb). rewrite (proj2 (Z.eqb_neq (i + 1) 0)) in IH by lia. apply IH; [lia|done|done]. }
  destruct (Z.eqb_spec i 0) as [E|Hne].
  - simpl. rewrite (bind_ret_l _ _ s s ()) by done. apply Hrest; [done|by apply Hz].
  - specialize (Hnz Hne). apply Forall_cons in Hnz as [Hcb Hcbs]. rewrite Forall_cons. apply verifies_bind; [|intros; by apply Hrest].
    destruct (populateTransactionWithUTXOEntriesFromVirtualOrDiff B (snd (TransactionID tx)) (Some d)) as [tx1 o] eqn:Hpop.
    set (a := {| ac_diff := d; ac_sigCache := vc_sigCache s; ac_sigCacheECDSA := vc_sigCacheECDSA s |}).
    destruct (populated_tx csm stores pov a tx tx1 o Hbt Ha) as (Hsame & _ & _ & _ & Htx1 & Hrules & Hsp); [by rewrite <- HU in Ht|done|].
    destruct o as [[]|[]|c]; try done. simpl. rewrite (bind_ret_l _ _ s s ()) by done. unfold validateTransaction.
    pose proof (in_context_spec v cs dag_parents k Hcontext pov m tx1 (vc_sigCache s) (vc_sigCacheECDSA s) Hpov Hm Htx1) as Hd.
    rewrite (same_tx_coinbase _ _ Hsame) in Hd. assert (total_out tx1 ≤ MaxSompi) as Htotal.
    { unfold total_out. destruct Hsame as (_ & _ & -> & _). apply (is_values _ _ (bt_isolation _ _ _ _ Hbt)). }
    specialize (Hd Hcb Htotal (proj1 Hs) (proj2 Hs)). destruct (ValidateTransactionInContextAndPopulateMassAndFee _ _ _ _ _) as [t o].
    destruct Hd as (Hro & [Hcaches _] & Hiff & _). cbn [fst snd] in *. split_and!; [done| |].
    + cbn [snd]. by destruct o as [|[]|].
    + cbn [snd]. intros Ho. destruct o as [[]|e|c]; try done. destruct (proj1 Hiff eq_refl) as [? ?]. exists tx1. split_and!; try done.
      specialize (Hsp eq_refl). cbn [ac_diff a] in Hsp. by rewrite <- HU.
Qed.

Hypothesis Hbase : 0 ≤ cb_baseSubsidy cbm.
Hypothesis Hmax : cb_coinbasePayloadScriptPublicKeyMaxLength cbm ≤ 244.
Variables (g : BlockGHOSTDAGData) (added : list hash) (ads : list BlockAcceptanceData).
Hypothesis Hdata : merge_data_ok cbm cs store pov g added ads.

Abbreviation earned := (rewards cbm cs (list_to_set added) (mergeSetBlues g ++ mergeSetReds g) ads).

Lemma acceptedRoot_spec (l : list BlockAcceptanceData) : ∃ r, calculateAcceptedIDMerkleRoot l = Ret r.
Proof using Type.
  unfold calculateAcceptedIDMerkleRoot, CalculateIDMerkleRoot. destruct (sorting.merge_sort idOrder _) as [|t ts]; [by eexists|].
  rewrite (proj2 (Z.eqb_neq (zlen (t :: ts)) 0)) by (rewrite zlen_cons; pose proof (zlen_nonneg ts); lia). rewrite merkleRoot_spec by done. by eexists.
Qed.

(** *** The block *)
Lemma verifyUTXO_spec d U ms coinbase txs s : bk_Transactions block = coinbase :: txs → Forall (λ tx, IsCoinBase tx = false) txs →
  Forall (block_tx csm stores pov) (coinbase :: txs) → tx_wf coinbase → are_bytes (tx_Payload coinbase) → zlen (tx_Payload coinbase) < 2 ^ 63 →
  applicable B d → apply_diff B d = U → utxo_typed U → vcaches_ok s →
  ∃ m, PastMedianTime (tv_pastMedianTimeManager v) (ghostdag_of cs) (cs_headers cs) pov = Ret m ∧
  verifies (hd_utxoCommitment (bk_Header block) = ms_Hash ms ∧ calculateAcceptedIDMerkleRoot ads = Ret (Some (hd_acceptedIDMerkleRoot (bk_Header block))) ∧
            (total_out coinbase = earned ∧ tx_Inputs coinbase = [] ∨ tx_hash_broken) ∧ Forall (spends_validly m U) txs)
    (verifyUTXO csm cbm stores store block pov d ads ms s).
Proof using All.
  intros Htxs Hcbs Hb Hwf Hbytes Hlen Ha HU Ht Hs. destruct (times_known v cs dag_parents k Hcontext pov Hpov) as (m & Hmed & Hrange). exists m. split; [done|].
  assert (∀ (o : outcome verifyError unit) (P : Prop), verify_rules o → (o = Ret () → P) → ∀ s, vcaches_ok s → verifies P (lift_outcome o s)) as Hlift.
  { intros o P Hc HP s' Hs'. by split_and!. }
  unfold verifyUTXO. apply verifies_bind.
  { apply Hlift; [| |done]; unfold validateUTXOCommitment; cbv zeta; case_bool_decide; done. }
  intros s1 Hs1. apply verifies_bind.
  { destruct (acceptedRoot_spec ads) as [r Hr]. apply Hlift; [| |done]; unfold validateAcceptedIDMerkleRoot; rewrite Hr; cbn [obind]; case_bool_decide as E; try done.
    intros _. by rewrite E. }
  intros s2 Hs2. rewrite (bind_ret_l _ _ s2 s2 coinbase) by (unfold lift_outcome; by rewrite Htxs). apply verifies_bind.
  { destruct (validateCoinbaseTransaction_spec cbm stores store pov Hbase Hmax g added ads Hdata coinbase Hwf Hbytes Hlen). by apply Hlift. }
  intros s3 Hs3. unfold validateBlockTransactionsAgainstPastUTXO. cbv zeta. rewrite (bind_ret_l _ _ s3 s3 m) by (unfold lift_outcome; by rewrite Hmed).
  rewrite Htxs. apply (transactionsLoop_spec m d U (coinbase :: txs)); done || lia.
Qed.
End Verify.

(** ** What a merge set mints *)
Section Minted.
Context `{Libs} `{!LibsOk} `{MuHash}.
Variables (csm : consensusStateManager) (stores : utxoStores) (pov : hash).
Abbreviation all_data ads := (concat (map ba_TransactionAcceptanceData ads)) (only parsing).

Lemma minted_app a b : minted (a ++ b) = minted a + minted b.
Proof using Type. unfold minted. by rewrite map_app, sumZ_app. Qed.

Lemma fees_app a b : fees (a ++ b) = fees a + fees b.
Proof using Type. unfold fees. by rewrite map_app, sumZ_app. Qed.

Lemma minted_none isSel txs ads : data_of isSel txs ads → (isSel = true → Forall (λ tx, IsCoinBase tx = false) txs) → minted ads = 0.
Proof using Type.
  intros Hd Hsel. unfold minted. induction Hd as [|tx d txs ads [Hs Ha] Hd IH]; [done|]. unfold sumZ in *. simpl. rewrite IH.
  2:{ intros E. by apply Forall_cons in Hsel as [_ ?]. }
  rewrite (same_tx_coinbase _ _ Hs). destruct (ta_IsAccepted d) eqn:Ea, (IsCoinBase tx) eqn:Ec; simpl; try lia.
  specialize (Ha eq_refl eq_refl). specialize (Hsel Ha). apply Forall_cons in Hsel as [Hcb _]. congruence.
Qed.

(** Only the coinbase of the selected parent mints. *)
Lemma minted_coinbase m U0 parent blocks ads U coinbase txs : accepted_set csm stores pov m U0 parent blocks ads U →
  bk_Transactions parent = coinbase :: txs → Forall (λ tx, IsCoinBase tx = false) txs → 0 ≤ total_out coinbase → minted (all_data ads) ≤ total_out coinbase.
Proof using Type.
  intros (_ & pd & rest & -> & [_ Hpd] & Hrest) Htxs Hcbs Hpos. cbn [map concat]. rewrite minted_app.
  assert (minted (all_data rest) = 0) as ->.
  { induction Hrest as [|b d bs ds [_ Hd] Hrest IH]; [done|]. cbn [map concat]. rewrite minted_app, IH, (minted_none _ _ _ Hd); done || lia. }
  rewrite Htxs in Hpd. apply Forall2_cons_inv_l in Hpd as (d & ds & [Hs _] & Hds & ->).
  assert (minted ds = 0) as Hz by (by apply (minted_none true txs)). change (d :: ds) with ([d] ++ ds). rewrite minted_app, Hz.
  unfold minted, sumZ. simpl. assert (total_out (ta_Transaction d) = total_out coinbase) as -> by (unfold total_out; by destruct Hs as (_ & _ & -> & _)).
  destruct (_ && _); lia.
Qed.
End Minted.

(** The subsidies of the blocks [hs] that count. *)
Definition subsidies (c : coinbaseManager) (cs : consensus) (added : gset hash) (hs : list hash) : Z :=
  sumZ (map (subsidyOf c cs) (filter (λ h, h ∈ added) hs)).

Lemma rewards_bounded c cs added hs ads : Forall2 (merged_ok c cs) hs ads →
  rewards c cs added hs ads ≤ fees (concat (map ba_TransactionAcceptanceData ads)) + subsidies c cs added hs.
Proof.
  unfold subsidies. induction 1 as [|h d hs ads Hm Hms IH]; [done|]. rewrite rewards_cons. cbn [map concat]. rewrite fees_app.
  pose proof (fees_nonneg _ (mo_fees _ _ _ _ Hm)). unfold reward. rewrite filter_cons. case_decide; [|lia]. unfold sumZ in *. simpl. lia.
Qed.

(** ** Properties *)
Module SupplyProps.
Import PastUtxoProps CoinbasePayloadProps.

(** *** A world with one block over the genesis block *)
Definition genesis_data : BlockAcceptanceData :=
  {| ba_BlockHash := [0];
     ba_TransactionAcceptanceData := [{| ta_Transaction := genesis_coinbase; ta_Fee := 0; ta_IsAccepted := true; ta_TransactionInputUTXOEntries := [] |}] |}.
Definition child_header : BlockHeader :=
  {| hd_version := 0; hd_parentHashes := [[0]]; hd_hashMerkleRoot := []; hd_acceptedIDMerkleRoot := fst (TransactionID genesis_coinbase);
     hd_utxoCommitment := [ms_of sample_set]; hd_timeInMilliseconds := 10; hd_bits := 0x207fffff; hd_nonce := 0 |}.
Definition child_block : DomainBlock := {| bk_Header := child_header; bk_Transactions := [reward_coinbase; sample_spending] |}.
Definition child : hash := Eval vm_compute in BlockHash child_block.
Definition child_dag (x : hash) : list hash := if decide (x = child) then [[0]] else [].
Definition child_topology : DAGTopologyManager := {| Parents x := Ret (child_dag x); IsAncestorOf a b := Ret true |}.
Definition child_headers : gmap hash BlockHeader := {[ [0] := GhostdagProps.sample_header; child := child_header ]}.
Definition child_ghostdag : gmap hash BlockGHOSTDAGData := fst (@GHOSTDAG child_topology 18 child_headers child {[ [0] := emptyData ]}).
Definition child_consensus : consensus :=
  {| cs_finality := {| fm_topology := {| dt_reachabilityManager :=
         {| reachabilityDataStore := ∅; reachabilityReindexRoot := None; ghostdagDataStore := child_ghostdag;
            reindexSlack := 0; reindexWindow := 0 |}; dt_blockRelationStore := ∅ |};
       fm_finalityStore := ∅; fm_genesisHash := [0]; fm_finalityDepth := 86400 |};
     cs_headers := child_headers;
     cs_daa := {| daa_scores := {[ [0] := 0; child := 1 ]}; daa_addedBlocks := {[ [0] := []; child := [[0]] ]} |}; cs_statuses := ∅; cs_pruningPoint := None |}.
Definition child_stores : utxoStores :=
  {| us_consensus := child_consensus; us_blocks := {[ [0] := block_with genesis_coinbase ]}; us_virtualUTXO := sample_set;
     us_utxoDiffs := {[ [0] := mkDiff ∅ ∅ ]}; us_utxoDiffChildren := ∅; us_multisets := {[ [0] := ms_of sample_set ]} |}.
Definition child_data : gmap hash (list BlockAcceptanceData) := {[ [0] := []; child := [genesis_data] ]}.
Definition no_caches : validatorCaches := {| vc_sigCache := None; vc_sigCacheECDSA := None |}.

Lemma child_ghostdag_ok : ghostdag_ok child_dag 18 child_ghostdag [0] ∧ ∀ x, x ∈ dom child_ghostdag → x = [0] ∨ x = child.
Proof.
  destruct (@GHOSTDAG_spec child_dag 18 child_topology {[ [0] := emptyData ]} [0] child child_headers) as (p & g & Hrun & _ & Hok & _).
  - split; [done|]. intros a b. rewrite dom_singleton, !elem_of_singleton. intros -> ->. exists true. split; [reflexivity|]. split; [intros _; apply rtc_refl|done].
  - by apply genesis_ok.
  - lia.
  - intros x. rewrite dom_singleton, elem_of_singleton. intros ->. exists GhostdagProps.sample_header. split; vm_compute; reflexivity.
  - rewrite dom_singleton, elem_of_singleton. done.
  - reflexivity.
  - done.
  - intros p ->%list_elem_of_singleton. rewrite dom_singleton. by apply elem_of_singleton.
  - apply NoDup_singleton.
  - by intros p q ->%list_elem_of_singleton ->%list_elem_of_singleton.
  - unfold child_ghostdag. rewrite Hrun. cbn [fst]. split; [done|]. intros x. rewrite dom_insert_L, dom_singleton. set_solver.
Qed.

Lemma child_context : context_ok TransactionProps.sample_validator child_consensus child_dag 18.
Proof.
  destruct child_ghostdag_ok as [Hok Hdom]. split; [done|done| | |done|done].
  - intros x [-> | ->]%Hdom _; eexists; (split; [reflexivity|split; vm_compute; [discriminate|reflexivity]]).
  - intros x [-> | ->]%Hdom; (split; [by eexists|split; vm_compute; [discriminate|reflexivity]]).
Qed.

Lemma child_merge_data : merge_data_ok sample_manager child_consensus child_data child (dataOf child_ghostdag child) [[0]] [genesis_data].
Proof.
  split; try (vm_compute; reflexivity). assert (mergeSetBlues (dataOf child_ghostdag child) ++ mergeSetReds (dataOf child_ghostdag child) = [[0]]) as ->
    by (vm_compute; reflexivity). constructor; [|constructor]. split; [done|by eexists| |].
  - by intros t ->%list_elem_of_singleton _.
  - eexists _, [], _, _. split; [reflexivity|]. split; [vm_compute; reflexivity|]. by vm_compute.
Qed.




End SupplyProps.
