(* ===== verification/ResolveStatus.v ===== *)
(** * Resolving the status of a block (processes/consensusstatemanager)

    resolve_block_status.go, reverse_utxo_diffs.go and utxo_diffs.go: the blocks of a
    selected chain that are not verified yet are verified from past to present; every block that
    is valid gets a UTXO diff and a diff child, so that its UTXO set can be restored from the
    virtual's; afterwards the diffs of the chain are reversed to lead to its tip.

    The stores are the maps that their readers see.  The blocks below the tip are resolved in
    staging areas of their own, which are committed one by one; all of them read and change the same maps.
    What a resolution changes are the diffs, diff children and multisets of
    [rs_stores], the statuses, the acceptance data and the signature caches of the validator. *)
From stdpp Require Import sorting.
From S2P Require Import Prelude Externalapi UtxoDiff ScriptNum ScriptStack OpcodeTable Script Hashing SigCache Opcode Engine.
From S2P Require Import Interval ReachabilityData Reachability DagTopology Block Merkle Ghostdag Window DifficultyManager Traversal HeaderValidation TransactionValidator PastUtxo Coinbase VerifyUtxo.
Import TransactionHashing SigCache Opcode Ghostdag PastMedianTime Traversal Header HeaderValidation TransactionValidator PastUtxo VerifyUtxo.
Local Open Scope Z_scope.
Local Open Scope prog_scope.

Abbreviation hash := (list Z) (only parsing).

Inductive resolveError :=
  | ResolveAccept (e : acceptError)
  | ResolveVerify (e : verifyError).

(** model/utxo_diff_reversal_data.go *)
Record UTXODiffReversalData := {
  rd_SelectedParentHash : hash;
  rd_SelectedParentUTXODiff : diff
}.

Module ResolveStatus.
Section Resolve.
Context `{Libs} `{MuHash}.
Variable csm : consensusStateManager.
Variable cbm : coinbaseManager.

Record resolveState := {
  rs_stores : utxoStores;
  rs_statuses : gmap hash BlockStatus;
  rs_acceptanceData : gmap hash (list BlockAcceptanceData);
  rs_caches : validatorCaches
}.
Abbreviation resolving A := (prog resolveState resolveError A) (only parsing).

Definition accepting {A} (o : outcome acceptError A) : resolving A :=
  lift_outcome (match o with Ret a => Ret a | Fail e => Fail (ResolveAccept e) | Crash c => Crash c end).
Definition found {A} (o : outcome ghostdagError A) : resolving A := accepting (fromTx (fromStore o)).
(** A method call on a pointer or an interface that may be nil. *)
Definition deref {A} (o : option A) : resolving A :=
  match o with Some a => ret a | None => crash_with NilDereference end.

Definition put_stores (f : utxoStores → utxoStores) (s : resolveState) : resolveState :=
  {| rs_stores := f (rs_stores s); rs_statuses := rs_statuses s; rs_acceptanceData := rs_acceptanceData s; rs_caches := rs_caches s |}.

(** *** Stores *)

(** [utxoDiffStore.Stage]: without a diff child an earlier one stays. *)
Definition withDiffOf (blockHash : hash) (utxoDiff : diff) (utxoDiffChild : option hash) (stores : utxoStores) : utxoStores :=
  {| us_consensus := us_consensus stores; us_blocks := us_blocks stores; us_virtualUTXO := us_virtualUTXO stores;
     us_utxoDiffs := <[blockHash := utxoDiff]> (us_utxoDiffs stores);
     us_utxoDiffChildren := match utxoDiffChild with
                            | Some child => <[blockHash := child]> (us_utxoDiffChildren stores)
                            | None => us_utxoDiffChildren stores
                            end;
     us_multisets := us_multisets stores |}.

(** [multisetStore.Stage] *)
Definition withMultiset (blockHash : hash) (multiset : muhash) (stores : utxoStores) : utxoStores :=
  {| us_consensus := us_consensus stores; us_blocks := us_blocks stores; us_virtualUTXO := us_virtualUTXO stores;
     us_utxoDiffs := us_utxoDiffs stores; us_utxoDiffChildren := us_utxoDiffChildren stores;
     us_multisets := <[blockHash := multiset]> (us_multisets stores) |}.

Definition stageDiff (blockHash : hash) (utxoDiff : diff) (utxoDiffChild : option hash) : resolving unit :=
  modify (put_stores (withDiffOf blockHash utxoDiff utxoDiffChild)).
Definition stageAcceptanceData (blockHash : hash) (acceptanceData : list BlockAcceptanceData) : resolving unit :=
  modify (λ s, {| rs_stores := rs_stores s; rs_statuses := rs_statuses s;
                  rs_acceptanceData := <[blockHash := acceptanceData]> (rs_acceptanceData s); rs_caches := rs_caches s |}).
Definition stageStatus (blockHash : hash) (status : BlockStatus) : resolving unit :=
  modify (λ s, {| rs_stores := rs_stores s; rs_statuses := <[blockHash := status]> (rs_statuses s);
                  rs_acceptanceData := rs_acceptanceData s; rs_caches := rs_caches s |}).

Definition ghostdagOfBlock (blockHash : hash) : resolving BlockGHOSTDAGData :=
  let* s := get in found (Get (ghostdag_of (us_consensus (rs_stores s))) blockHash).
Definition statusOf (blockHash : hash) : resolving BlockStatus :=
  let* s := get in found (Get (rs_statuses s) blockHash).

(** *** The calls that share the validator's caches *)
Definition calculatePast (blockHash : hash) (selectedParentPastUTXO : diff) : resolving (diff * list BlockAcceptanceData * muhash) :=
  λ s, let '(a, o) := calculatePastUTXOAndAcceptanceDataWithSelectedParentUTXO csm (rs_stores s) blockHash selectedParentPastUTXO
                        {| ac_diff := mkDiff ∅ ∅; ac_sigCache := vc_sigCache (rs_caches s); ac_sigCacheECDSA := vc_sigCacheECDSA (rs_caches s) |} in
       ({| rs_stores := rs_stores s; rs_statuses := rs_statuses s; rs_acceptanceData := rs_acceptanceData s;
           rs_caches := {| vc_sigCache := ac_sigCache a; vc_sigCacheECDSA := ac_sigCacheECDSA a |} |},
        match o with Ret a => Ret a | Fail e => Fail (ResolveAccept e) | Crash c => Crash c end).

(** Is the block valid; an error that is not a rule error is an error. *)
Definition verifyBlock (block : DomainBlock) (blockHash : hash) (pastUTXODiff : diff) (acceptanceData : list BlockAcceptanceData)
    (multiset : muhash) : resolving bool :=
  λ s, let '(caches, o) := verifyUTXO csm cbm (rs_stores s) (rs_acceptanceData s) block blockHash pastUTXODiff acceptanceData multiset (rs_caches s) in
       ({| rs_stores := rs_stores s; rs_statuses := rs_statuses s; rs_acceptanceData := rs_acceptanceData s; rs_caches := caches |},
        match o with
        | Ret _ => Ret true
        | Fail e => if isRuleError e then Ret false else Fail (ResolveVerify e)
        | Crash c => Crash c
        end).

(** [d.DiffFrom(other)] *)
Definition DiffFrom (d other : diff) : resolving diff :=
  accepting (match diffFrom d other with Ret d => Ret d | Fail e => Fail (AcceptUtxo e) | Crash c => Crash c end).

(** ** resolve_block_status.go *)
Definition selectedTip : resolving (option hash) :=
  let* virtualGHOSTDAGData := ghostdagOfBlock VirtualBlockHash in
  ret (selectedParent virtualGHOSTDAGData).

Definition isNewSelectedTip (blockHash oldSelectedTip : hash) : resolving bool :=
  let* s := get in
  let* newSelectedTip := found (ChooseSelectedParent (ghostdag_of (us_consensus (rs_stores s))) [blockHash; oldSelectedTip]) in
  ret (bool_decide (blockHash = newSelectedTip)).

(** The diff and the diff child of a block that is valid: the tip of the resolution leads to the selected tip or becomes it, the
    other blocks lead to their selected parents for the time being. *)
Definition stageValidBlock (blockHash selectedParentHash : hash) (selectedParentPastUTXOSet pastUTXOSet : diff) (isResolveTip : bool) : resolving unit :=
  let* oldSelectedTip := selectedTip in
  if isResolveTip then
    let* oldSelectedTip := deref oldSelectedTip in
    let* s := get in
    let* oldSelectedTipUTXOSet := accepting (restorePastUTXO (rs_stores s) oldSelectedTip) in
    let* isNew := isNewSelectedTip blockHash oldSelectedTip in
    if isNew : bool then
      let* updatedOldSelectedTipUTXOSet := DiffFrom pastUTXOSet oldSelectedTipUTXOSet in
      stageDiff oldSelectedTip updatedOldSelectedTipUTXOSet (Some blockHash) ;;*
      stageDiff blockHash pastUTXOSet None
    else
      let* utxoDiff := DiffFrom oldSelectedTipUTXOSet pastUTXOSet in
      stageDiff blockHash utxoDiff (Some oldSelectedTip)
  else
    let* utxoDiff := DiffFrom selectedParentPastUTXOSet pastUTXOSet in
    stageDiff blockHash utxoDiff (Some selectedParentHash).

(** Of the UTXO set of the selected parent, [None] is nil; it is cloned before anything is changed. *)
Definition resolveSingleBlockStatus (blockHash selectedParentHash : hash) (selectedParentPastUTXOSet : option diff) (isResolveTip : bool) :
    resolving (BlockStatus * option diff) :=
  let* selectedParentPastUTXOSet := deref selectedParentPastUTXOSet in
  let* past := calculatePast blockHash selectedParentPastUTXOSet in
  let '(pastUTXOSet, acceptanceData, multiset) := past in
  stageAcceptanceData blockHash acceptanceData ;;*
  let* s := get in
  let* block := found (Get (us_blocks (rs_stores s)) blockHash) in
  let* isValid := verifyBlock block blockHash pastUTXOSet acceptanceData multiset in
  if negb isValid then ret (StatusDisqualifiedFromChain, None)
  else
    modify (put_stores (withMultiset blockHash multiset)) ;;*
    if bool_decide (csm_genesisHash csm = blockHash) then
      stageDiff blockHash pastUTXOSet None ;;*
      ret (StatusUTXOValid, None)
    else
      stageValidBlock blockHash selectedParentHash selectedParentPastUTXOSet pastUTXOSet isResolveTip ;;*
      ret (StatusUTXOValid, Some pastUTXOSet).

(** A selected chain visits a block of the store at most once. *)
Fixpoint unverifiedLoop (fuel : nat) (currentHash : hash) : resolving (list hash) :=
  match fuel with
  | O => crash_with OutOfFuel
  | Datatypes.S fuel =>
      let* currentBlockStatus := statusOf currentHash in
      if negb (bool_decide (currentBlockStatus = StatusUTXOPendingVerification)) then ret []
      else
        let* currentBlockGHOSTDAGData := ghostdagOfBlock currentHash in
        match selectedParent currentBlockGHOSTDAGData with
        | None => ret [currentHash]
        | Some parent => let* unverifiedBlocks := unverifiedLoop fuel parent in ret (currentHash :: unverifiedBlocks)
        end
  end.
Definition getUnverifiedChainBlocks (blockHash : hash) : resolving (list hash) :=
  let* s := get in unverifiedLoop (Datatypes.S (size (ghostdag_of (us_consensus (rs_stores s))))) blockHash.

Definition selectedParentInfo (unverifiedBlocks : list hash) : resolving (hash * BlockStatus * option diff) :=
  let* lastUnverifiedBlock := lift_outcome (index unverifiedBlocks (zlen unverifiedBlocks - 1)) in
  if bool_decide (lastUnverifiedBlock = csm_genesisHash csm) then ret (lastUnverifiedBlock, StatusUTXOValid, Some (mkDiff ∅ ∅))
  else
    let* lastUnverifiedBlockGHOSTDAGData := ghostdagOfBlock lastUnverifiedBlock in
    let* parent := deref (selectedParent lastUnverifiedBlockGHOSTDAGData) in
    let* selectedParentStatus := statusOf parent in
    if negb (bool_decide (selectedParentStatus = StatusUTXOValid)) then ret (parent, selectedParentStatus, None)
    else
      let* s := get in
      let* selectedParentUTXOSet := accepting (restorePastUTXO (rs_stores s) parent) in
      ret (parent, selectedParentStatus, Some selectedParentUTXOSet).

(** The variables of the loop over the unverified blocks. *)
Record resolveLoop := {
  rl_selectedParentStatus : BlockStatus;
  rl_previousBlockHash : hash;
  rl_previousBlockUTXOSet : option diff;
  rl_oneBeforeUTXOSet : option diff;
  rl_oneBeforeHash : option hash
}.

(** One block of the loop; the last block is the tip of the resolution. *)
Definition resolveNext (unverifiedBlockHash : hash) (isResolveTip : bool) (l : resolveLoop) : resolving resolveLoop :=
  let* next :=
    if bool_decide (rl_selectedParentStatus l = StatusDisqualifiedFromChain) then
      ret {| rl_selectedParentStatus := StatusDisqualifiedFromChain; rl_previousBlockHash := unverifiedBlockHash;
             rl_previousBlockUTXOSet := rl_previousBlockUTXOSet l; rl_oneBeforeUTXOSet := rl_oneBeforeUTXOSet l; rl_oneBeforeHash := rl_oneBeforeHash l |}
    else
      let* resolved := resolveSingleBlockStatus unverifiedBlockHash (rl_previousBlockHash l) (rl_previousBlockUTXOSet l) isResolveTip in
      ret {| rl_selectedParentStatus := fst resolved; rl_previousBlockHash := unverifiedBlockHash;
             rl_previousBlockUTXOSet := snd resolved; rl_oneBeforeUTXOSet := rl_previousBlockUTXOSet l;
             rl_oneBeforeHash := Some (rl_previousBlockHash l) |} in
  stageStatus unverifiedBlockHash (rl_selectedParentStatus next) ;;*
  ret next.

Fixpoint resolveAll (pastToPresent : list hash) (l : resolveLoop) : resolving resolveLoop :=
  match pastToPresent with
  | [] => ret l
  | unverifiedBlockHash :: rest =>
      let* l := resolveNext unverifiedBlockHash (bool_decide (rest = [])) l in resolveAll rest l
  end.

Definition resolveBlockStatus (blockHash : hash) : resolving (BlockStatus * option UTXODiffReversalData) :=
  let* unverifiedBlocks := getUnverifiedChainBlocks blockHash in
  if zlen unverifiedBlocks =? 0 then let* status := statusOf blockHash in ret (status, None)
  else
    let* info := selectedParentInfo unverifiedBlocks in
    let '(selectedParentHash, selectedParentStatus, selectedParentUTXOSet) := info in
    let* l := resolveAll (reverse unverifiedBlocks)
                {| rl_selectedParentStatus := selectedParentStatus; rl_previousBlockHash := selectedParentHash;
                   rl_previousBlockUTXOSet := selectedParentUTXOSet; rl_oneBeforeUTXOSet := None; rl_oneBeforeHash := None |} in
    let blockStatus := rl_selectedParentStatus l in
    if bool_decide (blockStatus = StatusUTXOValid) && (1 <? zlen unverifiedBlocks) then
      let* previousBlockUTXOSet := deref (rl_previousBlockUTXOSet l) in
      let* oneBefore := deref (rl_oneBeforeUTXOSet l) in
      let* selectedParentUTXODiff := DiffFrom previousBlockUTXOSet oneBefore in
      let* parent := deref (rl_oneBeforeHash l) in
      ret (blockStatus, Some {| rd_SelectedParentHash := parent; rd_SelectedParentUTXODiff := selectedParentUTXODiff |})
    else ret (blockStatus, None).

(** ** reverse_utxo_diffs.go *)
Definition UTXODiff (blockHash : hash) : resolving diff :=
  let* s := get in found (Get (us_utxoDiffs (rs_stores s)) blockHash).
Definition UTXODiffChild (blockHash : hash) : resolving hash :=
  let* s := get in found (Get (us_utxoDiffChildren (rs_stores s)) blockHash).

Definition commitUTXODiffInSeparateStagingArea (blockHash : hash) (utxoDiff : diff) (utxoDiffChild : hash) : resolving unit :=
  stageDiff blockHash utxoDiff (Some utxoDiffChild).

Fixpoint reverseLoop (fuel : nat) (previousBlock : hash) (previousUTXODiff : diff) (previousBlockGHOSTDAGData : BlockGHOSTDAGData) : resolving unit :=
  match fuel with
  | O => crash_with OutOfFuel
  | Datatypes.S fuel =>
      let* currentBlock := deref (selectedParent previousBlockGHOSTDAGData) in
      let* currentBlockUTXODiffChild := UTXODiffChild currentBlock in
      let* currentBlockGHOSTDAGData := ghostdagOfBlock currentBlock in
      if negb (bool_decide (selectedParent currentBlockGHOSTDAGData = Some currentBlockUTXODiffChild)) then ret ()
      else
        let currentUTXODiff := diff_Reversed previousUTXODiff in
        let* previousUTXODiff := UTXODiff currentBlock in
        commitUTXODiffInSeparateStagingArea currentBlock currentUTXODiff previousBlock ;;*
        reverseLoop fuel currentBlock previousUTXODiff currentBlockGHOSTDAGData
  end.

(** Every step rewrites the diff of another block. *)
Definition ReverseUTXODiffs (tipHash : hash) (reversalData : UTXODiffReversalData) : resolving unit :=
  let previousBlock := rd_SelectedParentHash reversalData in
  let* previousUTXODiff := UTXODiff previousBlock in
  commitUTXODiffInSeparateStagingArea previousBlock (rd_SelectedParentUTXODiff reversalData) tipHash ;;*
  let* previousBlockGHOSTDAGData := ghostdagOfBlock previousBlock in
  let* s := get in
  reverseLoop (Datatypes.S (size (us_utxoDiffs (rs_stores s)))) previousBlock previousUTXODiff previousBlockGHOSTDAGData.
End Resolve.
End ResolveStatus.
