(* ===== verification/UtxoDiffChain.v ===== *)
(** * The chains of UTXO diffs

    Every verified block has a diff to the UTXO set of its diff child, and the block without a
    diff child one to the virtual's set.  Rewriting these chains must not change any UTXO set:
    redirecting a block to another diff child, adding a block, reversing the diffs of a chain, and moving
    the virtual's set. *)
From S2P Require Import Prelude Externalapi UtxoDiff ScriptNum ScriptStack OpcodeTable Script Hashing SigCache Opcode Engine.
From S2P Require Import OpcodeSafety EngineSafety SigSpec CacheTransparency.
From S2P Require Import Interval ReachabilityData Reachability ReachabilityTree ReachabilityAdd DagTopology Block Merkle Ghostdag GhostdagOrder GhostdagColour Window DifficultyManager Traversal HeaderValidation TransactionValidator TransactionSafety PastUtxo UtxoAcceptance PastUtxoSpec Coinbase VerifyUtxo ResolveStatus.
Import TransactionHashing SigCache Opcode Ghostdag Traversal PastMedianTime Header HeaderValidation TransactionValidator PastUtxo VerifyUtxo ResolveStatus.
Local Open Scope Z_scope.
Local Open Scope prog_scope.

Abbreviation hash := (list Z) (only parsing).

(** ** Entries

    An outpoint and a DAA score determine the entry: the transaction id is a hash of the outputs. *)
Section Drawn.
Variable entryAt : DomainOutpoint → Z → utxoEntry.

Definition drawn (c : utxoCollection) : Prop := ∀ o e, c !! o = Some e → e = entryAt o (ue_blockDAAScore e).

Lemma drawn_same c1 c2 : drawn c1 → drawn c2 → same_txout c1 c2.
Proof. intros H1 H2 o e1 e2 Ho1 Ho2 E. rewrite (H1 o e1 Ho1), (H2 o e2 Ho2). by rewrite E. Qed.

Lemma drawn_subseteq c1 c2 : c1 ⊆ c2 → drawn c2 → drawn c1.
Proof. intros Hs Hd o e He. by eapply Hd, lookup_weaken. Qed.

Lemma drawn_toAdd U d : drawn (apply_diff U d) → drawn (toAdd d).
Proof. apply drawn_subseteq, map_union_subseteq_l. Qed.
End Drawn.

Lemma reversed_applies U d : applicable U d → applicable (apply_diff U d) (diff_Reversed d) ∧ apply_diff (apply_diff U d) (diff_Reversed d) = U.
Proof.
  intros Ha. pose proof (λ o, reversed_at _ _ _ (proj1 (applicable_lookup _ _) Ha o)) as Hat. split.
  - apply applicable_lookup. intros o. rewrite apply_diff_lookup. apply Hat.
  - apply map_eq. intros o. rewrite !apply_diff_lookup. apply Hat.
Qed.

(** ** Chains *)
Section Chains.
Context `{MuHash}.
Implicit Types stores : utxoStores.

Lemma past_set_head stores h chain U : past_set stores h chain U → ∃ rest, chain = h :: rest.
Proof. by destruct 1; eexists. Qed.

Lemma past_set_functional stores h chain1 U1 chain2 U2 : past_set stores h chain1 U1 → past_set stores h chain2 U2 → U1 = U2.
Proof.
  intros P1. revert chain2 U2. induction P1 as [h d Hc Hd|h c chain U d Hc Hp IH Hd Ha]; intros chain2 U2 P2; inversion P2; subst; simplify_eq; [done|].
  f_equal. by eapply IH.
Qed.

Lemma past_set_agree stores stores' h chain U : us_virtualUTXO stores' = us_virtualUTXO stores →
  (∀ b, b ∈ chain → us_utxoDiffs stores' !! b = us_utxoDiffs stores !! b ∧ us_utxoDiffChildren stores' !! b = us_utxoDiffChildren stores !! b) →
  past_set stores h chain U → past_set stores' h chain U.
Proof.
  intros HB Hag Hp. induction Hp as [h d Hc Hd Ha Hs|h c chain U d Hc Hp IH Hd Ha Hs].
  - destruct (Hag h ltac:(by left)) as [E1 E2]. rewrite <- HB. apply past_base; rewrite ?HB, ?E1, ?E2; done.
  - destruct (Hag h ltac:(by left)) as [E1 E2]. apply past_step with c; rewrite ?HB, ?E1, ?E2; try done. apply IH. intros b Hb. apply Hag. by right.
Qed.

(** Every UTXO set that could be restored still can. *)
Definition keeps stores stores' : Prop := ∀ h chain U, past_set stores h chain U → ∃ chain', past_set stores' h chain' U.

#[export] Instance keeps_preorder : PreOrder keeps.
Proof.
  split; [by intros s h chain U Hp; exists chain|]. intros s1 s2 s3 H12 H23 h chain U Hp. destruct (H12 h chain U Hp) as [chain2 Hp2]. by apply (H23 h chain2).
Qed.

(** A new block can be added. *)
Lemma past_set_fresh stores b d child h chain U : us_utxoDiffs stores !! b = None → past_set stores h chain U → past_set (withDiffOf b d child stores) h chain U.
Proof.
  intros Hb Hp. apply (past_set_agree stores); [done| |done]. intros x Hx. assert (x ≠ b) as Hne.
  { intros ->. apply (past_set_known stores h chain U Hp), elem_of_elements, elem_of_dom in Hx as [? Hx]. congruence. }
  simpl. rewrite lookup_insert_ne by done. split; [done|]. destruct child; [by rewrite lookup_insert_ne|done].
Qed.

Lemma keeps_fresh stores b d child : us_utxoDiffs stores !! b = None → keeps stores (withDiffOf b d child stores).
Proof. intros Hb h chain U Hp. exists chain. by apply past_set_fresh. Qed.

Lemma keeps_multiset stores b ms : keeps stores (withMultiset b ms stores).
Proof. intros h chain U Hp. exists chain. by apply (past_set_agree stores). Qed.

(** A block can be redirected to another diff child, if the new diff leads to its set. *)
Lemma past_set_redirect stores b d c chainb Ub chainc Uc : past_set stores b chainb Ub → past_set stores c chainc Uc → b ∉ chainc →
  applicable Uc d → apply_diff Uc d = Ub → same_txout (us_virtualUTXO stores) (toAdd d) →
  past_set (withDiffOf b d (Some c) stores) b (b :: chainc) Ub ∧ keeps stores (withDiffOf b d (Some c) stores).
Proof.
  intros Hb Hc Hn Ha <- Hs. set (s' := withDiffOf b d (Some c) stores).
  assert (past_set s' b (b :: chainc) (apply_diff Uc d)) as Hb'.
  { apply past_step with c; [by simpl; rewrite lookup_insert_eq| |by simpl; rewrite lookup_insert_eq|done|done].
    apply (past_set_agree stores); [done| |done]. intros x Hx. simpl. rewrite !lookup_insert_ne by set_solver. done. }
  split; [done|]. intros h chain U Hp. induction Hp as [h d0 Hc0 Hd0 Ha0 Hs0|h c0 chain U d0 Hc0 Hp IH Hd0 Ha0 Hs0].
  - destruct (decide (h = b)) as [->|Hne].
    + rewrite (past_set_functional stores b [b] _ chainb (apply_diff Uc d)) by (done || by apply past_base). by exists (b :: chainc).
    + exists [h]. apply (past_base s'); simpl; rewrite ?lookup_insert_ne by done; done.
  - destruct (decide (h = b)) as [->|Hne].
    + rewrite (past_set_functional stores b (b :: chain) _ chainb (apply_diff Uc d)) by (done || by eapply past_step). by exists (b :: chainc).
    + destruct IH as [chain' IH]. exists (h :: chain'). apply past_step with c0; simpl; rewrite ?lookup_insert_ne by done; done.
Qed.

(** The set of the virtual moves to [V]: the chains that end in [tip] stay right when the diff of
    [tip] leads from [V] to its set. *)
Definition withVirtual (V : utxoCollection) stores : utxoStores :=
  {| us_consensus := us_consensus stores; us_blocks := us_blocks stores; us_virtualUTXO := V; us_utxoDiffs := us_utxoDiffs stores;
     us_utxoDiffChildren := us_utxoDiffChildren stores; us_multisets := us_multisets stores |}.

Lemma past_set_rebase entryAt stores V tip d Utip h chain U : drawn entryAt V → (∀ x cx Ux, past_set stores x cx Ux → drawn entryAt Ux) →
  past_set stores tip [tip] Utip → applicable V d → apply_diff V d = Utip →
  past_set stores h chain U → last chain = Some tip → past_set (withVirtual V (withDiffOf tip d None stores)) h chain U.
Proof.
  intros HV Hall Htip Ha <- Hp. set (s' := withVirtual V _).
  assert (us_utxoDiffChildren stores !! tip = None) as Hnone by (inversion Htip as [? ? Hc|? ? ? ? ? ? Hp']; [done|]; by apply past_set_head in Hp' as [? ?]).
  induction Hp as [h d0 Hc0 Hd0 Ha0 Hs0|h c0 chain U d0 Hc0 Hp IH Hd0 Ha0 Hs0]; intros Hl.
  - injection Hl as ->. rewrite (past_set_functional stores tip [tip] _ [tip] (apply_diff V d)) by (done || by apply past_base).
    apply (past_base s'); simpl; [done|by rewrite lookup_insert_eq|done|]. apply (drawn_same entryAt); [done|]. eapply drawn_toAdd, Hall, Htip.
  - assert (h ≠ tip) as Hne by congruence. destruct (past_set_head _ _ _ _ Hp) as [rest ->]. simpl in Hl.
    apply past_step with c0; simpl; rewrite ?lookup_insert_ne by done; [done|by apply IH|done|done|].
    apply (drawn_same entryAt); [done|]. eapply drawn_toAdd, (Hall h (h :: c0 :: rest)). by apply past_step with c0.
Qed.
End Chains.

(** ** Reversing the diffs of a chain *)

(** From a block with GHOSTDAG data [g] the selected parents lead through [bs] to [x], whose selected
    parent is not [c]. *)
Fixpoint selected_path (S : gmap hash BlockGHOSTDAGData) (g : BlockGHOSTDAGData) (bs : list hash) (x c : hash) : Prop :=
  match bs with
  | [] => selectedParent g = Some x ∧ ∃ gx, S !! x = Some gx ∧ selectedParent gx ≠ Some c
  | b :: bs => selectedParent g = Some b ∧ ∃ gb, S !! b = Some gb ∧ selected_path S gb bs x c
  end.

Lemma selected_path_head S g bs x c rest : selected_path S g bs x c → selectedParent g = head (bs ++ x :: rest).
Proof. destruct bs; by intros [? _]. Qed.

Section Reverse.
Context `{Libs} `{MuHash}.
Variable entryAt : DomainOutpoint → Z → utxoEntry.

Abbreviation stores s := (rs_stores s) (only parsing).
Abbreviation gd s := (ghostdag_of (us_consensus (rs_stores s))) (only parsing).

Lemma found_ret {A} (s : resolveState) (m : gmap hash A) h a : m !! h = Some a → found (Get m h) s = (s, Ret a).
Proof using Type. intros Hm. unfold found, Get. by rewrite Hm. Qed.
Lemma ghostdagOfBlock_ret s h g : gd s !! h = Some g → ghostdagOfBlock h s = (s, Ret g).
Proof using Type. intros Hg. unfold ghostdagOfBlock. rewrite (bind_ret_l _ _ s s s) by done. by apply found_ret. Qed.
Lemma UTXODiff_ret s h d : us_utxoDiffs (stores s) !! h = Some d → UTXODiff h s = (s, Ret d).
Proof using Type. intros Hd. unfold UTXODiff. rewrite (bind_ret_l _ _ s s s) by done. by apply found_ret. Qed.
Lemma UTXODiffChild_ret s h c : us_utxoDiffChildren (stores s) !! h = Some c → UTXODiffChild h s = (s, Ret c).
Proof using Type. intros Hc. unfold UTXODiffChild. rewrite (bind_ret_l _ _ s s s) by done. by apply found_ret. Qed.

(** Only the diffs and diff children of the blocks [bs] differ. *)
Definition only_diffs (bs : list hash) (s s' : resolveState) : Prop :=
  rs_statuses s' = rs_statuses s ∧ rs_acceptanceData s' = rs_acceptanceData s ∧ rs_caches s' = rs_caches s ∧
  us_consensus (stores s') = us_consensus (stores s) ∧ us_blocks (stores s') = us_blocks (stores s) ∧
  us_virtualUTXO (stores s') = us_virtualUTXO (stores s) ∧ us_multisets (stores s') = us_multisets (stores s) ∧
  ∀ b, b ∉ bs → us_utxoDiffs (stores s') !! b = us_utxoDiffs (stores s) !! b ∧ us_utxoDiffChildren (stores s') !! b = us_utxoDiffChildren (stores s) !! b.

Lemma only_diffs_refl s : only_diffs [] s s.
Proof using Type. by split_and!. Qed.
Lemma only_diffs_trans bs1 bs2 s1 s2 s3 : only_diffs bs1 s1 s2 → only_diffs bs2 s2 s3 → only_diffs (bs1 ++ bs2) s1 s3.
Proof using Type.
  intros (? & ? & ? & ? & ? & ? & ? & D1) (? & ? & ? & ? & ? & ? & ? & D2). split_and!; try congruence.
  intros b Hb. rewrite elem_of_app in Hb. destruct (D1 b ltac:(tauto)), (D2 b ltac:(tauto)). split; congruence.
Qed.
Lemma only_diffs_stage b d c s : only_diffs [b] s (put_stores (withDiffOf b d (Some c)) s).
Proof using Type. split_and!; try done. intros x Hx. simpl. rewrite !lookup_insert_ne by set_solver. done. Qed.

(** [prev] leads to its set over [up]; [prevDiff] is the diff it had, from its selected parent's set. *)
Lemma reverseLoop_spec x c rest bs : ∀ s prev up Uprev prevDiff g Up fuel, (length bs < fuel)%nat →
  past_set (stores s) prev (prev :: up) Uprev → (∀ b, b ∈ bs → b ∉ prev :: up) → selected_path (gd s) g bs x c →
  (∃ b, head (bs ++ [x]) = Some b ∧ past_set (stores s) b (bs ++ x :: c :: rest) Up) → applicable Up prevDiff → apply_diff Up prevDiff = Uprev →
  drawn entryAt (us_virtualUTXO (stores s)) →
  (∀ h chain U, chain `suffix_of` bs ++ x :: c :: rest → past_set (stores s) h chain U → drawn entryAt U) →
  ∃ s', reverseLoop fuel prev prevDiff g s = (s', Ret ()) ∧ only_diffs bs s s' ∧ keeps (stores s) (stores s') ∧
    ∀ b, b ∈ bs → ∃ path U, past_set (stores s') b (path ++ prev :: up) U.
Proof using Type.
  induction bs as [|b bs IH]; intros s prev up Uprev prevDiff g Up fuel Hf Hprev Hdis Hpath (b0 & Hb0 & Hpast) Ha HU HB Hall;
    (destruct fuel as [|fuel]; [simpl in Hf; lia|]); cbn [reverseLoop]; injection Hb0 as <-.
  - destruct Hpath as (Hsel & gx & Hgx & Hne). rewrite Hsel. rewrite (bind_ret_l _ _ s s x) by done.
    assert (us_utxoDiffChildren (stores s) !! x = Some c) as Hc.
    { inversion Hpast as [|? c0 ? ? ? Hc0 Hp]; subst. by apply past_set_head in Hp as [? [= -> ->]]. }
    rewrite (bind_ret_l _ _ s s c) by (by apply UTXODiffChild_ret). rewrite (bind_ret_l _ _ s s gx) by (by apply ghostdagOfBlock_ret).
    rewrite bool_decide_eq_false_2 by done. exists s. split; [done|]. split; [apply only_diffs_refl|]. split; [done|]. intros b Hb. by apply elem_of_nil in Hb.
  - destruct Hpath as (Hsel & gb & Hgb & Hpath). rewrite Hsel. rewrite (bind_ret_l _ _ s s b) by done.
    pose proof (past_set_nodup _ _ _ _ Hpast) as Hnd. simpl in Hnd, Hpast. apply NoDup_cons in Hnd as [Hbn Hnd].
    assert (∃ c0 U1 d1, us_utxoDiffChildren (stores s) !! b = Some c0 ∧ past_set (stores s) c0 (bs ++ x :: c :: rest) U1 ∧
      us_utxoDiffs (stores s) !! b = Some d1 ∧ applicable U1 d1 ∧ Up = apply_diff U1 d1) as (c0 & U1 & d1 & Hc0 & Hp & Hd & Ha1 & ->).
    { inversion Hpast as [? ? ? ? ? ? Hnil|? c0 ? U1 d1 Hc0 Hp Hd Ha1 Hs1]; subst; [by destruct bs|]. by exists c0, U1, d1. }
    set (Ub := apply_diff U1 d1) in *.
    assert (head (bs ++ x :: c :: rest) = Some c0) as Hc0h by (by apply past_set_head in Hp as [? ->]).
    rewrite (bind_ret_l _ _ s s c0) by (by apply UTXODiffChild_ret). rewrite (bind_ret_l _ _ s s gb) by (by apply ghostdagOfBlock_ret).
    rewrite bool_decide_eq_true_2 by (by rewrite (selected_path_head _ _ _ _ _ (c :: rest) Hpath), Hc0h). cbn [negb]. cbv zeta.
    rewrite (bind_ret_l _ _ s s d1) by (by apply UTXODiff_ret).
    set (s1 := put_stores (withDiffOf b (diff_Reversed prevDiff) (Some prev)) s). rewrite (bind_ret_l _ _ s s1 ()) by done.
    destruct (reversed_applies _ _ Ha) as [Har Hur]. rewrite HU in Har, Hur.
    assert (drawn entryAt Ub) as HdrawnUb by (by eapply Hall).
    destruct (past_set_redirect (stores s) b (diff_Reversed prevDiff) prev _ Ub _ Uprev Hpast Hprev) as [Hb1 Hk1]; try done.
    { apply Hdis. by left. }
    { apply (drawn_same entryAt); [done|]. eapply drawn_toAdd. by rewrite Hur. }
    assert (∀ h chain U, chain `suffix_of` bs ++ x :: c :: rest → past_set (stores s1) h chain U ↔ past_set (stores s) h chain U) as Hsame.
    { intros h chain U [pre Hpre]. assert (b ∉ chain) by (rewrite Hpre in Hbn; set_solver).
      split; (apply past_set_agree; [done|]; intros y Hy; simpl; rewrite !lookup_insert_ne by set_solver; done). }
    destruct (IH s1 b (prev :: up) Ub d1 gb U1 fuel) as (s' & Hrun & Honly & Hk & Hroute); try done; [simpl in Hf; lia| | | |].
    { intros y Hy [->|Hy']%elem_of_cons; [apply Hbn, elem_of_app; by left|]. apply (Hdis y); [by right|done]. }
    { exists c0. split; [by destruct bs|]. by apply Hsame. }
    { intros h chain U Hsuf Hp'. apply (Hall h chain U); [by apply suffix_cons_r|]. by apply Hsame. }
    exists s'. split; [done|]. split; [apply (only_diffs_trans [b] bs s s1 s'); [apply only_diffs_stage|done]|]. split; [by transitivity (stores s1)|].
    intros y [->|Hy]%elem_of_cons; [exists [b], Ub|destruct (Hroute y Hy) as (path & U & Hp'); exists (path ++ [b]), U; by rewrite <- app_assoc].
    destruct Honly as (_ & _ & _ & _ & _ & HV & _ & Hrest). apply (past_set_agree (stores s1)); [done| |done]. intros z Hz. apply Hrest.
    intros Hzb. apply elem_of_cons in Hz as [->|Hz]; [apply Hbn, elem_of_app; by left|]. apply (Hdis z); [by right|done].
Qed.

Lemma ReverseUTXODiffs_spec s tip chainT UT p bs x c rest Up gp d : past_set (stores s) tip chainT UT → past_set (stores s) p (p :: bs ++ x :: c :: rest) Up →
  gd s !! p = Some gp → selected_path (gd s) gp bs x c → (∀ b, b ∈ p :: bs → b ∉ chainT) → applicable UT d → apply_diff UT d = Up →
  drawn entryAt (us_virtualUTXO (stores s)) → (∀ h chain U, past_set (stores s) h chain U → drawn entryAt U) →
  ∃ s', ReverseUTXODiffs tip {| rd_SelectedParentHash := p; rd_SelectedParentUTXODiff := d |} s = (s', Ret ()) ∧ only_diffs (p :: bs) s s' ∧
    keeps (stores s) (stores s') ∧ ∀ b, b ∈ p :: bs → ∃ path U, past_set (stores s') b (path ++ chainT) U.
Proof using Type.
  intros Htip Hp Hgp Hpath Hdis Ha HU HB Hall. pose proof (past_set_nodup _ _ _ _ Hp) as [Hpn Hnd]%NoDup_cons.
  assert (∃ c0 U1 d1, us_utxoDiffChildren (stores s) !! p = Some c0 ∧ past_set (stores s) c0 (bs ++ x :: c :: rest) U1 ∧
    us_utxoDiffs (stores s) !! p = Some d1 ∧ applicable U1 d1 ∧ Up = apply_diff U1 d1) as (c0 & U1 & d1 & Hc0 & Hp1 & Hd & Ha1 & HUp).
  { inversion Hp as [? ? ? ? ? ? Hnil|? c0 ? U1 d1 Hc0 Hp1 Hd Ha1 Hs1]; subst; [by destruct bs|]. by exists c0, U1, d1. }
  unfold ReverseUTXODiffs. cbn [rd_SelectedParentHash rd_SelectedParentUTXODiff]. rewrite (bind_ret_l _ _ s s d1) by (by apply UTXODiff_ret).
  set (s1 := put_stores (withDiffOf p d (Some tip)) s). rewrite (bind_ret_l _ _ s s1 ()) by done.
  rewrite (bind_ret_l _ _ s1 s1 gp) by (by apply ghostdagOfBlock_ret). rewrite (bind_ret_l _ _ s1 s1 s1) by done.
  destruct (past_set_redirect (stores s) p d tip _ Up chainT UT Hp Htip) as [Hp' Hk1]; try done.
  { apply Hdis. by left. }
  { apply (drawn_same entryAt); [done|]. eapply drawn_toAdd. rewrite HU. by eapply Hall. }
  assert (∀ h chain U, chain `suffix_of` bs ++ x :: c :: rest → past_set (stores s1) h chain U ↔ past_set (stores s) h chain U) as Hsame.
  { intros h chain U [pre Hpre]. assert (p ∉ chain) by (rewrite Hpre in Hpn; set_solver).
    split; (apply past_set_agree; [done|]; intros y Hy; simpl; rewrite !lookup_insert_ne by set_solver; done). }
  destruct (reverseLoop_spec x c rest bs s1 p chainT Up d1 gp U1 (Datatypes.S (size (us_utxoDiffs (rs_stores s1))))) as (s' & Hrun & Honly & Hk & Hroute); try done.
  { pose proof (past_set_length _ _ _ _ (proj2 (Hsame c0 _ U1 ltac:(done)) Hp1)) as Hlen. rewrite length_app in Hlen. simpl in *. lia. }
  { intros b Hb [->|Hb']%elem_of_cons; [apply Hpn, elem_of_app; by left|]. apply (Hdis b); [by right|done]. }
  { exists c0. split; [|by apply Hsame]. apply past_set_head in Hp1 as [? Hp1]. by destruct bs; injection Hp1 as <-. }
  { intros h chain U Hsuf Hq. apply (Hall h chain U). by apply Hsame. }
  exists s'. split; [done|]. split; [apply (only_diffs_trans [p] bs s s1 s'); [apply only_diffs_stage|done]|]. split; [by transitivity (stores s1)|].
  intros y [->|Hy]%elem_of_cons; [exists [p], Up|destruct (Hroute y Hy) as (path & U & Hq); exists (path ++ [p]), U; by rewrite <- app_assoc].
  destruct Honly as (_ & _ & _ & _ & _ & HV & _ & Hrest). apply (past_set_agree (stores s1)); [done| |done]. intros z Hz. apply Hrest.
  intros Hzb. apply elem_of_cons in Hz as [->|Hz]; [apply Hpn, elem_of_app; by left|]. apply (Hdis z); [by right|done].
Qed.
End Reverse.

(** ** Properties *)
Section Coherent.
Context `{MuHash}.
Variable entryAt : DomainOutpoint → Z → utxoEntry.

(** The entries of the virtual's set and of the diffs are drawn from one world of outputs. *)
Definition coherent (stores : utxoStores) : Prop :=
  drawn entryAt (us_virtualUTXO stores) ∧ ∀ h d, us_utxoDiffs stores !! h = Some d → drawn entryAt (toAdd d).

Lemma drawn_apply U d : drawn entryAt U → drawn entryAt (toAdd d) → drawn entryAt (apply_diff U d).
Proof. intros HU Hd o e [He|[_ He]]%lookup_union_Some_raw; [by apply Hd|]. apply lookup_difference_Some in He as [He _]. by apply HU. Qed.

Lemma coherent_past stores h chain U : coherent stores → past_set stores h chain U → drawn entryAt U.
Proof. intros [HB HD]. induction 1 as [h d Hc Hd Ha Hs|h c chain U d Hc Hp IH Hd Ha Hs]; apply drawn_apply; eauto. Qed.
End Coherent.

Module DiffChainProps.
(** C7: reversing the diffs of a chain changes no UTXO set.  A verified chain hangs, from the parent [p] of its tip down over [bs] to
    [x], with every block leading to its selected parent's set.  When the diff that is given leads from the set of
    the tip to that of [p], and the tip's own chain of diffs avoids these blocks, then the reversal
    stops without an error, changes only the diffs of these blocks, after it they lead to
    the tip, and every block of the store still has the UTXO set it had. *)
Theorem ReverseUTXODiffs_correct `{Libs} `{MuHash} (entryAt : DomainOutpoint → Z → utxoEntry) (s : resolveState) (tip p x c : list Z)
    (bs rest chainT : list (list Z)) (UT Up : utxoCollection) (gp : BlockGHOSTDAGData) (d : diff) :
  let gd := ghostdag_of (us_consensus (rs_stores s)) in
  coherent entryAt (rs_stores s) →
  past_set (rs_stores s) tip chainT UT → past_set (rs_stores s) p (p :: bs ++ x :: c :: rest) Up →
  gd !! p = Some gp → selected_path gd gp bs x c → (∀ b, b ∈ p :: bs → b ∉ chainT) → applicable UT d → apply_diff UT d = Up →
  ∃ s', ReverseUTXODiffs tip {| rd_SelectedParentHash := p; rd_SelectedParentUTXODiff := d |} s = (s', Ret ()) ∧ only_diffs (p :: bs) s s' ∧
    (∀ b, b ∈ p :: bs → ∃ path U, past_set (rs_stores s') b (path ++ chainT) U) ∧
    ∀ h chain U, past_set (rs_stores s) h chain U → ∃ chain', past_set (rs_stores s') h chain' U.
Proof.
  intros gd Hco Htip Hp Hgp Hpath Hdis Ha HU.
  destruct (ReverseUTXODiffs_spec entryAt s tip chainT UT p bs x c rest Up gp d) as (s' & ? & ? & ? & ?); try done; [apply Hco| |by exists s'].
  intros h chain U Hq. by eapply coherent_past.
Qed.

(** The chain of the blocks 0, 1 and 2 beside the tip 3. *)
Definition other_outpoint : DomainOutpoint := NewDomainOutpoint (replicate 32 1) 0.
Definition chained (parent : list Z) : BlockGHOSTDAGData :=
  {| blueScore := 0; blueWork := 0; selectedParent := Some parent; mergeSetBlues := [parent]; mergeSetReds := []; bluesAnticoneSizes := ∅ |}.
Definition sample_chain : utxoStores :=
  {| us_consensus :=
       {| cs_finality := {| fm_topology := {| dt_reachabilityManager :=
              {| reachabilityDataStore := ∅; reachabilityReindexRoot := None;
                 ghostdagDataStore := {[ [0] := emptyData; [1] := chained [0]; [2] := chained [1]; [3] := chained [2] ]};
                 reindexSlack := 0; reindexWindow := 0 |}; dt_blockRelationStore := ∅ |};
            fm_finalityStore := ∅; fm_genesisHash := [0]; fm_finalityDepth := 86400 |};
          cs_headers := ∅; cs_daa := {| daa_scores := ∅; daa_addedBlocks := ∅ |}; cs_statuses := ∅; cs_pruningPoint := None |};
     us_blocks := ∅; us_virtualUTXO := PastUtxoProps.sample_set;
     us_utxoDiffs := {[ [0] := mkDiff ∅ PastUtxoProps.sample_set; [1] := mkDiff {[ other_outpoint := PastUtxoProps.sample_entry ]} ∅;
                        [2] := mkDiff PastUtxoProps.sample_set {[ other_outpoint := PastUtxoProps.sample_entry ]}; [3] := mkDiff ∅ ∅ ]};
     us_utxoDiffChildren := {[ [0] := [3]; [1] := [0]; [2] := [1] ]}; us_multisets := ∅ |}.
Definition sample_resolve : resolveState :=
  {| rs_stores := sample_chain; rs_statuses := ∅; rs_acceptanceData := ∅; rs_caches := {| vc_sigCache := None; vc_sigCacheECDSA := None |} |}.

Lemma sample_drawn d : toAdd d = ∅ ∨ toAdd d = PastUtxoProps.sample_set ∨ toAdd d = {[ other_outpoint := PastUtxoProps.sample_entry ]} →
  drawn (λ _ _, PastUtxoProps.sample_entry) (toAdd d).
Proof. unfold PastUtxoProps.sample_set. intros [->|[->| ->]] o e; [by rewrite lookup_empty|by intros [_ <-]%lookup_singleton_Some..]. Qed.

Lemma sample_coherent : coherent (λ _ _, PastUtxoProps.sample_entry) sample_chain.
Proof.
  split; [simpl; unfold PastUtxoProps.sample_set; by intros o e [_ <-]%lookup_singleton_Some|]. intros h d Hd. simpl in Hd.
  repeat (apply lookup_insert_Some in Hd as [[_ <-]|[_ Hd]]; [apply sample_drawn; simpl; tauto|]). apply lookup_singleton_Some in Hd as [_ <-]. apply sample_drawn. by left.
Qed.

(** A step of a chain in the sample, where the sets are concrete. *)
Lemma sample_step h c chain U d U' : us_utxoDiffChildren sample_chain !! h = Some c → past_set sample_chain c chain U → us_utxoDiffs sample_chain !! h = Some d →
  toRemove d ⊆ U → toAdd d ##ₘ U ∖ toRemove d → apply_diff U d = U' → past_set sample_chain h (h :: chain) U'.
Proof.
  intros Hc Hp Hd Hr Ha <-. apply past_step with c; try done. apply (drawn_same (λ _ _, PastUtxoProps.sample_entry)); apply sample_coherent || by eapply sample_coherent.
Qed.

Lemma sample_tip : past_set sample_chain [3] [[3]] PastUtxoProps.sample_set.
Proof.
  assert (apply_diff (us_virtualUTXO sample_chain) (mkDiff ∅ ∅) = PastUtxoProps.sample_set) as <- by reflexivity.
  apply past_base; [done|done|split; [apply map_empty_subseteq|apply map_disjoint_empty_l]|]. intros o e1 e2 _ He. simpl in He. by rewrite lookup_empty in He.
Qed.

Lemma sample_pending : past_set sample_chain [2] [[2]; [1]; [0]; [3]] PastUtxoProps.sample_set.
Proof.
  assert (past_set sample_chain [0] [[0]; [3]] ∅) as H0.
  { eapply sample_step; [done|exact sample_tip|done|simpl; done|apply map_disjoint_empty_l|vm_compute; reflexivity]. }
  assert (past_set sample_chain [1] [[1]; [0]; [3]] {[ other_outpoint := PastUtxoProps.sample_entry ]}) as H1.
  { eapply sample_step; [done|exact H0|done|apply map_empty_subseteq| |vm_compute; reflexivity].
    apply map_disjoint_spec. intros o x y _ [Hy _]%lookup_difference_Some. by rewrite lookup_empty in Hy. }
  eapply sample_step; [done|exact H1|done|simpl; done|simpl; apply map_disjoint_spec; intros o x y Hx Hy; vm_compute in Hy; done|vm_compute; reflexivity].
Qed.

(** Blocks 1 and 2 lead to the tip afterwards. *)
Lemma ReverseUTXODiffs_correct_witness :
  (match ReverseUTXODiffs [3] {| rd_SelectedParentHash := [2]; rd_SelectedParentUTXODiff := mkDiff ∅ ∅ |} sample_resolve with
   | (s, Ret _) => map (λ h, us_utxoDiffChildren (rs_stores s) !! h) [[0]; [1]; [2]; [3]] | _ => [] end) = [Some [3]; Some [2]; Some [3]; None] ∧
  ∃ s', ReverseUTXODiffs [3] {| rd_SelectedParentHash := [2]; rd_SelectedParentUTXODiff := mkDiff ∅ ∅ |} sample_resolve = (s', Ret ()) ∧
    only_diffs [[2]; [1]] sample_resolve s' ∧
    (∀ b, b ∈ [[2]; [1]] → ∃ path U, past_set (rs_stores s') b (path ++ [[3]]) U) ∧
    ∀ h chain U, past_set sample_chain h chain U → ∃ chain', past_set (rs_stores s') h chain' U.
Proof.
  split; [vm_compute; reflexivity|].
  apply (ReverseUTXODiffs_correct (λ _ _, PastUtxoProps.sample_entry) sample_resolve [3] [2] [0] [3] [[1]] [] [[3]] PastUtxoProps.sample_set PastUtxoProps.sample_set
    (chained [1]) (mkDiff ∅ ∅)).
  - exact sample_coherent.
  - exact sample_tip.
  - exact sample_pending.
  - vm_compute. reflexivity.
  - split; [reflexivity|]. exists (chained [0]). split; [vm_compute; reflexivity|]. split; [reflexivity|]. exists emptyData. split; [vm_compute; reflexivity|discriminate].
  - intros b Hb. rewrite list_elem_of_singleton. intros ->. apply elem_of_cons in Hb as [?|Hb]; [done|]. by apply list_elem_of_singleton in Hb.
  - split; [apply map_empty_subseteq|apply map_disjoint_empty_l].
  - vm_compute. reflexivity.
Defined.
End DiffChainProps.
