(* ===== verification/ResolveSpec.v ===== *)
(** * Resolving a chain of blocks

    [resolveBlockStatus] from end to end: it verifies the pending blocks of a selected chain from past to present up to the first
    one that fails, and leaves a store in which every UTXO set that could be restored still can, and those of
    the blocks it found valid as well. *)
From S2P Require Import Prelude Externalapi UtxoDiff ScriptNum ScriptStack OpcodeTable Script Hashing SigCache Opcode Engine.
From S2P Require Import OpcodeSafety EngineSafety SigSpec CacheTransparency.
From S2P Require Import Interval ReachabilityData Reachability ReachabilityTree ReachabilityAdd DagTopology Block Merkle Ghostdag GhostdagOrder GhostdagColour Window DifficultyManager Traversal HeaderValidation TransactionValidator TransactionSafety PastUtxo UtxoAcceptance PastUtxoSpec Coinbase VerifyUtxo Supply ResolveStatus UtxoDiffChain.
Import TransactionHashing SigCache Opcode Ghostdag Traversal PastMedianTime Header Merkle HeaderValidation TransactionValidator PastUtxo VerifyUtxo ResolveStatus.
Local Open Scope Z_scope.
Local Open Scope prog_scope.

Abbreviation hash := (list Z) (only parsing).

Section Resolve.
Context `{Libs} `{!LibsOk} `{MuHash} `{!MuHashOk}.
Variables (csm : consensusStateManager) (cbm : coinbaseManager) (dag_parents : list Z → list (list Z)) (k : Z).
Variable entryAt : DomainOutpoint → Z → utxoEntry.
(** What a resolution does not change: the DAG, the blocks and the virtual's UTXO set. *)
Variable st : utxoStores.
Abbreviation B := (us_virtualUTXO st).
Abbreviation v := (csm_transactionValidator csm).
Abbreviation cs := (us_consensus st).
Abbreviation gd := (ghostdag_of (us_consensus st)).
Abbreviation all_data ads := (concat (map ba_TransactionAcceptanceData ads)) (only parsing).
Abbreviation all_txs blocks := (concat (map bk_Transactions blocks)) (only parsing).

Definition stores_of (D : gmap hash diff) (C : gmap hash hash) (M : gmap hash muhash) : utxoStores :=
  {| us_consensus := us_consensus st; us_blocks := us_blocks st; us_virtualUTXO := us_virtualUTXO st;
     us_utxoDiffs := D; us_utxoDiffChildren := C; us_multisets := M |}.

(** A block of a merge set, stored under its hash and with a coinbase payload that can be read. *)
Definition merged_block (h : hash) (block : DomainBlock) : Prop :=
  BlockHash block = h ∧ is_Some (daa_scores (cs_daa cs) !! h) ∧
  ∃ tx txs s x, bk_Transactions block = tx :: txs ∧ Coinbase.ExtractCoinbaseDataAndBlueScore cbm tx = Ret (s, x) ∧ spk_wf (cd_ScriptPublicKey x).

(** A block over the UTXO set [U0] of its selected parent [p] that passed its checks and whose merge set did; [next] holds of the set that
    acceptance leads to. *)
Inductive resolvable (b p : hash) (U0 : utxoCollection) (next : utxoCollection → Prop) : Prop :=
  | Resolvable (g : BlockGHOSTDAGData) (parent : DomainBlock) (blocks : list DomainBlock) (Hist : gmap (list Z) (list DomainOutpoint))
      (block : DomainBlock) (coinbase : DomainTransaction) (txs : list DomainTransaction) (added : list hash) :
      gd !! b = Some g → selectedParent g = Some p →
      Blocks st (mergeSetBlues g ++ mergeSetReds g) = Ret (parent :: blocks) → merge_ok csm st b Hist U0 parent blocks →
      us_blocks st !! b = Some block → BlockHash block = b → bk_Transactions block = coinbase :: txs →
      Forall (λ tx, IsCoinBase tx = false) txs → Forall (block_tx csm st b) (coinbase :: txs) →
      tx_wf coinbase → are_bytes (tx_Payload coinbase) → zlen (tx_Payload coinbase) < 2 ^ 63 →
      daa_addedBlocks (cs_daa cs) !! b = Some added → zlen (mergeSetBlues g ++ mergeSetReds g) < 2 ^ 32 →
      Forall2 merged_block (mergeSetBlues g ++ mergeSetReds g) (parent :: blocks) →
      subsidies cbm cs (list_to_set added) (mergeSetBlues g ++ mergeSetReds g) + MaxSompi * zlen (all_txs (parent :: blocks)) < 2 ^ 64 →
      (∀ tx o e, tx ∈ all_txs (parent :: blocks) → (o, e) ∈ created (fst (TransactionID tx)) (IsCoinBase tx) (daaOf cs b) 0 (tx_Outputs tx) →
        e = entryAt o (ue_blockDAAScore e)) →
      (∀ m ads U, accepted_set csm st b m U0 parent blocks ads U → next U) →
      resolvable b p U0 next.

(** What verification of a block over [U0] establishes, where its own past has the set [U]. *)
Inductive verified (b : hash) (U0 U : utxoCollection) : Prop :=
  | Verified (g : BlockGHOSTDAGData) (parent : DomainBlock) (blocks : list DomainBlock) (block : DomainBlock)
      (coinbase : DomainTransaction) (txs : list DomainTransaction) (added : list hash) (m : Z) (ads : list BlockAcceptanceData) :
      gd !! b = Some g → Blocks st (mergeSetBlues g ++ mergeSetReds g) = Ret (parent :: blocks) → us_blocks st !! b = Some block →
      bk_Transactions block = coinbase :: txs → daa_addedBlocks (cs_daa cs) !! b = Some added →
      accepted_set csm st b m U0 parent blocks ads U →
      hd_utxoCommitment (bk_Header block) = ms_Hash (ms_of U) →
      calculateAcceptedIDMerkleRoot ads = Ret (Some (hd_acceptedIDMerkleRoot (bk_Header block))) →
      (total_out coinbase = rewards cbm cs (list_to_set added) (mergeSetBlues g ++ mergeSetReds g) ads ∧ tx_Inputs coinbase = [] ∨ tx_hash_broken) →
      Forall (spends_validly csm st block m U) txs →
      verified b U0 U.

(** The blocks [bs], from past to present, over the block [p] with the set [U0]. *)
Fixpoint chain_ok (p : hash) (U0 : utxoCollection) (bs : list hash) : Prop :=
  match bs with [] => True | b :: bs => resolvable b p U0 (λ U, chain_ok b U bs) end.

Inductive verified_chain : utxoCollection → list hash → list utxoCollection → Prop :=
  | verified_nil U0 : verified_chain U0 [] []
  | verified_cons U0 b U bs Us : verified b U0 U → verified_chain U bs Us → verified_chain U0 (b :: bs) (U :: Us).

Hypothesis Hcontext : context_ok v cs dag_parents k.
Hypothesis Hbase : 0 ≤ cb_baseSubsidy cbm.
Hypothesis Hmax : cb_coinbasePayloadScriptPublicKeyMaxLength cbm ≤ 244.

(** ** What acceptance says about the merged blocks *)
Lemma accepted_blocks b m U0 parent blocks ads U : accepted_set csm st b m U0 parent blocks ads U →
  Forall2 (λ block d, ∃ isSel, block_data isSel block d) (parent :: blocks) ads.
Proof using Type.
  intros (_ & pd & rest & -> & Hpd & Hrest). constructor; [by eexists|]. eapply Forall2_impl; [exact Hrest|]. intros block d Hd. by eexists.
Qed.

Lemma accepted_txs blocks ads : Forall2 (λ block d, ∃ isSel, block_data isSel block d) blocks ads →
  Forall2 (λ tx d, same_tx tx (ta_Transaction d)) (all_txs blocks) (all_data ads).
Proof using Type.
  induction 1 as [|block d blocks ads (isSel & _ & Hd) Hds IH]; [constructor|]. cbn [map concat]. apply Forall2_app; [|done].
  eapply Forall2_impl; [exact Hd|]. by intros tx t [? _].
Qed.

Lemma fees_bound ads : (∀ d, d ∈ ads → ta_IsAccepted d = true → ta_Fee d ≤ MaxSompi) → fees ads ≤ MaxSompi * zlen ads.
Proof using Type.
  intros Hf. induction ads as [|d ads IH]; [done|]. change (d :: ads) with ([d] ++ ads). rewrite fees_app, zlen_app. assert (fees ads ≤ MaxSompi * zlen ads) by (apply IH; intros; apply Hf; [by right|done]).
  assert (fees [d] ≤ MaxSompi); [|change (zlen [d]) with 1; lia]. unfold fees, sumZ. simpl. specialize (Hf d ltac:(by left)). destruct (ta_IsAccepted d); [specialize (Hf eq_refl); lia|by vm_compute].
Qed.

Lemma accepted_merged b m U0 parent blocks ads U hs added : accepted_set csm st b m U0 parent blocks ads U →
  Forall (block_tx csm st b) (all_txs (parent :: blocks)) → Forall2 merged_block hs (parent :: blocks) →
  subsidies cbm cs added hs + MaxSompi * zlen (all_txs (parent :: blocks)) < 2 ^ 64 →
  Forall2 (merged_ok cbm cs) hs ads ∧ rewards cbm cs added hs ads < 2 ^ 64.
Proof using Type.
  intros Hacc Hb Hm Hbound. pose proof (accepted_blocks _ _ _ _ _ _ _ Hacc) as Hblocks. pose proof (accepted_txs _ _ Hblocks) as Htxs.
  assert (∀ d, d ∈ all_data ads → ta_IsAccepted d = true → 0 ≤ ta_Fee d ≤ MaxSompi) as Hfees.
  { intros d Hd Ha. apply (accepts_fees csm st b m U0 (all_data ads) U (proj1 Hacc) d Hd Ha). apply list_elem_of_lookup_1 in Hd as [i Hi].
    destruct (Forall2_lookup_r _ _ _ _ _ Htxs Hi) as (tx & Htx & (_ & _ & Ho & _)). unfold total_out. rewrite Ho. rewrite Forall_forall in Hb.
    apply sumZ_nonneg. intros y (o & -> & Hin)%list_elem_of_fmap. apply (bt_values _ _ _ _ (Hb tx ltac:(by eapply list_elem_of_lookup_2)) o Hin). }
  assert (Forall2 (merged_ok cbm cs) hs ads) as Hok.
  { apply Forall2_same_length_lookup. split; [by rewrite (Forall2_length _ _ _ Hm), (Forall2_length _ _ _ Hblocks)|]. intros i h d Hh Hd.
    destruct (Forall2_lookup_r _ _ _ _ _ Hblocks Hd) as (block & Hblock & isSel & Hhash & Hdata).
    destruct (Forall2_lookup_lr _ _ _ _ _ _ Hm Hh Hblock) as (Hbh & Hscore & tx & txs & sc & x & Htx & Hx & Hspk). split; [by rewrite Hhash|done| |].
    - intros t Ht Ha. apply Hfees; [|done]. apply list_elem_of_In, in_concat. exists (ba_TransactionAcceptanceData d). split; [|by apply list_elem_of_In].
      apply list_elem_of_In, list_elem_of_fmap_2. by eapply list_elem_of_lookup_2.
    - rewrite Htx in Hdata. apply Forall2_cons_inv_l in Hdata as (t & ts & [(_ & _ & _ & _ & Hpay) _] & _ & ->). exists t, ts, sc, x. split_and!; [done| |done].
      rewrite <- Hx. unfold Coinbase.ExtractCoinbaseDataAndBlueScore. by rewrite Hpay. }
  split; [done|]. pose proof (rewards_bounded cbm cs added hs ads Hok). pose proof (fees_bound (all_data ads) ltac:(intros; by apply Hfees)) as Hf.
  assert (zlen (all_data ads) = zlen (all_txs (parent :: blocks))) as E by (unfold zlen; f_equal; symmetry; by eapply Forall2_length). rewrite E in Hf. lia.
Qed.

Lemma accepted_drawn b m U0 parent blocks ads U : accepted_set csm st b m U0 parent blocks ads U → drawn entryAt U0 →
  (∀ tx o e, tx ∈ all_txs (parent :: blocks) → (o, e) ∈ created (fst (TransactionID tx)) (IsCoinBase tx) (daaOf cs b) 0 (tx_Outputs tx) →
    e = entryAt o (ue_blockDAAScore e)) → drawn entryAt U.
Proof using Type.
  intros Hacc HD Hnew o e He. pose proof (accepted_txs _ _ (accepted_blocks _ _ _ _ _ _ _ Hacc)) as Htxs.
  destruct (accepts_entries csm st b m U0 (all_data ads) U (proj1 Hacc) o e He) as [Ho|(d & Hd & Ho)]; [by apply HD|].
  apply list_elem_of_lookup_1 in Hd as [i Hi]. destruct (Forall2_lookup_r _ _ _ _ _ Htxs Hi) as (tx & Htx & Hsame).
  rewrite (same_tx_outputs st b _ _ Hsame) in Ho. eapply Hnew; [by eapply list_elem_of_lookup_2|done].
Qed.

(** ** Acceptance and verification of one block *)

(** The state with other acceptance data and caches. *)
Definition with_data (data : gmap hash (list BlockAcceptanceData)) (caches : validatorCaches) (s : resolveState) : resolveState :=
  {| rs_stores := rs_stores s; rs_statuses := rs_statuses s; rs_acceptanceData := data; rs_caches := caches |}.

Lemma calculatePast_spec s D C M b g p ms Hist U0 d0 parent blocks : rs_stores s = stores_of D C M → vcaches_ok (rs_caches s) →
  gd !! b = Some g → selectedParent g = Some p → Blocks st (mergeSetBlues g ++ mergeSetReds g) = Ret (parent :: blocks) →
  merge_ok csm st b Hist U0 parent blocks → M !! p = Some ms → ms_equiv ms (ms_of U0) →
  applicable B d0 → canonical d0 → apply_diff B d0 = U0 →
  ∃ m caches d ads ms', calculatePast csm b d0 s = (with_data (rs_acceptanceData s) caches s, Ret (d, ads, ms')) ∧ vcaches_ok caches ∧
    applicable B d ∧ canonical d ∧ utxo_typed (apply_diff B d) ∧ accepted_set csm st b m U0 parent blocks ads (apply_diff B d) ∧
    ms_equiv ms' (ms_of (apply_diff B d)) ∧ PastMedianTime (tv_pastMedianTimeManager v) gd (cs_headers cs) b = Ret m.
Proof using All.
  intros Hs Hc Hg Hp Hb Hm Hms Heq Ha Hcan HU0. assert (b ∈ dom gd) as Hdom by (apply elem_of_dom; by eexists).
  set (a0 := {| ac_diff := mkDiff ∅ ∅; ac_sigCache := vc_sigCache (rs_caches s); ac_sigCacheECDSA := vc_sigCacheECDSA (rs_caches s) |}).
  destruct (applyMergeSetBlocks_spec csm st dag_parents k b Hist U0 d0 g parent blocks a0 Hcontext Hdom Hb Hm Ha Hcan HU0 Hc)
    as (m & a & ads & Hmed & Hrun & (Hist' & Hok) & Hacc).
  destruct (addBlocks_multiset csm st b m ads U0 (apply_diff B (ac_diff a)) ms (proj1 Hacc)) as (ms' & Hadd & Hms');
    [eapply accepted_coinbase_first; [apply (mg_shape _ _ _ _ _ _ _ Hm)|done]|done|].
  exists m, {| vc_sigCache := ac_sigCache a; vc_sigCacheECDSA := ac_sigCacheECDSA a |}, (ac_diff a), ads, ms'.
  split; [|split_and!; try done; [split; [apply (ao_sigCache _ _ _ Hok)|apply (ao_sigCacheECDSA _ _ _ Hok)]|apply (ao_applicable _ _ _ Hok)|apply (ao_canonical _ _ _ Hok)|
    apply (ao_typed _ _ _ Hok)]].
  unfold calculatePast. rewrite Hs. fold a0. unfold calculatePastUTXOAndAcceptanceDataWithSelectedParentUTXO.
  change (us_consensus (stores_of D C M)) with cs. change (applyMergeSetBlocks csm (stores_of D C M)) with (applyMergeSetBlocks csm st).
  rewrite (bind_ret_l _ _ a0 a0 g) by (unfold lift_outcome, Get; by rewrite Hg).
  rewrite (bind_ret_l _ _ a0 a0 (daaOf cs b)) by (unfold lift_outcome; by rewrite (DAAScore_known v cs dag_parents k Hcontext b Hdom)).
  rewrite (bind_ret_l _ _ a0 a ads Hrun). rewrite (bind_ret_l _ _ a a ms'); [by rewrite <- Hs|].
  unfold calculateMultiset, lift_outcome. rewrite Hp. unfold Get. simpl. rewrite Hms. cbn [fromStore fromTx obind]. by rewrite Hadd.
Qed.
Lemma verifyBlock_spec s D C M b g block added ads d U ms coinbase txs : rs_stores s = stores_of D C M → vcaches_ok (rs_caches s) →
  BlockHash block = b → merge_data_ok cbm cs (rs_acceptanceData s) b g added ads → bk_Transactions block = coinbase :: txs →
  Forall (λ tx, IsCoinBase tx = false) txs → Forall (block_tx csm st b) (coinbase :: txs) → tx_wf coinbase → are_bytes (tx_Payload coinbase) →
  zlen (tx_Payload coinbase) < 2 ^ 63 → applicable B d → apply_diff B d = U → utxo_typed U →
  ∃ m caches isValid, verifyBlock csm cbm block b d ads ms s = (with_data (rs_acceptanceData s) caches s, Ret isValid) ∧ vcaches_ok caches ∧
    PastMedianTime (tv_pastMedianTimeManager v) gd (cs_headers cs) b = Ret m ∧
    (isValid = true → hd_utxoCommitment (bk_Header block) = ms_Hash ms ∧
      calculateAcceptedIDMerkleRoot ads = Ret (Some (hd_acceptedIDMerkleRoot (bk_Header block))) ∧
      (total_out coinbase = rewards cbm cs (list_to_set added) (mergeSetBlues g ++ mergeSetReds g) ads ∧ tx_Inputs coinbase = [] ∨ tx_hash_broken) ∧
      Forall (spends_validly csm st block m U) txs).
Proof using All.
  intros Hs Hc <- Hdata Htxs Hcbs Hb Hwf Hbytes Hlen Ha HU Ht.
  assert (BlockHash block ∈ dom gd) as Hdom by (apply elem_of_dom; exists g; apply (md_ghostdag _ _ _ _ _ _ _ Hdata)).
  destruct (verifyUTXO_spec csm cbm st (rs_acceptanceData s) dag_parents k block Hcontext Hdom Hbase Hmax g added ads Hdata d U ms coinbase txs (rs_caches s)
    Htxs Hcbs Hb Hwf Hbytes Hlen Ha HU Ht Hc) as (m & Hm & Hcaches & Hrules & HP).
  exists m, (fst (verifyUTXO csm cbm st (rs_acceptanceData s) block (BlockHash block) d ads ms (rs_caches s))).
  unfold verifyBlock. rewrite Hs. change (verifyUTXO csm cbm (stores_of D C M)) with (verifyUTXO csm cbm st). unfold with_data. rewrite Hs.
  destruct (verifyUTXO csm cbm st _ _ _ _ _ _ _) as [caches [[]|e|c]]; cbn [fst snd] in *; [exists true|rewrite Hrules; exists false|done]; split_and!; try done; auto.
Qed.

Lemma resolveSingle_spec s D C M b p ms U0 d0 tip next : rs_stores s = stores_of D C M → vcaches_ok (rs_caches s) → csm_genesisHash csm ≠ b →
  resolvable b p U0 next → drawn entryAt U0 → M !! p = Some ms → ms_equiv ms (ms_of U0) → applicable B d0 → canonical d0 → apply_diff B d0 = U0 →
  ∃ s1, rs_statuses s1 = rs_statuses s ∧ vcaches_ok (rs_caches s1) ∧
    (resolveSingleBlockStatus csm cbm b p (Some d0) tip s = (s1, Ret (StatusDisqualifiedFromChain, None)) ∧ rs_stores s1 = rs_stores s ∨
     ∃ d ms', let U := apply_diff B d in rs_stores s1 = withMultiset b ms' (rs_stores s) ∧ applicable B d ∧ canonical d ∧ ms_equiv ms' (ms_of U) ∧
       verified b U0 U ∧ drawn entryAt U ∧ next U ∧
       resolveSingleBlockStatus csm cbm b p (Some d0) tip s = (stageValidBlock b p d0 d tip ;;* ret (StatusUTXOValid, Some d)) s1).
Proof using All.
  intros Hs Hc Hgen [g parent blocks Hist block coinbase txs added Hg Hp Hb Hm Hblock Hhash Htxs Hcbs Hbt Hwf Hbytes Hlen Hadded Hsmall Hmb Hbd Hout Hnext] HD0 Hms Heq Ha Hcan HU0.
  destruct (calculatePast_spec s D C M b g p ms Hist U0 d0 parent blocks Hs Hc Hg Hp Hb Hm Hms Heq Ha Hcan HU0)
    as (m & caches & d & ads & ms' & Hcalc & Hcaches & Had & Hcand & Ht & Hacc & Heq' & Hmed).
  pose proof (Hnext m ads _ Hacc) as HU. destruct (accepted_merged _ _ _ _ _ _ _ _ _ Hacc (mg_txs _ _ _ _ _ _ _ Hm) Hmb Hbd) as [Hmerged Hbound].
  pose proof (accepted_drawn _ _ _ _ _ _ _ Hacc HD0 Hout) as HD.
  set (s1 := with_data (<[b := ads]> (rs_acceptanceData s)) caches s).
  destruct (verifyBlock_spec s1 D C M b g block added ads d (apply_diff B d) ms' coinbase txs) as (m' & caches' & isValid & Hver & Hcaches' & Hmed' & Hvalid); try done.
  { split; try done. simpl. by rewrite lookup_insert_eq. }
  rewrite Hmed in Hmed'. injection Hmed' as <-.
  set (s2 := with_data (rs_acceptanceData s1) caches' s1) in *.
  assert (∀ K, resolveSingleBlockStatus csm cbm b p (Some d0) tip s = K → (if negb isValid then ret (StatusDisqualifiedFromChain, None)
    else modify (put_stores (withMultiset b ms')) ;;* if bool_decide (csm_genesisHash csm = b) then stageDiff b d None ;;* ret (StatusUTXOValid, None)
      else stageValidBlock b p d0 d tip ;;* ret (StatusUTXOValid, Some d)) s2 = K) as Hrun.
  { intros K <-. unfold resolveSingleBlockStatus. cbn [deref]. rewrite (bind_ret_l _ _ s s d0) by done. rewrite (bind_ret_l _ _ _ _ _ Hcalc).
    rewrite (bind_ret_l _ _ _ s1 ()) by done. rewrite (bind_ret_l _ _ s1 s1 s1) by done.
    rewrite (bind_ret_l _ _ s1 s1 block) by (apply found_ret; simpl; by rewrite Hs). by rewrite (bind_ret_l _ _ _ _ _ Hver). }
  specialize (Hrun _ eq_refl). rewrite <- Hrun. destruct isValid; cbn [negb].
  - exists (put_stores (withMultiset b ms') s2). split; [done|]. split; [done|]. right. exists d, ms'. destruct (Hvalid eq_refl) as (Hcommit & Hroot & Hcoin & Hsp).
    cbv zeta. split_and!; try done.
    + eapply Verified; try done. by rewrite Hcommit, Heq'.
    + rewrite (bind_ret_l _ _ s2 (put_stores (withMultiset b ms') s2) ()) by done. by rewrite bool_decide_eq_false_2 by done.
  - exists s2. split; [done|]. split; [done|]. by left.
Qed.

(** ** Staging a valid block *)
Definition based (s : resolveState) : Prop :=
  us_consensus (rs_stores s) = us_consensus st ∧ us_blocks (rs_stores s) = us_blocks st ∧ us_virtualUTXO (rs_stores s) = us_virtualUTXO st.

Lemma based_stores s : based s → rs_stores s = stores_of (us_utxoDiffs (rs_stores s)) (us_utxoDiffChildren (rs_stores s)) (us_multisets (rs_stores s)).
Proof using Type. unfold stores_of. intros (<- & <- & <-). by destruct (rs_stores s). Qed.

Definition restorable (s : resolveState) (b : hash) (U : utxoCollection) : Prop := ∃ chain, past_set (rs_stores s) b chain U.

(** Only the stores differ, and no UTXO set is lost. *)
Definition staged (s s' : resolveState) : Prop :=
  based s' ∧ rs_statuses s' = rs_statuses s ∧ rs_caches s' = rs_caches s ∧ us_multisets (rs_stores s') = us_multisets (rs_stores s) ∧ keeps (rs_stores s) (rs_stores s').

Hypothesis Hdrawn : drawn entryAt B.

Lemma DiffFrom_spec s d1 d2 U1 U2 : applicable B d1 → applicable B d2 → canonical d1 → canonical d2 → apply_diff B d1 = U1 → apply_diff B d2 = U2 →
  drawn entryAt U1 → drawn entryAt U2 →
  ∃ d, DiffFrom d1 d2 s = (s, Ret d) ∧ applicable U1 d ∧ apply_diff U1 d = U2 ∧ same_txout B (toAdd d).
Proof using Hdrawn.
  intros A1 A2 C1 C2 <- <- D1 D2. destruct (from_correct B d1 d2 A1 A2 C1 C2) as (d & Hd & Ha & _ & Hset & _).
  { apply (drawn_same entryAt); by eapply drawn_toAdd. }
  exists d. split; [unfold DiffFrom, accepting, lift_outcome; by rewrite Hd|]. split_and!; [done|done|]. apply (drawn_same entryAt); [done|].
  eapply drawn_toAdd. by rewrite Hset.
Qed.

Variables (gv : BlockGHOSTDAGData) (old : hash).
Hypothesis Hvirtual : gd !! VirtualBlockHash = Some gv.
Hypothesis Hold : selectedParent gv = Some old.

Lemma selectedTip_ret s : based s → selectedTip s = (s, Ret (Some old)).
Proof using Hvirtual Hold.
  intros (Hcs & _). unfold selectedTip. rewrite (bind_ret_l _ _ s s gv); [by rewrite <- Hold|]. apply ghostdagOfBlock_ret. by rewrite Hcs.
Qed.

Lemma stage_below s b p d0 d U0 U : based s → restorable s p U0 → us_utxoDiffs (rs_stores s) !! b = None →
  applicable B d0 → canonical d0 → apply_diff B d0 = U0 → applicable B d → canonical d → apply_diff B d = U → drawn entryAt U0 → drawn entryAt U →
  ∃ s', stageValidBlock b p d0 d false s = (s', Ret ()) ∧ staged s s' ∧ restorable s' b U ∧
    (∀ x, x ≠ b → us_utxoDiffs (rs_stores s') !! x = us_utxoDiffs (rs_stores s) !! x ∧ us_utxoDiffChildren (rs_stores s') !! x = us_utxoDiffChildren (rs_stores s) !! x).
Proof using Hdrawn Hvirtual Hold.
  intros Hs [chain Hp] Hb A0 C0 E0 A1 C1 E1 D0 D1. destruct (DiffFrom_spec s d0 d U0 U) as (dd & Hdd & Ha & Hset & Hsame); try done.
  exists (put_stores (withDiffOf b dd (Some p)) s). split; [|split; [|split]].
  - unfold stageValidBlock. rewrite (bind_ret_l _ _ s s (Some old)) by (by apply selectedTip_ret). by rewrite (bind_ret_l _ _ s s dd Hdd).
  - split_and!; try done; [apply Hs..|]. by apply keeps_fresh.
  - exists (b :: chain). rewrite <- Hset. apply past_step with p; simpl; rewrite ?lookup_insert_eq; try done; [by apply past_set_fresh|]. by destruct Hs as (_ & _ & ->).
  - intros x Hx. simpl. by rewrite !lookup_insert_ne by done.
Qed.

Lemma isNewSelectedTip_spec s b : based s → b ∈ dom gd → old ∈ dom gd → ∃ isNew, isNewSelectedTip b old s = (s, Ret isNew).
Proof using Type.
  intros (Hcs & _) Hb Ho. unfold isNewSelectedTip. rewrite (bind_ret_l _ _ s s s) by done. rewrite Hcs. unfold ChooseSelectedParent. rewrite Get_known by done. cbn [obind].
  destruct (chooseLoop_spec gd [b; old] b) as (best & -> & _); [by intros x [->|[->|[]%elem_of_nil]%elem_of_cons]%elem_of_cons|]. exists (bool_decide (b = best)). by rewrite (bind_ret_l _ _ s s best).
Qed.

Lemma stage_tip s b p d0 d U UO : based s → restorable s old UO → us_utxoDiffs (rs_stores s) !! b = None → us_utxoDiffChildren (rs_stores s) !! b = None →
  b ∈ dom gd → old ∈ dom gd → applicable B d → canonical d → apply_diff B d = U → drawn entryAt UO → drawn entryAt U →
  ∃ s', stageValidBlock b p d0 d true s = (s', Ret ()) ∧ staged s s' ∧ restorable s' b U.
Proof using Hdrawn Hvirtual Hold.
  intros Hs [chainO HO] Hb Hbc Hbdom Hodom A1 C1 E1 DO D1. pose proof (proj2 (proj2 Hs)) as HB.
  destruct (restorePastUTXO_spec (rs_stores s) old chainO UO HO) as (dO & Hrest & AO & CO & EO). rewrite HB in AO, EO.
  destruct (isNewSelectedTip_spec s b Hs Hbdom Hodom) as (isNew & Hnew).
  assert (b ≠ old) as Hne by (intros ->; inversion HO; congruence).
  unfold stageValidBlock. rewrite (bind_ret_l _ _ s s (Some old)) by (by apply selectedTip_ret). cbn [deref]. rewrite (bind_ret_l _ _ s s old) by done.
  rewrite (bind_ret_l _ _ s s s) by done. rewrite (bind_ret_l _ _ s s dO) by (unfold accepting, lift_outcome; by rewrite Hrest). rewrite (bind_ret_l _ _ s s isNew Hnew).
  destruct isNew.
  - destruct (DiffFrom_spec s d dO U UO) as (dd & Hdd & Ha & Hset & Hsame); try done. rewrite (bind_ret_l _ _ s s dd Hdd).
    set (s1 := put_stores (withDiffOf old dd (Some b)) s). set (s2 := put_stores (withDiffOf b d None) s1).
    assert (past_set (withDiffOf b d None (rs_stores s)) b [b] U) as Hbase1.
    { rewrite <- E1, <- HB. apply (past_base (withDiffOf b d None (rs_stores s))); simpl; [done|by rewrite lookup_insert_eq|by rewrite HB|].
      rewrite HB. apply (drawn_same entryAt); [done|]. eapply drawn_toAdd. by rewrite E1. }
    destruct (past_set_redirect (withDiffOf b d None (rs_stores s)) old dd b chainO UO [b] U) as [_ Hk]; try done.
    { by apply past_set_fresh. }
    { by rewrite list_elem_of_singleton. }
    { simpl. by rewrite HB. }
    assert (withDiffOf old dd (Some b) (withDiffOf b d None (rs_stores s)) = rs_stores s2) as Hs2.
    { simpl. unfold withDiffOf. simpl. f_equal. by apply insert_insert_ne. }
    rewrite Hs2 in Hk. exists s2. split; [by rewrite (bind_ret_l _ _ s s1 ())|]. split; [|by eapply Hk].
    split_and!; try done; [apply Hs..|]. transitivity (withDiffOf b d None (rs_stores s)); [by apply keeps_fresh|done].
  - destruct (DiffFrom_spec s dO d UO U) as (dd & Hdd & Ha & Hset & Hsame); try done. rewrite (bind_ret_l _ _ s s dd Hdd).
    exists (put_stores (withDiffOf b dd (Some old)) s). split; [done|]. split; [split_and!; try done; [apply Hs..|]; by apply keeps_fresh|].
    exists (b :: chainO). rewrite <- Hset. apply past_step with old; simpl; rewrite ?lookup_insert_eq; try done; [by apply past_set_fresh|]. by rewrite HB.
Qed.
(** ** The chain *)
Definition statuses_after (valid invalid : list hash) (s s' : resolveState) : Prop :=
  ∀ x, rs_statuses s' !! x = if decide (x ∈ valid) then Some StatusUTXOValid
                             else if decide (x ∈ invalid) then Some StatusDisqualifiedFromChain else rs_statuses s !! x.

(** The set [d] is that of the block [b]. *)
Definition set_of_block (s : resolveState) (b : hash) (d : diff) : Prop :=
  applicable B d ∧ canonical d ∧ drawn entryAt (apply_diff B d) ∧ restorable s b (apply_diff B d).

(** The blocks [bs] over [U0] are resolved: they are valid up to the first one that fails. *)
Record resolved (bs : list hash) (U0 : utxoCollection) (s s' : resolveState) (status : BlockStatus) (valid invalid : list hash) (Us : list utxoCollection) : Prop := {
  rv_split : bs = valid ++ invalid;
  rv_verified : verified_chain U0 valid Us;
  rv_restorable : Forall2 (restorable s') valid Us;
  rv_statuses : statuses_after valid invalid s s';
  rv_status : status = match invalid with [] => StatusUTXOValid | _ => StatusDisqualifiedFromChain end;
  rv_based : based s';
  rv_caches : vcaches_ok (rs_caches s');
  rv_keeps : keeps (rs_stores s) (rs_stores s')
}.

(** Disqualification spreads to the descendants. *)
Lemma disqualifyAll_spec bs : ∀ s l, rl_selectedParentStatus l = StatusDisqualifiedFromChain →
  ∃ s' l', resolveAll csm cbm bs l s = (s', Ret l') ∧ rl_selectedParentStatus l' = StatusDisqualifiedFromChain ∧ rs_stores s' = rs_stores s ∧
    rs_caches s' = rs_caches s ∧ statuses_after [] bs s s'.
Proof using Type.
  induction bs as [|b bs IH]; intros s l Hl; cbn [resolveAll].
  { by exists s, l. }
  unfold resolveNext. rewrite Hl, bool_decide_eq_true_2 by done. set (next := {| rl_selectedParentStatus := StatusDisqualifiedFromChain |}).
  set (s1 := {| rs_stores := rs_stores s; rs_statuses := <[b := StatusDisqualifiedFromChain]> (rs_statuses s); rs_acceptanceData := rs_acceptanceData s; rs_caches := rs_caches s |}).
  rewrite (bind_ret_l _ _ s s1 next) by done. destruct (IH s1 next eq_refl) as (s' & l' & Hrun & Hst & Hstores & Hcaches & Hstatus).
  exists s', l'. split_and!; try done. intros x. rewrite (Hstatus x), !(decide_False (P := x ∈ [])) by (by intros ?%elem_of_nil). simpl.
  destruct (decide (x = b)) as [->|Hne].
  - rewrite (decide_True (P := b ∈ b :: bs)) by (by left). case_decide; [done|]. by rewrite lookup_insert_eq.
  - rewrite lookup_insert_ne by done. rewrite (decide_ext (x ∈ b :: bs) (x ∈ bs)); [done|]. rewrite elem_of_cons. tauto.
Qed.

Lemma statuses_after_cons b valid invalid s s1 s' : b ∉ invalid → rs_statuses s1 = <[b := StatusUTXOValid]> (rs_statuses s) →
  statuses_after valid invalid s1 s' → statuses_after (b :: valid) invalid s s'.
Proof using Type.
  intros Hb Hs1 Hst x. rewrite (Hst x), Hs1. destruct (decide (x = b)) as [->|Hne].
  - rewrite (decide_True (P := b ∈ b :: valid)) by (by left). rewrite (decide_False (P := b ∈ invalid)) by done. case_decide; [done|]. by rewrite lookup_insert_eq.
  - rewrite lookup_insert_ne by done. rewrite (decide_ext (x ∈ b :: valid) (x ∈ valid)); [done|]. rewrite elem_of_cons. tauto.
Qed.

Lemma restorable_keeps s s' b U : keeps (rs_stores s) (rs_stores s') → restorable s b U → restorable s' b U.
Proof using Type. intros Hk [chain Hp]. by apply (Hk b chain). Qed.
Lemma set_of_block_keeps s s' b d : keeps (rs_stores s) (rs_stores s') → set_of_block s b d → set_of_block s' b d.
Proof using Type. intros Hk (? & ? & ? & Hr). split_and!; try done. by apply (restorable_keeps s). Qed.

(** The blocks that are left: they have no diff, and none is the genesis block. *)
Definition unresolved (s : resolveState) (b : hash) : Prop :=
  csm_genesisHash csm ≠ b ∧ us_utxoDiffs (rs_stores s) !! b = None ∧ us_utxoDiffChildren (rs_stores s) !! b = None.

(** The block before the last resolved one and the last one, when all were valid. *)
Definition ends_with (s : resolveState) (l : resolveLoop) (b : hash) : Prop :=
  ∃ d q dq, rl_previousBlockUTXOSet l = Some d ∧ set_of_block s b d ∧ rl_oneBeforeHash l = Some q ∧ rl_oneBeforeUTXOSet l = Some dq ∧ set_of_block s q dq.

Definition with_status (b : hash) (status : BlockStatus) (s : resolveState) : resolveState :=
  {| rs_stores := rs_stores s; rs_statuses := <[b := status]> (rs_statuses s); rs_acceptanceData := rs_acceptanceData s; rs_caches := rs_caches s |}.

Lemma resolveNext_ret b tip l s s1 status set : rl_selectedParentStatus l = StatusUTXOValid →
  resolveSingleBlockStatus csm cbm b (rl_previousBlockHash l) (rl_previousBlockUTXOSet l) tip s = (s1, Ret (status, set)) →
  resolveNext csm cbm b tip l s = (with_status b status s1, Ret {| rl_selectedParentStatus := status; rl_previousBlockHash := b; rl_previousBlockUTXOSet := set;
    rl_oneBeforeUTXOSet := rl_previousBlockUTXOSet l; rl_oneBeforeHash := Some (rl_previousBlockHash l) |}).
Proof using Type.
  intros Hl Hrun. unfold resolveNext. rewrite Hl, bool_decide_eq_false_2 by done. set (next := {| rl_selectedParentStatus := status |}).
  rewrite (bind_ret_l _ _ s s1 next) by (by rewrite (bind_ret_l _ _ _ _ _ Hrun)). done.
Qed.

Variable UO : utxoCollection.
Hypothesis HUO : drawn entryAt UO.
Hypothesis Holddom : old ∈ dom gd.

Lemma resolveAll_spec bs : ∀ s p ms d0 l, bs ≠ [] → based s → vcaches_ok (rs_caches s) → rl_selectedParentStatus l = StatusUTXOValid →
  rl_previousBlockHash l = p → rl_previousBlockUTXOSet l = Some d0 → us_multisets (rs_stores s) !! p = Some ms → ms_equiv ms (ms_of (apply_diff B d0)) →
  set_of_block s p d0 → chain_ok p (apply_diff B d0) bs → NoDup bs → Forall (unresolved s) bs → restorable s old UO →
  ∃ s' l' valid invalid Us, resolveAll csm cbm bs l s = (s', Ret l') ∧
    resolved bs (apply_diff B d0) s s' (rl_selectedParentStatus l') valid invalid Us ∧ (invalid = [] → ∀ b, last bs = Some b → ends_with s' l' b).
Proof using All.
  induction bs as [|b rest IH]; intros s p ms d0 l Hne Hs Hc Hl Hlp Hld Hms Heq Hset Hok Hnd Hun HO; [done|].
  destruct Hset as (A0 & C0 & D0 & R0). apply NoDup_cons in Hnd as [Hbn Hnd]. apply Forall_cons in Hun as [(Hgen & HbD & HbC) Hun].
  cbn [chain_ok] in Hok. cbn [resolveAll]. subst p.
  assert (b ∈ dom gd) as Hbdom by (destruct Hok; apply elem_of_dom; by eexists). set (p := rl_previousBlockHash l) in *.
  destruct (resolveSingle_spec s _ _ _ b p ms (apply_diff B d0) d0 (bool_decide (rest = [])) _ (based_stores s Hs) Hc Hgen Hok D0 Hms Heq A0 C0 eq_refl)
    as (s1 & Hst1 & Hc1 & [[Hrun Hstores1]|(d & ms' & Hstores1 & A1 & C1 & Heq1 & Hver & D1 & Hnext & Hrun)]); rewrite <- Hld in Hrun.
  - set (s2 := with_status b StatusDisqualifiedFromChain s1). rewrite (bind_ret_l _ _ s _ _ (resolveNext_ret _ _ _ _ _ _ _ Hl Hrun)). fold s2.
    edestruct (disqualifyAll_spec rest s2) as (s' & l' & -> & Hst & Hstores & Hcaches & Hstatus); [done|]. exists s', l', [], (b :: rest), []. rewrite Hst.
    split; [done|]. split; [|done]. split; try done; [constructor| | | |].
    + intros x. rewrite (Hstatus x), !(decide_False (P := x ∈ [])) by (by intros ?%elem_of_nil). simpl. rewrite Hst1. destruct (decide (x = b)) as [->|Hx].
      * rewrite (decide_False (P := b ∈ rest)), (decide_True (P := b ∈ b :: rest)) by (done || by left). by rewrite lookup_insert_eq.
      * rewrite lookup_insert_ne by done. rewrite (decide_ext (x ∈ b :: rest) (x ∈ rest)); [done|]. rewrite elem_of_cons. tauto.
    + unfold based. by rewrite Hstores; simpl; rewrite Hstores1.
    + by rewrite Hcaches.
    + by rewrite Hstores; simpl; rewrite Hstores1.
  - set (U := apply_diff B d) in *. assert (based s1) as Hs1 by (unfold based; rewrite Hstores1; apply Hs).
    assert (keeps (rs_stores s) (rs_stores s1)) as Hk1 by (rewrite Hstores1; apply keeps_multiset).
    destruct (decide (rest = [])) as [->|Hrest].
    + rewrite bool_decide_eq_true_2 in Hrun by done. destruct (stage_tip s1 b p d0 d U UO Hs1) as (s2 & Hstage & (Hs2 & Hst2 & Hc2 & _ & Hk2) & Hr2); try done.
      { by apply (restorable_keeps s). }
      { by rewrite Hstores1. }
      { by rewrite Hstores1. }
      rewrite (bind_ret_l _ _ _ _ _ Hstage) in Hrun. rewrite bool_decide_eq_true_2 by done. rewrite (bind_ret_l _ _ s _ _ (resolveNext_ret _ _ _ _ _ _ _ Hl Hrun)).
      assert (keeps (rs_stores s) (rs_stores s2)) as Hk by (by transitivity (rs_stores s1)).
      eexists _, _, [b], [], [U]. split; [reflexivity|]. split; [split; try done|].
      * constructor; [done|constructor].
      * by constructor.
      * apply (statuses_after_cons b [] [] s (with_status b StatusUTXOValid s2)); [by intros ?%elem_of_nil|by simpl; rewrite Hst2, Hst1|]. by intros x.
      * simpl. by rewrite Hc2.
      * intros _ x [= <-]. exists d, p, d0. split_and!; try done. by apply (set_of_block_keeps s).
    + rewrite bool_decide_eq_false_2 in Hrun by done. destruct (stage_below s1 b p d0 d (apply_diff B d0) U Hs1) as (s2 & Hstage & (Hs2 & Hst2 & Hc2 & Hm2 & Hk2) & Hr2 & Hsame); try done.
      { by apply (restorable_keeps s). }
      { by rewrite Hstores1. }
      rewrite (bind_ret_l _ _ _ _ _ Hstage) in Hrun. rewrite bool_decide_eq_false_2 by done. rewrite (bind_ret_l _ _ s _ _ (resolveNext_ret _ _ _ _ _ _ _ Hl Hrun)).
      assert (keeps (rs_stores s) (rs_stores s2)) as Hk by (by transitivity (rs_stores s1)). set (s3 := with_status b StatusUTXOValid s2).
      edestruct (IH s3 b ms' d) as (s' & l' & valid & invalid & Us & -> & [R1 R2 R3 R4 R5 R6 R7 R8] & Hend); try done.
      { simpl. by rewrite Hc2. }
      { simpl. rewrite Hm2, Hstores1. simpl. by rewrite lookup_insert_eq. }
      { rewrite Forall_forall in *. intros x Hx. destruct (Hun x Hx) as (? & ? & ?), (Hsame x) as [E1 E2]; [by intros ->|].
        unfold unresolved. simpl. by rewrite E1, E2, Hstores1. }
      { by apply (restorable_keeps s). }
      exists s', l', (b :: valid), invalid, (U :: Us). split; [done|]. assert (keeps (rs_stores s) (rs_stores s')) as Hk' by (by transitivity (rs_stores s2)).
      split; [split; try done|].
      * by rewrite R1.
      * by constructor.
      * constructor; [|done]. by apply (restorable_keeps s2).
      * apply (statuses_after_cons b valid invalid s s3); [|by simpl; rewrite Hst2, Hst1|done]. intros Hin. apply Hbn. rewrite R1. apply elem_of_app. by right.
      * intros E x Hx. apply Hend; [done|]. by destruct rest.
Qed.
(** ** From end to end *)

(** The pending blocks of a selected chain, from the tip down, over the valid block [p]. *)
Fixpoint pending (s : resolveState) (bs : list hash) (p : hash) : Prop :=
  match bs with
  | [] => rs_statuses s !! p = Some StatusUTXOValid
  | b :: bs => rs_statuses s !! b = Some StatusUTXOPendingVerification ∧
      (∃ g, gd !! b = Some g ∧ selectedParent g = Some (default p (head bs))) ∧ pending s bs p
  end.

Lemma pending_work s bs p : pending s bs p → ∀ b, head bs = Some b → b ∈ dom gd ∧ ∀ x, x ∈ tail bs → workOf gd x < workOf gd b.
Proof using Hcontext.
  pose proof (co_ghostdag _ _ _ _ Hcontext) as Hok. induction bs as [|b bs IH]; [done|]. intros (_ & (g & Hg & Hsel) & Hp) x [= <-]. cbn [tail].
  split; [apply elem_of_dom; by eexists|]. intros x Hx. destruct bs as [|c bs]; [by apply elem_of_nil in Hx|]. simpl in Hsel.
  assert (workOf gd c < workOf gd b) as Hlt.
  { assert (b ≠ pm_genesisHash (tv_pastMedianTimeManager v)) as Hroot by (intros ->; destruct (gd_genesis _ _ _ _ Hok g Hg) as [? _]; congruence).
    destruct (gd_block _ _ _ _ Hok b g Hg Hroot) as (q & Hq). assert (q = c) as -> by (destruct Hq; congruence).
    pose proof (bo_work _ _ _ _ _ _ Hq). unfold workOf, dataOf at 2. by rewrite Hg. }
  destruct (IH Hp c eq_refl) as [_ Hc]. apply elem_of_cons in Hx as [->|Hx]; [done|]. specialize (Hc x Hx). lia.
Qed.

Lemma pending_nodup s bs p : pending s bs p → NoDup bs ∧ ∀ b, b ∈ bs → b ∈ dom gd.
Proof using Hcontext.
  induction bs as [|b bs IH]; [intros _; split; [apply NoDup_nil_2|by intros ? ?%elem_of_nil]|]. intros Hp. pose proof (pending_work s (b :: bs) p Hp b eq_refl) as [Hb Hw].
  destruct Hp as (_ & _ & Hp). destruct (IH Hp) as [Hnd Hdom]. split.
  - apply NoDup_cons. split; [|done]. intros Hin. specialize (Hw b Hin). lia.
  - intros x [->|Hx]%elem_of_cons; [done|by apply Hdom].
Qed.

Lemma pending_length s bs p : pending s bs p → (length bs ≤ size gd)%nat.
Proof using Hcontext.
  intros Hp. destruct (pending_nodup s bs p Hp) as [Hnd Hdom]. rewrite <- size_dom. unfold size, set_size. simpl.
  apply submseteq_length, NoDup_submseteq; [done|]. intros x Hx. by apply elem_of_elements, Hdom.
Qed.

Lemma statusOf_ret s b status : rs_statuses s !! b = Some status → statusOf b s = (s, Ret status).
Proof using Type. intros Hb. unfold statusOf. rewrite (bind_ret_l _ _ s s s) by done. by apply found_ret. Qed.

Lemma unverifiedLoop_spec s p bs : us_consensus (rs_stores s) = cs → pending s bs p → ∀ fuel, (length bs < fuel)%nat →
  unverifiedLoop fuel (default p (head bs)) s = (s, Ret bs).
Proof using Type.
  intros Hcs. induction bs as [|b bs IH]; intros Hp fuel Hf; (destruct fuel as [|fuel]; [simpl in Hf; lia|]); cbn [unverifiedLoop head default].
  - simpl. by rewrite (bind_ret_l _ _ s s StatusUTXOValid) by (by apply statusOf_ret).
  - destruct Hp as (Hst & (g & Hg & Hsel) & Hp). simpl. rewrite (bind_ret_l _ _ s s StatusUTXOPendingVerification) by (by apply statusOf_ret).
    rewrite bool_decide_eq_true_2 by done. cbn [negb]. rewrite (bind_ret_l _ _ s s g) by (apply ghostdagOfBlock_ret; by rewrite Hcs). rewrite Hsel.
    by rewrite (bind_ret_l _ _ s s bs) by (apply IH; [done|simpl in Hf; lia]).
Qed.

Lemma pending_last s pre b p : pending s (pre ++ [b]) p → (∃ g, gd !! b = Some g ∧ selectedParent g = Some p) ∧ rs_statuses s !! p = Some StatusUTXOValid.
Proof using Type. induction pre as [|x pre IH]; simpl; [by intros (_ & ? & ?)|]. intros (_ & _ & Hp). by apply IH. Qed.

Lemma selectedParentInfo_spec s bs p chain U0 d0 : based s → bs ≠ [] → pending s bs p → Forall (λ b, csm_genesisHash csm ≠ b) bs →
  past_set (rs_stores s) p chain U0 → restorePastUTXO (rs_stores s) p = Ret d0 → selectedParentInfo csm bs s = (s, Ret (p, StatusUTXOValid, Some d0)).
Proof using Type.
  intros (Hcs & _) Hne Hp Hgen Hpast Hrest. destruct (exists_last Hne) as (pre & b & ->). apply Forall_app in Hgen as [_ [Hb _]%Forall_cons].
  destruct (pending_last s pre b p Hp) as [(g & Hg & Hsel) Hst]. unfold selectedParentInfo.
  rewrite (bind_ret_l _ _ s s b) by (unfold lift_outcome; by rewrite index_last).
  rewrite bool_decide_eq_false_2 by done. rewrite (bind_ret_l _ _ s s g) by (apply ghostdagOfBlock_ret; by rewrite Hcs). rewrite Hsel.
  rewrite (bind_ret_l _ _ s s p) by done. rewrite (bind_ret_l _ _ s s StatusUTXOValid) by (by apply statusOf_ret). rewrite bool_decide_eq_true_2 by done. cbn [negb].
  rewrite (bind_ret_l _ _ s s s) by done. by rewrite (bind_ret_l _ _ s s d0) by (unfold accepting, lift_outcome; by rewrite Hrest).
Qed.

(** The reversal data lead from the set of the tip to that of its selected parent. *)
Definition reversal_ok (s : resolveState) (tip : hash) (r : UTXODiffReversalData) : Prop :=
  ∃ UT UP, restorable s tip UT ∧ restorable s (rd_SelectedParentHash r) UP ∧
    applicable UT (rd_SelectedParentUTXODiff r) ∧ apply_diff UT (rd_SelectedParentUTXODiff r) = UP.

Lemma resolveBlockStatus_spec s tip bs p ms U0 : based s → vcaches_ok (rs_caches s) → pending s (tip :: bs) p → Forall (unresolved s) (tip :: bs) →
  restorable s p U0 → drawn entryAt U0 → us_multisets (rs_stores s) !! p = Some ms → ms_equiv ms (ms_of U0) → chain_ok p U0 (reverse (tip :: bs)) → restorable s old UO →
  ∃ s' status reversal valid invalid Us, resolveBlockStatus csm cbm tip s = (s', Ret (status, reversal)) ∧
    resolved (reverse (tip :: bs)) U0 s s' status valid invalid Us ∧
    match reversal with Some r => invalid = [] ∧ bs ≠ [] ∧ reversal_ok s' tip r | None => invalid ≠ [] ∨ bs = [] end.
Proof using All.
  intros Hs Hc Hp Hun [chain Hpast] HD0 Hms Heq Hok HO. destruct (restorePastUTXO_spec (rs_stores s) p chain U0 Hpast) as (d0 & Hrest & A0 & C0 & E0).
  rewrite (proj2 (proj2 Hs)) in A0, E0. subst U0. destruct (pending_nodup _ _ _ Hp) as [Hnd _]. pose proof (pending_length _ _ _ Hp) as Hlen.
  unfold resolveBlockStatus. rewrite (bind_ret_l _ _ s s (tip :: bs)).
  2:{ unfold getUnverifiedChainBlocks. rewrite (bind_ret_l _ _ s s s) by done. rewrite (proj1 Hs). apply (unverifiedLoop_spec s p (tip :: bs)); [apply Hs|done|lia]. }
  rewrite (proj2 (Z.eqb_neq _ _)) by (rewrite zlen_cons; pose proof (zlen_nonneg bs); lia).
  rewrite (bind_ret_l _ _ s s (p, StatusUTXOValid, Some d0)).
  2:{ apply (selectedParentInfo_spec s (tip :: bs) p chain (apply_diff B d0)); try done. eapply Forall_impl; [done|]. by intros x [? _]. }
  set (l := {| rl_selectedParentStatus := StatusUTXOValid |}).
  destruct (resolveAll_spec (reverse (tip :: bs)) s p ms d0 l) as (s' & l' & valid & invalid & Us & Hrun & Hres & Hend); try done.
  { rewrite reverse_cons. by destruct (reverse bs). }
  { split_and!; try done. by exists chain. }
  { by rewrite reverse_Permutation. }
  { by apply Forall_reverse. }
  rewrite (bind_ret_l _ _ s s' l' Hrun). cbv zeta. destruct (bool_decide _ && _) eqn:E.
  - apply andb_true_iff in E as [E%bool_decide_eq_true Hlong%Z.ltb_lt]. assert (invalid = []) as -> by (rewrite (rv_status _ _ _ _ _ _ _ _ Hres) in E; by destruct invalid).
    destruct (Hend eq_refl tip) as (d & q & dq & -> & (A1 & C1 & D1 & R1) & -> & -> & (A2 & C2 & D2 & R2)).
    { by rewrite reverse_cons, last_snoc. }
    destruct (DiffFrom_spec s' d dq _ _ A1 A2 C1 C2 eq_refl eq_refl D1 D2) as (dd & Hdd & Ha & Hset & _).
    rewrite (bind_ret_l _ _ s' s' d) by done. rewrite (bind_ret_l _ _ s' s' dq) by done. rewrite (bind_ret_l _ _ s' s' dd Hdd). rewrite (bind_ret_l _ _ s' s' q) by done.
    eexists s', _, _, valid, [], Us. split; [done|]. rewrite E in *. split; [done|]. split; [done|]. split; [intros ->; by unfold zlen in Hlong|].
    by exists (apply_diff B d), (apply_diff B dq).
  - eexists s', _, None, valid, invalid, Us. split; [done|]. split; [done|]. destruct (decide (bs = [])) as [|Hbs]; [by right|]. left. intros ->.
    rewrite (rv_status _ _ _ _ _ _ _ _ Hres), bool_decide_eq_true_2 in E by done. apply Z.ltb_ge in E. destruct bs as [|x bs]; [done|].
    rewrite !zlen_cons in E. pose proof (zlen_nonneg bs). lia.
Qed.
End Resolve.

(** ** Properties *)
Module ResolveProps.
Import PastUtxoProps CoinbasePayloadProps.


(** *** A world with a pending block over the genesis block *)
Definition genesis_block : DomainBlock := block_with genesis_coinbase.
Definition G : hash := Eval vm_compute in BlockHash genesis_block.
(** The genesis block's transaction leaves one output; its fee is paid by the coinbase of the next block. *)
Definition next_outpoint : DomainOutpoint := NewDomainOutpoint (fst (TransactionID sample_spending)) 0.
Definition next_entry : utxoEntry := {| ue_amount := 900; ue_scriptPublicKey := EngineProps.sample_spk; ue_blockDAAScore := 1; ue_isCoinbase := false |}.
Definition next_set : utxoCollection := {[ next_outpoint := next_entry ]}.
Definition accepted_root : hash :=
  match CalculateIDMerkleRoot (E := unit) (sorting.merge_sort idOrder [genesis_coinbase; sample_spending]) with Ret (Some r) => r | _ => [] end.
Definition pending_block : DomainBlock :=
  {| bk_Header := {| hd_version := 0; hd_parentHashes := [G]; hd_hashMerkleRoot := []; hd_acceptedIDMerkleRoot := accepted_root;
                     hd_utxoCommitment := [ms_of next_set]; hd_timeInMilliseconds := 10; hd_bits := 0x207fffff; hd_nonce := 0 |};
     bk_Transactions := [fee_coinbase] |}.
Definition C : hash := Eval vm_compute in BlockHash pending_block.
Definition world_dag (x : hash) : list hash := if decide (x = C ∨ x = VirtualBlockHash) then [G] else [].
Definition world_topology : DAGTopologyManager := {| Parents x := Ret (world_dag x); IsAncestorOf a b := Ret (bool_decide (a = G ∨ a = b)) |}.
Definition world_headers : gmap hash BlockHeader := {[ G := bk_Header genesis_block; C := bk_Header pending_block ]}.
Definition ghostdag1 : gmap hash BlockGHOSTDAGData := fst (@GHOSTDAG world_topology 18 world_headers C {[ G := emptyData ]}).
Definition ghostdag2 : gmap hash BlockGHOSTDAGData := fst (@GHOSTDAG world_topology 18 world_headers VirtualBlockHash ghostdag1).
Definition world_consensus : consensus :=
  {| cs_finality := {| fm_topology := {| dt_reachabilityManager :=
         {| reachabilityDataStore := ∅; reachabilityReindexRoot := None; ghostdagDataStore := ghostdag2;
            reindexSlack := 0; reindexWindow := 0 |}; dt_blockRelationStore := ∅ |};
       fm_finalityStore := ∅; fm_genesisHash := G; fm_finalityDepth := 86400 |};
     cs_headers := world_headers;
     cs_daa := {| daa_scores := {[ G := 0; C := 1; VirtualBlockHash := 1 ]}; daa_addedBlocks := {[ G := []; C := [G] ]} |}; cs_statuses := ∅; cs_pruningPoint := None |}.
Definition world_stores : utxoStores :=
  {| us_consensus := world_consensus; us_blocks := {[ G := genesis_block; C := pending_block ]}; us_virtualUTXO := sample_set;
     us_utxoDiffs := {[ G := mkDiff ∅ ∅ ]}; us_utxoDiffChildren := ∅; us_multisets := {[ G := ms_of sample_set ]} |}.
Definition world_state : resolveState :=
  {| rs_stores := world_stores; rs_statuses := {[ G := StatusUTXOValid; C := StatusUTXOPendingVerification ]}; rs_acceptanceData := ∅;
     rs_caches := {| vc_sigCache := None; vc_sigCacheECDSA := None |} |}.

Example world_resolves :
  (λ r, (snd r, rs_statuses (fst r) !! C, us_utxoDiffChildren (rs_stores (fst r)) !! G)) (resolveBlockStatus (csm_at G) sample_manager C world_state)
  = (Ret (StatusUTXOValid, None), Some StatusUTXOValid, Some C).
Proof. vm_compute. reflexivity. Qed.

(** The outputs of the world. *)
Definition world_entry (o : DomainOutpoint) (score : Z) : utxoEntry := if decide (o = sample_outpoint) then sample_entry else next_entry.

Lemma world_anc a b : dag_anc world_dag a b ↔ a = b ∨ a = G ∧ (b = C ∨ b = VirtualBlockHash).
Proof.
  split.
  - intros Ha. inversion Ha as [|? q ? Hq Hqa]; subst; [by left|]. unfold world_dag in Hq. case_decide as Hb; [|by apply elem_of_nil in Hq].
    apply list_elem_of_singleton in Hq as ->. inversion Hqa as [|? q ? Hq]; subst; [by right|]. by apply elem_of_nil in Hq.
  - intros [->|[-> Hb]]; [apply rtc_refl|]. apply rtc_once. unfold world_dag. rewrite decide_True by done. by left.
Qed.

Lemma world_topology_ok (known : gset hash) : known ⊆ {[ C; G ]} → @TopologyOk world_topology world_dag known.
Proof.
  intros Hk. split; [done|]. intros a b Ha Hb. exists (bool_decide (a = G ∨ a = b)). split; [done|]. rewrite bool_decide_eq_true, world_anc.
  apply Hk, elem_of_union in Ha, Hb. rewrite !elem_of_singleton in Ha, Hb. destruct Ha as [-> | ->], Hb as [-> | ->]; tauto.
Qed.

Lemma world_add S b : ghostdag_ok world_dag 18 S G → dom S ⊆ {[ C; G ]} → b ∉ dom S → world_dag b = [G] →
  ∃ g, @GHOSTDAG world_topology 18 world_headers b S = (<[b := g]> S, Ret ()) ∧ ghostdag_ok world_dag 18 (<[b := g]> S) G.
Proof.
  intros Hok HS Hb Hp. destruct (@GHOSTDAG_spec world_dag 18 world_topology S G b world_headers) as (p & g & Hrun & _ & Hok' & _); try done.
  - by apply world_topology_ok.
  - intros x [->%elem_of_singleton| ->%elem_of_singleton]%HS%elem_of_union; [exists (bk_Header pending_block)|exists (bk_Header genesis_block)]; (split; vm_compute; reflexivity).
  - by rewrite Hp.
  - rewrite Hp. intros p ->%list_elem_of_singleton. apply (gd_root _ _ _ _ Hok).
  - rewrite Hp. apply NoDup_singleton.
  - rewrite Hp. by intros p q ->%list_elem_of_singleton ->%list_elem_of_singleton.
  - by exists g.
Qed.

Lemma world_ghostdag_ok : ghostdag_ok world_dag 18 ghostdag2 G ∧ ∀ x, x ∈ dom ghostdag2 → x = G ∨ x = C ∨ x = VirtualBlockHash.
Proof.
  destruct (world_add {[ G := emptyData ]} C) as (g1 & Hrun1 & Hok1); [by apply genesis_ok|rewrite dom_singleton; apply union_subseteq_r|rewrite dom_singleton, elem_of_singleton; done|done|].
  destruct (world_add ghostdag1 VirtualBlockHash) as (g2 & Hrun2 & Hok2).
  - unfold ghostdag1. by rewrite Hrun1.
  - unfold ghostdag1. rewrite Hrun1. cbn [fst]. by rewrite dom_insert_L, dom_singleton_L.
  - unfold ghostdag1. rewrite Hrun1. cbn [fst]. rewrite dom_insert_L, dom_singleton_L, elem_of_union, !elem_of_singleton. by intros [?|?].
  - done.
  - unfold ghostdag2. rewrite Hrun2. split; [done|]. cbn [fst]. unfold ghostdag1. rewrite Hrun1. cbn [fst]. intros x. rewrite !dom_insert_L, dom_singleton_L, !elem_of_union, !elem_of_singleton. tauto.
Qed.

Lemma world_context : context_ok (csm_transactionValidator (csm_at G)) world_consensus world_dag 18.
Proof.
  destruct world_ghostdag_ok as [Hok Hdom]. split; [done|done| | |done|done].
  - intros x Hx Hpast. assert (x = G ∨ x = C) as Hx'.
    { destruct Hpast as [->|(y & _ & Ha & Hne & Hr)]; [by left|]. apply world_anc in Ha as [->|[-> _]]; [done|by left]. }
    destruct Hx' as [-> | ->]; [exists (bk_Header genesis_block)|exists (bk_Header pending_block)];
      (split; [vm_compute; reflexivity|split; vm_compute; [discriminate|reflexivity]]).
  - intros x [->|[-> | ->]]%Hdom; (split; [by eexists|split; vm_compute; [discriminate|reflexivity]]).
Qed.

Lemma world_coherent : coherent world_entry world_stores.
Proof.
  split.
  - simpl. unfold sample_set. intros o e [<- <-]%lookup_singleton_Some. reflexivity.
  - simpl. intros h d [_ <-]%lookup_singleton_Some o e He. simpl in He. by rewrite lookup_empty in He.
Qed.

Lemma world_past : past_set world_stores G [G] sample_set.
Proof.
  assert (apply_diff (us_virtualUTXO world_stores) (mkDiff ∅ ∅) = sample_set) as <- by reflexivity.
  apply past_base; [done|vm_compute; reflexivity| |]; [split; [apply map_empty_subseteq|apply map_disjoint_empty_l]|]. intros o e1 e2 _ He. simpl in He. by rewrite lookup_empty in He.
Qed.

Lemma world_resolvable : resolvable (csm_at G) sample_manager world_entry world_stores C G sample_set (λ _, True).
Proof.
  apply (Resolvable _ _ _ _ C G sample_set _ (dataOf ghostdag2 C) genesis_block [] sample_history pending_block fee_coinbase [] [G]).
  - vm_compute. reflexivity.
  - vm_compute. reflexivity.
  - vm_compute. reflexivity.
  - apply sample_merge_ok; [reflexivity|by right].
  - vm_compute. reflexivity.
  - vm_compute. reflexivity.
  - reflexivity.
  - constructor.
  - apply Forall_singleton. apply sample_block_tx; [reflexivity|]. unfold sample_txs. do 3 apply list_elem_of_further. by left.
  - apply (bool_decide_unpack _). vm_compute. exact I.
  - apply (bool_decide_unpack _). vm_compute. exact I.
  - reflexivity.
  - vm_compute. reflexivity.
  - vm_compute. reflexivity.
  - assert (mergeSetBlues (dataOf ghostdag2 C) ++ mergeSetReds (dataOf ghostdag2 C) = [G]) as -> by (vm_compute; reflexivity). constructor; [|constructor].
    split; [vm_compute; reflexivity|]. split; [by eexists|]. eexists _, _, _, _. split; [reflexivity|]. split; [vm_compute; reflexivity|]. by vm_compute.
  - vm_compute. reflexivity.
  - intros tx o e Htx Ho. change (tx ∈ [genesis_coinbase; sample_spending]) in Htx. apply elem_of_cons in Htx as [->|Htx%list_elem_of_singleton]; [|subst tx].
    + by apply elem_of_nil in Ho.
    + apply list_elem_of_singleton in Ho as [= -> ->]. vm_compute. reflexivity.
  - done.
Qed.

End ResolveProps.
