(* ===== verification/VirtualBlock.v ===== *)
(** * The virtual block (processes/consensusstatemanager)

    pick_virtual_parents.go, update_virtual.go, add_block_to_virtual.go, check_finality_violation.go and
    find_selected_parent_chain_changes.go: when a block is added its status is resolved if it may become the
    selected tip, the tips are updated, and the virtual block, which has the best tips as parents,
    gets its GHOSTDAG data, DAA score, UTXO set and multiset anew. *)
From S2P Require Import Prelude Externalapi UtxoDiff ScriptNum ScriptStack OpcodeTable Script Hashing SigCache Opcode Engine.
From S2P Require Import Interval ReachabilityData Reachability ReachabilityTree ReachabilityAdd DagTopology Block Merkle Ghostdag Heap Window DifficultyManager Traversal HeaderValidation TransactionValidator PastUtxo Coinbase VerifyUtxo ResolveStatus.
Import TransactionHashing SigCache Opcode BlockHeap Ghostdag DifficultyManager PastMedianTime DagTopology Traversal Finality Header HeaderValidation TransactionValidator PastUtxo VerifyUtxo ResolveStatus.
Local Open Scope Z_scope.
Local Open Scope prog_scope.

Abbreviation hash := (list Z) (only parsing).

Inductive virtualError :=
  | VirtualResolve (e : resolveError)
  | VirtualHeader (e : headerError)
  | ErrNoParentCandidates.

(** The fields of the manager that the virtual block needs besides those of [consensusStateManager]. *)
Record virtualManager := {
  vm_csm : consensusStateManager;
  vm_coinbaseManager : coinbaseManager;
  vm_difficultyManager : difficultyManager;
  vm_k : Z;
  vm_mergeSetSizeLimit : Z;
  vm_maxBlockParents : Z
}.

Module VirtualBlock.
Section Virtual.
Context `{Libs} `{MuHash}.
Variable vm : virtualManager.

Record virtualState := {
  vs_resolve : resolveState;
  vs_tips : list hash
}.
Abbreviation virtual A := (prog virtualState virtualError A) (only parsing).

Definition put_consensus (cs : consensus) (s : utxoStores) : utxoStores :=
  {| us_consensus := cs; us_blocks := us_blocks s; us_virtualUTXO := us_virtualUTXO s; us_utxoDiffs := us_utxoDiffs s;
     us_utxoDiffChildren := us_utxoDiffChildren s; us_multisets := us_multisets s |}.
Definition consensus_of (s : virtualState) : consensus := us_consensus (rs_stores (vs_resolve s)).

(** Run an operation on the DAG, or on the state of a resolution. *)
Definition onConsensus {A} (m : prog consensus headerError A) : virtual A :=
  λ s, let '(cs, o) := m (consensus_of s) in
       ({| vs_resolve := put_stores (put_consensus cs) (vs_resolve s); vs_tips := vs_tips s |},
        match o with Ret a => Ret a | Fail e => Fail (VirtualHeader e) | Crash c => Crash c end).
Definition onResolve {A} (m : prog resolveState resolveError A) : virtual A :=
  λ s, let '(r, o) := m (vs_resolve s) in
       ({| vs_resolve := r; vs_tips := vs_tips s |},
        match o with Ret a => Ret a | Fail e => Fail (VirtualResolve e) | Crash c => Crash c end).
Definition dag {A} (m : prog dagTopologyManager reachabilityError A) : virtual A := onConsensus (onTopology m).
Definition finality {A} (m : prog finalityManager reachabilityError A) : virtual A := onConsensus (onFinality m).
(** An operation that reads the GHOSTDAG data. *)
Definition onData {A} (o : gmap hash BlockGHOSTDAGData → outcome ghostdagError A) : virtual A :=
  onConsensus (reading HeaderGhostdag (λ cs, o (ghostdag_of cs))).
Definition dataOfBlock (blockHash : hash) : virtual BlockGHOSTDAGData := onData (λ S, Get S blockHash).
Definition pointer {A} (o : option A) : virtual A :=
  match o with Some a => ret a | None => crash_with NilDereference end.

(** ** pick_virtual_parents.go *)

(** The children that are neither the virtual block nor headers only. *)
Fixpoint nonHeadersOnly (children : list hash) : virtual (list hash) :=
  match children with
  | [] => ret []
  | child :: rest =>
      if bool_decide (child = VirtualBlockHash) then nonHeadersOnly rest
      else
        let* status := onResolve (statusOf child) in
        if bool_decide (status = StatusHeaderOnly) then nonHeadersOnly rest
        else let* others := nonHeadersOnly rest in ret (child :: others)
  end.

(** [for _, parent := range candidateParents] *)
Fixpoint pushParents (candidateParents : list hash) (disqualifiedCandidates : gset hash) (candidatesHeap : blockHeap) : virtual blockHeap :=
  match candidateParents with
  | [] => ret candidatesHeap
  | parent :: rest =>
      let* allParentChildren := dag (dtm_Children parent) in
      let* parentChildren := nonHeadersOnly allParentChildren in
      let* candidatesHeap :=
        if forallb (λ child, bool_decide (child ∈ disqualifiedCandidates)) parentChildren then onData (λ S, bh_Push S candidatesHeap parent)
        else ret candidatesHeap in
      pushParents rest disqualifiedCandidates candidatesHeap
  end.

(** [fuel] bounds the candidates that are looked at. *)
Fixpoint selectLoop (fuel : nat) (disqualifiedCandidates : gset hash) (candidatesHeap : blockHeap) : virtual (hash * blockHeap) :=
  match fuel with
  | O => crash_with OutOfFuel
  | Datatypes.S fuel =>
      if bh_Len candidatesHeap =? 0 then fail ErrNoParentCandidates
      else
        let* popped := onData (λ _, bh_Pop candidatesHeap) in
        let '(selectedParentCandidate, candidatesHeap) := popped in
        let* status := onResolve (statusOf selectedParentCandidate) in
        if bool_decide (status = StatusUTXOValid) then ret (selectedParentCandidate, candidatesHeap)
        else
          let disqualifiedCandidates := {[ selectedParentCandidate ]} ∪ disqualifiedCandidates in
          let* candidateParents := dag (dtm_Parents selectedParentCandidate) in
          let* candidatesHeap := pushParents candidateParents disqualifiedCandidates candidatesHeap in
          selectLoop fuel disqualifiedCandidates candidatesHeap
  end.

(** Every block is disqualified at most once. *)
Definition selectVirtualSelectedParent (candidatesHeap : blockHeap) : virtual (hash * blockHeap) :=
  let* s := get in
  selectLoop (Datatypes.S (size (dt_blockRelationStore (dtm_of (consensus_of s))))) ∅ candidatesHeap.

(** *** mergeSetIncrease *)
Inductive increase :=
  | CanBeParent (mergeSetIncrease : Z)
  | TooMuch (newCandidate : hash).

Fixpoint visitNew (parents : list hash) (visited : gset hash) (queue : list hash) : gset hash * list hash :=
  match parents with
  | [] => (visited, queue)
  | parent :: rest =>
      if bool_decide (parent ∈ visited) then visitNew rest visited queue
      else visitNew rest ({[ parent ]} ∪ visited) (queue ++ [parent])
  end.

Fixpoint increaseLoop (fuel : nat) (selectedVirtualParents : list hash) (mergeSetSize : Z) (visited : gset hash) (queue : list hash) (mergeSetIncrease : Z) :
    virtual increase :=
  match fuel with
  | O => crash_with OutOfFuel
  | Datatypes.S fuel =>
      match queue with
      | [] => ret (CanBeParent mergeSetIncrease)
      | current :: queue =>
          let* isInPastOfSelectedVirtualParents := dag (IsAncestorOfAny current selectedVirtualParents) in
          if (isInPastOfSelectedVirtualParents : bool) then increaseLoop fuel selectedVirtualParents mergeSetSize visited queue mergeSetIncrease
          else
            let mergeSetIncrease := GoInt.uint64 (mergeSetIncrease + 1) in
            if vm_mergeSetSizeLimit vm <? GoInt.uint64 (mergeSetSize + mergeSetIncrease) then ret (TooMuch current)
            else
              let* parents := dag (dtm_Parents current) in
              let '(visited, queue) := visitNew parents visited queue in
              increaseLoop fuel selectedVirtualParents mergeSetSize visited queue mergeSetIncrease
      end
  end.

(** Every block is visited at most once, except that the candidate's parents are queued as they are listed. *)
Definition mergeSetIncrease (candidate : hash) (selectedVirtualParents : list hash) (mergeSetSize : Z) : virtual increase :=
  let* parents := dag (dtm_Parents candidate) in
  let* s := get in
  increaseLoop (Datatypes.S (length parents + size (dt_blockRelationStore (dtm_of (consensus_of s))))) selectedVirtualParents mergeSetSize
    (list_to_set parents) parents 1.

(** *** boundedMergeBreakingParents *)

(** Set the parents of the virtual block and compute its GHOSTDAG data. *)
Definition setVirtualParents (parents : list hash) : virtual unit :=
  dag (SetParents VirtualBlockHash parents) ;;*
  let* s := get in
  let cs := consensus_of s in
  onConsensus (onGhostdag (@GHOSTDAG (as_interface (dtm_of cs)) (vm_k vm) (cs_headers cs) VirtualBlockHash)).

(** [isKosherized]: the answer for the last block that was looked at *)
Fixpoint kosherized (redBlock : hash) (potentiallyKosherizingBlocks : list hash) (isKosherized : bool) : virtual bool :=
  match potentiallyKosherizingBlocks with
  | [] => ret isKosherized
  | block :: rest =>
      let* isKosherized := dag (dtm_IsAncestorOf redBlock block) in
      if (isKosherized : bool) then ret true else kosherized redBlock rest false
  end.

Fixpoint badRedsOf (virtualFinalityPoint : hash) (potentiallyKosherizingBlocks mergeSetReds : list hash) : virtual (list hash) :=
  match mergeSetReds with
  | [] => ret []
  | redBlock :: rest =>
      let* isFinalityPointInPast := dag (dtm_IsAncestorOf virtualFinalityPoint redBlock) in
      if (isFinalityPointInPast : bool) then badRedsOf virtualFinalityPoint potentiallyKosherizingBlocks rest
      else
        let* isKosherized := kosherized redBlock potentiallyKosherizingBlocks false in
        let* badReds := badRedsOf virtualFinalityPoint potentiallyKosherizingBlocks rest in
        ret (if isKosherized : bool then badReds else redBlock :: badReds)
  end.

(** The code asks whether the parent is in the past of a bad red block. *)
Fixpoint breakingParents (parents badReds : list hash) : virtual (list hash) :=
  match parents with
  | [] => ret []
  | parent :: rest =>
      let* isBadRedInPast := dag (IsAncestorOfAny parent badReds) in
      let* others := breakingParents rest badReds in
      ret (if isBadRedInPast : bool then parent :: others else others)
  end.

Definition boundedMergeBreakingParents (parents : list hash) : virtual (list hash) :=
  setVirtualParents parents ;;*
  let* potentiallyKosherizingBlocks := finality (NonBoundedMergeDepthViolatingBlues VirtualBlockHash) in
  let* virtualFinalityPoint := finality VirtualFinalityPoint in
  let* virtualGHOSTDAGData := dataOfBlock VirtualBlockHash in
  let* badReds := badRedsOf virtualFinalityPoint potentiallyKosherizingBlocks (mergeSetReds virtualGHOSTDAGData) in
  breakingParents parents badReds.

(** *** pickVirtualParents *)

(** [candidates[i], candidates[end] = candidates[end], candidates[i]] *)
Definition swapAt (candidates : list hash) (i j : Z) : outcome virtualError (list hash) :=
  let? a := index candidates i in
  let? b := index candidates j in
  Ret (<[Z.to_nat j := a]> (<[Z.to_nat i := b]> candidates)).

(** [for i := maxParents / 2; i < maxParents; i++], where [n] is what is left *)
Fixpoint prioritize (n : nat) (i end_ : Z) (candidates : list hash) : outcome virtualError (list hash) :=
  match n with
  | O => Ret candidates
  | Datatypes.S n => let? candidates := swapAt candidates i end_ in prioritize n (i + 1) (end_ - 1) candidates
  end.

Fixpoint removeHashesInFutureOf (hashes : list hash) (ancestor : hash) : virtual (list hash) :=
  match hashes with
  | [] => ret []
  | hash :: rest =>
      let* isInFutureOfAncestor := dag (dtm_IsAncestorOf ancestor hash) in
      let* others := removeHashesInFutureOf rest ancestor in
      ret (if isInFutureOfAncestor : bool then others else hash :: others)
  end.

(** A candidate is accepted, dropped, or replaced by a block in its past, so that it takes at most as many
    rounds as there are blocks. *)
Fixpoint pickLoop (fuel : nat) (candidates selectedVirtualParents : list hash) (mergeSetSize : Z) : virtual (list hash) :=
  match fuel with
  | O => crash_with OutOfFuel
  | Datatypes.S fuel =>
      match candidates with
      | [] => ret selectedVirtualParents
      | candidate :: candidates =>
          if vm_maxBlockParents vm <=? zlen selectedVirtualParents then ret selectedVirtualParents
          else
            let* result := mergeSetIncrease candidate selectedVirtualParents mergeSetSize in
            match result with
            | CanBeParent mergeSetIncrease =>
                pickLoop fuel candidates (selectedVirtualParents ++ [candidate]) (GoInt.uint64 (mergeSetSize + mergeSetIncrease))
            | TooMuch newCandidate =>
                let* isInFutureOfCandidates := dag (IsAnyAncestorOf candidates newCandidate) in
                if (isInFutureOfCandidates : bool) then pickLoop fuel candidates selectedVirtualParents mergeSetSize
                else
                  let* candidates := removeHashesInFutureOf candidates newCandidate in
                  pickLoop fuel (candidates ++ [newCandidate]) selectedVirtualParents mergeSetSize
            end
      end
  end.

(** Overwrite the first occurrence by the last element, and cut that off. *)
Definition removeParent (breakingParent : hash) (parents : list hash) : list hash :=
  match list_find (λ parent, parent = breakingParent) parents, last parents with
  | Some (i, _), Some lastParent => take (length parents - 1) (<[i := lastParent]> parents)
  | _, _ => parents
  end.

(** The parents before those that break the bounded merge depth are removed. *)
Definition pickParents (tips : list hash) : virtual (list hash) :=
  let* candidatesHeap := onData (λ S, PushSlice S NewDownHeap tips) in
  let* selected := selectVirtualSelectedParent candidatesHeap in
  let '(virtualSelectedParent, candidatesHeap) := selected in
  let* candidates := onData (λ _, ToSlice candidatesHeap) in
  let* candidates :=
    if vm_maxBlockParents vm <=? zlen candidates then
      let maxParents := GoInt.uint8 (vm_maxBlockParents vm - 1) in
      lift_outcome (prioritize (Z.to_nat (maxParents - maxParents / 2)) (maxParents / 2) (zlen candidates - 1) candidates)
    else ret candidates in
  let candidates := take (Z.to_nat (vm_maxBlockParents vm * 3)) candidates in
  let* s := get in
  let fuel := Datatypes.S (length candidates * size (dt_blockRelationStore (dtm_of (consensus_of s)))) in
  pickLoop fuel candidates [virtualSelectedParent] 1.

Definition pickVirtualParents (tips : list hash) : virtual (list hash) :=
  let* selectedVirtualParents := pickParents tips in
  let* breaking := boundedMergeBreakingParents selectedVirtualParents in
  ret (fold_left (λ parents breakingParent, removeParent breakingParent parents) breaking selectedVirtualParents).

(** ** update_virtual.go *)
Definition updateSelectedTipUTXODiff (virtualUTXODiff : diff) : prog resolveState resolveError unit :=
  let* tip := selectedTip in
  let* tip := deref tip in
  let* selectedTipUTXODiff := UTXODiff tip in
  let* newDiff := DiffFrom virtualUTXODiff selectedTipUTXODiff in
  stageDiff tip newDiff None.

(** [CalculatePastUTXOAndAcceptanceData] with the caches of the validator *)
Definition calculatePastOf (blockHash : hash) : prog resolveState resolveError (diff * list BlockAcceptanceData * muhash) :=
  λ s, let '(a, o) := CalculatePastUTXOAndAcceptanceData (vm_csm vm) (rs_stores s) blockHash
                        {| ac_diff := mkDiff ∅ ∅; ac_sigCache := vc_sigCache (rs_caches s); ac_sigCacheECDSA := vc_sigCacheECDSA (rs_caches s) |} in
       ({| rs_stores := rs_stores s; rs_statuses := rs_statuses s; rs_acceptanceData := rs_acceptanceData s;
           rs_caches := {| vc_sigCache := ac_sigCache a; vc_sigCacheECDSA := ac_sigCacheECDSA a |} |},
        match o with Ret a => Ret a | Fail e => Fail (ResolveAccept e) | Crash c => Crash c end).

(** [consensusStateStore.StageVirtualUTXODiff]: when it is committed the entries of the diff are removed and added. *)
Definition withVirtualDiff (virtualUTXODiff : diff) (stores : utxoStores) : utxoStores :=
  {| us_consensus := us_consensus stores; us_blocks := us_blocks stores; us_virtualUTXO := apply_diff (us_virtualUTXO stores) virtualUTXODiff;
     us_utxoDiffs := us_utxoDiffs stores; us_utxoDiffChildren := us_utxoDiffChildren stores; us_multisets := us_multisets stores |}.

(** The UTXO set of the new virtual block. *)
Definition updateVirtualUTXO : prog resolveState resolveError diff :=
  let* past := calculatePastOf VirtualBlockHash in
  let '(virtualUTXODiff, virtualAcceptanceData, virtualMultiset) := past in
  stageAcceptanceData VirtualBlockHash virtualAcceptanceData ;;*
  modify (put_stores (withMultiset VirtualBlockHash virtualMultiset)) ;;*
  modify (put_stores (withVirtualDiff virtualUTXODiff)) ;;*
  updateSelectedTipUTXODiff virtualUTXODiff ;;*
  ret virtualUTXODiff.

Definition updateVirtual (newBlockHash : hash) (tips : list hash) : virtual (option SelectedChainPath * diff) :=
  let isGenesis := bool_decide (newBlockHash = csm_genesisHash (vm_csm vm)) in
  let* oldVirtualSelectedParent :=
    if isGenesis then ret None
    else let* oldVirtualGHOSTDAGData := dataOfBlock VirtualBlockHash in ret (selectedParent oldVirtualGHOSTDAGData) in
  let* virtualParents := pickVirtualParents tips in
  setVirtualParents virtualParents ;;*
  let* s := get in
  let cs := consensus_of s in
  onConsensus (onDaa (StageDAADataAndReturnRequiredDifficulty (vm_difficultyManager vm) (ghostdag_of cs) (cs_headers cs) VirtualBlockHash)) ;;*
  let* virtualUTXODiff := onResolve updateVirtualUTXO in
  if isGenesis then ret (None, virtualUTXODiff)
  else
    let* newVirtualGHOSTDAGData := dataOfBlock VirtualBlockHash in
    let* old := pointer oldVirtualSelectedParent in
    let* new := pointer (selectedParent newVirtualGHOSTDAGData) in
    let* selectedParentChainChanges := dag (CalculateChainPath old new) in
    ret (Some selectedParentChainChanges, virtualUTXODiff).

(** ** check_finality_violation.go: is it violating finality, and should a notification be sent *)
Definition isViolatingFinality (blockHash : hash) : virtual (bool * bool) :=
  if bool_decide (blockHash = csm_genesisHash (vm_csm vm)) then ret (false, false)
  else
    let* virtualFinalityPoint := finality VirtualFinalityPoint in
    let* s := get in
    let* pruningPoint :=
      match cs_pruningPoint (consensus_of s) with
      | Some point => ret point
      | None => fail (VirtualHeader (HeaderDag ErrNotFound))
      end in
    let* isFinalityPointInPastOfPruningPoint := dag (dtm_IsAncestorOf virtualFinalityPoint pruningPoint) in
    let finalityPoint := if isFinalityPointInPastOfPruningPoint : bool then pruningPoint else virtualFinalityPoint in
    let* isInSelectedParentChainOfFinalityPoint := dag (IsInSelectedParentChainOf finalityPoint blockHash) in
    if negb isInSelectedParentChainOfFinalityPoint then ret (true, negb isFinalityPointInPastOfPruningPoint)
    else ret (false, false).

(** ** add_block_to_virtual.go *)
Definition isCandidateToBeNextVirtualSelectedParent (blockHash : hash) : virtual bool :=
  if bool_decide (blockHash = csm_genesisHash (vm_csm vm)) then ret true
  else
    let* virtualGhostdagData := dataOfBlock VirtualBlockHash in
    let* parent := pointer (selectedParent virtualGhostdagData) in
    let* nextVirtualSelectedParent := onData (λ S, ChooseSelectedParent S [parent; blockHash]) in
    ret (bool_decide (blockHash = nextVirtualSelectedParent)).

Definition calculateNewTips (newTipHash : hash) : virtual (list hash) :=
  if bool_decide (newTipHash = csm_genesisHash (vm_csm vm)) then ret [newTipHash]
  else
    let* s := get in
    let currentTips := vs_tips s in
    let* newTipParents := dag (dtm_Parents newTipHash) in
    ret (newTipHash :: filter (λ currentTip, currentTip ∉ newTipParents) currentTips).

Definition addTip (newTipHash : hash) : virtual (list hash) :=
  let* newTips := calculateNewTips newTipHash in
  modify (λ s, {| vs_resolve := vs_resolve s; vs_tips := newTips |}) ;;*
  ret newTips.

Definition csm_AddBlock (blockHash : hash) : virtual (option SelectedChainPath * diff * option UTXODiffReversalData) :=
  let* isCandidate := isCandidateToBeNextVirtualSelectedParent blockHash in
  let* reversalData :=
    if (isCandidate : bool) then
      let* violation := isViolatingFinality blockHash in
      if fst violation : bool then ret None
      else let* resolved := onResolve (resolveBlockStatus (vm_csm vm) (vm_coinbaseManager vm) blockHash) in ret (snd resolved)
    else ret None in
  let* newTips := addTip blockHash in
  let* updated := updateVirtual blockHash newTips in
  ret (fst updated, snd updated, reversalData).

(** ** find_selected_parent_chain_changes.go *)
Definition GetVirtualSelectedParentChainFromBlock (blockHash : hash) : virtual SelectedChainPath :=
  let* virtualGHOSTDAGData := dataOfBlock VirtualBlockHash in
  let* virtualSelectedParent := pointer (selectedParent virtualGHOSTDAGData) in
  dag (CalculateChainPath blockHash virtualSelectedParent).
End Virtual.
End VirtualBlock.
