(* ===== verification/VirtualSpec.v ===== *)
(** * The UTXO set of the virtual block

    [updateVirtual] moves the UTXO set that all chains of diffs lead to.  After it the set is
    the one the virtual's merge set leads to, and every block still has the UTXO set it had. *)
From S2P Require Import Prelude Externalapi UtxoDiff ScriptNum ScriptStack OpcodeTable Script Hashing SigCache Opcode Engine.
From S2P Require Import OpcodeSafety EngineSafety SigSpec CacheTransparency.
From S2P Require Import Interval ReachabilityData Reachability ReachabilityTree ReachabilityAdd DagTopology Block Merkle Ghostdag GhostdagOrder GhostdagColour Window DifficultyManager Traversal HeaderValidation TransactionValidator TransactionSafety PastUtxo UtxoAcceptance PastUtxoSpec Coinbase VerifyUtxo Supply ResolveStatus UtxoDiffChain ResolveSpec VirtualBlock.
Import TransactionHashing SigCache Opcode Ghostdag Traversal PastMedianTime Header Merkle HeaderValidation TransactionValidator PastUtxo VerifyUtxo ResolveStatus VirtualBlock.
Local Open Scope Z_scope.
Local Open Scope prog_scope.

Abbreviation hash := (list Z) (only parsing).

Section VirtualUtxo.
Context `{Libs} `{!LibsOk} `{MuHash} `{!MuHashOk}.
Variables (vm : virtualManager) (dag_parents : list Z → list (list Z)) (k : Z).
Variable entryAt : DomainOutpoint → Z → utxoEntry.
Abbreviation csm := (vm_csm vm).
Abbreviation v := (csm_transactionValidator (vm_csm vm)).

(** Only [tip] has a diff without a diff child, and its diff applies to the virtual's set. *)
Record rooted (stores : utxoStores) (tip : hash) (d : diff) : Prop := {
  ro_diff : us_utxoDiffs stores !! tip = Some d;
  ro_last : us_utxoDiffChildren stores !! tip = None;
  ro_applicable : applicable (us_virtualUTXO stores) d;
  ro_canonical : canonical d;
  ro_only h : is_Some (us_utxoDiffs stores !! h) → us_utxoDiffChildren stores !! h = None → h = tip
}.

(** The merge set of the virtual block [g], over the set [U0] of its selected parent. *)
Inductive mergeable (stores : utxoStores) (g : BlockGHOSTDAGData) (U0 : utxoCollection) (parent : DomainBlock) (blocks : list DomainBlock) : Prop :=
  | Mergeable (Hist : gmap (list Z) (list DomainOutpoint)) :
      Blocks stores (mergeSetBlues g ++ mergeSetReds g) = Ret (parent :: blocks) →
      merge_ok csm stores VirtualBlockHash Hist U0 parent blocks →
      (∀ tx o e, tx ∈ concat (map bk_Transactions (parent :: blocks)) →
        (o, e) ∈ created (fst (TransactionID tx)) (IsCoinBase tx) (daaOf (us_consensus stores) VirtualBlockHash) 0 (tx_Outputs tx) →
        e = entryAt o (ue_blockDAAScore e)) →
      mergeable stores g U0 parent blocks.

(** The virtual's UTXO set is [V], with its multiset and acceptance data. *)
Record virtual_utxo (s : resolveState) (V : utxoCollection) (ads : list BlockAcceptanceData) : Prop := {
  vu_set : us_virtualUTXO (rs_stores s) = V;
  vu_multiset : ∃ ms, us_multisets (rs_stores s) !! VirtualBlockHash = Some ms ∧ ms_equiv ms (ms_of V);
  vu_data : rs_acceptanceData s !! VirtualBlockHash = Some ads
}.

Lemma rooted_last stores tip d h chain U : rooted stores tip d → past_set stores h chain U → last chain = Some tip.
Proof using Type.
  intros Hr. induction 1 as [h d0 Hc Hd|h c chain U d0 Hc Hp IH Hd]; [simpl; f_equal; by eapply ro_only|]. destruct (past_set_head _ _ _ _ Hp) as [rest ->]. done.
Qed.

Lemma rooted_tip stores tip d : coherent entryAt stores → rooted stores tip d → past_set stores tip [tip] (apply_diff (us_virtualUTXO stores) d).
Proof using Type.
  intros [HB HD] Hr. apply past_base; try apply Hr. apply (drawn_same entryAt); [done|]. apply (HD tip), Hr.
Qed.

Lemma updateVirtualUTXO_spec s g tip d ms parent blocks : let stores := rs_stores s in let U0 := apply_diff (us_virtualUTXO stores) d in
  context_ok v (us_consensus stores) dag_parents k → csm_genesisHash csm = pm_genesisHash (tv_pastMedianTimeManager v) →
  ghostdag_of (us_consensus stores) !! VirtualBlockHash = Some g → selectedParent g = Some tip →
  coherent entryAt stores → rooted stores tip d → us_multisets stores !! tip = Some ms → ms_equiv ms (ms_of U0) →
  mergeable stores g U0 parent blocks → vcaches_ok (rs_caches s) →
  ∃ s' vd ads m d', updateVirtualUTXO vm s = (s', Ret vd) ∧
    (let V := apply_diff (us_virtualUTXO stores) vd in
    applicable (us_virtualUTXO stores) vd ∧ virtual_utxo s' V ads ∧ accepted_set csm stores VirtualBlockHash m U0 parent blocks ads V ∧
    rooted (rs_stores s') tip d' ∧ coherent entryAt (rs_stores s') ∧ vcaches_ok (rs_caches s') ∧
    ∀ h chain U, past_set stores h chain U → past_set (rs_stores s') h chain U).
Proof using All.
  intros stores U0 Hctx Hgen Hg Hsel Hco Hr Hms Heq [Hist Hb Hm Hnew] Hc. pose proof (rooted_tip _ _ _ Hco Hr) as Htip.
  set (a0 := {| ac_diff := mkDiff ∅ ∅; ac_sigCache := vc_sigCache (rs_caches s); ac_sigCacheECDSA := vc_sigCacheECDSA (rs_caches s) |}).
  destruct (CalculatePastUTXO_spec csm stores dag_parents k VirtualBlockHash Hist U0 [tip] tip g ms parent blocks a0) as
    (m & a & vd & ads & ms' & V & Hmed & Hrun & Hca & Ha & Hcan & <- & Hacc & Hms' & _); try done.
  assert (drawn entryAt U0) as HD0 by (by eapply coherent_past).
  pose proof (accepted_drawn _ _ _ _ _ _ _ _ _ _ Hacc HD0 Hnew) as HV. set (V := apply_diff _ vd) in *.
  destruct (from_correct (us_virtualUTXO stores) vd d Ha (ro_applicable _ _ _ Hr) Hcan (ro_canonical _ _ _ Hr)) as (d' & Hd' & Ha' & Hcan' & Hset & _).
  { apply (drawn_same entryAt); [by eapply drawn_toAdd|]. apply (proj2 Hco tip), Hr. }
  fold V in Ha', Hset. fold U0 in Hset.
  set (s1 := {| rs_stores := stores; rs_statuses := rs_statuses s; rs_acceptanceData := rs_acceptanceData s;
                rs_caches := {| vc_sigCache := ac_sigCache a; vc_sigCacheECDSA := ac_sigCacheECDSA a |} |}).
  set (s2 := {| rs_stores := stores; rs_statuses := rs_statuses s; rs_acceptanceData := <[VirtualBlockHash := ads]> (rs_acceptanceData s); rs_caches := rs_caches s1 |}).
  set (s3 := put_stores (withMultiset VirtualBlockHash ms') s2). set (s4 := put_stores (withVirtualDiff vd) s3). set (s5 := put_stores (withDiffOf tip d' None) s4).
  exists s5, vd, ads, m, d'. split.
  { unfold updateVirtualUTXO. rewrite (bind_ret_l _ _ s s1 (vd, ads, ms')) by (unfold calculatePastOf; fold stores; fold a0; by rewrite Hrun).
    rewrite (bind_ret_l _ _ s1 s2 ()), (bind_ret_l _ _ s2 s3 ()), (bind_ret_l _ _ s3 s4 ()) by done. rewrite (bind_ret_l _ _ s4 s5 ()); [done|].
    unfold updateSelectedTipUTXODiff, selectedTip. rewrite (bind_ret_l _ _ s4 s4 (Some tip)) by (rewrite (bind_ret_l _ _ s4 s4 g) by (by apply ghostdagOfBlock_ret); by rewrite Hsel).
    rewrite (bind_ret_l _ _ s4 s4 tip) by done. rewrite (bind_ret_l _ _ s4 s4 d) by (apply UTXODiff_ret, Hr).
    by rewrite (bind_ret_l _ _ s4 s4 d') by (unfold DiffFrom, accepting, lift_outcome; by rewrite Hd'). }
  assert (∀ h chain U, past_set stores h chain U → past_set (rs_stores s5) h chain U) as Hkeep.
  { intros h chain U Hp. eapply (past_set_agree (withVirtual V (withDiffOf tip d' None stores))); [done|done|].
    eapply past_set_rebase; try done; [|by eapply rooted_last]. intros. by eapply coherent_past. }
  cbv zeta. split_and!; try done.
  - split; [done|exists ms'; split; [|done]; simpl; by rewrite lookup_insert_eq|simpl; by rewrite lookup_insert_eq].
  - split; simpl; [by rewrite lookup_insert_eq|apply Hr|done|done|]. intros h [d0 Hh] Hnone. destruct (decide (h = tip)) as [|Hne]; [done|].
    rewrite lookup_insert_ne in Hh by done. eapply ro_only; [done|by exists d0|done].
  - split; [done|]. simpl. intros h d0 [[<- <-]|[_ Hd0]]%lookup_insert_Some; [|by eapply Hco]. eapply drawn_toAdd. by rewrite Hset.
Qed.
End VirtualUtxo.
