(* ===== verification/VirtualParents.v ===== *)
(** * The parents of the virtual block

    [mergeSetIncrease] counts the blocks that a candidate would add to the merge set, and the
    parents that are picked form an antichain with a bounded merge set. *)
From S2P Require Import Prelude Externalapi UtxoDiff ScriptNum ScriptStack OpcodeTable Script Hashing SigCache Opcode Engine.
From S2P Require Import Interval ReachabilityData Reachability ReachabilityTree ReachabilityAdd DagTopology Block Merkle Ghostdag GhostdagOrder Heap Window DifficultyManager Traversal HeaderValidation TransactionValidator PastUtxo Coinbase VerifyUtxo ResolveStatus VirtualBlock.
Import TransactionHashing SigCache Opcode BlockHeap Ghostdag DagTopology Traversal Header HeaderValidation TransactionValidator PastUtxo VerifyUtxo ResolveStatus VirtualBlock.
Local Open Scope Z_scope.
Local Open Scope prog_scope.

Abbreviation hash := (list Z) (only parsing).

Section Parents.
Context `{Libs} `{MuHash}.
Variables (vm : virtualManager) (dag_parents : list Z → list (list Z)) (root : list Z) (s : virtualState).
Abbreviation dtm := (dtm_of (consensus_of s)).
Abbreviation nodes := (dom (reachabilityDataStore (dt_reachabilityManager (dtm_of (consensus_of s))))).
Abbreviation anc := (dag_anc dag_parents).

(** In the past of a block of the list, or one of them. *)
Definition past_of (ps : list hash) (x : hash) : Prop := ∃ p, p ∈ ps ∧ anc x p.

(** The stores describe a DAG. *)
Record graph_ok : Prop := {
  dk_reach : reach_ok dag_parents (dt_reachabilityManager dtm) root;
  dk_parents x : x ∈ nodes → br_Parents <$> dt_blockRelationStore dtm !! x = Some (dag_parents x);
  dk_nodup x : x ∈ nodes → NoDup (dag_parents x);
  dk_acyclic x : x ∈ nodes → ¬ past_of (dag_parents x) x
}.
Hypothesis Hok : graph_ok.

(** ** Operations that only read *)
Lemma onConsensus_read {A} (m : prog consensus headerError A) a : m (consensus_of s) = (consensus_of s, Ret a) → onConsensus m s = (s, Ret a).
Proof using Type. intros Hm. unfold onConsensus. rewrite Hm. destruct s as [[[] ? ? ?] ?]. reflexivity. Qed.
Lemma dag_read {A} (m : prog dagTopologyManager reachabilityError A) a : m dtm = (dtm, Ret a) → dag m s = (s, Ret a).
Proof using Type.
  intros Hm. apply onConsensus_read. unfold onTopology, run_on. rewrite Hm. unfold put_dtm, put_finality, dtm_of. by destruct (consensus_of s) as [[] ? ? ? ?].
Qed.

Lemma parents_read x : x ∈ nodes → dag (dtm_Parents x) s = (s, Ret (dag_parents x)).
Proof using Hok.
  intros Hx. apply dag_read. pose proof (dk_parents Hok x Hx) as Hp. unfold dtm_Parents, BlockRelation, bind, get. destruct (dt_blockRelationStore dtm !! x) as [r|]; [|done].
  by injection Hp as <-.
Qed.

Lemma ancestor_run a b : a ∈ nodes → b ∈ nodes → ∃ r, dtm_IsAncestorOf a b dtm = (dtm, Ret r) ∧ (r = true ↔ anc a b).
Proof using Hok.
  intros Ha Hb. pose proof (dk_reach Hok) as Hr. unfold dtm_IsAncestorOf, reachability, zoom.
  destruct (IsDAGAncestorOf_run _ root (reach_tree _ _ _ Hr) a b Ha Hb (reach_ordered _ _ _ Hr a Ha)) as (r & -> & Hans).
  exists r. split; [by destruct dtm|]. by rewrite Hans, (reach_dag _ _ root Hr).
Qed.

Lemma ancestor_read a b : a ∈ nodes → b ∈ nodes → ∃ r, dag (dtm_IsAncestorOf a b) s = (s, Ret r) ∧ (r = true ↔ anc a b).
Proof using Hok. intros Ha Hb. destruct (ancestor_run a b Ha Hb) as (r & Hr & Hans). exists r. split; [by apply dag_read|done]. Qed.

Lemma ancestorOfAny_read x ps : x ∈ nodes → (∀ p, p ∈ ps → p ∈ nodes) → ∃ r, dag (IsAncestorOfAny x ps) s = (s, Ret r) ∧ (r = true ↔ past_of ps x).
Proof using Hok.
  intros Hx Hps. cut (∃ r, IsAncestorOfAny x ps dtm = (dtm, Ret r) ∧ (r = true ↔ past_of ps x)); [intros (r & Hr & ?); exists r; split; [by apply dag_read|done]|].
  induction ps as [|p ps IH]; cbn [IsAncestorOfAny]; [exists false; split; [done|]; split; [done|intros (p & Hp & _); by apply elem_of_nil in Hp]|].
  destruct (ancestor_run x p Hx) as (r & Hr & Hans); [apply Hps; by left|]. rewrite (bind_ret_l _ _ _ _ _ Hr). destruct r.
  - exists true. split; [done|]. split; [|done]. intros _. exists p. split; [by left|by apply Hans].
  - destruct IH as (r & -> & Hr'); [intros; apply Hps; by right|]. exists r. split; [done|]. rewrite Hr'. unfold past_of. split.
    + intros (q & Hq & Ha). exists q. split; [by right|done].
    + intros (q & [->|Hq]%elem_of_cons & Ha); [by apply Hans in Ha|]. by exists q.
Qed.

Lemma anyAncestorOf_read ps x : x ∈ nodes → (∀ p, p ∈ ps → p ∈ nodes) → ∃ r, dag (IsAnyAncestorOf ps x) s = (s, Ret r) ∧ (r = true ↔ ∃ p, p ∈ ps ∧ anc p x).
Proof using Hok.
  intros Hx Hps. cut (∃ r, IsAnyAncestorOf ps x dtm = (dtm, Ret r) ∧ (r = true ↔ ∃ p, p ∈ ps ∧ anc p x)); [intros (r & Hr & ?); exists r; split; [by apply dag_read|done]|].
  induction ps as [|p ps IH]; cbn [IsAnyAncestorOf]; [exists false; split; [done|]; split; [done|intros (p & Hp & _); by apply elem_of_nil in Hp]|].
  destruct (ancestor_run p x) as (r & Hr & Hans); [apply Hps; by left|done|]. rewrite (bind_ret_l _ _ _ _ _ Hr). destruct r.
  - exists true. split; [done|]. split; [|done]. intros _. exists p. split; [by left|by apply Hans].
  - destruct IH as (r & -> & Hr'); [intros; apply Hps; by right|]. exists r. split; [done|]. rewrite Hr'. split.
    + intros (q & Hq & Ha). exists q. split; [by right|done].
    + intros (q & [->|Hq]%elem_of_cons & Ha); [by apply Hans in Ha|]. by exists q.
Qed.

Lemma anc_nodes x y : y ∈ nodes → anc x y → x ∈ nodes.
Proof using Hok. apply (dag_anc_dom dag_parents _ root), (dk_reach Hok). Qed.

Lemma removeHashes_read hs x : x ∈ nodes → (∀ h, h ∈ hs → h ∈ nodes) →
  ∃ l, removeHashesInFutureOf hs x s = (s, Ret l) ∧ l `sublist_of` hs ∧ ∀ h, h ∈ l ↔ h ∈ hs ∧ ¬ anc x h.
Proof using Hok.
  intros Hx Hhs. induction hs as [|h hs IH]; cbn [removeHashesInFutureOf]; [exists []; split; [done|]; split; [done|]; intros h; split; [by intros ?%elem_of_nil|by intros [?%elem_of_nil _]]|].
  destruct (ancestor_read x h Hx) as (r & Hr & Hans); [apply Hhs; by left|]. rewrite (bind_ret_l _ _ _ _ _ Hr).
  destruct IH as (l & Hl & Hsub & Hin); [intros; apply Hhs; by right|]. rewrite (bind_ret_l _ _ _ _ _ Hl). destruct r.
  - exists l. split; [done|]. split; [by constructor|]. intros y. rewrite Hin, elem_of_cons. split; [tauto|]. intros [[->|?] Hn]; [|done]. destruct Hn. by apply Hans.
  - exists (h :: l). split; [done|]. split; [by constructor|]. intros y. rewrite !elem_of_cons, Hin. split; [|tauto]. intros [->|?]; [|tauto]. split; [by left|].
    by intros ?%Hans.
Qed.

(** ** mergeSetIncrease *)
Lemma visitNew_spec l : ∀ visited done queue, visited = list_to_set (done ++ queue) → NoDup (done ++ queue) →
  ∃ new, visitNew l visited queue = (list_to_set (done ++ queue ++ new), queue ++ new) ∧ NoDup (done ++ queue ++ new) ∧
    (∀ x, x ∈ new → x ∈ l) ∧ ∀ x, x ∈ l → x ∈ done ++ queue ++ new.
Proof using Type.
  induction l as [|p l IH]; intros visited done queue Hv Hnd; cbn [visitNew].
  { exists []. rewrite !app_nil_r. subst. split_and!; try done; intros x Hx; by apply elem_of_nil in Hx. }
  case_bool_decide as Hp.
  - destruct (IH visited done queue Hv Hnd) as (new & -> & ? & Hnew & Hall). exists new. split_and!; try done; [intros x Hx; right; by apply Hnew|].
    intros x [->|Hx]%elem_of_cons; [|by apply Hall]. subst visited. rewrite elem_of_list_to_set in Hp. rewrite app_assoc. apply elem_of_app. by left.
  - assert (p ∉ done ++ queue) as Hp' by (by rewrite Hv, elem_of_list_to_set in Hp).
    assert (done ++ queue ++ [p] = (done ++ queue) ++ [p]) as E by apply app_assoc.
    destruct (IH ({[p]} ∪ visited) done (queue ++ [p])) as (new & -> & Hnd' & Hnew & Hall).
    { rewrite E, (list_to_set_app_L (done ++ queue)), Hv. clear. set_solver. }
    { rewrite E. apply NoDup_app. split_and!; [done|intros x Hx ->%list_elem_of_singleton; done|apply NoDup_singleton]. }
    exists (p :: new). rewrite <- !app_assoc in *. split_and!; try done; [intros x [->|Hx]%elem_of_cons; [by left|right; by apply Hnew]|].
    intros x [->|Hx]%elem_of_cons; [|by apply Hall]. rewrite !elem_of_app. right. right. by left.
Qed.

Section Increase.
Variables (candidate : list Z) (selected : list (list Z)) (m : Z).
Hypothesis Hcandidate : candidate ∈ nodes.
Hypothesis Hselected : ∀ p, p ∈ selected → p ∈ nodes.
Hypothesis Hnew : ¬ past_of selected candidate.
Hypothesis Hsize : 0 ≤ m ∧ m + Z.of_nat (size nodes) + 1 < 2 ^ 64.
Abbreviation limit := (vm_mergeSetSizeLimit vm).

(** The blocks that the candidate adds to the merge set. *)
Definition added_by (x : hash) : Prop := anc x candidate ∧ ¬ past_of selected x.

Definition increase_ok (r : increase) : Prop :=
  match r with
  | CanBeParent n => ∃ l, NoDup l ∧ (∀ x, x ∈ l ↔ added_by x) ∧ n = zlen l ∧ (n = 1 ∨ m + n ≤ limit)
  | TooMuch x => x ≠ candidate ∧ added_by x ∧ ∃ l, NoDup l ∧ (∀ y, y ∈ l → added_by y) ∧ limit < m + zlen l
  end.

(** [done] are the blocks that left the queue, and [counted] those of them that are new. *)
Record counting (done queue counted : list hash) : Prop := {
  ct_nodup : NoDup (done ++ queue);
  ct_past x : x ∈ done ++ queue → past_of (dag_parents candidate) x;
  ct_start x : x ∈ dag_parents candidate → x ∈ done ++ queue;
  ct_counted_nodup : NoDup counted;
  ct_counted x : x ∈ counted ↔ x ∈ done ∧ ¬ past_of selected x;
  ct_expanded x y : x ∈ counted → y ∈ dag_parents x → y ∈ done ++ queue
}.

Lemma past_parents_anc x : past_of (dag_parents candidate) x → x ≠ candidate ∧ anc x candidate.
Proof using Hok Hcandidate.
  intros Hx. split; [intros ->; by apply (dk_acyclic Hok candidate)|]. destruct Hx as (p & Hp & Ha). eapply anc_trans; [done|by apply anc_parent].
Qed.

Lemma counting_nodes done queue counted x : counting done queue counted → x ∈ done ++ queue → x ∈ nodes.
Proof using Hok Hcandidate. intros Hc Hx. apply (anc_nodes x candidate); [done|]. by apply past_parents_anc, (ct_past _ _ _ Hc). Qed.

Lemma counting_size done queue counted : counting done queue counted → (length (done ++ queue) ≤ size nodes)%nat ∧ (length counted ≤ length done)%nat.
Proof using Hok Hcandidate.
  intros Hc. split.
  - rewrite <- (size_list_to_set (C := gset hash)) by apply (ct_nodup _ _ _ Hc). apply subseteq_size. intros x. rewrite elem_of_list_to_set. by apply counting_nodes with (counted := counted).
  - apply submseteq_length, NoDup_submseteq; [apply (ct_counted_nodup _ _ _ Hc)|]. intros x Hx. by apply (ct_counted _ _ _ Hc).
Qed.

Lemma counting_added done queue counted : counting done queue counted → NoDup (candidate :: counted) ∧ ∀ x, x ∈ candidate :: counted → added_by x.
Proof using Hok Hcandidate Hnew.
  intros Hc. assert (∀ x, x ∈ counted → past_of (dag_parents candidate) x ∧ ¬ past_of selected x) as Hin.
  { intros x [Hd Hn]%(ct_counted _ _ _ Hc). split; [|done]. apply (ct_past _ _ _ Hc), elem_of_app. by left. }
  split.
  - apply NoDup_cons. split; [|apply (ct_counted_nodup _ _ _ Hc)]. intros [Hp _]%Hin. by apply past_parents_anc in Hp as [? _].
  - intros x [->|[Hp Hn]%Hin]%elem_of_cons; (split; [|done]); [apply anc_refl|by apply past_parents_anc].
Qed.

(** When the queue is empty everything has been counted. *)
Lemma counting_done done counted x : counting done [] counted → added_by x → x ∈ candidate :: counted.
Proof using All.
  intros Hc [Ha Hn]. apply anc_inv in Ha as [->|(p & Hp & Ha)]; [by left|]. right. pose proof (ct_start _ _ _ Hc p Hp) as Hpd. rewrite app_nil_r in Hpd. clear Hp.
  assert (∀ z, z ∈ done → anc x z → z ∈ counted) as Hz.
  { intros z Hz Hxz. apply (ct_counted _ _ _ Hc). split; [done|]. intros (q & Hq & Hzq). apply Hn. exists q. split; [done|by eapply anc_trans]. }
  induction Ha as [|y z x Hyz Hzx IH]; [apply Hz; [done|apply anc_refl]|]. apply IH; [done| |done].
  pose proof (ct_expanded _ _ _ Hc y z (Hz y Hpd ltac:(eapply anc_trans; [exact Hzx|by apply anc_parent])) Hyz) as Hin. by rewrite app_nil_r in Hin.
Qed.

Lemma counting_skip done current queue counted : counting done (current :: queue) counted → past_of selected current → counting (done ++ [current]) queue counted.
Proof using All.
  intros [H1 H2 H3 H4 H5 H6] Hp. assert (∀ l : list hash, (done ++ [current]) ++ l = done ++ current :: l) as E by (intros; by rewrite <- app_assoc).
  split; [by rewrite E|intros x; rewrite E; apply H2|intros x; rewrite E; apply H3|done| |intros x y; rewrite E; apply H6]. intros x. rewrite H5, elem_of_app, list_elem_of_singleton. split; [tauto|]. by intros [[?| ->] ?].
Qed.

Lemma counting_take done current queue counted new : counting done (current :: queue) counted → ¬ past_of selected current →
  NoDup ((done ++ [current]) ++ queue ++ new) → (∀ x, x ∈ new → x ∈ dag_parents current) → (∀ x, x ∈ dag_parents current → x ∈ (done ++ [current]) ++ queue ++ new) →
  counting (done ++ [current]) (queue ++ new) (current :: counted).
Proof using All.
  intros [H1 H2 H3 H4 H5 H6] Hp Hnd Hfrom Hall.
  assert (∀ x, x ∈ (done ++ [current]) ++ queue ++ new ↔ x ∈ done ++ current :: queue ∨ x ∈ new) as E by (intros x; rewrite !elem_of_app, list_elem_of_singleton, elem_of_cons; tauto).
  split.
  - done.
  - intros x [Hx|Hx]%E; [by apply H2|]. destruct (H2 current) as (p & Hpp & Ha); [apply elem_of_app; right; by left|]. exists p. split; [done|].
    eapply anc_trans; [|exact Ha]. by apply anc_parent, Hfrom.
  - intros x Hx. apply E. left. by apply H3.
  - apply NoDup_cons. split; [|done]. intros [Hin _]%H5. apply NoDup_app in H1 as (_ & H1 & _). apply (H1 current Hin). by left.
  - intros x. rewrite elem_of_cons, H5, elem_of_app, list_elem_of_singleton. split; [|tauto]. intros [->|[? ?]]; [split; [by right|done]|split; [by left|done]].
  - intros x y [->|Hx]%elem_of_cons Hy; [by apply Hall|]. apply E. left. by eapply H6.
Qed.

Lemma increaseLoop_spec fuel : ∀ done queue counted n visited, counting done queue counted → visited = list_to_set (done ++ queue) → n = 1 + zlen counted →
  (n = 1 ∨ m + n ≤ limit) → (size nodes < length done + fuel)%nat →
  ∃ r, increaseLoop vm fuel selected m visited queue n s = (s, Ret r) ∧ increase_ok r.
Proof using All.
  induction fuel as [|fuel IH]; intros done queue counted n visited Hc Hv Hn Hlim Hf; pose proof (counting_size _ _ _ Hc) as [Hlen Hlen']; rewrite length_app in Hlen; [lia|].
  cbn [increaseLoop]. destruct queue as [|current queue].
  - exists (CanBeParent n). split; [done|]. destruct (counting_added _ _ _ Hc) as [Hnd Hin]. exists (candidate :: counted). split_and!; [done| |rewrite zlen_cons; lia|done].
    intros x. split; [apply Hin|]. by apply (counting_done done).
  - assert (current ∈ nodes) as Hcur by (apply (counting_nodes _ _ _ _ Hc), elem_of_app; right; by left).
    destruct (ancestorOfAny_read current selected Hcur Hselected) as (r & Hr & Hans). rewrite (bind_ret_l _ _ _ _ _ Hr). destruct r.
    + apply (IH (done ++ [current]) queue counted); try done; [by apply counting_skip, Hans|by rewrite <- app_assoc|rewrite length_app; simpl; lia].
    + assert (¬ past_of selected current) as Hnp by (by intros ?%Hans). cbv zeta.
      assert (visited = list_to_set ((done ++ [current]) ++ queue)) as Hv' by (by rewrite <- app_assoc).
      assert (NoDup ((done ++ [current]) ++ queue)) as Hnd by (rewrite <- app_assoc; apply (ct_nodup _ _ _ Hc)).
      destruct (visitNew_spec (dag_parents current) visited (done ++ [current]) queue Hv' Hnd) as (new & Hvis & Hnd' & Hfrom & Hall).
      pose proof (counting_take _ _ _ _ _ Hc Hnp Hnd' Hfrom Hall) as Hc'. pose proof (counting_size _ _ _ Hc') as [Hsz Hsz']. rewrite !length_app in Hsz, Hsz'. simpl in Hsz, Hsz', Hlen.
      assert (0 ≤ zlen counted) as Hpos by apply zlen_nonneg. assert (1 + zlen counted + 1 ≤ Z.of_nat (size nodes) + 1) as Hbound by (unfold zlen; lia).
      rewrite (GoInt.uint64_id (n + 1)) by lia. rewrite GoInt.uint64_id by lia. destruct (Z.ltb_spec limit (m + (n + 1))) as [Hlt|Hle].
      * exists (TooMuch current). split; [done|]. destruct (counting_added _ _ _ Hc') as [Hnda Hin]. assert (added_by current) as Hadd by (apply Hin; right; by left).
        split; [|split; [done|]]. { intros ->. apply (past_parents_anc candidate); [|done]. apply (ct_past _ _ _ Hc), elem_of_app. right. by left. }
        exists (candidate :: current :: counted). split_and!; [done|done|]. rewrite !zlen_cons. lia.
      * rewrite (bind_ret_l _ _ s s (dag_parents current)) by (by apply parents_read). rewrite Hvis.
        apply (IH (done ++ [current]) (queue ++ new) (current :: counted)); try done; [by rewrite zlen_cons; lia|by right|rewrite length_app; simpl; lia].
Qed.

Lemma mergeSetIncrease_spec : ∃ r, mergeSetIncrease vm candidate selected m s = (s, Ret r) ∧ increase_ok r.
Proof using All.
  unfold mergeSetIncrease. rewrite (bind_ret_l _ _ s s (dag_parents candidate)) by (by apply parents_read). rewrite (bind_ret_l _ _ s s s) by done.
  apply (increaseLoop_spec _ [] (dag_parents candidate) []); try done; [|by left|].
  - split; try done.
    + apply (dk_nodup Hok _ Hcandidate).
    + intros x Hx. exists x. split; [done|apply anc_refl].
    + apply NoDup_nil_2.
    + intros x. split; [by intros ?%elem_of_nil|by intros [?%elem_of_nil _]].
    + intros x y Hx. by apply elem_of_nil in Hx.
  - assert (size nodes ≤ size (dt_blockRelationStore dtm))%nat; [|simpl; lia]. rewrite <- (size_dom (dt_blockRelationStore dtm)). apply subseteq_size. intros x Hx.
    apply elem_of_dom. pose proof (dk_parents Hok x Hx) as Hp. by destruct (dt_blockRelationStore dtm !! x).
Qed.
End Increase.

(** ** Picking the parents *)
Definition antichain (l : list hash) : Prop := NoDup l ∧ ∀ a b, a ∈ l → b ∈ l → a ≠ b → ¬ anc a b.

Lemma antichain_perm l l' : l ≡ₚ l' → antichain l → antichain l'.
Proof using Type. intros E [Hnd Ha]. split; [by rewrite <- E|]. intros a b. rewrite <- E. apply Ha. Qed.

Lemma antichain_sub l l' : l' `sublist_of` l → antichain l → antichain l'.
Proof using Type.
  intros Hs [Hnd Ha]. split; [by eapply sublist_NoDup|]. intros a b Hla Hlb. apply Ha; by eapply elem_of_sublist.
Qed.

Lemma antichain_snoc l x : antichain l → (∀ y, y ∈ l → ¬ anc y x) → (∀ y, y ∈ l → ¬ anc x y) → antichain (l ++ [x]).
Proof using Type.
  intros [Hnd Ha] H1 H2. split.
  - apply NoDup_app. split_and!; [done| |apply NoDup_singleton]. intros y Hy ->%list_elem_of_singleton. apply (H1 x Hy), anc_refl.
  - intros a b [Hla| ->%list_elem_of_singleton]%elem_of_app [Hlb| ->%list_elem_of_singleton]%elem_of_app Hne; [by apply Ha|by apply H1|by apply H2|done].
Qed.

Lemma anc_antisym x y : y ∈ nodes → anc x y → anc y x → x = y.
Proof using Hok.
  intros Hy Hxy Hyx. apply anc_inv in Hxy as [->|(p & Hp & Hxp)]; [done|]. exfalso. apply (dk_acyclic Hok y Hy). exists p. split; [done|by eapply anc_trans].
Qed.

(** The number of blocks in the past of a block. *)
Definition ancb (a b : hash) : bool := match snd (dtm_IsAncestorOf a b dtm) with Ret r => r | _ => false end.
Definition rank (x : hash) : nat := size (filter (λ y, ancb y x = true) nodes).

Lemma ancb_spec a b : a ∈ nodes → b ∈ nodes → ancb a b = true ↔ anc a b.
Proof using Hok. intros Ha Hb. destruct (ancestor_run a b Ha Hb) as (r & Hr & Hans). unfold ancb. by rewrite Hr. Qed.

Lemma rank_pos x : x ∈ nodes → (0 < rank x)%nat.
Proof using Hok.
  intros Hx. assert (({[ x ]} : gset hash) ⊆ filter (λ y, ancb y x = true) nodes) as Hs%subseteq_size; [|by rewrite size_singleton in Hs].
  intros y ->%elem_of_singleton. apply elem_of_filter. split; [|done]. apply ancb_spec; [done..|apply anc_refl].
Qed.

Lemma rank_lt x y : y ∈ nodes → anc x y → x ≠ y → (rank x < rank y)%nat.
Proof using Hok.
  intros Hy Hxy Hne. assert (x ∈ nodes) as Hx by (by eapply anc_nodes). unfold rank. apply subset_size. split.
  - intros z. rewrite !elem_of_filter. intros [Hz Hzn]. split; [|done]. rewrite ancb_spec in * by done. by eapply anc_trans.
  - intros Hs. apply Hne. apply anc_antisym; [done..|]. apply ancb_spec; [done..|]. assert (y ∈ filter (λ z, ancb z y = true) nodes) as Hin.
    { apply elem_of_filter. split; [|done]. apply ancb_spec; [done..|apply anc_refl]. }
    by apply Hs, elem_of_filter in Hin as [? _].
Qed.

Lemma rank_le x : (rank x ≤ size nodes)%nat.
Proof using Type. unfold rank. apply subseteq_size. intros y. by rewrite elem_of_filter; intros [_ ?]. Qed.

Definition ranks (l : list hash) : nat := sum_list (map rank l).
Lemma ranks_sublist l l' : l' `sublist_of` l → (ranks l' ≤ ranks l)%nat.
Proof using Type. unfold ranks. induction 1; simpl; lia. Qed.
Lemma ranks_snoc l x : ranks (l ++ [x]) = (ranks l + rank x)%nat.
Proof using Type. unfold ranks. induction l as [|y l IH]; simpl in *; lia. Qed.

Section Pick.
Variable sp : list Z.
Hypothesis Hlimit : 1 ≤ vm_mergeSetSizeLimit vm.
Hypothesis Hsmall : 2 * Z.of_nat (size nodes) + 2 < 2 ^ 64.

(** The merge set of [ps] without the selected parent: the past of [ps] that is not in that of [sp]. *)
Definition merged_by (ps merged : list hash) : Prop := NoDup merged ∧ ∀ x, x ∈ merged ↔ past_of ps x ∧ ¬ anc x sp.

(** Parents of the virtual block, [sp] first: no parent is in the past of another one; every parent may take the merge set one block over the limit,
    since a candidate that only adds itself is not compared with it. *)
Record picked (ps : list hash) (size : Z) : Prop := {
  pk_head : head ps = Some sp;
  pk_nodes p : p ∈ ps → p ∈ nodes;
  pk_antichain : antichain ps;
  pk_count : zlen ps ≤ Z.max 1 (vm_maxBlockParents vm);
  pk_size : ∃ merged, merged_by ps merged ∧ size = 1 + zlen merged;
  pk_limit : size ≤ vm_mergeSetSizeLimit vm + zlen ps - 1
}.

Lemma picked_bound ps n : picked ps n → 1 ≤ n ≤ 1 + Z.of_nat (size nodes).
Proof using Hok.
  intros Hp. destruct (pk_size _ _ Hp) as (l & [Hnd Hl] & ->). pose proof (zlen_nonneg l). split; [lia|]. unfold zlen.
  rewrite <- (size_list_to_set (C := gset hash)) by done. apply Zplus_le_compat_l, Nat2Z.inj_le, subseteq_size. intros x. rewrite elem_of_list_to_set, Hl.
  intros [(p & Hpp & Ha) _]. eapply anc_nodes; [|exact Ha]. by apply (pk_nodes _ _ Hp).
Qed.

Lemma picked_snoc ps m c n : picked ps m → c ∈ nodes → antichain (ps ++ [c]) → zlen ps < vm_maxBlockParents vm → increase_ok c ps m (CanBeParent n) →
  picked (ps ++ [c]) (m + n).
Proof using Hok Hlimit.
  intros Hp Hc Ha Hmax (l & Hnd & Hl & -> & Hlim). pose proof (pk_limit _ _ Hp) as Hpl.
  assert (zlen (ps ++ [c]) = zlen ps + 1) as Hlen by (by rewrite zlen_app).
  assert (sp ∈ ps) as Hsp by (pose proof (pk_head _ _ Hp); destruct ps as [|q ps]; [done|]; simplify_eq/=; by left).
  split; rewrite ?Hlen; try done.
  - pose proof (pk_head _ _ Hp). by destruct ps.
  - intros p [?| ->%list_elem_of_singleton]%elem_of_app; [by apply (pk_nodes _ _ Hp)|done].
  - lia.
  - destruct (pk_size _ _ Hp) as (l0 & [Hnd0 Hl0] & ->). exists (l0 ++ l). split; [|rewrite zlen_app; lia]. split.
    + apply NoDup_app. split_and!; [done| |done]. intros x [Hx _]%Hl0 [_ Hx']%Hl. done.
    + intros x. rewrite elem_of_app, Hl0, Hl. unfold added_by. split.
      * intros [[(p & Hpp & Hxp) Hn]|[Hxc Hn]]; (split; [|try done]); [exists p; split; [apply elem_of_app; by left|done]|exists c; split; [apply elem_of_app; right; by left|done]|].
        intros Hxs. apply Hn. by exists sp.
      * intros [(p & Hpp & Hxp) Hn]. assert (x ∈ nodes) as Hx.
        { eapply anc_nodes; [|exact Hxp]. apply elem_of_app in Hpp as [Hpp| ->%list_elem_of_singleton]; [by apply (pk_nodes _ _ Hp)|done]. }
        destruct (ancestorOfAny_read x ps Hx (pk_nodes _ _ Hp)) as (r & _ & Hr). destruct r; [left; split; [by apply Hr|done]|]. right.
        assert (¬ past_of ps x) as Hnp by (by intros ?%Hr). split; [|done]. apply elem_of_app in Hpp as [Hpp| ->%list_elem_of_singleton]; [|done]. destruct Hnp. by exists p.
  - pose proof (zlen_nonneg ps). destruct Hlim as [->|?]; lia.
Qed.

Lemma pickLoop_spec fuel : ∀ candidates ps m, (ranks candidates < fuel)%nat → (∀ c, c ∈ candidates → c ∈ nodes) → antichain (ps ++ candidates) → picked ps m →
  ∃ ps' n, pickLoop vm fuel candidates ps m s = (s, Ret ps') ∧ picked ps' n ∧ ps `prefix_of` ps' ∧ ∀ p, p ∈ ps' → past_of (ps ++ candidates) p.
Proof using Hok Hlimit Hsmall.
  assert (∀ l x, x ∈ l → past_of l x) as Hself by (intros l x Hx; exists x; split; [done|apply anc_refl]).
  induction fuel as [|fuel IH]; intros candidates ps m Hf Hc Ha Hp; [lia|]. cbn [pickLoop]. destruct candidates as [|c candidates].
  { exists ps, m. split_and!; try done. intros p Hpp. apply Hself. by rewrite app_nil_r. }
  destruct (Z.leb_spec (vm_maxBlockParents vm) (zlen ps)) as [|Hmax].
  { exists ps, m. split_and!; try done. intros p Hpp. apply Hself, elem_of_app. by left. }
  assert (c ∈ nodes) as Hcn by (apply Hc; by left). pose proof (rank_pos c Hcn) as Hrank. unfold ranks in Hf. simpl in Hf. fold (ranks candidates) in Hf.
  assert (∀ p, p ∈ ps → ¬ anc c p ∧ ¬ anc p c) as Hapart.
  { intros p Hpp. destruct Ha as [Hnd Ha]. assert (p ≠ c) by (intros ->; apply NoDup_app in Hnd as (_ & Hnd & _); apply (Hnd c Hpp); by left).
    assert (p ∈ ps ++ c :: candidates) by (apply elem_of_app; by left). assert (c ∈ ps ++ c :: candidates) by (apply elem_of_app; right; by left).
    split; apply Ha; done. }
  pose proof (picked_bound _ _ Hp) as Hb.
  destruct (mergeSetIncrease_spec c ps m Hcn (pk_nodes _ _ Hp)) as (r & Hr & Hinc); [intros (p & Hpp & Hcp); by destruct (Hapart p Hpp)|lia|].
  rewrite (bind_ret_l _ _ _ _ _ Hr). destruct r as [n|x].
  - assert (antichain ((ps ++ [c]) ++ candidates)) as Ha' by (by rewrite <- app_assoc).
    assert (picked (ps ++ [c]) (m + n)) as Hp' by (apply picked_snoc; try done; eapply antichain_sub, Ha'; by apply sublist_inserts_r).
    pose proof (picked_bound _ _ Hp'). rewrite GoInt.uint64_id by lia.
    destruct (IH candidates (ps ++ [c]) (m + n)) as (ps' & n' & Hrun & Hpk & Hpre & Hpast); try done; [lia|intros; apply Hc; by right|].
    exists ps', n'. split_and!; try done; [by eapply prefix_app_l|]. by rewrite <- app_assoc in Hpast.
  - destruct Hinc as (Hxc & [Hxa Hxp] & _). assert (x ∈ nodes) as Hxn by (by eapply anc_nodes).
    assert (∀ c', c' ∈ candidates → c' ∈ nodes) as Hcs by (intros; apply Hc; by right).
    assert (antichain (ps ++ candidates)) as Ha' by (eapply antichain_sub, Ha; apply sublist_app; [done|by constructor]).
    assert (∀ p, past_of (ps ++ candidates) p → past_of (ps ++ c :: candidates) p) as Hmono.
    { intros p (q & Hq & Hpq). exists q. split; [|done]. apply elem_of_app. apply elem_of_app in Hq as [?|?]; [by left|right; by right]. }
    destruct (anyAncestorOf_read candidates x Hxn Hcs) as (r & Hr' & Hany). rewrite (bind_ret_l _ _ _ _ _ Hr'). destruct r.
    + destruct (IH candidates ps m) as (ps' & n & Hrun & Hpk & Hpre & Hpast); try done; [lia|]. exists ps', n. split_and!; try done. intros p Hpp. by apply Hmono, Hpast.
    + destruct (removeHashes_read candidates x Hxn Hcs) as (l & Hl & Hsub & Hin). rewrite (bind_ret_l _ _ _ _ _ Hl).
      pose proof (ranks_sublist _ _ Hsub). pose proof (rank_lt x c Hcn Hxa Hxc).
      destruct (IH (l ++ [x]) ps m) as (ps' & n & Hrun & Hpk & Hpre & Hpast); try done.
      * rewrite ranks_snoc. lia.
      * intros y [Hy| ->%list_elem_of_singleton]%elem_of_app; [|done]. apply Hcs. by eapply elem_of_sublist.
      * rewrite app_assoc. apply antichain_snoc; [eapply antichain_sub, Ha'; by apply sublist_app| |].
        { intros y [Hy|Hy]%elem_of_app; [intros Hyx; destruct (Hapart y Hy) as [_ Hna]; apply Hna; by eapply anc_trans|]. intros Hyx. assert (false = true); [|done]. apply Hany. exists y. split; [|done]. by apply Hin. }
        { intros y [Hy|Hy]%elem_of_app; [intros Hyx; apply Hxp; by exists y|]. by apply Hin. }
      * exists ps', n. split_and!; try done. intros p (q & Hq & Hpq)%Hpast. apply elem_of_app in Hq as [Hq|[Hq| ->%list_elem_of_singleton]%elem_of_app].
        { exists q. split; [apply elem_of_app; by left|done]. }
        { apply Hmono. exists q. split; [apply elem_of_app; right; by apply Hin|done]. }
        { exists c. split; [apply elem_of_app; right; by left|by eapply anc_trans]. }
Qed.
End Pick.

(** ** boundedMergeBreakingParents

    The bad reds are in the past of the parents, and the parents are an antichain: only a bad red can have a parent in its past. *)
Lemma breakingParents_spec ps badReds : (∀ p, p ∈ ps → p ∈ nodes) → (∀ r, r ∈ badReds → past_of ps r) → antichain ps →
  breakingParents ps badReds s = (s, Ret (filter (λ p, p ∈ badReds) ps)).
Proof using Hok.
  intros Hps Hbad Hanti. assert (∀ r, r ∈ badReds → r ∈ nodes) as Hbn by (intros r (p & Hp & Ha)%Hbad; eapply anc_nodes; [|exact Ha]; by apply Hps).
  assert (∀ p, p ∈ ps → past_of badReds p ↔ p ∈ badReds) as Hiff.
  { intros p Hp. split; [|intros Hr; exists p; split; [done|apply anc_refl]]. intros (r & Hr & Hpr). destruct (Hbad r Hr) as (q & Hq & Hrq).
    assert (p = q) as -> by (destruct (decide (p = q)) as [|Hne]; [done|]; destruct (proj2 Hanti p q Hp Hq Hne); by eapply anc_trans).
    by rewrite (anc_antisym q r (Hbn r Hr) Hpr Hrq). }
  clear Hbad Hanti. induction ps as [|p ps IH]; cbn [breakingParents]; [done|].
  destruct (ancestorOfAny_read p badReds) as (r & Hr & Hans); [apply Hps; by left|done|]. rewrite (bind_ret_l _ _ _ _ _ Hr).
  rewrite (bind_ret_l _ _ _ _ _ (IH (λ q Hq, Hps q ltac:(by right)) (λ q Hq, Hiff q ltac:(by right)))). rewrite filter_cons. rewrite (Hiff p ltac:(by left)) in Hans.
  destruct r; [rewrite decide_True by (by apply Hans); done|rewrite decide_False by (by intros ?%Hans); done].
Qed.
End Parents.
