(* ===== verification/VirtualSelect.v ===== *)
(** * The selected parent of the virtual block

    [selectVirtualSelectedParent] goes through the tips from the greatest one down, and through the parents of blocks all of whose
    children it has turned down; it always finds a valid block.  What is left on the heap forms an antichain with it, from which
    the other parents are picked. *)
From stdpp Require Import sorting.
From S2P Require Import Prelude Externalapi UtxoDiff ScriptNum ScriptStack OpcodeTable Script Hashing SigCache Opcode Engine.
From S2P Require Import Interval ReachabilityData Reachability ReachabilityTree ReachabilityAdd DagTopology Block Merkle Ghostdag GhostdagOrder Heap Window DifficultyManager Traversal HeaderValidation TransactionValidator PastUtxo Coinbase VerifyUtxo ResolveStatus VirtualBlock VirtualParents.
Import TransactionHashing SigCache Opcode Heap BlockHeap Ghostdag DagTopology Traversal Header HeaderValidation TransactionValidator PastUtxo VerifyUtxo ResolveStatus VirtualBlock.
Local Open Scope Z_scope.
Local Open Scope prog_scope.

Abbreviation hash := (list Z) (only parsing).

(** ** A heap with the greatest block first *)
Section DownHeap.
Variable S : gmap (list Z) BlockGHOSTDAGData.

Definition node_ge (a b : blockHeapNode) : Prop := node_le b a.

Record down_heap (bh : blockHeap) (hs : list hash) : Prop := {
  dh_down : bh_down bh = true;
  dh_heap : heap_ok node_ge (bh_slice bh);
  dh_nodes : nodes_ok S (bh_slice bh);
  dh_hashes : map hn_hash (bh_slice bh) ≡ₚ hs
}.

Lemma downHeap_true a b : downHeap_Less a b = true → node_ge a b.
Proof. unfold downHeap_Less. by intros ?%negb_true_iff. Qed.
Lemma downHeap_false a b : downHeap_Less a b = false → node_ge b a.
Proof. unfold downHeap_Less. intros Hl%negb_false_iff. by apply node_less_true. Qed.
Lemma node_ge_trans a b c : node_ge a b → node_ge b c → node_ge a c.
Proof. unfold node_ge. intros H1 H2. by eapply node_le_trans. Qed.

Lemma NewDownHeap_ok : down_heap NewDownHeap [].
Proof. split; [done|intros i x p; simpl; lia|by intros n ?%elem_of_nil|done]. Qed.

Lemma down_heap_perm bh hs hs' : hs ≡ₚ hs' → down_heap bh hs → down_heap bh hs'.
Proof. intros E []. split; try done. by etrans. Qed.

Lemma bh_Push_spec bh hs x : down_heap bh hs → x ∈ dom S → ∃ bh', bh_Push S bh x = Ret bh' ∧ down_heap bh' (x :: hs).
Proof.
  intros [Hd Hh Hn Hp] Hx. unfold bh_Push. rewrite Get_known by done. cbn [obind]. set (node := {| hn_hash := x |}). unfold bh_Less. rewrite Hd.
  destruct (heap_Push_spec downHeap_Less node_ge (λ a, node_le_refl a) node_ge_trans downHeap_true downHeap_false (bh_slice bh) node Hh) as [Hh' Hperm].
  eexists. split; [done|]. split; simpl; [done|done| |by rewrite Hperm; simpl; rewrite Hp].
  intros n. rewrite Hperm. intros [->|Hin]%elem_of_cons; [done|by apply Hn].
Qed.

Lemma PushSlice_spec l : ∀ bh hs, down_heap bh hs → (∀ x, x ∈ l → x ∈ dom S) → ∃ bh', PushSlice S bh l = Ret bh' ∧ down_heap bh' (l ++ hs).
Proof.
  induction l as [|x l IH]; intros bh hs Hh Hl; cbn [PushSlice]; [by exists bh|].
  destruct (bh_Push_spec bh hs x Hh) as (bh1 & -> & H1); [apply Hl; by left|]. cbn [obind].
  destruct (IH bh1 (x :: hs) H1) as (bh' & -> & H'); [intros; apply Hl; by right|]. exists bh'. split; [done|]. eapply down_heap_perm; [|done].
  by rewrite <- Permutation_middle.
Qed.

Lemma bh_Pop_spec bh hs : down_heap bh hs → hs ≠ [] →
  ∃ x bh' hs', bh_Pop bh = Ret (x, bh') ∧ down_heap bh' hs' ∧ hs ≡ₚ x :: hs' ∧ x ∈ dom S ∧ ∀ y, y ∈ hs → sorted_by S y x.
Proof.
  intros [Hd Hh Hn Hp] Hne. assert (bh_slice bh ≠ []) as Hs by (intros E; rewrite E in Hp; simpl in Hp; by apply Permutation_nil_l in Hp).
  destruct (heap_Pop_spec downHeap_Less node_ge (λ a, node_le_refl a) node_ge_trans downHeap_true downHeap_false _ Hs Hh) as (m & h' & Hpop & Hh' & Hperm & _ & Hmax).
  assert (m ∈ bh_slice bh) as Hm by (rewrite Hperm; by left).
  exists (hn_hash m), {| bh_down := bh_down bh; bh_slice := h' |}, (map hn_hash h'). unfold bh_Pop, bh_Less. rewrite Hd, Hpop. split_and!; [done| | | |].
  - split; [done|done| |done]. intros n Hin. apply Hn. rewrite Hperm. by right.
  - by rewrite <- Hp, Hperm.
  - by apply Hn.
  - intros y. rewrite <- Hp. intros (n & -> & Hin)%list_elem_of_fmap. apply (node_le_sorted S (bh_slice bh)); [done..|]. by apply Hmax.
Qed.

Lemma popAll_spec n : ∀ bh hs, length hs = n → down_heap bh hs → ∃ l, popAll n bh = Ret l ∧ l ≡ₚ hs.
Proof.
  induction n as [|n IH]; intros bh hs Hlen Hh; cbn [popAll]; [exists []; by destruct hs|].
  destruct (bh_Pop_spec bh hs Hh) as (x & bh' & hs' & -> & Hh' & Hperm & _); [by intros ->|]. cbn [obind].
  destruct (IH bh' hs') as (l & -> & Hl); [rewrite Hperm in Hlen; simpl in Hlen; lia|done|]. exists (x :: l). split; [done|]. by rewrite Hl, Hperm.
Qed.

Lemma ToSlice_spec bh hs : down_heap bh hs → ∃ l, ToSlice bh = Ret l ∧ l ≡ₚ hs.
Proof. intros Hh. apply popAll_spec; [|done]. by rewrite <- (dh_hashes _ _ Hh), length_map. Qed.
End DownHeap.

(** ** Selecting *)
Section Select.
Context `{Libs} `{MuHash}.
Variables (vm : virtualManager) (dag_parents : list Z → list (list Z)) (root : list Z) (s : virtualState).
Abbreviation dtm := (dtm_of (consensus_of s)).
Abbreviation nodes := (dom (reachabilityDataStore (dt_reachabilityManager (dtm_of (consensus_of s))))).
Abbreviation gd := (ghostdag_of (consensus_of s)).
Abbreviation anc := (dag_anc dag_parents).
Abbreviation status x := (rs_statuses (vs_resolve s) !! x).

(** A block that is not only a header. *)
Definition body (x : hash) : Prop := x ∈ nodes ∧ status x ≠ Some StatusHeaderOnly.

(** The stores describe the DAG, in which the blocks with bodies have parents with bodies and every parent is smaller than its children. *)
Record virtual_ok : Prop := {
  vo_dag : graph_ok dag_parents root s;
  vo_relations : relations_ok (dt_blockRelationStore dtm);
  vo_children x r c : x ∈ nodes → dt_blockRelationStore dtm !! x = Some r → c ∈ br_Children r → c = VirtualBlockHash ∨ c ∈ nodes;
  vo_virtual : VirtualBlockHash ∉ nodes;
  vo_ghostdag x : x ∈ nodes → x ∈ dom gd;
  vo_sorted x p : x ∈ nodes → p ∈ dag_parents x → sorted_by gd p x;
  vo_status x : x ∈ nodes → is_Some (status x);
  vo_bodies x p : body x → p ∈ dag_parents x → body p
}.
Hypothesis Hok : virtual_ok.

Lemma onData_read {A} (o : gmap hash BlockGHOSTDAGData → outcome ghostdagError A) a : o gd = Ret a → onData o s = (s, Ret a).
Proof using Type. intros Ho. apply onConsensus_read. unfold reading. by rewrite Ho. Qed.

Lemma status_read x st : status x = Some st → onResolve (statusOf x) s = (s, Ret st).
Proof using Type.
  intros Hst. unfold onResolve, statusOf, bind, get, found, accepting, lift_outcome, Get. rewrite Hst. simpl. by destruct s.
Qed.

(** [c] is a child of [x] that counts. *)
Definition child_of (x c : hash) : Prop := body c ∧ x ∈ dag_parents c.

Lemma body_dec x : x ∈ nodes → body x ∨ status x = Some StatusHeaderOnly.
Proof using Type. intros Hx. destruct (decide (status x = Some StatusHeaderOnly)); [by right|left; by split]. Qed.

Lemma nonHeadersOnly_spec l : (∀ c, c ∈ l → c = VirtualBlockHash ∨ c ∈ nodes) → ∃ l', nonHeadersOnly l s = (s, Ret l') ∧ ∀ c, c ∈ l' ↔ c ∈ l ∧ body c.
Proof using Hok.
  induction l as [|c l IH]; intros Hl; cbn [nonHeadersOnly].
  { exists []. split; [done|]. intros c. split; [by intros ?%elem_of_nil|by intros [?%elem_of_nil _]]. }
  destruct IH as (l' & Hrun & Hin); [intros; apply Hl; by right|].
  assert (∀ l2 : list hash, (∀ c', c' ∈ l2 ↔ c' ∈ l' ∨ c' = c ∧ body c) → ∀ c', c' ∈ l2 ↔ c' ∈ c :: l ∧ body c') as Hext.
  { intros l2 H2 c'. rewrite H2, Hin, elem_of_cons. split; [intros [[? ?]|[-> ?]]; tauto|]. intros [[->|?] ?]; tauto. }
  case_bool_decide as Hc.
  - exists l'. split; [done|]. apply Hext. intros c'. split; [tauto|]. intros [?|[_ [Hb _]]]; [done|]. subst c. by destruct (vo_virtual Hok).
  - destruct (Hl c) as [|Hcn]; [by left|done|]. destruct (vo_status Hok c Hcn) as [st Hst]. rewrite (bind_ret_l _ _ s s st) by (by apply status_read).
    case_bool_decide as Hh.
    + exists l'. split; [done|]. apply Hext. intros c'. split; [tauto|]. intros [?|[_ [_ Hb]]]; [done|]. destruct Hb. by rewrite Hst, Hh.
    + rewrite (bind_ret_l _ _ _ _ _ Hrun). exists (c :: l'). split; [done|]. apply Hext. intros c'. rewrite elem_of_cons.
      assert (body c) by (split; [done|]; rewrite Hst; congruence). tauto.
Qed.

Lemma children_read p : p ∈ nodes → ∃ l, dag (dtm_Children p) s = (s, Ret l) ∧ (∀ c, c ∈ l → c = VirtualBlockHash ∨ c ∈ nodes) ∧ ∀ c, c ∈ nodes → c ∈ l ↔ p ∈ dag_parents c.
Proof using Hok.
  intros Hp. pose proof (dk_parents _ _ _ (vo_dag Hok) p Hp) as Hr. destruct (dt_blockRelationStore dtm !! p) as [r|] eqn:Er; [|done].
  destruct (vo_relations Hok p r Er) as (_ & _ & Hch).
  exists (br_Children r). split; [|split].
  - apply dag_read. unfold dtm_Children, BlockRelation, bind, get. by rewrite Er.
  - intros c. by apply (vo_children Hok p r).
  - intros c Hc. pose proof (dk_parents _ _ _ (vo_dag Hok) c Hc) as Hrc. split.
    + intros (rc & Erc & Hin)%Hch. rewrite Erc in Hrc. simpl in Hrc. by injection Hrc as <-.
    + intros Hin. destruct (dt_blockRelationStore dtm !! c) as [rc|] eqn:Erc; [|done]. simpl in Hrc. injection Hrc as Hrc. rewrite <- Hrc in Hin.
      destruct (vo_relations Hok c rc Erc) as (_ & Hpar & _). destruct (Hpar p Hin) as (rp & Erp & ?). rewrite Er in Erp. by injection Erp as <-.
Qed.

Lemma forallb_false {A} (f : A → bool) l : forallb f l = false → ∃ x, x ∈ l ∧ f x = false.
Proof using Type.
  induction l as [|x l IH]; [done|]. simpl. intros [Hx|Hl]%andb_false_iff; [exists x; split; [by left|done]|]. destruct (IH Hl) as (y & ? & ?). exists y. split; [by right|done].
Qed.

(** The parents that are pushed are those without a child that is still in play. *)
Lemma pushParents_spec D l : ∀ bh hs, (∀ p, p ∈ l → p ∈ nodes) → down_heap gd bh hs →
  ∃ bh' pushed, pushParents l D bh s = (s, Ret bh') ∧ down_heap gd bh' (pushed ++ hs) ∧ pushed `sublist_of` l ∧
    (∀ p c, p ∈ pushed → child_of p c → c ∈ D) ∧ ∀ p, p ∈ l → p ∈ pushed ∨ ∃ c, child_of p c ∧ c ∉ D.
Proof using Hok.
  induction l as [|p l IH]; intros bh hs Hl Hh; cbn [pushParents].
  { exists bh, []. split_and!; try done; [by intros p c ?%elem_of_nil|by intros p ?%elem_of_nil]. }
  assert (p ∈ nodes) as Hp by (apply Hl; by left). assert (∀ q, q ∈ l → q ∈ nodes) as Hl' by (intros; apply Hl; by right).
  destruct (children_read p Hp) as (ch & Hch & Hchn & Hchp). rewrite (bind_ret_l _ _ _ _ _ Hch).
  destruct (nonHeadersOnly_spec ch Hchn) as (ch' & Hch' & Hin). rewrite (bind_ret_l _ _ _ _ _ Hch').
  assert (∀ c, c ∈ ch' ↔ child_of p c) as Hin'.
  { intros c. rewrite Hin. split; [intros [Hc Hb]; split; [done|]; apply Hchp; [apply Hb|done]|]. intros [Hb Hc]. split; [|done]. apply Hchp; [apply Hb|done]. }
  destruct (forallb _ ch') eqn:E.
  - rewrite forallb_forall in E.
    destruct (bh_Push_spec gd bh hs p Hh) as (bh1 & Hpush & H1); [by apply (vo_ghostdag Hok)|]. rewrite (bind_ret_l _ _ s s bh1) by (by apply onData_read).
    destruct (IH bh1 (p :: hs) Hl' H1) as (bh' & pushed & Hrun & Hh' & Hsub & Hin1 & Hin2). exists bh', (p :: pushed). split; [done|]. split; [|split_and!].
    + eapply down_heap_perm; [|done]. by rewrite <- Permutation_middle.
    + by constructor.
    + intros q c [->|Hq]%elem_of_cons Hc; [|by apply (Hin1 q)]. by apply (bool_decide_eq_true_1 _ (E c (proj1 (list_elem_of_In _ _) (proj2 (Hin' c) Hc)))).
    + intros q [->|Hq]%elem_of_cons; [left; by left|]. destruct (Hin2 q Hq); [left; by right|by right].
  - rewrite (bind_ret_l _ _ s s bh) by done. destruct (IH bh hs Hl' Hh) as (bh' & pushed & Hrun & Hh' & Hsub & Hin1 & Hin2). exists bh', pushed. split_and!; try done.
    + by constructor.
    + intros q [->|Hq]%elem_of_cons; [|by apply Hin2]. right. apply forallb_false in E as (c & Hc & HcD%bool_decide_eq_false). exists c. split; [by apply Hin'|done].
Qed.

(** [D] are the candidates that were turned down, [hs] those on the heap. *)
Record selecting (D : gset hash) (hs : list hash) : Prop := {
  sl_bodies x : x ∈ hs → body x;
  sl_nodup : NoDup hs;
  sl_fresh x : x ∈ hs → x ∉ D;
  sl_children x c : x ∈ hs → child_of x c → c ∈ D;
  sl_down x : x ∈ D → x ∈ nodes ∧ status x ≠ Some StatusUTXOValid;
  sl_closed x c : x ∈ D → child_of x c → c ∈ D;
  sl_cover x : body x → x ∈ D ∨ x ∈ hs ∨ ∃ c, child_of x c ∧ c ∉ D
}.

Lemma selecting_perm D hs hs' : hs ≡ₚ hs' → selecting D hs → selecting D hs'.
Proof using Type.
  intros E [H1 H2 H3 H4 H5 H6 H7]. split; try done.
  - intros x. rewrite <- E. apply H1.
  - by rewrite <- E.
  - intros x. rewrite <- E. apply H3.
  - intros x c. rewrite <- E. apply H4.
  - intros x. rewrite <- E. apply H7.
Qed.

(** Everything above a candidate that was turned down was turned down. *)
Lemma selecting_above D hs x y : selecting D hs → x ∈ D → body y → anc x y → y ∈ D.
Proof using Hok.
  intros Hs Hx Hy Ha. induction Ha as [|y z x Hz Hzx IH]; [done|]. apply (sl_closed _ _ Hs z).
  - apply IH; [done|]. by apply (vo_bodies Hok y).
  - by split.
Qed.

Lemma selecting_antichain D hs : selecting D hs → antichain dag_parents hs.
Proof using Hok.
  intros Hs. split; [apply (sl_nodup _ _ Hs)|]. intros a b Hla Hlb Hne Hab. apply (sl_fresh _ _ Hs b Hlb).
  pose proof (sl_bodies _ _ Hs b Hlb) as Hb. apply rtc_inv_r in Hab as [->|(c & Hbc & Hca)]; [done|]. apply (selecting_above D hs c b Hs); [|done|done].
  apply (sl_children _ _ Hs a c Hla). split; [|done]. clear -Hok Hb Hbc. induction Hbc as [|y z c Hz Hzc IH]; [done|]. apply IH. by apply (vo_bodies Hok y).
Qed.

Lemma anc_sorted_all x y : y ∈ nodes → anc x y → sorted_by gd x y.
Proof using Hok.
  intros Hy Ha. induction Ha as [|y z x Hz Hzx IH]; [reflexivity|]. assert (z ∈ nodes) as Hzn by (eapply anc_nodes; [apply (vo_dag Hok)|exact Hy|by apply anc_parent]).
  etrans; [by apply IH|]. by apply (vo_sorted Hok).
Qed.

(** A block that was not turned down is in the past of the heap. *)
Lemma selecting_reached D hs x : selecting D hs → body x → x ∉ D → ∃ h, h ∈ hs ∧ anc x h.
Proof using Hok.
  intros Hs. remember (size nodes - rank s x)%nat as n eqn:En. revert x En. induction (lt_wf n) as [n _ IH]. intros x -> Hx Hd.
  destruct (sl_cover _ _ Hs x Hx) as [?|[Hh|(c & [Hc Hxc] & Hcd)]]; [done|exists x; split; [done|apply anc_refl]|].
  assert (rank s x < rank s c)%nat as Hlt.
  { eapply rank_lt; [apply (vo_dag Hok)|apply Hc|by apply anc_parent|]. intros ->. apply (dk_acyclic _ _ _ (vo_dag Hok) c (proj1 Hc)). exists c. split; [done|apply anc_refl]. }
  pose proof (rank_le s c). destruct (IH (size nodes - rank s c)%nat ltac:(lia) c eq_refl Hc Hcd) as (h & Hh & Hch). exists h. split; [done|].
  eapply anc_trans; [by apply anc_parent|done].
Qed.

Lemma selecting_step D x hs pushed : selecting D (x :: hs) → status x ≠ Some StatusUTXOValid → pushed `sublist_of` dag_parents x →
  (∀ p c, p ∈ pushed → child_of p c → c ∈ {[ x ]} ∪ D) → (∀ p, p ∈ dag_parents x → p ∈ pushed ∨ ∃ c, child_of p c ∧ c ∉ {[ x ]} ∪ D) → selecting ({[ x ]} ∪ D) (pushed ++ hs).
Proof using Hok.
  intros Hs Hst Hsub Hpi Hpo. pose proof (sl_bodies _ _ Hs x ltac:(by left)) as Hx. pose proof (vo_dag Hok) as Hdag.
  assert (x ∉ D) as HxD by (apply (sl_fresh _ _ Hs); by left). pose proof (sl_nodup _ _ Hs) as [Hxh Hnd]%NoDup_cons.
  assert (∀ p, p ∈ pushed → child_of p x) as Hpx by (intros p Hp; split; [done|by eapply elem_of_sublist]).
  split.
  - intros y [Hy|Hy]%elem_of_app; [|apply (sl_bodies _ _ Hs); by right]. apply (vo_bodies Hok x); [done|]. by apply Hpx.
  - apply NoDup_app. split_and!; [|intros p Hp Hph; apply HxD, (sl_children _ _ Hs p x); [by right|by apply Hpx]|done].
    eapply sublist_NoDup; [|exact Hsub]. by apply (dk_nodup _ _ _ Hdag), Hx.
  - intros y Hy [->%elem_of_singleton|HyD]%elem_of_union.
    + apply elem_of_app in Hy as [Hy|Hy]; [|done]. destruct (Hpx x Hy) as [_ Hxx]. apply (dk_acyclic _ _ _ Hdag x (proj1 Hx)). exists x. split; [done|apply anc_refl].
    + apply elem_of_app in Hy as [Hy|Hy]; [|by apply (sl_fresh _ _ Hs y); [right|]]. apply HxD. eapply (sl_closed _ _ Hs); [exact HyD|by apply Hpx].
  - intros y c [Hy|Hy]%elem_of_app Hc; [by apply (Hpi y)|]. apply elem_of_union. right. eapply (sl_children _ _ Hs); [by right|done].
  - intros y [->%elem_of_singleton|HyD]%elem_of_union; [|by apply (sl_down _ _ Hs)]. split; [apply Hx|done].
  - intros y c [->%elem_of_singleton|HyD]%elem_of_union Hc; apply elem_of_union; right; [eapply (sl_children _ _ Hs); [by left|done]|by eapply (sl_closed _ _ Hs)].
  - intros y Hy. destruct (sl_cover _ _ Hs y Hy) as [?|[[->|?]%elem_of_cons|(c & Hc & HcD)]].
    + left. apply elem_of_union. by right.
    + left. apply elem_of_union. left. by apply elem_of_singleton.
    + right. left. apply elem_of_app. by right.
    + destruct (decide (c = x)) as [->|Hne].
      * destruct (Hpo y (proj2 Hc)) as [?|?]; [right; left; apply elem_of_app; by left|by right; right].
      * right. right. exists c. split; [done|]. intros [->%elem_of_singleton|?]%elem_of_union; done.
Qed.

(** What is selected is the greatest valid block; with the rest of the heap it is an antichain. *)
Record selected (sp : hash) (rest : list hash) : Prop := {
  se_body : body sp;
  se_valid : status sp = Some StatusUTXOValid;
  se_greatest x : body x → status x = Some StatusUTXOValid → sorted_by gd x sp;
  se_rest x : x ∈ rest → body x;
  se_antichain : antichain dag_parents (sp :: rest)
}.

Lemma selectLoop_spec x0 : body x0 → status x0 = Some StatusUTXOValid → ∀ fuel D bh hs, selecting D hs → down_heap gd bh hs → (size nodes < size D + fuel)%nat →
  ∃ sp bh' rest, selectLoop fuel D bh s = (s, Ret (sp, bh')) ∧ down_heap gd bh' rest ∧ selected sp rest.
Proof using Hok.
  intros Hx0 Hv0. induction fuel as [|fuel IH]; intros D bh hs Hs Hh Hf.
  { exfalso. assert (D ⊆ nodes) as Hsub by (intros x Hx; by apply (sl_down _ _ Hs)). apply subseteq_size in Hsub. lia. }
  cbn [selectLoop]. destruct (selecting_reached D hs x0 Hs Hx0) as (h0 & Hh0 & _).
  { intros Hd. by apply (sl_down _ _ Hs) in Hd as [_ ?]. }
  assert (hs ≠ []) as Hne by (intros ->; by apply elem_of_nil in Hh0).
  rewrite (proj2 (Z.eqb_neq _ _)).
  2:{ unfold bh_Len, zlen. pose proof (Permutation_length (dh_hashes _ _ _ Hh)) as Hl. rewrite length_map in Hl. destruct hs; [done|]. simpl in Hl. lia. }
  destruct (bh_Pop_spec gd bh hs Hh Hne) as (x & bh1 & hs1 & Hpop & Hh1 & Hperm & _ & Hmax). rewrite (bind_ret_l _ _ s s (x, bh1)) by (by apply onData_read).
  assert (x ∈ hs) as Hx by (rewrite Hperm; by left). pose proof (sl_bodies _ _ Hs x Hx) as Hbx. destruct (vo_status Hok x (proj1 Hbx)) as [st Hst].
  rewrite (bind_ret_l _ _ s s st) by (by apply status_read). case_bool_decide as Hvalid.
  - subst st. exists x, bh1, hs1. split; [done|]. split; [done|]. pose proof (selecting_perm _ _ _ Hperm Hs) as Hs'. split; try done.
    + intros y Hy Hyv. destruct (selecting_reached D hs y Hs Hy) as (h & Hin & Hyh); [intros Hd; by apply (sl_down _ _ Hs) in Hd as [_ ?]|].
      etrans; [|by apply Hmax]. apply anc_sorted_all; [|done]. by apply (sl_bodies _ _ Hs).
    + intros y Hy. apply (sl_bodies _ _ Hs'). by right.
    + by apply (selecting_antichain D).
  - cbv zeta. rewrite (bind_ret_l _ _ s s (dag_parents x)) by (eapply parents_read; [apply (vo_dag Hok)|apply Hbx]).
    destruct (pushParents_spec ({[ x ]} ∪ D) (dag_parents x) bh1 hs1) as (bh2 & pushed & Hpush & Hh2 & Hsub & Hin1 & Hin2); [|done|].
    { intros p Hp. by apply (vo_bodies Hok x). }
    rewrite (bind_ret_l _ _ _ _ _ Hpush). apply (IH _ _ (pushed ++ hs1)); [|done|].
    + apply selecting_step; try done; [by apply (selecting_perm _ _ _ Hperm)|]. rewrite Hst. congruence.
    + rewrite size_union, size_singleton; [lia|]. apply disjoint_singleton_l. by apply (sl_fresh _ _ Hs).
Qed.

(** The tips are the blocks with bodies that have no child with one. *)
Definition tips_ok (tips : list hash) : Prop := NoDup tips ∧ ∀ x, x ∈ tips ↔ body x ∧ ∀ c, ¬ child_of x c.

Lemma tips_selecting tips : tips_ok tips → (∀ x, body x → x ∈ tips ∨ ∃ c, child_of x c) → selecting ∅ tips.
Proof using Type.
  intros [Hnd Ht] Hdec. split; try done.
  - intros x Hx. by apply Ht.
  - intros x c [_ Hx]%Ht Hc. by destruct (Hx c).
  - intros x Hx. destruct (Hdec x Hx) as [?|(c & Hc)]; [by right; left|]. right. right. exists c. split; [done|]. by intros ?%elem_of_empty.
Qed.

(** A block without children can be told apart. *)
Lemma childless_dec x : body x → (∀ c, ¬ child_of x c) ∨ ∃ c, child_of x c.
Proof using Hok.
  intros Hx. destruct (children_read x (proj1 Hx)) as (l & _ & Hln & Hl). destruct (nonHeadersOnly_spec l Hln) as ([|c l'] & _ & Hin).
  - left. intros c [Hb Hc]. apply (not_elem_of_nil c), Hin. split; [|done]. apply Hl; [apply Hb|done].
  - right. exists c. destruct (proj1 (Hin c) ltac:(by left)) as [Hc Hb]. split; [done|]. apply Hl; [apply Hb|done].
Qed.

Lemma nodes_relations : (size nodes ≤ size (dt_blockRelationStore dtm))%nat.
Proof using Hok.
  rewrite <- (size_dom (dt_blockRelationStore dtm)). apply subseteq_size. intros x Hx. apply elem_of_dom. pose proof (dk_parents _ _ _ (vo_dag Hok) x Hx) as Hp.
  by destruct (dt_blockRelationStore dtm !! x).
Qed.

(** ** Picking *)
Lemma swapAt_spec (l : list hash) i j : 0 ≤ i < zlen l → 0 ≤ j < zlen l → ∃ l', swapAt l i j = Ret l' ∧ l' ≡ₚ l.
Proof using Type.
  intros Hi Hj. unfold swapAt. destruct (lookup_lt_is_Some_2 l (Z.to_nat i)) as [a Ha]; [unfold zlen in Hi; lia|].
  destruct (lookup_lt_is_Some_2 l (Z.to_nat j)) as [b Hb]; [unfold zlen in Hj; lia|]. unfold index. rewrite !decide_True by lia. rewrite Ha, Hb. cbn [obind].
  eexists. split; [done|]. by apply Permutation_insert_swap.
Qed.

Lemma prioritize_spec n : ∀ i e l, 0 ≤ i → i + Z.of_nat n ≤ zlen l → Z.of_nat n ≤ e + 1 → e < zlen l → ∃ l', prioritize n i e l = Ret l' ∧ l' ≡ₚ l.
Proof using Type.
  induction n as [|n IH]; intros i e l Hi Hn He Hl; cbn [prioritize]; [by exists l|].
  destruct (swapAt_spec l i e) as (l1 & -> & H1); [lia..|]. cbn [obind]. assert (zlen l1 = zlen l) as Hlen by (unfold zlen; by rewrite H1).
  destruct (IH (i + 1) (e - 1) l1) as (l' & -> & Hl'); [lia..|]. exists l'. split; [done|]. by etrans.
Qed.

Lemma pickParents_spec tips x0 : tips_ok tips → body x0 → status x0 = Some StatusUTXOValid →
  1 ≤ vm_maxBlockParents vm ≤ 255 → 1 ≤ vm_mergeSetSizeLimit vm → 2 * Z.of_nat (size nodes) + 2 < 2 ^ 64 →
  ∃ sp rest ps n, pickParents vm tips s = (s, Ret ps) ∧ selected sp rest ∧ picked vm dag_parents s sp ps n ∧ ∀ p, p ∈ ps → past_of dag_parents (sp :: rest) p.
Proof using Hok.
  intros Ht Hx0 Hv0 Hmax Hlim Hsmall. pose proof (vo_dag Hok) as Hdag. unfold pickParents.
  destruct (PushSlice_spec gd tips NewDownHeap [] (NewDownHeap_ok gd)) as (bh & Hpush & Hh).
  { intros x Hx. apply (vo_ghostdag Hok). by apply Ht. }
  rewrite (bind_ret_l _ _ s s bh) by (by apply onData_read). rewrite app_nil_r in Hh.
  destruct (selectLoop_spec x0 Hx0 Hv0 (Datatypes.S (size (dt_blockRelationStore dtm))) ∅ bh tips) as (sp & bh' & rest & Hsel & Hh' & Hse); [|done| |].
  { apply tips_selecting; [done|]. intros x Hx. destruct (childless_dec x Hx) as [Hno|?]; [left; by apply Ht|by right]. }
  { rewrite size_empty. pose proof nodes_relations. lia. }
  rewrite (bind_ret_l _ _ s s (sp, bh')) by (unfold selectVirtualSelectedParent; by rewrite (bind_ret_l _ _ s s s)).
  destruct (ToSlice_spec gd bh' rest Hh') as (cs & Hslice & Hcs). rewrite (bind_ret_l _ _ s s cs) by (by apply onData_read).
  assert (∃ cs', (if vm_maxBlockParents vm <=? zlen cs then
      lift_outcome (prioritize (Z.to_nat (GoInt.uint8 (vm_maxBlockParents vm - 1) - GoInt.uint8 (vm_maxBlockParents vm - 1) / 2))
        (GoInt.uint8 (vm_maxBlockParents vm - 1) / 2) (zlen cs - 1) cs) else ret cs) s = (s, Ret cs') ∧ cs' ≡ₚ rest) as (cs' & Hprio & Hcs').
  { rewrite GoInt.uint8_id by lia. destruct (Z.leb_spec (vm_maxBlockParents vm) (zlen cs)); [|by exists cs].
    assert (0 ≤ (vm_maxBlockParents vm - 1) / 2 ≤ vm_maxBlockParents vm - 1) by (split; [apply Z.div_pos; lia|apply Z.div_le_upper_bound; lia]).
    destruct (prioritize_spec (Z.to_nat (vm_maxBlockParents vm - 1 - (vm_maxBlockParents vm - 1) / 2)) ((vm_maxBlockParents vm - 1) / 2) (zlen cs - 1) cs) as (l' & Hl' & Hp); [lia..|].
    exists l'. unfold lift_outcome. rewrite Hl'. split; [done|]. by etrans. }
  rewrite (bind_ret_l _ _ _ _ _ Hprio). cbv zeta. rewrite (bind_ret_l _ _ s s s) by done. set (cands := take _ cs').
  assert (cands `sublist_of` cs') as Hsub by apply sublist_take.
  assert (antichain dag_parents (sp :: cands)) as Hanti.
  { eapply antichain_sub; [by apply sublist_skip|]. eapply antichain_perm; [|apply (se_antichain _ _ Hse)]. by rewrite Hcs'. }
  assert (∀ c, c ∈ cands → c ∈ rest) as Hin by (intros c Hc; rewrite <- Hcs'; by eapply elem_of_sublist).
  destruct (pickLoop_spec vm dag_parents root s Hdag sp Hlim Hsmall (Datatypes.S (length cands * size (dt_blockRelationStore dtm))) cands [sp] 1)
    as (ps & n & Hrun & Hpk & _ & Hpast).
  - assert (∀ l, (ranks s l ≤ length l * size nodes)%nat) as Hranks.
    { induction l as [|y l IH]; [done|]. unfold ranks in *. simpl. pose proof (rank_le s y). lia. }
    pose proof (Hranks cands). pose proof nodes_relations. nia.
  - intros c Hc. by apply (se_rest _ _ Hse), Hin.
  - done.
  - split; [done|intros p ->%list_elem_of_singleton; apply (se_body _ _ Hse)| |by apply Z.le_max_l| |change (zlen [sp]) with 1; lia].
    + eapply antichain_sub, Hanti. by apply sublist_skip, sublist_nil_l.
    + exists []. split; [|done]. split; [apply NoDup_nil_2|]. intros x. split; [by intros ?%elem_of_nil|]. intros [(p & ->%list_elem_of_singleton & Ha) Hn]. done.
  - exists sp, rest, ps, n. split_and!; try done. intros p Hp. destruct (Hpast p Hp) as (q & Hq & Hpq). exists q. split; [|done].
    apply elem_of_app in Hq as [->%list_elem_of_singleton|Hq]; [by left|right; by apply Hin].
Qed.

(** ** Tips *)

(** The tips when only [b] is missing: it was added to the DAG and is not a tip yet. *)
Definition tips_but (b : hash) (tips : list hash) : Prop := NoDup tips ∧ ∀ x, x ∈ tips ↔ body x ∧ x ≠ b ∧ ∀ c, c ≠ b → ¬ child_of x c.

Lemma addTip_spec b : b ≠ csm_genesisHash (vm_csm vm) → body b → (∀ c, ¬ child_of b c) → tips_but b (vs_tips s) →
  ∃ tips, addTip vm b s = ({| vs_resolve := vs_resolve s; vs_tips := tips |}, Ret tips) ∧ tips_ok tips.
Proof using Hok.
  intros Hgen Hb Hch [Hnd Ht]. set (tips := b :: filter (λ t, t ∉ dag_parents b) (vs_tips s)). exists tips. split.
  - unfold addTip, calculateNewTips. rewrite bool_decide_eq_false_2 by done. rewrite (bind_ret_l _ _ s s tips); [done|].
    rewrite (bind_ret_l _ _ s s s) by done. by rewrite (bind_ret_l _ _ s s (dag_parents b)) by (eapply parents_read; [apply (vo_dag Hok)|apply Hb]).
  - split.
    + apply NoDup_cons. split; [|by apply NoDup_filter]. intros [_ Hin]%list_elem_of_filter. by apply Ht in Hin as (_ & ? & _).
    + intros x. unfold tips. rewrite elem_of_cons, list_elem_of_filter, Ht. split.
      * intros [->|(Hnp & Hx & Hne & Hno)]; [done|]. split; [done|]. intros c Hc. destruct (decide (c = b)) as [->|Hcb]; [by destruct Hc|by apply (Hno c)].
      * intros [Hx Hno]. destruct (decide (x = b)) as [|Hne]; [by left|]. right. split; [|split_and!; [done|done|by intros c _]]. intros Hp. by apply (Hno b).
Qed.
End Select.
