(* ===== verification/VirtualProps.v ===== *)
(** * Properties of the virtual block

    The claims about the virtual block with their instances, and two executions that show where the code departs from what it means to do. *)
From S2P Require Import Prelude Externalapi UtxoDiff ScriptNum ScriptStack OpcodeTable Script Hashing SigCache Opcode Engine.
From S2P Require Import OpcodeSafety EngineSafety SigSpec CacheTransparency.
From S2P Require Import Interval ReachabilityData Reachability ReachabilityTree ReachabilityAdd Reindex DagTopology Block Merkle Ghostdag GhostdagOrder GhostdagColour Heap Window DifficultyManager Traversal HeaderValidation HeaderSafety TransactionValidator TransactionSafety PastUtxo UtxoAcceptance PastUtxoSpec Coinbase VerifyUtxo Supply ResolveStatus UtxoDiffChain ResolveSpec VirtualBlock VirtualSpec VirtualParents VirtualSelect.
Import TransactionHashing SigCache Opcode BlockHeap Reachability Reindex Ghostdag DagTopology Traversal Finality PastMedianTime Header HeaderValidation TransactionValidator PastUtxo VerifyUtxo ResolveStatus VirtualBlock.
Local Open Scope Z_scope.
Local Open Scope prog_scope.

Abbreviation hash := (list Z) (only parsing).

Section Described.
Context `{Libs} `{MuHash}.
Variables (dag_parents : list Z → list (list Z)) (k : Z) (root : list Z) (s : virtualState).
Abbreviation dtm := (dtm_of (consensus_of s)).
Abbreviation nodes := (dom (reachabilityDataStore (dt_reachabilityManager (dtm_of (consensus_of s))))).

(** What accepted headers leave behind is what the virtual block needs. *)
Lemma described headers : dag_ok dag_parents k root dtm headers → (∀ x, x ∈ nodes → NoDup (dag_parents x)) → VirtualBlockHash ∉ nodes →
  (∀ x, x ∈ nodes → is_Some (rs_statuses (vs_resolve s) !! x)) → (∀ x p, body s x → p ∈ dag_parents x → body s p) → virtual_ok dag_parents root s.
Proof.
  intros Hok Hnd Hv Hst Hb. pose proof (ok_ghostdag _ _ _ _ _ Hok) as Hg. pose proof (ok_dom_ghostdag _ _ _ _ _ Hok) as Hdom.
  assert (∀ x p, x ∈ nodes → p ∈ dag_parents x → sorted_by (ghostdag_of (consensus_of s)) p x) as Hsorted.
  { intros x p Hx Hp. unfold ghostdag_of, rt_of. eapply anc_sorted; [exact Hg|by rewrite Hdom|by apply anc_parent]. }
  split; try done.
  - split; [apply (ok_reach _ _ _ _ _ Hok)|apply (ok_parents _ _ _ _ _ Hok)|done|]. intros x Hx (p & Hp & Ha).
    assert (p ∈ nodes) as Hpn by (by apply (reach_closed _ _ _ (ok_reach _ _ _ _ _ Hok) x)).
    pose proof (parent_work dag_parents k _ root Hg x p ltac:(by rewrite Hdom) Hp) as Hlt.
    destruct (anc_work dag_parents k _ root Hg p x ltac:(by rewrite Hdom) Ha) as [->|?]; lia.
  - apply (ok_relations _ _ _ _ _ Hok).
  - intros x r c Hx Hr Hc. right. destruct (ok_relations _ _ _ _ _ Hok x r Hr) as (_ & _ & Hch). destruct (Hch c Hc) as (rc & Hrc & _).
    rewrite <- (ok_dom_relations _ _ _ _ _ Hok). by apply elem_of_dom_2 in Hrc.
  - intros x Hx. unfold ghostdag_of, rt_of. by rewrite Hdom.
Qed.
End Described.

Module VirtualProps.
Import HeaderSafetyProps.

(** C4: updating the virtual's UTXO set.  The selected parent [tip] of the virtual block is the one block whose diff applies to the virtual's
    set, all other diffs lead to another block's set, and the blocks of the virtual's merge set passed their checks.  Then the update
    returns, without an error or a panic; the new set of the virtual is the one that accepting its merge set over the set of [tip] leads to,
    with the multiset and the acceptance data that belong to it; and [tip] again leads to the new set, so that every block still has the UTXO
    set it had. *)
Theorem updateVirtualUTXO_correct `{LibsOk} `{MuHashOk} (vm : virtualManager) (dag_parents : list Z → list (list Z)) (k : Z)
    (entryAt : DomainOutpoint → Z → utxoEntry) (s : resolveState) (g : BlockGHOSTDAGData) (tip : list Z) (d : diff) (ms : muhash)
    (parent : DomainBlock) (blocks : list DomainBlock) :
  let stores := rs_stores s in let v := csm_transactionValidator (vm_csm vm) in let U0 := apply_diff (us_virtualUTXO stores) d in
  context_ok v (us_consensus stores) dag_parents k → csm_genesisHash (vm_csm vm) = pm_genesisHash (tv_pastMedianTimeManager v) →
  ghostdag_of (us_consensus stores) !! VirtualBlockHash = Some g → selectedParent g = Some tip →
  coherent entryAt stores → rooted stores tip d → us_multisets stores !! tip = Some ms → ms_equiv ms (ms_of U0) →
  mergeable vm entryAt stores g U0 parent blocks → vcaches_ok (rs_caches s) →
  ∃ s' vd ads m d', updateVirtualUTXO vm s = (s', Ret vd) ∧
    (let V := apply_diff (us_virtualUTXO stores) vd in
    applicable (us_virtualUTXO stores) vd ∧ virtual_utxo s' V ads ∧ accepted_set (vm_csm vm) stores VirtualBlockHash m U0 parent blocks ads V ∧
    rooted (rs_stores s') tip d' ∧ coherent entryAt (rs_stores s') ∧ vcaches_ok (rs_caches s') ∧
    ∀ h chain U, past_set stores h chain U → past_set (rs_stores s') h chain U).
Proof. apply updateVirtualUTXO_spec. Qed.

(** [mergeSetIncrease] counts what a candidate adds to the merge set.  For a candidate that is not in the past of the selected parents it
    returns, without changing anything, the number of blocks of the candidate's past, the candidate included, that are not in the past of a
    selected parent, unless that takes the merge set over its limit: then it returns a block of the candidate's past that is not in the past of
    the selected parents either.  A candidate that only adds itself is not compared with the limit. *)
Theorem mergeSetIncrease_correct `{Libs} `{MuHash} (vm : virtualManager) (dag_parents : list Z → list (list Z)) (root : list Z) (s : virtualState)
    (candidate : list Z) (selected : list (list Z)) (m : Z) :
  let nodes := dom (reachabilityDataStore (rt_of (consensus_of s))) in
  graph_ok dag_parents root s → candidate ∈ nodes → (∀ p, p ∈ selected → p ∈ nodes) → ¬ past_of dag_parents selected candidate →
  0 ≤ m ∧ m + Z.of_nat (size nodes) + 1 < 2 ^ 64 →
  ∃ r, mergeSetIncrease vm candidate selected m s = (s, Ret r) ∧ increase_ok vm dag_parents candidate selected m r.
Proof. intros nodes Hok Hc Hs Hn Hm. by apply (mergeSetIncrease_spec vm dag_parents root s Hok). Qed.


(** Which parents are taken back for the bounded merge depth.  The parents are an antichain and every bad red block is in the past of one of them.
    Then [boundedMergeBreakingParents] takes back exactly the parents that are bad red blocks themselves: a parent with a bad red block
    strictly in its past stays. *)
Theorem breakingParents_only_reds `{Libs} `{MuHash} (dag_parents : list Z → list (list Z)) (root : list Z) (s : virtualState) (ps badReds : list (list Z)) :
  graph_ok dag_parents root s → (∀ p, p ∈ ps → p ∈ dom (reachabilityDataStore (rt_of (consensus_of s)))) →
  (∀ r, r ∈ badReds → past_of dag_parents ps r) → antichain dag_parents ps →
  breakingParents ps badReds s = (s, Ret (filter (λ p, p ∈ badReds) ps)).
Proof. intros Hok. by apply (breakingParents_spec dag_parents root s Hok). Qed.

(** The tips stay the blocks without children.  A block with a body and without children was added to the DAG, and the tips are the blocks without
    children of the DAG before.  Then [addTip] stages and returns the tips of the new DAG, each once. *)
Theorem addTip_correct `{Libs} `{MuHash} (vm : virtualManager) (dag_parents : list Z → list (list Z)) (root : list Z) (s : virtualState) (b : list Z) :
  virtual_ok dag_parents root s → b ≠ csm_genesisHash (vm_csm vm) → body s b → (∀ c, ¬ child_of dag_parents s b c) → tips_but dag_parents s b (vs_tips s) →
  ∃ tips, addTip vm b s = ({| vs_resolve := vs_resolve s; vs_tips := tips |}, Ret tips) ∧ tips_ok dag_parents s tips.
Proof. intros Hok. by apply (addTip_spec vm dag_parents root s Hok). Qed.

(** *** Executions *)
(** Add blocks with the given parents to a DAG. *)
Definition grow (k : Z) (cs : consensus) (block : hash * list hash) : consensus :=
  let '(b, ps) := block in
  let cs := put_headers (<[b := GhostdagProps.sample_header]> (cs_headers cs)) cs in
  let cs := fst (onTopology (SetParents b ps) cs) in
  let cs := fst (onGhostdag (@GHOSTDAG (as_interface (dtm_of cs)) k (cs_headers cs) b) cs) in
  let cs := fst (onReachability (@AddBlock IntervalProps.toy_conversion b) cs) in
  fst (onFinality (FinalityPoint b) cs).
Definition with_depth (depth : Z) (cs : consensus) : consensus :=
  put_finality {| fm_topology := dtm_of cs; fm_finalityStore := ∅; fm_genesisHash := [0]; fm_finalityDepth := depth |} cs.
Definition state_over (cs : consensus) (statuses : gmap hash BlockStatus) (tips : list hash) : virtualState :=
  {| vs_resolve := {| rs_stores := {| us_consensus := cs; us_blocks := ∅; us_virtualUTXO := ∅; us_utxoDiffs := ∅; us_utxoDiffChildren := ∅; us_multisets := ∅ |};
                      rs_statuses := statuses; rs_acceptanceData := ∅; rs_caches := {| vc_sigCache := None; vc_sigCacheECDSA := None |} |};
     vs_tips := tips |}.
Definition manager (k limit : Z) : virtualManager :=
  {| vm_csm := PastUtxoProps.csm_at [0]; vm_coinbaseManager := CoinbasePayloadProps.sample_manager;
     vm_difficultyManager := bv_difficultyManager sample_validator; vm_k := k; vm_mergeSetSizeLimit := limit; vm_maxBlockParents := 10 |}.

Definition wide : consensus := fold_left (grow 18) [([1], [[0]]); ([2], [[0]]); ([3], [[0]])] sample_state.
Definition wide_state : virtualState := state_over wide {[ [0] := StatusUTXOValid; [1] := StatusUTXOValid; [2] := StatusUTXOValid; [3] := StatusUTXOValid ]} [[1]; [2]; [3]].
Definition answer {A B} (o : A * outcome virtualError B) : option B := match snd o with Ret b => Some b | _ => None end.

(** Three blocks on the genesis block and a limit of two: every candidate only adds itself, and all of them are picked. *)
Example over_the_limit :
  answer (pickVirtualParents (manager 18 2) [[1]; [2]; [3]] wide_state) = Some [[3]; [2]; [1]] ∧
  match pickVirtualParents (manager 18 2) [[1]; [2]; [3]] wide_state with
  | (s, Ret _) => zlen (mergeSetBlues (dataOf (ghostdag_of (consensus_of s)) VirtualBlockHash))
  | _ => 0
  end = 3.
Proof. split; vm_compute; reflexivity. Qed.

(** A chain of five blocks, a block 11 beside the second one, and a block 12 that merged it in time.  Block 12 is valid, but a virtual block with the
    parents 5 and 12 breaks the bounded merge depth, since its finality point is not in the past of block 11 any more; block 12 is not taken back. *)
Definition deep : consensus :=
  fold_left (grow 0) [([1], [[0]]); ([2], [[1]]); ([3], [[2]]); ([4], [[3]]); ([5], [[4]]); ([11], [[1]]); ([12], [[3]; [11]])] (with_depth 3 sample_state).
Definition all_valid : gmap hash BlockStatus := list_to_map (map (λ h, (h, StatusUTXOValid)) [[0]; [1]; [2]; [3]; [4]; [5]; [11]; [12]]).
Definition deep_state : virtualState := state_over deep all_valid [[5]; [12]].
Example bad_red_in_past :
  snd (CheckBoundedMergeDepth [12] (cs_finality deep)) = Ret true ∧
  answer (pickVirtualParents (manager 0 100) [[5]; [12]] deep_state) = Some [[5]; [12]] ∧
  match pickVirtualParents (manager 0 100) [[5]; [12]] deep_state with
  | (s, Ret _) => snd (CheckBoundedMergeDepth VirtualBlockHash (cs_finality (consensus_of s)))
  | _ => Ret true
  end = Ret false.
Proof. split_and!; vm_compute; reflexivity. Qed.

(** *** A block on the genesis block *)
Definition pair_state : virtualState :=
  state_over (fst sample_run) {[ [0] := StatusUTXOValid; sample_child_hash := StatusUTXOPendingVerification ]} [[0]].

Lemma pair_nodes x : x ∈ dom (reachabilityDataStore (rt_of (consensus_of pair_state))) ↔ x = sample_child_hash ∨ x = [0].
Proof. change (consensus_of pair_state) with (fst sample_run). rewrite (proj2 sample_run_ok). by rewrite elem_of_union, !elem_of_singleton. Qed.

Lemma pair_body x : body pair_state x ↔ x = sample_child_hash ∨ x = [0].
Proof. split; [intros [? _]; by apply pair_nodes|]. intros Hx. split; [by apply pair_nodes|]. by destruct Hx as [-> | ->]. Qed.

Lemma pair_ok : virtual_ok sample_tree [0] pair_state.
Proof.
  apply (described sample_tree 18 [0] pair_state (cs_headers (fst sample_run))).
  - apply sample_run_ok.
  - intros x [-> | ->]%pair_nodes; (vm_compute; repeat constructor; by intros ?%elem_of_nil).
  - intros [Hv|Hv]%pair_nodes; by vm_compute in Hv.
  - intros x [-> | ->]%pair_nodes; (eexists; reflexivity).
  - intros x p Hx Hp. apply pair_body. right. unfold sample_tree in Hp. case_decide; [by apply list_elem_of_singleton in Hp|by apply elem_of_nil in Hp].
Qed.

Lemma pair_children x c : child_of sample_tree pair_state x c ↔ x = [0] ∧ c = sample_child_hash.
Proof.
  unfold child_of. rewrite pair_body. unfold sample_tree. split.
  - intros [_ Hx]. case_decide; [by apply list_elem_of_singleton in Hx as ->|by apply elem_of_nil in Hx].
  - intros [-> ->]. split; [by left|]. rewrite decide_True by done. by left.
Qed.

Lemma mergeSetIncrease_correct_witness :
  mergeSetIncrease (manager 18 180) sample_child_hash [] 1 pair_state = (pair_state, Ret (CanBeParent 2)) ∧
  ∃ r, mergeSetIncrease (manager 18 180) sample_child_hash [] 1 pair_state = (pair_state, Ret r) ∧ increase_ok (manager 18 180) sample_tree sample_child_hash [] 1 r.
Proof.
  split; [vm_compute; reflexivity|].
  apply (mergeSetIncrease_correct (manager 18 180) sample_tree [0] pair_state sample_child_hash [] 1).
  - apply pair_ok.
  - apply pair_nodes. by left.
  - by intros p ?%elem_of_nil.
  - by intros (p & ?%elem_of_nil & _).
  - assert (size (dom (reachabilityDataStore (rt_of (consensus_of pair_state)))) = 2%nat) as -> by (vm_compute; reflexivity). lia.
Defined.


Lemma breakingParents_only_reds_witness : breakingParents [sample_child_hash] [[0]] pair_state = (pair_state, Ret (filter (λ p, p ∈ [[0]]) [sample_child_hash])).
Proof.
  apply (breakingParents_only_reds sample_tree [0] pair_state [sample_child_hash] [[0]]).
  - apply pair_ok.
  - intros p ->%list_elem_of_singleton. apply pair_nodes. by left.
  - intros r ->%list_elem_of_singleton. exists sample_child_hash. split; [by left|]. apply anc_parent. apply (pair_children [0] sample_child_hash). done.
  - split; [apply NoDup_singleton|]. by intros p q ->%list_elem_of_singleton ->%list_elem_of_singleton.
Defined.

Lemma addTip_correct_witness :
  ∃ tips, addTip (manager 18 180) sample_child_hash pair_state = ({| vs_resolve := vs_resolve pair_state; vs_tips := tips |}, Ret tips) ∧ tips_ok sample_tree pair_state tips.
Proof.
  apply (addTip_correct (manager 18 180) sample_tree [0] pair_state sample_child_hash).
  - exact pair_ok.
  - vm_compute. discriminate.
  - apply pair_body. by left.
  - intros c [E _]%pair_children. by vm_compute in E.
  - split; [apply NoDup_singleton|]. intros x. simpl. rewrite list_elem_of_singleton, pair_body. split.
    + intros ->. split_and!; [by right|by vm_compute|]. intros c Hc [_ ->]%pair_children. done.
    + by intros [[->| ->] [Hne _]].
Defined.

(** *** The virtual block over the genesis block with a transaction *)
Definition world_manager : virtualManager :=
  {| vm_csm := PastUtxoProps.csm_at ResolveProps.G; vm_coinbaseManager := CoinbasePayloadProps.sample_manager;
     vm_difficultyManager := bv_difficultyManager sample_validator; vm_k := 18; vm_mergeSetSizeLimit := 180; vm_maxBlockParents := 10 |}.

Lemma updateVirtualUTXO_correct_witness :
  (match updateVirtualUTXO world_manager ResolveProps.world_state with
   | (s, Ret _) => bool_decide (us_virtualUTXO (rs_stores s) = ResolveProps.next_set) | _ => false end) = true ∧
  let stores := ResolveProps.world_stores in let U0 := apply_diff PastUtxoProps.sample_set (mkDiff ∅ ∅) in
  ∃ s' vd ads m d', updateVirtualUTXO world_manager ResolveProps.world_state = (s', Ret vd) ∧
    (let V := apply_diff PastUtxoProps.sample_set vd in
    applicable PastUtxoProps.sample_set vd ∧ virtual_utxo s' V ads ∧
    accepted_set (vm_csm world_manager) stores VirtualBlockHash m U0 ResolveProps.genesis_block [] ads V ∧
    rooted (rs_stores s') ResolveProps.G d' ∧ coherent ResolveProps.world_entry (rs_stores s') ∧ vcaches_ok (rs_caches s') ∧
    ∀ h chain U, past_set stores h chain U → past_set (rs_stores s') h chain U).
Proof.
  split; [vm_compute; reflexivity|]. cbv zeta.
  apply (updateVirtualUTXO_correct world_manager ResolveProps.world_dag 18 ResolveProps.world_entry ResolveProps.world_state
    (dataOf ResolveProps.ghostdag2 VirtualBlockHash) ResolveProps.G (mkDiff ∅ ∅) (ms_of PastUtxoProps.sample_set) ResolveProps.genesis_block []).
  - exact ResolveProps.world_context.
  - reflexivity.
  - vm_compute. reflexivity.
  - vm_compute. reflexivity.
  - exact ResolveProps.world_coherent.
  - split; [vm_compute; reflexivity|reflexivity|split; [apply map_empty_subseteq|apply map_disjoint_empty_l]|intros o e1 e2; simpl; by rewrite lookup_empty|].
    intros h [d Hd] _. simpl in Hd. by apply lookup_singleton_Some in Hd as [<- _].
  - vm_compute. reflexivity.
  - reflexivity.
  - apply (Mergeable _ _ _ _ _ _ _ PastUtxoProps.sample_history).
    + vm_compute. reflexivity.
    + apply PastUtxoProps.sample_merge_ok; [reflexivity|by right].
    + intros tx o e Htx Ho. change (tx ∈ [PastUtxoProps.genesis_coinbase; PastUtxoProps.sample_spending]) in Htx.
      apply elem_of_cons in Htx as [->|Htx%list_elem_of_singleton]; [|subst tx].
      * by apply elem_of_nil in Ho.
      * apply list_elem_of_singleton in Ho as [= -> ->]. vm_compute. reflexivity.
  - by split.
Defined.
End VirtualProps.
