(* ===== verification/Stores.v ===== *)
(** * The stores of the consensus (datastructures/, utils/lrucache)

    A store keeps the changes of a staging area in maps, has a cache before the
    database, and writes both when the area is committed.  Most stores are the same code for another
    type of values: [StagedStore] is that code, over the codec of the values, and the stores are its instances.

    The database is a map from the keys of a bucket to bytes.  What [range] over a Go map enumerates first is
    unspecified: [range] is any enumeration, and the theorems hold for all of them.  The bytes of the values come from
    protobuf messages, whose [Marshal] and [Unmarshal] are parameters ([codec]); integers and hashes
    are written out.  A database transaction is committed as a whole, and its writes do not fail. *)
From S2P Require Import Prelude Externalapi UtxoDiff.
Local Open Scope Z_scope.
Local Open Scope prog_scope.

Abbreviation hash := (list Z) (only parsing).
Abbreviation bytes := (list Z) (only parsing).

Inductive storeError :=
  | ErrDatabaseNotFound
  | ErrSerialize
  | ErrDeserialize
  | ErrAlreadyStaged
  | ErrOutpointNotFound
  | ErrImporting.

(** [serialize] and [deserialize] of a store. *)
Record codec (V : Type) := {
  encode : V → option bytes;
  decode : bytes → option V
}.
Arguments encode {V} c v.
Arguments decode {V} c b.

(** A value that is read back as it was written. *)
Definition codable {V} (c : codec V) (v : V) : Prop := ∃ b, encode c v = Some b ∧ decode c b = Some v.

(** [range] over a map: the entries in some order. *)
Definition enumerates {K} `{Countable K} (range : ∀ A, gmap K A → list (K * A)) : Prop := ∀ A (m : gmap K A), range A m ≡ₚ map_to_list m.

(** ** utils/lrucache, utils/utxolrucache, utils/lrucacheuint64tohash *)
Module LRU.
Section Cache.
Context {K V : Type} `{Countable K}.
Variable range : ∀ A, gmap K A → list (K * A).

Record LRUCache := {
  lru_cache : gmap K V;
  lru_capacity : Z
}.
Definition lru_New (capacity : Z) : LRUCache := {| lru_cache := ∅; lru_capacity := capacity |}.
Definition lru_Get (c : LRUCache) (key : K) : option V := lru_cache c !! key.
Definition lru_Has (c : LRUCache) (key : K) : bool := bool_decide (is_Some (lru_cache c !! key)).
Definition lru_Remove (c : LRUCache) (key : K) : LRUCache := {| lru_cache := delete key (lru_cache c); lru_capacity := lru_capacity c |}.

(** The key of an empty map would be the zero value, which it does not contain. *)
Definition evictRandom (c : LRUCache) : LRUCache :=
  match range V (lru_cache c) with
  | [] => c
  | (key, _) :: _ => lru_Remove c key
  end.
Definition lru_Add (c : LRUCache) (key : K) (value : V) : LRUCache :=
  let c := {| lru_cache := <[key := value]> (lru_cache c); lru_capacity := lru_capacity c |} in
  if lru_capacity c <? Z.of_nat (size (lru_cache c)) then evictRandom c else c.
Definition lru_Clear (c : LRUCache) : LRUCache :=
  fold_left lru_Remove (map fst (range V (lru_cache c))) c.
End Cache.
Arguments LRUCache K V {_ _}.
End LRU.
Import LRU.

(** ** A store with a staging area *)
Module StagedStore.
Section Store.
Context {K V : Type} `{Countable K}.
Variable range : ∀ A, gmap K A → list (K * A).
Variable c : codec V.

Record store := {
  st_db : gmap K bytes;
  st_cache : LRUCache K V;
  st_toAdd : gmap K V;
  st_toDelete : gmap K unit
}.
Abbreviation storing A := (prog store storeError A) (only parsing).

Definition put_cache (f : LRUCache K V → LRUCache K V) (s : store) : store :=
  {| st_db := st_db s; st_cache := f (st_cache s); st_toAdd := st_toAdd s; st_toDelete := st_toDelete s |}.
Definition put_db (f : gmap K bytes → gmap K bytes) (s : store) : store :=
  {| st_db := f (st_db s); st_cache := st_cache s; st_toAdd := st_toAdd s; st_toDelete := st_toDelete s |}.

Definition store_New (cacheSize : Z) : store := {| st_db := ∅; st_cache := lru_New cacheSize; st_toAdd := ∅; st_toDelete := ∅ |}.
(** The shard of a new staging area. *)
Definition store_NewArea (s : store) : store := {| st_db := st_db s; st_cache := st_cache s; st_toAdd := ∅; st_toDelete := ∅ |}.

Definition store_Stage (key : K) (value : V) : storing unit :=
  modify (λ s, {| st_db := st_db s; st_cache := st_cache s; st_toAdd := <[key := value]> (st_toAdd s); st_toDelete := st_toDelete s |}).

Definition store_IsStaged (s : store) : bool := negb (bool_decide (size (st_toAdd s) = 0%nat)) || negb (bool_decide (size (st_toDelete s) = 0%nat)).

Definition store_Get (key : K) : storing V :=
  let* s := get in
  match st_toAdd s !! key with
  | Some value => ret value
  | None =>
      match lru_Get (st_cache s) key with
      | Some value => ret value
      | None =>
          match st_db s !! key with
          | None => fail ErrDatabaseNotFound
          | Some valueBytes =>
              match decode c valueBytes with
              | None => fail ErrDeserialize
              | Some value => modify (put_cache (λ cache, lru_Add range cache key value)) ;;* ret value
              end
          end
      end
  end.

Definition store_Has (key : K) : storing bool :=
  let* s := get in
  match st_toAdd s !! key with
  | Some _ => ret true
  | None => if lru_Has (st_cache s) key then ret true else ret (bool_decide (is_Some (st_db s !! key)))
  end.

Definition store_Delete (key : K) : storing unit :=
  modify (λ s,
    match st_toAdd s !! key with
    | Some _ => {| st_db := st_db s; st_cache := st_cache s; st_toAdd := delete key (st_toAdd s); st_toDelete := st_toDelete s |}
    | None => {| st_db := st_db s; st_cache := st_cache s; st_toAdd := st_toAdd s; st_toDelete := <[key := ()]> (st_toDelete s) |}
    end).

Fixpoint commitAdds (toAdd : list (K * V)) : storing unit :=
  match toAdd with
  | [] => ret ()
  | (key, value) :: rest =>
      match encode c value with
      | None => fail ErrSerialize
      | Some valueBytes =>
          modify (put_db (<[key := valueBytes]>)) ;;*
          modify (put_cache (λ cache, lru_Add range cache key value)) ;;*
          commitAdds rest
      end
  end.
Fixpoint commitDeletes (toDelete : list K) : storing unit :=
  match toDelete with
  | [] => ret ()
  | key :: rest =>
      modify (put_db (delete key)) ;;*
      modify (put_cache (λ cache, lru_Remove cache key)) ;;*
      commitDeletes rest
  end.
Definition store_Commit : storing unit :=
  let* s := get in
  commitAdds (range V (st_toAdd s)) ;;*
  let* s := get in
  commitDeletes (map fst (range unit (st_toDelete s))).
(** A store without [Delete] *)
Definition store_CommitAdds : storing unit :=
  let* s := get in commitAdds (range V (st_toAdd s)).
End Store.
Arguments store K V {_ _}.
End StagedStore.
Import StagedStore.

(** ** What a store promises

    Two maps: what is committed, and what the staging area adds and deletes.  Readers of the area see what it adds, and
    still see what it deletes; deletions win when it is committed. *)
Section Spec.
Context {K V : Type} `{Countable K}.

Record area := {
  ar_committed : gmap K V;
  ar_adds : gmap K V;
  ar_deletes : gset K
}.

Inductive operation :=
  | OpGet (key : K)
  | OpHas (key : K)
  | OpStage (key : K) (value : V)
  | OpDelete (key : K)
  | OpCommit.

Inductive reply :=
  | RValue (value : option V)
  | RBool (b : bool)
  | RDone.

Definition visible (a : area) : gmap K V := ar_adds a ∪ ar_committed a.

Definition spec_step (o : operation) (a : area) : area * reply :=
  match o with
  | OpGet key => (a, RValue (visible a !! key))
  | OpHas key => (a, RBool (bool_decide (is_Some (visible a !! key))))
  | OpStage key value => ({| ar_committed := ar_committed a; ar_adds := <[key := value]> (ar_adds a); ar_deletes := ar_deletes a |}, RDone)
  | OpDelete key =>
      (if bool_decide (is_Some (ar_adds a !! key))
       then {| ar_committed := ar_committed a; ar_adds := delete key (ar_adds a); ar_deletes := ar_deletes a |}
       else {| ar_committed := ar_committed a; ar_adds := ar_adds a; ar_deletes := {[ key ]} ∪ ar_deletes a |}, RDone)
  | OpCommit => ({| ar_committed := filter (λ kv, kv.1 ∉ ar_deletes a) (visible a); ar_adds := ∅; ar_deletes := ∅ |}, RDone)
  end.

Fixpoint spec_run (os : list operation) (a : area) : area * list reply :=
  match os with
  | [] => (a, [])
  | o :: os => let '(a, r) := spec_step o a in let '(a, rs) := spec_run os a in (a, r :: rs)
  end.
End Spec.
Arguments area K V {_ _}.
Arguments operation K V : clear implicits.
Arguments reply V : clear implicits.

Section Run.
Context {K V : Type} `{Countable K}.
Variable range : ∀ A, gmap K A → list (K * A).
Variable c : codec V.

(** An operation of the store, with what its caller gets: a value, that there is none, or another error. *)
Definition store_step (o : operation K V) (s : store K V) : store K V * option (reply V) :=
  match o with
  | OpGet key => match store_Get range c key s with
                 | (s, Ret value) => (s, Some (RValue (Some value)))
                 | (s, Fail ErrDatabaseNotFound) => (s, Some (RValue None))
                 | (s, _) => (s, None)
                 end
  | OpHas key => match store_Has key s with (s, Ret b) => (s, Some (RBool b)) | (s, _) => (s, None) end
  | OpStage key value => match store_Stage key value s with (s, Ret _) => (s, Some RDone) | (s, _) => (s, None) end
  | OpDelete key => match store_Delete key s with (s, Ret _) => (s, Some RDone) | (s, _) => (s, None) end
  | OpCommit => match store_Commit range c s with (s, Ret _) => (store_NewArea s, Some RDone) | (s, _) => (s, None) end
  end.

Fixpoint store_run (os : list (operation K V)) (s : store K V) : store K V * option (list (reply V)) :=
  match os with
  | [] => (s, Some [])
  | o :: os =>
      match store_step o s with
      | (s, None) => (s, None)
      | (s, Some r) => match store_run os s with (s, Some rs) => (s, Some (r :: rs)) | (s, None) => (s, None) end
      end
  end.

(** ** Refinement *)
Record represents (s : store K V) (a : area K V) : Prop := {
  rp_db : ∀ k, st_db s !! k = ar_committed a !! k ≫= encode c;
  rp_codable : ∀ k v, ar_committed a !! k = Some v ∨ ar_adds a !! k = Some v → codable c v;
  rp_cache : lru_cache (st_cache s) ⊆ ar_committed a;
  rp_bounded : Z.of_nat (size (lru_cache (st_cache s))) ≤ lru_capacity (st_cache s);
  rp_adds : st_toAdd s = ar_adds a;
  rp_deletes : dom (st_toDelete s) = ar_deletes a
}.

(** What is staged can be encoded. *)
Definition op_ok (o : operation K V) : Prop := match o with OpStage _ value => codable c value | _ => True end.

Hypothesis Hrange : enumerates range.

(** *** The cache *)
Lemma evict_sub (cache : LRUCache K V) : lru_cache (evictRandom range cache) ⊆ lru_cache cache.
Proof using Type. unfold evictRandom. destruct (range V (lru_cache cache)) as [|[k v] l]; [done|]. apply delete_subseteq. Qed.

Lemma evictRandom_size (cache : LRUCache K V) : (0 < size (lru_cache cache))%nat → size (lru_cache (evictRandom range cache)) = (size (lru_cache cache) - 1)%nat.
Proof using Hrange.
  intros Hs. unfold evictRandom. pose proof (Hrange V (lru_cache cache)) as Hp. destruct (range V (lru_cache cache)) as [|[k v] l] eqn:E.
  - apply Permutation_nil_l, eq_sym, map_to_list_empty_iff in Hp. rewrite Hp, map_size_empty in Hs. lia.
  - simpl. rewrite map_size_delete_Some; [lia|]. exists v. apply elem_of_map_to_list. rewrite <- Hp. by left.
Qed.

Lemma lru_Add_spec (cache : LRUCache K V) k v m : delete k (lru_cache cache) ⊆ m → m !! k = Some v → Z.of_nat (size (lru_cache cache)) ≤ lru_capacity cache →
  lru_cache (lru_Add range cache k v) ⊆ m ∧ Z.of_nat (size (lru_cache (lru_Add range cache k v))) ≤ lru_capacity cache ∧
  lru_capacity (lru_Add range cache k v) = lru_capacity cache.
Proof using Hrange.
  intros Hsub Hk Hsize. unfold lru_Add. cbv zeta. cbn [lru_capacity lru_cache]. set (c1 := {| lru_cache := _ |}).
  assert (lru_cache c1 ⊆ m) as Hsub1 by (simpl; rewrite <- insert_delete_eq; by apply insert_subseteq_l).
  assert (size (lru_cache c1) ≤ Datatypes.S (size (lru_cache cache)))%nat as Hs1 by (simpl; destruct (lru_cache cache !! k) eqn:E; [rewrite map_size_insert_Some by (by eexists); lia|rewrite map_size_insert_None by done; lia]).
  destruct (Z.ltb_spec (lru_capacity cache) (Z.of_nat (size (<[k:=v]> (lru_cache cache))))) as [Hlt|Hle].
  - split; [etrans; [apply evict_sub|done]|]. split.
    + assert (0 < size (lru_cache c1))%nat as Hpos.
      { apply Nat.neq_0_lt_0. intros E%map_size_empty_iff. apply (f_equal (lookup k)) in E. simpl in E. by rewrite lookup_insert_eq in E. }
      rewrite (evictRandom_size c1 Hpos). lia.
    + unfold evictRandom. by destruct (range V (lru_cache c1)) as [|[? ?] ?].
  - done.
Qed.

(** *** Committing *)
Lemma commitAdds_spec (l : list (K * V)) : ∀ s : store K V, NoDup l.*1 → (∀ k v, (k, v) ∈ l → codable c v) → Z.of_nat (size (lru_cache (st_cache s))) ≤ lru_capacity (st_cache s) →
  ∀ D, (∀ k, st_db s !! k = D !! k ≫= encode c) → lru_cache (st_cache s) ⊆ D →
  ∃ s', commitAdds range c l s = (s', Ret ()) ∧ st_toAdd s' = st_toAdd s ∧ st_toDelete s' = st_toDelete s ∧
    (∀ k, st_db s' !! k = (list_to_map l ∪ D) !! k ≫= encode c) ∧ lru_cache (st_cache s') ⊆ list_to_map l ∪ D ∧
    Z.of_nat (size (lru_cache (st_cache s'))) ≤ lru_capacity (st_cache s').
Proof using Hrange.
  induction l as [|[k v] l IH]; intros s Hnd Hcod Hsize D Hdb Hcache; cbn [commitAdds].
  { exists s. change (list_to_map [] : gmap K V) with (∅ : gmap K V). by rewrite (left_id_L ∅ (∪)). }
  apply NoDup_cons in Hnd as [Hk Hnd]. destruct (Hcod k v ltac:(by left)) as (b & Hb & _). rewrite Hb.
  set (s1 := put_db (<[k := b]>) s). rewrite (bind_ret_l _ _ s s1 ()) by done.
  set (s2 := put_cache (λ cache, lru_Add range cache k v) s1). rewrite (bind_ret_l _ _ s1 s2 ()) by done.
  assert (list_to_map ((k, v) :: l) ∪ D = list_to_map l ∪ <[k := v]> D) as E.
  { simpl. rewrite <- insert_union_l, insert_union_r; [done|]. by apply not_elem_of_list_to_map. }
  destruct (lru_Add_spec (st_cache s) k v (<[k := v]> D)) as (H1 & H2 & H3); [|by rewrite lookup_insert_eq|done|].
  { apply map_subseteq_spec. intros k' v' [Hne Hk']%lookup_delete_Some. rewrite lookup_insert_ne by done. by eapply lookup_weaken. }
  destruct (IH s2 Hnd) with (D := <[k := v]> D) as (s' & Hrun & Hadd & Hdel & Hdb' & Hcache' & Hsize'); [intros; apply (Hcod k0); by right|simpl; lia| |done|].
  { intros k'. simpl. destruct (decide (k' = k)) as [->|Hne]; [by rewrite !lookup_insert_eq|by rewrite !lookup_insert_ne by done]. }
  exists s'. rewrite E. done.
Qed.

Lemma commitDeletes_spec (l : list K) : ∀ s : store K V, Z.of_nat (size (lru_cache (st_cache s))) ≤ lru_capacity (st_cache s) →
  ∀ D, (∀ k, st_db s !! k = D !! k ≫= encode c) → lru_cache (st_cache s) ⊆ D →
  ∃ s', commitDeletes (V := V) l s = (s', Ret ()) ∧
    (∀ k, st_db s' !! k = filter (λ kv, kv.1 ∉ l) D !! k ≫= encode c) ∧ lru_cache (st_cache s') ⊆ filter (λ kv, kv.1 ∉ l) D ∧
    Z.of_nat (size (lru_cache (st_cache s'))) ≤ lru_capacity (st_cache s').
Proof using Type.
  induction l as [|k l IH]; intros s Hsize D Hdb Hcache; cbn [commitDeletes].
  { exists s. rewrite map_filter_id by (intros ? ? ? ?%elem_of_nil; done). done. }
  set (s1 := put_db (delete k) s). rewrite (bind_ret_l _ _ s s1 ()) by done.
  set (s2 := put_cache (λ cache, lru_Remove cache k) s1). rewrite (bind_ret_l _ _ s1 s2 ()) by done.
  assert (filter (λ kv, kv.1 ∉ k :: l) D = filter (λ kv, kv.1 ∉ l) (delete k D)) as E.
  { apply map_eq. intros k'. apply option_eq. intros v. rewrite !map_lookup_filter_Some, lookup_delete_Some. simpl. rewrite not_elem_of_cons. naive_solver. }
  destruct (IH s2) with (D := delete k D) as (s' & Hrun & Hdb' & Hcache' & Hsize').
  - simpl. etrans; [|exact Hsize]. apply Nat2Z.inj_le, map_subseteq_size, delete_subseteq.
  - intros k'. simpl. destruct (decide (k' = k)) as [->|Hne]; [by rewrite !lookup_delete_eq|by rewrite !lookup_delete_ne by done].
  - simpl. by apply delete_mono.
  - exists s'. by rewrite E.
Qed.

Lemma store_step_spec o s a : represents s a → op_ok o → ∃ s', store_step o s = (s', Some (snd (spec_step o a))) ∧ represents s' (fst (spec_step o a)).
Proof using Hrange.
  intros Hr Ho. destruct Hr as [Hdb Hcod Hcache Hsize Hadds Hdels]. destruct o as [k|k|k v|k|]; simpl.
  - unfold store_Get. rewrite (bind_ret_l _ _ s s s) by done. rewrite Hadds. destruct (ar_adds a !! k) as [v|] eqn:Ea; [exists s; unfold visible; by rewrite (lookup_union_Some_l _ _ _ _ Ea)|].
    unfold visible. rewrite (lookup_union_r _ _ _ Ea). unfold lru_Get. destruct (lru_cache (st_cache s) !! k) as [v|] eqn:Ec.
    { exists s. rewrite (lookup_weaken _ _ _ _ Ec Hcache). done. }
    rewrite Hdb. destruct (ar_committed a !! k) as [v|] eqn:Ed; simpl; [|by exists s].
    destruct (Hcod k v) as (b & Hb & Hd); [by left|]. rewrite Hb, Hd.
    set (s1 := put_cache (λ cache, lru_Add range cache k v) s). rewrite (bind_ret_l _ _ s s1 ()) by done. exists s1. split; [done|].
    destruct (lru_Add_spec (st_cache s) k v (ar_committed a)) as (H1 & H2 & H3); [etrans; [apply delete_subseteq|done]|done|done|]. split; try done. simpl. lia.
  - exists s. unfold store_Has. rewrite (bind_ret_l _ _ s s s) by done. rewrite Hadds. destruct (ar_adds a !! k) as [v|] eqn:Ea; [unfold visible; by rewrite (lookup_union_Some_l _ _ _ _ Ea)|].
    unfold visible. rewrite (lookup_union_r _ _ _ Ea). unfold lru_Has. case_bool_decide as Ec; [destruct Ec as [v Ec]; rewrite (lookup_weaken _ _ _ _ Ec Hcache); done|].
    rewrite Hdb. destruct (ar_committed a !! k) as [v|] eqn:Ed; [|done]. simpl. destruct (Hcod k v) as (b & -> & _); [by left|done].
  - eexists. split; [done|]. split; simpl; try done; [|by rewrite Hadds]. intros k' v' [Hk'|[[_ <-]|[_ Hk']]%lookup_insert_Some]; [apply (Hcod k'); by left|done|apply (Hcod k'); by right].
  - rewrite Hadds. case_bool_decide as Ea; [destruct Ea as [v Ea]; rewrite Ea|apply eq_None_not_Some in Ea; rewrite Ea]; (eexists; split; [done|]); split; simpl; try done; try congruence.
    + intros k' v' [Hk'|[_ Hk']%lookup_delete_Some]; apply (Hcod k'); [by left|by right].
    + by rewrite dom_insert_L, Hdels.
  - unfold store_Commit. rewrite (bind_ret_l _ _ s s s) by done. pose proof (Hrange V (st_toAdd s)) as Hperm.
    assert (NoDup (range V (st_toAdd s)).*1) as Hnd by (rewrite Hperm; apply NoDup_fst_map_to_list).
    assert (list_to_map (range V (st_toAdd s)) = ar_adds a) as Hmap.
    { rewrite <- Hadds. rewrite <- (list_to_map_to_list (st_toAdd s)) at 2. by apply list_to_map_proper. }
    destruct (commitAdds_spec (range V (st_toAdd s)) s Hnd) with (D := ar_committed a) as (s1 & Hrun1 & Hadd1 & Hdel1 & Hdb1 & Hcache1 & Hsize1); try done.
    { intros k v Hkv. apply (Hcod k). right. rewrite <- Hadds. apply elem_of_map_to_list. by rewrite <- Hperm. }
    rewrite Hmap in Hdb1, Hcache1. rewrite (bind_ret_l _ _ s s1 () Hrun1), (bind_ret_l _ _ s1 s1 s1) by done.
    destruct (commitDeletes_spec (map fst (range unit (st_toDelete s1))) s1 Hsize1 _ Hdb1 Hcache1) as (s2 & Hrun2 & Hdb2 & Hcache2 & Hsize2). rewrite Hrun2.
    assert (∀ k, k ∈ map fst (range unit (st_toDelete s1)) ↔ k ∈ ar_deletes a) as Hin.
    { intros k. rewrite <- Hdels, Hdel1, elem_of_dom. change (map fst) with (fmap (M := list) (fst (A := K) (B := unit))). rewrite (Hrange unit (st_toDelete s)).
      split; [intros ([k' []] & -> & Hk%elem_of_map_to_list)%list_elem_of_fmap; by eexists|]. intros [[] Hk]. apply list_elem_of_fmap. exists (k, ()). split; [done|]. by apply elem_of_map_to_list. }
    assert (filter (λ kv, kv.1 ∉ map fst (range unit (st_toDelete s1))) (ar_adds a ∪ ar_committed a) = filter (λ kv, kv.1 ∉ ar_deletes a) (visible a)) as Hfil.
    { apply map_filter_strong_ext. intros k v. simpl. by rewrite Hin. }
    rewrite Hfil in Hdb2, Hcache2. eexists. split; [done|]. split; simpl; try done.
    + intros k v [[Hk _]%map_lookup_filter_Some|Hk]; [|by rewrite lookup_empty in Hk]. apply lookup_union_Some_raw in Hk as [Hk|[_ Hk]]; apply (Hcod k); [by right|by left].
Qed.

Lemma store_run_spec os : ∀ s a, represents s a → Forall op_ok os → ∃ s', store_run os s = (s', Some (snd (spec_run os a))) ∧ represents s' (fst (spec_run os a)).
Proof using Hrange.
  induction os as [|o os IH]; intros s a Hr Hos; cbn [store_run spec_run]; [by exists s|]. apply Forall_cons in Hos as [Ho Hos].
  destruct (store_step_spec o s a Hr Ho) as (s1 & -> & Hr1). destruct (spec_step o a) as [a1 r]. destruct (IH s1 a1 Hr1 Hos) as (s2 & -> & Hr2).
  simpl in *. destruct (spec_run os a1) as [a2 rs]. by exists s2.
Qed.
End Run.

(** ** A single value: the tips, the selected tip of the headers, the reindex root *)
Module Cell.
Section Cell.
Context {V : Type}.
Variable c : codec V.

Record cell := {
  ce_db : option bytes;
  ce_cache : option V;
  ce_staged : option V
}.
Abbreviation storing A := (prog cell storeError A) (only parsing).

Definition cell_Stage (value : V) : storing unit := modify (λ s, {| ce_db := ce_db s; ce_cache := ce_cache s; ce_staged := Some value |}).
Definition cell_IsStaged (s : cell) : bool := bool_decide (is_Some (ce_staged s)).

Definition cell_Get : storing V :=
  let* s := get in
  match ce_staged s, ce_cache s, ce_db s with
  | Some value, _, _ => ret value
  | None, Some value, _ => ret value
  | None, None, None => fail ErrDatabaseNotFound
  | None, None, Some valueBytes =>
      match decode c valueBytes with
      | None => fail ErrDeserialize
      | Some value => modify (λ s, {| ce_db := ce_db s; ce_cache := Some value; ce_staged := ce_staged s |}) ;;* ret value
      end
  end.
Definition cell_Has : storing bool :=
  let* s := get in
  ret (bool_decide (is_Some (ce_staged s)) || bool_decide (is_Some (ce_cache s)) || bool_decide (is_Some (ce_db s))).

Definition cell_Commit : storing unit :=
  let* s := get in
  match ce_staged s with
  | None => ret ()
  | Some value =>
      match encode c value with
      | None => fail ErrSerialize
      | Some valueBytes => modify (λ s, {| ce_db := Some valueBytes; ce_cache := Some value; ce_staged := ce_staged s |})
      end
  end.
Definition cell_NewArea (s : cell) : cell := {| ce_db := ce_db s; ce_cache := ce_cache s; ce_staged := None |}.

(** The value [v] is committed. *)
Record holds (s : cell) (v : option V) : Prop := {
  ho_db : ce_db s = v ≫= encode c;
  ho_codable w : v = Some w → codable c w;
  ho_cache w : ce_cache s = Some w → v = Some w
}.

Lemma cell_Get_spec s v : holds s v →
  ∃ s', cell_Get s = (s', match ce_staged s, v with Some w, _ => Ret w | None, Some w => Ret w | None, None => Fail ErrDatabaseNotFound end) ∧
    holds s' v ∧ ce_staged s' = ce_staged s.
Proof.
  intros [Hdb Hcod Hcache]. unfold cell_Get. rewrite (bind_ret_l _ _ s s s) by done. destruct (ce_staged s) as [w|] eqn:Es; [by exists s|].
  destruct (ce_cache s) as [w|] eqn:Ec; [exists s; rewrite (Hcache w eq_refl); split; [done|]; split; [split; [by rewrite Hdb, (Hcache w eq_refl)|..]|done]|].
  - intros w0 [= <-]. apply Hcod. by apply Hcache.
  - by rewrite Ec.
  - destruct v as [w|]; simpl in Hdb; [|rewrite Hdb; exists s; split; [done|]; split; [split; [done|done|by rewrite Ec]|done]].
    destruct (Hcod w eq_refl) as (b & Hb & Hd). rewrite Hb in Hdb. rewrite Hdb, Hd. eexists. rewrite (bind_ret_l _ _ s {| ce_db := ce_db s; ce_cache := Some w; ce_staged := ce_staged s |} ()) by done.
    split; [done|]. split; [split; simpl; [by rewrite Hdb, Hb|done|done]|done].
Qed.

Lemma cell_Commit_spec s v : holds s v → (∀ w, ce_staged s = Some w → codable c w) →
  ∃ s', cell_Commit s = (s', Ret ()) ∧ holds (cell_NewArea s') (match ce_staged s with Some w => Some w | None => v end).
Proof.
  intros [Hdb Hcod Hcache] Hst. unfold cell_Commit. rewrite (bind_ret_l _ _ s s s) by done. destruct (ce_staged s) as [w|] eqn:Es; [|by exists s].
  destruct (Hst w eq_refl) as (b & Hb & Hd). rewrite Hb. eexists. split; [done|]. split; simpl; [done|intros w' [= <-]; by exists b|done].
Qed.
End Cell.
Arguments cell V : clear implicits.
End Cell.
Import Cell.

(** ** database/binaryserialization *)
Module BinarySerialization.
Definition uint64Length : Z := 8.
Definition SerializeUint64 (value : Z) : bytes := LE.put 8 value.
Definition DeserializeUint64 (valueBytes : bytes) : option Z :=
  if bool_decide (zlen valueBytes = uint64Length) then Some (LE.of_bytes valueBytes) else None.

Definition SerializeHash (h : hash) : bytes := h.
(** [externalapi.NewDomainHashFromByteSlice] *)
Definition DeserializeHash (hashBytes : bytes) : option hash :=
  if bool_decide (zlen hashBytes = 32) then Some hashBytes else None.

Definition SerializeHashes (hashes : list hash) : bytes := concat hashes.
(** [numHashes] chunks *)
Fixpoint readHashes (numHashes : nat) (hashesBytes : bytes) : option (list hash) :=
  match numHashes with
  | O => Some []
  | Datatypes.S n =>
      h ← DeserializeHash (take 32 hashesBytes);
      rest ← readHashes n (drop 32 hashesBytes);
      Some (h :: rest)
  end.
Definition DeserializeHashes (hashesBytes : bytes) : option (list hash) :=
  if bool_decide (zlen hashesBytes mod 32 = 0) then readHashes (Z.to_nat (zlen hashesBytes / 32)) hashesBytes else None.

Definition uint64Codec : codec Z := {| encode v := Some (SerializeUint64 v); decode := DeserializeUint64 |}.
Definition hashCodec : codec hash := {| encode h := Some (SerializeHash h); decode := DeserializeHash |}.
Definition hashesCodec : codec (list hash) := {| encode hs := Some (SerializeHashes hs); decode := DeserializeHashes |}.
End BinarySerialization.
Import BinarySerialization.

Lemma uint64_codable v : 0 ≤ v < 2 ^ 64 → codable uint64Codec v.
Proof.
  intros Hv. exists (LE.put 8 v). split; [done|]. change (DeserializeUint64 (LE.put 8 v) = Some v). unfold DeserializeUint64, zlen. rewrite LE.put_length, bool_decide_eq_true_2 by done. f_equal. by apply LE.of_bytes_put.
Qed.

Lemma hash_codable h : zlen h = 32 → codable hashCodec h.
Proof. intros Hh. exists h. split; [done|]. simpl. unfold DeserializeHash. by rewrite bool_decide_eq_true_2. Qed.

Lemma hashes_codable hs : Forall (λ h, zlen h = 32) hs → codable hashesCodec hs.
Proof.
  intros Hhs. exists (concat hs). split; [done|]. simpl. unfold DeserializeHashes.
  assert (zlen (concat hs) = 32 * zlen hs) as Hlen.
  { clear -Hhs. induction Hhs as [|h hs Hh Hhs IH]; [done|]. cbn [concat]. rewrite zlen_app, zlen_cons, IH, Hh. lia. }
  rewrite Hlen, bool_decide_eq_true_2 by (rewrite Z.mul_comm; apply Z_mod_mult). rewrite Z.mul_comm, Z.div_mul by lia. unfold zlen. rewrite Nat2Z.id. clear Hlen.
  induction Hhs as [|h hs Hh Hhs IH]; [done|]. cbn [length readHashes concat]. assert (length h = 32%nat) as Hl by (unfold zlen in Hh; lia).
  rewrite take_app_length', drop_app_length' by done. unfold DeserializeHash. rewrite bool_decide_eq_true_2 by done. simpl. by rewrite IH.
Qed.
