(* ===== verification/ConsensusStores.v ===== *)
(** * The stores as instances

    The stores of datastructures/ over [StagedStore] and [Cell], and what is particular to each of them: the counts of the blocks and headers,
    the diffs and diff children that are staged together, the DAA scores and added blocks, and the UTXO set of the virtual block, which is
    staged as a diff. *)
From S2P Require Import Prelude Externalapi UtxoDiff Hashing ReachabilityData DagTopology Block Ghostdag DifficultyManager HeaderValidation PastUtxo Stores.
Import LRU StagedStore Cell BinarySerialization.
Local Open Scope Z_scope.
Local Open Scope prog_scope.

Abbreviation hash := (list Z) (only parsing).
Abbreviation bytes := (list Z) (only parsing).

(** ** Stores of one map or value *)
Module Instances.
Section Instances.
Variable range : ∀ A, gmap hash A → list (hash * A).

(** acceptancedatastore *)
Section AcceptanceData.
Variable acceptanceDataCodec : codec (list BlockAcceptanceData).
Definition acceptanceDataStore_Stage := store_Stage (K := hash) (V := list BlockAcceptanceData).
Definition acceptanceDataStore_Get := store_Get range acceptanceDataCodec.
Definition acceptanceDataStore_Delete := store_Delete (K := hash) (V := list BlockAcceptanceData).
Definition acceptanceDataStore_Commit := store_Commit range acceptanceDataCodec.
End AcceptanceData.

(** blockstatusstore *)
Section BlockStatus.
Variable blockStatusCodec : codec BlockStatus.
Definition blockStatusStore_Stage := store_Stage (K := hash) (V := BlockStatus).
Definition blockStatusStore_Get := store_Get range blockStatusCodec.
Definition blockStatusStore_Exists := store_Has (K := hash) (V := BlockStatus).
Definition blockStatusStore_Commit := store_CommitAdds range blockStatusCodec.
End BlockStatus.

(** ghostdagdatastore *)
Section GhostdagData.
Variable ghostdagDataCodec : codec BlockGHOSTDAGData.
Definition ghostdagDataStore_Stage := store_Stage (K := hash) (V := BlockGHOSTDAGData).
Definition ghostdagDataStore_Get := store_Get range ghostdagDataCodec.
Definition ghostdagDataStore_Commit := store_CommitAdds range ghostdagDataCodec.
End GhostdagData.

(** multisetstore *)
Section Multiset.
Context `{MuHash}.
Variable multisetCodec : codec muhash.
Definition multisetStore_Stage := store_Stage (K := hash) (V := muhash).
Definition multisetStore_Get := store_Get range multisetCodec.
Definition multisetStore_Delete := store_Delete (K := hash) (V := muhash).
Definition multisetStore_Commit := store_Commit range multisetCodec.
End Multiset.

(** blockrelationstore *)
Section BlockRelation.
Variable blockRelationsCodec : codec BlockRelations.
Definition blockRelationStore_StageBlockRelation := store_Stage (K := hash) (V := BlockRelations).
Definition blockRelationStore_BlockRelation := store_Get range blockRelationsCodec.
Definition blockRelationStore_Has := store_Has (K := hash) (V := BlockRelations).
Definition blockRelationStore_Commit := store_CommitAdds range blockRelationsCodec.
End BlockRelation.

(** finalitystore: [isStaged] is true when nothing is staged. *)
Definition finalityStore_StageFinalityPoint := store_Stage (K := hash) (V := hash).
Definition finalityStore_FinalityPoint := store_Get range hashCodec.
Definition finalityStore_Commit := store_CommitAdds range hashCodec.
Definition finalityStore_isStaged (s : store hash hash) : bool := bool_decide (size (st_toAdd s) = 0%nat).

(** headersselectedtipstore *)
Section SelectedTip.
Variable selectedTipCodec : codec hash.
Definition headersSelectedTipStore_Has := cell_Has (V := hash).
Definition headersSelectedTipStore_Stage := cell_Stage (V := hash).
Definition HeadersSelectedTip := cell_Get selectedTipCodec.
Definition headersSelectedTipStore_Commit := cell_Commit selectedTipCodec.
End SelectedTip.
End Instances.
End Instances.

(** ** blockstore and blockheaderstore: a store with a count *)
Module CountedStore.
Section Counted.
Context {V : Type}.
Variable range : ∀ A, gmap hash A → list (hash * A).
Variable c : codec V.

Record countedStore := {
  co_store : store hash V;
  co_countDb : option Z;
  co_countCached : Z
}.
Abbreviation counting A := (prog countedStore storeError A) (only parsing).
Definition on_store {A} (m : prog (store hash V) storeError A) : counting A :=
  zoom co_store (λ st s, {| co_store := st; co_countDb := co_countDb s; co_countCached := co_countCached s |}) m.

Definition initializeCount : counting unit :=
  modify (λ s, {| co_store := co_store s; co_countDb := co_countDb s; co_countCached := default 0 (co_countDb s) |}).
Definition counted_Stage (blockHash : hash) (value : V) : counting unit := on_store (store_Stage blockHash value).
Definition counted_Get (blockHash : hash) : counting V := on_store (store_Get range c blockHash).
Definition counted_Has (blockHash : hash) : counting bool := on_store (store_Has blockHash).
Definition counted_Delete (blockHash : hash) : counting unit := on_store (store_Delete blockHash).

Fixpoint counted_GetAll (blockHashes : list hash) : counting (list V) :=
  match blockHashes with
  | [] => ret []
  | blockHash :: rest => let* value := counted_Get blockHash in let* values := counted_GetAll rest in ret (value :: values)
  end.

(** The count of the area: what it adds and deletes. *)
Definition count (s : countedStore) : Z :=
  GoInt.uint64 (GoInt.uint64 (co_countCached s + Z.of_nat (size (st_toAdd (co_store s)))) - Z.of_nat (size (st_toDelete (co_store s)))).
Definition commitCount : counting unit :=
  modify (λ s, {| co_store := co_store s; co_countDb := Some (count s); co_countCached := count s |}).
Definition counted_Commit : counting unit := on_store (store_Commit range c) ;;* commitCount.
Definition counted_NewArea (s : countedStore) : countedStore :=
  {| co_store := store_NewArea (co_store s); co_countDb := co_countDb s; co_countCached := co_countCached s |}.
End Counted.
Arguments countedStore V : clear implicits.
End CountedStore.
Import CountedStore.

(** *** blockstore, blockheaderstore *)
Module BlockStores.
Section BlockStores.
Variable range : ∀ A, gmap hash A → list (hash * A).
Section Blocks.
Variable blockCodec : codec DomainBlock.
Definition blockStore_Stage := counted_Stage (V := DomainBlock).
Definition blockStore_Block := counted_Get range blockCodec.
Definition blockStore_HasBlock := counted_Has (V := DomainBlock).
Definition blockStore_Blocks := counted_GetAll range blockCodec.
Definition blockStore_Delete := counted_Delete (V := DomainBlock).
Definition blockStore_Commit := counted_Commit range blockCodec.
(** [AllBlockHashesIterator]: the keys of the bucket, in the order of the database *)
Variable cursor : gmap hash bytes → list (hash * bytes).
Definition AllBlockHashes (s : countedStore DomainBlock) : list hash := map fst (cursor (st_db (co_store s))).
End Blocks.
Section Headers.
Variable blockHeaderCodec : codec BlockHeader.
Definition blockHeaderStore_Stage := counted_Stage (V := BlockHeader).
Definition blockHeaderStore_BlockHeader := counted_Get range blockHeaderCodec.
Definition blockHeaderStore_HasBlockHeader := counted_Has (V := BlockHeader).
Definition blockHeaderStore_BlockHeaders := counted_GetAll range blockHeaderCodec.
Definition blockHeaderStore_Delete := counted_Delete (V := BlockHeader).
Definition blockHeaderStore_Commit := counted_Commit range blockHeaderCodec.
End Headers.
End BlockStores.
End BlockStores.

(** ** reachabilitydatastore: the data of the blocks, and the reindex root *)
Module ReachabilityStore.
Section Reachability.
Variable range : ∀ A, gmap hash A → list (hash * A).
Variables (reachabilityDataCodec : codec reachabilityData) (reindexRootCodec : codec hash).

Record reachabilityStore := {
  rd_data : store hash reachabilityData;
  rd_reindexRoot : cell hash
}.
Abbreviation storing A := (prog reachabilityStore storeError A) (only parsing).
Definition on_data {A} (m : prog (store hash reachabilityData) storeError A) : storing A :=
  zoom rd_data (λ d s, {| rd_data := d; rd_reindexRoot := rd_reindexRoot s |}) m.
Definition on_reindexRoot {A} (m : prog (cell hash) storeError A) : storing A :=
  zoom rd_reindexRoot (λ r s, {| rd_data := rd_data s; rd_reindexRoot := r |}) m.

Definition reachabilityStore_Stage (blockHash : hash) (data : reachabilityData) : storing unit := on_data (store_Stage blockHash data).
Definition reachabilityStore_StageReindexRoot (reachabilityReindexRoot : hash) : storing unit := on_reindexRoot (cell_Stage reachabilityReindexRoot).
Definition reachabilityStore_Get (blockHash : hash) : storing reachabilityData := on_data (store_Get range reachabilityDataCodec blockHash).
Definition reachabilityStore_Has (blockHash : hash) : storing bool := on_data (store_Has blockHash).
Definition reachabilityStore_ReindexRoot : storing hash := on_reindexRoot (cell_Get reindexRootCodec).
Definition reachabilityStore_Commit : storing unit := on_reindexRoot (cell_Commit reindexRootCodec) ;;* on_data (store_CommitAdds range reachabilityDataCodec).
End Reachability.
End ReachabilityStore.

(** ** utxodiffstore *)
Module DiffStore.
Section Diffs.
Variable range : ∀ A, gmap hash A → list (hash * A).
Variables (utxoDiffCodec : codec diff) (utxoDiffChildCodec : codec hash).

Record utxoDiffStore := {
  ud_diffs : store hash diff;
  ud_children : store hash hash
}.
Abbreviation storing A := (prog utxoDiffStore storeError A) (only parsing).
Definition on_diffs {A} (m : prog (store hash diff) storeError A) : storing A :=
  zoom ud_diffs (λ d s, {| ud_diffs := d; ud_children := ud_children s |}) m.
Definition on_children {A} (m : prog (store hash hash) storeError A) : storing A :=
  zoom ud_children (λ d s, {| ud_diffs := ud_diffs s; ud_children := d |}) m.

Definition utxoDiffStore_Stage (blockHash : hash) (utxoDiff : diff) (utxoDiffChild : option hash) : storing unit :=
  on_diffs (store_Stage blockHash utxoDiff) ;;*
  match utxoDiffChild with
  | Some child => on_children (store_Stage blockHash child)
  | None => ret ()
  end.
Definition utxoDiffStore_UTXODiff (blockHash : hash) : storing diff := on_diffs (store_Get range utxoDiffCodec blockHash).
Definition utxoDiffStore_UTXODiffChild (blockHash : hash) : storing hash := on_children (store_Get range utxoDiffChildCodec blockHash).
Definition HasUTXODiffChild (blockHash : hash) : storing bool := on_children (store_Has blockHash).

Definition isBlockHashStaged (blockHash : hash) (s : utxoDiffStore) : bool :=
  bool_decide (is_Some (st_toAdd (ud_diffs s) !! blockHash)) || bool_decide (is_Some (st_toAdd (ud_children s) !! blockHash)).

(** There is one set of hashes to delete, for both maps; here it is that of both of them. *)
Definition unstage {V} (blockHash : hash) (s : store hash V) : store hash V :=
  {| st_db := st_db s; st_cache := st_cache s; st_toAdd := delete blockHash (st_toAdd s); st_toDelete := st_toDelete s |}.
Definition markDeleted {V} (blockHash : hash) (s : store hash V) : store hash V :=
  {| st_db := st_db s; st_cache := st_cache s; st_toAdd := st_toAdd s; st_toDelete := <[blockHash := ()]> (st_toDelete s) |}.
Definition utxoDiffStore_Delete (blockHash : hash) : storing unit :=
  modify (λ s,
    if isBlockHashStaged blockHash s then {| ud_diffs := unstage blockHash (ud_diffs s); ud_children := unstage blockHash (ud_children s) |}
    else {| ud_diffs := markDeleted blockHash (ud_diffs s); ud_children := markDeleted blockHash (ud_children s) |}).

Definition utxoDiffStore_Commit : storing unit :=
  let* s := get in
  on_diffs (commitAdds range utxoDiffCodec (range diff (st_toAdd (ud_diffs s)))) ;;*
  on_children (commitAdds range utxoDiffChildCodec (range hash (st_toAdd (ud_children s)))) ;;*
  on_diffs (commitDeletes (map fst (range unit (st_toDelete (ud_diffs s))))) ;;*
  on_children (commitDeletes (map fst (range unit (st_toDelete (ud_children s))))).
End Diffs.
End DiffStore.

(** ** daablocksstore *)
Module DaaStore.
Section Daa.
Variable range : ∀ A, gmap hash A → list (hash * A).

Record daaStore := {
  ds_scores : store hash Z;
  ds_addedBlocks : store hash (list hash)
}.
Abbreviation storing A := (prog daaStore storeError A) (only parsing).
Definition on_scores {A} (m : prog (store hash Z) storeError A) : storing A :=
  zoom ds_scores (λ d s, {| ds_scores := d; ds_addedBlocks := ds_addedBlocks s |}) m.
Definition on_addedBlocks {A} (m : prog (store hash (list hash)) storeError A) : storing A :=
  zoom ds_addedBlocks (λ d s, {| ds_scores := ds_scores s; ds_addedBlocks := d |}) m.

Definition StageDAAScore (blockHash : hash) (daaScore : Z) : storing unit := on_scores (store_Stage blockHash daaScore).
Definition StageBlockDAAAddedBlocks (blockHash : hash) (addedBlocks : list hash) : storing unit := on_addedBlocks (store_Stage blockHash addedBlocks).
Definition daaStore_DAAScore (blockHash : hash) : storing Z := on_scores (store_Get range uint64Codec blockHash).
Definition daaStore_DAAAddedBlocks (blockHash : hash) : storing (list hash) := on_addedBlocks (store_Get range hashesCodec blockHash).

(** The score of a block that is not staged is not marked: in both cases the added blocks are. *)
Definition daaStore_Delete (blockHash : hash) : storing unit :=
  (let* s := get in
   if bool_decide (is_Some (st_toAdd (ds_scores s) !! blockHash)) then modify (λ s, {| ds_scores := DiffStore.unstage blockHash (ds_scores s); ds_addedBlocks := ds_addedBlocks s |})
   else modify (λ s, {| ds_scores := ds_scores s; ds_addedBlocks := DiffStore.markDeleted blockHash (ds_addedBlocks s) |})) ;;*
  let* s := get in
  if bool_decide (is_Some (st_toAdd (ds_addedBlocks s) !! blockHash))
  then modify (λ s, {| ds_scores := ds_scores s; ds_addedBlocks := DiffStore.unstage blockHash (ds_addedBlocks s) |})
  else modify (λ s, {| ds_scores := ds_scores s; ds_addedBlocks := DiffStore.markDeleted blockHash (ds_addedBlocks s) |}).

Definition daaStore_Commit : storing unit :=
  let* s := get in
  on_scores (commitAdds range uint64Codec (range Z (st_toAdd (ds_scores s)))) ;;*
  on_addedBlocks (commitAdds range hashesCodec (range (list hash) (st_toAdd (ds_addedBlocks s)))) ;;*
  on_scores (commitDeletes (map fst (range unit (st_toDelete (ds_scores s))))) ;;*
  on_addedBlocks (commitDeletes (map fst (range unit (st_toDelete (ds_addedBlocks s))))).
End Daa.
End DaaStore.

(** ** consensusstatestore *)
Module ConsensusState.
Section State.
Variable range : ∀ A, gmap DomainOutpoint A → list (DomainOutpoint * A).
Variables (utxoEntryCodec : codec utxoEntry) (tipsCodec : codec (list hash)).

(** The UTXO set of the virtual block in the database and its cache, the flag of an import, the staged diff, and the tips.  The keys of the set are
    serialized outpoints. *)
Record consensusStateStore := {
  cs_utxos : gmap DomainOutpoint bytes;
  cs_virtualUTXOSetCache : LRUCache DomainOutpoint utxoEntry;
  cs_importing : bool;
  cs_virtualUTXODiffStaging : option diff;
  cs_tips : cell (list hash)
}.
Abbreviation storing A := (prog consensusStateStore storeError A) (only parsing).

Definition with_utxos (f : gmap DomainOutpoint bytes → gmap DomainOutpoint bytes) (s : consensusStateStore) : consensusStateStore :=
  {| cs_utxos := f (cs_utxos s); cs_virtualUTXOSetCache := cs_virtualUTXOSetCache s; cs_importing := cs_importing s;
     cs_virtualUTXODiffStaging := cs_virtualUTXODiffStaging s; cs_tips := cs_tips s |}.
Definition with_utxoCache (f : LRUCache DomainOutpoint utxoEntry → LRUCache DomainOutpoint utxoEntry) (s : consensusStateStore) : consensusStateStore :=
  {| cs_utxos := cs_utxos s; cs_virtualUTXOSetCache := f (cs_virtualUTXOSetCache s); cs_importing := cs_importing s;
     cs_virtualUTXODiffStaging := cs_virtualUTXODiffStaging s; cs_tips := cs_tips s |}.
Definition on_tips {A} (m : prog (cell (list hash)) storeError A) : storing A :=
  zoom cs_tips (λ t s, {| cs_utxos := cs_utxos s; cs_virtualUTXOSetCache := cs_virtualUTXOSetCache s; cs_importing := cs_importing s;
                          cs_virtualUTXODiffStaging := cs_virtualUTXODiffStaging s; cs_tips := t |}) m.

(** tips.go *)
Definition Tips : storing (list hash) := on_tips (cell_Get tipsCodec).
Definition StageTips (tipHashes : list hash) : storing unit := on_tips (cell_Stage tipHashes).
Definition commitTips : storing unit := on_tips (cell_Commit tipsCodec).

(** utxo.go *)
Definition StageVirtualUTXODiff (virtualUTXODiff : diff) : storing unit :=
  modify (λ s, {| cs_utxos := cs_utxos s; cs_virtualUTXOSetCache := cs_virtualUTXOSetCache s; cs_importing := cs_importing s;
                  cs_virtualUTXODiffStaging := Some virtualUTXODiff; cs_tips := cs_tips s |}).

Fixpoint commitRemovals (outpoints : list DomainOutpoint) : storing unit :=
  match outpoints with
  | [] => ret ()
  | toRemoveOutpoint :: rest =>
      modify (with_utxoCache (λ cache, lru_Remove cache toRemoveOutpoint)) ;;*
      modify (with_utxos (delete toRemoveOutpoint)) ;;*
      commitRemovals rest
  end.
Fixpoint commitAdditions (entries : list (DomainOutpoint * utxoEntry)) : storing unit :=
  match entries with
  | [] => ret ()
  | (toAddOutpoint, toAddEntry) :: rest =>
      modify (with_utxoCache (λ cache, lru_Add range cache toAddOutpoint toAddEntry)) ;;*
      match encode utxoEntryCodec toAddEntry with
      | None => fail ErrSerialize
      | Some serializedEntry =>
          modify (with_utxos (<[toAddOutpoint := serializedEntry]>)) ;;*
          commitAdditions rest
      end
  end.
Definition commitVirtualUTXODiff : storing unit :=
  let* s := get in
  if cs_importing s then fail ErrImporting
  else
    match cs_virtualUTXODiffStaging s with
    | None => ret ()
    | Some d =>
        commitRemovals (map fst (range utxoEntry (toRemove d))) ;;*
        commitAdditions (range utxoEntry (toAdd d))
    end.
Definition consensusState_Commit : storing unit := commitTips ;;* commitVirtualUTXODiff.

Definition UTXOByOutpoint (outpoint : DomainOutpoint) : storing utxoEntry :=
  let* s := get in
  let staged :=
    match cs_virtualUTXODiffStaging s with
    | None => None
    | Some d =>
        if Contains (toRemove d) outpoint then Some (inr ErrOutpointNotFound)
        else match toAdd d !! outpoint with Some entry => Some (inl entry) | None => None end
    end in
  match staged with
  | Some (inl entry) => ret entry
  | Some (inr e) => fail e
  | None =>
      match lru_Get (cs_virtualUTXOSetCache s) outpoint with
      | Some entry => ret entry
      | None =>
          match cs_utxos s !! outpoint with
          | None => fail ErrDatabaseNotFound
          | Some serializedUTXOEntry =>
              match decode utxoEntryCodec serializedUTXOEntry with
              | None => fail ErrDeserialize
              | Some entry => modify (with_utxoCache (λ cache, lru_Add range cache outpoint entry)) ;;* ret entry
              end
          end
      end
  end.

Definition HasUTXOByOutpoint (outpoint : DomainOutpoint) : storing bool :=
  let* s := get in
  match cs_virtualUTXODiffStaging s with
  | Some d =>
      if Contains (toRemove d) outpoint then ret false
      else match toAdd d !! outpoint with Some _ => ret true | None => ret (bool_decide (is_Some (cs_utxos s !! outpoint))) end
  | None => ret (bool_decide (is_Some (cs_utxos s !! outpoint)))
  end.

(** virtual_utxo_set.go *)
Definition set_importing (importing : bool) : storing unit :=
  modify (λ s, {| cs_utxos := cs_utxos s; cs_virtualUTXOSetCache := cs_virtualUTXOSetCache s; cs_importing := importing;
                  cs_virtualUTXODiffStaging := cs_virtualUTXODiffStaging s; cs_tips := cs_tips s |}).
Definition StartImportingPruningPointUTXOSet : storing unit := set_importing true.
Definition HadStartedImportingPruningPointUTXOSet : storing bool := let* s := get in ret (cs_importing s).
Definition FinishImportingPruningPointUTXOSet : storing unit := set_importing false.

Fixpoint insertAll (entries : list (DomainOutpoint * utxoEntry)) : storing unit :=
  match entries with
  | [] => ret ()
  | (outpoint, entry) :: rest =>
      match encode utxoEntryCodec entry with
      | None => fail ErrSerialize
      | Some serializedUTXOEntry => modify (with_utxos (<[outpoint := serializedUTXOEntry]>)) ;;* insertAll rest
      end
  end.
(** The iterator over the imported set gives [entries]. *)
Definition ImportPruningPointUTXOSetIntoVirtualUTXOSet (entries : list (DomainOutpoint * utxoEntry)) : storing unit :=
  let* hadStarted := HadStartedImportingPruningPointUTXOSet in
  if negb hadStarted then fail ErrImporting
  else
    modify (with_utxoCache (lru_Clear range)) ;;*
    modify (λ s, with_utxos (fold_left (λ db key, delete key db) (map fst (range bytes (cs_utxos s)))) s) ;;*
    insertAll entries.
End State.
End ConsensusState.
Import ConsensusState.

(** ** The UTXO set of the virtual block *)
Section UtxoSpec.
Variable range : ∀ A, gmap DomainOutpoint A → list (DomainOutpoint * A).
Variables (utxoEntryCodec : codec utxoEntry) (tipsCodec : codec (list hash)).
Hypothesis Hrange : enumerates range.

(** The committed set is [U]. *)
Record utxo_set (s : consensusStateStore) (U : utxoCollection) : Prop := {
  us_db : ∀ o, cs_utxos s !! o = U !! o ≫= encode utxoEntryCodec;
  us_codable : ∀ o e, U !! o = Some e → codable utxoEntryCodec e;
  us_cache : lru_cache (cs_virtualUTXOSetCache s) ⊆ U;
  us_bounded : Z.of_nat (size (lru_cache (cs_virtualUTXOSetCache s))) ≤ lru_capacity (cs_virtualUTXOSetCache s)
}.

(** What readers of the area see: what the staged diff removes is gone, even if it adds it again. *)
Definition seen (U : utxoCollection) (staged : option diff) (o : DomainOutpoint) : option utxoEntry :=
  match staged with
  | None => U !! o
  | Some d => if Contains (toRemove d) o then None else (toAdd d ∪ U) !! o
  end.
Definition after (U : utxoCollection) (staged : option diff) : utxoCollection := match staged with None => U | Some d => apply_diff U d end.

(** Readers see what will be committed, unless the staged diff removes and adds the outpoint. *)
Lemma seen_after U staged o : (∀ d, staged = Some d → is_Some (toRemove d !! o) → toAdd d !! o = None) → seen U staged o = after U staged !! o.
Proof using Type.
  intros Hd. destruct staged as [d|]; [|done]. specialize (Hd d eq_refl). unfold seen, after, Contains, apply_diff. rewrite !lookup_union, lookup_difference.
  case_bool_decide as Hr; [rewrite Hd by done; by destruct Hr as [e ->]|]. apply eq_None_not_Some in Hr. by rewrite Hr.
Qed.

Lemma commitRemovals_spec l : ∀ s U, utxo_set s U →
  ∃ s', commitRemovals l s = (s', Ret ()) ∧ utxo_set s' (filter (λ kv, kv.1 ∉ l) U) ∧ cs_importing s' = cs_importing s ∧
    cs_virtualUTXODiffStaging s' = cs_virtualUTXODiffStaging s ∧ cs_tips s' = cs_tips s.
Proof using Type.
  induction l as [|o l IH]; intros s U Hs; cbn [commitRemovals].
  { exists s. rewrite map_filter_id by (intros ? ? ? ?%elem_of_nil; done). done. }
  set (s1 := with_utxoCache (λ cache, lru_Remove cache o) s). rewrite (bind_ret_l _ _ s s1 ()) by done.
  set (s2 := with_utxos (delete o) s1). rewrite (bind_ret_l _ _ s1 s2 ()) by done. destruct Hs as [H1 H2 H3 H4].
  destruct (IH s2 (delete o U)) as (s' & Hrun & Hs' & ?).
  { split; simpl.
    - intros o'. destruct (decide (o' = o)) as [->|Hne]; [by rewrite !lookup_delete_eq|by rewrite !lookup_delete_ne by done].
    - intros o' e [_ ?]%lookup_delete_Some. by eapply H2.
    - by apply delete_mono.
    - etrans; [|exact H4]. apply Nat2Z.inj_le, map_subseteq_size, delete_subseteq. }
  exists s'. split; [done|]. split; [|done].
  assert (filter (λ kv, kv.1 ∉ o :: l) U = filter (λ kv, kv.1 ∉ l) (delete o U)) as ->; [|done].
  apply map_eq. intros k'. apply option_eq. intros v. rewrite !map_lookup_filter_Some, lookup_delete_Some. simpl. rewrite not_elem_of_cons. naive_solver.
Qed.

Lemma commitAdditions_spec l : ∀ s U, NoDup l.*1 → (∀ o e, (o, e) ∈ l → codable utxoEntryCodec e) → utxo_set s U →
  ∃ s', commitAdditions range utxoEntryCodec l s = (s', Ret ()) ∧ utxo_set s' (list_to_map l ∪ U) ∧ cs_importing s' = cs_importing s ∧
    cs_virtualUTXODiffStaging s' = cs_virtualUTXODiffStaging s ∧ cs_tips s' = cs_tips s.
Proof using Hrange.
  induction l as [|[o e] l IH]; intros s U Hnd Hcod Hs; cbn [commitAdditions].
  { exists s. change (list_to_map [] : utxoCollection) with (∅ : utxoCollection). by rewrite (left_id_L ∅ (∪)). }
  apply NoDup_cons in Hnd as [Ho Hnd]. destruct (Hcod o e ltac:(by left)) as (b & Hb & Hd). destruct Hs as [H1 H2 H3 H4].
  set (s1 := with_utxoCache (λ cache, lru_Add range cache o e) s). rewrite (bind_ret_l _ _ s s1 ()) by done. rewrite Hb.
  set (s2 := with_utxos (<[o := b]>) s1). rewrite (bind_ret_l _ _ s1 s2 ()) by done.
  destruct (lru_Add_spec range Hrange (cs_virtualUTXOSetCache s) o e (<[o := e]> U)) as (C1 & C2 & C3); [|by rewrite lookup_insert_eq|done|].
  { apply map_subseteq_spec. intros o' e' [Hne Ho']%lookup_delete_Some. rewrite lookup_insert_ne by done. by eapply lookup_weaken. }
  destruct (IH s2 (<[o := e]> U) Hnd) as (s' & Hrun & Hs' & ?).
  { intros o' e' He. apply (Hcod o'). by right. }
  { split; simpl; [| |done|lia].
    - intros o'. destruct (decide (o' = o)) as [->|Hne]; [by rewrite !lookup_insert_eq|by rewrite !lookup_insert_ne by done].
    - intros o' e' [[_ <-]|[_ He]]%lookup_insert_Some; [by exists b|by eapply H2]. }
  exists s'. split; [done|]. split; [|done]. assert (list_to_map ((o, e) :: l) ∪ U = list_to_map l ∪ <[o := e]> U) as ->; [|done].
  simpl. rewrite <- insert_union_l, insert_union_r; [done|]. by apply not_elem_of_list_to_map.
Qed.

Lemma range_keys {A} (m : gmap DomainOutpoint A) o : o ∈ map fst (range A m) ↔ is_Some (m !! o).
Proof using Hrange.
  change (map fst) with (fmap (M := list) (fst (A := DomainOutpoint) (B := A))). rewrite (Hrange A m). split.
  - intros ([o' e] & -> & Hk%elem_of_map_to_list)%list_elem_of_fmap. by eexists.
  - intros [e Hk]. apply list_elem_of_fmap. exists (o, e). split; [done|]. by apply elem_of_map_to_list.
Qed.

Lemma commitVirtualUTXODiff_spec s U : utxo_set s U → cs_importing s = false →
  (∀ d o e, cs_virtualUTXODiffStaging s = Some d → toAdd d !! o = Some e → codable utxoEntryCodec e) →
  ∃ s', commitVirtualUTXODiff range utxoEntryCodec s = (s', Ret ()) ∧ utxo_set s' (after U (cs_virtualUTXODiffStaging s)) ∧ cs_tips s' = cs_tips s.
Proof using Hrange.
  intros Hs Himp Hcod. unfold commitVirtualUTXODiff. rewrite (bind_ret_l _ _ s s s) by done. rewrite Himp. destruct (cs_virtualUTXODiffStaging s) as [d|]; [|by exists s].
  destruct (commitRemovals_spec (map fst (range utxoEntry (toRemove d))) s U Hs) as (s1 & Hrun1 & Hs1 & _ & _ & Ht1). rewrite (bind_ret_l _ _ s s1 () Hrun1).
  pose proof (Hrange utxoEntry (toAdd d)) as Hperm.
  destruct (commitAdditions_spec (range utxoEntry (toAdd d)) s1 _ ltac:(rewrite Hperm; apply NoDup_fst_map_to_list) ltac:(intros o e Ho; apply (Hcod d o e eq_refl), elem_of_map_to_list; by rewrite <- Hperm) Hs1)
    as (s2 & Hrun2 & Hs2 & _ & _ & Ht2).
  exists s2. split; [done|]. split; [|congruence].
  assert (list_to_map (range utxoEntry (toAdd d)) = toAdd d) as Hadd.
  { rewrite <- (list_to_map_to_list (toAdd d)) at 2. apply list_to_map_proper; [rewrite Hperm; apply NoDup_fst_map_to_list|done]. }
  rewrite Hadd in Hs2. unfold after, apply_diff.
  assert (U ∖ toRemove d = filter (λ kv, kv.1 ∉ map fst (range utxoEntry (toRemove d))) U) as ->; [|done].
  apply map_eq. intros o. apply option_eq. intros e. rewrite lookup_difference_Some, map_lookup_filter_Some. simpl. rewrite range_keys, eq_None_not_Some. done.
Qed.

Lemma UTXOByOutpoint_spec s U o : utxo_set s U →
  ∃ s' answer, UTXOByOutpoint range utxoEntryCodec o s = (s', answer) ∧ utxo_set s' U ∧ cs_virtualUTXODiffStaging s' = cs_virtualUTXODiffStaging s ∧
    match seen U (cs_virtualUTXODiffStaging s) o with
    | Some e => answer = Ret e
    | None => answer = Fail ErrDatabaseNotFound ∨ answer = Fail ErrOutpointNotFound
    end.
Proof using Hrange.
  intros Hs. destruct Hs as [H1 H2 H3 H4]. unfold UTXOByOutpoint. rewrite (bind_ret_l _ _ s s s) by done. unfold seen.
  assert (∃ s' answer, (match lru_Get (cs_virtualUTXOSetCache s) o with
    | Some entry => ret entry
    | None => match cs_utxos s !! o with
              | None => fail ErrDatabaseNotFound
              | Some b => match decode utxoEntryCodec b with
                          | None => fail ErrDeserialize
                          | Some entry => modify (with_utxoCache (λ cache, lru_Add range cache o entry)) ;;* ret entry
                          end
              end
    end : prog consensusStateStore storeError utxoEntry) s = (s', answer) ∧ utxo_set s' U ∧ cs_virtualUTXODiffStaging s' = cs_virtualUTXODiffStaging s ∧
    match U !! o with Some e => answer = Ret e | None => answer = Fail ErrDatabaseNotFound ∨ answer = Fail ErrOutpointNotFound end) as Hbase.
  { unfold lru_Get. destruct (lru_cache (cs_virtualUTXOSetCache s) !! o) as [e|] eqn:Ec; [exists s, (Ret e); rewrite (lookup_weaken _ _ _ _ Ec H3); by split_and!|].
    rewrite H1. destruct (U !! o) as [e|] eqn:Eu; simpl; [|exists s, (Fail ErrDatabaseNotFound); split_and!; try done; by left].
    destruct (H2 o e Eu) as (b & Hb & Hd). rewrite Hb, Hd. set (s1 := with_utxoCache (λ cache, lru_Add range cache o e) s). rewrite (bind_ret_l _ _ s s1 ()) by done. exists s1, (Ret e). split; [done|].
    destruct (lru_Add_spec range Hrange (cs_virtualUTXOSetCache s) o e U) as (C1 & C2 & C3); [etrans; [apply delete_subseteq|done]|done|done|].
    split; [|done]. split; simpl; try done. lia. }
  destruct (cs_virtualUTXODiffStaging s) as [d|] eqn:Ed; [|exact Hbase]. cbv zeta.
  destruct (Contains (toRemove d) o); [exists s, (Fail ErrOutpointNotFound); split_and!; try done; by right|].
  destruct (toAdd d !! o) as [e|] eqn:Ea; [exists s, (Ret e); rewrite (lookup_union_Some_l _ _ _ _ Ea); by split_and!|].
  rewrite (lookup_union_r _ _ _ Ea). exact Hbase.
Qed.
End UtxoSpec.
