(* ===== verification/ChainStore.v ===== *)
(** * The selected chain of the headers (datastructures/headersselectedchainstore)

    The store maps the blocks of the chain to their indices and the indices to the blocks, in two buckets, each with its
    cache.  A change removes blocks of the end of the chain and adds others.  The theorems say that the four maps, the two caches and the
    highest index together behave as one list of blocks. *)
From S2P Require Import Prelude Externalapi Interval ReachabilityData Reachability DagTopology Ghostdag Traversal Stores.
Import Traversal LRU BinarySerialization.
Local Open Scope Z_scope.
Local Open Scope prog_scope.

Abbreviation hash := (list Z) (only parsing).
Abbreviation bytes := (list Z) (only parsing).

(** ** A bucket and its cache *)
Module Table.
Section Table.
Context {K V : Type} `{Countable K}.
Variable range : ∀ A, gmap K A → list (K * A).
Variable c : codec V.

Record table := {
  tb_db : gmap K bytes;
  tb_cache : LRUCache K V
}.
Abbreviation storing A := (prog table storeError A) (only parsing).

Definition table_Get (key : K) : storing V :=
  let* t := get in
  match lru_Get (tb_cache t) key with
  | Some value => ret value
  | None =>
      match tb_db t !! key with
      | None => fail ErrDatabaseNotFound
      | Some valueBytes =>
          match decode c valueBytes with
          | None => fail ErrDeserialize
          | Some value => modify (λ t, {| tb_db := tb_db t; tb_cache := lru_Add range (tb_cache t) key value |}) ;;* ret value
          end
      end
  end.
Definition table_Put (key : K) (value : V) : storing unit :=
  match encode c value with
  | None => fail ErrSerialize
  | Some valueBytes => modify (λ t, {| tb_db := <[key := valueBytes]> (tb_db t); tb_cache := lru_Add range (tb_cache t) key value |})
  end.
Definition table_Delete (key : K) : storing unit :=
  modify (λ t, {| tb_db := delete key (tb_db t); tb_cache := lru_Remove (tb_cache t) key |}).

(** The table is the map [D]. *)
Record mirrors (t : table) (D : gmap K V) : Prop := {
  mi_db : ∀ k, tb_db t !! k = D !! k ≫= encode c;
  mi_codable : ∀ k v, D !! k = Some v → codable c v;
  mi_cache : lru_cache (tb_cache t) ⊆ D;
  mi_bounded : Z.of_nat (size (lru_cache (tb_cache t))) ≤ lru_capacity (tb_cache t)
}.

Hypothesis Hrange : enumerates range.

Lemma table_Get_spec k t D : mirrors t D →
  ∃ t', table_Get k t = (t', match D !! k with Some v => Ret v | None => Fail ErrDatabaseNotFound end) ∧ mirrors t' D.
Proof using Hrange.
  intros [Hdb Hcod Hcache Hsize]. unfold table_Get. rewrite (bind_ret_l _ _ t t t) by done. unfold lru_Get.
  destruct (lru_cache (tb_cache t) !! k) as [v|] eqn:Ec; [exists t; by rewrite (lookup_weaken _ _ _ _ Ec Hcache)|].
  rewrite Hdb. destruct (D !! k) as [v|] eqn:Ed; simpl; [|by exists t]. destruct (Hcod k v Ed) as (b & Hb & Hd). rewrite Hb, Hd.
  set (t1 := {| tb_db := tb_db t; tb_cache := lru_Add range (tb_cache t) k v |}). rewrite (bind_ret_l _ _ t t1 ()) by done. exists t1. split; [done|].
  destruct (lru_Add_spec range Hrange (tb_cache t) k v D) as (H1 & H2 & H3); [etrans; [apply delete_subseteq|done]|done|done|]. split; try done. simpl. lia.
Qed.

Lemma table_Put_spec k v t D : mirrors t D → codable c v → ∃ t', table_Put k v t = (t', Ret ()) ∧ mirrors t' (<[k := v]> D).
Proof using Hrange.
  intros [Hdb Hcod Hcache Hsize] Hv. destruct (Hv) as (b & Hb & Hd). unfold table_Put. rewrite Hb. eexists. split; [done|].
  destruct (lru_Add_spec range Hrange (tb_cache t) k v (<[k := v]> D)) as (H1 & H2 & H3); [|by rewrite lookup_insert_eq|done|].
  { apply map_subseteq_spec. intros k' v' [Hne Hk']%lookup_delete_Some. rewrite lookup_insert_ne by done. by eapply lookup_weaken. }
  split; simpl; [| |done|lia].
  - intros k'. destruct (decide (k' = k)) as [->|Hne]; [by rewrite !lookup_insert_eq|by rewrite !lookup_insert_ne by done].
  - intros k' v' [[_ <-]|[_ ?]]%lookup_insert_Some; [done|by eapply Hcod].
Qed.

Lemma table_Delete_spec k t D : mirrors t D → ∃ t', table_Delete k t = (t', Ret ()) ∧ mirrors t' (delete k D).
Proof using Type.
  intros [Hdb Hcod Hcache Hsize]. eexists. split; [done|]. split; simpl.
  - intros k'. destruct (decide (k' = k)) as [->|Hne]; [by rewrite !lookup_delete_eq|by rewrite !lookup_delete_ne by done].
  - intros k' v' [_ ?]%lookup_delete_Some. by eapply Hcod.
  - by apply delete_mono.
  - etrans; [|exact Hsize]. apply Nat2Z.inj_le, map_subseteq_size, delete_subseteq.
Qed.
End Table.
Arguments table K V {_ _}.
End Table.
Import Table.

(** ** The store *)
Module HeadersSelectedChain.
Section Chain.
Variable rangeHash : ∀ A, gmap hash A → list (hash * A).
Variable rangeIndex : ∀ A, gmap Z A → list (Z * A).

(** The keys of the second bucket are the big-endian bytes of the indices. *)
Record chainStore := {
  hc_byHash : table hash Z;
  hc_byIndex : table Z hash;
  hc_highest : option bytes;
  hc_cacheHighestChainBlockIndex : Z;
  hc_addedByHash : gmap hash Z;
  hc_removedByHash : gmap hash unit;
  hc_addedByIndex : gmap Z hash;
  hc_removedByIndex : gmap Z unit
}.
Abbreviation storing A := (prog chainStore storeError A) (only parsing).

Definition chain_New (cacheSize : Z) : chainStore :=
  {| hc_byHash := {| tb_db := ∅; tb_cache := lru_New cacheSize |}; hc_byIndex := {| tb_db := ∅; tb_cache := lru_New cacheSize |}; hc_highest := None;
     hc_cacheHighestChainBlockIndex := 0; hc_addedByHash := ∅; hc_removedByHash := ∅; hc_addedByIndex := ∅; hc_removedByIndex := ∅ |}.

Definition put_byHash (t : table hash Z) (s : chainStore) : chainStore :=
  {| hc_byHash := t; hc_byIndex := hc_byIndex s; hc_highest := hc_highest s; hc_cacheHighestChainBlockIndex := hc_cacheHighestChainBlockIndex s;
     hc_addedByHash := hc_addedByHash s; hc_removedByHash := hc_removedByHash s; hc_addedByIndex := hc_addedByIndex s; hc_removedByIndex := hc_removedByIndex s |}.
Definition put_byIndex (t : table Z hash) (s : chainStore) : chainStore :=
  {| hc_byHash := hc_byHash s; hc_byIndex := t; hc_highest := hc_highest s; hc_cacheHighestChainBlockIndex := hc_cacheHighestChainBlockIndex s;
     hc_addedByHash := hc_addedByHash s; hc_removedByHash := hc_removedByHash s; hc_addedByIndex := hc_addedByIndex s; hc_removedByIndex := hc_removedByIndex s |}.
Definition on_byHash {A} (m : prog (table hash Z) storeError A) : storing A := zoom hc_byHash put_byHash m.
Definition on_byIndex {A} (m : prog (table Z hash) storeError A) : storing A := zoom hc_byIndex put_byIndex m.
Definition put_highest (b : option bytes) (cached : Z) (s : chainStore) : chainStore :=
  {| hc_byHash := hc_byHash s; hc_byIndex := hc_byIndex s; hc_highest := b; hc_cacheHighestChainBlockIndex := cached;
     hc_addedByHash := hc_addedByHash s; hc_removedByHash := hc_removedByHash s; hc_addedByIndex := hc_addedByIndex s; hc_removedByIndex := hc_removedByIndex s |}.
Definition put_staged (ah : gmap hash Z) (rh : gmap hash unit) (ai : gmap Z hash) (ri : gmap Z unit) (s : chainStore) : chainStore :=
  {| hc_byHash := hc_byHash s; hc_byIndex := hc_byIndex s; hc_highest := hc_highest s; hc_cacheHighestChainBlockIndex := hc_cacheHighestChainBlockIndex s;
     hc_addedByHash := ah; hc_removedByHash := rh; hc_addedByIndex := ai; hc_removedByIndex := ri |}.

(** [addedByIndex] is tested twice, and [removedByIndex] never. *)
Definition chain_isStaged (s : chainStore) : bool :=
  negb (bool_decide (size (hc_addedByHash s) = 0%nat)) || negb (bool_decide (size (hc_removedByHash s) = 0%nat)) ||
  negb (bool_decide (size (hc_addedByIndex s) = 0%nat)) || negb (bool_decide (size (hc_addedByIndex s) = 0%nat)).

Definition GetIndexByHash (blockHash : hash) : storing Z :=
  let* s := get in
  match hc_addedByHash s !! blockHash with
  | Some index => ret index
  | None =>
      match hc_removedByHash s !! blockHash with
      | Some _ => fail ErrDatabaseNotFound
      | None => on_byHash (table_Get rangeHash uint64Codec blockHash)
      end
  end.

Definition GetHashByIndex (index : Z) : storing hash :=
  let* s := get in
  match hc_addedByIndex s !! index with
  | Some blockHash => ret blockHash
  | None =>
      match hc_removedByIndex s !! index with
      | Some _ => fail ErrDatabaseNotFound
      | None => on_byIndex (table_Get rangeIndex hashCodec index)
      end
  end.

Definition highestChainBlockIndex : storing (option Z) :=
  let* s := get in
  if negb (hc_cacheHighestChainBlockIndex s =? 0) then ret (Some (hc_cacheHighestChainBlockIndex s))
  else
    match hc_highest s with
    | None => ret None
    | Some indexBytes =>
        match DeserializeUint64 indexBytes with
        | None => fail ErrDeserialize
        | Some index => modify (put_highest (Some indexBytes) index) ;;* ret (Some index)
        end
    end.

Fixpoint stageRemoved (removed : list hash) : storing unit :=
  match removed with
  | [] => ret ()
  | blockHash :: rest =>
      let* index := GetIndexByHash blockHash in
      modify (λ s, put_staged (hc_addedByHash s) (<[blockHash := ()]> (hc_removedByHash s)) (hc_addedByIndex s) (<[index := ()]> (hc_removedByIndex s)) s) ;;*
      stageRemoved rest
  end.
Fixpoint stageAdded (added : list hash) (currentIndex : Z) : storing unit :=
  match added with
  | [] => ret ()
  | blockHash :: rest =>
      modify (λ s, put_staged (<[blockHash := currentIndex]> (hc_addedByHash s)) (hc_removedByHash s) (<[currentIndex := blockHash]> (hc_addedByIndex s)) (hc_removedByIndex s) s) ;;*
      stageAdded rest (GoInt.uint64 (currentIndex + 1))
  end.
Definition chain_Stage (chainChanges : SelectedChainPath) : storing unit :=
  let* s := get in
  if chain_isStaged s then fail ErrAlreadyStaged
  else
    stageRemoved (scp_Removed chainChanges) ;;*
    let* highest := highestChainBlockIndex in
    let currentIndex :=
      match highest with
      | Some index => GoInt.uint64 (GoInt.uint64 (index - zlen (scp_Removed chainChanges)) + 1)
      | None => 0
      end in
    stageAdded (scp_Added chainChanges) currentIndex.

Fixpoint commitRemovedByHash (removed : list hash) : storing unit :=
  match removed with
  | [] => ret ()
  | h :: rest => on_byHash (table_Delete h) ;;* commitRemovedByHash rest
  end.
Fixpoint commitRemovedByIndex (removed : list Z) : storing unit :=
  match removed with
  | [] => ret ()
  | index :: rest => on_byIndex (table_Delete index) ;;* commitRemovedByIndex rest
  end.
Fixpoint commitAdded (added : list (hash * Z)) (highestIndex : Z) : storing Z :=
  match added with
  | [] => ret highestIndex
  | (h, index) :: rest =>
      on_byHash (table_Put rangeHash uint64Codec h index) ;;*
      on_byIndex (table_Put rangeIndex hashCodec index h) ;;*
      commitAdded rest (if highestIndex <? index then index else highestIndex)
  end.
Definition chain_Commit : storing unit :=
  let* s := get in
  if negb (chain_isStaged s) then ret ()
  else
    commitRemovedByHash (map fst (rangeHash unit (hc_removedByHash s))) ;;*
    commitRemovedByIndex (map fst (rangeIndex unit (hc_removedByIndex s))) ;;*
    let* highestIndex := commitAdded (rangeHash Z (hc_addedByHash s)) 0 in
    modify (put_highest (Some (SerializeUint64 highestIndex)) highestIndex).
Definition chain_NewArea (s : chainStore) : chainStore := put_staged ∅ ∅ ∅ ∅ s.
End Chain.
End HeadersSelectedChain.
Import HeadersSelectedChain.

(** ** The chain as a list *)
Section Spec.
Variable rangeHash : ∀ A, gmap hash A → list (hash * A).
Variable rangeIndex : ∀ A, gmap Z A → list (Z * A).
Hypothesis HrangeHash : enumerates rangeHash.
Hypothesis HrangeIndex : enumerates rangeIndex.

(** The block with this index *)
Definition block_at (chain : list hash) (h : hash) (i : Z) : Prop := 0 ≤ i ∧ chain !! Z.to_nat i = Some h.

(** [chain] is committed; the area removes the blocks [removed] and adds [added], the first of them with the index [base]. *)
Record ok (s : chainStore) (chain removed : list hash) (base : Z) (added : list hash) : Prop := {
  ok_byHash : ∃ D, mirrors uint64Codec (hc_byHash s) D ∧ ∀ h i, D !! h = Some i ↔ block_at chain h i;
  ok_byIndex : ∃ D, mirrors hashCodec (hc_byIndex s) D ∧ ∀ i h, D !! i = Some h ↔ block_at chain h i;
  ok_highest : hc_highest s = if bool_decide (chain = []) then None else Some (SerializeUint64 (zlen chain - 1));
  ok_cached : hc_cacheHighestChainBlockIndex s = 0 ∨ chain ≠ [] ∧ hc_cacheHighestChainBlockIndex s = zlen chain - 1;
  ok_removedByHash : ∀ h, is_Some (hc_removedByHash s !! h) ↔ h ∈ removed;
  ok_removedByIndex : ∀ i, is_Some (hc_removedByIndex s !! i) ↔ ∃ h, h ∈ removed ∧ block_at chain h i;
  ok_addedByHash : ∀ h i, hc_addedByHash s !! h = Some i ↔ block_at added h (i - base);
  ok_addedByIndex : ∀ i h, hc_addedByIndex s !! i = Some h ↔ block_at added h (i - base)
}.

(** *** Blocks of a list *)
Lemma block_at_app l1 l2 h i : block_at (l1 ++ l2) h i ↔ block_at l1 h i ∨ block_at l2 h (i - zlen l1).
Proof.
  unfold block_at, zlen. rewrite lookup_app_Some. split.
  - intros [Hi [Hl|[Hle Hl]]]; [by left|right]. split; [lia|]. by replace (Z.to_nat (i - Z.of_nat (length l1))) with (Z.to_nat i - length l1)%nat by lia.
  - intros [[Hi Hl]|[Hi Hl]]; [split; [done|by left]|split; [lia|right]]. split; [lia|]. by replace (Z.to_nat i - length l1)%nat with (Z.to_nat (i - Z.of_nat (length l1))) by lia.
Qed.
Lemma block_at_elem l h : h ∈ l ↔ ∃ i, block_at l h i.
Proof.
  rewrite list_elem_of_lookup. split; [intros [n Hn]; exists (Z.of_nat n); split; [lia|by rewrite Nat2Z.id]|intros (i & _ & Hi); by eexists].
Qed.
Lemma block_at_bound l h i : block_at l h i → 0 ≤ i < zlen l.
Proof. intros [Hi Hl%lookup_lt_Some]. unfold zlen. lia. Qed.
Lemma block_at_fun l h1 h2 i : block_at l h1 i → block_at l h2 i → h1 = h2.
Proof. intros [_ H1] [_ H2]. congruence. Qed.
Lemma block_at_inj l h i j : NoDup l → block_at l h i → block_at l h j → i = j.
Proof. intros Hnd [Hi H1] [Hj H2]. pose proof (NoDup_lookup _ _ _ _ Hnd H1 H2). lia. Qed.
Lemma block_at_NoDup l : (∀ h i j, block_at l h i → block_at l h j → i = j) → NoDup l.
Proof.
  intros Hl. apply NoDup_alt. intros n m h Hn Hm. apply Nat2Z.inj, (Hl h); split; try lia; by rewrite Nat2Z.id.
Qed.
Lemma block_at_singleton h h' i : block_at [h] h' i ↔ h' = h ∧ i = 0.
Proof.
  split.
  - intros Hb. pose proof (block_at_bound _ _ _ Hb) as Hi. destruct Hb as [_ Hl]. unfold zlen in Hi. simpl in Hi. replace i with 0 in * by lia. simpl in Hl. split; [congruence|done].
  - intros [-> ->]. by split.
Qed.

Lemma ok_NoDup s chain removed base added : ok s chain removed base added → NoDup chain.
Proof.
  intros Hs. destruct (ok_byHash _ _ _ _ _ Hs) as (D & _ & HD). apply block_at_NoDup. intros h i j H1%HD H2%HD. congruence.
Qed.

(** *** Reading *)
Lemma on_byHash_run {A} (m : prog (table hash Z) storeError A) s t o : m (hc_byHash s) = (t, o) → on_byHash m s = (put_byHash t s, o).
Proof. intros E. unfold on_byHash, zoom. by rewrite E. Qed.
Lemma on_byIndex_run {A} (m : prog (table Z hash) storeError A) s t o : m (hc_byIndex s) = (t, o) → on_byIndex m s = (put_byIndex t s, o).
Proof. intros E. unfold on_byIndex, zoom. by rewrite E. Qed.

(** What a reader gets, for the relation [R] of the keys and values it sees. *)
Definition answers {A} (R : A → Prop) (o : outcome storeError A) : Prop :=
  (∃ a, o = Ret a ∧ R a) ∨ (o = Fail ErrDatabaseNotFound ∧ ∀ a, ¬ R a).

Lemma GetIndexByHash_run s chain removed base added h : ok s chain removed base added →
  ∃ s' o, GetIndexByHash rangeHash h s = (s', o) ∧ ok s' chain removed base added ∧
    answers (λ i, block_at added h (i - base) ∨ h ∉ added ∧ h ∉ removed ∧ block_at chain h i) o.
Proof using HrangeHash.
  intros Hs. unfold GetIndexByHash. rewrite (bind_ret_l _ _ s s s) by done. destruct (hc_addedByHash s !! h) as [i|] eqn:Ea.
  { apply (ok_addedByHash _ _ _ _ _ Hs) in Ea. exists s, (Ret i). split_and!; try done. left. exists i. split; [done|by left]. }
  assert (∀ i, ¬ block_at added h (i - base)) as Hna by (intros i Hi%(ok_addedByHash _ _ _ _ _ Hs); congruence).
  assert (h ∉ added) as Hni by (intros [i Hi]%block_at_elem; apply (Hna (i + base)); by replace (i + base - base) with i by lia).
  destruct (hc_removedByHash s !! h) as [[]|] eqn:Er.
  { exists s, (Fail ErrDatabaseNotFound). split_and!; try done. right. split; [done|]. intros i [Hi|(_ & Hr & _)]; [by eapply Hna|]. apply Hr, (ok_removedByHash _ _ _ _ _ Hs). by eexists. }
  assert (h ∉ removed) as Hnr by (intros [[] Hr]%(ok_removedByHash _ _ _ _ _ Hs); congruence).
  destruct (ok_byHash _ _ _ _ _ Hs) as (D & Hmir & HD). destruct (table_Get_spec rangeHash uint64Codec HrangeHash h _ D Hmir) as (t & Ht & Hmir').
  rewrite (on_byHash_run _ _ _ _ Ht). eexists _, _. split; [done|]. split; [destruct Hs; split; simpl; [by exists D|done..]|]. destruct (D !! h) as [i|] eqn:Ed.
  - left. exists i. split; [done|]. right. split_and!; try done. by apply HD.
  - right. split; [done|]. intros i [Hi|(_ & _ & Hi%HD)]; [by eapply Hna|congruence].
Qed.

Lemma GetHashByIndex_run s chain removed base added i : ok s chain removed base added →
  ∃ s' o, GetHashByIndex rangeIndex i s = (s', o) ∧ ok s' chain removed base added ∧
    answers (λ h, block_at added h (i - base) ∨ ¬ (base ≤ i < base + zlen added) ∧ h ∉ removed ∧ block_at chain h i) o.
Proof using HrangeIndex.
  intros Hs. unfold GetHashByIndex. rewrite (bind_ret_l _ _ s s s) by done. destruct (hc_addedByIndex s !! i) as [h|] eqn:Ea.
  { apply (ok_addedByIndex _ _ _ _ _ Hs) in Ea. exists s, (Ret h). split_and!; try done. left. exists h. split; [done|by left]. }
  assert (∀ h, ¬ block_at added h (i - base)) as Hna by (intros h Hh%(ok_addedByIndex _ _ _ _ _ Hs); congruence).
  assert (¬ (base ≤ i < base + zlen added)) as Hni.
  { intros Hi. destruct (lookup_lt_is_Some_2 added (Z.to_nat (i - base))) as [h Hh]; [unfold zlen in Hi; lia|]. apply (Hna h). split; [lia|done]. }
  destruct (hc_removedByIndex s !! i) as [[]|] eqn:Er.
  { exists s, (Fail ErrDatabaseNotFound). split_and!; try done. right. split; [done|]. intros h [Hh|(_ & Hr & Hh)]; [by eapply Hna|].
    destruct (proj1 (ok_removedByIndex _ _ _ _ _ Hs i)) as (h' & Hh' & Hat); [by eexists|]. by rewrite (block_at_fun _ _ _ _ Hh Hat) in Hr. }
  destruct (ok_byIndex _ _ _ _ _ Hs) as (D & Hmir & HD). destruct (table_Get_spec rangeIndex hashCodec HrangeIndex i _ D Hmir) as (t & Ht & Hmir').
  rewrite (on_byIndex_run _ _ _ _ Ht). eexists _, _. split; [done|]. split; [destruct Hs; split; simpl; try done; by exists D|]. destruct (D !! i) as [h|] eqn:Ed.
  - left. exists h. split; [done|]. apply HD in Ed. right. split_and!; try done. intros Hr. assert (is_Some (hc_removedByIndex s !! i)) as [? ?]; [|congruence].
    apply (ok_removedByIndex _ _ _ _ _ Hs). by exists h.
  - right. split; [done|]. intros h [Hh|(_ & _ & Hh%HD)]; [by eapply Hna|congruence].
Qed.

(** *** Staging *)
Lemma stageRemoved_spec chain rest : ∀ s removed, ok s chain removed 0 [] → NoDup (removed ++ rest) → (∀ h, h ∈ rest → h ∈ chain) →
  ∃ s', stageRemoved rangeHash rest s = (s', Ret ()) ∧ ok s' chain (removed ++ rest) 0 [].
Proof using HrangeHash.
  induction rest as [|h rest IH]; intros s removed Hs Hnd Hin; cbn [stageRemoved]; [exists s; by rewrite (right_id_L [] (++))|].
  destruct (GetIndexByHash_run s chain removed 0 [] h Hs) as (s1 & o & Hrun & Hs1 & Ho).
  assert (h ∉ removed) as Hnr by (intros Hr; apply NoDup_app in Hnd as (_ & Hd & _); apply (Hd h Hr); by left).
  destruct Ho as [(i & -> & Hi)|[_ Ho]].
  2:{ destruct (proj1 (block_at_elem chain h)) as [i Hi]; [apply Hin; by left|]. exfalso. apply (Ho i). right. split_and!; try done. by intros ?%elem_of_nil. }
  assert (block_at chain h i) as Hat by (destruct Hi as [[_ Hi]|(_ & _ & Hi)]; [by rewrite lookup_nil in Hi|done]).
  rewrite (bind_ret_l _ _ s s1 i Hrun). match goal with |- context [bind (modify ?f) _ s1] => set (s2 := f s1); rewrite (bind_ret_l (modify f) _ s1 s2 ()) by done end.
  destruct (IH s2 (removed ++ [h])) as (s' & Hrun' & Hs'); [|by rewrite <- (assoc_L (++))|intros; apply Hin; by right|exists s'; split; [done|]; by rewrite <- (assoc_L (++)) in Hs'].
  pose proof (ok_NoDup _ _ _ _ _ Hs1) as Hndc. destruct Hs1 as [O1 O2 O3 O4 O5 O6 O7 O8]. split; simpl; try done.
  - intros h'. rewrite lookup_insert_is_Some, elem_of_app, O5, list_elem_of_singleton. destruct (decide (h' = h)); naive_solver.
  - intros j. rewrite lookup_insert_is_Some, O6. split.
    + intros [->|[_ (h' & Hh' & Hat')]]; [exists h|exists h']; (split; [|done]); apply elem_of_app; [right; by left|by left].
    + intros (h' & [Hh'| ->%list_elem_of_singleton]%elem_of_app & Hat'); [|left; by eapply block_at_inj].
      destruct (decide (i = j)) as [->|Hne]; [by left|]. right. split; [done|]. by exists h'.
Qed.

Lemma stageAdded_spec chain removed base rest : ∀ s added, ok s chain removed base added → 0 ≤ base → NoDup (added ++ rest) → base + zlen (added ++ rest) < 2 ^ 64 →
  ∃ s', stageAdded rest (base + zlen added) s = (s', Ret ()) ∧ ok s' chain removed base (added ++ rest).
Proof.
  induction rest as [|h rest IH]; intros s added Hs Hbase Hnd Hlen; cbn [stageAdded]; [exists s; by rewrite (right_id_L [] (++))|].
  match goal with |- context [bind (modify ?f) _ s] => set (s1 := f s); rewrite (bind_ret_l (modify f) _ s s1 ()) by done end.
  assert (h ∉ added) as Hna by (intros Hr; apply NoDup_app in Hnd as (_ & Hd & _); apply (Hd h Hr); by left).
  rewrite zlen_app, zlen_cons in Hlen. pose proof (zlen_nonneg rest). pose proof (zlen_nonneg added).
  rewrite GoInt.uint64_id by lia. replace (base + zlen added + 1) with (base + zlen (added ++ [h])) by (rewrite zlen_app; unfold zlen at 2; simpl; lia).
  destruct (IH s1 (added ++ [h])) as (s' & Hrun' & Hs'); [|done|by rewrite <- (assoc_L (++))|rewrite !zlen_app; unfold zlen at 2; simpl; lia|exists s'; split; [done|]; by rewrite <- (assoc_L (++)) in Hs'].
  destruct Hs as [O1 O2 O3 O4 O5 O6 O7 O8]. split; simpl; try done.
  - intros h' i. rewrite block_at_app, block_at_singleton, lookup_insert_Some, O7. split; [intros [[<- <-]|[? ?]]; [right; split; [done|lia]|by left]|].
    intros [Hat|[-> Hi]]; [right; split; [|done]|left; split; [done|lia]]. intros ->. apply Hna, block_at_elem. by eexists.
  - intros i h'. rewrite block_at_app, block_at_singleton, lookup_insert_Some, O8. split; [intros [[<- <-]|[? ?]]; [right; split; [done|lia]|by left]|].
    intros [Hat|[-> Hi]]; [right; split; [|done]|left; split; [lia|done]]. intros <-. apply block_at_bound in Hat. lia.
Qed.

Lemma highest_spec s chain removed base added : ok s chain removed base added → zlen chain ≤ 2 ^ 64 →
  ∃ s', highestChainBlockIndex s = (s', Ret (if bool_decide (chain = []) then None else Some (zlen chain - 1))) ∧ ok s' chain removed base added.
Proof.
  intros Hs Hlen. unfold highestChainBlockIndex. rewrite (bind_ret_l _ _ s s s) by done. destruct (Z.eqb_spec (hc_cacheHighestChainBlockIndex s) 0) as [E|E]; simpl.
  2:{ destruct (ok_cached _ _ _ _ _ Hs) as [?|[Hne ->]]; [done|]. rewrite bool_decide_eq_false_2 by done. by exists s. }
  rewrite (ok_highest _ _ _ _ _ Hs). case_bool_decide as Hc; [by exists s|]. pose proof (zlen_nonneg chain).
  assert (1 ≤ zlen chain) as Hpos by (destruct chain as [|h chain]; [done|]; rewrite zlen_cons; pose proof (zlen_nonneg chain); lia).
  destruct (uint64_codable (zlen chain - 1)) as (b & [= <-] & Hd); [lia|]. simpl in Hd. rewrite Hd.
  match goal with |- context [bind (modify ?f) _ s] => rewrite (bind_ret_l (modify f) _ s (f s) ()) by done; exists (f s) end. split; [done|].
  destruct Hs as [O1 O2 O3 O4 O5 O6 O7 O8]. split; simpl; try done; [by rewrite bool_decide_eq_false_2|by right].
Qed.

(** Nothing is staged. *)
Lemma fresh_unstaged s chain : ok s chain [] 0 [] → chain_isStaged s = false.
Proof.
  intros [_ _ _ _ O5 _ O7 O8]. unfold chain_isStaged. assert (hc_addedByHash s = ∅) as ->.
  { apply map_empty. intros h. apply eq_None_not_Some. intros [i [_ Hi]%O7]. by rewrite lookup_nil in Hi. }
  assert (hc_removedByHash s = ∅) as -> by (apply map_empty; intros h; apply eq_None_not_Some; by intros ?%O5%elem_of_nil).
  assert (hc_addedByIndex s = ∅) as ->; [|by rewrite !map_size_empty].
  apply map_empty. intros i. apply eq_None_not_Some. intros [h [_ Hi]%O8]. by rewrite lookup_nil in Hi.
Qed.

(** The last blocks [old] of the chain are removed, in some order, and [new] added in their place. *)
Lemma chain_Stage_spec s kept old removed new : ok s (kept ++ old) [] 0 [] → old ≡ₚ removed → NoDup new → zlen kept + zlen old + zlen new < 2 ^ 64 →
  ∃ s', chain_Stage rangeHash {| scp_Added := new; scp_Removed := removed |} s = (s', Ret ()) ∧ ok s' (kept ++ old) removed (zlen kept) new.
Proof using HrangeHash.
  intros Hs Hperm Hnd Hlen. pose proof (zlen_nonneg kept). pose proof (zlen_nonneg old). pose proof (zlen_nonneg new).
  assert (NoDup old) as Hndo by (apply ok_NoDup, NoDup_app in Hs as (_ & _ & ?); done).
  unfold chain_Stage. rewrite (bind_ret_l _ _ s s s) by done. rewrite (fresh_unstaged s (kept ++ old)) by done.
  cbn [scp_Removed scp_Added]. destruct (stageRemoved_spec (kept ++ old) removed s [] Hs) as (s1 & Hrun1 & Hs1); [by rewrite <- Hperm|intros h Hh; apply elem_of_app; right; by rewrite Hperm|].
  rewrite (bind_ret_l _ _ s s1 () Hrun1). simpl in Hs1. destruct (highest_spec s1 _ _ _ _ Hs1) as (s2 & Hrun2 & Hs2); [rewrite zlen_app; lia|]. rewrite (bind_ret_l _ _ s1 s2 _ Hrun2).
  assert (match (if bool_decide (kept ++ old = []) then None else Some (zlen (kept ++ old) - 1)) with
          | Some index => GoInt.uint64 (GoInt.uint64 (index - zlen removed) + 1) | None => 0 end = zlen kept + zlen (A := hash) []) as ->.
  { assert (zlen removed = zlen old) as -> by (unfold zlen; by rewrite Hperm). change (zlen (A := hash) []) with 0.
    case_bool_decide as E; [by apply app_eq_nil in E as [-> _]|]. rewrite zlen_app. unfold GoInt.uint64.
    unfold GoInt.uwrap. rewrite Zplus_mod_idemp_l, Z.mod_small; lia. }
  apply (stageAdded_spec (kept ++ old) removed (zlen kept) new s2 []); try done; [|simpl; lia].
  destruct Hs2 as [O1 O2 O3 O4 O5 O6 O7 O8]. split; try done.
  - intros h i. rewrite O7. unfold block_at. rewrite !lookup_nil. naive_solver.
  - intros i h. rewrite O8. unfold block_at. rewrite !lookup_nil. naive_solver.
Qed.

(** *** Committing *)
Lemma filter_cons {K V} `{Countable K} (k : K) (l : list K) (D : gmap K V) : filter (λ kv, kv.1 ∉ k :: l) D = filter (λ kv, kv.1 ∉ l) (delete k D).
Proof. apply map_eq. intros k'. apply option_eq. intros v. rewrite !map_lookup_filter_Some, lookup_delete_Some. simpl. rewrite not_elem_of_cons. naive_solver. Qed.
Lemma filter_nil {K V} `{Countable K} (D : gmap K V) : filter (λ kv, kv.1 ∉ []) D = D.
Proof. apply map_filter_id. by intros ? ? ? ?%elem_of_nil. Qed.

Lemma commitRemovedByHash_spec l : ∀ s D, mirrors uint64Codec (hc_byHash s) D →
  ∃ t, commitRemovedByHash l s = (put_byHash t s, Ret ()) ∧ mirrors uint64Codec t (filter (λ kv, kv.1 ∉ l) D).
Proof.
  induction l as [|h l IH]; intros s D Hm; cbn [commitRemovedByHash]; [exists (hc_byHash s); rewrite filter_nil; by destruct s|].
  destruct (table_Delete_spec uint64Codec h _ D Hm) as (t1 & Ht1 & Hm1). rewrite (bind_ret_l _ _ _ _ _ (on_byHash_run _ _ _ _ Ht1)).
  destruct (IH (put_byHash t1 s) _ Hm1) as (t2 & Ht2 & Hm2). exists t2. by rewrite filter_cons.
Qed.
Lemma commitRemovedByIndex_spec l : ∀ s D, mirrors hashCodec (hc_byIndex s) D →
  ∃ t, commitRemovedByIndex l s = (put_byIndex t s, Ret ()) ∧ mirrors hashCodec t (filter (λ kv, kv.1 ∉ l) D).
Proof.
  induction l as [|h l IH]; intros s D Hm; cbn [commitRemovedByIndex]; [exists (hc_byIndex s); rewrite filter_nil; by destruct s|].
  destruct (table_Delete_spec hashCodec h _ D Hm) as (t1 & Ht1 & Hm1). rewrite (bind_ret_l _ _ _ _ _ (on_byIndex_run _ _ _ _ Ht1)).
  destruct (IH (put_byIndex t1 s) _ Hm1) as (t2 & Ht2 & Hm2). exists t2. by rewrite filter_cons.
Qed.

Lemma insert_last {K V} `{Countable K} (k : K) (v : V) (l : list (K * V)) (D : gmap K V) : k ∉ l.*1 → list_to_map ((k, v) :: l) ∪ D = list_to_map l ∪ <[k := v]> D.
Proof. intros Hk. simpl. rewrite <- insert_union_l, insert_union_r; [done|]. by apply not_elem_of_list_to_map. Qed.

Abbreviation swapped l := ((λ p : hash * Z, (p.2, p.1)) <$> l) (only parsing).
Lemma commitAdded_spec l : ∀ s Dh Di m, mirrors uint64Codec (hc_byHash s) Dh → mirrors hashCodec (hc_byIndex s) Di → NoDup l.*1 → NoDup l.*2 →
  (∀ h i, (h, i) ∈ l → codable hashCodec h ∧ codable uint64Codec i) →
  ∃ th ti r, commitAdded rangeHash rangeIndex l m s = (put_byIndex ti (put_byHash th s), Ret r) ∧
    mirrors uint64Codec th (list_to_map l ∪ Dh) ∧ mirrors hashCodec ti (list_to_map (swapped l) ∪ Di) ∧
    m ≤ r ∧ (∀ h i, (h, i) ∈ l → i ≤ r) ∧ (r = m ∨ ∃ h, (h, r) ∈ l).
Proof using HrangeHash HrangeIndex.
  induction l as [|[h i] l IH]; intros s Dh Di m Hmh Hmi Hnd1 Hnd2 Hcod; cbn [commitAdded].
  { exists (hc_byHash s), (hc_byIndex s), m. simpl. rewrite !(left_id_L ∅ (∪)). destruct s. split_and!; try done; [by intros ? ? ?%elem_of_nil|by left]. }
  apply NoDup_cons in Hnd1 as [Hh Hnd1]. apply NoDup_cons in Hnd2 as [Hi Hnd2]. destruct (Hcod h i) as [Hch Hci]; [by left|].
  destruct (table_Put_spec rangeHash uint64Codec HrangeHash h i _ Dh Hmh Hci) as (t1 & Ht1 & Hm1). rewrite (bind_ret_l _ _ _ _ _ (on_byHash_run _ _ _ _ Ht1)).
  destruct (table_Put_spec rangeIndex hashCodec HrangeIndex i h _ Di Hmi Hch) as (t2 & Ht2 & Hm2). rewrite (bind_ret_l _ _ _ _ _ (on_byIndex_run _ (put_byHash t1 s) _ _ Ht2)).
  destruct (IH (put_byIndex t2 (put_byHash t1 s)) _ _ (if m <? i then i else m) Hm1 Hm2 Hnd1 Hnd2) as (th & ti & r & Hrun & Hth & Hti & Hle & Hall & Hr); [intros ? ? ?; apply Hcod; by right|].
  exists th, ti, r. split; [exact Hrun|]. rewrite fmap_cons, !insert_last; [split_and!; try done| |done].
  - destruct (Z.ltb_spec m i); lia.
  - intros h' i' [[= -> ->]|Hin]%elem_of_cons; [destruct (Z.ltb_spec m i); lia|by eapply Hall].
  - destruct Hr as [->|[h' Hr]]; [destruct (m <? i); [right; exists h; by left|by left]|right; exists h'; by right].
  - rewrite <- list_fmap_compose. exact Hi.
Qed.

Lemma range_elem {K A} `{Countable K} (range : ∀ A, gmap K A → list (K * A)) (m : gmap K A) k v : enumerates range → (k, v) ∈ range A m ↔ m !! k = Some v.
Proof. intros Hrange. rewrite (Hrange A m). apply elem_of_map_to_list. Qed.
Lemma range_fst {K A} `{Countable K} (range : ∀ A, gmap K A → list (K * A)) (m : gmap K A) k : enumerates range → k ∈ map fst (range A m) ↔ is_Some (m !! k).
Proof.
  intros Hrange. change (map fst) with (fmap (M := list) (fst (A := K) (B := A))). rewrite list_elem_of_fmap. split.
  - intros ([k' v] & -> & Hk). exists v. by apply (range_elem range).
  - intros [v Hv]. exists (k, v). split; [done|]. by apply (range_elem range).
Qed.

Lemma kept_block (kept old : list hash) h i : NoDup (kept ++ old) → block_at (kept ++ old) h i → h ∉ old → block_at kept h i.
Proof. intros Hnd [Hat|Hat]%block_at_app Hh; [done|]. exfalso. apply Hh, block_at_elem. by eexists. Qed.

(** The two maps after the commit, from what the area holds *)
Lemma committed_by_hash (kept old new removed : list hash) (added : gmap hash Z) (D : gmap hash Z) : NoDup (kept ++ old) → NoDup (kept ++ new) → (∀ h, h ∈ old ↔ h ∈ removed) →
  (∀ h i, D !! h = Some i ↔ block_at (kept ++ old) h i) → (∀ h i, added !! h = Some i ↔ block_at new h (i - zlen kept)) →
  ∀ h i, (added ∪ filter (λ kv, kv.1 ∉ removed) D) !! h = Some i ↔ block_at (kept ++ new) h i.
Proof.
  intros Hnd1 Hnd2 Hr HD Ha h i. rewrite lookup_union_Some_raw, map_lookup_filter_Some, block_at_app, <- Ha, HD. simpl. split.
  - intros [Hi|(_ & Hi & Hn)]; [by right|]. left. rewrite <- Hr in Hn. by apply (kept_block kept old).
  - intros [Hi|Hi]; [right|by left]. assert (h ∈ kept) as Hk by (apply block_at_elem; by eexists).
    apply NoDup_app in Hnd1 as (_ & Hd1 & _). apply NoDup_app in Hnd2 as (_ & Hd2 & _). split; [|split; [apply block_at_app; by left|rewrite <- Hr; by apply Hd1]].
    apply eq_None_not_Some. intros [j Hj%Ha]. apply (Hd2 h Hk), block_at_elem. by eexists.
Qed.
Lemma committed_by_index (kept old new : list hash) (removed : list Z) (R : list hash) (added D : gmap Z hash) : NoDup (kept ++ old) → (∀ h, h ∈ old ↔ h ∈ R) →
  (∀ i, i ∈ removed ↔ ∃ h, h ∈ R ∧ block_at (kept ++ old) h i) →
  (∀ i h, D !! i = Some h ↔ block_at (kept ++ old) h i) → (∀ i h, added !! i = Some h ↔ block_at new h (i - zlen kept)) →
  ∀ i h, (added ∪ filter (λ kv, kv.1 ∉ removed) D) !! i = Some h ↔ block_at (kept ++ new) h i.
Proof.
  intros Hnd1 HR Hr HD Ha i h. rewrite lookup_union_Some_raw, map_lookup_filter_Some, block_at_app, <- Ha, HD. simpl. split.
  - intros [Hi|(_ & Hi & Hn)]; [by right|]. left. apply (kept_block _ old); [done..|]. intros Ho. apply Hn, Hr. exists h. split; [by apply HR|done].
  - intros [Hi|Hi]; [right|by left]. assert (h ∈ kept) as Hk by (apply block_at_elem; by eexists). assert (block_at (kept ++ old) h i) as Hat by (apply block_at_app; by left).
    split; [|split; [done|]].
    + apply eq_None_not_Some. intros [h' Hh'%Ha%block_at_bound]. apply block_at_bound in Hi. lia.
    + intros (h' & Hh' & Hat')%Hr. rewrite (block_at_fun _ _ _ _ Hat' Hat) in Hh'. apply NoDup_app in Hnd1 as (_ & Hd1 & _). apply (Hd1 h Hk). by apply HR.
Qed.

Lemma chain_Commit_spec s kept old removed new : ok s (kept ++ old) removed (zlen kept) new → old ≡ₚ removed → NoDup (kept ++ new) → new ≠ [] →
  Forall (λ h, zlen h = 32) new → zlen kept + zlen new < 2 ^ 64 →
  ∃ s', chain_Commit rangeHash rangeIndex s = (s', Ret ()) ∧ ok (chain_NewArea s') (kept ++ new) [] 0 [].
Proof using HrangeHash HrangeIndex.
  intros Hs Hperm Hnd Hne H32 Hlen. pose proof (ok_NoDup _ _ _ _ _ Hs) as Hndc. destruct Hs as [(Dh & Hmh & HDh) (Di & Hmi & HDi) _ _ O5 O6 O7 O8].
  pose proof (zlen_nonneg kept). assert (∀ h, h ∈ old ↔ h ∈ removed) as Hold by (intros h; by rewrite Hperm).
  unfold chain_Commit. rewrite (bind_ret_l _ _ s s s) by done. destruct new as [|h0 new0] eqn:Enew; [done|]. rewrite <- Enew in *. clear Hne.
  assert (hc_addedByHash s !! h0 = Some (zlen kept)) as Hh0 by (apply O7; rewrite Enew; split; [lia|by rewrite Z.sub_diag]).
  assert (chain_isStaged s = true) as ->.
  { unfold chain_isStaged. rewrite (bool_decide_eq_false_2 (size (hc_addedByHash s) = 0%nat)); [done|]. intros E%map_size_empty_iff. by rewrite E, lookup_empty in Hh0. }
  cbn [negb]. destruct (commitRemovedByHash_spec (map fst (rangeHash unit (hc_removedByHash s))) s Dh Hmh) as (t1 & Ht1 & Hm1). rewrite (bind_ret_l _ _ _ _ _ Ht1).
  destruct (commitRemovedByIndex_spec (map fst (rangeIndex unit (hc_removedByIndex s))) (put_byHash t1 s) Di Hmi) as (t2 & Ht2 & Hm2). rewrite (bind_ret_l _ _ _ _ _ Ht2).
  set (l := rangeHash Z (hc_addedByHash s)). assert (∀ h i, (h, i) ∈ l ↔ block_at new h (i - zlen kept)) as Hl by (intros h i; unfold l; rewrite range_elem by done; apply O7).
  assert (NoDup l) as Hndl by (unfold l; rewrite (HrangeHash Z _); apply NoDup_map_to_list). assert (NoDup l.*1) as Hnd1 by (unfold l; rewrite (HrangeHash Z _); apply NoDup_fst_map_to_list).
  assert (NoDup l.*2) as Hnd2.
  { apply NoDup_fmap_2_strong; [|done]. intros [h1 i1] [h2 i2] Hb1%Hl Hb2%Hl Heq. simpl in Heq. subst i2. by rewrite (block_at_fun _ _ _ _ Hb1 Hb2). }
  destruct (commitAdded_spec l (put_byIndex t2 (put_byHash t1 s)) _ _ 0 Hm1 Hm2 Hnd1 Hnd2) as (th & ti & r & Hrun & Hth & Hti & Hr0 & Hall & Hr).
  { intros h i Hat%Hl. pose proof (block_at_bound _ _ _ Hat). split; [apply hash_codable|apply uint64_codable; lia].
    eapply (proj1 (Forall_forall _ _) H32), block_at_elem. by eexists. }
  rewrite (bind_ret_l _ _ _ _ _ Hrun). eexists. split; [done|].
  assert (r = zlen kept + zlen new - 1) as ->.
  { assert (∃ h, block_at new h (zlen new - 1)) as [hl Hlast].
    { destruct (lookup_lt_is_Some_2 new (Z.to_nat (zlen new - 1))) as [hl Hhl]; [rewrite Enew; unfold zlen; simpl; lia|]. exists hl. split; [rewrite Enew; unfold zlen; simpl; lia|done]. }
    assert (zlen kept + zlen new - 1 ≤ r) as Hge by (apply (Hall hl), Hl; by replace (zlen kept + zlen new - 1 - zlen kept) with (zlen new - 1) by lia).
    destruct Hr as [->|[h Hr%Hl%block_at_bound]]; [|lia]. pose proof (block_at_bound _ _ _ Hlast). lia. }
  split; simpl.
  - eexists. split; [exact Hth|]. apply (committed_by_hash kept old); try done; [intros h; rewrite range_fst by done; rewrite O5; apply Hold|].
    intros h i. rewrite <- elem_of_list_to_map by done. apply Hl.
  - eexists. split; [exact Hti|]. apply (committed_by_index kept old new _ removed); try done; [intros i; rewrite range_fst by done; apply O6|].
    intros i h. rewrite <- elem_of_list_to_map; [|by rewrite <- list_fmap_compose]. rewrite <- Hl, list_elem_of_fmap. split; [intros ([h' i'] & [= -> ->] & ?); done|intros; by exists (h, i)].
  - rewrite bool_decide_eq_false_2; [by rewrite zlen_app|]. rewrite Enew. by destruct kept.
  - right. rewrite zlen_app. split; [rewrite Enew; by destruct kept|done].
  - intros h. rewrite lookup_empty, elem_of_nil. split; [by intros []|done].
  - intros i. rewrite lookup_empty. split; [by intros []|by intros (? & ?%elem_of_nil & _)].
  - intros h i. unfold block_at. rewrite lookup_empty, lookup_nil. naive_solver.
  - intros i h. unfold block_at. rewrite lookup_empty, lookup_nil. naive_solver.
Qed.

(** *** The chain that a reader sees: what is kept of the committed one, and what the area adds *)
Definition held (s : chainStore) (chain : list hash) : Prop :=
  ∃ kept old removed new, ok s (kept ++ old) removed (zlen kept) new ∧ old ≡ₚ removed ∧ NoDup (kept ++ new) ∧ chain = kept ++ new.

Lemma ok_held s chain : ok s chain [] 0 [] → held s chain.
Proof.
  intros Hs. pose proof (ok_NoDup _ _ _ _ _ Hs) as Hnd. exists chain, [], [], []. rewrite !app_nil_r. split_and!; try done.
  destruct Hs as [O1 O2 O3 O4 O5 O6 O7 O8]. split; try done; intros; unfold block_at; rewrite lookup_nil; split; try naive_solver.
Qed.

Lemma answers_iff {A} (P Q : A → Prop) o : (∀ a, P a ↔ Q a) → answers P o → answers Q o.
Proof. intros Hpq [(a & -> & Ha)|[-> Ha]]; [left; exists a; by rewrite <- Hpq|right; split; [done|]; intros a; by rewrite <- Hpq]. Qed.

Lemma held_kept (kept old removed new : list hash) h : NoDup (kept ++ old) → NoDup (kept ++ new) → old ≡ₚ removed → h ∈ kept → h ∉ new ∧ h ∉ removed.
Proof. intros (_ & Hd1 & _)%NoDup_app (_ & Hd2 & _)%NoDup_app Hperm Hh. split; [by apply Hd2|rewrite <- Hperm; by apply Hd1]. Qed.

Lemma held_index s chain h : held s chain → ∃ s' o, GetIndexByHash rangeHash h s = (s', o) ∧ held s' chain ∧ answers (λ i, block_at chain h i) o.
Proof using HrangeHash.
  intros (kept & old & removed & new & Hs & Hperm & Hnd & ->). pose proof (ok_NoDup _ _ _ _ _ Hs) as Hndc. destruct (GetIndexByHash_run s _ _ _ _ h Hs) as (s' & o & Hrun & Hs' & Ho).
  exists s', o. split; [done|]. split; [by exists kept, old, removed, new|]. eapply answers_iff; [|exact Ho]. intros i. rewrite (block_at_app kept new). split.
  - intros [Hi|(_ & Hr & Hi)]; [by right|left]. apply (kept_block kept old); [done..|]. by rewrite Hperm.
  - intros [Hi|Hi]; [right|by left]. destruct (held_kept kept old removed new h Hndc Hnd Hperm) as [? ?]; [apply block_at_elem; by eexists|]. split; [done|]. split; [done|]. apply block_at_app. by left.
Qed.
Lemma held_hash s chain i : held s chain → ∃ s' o, GetHashByIndex rangeIndex i s = (s', o) ∧ held s' chain ∧ answers (λ h, block_at chain h i) o.
Proof using HrangeIndex.
  intros (kept & old & removed & new & Hs & Hperm & Hnd & ->). pose proof (ok_NoDup _ _ _ _ _ Hs) as Hndc. destruct (GetHashByIndex_run s _ _ _ _ i Hs) as (s' & o & Hrun & Hs' & Ho).
  exists s', o. split; [done|]. split; [by exists kept, old, removed, new|]. eapply answers_iff; [|exact Ho]. intros h. rewrite (block_at_app kept new). split.
  - intros [Hi|(_ & Hr & Hi)]; [by right|left]. apply (kept_block kept old); [done..|]. by rewrite Hperm.
  - intros [Hi|Hi]; [right|by left]. destruct (held_kept kept old removed new h Hndc Hnd Hperm) as [? ?]; [apply block_at_elem; by eexists|]. split; [apply block_at_bound in Hi; lia|]. split; [done|]. apply block_at_app. by left.
Qed.
Lemma held_nodup s chain : held s chain → NoDup chain.
Proof. by intros (kept & old & removed & new & _ & _ & Hnd & ->). Qed.
End Spec.
