(* ===== verification/PruningStore.v ===== *)
(** * The pruning store and the pages of a UTXO set (datastructures/pruningstore, consensusstatestore/utxo.go)

    The pruning store keeps the pruning point, the one before it and the candidate for the next one, the UTXO set of the pruning point, and, while a
    node synchronises, the imported UTXO set with its multiset.  A UTXO set is sent in pages: each page starts after
    the last outpoint of the previous one.  A cursor over a bucket gives its entries in the order of the database, which is the same for every
    cursor over the same contents. *)
From S2P Require Import Prelude Externalapi UtxoDiff Hashing PastUtxo Stores ConsensusStores.
Import LRU BinarySerialization Cell.
Local Open Scope Z_scope.
Local Open Scope prog_scope.

Abbreviation hash := (list Z) (only parsing).
Abbreviation bytes := (list Z) (only parsing).

(** ** Pages *)
Module Pages.
Section Pages.
Variable utxoEntryCodec : codec utxoEntry.

(** [cursor.Seek]: the entries after the one with the given key, which must be in the bucket *)
Fixpoint seek (outpoint : DomainOutpoint) (cursor : list (DomainOutpoint * bytes)) : option (list (DomainOutpoint * bytes)) :=
  match cursor with
  | [] => None
  | (key, _) :: rest => if bool_decide (key = outpoint) then Some rest else seek outpoint rest
  end.

(** [for len(pairs) < limit && iterator.Next()] *)
Fixpoint readPage (cursor : list (DomainOutpoint * bytes)) (limit : nat) : outcome storeError (list (DomainOutpoint * utxoEntry)) :=
  match limit, cursor with
  | O, _ | _, [] => Ret []
  | Datatypes.S limit, (outpoint, serializedUTXOEntry) :: rest =>
      match decode utxoEntryCodec serializedUTXOEntry with
      | None => Fail ErrDeserialize
      | Some entry => match readPage rest limit with
                      | Ret page => Ret ((outpoint, entry) :: page)
                      | other => other
                      end
      end
  end.

(** [VirtualUTXOs] and [PruningPointUTXOs] *)
Definition utxoPage (cursor : list (DomainOutpoint * bytes)) (fromOutpoint : option DomainOutpoint) (limit : Z) : outcome storeError (list (DomainOutpoint * utxoEntry)) :=
  match fromOutpoint with
  | None => readPage cursor (Z.to_nat limit)
  | Some outpoint =>
      match seek outpoint cursor with
      | None => Fail ErrDatabaseNotFound
      | Some rest => readPage rest (Z.to_nat limit)
      end
  end.

End Pages.
End Pages.
Import Pages.

(** ** The store *)
Module Pruning.
Section Store.
Context `{MuHash}.
Variable rangeOutpoint : ∀ A, gmap DomainOutpoint A → list (DomainOutpoint * A).
Variable utxoEntryCodec : codec utxoEntry.
Variable hashMessageCodec : codec hash.
Variable multisetCodec : codec muhash.

(** [cursor] enumerates a bucket in the order of the database. *)
Variable cursor : gmap DomainOutpoint bytes → list (DomainOutpoint * bytes).

Record pruningStore := {
  ps_pruningPoint : cell hash;
  ps_previous : cell hash;
  ps_candidate : cell hash;
  ps_updating : bool;
  ps_startUpdating : bool;
  ps_pruningPointUTXOSet : gmap DomainOutpoint bytes;
  ps_importedUTXOs : gmap DomainOutpoint bytes;
  ps_importedMultiset : option bytes
}.
Abbreviation storing A := (prog pruningStore storeError A) (only parsing).

Definition on_pruningPoint {A} (m : prog (cell hash) storeError A) : storing A :=
  zoom ps_pruningPoint (λ x s, {| ps_pruningPoint := x; ps_previous := ps_previous s; ps_candidate := ps_candidate s; ps_updating := ps_updating s; ps_startUpdating := ps_startUpdating s;
    ps_pruningPointUTXOSet := ps_pruningPointUTXOSet s; ps_importedUTXOs := ps_importedUTXOs s; ps_importedMultiset := ps_importedMultiset s |}) m.
Definition on_previous {A} (m : prog (cell hash) storeError A) : storing A :=
  zoom ps_previous (λ x s, {| ps_pruningPoint := ps_pruningPoint s; ps_previous := x; ps_candidate := ps_candidate s; ps_updating := ps_updating s; ps_startUpdating := ps_startUpdating s;
    ps_pruningPointUTXOSet := ps_pruningPointUTXOSet s; ps_importedUTXOs := ps_importedUTXOs s; ps_importedMultiset := ps_importedMultiset s |}) m.
Definition on_candidate {A} (m : prog (cell hash) storeError A) : storing A :=
  zoom ps_candidate (λ x s, {| ps_pruningPoint := ps_pruningPoint s; ps_previous := ps_previous s; ps_candidate := x; ps_updating := ps_updating s; ps_startUpdating := ps_startUpdating s;
    ps_pruningPointUTXOSet := ps_pruningPointUTXOSet s; ps_importedUTXOs := ps_importedUTXOs s; ps_importedMultiset := ps_importedMultiset s |}) m.
Definition put_flags (updating startUpdating : bool) (s : pruningStore) : pruningStore :=
  {| ps_pruningPoint := ps_pruningPoint s; ps_previous := ps_previous s; ps_candidate := ps_candidate s; ps_updating := updating; ps_startUpdating := startUpdating;
     ps_pruningPointUTXOSet := ps_pruningPointUTXOSet s; ps_importedUTXOs := ps_importedUTXOs s; ps_importedMultiset := ps_importedMultiset s |}.
Definition put_utxoSet (f : gmap DomainOutpoint bytes → gmap DomainOutpoint bytes) (s : pruningStore) : pruningStore :=
  {| ps_pruningPoint := ps_pruningPoint s; ps_previous := ps_previous s; ps_candidate := ps_candidate s; ps_updating := ps_updating s; ps_startUpdating := ps_startUpdating s;
     ps_pruningPointUTXOSet := f (ps_pruningPointUTXOSet s); ps_importedUTXOs := ps_importedUTXOs s; ps_importedMultiset := ps_importedMultiset s |}.
Definition put_imported (f : gmap DomainOutpoint bytes → gmap DomainOutpoint bytes) (multiset : option bytes) (s : pruningStore) : pruningStore :=
  {| ps_pruningPoint := ps_pruningPoint s; ps_previous := ps_previous s; ps_candidate := ps_candidate s; ps_updating := ps_updating s; ps_startUpdating := ps_startUpdating s;
     ps_pruningPointUTXOSet := ps_pruningPointUTXOSet s; ps_importedUTXOs := f (ps_importedUTXOs s); ps_importedMultiset := multiset |}.

(** pruning_store.go *)
Definition StagePruningPointCandidate (candidate : hash) : storing unit := on_candidate (cell_Stage candidate).
(** A candidate that is neither staged nor cached is read from the key of the pruning point. *)
Definition PruningPointCandidate : storing hash :=
  let* s := get in
  match ce_staged (ps_candidate s), ce_cache (ps_candidate s) with
  | Some candidate, _ => ret candidate
  | None, Some candidate => ret candidate
  | None, None =>
      match ce_db (ps_pruningPoint s) with
      | None => fail ErrDatabaseNotFound
      | Some candidateBytes =>
          match decode hashMessageCodec candidateBytes with
          | None => fail ErrDeserialize
          | Some candidate => on_candidate (modify (λ x, {| ce_db := ce_db x; ce_cache := Some candidate; ce_staged := ce_staged x |})) ;;* ret candidate
          end
      end
  end.
Definition HasPruningPointCandidate : storing bool := on_candidate cell_Has.
Definition StagePruningPoint (pruningPointBlockHash : hash) : storing unit := on_pruningPoint (cell_Stage pruningPointBlockHash).
Definition StagePreviousPruningPoint (oldPruningPointBlockHash : hash) : storing unit := on_previous (cell_Stage oldPruningPointBlockHash).
Definition PruningPoint : storing hash := on_pruningPoint (cell_Get hashMessageCodec).
Definition PreviousPruningPoint : storing hash := on_previous (cell_Get hashMessageCodec).
Definition HasPruningPoint : storing bool := on_pruningPoint cell_Has.
Definition pruning_isStaged (s : pruningStore) : bool :=
  cell_IsStaged (ps_pruningPoint s) || cell_IsStaged (ps_candidate s) || cell_IsStaged (ps_previous s) || ps_startUpdating s.
Definition StageStartUpdatingPruningPointUTXOSet : storing unit := modify (λ s, put_flags (ps_updating s) true s).
Definition HadStartedUpdatingPruningPointUTXOSet : storing bool := let* s := get in ret (ps_updating s).
Definition FinishUpdatingPruningPointUTXOSet : storing unit := modify (λ s, put_flags false (ps_startUpdating s) s).

Definition pruning_Commit : storing unit :=
  on_pruningPoint (cell_Commit hashMessageCodec) ;;*
  on_previous (cell_Commit hashMessageCodec) ;;*
  on_candidate (cell_Commit hashMessageCodec) ;;*
  modify (λ s, put_flags (ps_startUpdating s || ps_updating s) (ps_startUpdating s) s).

Fixpoint updateRemovals (outpoints : list DomainOutpoint) : storing unit :=
  match outpoints with
  | [] => ret ()
  | toRemoveOutpoint :: rest => modify (put_utxoSet (delete toRemoveOutpoint)) ;;* updateRemovals rest
  end.
Fixpoint updateAdditions (entries : list (DomainOutpoint * utxoEntry)) : storing unit :=
  match entries with
  | [] => ret ()
  | (toAddOutpoint, entry) :: rest =>
      match encode utxoEntryCodec entry with
      | None => fail ErrSerialize
      | Some serializedUTXOEntry => modify (put_utxoSet (<[toAddOutpoint := serializedUTXOEntry]>)) ;;* updateAdditions rest
      end
  end.
Definition UpdatePruningPointUTXOSet (d : diff) : storing unit :=
  updateRemovals (map fst (rangeOutpoint utxoEntry (toRemove d))) ;;*
  updateAdditions (rangeOutpoint utxoEntry (toAdd d)).

Definition PruningPointUTXOs (fromOutpoint : option DomainOutpoint) (limit : Z) : storing (list (DomainOutpoint * utxoEntry)) :=
  let* s := get in lift_outcome (utxoPage utxoEntryCodec (cursor (ps_pruningPointUTXOSet s)) fromOutpoint limit).

(** imported_pruning_point.go *)
Definition deleteAll (keys : list DomainOutpoint) (bucket : gmap DomainOutpoint bytes) : gmap DomainOutpoint bytes :=
  fold_left (λ bucket key, delete key bucket) keys bucket.
Definition insertKeys (entries : list (DomainOutpoint * bytes)) (bucket : gmap DomainOutpoint bytes) : gmap DomainOutpoint bytes :=
  fold_left (λ bucket entry, <[entry.1 := entry.2]> bucket) entries bucket.
Definition ClearImportedPruningPointUTXOs : storing unit :=
  modify (λ s, put_imported (deleteAll (cursor (ps_importedUTXOs s)).*1) (ps_importedMultiset s) s).
Fixpoint store_AppendImportedPruningPointUTXOs (pairs : list (DomainOutpoint * utxoEntry)) : storing unit :=
  match pairs with
  | [] => ret ()
  | (outpoint, entry) :: rest =>
      match encode utxoEntryCodec entry with
      | None => fail ErrSerialize
      | Some serializedUTXOEntry =>
          modify (λ s, put_imported (<[outpoint := serializedUTXOEntry]>) (ps_importedMultiset s) s) ;;*
          store_AppendImportedPruningPointUTXOs rest
      end
  end.
Definition ClearImportedPruningPointMultiset : storing unit := modify (put_imported id None).
Definition ImportedPruningPointMultiset : storing muhash :=
  let* s := get in
  match ps_importedMultiset s with
  | None => fail ErrDatabaseNotFound
  | Some multisetBytes =>
      match decode multisetCodec multisetBytes with
      | None => fail ErrDeserialize
      | Some multiset => ret multiset
      end
  end.
Definition UpdateImportedPruningPointMultiset (multiset : muhash) : storing unit :=
  match encode multisetCodec multiset with
  | None => fail ErrSerialize
  | Some multisetBytes => modify (put_imported id (Some multisetBytes))
  end.
Definition CommitImportedPruningPointUTXOSet : storing unit :=
  modify (λ s, put_utxoSet (deleteAll (cursor (ps_pruningPointUTXOSet s)).*1) s) ;;*
  modify (λ s, put_utxoSet (insertKeys (cursor (ps_importedUTXOs s))) s).
End Store.
End Pruning.
Import Pruning.

(** ** Updating the UTXO set of the pruning point

    The writes go to the database directly, one by one: the node may stop between two of them, and starts the update again when it restarts. *)
Section Update.
Variable rangeOutpoint : ∀ A, gmap DomainOutpoint A → list (DomainOutpoint * A).
Variable c : codec utxoEntry.
Hypothesis Hrange : enumerates rangeOutpoint.

(** The first [n] writes of the update *)
Definition interruptedUpdate (n : nat) (d : diff) : prog pruningStore storeError unit :=
  let removals := map fst (rangeOutpoint utxoEntry (toRemove d)) in
  updateRemovals (take n removals) ;;* updateAdditions c (take (n - length removals) (rangeOutpoint utxoEntry (toAdd d))).

(** The bytes of an outpoint after the update *)
Definition updated (bucket : gmap DomainOutpoint bytes) (d : diff) (o : DomainOutpoint) : option bytes :=
  match toAdd d !! o with
  | Some e => encode c e
  | None => if Contains (toRemove d) o then None else bucket !! o
  end.

Lemma updateRemovals_spec l : ∀ s : pruningStore, updateRemovals l s = (put_utxoSet (λ m, fold_left (λ m o, delete o m) l m) s, Ret ()).
Proof using Type.
  induction l as [|o l IH]; intros s; cbn [updateRemovals fold_left]; [by destruct s|]. rewrite (bind_ret_l _ _ s (put_utxoSet (delete o) s) ()) by done. by rewrite IH.
Qed.
Lemma fold_delete (l : list DomainOutpoint) o : ∀ m : gmap DomainOutpoint bytes, fold_left (λ m o, delete o m) l m !! o = if bool_decide (o ∈ l) then None else m !! o.
Proof using Type.
  induction l as [|o' l IH]; intros m; cbn [fold_left]; [by rewrite bool_decide_eq_false_2 by (by intros ?%elem_of_nil)|]. rewrite IH. destruct (decide (o ∈ l)) as [Hin|Hin].
  - rewrite !bool_decide_eq_true_2 by (done || by right). done.
  - rewrite (bool_decide_eq_false_2 (o ∈ l)) by done. destruct (decide (o = o')) as [->|Hne]; [rewrite lookup_delete_eq, bool_decide_eq_true_2 by (by left); done|].
    rewrite lookup_delete_ne, bool_decide_eq_false_2 by (done || by intros [?|?]%elem_of_cons). done.
Qed.

Lemma updateAdditions_spec l : ∀ s : pruningStore, NoDup l.*1 → (∀ o e, (o, e) ∈ l → codable c e) →
  ∃ m, updateAdditions c l s = (put_utxoSet (λ _, m) s, Ret ()) ∧
    ∀ o, m !! o = match (list_to_map l : gmap DomainOutpoint utxoEntry) !! o with Some e => encode c e | None => ps_pruningPointUTXOSet s !! o end.
Proof using Type.
  induction l as [|[o e] l IH]; intros s Hnd Hcod; cbn [updateAdditions]; [exists (ps_pruningPointUTXOSet s); split; [by destruct s|done]|].
  apply NoDup_cons in Hnd as [Ho Hnd]. destruct (Hcod o e) as (b & Hb & _); [by left|]. rewrite Hb.
  rewrite (bind_ret_l _ _ s (put_utxoSet (<[o := b]>) s) ()) by done. destruct (IH (put_utxoSet (<[o := b]>) s) Hnd) as (m & Hrun & Hm); [intros ? ? ?; eapply Hcod; by right|].
  exists m. split; [exact Hrun|]. intros o'. rewrite Hm. simpl. destruct (decide (o' = o)) as [->|Hne].
  - rewrite (not_elem_of_list_to_map_1 l o Ho). by rewrite !lookup_insert_eq.
  - by rewrite !lookup_insert_ne by done.
Qed.

Lemma list_to_map_range (m : utxoCollection) : (list_to_map (rangeOutpoint utxoEntry m) : gmap DomainOutpoint utxoEntry) = m.
Proof using Hrange.
  transitivity (list_to_map (map_to_list m) : gmap DomainOutpoint utxoEntry); [|apply list_to_map_to_list].
  apply list_to_map_proper; [rewrite (Hrange utxoEntry m); apply NoDup_fst_map_to_list|apply Hrange].
Qed.

(** What is left of the writes touches only outpoints of the diff. *)
Lemma interruptedUpdate_spec n d s : (∀ o e, toAdd d !! o = Some e → codable c e) →
  ∃ m, interruptedUpdate n d s = (put_utxoSet (λ _, m) s, Ret ()) ∧ ∀ o, toAdd d !! o = None → Contains (toRemove d) o = false → m !! o = ps_pruningPointUTXOSet s !! o.
Proof using Hrange.
  intros Hcod. unfold interruptedUpdate. set (rs := map fst _). set (l := take _ (rangeOutpoint utxoEntry (toAdd d))). cbv zeta.
  assert (∀ o e, (o, e) ∈ l → toAdd d !! o = Some e) as Hl.
  { intros o e Hin. apply elem_of_map_to_list. rewrite <- (Hrange utxoEntry (toAdd d)). eapply elem_of_sublist; [exact Hin|apply sublist_take]. }
  assert (NoDup l.*1) as Hnd.
  { unfold l. rewrite fmap_take. eapply sublist_NoDup; [|apply sublist_take]. rewrite (Hrange utxoEntry (toAdd d)). apply NoDup_fst_map_to_list. }
  rewrite (bind_ret_l _ _ s _ () (updateRemovals_spec (take n rs) s)). destruct (updateAdditions_spec l (put_utxoSet (λ m, fold_left (λ m o, delete o m) (take n rs) m) s) Hnd) as (m & Hrun & Hm).
  { intros o e Hin. eapply Hcod. by apply Hl. }
  exists m. split; [exact Hrun|]. intros o Ha Hr. rewrite Hm. rewrite not_elem_of_list_to_map_1.
  2:{ intros ([o' e] & -> & Hin)%list_elem_of_fmap. apply Hl in Hin. simpl in Ha. congruence. }
  simpl. rewrite fold_delete, bool_decide_eq_false_2; [done|]. intros Hin. unfold Contains in Hr. apply bool_decide_eq_false in Hr. apply Hr.
  apply (range_keys rangeOutpoint Hrange). eapply elem_of_sublist; [exact Hin|apply sublist_take].
Qed.

Lemma UpdatePruningPointUTXOSet_spec d s : (∀ o e, toAdd d !! o = Some e → codable c e) →
  ∃ m, UpdatePruningPointUTXOSet rangeOutpoint c d s = (put_utxoSet (λ _, m) s, Ret ()) ∧ ∀ o, m !! o = updated (ps_pruningPointUTXOSet s) d o.
Proof using Hrange.
  intros Hcod. unfold UpdatePruningPointUTXOSet. rewrite (bind_ret_l _ _ s _ () (updateRemovals_spec _ s)). set (rs := map fst _).
  destruct (updateAdditions_spec (rangeOutpoint utxoEntry (toAdd d)) (put_utxoSet (λ m, fold_left (λ m o, delete o m) rs m) s)) as (m & Hrun & Hm).
  - rewrite (Hrange utxoEntry (toAdd d)). apply NoDup_fst_map_to_list.
  - intros o e Hin. apply (Hcod o), elem_of_map_to_list. by rewrite <- (Hrange utxoEntry (toAdd d)).
  - exists m. split; [exact Hrun|]. intros o. rewrite Hm, list_to_map_range. unfold updated, Contains. destruct (toAdd d !! o); [done|]. simpl. rewrite fold_delete.
    rewrite (bool_decide_ext _ _ (range_keys rangeOutpoint Hrange (toRemove d) o)). done.
Qed.

(** The bytes after the update are those of the set after the diff. *)
Lemma updated_set U d bucket o : (∀ o, bucket !! o = U !! o ≫= encode c) → updated bucket d o = apply_diff U d !! o ≫= encode c.
Proof using Type.
  intros HU. unfold updated, apply_diff, Contains. rewrite HU, lookup_union, lookup_difference. destruct (toAdd d !! o) as [e|]; simpl; [by destruct (toRemove d !! o), (U !! o)|].
  case_bool_decide as Hd; [by destruct Hd as [? ->]|]. apply eq_None_not_Some in Hd. rewrite Hd. by destruct (U !! o).
Qed.

(** The bucket may have been updated in part: it has the right bytes where the sets agree. *)
Definition agrees (bucket : gmap DomainOutpoint bytes) (U U' : utxoCollection) : Prop := ∀ o, U !! o = U' !! o → bucket !! o = U !! o ≫= encode c.

(** Where a canonical diff has something the sets differ. *)
Lemma untouched U d o : applicable U d → canonical d → U !! o = apply_diff U d !! o → toAdd d !! o = None ∧ toRemove d !! o = None.
Proof using Type.
  intros [Hr Ha] Hc E. unfold apply_diff in E. rewrite lookup_union, lookup_difference in E. destruct (toRemove d !! o) as [r|] eqn:Er.
  - pose proof (lookup_weaken _ _ _ _ Er Hr) as Hu. rewrite Hu in E. destruct (toAdd d !! o) as [a|] eqn:Ea; [|done]. simpl in E. injection E as ->. by destruct (Hc o a a Ea Er).
  - destruct (toAdd d !! o) as [a|] eqn:Ea; [|done]. pose proof (map_disjoint_Some_l _ _ _ _ Ha Ea) as Hn. rewrite lookup_difference, Er in Hn. rewrite Hn in E. done.
Qed.

Lemma UpdatePruningPointUTXOSet_set d s U : agrees (ps_pruningPointUTXOSet s) U (apply_diff U d) → (∀ o e, apply_diff U d !! o = Some e → codable c e) →
  ∃ m, UpdatePruningPointUTXOSet rangeOutpoint c d s = (put_utxoSet (λ _, m) s, Ret ()) ∧ ∀ o, m !! o = apply_diff U d !! o ≫= encode c.
Proof using Hrange.
  intros HU Hcod. destruct (UpdatePruningPointUTXOSet_spec d s) as (m & Hrun & Hm).
  - intros o e He. apply (Hcod o). by apply lookup_union_Some_l.
  - exists m. split; [done|]. intros o. rewrite Hm. unfold updated, Contains. unfold apply_diff. rewrite lookup_union, lookup_difference.
    destruct (toAdd d !! o) as [e|] eqn:Ea; [simpl; by destruct (toRemove d !! o), (U !! o)|]. case_bool_decide as Hd; [by destruct Hd as [? ->]|]. apply eq_None_not_Some in Hd. rewrite Hd.
    rewrite HU; [by destruct (U !! o)|]. unfold apply_diff. rewrite lookup_union, lookup_difference, Ea, Hd. by destruct (U !! o).
Qed.

(** Any number of the writes leaves it so. *)
Lemma interruptedUpdate_agrees n d s U : applicable U d → canonical d → (∀ o e, apply_diff U d !! o = Some e → codable c e) → agrees (ps_pruningPointUTXOSet s) U (apply_diff U d) →
  ∃ m, interruptedUpdate n d s = (put_utxoSet (λ _, m) s, Ret ()) ∧ agrees m U (apply_diff U d).
Proof using Hrange.
  intros Ha Hc Hcod HU. destruct (interruptedUpdate_spec n d s) as (m & Hrun & Hm); [intros o e He; apply (Hcod o); by apply lookup_union_Some_l|].
  exists m. split; [done|]. intros o E. destruct (untouched U d o Ha Hc E) as [E1 E2]. rewrite Hm; [by apply HU|done|]. unfold Contains. rewrite E2. by apply bool_decide_eq_false_2, is_Some_None.
Qed.
End Update.
