(* ===== verification/UtxoSync.v ===== *)
(** * Sending the UTXO set of the pruning point to a peer

    A node that synchronises asks a peer for the UTXO set of its pruning point.  The peer
    ([handleRequestPruningPointUTXOSetAndBlockFlow], the sender) answers with the block and with chunks of [step] entries, and after every
    [ibdBatchSize] chunks waits for the other side ([handleRelayInvsFlow.fetchMissingUTXOSet], the receiver) to ask for more.  The two
    flows and the two routes between them are a transition system: either flow runs as far as its next message, block announcements arrive at any time, a wait for
    a message may time out, and the sender's pruning point may move between two chunks.  Routes are first in, first out; their
    capacity is not modelled. *)
From S2P Require Import Prelude Externalapi UtxoDiff Hashing PastUtxo Stores ConsensusStores PruningStore.
Import LRU BinarySerialization Cell Pages Pruning.
Local Open Scope Z_scope.
Local Open Scope prog_scope.

Abbreviation hash := (list Z) (only parsing).
Abbreviation bytes := (list Z) (only parsing).
Abbreviation utxo := (DomainOutpoint * utxoEntry)%type (only parsing).

(** ** Messages *)
Inductive message :=
  | MsgInvRelayBlock
  | MsgIBDBlock (blockHash : hash)
  | MsgPruningPointUTXOSetChunk (pairs : list utxo)
  | MsgDonePruningPointUTXOSetChunks
  | MsgUnexpectedPruningPoint.
Inductive request :=
  | MsgRequestPruningPointUTXOSetAndBlock (pruningPointHash : hash)
  | MsgRequestNextPruningPointUTXOSetChunk.

Module Sync.
(** The entries of a chunk, and the chunks between two requests ([router.DefaultMaxMessages]) *)
Definition step : Z := 1000.
Definition ibdBatchSize : Z := 100.

Section Sync.
Context `{MuHash}.
Variable utxoEntryCodec : codec utxoEntry.
Variable multisetCodec : codec muhash.
Variable cursor : gmap DomainOutpoint bytes → list (DomainOutpoint * bytes).
Variables (step ibdBatchSize : Z).
(** The UTXO set of a pruning point in the sender's database *)
Variable utxoSetOf : hash → gmap DomainOutpoint bytes.

(** ** pruningmanager: appending what is received

    [transaction] undoes what a failing transaction wrote. *)
Definition transaction {S E A} (m : prog S E A) : prog S E A :=
  λ s, match m s with
       | (s', Ret a) => (s', Ret a)
       | (_, o) => (s, o)
       end.
Definition addAll (m : muhash) (pairs : list utxo) : muhash :=
  fold_left (λ m pair, ms_Add m (SerializeUTXO pair.2 pair.1)) pairs m.
Definition AppendImportedPruningPointUTXOs (pairs : list utxo) : prog pruningStore storeError unit :=
  transaction (
    let* s := get in
    let* importedMultiset :=
      match ps_importedMultiset s with
      | None => ret ms_New
      | Some _ => ImportedPruningPointMultiset multisetCodec
      end in
    UpdateImportedPruningPointMultiset multisetCodec (addAll importedMultiset pairs) ;;*
    store_AppendImportedPruningPointUTXOs utxoEntryCodec pairs).
Definition ClearImportedPruningPointData : prog pruningStore storeError unit :=
  ClearImportedPruningPointMultiset ;;* ClearImportedPruningPointUTXOs cursor.

(** ** The sender *)
Inductive sender :=
  | SIdle
  | SBlock (pruningPointHash : hash)
  | SLoop (pruningPointHash : hash) (fromOutpoint : option DomainOutpoint) (chunksSent : Z)
  | SFinish
  | SAwait (pruningPointHash : hash) (fromOutpoint : option DomainOutpoint) (chunksSent : Z)
  | SFailed (shouldBan : bool)
  | SCrashed.

(** [consensus.GetPruningPointUTXOs]: [None] for a wrong pruning point *)
Definition GetPruningPointUTXOs (pruningPoint expectedPruningPointHash : hash) (fromOutpoint : option DomainOutpoint) (limit : Z)
  : option (outcome storeError (list utxo)) :=
  if bool_decide (expectedPruningPointHash = pruningPoint)
  then Some (utxoPage utxoEntryCodec (cursor (utxoSetOf pruningPoint)) fromOutpoint limit) else None.

(** One turn of the loop: an error other than a wrong pruning point is dropped, and there are no entries then. *)
Definition senderLoop (pruningPoint pruningPointHash : hash) (fromOutpoint : option DomainOutpoint) (chunksSent : Z) : sender * message :=
  match GetPruningPointUTXOs pruningPoint pruningPointHash fromOutpoint step with
  | None => (SIdle, MsgUnexpectedPruningPoint)
  | Some o =>
      let pruningPointUTXOs := match o with Ret utxos => utxos | _ => [] end in
      (if zlen pruningPointUTXOs <? step then SFinish
       else
         match last pruningPointUTXOs with
         | None => SCrashed
         | Some (fromOutpoint, _) =>
             let chunksSent := chunksSent + 1 in
             if chunksSent mod ibdBatchSize =? 0 then SAwait pruningPointHash (Some fromOutpoint) chunksSent
             else SLoop pruningPointHash (Some fromOutpoint) chunksSent
         end,
       MsgPruningPointUTXOSetChunk pruningPointUTXOs)
  end.

(** What the sender does next, given the requests that wait for it: its new state, what it sends, and the remaining requests *)
Definition senderMove (pruningPoint : hash) (s : sender) (requests : list request) : option (sender * list message * list request) :=
  match s, requests with
  | SIdle, MsgRequestPruningPointUTXOSetAndBlock pruningPointHash :: rest => Some (SBlock pruningPointHash, [], rest)
  | SIdle, MsgRequestNextPruningPointUTXOSetChunk :: rest => Some (SFailed true, [], rest)
  | SIdle, [] => None
  | SBlock pruningPointHash, _ => Some (SLoop pruningPointHash None 0, [MsgIBDBlock pruningPointHash], requests)
  | SLoop pruningPointHash fromOutpoint chunksSent, _ =>
      let '(s, m) := senderLoop pruningPoint pruningPointHash fromOutpoint chunksSent in Some (s, [m], requests)
  | SFinish, _ => Some (SIdle, [MsgDonePruningPointUTXOSetChunks], requests)
  | SAwait pruningPointHash fromOutpoint chunksSent, MsgRequestNextPruningPointUTXOSetChunk :: rest => Some (SLoop pruningPointHash fromOutpoint chunksSent, [], rest)
  | SAwait _ _ _, MsgRequestPruningPointUTXOSetAndBlock _ :: rest => Some (SFailed true, [], rest)
  | SAwait _ _ _, [] => None
  | SFailed _, _ | SCrashed, _ => None
  end.

(** ** The receiver *)
Inductive receiver :=
  | RRequest (pruningPointHash : hash)
  | RBlock
  | RChunks (receivedChunkCount : Z)
  | RReceived (receivedAll : bool)
  | RFailed (shouldBan : bool).

(** What the receiver does next, given the messages that wait for it *)
Definition receiverMove (r : receiver) (store : pruningStore) (messages : list message) : option (receiver * pruningStore * list request * list message) :=
  match r, messages with
  | RRequest pruningPointHash, _ => Some (RBlock, store, [MsgRequestPruningPointUTXOSetAndBlock pruningPointHash], messages)
  | RBlock, MsgInvRelayBlock :: rest => Some (RBlock, store, [], rest)
  | RBlock, MsgIBDBlock _ :: rest => Some (RChunks 0, store, [], rest)
  | RBlock, _ :: rest => Some (RFailed true, store, [], rest)
  | RChunks receivedChunkCount, MsgInvRelayBlock :: rest => Some (RChunks receivedChunkCount, store, [], rest)
  | RChunks receivedChunkCount, MsgPruningPointUTXOSetChunk pairs :: rest =>
      match AppendImportedPruningPointUTXOs pairs store with
      | (store, Ret _) =>
          let receivedChunkCount := receivedChunkCount + 1 in
          Some (RChunks receivedChunkCount, store,
                if receivedChunkCount mod ibdBatchSize =? 0 then [MsgRequestNextPruningPointUTXOSetChunk] else [], rest)
      | (store, _) => Some (RFailed false, store, [], rest)
      end
  | RChunks _, MsgDonePruningPointUTXOSetChunks :: rest => Some (RReceived true, store, [], rest)
  | RChunks _, MsgUnexpectedPruningPoint :: rest => Some (RReceived false, store, [], rest)
  | RChunks _, _ :: rest => Some (RFailed true, store, [], rest)
  | RBlock, [] | RChunks _, [] => None
  | RReceived _, _ | RFailed _, _ => None
  end.

(** ** The system *)
Record system := {
  sy_pruningPoint : hash;
  sy_sender : sender;
  sy_requests : list request;
  sy_messages : list message;
  sy_receiver : receiver;
  sy_store : pruningStore
}.

Definition awaiting_request (s : sender) : bool := match s with SAwait _ _ _ => true | _ => false end.
Definition awaiting_message (r : receiver) : bool := match r with RBlock | RChunks _ => true | _ => false end.

Inductive moves : system → system → Prop :=
  | sender_moves y s ms rest : senderMove (sy_pruningPoint y) (sy_sender y) (sy_requests y) = Some (s, ms, rest) →
      moves y {| sy_pruningPoint := sy_pruningPoint y; sy_sender := s; sy_requests := rest; sy_messages := sy_messages y ++ ms; sy_receiver := sy_receiver y; sy_store := sy_store y |}
  | receiver_moves y r store rs rest : receiverMove (sy_receiver y) (sy_store y) (sy_messages y) = Some (r, store, rs, rest) →
      moves y {| sy_pruningPoint := sy_pruningPoint y; sy_sender := sy_sender y; sy_requests := sy_requests y ++ rs; sy_messages := rest; sy_receiver := r; sy_store := store |}.

Inductive disturbs : system → system → Prop :=
  | block_announced y :
      disturbs y {| sy_pruningPoint := sy_pruningPoint y; sy_sender := sy_sender y; sy_requests := sy_requests y; sy_messages := sy_messages y ++ [MsgInvRelayBlock]; sy_receiver := sy_receiver y; sy_store := sy_store y |}
  | pruning_point_moves y h :
      disturbs y {| sy_pruningPoint := h; sy_sender := sy_sender y; sy_requests := sy_requests y; sy_messages := sy_messages y; sy_receiver := sy_receiver y; sy_store := sy_store y |}
  | sender_times_out y : awaiting_request (sy_sender y) = true → sy_requests y = [] →
      disturbs y {| sy_pruningPoint := sy_pruningPoint y; sy_sender := SFailed false; sy_requests := sy_requests y; sy_messages := sy_messages y; sy_receiver := sy_receiver y; sy_store := sy_store y |}
  | receiver_times_out y : awaiting_message (sy_receiver y) = true → sy_messages y = [] →
      disturbs y {| sy_pruningPoint := sy_pruningPoint y; sy_sender := sy_sender y; sy_requests := sy_requests y; sy_messages := sy_messages y; sy_receiver := RFailed false; sy_store := sy_store y |}.

Definition started (pruningPoint pruningPointHash : hash) (store : pruningStore) : system :=
  {| sy_pruningPoint := pruningPoint; sy_sender := SIdle; sy_requests := []; sy_messages := []; sy_receiver := RRequest pruningPointHash; sy_store := store |}.
End Sync.
End Sync.
Import Sync.
