(* ===== verification/UtxoSyncSpec.v ===== *)
(** * The UTXO set arrives as it was sent

    The invariant of [UtxoSync]: the messages of the sender are a prefix of one fixed sequence, the block, the chunks in order and the end, or of this sequence cut
    short by a pruning point that moved; what the receiver has consumed is a prefix of what was sent. *)
From S2P Require Import Prelude Externalapi UtxoDiff Hashing PastUtxo Stores ConsensusStores PruningStore UtxoSync.
Import LRU BinarySerialization Cell Pages Pruning Sync.
Local Open Scope nat_scope.

Abbreviation hash := (list Z) (only parsing).
Abbreviation bytes := (list Z) (only parsing).
Abbreviation utxo := (DomainOutpoint * utxoEntry)%type (only parsing).

(** ** Pages *)
Section Pages.
Variable c : codec utxoEntry.

(** The bucket holds these entries. *)
Definition decodes (bucket : list (DomainOutpoint * bytes)) (entries : list utxo) : Prop :=
  Forall2 (λ b e, b.1 = e.1 ∧ decode c b.2 = Some e.2) bucket entries.

Lemma readPage_spec bucket entries limit : decodes bucket entries → readPage c bucket limit = Ret (take limit entries).
Proof.
  intros Hd. revert limit. induction Hd as [|[o b] [o' e] bucket entries [Ho Hb] Hd IH]; intros [|limit]; try done. simpl in *. subst o'. by rewrite Hb, IH.
Qed.

Lemma seek_spec bucket entries n o e : decodes bucket entries → NoDup entries.*1 → entries !! n = Some (o, e) → seek o bucket = Some (drop (S n) bucket).
Proof.
  intros Hd. revert n. induction Hd as [|[o1 b] [o' e'] bucket entries [Ho Hb] Hd IH]; intros n Hnd Hn; [done|]. simpl in *. subst o'.
  apply NoDup_cons in Hnd as [Ho1 Hnd]. destruct n as [|n]; simpl in Hn.
  - injection Hn as -> ->. by rewrite bool_decide_eq_true_2.
  - rewrite bool_decide_eq_false_2; [by apply IH|]. intros ->. apply Ho1, list_elem_of_fmap. exists (o, e). split; [done|]. by eapply list_elem_of_lookup_2.
Qed.

(** The outpoint before the entry [n] *)
Definition from_at (entries : list utxo) (n : nat) : option DomainOutpoint :=
  match n with O => None | S n => fst <$> entries !! n end.

Lemma utxoPage_spec bucket entries n limit : decodes bucket entries → NoDup entries.*1 → n ≤ length entries →
  utxoPage c bucket (from_at entries n) limit = Ret (take (Z.to_nat limit) (drop n entries)).
Proof.
  intros Hd Hnd Hn. unfold utxoPage, from_at. destruct n as [|n]; [by apply readPage_spec|].
  destruct (lookup_lt_is_Some_2 entries n) as [[o e] Ho]; [lia|]. rewrite Ho. simpl. rewrite (seek_spec _ _ _ _ _ Hd Hnd Ho). apply readPage_spec. by apply Forall2_drop.
Qed.
End Pages.

(** ** The invariant *)
Section Spec.
Context `{MuHashOk}.
Variable utxoEntryCodec : codec utxoEntry.
Variable multisetCodec : codec muhash.
Variable cursor : gmap DomainOutpoint bytes → list (DomainOutpoint * bytes).
Variables (step ibdBatchSize : nat).
Variable utxoSetOf : hash → gmap DomainOutpoint bytes.
Variables (h : hash) (E : list utxo).

Hypothesis Hstep : 0 < step.
Hypothesis Hbatch : 0 < ibdBatchSize.
Hypothesis HE : decodes utxoEntryCodec (cursor (utxoSetOf h)) E.
Hypothesis Hnodup : NoDup E.*1.
Hypothesis Hcodable : ∀ o e, (o, e) ∈ E → codable utxoEntryCodec e.
(** A multiset is read back as an equivalent one. *)
Hypothesis Hmultiset : ∀ m, ∃ b m', encode multisetCodec m = Some b ∧ decode multisetCodec b = Some m' ∧ ms_equiv m' m.

(** The number of full chunks; one more follows them. *)
Definition full : nat := length E / step.
Definition chunk (i : nat) : list utxo := take step (drop (i * step) E).
Definition hist (k : nat) : list message := MsgIBDBlock h :: map (λ i, MsgPruningPointUTXOSetChunk (chunk i)) (seq 0 k).
Definition asked_for (j : nat) : list request := MsgRequestPruningPointUTXOSetAndBlock h :: replicate j MsgRequestNextPruningPointUTXOSetChunk.

Lemma full_le k : k ≤ full ↔ k * step ≤ length E.
Proof using Hstep Hbatch. unfold full. rewrite (Nat.mul_comm k). split; intros Hk; [|by apply Nat.div_le_lower_bound; lia]. pose proof (Nat.Div0.mul_div_le (length E) step). nia. Qed.

Lemma chunk_full k : k < full → length (chunk k) = step.
Proof using Hstep Hbatch. intros Hk. unfold chunk. rewrite length_take, length_drop. pose proof (proj1 (full_le (S k)) ltac:(lia)). simpl in *. lia. Qed.
Lemma chunk_last : length (chunk full) < step.
Proof using Hstep Hbatch.
  unfold chunk. rewrite length_take, length_drop. apply Nat.min_lt_iff. right. unfold full. pose proof (Nat.div_mod_eq (length E) step). pose proof (Nat.mod_upper_bound (length E) step). nia.
Qed.
Lemma chunk_from k : k < full → fst <$> last (chunk k) = from_at E (S k * step).
Proof using Hstep Hbatch.
  intros Hk. pose proof (chunk_full k Hk) as Hlen. rewrite last_lookup, Hlen. unfold chunk. rewrite lookup_take_lt, lookup_drop by lia.
  replace (S k * step) with (S (k * step + Nat.pred step)) by lia. done.
Qed.
Lemma chunks_concat k : concat (map chunk (seq 0 k)) = take (k * step) E.
Proof.
  induction k as [|k IH]; [done|]. rewrite seq_S, map_app, concat_app, IH. simpl. rewrite app_nil_r. unfold chunk.
  rewrite Nat.add_comm, <- (take_take_drop E (k * step) step). done.
Qed.
Lemma all_chunks : concat (map chunk (seq 0 (S full))) = E.
Proof using Hstep Hbatch. rewrite chunks_concat. apply take_ge. pose proof (proj1 (Nat.nle_gt _ _) (λ Hle, Nat.nle_succ_diag_l full (proj2 (full_le (S full)) Hle))). lia. Qed.

(** *** What is imported *)
Record imported (store : pruningStore) (I : list utxo) : Prop := {
  im_utxos : ∀ o, ps_importedUTXOs store !! o = (list_to_map I : gmap DomainOutpoint utxoEntry) !! o ≫= encode utxoEntryCodec;
  im_multiset : ∃ m, match ps_importedMultiset store with None => m = ms_New | Some b => decode multisetCodec b = Some m end ∧ ms_equiv m (addAll ms_New I)
}.

#[local] Instance addAll_proper : Proper (ms_equiv ==> eq ==> ms_equiv) addAll.
Proof using H0. intros m m' Hm l ? <-. revert m m' Hm. induction l as [|u l IH]; intros m m' Hm; [done|]. simpl. apply IH. by rewrite Hm. Qed.

Lemma list_to_map_snoc (I : list utxo) o e : o ∉ I.*1 → (list_to_map (I ++ [(o, e)]) : gmap DomainOutpoint utxoEntry) = <[o := e]> (list_to_map I).
Proof.
  intros Ho. rewrite list_to_map_app. change (list_to_map [(o, e)] : gmap DomainOutpoint utxoEntry) with (<[o := e]> ∅ : gmap DomainOutpoint utxoEntry).
  rewrite <- insert_union_r by (by apply not_elem_of_list_to_map). by rewrite (right_id_L ∅ (∪)).
Qed.

Lemma store_append_spec pairs : ∀ store I, (∀ o, ps_importedUTXOs store !! o = (list_to_map I : gmap DomainOutpoint utxoEntry) !! o ≫= encode utxoEntryCodec) →
  NoDup (I ++ pairs).*1 → (∀ o e, (o, e) ∈ pairs → codable utxoEntryCodec e) →
  ∃ store', store_AppendImportedPruningPointUTXOs utxoEntryCodec pairs store = (store', Ret ()) ∧ ps_importedMultiset store' = ps_importedMultiset store ∧
    ∀ o, ps_importedUTXOs store' !! o = (list_to_map (I ++ pairs) : gmap DomainOutpoint utxoEntry) !! o ≫= encode utxoEntryCodec.
Proof using Type.
  induction pairs as [|[o e] pairs IH]; intros store I Hmap Hnd Hcod; cbn [store_AppendImportedPruningPointUTXOs]; [exists store; by rewrite app_nil_r|].
  destruct (Hcod o e) as (b & Hb & _); [by left|]. rewrite Hb.
  match goal with |- context [bind (modify ?f) _ store] => rewrite (bind_ret_l (modify f) _ store (f store) ()) by done; set (s1 := f store) end.
  replace (I ++ (o, e) :: pairs) with ((I ++ [(o, e)]) ++ pairs) in * by (by rewrite <- app_assoc).
  apply (IH s1); [|done|intros ? ? ?; eapply Hcod; by right]. assert (o ∉ I.*1) as Ho.
  { rewrite <- app_assoc, fmap_app in Hnd. apply NoDup_app in Hnd as (_ & Hd & _). intros Hin. apply (Hd o Hin). by left. }
  intros o'. rewrite (list_to_map_snoc _ _ _ Ho). simpl. destruct (decide (o' = o)) as [->|Hne]; [by rewrite !lookup_insert_eq|by rewrite !lookup_insert_ne by done].
Qed.

Lemma append_spec pairs store I : imported store I → NoDup (I ++ pairs).*1 → (∀ o e, (o, e) ∈ pairs → codable utxoEntryCodec e) →
  ∃ store', AppendImportedPruningPointUTXOs utxoEntryCodec multisetCodec pairs store = (store', Ret ()) ∧ imported store' (I ++ pairs).
Proof using Hmultiset H0.
  intros [Hmap (m & Hm & Heq)] Hnd Hcod. unfold AppendImportedPruningPointUTXOs, transaction. rewrite (bind_ret_l _ _ store store store) by done.
  match goal with |- context [bind ?p _ store] => assert (p store = (store, Ret m)) as Hread end.
  { destruct (ps_importedMultiset store) as [b|] eqn:Eb; [|by rewrite Hm]. unfold ImportedPruningPointMultiset. rewrite (bind_ret_l _ _ store store store) by done. by rewrite Eb, Hm. }
  rewrite (bind_ret_l _ _ _ _ _ Hread). destruct (Hmultiset (addAll m pairs)) as (b & m' & Hb & Hd & Heq').
  set (s1 := put_imported id (Some b) store). assert (UpdateImportedPruningPointMultiset multisetCodec (addAll m pairs) store = (s1, Ret ())) as Hup by (unfold UpdateImportedPruningPointMultiset; by rewrite Hb).
  rewrite (bind_ret_l _ _ _ _ _ Hup). destruct (store_append_spec pairs s1 I Hmap Hnd Hcod) as (store' & -> & Hms & Hmap'). exists store'. split; [done|]. split; [done|].
  exists m'. rewrite Hms. split; [done|]. rewrite Heq', Heq. unfold addAll. by rewrite fold_left_app.
Qed.

(** *** The two flows

    [disturbed]: a wait has timed out or the pruning point has moved. *)
Inductive sender_at (disturbed : bool) : sender → list message → list request → Prop :=
  | at_start : sender_at disturbed SIdle [] []
  | at_block : sender_at disturbed (SBlock h) [] (asked_for 0)
  | at_loop k : k ≤ full → sender_at disturbed (SLoop h (from_at E (k * step)) (Z.of_nat k)) (hist k) (asked_for (k / ibdBatchSize))
  | at_await k : S k ≤ full → S k mod ibdBatchSize = 0 →
      sender_at disturbed (SAwait h (from_at E (S k * step)) (Z.of_nat (S k))) (hist (S k)) (asked_for (k / ibdBatchSize))
  | at_finish : sender_at disturbed SFinish (hist (S full)) (asked_for (full / ibdBatchSize))
  | at_done : sender_at disturbed SIdle (hist (S full) ++ [MsgDonePruningPointUTXOSetChunks]) (asked_for (full / ibdBatchSize))
  | at_done_failed : sender_at disturbed (SFailed true) (hist (S full) ++ [MsgDonePruningPointUTXOSetChunks]) (asked_for (S (full / ibdBatchSize)))
  | at_moved k : disturbed = true → k ≤ full → sender_at disturbed SIdle (hist k ++ [MsgUnexpectedPruningPoint]) (asked_for (k / ibdBatchSize))
  | at_moved_failed k : disturbed = true → k ≤ full → sender_at disturbed (SFailed true) (hist k ++ [MsgUnexpectedPruningPoint]) (asked_for (S (k / ibdBatchSize)))
  | at_timed_out k : disturbed = true → S k ≤ full → S k mod ibdBatchSize = 0 → sender_at disturbed (SFailed false) (hist (S k)) (asked_for (k / ibdBatchSize)).

Inductive receiver_at (disturbed : bool) : receiver → pruningStore → list message → list request → Prop :=
  | at_request store : imported store [] → receiver_at disturbed (RRequest h) store [] []
  | at_wait store : imported store [] → receiver_at disturbed RBlock store [] (asked_for 0)
  | at_chunks k store : k ≤ S full → imported store (take (k * step) E) → receiver_at disturbed (RChunks (Z.of_nat k)) store (hist k) (asked_for (k / ibdBatchSize))
  | at_received store : imported store E → receiver_at disturbed (RReceived true) store (hist (S full) ++ [MsgDonePruningPointUTXOSetChunks]) (asked_for (S full / ibdBatchSize))
  | at_unexpected k store : disturbed = true → receiver_at disturbed (RReceived false) store (hist k ++ [MsgUnexpectedPruningPoint]) (asked_for (k / ibdBatchSize))
  | at_failed k store : disturbed = true → receiver_at disturbed (RFailed false) store (hist k) (asked_for (k / ibdBatchSize))
  | at_failed_first store : disturbed = true → receiver_at disturbed (RFailed false) store [] (asked_for 0).

Definition is_inv (m : message) : bool := match m with MsgInvRelayBlock => true | _ => false end.
Definition noinv (ms : list message) : list message := filter (λ m, is_inv m = false) ms.

(** *** Counting *)
Lemma div_S_mod k : S k mod ibdBatchSize = 0 → S k / ibdBatchSize = S (k / ibdBatchSize).
Proof using Hbatch Hstep.
  intros Hk. pose proof (Nat.div_mod_eq (S k) ibdBatchSize). pose proof (Nat.div_mod_eq k ibdBatchSize). pose proof (Nat.mod_upper_bound k ibdBatchSize). nia.
Qed.
Lemma div_S_nmod k : S k mod ibdBatchSize ≠ 0 → S k / ibdBatchSize = k / ibdBatchSize.
Proof using Hbatch Hstep.
  intros Hk. apply (Nat.div_unique _ _ _ (S k mod ibdBatchSize - 1)); pose proof (Nat.mod_upper_bound (S k) ibdBatchSize); [lia|].
  pose proof (Nat.div_mod_eq (S k) ibdBatchSize). lia.
Qed.
Lemma batch_eqb k : ((Z.of_nat k + 1) mod Z.of_nat ibdBatchSize =? 0)%Z = bool_decide (S k mod ibdBatchSize = 0).
Proof using Hbatch Hstep.
  replace (Z.of_nat k + 1)%Z with (Z.of_nat (S k)) by lia. rewrite <- Nat2Z.inj_mod. apply eq_bool_prop_intro. rewrite bool_decide_spec, Is_true_true, Z.eqb_eq. lia.
Qed.

Lemma hist_S k : hist k ++ [MsgPruningPointUTXOSetChunk (chunk k)] = hist (S k).
Proof. unfold hist. rewrite seq_S, map_app. done. Qed.
Lemma length_hist k : length (hist k) = S k.
Proof. unfold hist. simpl. by rewrite length_map, length_seq. Qed.
Lemma hist_lookup j k : k < j → hist j !! S k = Some (MsgPruningPointUTXOSetChunk (chunk k)).
Proof. intros Hk. unfold hist. simpl. change (map ?f ?l) with (f <$> l). rewrite list_lookup_fmap, lookup_seq_lt by done. done. Qed.

Lemma next_message j tail k m rest : length tail ≤ 1 → hist j ++ tail = hist k ++ m :: rest → (k < j ∧ m = MsgPruningPointUTXOSetChunk (chunk k)) ∨ (k = j ∧ tail = [m]).
Proof using Hstep Hbatch.
  intros Hlen Heq. assert ((hist j ++ tail) !! S k = Some m) as Hm by (rewrite Heq; apply list_lookup_middle; by rewrite length_hist).
  destruct (decide (k < j)) as [Hk|Hk]; [left; split; [done|]; rewrite lookup_app_l in Hm by (rewrite length_hist; lia); rewrite hist_lookup in Hm by done; congruence|].
  right. rewrite lookup_app_r, length_hist in Hm by (rewrite length_hist; lia). destruct tail as [|m' [|]]; simpl in Hlen; [done| |lia].
  destruct (S k - S j) eqn:Ek; [|done]. simpl in Hm. split; [lia|congruence].
Qed.

(** What is sent *)
Definition shape (d : bool) (sent : list message) : Prop :=
  sent = [] ∨ ∃ j tail, sent = hist j ++ tail ∧ j ≤ S full ∧
    (tail = [] ∨ tail = [MsgDonePruningPointUTXOSetChunks] ∧ j = S full ∨ tail = [MsgUnexpectedPruningPoint] ∧ d = true).

Lemma sent_shape d s sent taken : sender_at d s sent taken → shape d sent.
Proof using Hstep Hbatch.
  intros Hs. destruct Hs; try (by left); right; match goal with |- context [hist ?j ++ [?m]] => exists j, [m] | |- context [hist ?j] => exists j, []; rewrite app_nil_r end; (split; [done|]); (split; [lia|]);
    first [by left | right; left; by split | right; right; by split].
Qed.
Lemma asked_shape d r store consumed asked : receiver_at d r store consumed asked → asked = [] ∨ ∃ j, asked = asked_for j.
Proof using Hstep Hbatch. intros Hr. destruct Hr; try (by left); right; by eexists. Qed.

(** *** Moves of the sender *)
Abbreviation loop := (senderLoop utxoEntryCodec cursor (Z.of_nat step) (Z.of_nat ibdBatchSize) utxoSetOf) (only parsing).
Abbreviation sendMove := (senderMove utxoEntryCodec cursor (Z.of_nat step) (Z.of_nat ibdBatchSize) utxoSetOf) (only parsing).
Abbreviation recvMove := (receiverMove utxoEntryCodec multisetCodec (Z.of_nat ibdBatchSize)) (only parsing).

Lemma loop_spec d pp k : k ≤ full → (pp ≠ h → d = true) →
  ∃ s m, loop pp h (from_at E (k * step)) (Z.of_nat k) = (s, m) ∧ sender_at d s (hist k ++ [m]) (asked_for (k / ibdBatchSize)).
Proof using Hstep Hbatch HE Hnodup.
  intros Hk Hpp. unfold senderLoop, GetPruningPointUTXOs. case_bool_decide as Eh; [|eexists _, _; split; [done|]; apply at_moved; [apply Hpp; congruence|done]].
  rewrite <- Eh, (utxoPage_spec _ _ E) by (done || by apply full_le). rewrite Nat2Z.id. fold (chunk k). cbv zeta.
  destruct (decide (k < full)) as [Hlt|Hge].
  - assert ((zlen (chunk k) <? Z.of_nat step)%Z = false) as -> by (apply Z.ltb_ge; unfold zlen; rewrite chunk_full by done; lia).
    pose proof (chunk_from k Hlt) as Hfrom. destruct (last (chunk k)) as [[o e]|] eqn:El.
    2:{ apply last_None in El. pose proof (chunk_full k Hlt) as Hf. rewrite El in Hf. simpl in Hf. lia. }
    cbn [fmap option_fmap option_map fst] in Hfrom. rewrite batch_eqb. replace (Z.of_nat k + 1)%Z with (Z.of_nat (S k)) by lia. eexists _, _. split; [done|]. rewrite hist_S, Hfrom. case_bool_decide as Em.
    + apply at_await; [lia|done].
    + rewrite <- (div_S_nmod k Em). apply at_loop. lia.
  - replace k with full by lia. assert ((zlen (chunk full) <? Z.of_nat step)%Z = true) as -> by (apply Z.ltb_lt; unfold zlen; pose proof chunk_last; lia).
    eexists _, _. split; [done|]. rewrite hist_S. apply at_finish.
Qed.

Lemma asked_head j k r rest : asked_for j = asked_for k ++ r :: rest → r = MsgRequestNextPruningPointUTXOSetChunk ∧ k < j.
Proof using Hstep Hbatch.
  intros [= Heq]. assert (replicate j MsgRequestNextPruningPointUTXOSetChunk !! k = Some r) as Hr by (rewrite Heq; apply list_lookup_middle; by rewrite length_replicate).
  apply lookup_replicate_1 in Hr as [? ?]. done.
Qed.
Lemma asked_for_S j : asked_for j ++ [MsgRequestNextPruningPointUTXOSetChunk] = asked_for (S j).
Proof using Hstep Hbatch. unfold asked_for. simpl. f_equal. symmetry. apply (replicate_S_end j MsgRequestNextPruningPointUTXOSetChunk). Qed.

Lemma sender_step_spec d pp s sent taken asked requests s' ms rest : sender_at d s sent taken → (asked = [] ∨ ∃ j, asked = asked_for j) → asked = taken ++ requests →
  (pp ≠ h → d = true) → sendMove pp s requests = Some (s', ms, rest) →
  ∃ taken', sender_at d s' (sent ++ ms) taken' ∧ asked = taken' ++ rest ∧ length (sent ++ ms) + length taken' = S (length sent + length taken).
Proof using Hstep Hbatch HE Hnodup.
  intros Hs Hasked Htaken Hpp Hmove.
  assert (∀ k r rest', requests = r :: rest' → taken = asked_for k → r = MsgRequestNextPruningPointUTXOSetChunk ∧ asked = asked_for (S k) ++ rest' ∧ length (asked_for (S k)) = S (length taken)) as Hnext.
  { intros k r rest' -> ->. destruct Hasked as [->|[j ->]]; [done|]. destruct (asked_head _ _ _ _ Htaken) as [-> _]. split; [done|].
    rewrite Htaken, <- asked_for_S, <- app_assoc. split; [done|]. rewrite length_app. simpl. lia. }
  destruct Hs; simpl in Hmove.
  - destruct requests as [|r requests]; [done|]. destruct Hasked as [->|[j ->]]; [done|]. injection Htaken as <- <-. injection Hmove as <- <- <-.
    eexists. split; [apply at_block|]. split; [done|done].
  - injection Hmove as <- <- <-. eexists. split; [apply (at_loop d 0); lia|]. rewrite Nat.Div0.div_0_l. split; [done|]. simpl. lia.
  - destruct (loop_spec d pp k) as (s1 & m & E1 & Hs1); [done..|]. rewrite E1 in Hmove. injection Hmove as <- <- <-. eexists. split; [exact Hs1|]. split; [done|]. rewrite length_app. simpl. lia.
  - destruct requests as [|r requests]; [done|]. destruct (Hnext _ _ _ eq_refl eq_refl) as (-> & Ha & Hl). injection Hmove as <- <- <-. rewrite app_nil_r. rewrite <- div_S_mod in Ha, Hl by done.
    eexists. split; [by apply (at_loop d (S k))|]. split; [done|]. rewrite Hl. lia.
  - injection Hmove as <- <- <-. eexists. split; [apply at_done|]. split; [done|]. rewrite length_app. simpl. lia.
  - destruct requests as [|r requests]; [done|]. destruct (Hnext _ _ _ eq_refl eq_refl) as (-> & Ha & Hl). injection Hmove as <- <- <-. rewrite app_nil_r.
    eexists. split; [apply at_done_failed|]. split; [done|]. rewrite Hl. lia.
  - done.
  - destruct requests as [|r requests]; [done|]. destruct (Hnext _ _ _ eq_refl eq_refl) as (-> & Ha & Hl). injection Hmove as <- <- <-. rewrite app_nil_r.
    eexists. split; [by apply at_moved_failed|]. split; [done|]. rewrite Hl. lia.
  - done.
  - done.
Qed.

(** *** Moves of the receiver *)
Lemma shape_first d m rest : shape d (m :: rest) → m = MsgIBDBlock h.
Proof using Type. intros [?|(j & tail & [= -> _] & _)]; done. Qed.
Lemma shape_next d k m rest : shape d (hist k ++ m :: rest) →
  m = MsgPruningPointUTXOSetChunk (chunk k) ∧ k ≤ full ∨ m = MsgDonePruningPointUTXOSetChunks ∧ k = S full ∨ m = MsgUnexpectedPruningPoint ∧ d = true.
Proof using Hstep Hbatch.
  intros [?|(j & tail & Heq & Hj & Htail)]; [done|]. assert (length tail ≤ 1) as Hlen by (destruct Htail as [->|[[-> _]|[-> _]]]; simpl; lia).
  destruct (next_message j tail k m rest Hlen (eq_sym Heq)) as [[Hk ->]|[-> ->]]; [left; split; [done|lia]|].
  destruct Htail as [?|[[[= ->] ?]|[[= ->] ?]]]; [done|right; left|right; right]; done.
Qed.

(** A consumed message that counts *)
Definition progress (consumed : list message) (asked : list request) : nat := length consumed + Nat.min 1 (length asked).
Lemma progress_snoc consumed m asked asked' : asked ≠ [] → progress (consumed ++ [m]) (asked ++ asked') = S (progress consumed asked).
Proof using Type. clear Hstep Hbatch. intros Ha. unfold progress. rewrite !length_app. destruct asked; [done|]. simpl. lia. Qed.

Lemma noinv_cons m rest : is_inv m = false → noinv (m :: rest) = m :: noinv rest.
Proof using Type. intros Hm. unfold noinv. by rewrite filter_cons_True. Qed.
Lemma noinv_inv rest : noinv (MsgInvRelayBlock :: rest) = noinv rest.
Proof using Type. unfold noinv. by rewrite filter_cons_False. Qed.

Lemma receive_chunk k store : k ≤ full → imported store (take (k * step) E) →
  ∃ store', AppendImportedPruningPointUTXOs utxoEntryCodec multisetCodec (chunk k) store = (store', Ret ()) ∧ imported store' (take (S k * step) E).
Proof using H0 Hcodable Hmultiset Hnodup.
  intros Hk Hi. destruct (append_spec (chunk k) store (take (k * step) E) Hi) as (store' & Hrun & Hi').
  - unfold chunk. rewrite take_take_drop, fmap_take. eapply sublist_NoDup; [exact Hnodup|apply sublist_take].
  - intros o e Hin. unfold chunk in Hin. apply (Hcodable o e). eapply elem_of_sublist; [exact Hin|]. etrans; [apply sublist_take|apply sublist_drop].
  - exists store'. split; [done|]. unfold chunk in Hi'. rewrite take_take_drop in Hi'. by rewrite Nat.mul_succ_l.
Qed.

Lemma receiver_step_spec d r store consumed asked sent messages r' store' rs rest :
  receiver_at d r store consumed asked → shape d sent → sent = consumed ++ noinv messages → recvMove r store messages = Some (r', store', rs, rest) →
  ∃ consumed', receiver_at d r' store' consumed' (asked ++ rs) ∧ sent = consumed' ++ noinv rest ∧
    (Forall (λ m, is_inv m = false) messages → progress consumed' (asked ++ rs) = S (progress consumed asked)).
Proof using Hstep Hbatch H0 Hcodable Hmultiset Hnodup.
  intros Hr Hshape Hsent Hmove. destruct Hr as [store Hi|store Hi|k store Hk Hi|store Hi|k store Hd|k store Hd|store Hd]; simpl in Hmove; try done.
  - injection Hmove as <- <- <- <-. eexists. split; [by apply at_wait|]. done.
  - destruct messages as [|m rest']; [done|]. destruct (is_inv m) eqn:Em.
    { destruct m; try done. injection Hmove as <- <- <- <-. exists []. split; [by apply at_wait|]. rewrite noinv_inv in Hsent. split; [done|]. by intros [? _]%Forall_cons. }
    rewrite noinv_cons in Hsent by done. rewrite Hsent in Hshape. apply shape_first in Hshape. subst m. injection Hmove as <- <- <- <-. exists (hist 0). split.
    + change 0%Z with (Z.of_nat 0). assert (asked_for 0 ++ [] = asked_for (0 / ibdBatchSize)) as -> by (by rewrite Nat.Div0.div_0_l). apply at_chunks; [lia|done].
    + split; [done|]. intros _. done.
  - destruct messages as [|m rest']; [done|]. destruct (is_inv m) eqn:Em.
    { destruct m; try done. injection Hmove as <- <- <- <-. exists (hist k). rewrite app_nil_r. split; [by apply at_chunks|]. rewrite noinv_inv in Hsent. split; [done|]. by intros [? _]%Forall_cons. }
    rewrite noinv_cons in Hsent by done. assert (sent = (hist k ++ [m]) ++ noinv rest') as Hsent' by (by rewrite <- app_assoc). rewrite Hsent in Hshape.
    destruct (shape_next _ _ _ _ Hshape) as [[-> Hle]|[[-> ->]|[-> Hd]]].
    + destruct (receive_chunk k store Hle Hi) as (store1 & Hrun & Hi1). rewrite Hrun in Hmove. injection Hmove as <- <- <- <-. exists (hist k ++ [MsgPruningPointUTXOSetChunk (chunk k)]). split; [|split; [done|intros _; by apply progress_snoc]].
      rewrite batch_eqb. replace (Z.of_nat k + 1)%Z with (Z.of_nat (S k)) by lia. rewrite hist_S. case_bool_decide as Em'.
      * rewrite asked_for_S, <- div_S_mod by done. apply at_chunks; [lia|done].
      * rewrite app_nil_r, <- div_S_nmod by done. apply at_chunks; [lia|done].
    + injection Hmove as <- <- <- <-. eexists. split; [rewrite app_nil_r; apply at_received|split; [exact Hsent'|intros _; by apply progress_snoc]].
      rewrite <- chunks_concat, all_chunks in Hi. done.
    + injection Hmove as <- <- <- <-. eexists. split; [rewrite app_nil_r; by apply at_unexpected|split; [exact Hsent'|intros _; by apply progress_snoc]].
Qed.

(** *** The system *)
Abbreviation sys_moves := (moves utxoEntryCodec multisetCodec cursor (Z.of_nat step) (Z.of_nat ibdBatchSize) utxoSetOf) (only parsing).

(** [n] counts the moves when nothing disturbs them. *)
Definition inv (d : bool) (y : system) (n : nat) : Prop :=
  ∃ sent taken consumed asked, sender_at d (sy_sender y) sent taken ∧ receiver_at d (sy_receiver y) (sy_store y) consumed asked ∧
    sent = consumed ++ noinv (sy_messages y) ∧ asked = taken ++ sy_requests y ∧
    (d = false → sy_pruningPoint y = h ∧ Forall (λ m, is_inv m = false) (sy_messages y) ∧ n = length sent + length taken + progress consumed asked).

Lemma inv_started d pp store : imported store [] → (d = false → pp = h) → inv d (started pp h store) 0.
Proof using Type. intros Hi Hd. exists [], [], [], []. split_and!; try done; [apply at_start|by apply at_request|]. intros E'. simpl. by rewrite (Hd E'). Qed.

Lemma noinv_app l1 l2 : noinv (l1 ++ l2) = noinv l1 ++ noinv l2.
Proof using Type. apply filter_app. Qed.
Lemma noinv_id l : Forall (λ m, is_inv m = false) l → noinv l = l.
Proof using Type. intros Hl. induction Hl as [|m l Hm Hl IH]; [done|]. rewrite noinv_cons by done. by rewrite IH. Qed.
Lemma sends_noinv pp s requests s' ms rest : sendMove pp s requests = Some (s', ms, rest) → Forall (λ m, is_inv m = false) ms.
Proof using Type.
  intros Hm. destruct s as [|?|? ? ?| |? ? ?|?|], requests as [|[] ?]; simpl in Hm; simplify_eq; try (by repeat constructor);
    unfold senderLoop in Hm; destruct (GetPruningPointUTXOs _ _ _ _ _ _) as [?|]; simplify_eq; by repeat constructor.
Qed.

Lemma inv_moves d y y' n : inv d y n → sys_moves y y' → inv d y' (S n).
Proof using Hstep Hbatch H0 Hcodable Hmultiset Hnodup HE.
  intros (sent & taken & consumed & asked & Hs & Hr & Hsent & Hasked & Hd) Hm. pose proof (sent_shape _ _ _ _ Hs) as Hshape. pose proof (asked_shape _ _ _ _ _ Hr) as Hash.
  destruct Hm as [y s ms rest Hmove|y r store rs rest Hmove].
  - assert (sy_pruningPoint y ≠ h → d = true) as Hpp by (intros Hne; destruct d; [done|]; by destruct Hd as [? _]).
    destruct (sender_step_spec _ _ _ _ _ _ _ _ _ _ Hs Hash Hasked Hpp Hmove) as (taken' & Hs' & Hasked' & Hlen).
    pose proof (sends_noinv _ _ _ _ _ _ Hmove) as Hno. exists (sent ++ ms), taken', consumed, asked. simpl. split_and!; try done.
    + rewrite noinv_app, (noinv_id ms Hno), Hsent. by rewrite app_assoc.
    + intros Hf. destruct (Hd Hf) as (Hp & Hall & ->). split_and!; [done|by apply Forall_app|lia].
  - destruct (receiver_step_spec d _ _ consumed asked sent _ _ _ _ _ Hr Hshape Hsent Hmove) as (consumed' & Hr' & Hsent' & Hlen).
    exists sent, taken, consumed', (asked ++ rs). simpl. split_and!; try done; [rewrite Hasked; by rewrite app_assoc|].
    intros Hf. destruct (Hd Hf) as (Hp & Hall & ->). split_and!; [done| |rewrite (Hlen Hall); lia].
    clear -Hmove Hall. destruct (sy_receiver y), (sy_messages y) as [|[] ?]; simpl in Hmove; simplify_eq; try done; try (by apply Forall_cons in Hall as [_ ?]).
    all: destruct (AppendImportedPruningPointUTXOs _ _ _ _) as [? []]; simplify_eq; by apply Forall_cons in Hall as [_ ?].
Qed.

Lemma inv_disturbs y y' n : inv true y n → disturbs y y' → inv true y' n.
Proof using Type.
  intros (sent & taken & consumed & asked & Hs & Hr & Hsent & Hasked & _) Hd. destruct Hd as [y|y h'|y Haw Hreq|y Haw Hmsg]; simpl in *.
  - exists sent, taken, consumed, asked. simpl. split_and!; try done. rewrite noinv_app. by rewrite app_nil_r.
  - exists sent, taken, consumed, asked. by split_and!.
  - inversion Hs as [E1 E2 E3|E1 E2 E3|k Hk E1 E2 E3|k Hk Hmod E1 E2 E3|E1 E2 E3|E1 E2 E3|E1 E2 E3|k ? ? E1 E2 E3|k ? ? E1 E2 E3|k ? ? ? E1 E2 E3]; rewrite <- E1 in Haw; try done.
    exists sent, taken, consumed, asked. simpl. split_and!; try done. rewrite <- E2, <- E3. by apply at_timed_out.
  - exists sent, taken, consumed, asked. simpl. split_and!; try done.
    destruct Hr as [st Hi|st Hi|k st Hk Hi|st Hi|k st Ht|k st Ht|st Ht]; try done; [by apply at_failed_first|by apply at_failed].
Qed.

Lemma inv_reach pp store y : imported store [] → rtc (λ y y', sys_moves y y' ∨ disturbs y y') (started pp h store) y → ∃ n, inv true y n.
Proof using Hstep Hbatch H0 Hcodable Hmultiset Hnodup HE.
  intros Hi Hr. apply (rtc_ind_r (λ y, ∃ n, inv true y n) (started pp h store)) with (3 := Hr); [exists 0; by apply inv_started|].
  intros y1 y2 _ [Hm|Hm] [n Hn]; [exists (S n); by eapply inv_moves|exists n; by eapply inv_disturbs].
Qed.

Lemma inv_undisturbed store n y : imported store [] → nsteps sys_moves n (started h h store) y → inv false y n.
Proof using Hstep Hbatch H0 Hcodable Hmultiset Hnodup HE.
  intros Hi. revert y. induction n as [|n IH]; intros y Hn; [inversion Hn; subst; by apply inv_started|].
  apply nsteps_inv_r in Hn as (y1 & Hn & Hm). eapply inv_moves; [by apply IH|done].
Qed.

Lemma inv_received d y n : inv d y n → sy_receiver y = RReceived true → imported (sy_store y) E.
Proof using Type. intros (sent & taken & consumed & asked & _ & Hr & _) Hrec. rewrite Hrec in Hr. by inversion Hr. Qed.

(** *** Progress *)
Lemma sender_lengths d s sent taken : sender_at d s sent taken → length sent ≤ full + 3 ∧ length taken ≤ full + 2 ∧ length sent ≤ ibdBatchSize * (length taken - 1) + ibdBatchSize + 2.
Proof using Hstep Hbatch.
  intros Hs. assert (∀ j, length (asked_for j) = S j) as Hl by (intros j; unfold asked_for; simpl; by rewrite length_replicate).
  assert (∀ k, k / ibdBatchSize ≤ k) as Hdiv by (intros k; apply Nat.Div0.div_le_upper_bound; nia).
  assert (∀ k, k < ibdBatchSize * (k / ibdBatchSize) + ibdBatchSize) as Hmod by (intros k; pose proof (Nat.div_mod_eq k ibdBatchSize); pose proof (Nat.mod_upper_bound k ibdBatchSize); lia).
  pose proof (Hdiv full). pose proof (Hmod full). destruct Hs as [| |k Hk|k Hk ?| | | |k ? Hk|k ? Hk|k ? Hk ?]; rewrite ?length_app, ?length_hist, ?Hl; simpl length; rewrite ?Nat.sub_0_r, ?Nat.sub_succ, ?Nat.sub_0_r;
    try (pose proof (Hdiv k); pose proof (Hmod k)); split_and!; try lia; nia.
Qed.
Lemma receiver_lengths d r store consumed asked : receiver_at d r store consumed asked → ibdBatchSize * (length asked - 1) ≤ length consumed.
Proof using Hstep Hbatch.
  intros Hr. assert (∀ j, length (asked_for j) - 1 = j) as Hl by (intros j; unfold asked_for; simpl; rewrite length_replicate; lia).
  pose proof (λ k, Nat.Div0.mul_div_le k ibdBatchSize) as Hdiv. destruct Hr as [| |k| |k|k|]; rewrite ?Hl, ?length_app, ?length_hist; simpl length; try lia; [specialize (Hdiv k)|specialize (Hdiv (S full))|specialize (Hdiv k)..]; lia.
Qed.

Lemma in_flight d y n : inv d y n → length (noinv (sy_messages y)) ≤ ibdBatchSize + 2.
Proof using Hstep Hbatch.
  intros (sent & taken & consumed & asked & Hs & Hr & Hsent & Hasked & _). destruct (sender_lengths _ _ _ _ Hs) as (_ & _ & H1). pose proof (receiver_lengths _ _ _ _ _ Hr) as H2.
  apply (f_equal length) in Hsent, Hasked. rewrite length_app in Hsent, Hasked. assert (ibdBatchSize * (length taken - 1) ≤ ibdBatchSize * (length asked - 1)) by (apply Nat.mul_le_mono_l; lia). lia.
Qed.

Lemma inv_bounded y n : inv false y n → n ≤ 3 * full + 9.
Proof using Hstep Hbatch.
  intros (sent & taken & consumed & asked & Hs & Hr & Hsent & _ & Hd). destruct (Hd eq_refl) as (_ & _ & ->). destruct (sender_lengths _ _ _ _ Hs) as (H1 & H2 & _).
  apply (f_equal length) in Hsent. rewrite length_app in Hsent. unfold progress. lia.
Qed.

(** What was consumed says where the receiver is. *)
Lemma receiver_determined r store consumed asked : receiver_at false r store consumed asked →
  (consumed = [] ∧ (r = RRequest h ∧ asked = [] ∨ r = RBlock ∧ asked = asked_for 0)) ∨
  (∃ k, consumed = hist k ∧ r = RChunks (Z.of_nat k) ∧ asked = asked_for (k / ibdBatchSize)) ∨ r = RReceived true.
Proof using Type. intros Hr. destruct Hr; try done; [left; split; [done|by left]|left; split; [done|by right]|right; left; by eexists|right; by right]. Qed.

Lemma hist_not_done j k m : hist j = hist k ++ [m] → (∀ u, m ≠ MsgPruningPointUTXOSetChunk u) → False.
Proof using Hstep Hbatch.
  intros Heq Hm. destruct (next_message j [] k m []) as [[_ E']|[_ ?]]; [simpl; lia|by rewrite app_nil_r|by eapply Hm|done].
Qed.

Lemma inv_progress y n : inv false y n → sy_receiver y = RReceived true ∨ ∃ y', sys_moves y y'.
Proof using Hstep Hbatch H0 Hcodable Hmultiset Hnodup HE.
  intros (sent & taken & consumed & asked & Hs & Hr & Hsent & Hasked & Hd). destruct (Hd eq_refl) as (_ & Hall & _). rewrite (noinv_id _ Hall) in Hsent.
  assert ((∃ x, recvMove (sy_receiver y) (sy_store y) (sy_messages y) = Some x) → ∃ y', sys_moves y y') as HR by (intros [[[[r st] rs] rest] E']; eexists; by eapply receiver_moves).
  assert ((∃ x, sendMove (sy_pruningPoint y) (sy_sender y) (sy_requests y) = Some x) → ∃ y', sys_moves y y') as HS by (intros [[[s ms] rest] E']; eexists; by eapply sender_moves).
  destruct (receiver_determined _ _ _ _ Hr) as [[Hc [[Er Ha]|[Er Ha]]]|[(k & Hc & Er & Ha)|Er]]; [| | |by left]; right.
  - apply HR. rewrite Er. simpl. by eexists.
  - destruct (sy_messages y) as [|m ms] eqn:Em; [|apply HR; rewrite Er; destruct m; simpl; by eexists].
    apply HS. rewrite Hc in Hsent. simpl in Hsent. subst sent. inversion Hs as [E1 E2 E3|E1 E2 E3|k ? E1 E2 E3|k ? ? E1 E2 E3|E1 E2 E3|E1 E2 E3|E1 E2 E3| | |]; try discriminate; [|simpl; by eexists].
    subst taken. rewrite Ha in Hasked. simpl in Hasked. rewrite <- Hasked. simpl. by eexists.
  - destruct (sy_messages y) as [|m ms] eqn:Em; [|apply HR; rewrite Er; destruct m; simpl; try (by eexists); destruct (AppendImportedPruningPointUTXOs _ _ _ _) as [? []]; by eexists].
    apply HS. rewrite app_nil_r in Hsent. rewrite Hsent in Hs.
    inversion Hs as [E1 E2 E3|E1 E2 E3|k' Hk E1 E2 E3|k' Hk Hmod E1 E2 E3|E1 E2 E3|E1 E2 E3|E1 E2 E3| | |]; try (rewrite Hc in E2); try discriminate; try (by exfalso; eapply hist_not_done); simpl.
    + destruct (loop _ _ _ _). by eexists.
    + assert (k = S k') as -> by (apply (f_equal length) in E2; rewrite !length_hist in E2; lia). subst taken. rewrite Ha, (div_S_mod k' Hmod), <- asked_for_S in Hasked.
      apply app_inv_head in Hasked. rewrite <- Hasked. by eexists.
    + by eexists.
Qed.
End Spec.
