(* ===== verification/UtxoSerialization.v ===== *)
(** * Serialized UTXOs and iterators over them (utils/utxo, utils/serialization)

    Reading back what [PastUtxo] writes: a reader is the list of the bytes that are left.  The iterators over a collection and over a set with a diff, which walk a UTXO
    set without building it, are state machines with the flags and indices of the source. *)
From S2P Require Import Prelude Externalapi UtxoDiff Hashing PastUtxo Stores.
Import Serialization.
Local Open Scope Z_scope.
Local Open Scope prog_scope.

Abbreviation hash := (list Z) (only parsing).
Abbreviation bytes := (list Z) (only parsing).
Abbreviation utxo := (DomainOutpoint * utxoEntry)%type (only parsing).

Inductive readError :=
  | ErrEOF
  | ErrUnexpectedEOF
  | ErrMalformed
  | ErrHashLength.
Abbreviation reading A := (prog (list Z) readError A) (only parsing).

(** ** Readers *)
Module Reading.
(** [io.ReadFull] into a buffer of [n] bytes *)
Definition ReadFull (n : nat) : reading bytes :=
  λ r, if bool_decide (n ≤ length r)%nat then (drop n r, Ret (take n r))
       else ([], Fail (match r with [] => ErrEOF | _ => ErrUnexpectedEOF end)).
Definition Uint8 : reading Z := let* buf := ReadFull 1 in ret (LE.of_bytes buf).
Definition Uint16 : reading Z := let* buf := ReadFull 2 in ret (LE.of_bytes buf).
Definition Uint32 : reading Z := let* buf := ReadFull 4 in ret (LE.of_bytes buf).
Definition Uint64 : reading Z := let* buf := ReadFull 8 in ret (LE.of_bytes buf).
(** [ReadElement] into a [*bool] *)
Definition ReadBool : reading bool :=
  let* rv := Uint8 in
  if rv =? 0 then ret false else if rv =? 1 then ret true else fail ErrMalformed.

(** [externalapi.NewDomainHashFromByteSlice] *)
Definition FromBytes (transactionIDBytes : bytes) : reading DomainTransactionID :=
  if bool_decide (zlen transactionIDBytes = 32) then ret transactionIDBytes else fail ErrHashLength.

Definition deserializeOutpoint : reading DomainOutpoint :=
  let* transactionIDBytes := ReadFull 32 in
  let* transactionID := FromBytes transactionIDBytes in
  let* index := Uint32 in
  ret {| op_TransactionID := transactionID; op_Index := index |}.

(** [make] panics beyond the address space, [maxAlloc]. *)
Definition maxAlloc : Z := 2 ^ 48.
Definition makeSlice (n : Z) : reading unit := if maxAlloc <? n then λ r, (r, Crash ExplicitPanic) else ret ().

Definition deserializeUTXOEntry : reading utxoEntry :=
  let* blockDAAScore := Uint64 in
  let* amount := Uint64 in
  let* isCoinbase := ReadBool in
  let* version := Uint16 in
  let* scriptPubKeyLen := Uint64 in
  makeSlice scriptPubKeyLen ;;*
  let* scriptPubKeyScript := ReadFull (Z.to_nat scriptPubKeyLen) in
  ret {| ue_amount := amount; ue_scriptPublicKey := {| spk_Script := scriptPubKeyScript; spk_Version := version |};
         ue_blockDAAScore := blockDAAScore; ue_isCoinbase := isCoinbase |}.

Definition DeserializeUTXO (utxoBytes : bytes) : outcome readError (utxoEntry * DomainOutpoint) :=
  snd ((let* outpoint := deserializeOutpoint in
   let* entry := deserializeUTXOEntry in
   ret (entry, outpoint)) utxoBytes).
End Reading.
Import Reading.

(** ** Round trips *)
(** [m] reads [w] as [a]. *)
Definition reads {A} (m : reading A) (w : bytes) (a : A) : Prop := ∀ rest, m (w ++ rest) = (rest, Ret a).
(** Whatever [m] reads as [a] are the bytes [W a]. *)
Definition canonical_reader {A} (m : reading A) (W : A → bytes) (ok : A → Prop) : Prop :=
  ∀ r r' a, are_bytes r → m r = (r', Ret a) → r = W a ++ r' ∧ ok a.

Definition outpoint_ok (o : DomainOutpoint) : Prop := digest_ok (op_TransactionID o) ∧ 0 ≤ op_Index o < 2 ^ 32.
Definition entry_ok (e : utxoEntry) : Prop :=
  0 ≤ ue_amount e < 2 ^ 64 ∧ 0 ≤ ue_blockDAAScore e < 2 ^ 64 ∧ 0 ≤ spk_Version (ue_scriptPublicKey e) < 2 ^ 16 ∧
  are_bytes (spk_Script (ue_scriptPublicKey e)) ∧ zlen (spk_Script (ue_scriptPublicKey e)) ≤ maxAlloc.

Section Reads.
Context {A B : Type}.
Lemma reads_bind (m : reading A) (k : A → reading B) w w' a b : reads m w a → reads (k a) w' b → reads (let* a := m in k a) (w ++ w') b.
Proof. intros Hm Hk rest. rewrite <- app_assoc, (bind_ret_l _ _ _ _ _ (Hm _)). apply Hk. Qed.
Lemma reads_ret (a : A) : reads (ret a) [] a.
Proof. by intros rest. Qed.
Lemma bind_inv (m : reading A) (k : A → reading B) (r r' : bytes) b : (let* a := m in k a) r = (r', Ret b) → ∃ r1 a, m r = (r1, Ret a) ∧ k a r1 = (r', Ret b).
Proof. unfold bind. destruct (m r) as [r1 [a|e|c]]; [|done..]. intros Hk. by eexists _, _. Qed.
End Reads.

Lemma ReadFull_reads w n : length w = n → reads (ReadFull n) w w.
Proof. intros <- rest. unfold ReadFull. rewrite bool_decide_eq_true_2 by (rewrite length_app; lia). by rewrite drop_app_length, take_app_length. Qed.
Lemma ReadFull_inv n r r' w : ReadFull n r = (r', Ret w) → r = w ++ r' ∧ length w = n.
Proof. unfold ReadFull. case_bool_decide as Hn; [|done]. intros [= <- <-]. split; [by rewrite take_drop|]. rewrite length_take. lia. Qed.

(** Integers of [n] bytes *)
Lemma uint_reads n v : 0 ≤ v < 256 ^ Z.of_nat n → reads (let* buf := ReadFull n in ret (LE.of_bytes buf)) (LE.put n v) v.
Proof. intros Hv rest. rewrite (bind_ret_l _ _ _ _ _ (ReadFull_reads _ n (LE.put_length n v) rest)). unfold ret. by rewrite LE.of_bytes_put. Qed.
Lemma uint_inv n r r' v : are_bytes r → (let* buf := ReadFull n in ret (LE.of_bytes buf)) r = (r', Ret v) → r = LE.put n v ++ r' ∧ are_bytes r' ∧ 0 ≤ v < 256 ^ Z.of_nat n.
Proof.
  intros Hr (r1 & w & Hw & Hv)%bind_inv. apply ReadFull_inv in Hw as [-> Hl]. injection Hv as -> <-. apply are_bytes_app in Hr as [Hw Hr]. rewrite <- Hl, LE.put_of_bytes by done. split_and!; try done; apply LE.of_bytes_bound; done.
Qed.

Lemma bool_reads (b : bool) : reads ReadBool [if b then 1 else 0] b.
Proof. intros rest. unfold ReadBool. rewrite (bind_ret_l Uint8 _ _ rest (if b then 1 else 0)); destruct b; done. Qed.
Lemma bool_inv r r' (b : bool) : are_bytes r → ReadBool r = (r', Ret b) → r = (if b then 1 else 0) :: r' ∧ are_bytes r'.
Proof.
  intros Hr (r1 & v & Hv & Hb)%bind_inv. apply (uint_inv 1) in Hv as (-> & Hr1 & Hrange); [|done]. destruct (Z.eqb_spec v 0) as [->|]; [by injection Hb as -> <-|].
  destruct (Z.eqb_spec v 1) as [->|]; [by injection Hb as -> <-|done].
Qed.

Definition outpoint_bytes (o : DomainOutpoint) : bytes := op_TransactionID o ++ LE.put 4 (op_Index o).
Definition entry_bytes (e : utxoEntry) : bytes :=
  LE.put 8 (ue_blockDAAScore e) ++ LE.put 8 (ue_amount e) ++ [if ue_isCoinbase e then 1 else 0] ++ LE.put 2 (spk_Version (ue_scriptPublicKey e)) ++
  LE.put 8 (zlen (spk_Script (ue_scriptPublicKey e))) ++ spk_Script (ue_scriptPublicKey e).
Lemma SerializeUTXO_bytes e o : SerializeUTXO e o = outpoint_bytes o ++ entry_bytes e.
Proof. unfold SerializeUTXO, serializeUTXOEntry, serializeOutpoint, WriteElements, entry_bytes, outpoint_bytes. cbn [fold_left WriteElement]. unfold PutUint8, PutUint16, PutUint32, PutUint64. rewrite <- !app_assoc. done. Qed.

Lemma outpoint_reads o : outpoint_ok o → reads deserializeOutpoint (outpoint_bytes o) o.
Proof.
  intros [[Hb Hl] Hi]. unfold deserializeOutpoint, outpoint_bytes. eapply reads_bind; [apply ReadFull_reads; unfold zlen in Hl; lia|].
  rewrite <- (app_nil_l (LE.put 4 _)). eapply reads_bind; [unfold FromBytes; rewrite bool_decide_eq_true_2 by done; apply reads_ret|].
  rewrite <- (app_nil_r (LE.put 4 _)). eapply reads_bind; [by apply (uint_reads 4)|]. destruct o. apply reads_ret.
Qed.
Lemma entry_reads e : entry_ok e → reads deserializeUTXOEntry (entry_bytes e) e.
Proof.
  intros (Ha & Hd & Hv & Hb & Hl). unfold deserializeUTXOEntry, entry_bytes. pose proof (zlen_nonneg (spk_Script (ue_scriptPublicKey e))).
  eapply reads_bind; [by apply (uint_reads 8)|]. eapply reads_bind; [by apply (uint_reads 8)|]. eapply reads_bind; [apply bool_reads|]. eapply reads_bind; [by apply (uint_reads 2)|].
  eapply reads_bind; [apply (uint_reads 8); unfold maxAlloc in Hl; lia|]. rewrite <- (app_nil_l (spk_Script _)) at 2.
  eapply reads_bind; [unfold makeSlice; rewrite (proj2 (Z.ltb_ge _ _)) by done; apply reads_ret|]. rewrite <- (app_nil_r (spk_Script _)) at 2.
  eapply reads_bind; [apply ReadFull_reads; unfold zlen; lia|]. destruct e as [? [] ? ?]. apply reads_ret.
Qed.

Lemma outpoint_inv : canonical_reader deserializeOutpoint outpoint_bytes outpoint_ok.
Proof.
  intros r r' o Hr (r1 & w & Hw & Hk)%bind_inv. apply ReadFull_inv in Hw as [-> Hl]. apply are_bytes_app in Hr as [Hw Hr].
  apply bind_inv in Hk as (r2 & id & Hid & Hk). unfold FromBytes in Hid. case_bool_decide as H32; [|done]. injection Hid as <- <-.
  apply bind_inv in Hk as (r3 & i & Hi & Hk). apply (uint_inv 4) in Hi as (-> & Hr3 & Hi); [|done]. injection Hk as <- <-. split; [unfold outpoint_bytes; by rewrite <- app_assoc|]. by split.
Qed.
Lemma entry_inv : canonical_reader deserializeUTXOEntry entry_bytes entry_ok.
Proof.
  intros r r' e Hr (r1 & d & Hd & Hk)%bind_inv. apply (uint_inv 8) in Hd as (-> & Hr1 & Hd); [|done]. apply bind_inv in Hk as (r2 & a & Ha & Hk). apply (uint_inv 8) in Ha as (-> & Hr2 & Ha); [|done].
  apply bind_inv in Hk as (r3 & b & Hb & Hk). apply bool_inv in Hb as (-> & Hr3); [|done]. apply bind_inv in Hk as (r4 & v & Hv & Hk). apply (uint_inv 2) in Hv as (-> & Hr4 & Hv); [|done].
  apply bind_inv in Hk as (r5 & n & Hn & Hk). apply (uint_inv 8) in Hn as (-> & Hr5 & Hn); [|done]. apply bind_inv in Hk as (r6 & [] & Hm & Hk). unfold makeSlice in Hm.
  destruct (Z.ltb_spec maxAlloc n) as [|Hle]; [done|]. injection Hm as <-. apply bind_inv in Hk as (r7 & w & Hw & Hk). apply ReadFull_inv in Hw as [-> Hl]. injection Hk as <- <-.
  apply are_bytes_app in Hr5 as [Hw Hr7]. assert (zlen w = n) as <- by (unfold zlen; lia). split; [unfold entry_bytes; rewrite <- !app_assoc; reflexivity|].
  change (256 ^ Z.of_nat 8) with (2 ^ 64) in *. change (256 ^ Z.of_nat 2) with (2 ^ 16) in *. unfold entry_ok. simpl. tauto.
Qed.

Lemma DeserializeUTXO_reads e o rest : entry_ok e → outpoint_ok o → DeserializeUTXO (SerializeUTXO e o ++ rest) = Ret (e, o).
Proof.
  intros He Ho. unfold DeserializeUTXO. rewrite SerializeUTXO_bytes. rewrite <- (app_nil_r (entry_bytes e)).
  rewrite (reads_bind _ _ _ _ o (e, o) (outpoint_reads o Ho)); [done|]. eapply reads_bind; [by apply entry_reads|]. apply reads_ret.
Qed.
Lemma DeserializeUTXO_inv bs e o : are_bytes bs → DeserializeUTXO bs = Ret (e, o) → ∃ rest, bs = SerializeUTXO e o ++ rest ∧ entry_ok e ∧ outpoint_ok o.
Proof.
  intros Hbs Hd. unfold DeserializeUTXO in Hd. match type of Hd with snd ?p = _ => destruct p as [rest x] eqn:Ep end. simpl in Hd. subst x.
  apply bind_inv in Ep as (r1 & o' & Ho & Hk). destruct (outpoint_inv _ _ _ Hbs Ho) as [-> Hok]. apply are_bytes_app in Hbs as [_ Hr1].
  apply bind_inv in Hk as (r2 & e' & He & Hk). destruct (entry_inv _ _ _ Hr1 He) as [-> Hek]. injection Hk as <- -> ->. exists r2. rewrite SerializeUTXO_bytes, <- app_assoc. done.
Qed.

(** ** Iterators *)
Module Iterators.
Inductive iteratorError := ErrClosed | ErrInvalidDiff.

Record utxoCollectionIterator := {
  uci_index : Z;
  uci_pairs : list utxo;
  uci_isClosed : bool
}.
Abbreviation iterating A := (prog utxoCollectionIterator iteratorError A) (only parsing).

Section Collection.
Variable range : ∀ A, gmap DomainOutpoint A → list (DomainOutpoint * A).
Definition Iterator (uc : utxoCollection) : utxoCollectionIterator := {| uci_index := -1; uci_pairs := range utxoEntry uc; uci_isClosed := false |}.
End Collection.

Definition set_index (i : Z) (it : utxoCollectionIterator) : utxoCollectionIterator := {| uci_index := i; uci_pairs := uci_pairs it; uci_isClosed := uci_isClosed it |}.
Definition uci_First : iterating bool :=
  let* it := get in
  if uci_isClosed it then λ s, (s, Crash ExplicitPanic)
  else modify (set_index 0) ;;* ret (0 <? zlen (uci_pairs it)).
Definition uci_Next : iterating bool :=
  let* it := get in
  if uci_isClosed it then λ s, (s, Crash ExplicitPanic)
  else modify (set_index (uci_index it + 1)) ;;* ret (uci_index it + 1 <? zlen (uci_pairs it)).
Definition uci_Get : iterating utxo :=
  let* it := get in
  if uci_isClosed it then fail ErrClosed
  else match (if uci_index it <? 0 then None else uci_pairs it !! Z.to_nat (uci_index it)) with
       | None => λ s, (s, Crash IndexOutOfRange)
       | Some p => ret p
       end.
Definition uci_Close : iterating unit :=
  let* it := get in
  if uci_isClosed it then fail ErrClosed
  else modify (λ it, {| uci_index := uci_index it; uci_pairs := []; uci_isClosed := true |}).

(** A set with a diff: the base, and then what the diff adds. *)
Record iteratorWithDiff := {
  iw_base : utxoCollectionIterator;
  iw_diff : diff;
  iw_current : option utxo;
  iw_toAdd : utxoCollectionIterator;
  iw_isClosed : bool
}.
Abbreviation walking A := (prog iteratorWithDiff iteratorError A) (only parsing).
Definition on_base {A} (m : iterating A) : walking A :=
  zoom iw_base (λ b it, {| iw_base := b; iw_diff := iw_diff it; iw_current := iw_current it; iw_toAdd := iw_toAdd it; iw_isClosed := iw_isClosed it |}) m.
Definition on_toAdd {A} (m : iterating A) : walking A :=
  zoom iw_toAdd (λ b it, {| iw_base := iw_base it; iw_diff := iw_diff it; iw_current := iw_current it; iw_toAdd := b; iw_isClosed := iw_isClosed it |}) m.
Definition set_current (p : utxo) (it : iteratorWithDiff) : iteratorWithDiff :=
  {| iw_base := iw_base it; iw_diff := iw_diff it; iw_current := Some p; iw_toAdd := iw_toAdd it; iw_isClosed := iw_isClosed it |}.

Section WithDiff.
Variable range : ∀ A, gmap DomainOutpoint A → list (DomainOutpoint * A).
Definition IteratorWithDiff (iterator : utxoCollectionIterator) (d : diff) : iteratorWithDiff :=
  {| iw_base := iterator; iw_diff := d; iw_current := None; iw_toAdd := Iterator range (toAdd d); iw_isClosed := false |}.
(** An iterator that has a diff already gets the two diffs combined. *)
Definition IteratorWithDiffs (iterator : iteratorWithDiff) (d : diff) : option iteratorWithDiff :=
  match withDiff (iw_diff iterator) d with
  | Ret combinedDiff => Some (IteratorWithDiff (iw_base iterator) combinedDiff)
  | _ => None
  end.

Definition removed (d : diff) (p : utxo) : bool := containsWithDAAScore (toRemove d) p.1 (ue_blockDAAScore p.2).

(** [for r.baseIterator.Next()] *)
Fixpoint nextLoop (fuel : nat) : walking bool :=
  match fuel with
  | O => λ s, (s, Crash OutOfFuel)
  | Datatypes.S fuel =>
      let* ok := on_base uci_Next in
      if (ok : bool) then
        let* current := on_base uci_Get in
        modify (set_current current) ;;*
        let* it := get in
        if negb (removed (iw_diff it) current) then ret true else nextLoop fuel
      else
        let* ok := on_toAdd uci_Next in
        if (ok : bool) then
          let* current := on_toAdd uci_Get in
          modify (set_current current) ;;* ret true
        else ret false
  end.
Definition iw_Next : walking bool :=
  let* it := get in
  if iw_isClosed it then λ s, (s, Crash ExplicitPanic)
  else nextLoop (Datatypes.S (length (uci_pairs (iw_base it)))).

Definition iw_First : walking bool :=
  let* it := get in
  if iw_isClosed it then λ s, (s, Crash ExplicitPanic)
  else
    let* baseNotEmpty := on_base uci_First in
    on_toAdd uci_Close ;;*
    modify (λ it, {| iw_base := iw_base it; iw_diff := iw_diff it; iw_current := iw_current it; iw_toAdd := Iterator range (toAdd (iw_diff it)); iw_isClosed := iw_isClosed it |}) ;;*
    if negb baseNotEmpty then
      if Len (toAdd (iw_diff it)) =? 0 then ret false else iw_Next
    else
      let* current := on_base uci_Get in
      modify (set_current current) ;;*
      if removed (iw_diff it) current then iw_Next else ret true.

Definition iw_Get : walking (option utxo) :=
  let* it := get in
  if iw_isClosed it then fail ErrClosed else ret (iw_current it).
Definition iw_Close : walking unit :=
  let* it := get in
  if iw_isClosed it then fail ErrClosed
  else on_base uci_Close ;;* on_toAdd uci_Close ;;*
       modify (λ it, {| iw_base := iw_base it; iw_diff := iw_diff it; iw_current := None; iw_toAdd := iw_toAdd it; iw_isClosed := true |}).

(** [for ok := iterator.First(); ok; ok = iterator.Next()] *)
Fixpoint collectRest (fuel : nat) (ok : bool) : walking (list (option utxo)) :=
  match fuel with
  | O => λ s, (s, Crash OutOfFuel)
  | Datatypes.S fuel =>
      if ok then
        let* p := iw_Get in
        let* ok := iw_Next in
        let* pairs := collectRest fuel ok in
        ret (p :: pairs)
      else ret []
  end.
Definition collect (fuel : nat) : walking (list (option utxo)) := let* ok := iw_First in collectRest fuel ok.
End WithDiff.
End Iterators.
Import Iterators.

(** ** What an iterator walks over *)
Section Walk.
Variable range : ∀ A, gmap DomainOutpoint A → list (DomainOutpoint * A).
Hypothesis Hrange : enumerates range.

Definition walkable (it : iteratorWithDiff) : Prop :=
  iw_isClosed it = false ∧ uci_isClosed (iw_base it) = false ∧ uci_isClosed (iw_toAdd it) = false ∧ -1 ≤ uci_index (iw_base it) ∧ -1 ≤ uci_index (iw_toAdd it).
Definition ahead (it : utxoCollectionIterator) : list utxo := drop (Z.to_nat (uci_index it + 1)) (uci_pairs it).
Definition keeps (d : diff) (p : utxo) : Prop := removed d p = false.
#[local] Instance keeps_dec d p : Decision (keeps d p) := decide (removed d p = false).
Definition remaining (it : iteratorWithDiff) : list utxo := filter (keeps (iw_diff it)) (ahead (iw_base it)) ++ ahead (iw_toAdd it).

Lemma uci_Next_run it : uci_isClosed it = false → uci_Next it = (set_index (uci_index it + 1) it, Ret (uci_index it + 1 <? zlen (uci_pairs it))).
Proof using Type. intros Hc. unfold uci_Next. rewrite (bind_ret_l _ _ it it it) by done. by rewrite Hc. Qed.

(** A step of an open iterator *)
Lemma uci_step it : uci_isClosed it = false → -1 ≤ uci_index it →
  let it' := set_index (uci_index it + 1) it in
  match ahead it with
  | [] => uci_Next it = (it', Ret false) ∧ ahead it' = []
  | p :: ps => uci_Next it = (it', Ret true) ∧ uci_Get it' = (it', Ret p) ∧ ahead it' = ps
  end.
Proof using Type.
  intros Hc Hi it'. rewrite (uci_Next_run it Hc). unfold ahead at 1. destruct (drop (Z.to_nat (uci_index it + 1)) (uci_pairs it)) as [|p ps] eqn:Ed.
  - apply (f_equal length) in Ed as Hl. rewrite length_drop in Hl. simpl in Hl. rewrite (proj2 (Z.ltb_ge _ _)) by (unfold zlen; lia). split; [done|].
    unfold ahead. simpl. apply drop_ge. lia.
  - assert (uci_pairs it !! Z.to_nat (uci_index it + 1) = Some p) as Hp by (rewrite <- (Nat.add_0_r (Z.to_nat _)), <- lookup_drop, Ed; done). pose proof (lookup_lt_Some _ _ _ Hp) as Hlt.
    rewrite (proj2 (Z.ltb_lt _ _)) by (unfold zlen; lia). split; [done|]. split.
    + unfold uci_Get. rewrite (bind_ret_l _ _ it' it' it') by done. simpl. rewrite Hc, (proj2 (Z.ltb_ge _ _)) by lia. by rewrite Hp.
    + unfold ahead. simpl. replace (Z.to_nat (uci_index it + 1 + 1)) with (Z.to_nat (uci_index it + 1) + 1)%nat by lia. by rewrite <- drop_drop, Ed.
Qed.

Lemma on_base_run {A} (m : prog utxoCollectionIterator iteratorError A) it t o : m (iw_base it) = (t, o) →
  on_base m it = ({| iw_base := t; iw_diff := iw_diff it; iw_current := iw_current it; iw_toAdd := iw_toAdd it; iw_isClosed := iw_isClosed it |}, o).
Proof using Type. intros Hm. unfold on_base, zoom. by rewrite Hm. Qed.
Lemma on_toAdd_run {A} (m : prog utxoCollectionIterator iteratorError A) it t o : m (iw_toAdd it) = (t, o) →
  on_toAdd m it = ({| iw_base := iw_base it; iw_diff := iw_diff it; iw_current := iw_current it; iw_toAdd := t; iw_isClosed := iw_isClosed it |}, o).
Proof using Type. intros Hm. unfold on_toAdd, zoom. by rewrite Hm. Qed.

(** What a call of [Next] gives *)
Definition advances (m : prog iteratorWithDiff iteratorError bool) (it : iteratorWithDiff) (rest : list utxo) : Prop :=
  ∃ it', walkable it' ∧ iw_diff it' = iw_diff it ∧
    match rest with
    | [] => m it = (it', Ret false)
    | p :: ps => m it = (it', Ret true) ∧ iw_current it' = Some p ∧ remaining it' = ps
    end.

Lemma nextLoop_spec fuel : ∀ it, walkable it → (length (ahead (iw_base it)) < fuel)%nat → advances (nextLoop fuel) it (remaining it).
Proof using Type.
  induction fuel as [|fuel IH]; intros it Hw Hf; [lia|]. destruct (Hw) as (Hc & Hb & Ha & Hib & Hia). cbn [nextLoop]. unfold remaining.
  pose proof (uci_step (iw_base it) Hb Hib) as Hstep. cbv zeta in Hstep. set (b1 := set_index (uci_index (iw_base it) + 1) (iw_base it)) in *.
  set (it1 := {| iw_base := b1; iw_diff := iw_diff it; iw_current := iw_current it; iw_toAdd := iw_toAdd it; iw_isClosed := iw_isClosed it |}).
  destruct (ahead (iw_base it)) as [|p ps].
  - destruct Hstep as [Hn Hah]. unfold advances. rewrite (bind_ret_l _ _ it it1 false) by exact (on_base_run uci_Next it _ _ Hn). rewrite filter_nil. simpl app.
    pose proof (uci_step (iw_toAdd it) Ha Hia) as Hstep2. cbv zeta in Hstep2. set (a1 := set_index (uci_index (iw_toAdd it) + 1) (iw_toAdd it)) in *.
    set (it2 := {| iw_base := b1; iw_diff := iw_diff it; iw_current := iw_current it; iw_toAdd := a1; iw_isClosed := iw_isClosed it |}).
    assert (∀ c, walkable {| iw_base := b1; iw_diff := iw_diff it; iw_current := c; iw_toAdd := a1; iw_isClosed := iw_isClosed it |}) as Hw2 by (intros c; split_and!; simpl; try done; lia).
    destruct (ahead (iw_toAdd it)) as [|p ps].
    + destruct Hstep2 as [Hn2 _]. exists it2. split; [apply Hw2|]. split; [done|]. rewrite (bind_ret_l _ _ it1 it2 false) by exact (on_toAdd_run uci_Next it1 _ _ Hn2). done.
    + destruct Hstep2 as (Hn2 & Hg2 & Hah2). exists (set_current p it2). split; [apply Hw2|]. split; [done|].
      rewrite (bind_ret_l _ _ it1 it2 true) by exact (on_toAdd_run uci_Next it1 _ _ Hn2). rewrite (bind_ret_l _ _ it2 it2 p) by exact (on_toAdd_run uci_Get it2 _ _ Hg2).
      split; [done|]. split; [done|]. unfold remaining. simpl. fold b1 a1. rewrite Hah, Hah2. done.
  - destruct Hstep as (Hn & Hg & Hah). simpl in Hf.
    assert (∀ c, walkable {| iw_base := b1; iw_diff := iw_diff it; iw_current := c; iw_toAdd := iw_toAdd it; iw_isClosed := iw_isClosed it |}) as Hw1 by (intros c; split_and!; simpl; try done; lia).
    assert (remaining (set_current p it1) = filter (keeps (iw_diff it)) ps ++ ahead (iw_toAdd it)) as Hrem by (unfold remaining; simpl; fold b1; by rewrite Hah).
    assert (∀ rest, (if negb (removed (iw_diff it) p) then advances (ret true) (set_current p it1) rest else advances (nextLoop fuel) (set_current p it1) rest) →
       advances (let* ok := on_base uci_Next in if (ok : bool) then let* current := on_base uci_Get in modify (set_current current) ;;* let* it := get in
         if negb (removed (iw_diff it) current) then ret true else nextLoop fuel
         else let* ok := on_toAdd uci_Next in if (ok : bool) then let* current := on_toAdd uci_Get in modify (set_current current) ;;* ret true else ret false) it rest) as Hrun.
    { intros rest Hadv. assert (advances (if negb (removed (iw_diff it) p) then ret true else nextLoop fuel) (set_current p it1) rest) as (it' & Hw' & Hd' & Hres) by (by destruct (negb _)).
      exists it'. split; [done|]. split; [done|]. rewrite (bind_ret_l _ _ it it1 true) by exact (on_base_run uci_Next it _ _ Hn). rewrite (bind_ret_l _ _ it1 it1 p) by exact (on_base_run uci_Get it1 _ _ Hg).
      rewrite (bind_ret_l _ _ it1 (set_current p it1) ()) by done. rewrite (bind_ret_l _ _ _ (set_current p it1) (set_current p it1)) by done. exact Hres. }
    apply Hrun. destruct (removed (iw_diff it) p) eqn:Er; simpl.
    + rewrite filter_cons_False by (unfold keeps; congruence). rewrite <- Hrem. apply IH; [apply Hw1|]. simpl. fold b1. rewrite Hah. lia.
    + rewrite filter_cons_True by done. exists (set_current p it1). split; [apply Hw1|]. split; [done|]. simpl app. split; [done|]. by split.
Qed.

Lemma iw_Next_spec it : walkable it → advances iw_Next it (remaining it).
Proof using Type.
  intros Hw. destruct (nextLoop_spec (Datatypes.S (length (uci_pairs (iw_base it)))) it Hw) as (it' & Hw' & Hd & Hres); [unfold ahead; rewrite length_drop; lia|].
  exists it'. split; [done|]. split; [done|]. unfold iw_Next. rewrite (bind_ret_l _ _ it it it) by done. destruct Hw as (-> & _). exact Hres.
Qed.

(** All the pairs, from the first *)
Definition everything (it : iteratorWithDiff) : list utxo := filter (keeps (iw_diff it)) (uci_pairs (iw_base it)) ++ range utxoEntry (toAdd (iw_diff it)).

Lemma range_nil (m : utxoCollection) : (Len m =? 0) = true → range utxoEntry m = [].
Proof using Hrange. intros Hl%Z.eqb_eq. unfold Len in Hl. assert (m = ∅) as -> by (apply map_size_empty_iff; lia). apply Permutation_nil_r. rewrite (Hrange utxoEntry ∅). by rewrite map_to_list_empty. Qed.

Lemma iw_First_spec it : walkable it → advances (iw_First range) it (everything it).
Proof using Hrange.
  intros Hw. destruct (Hw) as (Hc & Hb & Ha & Hib & Hia). unfold everything, iw_First.
  set (b1 := set_index 0 (iw_base it)). set (a1 := Iterator range (toAdd (iw_diff it))).
  set (it1 := {| iw_base := b1; iw_diff := iw_diff it; iw_current := iw_current it; iw_toAdd := iw_toAdd it; iw_isClosed := iw_isClosed it |}).
  set (it3 := {| iw_base := b1; iw_diff := iw_diff it; iw_current := iw_current it; iw_toAdd := a1; iw_isClosed := iw_isClosed it |}).
  assert (uci_First (iw_base it) = (b1, Ret (0 <? zlen (uci_pairs (iw_base it))))) as HF.
  { unfold uci_First. rewrite (bind_ret_l _ _ _ (iw_base it) (iw_base it)) by done. by rewrite Hb. }
  assert (∀ c, walkable {| iw_base := b1; iw_diff := iw_diff it; iw_current := c; iw_toAdd := a1; iw_isClosed := iw_isClosed it |}) as Hw3 by (intros c; split_and!; simpl; try done; lia).
  assert (∃ a, uci_Close (iw_toAdd it) = (a, Ret ())) as [a2 HC].
  { eexists. unfold uci_Close. rewrite (bind_ret_l _ _ _ (iw_toAdd it) (iw_toAdd it)) by done. rewrite Ha. done. }
  assert (∀ rest (k : bool → prog iteratorWithDiff iteratorError bool), advances (k (0 <? zlen (uci_pairs (iw_base it)))) it3 rest →
    advances (let* it := get in if iw_isClosed it then λ s, (s, Crash ExplicitPanic) else let* ne := on_base uci_First in on_toAdd uci_Close ;;*
      modify (λ it, {| iw_base := iw_base it; iw_diff := iw_diff it; iw_current := iw_current it; iw_toAdd := Iterator range (toAdd (iw_diff it)); iw_isClosed := iw_isClosed it |}) ;;* k ne) it rest) as Hrun.
  { intros rest k (it' & Hw' & Hd' & Hres). exists it'. split; [done|]. split; [done|]. rewrite (bind_ret_l _ _ it it it) by done. rewrite Hc, (bind_ret_l _ _ _ _ _ (on_base_run _ it _ _ HF)), (bind_ret_l _ _ _ _ _ (on_toAdd_run uci_Close it1 _ _ HC)). exact Hres. }
  match goal with |- advances (bind get (λ i, _)) it ?rest => apply (Hrun rest (λ ne, if negb ne then if Len (toAdd (iw_diff it)) =? 0 then ret false else iw_Next
      else let* current := on_base uci_Get in modify (set_current current) ;;* if removed (iw_diff it) current then iw_Next else ret true)) end.
  destruct (uci_pairs (iw_base it)) as [|p ps] eqn:Ep.
  - cbn [negb]. rewrite filter_nil. simpl app. change (negb (0 <? zlen [])) with true. cbn iota. destruct (Len (toAdd (iw_diff it)) =? 0) eqn:El.
    + rewrite (range_nil _ El). exists it3. split; [apply Hw3|done].
    + assert (remaining it3 = [] ++ range utxoEntry (toAdd (iw_diff it))) as Hrem by (unfold remaining, ahead; simpl; rewrite Ep; done). simpl in Hrem. rewrite <- Hrem. apply iw_Next_spec, Hw3.
  - assert (0 <? zlen (p :: ps) = true) as -> by (apply Z.ltb_lt; rewrite zlen_cons; pose proof (zlen_nonneg ps); lia). cbn [negb].
    assert (uci_Get b1 = (b1, Ret p)) as HG by (unfold uci_Get; rewrite (bind_ret_l _ _ b1 b1 b1) by done; simpl; by rewrite Hb, Ep).
    assert (remaining (set_current p it3) = filter (keeps (iw_diff it)) ps ++ range utxoEntry (toAdd (iw_diff it))) as Hrem by (unfold remaining, ahead; simpl; by rewrite Ep).
    assert (∀ rest, advances (if removed (iw_diff it) p then iw_Next else ret true) (set_current p it3) rest →
      advances (let* current := on_base uci_Get in modify (set_current current) ;;* if removed (iw_diff it) current then iw_Next else ret true) it3 rest) as Hrun2.
    { intros rest (it' & Hw' & Hd' & Hres). exists it'. split; [done|]. split; [done|]. rewrite (bind_ret_l _ _ _ _ _ (on_base_run uci_Get it3 _ _ HG)). exact Hres. }
    apply Hrun2. destruct (removed (iw_diff it) p) eqn:Er.
    + rewrite filter_cons_False by (unfold keeps; congruence). rewrite <- Hrem. apply iw_Next_spec, Hw3.
    + rewrite filter_cons_True by done. exists (set_current p it3). split; [apply Hw3|]. split; [done|]. simpl app. split; [done|]. by split.
Qed.

Lemma collectRest_spec fuel : ∀ it rest, walkable it → (length rest < fuel)%nat → match rest with [] => True | p :: ps => iw_current it = Some p ∧ remaining it = ps end →
  ∃ it', collectRest fuel (match rest with [] => false | _ => true end) it = (it', Ret (Some <$> rest)).
Proof using Type.
  induction fuel as [|fuel IH]; intros it rest Hw Hf Hrest; [lia|]. cbn [collectRest]. destruct rest as [|p ps]; [by exists it|]. destruct Hrest as [Hcur Hrem].
  rewrite (bind_ret_l iw_Get _ it it (Some p)) by (unfold iw_Get; rewrite (bind_ret_l _ _ it it it) by done; destruct Hw as (-> & _); by rewrite Hcur).
  destruct (iw_Next_spec it Hw) as (it' & Hw' & _ & Hres). rewrite Hrem in Hres. simpl in Hf. destruct (IH it' ps Hw') as (it2 & Hcol); [lia|by destruct ps; [|destruct Hres]|].
  exists it2. assert (iw_Next it = (it', Ret (match ps with [] => false | _ => true end))) as Hn by (by destruct ps; [|destruct Hres]).
  rewrite (bind_ret_l _ _ _ _ _ Hn), (bind_ret_l _ _ _ _ _ Hcol). done.
Qed.

Lemma collect_spec fuel it : walkable it → (length (everything it) < fuel)%nat → ∃ it', collect range fuel it = (it', Ret (Some <$> everything it)).
Proof using Hrange.
  intros Hw Hf. unfold collect. destruct (iw_First_spec it Hw) as (it1 & Hw1 & _ & Hres).
  destruct (collectRest_spec fuel it1 (everything it) Hw1 Hf) as (it2 & Hcol); [by destruct (everything it); [|destruct Hres]|].
  exists it2. assert (iw_First range it = (it1, Ret (match everything it with [] => false | _ => true end))) as Hn by (by destruct (everything it); [|destruct Hres]).
  rewrite (bind_ret_l _ _ _ _ _ Hn). exact Hcol.
Qed.

(** The pairs are those of the set after the diff. *)
Lemma everything_set (U : utxoCollection) it : uci_pairs (iw_base it) ≡ₚ map_to_list U → applicable U (iw_diff it) → everything it ≡ₚ map_to_list (apply_diff U (iw_diff it)).
Proof using Hrange.
  intros Hp [Hsub Hdisj]. unfold everything. set (d := iw_diff it) in *. rewrite (Hrange utxoEntry (toAdd d)), Hp.
  assert (∀ o e, (o, e) ∈ filter (keeps d) (map_to_list U) ↔ (U ∖ toRemove d) !! o = Some e) as Hkeep.
  { intros o e. rewrite list_elem_of_filter, elem_of_map_to_list, lookup_difference_Some. unfold keeps, removed, containsWithDAAScore, Get. simpl. destruct (toRemove d !! o) as [e'|] eqn:Er.
    - split; [|naive_solver]. intros [Hd Hu]. rewrite (lookup_weaken _ _ _ _ Er Hsub) in Hu. injection Hu as <-. by rewrite Z.eqb_refl in Hd.
    - naive_solver. }
  apply NoDup_Permutation; [|apply NoDup_map_to_list|].
  - apply NoDup_app. split_and!; [apply NoDup_filter, NoDup_map_to_list| |apply NoDup_map_to_list]. intros [o e] Hin%Hkeep Ha%elem_of_map_to_list. by eapply map_disjoint_spec.
  - intros [o e]. rewrite elem_of_app, Hkeep, !elem_of_map_to_list. unfold apply_diff. rewrite lookup_union_Some by done. naive_solver.
Qed.
End Walk.
