(* ===== verification/StoreProps.v ===== *)
(** * Properties of the stores

    The claims about the consensus stores, the chain of the headers, the UTXO set of the pruning point and its transfer, with instances, and the executions that show where the
    stores depart from what they mean to do. *)
From S2P Require Import Prelude Externalapi UtxoDiff Interval ReachabilityData Reachability DagTopology Ghostdag Traversal Hashing PastUtxo UtxoAcceptance PastUtxoSpec Stores ConsensusStores ChainStore PruningStore UtxoSync UtxoSyncSpec UtxoSerialization.
Import Traversal LRU StagedStore Cell BinarySerialization ConsensusState CountedStore DaaStore Table HeadersSelectedChain Pages Pruning Sync Reading Iterators.
Local Open Scope Z_scope.
Local Open Scope prog_scope.

Abbreviation hash := (list Z) (only parsing).
Abbreviation bytes := (list Z) (only parsing).

(** ** Instances of the parameters *)
(** One order in which [range] may go *)
Definition sample_range {K} `{Countable K} (A : Type) (m : gmap K A) : list (K * A) := map_to_list m.
Lemma sample_range_ok {K} `{Countable K} : enumerates (sample_range (K := K)).
Proof. by intros A m. Qed.

(** Entries written and read as in [SerializeUTXO] *)
Definition entryCodec : codec utxoEntry :=
  {| encode e := Some (serializeUTXOEntry [] e);
     decode b := match deserializeUTXOEntry b with ([], Ret e) => Some e | _ => None end |}.
Lemma entry_codable e : entry_ok e → codable entryCodec e.
Proof.
  intros He. exists (entry_bytes e). split.
  - done.
  - simpl. pose proof (entry_reads e He []) as Hr. rewrite app_nil_r in Hr. by rewrite Hr.
Qed.

(** ** The stores *)
Module StoreProps.
Section Staged.
Context {K V : Type} `{Countable K}.
Variable range : ∀ A, gmap K A → list (K * A).
Variable c : codec V.

(** C28: Whatever sequence of operations a client performs on a store, reading, testing, staging, deleting and committing, it gets the answers of two maps, what is committed and what is staged, whichever entries the cache evicts and in whatever
    order maps are enumerated; the cache never grows beyond its capacity. *)
Theorem store_refines (os : list (operation K V)) s a : enumerates range → represents c s a → Forall (op_ok c) os →
  ∃ s', store_run range c os s = (s', Some (snd (spec_run os a))) ∧ represents c s' (fst (spec_run os a)).
Proof. intros Hrange. by apply (store_run_spec range c Hrange). Qed.
End Staged.

Definition sample_operations : list (operation hash Z) := [OpStage [1] 7; OpGet [1]; OpCommit; OpStage [2] 8; OpCommit; OpDelete [1]; OpGet [1]; OpCommit; OpHas [1]; OpGet [2]].
Definition sample_replies : list (reply Z) := [RDone; RValue (Some 7); RDone; RDone; RDone; RDone; RValue (Some 7); RDone; RBool false; RValue (Some 8)].

Lemma store_refines_witness : ∃ s', store_run sample_range uint64Codec sample_operations (store_New 1) = (s', Some sample_replies).
Proof.
  destruct (store_refines sample_range uint64Codec sample_operations (store_New 1) {| ar_committed := ∅; ar_adds := ∅; ar_deletes := ∅ |}) as (s' & Hrun & _).
  - apply sample_range_ok.
  - split; simpl; try done. intros k v [Hk|Hk]; by rewrite lookup_empty in Hk.
  - repeat constructor; apply uint64_codable; lia.
  - exists s'. rewrite Hrun. vm_compute. done.
Defined.

(** Staging again what was deleted in the same area loses it: the deletion wins at the commit. *)
Example staged_after_delete_lost :
  snd (store_run sample_range uint64Codec [OpStage [1] 7; OpCommit; OpDelete [1]; OpStage [1] 9; OpGet [1]; OpCommit; OpGet [1]] (store_New 5)) =
  Some [RDone; RDone; RDone; RDone; RValue (Some 9); RDone; RValue None].
Proof. vm_compute. reflexivity. Qed.
(** Deleting what was staged over a committed value brings the committed value back. *)
Example delete_staged_keeps_committed :
  snd (store_run sample_range uint64Codec [OpStage [1] 7; OpCommit; OpStage [1] 9; OpDelete [1]; OpCommit; OpGet [1]] (store_New 5)) =
  Some [RDone; RDone; RDone; RDone; RDone; RValue (Some 7)].
Proof. vm_compute. reflexivity. Qed.
(** Staging a block that is there already counts it twice. *)
Example counted_twice :
  let s0 := {| co_store := store_New 5; co_countDb := None; co_countCached := 0 |} in
  let stage := counted_Stage (V := Z) [1] 7 ;;* counted_Commit sample_range uint64Codec in
  let s1 := counted_NewArea (fst (stage s0)) in
  co_countCached (fst (stage s1)) = 2.
Proof. vm_compute. reflexivity. Qed.
(** Deleting the DAA data of a block keeps its score. *)
Example score_survives :
  let s0 := {| ds_scores := store_New 5; ds_addedBlocks := store_New 5 |} in
  let area s := {| ds_scores := store_NewArea (ds_scores s); ds_addedBlocks := store_NewArea (ds_addedBlocks s) |} in
  let s1 := area (fst ((StageDAAScore [1] 7 ;;* daaStore_Commit sample_range) s0)) in
  let s2 := area (fst ((daaStore_Delete [1] ;;* daaStore_Commit sample_range) s1)) in
  snd (daaStore_DAAScore sample_range [1] s2) = Ret 7.
Proof. vm_compute. reflexivity. Qed.

Section Utxos.
Variable range : ∀ A, gmap DomainOutpoint A → list (DomainOutpoint * A).
Variable c : codec utxoEntry.

(** While a diff is staged the store of the virtual's UTXO set answers with the set after the diff, for every outpoint the diff does not both remove and add, and committing it makes that set the committed one; reads through
    the cache and the database agree with it. *)
Theorem utxo_store_refines s U : enumerates range → utxo_set c s U → cs_importing s = false →
  (∀ d o e, cs_virtualUTXODiffStaging s = Some d → toAdd d !! o = Some e → codable c e) →
  (∀ o, (∀ d, cs_virtualUTXODiffStaging s = Some d → is_Some (toRemove d !! o) → toAdd d !! o = None) →
     match after U (cs_virtualUTXODiffStaging s) !! o with
     | Some e => snd (UTXOByOutpoint range c o s) = Ret e
     | None => snd (UTXOByOutpoint range c o s) = Fail ErrDatabaseNotFound ∨ snd (UTXOByOutpoint range c o s) = Fail ErrOutpointNotFound
     end) ∧
  ∃ s', commitVirtualUTXODiff range c s = (s', Ret ()) ∧ utxo_set c s' (after U (cs_virtualUTXODiffStaging s)).
Proof.
  intros Hrange Hs Himp Hcod. split.
  - intros o Ho. destruct (UTXOByOutpoint_spec range c Hrange s U o Hs) as (s' & answer & -> & _ & _ & Ha). by rewrite (seen_after U _ o Ho) in Ha.
  - destruct (commitVirtualUTXODiff_spec range c Hrange s U Hs Himp Hcod) as (s' & Hrun & Hs' & _). by exists s'.
Qed.
End Utxos.

Definition sample_outpoint : DomainOutpoint := {| op_TransactionID := replicate 32 1; op_Index := 0 |}.
Definition sample_outpoint2 : DomainOutpoint := {| op_TransactionID := replicate 32 2; op_Index := 5 |}.
Definition sample_entry : utxoEntry := {| ue_amount := 100; ue_scriptPublicKey := {| spk_Script := [81]; spk_Version := 0 |}; ue_blockDAAScore := 3; ue_isCoinbase := true |}.
Lemma sample_entry_ok : entry_ok sample_entry.
Proof. unfold entry_ok, maxAlloc, are_bytes, is_byte, zlen. simpl. split_and!; try lia. apply Forall_singleton. lia. Qed.
Definition sample_diff : diff := {| toAdd := {[ sample_outpoint := sample_entry ]}; toRemove := ∅ |}.
Definition sample_state (staged : option diff) : consensusStateStore :=
  {| cs_utxos := ∅; cs_virtualUTXOSetCache := lru_New 1; cs_importing := false; cs_virtualUTXODiffStaging := staged; cs_tips := {| ce_db := None; ce_cache := None; ce_staged := None |} |}.
Lemma sample_state_ok staged : utxo_set entryCodec (sample_state staged) ∅.
Proof. split; simpl; try done. Qed.

Lemma utxo_store_refines_witness : snd (UTXOByOutpoint sample_range entryCodec sample_outpoint (sample_state (Some sample_diff))) = Ret sample_entry ∧
  ∃ s', commitVirtualUTXODiff sample_range entryCodec (sample_state (Some sample_diff)) = (s', Ret ()) ∧ utxo_set entryCodec s' (apply_diff ∅ sample_diff).
Proof.
  destruct (utxo_store_refines sample_range entryCodec (sample_state (Some sample_diff)) ∅ sample_range_ok (sample_state_ok _) eq_refl) as [Hread Hcommit].
  - intros d o e [= <-] Ha. simpl in Ha. apply lookup_singleton_Some in Ha as [_ <-]. apply entry_codable, sample_entry_ok.
  - split; [|exact Hcommit]. specialize (Hread sample_outpoint). assert (after ∅ (Some sample_diff) !! sample_outpoint = Some sample_entry) as E by (vm_compute; reflexivity).
    simpl in Hread. simpl in E. rewrite E in Hread. apply Hread. intros d [= <-] [e He]. simpl in He. by rewrite lookup_empty in He.
Defined.

(** An outpoint that a staged diff removes and adds again is not seen before the commit, and is after it. *)
Example removed_and_added :
  let d := {| toAdd := {[ sample_outpoint := sample_entry ]}; toRemove := {[ sample_outpoint := sample_entry ]} |} in
  let s := sample_state (Some d) in
  snd (UTXOByOutpoint sample_range entryCodec sample_outpoint s) = Fail ErrOutpointNotFound ∧
  snd (UTXOByOutpoint sample_range entryCodec sample_outpoint (let s' := fst (commitVirtualUTXODiff sample_range entryCodec s) in
         {| cs_utxos := cs_utxos s'; cs_virtualUTXOSetCache := cs_virtualUTXOSetCache s'; cs_importing := false; cs_virtualUTXODiffStaging := None; cs_tips := cs_tips s' |})) = Ret sample_entry.
Proof. vm_compute. done. Qed.
End StoreProps.

(** ** The chain of the headers *)
Module ChainProps.
(** [path] replaces the last blocks of the chain. *)
Inductive change (chain : list hash) (path : SelectedChainPath) (chain' : list hash) : Prop :=
  | change_end kept old : chain = kept ++ old → old ≡ₚ scp_Removed path → chain' = kept ++ scp_Added path → scp_Added path ≠ [] → NoDup chain' →
      Forall (λ h, zlen h = 32) (scp_Added path) → zlen chain + zlen (scp_Added path) < 2 ^ 64 → change chain path chain'.
Inductive evolves : list hash → list SelectedChainPath → list hash → Prop :=
  | evolves_nil chain : evolves chain [] chain
  | evolves_cons chain path chain1 paths chain2 : change chain path chain1 → evolves chain1 paths chain2 → evolves chain (path :: paths) chain2.

Section Chain.
Variable rangeHash : ∀ A, gmap hash A → list (hash * A).
Variable rangeIndex : ∀ A, gmap Z A → list (Z * A).

(** A change in a staging area of its own *)
Definition chain_update (path : SelectedChainPath) : prog chainStore storeError unit :=
  chain_Stage rangeHash path ;;* chain_Commit rangeHash rangeIndex ;;* modify chain_NewArea.
Fixpoint chain_updates (paths : list SelectedChainPath) : prog chainStore storeError unit :=
  match paths with
  | [] => ret ()
  | path :: paths => chain_update path ;;* chain_updates paths
  end.

(** The store answers with this chain. *)
Definition shows (s : chainStore) (chain : list hash) : Prop :=
  (∀ h, answers (λ i, block_at chain h i) (snd (GetIndexByHash rangeHash h s))) ∧ (∀ i, answers (λ h, block_at chain h i) (snd (GetHashByIndex rangeIndex i s))).

Hypothesis HrangeHash : enumerates rangeHash.
Hypothesis HrangeIndex : enumerates rangeIndex.

(** While a change is staged the new chain is shown. *)
Lemma held_shows s chain : held s chain → shows s chain.
Proof using HrangeHash HrangeIndex.
  intros Hs. split; [intros h; by destruct (held_index rangeHash HrangeHash s chain h Hs) as (s' & o & -> & _ & Ho)|intros i; by destruct (held_hash rangeIndex HrangeIndex s chain i Hs) as (s' & o & -> & _ & Ho)].
Qed.

Lemma change_staged s chain path chain' : ok s chain [] 0 [] → change chain path chain' →
  ∃ s1 s2, chain_Stage rangeHash path s = (s1, Ret ()) ∧ shows s1 chain' ∧ chain_update path s = (s2, Ret ()) ∧ ok s2 chain' [] 0 [].
Proof using HrangeHash HrangeIndex.
  intros Hs [kept old -> Hperm -> Hne Hnd H32 Hlen]. rewrite zlen_app in Hlen. pose proof (zlen_nonneg old). destruct path as [new removed]. simpl in *.
  destruct (chain_Stage_spec rangeHash HrangeHash s kept old removed new Hs Hperm) as (s1 & Hrun1 & Hs1); [by apply NoDup_app in Hnd as (_ & _ & ?)|done|].
  destruct (chain_Commit_spec rangeHash rangeIndex HrangeHash HrangeIndex s1 kept old removed new Hs1 Hperm Hnd Hne H32) as (s2 & Hrun2 & Hs2); [lia|].
  exists s1, (chain_NewArea s2). split; [done|]. split; [apply held_shows; by exists kept, old, removed, new|]. split; [|done]. unfold chain_update. by rewrite (bind_ret_l _ _ _ _ _ Hrun1), (bind_ret_l _ _ _ _ _ Hrun2).
Qed.

Lemma chain_updates_ok paths : ∀ s chain chain', ok s chain [] 0 [] → evolves chain paths chain' → ∃ s', chain_updates paths s = (s', Ret ()) ∧ ok s' chain' [] 0 [].
Proof using HrangeHash HrangeIndex.
  induction paths as [|path paths IH]; intros s chain chain' Hs Hev; inversion Hev as [|? ? chain1 ? ? Hch Hev']; subst; [by exists s|].
  destruct (change_staged s chain path chain1 Hs Hch) as (_ & s2 & _ & _ & Hrun & Hs2). destruct (IH s2 chain1 chain' Hs2 Hev') as (s3 & Hrun3 & Hs3).
  exists s3. split; [|done]. simpl. by rewrite (bind_ret_l _ _ _ _ _ Hrun).
Qed.

Lemma new_ok capacity : 0 ≤ capacity → ok (chain_New capacity) [] [] 0 [].
Proof using Type.
  intros Hc. assert (∀ h i, ¬ block_at [] h i) as Hno by (intros h i [_ Hi]; by rewrite lookup_nil in Hi).
  split; simpl; try done; try (by left).
  - exists ∅. split; [split; simpl; try done|]. intros h i. rewrite lookup_empty. split; [done|]. by intros ?%Hno.
  - exists ∅. split; [split; simpl; try done|]. intros h i. rewrite lookup_empty. split; [done|]. by intros ?%Hno.
  - intros h. rewrite lookup_empty, elem_of_nil. split; [by intros []|done].
  - intros i. rewrite lookup_empty. split; [by intros []|by intros (? & ?%elem_of_nil & _)].
  - intros h i. rewrite lookup_empty. split; [done|]. by intros ?%Hno.
  - intros i h. rewrite lookup_empty. split; [done|]. by intros ?%Hno.
Qed.
End Chain.

(** After any sequence of changes that each replace the last blocks of the chain, every change in a staging area of its own, the store of the headers' selected chain answers with exactly the chain as a list: the index of every block of it, the block of every index,
    and nothing else; and while a further change is staged it answers with the changed chain. *)
Theorem chain_store_refines rangeHash rangeIndex capacity paths chain path chain' : enumerates rangeHash → enumerates rangeIndex → 0 ≤ capacity →
  evolves [] paths chain → change chain path chain' →
  ∃ s s1, chain_updates rangeHash rangeIndex paths (chain_New capacity) = (s, Ret ()) ∧ shows rangeHash rangeIndex s chain ∧
    chain_Stage rangeHash path s = (s1, Ret ()) ∧ shows rangeHash rangeIndex s1 chain'.
Proof.
  intros HrH HrI Hc Hev Hch. destruct (chain_updates_ok rangeHash rangeIndex HrH HrI paths _ _ _ (new_ok capacity Hc) Hev) as (s & Hrun & Hs).
  destruct (change_staged rangeHash rangeIndex HrH HrI s chain path chain' Hs Hch) as (s1 & _ & Hst & Hsh & _). exists s, s1. split; [done|]. split; [|done].
  by apply (held_shows rangeHash rangeIndex HrH HrI), ok_held.
Qed.

Definition sample_block (n : Z) : hash := replicate 32 n.
Definition sample_growth : SelectedChainPath := {| scp_Added := [sample_block 1; sample_block 2]; scp_Removed := [] |}.
Definition sample_reorg : SelectedChainPath := {| scp_Added := [sample_block 3; sample_block 4]; scp_Removed := [sample_block 2] |}.
Lemma chain_store_refines_witness :
  ∃ s s1, chain_updates sample_range sample_range [sample_growth] (chain_New 1) = (s, Ret ()) ∧ shows sample_range sample_range s [sample_block 1; sample_block 2] ∧
    chain_Stage sample_range sample_reorg s = (s1, Ret ()) ∧ shows sample_range sample_range s1 [sample_block 1; sample_block 3; sample_block 4].
Proof.
  apply (chain_store_refines sample_range sample_range 1 [sample_growth] [sample_block 1; sample_block 2] sample_reorg); [apply sample_range_ok..|lia| |].
  - apply (evolves_cons _ _ [sample_block 1; sample_block 2]); [|apply evolves_nil].
    apply (change_end _ _ _ [] []); try done; [apply (bool_decide_unpack _); vm_compute; exact I|repeat constructor].
  - apply (change_end _ _ _ [sample_block 1] [sample_block 2]); try done; [apply (bool_decide_unpack _); vm_compute; exact I|repeat constructor].
Defined.

(** A change that only removes blocks leaves a highest index of zero behind, and the next block gets the index 1 whatever the length of the chain. *)
Example removal_forgets_the_height :
  let removal := {| scp_Added := []; scp_Removed := [sample_block 4] |} in
  let growth := {| scp_Added := [sample_block 5]; scp_Removed := [] |} in
  let s := fst (chain_updates sample_range sample_range [sample_growth; sample_reorg; removal; growth] (chain_New 1)) in
  snd (GetIndexByHash sample_range (sample_block 3) s) = Ret 1 ∧ snd (GetIndexByHash sample_range (sample_block 5) s) = Ret 1.
Proof. vm_compute. done. Qed.
End ChainProps.

(** ** The UTXO set of the pruning point *)
Module PruningStoreProps.
(** Updating the UTXO set of the pruning point makes it the set after the diff; an update that stops after any number of its writes and is started again, with its entries in another order, gives the same set. *)
Theorem update_recovers range range' c n d s U : enumerates range → enumerates range' → (∀ o e, toAdd d !! o = Some e → codable c e) → (∀ o, ps_pruningPointUTXOSet s !! o = U !! o ≫= encode c) →
  ∃ s1 s2, interruptedUpdate range c n d s = (s1, Ret ()) ∧ UpdatePruningPointUTXOSet range' c d s1 = (s2, Ret ()) ∧
    (∀ o, ps_pruningPointUTXOSet s2 !! o = apply_diff U d !! o ≫= encode c) ∧
    ∃ s3, UpdatePruningPointUTXOSet range c d s = (s3, Ret ()) ∧ ps_pruningPointUTXOSet s3 = ps_pruningPointUTXOSet s2.
Proof.
  intros Hr Hr' Hcod HU. destruct (interruptedUpdate_spec range c Hr n d s Hcod) as (m1 & Hrun1 & Hm1).
  destruct (UpdatePruningPointUTXOSet_spec range' c Hr' d (put_utxoSet (λ _, m1) s) Hcod) as (m2 & Hrun2 & Hm2). destruct (UpdatePruningPointUTXOSet_spec range c Hr d s Hcod) as (m3 & Hrun3 & Hm3).
  assert (∀ o, m2 !! o = m3 !! o) as Heq.
  { intros o. rewrite Hm2, Hm3. unfold updated. simpl. destruct (toAdd d !! o) eqn:Ea; [done|]. destruct (Contains (toRemove d) o) eqn:Ec; [done|]. by apply Hm1. }
  eexists _, _. split; [exact Hrun1|]. split; [exact Hrun2|]. split.
  - intros o. simpl. rewrite Heq, Hm3. by apply updated_set.
  - eexists. split; [exact Hrun3|]. simpl. apply map_eq. intros o. by rewrite Heq.
Qed.

Definition empty_cell : cell hash := {| ce_db := None; ce_cache := None; ce_staged := None |}.
Definition sample_pruning : pruningStore :=
  {| ps_pruningPoint := empty_cell; ps_previous := empty_cell; ps_candidate := empty_cell; ps_updating := true; ps_startUpdating := false;
     ps_pruningPointUTXOSet := ∅; ps_importedUTXOs := ∅; ps_importedMultiset := None |}.
Lemma update_recovers_witness :
  ∃ s1 s2, interruptedUpdate sample_range entryCodec 0 StoreProps.sample_diff sample_pruning = (s1, Ret ()) ∧ UpdatePruningPointUTXOSet sample_range entryCodec StoreProps.sample_diff s1 = (s2, Ret ()) ∧
    (∀ o, ps_pruningPointUTXOSet s2 !! o = apply_diff ∅ StoreProps.sample_diff !! o ≫= encode entryCodec) ∧
    ∃ s3, UpdatePruningPointUTXOSet sample_range entryCodec StoreProps.sample_diff sample_pruning = (s3, Ret ()) ∧ ps_pruningPointUTXOSet s3 = ps_pruningPointUTXOSet s2.
Proof.
  apply (update_recovers sample_range sample_range entryCodec 0 StoreProps.sample_diff sample_pruning ∅); [apply sample_range_ok..| |done].
  intros o e Ha. simpl in Ha. apply lookup_singleton_Some in Ha as [_ <-]. apply entry_codable, StoreProps.sample_entry_ok.
Defined.

(** After a restart the candidate is read from the key of the pruning point. *)
Example candidate_after_restart :
  let s := {| ps_pruningPoint := {| ce_db := Some (ChainProps.sample_block 1); ce_cache := None; ce_staged := None |}; ps_previous := empty_cell;
              ps_candidate := {| ce_db := Some (ChainProps.sample_block 2); ce_cache := None; ce_staged := None |}; ps_updating := false; ps_startUpdating := false;
              ps_pruningPointUTXOSet := ∅; ps_importedUTXOs := ∅; ps_importedMultiset := None |} in
  snd (PruningPointCandidate hashCodec s) = Ret (ChainProps.sample_block 1).
Proof. vm_compute. reflexivity. Qed.

(** A serialized UTXO reads back as the entry and outpoint it was written from, whatever follows it, and every byte string that is read as an entry and an outpoint starts with exactly their serialization. *)
Theorem utxo_serialization_roundtrip e o : entry_ok e → outpoint_ok o →
  (∀ rest, DeserializeUTXO (SerializeUTXO e o ++ rest) = Ret (e, o)) ∧ (∀ bs, are_bytes bs → DeserializeUTXO bs = Ret (e, o) → ∃ rest, bs = SerializeUTXO e o ++ rest).
Proof.
  intros He Ho. split; [intros rest; by apply DeserializeUTXO_reads|]. intros bs Hbs Hd. destruct (DeserializeUTXO_inv bs e o Hbs Hd) as (rest & -> & _). by exists rest.
Qed.

Lemma utxo_serialization_roundtrip_witness : DeserializeUTXO (SerializeUTXO StoreProps.sample_entry StoreProps.sample_outpoint ++ []) = Ret (StoreProps.sample_entry, StoreProps.sample_outpoint).
Proof.
  refine (proj1 (utxo_serialization_roundtrip StoreProps.sample_entry StoreProps.sample_outpoint StoreProps.sample_entry_ok _) []).
  split; [split; [apply Forall_replicate; unfold is_byte; lia|done]|simpl; lia].
Defined.

(** Walking with First and Next over an iterator with a diff never panics and gives, each once, exactly the entries of the base set after the diff. *)
Theorem iterator_with_diff_correct range base d U : enumerates range → uci_isClosed base = false → -1 ≤ uci_index base → uci_pairs base ≡ₚ map_to_list U → applicable U d →
  ∃ it' pairs, collect range (Datatypes.S (size (apply_diff U d))) (IteratorWithDiff range base d) = (it', Ret (Some <$> pairs)) ∧ pairs ≡ₚ map_to_list (apply_diff U d).
Proof.
  intros Hr Hc Hi Hp Happ. set (it := IteratorWithDiff range base d). assert (walkable it) as Hw by (split_and!; simpl; done || lia).
  pose proof (everything_set range Hr U it Hp Happ) as Hev. destruct (collect_spec range Hr (Datatypes.S (size (apply_diff U d))) it Hw) as (it' & Hrun).
  - rewrite Hev. rewrite length_map_to_list.
    apply Nat.lt_succ_diag_r.
  - by exists it', (everything range it).
Qed.
Lemma iterator_with_diff_correct_witness :
  ∃ it' pairs, collect sample_range (Datatypes.S (size (apply_diff ∅ StoreProps.sample_diff))) (IteratorWithDiff sample_range (Iterator sample_range ∅) StoreProps.sample_diff) = (it', Ret (Some <$> pairs)) ∧
    pairs ≡ₚ map_to_list (apply_diff ∅ StoreProps.sample_diff).
Proof.
  apply (iterator_with_diff_correct sample_range (Iterator sample_range ∅) StoreProps.sample_diff ∅); [apply sample_range_ok|done|simpl; lia|done|].
  split; [done|]. simpl. apply map_disjoint_singleton_l_2. apply (bool_decide_unpack _). vm_compute. exact I.
Defined.
End PruningStoreProps.

(** ** Sending a UTXO set *)
Module SyncProps.
Section Sync.
Context `{MuHashOk}.
Variable utxoEntryCodec : codec utxoEntry.
Variable multisetCodec : codec muhash.
Variable cursor : gmap DomainOutpoint bytes → list (DomainOutpoint * bytes).
Variable utxoSetOf : hash → gmap DomainOutpoint bytes.
Variables (h : hash) (E : list (DomainOutpoint * utxoEntry)).

(** The sender's UTXO set of the pruning point [h] is [E]; what the receiver writes can be read. *)
Record transferable : Prop := {
  tr_entries : decodes utxoEntryCodec (cursor (utxoSetOf h)) E;
  tr_nodup : NoDup E.*1;
  tr_codable : ∀ o e, (o, e) ∈ E → codable utxoEntryCodec e;
  tr_multiset : ∀ m, ∃ b m', encode multisetCodec m = Some b ∧ decode multisetCodec b = Some m' ∧ ms_equiv m' m
}.

Abbreviation sync_moves := (moves utxoEntryCodec multisetCodec cursor step ibdBatchSize utxoSetOf) (only parsing).

(** C26: However the two flows interleave, with block announcements, timeouts and moves of the sender's pruning point at any time, at most 102 messages of the transfer are under way, and a receiver that reports that it has received everything has imported exactly the sender's UTXO set
    of the pruning point it asked for, with a multiset equivalent to that of the set. *)
Theorem utxo_sync_safe pp store y : transferable → imported utxoEntryCodec multisetCodec store [] →
  rtc (λ y y', sync_moves y y' ∨ disturbs y y') (started pp h store) y →
  (length (noinv (sy_messages y)) ≤ 102)%nat ∧ (sy_receiver y = RReceived true → imported utxoEntryCodec multisetCodec (sy_store y) E).
Proof using H0.
  intros [HE Hnd Hcod Hms] Hi Hr. destruct (inv_reach utxoEntryCodec multisetCodec cursor 1000 100 utxoSetOf h E ltac:(lia) ltac:(lia) HE Hnd Hcod Hms pp store y Hi Hr) as (n & Hinv). split.
  - apply (in_flight utxoEntryCodec multisetCodec 1000 100 h E ltac:(lia) ltac:(lia) true y n Hinv).
  - by apply (inv_received utxoEntryCodec multisetCodec 1000 100 h E true y n).
Qed.

End Sync.

(** *** A transfer of one entry *)
Definition toyCodec : codec (muhash (MuHash := toy_muhash)) := {| encode m := Some [m]; decode b := head b |}.
Definition sample_entries : list (DomainOutpoint * utxoEntry) := [(StoreProps.sample_outpoint, StoreProps.sample_entry)].
Definition sample_sets (_ : hash) : gmap DomainOutpoint bytes := {[ StoreProps.sample_outpoint := entry_bytes StoreProps.sample_entry ]}.
Abbreviation sample_moves := (moves entryCodec toyCodec map_to_list step ibdBatchSize sample_sets) (only parsing).

Lemma sample_transferable h : transferable entryCodec toyCodec map_to_list sample_sets h sample_entries.
Proof.
  split.
  - unfold sample_sets. rewrite map_to_list_singleton. constructor; [|constructor]. split; [done|]. vm_compute. reflexivity.
  - apply NoDup_singleton.
  - intros o e [= -> ->]%list_elem_of_singleton. apply entry_codable, StoreProps.sample_entry_ok.
  - intros m. exists [m], m. done.
Qed.
Lemma sample_imported : imported entryCodec toyCodec PruningStoreProps.sample_pruning [].
Proof. split; [intros o; done|]. exists 0. done. Qed.

(** One move of the sender or of the receiver *)
Definition senderTurn (y : system) : option system :=
  match senderMove entryCodec map_to_list step ibdBatchSize sample_sets (sy_pruningPoint y) (sy_sender y) (sy_requests y) with
  | Some (s, ms, rest) => Some {| sy_pruningPoint := sy_pruningPoint y; sy_sender := s; sy_requests := rest; sy_messages := sy_messages y ++ ms; sy_receiver := sy_receiver y; sy_store := sy_store y |}
  | None => None
  end.
Definition receiverTurn (y : system) : option system :=
  match receiverMove entryCodec toyCodec ibdBatchSize (sy_receiver y) (sy_store y) (sy_messages y) with
  | Some (r, store, rs, rest) => Some {| sy_pruningPoint := sy_pruningPoint y; sy_sender := sy_sender y; sy_requests := sy_requests y ++ rs; sy_messages := rest; sy_receiver := r; sy_store := store |}
  | None => None
  end.
Fixpoint turns (schedule : list bool) (y : system) : option system :=
  match schedule with
  | [] => Some y
  | turn :: schedule => y ← (if turn then senderTurn y else receiverTurn y); turns schedule y
  end.
Lemma turns_moves schedule : ∀ y y', turns schedule y = Some y' → nsteps sample_moves (length schedule) y y'.
Proof.
  induction schedule as [|turn schedule IH]; intros y y' Ht; [injection Ht as ->; constructor|]. cbn [turns] in Ht.
  destruct (if turn then senderTurn y else receiverTurn y) as [y1|] eqn:E1; [|done]. apply (nsteps_l _ _ _ y1); [|by apply IH]. destruct turn.
  - unfold senderTurn in E1. destruct (senderMove _ _ _ _ _ _ _ _) as [[[s ms] rest]|] eqn:Em; [|done]. injection E1 as <-. by apply sender_moves.
  - unfold receiverTurn in E1. destruct (receiverMove _ _ _ _ _ _) as [[[[r st] rs] rest]|] eqn:Em; [|done]. injection E1 as <-. by apply receiver_moves.
Qed.

Definition sample_schedule : list bool := [false; true; true; true; true; false; false; false].
Lemma sample_transfer : ∃ y, turns sample_schedule (started [7] [7] PruningStoreProps.sample_pruning) = Some y ∧ sy_receiver y = RReceived true.
Proof. eexists. split; vm_compute; reflexivity. Qed.

Lemma utxo_sync_safe_witness : ∃ y, sy_receiver y = RReceived true ∧ imported entryCodec toyCodec (sy_store y) sample_entries.
Proof.
  destruct sample_transfer as (y & Hturns & Hrec). exists y. split; [exact Hrec|].
  refine (proj2 (utxo_sync_safe entryCodec toyCodec map_to_list sample_sets [7] sample_entries [7] PruningStoreProps.sample_pruning y (sample_transferable [7]) sample_imported _) Hrec).
  apply (rtc_subrel sample_moves); [intros y1 y2 Hm; left; exact Hm|]. exact (rtc_nsteps_2 _ _ _ (turns_moves _ _ _ Hturns)).
Defined.


(** *** Departures *)
(** An entry that cannot be read ends the transfer as if it were complete. *)
Definition unreadable (_ : hash) : gmap DomainOutpoint bytes := {[ StoreProps.sample_outpoint := [255] ]}.
Example read_errors_are_dropped :
  senderLoop entryCodec map_to_list step ibdBatchSize unreadable [7] [7] None 0 = (SFinish, MsgPruningPointUTXOSetChunk []).
Proof. vm_compute. reflexivity. Qed.

(** With batches of two chunks and chunks of one entry, so that the last chunk fills its batch: the block, the chunks and the end of the transfer, two messages more than a batch, are sent before any is read, and the receiver's request for more reaches a sender that has finished, which takes it for a protocol violation of the peer. *)
Example last_batch_full :
  let move := senderMove entryCodec map_to_list 1 2 sample_sets [7] in
  let receive := receiverMove entryCodec toyCodec 2 in
  let chunks := match move (SLoop [7] None 0) [] with Some (s, m1, _) => match move s [] with Some (_, m2, _) => m1 ++ m2 | None => [] end | None => [] end in
  let finished := match move (SLoop [7] None 0) [] with Some (s, _, _) => match move s [] with Some (s, _, _) => s | None => SCrashed end | None => SCrashed end in
  length chunks = 2%nat ∧ finished = SFinish ∧ move SFinish [] = Some (SIdle, [MsgDonePruningPointUTXOSetChunks], []) ∧
  match receive (RChunks 1) PruningStoreProps.sample_pruning (drop 1 chunks) with Some (_, _, requests, _) => requests | None => [] end = [MsgRequestNextPruningPointUTXOSetChunk] ∧
  move SIdle [MsgRequestNextPruningPointUTXOSetChunk] = Some (SFailed true, [], []).
Proof. vm_compute. split_and!; reflexivity. Qed.
End SyncProps.
