(* ===== verification/PruningManager.v ===== *)
(** * The pruning manager (processes/pruningmanager)

    A node keeps the bodies of the blocks above its pruning point and the UTXO set of that point.  When the virtual block has moved the manager looks, from
    the current candidate up the selected chain, for the last block that is deep enough; the pruning point moves to the first block of a new
    finality interval on the way.  The update itself happens in a second step: the UTXO set is moved over the chains of UTXO diffs, and the
    past of the pruning point is deleted. *)
From S2P Require Import Prelude Externalapi UtxoDiff ScriptNum ScriptStack OpcodeTable Script Hashing SigCache Opcode Engine.
From S2P Require Import Interval ReachabilityData Reachability ReachabilityTree ReachabilityAdd DagTopology Block Merkle Ghostdag Heap Window DifficultyManager Traversal HeaderValidation TransactionValidator PastUtxo Coinbase VerifyUtxo ResolveStatus VirtualBlock Stores PruningStore UtxoSync.
Import TransactionHashing SigCache Opcode BlockHeap Ghostdag DifficultyManager DagTopology Traversal Header HeaderValidation TransactionValidator PastUtxo VerifyUtxo ResolveStatus VirtualBlock Pruning.
Local Open Scope Z_scope.
Local Open Scope prog_scope.

Abbreviation hash := (list Z) (only parsing).
Abbreviation bytes := (list Z) (only parsing).

(** [ErrClosedIterator] and [ErrUTXOSetMismatch] stand for unnamed errors. *)
Inductive pruningError :=
  | PruningVirtual (e : virtualError)
  | PruningStoreError (e : storeError)
  | PruningDag (e : reachabilityError)
  | ErrClosedIterator
  | ErrUTXOSetMismatch.

(** The parameters of the manager *)
Record pruningManager := {
  pm_isArchivalNode : bool;
  pm_genesisHash : hash;
  pm_finalityInterval : Z;
  pm_pruningDepth : Z;
  pm_shouldSanityCheckPruningUTXOSet : bool
}.

Module PruningManager.
Section Manager.
Context `{Libs} `{MuHash}.
Variable pm : pruningManager.
Variable rangeOutpoint : ∀ A, gmap DomainOutpoint A → list (DomainOutpoint * A).
Variable cursor : gmap DomainOutpoint bytes → list (DomainOutpoint * bytes).
(** The block hashes of the block store in the order of the database *)
Variable blockHashes : gmap hash DomainBlock → list hash.
Variable utxoEntryCodec : codec utxoEntry.
Variable hashMessageCodec : codec hash.

(** The stores of the virtual block, the pruning store, and the tip of the headers *)
Record pruningState := {
  pn_virtual : virtualState;
  pn_store : pruningStore;
  pn_headersSelectedTip : option hash
}.
Abbreviation pruning A := (prog pruningState pruningError A) (only parsing).

Definition put_virtual (v : virtualState) (s : pruningState) : pruningState :=
  {| pn_virtual := v; pn_store := pn_store s; pn_headersSelectedTip := pn_headersSelectedTip s |}.
Definition put_store (store : pruningStore) (s : pruningState) : pruningState :=
  {| pn_virtual := pn_virtual s; pn_store := store; pn_headersSelectedTip := pn_headersSelectedTip s |}.
Definition onVirtual {A} (m : prog virtualState virtualError A) : pruning A :=
  λ s, let '(v, o) := m (pn_virtual s) in (put_virtual v s, match o with Ret a => Ret a | Fail e => Fail (PruningVirtual e) | Crash c => Crash c end).
Definition onStore {A} (m : prog pruningStore storeError A) : pruning A :=
  λ s, let '(store, o) := m (pn_store s) in (put_store store s, match o with Ret a => Ret a | Fail e => Fail (PruningStoreError e) | Crash c => Crash c end).
(** The hash that a pointer refers to *)
Definition hashAt (o : option hash) : pruning hash := onVirtual (pointer o).

(** [ghostdagDataStore.Get] *)
Definition ghostdagOf (blockHash : hash) : pruning BlockGHOSTDAGData := onVirtual (dataOfBlock blockHash).

(** ** Choosing the pruning point *)
Definition finalityScore (blueScore : Z) : Z := blueScore / pm_finalityInterval pm.

Definition savePruningPoint (pruningPointHash : hash) : pruning unit :=
  (if bool_decide (pruningPointHash = pm_genesisHash pm) then ret ()
   else
     let* previousPruningPoint := onStore (PruningPoint hashMessageCodec) in
     onStore (StagePreviousPruningPoint previousPruningPoint)) ;;*
  onStore (StagePruningPoint pruningPointHash) ;;*
  onStore StageStartUpdatingPruningPointUTXOSet.

Definition pruningPointCandidate : pruning hash :=
  let* hasPruningPointCandidate := onStore HasPruningPointCandidate in
  if negb hasPruningPointCandidate then ret (pm_genesisHash pm)
  else onStore (PruningPointCandidate hashMessageCodec).

(** [iterator.Get] *)
Definition it_Get (it : selectedChildIterator) : outcome pruningError (option hash) :=
  if it_isClosed it then Fail ErrClosedIterator
  else match it_err it with
       | Some e => Fail (PruningDag e)
       | None => Ret (it_current it)
       end.

(** The candidate and the pruning point with their GHOSTDAG data *)
Record choice := {
  ch_candidate : hash;
  ch_candidateData : BlockGHOSTDAGData;
  ch_pruningPoint : hash;
  ch_pruningPointData : BlockGHOSTDAGData
}.

(** The body of the loop: [None] is [break]. *)
Definition considerChild (virtualSelectedParent : BlockGHOSTDAGData) (it : selectedChildIterator) (c : choice) : pruning (option choice) :=
  let* selectedChild := lift_outcome (it_Get it) in
  let* selectedChild := hashAt selectedChild in
  let* selectedChildGHOSTDAGData := ghostdagOf selectedChild in
  if GoInt.uint64 (blueScore virtualSelectedParent - blueScore selectedChildGHOSTDAGData) <? pm_pruningDepth pm then ret None
  else if finalityScore (blueScore (ch_pruningPointData c)) <? finalityScore (blueScore selectedChildGHOSTDAGData) then
    ret (Some {| ch_candidate := selectedChild; ch_candidateData := selectedChildGHOSTDAGData;
                 ch_pruningPoint := selectedChild; ch_pruningPointData := selectedChildGHOSTDAGData |})
  else
    ret (Some {| ch_candidate := selectedChild; ch_candidateData := selectedChildGHOSTDAGData;
                 ch_pruningPoint := ch_pruningPoint c; ch_pruningPointData := ch_pruningPointData c |}).

(** [for ok := iterator.First(); ok; ok = iterator.Next()] *)
Fixpoint chooseLoop (fuel : nat) (virtualSelectedParent : BlockGHOSTDAGData) (ok : bool) (it : selectedChildIterator) (c : choice) : pruning choice :=
  match fuel with
  | O => crash_with OutOfFuel
  | Datatypes.S fuel =>
      if ok then
        let* considered := considerChild virtualSelectedParent it c in
        match considered with
        | None => ret c
        | Some c =>
            let* next := onVirtual (dag (it_Next it)) in
            chooseLoop fuel virtualSelectedParent (fst next) (snd next) c
        end
      else ret c
  end.

(** The selected chain has at most the blocks of the reachability tree. *)
Definition chooseFuel : pruning nat :=
  let* s := get in ret (Datatypes.S (size (reachabilityDataStore (rt_of (consensus_of (pn_virtual s)))))).

Definition UpdatePruningPointByVirtual : pruning unit :=
  let* hasPruningPoint := onStore HasPruningPoint in
  (if negb hasPruningPoint then savePruningPoint (pm_genesisHash pm) else ret ()) ;;*
  let* currentCandidate := pruningPointCandidate in
  let* currentCandidateGHOSTDAGData := ghostdagOf currentCandidate in
  let* virtual := ghostdagOf VirtualBlockHash in
  let* virtualSelectedParentHash := hashAt (selectedParent virtual) in
  let* virtualSelectedParent := ghostdagOf virtualSelectedParentHash in
  let* currentPruningPoint := onStore (PruningPoint hashMessageCodec) in
  let* currentPruningPointGHOSTDAGData := ghostdagOf currentPruningPoint in
  let* iterator := onVirtual (dag (SelectedChildIterator virtualSelectedParentHash currentCandidate)) in
  let* fuel := chooseFuel in
  let* first := onVirtual (dag (it_First iterator)) in
  let* c := chooseLoop fuel virtualSelectedParent (fst first) (snd first)
    {| ch_candidate := currentCandidate; ch_candidateData := currentCandidateGHOSTDAGData;
       ch_pruningPoint := currentPruningPoint; ch_pruningPointData := currentPruningPointGHOSTDAGData |} in
  (if negb (bool_decide (ch_candidate c = currentCandidate)) then onStore (StagePruningPointCandidate (ch_candidate c)) else ret ()) ;;*
  if finalityScore (blueScore (ch_candidateData c)) <=? finalityScore (blueScore currentPruningPointGHOSTDAGData) then ret ()
  else if negb (bool_decide (ch_pruningPoint c = currentPruningPoint)) then savePruningPoint (ch_pruningPoint c)
  else ret ().

(** Whether a syncing node accepts a pruning point *)
Definition IsValidPruningPoint (blockHash : hash) : pruning bool :=
  if bool_decide (pm_genesisHash pm = blockHash) then ret true
  else
    let* s := get in
    let* headersSelectedTip :=
      match pn_headersSelectedTip s with
      | Some tip => ret tip
      | None => fail (PruningStoreError ErrDatabaseNotFound)
      end in
    let* headersSelectedTipGHOSTDAGData := ghostdagOf headersSelectedTip in
    let* isInSelectedParentChainOfHeadersSelectedTip := onVirtual (dag (IsInSelectedParentChainOf blockHash headersSelectedTip)) in
    if negb isInSelectedParentChainOfHeadersSelectedTip then ret false
    else
      let* ghostdagData := ghostdagOf blockHash in
      if GoInt.uint64 (blueScore headersSelectedTipGHOSTDAGData - blueScore ghostdagData) <? pm_pruningDepth pm then ret false
      else
        let* parent := hashAt (selectedParent ghostdagData) in
        let* selectedParentGHOSTDAGData := ghostdagOf parent in
        ret (negb (finalityScore (blueScore ghostdagData) =? finalityScore (blueScore selectedParentGHOSTDAGData))).

(** ** Deleting blocks *)

(** The [Delete] of the stores of multisets, acceptance data, blocks, UTXO diffs and DAA data *)
Definition deleteData (blockHash : hash) (r : resolveState) : resolveState :=
  let stores := rs_stores r in
  let cs := us_consensus stores in
  {| rs_stores :=
       {| us_consensus := put_daa {| daa_scores := delete blockHash (daa_scores (cs_daa cs)); daa_addedBlocks := delete blockHash (daa_addedBlocks (cs_daa cs)) |} cs;
          us_blocks := delete blockHash (us_blocks stores); us_virtualUTXO := us_virtualUTXO stores;
          us_utxoDiffs := delete blockHash (us_utxoDiffs stores); us_utxoDiffChildren := delete blockHash (us_utxoDiffChildren stores);
          us_multisets := delete blockHash (us_multisets stores) |};
     rs_statuses := rs_statuses r; rs_acceptanceData := delete blockHash (rs_acceptanceData r); rs_caches := rs_caches r |}.

(** [true]: it was pruned before *)
Definition deleteBlock (blockHash : hash) : pruning bool :=
  let* status := onVirtual (onResolve (statusOf blockHash)) in
  if bool_decide (status = StatusHeaderOnly) then ret true
  else
    onVirtual (onResolve (stageStatus blockHash StatusHeaderOnly)) ;;*
    if pm_isArchivalNode pm then ret false
    else onVirtual (onResolve (modify (deleteData blockHash))) ;;* ret false.

Fixpoint downwardLoop (fuel : nat) (visited : gset hash) (queue : blockHeap) : pruning unit :=
  match fuel with
  | O => crash_with OutOfFuel
  | Datatypes.S fuel =>
      if bh_Len queue =? 0 then ret ()
      else
        let* popped := onVirtual (onData (λ _, bh_Pop queue)) in
        let '(current, queue) := popped in
        if bool_decide (current ∈ visited) then downwardLoop fuel visited queue
        else
          let visited := {[ current ]} ∪ visited in
          let* alreadyPruned := deleteBlock current in
          if (alreadyPruned : bool) then downwardLoop fuel visited queue
          else
            let* parents := onVirtual (dag (dtm_Parents current)) in
            let* queue := onVirtual (onData (λ S, PushSlice S queue parents)) in
            downwardLoop fuel visited queue
  end.

(** Every block queues its parents at most once. *)
Definition deleteBlocksDownward (queue : blockHeap) : pruning unit :=
  let* s := get in
  downwardLoop (Datatypes.S (anticoneFuel (map hn_hash (bh_slice queue)) (dtm_of (consensus_of (pn_virtual s))))) ∅ queue.

Definition isInPruningFutureOrInVirtualPast (block pruningPoint : hash) (virtualParents : list hash) : pruning bool :=
  let* hasPruningPointInPast := onVirtual (dag (dtm_IsAncestorOf pruningPoint block)) in
  if (hasPruningPointInPast : bool) then ret true
  else onVirtual (dag (IsAncestorOfAny block virtualParents)).

(** [for _, tip := range dagTips]: the pruned tips and the new tips *)
Fixpoint splitTips (pruningPoint : hash) (virtualParents dagTips : list hash) : pruning (list hash * list hash) :=
  match dagTips with
  | [] => ret ([], [])
  | tip :: rest =>
      let* isIn := isInPruningFutureOrInVirtualPast tip pruningPoint virtualParents in
      let* others := splitTips pruningPoint virtualParents rest in
      ret (if isIn : bool then (fst others, tip :: snd others) else (tip :: fst others, snd others))
  end.

(** [StageTips] *)
Definition stageTips (tips : list hash) : pruning unit :=
  onVirtual (modify (λ v, {| vs_resolve := vs_resolve v; vs_tips := tips |})).

Definition pruneTips (pruningPoint : hash) (virtualParents : list hash) : pruning (list hash) :=
  let* s := get in
  let* split := splitTips pruningPoint virtualParents (vs_tips (pn_virtual s)) in
  stageTips (snd split) ;;*
  ret (fst split).

Definition deletePastBlocks (pruningPoint : hash) : pruning unit :=
  let* virtualParents := onVirtual (dag (dtm_Parents VirtualBlockHash)) in
  let* prunedTips := pruneTips pruningPoint virtualParents in
  let* queue := onVirtual (onData (λ S, PushSlice S NewDownHeap prunedTips)) in
  let* parents := onVirtual (dag (dtm_Parents pruningPoint)) in
  let* queue := onVirtual (onData (λ S, PushSlice S queue parents)) in
  deleteBlocksDownward queue.

(** The answer of [IsAncestorOf] is used as the code uses it: it is about the future of the pruning point. *)
Fixpoint pruneBelowLoop (pruningPointHash : hash) (hashes : list hash) : pruning unit :=
  match hashes with
  | [] => ret ()
  | blockHash :: rest =>
      let* isInPastOfPruningPoint := onVirtual (dag (dtm_IsAncestorOf pruningPointHash blockHash)) in
      (if (isInPastOfPruningPoint : bool) then deleteBlock blockHash ;;* ret () else ret ()) ;;*
      pruneBelowLoop pruningPointHash rest
  end.
Definition PruneAllBlocksBelow (pruningPointHash : hash) : pruning unit :=
  let* s := get in pruneBelowLoop pruningPointHash (blockHashes (us_blocks (rs_stores (vs_resolve (pn_virtual s))))).

(** ** Moving the UTXO set *)

(** Climb the diff children of the block with less blue work until both are the same: the diffs on the way from the previous and from the
    current pruning point. *)
Fixpoint climbLoop (fuel : nat) (currentPruningCurrentDiffChild previousPruningCurrentDiffChild : hash)
    (currentPruningCurrentDiffChildBlueWork previousPruningCurrentDiffChildBlueWork : Z) (diffsFromPrevious diffsFromCurrent : list diff) : pruning (list diff * list diff) :=
  match fuel with
  | O => crash_with OutOfFuel
  | Datatypes.S fuel =>
      if previousPruningCurrentDiffChildBlueWork <? currentPruningCurrentDiffChildBlueWork then
        let* utxoDiff := onVirtual (onResolve (UTXODiff previousPruningCurrentDiffChild)) in
        let* child := onVirtual (onResolve (UTXODiffChild previousPruningCurrentDiffChild)) in
        let* diffChildGhostDag := ghostdagOf child in
        climbLoop fuel currentPruningCurrentDiffChild child currentPruningCurrentDiffChildBlueWork (blueWork diffChildGhostDag) (diffsFromPrevious ++ [utxoDiff]) diffsFromCurrent
      else if bool_decide (currentPruningCurrentDiffChild = previousPruningCurrentDiffChild) then ret (diffsFromPrevious, diffsFromCurrent)
      else
        let* utxoDiff := onVirtual (onResolve (UTXODiff currentPruningCurrentDiffChild)) in
        let* child := onVirtual (onResolve (UTXODiffChild currentPruningCurrentDiffChild)) in
        let* diffChildGhostDag := ghostdagOf child in
        climbLoop fuel child previousPruningCurrentDiffChild (blueWork diffChildGhostDag) previousPruningCurrentDiffChildBlueWork diffsFromPrevious (diffsFromCurrent ++ [utxoDiff])
  end.

(** [for i := len(diffs) - 1; i >= 0; i--]: [WithDiffInPlace] *)
Definition accumulated (diffs : list diff) : pruning diff :=
  onVirtual (onResolve (accepting (accumulateDiffs (reverse diffs) (mkDiff ∅ ∅)))).

(** Each of the two visits a block with a diff at most once. *)
Definition calculateDiffBetweenPreviousAndCurrentPruningPoints (currentPruningHash : hash) : pruning diff :=
  if bool_decide (currentPruningHash = pm_genesisHash pm) then ret (mkDiff ∅ ∅)
  else
    let* previousPruningHash := onStore (PreviousPruningPoint hashMessageCodec) in
    let* currentPruningGhostDAG := ghostdagOf currentPruningHash in
    let* previousPruningGhostDAG := ghostdagOf previousPruningHash in
    let* s := get in
    let fuel := Datatypes.S (2 * size (us_utxoDiffs (rs_stores (vs_resolve (pn_virtual s))))) in
    let* diffs := climbLoop fuel currentPruningHash previousPruningHash (blueWork currentPruningGhostDAG) (blueWork previousPruningGhostDAG) [] [] in
    let* oldDiff := accumulated (fst diffs) in
    let* newDiff := accumulated (snd diffs) in
    onVirtual (onResolve (DiffFrom oldDiff newDiff)).

(** [utxoSetIterator]: the entries in the order of the database, each of which is deserialized *)
Fixpoint multisetOf (entries : list (DomainOutpoint * bytes)) (utxoSetMultiset : muhash) : outcome storeError muhash :=
  match entries with
  | [] => Ret utxoSetMultiset
  | (outpoint, serializedUTXOEntry) :: rest =>
      match decode utxoEntryCodec serializedUTXOEntry with
      | None => Fail ErrDeserialize
      | Some entry => multisetOf rest (ms_Add utxoSetMultiset (SerializeUTXO entry outpoint))
      end
  end.

Definition validateUTXOSetFitsCommitment (pruningPointHash : hash) : pruning unit :=
  let* utxoSetMultiset := onStore (let* store := get in lift_outcome (multisetOf (cursor (ps_pruningPointUTXOSet store)) ms_New)) in
  let utxoSetHash := ms_Hash utxoSetMultiset in
  let* header := onVirtual (onConsensus (reading HeaderGhostdag (λ cs, Get (cs_headers cs) pruningPointHash))) in
  if negb (bool_decide (hd_utxoCommitment header = utxoSetHash)) then fail ErrUTXOSetMismatch else ret ().

(** [staging.CommitAllChanges]: what was staged is what the readers saw. *)
Definition updatePruningPoint : pruning unit :=
  let* pruningPoint := onStore (PruningPoint hashMessageCodec) in
  let* utxoSetDiff := calculateDiffBetweenPreviousAndCurrentPruningPoints pruningPoint in
  onStore (UpdatePruningPointUTXOSet rangeOutpoint utxoEntryCodec utxoSetDiff) ;;*
  (if pm_shouldSanityCheckPruningUTXOSet pm then validateUTXOSetFitsCommitment pruningPoint else ret ()) ;;*
  deletePastBlocks pruningPoint ;;*
  onStore FinishUpdatingPruningPointUTXOSet.

Definition UpdatePruningPointIfRequired : pruning unit :=
  let* hadStartedUpdatingPruningPointUTXOSet := onStore HadStartedUpdatingPruningPointUTXOSet in
  if negb hadStartedUpdatingPruningPointUTXOSet then ret () else updatePruningPoint.
End Manager.
End PruningManager.
