(* ===== verification/PruningSpec.v ===== *)
(** * The choice of the pruning point

    The walk from the candidate up the selected chain: it ends at the last block that is deep enough, and the pruning point is
    the first block of its finality interval on the chain, which is what [IsValidPruningPoint] asks for. *)
From S2P Require Import Prelude Externalapi UtxoDiff ScriptNum ScriptStack OpcodeTable Script Hashing SigCache Opcode Engine.
From S2P Require Import Interval ReachabilityData Reachability ReachabilityTree ReachabilityAdd DagTopology Block Merkle Ghostdag Heap Window DifficultyManager Traversal HeaderValidation TransactionValidator PastUtxo Coinbase VerifyUtxo ResolveStatus VirtualBlock VirtualParents VirtualSelect Stores PruningStore UtxoSync PruningManager PastUtxoSpec UtxoDiffChain.
Import Interval Store Reachability TransactionHashing SigCache Opcode BlockHeap Ghostdag DifficultyManager DagTopology Traversal Header HeaderValidation TransactionValidator PastUtxo VerifyUtxo ResolveStatus VirtualBlock Cell Pruning PruningManager.
Local Open Scope Z_scope.
Local Open Scope prog_scope.

Abbreviation hash := (list Z) (only parsing).
Abbreviation bytes := (list Z) (only parsing).

(** ** Chains of the tree *)

(** [l] climbs from below [low] up to [high]. *)
Fixpoint climbs (d : gmap hash reachabilityData) (low : hash) (l : list hash) (high : hash) : Prop :=
  match l with
  | [] => low = high
  | c :: l => parent_of d c = Some low ∧ climbs d c l high
  end.

Lemma climbs_snoc d l : ∀ low mid high, climbs d low l mid → parent_of d high = Some mid → climbs d low (l ++ [high]) high.
Proof. induction l as [|c l IH]; intros low mid high; simpl; [by intros -> ->|]. intros [Hp Hc] Hh. split; [done|]. by eapply IH. Qed.

Lemma climbs_exists d low high : tree_anc d low high → ∃ l, climbs d low l high.
Proof. induction 1 as [|x y z Hp _ [l Hl]]; [by exists []|]. exists (l ++ [x]). by eapply climbs_snoc. Qed.

Lemma climbs_anc d l : ∀ low high, climbs d low l high → tree_anc d low high.
Proof. induction l as [|c l IH]; intros low high; simpl; [intros ->; apply rtc_refl|]. intros [Hp Hc]. eapply rtc_r; [by apply IH|done]. Qed.

(** Every block of the chain lies between its ends. *)
Lemma climbs_between d l : ∀ low high x, climbs d low l high → x ∈ l → tree_anc d low x ∧ tree_anc d x high.
Proof.
  induction l as [|c l IH]; intros low high x; [by intros _ ?%elem_of_nil|]. intros [Hp Hc] [->|Hx]%elem_of_cons.
  - split; [by apply rtc_once|by eapply climbs_anc].
  - destruct (IH c high x Hc Hx) as [H1 H2]. split; [|done]. eapply rtc_r; [exact H1|done].
Qed.

Lemma climbs_app d l1 : ∀ low l2 high, climbs d low (l1 ++ l2) high → ∃ mid, climbs d low l1 mid ∧ climbs d mid l2 high ∧ mid = default low (last l1).
Proof.
  induction l1 as [|c l1 IH]; intros low l2 high; [by exists low|]. intros [Hp Hc]. destruct (IH c l2 high Hc) as (mid & ? & ? & ->).
  exists (default c (last l1)). split; [by split|]. split; [done|]. rewrite last_cons. by destruct (last l1).
Qed.

(** ** Reading *)
Section Read.
Context `{Libs} `{MuHash}.
Implicit Types s : pruningState.

Lemma onVirtual_read {A} (m : prog virtualState virtualError A) s a : m (pn_virtual s) = (pn_virtual s, Ret a) → onVirtual m s = (s, Ret a).
Proof using Type. intros Hm. unfold onVirtual. rewrite Hm. by destruct s. Qed.
Lemma onVirtual_run {A} (m : prog virtualState virtualError A) s v a : m (pn_virtual s) = (v, Ret a) → onVirtual m s = (put_virtual v s, Ret a).
Proof using Type. intros Hm. unfold onVirtual. by rewrite Hm. Qed.
Lemma onStore_run {A} (m : prog pruningStore storeError A) s store a : m (pn_store s) = (store, Ret a) → onStore m s = (put_store store s, Ret a).
Proof using Type. intros Hm. unfold onStore. by rewrite Hm. Qed.

Lemma ghostdagOf_read s x g : ghostdag_of (consensus_of (pn_virtual s)) !! x = Some g → ghostdagOf x s = (s, Ret g).
Proof using Type. intros Hg. apply onVirtual_read, onData_read. unfold Get. by rewrite Hg. Qed.
Lemma hashAt_read s x : hashAt (Some x) s = (s, Ret x).
Proof using Type. by apply onVirtual_read. Qed.
End Read.

(** ** The walk *)
Section Choice.
Context `{Libs} `{MuHash}.
Variables (pm : pruningManager) (root : list Z) (v : virtualState).
Abbreviation dtm := (dtm_of (consensus_of v)).
Abbreviation d := (reachabilityDataStore (dt_reachabilityManager (dtm_of (consensus_of v)))).
Abbreviation gd := (ghostdag_of (consensus_of v)).
Abbreviation score x := (blueScore (dataOf gd x)).
Abbreviation finality x := (finalityScore pm (blueScore (dataOf gd x))).

(** The reachability tree is the tree of selected parents, along which blue scores grow. *)
Record chains_ok : Prop := {
  ck_tree : tree_ok d root;
  ck_data x : x ∈ dom d → x ∈ dom gd;
  ck_selected x p : parent_of d x = Some p → selectedParent (dataOf gd x) = Some p;
  ck_score x p : parent_of d x = Some p → score p < score x;
  ck_range x : x ∈ dom d → 0 ≤ score x < 2 ^ 64
}.
Hypothesis Hok : chains_ok.

Lemma data_read s x : pn_virtual s = v → x ∈ dom d → ghostdagOf x s = (s, Ret (dataOf gd x)).
Proof using Hok. intros Hv Hx. apply ghostdagOf_read. rewrite Hv. unfold dataOf. by apply (ck_data Hok), elem_of_dom in Hx as [g ->]. Qed.

Lemma inChain_run a b : a ∈ dom d → b ∈ dom d → ∃ r, IsInSelectedParentChainOf a b dtm = (dtm, Ret r) ∧ (r = true ↔ tree_anc d a b).
Proof using Hok.
  intros Ha Hb. exists (intervalContains (iv d a) (iv d b)). split; [|by apply (contains_anc d root (ck_tree Hok))].
  unfold IsInSelectedParentChainOf, reachability, zoom. rewrite (treeAncestor_run _ root (ck_tree Hok) a b Ha Hb). by destruct dtm.
Qed.

Lemma score_anc a b : tree_anc d a b → score a ≤ score b ∧ (a ≠ b → score a < score b).
Proof using Hok. induction 1 as [x|x y z Hp _ [IH _]]; [done|]. pose proof (ck_score Hok x y Hp). split; [lia|]. lia. Qed.

(** A chain has at most as many blocks as the tree. *)
Lemma climbs_length l low high : climbs d low l high → (length l ≤ size d)%nat.
Proof using Hok.
  intros Hl. assert (NoDup l ∧ ∀ x, x ∈ l → x ∈ dom d ∧ score low < score x) as [Hnd Hin].
  { revert low Hl. induction l as [|x l IH]; intros low; [split; [constructor|by intros ? ?%elem_of_nil]|]. intros [Hp Hc]. destruct (IH x Hc) as [Hnd Hin].
    pose proof (ck_score Hok _ _ Hp). assert (x ∈ dom d) by (by eapply parent_dom). split.
    - constructor; [|done]. intros Hx. destruct (Hin x Hx). lia.
    - intros y [->|Hy]%elem_of_cons; [done|]. destruct (Hin y Hy). split; [done|lia]. }
  rewrite <- size_dom, <- (size_list_to_set (C := gset hash) l Hnd). apply subseteq_size. intros x Hx%elem_of_list_to_set. by apply Hin.
Qed.

Lemma firstInChain_run high l : high ∈ dom d → (∀ c, c ∈ l → c ∈ dom d) →
  ∃ o, firstInChain high l dtm = (dtm, Ret o) ∧ match o with Some c => c ∈ l ∧ tree_anc d c high | None => ∀ c, c ∈ l → ¬ tree_anc d c high end.
Proof using Hok.
  intros Hh. induction l as [|c l IH]; intros Hl; cbn [firstInChain]; [exists None; split; [done|]; by intros c ?%elem_of_nil|].
  destruct (inChain_run c high (Hl c ltac:(by left)) Hh) as (r & Hr & Hans). rewrite (bind_ret_l _ _ _ _ _ Hr). destruct r.
  - exists (Some c). split; [done|]. split; [by left|by apply Hans].
  - destruct IH as (o & Ho & Hspec); [intros; apply Hl; by right|]. exists o. split; [done|]. destruct o as [c'|].
    + destruct Hspec. split; [by right|done].
    + intros c' [->|Hc']%elem_of_cons; [by intros ?%Hans|by apply Hspec].
Qed.

(** The iterator at [x]: the next one is the child of [x] on the chain. *)
Definition at_block (high low x : hash) : selectedChildIterator :=
  {| it_highHash := high; it_lowHash := low; it_current := Some x; it_err := None; it_isClosed := false |}.

Lemma next_run high low x l : high ∈ dom d → climbs d x l high →
  dag (it_Next (at_block high low x)) v = (v, Ret (match l with [] => (false, at_block high low x) | c :: _ => (true, at_block high low c) end)).
Proof using Hok.
  intros Hh Hc. apply dag_read. unfold it_Next. cbn [it_isClosed it_err at_block it_current it_highHash]. rewrite (bind_ret_l _ _ dtm dtm x) by (by destruct dtm).
  assert (x ∈ dom d) as [rd Hx]%elem_of_dom by (by eapply (tree_anc_dom d root (ck_tree Hok)), Hh; eapply climbs_anc).
  assert (children_of d x = rd_children rd) as Hch by (unfold children_of; by rewrite Hx).
  destruct (firstInChain_run high (rd_children rd) Hh) as (o & Ho & Hspec); [intros c Hcd; rewrite <- Hch in Hcd; by apply (tree_child d root (ck_tree Hok)) in Hcd as [? _]|].
  assert (attempt (let* data := reachability (ReachabilityData x) in firstInChain high (rd_children data)) dtm = (dtm, Ret (inl o))) as Hatt.
  { unfold attempt. rewrite (bind_ret_l _ _ dtm dtm rd); [by rewrite Ho|]. unfold reachability, zoom, ReachabilityData, bind, get, lift_outcome.
    change (reachabilityDataStore _ !! x) with (d !! x). rewrite Hx. by destruct dtm. }
  rewrite (bind_ret_l _ _ _ _ _ Hatt). destruct l as [|c l].
  - simpl in Hc. subst x. destruct o as [c|]; [|done]. destruct Hspec as [Hcd Hca]. rewrite <- Hch in Hcd. apply (tree_child d root (ck_tree Hok)) in Hcd as [_ Hp].
    pose proof (proj1 (score_anc _ _ Hca)). pose proof (ck_score Hok _ _ Hp). lia.
  - destruct Hc as [Hp Hc]. pose proof (climbs_anc _ _ _ _ Hc) as Hca. pose proof (tree_parent d root (ck_tree Hok) _ _ Hp) as [_ Hin]. rewrite Hch in Hin.
    destruct o as [c'|]; [|by destruct (Hspec c Hin)]. destruct Hspec as [Hin' Hca']. rewrite <- Hch in Hin'. apply (tree_child d root (ck_tree Hok)) in Hin' as [_ Hp'].
    destruct (decide (c = c')) as [->|Hne]; [done|]. pose proof (tree_anc_inside d root (ck_tree Hok) _ _ Hca). pose proof (tree_anc_inside d root (ck_tree Hok) _ _ Hca').
    pose proof (tree_range d root (ck_tree Hok) high Hh). destruct (siblings_disjoint d root (ck_tree Hok) x c c' Hp Hp' Hne); unfold left_of in *; lia.
Qed.

(** A block at least [pm_pruningDepth] below [vsp] *)
Abbreviation deep vsp x := (negb (GoInt.uint64 (score vsp - score x) <? pm_pruningDepth pm)).
Definition choice_of (candidate pruningPoint : hash) : choice :=
  {| ch_candidate := candidate; ch_candidateData := dataOf gd candidate; ch_pruningPoint := pruningPoint; ch_pruningPointData := dataOf gd pruningPoint |}.

(** The walk as a function of the chain *)
Fixpoint choose (vsp : hash) (l : list hash) (candidate pruningPoint : hash) : hash * hash :=
  match l with
  | [] => (candidate, pruningPoint)
  | x :: l => if deep vsp x then choose vsp l x (if finality pruningPoint <? finality x then x else pruningPoint) else (candidate, pruningPoint)
  end.

Lemma chooseLoop_run s vsp low l : pn_virtual s = v → vsp ∈ dom d → ∀ x candidate pruningPoint fuel, climbs d x l vsp → (length l < fuel)%nat → x ∈ dom d →
  chooseLoop pm fuel (dataOf gd vsp) (match l with [] => false | _ => true end) (match l with [] => at_block vsp low x | c :: _ => at_block vsp low c end) (choice_of candidate pruningPoint) s
  = (s, Ret (choice_of (fst (choose vsp l candidate pruningPoint)) (snd (choose vsp l candidate pruningPoint)))).
Proof using Hok.
  intros Hv Hh. induction l as [|c l IH]; intros x candidate pruningPoint fuel Hc Hf Hx; (destruct fuel as [|fuel]; [simpl in Hf; lia|]); cbn [chooseLoop]; [done|].
  destruct Hc as [Hp Hc]. assert (c ∈ dom d) as Hcd by (by eapply parent_dom). unfold considerChild.
  rewrite !bind_assoc. rewrite (bind_ret_l _ _ s s (Some c)) by done. rewrite bind_assoc, (bind_ret_l _ _ s s c) by apply hashAt_read.
  rewrite bind_assoc, (bind_ret_l _ _ s s (dataOf gd c)) by (by apply data_read). cbn [choose]. cbv zeta. destruct (GoInt.uint64 _ <? _) eqn:Ed; [done|]. cbn [negb].
  pose proof (next_run vsp low c l Hh Hc) as Hn. rewrite <- Hv in Hn.
  set (pp := if finality pruningPoint <? finality c then c else pruningPoint).
  match goal with |- context [if ?b then ret (Some ?y) else ret (Some ?z)] => replace (if b then ret (Some y) else ret (Some z)) with (ret (Some (choice_of c pp)) : prog pruningState pruningError (option choice)) end.
  2:{ unfold pp, choice_of. cbn [ch_pruningPointData ch_pruningPoint]. by destruct (finality pruningPoint <? finality c). }
  rewrite bind_ret. rewrite (bind_ret_l _ _ s s _ (onVirtual_read _ s _ Hn)).
  replace (fst _) with (match l with [] => false | _ => true end) by (by destruct l). replace (snd _) with (match l with [] => at_block vsp low c | c' :: _ => at_block vsp low c' end) by (by destruct l).
  apply (IH c c pp fuel Hc); [simpl in Hf; lia|done].
Qed.

(** What the walk from [low] finds *)
Record chosen (vsp low pp0 candidate pruningPoint : hash) : Prop := {
  co_above : tree_anc d low candidate ∧ tree_anc d candidate vsp;
  co_deep : candidate = low ∨ deep vsp candidate = true;
  co_last z : tree_anc d candidate z → z ≠ candidate → tree_anc d z vsp → score vsp - score z < pm_pruningDepth pm;
  co_score : finality candidate ≤ finality pruningPoint;
  co_moved : pruningPoint = pp0 ∨
    tree_anc d pruningPoint candidate ∧ deep vsp pruningPoint = true ∧ finality pp0 < finality pruningPoint ∧ finality candidate = finality pruningPoint ∧
    ∃ p, parent_of d pruningPoint = Some p ∧ tree_anc d low p ∧ finality p < finality pruningPoint
}.

Hypothesis Hinterval : 0 < pm_finalityInterval pm.

Lemma finality_mono a b : tree_anc d a b → finality a ≤ finality b.
Proof using Hok Hinterval. intros Ha. unfold finalityScore. apply Z.div_le_mono; [done|]. by apply score_anc. Qed.

Lemma climbs_cases x c l high z : climbs d x (c :: l) high → high ∈ dom d → tree_anc d x z → tree_anc d z high → z ≠ x → tree_anc d c z.
Proof using Hok.
  intros [Hp Hc] Hh Hxz Hzh Hne. destruct (tree_anc_child d x z Hxz ltac:(done)) as (c' & Hp' & Hc'). destruct (decide (c = c')) as [->|Hcc]; [done|].
  assert (tree_anc d c' high) as Hch' by (by eapply tree_anc_trans). pose proof (tree_anc_inside d root (ck_tree Hok) _ _ (climbs_anc _ _ _ _ Hc)). pose proof (tree_anc_inside d root (ck_tree Hok) _ _ Hch').
  pose proof (tree_range d root (ck_tree Hok) high Hh). destruct (siblings_disjoint d root (ck_tree Hok) x c c' Hp Hp' Hcc); unfold left_of in *; lia.
Qed.

Lemma choose_spec vsp l : vsp ∈ dom d → ∀ low pp0, climbs d low l vsp → finality low ≤ finality pp0 →
  chosen vsp low pp0 (fst (choose vsp l low pp0)) (snd (choose vsp l low pp0)).
Proof using Hok Hinterval.
  intros Hh. induction l as [|c l IH]; intros low pp0 Hc Hle; cbn [choose].
  - simpl in Hc. subst low. split; simpl; [split; apply rtc_refl|by left| |done|by left]. intros z Hz1 Hne Hz2. destruct Hne. by apply (tree_anc_antisym d root (ck_tree Hok)).
  - pose proof (climbs_anc _ _ _ _ Hc) as Hlow. destruct (deep vsp c) eqn:Hd.
    + pose proof Hc as [Hp Hc']. set (pp := if finality pp0 <? finality c then c else pp0).
      assert (finality c ≤ finality pp ∧ finality pp0 ≤ finality pp) as [Hpp Hpp0] by (unfold pp; destruct (Z.ltb_spec (finality pp0) (finality c)); lia).
      destruct (IH c pp Hc' Hpp) as [[Ha1 Ha2] Hdeep Hlast Hscore Hmoved]. assert (tree_anc d low c) as Hlc by (by apply rtc_once).
      split; [split; [by eapply tree_anc_trans|done]|right; by destruct Hdeep as [->|]|done|done|].
      destruct Hmoved as [Hpp'|(H1 & H2 & H3 & H4 & p & Hp1 & Hp2 & Hp3)].
      * rewrite Hpp' in *. unfold pp in *. destruct (Z.ltb_spec (finality pp0) (finality c)); [|by left]. right. pose proof (finality_mono _ _ Ha1).
        split_and!; [done|done|lia|lia|]. exists low. split_and!; [done|apply rtc_refl|lia].
      * right. split_and!; [done|done| |done|exists p; split_and!; [done|by eapply tree_anc_trans|done]]. lia.
    + split; simpl; [split; [apply rtc_refl|done]|by left| |done|by left]. intros z Hz1 Hne Hz2. pose proof (climbs_cases low c l vsp z Hc Hh Hz1 Hz2 Hne) as Hcz.
      apply negb_false_iff, Z.ltb_lt in Hd. destruct Hc as [Hp Hc']. pose proof (proj1 (score_anc _ _ Hcz)). pose proof (proj1 (score_anc _ _ (climbs_anc _ _ _ _ Hc'))).
      assert (c ∈ dom d) as Hcd by (by eapply parent_dom). pose proof (ck_range Hok c Hcd). pose proof (ck_range Hok vsp Hh).
      rewrite GoInt.uint64_id in Hd by lia. lia.
Qed.
End Choice.

(** ** What the pruning store answers *)
Section Answers.
Context `{Libs} `{MuHash}.
Variables (pm : pruningManager) (c : codec hash).
Implicit Types store : pruningStore.

Definition seen (x : cell hash) (db : option bytes) : option hash :=
  match ce_staged x, ce_cache x with
  | Some h, _ => Some h
  | None, Some h => Some h
  | None, None => db ≫= decode c
  end.
Definition has (x : cell hash) : bool := bool_decide (is_Some (ce_staged x)) || bool_decide (is_Some (ce_cache x)) || bool_decide (is_Some (ce_db x)).

(** The pruning point, or the genesis block where there is none yet; the candidate, which falls back to the key of the pruning point *)
Definition point_of store : option hash :=
  if has (ps_pruningPoint store) then seen (ps_pruningPoint store) (ce_db (ps_pruningPoint store)) else Some (pm_genesisHash pm).
Definition candidate_of store : option hash :=
  if has (ps_candidate store) then seen (ps_candidate store) (ce_db (ps_pruningPoint store)) else Some (pm_genesisHash pm).
Definition previous_of store : option hash := seen (ps_previous store) (ce_db (ps_previous store)).

(** Reading changes only caches. *)
Record same_answers store store' : Prop := {
  sa_has : has (ps_pruningPoint store') = has (ps_pruningPoint store);
  sa_point : point_of store' = point_of store;
  sa_candidate : candidate_of store' = candidate_of store;
  sa_previous : previous_of store' = previous_of store;
  sa_flags : ps_updating store' = ps_updating store ∧ ps_startUpdating store' = ps_startUpdating store;
  sa_set : ps_pruningPointUTXOSet store' = ps_pruningPointUTXOSet store
}.
#[export] Instance same_answers_preorder : PreOrder same_answers.
Proof.
  split; [by intros store; split|]. intros x y z [] []. split; intuition congruence.
Qed.

Lemma cell_Get_seen (x : cell hash) h : seen x (ce_db x) = Some h →
  ∃ x', cell_Get c x = (x', Ret h) ∧ ce_db x' = ce_db x ∧ has x' = has x ∧ ∀ db, seen x db = Some h → seen x' db = Some h.
Proof using Type.
  intros Hs. unfold cell_Get. rewrite (bind_ret_l _ _ x x x) by done. unfold seen in *. destruct (ce_staged x) as [w|] eqn:Es; [injection Hs as ->; exists x; by rewrite Es|].
  destruct (ce_cache x) as [w|] eqn:Ec; [injection Hs as ->; exists x; by rewrite Es, Ec|]. destruct (ce_db x) as [b|] eqn:Ed; [|done]. simpl in Hs. rewrite Hs.
  exists {| ce_db := ce_db x; ce_cache := Some h; ce_staged := ce_staged x |}. split; [done|]. simpl. rewrite Es. split; [done|]. split; [|done].
  unfold has. simpl. by rewrite Es, Ec, Ed.
Qed.

Lemma PruningPoint_run store pp : has (ps_pruningPoint store) = true → point_of store = Some pp →
  ∃ store', PruningPoint c store = (store', Ret pp) ∧ same_answers store store'.
Proof using Type.
  intros Hh Hpp. unfold point_of in Hpp. rewrite Hh in Hpp. destruct (cell_Get_seen (ps_pruningPoint store) pp Hpp) as (x' & Hx & Hdb & Hhas & Hseen).
  unfold PruningPoint, on_pruningPoint, zoom. rewrite Hx. eexists. split; [done|].
  split; unfold point_of, candidate_of, previous_of; simpl; rewrite ?Hhas, ?Hh, ?Hdb; try done. rewrite Hpp. apply Hseen. exact Hpp.
Qed.

Lemma Previous_run store pp : previous_of store = Some pp → ∃ store', PreviousPruningPoint c store = (store', Ret pp) ∧ same_answers store store'.
Proof using Type.
  intros Hpp. unfold previous_of in Hpp. destruct (cell_Get_seen (ps_previous store) pp Hpp) as (x' & Hx & Hdb & Hhas & Hseen).
  unfold PreviousPruningPoint, on_previous, zoom. rewrite Hx. eexists. split; [done|].
  split; unfold point_of, candidate_of, previous_of; simpl; rewrite ?Hdb; try done. rewrite Hpp. apply Hseen. exact Hpp.
Qed.

Lemma candidate_run (s : pruningState) cand : candidate_of (pn_store s) = Some cand →
  ∃ store', pruningPointCandidate pm c s = (put_store store' s, Ret cand) ∧ same_answers (pn_store s) store'.
Proof using Type.
  intros Hc. unfold pruningPointCandidate. rewrite (bind_ret_l _ _ s s (has (ps_candidate (pn_store s)))) by (by destruct s as [? [] ?]).
  unfold candidate_of in Hc. destruct (has (ps_candidate (pn_store s))) eqn:Hh; cbn [negb]; [|injection Hc as ->; exists (pn_store s); split; [by destruct s|done]].
  cut (∃ store', PruningPointCandidate c (pn_store s) = (store', Ret cand) ∧ same_answers (pn_store s) store'); [intros (store' & Hrun & Hsame); exists store'; split; [by apply onStore_run|done]|].
  set (store := pn_store s) in *. unfold PruningPointCandidate. rewrite (bind_ret_l _ _ store store store) by done. unfold seen in Hc.
  destruct (ce_staged (ps_candidate store)) as [w|] eqn:Es; [injection Hc as ->; by exists store|]. destruct (ce_cache (ps_candidate store)) as [w|] eqn:Ec; [injection Hc as ->; by exists store|].
  destruct (ce_db (ps_pruningPoint store)) as [b|] eqn:Ed; [|done]. simpl in Hc. rewrite Hc. eexists. split; [by rewrite (bind_ret_l _ _ store _ () eq_refl)|].
  split; try done. unfold candidate_of. rewrite Hh. simpl. unfold has, seen. simpl. rewrite Es, Ec, Ed, orb_true_r. simpl. by rewrite Hc.
Qed.

(** Staging *)
Lemma save_run (s : pruningState) pp old : has (ps_pruningPoint (pn_store s)) = true → point_of (pn_store s) = Some old → pp ≠ pm_genesisHash pm →
  ∃ store', savePruningPoint pm c pp s = (put_store store' s, Ret ()) ∧ point_of store' = Some pp ∧ has (ps_pruningPoint store') = true ∧ candidate_of store' = candidate_of (pn_store s) ∧
    previous_of store' = Some old ∧ ps_startUpdating store' = true ∧ ps_updating store' = ps_updating (pn_store s) ∧ ps_pruningPointUTXOSet store' = ps_pruningPointUTXOSet (pn_store s).
Proof using Type.
  intros Hh Hold Hne. unfold savePruningPoint. rewrite bool_decide_eq_false_2 by done. destruct (PruningPoint_run (pn_store s) old Hh Hold) as (store1 & Hrun & Hsame).
  rewrite bind_assoc, (bind_ret_l _ _ _ _ _ (onStore_run _ _ _ _ Hrun)). rewrite (bind_ret_l _ _ _ _ () (onStore_run _ _ _ _ eq_refl)). rewrite (bind_ret_l _ _ _ _ () (onStore_run _ _ _ _ eq_refl)).
  rewrite (onStore_run _ _ _ () eq_refl). eexists. split; [done|]. split; [done|]. split; [done|]. destruct Hsame as [_ _ Hc _ [Hf _] Hset]. split; [exact Hc|]. split_and!; [done|done|exact Hf|exact Hset].
Qed.

(** Without a pruning point the genesis block is staged. *)
Lemma save_genesis_run (s : pruningState) : has (ps_pruningPoint (pn_store s)) = false →
  ∃ store', savePruningPoint pm c (pm_genesisHash pm) s = (put_store store' s, Ret ()) ∧ point_of store' = point_of (pn_store s) ∧ has (ps_pruningPoint store') = true ∧
    candidate_of store' = candidate_of (pn_store s) ∧ previous_of store' = previous_of (pn_store s) ∧ ps_startUpdating store' = true ∧ ps_updating store' = ps_updating (pn_store s) ∧
    ps_pruningPointUTXOSet store' = ps_pruningPointUTXOSet (pn_store s).
Proof using Type.
  intros Hh. unfold savePruningPoint. rewrite bool_decide_eq_true_2 by done. rewrite bind_ret. rewrite (bind_ret_l _ _ _ _ () (onStore_run _ _ _ _ eq_refl)), (onStore_run _ _ _ () eq_refl).
  eexists. split; [done|]. unfold point_of at 2. rewrite Hh. done.
Qed.
End Answers.

(** ** The update of the pruning point *)
Section Update.
Context `{Libs} `{MuHash}.
Variables (pm : pruningManager) (c : codec hash) (v : virtualState).
Abbreviation root := (pm_genesisHash pm).
Abbreviation d := (reachabilityDataStore (dt_reachabilityManager (dtm_of (consensus_of v)))).
Abbreviation gd := (ghostdag_of (consensus_of v)).
Abbreviation score x := (blueScore (dataOf gd x)).
Abbreviation finality x := (finalityScore pm (blueScore (dataOf gd x))).
Hypothesis Hok : chains_ok root v.
Hypothesis Hinterval : 0 < pm_finalityInterval pm.

(** The first block of a finality interval on its chain *)
Definition first_of_interval (x : hash) : Prop := x = root ∨ ∃ p, parent_of d x = Some p ∧ finality p < finality x.

(** What a syncing node asks of a pruning point, seen from the tip of the headers *)
Definition acceptable (tip x : hash) : Prop := x = root ∨ tree_anc d x tip ∧ pm_pruningDepth pm ≤ score tip - score x ∧ first_of_interval x.

Lemma root_parentless : parent_of d root = None.
Proof using Hok.
  destruct (parent_of d root) as [p|] eqn:Hp; [|done]. pose proof (ck_score _ _ Hok _ _ Hp). pose proof (tree_parent _ _ (ck_tree _ _ Hok) _ _ Hp) as [Hd _].
  pose proof (proj1 (score_anc _ _ Hok _ _ (root_anc _ _ (ck_tree _ _ Hok) p Hd))). lia.
Qed.

Lemma IsValidPruningPoint_spec s tip x : pn_virtual s = v → pn_headersSelectedTip s = Some tip → tip ∈ dom d → x ∈ dom d →
  ∃ r, IsValidPruningPoint pm x s = (s, Ret r) ∧ (r = true ↔ acceptable tip x).
Proof using Hok Hinterval.
  intros Hv Ht Htip Hx. unfold IsValidPruningPoint, acceptable. case_bool_decide as Hg; [exists true; split; [done|]; split; [by left|done]|].
  rewrite (bind_ret_l _ _ s s s) by done. rewrite Ht, (bind_ret_l _ _ s s tip) by done. rewrite (bind_ret_l _ _ s s (dataOf gd tip)) by (by apply (data_read root v Hok)).
  destruct (inChain_run root v Hok x tip Hx Htip) as (r & Hr & Hans). assert (onVirtual (dag (IsInSelectedParentChainOf x tip)) s = (s, Ret r)) as Hrun by (apply onVirtual_read; rewrite Hv; by apply dag_read).
  rewrite (bind_ret_l _ _ s s r Hrun). destruct r; cbn [negb].
  2:{ exists false. split; [done|]. split; [done|]. intros [->|(Ha & _)]; [done|]. by apply Hans in Ha. }
  pose proof (proj1 (score_anc root v Hok x tip (proj1 Hans eq_refl))) as Hs. pose proof (ck_range _ _ Hok x Hx) as Hr1. pose proof (ck_range _ _ Hok tip Htip) as Hr2.
  rewrite (bind_ret_l _ _ s s (dataOf gd x)) by (by apply (data_read root v Hok)). rewrite GoInt.uint64_id by lia.
  destruct (Z.ltb_spec (score tip - score x) (pm_pruningDepth pm)) as [Hd|Hd]; [exists false; split; [done|]; split; [done|]; intros [->|(_ & ? & _)]; [done|lia]|].
  destruct (parent_of d x) as [p|] eqn:Hp; [|by destruct Hg; rewrite (tree_rootless _ _ (ck_tree _ _ Hok) x Hx Hp)].
  pose proof (tree_parent _ _ (ck_tree _ _ Hok) _ _ Hp) as [Hpd _]. rewrite (ck_selected _ _ Hok x p Hp), (bind_ret_l _ _ s s p) by apply hashAt_read.
  rewrite (bind_ret_l _ _ s s (dataOf gd p)) by (by apply (data_read root v Hok)). eexists. split; [done|].
  assert (finality p ≤ finality x) as Hle by (apply (finality_mono pm root v Hok Hinterval); by apply rtc_once).
  rewrite negb_true_iff, Z.eqb_neq. unfold first_of_interval. split.
  - intros Hne. right. split_and!; [by apply Hans|done|]. right. exists p. split; [done|lia].
  - intros [->|(_ & _ & [->|(p' & Hp' & Hlt)])]; [done|done|]. rewrite Hp in Hp'. injection Hp' as <-. lia.
Qed.

(** The state between two updates: the pruning point is the first block of its interval, and the candidate is above it in the same interval. *)
Record pruning_inv (store : pruningStore) (pp cand : hash) : Prop := {
  pi_point : point_of pm c store = Some pp;
  pi_candidate : candidate_of pm c store = Some cand;
  pi_known : cand ∈ dom d;
  pi_above : tree_anc d pp cand;
  pi_score : finality cand ≤ finality pp;
  pi_first : first_of_interval pp
}.

(** The pruning store after an update *)
Record updated_store (store store' : pruningStore) (pp pp' : hash) : Prop := {
  up_has : has (ps_pruningPoint store') = true;
  up_previous : previous_of c store' = if bool_decide (pp' = pp) then previous_of c store else Some pp;
  up_started : ps_startUpdating store' = if bool_decide (pp' = pp) then negb (has (ps_pruningPoint store)) || ps_startUpdating store else true;
  up_updating : ps_updating store' = ps_updating store;
  up_set : ps_pruningPointUTXOSet store' = ps_pruningPointUTXOSet store
}.

(** Before the walk a missing pruning point is staged. *)
Lemma ensure_point_run s pp : point_of pm c (pn_store s) = Some pp →
  ∃ store', (if negb (has (ps_pruningPoint (pn_store s))) then savePruningPoint pm c root else ret ()) s = (put_store store' s, Ret ()) ∧ has (ps_pruningPoint store') = true ∧
    point_of pm c store' = Some pp ∧ candidate_of pm c store' = candidate_of pm c (pn_store s) ∧ previous_of c store' = previous_of c (pn_store s) ∧
    ps_startUpdating store' = negb (has (ps_pruningPoint (pn_store s))) || ps_startUpdating (pn_store s) ∧ ps_updating store' = ps_updating (pn_store s) ∧
    ps_pruningPointUTXOSet store' = ps_pruningPointUTXOSet (pn_store s).
Proof using Type.
  intros Hpp. destruct (has (ps_pruningPoint (pn_store s))) eqn:Hh; cbn [negb]; [exists (pn_store s); by destruct s|].
  destruct (save_genesis_run pm c s Hh) as (store' & Hrun & Hp & Hrest). exists store'. rewrite Hp. split; [done|]. intuition.
Qed.

(** The iterator and the loop *)
Lemma walk_run {A} s vsp cand pp (k : choice → prog pruningState pruningError A) : pn_virtual s = v → vsp ∈ dom d → cand ∈ dom d → tree_anc d cand vsp → finality cand ≤ finality pp →
  ∃ cand' pp', chosen pm v vsp cand pp cand' pp' ∧
    (let* iterator := onVirtual (dag (SelectedChildIterator vsp cand)) in
     let* fuel := chooseFuel in
     let* first := onVirtual (dag (it_First iterator)) in
     let* c := chooseLoop pm fuel (dataOf gd vsp) (fst first) (snd first) (choice_of v cand pp) in
     k c) s = k (choice_of v cand' pp') s.
Proof using Hok Hinterval.
  intros Hv Hvsp Hkn Hchain Hscore. destruct (inChain_run root v Hok cand vsp Hkn Hvsp) as (r & Hr & Hans). destruct r; [|by apply Hans in Hchain].
  assert (dag (SelectedChildIterator vsp cand) v = (v, Ret (at_block vsp cand cand))) as Hit by (apply dag_read; unfold SelectedChildIterator; by rewrite (bind_ret_l _ _ _ _ _ Hr)).
  destruct (climbs_exists d cand vsp Hchain) as [l Hl]. pose proof (climbs_length root v Hok l cand vsp Hl) as Hlen.
  exists (fst (choose pm v vsp l cand pp)), (snd (choose pm v vsp l cand pp)). split; [by apply (choose_spec pm root v Hok Hinterval)|].
  rewrite (bind_ret_l _ _ s s (at_block vsp cand cand)) by (apply onVirtual_read; by rewrite Hv).
  rewrite (bind_ret_l _ _ s s (Datatypes.S (size d))) by (unfold chooseFuel; rewrite (bind_ret_l _ _ s s s) by done; by rewrite Hv).
  pose proof (next_run root v Hok vsp cand cand l Hvsp Hl) as Hnext. rewrite (bind_ret_l _ _ s s _ (onVirtual_read _ s _ ltac:(rewrite Hv; exact Hnext))).
  replace (fst (match l with [] => (false, _) | _ => _ end)) with (match l with [] => false | _ => true end) by (by destruct l).
  replace (snd (match l with [] => (false, _) | _ => _ end)) with (match l with [] => at_block vsp cand cand | x :: _ => at_block vsp cand x end) by (by destruct l).
  by rewrite (bind_ret_l _ _ s s _ (chooseLoop_run pm root v Hok s vsp cand l Hv Hvsp cand cand pp (Datatypes.S (size d)) Hl ltac:(lia) Hkn)).
Qed.

(** What is staged after the walk *)
Lemma conclude_run s vsp cand pp cand' pp' : has (ps_pruningPoint (pn_store s)) = true → point_of pm c (pn_store s) = Some pp → candidate_of pm c (pn_store s) = Some cand →
  chosen pm v vsp cand pp cand' pp' →
  ∃ store', ((if negb (bool_decide (cand' = cand)) then onStore (StagePruningPointCandidate cand') else ret ()) ;;*
     if finality cand' <=? finality pp then ret () else if negb (bool_decide (pp' = pp)) then savePruningPoint pm c pp' else ret ()) s = (put_store store' s, Ret ()) ∧
    point_of pm c store' = Some pp' ∧ candidate_of pm c store' = Some cand' ∧ has (ps_pruningPoint store') = true ∧
    previous_of c store' = (if bool_decide (pp' = pp) then previous_of c (pn_store s) else Some pp) ∧
    ps_startUpdating store' = (if bool_decide (pp' = pp) then ps_startUpdating (pn_store s) else true) ∧
    ps_updating store' = ps_updating (pn_store s) ∧ ps_pruningPointUTXOSet store' = ps_pruningPointUTXOSet (pn_store s).
Proof using Hok.
  intros Hh Hpp Hcand Hch.
  assert (∃ st1, (if negb (bool_decide (cand' = cand)) then onStore (StagePruningPointCandidate cand') else ret ()) s = (put_store st1 s, Ret ()) ∧
    has (ps_pruningPoint st1) = true ∧ point_of pm c st1 = Some pp ∧ candidate_of pm c st1 = Some cand' ∧ previous_of c st1 = previous_of c (pn_store s) ∧
    ps_startUpdating st1 = ps_startUpdating (pn_store s) ∧ ps_updating st1 = ps_updating (pn_store s) ∧ ps_pruningPointUTXOSet st1 = ps_pruningPointUTXOSet (pn_store s))
    as (st1 & Hrun & Hh1 & Hpp1 & Hc1 & Hprev1 & Hst1 & Hup1 & Hset1).
  { case_bool_decide as E; cbn [negb]; [subst; exists (pn_store s); by destruct s|]. eexists. split; [by apply onStore_run|]. done. }
  rewrite (bind_ret_l _ _ _ _ _ Hrun). destruct (co_moved _ _ _ _ _ _ _ Hch) as [->|(_ & _ & Hlt & Heq & p & Hp & _)].
  - rewrite bool_decide_eq_true_2 by done. exists st1. split; [by destruct (_ <=? _)|]. done.
  - assert (pp' ≠ pp) as Hne by (intros ->; lia). rewrite bool_decide_eq_false_2 by done. destruct (Z.leb_spec (finality cand') (finality pp)) as [Hle|_]; [lia|].
    destruct (save_run pm c (put_store st1 s) pp' pp Hh1 Hpp1) as (st2 & Hrun2 & H1 & H2 & H3 & H4 & H5 & H6 & H7); [intros ->; by rewrite root_parentless in Hp|].
    simpl in H3, H6, H7. exists st2. cbn [negb]. rewrite Hrun2. split; [done|]. split_and!; congruence.
Qed.

Lemma chosen_inv store' vsp cand pp cand' pp' : vsp ∈ dom d → tree_anc d pp cand → first_of_interval pp → chosen pm v vsp cand pp cand' pp' →
  point_of pm c store' = Some pp' → candidate_of pm c store' = Some cand' → pruning_inv store' pp' cand'.
Proof using Hok.
  intros Hvsp Habove Hfirst [[Ha1 Ha2] _ _ Hscore Hmoved] Hpp Hc. split; [done|done|by eapply (tree_anc_dom _ _ (ck_tree _ _ Hok))| |done|];
    destruct Hmoved as [->|(? & _ & _ & _ & p & ? & _ & ?)]; try done; [by eapply tree_anc_trans|right; by exists p].
Qed.

Lemma UpdatePruningPointByVirtual_spec s pp cand gv vsp : pn_virtual s = v → pruning_inv (pn_store s) pp cand →
  gd !! VirtualBlockHash = Some gv → selectedParent gv = Some vsp → vsp ∈ dom d → tree_anc d cand vsp →
  ∃ store' pp' cand', UpdatePruningPointByVirtual pm c s = (put_store store' s, Ret ()) ∧
    chosen pm v vsp cand pp cand' pp' ∧ pruning_inv store' pp' cand' ∧ updated_store (pn_store s) store' pp pp'.
Proof using Hok Hinterval.
  intros Hv [Hpp Hcand Hkn Habove Hscore Hfirst] Hgv Hsel Hvsp Hchain. unfold UpdatePruningPointByVirtual.
  rewrite (bind_ret_l _ _ s s (has (ps_pruningPoint (pn_store s)))) by (by destruct s as [? [] ?]).
  destruct (ensure_point_run s pp Hpp) as (st1 & Hrun1 & Hh1 & Hpp1 & Hc1 & Hprev1 & Hst1 & Hup1 & Hset1). rewrite (bind_ret_l _ _ _ _ _ Hrun1). clear Hrun1.
  set (s1 := put_store st1 s). assert (pn_virtual s1 = v) as Hv1 by done. rewrite Hcand in Hc1.
  destruct (candidate_run pm c s1 cand Hc1) as (st2 & Hrun2 & Hsame2). rewrite (bind_ret_l _ _ _ _ _ Hrun2). set (s2 := put_store st2 s1). assert (pn_virtual s2 = v) as Hv2 by done.
  rewrite (bind_ret_l _ _ s2 s2 (dataOf gd cand)) by (by apply (data_read root v Hok)). rewrite (bind_ret_l _ _ s2 s2 gv) by (apply ghostdagOf_read; by rewrite Hv2).
  rewrite Hsel, (bind_ret_l _ _ s2 s2 vsp) by apply hashAt_read. rewrite (bind_ret_l _ _ s2 s2 (dataOf gd vsp)) by (by apply (data_read root v Hok)).
  destruct (PruningPoint_run pm c st2 pp) as (st3 & Hrun3 & Hsame3); [by rewrite (sa_has _ _ _ _ Hsame2)|by rewrite (sa_point _ _ _ _ Hsame2)|].
  rewrite (bind_ret_l _ _ s2 (put_store st3 s2) pp) by (by apply onStore_run). set (s3 := put_store st3 s2). assert (pn_virtual s3 = v) as Hv3 by done.
  assert (same_answers pm c st1 st3) as [Sh Sp Sc Sprev [Sup Sst] Sset] by (by transitivity st2). assert (pp ∈ dom d) as Hppd by (by eapply (tree_anc_dom _ _ (ck_tree _ _ Hok))).
  rewrite (bind_ret_l _ _ s3 s3 (dataOf gd pp)) by (by apply (data_read root v Hok)).
  match goal with |- context [bind (chooseLoop _ _ _ _ _ _) ?k] => destruct (walk_run s3 vsp cand pp k Hv3 Hvsp Hkn Hchain Hscore) as (cand' & pp' & Hch & Hwalk) end.
  destruct (conclude_run s3 vsp cand pp cand' pp') as (st4 & Hrun4 & P4 & C4 & Hh4 & Prev4 & St4 & Up4 & Set4); [simpl; congruence..|done|].
  exists st4, pp', cand'. split; [etransitivity; [exact Hwalk|exact Hrun4]|]. split; [done|]. split; [by apply (chosen_inv st4 vsp cand pp)|].
  change (pn_store s3) with st3 in Prev4, St4, Up4, Set4. split; [done|rewrite Prev4; case_bool_decide; congruence|rewrite St4; case_bool_decide; congruence|congruence|congruence].
Qed.
End Update.

(** ** Moving the UTXO set of the pruning point

    From the previous and from the current pruning point the diff children lead up to the same block; the diffs on the two ways give the
    diff between the two UTXO sets. *)

Section Move.
Context `{Libs} `{MuHash}.
Variables (pm : pruningManager) (entryAt : DomainOutpoint → Z → utxoEntry) (v : virtualState).
Abbreviation stores := (rs_stores (vs_resolve v)).
Abbreviation gd := (ghostdag_of (consensus_of v)).
Abbreviation work x := (blueWork (dataOf gd x)).

(** The diffs [ds], the last one first, lead from the set [B] to [U]. *)
Fixpoint leads (B : utxoCollection) (ds : list diff) (U : utxoCollection) : Prop :=
  match ds with
  | [] => U = B
  | d :: ds => ∃ U1, leads B ds U1 ∧ applicable U1 d ∧ drawn entryAt (toAdd d) ∧ U = apply_diff U1 d
  end.

Lemma accumulate_leads B ds : ∀ U, drawn entryAt B → leads B ds U →
  ∃ d, accumulateDiffs (reverse ds) (mkDiff ∅ ∅) = Ret d ∧ applicable B d ∧ canonical d ∧ apply_diff B d = U.
Proof using H H0 v.
  induction ds as [|d ds IH]; intros U HB Hl; simpl in Hl.
  - subst U. exists (mkDiff ∅ ∅). split; [done|]. split; [split; [apply map_empty_subseteq|apply map_disjoint_empty_l]|]. split; [intros o e1 e2; simpl; by rewrite lookup_empty|].
    unfold apply_diff. simpl. by rewrite (left_id_L ∅ (∪)), map_difference_empty.
  - destruct Hl as (U1 & Hl & Ha & Hd & ->). destruct (IH U1 HB Hl) as (acc & Hacc & Aacc & Cacc & Eacc).
    destruct (withDiffInPlace_composes (withVirtual B stores) acc d) as (d' & Hw & ? & ? & Hset); [done|done|simpl; by rewrite Eacc|by apply (drawn_same entryAt)|].
    exists d'. rewrite reverse_cons, accumulateDiffs_app, Hacc. simpl. rewrite Hw. split; [done|]. split; [done|]. split; [done|]. simpl in Hset. by rewrite Hset, Eacc.
Qed.

(** Blue work grows along the diff children. *)
Fixpoint rising (chain : list hash) : Prop :=
  match chain with
  | [] => True
  | x :: chain => x ∈ dom gd ∧ (∀ y, y ∈ chain → work x < work y) ∧ rising chain
  end.

Lemma last_above x chain y : rising (x :: chain) → last (x :: chain) = Some y → y = x ∨ work x < work y.
Proof using Type.
  intros (_ & Hlt & _) Hl. destruct chain as [|z chain]; [injection Hl as <-; by left|]. right. apply Hlt. rewrite last_cons_cons in Hl. by apply last_Some_elem_of in Hl.
Qed.

Abbreviation reads m a s := (onVirtual (onResolve m) s = (s, Ret a)).
Lemma resolve_read {A} (m : prog resolveState resolveError A) a s : pn_virtual s = v → m (vs_resolve v) = (vs_resolve v, Ret a) → reads m a s.
Proof using Type. intros Hv Hm. apply onVirtual_read. rewrite Hv. unfold onResolve. rewrite Hm. by destruct v. Qed.

Lemma rising_read s x chain : pn_virtual s = v → rising (x :: chain) → ghostdagOf x s = (s, Ret (dataOf gd x)).
Proof using Type. intros Hv (Hx & _). apply ghostdagOf_read. rewrite Hv. unfold dataOf. by apply elem_of_dom in Hx as [g ->]. Qed.

Hypothesis Hco : coherent entryAt stores.

Lemma chain_step a ca U : past_set stores a ca U → ca = [a] ∨
  ∃ c0 rest U1 d, ca = a :: c0 :: rest ∧ us_utxoDiffChildren stores !! a = Some c0 ∧ past_set stores c0 (c0 :: rest) U1 ∧ us_utxoDiffs stores !! a = Some d ∧
    applicable U1 d ∧ U = apply_diff U1 d ∧ drawn entryAt (toAdd d).
Proof using Hco.
  destruct 1 as [h d Hc Hd Ha Hs|h c0 chain U d Hc Hp Hd Ha Hs]; [by left|right]. destruct (past_set_head _ _ _ _ Hp) as [rest ->].
  exists c0, rest, U, d. split_and!; try done. by eapply Hco.
Qed.

Lemma climbLoop_spec s : pn_virtual s = v → ∀ fuel a b ca cb Ua Ub accP accC, (length ca + length cb < fuel)%nat → past_set stores a ca Ua → past_set stores b cb Ub →
  rising ca → rising cb → last ca = last cb →
  ∃ das dbs x cx B, past_set stores x cx B ∧ leads B das Ua ∧ leads B dbs Ub ∧ climbLoop fuel b a (work b) (work a) accP accC s = (s, Ret (accP ++ das, accC ++ dbs)).
Proof using Hco.
  intros Hv. induction fuel as [|fuel IH]; intros a b ca cb Ua Ub accP accC Hf Ha Hb Ra Rb Hlast; [lia|]. cbn [climbLoop].
  destruct (past_set_head _ _ _ _ Ha) as [ra Ea]. destruct (past_set_head _ _ _ _ Hb) as [rb Eb].
  assert (∃ y, last ca = Some y ∧ (y = a ∨ work a < work y) ∧ (y = b ∨ work b < work y)) as (y & Hy & Hya & Hyb).
  { destruct (last ca) as [y|] eqn:Ey; [|by apply last_None in Ey; rewrite Ey in Ea]. exists y. split; [done|]. rewrite Ea in Ra, Ey. rewrite Eb in Rb, Hlast.
    split; eapply last_above; done. }
  destruct (Z.ltb_spec (work a) (work b)) as [Hlt|Hge]; [|case_bool_decide as Eq].
  - destruct (chain_step a ca Ua Ha) as [->|(c0 & rest & U1 & d & -> & Hc & Hp & Hd & Hap & -> & Hdr)]; [injection Hy as <-; exfalso; destruct Hyb; [subst|]; lia|].
    rewrite (bind_ret_l _ _ s s d) by (apply resolve_read, UTXODiff_ret; done). rewrite (bind_ret_l _ _ s s c0) by (apply resolve_read, UTXODiffChild_ret; done).
    destruct Ra as (_ & _ & Ra). rewrite (bind_ret_l _ _ s s _ (rising_read s c0 rest Hv Ra)).
    destruct (IH c0 b (c0 :: rest) cb U1 Ub (accP ++ [d]) accC) as (das & dbs & x & cx & B & Hx & Hla & Hlb & ->); [simpl in *; lia|done..|].
    exists (d :: das), dbs, x, cx, B. split; [done|]. split; [by exists U1|]. split; [done|]. by rewrite <- app_assoc.
  - subst b. exists [], [], a, ca, Ua. split; [done|]. split; [done|]. split; [by eapply past_set_functional|]. by rewrite !app_nil_r.
  - destruct (chain_step b cb Ub Hb) as [->|(c0 & rest & U1 & d & -> & Hc & Hp & Hd & Hap & -> & Hdr)]; [rewrite Hlast in Hy; injection Hy as <-; exfalso; destruct Hya as [->|?]; [done|lia]|].
    rewrite (bind_ret_l _ _ s s d) by (apply resolve_read, UTXODiff_ret; done). rewrite (bind_ret_l _ _ s s c0) by (apply resolve_read, UTXODiffChild_ret; done).
    destruct Rb as (_ & _ & Rb). rewrite (bind_ret_l _ _ s s _ (rising_read s c0 rest Hv Rb)).
    destruct (IH a c0 ca (c0 :: rest) Ua U1 accP (accC ++ [d])) as (das & dbs & x & cx & B & Hx & Hla & Hlb & ->); [simpl in *; lia|done..|].
    exists das, (d :: dbs), x, cx, B. split; [done|]. split; [done|]. split; [by exists U1|]. by rewrite <- app_assoc.
Qed.

(** The previous and the current pruning point have chains of diffs up to the same block. *)
Record between (pp pp' : hash) (U U' : utxoCollection) : Prop := {
  bt_chains : ∃ ca cb, past_set stores pp ca U ∧ past_set stores pp' cb U' ∧ rising ca ∧ rising cb ∧ last ca = last cb
}.

Lemma calculateDiff_spec c s pp pp' U U' : pn_virtual s = v → pp' ≠ pm_genesisHash pm → previous_of c (pn_store s) = Some pp → between pp pp' U U' →
  ∃ store' d, calculateDiffBetweenPreviousAndCurrentPruningPoints pm c pp' s = (put_store store' s, Ret d) ∧ same_answers pm c (pn_store s) store' ∧
    applicable U d ∧ canonical d ∧ apply_diff U d = U'.
Proof using Hco.
  intros Hv Hne Hprev [(ca & cb & Ha & Hb & Ra & Rb & Hlast)]. unfold calculateDiffBetweenPreviousAndCurrentPruningPoints. rewrite bool_decide_eq_false_2 by done.
  destruct (Previous_run pm c (pn_store s) pp Hprev) as (store' & Hrun & Hsame). rewrite (bind_ret_l _ _ _ _ _ (onStore_run _ _ _ _ Hrun)). set (s1 := put_store store' s).
  assert (pn_virtual s1 = v) as Hv1 by done. destruct (past_set_head _ _ _ _ Ha) as [ra Ea]. destruct (past_set_head _ _ _ _ Hb) as [rb Eb].
  rewrite (bind_ret_l _ _ s1 s1 _ (rising_read s1 pp' rb Hv1 ltac:(by rewrite <- Eb))), (bind_ret_l _ _ s1 s1 _ (rising_read s1 pp ra Hv1 ltac:(by rewrite <- Ea))).
  rewrite (bind_ret_l _ _ s1 s1 s1) by done. rewrite Hv1. cbv zeta.
  pose proof (past_set_length _ _ _ _ Ha). pose proof (past_set_length _ _ _ _ Hb).
  destruct (climbLoop_spec s1 Hv1 (Datatypes.S (2 * size (us_utxoDiffs stores))) pp pp' ca cb U U' [] []) as (das & dbs & x & cx & B & Hx & Hla & Hlb & Hclimb); [lia|done..|].
  rewrite (bind_ret_l _ _ _ _ _ Hclimb). cbn [app fst snd]. pose proof (coherent_past _ _ _ _ _ Hco Hx) as HB.
  destruct (accumulate_leads B das U HB Hla) as (d1 & Hd1 & A1 & C1 & E1). destruct (accumulate_leads B dbs U' HB Hlb) as (d2 & Hd2 & A2 & C2 & E2).
  rewrite (bind_ret_l _ _ s1 s1 d1) by (apply resolve_read; [done|]; by rewrite Hd1). rewrite (bind_ret_l _ _ s1 s1 d2) by (apply resolve_read; [done|]; by rewrite Hd2).
  destruct (from_correct B d1 d2 A1 A2 C1 C2) as (d & Hd & Hap & Hcan & Hset & _).
  { apply (drawn_same entryAt); eapply drawn_toAdd; [rewrite E1|rewrite E2]; by eapply (coherent_past entryAt stores). }
  exists store', d. split; [|split; [done|by rewrite <- E1, <- E2]]. apply resolve_read; [done|]. unfold DiffFrom, accepting, lift_outcome. by rewrite Hd.
Qed.
End Move.
