(* ===== verification/PruningDelete.v ===== *)
(** * Deleting the past of the pruning point

    The search that starts at the parents of the pruning point and at the tips that are pruned reaches all blocks below them, and none that has the pruning
    point in its past. *)
From S2P Require Import Prelude Externalapi UtxoDiff ScriptNum ScriptStack OpcodeTable Script Hashing SigCache Opcode Engine.
From S2P Require Import Interval ReachabilityData Reachability ReachabilityTree ReachabilityAdd DagTopology Block Merkle Ghostdag GhostdagOrder Heap Window DifficultyManager Traversal HeaderValidation TransactionValidator PastUtxo Coinbase VerifyUtxo ResolveStatus VirtualBlock VirtualParents VirtualSelect Stores PruningStore UtxoSync PruningManager PruningSpec.
Import TransactionHashing SigCache Opcode BlockHeap Ghostdag DifficultyManager DagTopology Traversal Header HeaderValidation TransactionValidator PastUtxo VerifyUtxo ResolveStatus VirtualBlock Cell Pruning PruningManager.
Local Open Scope Z_scope.
Local Open Scope prog_scope.

Abbreviation hash := (list Z) (only parsing).
Abbreviation bytes := (list Z) (only parsing).

(** ** Deleting one block *)
Section Removed.
Context `{Libs} `{MuHash}.
Variable pm : pruningManager.
Implicit Types v : virtualState.

Definition removed (x : hash) v : virtualState :=
  let r := vs_resolve v in
  let r := {| rs_stores := rs_stores r; rs_statuses := <[x := StatusHeaderOnly]> (rs_statuses r); rs_acceptanceData := rs_acceptanceData r; rs_caches := rs_caches r |} in
  {| vs_resolve := if pm_isArchivalNode pm then r else deleteData x r; vs_tips := vs_tips v |}.
Definition removedAll (l : list hash) v : virtualState := foldr removed v l.

(** No data of [x] is left. *)
Definition gone (x : hash) v : Prop :=
  let r := vs_resolve v in
  us_blocks (rs_stores r) !! x = None ∧ us_utxoDiffs (rs_stores r) !! x = None ∧ us_utxoDiffChildren (rs_stores r) !! x = None ∧ us_multisets (rs_stores r) !! x = None ∧
  rs_acceptanceData r !! x = None ∧ daa_scores (cs_daa (consensus_of v)) !! x = None ∧ daa_addedBlocks (cs_daa (consensus_of v)) !! x = None.
(** The data of [x] is the same. *)
Definition same_data (x : hash) v v' : Prop :=
  let r := vs_resolve v in
  let r' := vs_resolve v' in
  rs_statuses r' !! x = rs_statuses r !! x ∧
  us_blocks (rs_stores r') !! x = us_blocks (rs_stores r) !! x ∧ us_utxoDiffs (rs_stores r') !! x = us_utxoDiffs (rs_stores r) !! x ∧
  us_utxoDiffChildren (rs_stores r') !! x = us_utxoDiffChildren (rs_stores r) !! x ∧ us_multisets (rs_stores r') !! x = us_multisets (rs_stores r) !! x ∧
  rs_acceptanceData r' !! x = rs_acceptanceData r !! x ∧ daa_scores (cs_daa (consensus_of v')) !! x = daa_scores (cs_daa (consensus_of v)) !! x ∧
  daa_addedBlocks (cs_daa (consensus_of v')) !! x = daa_addedBlocks (cs_daa (consensus_of v)) !! x.
(** The DAG, its headers, the virtual's UTXO set and the caches are the same. *)
Definition same_dag v v' : Prop :=
  cs_finality (consensus_of v') = cs_finality (consensus_of v) ∧ cs_headers (consensus_of v') = cs_headers (consensus_of v) ∧
  us_virtualUTXO (rs_stores (vs_resolve v')) = us_virtualUTXO (rs_stores (vs_resolve v)) ∧ rs_caches (vs_resolve v') = rs_caches (vs_resolve v).

#[export] Instance same_dag_preorder : PreOrder same_dag.
Proof. split; [by intros v; split_and!|]. intros x y z (? & ? & ? & ?) (? & ? & ? & ?). split_and!; congruence. Qed.

Lemma removed_dag x v : same_dag v (removed x v).
Proof using Type. unfold removed. by destruct (pm_isArchivalNode pm). Qed.
Lemma removedAll_dag l v : same_dag v (removedAll l v).
Proof using Type. induction l as [|x l IH]; simpl; [done|]. transitivity (removedAll l v); [done|apply removed_dag]. Qed.
Lemma removedAll_tips l v : vs_tips (removedAll l v) = vs_tips v.
Proof using Type. by induction l. Qed.

Lemma removedAll_status l v x : rs_statuses (vs_resolve (removedAll l v)) !! x = if bool_decide (x ∈ l) then Some StatusHeaderOnly else rs_statuses (vs_resolve v) !! x.
Proof using Type.
  induction l as [|y l IH]; [by rewrite bool_decide_eq_false_2 by (by intros ?%elem_of_nil)|]. cbn [removedAll foldr].
  assert (∀ w, rs_statuses (vs_resolve (removed y w)) = <[y := StatusHeaderOnly]> (rs_statuses (vs_resolve w))) as -> by (intros w; unfold removed; by destruct (pm_isArchivalNode pm)).
  destruct (decide (x = y)) as [->|Hne]; [by rewrite lookup_insert_eq, bool_decide_eq_true_2 by (by left)|].
  rewrite lookup_insert_ne by done. change (foldr removed v l) with (removedAll l v). rewrite IH. by rewrite (bool_decide_ext (x ∈ y :: l) (x ∈ l)) by (rewrite elem_of_cons; tauto).
Qed.

Lemma removed_same x y v : x ≠ y → same_data x v (removed y v).
Proof using Type. intros Hne. unfold removed, same_data. destruct (pm_isArchivalNode pm); simpl; rewrite ?lookup_insert_ne, ?lookup_delete_ne by done; done. Qed.
Lemma removedAll_same x l v : x ∉ l → same_data x v (removedAll l v).
Proof using Type.
  induction l as [|y l IH]; intros Hx; [done|]. apply not_elem_of_cons in Hx as [Hxy Hx]. destruct (IH Hx) as (? & ? & ? & ? & ? & ? & ? & ?).
  destruct (removed_same x y (removedAll l v) Hxy) as (? & ? & ? & ? & ? & ? & ? & ?). cbn [removedAll foldr]. split_and!; etransitivity; eassumption.
Qed.
Lemma removedAll_gone x l v : pm_isArchivalNode pm = false → x ∈ l → gone x (removedAll l v).
Proof using Type.
  intros Ha. induction l as [|y l IH]; [by intros ?%elem_of_nil|]. intros Hx. cbn [removedAll foldr]. destruct (decide (x = y)) as [->|Hne].
  - unfold gone, removed. rewrite Ha. simpl. rewrite !lookup_delete_eq. done.
  - apply elem_of_cons in Hx as [->|Hx]; [done|]. destruct (IH Hx) as (? & ? & ? & ? & ? & ? & ?). destruct (removed_same x y (removedAll l v) Hne) as (_ & ? & ? & ? & ? & ? & ? & ?).
    split_and!; etransitivity; eassumption.
Qed.

Lemma deleteBlock_run s x st : rs_statuses (vs_resolve (pn_virtual s)) !! x = Some st →
  deleteBlock pm x s = if bool_decide (st = StatusHeaderOnly) then (s, Ret true) else (put_virtual (removed x (pn_virtual s)) s, Ret false).
Proof using Type.
  intros Hst. unfold deleteBlock. rewrite (bind_ret_l _ _ s s st) by (apply onVirtual_read, status_read; done). case_bool_decide; [done|].
  rewrite (bind_ret_l _ _ s _ () (onVirtual_run _ s _ () eq_refl)). unfold removed. destruct (pm_isArchivalNode pm); [done|]. by rewrite (bind_ret_l _ _ _ _ () (onVirtual_run _ _ _ () eq_refl)).
Qed.

Lemma graph_ok_dag dag_parents root v v' : same_dag v v' → graph_ok dag_parents root v → graph_ok dag_parents root v'.
Proof using Type.
  intros (Hf & _) [H1 H2 H3 H4]. assert (dtm_of (consensus_of v') = dtm_of (consensus_of v)) as E by (unfold dtm_of; by rewrite Hf). split; by rewrite E.
Qed.
End Removed.

(** ** The search *)
Section Search.
Context `{Libs} `{MuHash}.
Variables (pm : pruningManager) (dag_parents : list Z → list (list Z)) (root : list Z) (v : virtualState).
Abbreviation dtm := (dtm_of (consensus_of v)).
Abbreviation nodes := (dom (reachabilityDataStore (dt_reachabilityManager (dtm_of (consensus_of v))))).
Abbreviation gd := (ghostdag_of (consensus_of v)).
Abbreviation anc := (dag_anc dag_parents).
Abbreviation status x := (rs_statuses (vs_resolve v) !! x).

Abbreviation degree x := (length (dag_parents x)).

(** The fuel counts the parents of every block. *)
Lemma sum_parents (N : gset hash) : ∀ R : gmap hash BlockRelations, (∀ x, x ∈ N → br_Parents <$> R !! x = Some (dag_parents x)) →
  (sum_list_with (λ x, degree x) (elements N) ≤ map_fold (λ _ relations n, length (br_Parents relations) + n) 0 R)%nat.
Proof using Type.
  induction N as [|x N Hx IH] using set_ind_L; intros R HR; [rewrite elements_empty; simpl; lia|].
  destruct (R !! x) as [r|] eqn:Er; [|by specialize (HR x ltac:(set_solver)); rewrite Er in HR]. assert (br_Parents r = dag_parents x) as Hr by (specialize (HR x ltac:(set_solver)); rewrite Er in HR; by injection HR).
  rewrite (elements_union_singleton N x Hx). cbn [sum_list_with]. rewrite (map_fold_delete_L _ _ x r) by (done || intros; lia). rewrite Hr.
  apply Nat.add_le_mono_l. apply IH. intros y Hy. rewrite lookup_delete_ne by set_solver. apply HR. set_solver.
Qed.

(** The stores describe a DAG, and below a block with a body the blocks without one are closed downwards. *)
Record prunable : Prop := {
  pr_dag : graph_ok dag_parents root v;
  pr_data x : x ∈ nodes → x ∈ dom gd;
  pr_status x : x ∈ nodes → is_Some (status x);
  pr_closed x y z : y ∈ nodes → status y ≠ Some StatusHeaderOnly → anc x y → status x = Some StatusHeaderOnly → anc z x → status z = Some StatusHeaderOnly
}.
Hypothesis Hok : prunable.

(** The parents of the blocks that were not visited *)
Definition pending (V : gset hash) : nat := sum_list_with (λ x, degree x) (elements (nodes ∖ V)).

Lemma pending_visit V x : x ∈ nodes → x ∉ V → pending V = (degree x + pending ({[x]} ∪ V))%nat.
Proof using Type.
  intros Hx Hv. unfold pending. assert (nodes ∖ V = {[x]} ∪ (nodes ∖ ({[x]} ∪ V))) as ->.
  { apply set_eq. intros y. rewrite elem_of_union, !elem_of_difference, elem_of_union, !elem_of_singleton. destruct (decide (y = x)) as [->|]; tauto. }
  rewrite elements_union_singleton by (rewrite elem_of_difference, elem_of_union, elem_of_singleton; tauto). done.
Qed.

Lemma pending_fuel : (pending ∅ ≤ map_fold (λ _ relations n, length (br_Parents relations) + n) 0 (dt_blockRelationStore dtm))%nat.
Proof using Hok. unfold pending. apply sum_parents. intros x Hx. apply (dk_parents _ _ _ (pr_dag Hok)). set_solver. Qed.

(** [V] are the blocks that were visited, [hs] those on the heap, and [l] those that were deleted. *)
Variable starts : list hash.
Record deleting (V : gset hash) (hs l : list hash) : Prop := {
  dl_nodes x : x ∈ V ∨ x ∈ hs → x ∈ nodes ∧ past_of dag_parents starts x;
  dl_deleted x : x ∈ l → x ∈ V ∧ status x ≠ Some StatusHeaderOnly ∧ ∀ p, p ∈ dag_parents x → p ∈ V ∨ p ∈ hs;
  dl_visited x : x ∈ V → x ∈ l ∨ status x = Some StatusHeaderOnly;
  dl_starts x : x ∈ starts → x ∈ V ∨ x ∈ hs
}.

Lemma deleting_perm V hs hs' l : hs ≡ₚ hs' → deleting V hs l → deleting V hs' l.
Proof using Type.
  intros E [H1 H2 H3 H4]. split; [|intros x Hx; destruct (H2 x Hx) as (? & ? & Hp); split_and!; [done|done|]; intros p ?; rewrite <- E; by apply Hp|done|]; intros x; rewrite <- E; auto.
Qed.

(** A block that was visited before, or that has no body *)
Lemma deleting_skip V x hs l : deleting V (x :: hs) l → x ∈ V ∨ status x = Some StatusHeaderOnly → deleting ({[x]} ∪ V) hs l.
Proof using Hok.
  intros [H1 H2 H3 H4] Hx. split.
  - intros y Hy. apply H1. set_solver.
  - intros y Hy. destruct (H2 y Hy) as (? & ? & Hp). split_and!; [set_solver|done|]. intros p Hpp. specialize (Hp p Hpp). set_solver.
  - intros y. rewrite elem_of_union, elem_of_singleton. intros [->|Hy]; [destruct Hx as [Hx|Hx]; [by apply H3|by right]|by apply H3].
  - intros y Hy. specialize (H4 y Hy). set_solver.
Qed.

Lemma deleting_delete V x hs l : deleting V (x :: hs) l → status x ≠ Some StatusHeaderOnly → deleting ({[x]} ∪ V) (dag_parents x ++ hs) (x :: l).
Proof using Hok.
  intros [H1 H2 H3 H4] Hst. destruct (H1 x ltac:(right; by left)) as [Hn (q & Hq & Hxq)]. split.
  - intros y Hy. assert (y ∈ dag_parents x ∨ (y ∈ V ∨ y ∈ x :: hs)) as [Hp|Hold] by (rewrite elem_of_app, elem_of_union, elem_of_singleton in *; rewrite elem_of_cons; tauto); [|by apply H1].
    assert (anc y x) as Hyx by (by apply anc_parent). split; [by apply (anc_nodes _ _ _ (pr_dag Hok) y x)|]. exists q. split; [done|]. by eapply anc_trans.
  - intros y [->|Hy]%elem_of_cons; [split_and!; [set_solver|done|intros p Hp; right; set_solver]|]. destruct (H2 y Hy) as (? & ? & Hp). split_and!; [set_solver|done|].
    intros p Hpp. specialize (Hp p Hpp). set_solver.
  - intros y. rewrite elem_of_union, elem_of_singleton. intros [->|Hy]; [left; by left|]. destruct (H3 y Hy); [left; by right|by right].
  - intros y Hy. specialize (H4 y Hy). set_solver.
Qed.

(** The search ends with everything below the starts visited. *)
Lemma deleting_end V l : deleting V [] l → (∀ x, x ∈ starts → ∃ y, y ∈ nodes ∧ status y ≠ Some StatusHeaderOnly ∧ anc x y) →
  ∀ x, x ∈ l ∨ status x = Some StatusHeaderOnly ↔ past_of dag_parents starts x ∨ status x = Some StatusHeaderOnly.
Proof using Hok.
  intros [H1 H2 H3 H4] Hst x. split; [intros [Hx|Hx]; [left|by right]; apply H1; left; by apply H2|]. intros [(q & Hq & Ha)|Hx]; [|by right].
  assert (∀ z, anc x z → z ∈ V → anc z q → x ∈ l ∨ status x = Some StatusHeaderOnly) as Hgen.
  { intros z Hz. induction Hz as [|z y x Hy Hyx IH]; intros Hzv Hzq; [by apply H3|]. destruct (H3 z Hzv) as [Hzl|Hzh].
    - apply IH; [done|destruct (H2 z Hzl) as (_ & _ & Hp); destruct (Hp y Hy) as [?|?%elem_of_nil]; done|]. eapply anc_trans; [by apply anc_parent|done].
    - right. destruct (Hst q Hq) as (b & Hb & Hbody & Hqb). apply (pr_closed Hok z b); [done|done|by eapply anc_trans|done|]. eapply anc_trans; [done|by apply anc_parent]. }
  destruct (H4 q Hq) as [Hqv|?%elem_of_nil]; [|done]. apply (Hgen q); [done|done|apply anc_refl].
Qed.

(** *** The loop *)
Abbreviation after s l := (put_virtual (removedAll pm l v) s).

Lemma after_data s (l : list hash) : pn_virtual s = v → ghostdag_of (consensus_of (pn_virtual (after s l))) = gd.
Proof using Type. intros Hv. simpl. destruct (removedAll_dag pm l v) as (Hf & _). unfold ghostdag_of, rt_of, dtm_of. by rewrite Hf. Qed.
Lemma after_read {A} (s : pruningState) (l : list hash) (o : gmap hash BlockGHOSTDAGData → outcome ghostdagError A) a : pn_virtual s = v → o gd = Ret a → onVirtual (onData o) (after s l) = (after s l, Ret a).
Proof using Type. intros Hv Ho. apply onVirtual_read, onData_read. by rewrite after_data. Qed.
Lemma after_parents s (l : list hash) x : pn_virtual s = v → x ∈ nodes → onVirtual (dag (dtm_Parents x)) (after s l) = (after s l, Ret (dag_parents x)).
Proof using Hok.
  intros Hv Hx. apply onVirtual_read. simpl. destruct (removedAll_dag pm l v) as (Hf & ? & ? & ?). apply (parents_read dag_parents root).
  - apply (graph_ok_dag dag_parents root v); [by split_and!|apply (pr_dag Hok)].
  - unfold dtm_of. by rewrite Hf.
Qed.

Lemma downwardLoop_spec s : pn_virtual s = v → ∀ fuel V bh hs l, deleting V hs l → down_heap gd bh hs → (length hs + pending V < fuel)%nat →
  ∃ V' l', downwardLoop pm fuel V bh (after s l) = (after s l', Ret ()) ∧ deleting V' [] l'.
Proof using Hok.
  intros Hv. induction fuel as [|fuel IH]; intros V bh hs l Hdel Hh Hf; [lia|]. cbn [downwardLoop].
  assert (bh_Len bh = zlen hs) as Hlen by (unfold bh_Len, zlen; by rewrite <- (dh_hashes _ _ _ Hh), length_map).
  rewrite Hlen. destruct hs as [|h0 hs0]; [by exists V, l|]. destruct (Z.eqb_spec (zlen (h0 :: hs0)) 0) as [E|_]; [unfold zlen in E; simpl in E; lia|].
  destruct (bh_Pop_spec gd bh (h0 :: hs0) Hh ltac:(done)) as (x & bh' & hs & Hpop & Hh' & Hperm & _ & _).
  rewrite (bind_ret_l _ _ _ _ _ (after_read s l (λ _, bh_Pop bh) (x, bh') Hv Hpop)). pose proof (deleting_perm _ _ _ _ Hperm Hdel) as Hdel'.
  pose proof (Permutation_length Hperm) as Hl. cbn [length] in Hl, Hf. destruct (dl_nodes _ _ _ Hdel' x ltac:(right; by left)) as [Hx _].
  case_bool_decide as Hvis.
  { pose proof (deleting_skip V x hs l Hdel' (or_introl Hvis)) as Hskip. assert ({[x]} ∪ V = V) as E by set_solver. rewrite E in Hskip. apply (IH V bh' hs l Hskip Hh'). lia. }
  pose proof (pending_visit V x Hx Hvis) as Hpend. destruct (pr_status Hok x Hx) as [st Hst].
  assert (rs_statuses (vs_resolve (pn_virtual (after s l))) !! x = Some st) as Hst'.
  { simpl. rewrite removedAll_status, bool_decide_eq_false_2; [done|]. intros Hxl. by apply (dl_deleted _ _ _ Hdel') in Hxl as [? _]. }
  pose proof (deleteBlock_run pm (after s l) x st Hst') as Hrun. case_bool_decide as Est.
  - rewrite (bind_ret_l _ _ _ _ _ Hrun). apply (IH _ bh' hs l); [apply (deleting_skip V x hs l Hdel'); right; by rewrite Hst, Est|done|lia].
  - rewrite (bind_ret_l _ _ _ _ _ Hrun). change (put_virtual (removed pm x (pn_virtual (after s l))) (after s l)) with (after s (x :: l)).
    rewrite (bind_ret_l _ _ _ _ _ (after_parents s (x :: l) x Hv Hx)).
    destruct (PushSlice_spec gd (dag_parents x) bh' hs Hh') as (bh2 & Hpush & Hh2).
    { intros p Hp. apply (pr_data Hok), (anc_nodes _ _ _ (pr_dag Hok) p x Hx). by apply anc_parent. }
    rewrite (bind_ret_l _ _ _ _ _ (after_read s (x :: l) (λ S, PushSlice S bh' (dag_parents x)) bh2 Hv Hpush)).
    apply (IH _ bh2 (dag_parents x ++ hs) (x :: l)); [apply deleting_delete; [done|rewrite Hst; congruence]|done|]. rewrite length_app. lia.
Qed.

Lemma deleteBlocksDownward_spec s bh : pn_virtual s = v → down_heap gd bh starts → (∀ x, x ∈ starts → x ∈ nodes) →
  ∃ V l, deleteBlocksDownward pm bh s = (after s l, Ret ()) ∧ deleting V [] l.
Proof using Hok.
  intros Hv Hh Hst. unfold deleteBlocksDownward. rewrite (bind_ret_l _ _ s s s) by done. rewrite Hv. assert (after s [] = s) as E by (simpl; rewrite <- Hv; by destruct s).
  set (fuel := Datatypes.S _). destruct (downwardLoop_spec s Hv fuel ∅ bh starts []) as (V & l & Hrun & Hdel); [|done| |exists V, l; by rewrite E in Hrun].
  - split.
    + intros x [?|Hx]; [set_solver|]. split; [by apply Hst|]. exists x. split; [done|apply anc_refl].
    + by intros x ?%elem_of_nil.
    + intros x. set_solver.
    + intros x Hx. by right.
  - unfold fuel, anticoneFuel. rewrite <- (Permutation_length (dh_hashes _ _ _ Hh)). pose proof pending_fuel. lia.
Qed.
End Search.

(** ** Pruning the tips, and the whole deletion *)
Lemma anc_through dag_parents x y : dag_anc dag_parents x y → x ≠ y → ∃ q, q ∈ dag_parents y ∧ dag_anc dag_parents x q.
Proof. destruct 1 as [|y q x Hq Ha]; [done|]. intros _. by exists q. Qed.

Section Past.
Context `{Libs} `{MuHash}.
Variables (pm : pruningManager) (dag_parents : list Z → list (list Z)) (root : list Z) (v : virtualState) (pp : list Z) (virtualParents : list (list Z)).
Abbreviation nodes := (dom (reachabilityDataStore (dt_reachabilityManager (dtm_of (consensus_of v))))).
Abbreviation anc := (dag_anc dag_parents).
Abbreviation status x := (rs_statuses (vs_resolve v) !! x).
Hypothesis Hok : prunable dag_parents root v.
Hypothesis Hpp : pp ∈ nodes.
Hypothesis Hbody : status pp ≠ Some StatusHeaderOnly.
Hypothesis Hvp : ∀ x, x ∈ virtualParents → x ∈ nodes.
Hypothesis Hparents : br_Parents <$> dt_blockRelationStore (dtm_of (consensus_of v)) !! VirtualBlockHash = Some virtualParents.
Hypothesis Htips : ∀ x, x ∈ vs_tips v → x ∈ nodes ∧ status x ≠ Some StatusHeaderOnly.

(** A tip that stays: above the pruning point or merged by the virtual block *)
Definition stays (x : hash) : Prop := anc pp x ∨ past_of dag_parents virtualParents x.

Lemma stays_run s x : pn_virtual s = v → x ∈ nodes → ∃ r, isInPruningFutureOrInVirtualPast x pp virtualParents s = (s, Ret r) ∧ (r = true ↔ stays x).
Proof using Hok Hpp Hvp.
  intros Hv Hx. unfold isInPruningFutureOrInVirtualPast, stays. destruct (ancestor_read dag_parents root v (pr_dag _ _ _ Hok) pp x Hpp Hx) as (r & Hr & Hans).
  rewrite (bind_ret_l _ _ s s r) by (apply onVirtual_read; by rewrite Hv). destruct r; [exists true; split; [done|]; tauto|].
  destruct (ancestorOfAny_read dag_parents root v (pr_dag _ _ _ Hok) x virtualParents Hx Hvp) as (r' & Hr' & Hans'). exists r'. split; [apply onVirtual_read; by rewrite Hv|].
  rewrite Hans'. split; [tauto|]. intros [Ha|Ha]; [by apply Hans in Ha|done].
Qed.

Lemma splitTips_spec s l : pn_virtual s = v → (∀ x, x ∈ l → x ∈ nodes) →
  ∃ pruned kept, splitTips pp virtualParents l s = (s, Ret (pruned, kept)) ∧ pruned `sublist_of` l ∧ kept `sublist_of` l ∧
    (∀ x, x ∈ pruned ↔ x ∈ l ∧ ¬ stays x) ∧ (∀ x, x ∈ kept ↔ x ∈ l ∧ stays x).
Proof using Hok Hpp Hvp.
  intros Hv. induction l as [|x l IH]; intros Hl; cbn [splitTips]; [exists [], []; split_and!; [done..| |]; intros x; split; [by intros ?%elem_of_nil|by intros [?%elem_of_nil _]..|by intros ?%elem_of_nil|by intros [?%elem_of_nil _]]|].
  destruct (stays_run s x Hv (Hl x ltac:(by left))) as (r & Hr & Hans). rewrite (bind_ret_l _ _ _ _ _ Hr).
  destruct IH as (pruned & kept & Hrun & Hs1 & Hs2 & H1 & H2); [intros; apply Hl; by right|]. rewrite (bind_ret_l _ _ _ _ _ Hrun). destruct r; cbn [fst snd].
  - exists pruned, (x :: kept). split; [done|]. split; [by apply sublist_cons|]. split; [by apply sublist_skip|]. split; intros y; rewrite !elem_of_cons, ?H1, ?H2.
    + split; [tauto|]. intros [[->|?] Hn]; [|done]. destruct Hn. by apply Hans.
    + split; [intros [->|[? ?]]; [split; [by left|by apply Hans]|tauto]|tauto].
  - exists (x :: pruned), kept. split; [done|]. split; [by apply sublist_skip|]. split; [by apply sublist_cons|]. split; intros y; rewrite !elem_of_cons, ?H1, ?H2.
    + split; [intros [->|[? ?]]; [split; [by left|by intros ?%Hans]|tauto]|tauto].
    + split; [tauto|]. intros [[->|?] Hn]; [by apply Hans in Hn|done].
Qed.

(** In the past of the pruning point, or below a tip that is pruned *)
Definition below (x : hash) : Prop := (x ≠ pp ∧ anc x pp) ∨ ∃ tip, tip ∈ vs_tips v ∧ ¬ stays tip ∧ anc x tip.

Lemma below_starts pruned x : (∀ y, y ∈ pruned ↔ y ∈ vs_tips v ∧ ¬ stays y) → past_of dag_parents (dag_parents pp ++ pruned) x ↔ below x.
Proof using Hok Hpp Hbody.
  intros Hpr. unfold below, past_of. split.
  - intros (q & [Hq|Hq]%elem_of_app & Ha); [left|right; exists q; apply Hpr in Hq as [? ?]; done]. split; [|by eapply anc_trans, anc_parent].
    intros ->. apply (dk_acyclic _ _ _ (pr_dag _ _ _ Hok) pp Hpp). by exists q.
  - intros [[Hne Ha]|(tip & Ht & Hn & Ha)]; [|exists tip; split; [apply elem_of_app; right; by apply Hpr|done]].
    destruct (anc_through dag_parents x pp Ha Hne) as (q & Hq & Hxq). exists q. split; [apply elem_of_app; by left|done].
Qed.

(** Nothing at or above the pruning point is below it. *)
Lemma future_kept x : x ∈ nodes → anc pp x → ¬ below x.
Proof using Hok Hpp Hbody.
  intros Hx Ha [[Hne Hxp]|(tip & _ & Hn & Hxt)]; [|apply Hn; left; by eapply anc_trans].
  destruct (anc_through dag_parents x pp Hxp Hne) as (q & Hq & Hxq). apply (dk_acyclic _ _ _ (pr_dag _ _ _ Hok) pp Hpp). exists q. split; [done|]. by eapply anc_trans.
Qed.

(** The state after the deletion *)
Record past_deleted (v' : virtualState) : Prop := {
  pd_dag : same_dag v v';
  pd_tips : vs_tips v' `sublist_of` vs_tips v ∧ ∀ x, x ∈ vs_tips v' ↔ x ∈ vs_tips v ∧ stays x;
  pd_status x : rs_statuses (vs_resolve v') !! x = Some StatusHeaderOnly ↔ below x ∨ status x = Some StatusHeaderOnly;
  pd_kept x : ¬ below x ∨ status x = Some StatusHeaderOnly → same_data x v v';
  pd_gone x : pm_isArchivalNode pm = false → below x → status x ≠ Some StatusHeaderOnly → gone x v'
}.

Lemma deletePastBlocks_spec s : pn_virtual s = v → ∃ v', deletePastBlocks pm pp s = (put_virtual v' s, Ret ()) ∧ past_deleted v'.
Proof using All.
  intros Hv. unfold deletePastBlocks.
  assert (onVirtual (dag (dtm_Parents VirtualBlockHash)) s = (s, Ret virtualParents)) as Hrun.
  { apply onVirtual_read. rewrite Hv. apply dag_read. unfold dtm_Parents, BlockRelation, bind, get. destruct (_ !! VirtualBlockHash) as [r|]; [|done]. by injection Hparents as <-. }
  rewrite (bind_ret_l _ _ _ _ _ Hrun). clear Hrun. destruct (splitTips_spec s (vs_tips v) Hv) as (pruned & kept & Hsplit & _ & Hsub & Hpr & Hke); [intros x Hx; by apply Htips|].
  set (v1 := {| vs_resolve := vs_resolve v; vs_tips := kept |}). set (s1 := put_virtual v1 s).
  assert (pruneTips pp virtualParents s = (s1, Ret pruned)) as Htip.
  { unfold pruneTips. rewrite (bind_ret_l _ _ s s s) by done. rewrite Hv, (bind_ret_l _ _ _ _ _ Hsplit). unfold stageTips.
    rewrite (bind_ret_l _ _ s s1 ()); [done|]. unfold onVirtual, modify. by rewrite Hv. }
  rewrite (bind_ret_l _ _ _ _ _ Htip). assert (prunable dag_parents root v1) as Hok1 by (destruct Hok as [[] ? ? ?]; split; [by split|done..]).
  assert (∀ x, x ∈ pruned → x ∈ nodes) as Hprn by (intros x [Hx _]%Hpr; by apply Htips).
  destruct (PushSlice_spec (ghostdag_of (consensus_of v1)) pruned NewDownHeap [] (NewDownHeap_ok _)) as (bh1 & Hp1 & Hh1); [intros x Hx; by apply (pr_data _ _ _ Hok), Hprn|].
  rewrite app_nil_r in Hh1. rewrite (bind_ret_l _ _ s1 s1 bh1) by (apply onVirtual_read, onData_read; exact Hp1).
  rewrite (bind_ret_l _ _ s1 s1 (dag_parents pp)) by (apply onVirtual_read, (parents_read dag_parents root v1 (pr_dag _ _ _ Hok1)); exact Hpp).
  assert (∀ x, x ∈ dag_parents pp → x ∈ nodes) as Hppn by (intros x Hx; apply (anc_nodes _ _ _ (pr_dag _ _ _ Hok) x pp Hpp); by apply anc_parent).
  destruct (PushSlice_spec (ghostdag_of (consensus_of v1)) (dag_parents pp) bh1 pruned Hh1) as (bh2 & Hp2 & Hh2); [intros x Hx; by apply (pr_data _ _ _ Hok), Hppn|].
  rewrite (bind_ret_l _ _ s1 s1 bh2) by (apply onVirtual_read, onData_read; exact Hp2).
  destruct (deleteBlocksDownward_spec pm dag_parents root v1 Hok1 (dag_parents pp ++ pruned) s1 bh2 eq_refl Hh2) as (V & l & -> & Hdel); [intros x [?|?]%elem_of_app; [by apply Hppn|by apply Hprn]|].
  exists (removedAll pm l v1). split; [done|].
  assert (∀ x, x ∈ l ∨ status x = Some StatusHeaderOnly ↔ below x ∨ status x = Some StatusHeaderOnly) as Hl.
  { intros x. rewrite <- (below_starts pruned x Hpr). apply (deleting_end dag_parents root v1 Hok1 _ V l Hdel). intros q [Hq|Hq]%elem_of_app.
    - exists pp. split; [done|]. split; [done|]. by apply anc_parent.
    - exists q. apply Hpr in Hq as [Hq _]. split; [by apply Htips|]. split; [by apply Htips|apply anc_refl]. }
  assert (∀ x, x ∈ l → status x ≠ Some StatusHeaderOnly) as Hln by (intros x Hx; by apply (dl_deleted _ _ _ _ _ _ Hdel)).
  split.
  - transitivity v1; [done|apply removedAll_dag].
  - by rewrite removedAll_tips.
  - intros x. rewrite removedAll_status, <- Hl. case_bool_decide; [tauto|]. simpl. tauto.
  - intros x Hx. assert (x ∉ l) as Hxl by (intros Hxl; pose proof (Hln x Hxl); pose proof (proj1 (Hl x) (or_introl Hxl)); tauto). by apply (removedAll_same pm x l v1).
  - intros x Ha Hb Hst. apply removedAll_gone; [done|]. by destruct (proj2 (Hl x) (or_introl Hb)).
Qed.

(** The deletion can be repeated later. *)
Lemma past_deleted_prunable v' : past_deleted v' → prunable dag_parents root v'.
Proof using Hok Hpp Hbody.
  intros [Hdag _ Hst Hkept _]. assert (dtm_of (consensus_of v') = dtm_of (consensus_of v)) as E by (unfold dtm_of; by destruct Hdag as [-> _]). split.
  - apply (graph_ok_dag _ _ v); [done|apply (pr_dag _ _ _ Hok)].
  - unfold ghostdag_of, rt_of. rewrite E. apply (pr_data _ _ _ Hok).
  - intros x. rewrite E. intros Hx. destruct (pr_status _ _ _ Hok x Hx) as [st Hs]. destruct (rs_statuses (vs_resolve v') !! x) eqn:Hx'; [done|].
    assert (¬ below x ∨ status x = Some StatusHeaderOnly) as Hn by (left; intros Hb; assert (rs_statuses (vs_resolve v') !! x = Some StatusHeaderOnly) by (apply Hst; by left); congruence).
    apply Hkept in Hn as [Hn _]. rewrite Hx', Hs in Hn. done.
  - intros x y z. rewrite E, !Hst. intros Hy Hyb Hxy [Hx|Hx] Hzx.
    + left. destruct Hx as [[Hne Ha]|(tip & Ht & Hs & Ha)]; [left|right; exists tip; split_and!; [done|done|by eapply anc_trans]].
      split; [|by eapply anc_trans]. intros ->. destruct (anc_through dag_parents x pp Ha Hne) as (q & Hq & Hxq). apply (dk_acyclic _ _ _ (pr_dag _ _ _ Hok) pp Hpp). exists q. split; [done|]. by eapply anc_trans.
    + right. apply (pr_closed _ _ _ Hok x y z); [done|tauto|done..].
Qed.
End Past.
