(* ===== verification/PruningProps.v ===== *)
(** * Properties of the pruning manager

    The pruning point that is chosen is one that other nodes accept, the deletion takes away exactly the past, and an update that runs to its end
    leaves the UTXO set of the new pruning point. *)
From S2P Require Import Prelude Externalapi UtxoDiff ScriptNum ScriptStack OpcodeTable Script Hashing SigCache Opcode Engine.
From S2P Require Import OpcodeSafety EngineSafety SigSpec CacheTransparency.
From S2P Require Import Interval ReachabilityData Reachability ReachabilityTree ReachabilityAdd Reindex DagTopology Block Merkle Ghostdag GhostdagOrder GhostdagColour Heap Window DifficultyManager Traversal HeaderValidation HeaderSafety TransactionValidator TransactionSafety PastUtxo UtxoAcceptance PastUtxoSpec Coinbase VerifyUtxo Supply ResolveStatus UtxoDiffChain ResolveSpec VirtualBlock VirtualSpec VirtualParents VirtualSelect VirtualProps.
From S2P Require Import Stores ConsensusStores ChainStore PruningStore UtxoSync UtxoSerialization StoreProps PruningManager PruningSpec PruningDelete.
Import Interval Store Reachability TransactionHashing SigCache Opcode BlockHeap Ghostdag DifficultyManager DagTopology Traversal Header HeaderValidation TransactionValidator PastUtxo VerifyUtxo ResolveStatus VirtualBlock Cell Pruning PruningManager.
Local Open Scope Z_scope.
Local Open Scope prog_scope.

Abbreviation hash := (list Z) (only parsing).
Abbreviation bytes := (list Z) (only parsing).

(** ** The sanity check *)
Section Commitment.
Context `{Libs} `{MuHashOk}.
Variable ec : codec utxoEntry.

Lemma multisetOf_spec l : ∀ U V acc, NoDup l.*1 → (∀ o, (list_to_map l : gmap DomainOutpoint bytes) !! o = U !! o ≫= encode ec) → (∀ o e, U !! o = Some e → codable ec e) →
  V ##ₘ U → ms_equiv acc (ms_of V) → ∃ m, multisetOf ec l acc = Ret m ∧ ms_equiv m (ms_of (V ∪ U)).
Proof using Type*.
  induction l as [|[o b] l IH]; intros U V acc Hnd HU Hcod Hdis Hacc; cbn [multisetOf].
  - exists acc. split; [done|]. assert (U = ∅) as ->; [|by rewrite (right_id_L ∅ (∪))]. apply map_empty. intros o. specialize (HU o). simpl in HU. rewrite lookup_empty in HU.
    destruct (U !! o) as [e|] eqn:E; [|done]. destruct (Hcod o e E) as (b & Hb & _). simpl in HU. by rewrite Hb in HU.
  - apply NoDup_cons in Hnd as [Ho Hnd]. pose proof (HU o) as Hb. simpl in Hb. rewrite lookup_insert_eq in Hb. destruct (U !! o) as [e|] eqn:E; [|done]. simpl in Hb.
    destruct (Hcod o e E) as (b' & Hb' & Hd). rewrite Hb' in Hb. injection Hb as <-. rewrite Hd.
    assert (V !! o = None) as HV by (by eapply map_disjoint_Some_r).
    destruct (IH (delete o U) (<[o := e]> V) (ms_Add acc (SerializeUTXO e o))) as (m & Hm & Heq); [done| | | | |].
    + intros o'. destruct (decide (o' = o)) as [->|Hne]; [rewrite lookup_delete_eq; by apply not_elem_of_list_to_map_1|]. rewrite lookup_delete_ne by done. rewrite <- HU. simpl. by rewrite lookup_insert_ne.
    + intros o' e' He'. apply lookup_delete_Some in He' as [_ He']. by eapply Hcod.
    + apply map_disjoint_insert_l. split; [apply lookup_delete_eq|]. by apply map_disjoint_delete_r.
    + rewrite Hacc. symmetry. by apply ms_of_insert.
    + exists m. split; [done|]. rewrite Heq. replace (<[o := e]> V ∪ delete o U) with (V ∪ U); [done|]. apply map_eq. intros o'.
      destruct (decide (o' = o)) as [->|Hne]; [rewrite (lookup_union_r _ _ _ HV), E; symmetry; apply lookup_union_Some_l, lookup_insert_eq|].
      rewrite !lookup_union, lookup_insert_ne, lookup_delete_ne by done. done.
Qed.
End Commitment.

(** ** The whole update *)
Section Whole.
Context `{Libs} `{MuHashOk}.
Variables (pm : pruningManager) (range : ∀ A, gmap DomainOutpoint A → list (DomainOutpoint * A)) (cursor : gmap DomainOutpoint bytes → list (DomainOutpoint * bytes))
  (ec : codec utxoEntry) (hc : codec hash).

(** The UTXO set that the store has for the pruning point *)
Definition serves (store : pruningStore) (U : utxoCollection) : Prop := ∀ o, ps_pruningPointUTXOSet store !! o = U !! o ≫= encode ec.

Lemma validate_run s U x header : serves (pn_store s) U → (∀ o e, U !! o = Some e → codable ec e) → (∀ m, cursor m ≡ₚ map_to_list m) →
  cs_headers (consensus_of (pn_virtual s)) !! x = Some header → hd_utxoCommitment header = ms_Hash (ms_of U) →
  validateUTXOSetFitsCommitment cursor ec x s = (s, Ret ()).
Proof using Type*.
  intros HU Hcod Hcur Hh Hc. unfold validateUTXOSetFitsCommitment. set (set := ps_pruningPointUTXOSet (pn_store s)).
  destruct (multisetOf_spec ec (cursor set) U ∅ ms_New) as (m & Hm & Heq); [rewrite Hcur; apply NoDup_fst_map_to_list| |done|apply map_disjoint_empty_l|done|].
  { intros o. rewrite <- HU. fold set. f_equal. transitivity (list_to_map (map_to_list set) : gmap DomainOutpoint bytes); [|apply list_to_map_to_list].
    apply list_to_map_proper; [rewrite Hcur; apply NoDup_fst_map_to_list|apply Hcur]. }
  rewrite (left_id_L ∅ (∪)) in Heq. rewrite (bind_ret_l _ _ s s m).
  2:{ unfold onStore. rewrite (bind_ret_l _ _ (pn_store s) (pn_store s) (pn_store s)) by done. fold set. rewrite Hm. simpl. by destruct s. }
  rewrite (bind_ret_l _ _ s s header); [rewrite bool_decide_eq_true_2; [done|by rewrite Hc, Heq]|].
  apply onVirtual_read, onConsensus_read. unfold reading, Get. by rewrite Hh.
Qed.

Variables (entryAt : DomainOutpoint → Z → utxoEntry) (dag_parents : list Z → list (list Z)) (root : list Z).

(** An update is pending: the pruning point moved from [pp] to [pp'], whose UTXO sets are [U] and [U'], and the node has the UTXO set [U], or what an update
    that was interrupted left of it. *)
Record update_pending (s : pruningState) (pp pp' : hash) (U U' : utxoCollection) : Prop := {
  ap_point : has (ps_pruningPoint (pn_store s)) = true ∧ point_of pm hc (pn_store s) = Some pp' ∧ pp' ≠ pm_genesisHash pm;
  ap_previous : previous_of hc (pn_store s) = Some pp;
  ap_sets : coherent entryAt (rs_stores (vs_resolve (pn_virtual s))) ∧ between (pn_virtual s) pp pp' U U';
  ap_serves : agrees ec (ps_pruningPointUTXOSet (pn_store s)) U U';
  ap_codable o e : U' !! o = Some e → codable ec e;
  ap_commitment : ∃ header, cs_headers (consensus_of (pn_virtual s)) !! pp' = Some header ∧ hd_utxoCommitment header = ms_Hash (ms_of U')
}.

(** The DAG in which the past of [pp'] is deleted *)
Record deletable (v : virtualState) (pp' : hash) (virtualParents : list hash) : Prop := {
  de_prunable : prunable dag_parents root v;
  de_point : pp' ∈ dom (reachabilityDataStore (dt_reachabilityManager (dtm_of (consensus_of v)))) ∧ rs_statuses (vs_resolve v) !! pp' ≠ Some StatusHeaderOnly;
  de_virtual : br_Parents <$> dt_blockRelationStore (dtm_of (consensus_of v)) !! VirtualBlockHash = Some virtualParents;
  de_parents x : x ∈ virtualParents → x ∈ dom (reachabilityDataStore (dt_reachabilityManager (dtm_of (consensus_of v))));
  de_tips x : x ∈ vs_tips v → x ∈ dom (reachabilityDataStore (dt_reachabilityManager (dtm_of (consensus_of v)))) ∧ rs_statuses (vs_resolve v) !! x ≠ Some StatusHeaderOnly
}.

Hypothesis Hrange : enumerates range.
Hypothesis Hcursor : ∀ m, cursor m ≡ₚ map_to_list m.

Lemma updatePruningPoint_spec s pp pp' U U' virtualParents : update_pending s pp pp' U U' → deletable (pn_virtual s) pp' virtualParents →
  ∃ store' v', updatePruningPoint pm range cursor ec hc s = (put_virtual v' (put_store store' s), Ret ()) ∧
    serves store' U' ∧ ps_updating store' = false ∧ point_of pm hc store' = Some pp' ∧ past_deleted pm dag_parents (pn_virtual s) pp' virtualParents v'.
Proof using Type*.
  intros [(Hh & Hp & Hne) Hprev (Hco & Hbt) Hserve Hcod (header & Hhd & Hcm)] [Hpr [Hpn Hpb] Hvp Hvpn Htips]. set (v := pn_virtual s) in *. unfold updatePruningPoint.
  destruct (PruningPoint_run pm hc (pn_store s) pp' Hh Hp) as (st1 & Hrun1 & Hs1). rewrite (bind_ret_l _ _ _ _ _ (onStore_run _ _ _ _ Hrun1)). set (s1 := put_store st1 s).
  destruct (calculateDiff_spec pm entryAt v Hco hc s1 pp pp' U U' eq_refl Hne) as (st2 & d & Hrun2 & Hs2 & Ha & Hcan & Hset); [simpl; by rewrite (sa_previous _ _ _ _ Hs1)|done|].
  rewrite (bind_ret_l _ _ _ _ _ Hrun2). simpl in Hs2. assert (same_answers pm hc (pn_store s) st2) as Hs by (by transitivity st1).
  destruct (UpdatePruningPointUTXOSet_set range ec Hrange d st2 U) as (m & Hrun3 & Hm); [rewrite Hset, (sa_set _ _ _ _ Hs); exact Hserve|by rewrite Hset|]. rewrite Hset in Hm.
  set (st3 := put_utxoSet (λ _, m) st2) in *. set (s3 := put_store st3 s). rewrite (bind_ret_l _ _ (put_store st2 s1) s3 ()) by exact (onStore_run _ (put_store st2 s1) _ _ Hrun3).
  assert ((if pm_shouldSanityCheckPruningUTXOSet pm then validateUTXOSetFitsCommitment cursor ec pp' else ret ()) s3 = (s3, Ret ())) as Hcheck.
  { destruct (pm_shouldSanityCheckPruningUTXOSet pm); [|done]. by apply (validate_run s3 U' pp' header). }
  rewrite (bind_ret_l _ _ _ _ _ Hcheck). destruct (deletePastBlocks_spec pm dag_parents root v pp' virtualParents Hpr Hpn Hpb Hvpn Hvp Htips s3 eq_refl) as (v' & Hrun4 & Hdel).
  rewrite (bind_ret_l _ _ _ _ _ Hrun4). rewrite (onStore_run _ _ _ () eq_refl). eexists _, v'. split; [done|]. split; [done|]. split; [done|]. split; [|done].
  change (point_of pm hc st2 = Some pp'). by rewrite (sa_point _ _ _ _ Hs).
Qed.

(** Stopping after any of the writes of the update leaves it pending. *)
Lemma interrupted_pending s pp pp' U U' : update_pending s pp pp' U U' →
  ∃ s1 d, calculateDiffBetweenPreviousAndCurrentPruningPoints pm hc pp' s = (s1, Ret d) ∧
    ∀ n, ∃ store', interruptedUpdate range ec n d (pn_store s) = (store', Ret ()) ∧ update_pending (put_store store' s) pp pp' U U'.
Proof using Hrange.
  intros [(Hh & Hp & Hne) Hprev (Hco & Hbt) Hserve Hcod Hcm]. destruct (calculateDiff_spec pm entryAt (pn_virtual s) Hco hc s pp pp' U U' eq_refl Hne Hprev Hbt) as (st & d & Hrun & _ & Ha & Hcan & Hset).
  eexists _, d. split; [done|]. intros n. destruct (interruptedUpdate_agrees range ec Hrange n d (pn_store s) U Ha Hcan) as (m & Hint & Hag); [by rewrite Hset|by rewrite Hset|].
  eexists. split; [done|]. rewrite Hset in Hag. by split.
Qed.

Lemma UpdatePruningPointIfRequired_run s : UpdatePruningPointIfRequired pm range cursor ec hc s = if ps_updating (pn_store s) then updatePruningPoint pm range cursor ec hc s else (s, Ret ()).
Proof using Type.
  unfold UpdatePruningPointIfRequired. rewrite (bind_ret_l _ _ s s (ps_updating (pn_store s))) by (by destruct s as [? [] ?]). by destruct (ps_updating (pn_store s)).
Qed.
End Whole.

(** ** Properties *)
Module PruningProps.
Import HeaderSafetyProps BinarySerialization.
(** C16: the pruning point that a node chooses is one that other nodes accept.  On a DAG whose reachability tree is the tree of selected parents, with the
    candidate on the virtual's selected chain, updating by the virtual returns without an error and changes only the pruning store.  The new candidate is the last block
    of the chain at the pruning depth, if there is a new one; the pruning point stays, or moves to the first block of a new finality interval; the invariant
    between candidate and pruning point holds again; and when the pruning point moved, [IsValidPruningPoint] answers true for it wherever the headers' selected tip is
    at or above the virtual's selected parent, and the old pruning point is kept as the previous one for the update that is now pending. *)
Theorem pruning_point_accepted `{Libs} `{MuHash} (pm : pruningManager) (hc : codec hash) (s : pruningState) (pp cand vsp tip : hash) (gv : BlockGHOSTDAGData) :
  let v := pn_virtual s in
  let d := reachabilityDataStore (rt_of (consensus_of v)) in
  chains_ok (pm_genesisHash pm) v → 0 < pm_finalityInterval pm → pruning_inv pm hc v (pn_store s) pp cand →
  ghostdag_of (consensus_of v) !! VirtualBlockHash = Some gv → selectedParent gv = Some vsp → tree_anc d cand vsp →
  pn_headersSelectedTip s = Some tip → tip ∈ dom d → tree_anc d vsp tip →
  ∃ store' pp' cand', let s' := put_store store' s in
    UpdatePruningPointByVirtual pm hc s = (s', Ret ()) ∧ chosen pm v vsp cand pp cand' pp' ∧ pruning_inv pm hc v store' pp' cand' ∧
    (pp' ≠ pp → IsValidPruningPoint pm pp' s' = (s', Ret true) ∧ previous_of hc store' = Some pp ∧ ps_startUpdating store' = true).
Proof.
  intros v d Hok Hint Hinv Hgv Hsel Hchain Htip Htd Habove. assert (vsp ∈ dom d) as Hvsp by (by eapply (tree_anc_dom d _ (ck_tree _ _ Hok))).
  destruct (UpdatePruningPointByVirtual_spec pm hc v Hok Hint s pp cand gv vsp eq_refl Hinv Hgv Hsel Hvsp Hchain) as (store' & pp' & cand' & Hrun & Hch & Hinv' & Hup).
  exists store', pp', cand'. split; [done|]. split; [done|]. split; [done|]. intros Hne. destruct Hup as [_ Hprev Hst _ _]. rewrite bool_decide_eq_false_2 in Hprev, Hst by done.
  split; [|done]. pose proof (pi_known _ _ _ _ _ _ Hinv') as Hcd. assert (pp' ∈ dom d) as Hpd by (eapply (tree_anc_dom d _ (ck_tree _ _ Hok)); [apply (pi_above _ _ _ _ _ _ Hinv')|done]).
  destruct (IsValidPruningPoint_spec pm v Hok Hint (put_store store' s) tip pp' eq_refl Htip Htd Hpd) as (r & Hr & Hans). rewrite Hr. do 2 f_equal. apply Hans. right.
  destruct (co_moved _ _ _ _ _ _ _ Hch) as [->|(Ha & Hd & _ & _ & p & Hp & _ & Hlt)]; [done|]. pose proof (proj2 (co_above _ _ _ _ _ _ _ Hch)) as Hcv.
  assert (tree_anc d pp' vsp) as Hpv by (by eapply tree_anc_trans). split; [by eapply tree_anc_trans|]. split; [|right; by exists p].
  apply negb_true_iff, Z.ltb_ge in Hd. pose proof (proj1 (score_anc _ _ Hok _ _ Hpv)). pose proof (proj1 (score_anc _ _ Hok _ _ Habove)).
  pose proof (ck_range _ _ Hok pp' Hpd). pose proof (ck_range _ _ Hok vsp Hvsp). rewrite GoInt.uint64_id in Hd by lia. lia.
Qed.



(** *** A block on the genesis block, which becomes the pruning point *)
Abbreviation child := sample_child_hash.
Definition sample_pm : pruningManager :=
  {| pm_isArchivalNode := false; pm_genesisHash := [0]; pm_finalityInterval := 1; pm_pruningDepth := 0; pm_shouldSanityCheckPruningUTXOSet := true |}.
Definition virtual_data : BlockGHOSTDAGData :=
  {| blueScore := 2; blueWork := 10; selectedParent := Some child; mergeSetBlues := [child]; mergeSetReds := []; bluesAnticoneSizes := ∅ |}.
Definition sample_utxos : utxoCollection := {[ StoreProps.sample_outpoint := StoreProps.sample_entry ]}.
Definition committing_header : BlockHeader :=
  {| hd_version := 0; hd_parentHashes := [[0]]; hd_hashMerkleRoot := []; hd_acceptedIDMerkleRoot := []; hd_utxoCommitment := ms_Hash (ms_of sample_utxos);
     hd_timeInMilliseconds := 5; hd_bits := 0x207fffff; hd_nonce := 7 |}.
Definition pruning_dag (cs : consensus) : consensus :=
  put_headers {[ child := committing_header ]}
    (put_dtm {| dt_reachabilityManager :=
                  {| reachabilityDataStore := reachabilityDataStore (rt_of cs); reachabilityReindexRoot := reachabilityReindexRoot (rt_of cs);
                     ghostdagDataStore := <[VirtualBlockHash := virtual_data]> (ghostdag_of cs); reindexSlack := reindexSlack (rt_of cs); reindexWindow := reindexWindow (rt_of cs) |};
                dt_blockRelationStore := <[VirtualBlockHash := {| br_Parents := [child]; br_Children := [] |}]> (dt_blockRelationStore (dtm_of cs)) |} cs).
Definition world_over (cs : consensus) : virtualState :=
  {| vs_resolve := {| rs_stores := {| us_consensus := pruning_dag cs; us_blocks := ∅; us_virtualUTXO := sample_utxos;
                                      us_utxoDiffs := {[ [0] := mkDiff ∅ sample_utxos; child := mkDiff ∅ ∅ ]}; us_utxoDiffChildren := {[ [0] := child ]}; us_multisets := ∅ |};
                      rs_statuses := {[ [0] := StatusUTXOValid; child := StatusUTXOValid ]}; rs_acceptanceData := ∅; rs_caches := {| vc_sigCache := None; vc_sigCacheECDSA := None |} |};
     vs_tips := [child] |}.
Definition pruning_world : virtualState := world_over (fst sample_run).
Lemma world_tree cs : reachabilityDataStore (rt_of (consensus_of (world_over cs))) = reachabilityDataStore (rt_of cs).
Proof. reflexivity. Qed.
Definition staged_cell (h : hash) : cell hash := {| ce_db := None; ce_cache := None; ce_staged := Some h |}.
Definition sample_store (point previous : cell hash) (updating : bool) : pruningStore :=
  {| ps_pruningPoint := point; ps_previous := previous; ps_candidate := PruningStoreProps.empty_cell; ps_updating := updating; ps_startUpdating := false;
     ps_pruningPointUTXOSet := ∅; ps_importedUTXOs := ∅; ps_importedMultiset := None |}.
Definition world_with (point previous : cell hash) (updating : bool) : pruningState :=
  {| pn_virtual := pruning_world; pn_store := sample_store point previous updating; pn_headersSelectedTip := Some child |}.

Lemma world_nodes x : x ∈ dom (reachabilityDataStore (rt_of (consensus_of pruning_world))) ↔ x = child ∨ x = [0].
Proof. unfold pruning_world. rewrite world_tree, (proj2 sample_run_ok). by rewrite elem_of_union, !elem_of_singleton. Qed.

Lemma world_parent x p : parent_of (reachabilityDataStore (rt_of (consensus_of pruning_world))) x = Some p → x = child ∧ p = [0].
Proof.
  intros Hp. assert (x ∈ dom (reachabilityDataStore (rt_of (consensus_of pruning_world)))) as Hx by (by eapply parent_dom). apply world_nodes in Hx as [->| ->].
  - split; [done|]. assert (parent_of (reachabilityDataStore (rt_of (consensus_of pruning_world))) child = Some [0]) as E by (vm_compute; reflexivity). congruence.
  - assert (parent_of (reachabilityDataStore (rt_of (consensus_of pruning_world))) [0] = None) as E by (vm_compute; reflexivity). congruence.
Qed.

Lemma world_chains : chains_ok [0] pruning_world.
Proof.
  pose proof (proj1 sample_run_ok) as Hok. split.
  - unfold pruning_world. change (tree_ok (reachabilityDataStore (rt_of (consensus_of (world_over (fst sample_run))))) [0]). rewrite world_tree. apply (reach_tree _ _ _ (ok_reach _ _ _ _ _ Hok)).
  - intros x [->| ->]%world_nodes; apply elem_of_dom; (eexists; vm_compute; reflexivity).
  - intros x p [-> ->]%world_parent. vm_compute. reflexivity.
  - intros x p [-> ->]%world_parent. vm_compute. reflexivity.
  - intros x [->| ->]%world_nodes; vm_compute; split; congruence.
Qed.

Definition start_state : pruningState := world_with PruningStoreProps.empty_cell PruningStoreProps.empty_cell false.
Lemma pruning_point_accepted_witness :
  let s := start_state in
  let v := pn_virtual s in
  ce_staged (ps_pruningPoint (pn_store (fst (UpdatePruningPointByVirtual sample_pm hashCodec s)))) = Some child ∧
  ∃ store' pp' cand', let s' := put_store store' s in
    UpdatePruningPointByVirtual sample_pm hashCodec s = (s', Ret ()) ∧ chosen sample_pm v child [0] [0] cand' pp' ∧ pruning_inv sample_pm hashCodec v store' pp' cand' ∧
    (pp' ≠ [0] → IsValidPruningPoint sample_pm pp' s' = (s', Ret true) ∧ previous_of hashCodec store' = Some [0] ∧ ps_startUpdating store' = true).
Proof.
  split; [vm_compute; reflexivity|]. assert (child ∈ dom (reachabilityDataStore (rt_of (consensus_of pruning_world)))) as Hc by (apply world_nodes; by left).
  apply (pruning_point_accepted sample_pm hashCodec start_state [0] [0] child child virtual_data).
  - exact world_chains.
  - done.
  - split; [done|done|apply world_nodes; by right|apply rtc_refl|done|by left].
  - vm_compute. reflexivity.
  - done.
  - apply (root_anc _ _ (ck_tree _ _ world_chains)), Hc.
  - done.
  - exact Hc.
  - apply rtc_refl.
Defined.

Lemma world_reach dag_parents cs root : reach_ok dag_parents (rt_of cs) root → reach_ok dag_parents (dt_reachabilityManager (dtm_of (consensus_of (world_over cs)))) root.
Proof. intros []. by split. Qed.
Lemma world_relations cs x : x ≠ VirtualBlockHash → dt_blockRelationStore (dtm_of (consensus_of (world_over cs))) !! x = dt_blockRelationStore (dtm_of cs) !! x.
Proof. intros Hx. by apply lookup_insert_ne. Qed.

Lemma sample_anc x y : dag_anc sample_tree x y → x = y ∨ x = [0] ∧ y = child.
Proof.
  intros Ha. destruct (decide (x = y)) as [->|Hne]; [by left|]. destruct (anc_through sample_tree x y Ha Hne) as (q & Hq & Hxq). unfold sample_tree in Hq. case_decide as Hy; [|by apply elem_of_nil in Hq].
  apply list_elem_of_singleton in Hq as ->. right. split; [|done]. destruct (decide (x = [0])) as [|Hx]; [done|]. destruct (anc_through sample_tree x [0] Hxq Hx) as (q & Hq & _).
  vm_compute in Hq. by apply elem_of_nil in Hq.
Qed.

Lemma world_deletable : deletable sample_tree [0] pruning_world child [child].
Proof.
  pose proof (proj1 sample_run_ok) as Hok. assert (∀ x, x ∈ dom (reachabilityDataStore (rt_of (consensus_of pruning_world))) → x ∈ dom (reachabilityDataStore (rt_of (fst sample_run)))) as Hn by (intros x; unfold pruning_world; by rewrite world_tree).
  assert (child ∈ dom (reachabilityDataStore (rt_of (consensus_of pruning_world)))) as Hc by (apply world_nodes; by left).
  split; [split; [split| | |]|split; [done|by vm_compute]|vm_compute; reflexivity|by intros x ->%list_elem_of_singleton|intros x ->%list_elem_of_singleton; split; [done|by vm_compute]].
  - apply world_reach, (ok_reach _ _ _ _ _ Hok).
  - intros x Hx. unfold pruning_world. rewrite world_relations by (intros ->; apply world_nodes in Hx as [E|E]; by vm_compute in E). apply (ok_parents _ _ _ _ _ Hok), Hn, Hx.
  - intros x _. unfold sample_tree. case_decide; [apply NoDup_singleton|apply NoDup_nil_2].
  - intros x Hx (p & Hp & Ha). apply sample_anc in Ha. unfold sample_tree in Hp. case_decide as E; [|by apply elem_of_nil in Hp]. apply list_elem_of_singleton in Hp as ->. subst x.
    destruct Ha as [Ha|[Ha _]]; by vm_compute in Ha.
  - apply (ck_data _ _ world_chains).
  - intros x [->| ->]%world_nodes; (eexists; vm_compute; reflexivity).
  - intros x y z _ _ _ Hx _. exfalso. simpl in Hx. apply lookup_insert_Some in Hx as [[_ Hx]|[_ [_ Hx]%lookup_singleton_Some]]; done.
Qed.


(** Both blocks have chains of diffs that end in the virtual's selected parent. *)
Definition pending_state : pruningState := world_with (staged_cell child) (staged_cell [0]) true.
Definition sample_entryAt (o : DomainOutpoint) (score : Z) : utxoEntry := StoreProps.sample_entry.

Lemma pruned_coherent : coherent sample_entryAt (rs_stores (vs_resolve pruning_world)).
Proof.
  split; [simpl; unfold sample_utxos; by intros o e [_ <-]%lookup_singleton_Some|]. intros h d Hd. simpl in Hd.
  apply lookup_insert_Some in Hd as [[_ <-]|[_ [_ <-]%lookup_singleton_Some]]; intros o e He; simpl in He; by rewrite lookup_empty in He.
Qed.

Lemma world_child : past_set (rs_stores (vs_resolve pruning_world)) child [child] sample_utxos.
Proof.
  assert (apply_diff (us_virtualUTXO (rs_stores (vs_resolve pruning_world))) (mkDiff ∅ ∅) = sample_utxos) as <- by reflexivity.
  apply past_base; [done|done|split; [apply map_empty_subseteq|apply map_disjoint_empty_l]|]. intros o e1 e2 _ He. simpl in He. by rewrite lookup_empty in He.
Qed.

Lemma world_between : between pruning_world [0] child ∅ sample_utxos.
Proof.
  split. exists [[0]; child], [child]. split; [|split; [exact world_child|split; [|split; [|done]]]].
  - assert (apply_diff sample_utxos (mkDiff ∅ sample_utxos) = ∅) as <- by (vm_compute; reflexivity).
    apply past_step with child; [done|exact world_child|done|split; [done|apply map_disjoint_empty_l]|]. intros o e1 e2 _ He. simpl in He. by rewrite lookup_empty in He.
  - split; [|split; [|split; [|split; [|done]]]]; [apply elem_of_dom; eexists; vm_compute; reflexivity|intros y ->%list_elem_of_singleton; vm_compute; reflexivity|apply elem_of_dom; eexists; vm_compute; reflexivity|by intros y ?%elem_of_nil].
  - split; [|split; [|done]]; [apply elem_of_dom; eexists; vm_compute; reflexivity|by intros y ?%elem_of_nil].
Qed.

Lemma world_pending : update_pending sample_pm entryCodec hashCodec sample_entryAt pending_state [0] child ∅ sample_utxos.
Proof.
  split; [split_and!; [done|done|by vm_compute]|done|split; [exact pruned_coherent|exact world_between]|intros o E; simpl; by rewrite !lookup_empty| |].
  - unfold sample_utxos. intros o e [_ <-]%lookup_singleton_Some. apply entry_codable, StoreProps.sample_entry_ok.
  - exists committing_header. split; [vm_compute; reflexivity|done].
Qed.


(** *** When the node stops after the deletion

    The flag of the pending update is cleared after the deletion has been committed.  A node that stops in between starts the update again, and needs the UTXO
    diffs of the previous pruning point, which are gone. *)
Definition stopped_state : pruningState :=
  let s := fst (UpdatePruningPointIfRequired sample_pm sample_range (sample_range bytes) entryCodec hashCodec pending_state) in
  put_store (put_flags true false (pn_store s)) s.
Example stopped_after_deletion :
  match snd (UpdatePruningPointIfRequired sample_pm sample_range (sample_range bytes) entryCodec hashCodec stopped_state) with Fail (PruningVirtual (VirtualResolve _)) => true | _ => false end = true.
Proof. vm_compute. reflexivity. Qed.

(** [PruneAllBlocksBelow] deletes the pruning point and what is above it, and keeps its past. *)
Example prunes_above :
  let s := world_with (staged_cell child) (staged_cell [0]) true in
  let s' := fst (PruneAllBlocksBelow sample_pm (λ _, [[0]; child]) child s) in
  (snd (onVirtual (onResolve (statusOf [0])) s'), snd (onVirtual (onResolve (statusOf child)) s')) = (Ret StatusUTXOValid, Ret StatusHeaderOnly).
Proof. vm_compute. reflexivity. Qed.
End PruningProps.
