(* ===== verification/SyncManager.v ===== *)
(** * The sync manager and the headers' selected tip (processes/syncmanager, processes/headersselectedtipmanager)

    What a node answers to a peer that synchronizes with it: the blocks between two blocks, the blocks whose bodies are missing, and
    block locators, over the DAG and over the selected chain of the headers.  The selected tip of the headers and the store of its selected
    chain change together when a header arrives. *)
From S2P Require Import Prelude Externalapi UtxoDiff ScriptNum ScriptStack OpcodeTable Script Hashing SigCache Opcode Engine.
From S2P Require Import Interval ReachabilityData Reachability ReachabilityTree ReachabilityAdd DagTopology Block Merkle Ghostdag Heap Window DifficultyManager Traversal HeaderValidation TransactionValidator PastUtxo Coinbase VerifyUtxo ResolveStatus VirtualBlock Stores ConsensusStores ChainStore PruningStore UtxoSync PruningManager.
Import TransactionHashing SigCache Opcode BlockHeap Ghostdag DifficultyManager DagTopology Traversal Header HeaderValidation TransactionValidator PastUtxo VerifyUtxo ResolveStatus VirtualBlock CountedStore HeadersSelectedChain Pruning PruningManager.
Local Open Scope Z_scope.
Local Open Scope prog_scope.

Abbreviation hash := (list Z) (only parsing).

(** The errors after the first three constructors stand for the unnamed ones, but for [ErrBlockNotInSelectedParentChain]. *)
Inductive syncError :=
  | SyncPruning (e : pruningError)
  | SyncChain (e : storeError)
  | ErrBlockNotInSelectedParentChain
  | ErrMaxBlocksTooLow
  | ErrLowAboveHigh
  | ErrNotInSameChain
  | ErrHighBelowLow
  | ErrBlockDoesNotExist.

(** The parameters of the manager; [New] takes the limit of merge sets and does not keep it. *)
Record syncManager := {
  sm_genesisBlockHash : hash;
  sm_mergeSetSizeLimit : Z
}.
Definition New (genesisBlockHash : hash) (mergeSetSizeLimit : Z) : syncManager :=
  {| sm_genesisBlockHash := genesisBlockHash; sm_mergeSetSizeLimit := 0 |}.

Record SyncInfo := { si_HeaderCount : Z; si_BlockCount : Z }.

Module SyncManager.
Section Manager.
Context `{Libs} `{MuHash}.
Variable sm : syncManager.
Variable rangeHash : ∀ A, gmap hash A → list (hash * A).
Variable rangeIndex : ∀ A, gmap Z A → list (Z * A).
Variable hashMessageCodec : codec hash.

(** The stores of the pruning manager, which has the tip of the headers, and the chain of that tip *)
Record syncState := {
  sy_pruning : pruningState;
  sy_chain : chainStore
}.
Abbreviation syncing A := (prog syncState syncError A) (only parsing).

Definition put_pruning (p : pruningState) (s : syncState) : syncState := {| sy_pruning := p; sy_chain := sy_chain s |}.
Definition put_chain (c : chainStore) (s : syncState) : syncState := {| sy_pruning := sy_pruning s; sy_chain := c |}.
Definition onPruning {A} (m : prog pruningState pruningError A) : syncing A :=
  λ s, let '(p, o) := m (sy_pruning s) in (put_pruning p s, match o with Ret a => Ret a | Fail e => Fail (SyncPruning e) | Crash c => Crash c end).
Definition onChain {A} (m : prog chainStore storeError A) : syncing A :=
  λ s, let '(c, o) := m (sy_chain s) in (put_chain c s, match o with Ret a => Ret a | Fail e => Fail (SyncChain e) | Crash c => Crash c end).
Definition topology {A} (m : prog dagTopologyManager reachabilityError A) : syncing A := onPruning (onVirtual (dag m)).
Definition dataFor (blockHash : hash) : syncing BlockGHOSTDAGData := onPruning (ghostdagOf blockHash).
Definition pointed (o : option hash) : syncing hash := onPruning (hashAt o).

(** ** antipast.go *)

(** [for i < len(blueMergeSet) && j < len(redMergeSet)], on what is left of the two sets, and what is left after it *)
Fixpoint mergeLoop (blues : list hash) : list hash → list hash → syncing (list hash) :=
  fix mergeReds (reds sortedMergeSet : list hash) : syncing (list hash) :=
    match blues, reds with
    | currentBlue :: blues', currentRed :: reds' =>
        let* currentBlueGhostdagData := dataFor currentBlue in
        let* currentRedGhostdagData := dataFor currentRed in
        if Less currentBlue currentBlueGhostdagData currentRed currentRedGhostdagData
        then mergeLoop blues' reds (sortedMergeSet ++ [currentBlue])
        else mergeReds reds' (sortedMergeSet ++ [currentRed])
    | _, _ => ret (sortedMergeSet ++ blues ++ reds)
    end.

Definition getSortedMergeSet (current : hash) : syncing (list hash) :=
  let* currentGhostdagData := dataFor current in
  let blueMergeSet := mergeSetBlues currentGhostdagData in
  let* selectedParent := lift_outcome (index blueMergeSet 0) in
  let* blues := lift_outcome (slice blueMergeSet 1 (zlen blueMergeSet)) in
  mergeLoop blues (mergeSetReds currentGhostdagData) [selectedParent].

Fixpoint findLowLoop (fuel : nat) (lowHash highHash : hash) : syncing hash :=
  match fuel with
  | O => crash_with OutOfFuel
  | Datatypes.S fuel =>
      let* isInSelectedParentChain := topology (IsInSelectedParentChainOf lowHash highHash) in
      if (isInSelectedParentChain : bool) then ret lowHash
      else
        let* lowBlockGHOSTDAGData := dataFor lowHash in
        let* lowHash := pointed (selectedParent lowBlockGHOSTDAGData) in
        findLowLoop fuel lowHash highHash
  end.
Definition findLowHashInHighHashSelectedParentChain (lowHash highHash : hash) : syncing hash :=
  let* fuel := topology chainWalkFuel in findLowLoop fuel lowHash highHash.

(** [for _, blockHash := range sortedMergeSet] *)
Fixpoint appendNotInPast (originalLowHash : hash) (sortedMergeSet blockHashes : list hash) : syncing (list hash) :=
  match sortedMergeSet with
  | [] => ret blockHashes
  | blockHash :: rest =>
      let* isInPastOfOriginalLowHash := topology (dtm_IsAncestorOf blockHash originalLowHash) in
      if (isInPastOfOriginalLowHash : bool) then appendNotInPast originalLowHash rest blockHashes
      else appendNotInPast originalLowHash rest (blockHashes ++ [blockHash])
  end.

(** [for ok := iterator.First(); ok; ok = iterator.Next()]: the hashes and the last block they reach *)
Fixpoint collectLoop (fuel : nat) (originalLowHash : hash) (maxBlocks : Z) (ok : bool) (it : selectedChildIterator) (blockHashes : list hash) (highHash : hash) :
    syncing (list hash * hash) :=
  match fuel with
  | O => crash_with OutOfFuel
  | Datatypes.S fuel =>
      if ok then
        let* current := onPruning (lift_outcome (it_Get it)) in
        let* current := pointed current in
        let* sortedMergeSet := getSortedMergeSet current in
        if negb (maxBlocks =? 0) && (maxBlocks <? GoInt.uint64 (zlen blockHashes + zlen sortedMergeSet)) then ret (blockHashes, highHash)
        else
          let* blockHashes := appendNotInPast originalLowHash sortedMergeSet blockHashes in
          let* next := topology (it_Next it) in
          collectLoop fuel originalLowHash maxBlocks (fst next) (snd next) blockHashes current
      else ret (blockHashes, highHash)
  end.

Definition antiPastHashesBetween (lowHash highHash : hash) (maxBlocks : Z) : syncing (list hash * hash) :=
  if negb (maxBlocks =? 0) && (maxBlocks <? GoInt.uint64 (sm_mergeSetSizeLimit sm + 1)) then fail ErrMaxBlocksTooLow
  else
    let originalLowHash := lowHash in
    let* lowHash := findLowHashInHighHashSelectedParentChain lowHash highHash in
    let* lowBlockGHOSTDAGData := dataFor lowHash in
    let* highBlockGHOSTDAGData := dataFor highHash in
    if blueScore highBlockGHOSTDAGData <? blueScore lowBlockGHOSTDAGData then fail ErrLowAboveHigh
    else
      let* iterator := topology (SelectedChildIterator highHash lowHash) in
      let* fuel := onPruning chooseFuel in
      let* first := topology (it_First iterator) in
      let* collected := collectLoop fuel originalLowHash maxBlocks (fst first) (snd first) [] highHash in
      let '(blockHashes, highHash) := collected in
      ret (if negb (bool_decide (lowHash = highHash)) then blockHashes ++ [highHash] else blockHashes, highHash).

Definition GetHashesBetween (lowHash highHash : hash) (maxBlocks : Z) : syncing (list hash * hash) := antiPastHashesBetween lowHash highHash maxBlocks.

(** [blockStore.HasBlock] and [blockStatusStore] *)
Definition hasBlock (blockHash : hash) : syncing bool :=
  gets (λ s, bool_decide (is_Some (us_blocks (rs_stores (vs_resolve (pn_virtual (sy_pruning s)))) !! blockHash))).
Definition statusFor (blockHash : hash) : syncing BlockStatus := onPruning (onVirtual (onResolve (statusOf blockHash))).
Definition statusExists (blockHash : hash) : syncing bool :=
  gets (λ s, bool_decide (is_Some (rs_statuses (vs_resolve (pn_virtual (sy_pruning s))) !! blockHash))).

(** Up the selected chain to the last block with a body; [true]: there is a block without one above it. *)
Fixpoint lastBodyLoop (fuel : nat) (ok : bool) (it : selectedChildIterator) (lowHash : hash) : syncing (hash * bool) :=
  match fuel with
  | O => crash_with OutOfFuel
  | Datatypes.S fuel =>
      if ok then
        let* selectedChild := onPruning (lift_outcome (it_Get it)) in
        let* selectedChild := pointed selectedChild in
        let* hasBlock := hasBlock selectedChild in
        if negb hasBlock then ret (lowHash, true)
        else
          let* next := topology (it_Next it) in
          lastBodyLoop fuel (fst next) (snd next) selectedChild
      else ret (lowHash, false)
  end.

Fixpoint headerOnlyOf (blockHashes : list hash) : syncing (list hash) :=
  match blockHashes with
  | [] => ret []
  | blockHash :: rest =>
      let* blockStatus := statusFor blockHash in
      let* missingBlocks := headerOnlyOf rest in
      ret (if bool_decide (blockStatus = StatusHeaderOnly) then blockHash :: missingBlocks else missingBlocks)
  end.

(** [lowHash == highHash] compares pointers; [samePointer] tells whether two equal hashes are one object. *)
Definition missingBlockBodyHashes (samePointer : hash → bool) (highHash : hash) : syncing (list hash) :=
  let* pruningPoint := onPruning (onStore (PruningPoint hashMessageCodec)) in
  let* selectedChildIterator := topology (SelectedChildIterator highHash pruningPoint) in
  let* fuel := onPruning chooseFuel in
  let* first := topology (it_First selectedChildIterator) in
  let* walked := lastBodyLoop fuel (fst first) (snd first) pruningPoint in
  let '(lowHash, foundHeaderOnlyBlock) := walked in
  if negb foundHeaderOnlyBlock && (bool_decide (lowHash = highHash) && samePointer lowHash) then ret []
  else
    let* between := antiPastHashesBetween lowHash highHash 0 in
    headerOnlyOf (fst between).

Definition GetMissingBlockBodyHashes (samePointer : hash → bool) (highHash : hash) : syncing (list hash) := missingBlockBodyHashes samePointer highHash.

Definition isHeaderOnlyBlock (blockHash : hash) : syncing bool :=
  let* exists_ := statusExists blockHash in
  if negb exists_ then ret false
  else let* status := statusFor blockHash in ret (bool_decide (status = StatusHeaderOnly)).

(** ** blocklocator.go *)

(** Without a limit the loop ends only at [lowHash] or below it: the fuel is an argument. *)
Fixpoint locatorLoop (fuel : nat) (lowHash : hash) (lowBlockBlueScore limit : Z) (currentHash : hash) (step : Z) (locator : list hash) : syncing (list hash) :=
  match fuel with
  | O => crash_with OutOfFuel
  | Datatypes.S fuel =>
      let locator := locator ++ [currentHash] in
      if (0 <? limit) && (GoInt.uint32 (zlen locator) =? limit) then ret locator
      else
        let* currentBlockGHOSTDAGData := dataFor currentHash in
        let currentBlockBlueScore := blueScore currentBlockGHOSTDAGData in
        if currentBlockBlueScore <=? lowBlockBlueScore then
          let* isInChain := topology (IsInSelectedParentChainOf currentHash lowHash) in
          if negb isInChain then fail ErrNotInSameChain else ret locator
        else
          let nextBlueScore := GoInt.uint64 (currentBlockBlueScore - step) in
          let nextBlueScore := if (currentBlockBlueScore <? step) || (nextBlueScore <? lowBlockBlueScore) then lowBlockBlueScore else nextBlueScore in
          let* currentHash := topology (LowestChainBlockAboveOrEqualToBlueScore currentHash nextBlueScore) in
          locatorLoop fuel lowHash lowBlockBlueScore limit currentHash (GoInt.uint64 (step * 2)) locator
  end.

Definition createBlockLocator (fuel : nat) (lowHash highHash : hash) (limit : Z) : syncing (list hash) :=
  let* lowBlockGHOSTDAGData := dataFor lowHash in
  locatorLoop fuel lowHash (blueScore lowBlockGHOSTDAGData) limit highHash 1 [].

Definition CreateBlockLocator (fuel : nat) (lowHash highHash : hash) (limit : Z) : syncing (list hash) := createBlockLocator fuel lowHash highHash limit.

(** [database.IsNotFoundError] is turned into [ErrBlockNotInSelectedParentChain]. *)
Definition indexOf (blockHash : hash) : syncing Z :=
  λ s, match onChain (GetIndexByHash rangeHash blockHash) s with
       | (s, Fail (SyncChain ErrDatabaseNotFound)) => (s, Fail ErrBlockNotInSelectedParentChain)
       | result => result
       end.

Fixpoint chainLocatorLoop (fuel : nat) (lowHashIndex currentIndex step : Z) (locator : list hash) : syncing (list hash) :=
  match fuel with
  | O => crash_with OutOfFuel
  | Datatypes.S fuel =>
      if lowHashIndex <? currentIndex then
        let* blockHash := onChain (GetHashByIndex rangeIndex currentIndex) in
        let locator := locator ++ [blockHash] in
        if currentIndex <? step then ret locator
        else chainLocatorLoop fuel lowHashIndex (GoInt.uint64 (currentIndex - step)) (GoInt.uint64 (step * 2)) locator
      else ret locator
  end.

(** Doubled 64 times the step exceeds every index. *)
Definition createHeadersSelectedChainBlockLocator (lowHash highHash : hash) : syncing (list hash) :=
  if bool_decide (highHash = sm_genesisBlockHash sm) && bool_decide (lowHash = sm_genesisBlockHash sm) then ret [sm_genesisBlockHash sm]
  else
    let* lowHashIndex := indexOf lowHash in
    let* highHashIndex := indexOf highHash in
    if highHashIndex <? lowHashIndex then fail ErrHighBelowLow
    else
      let* locator := chainLocatorLoop 66 lowHashIndex highHashIndex 1 [] in
      ret (locator ++ [lowHash]).

Definition CreateHeadersSelectedChainBlockLocator (lowHash highHash : hash) : syncing (list hash) := createHeadersSelectedChainBlockLocator lowHash highHash.

(** ** syncinfo.go *)
Definition getHeaderCount (blockHeaderStore : countedStore BlockHeader) : Z := count blockHeaderStore.
Definition getBlockCount (blockStore : countedStore DomainBlock) : Z := count blockStore.
Definition syncInfo (blockHeaderStore : countedStore BlockHeader) (blockStore : countedStore DomainBlock) : SyncInfo :=
  {| si_HeaderCount := getHeaderCount blockHeaderStore; si_BlockCount := getBlockCount blockStore |}.

(** ** What the consensus offers (consensus.go) *)
Definition validateBlockHashExists (blockHash : hash) : syncing unit :=
  let* exists_ := statusExists blockHash in
  if negb exists_ then fail ErrBlockDoesNotExist else ret ().

Definition consensus_GetHashesBetween (lowHash highHash : hash) (maxBlocks : Z) : syncing (list hash * hash) :=
  validateBlockHashExists lowHash ;;* validateBlockHashExists highHash ;;* GetHashesBetween lowHash highHash maxBlocks.
Definition consensus_GetMissingBlockBodyHashes (samePointer : hash → bool) (highHash : hash) : syncing (list hash) :=
  validateBlockHashExists highHash ;;* GetMissingBlockBodyHashes samePointer highHash.
Definition consensus_CreateBlockLocator (fuel : nat) (lowHash highHash : hash) (limit : Z) : syncing (list hash) :=
  validateBlockHashExists lowHash ;;* validateBlockHashExists highHash ;;* CreateBlockLocator fuel lowHash highHash limit.

Definition headersSelectedTip : syncing hash :=
  let* s := get in
  match pn_headersSelectedTip (sy_pruning s) with
  | Some tip => ret tip
  | None => fail (SyncPruning (PruningStoreError ErrDatabaseNotFound))
  end.
Definition CreateFullHeadersSelectedChainBlockLocator : syncing (list hash) :=
  let* lowHash := onPruning (onStore (PruningPoint hashMessageCodec)) in
  let* highHash := headersSelectedTip in
  CreateHeadersSelectedChainBlockLocator lowHash highHash.

(** ** headersselectedtipmanager.go *)
Definition stageTip (hash : hash) : syncing unit :=
  modify (λ s, put_pruning {| pn_virtual := pn_virtual (sy_pruning s); pn_store := pn_store (sy_pruning s); pn_headersSelectedTip := Some hash |} s).

Definition AddHeaderTip (hash : hash) : syncing unit :=
  let* s := get in
  match pn_headersSelectedTip (sy_pruning s) with
  | None =>
      stageTip hash ;;*
      onChain (chain_Stage rangeHash {| scp_Added := [hash]; scp_Removed := [] |})
  | Some _ =>
      let* headersSelectedTip := headersSelectedTip in
      let* newHeadersSelectedTip := onPruning (onVirtual (onData (λ S, ChooseSelectedParent S [headersSelectedTip; hash]))) in
      if bool_decide (newHeadersSelectedTip = headersSelectedTip) then ret ()
      else
        stageTip newHeadersSelectedTip ;;*
        let* chainChanges := topology (CalculateChainPath headersSelectedTip newHeadersSelectedTip) in
        onChain (chain_Stage rangeHash chainChanges)
  end.
End Manager.
End SyncManager.
