(* ===== verification/SyncSpec.v ===== *)
(** * The blocks between two blocks

    [antiPastHashesBetween] concatenates the merge sets along the selected chain.  They are disjoint, each lies below the next, and sorted within: what is
    collected up to a block of the chain is its past, without the past of the low hash, in topological order. *)
From stdpp Require Import sorting.
From S2P Require Import Prelude Externalapi UtxoDiff ScriptNum ScriptStack OpcodeTable Script Hashing SigCache Opcode Engine.
From S2P Require Import Interval ReachabilityData Reachability ReachabilityTree ReachabilityAdd DagTopology Block Merkle Ghostdag GhostdagOrder GhostdagColour Heap Window DifficultyManager Traversal HeaderValidation TransactionValidator PastUtxo Coinbase VerifyUtxo ResolveStatus VirtualBlock VirtualParents VirtualSelect Stores ChainStore PruningStore UtxoSync PruningManager PruningSpec SyncManager.
Import Interval Store Reachability TransactionHashing SigCache Opcode BlockHeap Ghostdag DifficultyManager DagTopology Traversal Header HeaderValidation TransactionValidator PastUtxo VerifyUtxo ResolveStatus VirtualBlock Pruning PruningManager SyncManager Cell.
Local Open Scope Z_scope.
Local Open Scope prog_scope.

Abbreviation hash := (list Z) (only parsing).

(** ** Reading *)
Section Read.
Context `{Libs} `{MuHash}.
Implicit Types s : syncState.

Lemma onPruning_read {A} (m : prog pruningState pruningError A) s a : m (sy_pruning s) = (sy_pruning s, Ret a) → onPruning m s = (s, Ret a).
Proof using Type. intros Hm. unfold onPruning. rewrite Hm. by destruct s. Qed.
Lemma topology_read {A} (m : prog dagTopologyManager reachabilityError A) s a :
  m (dtm_of (consensus_of (pn_virtual (sy_pruning s)))) = (dtm_of (consensus_of (pn_virtual (sy_pruning s))), Ret a) → topology m s = (s, Ret a).
Proof using Type. intros Hm. apply onPruning_read, onVirtual_read, dag_read, Hm. Qed.
Lemma pointed_read s x : pointed (Some x) s = (s, Ret x).
Proof using Type. apply onPruning_read, hashAt_read. Qed.
End Read.

Section Between.
Context `{Libs} `{MuHash}.
Variables (dag_parents : list Z → list (list Z)) (k : Z) (root : list Z) (v : virtualState).
Abbreviation dtm := (dtm_of (consensus_of v)).
Abbreviation d := (reachabilityDataStore (dt_reachabilityManager (dtm_of (consensus_of v)))).
Abbreviation gd := (ghostdag_of (consensus_of v)).
Abbreviation score x := (blueScore (dataOf gd x)).
Abbreviation anc := (dag_anc dag_parents).

(** The GHOSTDAG data of the blocks, without the virtual block *)
Definition block_data : gmap hash BlockGHOSTDAGData := filter (λ kv, kv.1 ∈ dom d) gd.

(** The stores describe a DAG that GHOSTDAG has coloured. *)
Record sync_ok : Prop := {
  sk_graph : graph_ok dag_parents root v;
  sk_chains : chains_ok root v;
  sk_ghostdag : ghostdag_ok dag_parents k block_data root;
  sk_size : Z.of_nat (size d) < 2 ^ 63
}.
Hypothesis Hok : sync_ok.
Variable s : syncState.
Hypothesis Hs : pn_virtual (sy_pruning s) = v.

(** *** The data of the blocks *)
Lemma block_dom x : x ∈ dom block_data ↔ x ∈ dom d.
Proof using Hok.
  unfold block_data. split.
  - intros [g Hg]%elem_of_dom. by apply map_lookup_filter_Some in Hg as [_ ?].
  - intros Hx. pose proof (ck_data _ _ (sk_chains Hok) x Hx) as [g Hg]%elem_of_dom. apply elem_of_dom. exists g. by apply map_lookup_filter_Some.
Qed.
Lemma block_dataOf x : x ∈ dom d → dataOf block_data x = dataOf gd x.
Proof using Hok.
  intros Hx. pose proof (ck_data _ _ (sk_chains Hok) x Hx) as [g Hg]%elem_of_dom. unfold dataOf. rewrite Hg.
  by assert (block_data !! x = Some g) as -> by (by apply map_lookup_filter_Some).
Qed.
Lemma dataFor_read x : x ∈ dom d → dataFor x s = (s, Ret (dataOf block_data x)).
Proof using Hok Hs. intros Hx. apply onPruning_read. rewrite block_dataOf by done. by apply (data_read root v (sk_chains Hok)). Qed.
Lemma chain_read a b : a ∈ dom d → b ∈ dom d → ∃ r, topology (IsInSelectedParentChainOf a b) s = (s, Ret r) ∧ (r = true ↔ tree_anc d a b).
Proof using Hok Hs.
  intros Ha Hb. destruct (inChain_run root v (sk_chains Hok) a b Ha Hb) as (r & Hr & Hans). exists r. split; [|done]. apply topology_read. by rewrite Hs.
Qed.
Lemma past_read a b : a ∈ dom d → b ∈ dom d → ∃ r, topology (dtm_IsAncestorOf a b) s = (s, Ret r) ∧ (r = true ↔ anc a b).
Proof using Hok Hs.
  intros Ha Hb. destruct (ancestor_run dag_parents root v (sk_graph Hok) a b Ha Hb) as (r & Hr & Hans). exists r. split; [|done]. apply topology_read. by rewrite Hs.
Qed.

(** A block with a parent in the tree has been coloured. *)
Lemma coloured x p : parent_of d x = Some p → block_ok dag_parents k block_data x p (dataOf block_data x).
Proof using Hok.
  intros Hp. assert (x ∈ dom d) as Hx by (by eapply parent_dom). assert (x ≠ root) as Hne.
  { intros ->. destruct (gd_genesis _ _ _ _ (sk_ghostdag Hok) _ (known_data _ root (proj2 (block_dom root) Hx))) as [E _]. rewrite block_dataOf in E by done.
    rewrite (ck_selected _ _ (sk_chains Hok) _ _ Hp) in E. done. }
  destruct (gd_block _ _ _ _ (sk_ghostdag Hok) x _ (known_data _ x (proj2 (block_dom x) Hx)) Hne) as (q & Hq).
  pose proof (bo_selected _ _ _ _ _ _ Hq) as E. rewrite block_dataOf, (ck_selected _ _ (sk_chains Hok) _ _ Hp) in E by done. by injection E as ->.
Qed.
Lemma tree_anc_dag a b : tree_anc d a b → anc a b.
Proof using Hok. induction 1 as [|x y z Hp _ IH]; [apply rtc_refl|]. eapply anc_trans; [exact IH|]. apply anc_parent, (bo_parent _ _ _ _ _ _ (coloured _ _ Hp)). Qed.
Lemma anc_node x y : y ∈ dom d → anc x y → x ∈ dom d.
Proof using Hok. intros Hy Ha. apply block_dom. eapply (known_anc _ _ _ _ (sk_ghostdag Hok)); [|exact Ha]. by apply block_dom. Qed.
Lemma dag_antisym x y : y ∈ dom d → anc x y → anc y x → x = y.
Proof using Hok.
  intros Hy H1 H2. pose proof (anc_node x y Hy H1) as Hx. destruct (anc_work _ _ _ _ (sk_ghostdag Hok) y x (proj2 (block_dom y) Hy) H1) as [|?]; [done|].
  destruct (anc_work _ _ _ _ (sk_ghostdag Hok) x y (proj2 (block_dom x) Hx) H2) as [|?]; [done|lia].
Qed.

(** ** Merge sets *)
Lemma mergeLoop_run bs : (∀ x, x ∈ bs → x ∈ dom d) → StronglySorted (sorted_by block_data) bs →
  ∀ rs acc, (∀ x, x ∈ rs → x ∈ dom d) → StronglySorted (sorted_by block_data) rs →
  ∃ l, mergeLoop bs rs acc s = (s, Ret (acc ++ l)) ∧ l ≡ₚ bs ++ rs ∧ StronglySorted (sorted_by block_data) l.
Proof using Hok Hs.
  induction bs as [|b bs IHb]; intros Hbs Hb; [by intros [|r rs] acc Hrs Hr; [exists []|exists (r :: rs)]|].
  apply StronglySorted_inv in Hb as [Hb Hall]. rewrite Forall_forall in Hall. induction rs as [|r rs IHr]; intros acc Hrs Hr.
  { exists (b :: bs). rewrite app_nil_r. split; [simpl; by rewrite app_nil_r|]. split; [done|]. constructor; [done|by apply Forall_forall]. }
  assert (b ∈ dom d) as Hbd by (apply Hbs; by left). assert (r ∈ dom d) as Hrd by (apply Hrs; by left). cbn [mergeLoop].
  rewrite (bind_ret_l _ _ s s _ (dataFor_read b Hbd)), (bind_ret_l _ _ s s _ (dataFor_read r Hrd)), Less_sorted. case_bool_decide as Hrb; cbn [negb].
  - pose proof Hr as [Hr' Hallr]%StronglySorted_inv. rewrite Forall_forall in Hallr. destruct (IHr (acc ++ [r])) as (l & Hrun & Hperm & Hl); [intros; apply Hrs; by right|done|].
    exists (r :: l). split; [rewrite <- (assoc_L (++)) in Hrun; exact Hrun|]. split; [rewrite Hperm; apply Permutation_middle|]. constructor; [done|]. apply Forall_forall. intros y Hy.
    rewrite Hperm in Hy. apply elem_of_app in Hy as [[->|Hy]%elem_of_cons|Hy]; [done|etrans; [exact Hrb|by apply Hall]|by apply Hallr].
  - assert (sorted_by block_data b r) as Hbr by (by destruct (total (sorted_by block_data) b r)). pose proof Hr as [_ Hallr]%StronglySorted_inv. rewrite Forall_forall in Hallr.
    destruct (IHb ltac:(intros; apply Hbs; by right) Hb (r :: rs) (acc ++ [b]) Hrs Hr) as (l & Hrun & Hperm & Hl).
    exists (b :: l). split; [rewrite <- (assoc_L (++)) in Hrun; exact Hrun|]. split; [by rewrite Hperm|]. constructor; [done|]. apply Forall_forall. intros y Hy.
    rewrite Hperm in Hy. apply elem_of_app in Hy as [Hy|[->|Hy]%elem_of_cons]; [by apply Hall|done|etrans; [exact Hbr|by apply Hallr]].
Qed.

(** No block comes before one of its ancestors, nor twice. *)
Definition topological (l : list hash) : Prop := StronglySorted (λ a b, ¬ anc b a) l.

Lemma topological_app l1 l2 : topological l1 → topological l2 → (∀ a b, a ∈ l1 → b ∈ l2 → ¬ anc b a) → topological (l1 ++ l2).
Proof using Type.
  intros H1 H2 H12. induction H1 as [|a l1 H1 IH Ha]; [done|]. constructor; [apply IH; intros a' b ? ?; apply H12; [by right|done]|].
  rewrite Forall_forall in *. intros b [Hb|Hb]%elem_of_app; [by apply Ha|]. apply H12; [by left|done].
Qed.
Lemma topological_nodup l : topological l → NoDup l.
Proof using Type. induction 1 as [|a l _ IH Ha]; constructor; [|done]. intros Hin. rewrite Forall_forall in Ha. apply (Ha a Hin), rtc_refl. Qed.

Lemma getSortedMergeSet_run x p : parent_of d x = Some p →
  ∃ l, getSortedMergeSet x s = (s, Ret (p :: l)) ∧ topological (p :: l) ∧ (∀ y, y ∈ p :: l ↔ y = p ∨ y ≠ x ∧ anc y x ∧ ¬ anc y p) ∧
    p :: l ≡ₚ mergeSetBlues (dataOf block_data x) ++ mergeSetReds (dataOf block_data x).
Proof using Hok Hs.
  intros Hp. assert (x ∈ dom d) as Hx by (by eapply parent_dom). pose proof (coloured x p Hp) as Hc. destruct (bo_first _ _ _ _ _ _ Hc) as (bl & Hblues & Hsorted).
  unfold getSortedMergeSet. rewrite (bind_ret_l _ _ s s _ (dataFor_read x Hx)). rewrite Hblues. rewrite (bind_ret_l _ _ s s p) by done.
  rewrite (bind_ret_l _ _ s s bl) by (unfold lift_outcome; by rewrite slice_tail).
  assert (∀ y, y ∈ mergeSetBlues (dataOf block_data x) ++ mergeSetReds (dataOf block_data x) → y ∈ dom d) as Hdom.
  { intros y [->|(_ & Ha & _)]%(bo_merged _ _ _ _ _ _ Hc); [|by eapply anc_node]. by eapply (tree_anc_dom _ _ (ck_tree _ _ (sk_chains Hok))), Hx; apply rtc_once. }
  rewrite Hblues in Hdom. destruct (mergeLoop_run bl ltac:(intros; apply Hdom; set_solver) Hsorted (mergeSetReds (dataOf block_data x)) [p]) as (l & Hrun & Hperm & Hl); [intros; apply Hdom; set_solver|exact (bo_reds _ _ _ _ _ _ Hc)|].
  exists l. split; [exact Hrun|]. assert (∀ y, y ∈ p :: l ↔ y = p ∨ y ≠ x ∧ anc y x ∧ ¬ anc y p) as Hin.
  { intros y. rewrite <- (bo_merged _ _ _ _ _ _ Hc), Hblues. by rewrite Hperm. }
  assert (NoDup (p :: l)) as Hnd by (rewrite Hperm; change (p :: bl ++ ?r) with ((p :: bl) ++ r); rewrite <- Hblues; exact (bo_nodup _ _ _ _ _ _ Hc)).
  split; [|split; [done|by rewrite Hperm]]. apply NoDup_cons in Hnd as [Hpl Hnd]. constructor.
  - assert (∀ y, y ∈ l → y ∈ dom block_data) as Hld by (intros y Hy; apply block_dom, Hdom; rewrite Hperm in Hy; by right). clear - Hl Hnd Hld Hok.
    induction Hl as [|a l Hl IH Ha]; constructor; [apply IH; [by apply NoDup_cons in Hnd as [_ ?]|intros; apply Hld; by right]|].
    rewrite Forall_forall in *. intros b Hb Hba. apply NoDup_cons in Hnd as [Hal _]. pose proof (anc_sorted _ _ _ _ (sk_ghostdag Hok) a b ltac:(apply Hld; by left) Hba) as Hs'.
    pose proof (anti_symm (sorted_by block_data) _ _ (Ha b Hb) Hs') as ->. done.
  - apply Forall_forall. intros y Hy Ha. destruct (proj1 (Hin y)) as [->|(_ & _ & Hn)]; [by right|by apply Hpl|done].
Qed.

(** *** Without the past of the low hash *)
Lemma appendNotInPast_run low l : low ∈ dom d → (∀ x, x ∈ l → x ∈ dom d) →
  ∀ acc, ∃ l', appendNotInPast low l acc s = (s, Ret (acc ++ l')) ∧ l' `sublist_of` l ∧ ∀ y, y ∈ l' ↔ y ∈ l ∧ ¬ anc y low.
Proof using Hok Hs.
  intros Hlow. induction l as [|x l IH]; intros Hl acc; cbn [appendNotInPast].
  { exists []. rewrite app_nil_r. split; [done|]. split; [done|]. intros y. set_solver. }
  destruct (past_read x low (Hl x ltac:(by left)) Hlow) as (r & Hr & Hans). rewrite (bind_ret_l _ _ s s _ Hr). destruct r.
  - destruct (IH ltac:(intros; apply Hl; by right) acc) as (l' & Hrun & Hsub & Hin). exists l'. split; [done|]. split; [by constructor|]. intros y. rewrite Hin, elem_of_cons. apply proj1 in Hans. naive_solver.
  - destruct (IH ltac:(intros; apply Hl; by right) (acc ++ [x])) as (l' & Hrun & Hsub & Hin). exists (x :: l'). rewrite <- (assoc_L (++)) in Hrun. split; [done|]. split; [by constructor|].
    intros y. rewrite !elem_of_cons, Hin. assert (¬ anc x low) by (intros Hx%Hans; done). naive_solver.
Qed.

(** ** Up the selected chain *)

(** The past of [x] without that of [low] *)
Record collected (low x : hash) (l : list hash) : Prop := {
  cl_sorted : topological l;
  cl_past y : y ∈ l ↔ anc y x ∧ y ≠ x ∧ ¬ anc y low
}.

Lemma collected_none low x : anc x low → collected low x [].
Proof using Type. intros Ha. split; [constructor|]. intros y. rewrite elem_of_nil. split; [done|]. intros (Hy & _ & Hn). apply Hn. by eapply anc_trans. Qed.

Lemma collected_step low x c acc ms l : parent_of d c = Some x → collected low x acc → topological ms → (∀ y, y ∈ ms ↔ y = x ∨ y ≠ c ∧ anc y c ∧ ¬ anc y x) →
  l `sublist_of` ms → (∀ y, y ∈ l ↔ y ∈ ms ∧ ¬ anc y low) → collected low c (acc ++ l).
Proof using Hok.
  intros Hp [Hacc Hpast] Hms Hin Hsub Hl. assert (c ∈ dom d) as Hcd by (by eapply parent_dom). assert (tree_anc d x c) as Hxc by (by apply rtc_once).
  assert (x ∈ dom d) as Hxd by (by eapply (tree_anc_dom _ _ (ck_tree _ _ (sk_chains Hok)))).
  assert (x ≠ c) as Hne by (intros ->; pose proof (ck_score _ _ (sk_chains Hok) _ _ Hp); lia). assert (anc x c) as Hac by (by apply tree_anc_dag).
  assert (¬ anc c x) as Hca by (intros E; by apply Hne, dag_antisym). split.
  - apply topological_app; [done|by eapply StronglySorted_sublist|]. intros a b [Hax [Hnx _]]%Hpast [Hb _]%Hl Hba.
    apply Hin in Hb as [->|(_ & _ & Hn)]; [by apply Hnx, dag_antisym|]. apply Hn. by eapply anc_trans.
  - intros y. rewrite elem_of_app, Hpast, Hl, Hin. split.
    + intros [(Hy & Hyx & Hn)|[[->|(Hyc & Hy & _)] Hn]]; [|done..]. split; [by eapply anc_trans|]. split; [by intros ->|done].
    + intros (Hy & Hyc & Hn). destruct (decide (y = x)) as [->|Hyx]; [right; split; [by left|done]|].
      destruct (anc_dec _ _ _ _ (sk_ghostdag Hok) x y (proj2 (block_dom x) Hxd)) as [Hax|Hax]; [by left|]. right. split; [by right|done].
Qed.

Lemma topological_bound l x : x ∈ dom d → topological l → (∀ y, y ∈ l → anc y x) → zlen l < 2 ^ 63.
Proof using Hok.
  intros Hx Hl Ha. pose proof (nodup_known block_data l (topological_nodup l Hl)) as Hlen. pose proof (sk_size Hok). unfold zlen.
  assert (size block_data ≤ size d)%nat by (rewrite <- !size_dom; apply subseteq_size; intros y; apply block_dom).
  assert (length l ≤ size block_data)%nat by (apply Hlen; intros y Hy; by eapply block_dom, anc_node, Ha). lia.
Qed.

(** The size of the merge set that a block adds *)
Definition mergeSetSize (x : hash) : Z := zlen (mergeSetBlues (dataOf gd x) ++ mergeSetReds (dataOf gd x)).

(** The iterator before the chain [l], which starts above [x] *)
Abbreviation more l := (match l with [] => false | _ => true end).
Abbreviation above high low x l := (match l with [] => at_block high low x | c :: _ => at_block high low c end).

Lemma next_at high low x l : high ∈ dom d → climbs d x l high →
  topology (it_Next (at_block high low x)) s = (s, Ret (more l, above high low x l)).
Proof using Hok Hs.
  intros Hh Hc. apply onPruning_read, onVirtual_read. rewrite Hs, (next_run root v (sk_chains Hok) high low x l Hh Hc). by destruct l.
Qed.

Lemma collectLoop_run low high max bottom : low ∈ dom d → high ∈ dom d → ∀ l x acc hh fuel, climbs d x l high → (length l < fuel)%nat → x ∈ dom d → collected low x acc →
  ∃ acc' y, collectLoop fuel low max (more l) (above high bottom x l) acc hh s = (s, Ret (acc', if bool_decide (y = x) then hh else y)) ∧
    collected low y acc' ∧ tree_anc d x y ∧ tree_anc d y high ∧ (max = 0 → y = high) ∧ (max ≠ 0 → zlen acc' ≤ Z.max max (zlen acc)) ∧
    (∀ c l', l = c :: l' → zlen acc + mergeSetSize c ≤ max → y ≠ x).
Proof using Hok Hs.
  intros Hlow Hh. induction l as [|c l IH]; intros x acc hh fuel Hc Hf Hx Hacc; (destruct fuel as [|fuel]; [simpl in Hf; lia|]); cbn [collectLoop].
  { simpl in Hc. subst x. exists acc, high. rewrite bool_decide_eq_true_2 by done. split_and!; try done; [apply rtc_refl..|lia]. }
  destruct Hc as [Hp Hc]. assert (c ∈ dom d) as Hcd by (by eapply parent_dom). destruct (getSortedMergeSet_run c x Hp) as (ml & Hms & Hsorted & Hin & Hperm).
  rewrite (bind_ret_l _ _ s s (Some c)) by (by destruct s). rewrite (bind_ret_l _ _ s s c (pointed_read s c)), (bind_ret_l _ _ s s _ Hms).
  assert (zlen (x :: ml) = mergeSetSize c) as Hsize by (unfold mergeSetSize, zlen; by rewrite Hperm, block_dataOf). assert (tree_anc d x c) as Hxc by (by apply rtc_once).
  assert (GoInt.uint64 (zlen acc + zlen (x :: ml)) = zlen acc + zlen (x :: ml)) as ->.
  { apply GoInt.uint64_id. pose proof (topological_bound acc x Hx (cl_sorted _ _ _ Hacc)) as B1. pose proof (topological_bound (x :: ml) c Hcd Hsorted) as B2.
    pose proof (zlen_nonneg acc). pose proof (zlen_nonneg (x :: ml)). enough (zlen acc < 2 ^ 63 ∧ zlen (x :: ml) < 2 ^ 63) by lia.
    split; [apply B1; intros y Hy; by apply (cl_past _ _ _ Hacc) in Hy as [? _]|]. apply B2. intros y [->|(_ & ? & _)]%Hin; [by apply tree_anc_dag|done]. }
  destruct (negb (max =? 0) && (max <? zlen acc + zlen (x :: ml))) eqn:Estop.
  { apply andb_true_iff in Estop as [E1%negb_true_iff%Z.eqb_neq E2%Z.ltb_lt]. exists acc, x. rewrite bool_decide_eq_true_2 by done.
    split_and!; try done; [apply rtc_refl|eapply tree_anc_trans; [exact Hxc|by eapply climbs_anc]|lia|intros c' l' [= -> ->]; lia]. }
  destruct (appendNotInPast_run low (x :: ml) Hlow) with (acc := acc) as (l' & Happ & Hsub & Hl').
  { intros y [->|(_ & Ha & _)]%Hin; [done|by eapply anc_node]. }
  rewrite (bind_ret_l _ _ s s _ Happ). rewrite (bind_ret_l _ _ s s _ (next_at high bottom c l Hh Hc)).
  pose proof (collected_step low x c acc (x :: ml) l' Hp Hacc Hsorted Hin Hsub Hl') as Hacc'. destruct (IH c (acc ++ l') c fuel Hc ltac:(simpl in Hf; lia) Hcd Hacc') as (acc2 & y & Hrun & Hcol & Hcy & Hyh & Hall & Hmax & _).
  assert (y ≠ x) as Hyx by (intros ->; pose proof (proj1 (score_anc root v (sk_chains Hok) _ _ Hcy)); pose proof (ck_score _ _ (sk_chains Hok) _ _ Hp); lia).
  exists acc2, y. rewrite (bool_decide_eq_false_2 (y = x)) by done. split; [cbn [fst snd]; rewrite Hrun; case_bool_decide; by subst|]. split_and!; try done; [by eapply tree_anc_trans|].
  intros Hm. specialize (Hmax Hm). apply andb_false_iff in Estop as [E%negb_false_iff%Z.eqb_eq|E%Z.ltb_ge]; [done|]. rewrite zlen_app in Hmax.
  assert (zlen l' ≤ zlen (x :: ml)) by (unfold zlen; apply sublist_length in Hsub; lia). lia.
Qed.

(** ** The low hash in the chain of the high hash *)
Lemma findLowLoop_run high : high ∈ dom d → ∀ l low fuel, climbs d root l low → (length l < fuel)%nat → low ∈ dom d →
  ∃ c, findLowLoop fuel low high s = (s, Ret c) ∧ tree_anc d c low ∧ tree_anc d c high ∧ ∀ a, tree_anc d a low → tree_anc d a high → tree_anc d a c.
Proof using Hok Hs.
  intros Hh l. induction l as [|x l IH] using rev_ind; intros low fuel Hc Hf Hlow; (destruct fuel as [|fuel]; [rewrite ?length_app in Hf; simpl in Hf; lia|]); cbn [findLowLoop];
    destruct (chain_read low high Hlow Hh) as (r & Hr & Hans); rewrite (bind_ret_l _ _ s s _ Hr).
  - simpl in Hc. subst low. destruct r; [exists root; split_and!; try done; [apply rtc_refl|by apply Hans]|].
    pose proof (root_anc _ _ (ck_tree _ _ (sk_chains Hok)) high Hh) as E%Hans. done.
  - destruct r; [exists low; split_and!; try done; [apply rtc_refl|by apply Hans]|]. destruct (climbs_app _ _ _ _ _ Hc) as (p & Hc' & [Hp Hx] & _). simpl in Hx. subst x.
    rewrite (bind_ret_l _ _ s s _ (dataFor_read low Hlow)), block_dataOf, (ck_selected _ _ (sk_chains Hok) _ _ Hp) by done. rewrite (bind_ret_l _ _ s s p (pointed_read s p)).
    assert (tree_anc d p low) as Hpl by (by apply rtc_once). assert (p ∈ dom d) as Hpd by (by eapply (tree_anc_dom _ _ (ck_tree _ _ (sk_chains Hok)))).
    destruct (IH p fuel Hc') as (c & Hrun & Hcp & Hch & Hmax); [rewrite length_app in Hf; simpl in Hf; lia|done|].
    exists c. split; [done|]. split; [eapply tree_anc_trans; [exact Hcp|exact Hpl]|]. split; [done|]. intros a Ha Hah. apply Hmax; [|done]. unfold tree_anc in Ha. destruct (rtc_inv _ _ Ha) as [->|(q & Hq & Hrest)]; [by apply Hans in Hah|].
    rewrite Hp in Hq. by injection Hq as <-.
Qed.


Lemma findLow_run low high : low ∈ dom d → high ∈ dom d →
  ∃ c, findLowHashInHighHashSelectedParentChain low high s = (s, Ret c) ∧ tree_anc d c low ∧ tree_anc d c high ∧ ∀ a, tree_anc d a low → tree_anc d a high → tree_anc d a c.
Proof using Hok Hs.
  intros Hl Hh. destruct (climbs_exists d root low (root_anc _ _ (ck_tree _ _ (sk_chains Hok)) low Hl)) as [l Hc]. pose proof (climbs_length root v (sk_chains Hok) l root low Hc) as Hlen.
  unfold findLowHashInHighHashSelectedParentChain. rewrite (bind_ret_l _ _ s s (Datatypes.S (size gd))) by (apply topology_read; by rewrite Hs).
  apply (findLowLoop_run high Hh l low); [done| |done]. assert (size d ≤ size gd)%nat; [|lia].
  rewrite <- !size_dom. apply subseteq_size. intros x. apply (ck_data _ _ (sk_chains Hok)).
Qed.

(** The answer: [actual] is the last block that was reached, [common] the last block of the chain of [low] that is in the chain of [high]. *)
Record between_ok (low high : hash) (max : Z) (common : hash) (hashes : list hash) (actual : hash) : Prop := {
  bt_common : tree_anc d common low ∧ tree_anc d common high ∧ ∀ a, tree_anc d a low → tree_anc d a high → tree_anc d a common;
  bt_actual : tree_anc d common actual ∧ tree_anc d actual high;
  bt_progress : common ≠ high → actual ≠ common;
  bt_all : max = 0 → actual = high;
  bt_max : max ≠ 0 → zlen hashes ≤ max + 1;
  bt_sorted : topological hashes;
  bt_hashes y : y ∈ hashes ↔ y = actual ∧ actual ≠ common ∨ anc y actual ∧ y ≠ actual ∧ ¬ anc y low
}.

Lemma antiPast_spec sm low high max : low ∈ dom d → high ∈ dom d → 0 ≤ max → max = 0 ∨ GoInt.uint64 (sm_mergeSetSizeLimit sm + 1) ≤ max →
  max = 0 ∨ (∀ x, x ∈ dom d → mergeSetSize x ≤ max) →
  ∃ common hashes actual, antiPastHashesBetween sm low high max s = (s, Ret (hashes, actual)) ∧ between_ok low high max common hashes actual.
Proof using Hok Hs.
  intros Hl Hh Hpos Hlimit Hfit. unfold antiPastHashesBetween. assert (negb (max =? 0) && (max <? GoInt.uint64 (sm_mergeSetSizeLimit sm + 1)) = false) as ->.
  { apply andb_false_iff. destruct Hlimit as [->|?]; [by left|right; by apply Z.ltb_ge]. }
  destruct (findLow_run low high Hl Hh) as (c & Hrun & Hcl & Hch & Hmax). rewrite (bind_ret_l _ _ s s c Hrun).
  assert (c ∈ dom d) as Hcd by (by eapply (tree_anc_dom _ _ (ck_tree _ _ (sk_chains Hok)))).
  rewrite (bind_ret_l _ _ s s _ (dataFor_read c Hcd)), (bind_ret_l _ _ s s _ (dataFor_read high Hh)), !block_dataOf by done.
  destruct (Z.ltb_spec (score high) (score c)) as [E|_]; [pose proof (proj1 (score_anc root v (sk_chains Hok) _ _ Hch)); lia|].
  destruct (inChain_run root v (sk_chains Hok) c high Hcd Hh) as (r & Hr & Hans). destruct r; [|by apply Hans in Hch].
  rewrite (bind_ret_l _ _ s s (at_block high c c)) by (apply topology_read; rewrite Hs; unfold SelectedChildIterator; by rewrite (bind_ret_l _ _ _ _ _ Hr)).
  rewrite (bind_ret_l _ _ s s (Datatypes.S (size d))) by (apply onPruning_read; unfold chooseFuel; rewrite (bind_ret_l _ _ (sy_pruning s) (sy_pruning s) (sy_pruning s)) by done; by rewrite Hs).
  destruct (climbs_exists d c high Hch) as [l Hclimb]. pose proof (climbs_length root v (sk_chains Hok) l c high Hclimb) as Hlen.
  change (it_First (at_block high c c)) with (it_Next (at_block high c c)). rewrite (bind_ret_l _ _ s s _ (next_at high c c l Hh Hclimb)). cbn [fst snd].
  destruct (collectLoop_run low high max c Hl Hh l c [] high (Datatypes.S (size d)) Hclimb ltac:(lia) Hcd (collected_none low c (tree_anc_dag _ _ Hcl))) as (acc & y & Hloop & Hcol & Hcy & Hyh & Hall & Hmax' & Hfirst).
  rewrite (bind_ret_l _ _ s s _ Hloop). assert (c ≠ high → y ≠ c) as Hprog.
  { intros Hne. destruct l as [|x l]; [by simpl in Hclimb|]. destruct Hfit as [Hz|Hfit]; [rewrite (Hall Hz); congruence|].
    apply (Hfirst x l eq_refl). change (zlen (@nil hash)) with 0. rewrite Z.add_0_l. apply Hfit. destruct Hclimb as [Hp _]. by eapply parent_dom. }
  destruct (decide (c = high)) as [->|Hne].
  - assert (y = high) as -> by (apply (tree_anc_antisym d root (ck_tree _ _ (sk_chains Hok))); done). rewrite (bool_decide_eq_true_2 (high = high)) by done. cbn iota. rewrite (bool_decide_eq_true_2 (high = high)) by done. cbn [negb].
    exists high, acc, high. split; [done|]. split; try done; [by intros Hm; specialize (Hmax' Hm); change (zlen (@nil hash)) with 0 in Hmax'; lia|by destruct Hcol|].
    intros z. rewrite (cl_past _ _ _ Hcol). naive_solver.
  - specialize (Hprog Hne). rewrite (bool_decide_eq_false_2 (y = c)) by done. rewrite (bool_decide_eq_false_2 (c = y)) by done. cbn [negb].
    exists c, (acc ++ [y]), y. split; [done|]. assert (y ∈ dom d) as Hyd by (by eapply (tree_anc_dom _ _ (ck_tree _ _ (sk_chains Hok)))). split; try done.
    + intros Hm. specialize (Hmax' Hm). change (zlen (@nil hash)) with 0 in Hmax'. rewrite zlen_app, zlen_cons, zlen_nil. lia.
    + apply topological_app; [by destruct Hcol|repeat constructor|]. intros a b [Ha [Hay _]]%(cl_past _ _ _ Hcol) ->%list_elem_of_singleton Hya. by apply Hay, dag_antisym.
    + intros z. rewrite elem_of_app, list_elem_of_singleton, (cl_past _ _ _ Hcol). naive_solver.
Qed.
End Between.

(** ** The missing block bodies

    [missingBlockBodyHashes] looks for the last block with a body on the selected chain from the pruning point, and asks for the blocks without bodies that are
    not below it. *)

Section Bodies.
Context `{Libs} `{MuHash}.
Variables (dag_parents : list Z → list (list Z)) (k : Z) (root pp : list Z) (v : virtualState).
Abbreviation dtm := (dtm_of (consensus_of v)).
Abbreviation d := (reachabilityDataStore (dt_reachabilityManager (dtm_of (consensus_of v)))).
Abbreviation anc := (dag_anc dag_parents).
Abbreviation status x := (rs_statuses (vs_resolve v) !! x).
Abbreviation body x := (us_blocks (rs_stores (vs_resolve v)) !! x).
Hypothesis Hok : sync_ok dag_parents k root v.

(** Bodies above the pruning point: a block has one unless it is a header only, and its parents have them before it. *)
Record bodies_ok : Prop := {
  bd_status x : x ∈ dom d → is_Some (status x);
  bd_body x : x ∈ dom d → ¬ anc x pp → is_Some (body x) ↔ status x ≠ Some StatusHeaderOnly;
  bd_parents x p : x ∈ dom d → status x ≠ Some StatusHeaderOnly → p ∈ dag_parents x → ¬ anc p pp → status p ≠ Some StatusHeaderOnly
}.
Hypothesis Hbodies : bodies_ok.

Lemma bodies_below x y : x ∈ dom d → status x ≠ Some StatusHeaderOnly → anc y x → ¬ anc y pp → status y ≠ Some StatusHeaderOnly.
Proof using Hok Hbodies.
  intros Hx Hst Ha Hn. unfold dag_anc in Ha. induction Ha as [|x q y Hq Hrest IH]; [done|].
  assert (¬ anc q pp) as Hqn by (intros Hq'; apply Hn; eapply anc_trans; [exact Hrest|exact Hq']). apply IH; [| |done].
  - eapply (anc_node dag_parents k root v Hok); [exact Hx|by apply anc_parent].
  - by eapply (bd_parents Hbodies x).
Qed.

Section Walk.
Variable s : syncState.
Hypothesis Hs : pn_virtual (sy_pruning s) = v.

Lemma lastBodyLoop_run high bottom : high ∈ dom d → ∀ l x fuel, climbs d x l high → (length l < fuel)%nat → x ∈ dom d →
  ∃ y found, lastBodyLoop fuel (match l with [] => false | _ => true end) (match l with [] => at_block high bottom x | c :: _ => at_block high bottom c end) x s = (s, Ret (y, found)) ∧
    tree_anc d x y ∧ tree_anc d y high ∧ (y = x ∨ is_Some (body y)) ∧ (found = false → y = high).
Proof using Hok Hs.
  intros Hh. induction l as [|c l IH]; intros x fuel Hc Hf Hx; (destruct fuel as [|fuel]; [simpl in Hf; lia|]); cbn [lastBodyLoop].
  { simpl in Hc. subst x. exists high, false. split_and!; try done; [apply rtc_refl..|by left]. }
  destruct Hc as [Hp Hc]. assert (c ∈ dom d) as Hcd by (by eapply parent_dom). assert (tree_anc d x c) as Hxc by (by apply rtc_once). pose proof (climbs_anc _ _ _ _ Hc) as Hch.
  rewrite (bind_ret_l _ _ s s (Some c)) by (by destruct s). rewrite (bind_ret_l _ _ s s c (pointed_read s c)). rewrite (bind_ret_l _ _ s s (bool_decide (is_Some (body c)))) by (unfold hasBlock, gets; by rewrite Hs).
  case_bool_decide as Hb; cbn [negb].
  - rewrite (bind_ret_l _ _ s s _ (next_at dag_parents k root v Hok s Hs high bottom c l Hh Hc)). cbn [fst snd].
    destruct (IH c fuel Hc ltac:(simpl in Hf; lia) Hcd) as (y & found & Hrun & Hcy & Hyh & Hy & Hfound). exists y, found. split; [done|]. split; [by eapply tree_anc_trans|]. split; [done|]. split; [|done].
    right. by destruct Hy as [->|?].
  - exists x, true. split_and!; try done; [apply rtc_refl|by eapply tree_anc_trans|by left].
Qed.

Lemma headerOnlyOf_run l : (∀ x, x ∈ l → x ∈ dom d) → ∃ l', headerOnlyOf l s = (s, Ret l') ∧ l' `sublist_of` l ∧ ∀ y, y ∈ l' ↔ y ∈ l ∧ status y = Some StatusHeaderOnly.
Proof using Hok Hbodies Hs.
  induction l as [|x l IH]; intros Hl; cbn [headerOnlyOf]; [exists []; split; [done|]; split; [done|]; set_solver|].
  destruct (bd_status Hbodies x (Hl x ltac:(by left))) as [st Hst]. destruct (IH ltac:(intros; apply Hl; by right)) as (l' & Hrun & Hsub & Hin).
  assert (statusFor x s = (s, Ret st)) as Hread by (apply onPruning_read, onVirtual_read, status_read; by rewrite Hs). rewrite (bind_ret_l _ _ s s st Hread), (bind_ret_l _ _ s s l' Hrun).
  case_bool_decide as E; [subst st; exists (x :: l')|exists l']; (split; [done|]; split; [by constructor|]); intros y; rewrite ?elem_of_cons, Hin; naive_solver.
Qed.
End Walk.

(** What lies above the last body and has none *)
Lemma above_last_body high L y : high ∈ dom d → tree_anc d pp L → tree_anc d L high → L = pp ∨ is_Some (body L) → status y = Some StatusHeaderOnly →
  (y = high ∧ high ≠ L ∨ anc y high ∧ y ≠ high ∧ ¬ anc y L) ↔ anc y high ∧ ¬ anc y pp.
Proof using Hok Hbodies.
  intros Hh HpL HLh HL Hst. assert (L ∈ dom d) as HLd by (by eapply (tree_anc_dom _ _ (ck_tree _ _ (sk_chains _ _ _ _ Hok)))).
  assert (pp ∈ dom d) as Hpd by (by eapply (tree_anc_dom _ _ (ck_tree _ _ (sk_chains _ _ _ _ Hok)))). pose proof (tree_anc_dag _ _ _ _ Hok _ _ HpL) as ApL. pose proof (tree_anc_dag _ _ _ _ Hok _ _ HLh) as ALh.
  split.
  - intros [[-> Hne]|(Hy & Hne & Hn)]; [|split; [done|]; intros Hyp; apply Hn; by eapply anc_trans]. split; [apply rtc_refl|]. intros Hhp.
    apply Hne. apply (dag_antisym _ _ _ _ Hok); [done| |done]. by eapply anc_trans.
  - intros [Hy Hn]. assert (¬ anc y L) as HyL; [|destruct (decide (y = high)) as [->|]; [left; split; [done|]; intros E; apply HyL; rewrite <- E; apply rtc_refl|by right]].
    intros HyL. destruct HL as [->|Hbody]; [done|]. destruct (decide (L = pp)) as [->|Hne]; [done|].
    assert (¬ anc L pp) as HLn by (intros E; by apply Hne, (dag_antisym _ _ _ _ Hok)). apply (bd_body Hbodies L HLd HLn) in Hbody. by eapply (bodies_below L y).
Qed.

Lemma missing_spec pm sm hc samePointer s high : pn_virtual (sy_pruning s) = v → has (ps_pruningPoint (pn_store (sy_pruning s))) = true → point_of pm hc (pn_store (sy_pruning s)) = Some pp →
  high ∈ dom d → tree_anc d pp high →
  ∃ s' missing, missingBlockBodyHashes sm hc samePointer high s = (s', Ret missing) ∧ topological dag_parents missing ∧
    (∀ y, y ∈ missing ↔ anc y high ∧ ¬ anc y pp ∧ status y = Some StatusHeaderOnly) ∧
    pn_virtual (sy_pruning s') = v ∧ same_answers pm hc (pn_store (sy_pruning s)) (pn_store (sy_pruning s')) ∧ sy_chain s' = sy_chain s.
Proof using Hok Hbodies.
  intros Hv Hhas Hpp Hh Hph. unfold missingBlockBodyHashes. destruct (PruningPoint_run pm hc _ pp Hhas Hpp) as (store' & Hrun & Hsame).
  set (s1 := put_pruning (put_store store' (sy_pruning s)) s). rewrite (bind_ret_l _ _ s s1 pp) by (unfold onPruning; by rewrite (onStore_run _ _ _ _ Hrun)).
  assert (pn_virtual (sy_pruning s1) = v) as Hv1 by done.
  assert (pp ∈ dom d) as Hpd by (by eapply (tree_anc_dom _ _ (ck_tree _ _ (sk_chains _ _ _ _ Hok)))).
  destruct (inChain_run root v (sk_chains _ _ _ _ Hok) pp high Hpd Hh) as (r & Hr & Hans). destruct r; [|by apply Hans in Hph].
  rewrite (bind_ret_l _ _ s1 s1 (at_block high pp pp)) by (apply topology_read; rewrite Hv1; unfold SelectedChildIterator; by rewrite (bind_ret_l _ _ _ _ _ Hr)).
  rewrite (bind_ret_l _ _ s1 s1 (Datatypes.S (size d))) by (apply onPruning_read; unfold chooseFuel; rewrite (bind_ret_l _ _ (sy_pruning s1) (sy_pruning s1) (sy_pruning s1)) by done; by rewrite Hv1).
  destruct (climbs_exists d pp high Hph) as [l Hclimb]. pose proof (climbs_length root v (sk_chains _ _ _ _ Hok) l pp high Hclimb) as Hlen.
  change (it_First (at_block high pp pp)) with (it_Next (at_block high pp pp)). rewrite (bind_ret_l _ _ s1 s1 _ (next_at dag_parents k root v Hok s1 Hv1 high pp pp l Hh Hclimb)). cbn [fst snd].
  destruct (lastBodyLoop_run s1 Hv1 high pp Hh l pp (Datatypes.S (size d)) Hclimb ltac:(lia) Hpd) as (L & found & Hwalk & HpL & HLh & HL & Hfound).
  rewrite (bind_ret_l _ _ s1 s1 _ Hwalk). pose proof (λ y, above_last_body high L y Hh HpL HLh HL) as Habove.
  destruct (negb found && (bool_decide (L = high) && samePointer L)) eqn:Estop.
  { apply andb_true_iff in Estop as [_ [E%bool_decide_eq_true _]%andb_true_iff]. subst L. exists s1, []. split; [done|]. split; [constructor|]. split; [|done]. intros y. rewrite elem_of_nil. split; [done|].
    intros (Hy & Hn & Hst). destruct (proj2 (Habove y Hst) (conj Hy Hn)) as [[_ ?]|(? & _ & ?)]; done. }
  assert (L ∈ dom d) as HLd by (by eapply (tree_anc_dom _ _ (ck_tree _ _ (sk_chains _ _ _ _ Hok)))).
  destruct (antiPast_spec dag_parents k root v Hok s1 Hv1 sm L high 0 HLd Hh) as (common & hashes & actual & Hbt & Hspec); [lia|by left|by left|].
  rewrite (bind_ret_l _ _ s1 s1 _ Hbt). cbn [fst]. pose proof (bt_all _ _ _ _ _ _ _ _ Hspec eq_refl) as ->.
  assert (common = L) as -> by (destruct (bt_common _ _ _ _ _ _ _ _ Hspec) as (H1 & H2 & H3); apply (tree_anc_antisym d root (ck_tree _ _ (sk_chains _ _ _ _ Hok))); [done|]; apply H3; [apply rtc_refl|done]).
  destruct (headerOnlyOf_run s1 Hv1 hashes) as (missing & Hm & Hsub & Hin).
  { intros x [[-> _]|(Hx & _)]%(bt_hashes _ _ _ _ _ _ _ _ Hspec); [done|]. exact (anc_node dag_parents k root v Hok x high Hh Hx). }
  rewrite Hm. exists s1, missing. split; [done|]. split; [by eapply StronglySorted_sublist, (bt_sorted _ _ _ _ _ _ _ _ Hspec)|]. split; [|done].
  intros y. rewrite Hin, (bt_hashes _ _ _ _ _ _ _ _ Hspec). split; [intros [Hy Hst]; apply (Habove y Hst) in Hy; naive_solver|]. intros (Hy & Hn & Hst). split; [by apply (Habove y Hst)|done].
Qed.
End Bodies.
