(* ===== verification/SyncLocator.v ===== *)
(** * Block locators

    A locator of the DAG goes down the selected chain of the high hash in steps of blue score that double, and ends at the low hash when that is in the chain; when the chain
    jumps over the blue score of the low hash the loop does not end.  A locator of the headers' selected chain takes its indexes from the chain as a list. *)
From S2P Require Import Prelude Externalapi UtxoDiff ScriptNum ScriptStack OpcodeTable Script Hashing SigCache Opcode Engine.
From S2P Require Import Interval ReachabilityData Reachability ReachabilityTree ReachabilityAdd DagTopology Block Merkle Ghostdag GhostdagOrder GhostdagColour Heap Window DifficultyManager Traversal HeaderValidation TransactionValidator PastUtxo Coinbase VerifyUtxo ResolveStatus VirtualBlock VirtualParents VirtualSelect Stores ChainStore PruningStore UtxoSync PruningManager PruningSpec SyncManager SyncSpec.
Import Interval Store Reachability TransactionHashing SigCache Opcode BlockHeap Ghostdag DifficultyManager DagTopology Traversal Header HeaderValidation TransactionValidator PastUtxo VerifyUtxo ResolveStatus VirtualBlock HeadersSelectedChain Pruning PruningManager SyncManager.
Local Open Scope Z_scope.
Local Open Scope prog_scope.

Abbreviation hash := (list Z) (only parsing).

Section Locator.
Context `{Libs} `{MuHash}.
Variables (root : list Z) (v : virtualState).
Abbreviation dtm := (dtm_of (consensus_of v)).
Abbreviation d := (reachabilityDataStore (dt_reachabilityManager (dtm_of (consensus_of v)))).
Abbreviation gd := (ghostdag_of (consensus_of v)).
Abbreviation score x := (blueScore (dataOf gd x)).
Hypothesis Hok : chains_ok root v.
Hypothesis Hroot : selectedParent (dataOf gd root) = None.

(** [y] is the lowest block of the chain of [x] with the blue score [t] or more. *)
Definition lowest (x : hash) (t : Z) (y : hash) : Prop := tree_anc d y x ∧ t ≤ score y ∧ ∀ z, tree_anc d z x → t ≤ score z → tree_anc d y z.

Lemma dataAt_run x : x ∈ dom d → dataAt x dtm = (dtm, Ret (dataOf gd x)).
Proof using Hok.
  intros Hx. pose proof (ck_data _ _ Hok x Hx) as [g Hg]%elem_of_dom. unfold dataAt, reachability, zoom, ghostdagData, bind, get.
  change (ghostdagDataStore _ !! x) with (gd !! x). unfold dataOf. rewrite Hg. by destruct dtm.
Qed.

Lemma lowestAboveLoop_run t : 0 ≤ t → ∀ l x fuel, climbs d root l x → (length l < fuel)%nat → x ∈ dom d → t ≤ score x →
  ∃ y, lowestAboveLoop fuel t x (dataOf gd x) dtm = (dtm, Ret y) ∧ lowest x t y.
Proof using Hok Hroot.
  intros Ht l. induction l as [|c l IH] using rev_ind; intros x fuel Hc Hf Hx Hle; (destruct fuel as [|fuel]; [rewrite ?length_app in Hf; simpl in Hf; lia|]); cbn [lowestAboveLoop].
  - simpl in Hc. subst x. rewrite Hroot. exists root. split; [done|]. split; [apply rtc_refl|]. split; [done|]. intros z Hz _. destruct (decide (z = root)) as [->|Hne]; [apply rtc_refl|].
    destruct (rtc_inv _ _ Hz) as [?|(q & Hq & _)]; [congruence|]. by rewrite (ck_selected _ _ Hok _ _ Hq) in Hroot.
  - destruct (climbs_app _ _ _ _ _ Hc) as (p & Hc' & [Hp Hcx] & _). simpl in Hcx. subst c. rewrite (ck_selected _ _ Hok _ _ Hp).
    assert (tree_anc d p x) as Hpx by (by apply rtc_once). assert (p ∈ dom d) as Hpd by (by eapply (tree_anc_dom _ _ (ck_tree _ _ Hok))).
    rewrite (bind_ret_l _ _ _ _ _ (dataAt_run p Hpd)). destruct (Z.ltb_spec (score p) t) as [Hlt|Hge].
    + exists x. split; [done|]. split; [apply rtc_refl|]. split; [done|]. intros z Hz Hzt. destruct (rtc_inv _ _ Hz) as [->|(q & Hq & Hrest)]; [apply rtc_refl|].
      rewrite Hp in Hq. injection Hq as <-. pose proof (proj1 (score_anc root v Hok _ _ Hrest)). lia.
    + destruct (IH p fuel Hc') as (y & Hrun & Hyp & Hyt & Hall); [rewrite length_app in Hf; simpl in Hf; lia|done|done|]. exists y. split; [done|]. split; [eapply tree_anc_trans; [exact Hyp|exact Hpx]|].
      split; [done|]. intros z Hz Hzt. destruct (rtc_inv _ _ Hz) as [->|(q & Hq & Hrest)]; [eapply tree_anc_trans; [exact Hyp|exact Hpx]|].
      rewrite Hp in Hq. injection Hq as <-. by apply Hall.
Qed.

Lemma lowest_run x t : x ∈ dom d → 0 ≤ t ≤ score x → ∃ y, LowestChainBlockAboveOrEqualToBlueScore x t dtm = (dtm, Ret y) ∧ lowest x t y.
Proof using Hok Hroot.
  intros Hx Ht. destruct (climbs_exists d root x (root_anc _ _ (ck_tree _ _ Hok) x Hx)) as [l Hc]. pose proof (climbs_length root v Hok l root x Hc).
  unfold LowestChainBlockAboveOrEqualToBlueScore. rewrite (bind_ret_l _ _ _ _ _ (dataAt_run x Hx)). destruct (Z.ltb_spec (score x) t) as [?|_]; [lia|].
  rewrite (bind_ret_l _ _ dtm dtm (Datatypes.S (size gd))) by done. apply (lowestAboveLoop_run t ltac:(lia) l); [done| |done|lia].
  assert (size d ≤ size gd)%nat; [|lia]. rewrite <- !size_dom. apply subseteq_size. intros y. apply (ck_data _ _ Hok).
Qed.

Lemma chain_score_eq x y : tree_anc d x y → score y ≤ score x → x = y.
Proof using Hok. intros Ha Hle. destruct (decide (x = y)) as [|Hne]; [done|]. pose proof (proj2 (score_anc root v Hok _ _ Ha) Hne). lia. Qed.

Lemma lowest_in_chain x low y : tree_anc d low x → lowest x (score low) y → y = low.
Proof using Hok. intros Ha (_ & Hle & Hall). apply chain_score_eq; [|done]. by apply Hall. Qed.

(** *** The locator as a list: from [x], where the step is [2 ^ i], down to [low] *)
Inductive located (low : hash) : Z → hash → list hash → Prop :=
  | located_low i : located low i low [low]
  | located_step i x y l : score low < score x → lowest x (Z.max (score x - 2 ^ i) (score low)) y → located low (i + 1) y l → located low i x (x :: l).

Section Walk.
Variable s : syncState.
Hypothesis Hs : pn_virtual (sy_pruning s) = v.
Variable low : list Z.
Hypothesis Hlow : low ∈ dom d.

Lemma locator_data x : x ∈ dom d → dataFor x s = (s, Ret (dataOf gd x)).
Proof using Hok Hs. intros Hx. apply onPruning_read. by apply (data_read root v Hok). Qed.

Abbreviation limited limit l := (if bool_decide (limit = 0) then l else take (Z.to_nat limit) l).

Lemma limited_stop (limit : Z) (acc : list hash) x l : 0 < limit → zlen (acc ++ [x]) = limit → limited limit (acc ++ x :: l) = acc ++ [x].
Proof using Type.
  intros Hl Hz. rewrite bool_decide_eq_false_2 by lia. replace (acc ++ x :: l) with ((acc ++ [x]) ++ l) by (by rewrite <- (assoc_L (++))).
  rewrite take_app_le by (unfold zlen in Hz; lia). apply take_ge. unfold zlen in Hz. lia.
Qed.

Lemma target_eq x step : x ∈ dom d → 0 ≤ step < 2 ^ 64 →
  (if (score x <? step) || (GoInt.uint64 (score x - step) <? score low) then score low else GoInt.uint64 (score x - step)) = Z.max (score x - step) (score low).
Proof using Hok Hlow.
  intros Hx Hstep. pose proof (ck_range _ _ Hok x Hx). pose proof (ck_range _ _ Hok low Hlow). destruct (Z.ltb_spec (score x) step) as [?|?]; simpl; [lia|].
  rewrite GoInt.uint64_id by lia. destruct (Z.ltb_spec (score x - step) (score low)); lia.
Qed.

(** One round that does not stop *)
Lemma locator_round fuel limit x step acc y : x ∈ dom d → score low < score x → 0 ≤ step < 2 ^ 64 →
  LowestChainBlockAboveOrEqualToBlueScore x (Z.max (score x - step) (score low)) dtm = (dtm, Ret y) →
  locatorLoop (Datatypes.S fuel) low (score low) limit x step acc s =
    if (0 <? limit) && (GoInt.uint32 (zlen (acc ++ [x])) =? limit) then (s, Ret (acc ++ [x]))
    else locatorLoop fuel low (score low) limit y (GoInt.uint64 (step * 2)) (acc ++ [x]) s.
Proof using Hok Hs Hlow.
  intros Hx Hlt Hstep Hy. cbn [locatorLoop]. destruct ((0 <? limit) && _); [done|]. rewrite (bind_ret_l _ _ s s _ (locator_data x Hx)). cbv zeta.
  destruct (Z.leb_spec (score x) (score low)) as [?|_]; [lia|]. rewrite (target_eq x step Hx Hstep). rewrite (bind_ret_l _ _ s s y) by (apply topology_read; by rewrite Hs). done.
Qed.

(** The last round, at the low hash *)
Lemma locator_end fuel limit step acc : locatorLoop (Datatypes.S fuel) low (score low) limit low step acc s = (s, Ret (acc ++ [low])).
Proof using Hok Hs Hlow.
  cbn [locatorLoop]. destruct ((0 <? limit) && _); [done|]. rewrite (bind_ret_l _ _ s s _ (locator_data low Hlow)). cbv zeta. rewrite Z.leb_refl.
  destruct (inChain_run root v Hok low low Hlow Hlow) as (r & Hr & Hans). rewrite (bind_ret_l _ _ s s r) by (apply topology_read; by rewrite Hs). destruct r; [done|].
  assert (tree_anc d low low) as E%Hans by apply rtc_refl. done.
Qed.

Lemma locatorLoop_run (m : nat) : ∀ (i : nat) x, x ∈ dom d → tree_anc d low x → (m = O → x = low) → score x - score low < 2 ^ (Z.of_nat (m + i) - 1) → (m + i ≤ 64)%nat →
  ∃ l, located low (Z.of_nat i) x l ∧ (length l ≤ m + 1)%nat ∧
    ∀ limit fuel step acc, (m < fuel)%nat → (step = 2 ^ Z.of_nat i ∨ x = low) → 0 ≤ limit < 2 ^ 32 → limit = 0 ∨ zlen acc < limit →
      locatorLoop fuel low (score low) limit x step acc s = (s, Ret (limited limit (acc ++ l))).
Proof using Hok Hroot Hs Hlow.
  assert (∀ limit fuel step acc, 0 ≤ limit < 2 ^ 32 → limit = 0 ∨ zlen acc < limit → (0 < fuel)%nat → locatorLoop fuel low (score low) limit low step acc s = (s, Ret (limited limit (acc ++ [low])))) as Hend.
  { intros limit [|fuel] step acc Hl Hacc Hf; [lia|]. rewrite locator_end. case_bool_decide; [done|]. rewrite take_ge; [done|]. rewrite length_app. unfold zlen in Hacc. simpl. lia. }
  induction m as [|m IH]; intros i x Hx Ha Hm Hd Hi.
  { rewrite (Hm eq_refl). exists [low]. split; [constructor|]. split; [simpl; lia|]. intros. apply Hend; [done|done|lia]. }
  destruct (decide (x = low)) as [->|Hne]; [exists [low]; split; [constructor|]; split; [simpl; lia|]; intros; apply Hend; [done|done|lia]|].
  pose proof (proj2 (score_anc root v Hok _ _ Ha) ltac:(congruence)) as Hlt. pose proof (ck_range _ _ Hok x Hx) as Hrange. pose proof (ck_range _ _ Hok low Hlow) as Hrange'.
  assert (0 < 2 ^ Z.of_nat i < 2 ^ 64) as Hstep by (split; [apply Z.pow_pos_nonneg; lia|apply Z.pow_lt_mono_r; lia]).
  destruct (lowest_run x (Z.max (score x - 2 ^ Z.of_nat i) (score low)) Hx ltac:(lia)) as (y & Hrun & Hy). pose proof Hy as (Hyx & Hyt & Hyall).
  assert (y ∈ dom d) as Hyd by (by eapply (tree_anc_dom _ _ (ck_tree _ _ Hok))).
  assert (tree_anc d low y) as Hly.
  { destruct (anc_decision d root (ck_tree _ _ Hok) low y Hlow Hyd) as [|Hn]; [done|]. exfalso. apply Hn. clear Hn. revert Ha Hyx Hyt. clear - Hok. intros Ha Hyx Hyt.
    induction Hyx as [x|x q y Hq Hrest IH]; [done|]. destruct (rtc_inv _ _ Ha) as [->|(q' & Hq' & Hrest')].
    - pose proof (proj1 (score_anc root v Hok _ _ Hrest)). pose proof (ck_score _ _ Hok _ _ Hq). lia.
    - rewrite Hq in Hq'. injection Hq' as <-. apply IH; [done|]. pose proof (ck_score _ _ Hok _ _ Hq). lia. }
  assert (m = O → y = low) as Hlast.
  { intros ->. apply (lowest_in_chain x low y Ha). replace (Z.max _ _) with (score low) in Hy; [done|]. replace (Z.of_nat (1 + i) - 1) with (Z.of_nat i) in Hd by lia. lia. }
  destruct (IH (Datatypes.S i) y Hyd Hly Hlast) as (l & Hloc & Hlen & Hloop); [replace (m + Datatypes.S i)%nat with (Datatypes.S m + i)%nat by lia; pose proof (proj1 (score_anc root v Hok _ _ Hyx)); lia|lia|].
  exists (x :: l). split; [econstructor; [done|exact Hy|]; by replace (Z.of_nat i + 1) with (Z.of_nat (Datatypes.S i)) by lia|]. split; [simpl; lia|].
  intros limit [|fuel] step acc Hf Hst Hlim Hacc; [lia|]. destruct Hst as [->|?]; [|done]. rewrite (locator_round fuel limit x (2 ^ Z.of_nat i) acc y Hx Hlt ltac:(lia) Hrun).
  pose proof (zlen_nonneg acc) as Hz. assert (zlen (acc ++ [x]) = zlen acc + 1) as Hzl by (rewrite zlen_app, zlen_cons, zlen_nil; lia).
  destruct ((0 <? limit) && _) eqn:Estop.
  { apply andb_true_iff in Estop as [E1%Z.ltb_lt E2%Z.eqb_eq]. unfold GoInt.uint32 in E2. rewrite GoInt.uwrap_id in E2 by (unfold GoInt.in_uint; lia). by rewrite limited_stop. }
  rewrite Hloop; [by rewrite <- (assoc_L (++))|lia| |done|].
  - destruct (decide (Z.of_nat i = 63)) as [E|E]; [right; apply Hlast; lia|left]. rewrite GoInt.uint64_id; [rewrite Nat2Z.inj_succ, Z.pow_succ_r by lia; lia|].
    assert (2 ^ Z.of_nat i ≤ 2 ^ 62) by (apply Z.pow_le_mono_r; lia). lia.
  - destruct (decide (limit = 0)) as [|Hl0]; [by left|right]. apply andb_false_iff in Estop as [E%Z.ltb_ge|E%Z.eqb_neq]; [lia|].
    unfold GoInt.uint32 in E. rewrite GoInt.uwrap_id in E by (unfold GoInt.in_uint; lia). lia.
Qed.

(** The loop does not end when the chain jumps over the blue score of the low hash. *)
Lemma locatorLoop_diverges high x fuel : ∀ cur step acc, high ∈ dom d → lowest high (score low) x → score low < score x → tree_anc d x cur → tree_anc d cur high → 0 ≤ step < 2 ^ 64 →
  locatorLoop fuel low (score low) 0 cur step acc s = (s, Crash OutOfFuel).
Proof using Hok Hroot Hs Hlow.
  induction fuel as [|fuel IH]; intros cur step acc Hh Hx Hlt Hxc Hch Hstep; [done|]. assert (cur ∈ dom d) as Hcd by (by eapply (tree_anc_dom _ _ (ck_tree _ _ Hok))).
  pose proof (proj1 (score_anc root v Hok _ _ Hxc)) as Hsc. pose proof (ck_range _ _ Hok cur Hcd). pose proof (ck_range _ _ Hok low Hlow).
  destruct (lowest_run cur (Z.max (score cur - step) (score low)) Hcd ltac:(lia)) as (y & Hrun & Hyc & Hyt & _).
  rewrite (locator_round fuel 0 cur step acc y Hcd ltac:(lia) Hstep Hrun). cbn [Z.ltb andb Z.compare]. assert (tree_anc d y high) as Hyh by (eapply tree_anc_trans; [exact Hyc|exact Hch]).
  apply IH; try done; [apply (proj2 (proj2 Hx)); [done|lia]|]. apply GoInt.uwrap_range. lia.
Qed.
End Walk.
End Locator.

(** ** Locators of the headers' selected chain *)
Section ChainLocator.
Context `{Libs} `{MuHash}.
Variable sm : syncManager.
Variable rangeHash : ∀ A, gmap hash A → list (hash * A).
Variable rangeIndex : ∀ A, gmap Z A → list (Z * A).
Hypothesis HrangeHash : enumerates rangeHash.
Hypothesis HrangeIndex : enumerates rangeIndex.
Variable chain : list hash.

(** The block with an index of the chain *)
Definition blockAt (i : Z) : hash := chain !!! Z.to_nat i.

(** From [j] down in steps that double as long as the index is above [i], and then [i] *)
Definition chainLocator (i j : Z) : list hash :=
  map (λ n, blockAt (j - (2 ^ Z.of_nat n - 1))) (seq 0 (Z.to_nat (Z.log2_up (j - i + 1)))) ++ [blockAt i].

Lemma block_at_total i h : block_at chain h i → blockAt i = h.
Proof using Type. intros [_ Hl]. by apply list_lookup_total_correct. Qed.
Lemma block_at_in i : 0 ≤ i < zlen chain → block_at chain (blockAt i) i.
Proof using Type. intros Hi. split; [lia|]. apply list_lookup_lookup_total_lt. unfold zlen in Hi. lia. Qed.

Lemma hash_at_run (s : syncState) i : held (sy_chain s) chain → 0 ≤ i < zlen chain →
  ∃ s', onChain (GetHashByIndex rangeIndex i) s = (s', Ret (blockAt i)) ∧ held (sy_chain s') chain ∧ sy_pruning s' = sy_pruning s.
Proof using HrangeIndex.
  intros Hh Hi. destruct (held_hash rangeIndex HrangeIndex _ chain i Hh) as (c & o & Hrun & Hc & Ho). exists (put_chain c s). unfold onChain. rewrite Hrun.
  destruct Ho as [(h & -> & Hat)|[_ Hno]]; [by rewrite (block_at_total _ _ Hat)|]. by destruct (Hno (blockAt i) (block_at_in i Hi)).
Qed.
Lemma indexOf_run (s : syncState) h : held (sy_chain s) chain →
  ∃ s' o, indexOf rangeHash h s = (s', o) ∧ held (sy_chain s') chain ∧ sy_pruning s' = sy_pruning s ∧
    ((∃ i, o = Ret i ∧ block_at chain h i) ∨ o = Fail ErrBlockNotInSelectedParentChain ∧ h ∉ chain).
Proof using HrangeHash.
  intros Hh. destruct (held_index rangeHash HrangeHash _ chain h Hh) as (c & o & Hrun & Hc & Ho). unfold indexOf, onChain. rewrite Hrun.
  destruct Ho as [(i & -> & Hat)|[-> Hno]]; (eexists _, _; split; [done|]); (split; [done|]; split; [done|]); [left; by exists i|right; split; [done|]]. intros [i Hi]%block_at_elem. by apply (Hno i).
Qed.

Lemma chainLocatorLoop_run i j (m : nat) : 0 ≤ i → j < zlen chain → zlen chain ≤ 2 ^ 64 → j - i + 1 ≤ 2 ^ Z.of_nat m → (∀ n, (n < m)%nat → 2 ^ Z.of_nat n < j - i + 1) →
  ∀ r n (s : syncState) acc fuel, (n + r = m)%nat → (r < fuel)%nat → held (sy_chain s) chain →
  ∃ s', chainLocatorLoop rangeIndex fuel i (j - (2 ^ Z.of_nat n - 1)) (GoInt.uint64 (2 ^ Z.of_nat n)) acc s = (s', Ret (acc ++ map (λ n, blockAt (j - (2 ^ Z.of_nat n - 1))) (seq n r))) ∧
    held (sy_chain s') chain ∧ sy_pruning s' = sy_pruning s.
Proof using HrangeIndex.
  intros Hi Hj Hlen Hm Hbelow r. assert (m ≤ 64)%nat as Hm64.
  { destruct (decide (m ≤ 64)%nat) as [|Hgt]; [done|]. specialize (Hbelow 64%nat ltac:(lia)). change (2 ^ Z.of_nat 64) with (2 ^ 64) in Hbelow. lia. }
  induction r as [|r IH]; intros n s acc fuel Hn Hf Hh; (destruct fuel as [|fuel]; [lia|]); cbn [chainLocatorLoop].
  { replace n with m by lia. destruct (Z.ltb_spec i (j - (2 ^ Z.of_nat m - 1))) as [?|_]; [lia|]. exists s. simpl. by rewrite app_nil_r. }
  pose proof (Hbelow n ltac:(lia)) as Hlt. assert (1 ≤ 2 ^ Z.of_nat n) as Hpos by (apply (Z.pow_le_mono_r 2 0); lia). assert (2 ^ Z.of_nat n ≤ 2 ^ 63) as H63 by (apply Z.pow_le_mono_r; lia).
  destruct (Z.ltb_spec i (j - (2 ^ Z.of_nat n - 1))) as [_|?]; [|lia]. destruct (hash_at_run s (j - (2 ^ Z.of_nat n - 1)) Hh ltac:(lia)) as (s1 & Hrun & Hh1 & Hp1). rewrite (bind_ret_l _ _ _ _ _ Hrun).
  rewrite (GoInt.uint64_id (2 ^ Z.of_nat n)) by lia. assert (2 ^ Z.of_nat (Datatypes.S n) = 2 * 2 ^ Z.of_nat n) as Hdouble by (rewrite Nat2Z.inj_succ, Z.pow_succ_r by lia; done).
  destruct (Z.ltb_spec (j - (2 ^ Z.of_nat n - 1)) (2 ^ Z.of_nat n)) as [Hstop|Hgo].
  - assert (r = 0%nat) as -> by (destruct r as [|r]; [done|]; pose proof (Hbelow (Datatypes.S n) ltac:(lia)); lia). exists s1. done.
  - rewrite (GoInt.uint64_id (_ - _)) by lia. replace (j - (2 ^ Z.of_nat n - 1) - 2 ^ Z.of_nat n) with (j - (2 ^ Z.of_nat (Datatypes.S n) - 1)) by lia.
    replace (2 ^ Z.of_nat n * 2) with (2 ^ Z.of_nat (Datatypes.S n)) by lia.
    destruct (IH (Datatypes.S n) s1 (acc ++ [blockAt (j - (2 ^ Z.of_nat n - 1))]) fuel ltac:(lia) ltac:(lia) Hh1) as (s2 & Hloop & Hh2 & Hp2).
    exists s2. split; [rewrite Hloop; by rewrite <- (assoc_L (++))|]. split; [done|congruence].
Qed.

(** The locator between two blocks of the chain *)
Lemma chainLocator_spec (s : syncState) low high i j : held (sy_chain s) chain → zlen chain ≤ 2 ^ 64 → block_at chain low i → block_at chain high j → i ≤ j →
  ∃ s', createHeadersSelectedChainBlockLocator sm rangeHash rangeIndex low high s = (s', Ret (chainLocator i j)) ∧ held (sy_chain s') chain ∧ sy_pruning s' = sy_pruning s.
Proof using HrangeHash HrangeIndex.
  intros Hh Hlen Hi Hj Hij. pose proof (held_nodup _ _ Hh) as Hnd. pose proof (block_at_bound _ _ _ Hi) as Bi. pose proof (block_at_bound _ _ _ Hj) as Bj.
  unfold createHeadersSelectedChainBlockLocator. destruct (bool_decide _ && bool_decide _) eqn:E.
  { apply andb_true_iff in E as [E1%bool_decide_eq_true E2%bool_decide_eq_true]. subst low high. pose proof (block_at_inj _ _ _ _ Hnd Hi Hj) as ->.
    exists s. unfold chainLocator. replace (j - j + 1) with 1 by lia. simpl. by rewrite (block_at_total _ _ Hi). }
  destruct (indexOf_run s low Hh) as (s1 & o & Hrun1 & Hh1 & Hp1 & [(i' & -> & Hi')|[_ Hno]]); [|destruct Hno; apply block_at_elem; by exists i].
  rewrite (block_at_inj _ _ _ _ Hnd Hi' Hi) in Hrun1. rewrite (bind_ret_l _ _ _ _ _ Hrun1).
  destruct (indexOf_run s1 high Hh1) as (s2 & o & Hrun2 & Hh2 & Hp2 & [(j' & -> & Hj')|[_ Hno]]); [|destruct Hno; apply block_at_elem; by exists j].
  rewrite (block_at_inj _ _ _ _ Hnd Hj' Hj) in Hrun2. rewrite (bind_ret_l _ _ _ _ _ Hrun2). destruct (Z.ltb_spec j i) as [?|_]; [lia|].
  set (m := Z.to_nat (Z.log2_up (j - i + 1))). pose proof (Z.log2_up_nonneg (j - i + 1)).
  assert (j - i + 1 ≤ 2 ^ Z.of_nat m ∧ ∀ n, (n < m)%nat → 2 ^ Z.of_nat n < j - i + 1) as [Hm Hbelow].
  { unfold m. rewrite Z2Nat.id by done. destruct (decide (1 < j - i + 1)) as [Hgt1|Hgt1].
    - destruct (Z.log2_up_spec (j - i + 1) Hgt1) as [L1 L2]. split; [done|]. intros n Hn. eapply Z.le_lt_trans, L1. apply Z.pow_le_mono_r; lia.
    - replace (j - i + 1) with 1 by lia. split; [done|]. intros n Hn. change (Z.to_nat (Z.log2_up 1)) with 0%nat in Hn. lia. }
  assert (m ≤ 64)%nat as Hm64.
  { destruct (decide (m ≤ 64)%nat) as [|Hgt]; [done|]. specialize (Hbelow 64%nat ltac:(lia)). change (2 ^ Z.of_nat 64) with (2 ^ 64) in Hbelow. lia. }
  destruct (chainLocatorLoop_run i j m ltac:(lia) ltac:(lia) Hlen Hm Hbelow m 0 s2 [] 66 ltac:(lia) ltac:(lia) Hh2) as (s3 & Hloop & Hh3 & Hp3).
  change (2 ^ Z.of_nat 0) with 1 in Hloop. change (GoInt.uint64 1) with 1 in Hloop. replace (j - (1 - 1)) with j in Hloop by lia. rewrite (bind_ret_l _ _ _ _ _ Hloop).
  exists s3. split; [|split; [done|congruence]]. unfold chainLocator. by rewrite (block_at_total _ _ Hi).
Qed.

(** The errors *)
Lemma chainLocator_errors (s : syncState) low high : held (sy_chain s) chain → high ≠ sm_genesisBlockHash sm ∨ low ≠ sm_genesisBlockHash sm →
  (low ∉ chain ∨ high ∉ chain → snd (createHeadersSelectedChainBlockLocator sm rangeHash rangeIndex low high s) = Fail ErrBlockNotInSelectedParentChain) ∧
  (∀ i j, block_at chain low i → block_at chain high j → j < i → snd (createHeadersSelectedChainBlockLocator sm rangeHash rangeIndex low high s) = Fail ErrHighBelowLow).
Proof using HrangeHash HrangeIndex.
  intros Hh Hgen. pose proof (held_nodup _ _ Hh) as Hnd. unfold createHeadersSelectedChainBlockLocator. assert (bool_decide (high = sm_genesisBlockHash sm) && bool_decide (low = sm_genesisBlockHash sm) = false) as ->.
  { apply andb_false_iff. destruct Hgen as [?|?]; [left|right]; by apply bool_decide_eq_false_2. }
  destruct (indexOf_run s low Hh) as (s1 & o & Hrun1 & Hh1 & _ & [(i' & -> & Hi')|[-> Hno]]).
  - rewrite (bind_ret_l _ _ _ _ _ Hrun1). destruct (indexOf_run s1 high Hh1) as (s2 & o & Hrun2 & _ & _ & [(j' & -> & Hj')|[-> Hno]]).
    + rewrite (bind_ret_l _ _ _ _ _ Hrun2). split; [intros [Hn|Hn]; destruct Hn; apply block_at_elem; by eexists|]. intros i j Hi Hj Hlt.
      rewrite (block_at_inj _ _ _ _ Hnd Hi' Hi), (block_at_inj _ _ _ _ Hnd Hj' Hj). destruct (Z.ltb_spec j i); [done|lia].
    + rewrite (bind_fail_l _ _ _ _ _ Hrun2). split; [done|]. intros i j _ Hj _. destruct Hno. apply block_at_elem. by exists j.
  - rewrite (bind_fail_l _ _ _ _ _ Hrun1). split; [done|]. intros i j Hi. destruct Hno. apply block_at_elem. by exists i.
Qed.
End ChainLocator.
