(* ===== verification/HeaderTips.v ===== *)
(** * The selected tip of the headers and its chain

    [AddHeaderTip] keeps the greatest header as the tip and stages the change from the chain of the old tip to that of the new one: the store of the headers' selected
    chain always has the chain from the genesis block to the tip. *)
From S2P Require Import Prelude Externalapi UtxoDiff ScriptNum ScriptStack OpcodeTable Script Hashing SigCache Opcode Engine.
From S2P Require Import Interval ReachabilityData Reachability ReachabilityTree ReachabilityAdd DagTopology Block Merkle Ghostdag GhostdagOrder GhostdagColour Heap Window DifficultyManager Traversal HeaderValidation TransactionValidator PastUtxo Coinbase VerifyUtxo ResolveStatus VirtualBlock VirtualParents VirtualSelect Stores ChainStore PruningStore UtxoSync PruningManager PruningSpec SyncManager SyncSpec SyncLocator.
Import Interval Store Reachability TransactionHashing SigCache Opcode BlockHeap Ghostdag DifficultyManager DagTopology Traversal Header HeaderValidation TransactionValidator PastUtxo VerifyUtxo ResolveStatus VirtualBlock HeadersSelectedChain Pruning PruningManager SyncManager.
Local Open Scope Z_scope.
Local Open Scope prog_scope.

Abbreviation hash := (list Z) (only parsing).

(** ** Paths between two blocks *)
Section Path.
Context `{Libs} `{MuHash}.
Variables (root : list Z) (v : virtualState).
Abbreviation dtm := (dtm_of (consensus_of v)).
Abbreviation d := (reachabilityDataStore (dt_reachabilityManager (dtm_of (consensus_of v)))).
Abbreviation gd := (ghostdag_of (consensus_of v)).
Hypothesis Hok : chains_ok root v.

Lemma climbs_join l1 l2 a b c : climbs d a l1 b → climbs d b l2 c → climbs d a (l1 ++ l2) c.
Proof using Type. revert a. induction l1 as [|x l1 IH]; intros a; simpl; [by intros ->|]. intros [Hp Hc] H2. split; [done|]. by apply IH. Qed.

Lemma climbs_above l a b : climbs d a l b → NoDup l ∧ a ∉ l.
Proof using Hok.
  revert a. induction l as [|x l IH]; intros a; [split; [constructor|by intros ?%elem_of_nil]|]. intros [Hp Hc]. destruct (IH x Hc) as [Hnd Hx]. split; [by constructor|].
  pose proof (ck_score _ _ Hok _ _ Hp) as Hlt. intros Ha. assert (tree_anc d x a) as Hxa by (apply elem_of_cons in Ha as [->|Ha]; [apply rtc_refl|by apply (climbs_between _ _ _ _ _ Hc)]).
  pose proof (proj1 (score_anc root v Hok _ _ Hxa)). lia.
Qed.

Lemma climbs_unique l1 : ∀ l2 a b, climbs d a l1 b → climbs d a l2 b → l1 = l2.
Proof using Hok.
  induction l1 as [|x l1 IH] using rev_ind; intros l2 a b H1 H2.
  - simpl in H1. subst b. destruct l2 as [|y l2]; [done|]. destruct H2 as [Hp Hc]. pose proof (ck_score _ _ Hok _ _ Hp). pose proof (proj1 (score_anc root v Hok _ _ (climbs_anc _ _ _ _ Hc))). lia.
  - destruct (climbs_app _ _ _ _ _ H1) as (m & H1' & [Hp Hx] & _). simpl in Hx. subst x. destruct l2 as [|y l2 _] using rev_ind.
    + simpl in H2. subst b. pose proof (ck_score _ _ Hok _ _ Hp). pose proof (proj1 (score_anc root v Hok _ _ (climbs_anc _ _ _ _ H1'))). lia.
    + destruct (climbs_app _ _ _ _ _ H2) as (m' & H2' & [Hp' Hy] & _). simpl in Hy. subst y. rewrite Hp in Hp'. injection Hp' as <-. by rewrite (IH l2 a m H1' H2').
Qed.

Lemma parent_read x p : x ∈ dom d → parent_of d x = Some p → ∀ (A : Type) (m : hash → prog dagTopologyManager reachabilityError A),
  (let* data := dataAt x in let* parent := reachability (Store.deref (selectedParent data)) in m parent) dtm = m p dtm.
Proof using Hok.
  intros Hx Hp A m. rewrite (bind_ret_l _ _ _ _ _ (dataAt_run root v Hok x Hx)), (ck_selected _ _ Hok _ _ Hp). by rewrite (bind_ret_l _ _ dtm dtm p) by (by destruct dtm).
Qed.

Lemma removedLoop_run target : target ∈ dom d → ∀ l x fuel acc, climbs d root l x → (length l < fuel)%nat → x ∈ dom d →
  ∃ c removed, removedLoop fuel target x acc dtm = (dtm, Ret (c, acc ++ rev removed)) ∧ climbs d c removed x ∧ tree_anc d c target.
Proof using Hok.
  intros Ht l. induction l as [|y l IH] using rev_ind; intros x fuel acc Hc Hf Hx; (destruct fuel as [|fuel]; [rewrite ?length_app in Hf; simpl in Hf; lia|]); cbn [removedLoop];
    destruct (inChain_run root v Hok x target Hx Ht) as (r & Hr & Hans); rewrite (bind_ret_l _ _ _ _ _ Hr).
  - simpl in Hc. subst x. destruct r; [exists root, []; rewrite app_nil_r; split; [done|]; split; [done|by apply Hans]|]. pose proof (root_anc _ _ (ck_tree _ _ Hok) target Ht) as E%Hans. done.
  - destruct r; [exists x, []; rewrite app_nil_r; split; [done|]; split; [done|by apply Hans]|]. destruct (climbs_app _ _ _ _ _ Hc) as (p & Hc' & [Hp Hy] & _). simpl in Hy. subst y.
    rewrite (parent_read x p Hx Hp). assert (p ∈ dom d) as Hpd by (by eapply (tree_anc_dom _ _ (ck_tree _ _ Hok)), Hx; apply rtc_once).
    destruct (IH p fuel (acc ++ [x]) Hc') as (c & removed & Hrun & Hcl & Hct); [rewrite length_app in Hf; simpl in Hf; lia|done|]. exists c, (removed ++ [x]).
    split; [rewrite Hrun, rev_app_distr; simpl; by rewrite <- (assoc_L (++))|]. split; [|done]. by eapply climbs_snoc.
Qed.

Lemma addedLoop_run c l : ∀ x fuel acc, climbs d c l x → (length l < fuel)%nat → x ∈ dom d → addedLoop fuel c x acc dtm = (dtm, Ret (acc ++ rev l)).
Proof using Hok.
  induction l as [|y l IH] using rev_ind; intros x fuel acc Hc Hf Hx; (destruct fuel as [|fuel]; [rewrite ?length_app in Hf; simpl in Hf; lia|]); cbn [addedLoop].
  - simpl in Hc. subst x. rewrite bool_decide_eq_true_2 by done. by rewrite app_nil_r.
  - destruct (climbs_app _ _ _ _ _ Hc) as (p & Hc' & [Hp Hy] & _). simpl in Hy. subst y. rewrite bool_decide_eq_false_2.
    2:{ intros <-. pose proof (ck_score _ _ Hok _ _ Hp). pose proof (proj1 (score_anc root v Hok _ _ (climbs_anc _ _ _ _ Hc'))). lia. }
    rewrite (parent_read x p Hx Hp). assert (p ∈ dom d) as Hpd by (by eapply (tree_anc_dom _ _ (ck_tree _ _ Hok)), Hx; apply rtc_once).
    rewrite (IH p fuel (acc ++ [x]) Hc'); [|rewrite length_app in Hf; simpl in Hf; lia|done]. rewrite rev_app_distr. simpl. by rewrite <- (assoc_L (++)).
Qed.

(** From the chain of [x] to that of [y]: down to a common block and up again *)
Lemma CalculateChainPath_run x y : x ∈ dom d → y ∈ dom d →
  ∃ c old new, CalculateChainPath x y dtm = (dtm, Ret {| scp_Added := new; scp_Removed := rev old |}) ∧ climbs d c old x ∧ climbs d c new y.
Proof using Hok.
  intros Hx Hy. unfold CalculateChainPath. rewrite (bind_ret_l _ _ dtm dtm (Datatypes.S (size gd))) by done.
  assert (size d ≤ size gd)%nat by (rewrite <- !size_dom; apply subseteq_size; intros z; apply (ck_data _ _ Hok)).
  destruct (climbs_exists d root x (root_anc _ _ (ck_tree _ _ Hok) x Hx)) as [l Hl]. pose proof (climbs_length root v Hok l root x Hl).
  destruct (removedLoop_run y Hy l x (Datatypes.S (size gd)) [] Hl ltac:(lia) Hx) as (c & old & Hrun & Hold & Hcy). rewrite (bind_ret_l _ _ _ _ _ Hrun).
  destruct (climbs_exists d c y Hcy) as [new Hnew]. pose proof (climbs_length root v Hok new c y Hnew). cbn [fst snd].
  rewrite (bind_ret_l _ _ _ _ _ (addedLoop_run c new y (Datatypes.S (size gd)) [] Hnew ltac:(lia) Hy)). exists c, old, new. simpl. by rewrite rev_involutive.
Qed.
End Path.

(** ** The tip and the store of its chain *)
Section Tips.
Context `{Libs} `{MuHash}.
Variable rangeHash : ∀ A, gmap hash A → list (hash * A).
Variable rangeIndex : ∀ A, gmap Z A → list (Z * A).
Hypothesis HrangeHash : enumerates rangeHash.
Hypothesis HrangeIndex : enumerates rangeIndex.
Variables (dag_parents : list Z → list (list Z)) (k : Z) (root : list Z) (v : virtualState).
Abbreviation dtm := (dtm_of (consensus_of v)).
Abbreviation d := (reachabilityDataStore (dt_reachabilityManager (dtm_of (consensus_of v)))).
Abbreviation gd := (ghostdag_of (consensus_of v)).
Hypothesis Hok : sync_ok dag_parents k root v.
Hypothesis H32 : ∀ x, x ∈ dom d → zlen x = 32.

(** The committed chain goes from the genesis block to the tip. *)
Record tip_ok (s : syncState) (tip : hash) (l : list hash) : Prop := {
  tk_virtual : pn_virtual (sy_pruning s) = v;
  tk_tip : pn_headersSelectedTip (sy_pruning s) = Some tip;
  tk_known : tip ∈ dom d;
  tk_chain : climbs d root l tip;
  tk_store : ok (sy_chain s) (root :: l) [] 0 []
}.

(** A header in a staging area of its own *)
Definition commitHeader : prog syncState syncError unit := onChain (chain_Commit rangeHash rangeIndex ;;* modify chain_NewArea).
Definition insertHeader (h : hash) : prog syncState syncError unit := AddHeaderTip rangeHash h ;;* commitHeader.
Fixpoint insertHeaders (hs : list hash) : prog syncState syncError unit :=
  match hs with
  | [] => ret ()
  | h :: hs => insertHeader h ;;* insertHeaders hs
  end.

Lemma order_eq a b : a ∈ dom d → b ∈ dom d → sorted_by (block_data v) a b ↔ sorted_by gd a b.
Proof using Hok. intros Ha Hb. rewrite !sorted_by_spec. unfold workOf. by rewrite !(block_dataOf dag_parents k root v Hok) by done. Qed.

Lemma fresh_commit s chain : ok (sy_chain s) chain [] 0 [] → ∃ c, commitHeader s = (put_chain c s, Ret ()) ∧ ok c chain [] 0 [].
Proof using HrangeHash HrangeIndex.
  intros Hs. exists (chain_NewArea (sy_chain s)). split.
  - unfold commitHeader, onChain, chain_Commit. rewrite bind_assoc, (bind_ret_l _ _ (sy_chain s) (sy_chain s) (sy_chain s)) by done. by rewrite (fresh_unstaged _ _ Hs).
  - destruct Hs as [O1 O2 O3 O4 _ _ _ _]. split; simpl; try done.
    + intros h. rewrite lookup_empty, elem_of_nil. split; [by intros []|done].
    + intros i. rewrite lookup_empty. split; [by intros []|by intros (? & ?%elem_of_nil & _)].
    + intros h i. unfold block_at. rewrite lookup_empty, lookup_nil. split; [done|by intros [_ ?]].
    + intros i h. unfold block_at. rewrite lookup_empty, lookup_nil. split; [done|by intros [_ ?]].
Qed.

Lemma staged_commit (s : syncState) kept old removed new : ok (sy_chain s) (kept ++ old) removed (zlen kept) new → old ≡ₚ removed → NoDup (kept ++ new) → new ≠ [] →
  Forall (λ h, zlen h = 32) new → zlen kept + zlen new < 2 ^ 64 → ∃ c, commitHeader s = (put_chain c s, Ret ()) ∧ ok c (kept ++ new) [] 0 [].
Proof using HrangeHash HrangeIndex.
  intros Hs Hperm Hnd Hne Hlen Hsize. destruct (chain_Commit_spec rangeHash rangeIndex HrangeHash HrangeIndex _ kept old removed new Hs Hperm Hnd Hne Hlen Hsize) as (c & Hrun & Hc).
  exists (chain_NewArea c). split; [|done]. unfold commitHeader, onChain. by rewrite (bind_ret_l _ _ _ _ _ Hrun).
Qed.

Lemma chain_size l x : climbs d root l x → zlen l < 2 ^ 63.
Proof using Hok. intros Hl. pose proof (climbs_length root v (sk_chains _ _ _ _ Hok) l root x Hl). pose proof (sk_size _ _ _ _ Hok). unfold zlen. lia. Qed.
Lemma chain_32 l a x : climbs d a l x → Forall (λ h, zlen h = 32) l.
Proof using H32.
  revert a. induction l as [|y l IH]; intros a; [constructor|]. intros [Hp Hc]. constructor; [|by eapply IH]. apply H32. by eapply parent_dom.
Qed.

(** The chain of the tip with its end replaced *)
Lemma replaced s tip l c old new x : tip_ok s tip l → climbs d c old tip → climbs d c new x →
  ∃ l1, l = l1 ++ old ∧ climbs d root (l1 ++ new) x ∧ NoDup ((root :: l1) ++ new).
Proof using Hok.
  intros Hs Hold Hnew. pose proof (sk_chains _ _ _ _ Hok) as Hch. assert (c ∈ dom d) as Hcd by (apply (tree_anc_dom _ _ (ck_tree _ _ Hch) c tip); [exact (climbs_anc _ _ _ _ Hold)|apply (tk_known _ _ _ Hs)]).
  destruct (climbs_exists d root c (root_anc _ _ (ck_tree _ _ Hch) c Hcd)) as [l1 Hl1]. exists l1. split; [|split].
  - apply (climbs_unique root v Hch _ _ root tip); [apply (tk_chain _ _ _ Hs)|]. by eapply climbs_join.
  - by eapply climbs_join.
  - destruct (climbs_above root v Hch (l1 ++ new) root x) as [Hnd Hr]; [by eapply climbs_join|]. by constructor.
Qed.

Lemma AddHeaderTip_spec s tip l h : tip_ok s tip l → h ∈ dom d →
  ∃ s1 tip', AddHeaderTip rangeHash h s = (s1, Ret ()) ∧ tip' ∈ [tip; h] ∧ sorted_by gd tip tip' ∧ sorted_by gd h tip' ∧
    (∃ l', climbs d root l' tip' ∧ held (sy_chain s1) (root :: l') ∧ ∃ s2, commitHeader s1 = (s2, Ret ()) ∧ tip_ok s2 tip' l').
Proof using Hok H32 HrangeHash HrangeIndex.
  intros Hs Hh. pose proof (sk_chains _ _ _ _ Hok) as Hch. pose proof Hs as [Hv Ht Htd Hl Hc].
  unfold AddHeaderTip. rewrite (bind_ret_l _ _ s s s) by done. rewrite Ht. rewrite (bind_ret_l _ _ s s tip) by (unfold headersSelectedTip; rewrite (bind_ret_l _ _ s s s) by done; by rewrite Ht).
  destruct (chooseLoop_spec gd [tip; h] tip) as (best & Hbest & Hin & Hmax); [intros x Hx; apply (ck_data _ _ Hch); set_solver|].
  assert (ChooseSelectedParent gd [tip; h] = Ret best) as Hchoose by (unfold ChooseSelectedParent; by rewrite (Get_known gd tip (ck_data _ _ Hch tip Htd))).
  rewrite (bind_ret_l _ _ s s best) by (apply onPruning_read, onVirtual_read, onData_read; by rewrite Hv).
  assert (best ∈ [tip; h]) as Hin' by set_solver. assert (best ∈ dom d) as Hbd by set_solver. case_bool_decide as E.
  { subst best. exists s, tip. split; [done|]. split; [done|]. split; [reflexivity|]. split; [apply Hmax; set_solver|]. exists l. split; [done|]. split; [by apply ok_held|].
    destruct (fresh_commit s _ Hc) as (c & Hrun & Hc'). exists (put_chain c s). split; [done|]. by split. }
  destruct (CalculateChainPath_run root v Hch tip best Htd Hbd) as (c & old & new & Hpath & Hold & Hnew). destruct (replaced s tip l c old new best Hs Hold Hnew) as (l1 & -> & Hl' & Hnd).
  assert (new ≠ []) as Hne.
  { intros ->. simpl in Hnew. subst c. assert (sorted_by gd best tip) as Hbt; [|by apply E, (anti_symm (sorted_by gd)); [exact Hbt|apply Hmax; set_solver]].
    apply order_eq; [done..|]. apply (anc_sorted _ _ _ _ (sk_ghostdag _ _ _ _ Hok)); [by apply (block_dom dag_parents k root v Hok)|]. apply (tree_anc_dag dag_parents k root v Hok). by eapply climbs_anc. }
  set (s0 := put_pruning {| pn_virtual := pn_virtual (sy_pruning s); pn_store := pn_store (sy_pruning s); pn_headersSelectedTip := Some best |} s). rewrite (bind_ret_l _ _ s s0 ()) by done.
  rewrite (bind_ret_l _ _ s0 s0 {| scp_Added := new; scp_Removed := rev old |}) by (apply topology_read; simpl; by rewrite Hv).
  change (root :: l1 ++ old) with ((root :: l1) ++ old) in Hc. pose proof (chain_size _ _ Hl) as B1. pose proof (chain_size _ _ Hl') as B2. rewrite zlen_app in B1, B2.
  pose proof (zlen_nonneg l1). pose proof (zlen_nonneg old). pose proof (zlen_nonneg new).
  assert (old ≡ₚ rev old) as Hperm by apply Permutation_rev.
  destruct (chain_Stage_spec rangeHash HrangeHash (sy_chain s) (root :: l1) old (rev old) new Hc Hperm) as (c1 & Hrun & Hc1); [by apply NoDup_app in Hnd as (_ & _ & ?)|rewrite zlen_cons; lia|].
  exists (put_chain c1 s0), best. split; [unfold onChain; change (sy_chain s0) with (sy_chain s); by rewrite Hrun|]. split; [done|]. split; [apply Hmax; set_solver|]. split; [apply Hmax; set_solver|].
  exists (l1 ++ new). split; [done|]. split; [by exists (root :: l1), old, (rev old), new|].
  destruct (staged_commit (put_chain c1 s0) (root :: l1) old (rev old) new Hc1 Hperm Hnd Hne) as (c2 & Hrun2 & Hc2); [by eapply chain_32|rewrite zlen_cons; lia|].
  eexists. split; [exact Hrun2|]. by split.
Qed.

(** The first header *)
Lemma first_header s : pn_virtual (sy_pruning s) = v → pn_headersSelectedTip (sy_pruning s) = None → ok (sy_chain s) [] [] 0 [] → root ∈ dom d →
  ∃ s', insertHeader root s = (s', Ret ()) ∧ tip_ok s' root [].
Proof using H32 HrangeHash HrangeIndex.
  intros Hv Ht Hc Hr. unfold insertHeader, AddHeaderTip. rewrite bind_assoc, (bind_ret_l _ _ s s s) by done. rewrite Ht.
  set (s0 := put_pruning {| pn_virtual := pn_virtual (sy_pruning s); pn_store := pn_store (sy_pruning s); pn_headersSelectedTip := Some root |} s). rewrite bind_assoc, (bind_ret_l _ _ s s0 ()) by done.
  destruct (chain_Stage_spec rangeHash HrangeHash (sy_chain s) [] [] [] [root] Hc) as (c1 & Hrun & Hc1); [done|apply NoDup_singleton|by vm_compute|].
  rewrite (bind_ret_l _ _ s0 (put_chain c1 s0) ()) by (unfold onChain; change (sy_chain s0) with (sy_chain s); by rewrite Hrun).
  destruct (staged_commit (put_chain c1 s0) [] [] [] [root] Hc1) as (c2 & Hrun2 & Hc2); [done|apply NoDup_singleton|done|constructor; [by apply H32|constructor]|by vm_compute|].
  eexists. split; [exact Hrun2|]. by split.
Qed.

Lemma insertHeaders_spec hs : ∀ s tip l, tip_ok s tip l → (∀ h, h ∈ hs → h ∈ dom d) →
  ∃ s' tip' l', insertHeaders hs s = (s', Ret ()) ∧ tip_ok s' tip' l' ∧ tip' ∈ tip :: hs ∧ ∀ h, h ∈ tip :: hs → sorted_by gd h tip'.
Proof using Hok H32 HrangeHash HrangeIndex.
  induction hs as [|h hs IH]; intros s tip l Hs Hin; cbn [insertHeaders].
  { exists s, tip, l. split; [done|]. split; [done|]. split; [by left|]. intros h ->%list_elem_of_singleton. reflexivity. }
  destruct (AddHeaderTip_spec s tip l h Hs (Hin h ltac:(by left))) as (s1 & tip1 & Hrun1 & Hin1 & Ho1 & Ho2 & l1 & _ & _ & s2 & Hrun2 & Hs2).
  destruct (IH s2 tip1 l1 Hs2 ltac:(intros; apply Hin; by right)) as (s3 & tip' & l' & Hrun3 & Hs3 & Hin3 & Ho3). exists s3, tip', l'.
  split; [unfold insertHeader; rewrite bind_assoc, (bind_ret_l _ _ _ _ _ Hrun1), (bind_ret_l _ _ _ _ _ Hrun2); exact Hrun3|]. split; [done|]. split; [set_solver|].
  intros h' [->|[->|Hh']%elem_of_cons]%elem_of_cons; [etrans; [exact Ho1|apply Ho3; by left]|etrans; [exact Ho2|apply Ho3; by left]|apply Ho3; by right].
Qed.
End Tips.
