(* ===== verification/SyncProps.v ===== *)
(** * Properties of the sync manager and of the headers' selected tip *)
From stdpp Require Import sorting.
From S2P Require Import Prelude Externalapi UtxoDiff ScriptNum ScriptStack OpcodeTable Script Hashing SigCache Opcode Engine OpcodeSafety.
From S2P Require Import Interval ReachabilityData Reachability ReachabilityTree ReachabilityAdd DagTopology Block Merkle Ghostdag GhostdagOrder GhostdagColour Heap Window DifficultyManager Traversal HeaderValidation HeaderSafety TransactionValidator PastUtxo PastUtxoSpec Coinbase VerifyUtxo ResolveStatus VirtualBlock VirtualParents VirtualSelect.
From S2P Require Import Stores ChainStore PruningStore UtxoSync ConsensusStores StoreProps PruningManager PruningSpec PruningProps SyncManager SyncSpec SyncLocator HeaderTips Reindex ReindexTree ReindexPropagate ReindexAdd.
Import Interval Store Reachability TransactionHashing SigCache Opcode BlockHeap Ghostdag DifficultyManager DagTopology Traversal Header HeaderValidation TransactionValidator PastUtxo VerifyUtxo ResolveStatus VirtualBlock Cell BinarySerialization HeadersSelectedChain Pruning PruningManager SyncManager ChainProps Reindex.
Local Open Scope Z_scope.
Local Open Scope prog_scope.

Abbreviation hash := (list Z) (only parsing).

(** ** A DAG for the witnesses

    Five headers, inserted one after the other: two blocks on the genesis block, a block on the first of them, and a block that merges both. *)

(** ** A state of the headers without a virtual block *)
Section World.
Context `{Libs} `{MuHash}.
Variables (dag_parents : list Z → list (list Z)) (k : Z) (root : list Z).

Lemma dag_sync cs headers v : consensus_of v = cs → dag_ok dag_parents k root (dtm_of cs) headers → chains_ok root v → (∀ x, x ∈ dom (reachabilityDataStore (rt_of cs)) → NoDup (dag_parents x)) →
  Z.of_nat (size (reachabilityDataStore (rt_of cs))) < 2 ^ 63 → sync_ok dag_parents k root v.
Proof using Type.
  intros <- Hok Hch Hnd Hsize. split; [split|done| |done].
  - apply (ok_reach _ _ _ _ _ Hok).
  - apply (ok_parents _ _ _ _ _ Hok).
  - done.
  - intros x Hx (p & Hp & Ha). change (rt_of (consensus_of v)) with (dt_reachabilityManager (dtm_of (consensus_of v))) in *. rewrite <- (ok_dom_ghostdag _ _ _ _ _ Hok) in Hx.
    pose proof (parent_work _ _ _ _ (ok_ghostdag _ _ _ _ _ Hok) x p Hx Hp) as H1.
    destruct (anc_work _ _ _ _ (ok_ghostdag _ _ _ _ _ Hok) p x (gd_closed _ _ _ _ (ok_ghostdag _ _ _ _ _ Hok) x p Hx Hp) Ha) as [->|H2]; lia.
  - assert (block_data v = ghostdag_of (consensus_of v)) as ->; [|apply (ok_ghostdag _ _ _ _ _ Hok)]. apply map_filter_id. intros x g Hg. simpl.
    rewrite <- (ok_dom_ghostdag _ _ _ _ _ Hok). apply elem_of_dom. by exists g.
Qed.
End World.

Module SyncSample.
(** The last 32 bytes of what is hashed *)
Definition tail_digest (b : list Z) : list Z := take 32 (rev b ++ replicate 32 0).
Definition tail_hashes : Hashes := {| sha256_Sum256 := tail_digest; blake2b_Sum256 := tail_digest; blake2b_New256 _ := tail_digest |}.

Definition G : hash := replicate 32 1.
Definition header_on (parents : list hash) (time : Z) : BlockHeader :=
  {| hd_version := 0; hd_parentHashes := parents; hd_hashMerkleRoot := []; hd_acceptedIDMerkleRoot := []; hd_utxoCommitment := [];
     hd_timeInMilliseconds := time; hd_bits := 0x207fffff; hd_nonce := 7 |}.
Definition hash_of (h : BlockHeader) : hash := @HeaderHash tail_hashes h.
Definition headerA : BlockHeader := header_on [G] 5.
Definition A : hash := Eval vm_compute in hash_of headerA.
Definition headerB : BlockHeader := header_on [G] 6.
Definition B : hash := Eval vm_compute in hash_of headerB.
Definition headerD : BlockHeader := header_on [A] 7.
Definition D : hash := Eval vm_compute in hash_of headerD.
Definition headerC : BlockHeader := header_on [A; B] 8.
Definition C : hash := Eval vm_compute in hash_of headerC.
Definition fork (x : hash) : list hash :=
  if decide (x = A) then [G] else if decide (x = B) then [G] else if decide (x = D) then [A] else if decide (x = C) then [A; B] else [].

Definition start_rt : reachabilityManager :=
  fst (@AddBlock IntervalProps.toy_conversion G
    {| reachabilityDataStore := ∅; reachabilityReindexRoot := None; ghostdagDataStore := {[ G := emptyData ]};
       reindexSlack := defaultReindexSlack; reindexWindow := defaultReindexWindow |}).
Definition start_dtm : dagTopologyManager :=
  {| dt_reachabilityManager := start_rt; dt_blockRelationStore := {[ G := {| br_Parents := []; br_Children := [] |} ]} |}.
Definition start : consensus :=
  {| cs_finality := {| fm_topology := start_dtm; fm_finalityStore := ∅; fm_genesisHash := G; fm_finalityDepth := 86400 |};
     cs_headers := {[ G := header_on [] 0 ]};
     cs_daa := {| daa_scores := {[ G := 0 ]}; daa_addedBlocks := ∅ |}; cs_statuses := ∅; cs_pruningPoint := Some G |}.
Definition validator : blockValidator :=
  {| bv_powMax := 2 ^ 255 - 1; bv_skipPoW := true; bv_genesisHash := G; bv_mergeSetSizeLimit := 180; bv_maxBlockParents := 10;
     bv_timestampDeviationTolerance := 132; bv_targetTimePerBlock := 1000; bv_k := 18;
     bv_difficultyManager := {| dm_genesisHash := G; dm_powMax := 2 ^ 255 - 1; dm_difficultyAdjustmentWindowSize := 2641;
                                dm_disableDifficultyAdjustment := true; dm_targetTimePerBlock := 1000 |};
     bv_pastMedianTimeManager := Build_pastMedianTimeManager 132 G |}.
Definition insert (h : BlockHeader) (cs : consensus) : consensus * outcome headerError unit := @validateHeader tail_hashes IntervalProps.toy_conversion validator 1000 h cs.
Definition with_A : consensus := fst (insert headerA start).
Definition with_B : consensus := fst (insert headerB with_A).
Definition with_D : consensus := fst (insert headerD with_B).
Definition world : consensus := fst (insert headerC with_D).

(** The state describes the DAG with the given blocks. *)
Definition describes (cs : consensus) (blocks : gset hash) : Prop :=
  dag_ok fork 18 G (dtm_of cs) (cs_headers cs) ∧ dom (reachabilityDataStore (rt_of cs)) = blocks.

Lemma start_ok : describes start {[G]}.
Proof.
  destruct (@AddBlock_genesis IntervalProps.toy_conversion fork
    {| reachabilityDataStore := ∅; reachabilityReindexRoot := None; ghostdagDataStore := {[ G := emptyData ]};
       reindexSlack := defaultReindexSlack; reindexWindow := defaultReindexWindow |} G emptyData) as (rt' & Hrun & Hreach & Hdom & HG & Hrr); try done.
  assert (start_rt = rt') as E by (unfold start_rt; by rewrite Hrun). assert (dt_reachabilityManager start_dtm = rt') as Ed by exact E. unfold describes.
  change (rt_of start) with (dt_reachabilityManager start_dtm). change (dtm_of start) with start_dtm. rewrite Ed. split; [|done].
  assert (∀ x, x ∈ ({[ G ]} : gset (list Z)) → x = G) as HG' by (intros x; by rewrite elem_of_singleton).
  split; rewrite ?Ed, ?HG, ?Hdom; cbn [ghostdagDataStore].
  - done.
  - by apply genesis_ok.
  - intros x rx Hx. simpl in Hx. apply lookup_singleton_Some in Hx as [<- <-]. simpl. split_and!; [apply NoDup_nil_2|by intros ? ?%elem_of_nil..].
  - by intros x ->%HG'.
  - by rewrite dom_singleton_L.
  - simpl. by rewrite dom_singleton_L.
  - intros x Hx. rewrite dom_singleton_L in Hx. apply HG' in Hx as ->. exists (header_on [] 0). split; vm_compute; reflexivity.
Qed.

(** One more header; the conditions are computed. *)
Lemma insert_ok cs blocks h : describes cs blocks → snd (insert h cs) = Ret () → cs_statuses cs !! hash_of h = None → hash_of h ∉ blocks → hd_parentHashes h = fork (hash_of h) → NoDup (fork (hash_of h)) →
  reachabilityReindexRoot (rt_of cs) = Some G → (∀ p, p ∈ fork (hash_of h) → has_room (reachabilityDataStore (rt_of cs)) p G) → describes (fst (insert h cs)) ({[hash_of h]} ∪ blocks).
Proof.
  intros [Hok Hdom] Hret Hst Hnew Hpar Hnd Hrr Hroom.
  destruct (@validateHeader_spec tail_hashes IntervalProps.toy_conversion IntervalProps.toy_conversion_ok fork validator 1000 h cs (fst (insert h cs)) G (Ret ())) as (Hok' & Hdom' & _); try done.
  - by rewrite Hdom.
  - rewrite <- Hret. unfold insert. apply surjective_pairing.
  - split; [exact Hok'|]. by rewrite Hdom', Hdom.
Qed.

Local Ltac insert_header Hprev :=
  apply insert_ok;
  [exact Hprev
  |vm_compute; reflexivity
  |vm_compute; reflexivity
  |apply (bool_decide_unpack _); vm_compute; exact I
  |vm_compute; reflexivity
  |apply (bool_decide_unpack _); vm_compute; exact I
  |vm_compute; reflexivity
  |let p := fresh "p" in let Hp := fresh "Hp" in
   intros p Hp; left; vm_compute in Hp; repeat (apply elem_of_cons in Hp as [->|Hp]; [vm_compute; reflexivity|]); by apply elem_of_nil in Hp].

Lemma with_A_ok : describes with_A ({[A]} ∪ {[G]}).
Proof. change A with (hash_of headerA). insert_header start_ok. Qed.
Lemma with_B_ok : describes with_B ({[B]} ∪ ({[A]} ∪ {[G]})).
Proof. change B with (hash_of headerB). insert_header with_A_ok. Qed.
Lemma with_D_ok : describes with_D ({[D]} ∪ ({[B]} ∪ ({[A]} ∪ {[G]}))).
Proof. change D with (hash_of headerD). insert_header with_B_ok. Qed.
Lemma world_ok : describes world ({[C]} ∪ ({[D]} ∪ ({[B]} ∪ ({[A]} ∪ {[G]})))).
Proof. change C with (hash_of headerC). insert_header with_D_ok. Qed.

(** ** The stores *)
Definition sample_body : DomainBlock := PastUtxoProps.block_with PastUtxoProps.sample_coinbase.
Definition state_over (cs : consensus) : virtualState :=
  {| vs_resolve := {| rs_stores := {| us_consensus := cs; us_blocks := {[ G := sample_body; A := sample_body ]}; us_virtualUTXO := ∅;
                                      us_utxoDiffs := ∅; us_utxoDiffChildren := ∅; us_multisets := ∅ |};
                      rs_statuses := {[ G := StatusUTXOValid; A := StatusUTXOValid; B := StatusHeaderOnly; C := StatusHeaderOnly; D := StatusHeaderOnly ]};
                      rs_acceptanceData := ∅; rs_caches := {| vc_sigCache := None; vc_sigCacheECDSA := None |} |};
     vs_tips := [A] |}.
Definition fork_state : virtualState := state_over world.
Abbreviation tree := (reachabilityDataStore (dt_reachabilityManager (dtm_of (consensus_of fork_state)))).

Lemma fork_nodes x : x ∈ dom tree ↔ x = C ∨ x = D ∨ x = B ∨ x = A ∨ x = G.
Proof. change tree with (reachabilityDataStore (rt_of world)). rewrite (proj2 world_ok). by rewrite !elem_of_union, !elem_of_singleton. Qed.

Lemma fork_parent x p : parent_of tree x = Some p → x = C ∧ p = B ∨ x = D ∧ p = A ∨ x = B ∧ p = G ∨ x = A ∧ p = G.
Proof.
  intros Hp. assert (x ∈ dom tree) as Hx by (by eapply parent_dom).
  assert (parent_of tree C = Some B ∧ parent_of tree D = Some A ∧ parent_of tree B = Some G ∧ parent_of tree A = Some G ∧ parent_of tree G = None) as (HC & HD & HB & HA & HG) by (split_and!; vm_compute; reflexivity).
  apply fork_nodes in Hx as [->|[->|[->|[->| ->]]]].
  - rewrite HC in Hp. injection Hp as <-. left. split; reflexivity.
  - rewrite HD in Hp. injection Hp as <-. right. left. split; reflexivity.
  - rewrite HB in Hp. injection Hp as <-. right. right. left. split; reflexivity.
  - rewrite HA in Hp. injection Hp as <-. right. right. right. split; reflexivity.
  - rewrite HG in Hp. discriminate Hp.
Qed.

Lemma fork_chains : chains_ok G fork_state.
Proof.
  split.
  - apply (reach_tree _ _ _ (ok_reach _ _ _ _ _ (proj1 world_ok))).
  - intros x Hx. apply (elem_of_dom_2 (D := gset hash)) with (dataOf (ghostdag_of (consensus_of fork_state)) x). apply fork_nodes in Hx as [->|[->|[->|[->| ->]]]]; vm_compute; reflexivity.
  - intros x p [[-> ->]|[[-> ->]|[[-> ->]|[-> ->]]]]%fork_parent; vm_compute; reflexivity.
  - intros x p [[-> ->]|[[-> ->]|[[-> ->]|[-> ->]]]]%fork_parent; vm_compute; reflexivity.
  - intros x [->|[->|[->|[->| ->]]]]%fork_nodes; vm_compute; split; congruence.
Qed.

Lemma fork_sync : sync_ok fork 18 G fork_state.
Proof.
  apply (dag_sync fork 18 G world (cs_headers world)); [done|apply (proj1 world_ok)|exact fork_chains| |].
  - intros x _. unfold fork. repeat case_decide; apply (bool_decide_unpack _); vm_compute; exact I.
  - rewrite <- size_dom, (proj2 world_ok). assert (size (({[C]} ∪ ({[D]} ∪ ({[B]} ∪ ({[A]} ∪ {[G]})))) : gset hash) = 5%nat) as -> by (vm_compute; reflexivity). lia.
Qed.
End SyncSample.

Module SyncManagerProps.
Abbreviation nodes s := (dom (reachabilityDataStore (dt_reachabilityManager (dtm_of (consensus_of (pn_virtual (sy_pruning s))))))).
Abbreviation tree_of s := (reachabilityDataStore (dt_reachabilityManager (dtm_of (consensus_of (pn_virtual (sy_pruning s)))))).
Abbreviation data_of s := (ghostdag_of (consensus_of (pn_virtual (sy_pruning s)))).


(** C19: while bodies arrive from the pruning point upwards, parents before children, a node asks for exactly the bodies it misses: [GetMissingBlockBodyHashes] returns the header-only blocks of
    the past of the high hash (itself included) that are not in the past of the pruning point, each once and after all its ancestors, and changes nothing but a cache; whether equal hashes are one object does not matter. *)
Theorem missing_bodies_correct `{Libs} `{MuHash} (pm : pruningManager) (sm : syncManager) (hc : codec hash) (samePointer : hash → bool) (dag_parents : hash → list hash) (k : Z) (root pp high : hash) (s : syncState) :
  let v := pn_virtual (sy_pruning s) in
  sync_ok dag_parents k root v → bodies_ok dag_parents pp v → has (ps_pruningPoint (pn_store (sy_pruning s))) = true → point_of pm hc (pn_store (sy_pruning s)) = Some pp →
  high ∈ nodes s → tree_anc (tree_of s) pp high →
  ∃ s' missing, GetMissingBlockBodyHashes sm hc samePointer high s = (s', Ret missing) ∧ topological dag_parents missing ∧
    (∀ y, y ∈ missing ↔ dag_anc dag_parents y high ∧ ¬ dag_anc dag_parents y pp ∧ rs_statuses (vs_resolve v) !! y = Some StatusHeaderOnly) ∧
    pn_virtual (sy_pruning s') = v ∧ same_answers pm hc (pn_store (sy_pruning s)) (pn_store (sy_pruning s')) ∧ sy_chain s' = sy_chain s.
Proof. intros v Hok Hb Hhas Hpp Hh Ha. by apply (missing_spec dag_parents k root pp v Hok Hb). Qed.

(** C25: when the low hash is in the selected chain of the high hash, at a distance in blue score below 2^n, [CreateBlockLocator] returns within n + 2 rounds the blocks of that chain from the
    high hash to the low hash, each the lowest one with a blue score of at least that of the one before less a step that doubles; a limit cuts it off.  When the selected chain of the high hash
    jumps over the blue score of the low hash the loop never ends without a limit. *)
Theorem block_locator_correct `{Libs} `{MuHash} (root low high : hash) (s : syncState) :
  let v := pn_virtual (sy_pruning s) in
  let score x := blueScore (dataOf (data_of s) x) in
  chains_ok root v → selectedParent (dataOf (data_of s) root) = None → low ∈ nodes s → high ∈ nodes s →
  (∀ n : nat, tree_anc (tree_of s) low high → score high - score low < 2 ^ Z.of_nat n → (n ≤ 63)%nat →
    ∃ l, located v low 0 high l ∧ (length l ≤ n + 2)%nat ∧
      ∀ limit fuel, (n + 2 ≤ fuel)%nat → 0 ≤ limit < 2 ^ 32 →
        CreateBlockLocator fuel low high limit s = (s, Ret (if bool_decide (limit = 0) then l else take (Z.to_nat limit) l))) ∧
  (∀ x, lowest v high (score low) x → score low < score x → ∀ fuel, CreateBlockLocator fuel low high 0 s = (s, Crash OutOfFuel)).
Proof.
  intros v score Hok Hroot Hl Hh. assert (∀ fuel limit, CreateBlockLocator fuel low high limit s = locatorLoop fuel low (score low) limit high 1 [] s) as Hrun.
  { intros fuel limit. unfold CreateBlockLocator, createBlockLocator. by rewrite (bind_ret_l _ _ s s _ (locator_data root v Hok s eq_refl low Hl)). }
  split.
  - intros n Ha Hd Hn. destruct (locatorLoop_run root v Hok Hroot s eq_refl low Hl (n + 1) 0 high Hh Ha) as (l & Hloc & Hlen & Hloop); [intros; lia|by replace (Z.of_nat (n + 1 + 0) - 1) with (Z.of_nat n) by lia|lia|].
    exists l. split; [done|]. split; [lia|]. intros limit fuel Hf Hlim. rewrite Hrun. apply Hloop; [lia|by left|done|]. change (zlen (@nil hash)) with 0. lia.
  - intros x Hx Hlt fuel. rewrite Hrun. apply (locatorLoop_diverges root v Hok Hroot s eq_refl low Hl high x); [done|done|done| |apply rtc_refl|lia].
    exact (proj1 Hx).
Qed.

(** C24: a node that starts without headers and then gets, in any order, the genesis block and other blocks of the DAG, every header in a staging area of its own, has as its headers' selected tip the greatest
    of them in the order of GHOSTDAG; and the store of the headers' selected chain answers with exactly the selected chain of that tip, from the genesis block up. *)
Theorem headers_selected_chain `{Libs} `{MuHash} rangeHash rangeIndex (dag_parents : hash → list hash) (k : Z) (root : hash) (hs : list hash) (s : syncState) :
  let v := pn_virtual (sy_pruning s) in
  enumerates rangeHash → enumerates rangeIndex → sync_ok dag_parents k root v → (∀ x, x ∈ nodes s → zlen x = 32) → root ∈ nodes s → (∀ h, h ∈ hs → h ∈ nodes s) →
  pn_headersSelectedTip (sy_pruning s) = None → ok (sy_chain s) [] [] 0 [] →
  ∃ s' tip l, insertHeaders rangeHash rangeIndex (root :: hs) s = (s', Ret ()) ∧ pn_headersSelectedTip (sy_pruning s') = Some tip ∧
    tip ∈ root :: hs ∧ (∀ h, h ∈ root :: hs → sorted_by (data_of s) h tip) ∧
    climbs (tree_of s) root l tip ∧ shows rangeHash rangeIndex (sy_chain s') (root :: l).
Proof.
  intros v HrH HrI Hok H32 Hroot Hhs Ht Hc. destruct (first_header rangeHash rangeIndex HrH HrI root v H32 s eq_refl Ht Hc Hroot) as (s1 & Hrun1 & Hs1).
  destruct (insertHeaders_spec rangeHash rangeIndex HrH HrI dag_parents k root v Hok H32 hs s1 root [] Hs1 Hhs) as (s' & tip & l & Hrun & Hs' & Hin & Hmax).
  exists s', tip, l. split; [cbn [insertHeaders]; by rewrite (bind_ret_l _ _ _ _ _ Hrun1)|]. split; [apply (tk_tip _ _ _ _ _ Hs')|]. split; [done|]. split; [done|]. split; [apply (tk_chain _ _ _ _ _ Hs')|].
  apply held_shows; [done|done|]. apply ok_held, (tk_store _ _ _ _ _ Hs').
Qed.

(** Between two blocks of the headers' selected chain, [CreateHeadersSelectedChainBlockLocator] returns the blocks at distances 0, 1, 3, 7, 15 and so on below the high hash while they are above the low hash, and then the low hash;
    it fails with [ErrBlockNotInSelectedParentChain] when one of them is not in the chain and with an error when the low hash is above the high hash. *)
Theorem headers_locator_correct `{Libs} `{MuHash} (sm : syncManager) rangeHash rangeIndex (chain : list hash) (low high : hash) (s : syncState) :
  enumerates rangeHash → enumerates rangeIndex → held (sy_chain s) chain → zlen chain ≤ 2 ^ 64 → low ≠ high →
  (∀ i j, block_at chain low i → block_at chain high j → i ≤ j →
    ∃ s', CreateHeadersSelectedChainBlockLocator sm rangeHash rangeIndex low high s = (s', Ret (chainLocator chain i j)) ∧ held (sy_chain s') chain ∧ sy_pruning s' = sy_pruning s) ∧
  (∀ i j, block_at chain low i → block_at chain high j → j < i → snd (CreateHeadersSelectedChainBlockLocator sm rangeHash rangeIndex low high s) = Fail ErrHighBelowLow) ∧
  (low ∉ chain ∨ high ∉ chain → snd (CreateHeadersSelectedChainBlockLocator sm rangeHash rangeIndex low high s) = Fail ErrBlockNotInSelectedParentChain).
Proof.
  intros HrH HrI Hh Hlen Hne. assert (high ≠ sm_genesisBlockHash sm ∨ low ≠ sm_genesisBlockHash sm) as Hgen by (destruct (decide (high = sm_genesisBlockHash sm)) as [->|]; [by right|by left]).
  destruct (chainLocator_errors sm rangeHash rangeIndex HrH HrI chain s low high Hh Hgen) as [Herr1 Herr2]. split; [|by split].
  intros i j Hi Hj Hij. by apply (chainLocator_spec sm rangeHash rangeIndex HrH HrI chain s low high i j).
Qed.

(** ** The fork *)
Import SyncSample.
Definition fork_manager : syncManager := New G 180.
Definition fork_sync_state (tip : option hash) (chain : chainStore) : syncState :=
  {| sy_pruning := {| pn_virtual := fork_state; pn_store := PruningProps.sample_store (PruningProps.staged_cell G) PruningStoreProps.empty_cell false; pn_headersSelectedTip := tip |}; sy_chain := chain |}.
Definition fork_start : syncState := fork_sync_state None (chain_New 10).


Lemma fork_bodies : bodies_ok fork G fork_state.
Proof.
  assert (∀ x, x = G ∨ x = A → rs_statuses (vs_resolve fork_state) !! x = Some StatusUTXOValid) as Hbody by (intros x [->| ->]; vm_compute; reflexivity).
  assert (∀ x, x = C ∨ x = D ∨ x = B → rs_statuses (vs_resolve fork_state) !! x = Some StatusHeaderOnly ∧ us_blocks (rs_stores (vs_resolve fork_state)) !! x = None) as Hnone by (intros x [->|[->| ->]]; split; vm_compute; reflexivity).
  split.
  - intros x Hx. apply fork_nodes in Hx. assert ((x = C ∨ x = D ∨ x = B) ∨ (x = G ∨ x = A)) as [E|E] by tauto; [exists StatusHeaderOnly; by apply Hnone|exists StatusUTXOValid; by apply Hbody].
  - intros x Hx _. apply fork_nodes in Hx. assert ((x = C ∨ x = D ∨ x = B) ∨ (x = G ∨ x = A)) as [E|E] by tauto.
    + destruct (Hnone x E) as [-> ->]. split; [by intros []|done].
    + rewrite (Hbody x E). split; [done|]. intros _. destruct E as [->| ->]; eexists; vm_compute; reflexivity.
  - intros x p Hx Hst Hp Hn. apply fork_nodes in Hx. assert ((x = C ∨ x = D ∨ x = B) ∨ (x = G ∨ x = A)) as [E|E] by tauto; [by destruct (Hnone x E) as [E' _]|].
    destruct E as [->| ->]; [vm_compute in Hp; by apply elem_of_nil in Hp|]. assert (fork A = [G]) as EA by (vm_compute; reflexivity). rewrite EA in Hp. apply list_elem_of_singleton in Hp as ->. destruct Hn. apply rtc_refl.
Qed.

Lemma missing_bodies_correct_witness :
  snd (GetMissingBlockBodyHashes fork_manager hashCodec (λ _, false) C fork_start) = Ret [B; C] ∧
  ∃ s' missing, GetMissingBlockBodyHashes fork_manager hashCodec (λ _, false) C fork_start = (s', Ret missing) ∧ topological fork missing ∧
    (∀ y, y ∈ missing ↔ dag_anc fork y C ∧ ¬ dag_anc fork y G ∧ rs_statuses (vs_resolve fork_state) !! y = Some StatusHeaderOnly) ∧
    pn_virtual (sy_pruning s') = fork_state ∧ same_answers PruningProps.sample_pm hashCodec (pn_store (sy_pruning fork_start)) (pn_store (sy_pruning s')) ∧ sy_chain s' = sy_chain fork_start.
Proof.
  split; [vm_compute; reflexivity|]. assert (C ∈ nodes fork_start) as HC by (apply fork_nodes; by left).
  apply (missing_bodies_correct PruningProps.sample_pm fork_manager hashCodec (λ _, false) fork 18 G G C fork_start).
  - exact fork_sync.
  - exact fork_bodies.
  - vm_compute. reflexivity.
  - vm_compute. reflexivity.
  - exact HC.
  - apply (root_anc _ _ (ck_tree _ _ fork_chains)), HC.
Defined.

(** The chain of [C] has the blue scores 3, 1 and 0, and [D] has 2. *)
Lemma block_locator_correct_witness :
  snd (CreateBlockLocator 4 G C 0 fork_start) = Ret [C; C; B; G] ∧ ∀ fuel, CreateBlockLocator fuel D C 0 fork_start = (fork_start, Crash OutOfFuel).
Proof.
  assert (C ∈ nodes fork_start) as HC by (apply fork_nodes; by left). assert (D ∈ nodes fork_start) as HD by (apply fork_nodes; right; by left).
  split; [vm_compute; reflexivity|]. apply (proj2 (block_locator_correct G D C fork_start fork_chains ltac:(vm_compute; reflexivity) HD HC) C); [|vm_compute; reflexivity].
  split; [apply rtc_refl|]. split; [vm_compute; congruence|]. intros z Hz Hle. assert (z ∈ nodes fork_start) as Hzd by (by eapply (tree_anc_dom _ _ (ck_tree _ _ fork_chains))).
  destruct (rtc_inv _ _ Hz) as [->|(q & Hq & Hrest)]; [apply rtc_refl|]. exfalso. assert (parent_of (tree_of fork_start) C = Some B) as E by (vm_compute; reflexivity). rewrite E in Hq. injection Hq as <-.
  pose proof (proj1 (score_anc G fork_state fork_chains _ _ Hrest)) as Hs. assert (blueScore (dataOf (data_of fork_start) D) = 2 ∧ blueScore (dataOf (data_of fork_start) B) = 1) as [E1 E2] by (split; vm_compute; reflexivity).
  change (ghostdag_of (consensus_of fork_state)) with (data_of fork_start) in Hs. lia.
Defined.

Lemma fork_32 x : x ∈ nodes fork_start → zlen x = 32.
Proof. intros [->|[->|[->|[->| ->]]]]%fork_nodes; vm_compute; reflexivity. Qed.

Lemma headers_selected_chain_witness :
  ∃ s' tip l, insertHeaders StoreProps.sample_range StoreProps.sample_range [G; D; C; A] fork_start = (s', Ret ()) ∧ pn_headersSelectedTip (sy_pruning s') = Some tip ∧
    tip ∈ [G; D; C; A] ∧ (∀ h, h ∈ [G; D; C; A] → sorted_by (data_of fork_start) h tip) ∧
    climbs (tree_of fork_start) G l tip ∧ shows StoreProps.sample_range StoreProps.sample_range (sy_chain s') (G :: l).
Proof.
  apply (headers_selected_chain StoreProps.sample_range StoreProps.sample_range fork 18 G [D; C; A] fork_start).
  - exact StoreProps.sample_range_ok.
  - exact StoreProps.sample_range_ok.
  - exact fork_sync.
  - exact fork_32.
  - apply fork_nodes. do 4 right. reflexivity.
  - intros h [->|[->|[->|[]%elem_of_nil]%elem_of_cons]%elem_of_cons]%elem_of_cons; apply fork_nodes; [right; by left|by left|do 3 right; by left].
  - reflexivity.
  - apply new_ok. lia.
Defined.

(** The chain of [D], committed *)
Definition chain_to_D : SelectedChainPath := {| scp_Added := [G; A; D]; scp_Removed := [] |}.
Definition chain_state : syncState := fork_sync_state (Some D) (fst (chain_update StoreProps.sample_range StoreProps.sample_range chain_to_D (chain_New 10))).
Lemma chain_state_held : held (sy_chain chain_state) [G; A; D].
Proof.
  destruct (change_staged StoreProps.sample_range StoreProps.sample_range StoreProps.sample_range_ok StoreProps.sample_range_ok (chain_New 10) [] chain_to_D [G; A; D]) as (_ & s2 & _ & _ & Hrun & Hs2).
  - apply new_ok. lia.
  - apply (change_end _ _ _ [] []); try done; [apply (bool_decide_unpack _); vm_compute; exact I|repeat constructor].
  - apply ok_held. simpl. by rewrite Hrun.
Qed.

Lemma headers_locator_correct_witness :
  snd (CreateHeadersSelectedChainBlockLocator fork_manager StoreProps.sample_range StoreProps.sample_range G D chain_state) = Ret [D; A; G] ∧
  (∃ s', CreateHeadersSelectedChainBlockLocator fork_manager StoreProps.sample_range StoreProps.sample_range G D chain_state = (s', Ret (chainLocator [G; A; D] 0 2)) ∧
    held (sy_chain s') [G; A; D] ∧ sy_pruning s' = sy_pruning chain_state) ∧
  snd (CreateHeadersSelectedChainBlockLocator fork_manager StoreProps.sample_range StoreProps.sample_range D A chain_state) = Fail ErrHighBelowLow.
Proof.
  split; [vm_compute; reflexivity|]. split.
  - apply (proj1 (headers_locator_correct fork_manager StoreProps.sample_range StoreProps.sample_range [G; A; D] G D chain_state
      StoreProps.sample_range_ok StoreProps.sample_range_ok chain_state_held ltac:(vm_compute; congruence) ltac:(vm_compute; congruence))); [by split|by split|lia].
  - apply (proj1 (proj2 (headers_locator_correct fork_manager StoreProps.sample_range StoreProps.sample_range [G; A; D] D A chain_state
      StoreProps.sample_range_ok StoreProps.sample_range_ok chain_state_held ltac:(vm_compute; congruence) ltac:(vm_compute; congruence))) 2 1); [by split|by split|lia].
Defined.

(** When the first merge set exceeds the limit the answer is the high hash alone, without its past. *)
Example limit_below_merge_set : snd (GetHashesBetween fork_manager B C 1 fork_start) = Ret ([C], C) ∧ snd (GetHashesBetween fork_manager B C 0 fork_start) = Ret ([A; C], C).
Proof. split; vm_compute; reflexivity. Qed.
(** A high hash in the past of the low hash is returned itself. *)
Example high_in_past_of_low : snd (GetHashesBetween fork_manager C A 0 fork_start) = Ret ([A], A).
Proof. vm_compute. reflexivity. Qed.
End SyncManagerProps.
