(* ===== verification/Bech32.v ===== *)
(** * Addresses and their encoding (util/bech32, util/address.go)

    Strings are lists of bytes.  An address is a public key or a script hash with the prefix of its network; its string is the
    prefix, a colon, and the version and the payload in base 32 with a checksum of 40 bits.  Regrouping bits keeps the string of
    bits, the checksum cancels itself, and the characters are a bijection: what is decoded is what was encoded. *)
From S2P Require Import Prelude Externalapi Hashing.
Local Open Scope Z_scope.
Local Open Scope prog_scope.

Abbreviation bytes := (list Z) (only parsing).

(** The errors of [decode], [ParsePrefix], [DecodeAddress] and the constructors of addresses; those after [ErrUnknownAddressType] are unnamed. *)
Inductive addressError :=
  | ErrUnknownAddressType
  | ErrInvalidLength
  | ErrInvalidCharacter
  | ErrMixedCase
  | ErrInvalidColon
  | ErrNotInCharset
  | ErrChecksum
  | ErrUnknownPrefix
  | ErrWrongNetwork
  | ErrPayloadSize.
Abbreviation decoding A := (outcome addressError A) (only parsing).

Module Bech32.
Definition charset : bytes := bytes_of_string "qpzry9x8gf2tvdw0s3jn54khce6mua7l".
Definition checksumLength : Z := 8.

Record conversionType := {
  fromBits : Z;
  toBits : Z;
  pad : bool
}.
Definition fiveToEightBits : conversionType := {| fromBits := 5; toBits := 8; pad := false |}.
Definition eightToFiveBits : conversionType := {| fromBits := 8; toBits := 5; pad := true |}.

Definition generator : list Z := [0x98f2bc8e61; 0x79b76d99e2; 0xf33e5fb3c4; 0xae2eabe2a8; 0x1e4f43e470].

(** ** Groups of bits *)
Record regrouping := {
  rg_regrouped : bytes;
  rg_nextByte : Z;
  rg_filledBits : Z
}.

(** [for remainingFromBits > 0]: every round takes a bit of the eight or more. *)
Fixpoint extractLoop (fuel : nat) (to : Z) (remainingFromBits b : Z) (r : regrouping) : decoding regrouping :=
  match fuel with
  | O => Crash OutOfFuel
  | S fuel =>
      if 0 <? remainingFromBits then
        let remainingToBits := GoInt.uint8 (to - rg_filledBits r) in
        let toExtract := if remainingToBits <? remainingFromBits then remainingToBits else remainingFromBits in
        let nextByte := Z.lor (GoInt.uint8 (Z.shiftl (rg_nextByte r) toExtract)) (Z.shiftr b (8 - toExtract)) in
        let b := GoInt.uint8 (Z.shiftl b toExtract) in
        let filledBits := GoInt.uint8 (rg_filledBits r + toExtract) in
        extractLoop fuel to (GoInt.uint8 (remainingFromBits - toExtract)) b
          (if filledBits =? to
           then {| rg_regrouped := rg_regrouped r ++ [nextByte]; rg_nextByte := 0; rg_filledBits := 0 |}
           else {| rg_regrouped := rg_regrouped r; rg_nextByte := nextByte; rg_filledBits := filledBits |})
      else Ret r
  end.

Fixpoint regroup (c : conversionType) (data : bytes) (r : regrouping) : decoding regrouping :=
  match data with
  | [] => Ret r
  | b :: data =>
      let b := GoInt.uint8 (Z.shiftl b (8 - fromBits c)) in
      let? r := extractLoop 9 (toBits c) (fromBits c) b r in
      regroup c data r
  end.

Definition convertBits (data : bytes) (c : conversionType) : decoding bytes :=
  let? r := regroup c data {| rg_regrouped := []; rg_nextByte := 0; rg_filledBits := 0 |} in
  Ret (if pad c && (0 <? rg_filledBits r)
       then rg_regrouped r ++ [GoInt.uint8 (Z.shiftl (rg_nextByte r) (toBits c - rg_filledBits r))]
       else rg_regrouped r).

(** ** The checksum *)

(** [for i := 0; i < len(generator); i++]: at [i] *)
Fixpoint addGenerators (topBits checksum i : Z) (generator : list Z) : Z :=
  match generator with
  | [] => checksum
  | g :: generator =>
      addGenerators topBits (if Z.land (Z.shiftr topBits i) 1 =? 1 then Z.lxor checksum g else checksum) (i + 1) generator
  end.

(** One round; the checksum has 40 bits of an [int]. *)
Definition polyModStep (checksum value : Z) : Z :=
  let topBits := Z.shiftr checksum 35 in
  let checksum := Z.lxor (Z.shiftl (Z.land checksum 0x07ffffffff) 5) value in
  addGenerators topBits checksum 0 generator.
Definition polyMod (values : list Z) : Z := Z.lxor (fold_left polyModStep values 1) 1.

Definition prefixToUint5Array (prefix : bytes) : list Z := map (λ char, Z.land char 31) prefix.

Definition calculateChecksum (prefix payload : bytes) : bytes :=
  let polyModResult := polyMod (prefixToUint5Array prefix ++ [0] ++ payload ++ replicate 8 0) in
  map (λ i, GoInt.uint8 (Z.land (Z.shiftr polyModResult (5 * (checksumLength - 1 - Z.of_nat i))) 31)) (seq 0 (Z.to_nat checksumLength)).

Definition verifyChecksum (prefix payload : bytes) : bool := polyMod (prefixToUint5Array prefix ++ [0] ++ payload) =? 0.

(** ** Characters *)
Fixpoint decodeFromBase32 (base32String : bytes) : decoding bytes :=
  match base32String with
  | [] => Ret []
  | char :: rest =>
      match list_find (λ c, c = char) charset with
      | None => Fail ErrNotInCharset
      | Some (index, _) => let? decoded := decodeFromBase32 rest in Ret (GoInt.uint8 (Z.of_nat index) :: decoded)
      end
  end.

(** An empty string instead of an error *)
Definition encodeToBase32 (data : bytes) : bytes :=
  if forallb (λ b, b <? zlen charset) data then map (λ b, charset !!! Z.to_nat b) data else [].

(** [strings.ToLower] and [strings.ToUpper] of ASCII characters *)
Definition toLower (char : Z) : Z := if (65 <=? char) && (char <=? 90) then char + 32 else char.
Definition toUpper (char : Z) : Z := if (97 <=? char) && (char <=? 122) then char - 32 else char.

(** [strings.LastIndexByte]; [-1] when there is none *)
Fixpoint lastIndexFrom (i last : Z) (s : bytes) (char : Z) : Z :=
  match s with
  | [] => last
  | c :: s => lastIndexFrom (i + 1) (if c =? char then i else last) s char
  end.
Definition LastIndexByte (s : bytes) (char : Z) : Z := lastIndexFrom 0 (-1) s char.

Definition colon : Z := 58.

Definition encode (prefix data : bytes) : bytes :=
  let checksum := calculateChecksum prefix data in
  prefix ++ [colon] ++ encodeToBase32 (data ++ checksum).

Definition decode (encoded : bytes) : decoding (bytes * bytes) :=
  if zlen encoded <? checksumLength + 2 then Fail ErrInvalidLength
  else if existsb (λ c, (c <? 33) || (126 <? c)) encoded then Fail ErrInvalidCharacter
  else
    let lower := map toLower encoded in
    let upper := map toUpper encoded in
    if negb (bool_decide (encoded = lower)) && negb (bool_decide (encoded = upper)) then Fail ErrMixedCase
    else
      let encoded := lower in
      let colonIndex := LastIndexByte encoded colon in
      if (colonIndex <? 1) || (zlen encoded <? colonIndex + checksumLength + 1) then Fail ErrInvalidColon
      else
        let? prefix := slice encoded 0 colonIndex in
        let? data := slice encoded (colonIndex + 1) (zlen encoded) in
        let? decoded := decodeFromBase32 data in
        if negb (verifyChecksum prefix decoded) then Fail ErrChecksum
        else
          let? payload := slice decoded 0 (zlen decoded - checksumLength) in
          Ret (prefix, payload).

Definition Encode (prefix payload : bytes) (version : Z) : decoding bytes :=
  let? converted := convertBits (version :: payload) eightToFiveBits in
  Ret (encode prefix converted).

Definition Decode (encoded : bytes) : decoding (bytes * bytes * Z) :=
  let? '(prefix, decoded) := decode encoded in
  let? converted := convertBits decoded fiveToEightBits in
  let? version := index converted 0 in
  let? payload := slice converted 1 (zlen converted) in
  Ret (prefix, payload, version).
End Bech32.
Import Bech32.

(** ** Addresses *)
Inductive Bech32Prefix :=
  | Bech32PrefixUnknown
  | Bech32PrefixKaspa
  | Bech32PrefixKaspaDev
  | Bech32PrefixKaspaTest
  | Bech32PrefixKaspaSim.
#[export] Instance Bech32Prefix_dec : EqDecision Bech32Prefix.
Proof. solve_decision. Defined.

Inductive Address :=
  | AddressPublicKey (prefix : Bech32Prefix) (publicKey : bytes)
  | AddressPublicKeyECDSA (prefix : Bech32Prefix) (publicKey : bytes)
  | AddressScriptHash (prefix : Bech32Prefix) (hash : bytes).

Module Addresses.
Definition pubKeyAddrID : Z := 0.
Definition pubKeyECDSAAddrID : Z := 1.
Definition scriptHashAddrID : Z := 8.
Definition PublicKeySize : Z := 32.
Definition PublicKeySizeECDSA : Z := 33.
(** [blake2b.Size256] *)
Definition Size256 : Z := 32.

Definition stringsToBech32Prefixes : list (bytes * Bech32Prefix) :=
  [(bytes_of_string "kaspa", Bech32PrefixKaspa); (bytes_of_string "kaspadev", Bech32PrefixKaspaDev);
   (bytes_of_string "kaspatest", Bech32PrefixKaspaTest); (bytes_of_string "kaspasim", Bech32PrefixKaspaSim)].

Definition ParsePrefix (prefixString : bytes) : decoding Bech32Prefix :=
  match list_find (λ kv, kv.1 = prefixString) stringsToBech32Prefixes with
  | Some (_, (_, prefix)) => Ret prefix
  | None => Fail ErrUnknownPrefix
  end.
(** The values of the map are distinct, so the order of the range does not matter. *)
Definition prefix_String (prefix : Bech32Prefix) : bytes :=
  match list_find (λ kv, kv.2 = prefix) stringsToBech32Prefixes with
  | Some (_, (key, _)) => key
  | None => []
  end.

Definition encodeAddress (prefix : Bech32Prefix) (payload : bytes) (version : Z) : decoding bytes := Encode (prefix_String prefix) payload version.

Definition newAddressPubKey (prefix : Bech32Prefix) (publicKey : bytes) : decoding Address :=
  if negb (zlen publicKey =? PublicKeySize) then Fail ErrPayloadSize else Ret (AddressPublicKey prefix publicKey).
Definition newAddressPubKeyECDSA (prefix : Bech32Prefix) (publicKey : bytes) : decoding Address :=
  if negb (zlen publicKey =? PublicKeySizeECDSA) then Fail ErrPayloadSize else Ret (AddressPublicKeyECDSA prefix publicKey).
Definition newAddressScriptHashFromHash (prefix : Bech32Prefix) (scriptHash : bytes) : decoding Address :=
  if negb (zlen scriptHash =? Size256) then Fail ErrPayloadSize else Ret (AddressScriptHash prefix scriptHash).
Definition NewAddressPublicKey (publicKey : bytes) (prefix : Bech32Prefix) : decoding Address := newAddressPubKey prefix publicKey.
Definition NewAddressPublicKeyECDSA (publicKey : bytes) (prefix : Bech32Prefix) : decoding Address := newAddressPubKeyECDSA prefix publicKey.
Definition NewAddressScriptHashFromHash (scriptHash : bytes) (prefix : Bech32Prefix) : decoding Address := newAddressScriptHashFromHash prefix scriptHash.
Definition NewAddressScriptHash `{Hashes} (serializedScript : bytes) (prefix : Bech32Prefix) : decoding Address :=
  newAddressScriptHashFromHash prefix (blake2b_Sum256 serializedScript).

Definition EncodeAddress (a : Address) : decoding bytes :=
  match a with
  | AddressPublicKey prefix publicKey => encodeAddress prefix publicKey pubKeyAddrID
  | AddressPublicKeyECDSA prefix publicKey => encodeAddress prefix publicKey pubKeyECDSAAddrID
  | AddressScriptHash prefix hash => encodeAddress prefix hash scriptHashAddrID
  end.
Definition ScriptAddress (a : Address) : bytes :=
  match a with AddressPublicKey _ payload | AddressPublicKeyECDSA _ payload | AddressScriptHash _ payload => payload end.
Definition address_Prefix (a : Address) : Bech32Prefix :=
  match a with AddressPublicKey prefix _ | AddressPublicKeyECDSA prefix _ | AddressScriptHash prefix _ => prefix end.
Definition IsForPrefix (a : Address) (prefix : Bech32Prefix) : bool := bool_decide (address_Prefix a = prefix).

Definition DecodeAddress (addr : bytes) (expectedPrefix : Bech32Prefix) : decoding Address :=
  let? '(prefixString, decoded, version) := Decode addr in
  let? prefix := ParsePrefix prefixString in
  if negb (bool_decide (expectedPrefix = Bech32PrefixUnknown)) && negb (bool_decide (expectedPrefix = prefix)) then Fail ErrWrongNetwork
  else if version =? pubKeyAddrID then newAddressPubKey prefix decoded
  else if version =? pubKeyECDSAAddrID then newAddressPubKeyECDSA prefix decoded
  else if version =? scriptHashAddrID then newAddressScriptHashFromHash prefix decoded
  else Fail ErrUnknownAddressType.
End Addresses.
Import Addresses.

(** ** The round trip *)

(** *** Strings of bits *)

(** The last [w] bits, the highest first *)
Fixpoint bits (w : nat) (x : Z) : list bool :=
  match w with
  | O => []
  | S w => Z.testbit x (Z.of_nat w) :: bits w x
  end.
Definition all_bits (w : nat) (l : bytes) : list bool := concat (map (bits w) l).

Lemma bits_length w x : length (bits w x) = w.
Proof. induction w as [|w IH]; simpl; [done|]. by rewrite IH. Qed.
Lemma bits_ext w x y : (∀ i, 0 ≤ i < Z.of_nat w → Z.testbit x i = Z.testbit y i) → bits w x = bits w y.
Proof. induction w as [|w IH]; intros Hb; simpl; [done|]. rewrite Hb by lia. f_equal. apply IH. intros i Hi. apply Hb. lia. Qed.
Lemma bits_split f e x : bits (f + e) x = bits f (Z.shiftr x (Z.of_nat e)) ++ bits e x.
Proof. induction f as [|f IH]; simpl; [done|]. rewrite Z.shiftr_spec, IH by lia. by replace (Z.of_nat (f + e)) with (Z.of_nat f + Z.of_nat e) by lia. Qed.
Lemma bits_zero w : bits w 0 = replicate w false.
Proof. induction w as [|w IH]; simpl; [done|]. by rewrite Z.bits_0, IH. Qed.
Lemma bits_inj w x y : 0 ≤ x < 2 ^ Z.of_nat w → 0 ≤ y < 2 ^ Z.of_nat w → bits w x = bits w y → x = y.
Proof.
  intros Hx Hy Hb. assert (∀ i, 0 ≤ i < Z.of_nat w → Z.testbit x i = Z.testbit y i) as Hlow.
  { clear Hx Hy. induction w as [|w IH]; [lia|]. simpl in Hb. injection Hb as Hw Hb. intros i Hi. destruct (decide (i = Z.of_nat w)) as [->|]; [done|]. apply IH; [done|lia]. }
  apply Z.bits_inj'. intros i Hi. destruct (decide (i < Z.of_nat w)) as [|Hge]; [by apply Hlow|].
  rewrite <- (Z.mod_small x (2 ^ Z.of_nat w)), <- (Z.mod_small y (2 ^ Z.of_nat w)) by lia. by rewrite !Z.mod_pow2_bits_high by lia.
Qed.
Lemma all_bits_length w l : length (all_bits w l) = (w * length l)%nat.
Proof. induction l as [|x l IH]; simpl; [lia|]. unfold all_bits in *. simpl. rewrite length_app, bits_length, IH. lia. Qed.
Lemma all_bits_app w l1 l2 : all_bits w (l1 ++ l2) = all_bits w l1 ++ all_bits w l2.
Proof. unfold all_bits. by rewrite map_app, concat_app. Qed.
Lemma all_bits_one w x : all_bits w [x] = bits w x.
Proof. unfold all_bits. simpl. apply app_nil_r. Qed.
Lemma all_bits_inj w l1 : ∀ l2, (∀ x, x ∈ l1 ++ l2 → 0 ≤ x < 2 ^ Z.of_nat w) → length l1 = length l2 → all_bits w l1 = all_bits w l2 → l1 = l2.
Proof.
  induction l1 as [|x l1 IH]; intros [|y l2] Hr Hlen Hb; try done. simpl in Hlen. unfold all_bits in Hb. simpl in Hb. apply app_inj_1 in Hb as [Hx Hb]; [|by rewrite !bits_length].
  f_equal; [apply (bits_inj w); [apply Hr; set_solver..|done]|]. apply IH; [intros z Hz; apply Hr; set_solver|lia|done].
Qed.

Lemma shiftr_range x n m : 0 ≤ n → 0 ≤ m → 0 ≤ x < 2 ^ (n + m) → 0 ≤ Z.shiftr x n < 2 ^ m.
Proof. intros Hn Hm Hx. rewrite Z.shiftr_div_pow2 by lia. rewrite Z.pow_add_r in Hx by lia. split; [apply Z.div_pos; lia|]. apply Z.div_lt_upper_bound; lia. Qed.

(** The [r] highest bits of a byte *)
Definition top_bits (r b : Z) : list bool := bits (Z.to_nat r) (Z.shiftr b (8 - r)).

Lemma top_bits_split e r b : 0 ≤ e ≤ r → r ≤ 8 → 0 ≤ b < 256 → top_bits r b = top_bits e b ++ top_bits (r - e) (GoInt.uint8 (Z.shiftl b e)).
Proof.
  intros He Hr Hb. unfold top_bits. replace (Z.to_nat r) with (Z.to_nat e + Z.to_nat (r - e))%nat by lia. rewrite bits_split, Z.shiftr_shiftr by lia. f_equal.
  { f_equal. f_equal. lia. }
  apply bits_ext. intros i Hi. rewrite !Z.shiftr_spec by lia. unfold GoInt.uint8, GoInt.uwrap. rewrite Z.mod_pow2_bits_low by lia. rewrite Z.shiftl_spec by lia. f_equal. lia.
Qed.

Lemma bits_join f e x y : 0 ≤ f → 0 ≤ e → 0 ≤ y < 2 ^ e → bits (Z.to_nat (f + e)) (Z.lor (Z.shiftl x e) y) = bits (Z.to_nat f) x ++ bits (Z.to_nat e) y.
Proof.
  intros Hf He Hy. assert (∀ i, e ≤ i → Z.testbit y i = false) as Hhigh by (intros i Hi; rewrite <- (Z.mod_small y (2 ^ e)) by lia; by rewrite Z.mod_pow2_bits_high by lia).
  rewrite Z2Nat.inj_add, bits_split by lia. f_equal; apply bits_ext; intros i Hi.
  - rewrite Z.shiftr_spec, Z.lor_spec, Z.shiftl_spec, Hhigh, orb_false_r by lia. f_equal. lia.
  - rewrite Z.lor_spec, Z.shiftl_spec by lia. rewrite (Z.testbit_neg_r x) by lia. done.
Qed.

(** *** Regrouping *)
Section Regroup.
Variable to : Z.
Hypothesis Hto : 1 ≤ to ≤ 8.

(** The bits seen so far: whole groups and the beginning of the next one *)
Record grouped (r : regrouping) (B : list bool) : Prop := {
  gp_groups x : x ∈ rg_regrouped r → 0 ≤ x < 2 ^ to;
  gp_filled : 0 ≤ rg_filledBits r < to;
  gp_next : 0 ≤ rg_nextByte r < 2 ^ rg_filledBits r;
  gp_bits : B = all_bits (Z.to_nat to) (rg_regrouped r) ++ bits (Z.to_nat (rg_filledBits r)) (rg_nextByte r)
}.

Lemma extractLoop_spec fuel : ∀ rem b r B, grouped r B → 0 ≤ rem ≤ 8 → (Z.to_nat rem < fuel)%nat → 0 ≤ b < 256 →
  ∃ r', extractLoop fuel to rem b r = Ret r' ∧ grouped r' (B ++ top_bits rem b).
Proof using Hto.
  induction fuel as [|fuel IH]; intros rem b r B [Hg Hf Hn HB] Hrem Hfuel Hb; [lia|]. cbn [extractLoop]. destruct (Z.ltb_spec 0 rem) as [Hpos|Hz].
  2:{ replace rem with 0 by lia. exists r. split; [done|]. unfold top_bits. rewrite app_nil_r. by split. }
  cbv zeta. rewrite (GoInt.uint8_id (to - rg_filledBits r)) by lia. set (e := if to - rg_filledBits r <? rem then to - rg_filledBits r else rem).
  assert (1 ≤ e ≤ rem ∧ rg_filledBits r + e ≤ to) as [He Hfe] by (unfold e; destruct (Z.ltb_spec (to - rg_filledBits r) rem); lia).
  assert (0 ≤ Z.shiftr b (8 - e) < 2 ^ e) as Htop by (apply shiftr_range; [lia..|]; by replace (8 - e + e) with 8 by lia).
  assert (0 ≤ Z.shiftl (rg_nextByte r) e < 2 ^ (rg_filledBits r + e)) as Hsh.
  { rewrite Z.shiftl_mul_pow2, Z.pow_add_r by lia. pose proof (Z.pow_pos_nonneg 2 e ltac:(lia) ltac:(lia)). nia. }
  assert (2 ^ (rg_filledBits r + e) ≤ 2 ^ to) as H2 by (apply Z.pow_le_mono_r; lia). assert (2 ^ to ≤ 2 ^ 8) as H8 by (apply Z.pow_le_mono_r; lia). change (2 ^ 8) with 256 in H8.
  rewrite (GoInt.uint8_id (Z.shiftl (rg_nextByte r) e)) by lia. rewrite (GoInt.uint8_id (rg_filledBits r + e)) by lia. rewrite (GoInt.uint8_id (rem - e)) by lia.
  set (next := Z.lor (Z.shiftl (rg_nextByte r) e) (Z.shiftr b (8 - e))).
  assert (0 ≤ next < 2 ^ (rg_filledBits r + e)) as Hnext.
  { unfold next. rewrite Z.lor_comm, lor_shiftl_disjoint by lia. rewrite Z.shiftl_mul_pow2 in Hsh by lia. rewrite Z.pow_add_r in * by lia. nia. }
  assert (all_bits (Z.to_nat to) (rg_regrouped r) ++ bits (Z.to_nat (rg_filledBits r + e)) next = B ++ top_bits e b) as HB'.
  { unfold next, top_bits. rewrite bits_join by lia. by rewrite HB, <- (assoc_L (++)). }
  assert (0 ≤ GoInt.uint8 (Z.shiftl b e) < 256) as Hb' by (apply (GoInt.uwrap_range 8); lia).
  rewrite (top_bits_split e rem b) by lia. rewrite (assoc_L (++)). apply IH; [|lia|lia|done].
  destruct (Z.eqb_spec (rg_filledBits r + e) to) as [E|E]; split; simpl; try done; try lia.
  - intros x [Hx| ->%list_elem_of_singleton]%elem_of_app; [by apply Hg|]. by rewrite <- E.
  - by rewrite app_nil_r, all_bits_app, all_bits_one, <- HB', E.
Qed.

Lemma regroup_spec c data : toBits c = to → 1 ≤ fromBits c ≤ 8 → (∀ x, x ∈ data → 0 ≤ x < 2 ^ fromBits c) → ∀ r B, grouped r B →
  ∃ r', regroup c data r = Ret r' ∧ grouped r' (B ++ all_bits (Z.to_nat (fromBits c)) data).
Proof using Hto.
  intros Hc Hfrom. induction data as [|x data IH]; intros Hdata r B Hr; cbn [regroup]; [exists r; split; [done|]; unfold all_bits; simpl; by rewrite app_nil_r|].
  pose proof (Hdata x ltac:(by left)) as Hx. assert (2 ^ 8 = 2 ^ (8 - fromBits c) * 2 ^ fromBits c) as E8 by (rewrite <- Z.pow_add_r by lia; f_equal; lia).
  assert (0 ≤ Z.shiftl x (8 - fromBits c) < 256) as Hsh by (rewrite Z.shiftl_mul_pow2 by lia; pose proof (Z.pow_pos_nonneg 2 (8 - fromBits c) ltac:(lia) ltac:(lia)); change (2 ^ 8) with 256 in E8; nia).
  rewrite GoInt.uint8_id by done. rewrite Hc. destruct (extractLoop_spec 9 (fromBits c) (Z.shiftl x (8 - fromBits c)) r B Hr ltac:(lia) ltac:(lia) Hsh) as (r1 & -> & Hr1). cbn [obind].
  destruct (IH ltac:(intros; apply Hdata; by right) r1 _ Hr1) as (r2 & -> & Hr2). exists r2. split; [done|].
  replace (all_bits (Z.to_nat (fromBits c)) (x :: data)) with (top_bits (fromBits c) (Z.shiftl x (8 - fromBits c)) ++ all_bits (Z.to_nat (fromBits c)) data); [by rewrite (assoc_L (++))|].
  unfold all_bits, top_bits. simpl. f_equal. apply bits_ext. intros i Hi. rewrite Z.shiftr_spec, Z.shiftl_spec by lia. f_equal. lia.
Qed.
End Regroup.

Lemma grouped_empty to : 1 ≤ to ≤ 8 → grouped to {| rg_regrouped := []; rg_nextByte := 0; rg_filledBits := 0 |} [].
Proof. intros Hto. split; simpl; try done; try lia. by intros x ?%elem_of_nil. Qed.

Lemma to_five data : are_bytes data → ∃ l (k : nat), convertBits data eightToFiveBits = Ret l ∧ (∀ x, x ∈ l → 0 ≤ x < 32) ∧ all_bits 5 l = all_bits 8 data ++ replicate k false ∧ (k < 5)%nat.
Proof.
  intros Hdata. destruct (regroup_spec 5 ltac:(lia) eightToFiveBits data eq_refl ltac:(simpl; lia) ltac:(intros x Hx; by apply (proj1 (Forall_forall _ _) Hdata)) _ _ (grouped_empty 5 ltac:(lia))) as (r & Hr & [Hg Hf Hn HB]).
  unfold convertBits. rewrite Hr. cbn [obind pad eightToFiveBits andb toBits]. simpl in HB. change (Z.to_nat 8) with 8%nat in HB. change (Z.to_nat 5) with 5%nat in HB. destruct (Z.ltb_spec 0 (rg_filledBits r)) as [Hpos|Hz].
  - set (f := rg_filledBits r) in *. assert (0 ≤ Z.shiftl (rg_nextByte r) (5 - f) < 2 ^ 5) as Hsh.
    { rewrite Z.shiftl_mul_pow2 by lia. assert (2 ^ 5 = 2 ^ f * 2 ^ (5 - f)) as -> by (rewrite <- Z.pow_add_r by lia; f_equal; lia). pose proof (Z.pow_pos_nonneg 2 (5 - f) ltac:(lia) ltac:(lia)). nia. }
    rewrite GoInt.uint8_id by lia. eexists _, (Z.to_nat (5 - f)). split; [done|]. split; [intros x [Hx| ->%list_elem_of_singleton]%elem_of_app; [by apply Hg|lia]|]. split; [|lia].
    rewrite all_bits_app, HB, <- (assoc_L (++)). f_equal. rewrite all_bits_one.
    replace (bits 5) with (bits (Z.to_nat (f + (5 - f)))) by (f_equal; lia). rewrite <- (Z.lor_0_r (Z.shiftl (rg_nextByte r) (5 - f))), bits_join by (try split; lia || apply Z.pow_pos_nonneg; lia). by rewrite bits_zero.
  - exists (rg_regrouped r), 0%nat. split; [done|]. split; [done|]. split; [|lia]. replace (rg_filledBits r) with 0 in HB by lia. simpl in HB. rewrite app_nil_r in *. done.
Qed.

Lemma to_eight l data (k : nat) : (∀ x, x ∈ l → 0 ≤ x < 32) → are_bytes data → all_bits 5 l = all_bits 8 data ++ replicate k false → (k < 5)%nat → convertBits l fiveToEightBits = Ret data.
Proof.
  intros Hl Hdata Hbits Hk. destruct (regroup_spec 8 ltac:(lia) fiveToEightBits l eq_refl ltac:(simpl; lia) Hl _ _ (grouped_empty 8 ltac:(lia))) as (r & Hr & [Hg Hf Hn HB]).
  unfold convertBits. rewrite Hr. cbn [obind pad fiveToEightBits andb]. f_equal. simpl in HB. change (Z.to_nat 5) with 5%nat in HB. change (Z.to_nat 8) with 8%nat in HB. rewrite Hbits in HB.
  pose proof (f_equal length HB) as Hlen. rewrite !length_app, !all_bits_length, length_replicate, bits_length in Hlen.
  assert (length (rg_regrouped r) = length data) as Hlen' by lia. apply (all_bits_inj 8); [|done|].
  - intros x [Hx|Hx]%elem_of_app; [by apply Hg|]. by apply (proj1 (Forall_forall _ _) Hdata).
  - symmetry in HB. apply app_inj_1 in HB as [HB _]; [done|]. rewrite !all_bits_length. lia.
Qed.

(** *** The checksum as a linear map *)

(** The generators of the bits of [t] from bit [i] on *)
Fixpoint mix (t i : Z) (gens : list Z) : Z :=
  match gens with
  | [] => 0
  | g :: gens => Z.lxor (if Z.testbit t i then g else 0) (mix t (i + 1) gens)
  end.
(** A round without a value *)
Definition turn (c : Z) : Z := Z.lxor (Z.shiftl (Z.land c 0x07ffffffff) 5) (mix (Z.shiftr c 35) 0 generator).

Lemma low_bit_testbit t i : 0 ≤ i → (Z.land (Z.shiftr t i) 1 =? 1) = Z.testbit t i.
Proof.
  intros Hi. change 1 with (Z.ones 1) at 1. rewrite Z.land_ones by lia. change (2 ^ 1) with 2. rewrite <- Z.bit0_mod, Z.shiftr_spec by lia.
  rewrite Z.add_0_l. by destruct (Z.testbit t i).
Qed.
Lemma addGenerators_mix gens : ∀ t c i, 0 ≤ i → addGenerators t c i gens = Z.lxor c (mix t i gens).
Proof.
  induction gens as [|g gens IH]; intros t c i Hi; simpl; [by rewrite Z.lxor_0_r|]. rewrite low_bit_testbit, IH by lia. rewrite <- Z.lxor_assoc.
  destruct (Z.testbit t i); [done|]. by rewrite Z.lxor_0_r.
Qed.
Lemma polyModStep_turn c v : polyModStep c v = Z.lxor (turn c) v.
Proof. unfold polyModStep, turn. rewrite addGenerators_mix by lia. rewrite !Z.lxor_assoc. f_equal. apply Z.lxor_comm. Qed.

Lemma lxor_swap a b c d : Z.lxor (Z.lxor a b) (Z.lxor c d) = Z.lxor (Z.lxor a c) (Z.lxor b d).
Proof. rewrite !Z.lxor_assoc. f_equal. rewrite <- !Z.lxor_assoc. f_equal. apply Z.lxor_comm. Qed.
Lemma mix_lxor gens : ∀ a b i, mix (Z.lxor a b) i gens = Z.lxor (mix a i gens) (mix b i gens).
Proof.
  induction gens as [|g gens IH]; intros a b i; simpl; [done|]. rewrite IH, Z.lxor_spec, lxor_swap. f_equal.
  destruct (Z.testbit a i), (Z.testbit b i); simpl; by rewrite ?Z.lxor_nilpotent, ?Z.lxor_0_r, ?Z.lxor_0_l.
Qed.
Lemma land_lxor_distr a b m : Z.land (Z.lxor a b) m = Z.lxor (Z.land a m) (Z.land b m).
Proof. apply Z.bits_inj'. intros n Hn. rewrite Z.land_spec, !Z.lxor_spec, !Z.land_spec. by destruct (Z.testbit a n), (Z.testbit b n), (Z.testbit m n). Qed.
Lemma turn_lxor a b : turn (Z.lxor a b) = Z.lxor (turn a) (turn b).
Proof. unfold turn. by rewrite Z.shiftr_lxor, mix_lxor, land_lxor_distr, Z.shiftl_lxor, lxor_swap. Qed.

Lemma lxor_below n a b : 0 ≤ n → 0 ≤ a < 2 ^ n → 0 ≤ b < 2 ^ n → 0 ≤ Z.lxor a b < 2 ^ n.
Proof.
  intros Hn Ha Hb. assert (0 ≤ Z.lxor a b) as Hpos by (apply Z.lxor_nonneg; lia). split; [done|].
  replace (Z.lxor a b) with (Z.lxor a b mod 2 ^ n); [apply Z.mod_pos_bound, Z.pow_pos_nonneg; lia|].
  rewrite <- Z.land_ones, land_lxor_distr, !Z.land_ones by lia. by rewrite !Z.mod_small by lia.
Qed.
Lemma mix_below gens : Forall (λ g, 0 ≤ g < 2 ^ 40) gens → ∀ t i, 0 ≤ mix t i gens < 2 ^ 40.
Proof. induction 1 as [|g gens Hg Hgens IH]; intros t i; cbn [mix]; [lia|]. apply lxor_below; [lia| |done]. destruct (Z.testbit t i); lia. Qed.
Lemma mix_range t : 0 ≤ mix t 0 generator < 2 ^ 40.
Proof. apply mix_below. unfold generator. repeat constructor; lia. Qed.
Lemma turn_range c : 0 ≤ turn c < 2 ^ 40.
Proof.
  unfold turn. apply lxor_below; [lia| |apply mix_range]. change 0x07ffffffff with (Z.ones 35). rewrite Z.land_ones, Z.shiftl_mul_pow2 by lia.
  pose proof (Z.mod_pos_bound c (2 ^ 35) ltac:(lia)). lia.
Qed.
Lemma step_range c v : 0 ≤ v < 32 → 0 ≤ polyModStep c v < 2 ^ 40.
Proof. intros Hv. rewrite polyModStep_turn. apply lxor_below; [lia|apply turn_range|lia]. Qed.

(** Below 35 bits a round is a shift. *)
Lemma turn_small x : 0 ≤ x < 2 ^ 35 → turn x = Z.shiftl x 5.
Proof.
  intros Hx. unfold turn. change 0x07ffffffff with (Z.ones 35). rewrite Z.land_ones, Z.mod_small by lia. rewrite (Z.shiftr_div_pow2 x), Z.div_small by lia. apply Z.lxor_0_r.
Qed.

(** The generators carry their bits in their five lowest bits, so a round loses nothing. *)
Lemma mix_low : forallb (λ t, Z.land (mix t 0 generator) 31 =? t) (map Z.of_nat (seq 0 32)) = true.
Proof. vm_compute. reflexivity. Qed.
Lemma turn_zero c : 0 ≤ c < 2 ^ 40 → turn c = 0 → c = 0.
Proof.
  intros Hc Ht. unfold turn in Ht. apply Z.lxor_eq in Ht. change 0x07ffffffff with (Z.ones 35) in Ht. rewrite Z.land_ones in Ht by lia.
  assert (0 ≤ Z.shiftr c 35 < 2 ^ 5) as Htop by (apply shiftr_range; [lia..|done]).
  pose proof (proj1 (forallb_forall _ _) mix_low (Z.shiftr c 35)) as Hlow. cbv beta in Hlow. rewrite <- Ht in Hlow. specialize (Hlow ltac:(apply in_map_iff; exists (Z.to_nat (Z.shiftr c 35)); split; [lia|]; apply in_seq; lia)).
  apply Z.eqb_eq in Hlow. change 31 with (Z.ones 5) in Hlow. rewrite Z.land_ones, Z.shiftl_mul_pow2, Z.mod_mul in Hlow by lia.
  rewrite <- Hlow in Ht. change (mix 0 0 generator) with 0 in Ht. rewrite Z.shiftl_mul_pow2 in Ht by lia.
  rewrite Z.shiftr_div_pow2 in Hlow by lia. pose proof (Z.div_mod c (2 ^ 35) ltac:(lia)). lia.
Qed.

(** *** Runs of rounds *)
Definition run (c : Z) (values : list Z) : Z := fold_left polyModStep values c.
Definition uint5s (l : list Z) : Prop := ∀ x, x ∈ l → 0 ≤ x < 32.

Lemma run_app c l1 l2 : run c (l1 ++ l2) = run (run c l1) l2.
Proof. apply fold_left_app. Qed.
Lemma run_range c l : 0 ≤ c < 2 ^ 40 → uint5s l → 0 ≤ run c l < 2 ^ 40.
Proof.
  revert c. induction l as [|v l IH]; intros c Hc Hl; [done|]. apply IH; [apply step_range, Hl; by left|]. intros x Hx. apply Hl. by right.
Qed.
Lemma run_lxor l : ∀ a x, run (Z.lxor a x) l = Z.lxor (run a l) (Nat.iter (length l) turn x).
Proof.
  induction l as [|v l IH]; intros a x; [done|]. unfold run in *. cbn [fold_left length]. rewrite Nat.iter_succ_r, <- IH. f_equal.
  rewrite !polyModStep_turn, turn_lxor, !Z.lxor_assoc. f_equal. apply Z.lxor_comm.
Qed.
Lemma iter_turn_lxor k a b : Nat.iter k turn (Z.lxor a b) = Z.lxor (Nat.iter k turn a) (Nat.iter k turn b).
Proof. induction k as [|k IH]; [done|]. by rewrite !Nat.iter_succ, IH, turn_lxor. Qed.
Lemma turns_zero k x : 0 ≤ x < 2 ^ 40 → Nat.iter k turn x = 0 → x = 0.
Proof.
  intros Hx. induction k as [|k IH]; [done|]. rewrite Nat.iter_succ. intros Ht. apply IH, turn_zero; [|done]. clear IH Ht. destruct k; [done|]. rewrite Nat.iter_succ. apply turn_range.
Qed.

(** The number that some digits of five bits make after [x] *)
Definition digits (x : Z) (l : list Z) : Z := fold_left (λ v d, Z.lxor (Z.shiftl v 5) d) l x.

(** Up to eight values are added to the run of as many zeroes. *)
Lemma run_digits l : ∀ c x (j : nat), uint5s l → 0 ≤ x < 2 ^ (5 * Z.of_nat j) → (j + length l ≤ 8)%nat →
  run (Z.lxor c x) l = Z.lxor (run c (replicate (length l) 0)) (digits x l) ∧ 0 ≤ digits x l < 2 ^ (5 * Z.of_nat (j + length l)).
Proof.
  induction l as [|v l IH]; intros c x j Hl Hx Hj; simpl in *; [by rewrite Nat.add_0_r|].
  pose proof (Hl v ltac:(by left)) as Hv. assert (2 ^ (5 * Z.of_nat j) ≤ 2 ^ 35) as H35 by (apply Z.pow_le_mono_r; lia).
  assert (0 ≤ Z.lxor (Z.shiftl x 5) v < 2 ^ (5 * Z.of_nat (S j))) as Hx'.
  { assert (2 ^ (5 * Z.of_nat (S j)) = 2 ^ (5 * Z.of_nat j) * 32) as E by (replace (5 * Z.of_nat (S j)) with (5 * Z.of_nat j + 5) by lia; by rewrite Z.pow_add_r by lia).
    apply lxor_below; [lia| |nia]. rewrite Z.shiftl_mul_pow2 by lia. lia. }
  destruct (IH (polyModStep c 0) _ (S j) ltac:(intros y Hy; apply Hl; by right) Hx' ltac:(lia)) as [Hrun Hdig].
  rewrite Nat.add_succ_r. split; [|done]. unfold run in *. cbn [fold_left]. rewrite <- Hrun. f_equal. rewrite !polyModStep_turn, turn_lxor, (turn_small x), Z.lxor_0_r by lia. apply Z.lxor_assoc.
Qed.

(** Eight digits of a number below [2 ^ 40] *)
Lemma digit_step R k : 0 ≤ R → 0 ≤ k → Z.lxor (Z.shiftl (Z.shiftr R (k + 5)) 5) (Z.land (Z.shiftr R k) 31) = Z.shiftr R k.
Proof.
  intros HR Hk. change 31 with (Z.ones 5). rewrite <- Z.shiftr_shiftr by lia. set (x := Z.shiftr R k). apply Z.bits_inj'. intros n Hn.
  rewrite Z.lxor_spec, Z.land_spec, Z.shiftl_spec by lia. destruct (Z.ltb_spec n 5) as [Hlt|Hge].
  - rewrite Z.ones_spec_low, Z.testbit_neg_r by lia. by rewrite andb_true_r, xorb_false_l.
  - rewrite Z.ones_spec_high, Z.shiftr_spec by lia. rewrite andb_false_r, xorb_false_r. f_equal. lia.
Qed.
Definition checksum_digits (R : Z) : bytes := map (λ i, GoInt.uint8 (Z.land (Z.shiftr R (5 * (checksumLength - 1 - Z.of_nat i))) 31)) (seq 0 (Z.to_nat checksumLength)).
Lemma land_31 x : 0 ≤ Z.land x 31 < 32.
Proof. change 31 with (Z.ones 5). rewrite Z.land_ones by lia. apply Z.mod_pos_bound. lia. Qed.
Lemma checksum_digits_uint5 R : uint5s (checksum_digits R).
Proof. intros x Hx. unfold checksum_digits in Hx. apply list_elem_of_fmap in Hx as (i & -> & _). rewrite GoInt.uint8_id; pose proof (land_31 (Z.shiftr R (5 * (checksumLength - 1 - Z.of_nat i)))); lia. Qed.
Lemma digits_down R m : 0 ≤ R → digits (Z.shiftr R (5 * Z.of_nat m)) (map (λ k, GoInt.uint8 (Z.land (Z.shiftr R (5 * Z.of_nat k)) 31)) (rev (seq 0 m))) = R.
Proof.
  intros HR. induction m as [|m IH]; [by rewrite Z.shiftr_0_r|]. rewrite seq_S, rev_app_distr. cbn [rev app map Nat.add]. unfold digits in *. cbn [fold_left].
  pose proof (land_31 (Z.shiftr R (5 * Z.of_nat m))). rewrite GoInt.uint8_id by lia. replace (5 * Z.of_nat (S m)) with (5 * Z.of_nat m + 5) by lia. by rewrite digit_step by lia.
Qed.
Lemma checksum_digits_value R : 0 ≤ R < 2 ^ 40 → digits 0 (checksum_digits R) = R.
Proof.
  intros HR. pose proof (digits_down R 8 ltac:(lia)) as Hd. replace (Z.shiftr R (5 * Z.of_nat 8)) with 0 in Hd; [exact Hd|].
  rewrite Z.shiftr_div_pow2 by lia. symmetry. by apply Z.div_small.
Qed.

Lemma prefix_uint5 prefix : uint5s (prefixToUint5Array prefix).
Proof. intros x Hx. apply list_elem_of_fmap in Hx as (c & -> & _). apply land_31. Qed.
Lemma uint5s_app l1 l2 : uint5s l1 → uint5s l2 → uint5s (l1 ++ l2).
Proof. intros H1 H2 x [Hx|Hx]%elem_of_app; auto. Qed.
Lemma uint5s_zeros n : uint5s (replicate n 0).
Proof. intros x [-> _]%elem_of_replicate. lia. Qed.
Lemma uint5s_header prefix payload : uint5s payload → uint5s (prefixToUint5Array prefix ++ [0] ++ payload).
Proof. intros Hp. apply uint5s_app; [apply prefix_uint5|]. apply uint5s_app; [apply (uint5s_zeros 1)|done]. Qed.

(** The checksum of a payload completes it to one that verifies. *)
Lemma checksum_verifies prefix payload : uint5s payload → verifyChecksum prefix (payload ++ calculateChecksum prefix payload) = true.
Proof.
  intros Hp. unfold verifyChecksum, calculateChecksum, polyMod. set (front := prefixToUint5Array prefix ++ [0] ++ payload).
  assert (prefixToUint5Array prefix ++ [0] ++ payload ++ replicate 8 0 = front ++ replicate 8 0) as -> by (unfold front; by rewrite <- !(assoc_L (++))).
  fold (run 1 (front ++ replicate 8 0)). set (R := Z.lxor (run 1 (front ++ replicate 8 0)) 1). fold (checksum_digits R).
  assert (prefixToUint5Array prefix ++ [0] ++ payload ++ checksum_digits R = front ++ checksum_digits R) as -> by (unfold front; by rewrite <- !(assoc_L (++))).
  fold (run 1 (front ++ checksum_digits R)). assert (uint5s front) as Hfront by by apply uint5s_header.
  assert (0 ≤ R < 2 ^ 40) as HR by (apply lxor_below; [lia| |lia]; apply run_range; [lia|]; apply uint5s_app; [done|apply uint5s_zeros]).
  destruct (run_digits (checksum_digits R) (run 1 front) 0 0 (checksum_digits_uint5 R) ltac:(lia) ltac:(done)) as [Hrun _].
  rewrite Z.lxor_0_r in Hrun. rewrite run_app, Hrun, (checksum_digits_value R HR). change (length (checksum_digits R)) with 8%nat. rewrite <- run_app.
  apply Z.eqb_eq. unfold R. rewrite <- (Z.lxor_assoc _ _ 1), Z.lxor_nilpotent, Z.lxor_0_l. apply Z.lxor_nilpotent.
Qed.

(** **** Errors in a row *)
Lemma digits_inj l1 : ∀ l2 x1 x2, length l1 = length l2 → uint5s l1 → uint5s l2 → digits x1 l1 = digits x2 l2 → x1 = x2 ∧ l1 = l2.
Proof.
  induction l1 as [|d1 l1 IH]; intros [|d2 l2] x1 x2 Hlen H1 H2 Hd; try done. unfold digits in *. cbn [fold_left] in Hd.
  destruct (IH l2 _ _ ltac:(simpl in Hlen; lia) ltac:(intros x Hx; apply H1; by right) ltac:(intros x Hx; apply H2; by right) Hd) as [E ->].
  pose proof (H1 d1 ltac:(by left)) as Hd1. pose proof (H2 d2 ltac:(by left)) as Hd2.
  assert (∀ x d, 0 ≤ d < 32 → Z.lxor (Z.shiftl x 5) d = x * 32 + d) as Hval.
  { intros x d Hrange. rewrite <- Z.add_nocarry_lxor; [by rewrite Z.shiftl_mul_pow2 by lia|]. apply Z.bits_inj'. intros n Hn. rewrite Z.land_spec, Z.bits_0.
    destruct (Z.ltb_spec n 5); [rewrite Z.shiftl_spec_low by lia; done|]. rewrite <- (Z.mod_small d (2 ^ 5)), Z.mod_pow2_bits_high by lia. apply andb_false_r. }
  rewrite !Hval in E by lia. split; [lia|]. f_equal. lia.
Qed.

(** Two payloads that differ in up to eight places in a row do not verify both. *)
Lemma row_of_errors prefix l1 e1 e2 l2 : length e1 = length e2 → (length e1 ≤ 8)%nat → uint5s e1 → uint5s e2 → uint5s l1 → uint5s l2 →
  verifyChecksum prefix (l1 ++ e1 ++ l2) = true → verifyChecksum prefix (l1 ++ e2 ++ l2) = true → e1 = e2.
Proof.
  intros Hlen H8 He1 He2 Hl1 Hl2 Hv1 Hv2. unfold verifyChecksum, polyMod in Hv1, Hv2. apply Z.eqb_eq, Z.lxor_eq in Hv1, Hv2.
  set (front := prefixToUint5Array prefix ++ [0] ++ l1) in *.
  assert (∀ e, fold_left polyModStep (prefixToUint5Array prefix ++ [0] ++ l1 ++ e ++ l2) 1 = run (run (run 1 front) e) l2) as Hsplit by (intros e; unfold front; by rewrite <- !run_app, <- !(assoc_L (++))).
  rewrite Hsplit in Hv1, Hv2. destruct (run_digits e1 (run 1 front) 0 0 He1 ltac:(lia) ltac:(lia)) as [Hr1 Hd1]. destruct (run_digits e2 (run 1 front) 0 0 He2 ltac:(lia) ltac:(lia)) as [Hr2 Hd2].
  rewrite Z.lxor_0_r in Hr1, Hr2. rewrite Hr1, run_lxor in Hv1. rewrite Hr2, <- Hlen, run_lxor in Hv2. pose proof (eq_trans Hv1 (eq_sym Hv2)) as E.
  apply (f_equal (Z.lxor (run (run (run 1 front) (replicate (length e1) 0)) l2))) in E. rewrite <- !Z.lxor_assoc, Z.lxor_nilpotent, !Z.lxor_0_l in E.
  assert (2 ^ (5 * Z.of_nat (0 + length e1)) ≤ 2 ^ 40) as Hle by (apply Z.pow_le_mono_r; lia). rewrite <- Hlen in Hd2.
  assert (Z.lxor (digits 0 e1) (digits 0 e2) = 0) as Hx.
  { apply (turns_zero (length l2)); [apply lxor_below; lia|]. rewrite iter_turn_lxor, E. apply Z.lxor_nilpotent. }
  by apply Z.lxor_eq, digits_inj in Hx as [_ ?].
Qed.

(** *** Characters *)

(** What a character of an encoded string is *)
Definition plain (c : Z) : Prop := 33 ≤ c ≤ 126 ∧ toLower c = c.

Lemma charset_ok : forallb (λ i, bool_decide (list_find (λ c, c = charset !!! i) charset = Some (i, charset !!! i)) && bool_decide (plain (charset !!! i)) && negb (charset !!! i =? colon)) (seq 0 32) = true.
Proof. vm_compute. reflexivity. Qed.
Lemma charset_at b : 0 ≤ b < 32 → let c := charset !!! Z.to_nat b in list_find (λ c', c' = c) charset = Some (Z.to_nat b, c) ∧ plain c ∧ c ≠ colon.
Proof.
  intros Hb c. pose proof (proj1 (forallb_forall _ _) charset_ok (Z.to_nat b) ltac:(apply in_seq; lia)) as Hok. cbv beta in Hok. rewrite !andb_true_iff, negb_true_iff in Hok. destruct Hok as [[Hf Hp] Hc].
  apply bool_decide_eq_true in Hf, Hp. by apply Z.eqb_neq in Hc.
Qed.
Definition chars (l : list Z) : bytes := map (λ b, charset !!! Z.to_nat b) l.
Lemma encodeToBase32_map l : uint5s l → encodeToBase32 l = chars l.
Proof. intros Hl. unfold encodeToBase32. rewrite (proj2 (forallb_forall _ _)); [done|]. intros x Hx%list_elem_of_In. apply Z.ltb_lt. change (zlen charset) with 32. by apply Hl. Qed.
Lemma decodeFromBase32_map l : uint5s l → decodeFromBase32 (chars l) = Ret l.
Proof.
  induction l as [|b l IH]; intros Hl; [done|]. pose proof (Hl b ltac:(by left)) as Hb. destruct (charset_at b Hb) as (Hf & _ & _). unfold chars in *. cbn [map decodeFromBase32]. rewrite Hf.
  rewrite IH by (intros x Hx; apply Hl; by right). cbn [obind]. by rewrite Z2Nat.id, GoInt.uint8_id by lia.
Qed.
Lemma encoded_plain l c : uint5s l → c ∈ chars l → plain c ∧ c ≠ colon.
Proof. unfold chars. intros Hl (b & -> & Hb)%list_elem_of_fmap. by destruct (charset_at b (Hl b Hb)) as (_ & ? & ?). Qed.

Lemma lastIndexFrom_none s : ∀ i last, colon ∉ s → lastIndexFrom i last s colon = last.
Proof. induction s as [|c s IH]; intros i last Hs; [done|]. cbn [lastIndexFrom]. rewrite (proj2 (Z.eqb_neq c colon)) by set_solver. apply IH. set_solver. Qed.
Lemma lastIndexFrom_at s1 s2 : ∀ i last, colon ∉ s2 → lastIndexFrom i last (s1 ++ [colon] ++ s2) colon = i + zlen s1.
Proof.
  induction s1 as [|c s1 IH]; intros i last Hs; cbn [app lastIndexFrom].
  - rewrite Z.eqb_refl, lastIndexFrom_none by done. unfold zlen. simpl. lia.
  - rewrite (IH (i + 1) _ Hs). unfold zlen. simpl. lia.
Qed.

Lemma decodeFromBase32_inv s : ∀ l, decodeFromBase32 s = Ret l → uint5s l ∧ s = chars l.
Proof.
  induction s as [|c s IH]; intros l Hl; cbn [decodeFromBase32] in Hl.
  - injection Hl as <-. split; [|done]. by intros x ?%elem_of_nil.
  - destruct (list_find _ charset) as [[i c']|] eqn:Hf; [|done]. apply list_find_Some in Hf as (Hi & -> & _). pose proof (lookup_lt_Some _ _ _ Hi) as Hlt. change (length charset) with 32%nat in Hlt.
    destruct (decodeFromBase32 s) as [l'| |] eqn:Hs; try done. cbn [obind] in Hl. injection Hl as <-. destruct (IH _ eq_refl) as [Hl' ->]. rewrite GoInt.uint8_id by lia. split.
    + intros x [->|Hx]%elem_of_cons; [lia|by apply Hl'].
    + unfold chars. cbn [map]. f_equal. rewrite Nat2Z.id. symmetry. by apply list_lookup_total_correct.
Qed.
Lemma toLower_colon c : toLower c = colon ↔ c = colon.
Proof. unfold toLower, colon. destruct (Z.leb_spec 65 c), (Z.leb_spec c 90); simpl; lia. Qed.
Lemma colon_lower s : colon ∉ s → colon ∉ map toLower s.
Proof. intros Hs (c & E & Hc)%list_elem_of_fmap. symmetry in E. apply toLower_colon in E as ->. done. Qed.

(** *** Strings *)

Lemma slice_front {E A} (m k : list A) j : j = zlen m → @slice E A (m ++ k) 0 j = Ret m.
Proof. intros ->. by apply (slice_app [] m k). Qed.
Lemma slice_back {E A} (l m : list A) i j : i = zlen l → j = zlen l + zlen m → @slice E A (l ++ m) i j = Ret m.
Proof. intros Hi Hj. rewrite <- (app_nil_r m) at 1. by apply slice_app. Qed.

(** The guards of [decode] that do not look at the payload *)
Lemma decode_split prefix data : (1 ≤ length prefix)%nat → (8 ≤ length data)%nat → colon ∉ data →
  decode (prefix ++ [colon] ++ data) =
    let s := prefix ++ [colon] ++ data in
    if existsb (λ c, (c <? 33) || (126 <? c)) s then Fail ErrInvalidCharacter
    else if negb (bool_decide (s = map toLower s)) && negb (bool_decide (s = map toUpper s)) then Fail ErrMixedCase
    else
      let? decoded := decodeFromBase32 (map toLower data) in
      if verifyChecksum (map toLower prefix) decoded
      then let? payload := slice decoded 0 (zlen decoded - checksumLength) in Ret (map toLower prefix, payload) else Fail ErrChecksum.
Proof.
  intros Hp Hd Hc. unfold decode. cbv zeta. rewrite (proj2 (Z.ltb_ge _ _)) by (unfold zlen, checksumLength; rewrite !length_app; simpl; lia).
  destruct (existsb _ _); [done|]. destruct (_ && _); [done|]. rewrite !map_app. change (map toLower [colon]) with [colon].
  assert (LastIndexByte (map toLower prefix ++ [colon] ++ map toLower data) colon = zlen (map toLower prefix)) as -> by (apply (lastIndexFrom_at (map toLower prefix)); by apply colon_lower).
  rewrite orb_false_intro by (apply Z.ltb_ge; unfold zlen, checksumLength; rewrite ?length_app, ?length_map; simpl; rewrite ?length_map; lia).
  rewrite slice_front by done. cbn [obind].
  assert (slice (map toLower prefix ++ [colon] ++ map toLower data) (zlen (map toLower prefix) + 1) (zlen (map toLower prefix ++ [colon] ++ map toLower data)) = @Ret addressError _ (map toLower data)) as ->.
  { rewrite (assoc_L (++)). apply slice_back; rewrite !zlen_app; unfold zlen; simpl; lia. }
  cbn [obind]. destruct (decodeFromBase32 _); try done. cbn [obind]. by destruct (verifyChecksum _ _).
Qed.
Lemma decode_encode prefix l : (1 ≤ length prefix)%nat → (∀ c, c ∈ prefix → plain c) → uint5s l → decode (encode prefix l) = Ret (prefix, l).
Proof.
  intros Hp Hplain Hl. unfold encode. assert (uint5s (l ++ calculateChecksum prefix l)) as Hall by (apply uint5s_app; [done|]; apply checksum_digits_uint5).
  rewrite encodeToBase32_map by done. set (data := chars _). assert (∀ c, c ∈ data → plain c ∧ c ≠ colon) as Hdata by (intros c Hc; by apply (encoded_plain _ c Hall)).
  assert (∀ c, c ∈ prefix ++ [colon] ++ data → plain c) as Hs by (intros c [Hc|[->%list_elem_of_singleton|Hc]%elem_of_app]%elem_of_app; [by apply Hplain|split; done|by apply Hdata]).
  assert (∀ s, (∀ c, c ∈ s → plain c) → map toLower s = s) as Hlow.
  { intros s Hc. rewrite <- (map_id s) at 2. apply map_ext_in. intros c Hin%list_elem_of_In. by apply Hc. }
  rewrite decode_split; [|done|unfold data, chars; rewrite length_map, length_app; simpl; lia|intros Hc; by apply Hdata in Hc as [_ ?]]. cbv zeta.
  rewrite (Hlow _ Hs), (Hlow prefix), (Hlow data) by (done || intros c Hc; by apply Hdata). rewrite (bool_decide_eq_true_2 (_ = _)) by done.
  destruct (existsb _ _) eqn:He; [apply existsb_exists in He as (c & Hc%list_elem_of_In & Hbad); apply Hs in Hc as [Hc _]; exfalso; apply orb_true_iff in Hbad as [Hbad|Hbad]; apply Z.ltb_lt in Hbad; lia|].
  cbn [negb andb]. unfold data. rewrite decodeFromBase32_map by done. cbn [obind]. rewrite checksum_verifies by done.
  rewrite slice_front; [done|]. rewrite zlen_app. unfold zlen, checksumLength. simpl. lia.
Qed.

Lemma Decode_Encode prefix payload version : (1 ≤ length prefix)%nat → (∀ c, c ∈ prefix → plain c) → are_bytes (version :: payload) →
  ∃ s, Encode prefix payload version = Ret s ∧ Decode s = Ret (prefix, payload, version).
Proof.
  intros Hp Hplain Hbytes. destruct (to_five _ Hbytes) as (l & k & Hl & Hrange & Hbits & Hk). exists (encode prefix l). unfold Encode, Decode. rewrite Hl. cbn [obind]. split; [done|].
  rewrite decode_encode by done. cbn [obind]. rewrite (to_eight l (version :: payload) k) by done. cbn [obind].
  rewrite (index_middle [] payload version) by done. cbn [obind]. rewrite (slice_back [version] payload) by (rewrite ?zlen_cons; unfold zlen; simpl; lia). done.
Qed.

(** What an accepted string holds *)
Lemma decode_reads prefix data r : (1 ≤ length prefix)%nat → (8 ≤ length data)%nat → colon ∉ data → decode (prefix ++ [colon] ++ data) = Ret r →
  ∃ l, uint5s l ∧ map toLower data = chars l ∧ verifyChecksum (map toLower prefix) l = true.
Proof.
  intros Hp Hd Hc Hr. rewrite decode_split in Hr by done. cbv zeta in Hr. destruct (existsb _ _); [done|]. destruct (negb _ && negb _); [done|].
  destruct (decodeFromBase32 _) as [l| |] eqn:Hl; try done. cbn [obind] in Hr. destruct (verifyChecksum _ _) eqn:Hv; [|done].
  apply decodeFromBase32_inv in Hl as [Hl E]. by exists l.
Qed.
Lemma chars_inj k l : uint5s k → uint5s l → chars k = chars l → k = l.
Proof. intros Hk Hl E. apply (f_equal decodeFromBase32) in E. rewrite !decodeFromBase32_map in E by done. by injection E. Qed.
Lemma chars_split3 l s1 s2 s3 : uint5s l → s1 ++ s2 ++ s3 = chars l → ∃ l1 l2 l3, l = l1 ++ l2 ++ l3 ∧ uint5s l1 ∧ uint5s l2 ∧ uint5s l3 ∧ s1 = chars l1 ∧ s2 = chars l2 ∧ s3 = chars l3.
Proof.
  intros Hl E. symmetry in E. apply map_eq_app in E as (l1 & l' & -> & E1 & E'). apply map_eq_app in E' as (l2 & l3 & -> & E2 & E3).
  exists l1, l2, l3. split_and!; try done; intros x Hx; apply Hl; set_solver.
Qed.

(** Strings that differ in up to eight characters in a row behind the colon are not both accepted. *)
Lemma decode_row prefix d1 e1 e2 d2 r1 r2 : (1 ≤ length prefix)%nat → (8 ≤ length (d1 ++ e1 ++ d2))%nat → length e1 = length e2 → (length e1 ≤ 8)%nat →
  colon ∉ d1 ++ e1 ++ e2 ++ d2 → decode (prefix ++ [colon] ++ d1 ++ e1 ++ d2) = Ret r1 → decode (prefix ++ [colon] ++ d1 ++ e2 ++ d2) = Ret r2 → map toLower e1 = map toLower e2.
Proof.
  intros Hp Hd Hlen H8 Hc Hr1 Hr2. rewrite !length_app in Hd. apply decode_reads in Hr1 as (l & Hl & E & Hv); [|done|rewrite !length_app; lia|set_solver].
  apply decode_reads in Hr2 as (k & Hk & F & Hw); [|done|rewrite !length_app; lia|set_solver]. rewrite !map_app in E, F.
  apply chars_split3 in E as (a1 & a & a2 & -> & Ha1 & Ha & Ha2 & E1 & E2 & E3); [|done]. apply chars_split3 in F as (b1 & b & b2 & -> & Hb1 & Hb & Hb2 & F1 & F2 & F3); [|done].
  rewrite (chars_inj b1 a1), (chars_inj b2 a2) in Hw by (done || congruence). rewrite E2, F2. f_equal.
  apply (f_equal length) in E2, F2. unfold chars in E2, F2. rewrite !length_map in E2, F2. apply (row_of_errors (map toLower prefix) a1 a b a2); try done; lia.
Qed.
