(* ===== verification/StandardScripts.v ===== *)
(** * The script builder and the standard scripts (scriptbuilder.go, standard.go)

    A builder is a script and the first error; its operations do nothing after an error.  The standard scripts pay to a public key,
    to an ECDSA public key or to the hash of a script, and correspond to the three kinds of addresses.  A push that is built is one
    opcode that the parser gives back and that the engine executes by pushing the data. *)
From S2P Require Import Prelude Externalapi ScriptNum ScriptStack OpcodeTable Script Hashing SigCache Opcode Engine Bech32.
Import Op ScriptNum Stack Script SigHash SigCache Opcode Exec Bech32 Addresses.
Local Open Scope Z_scope.
Local Open Scope prog_scope.

(** The messages of [ErrScriptNotCanonical]: which operation would exceed which limit *)
Inductive ErrScriptNotCanonical :=
  | OpcodeExceedsScript
  | OpcodesExceedScript
  | DataExceedsScript
  | DataExceedsElement
  | IntegerExceedsScript.

(** The errors of the functions that build scripts: the builder's, and those of the package or of others *)
Inductive buildError :=
  | notCanonical (e : ErrScriptNotCanonical)
  | otherError (e : error).
Definition other {A} (m : fallible A) : outcome buildError A :=
  match m with Ret a => Ret a | Fail e => Fail (otherError e) | Crash c => Crash c end.

Module Builder.
Record ScriptBuilder := {
  sb_script : list Z;
  sb_err : option ErrScriptNotCanonical
}.

Definition NewScriptBuilder : ScriptBuilder := {| sb_script := []; sb_err := None |}.

Definition append (b : ScriptBuilder) (bs : list Z) : ScriptBuilder := {| sb_script := sb_script b ++ bs; sb_err := sb_err b |}.
Definition with_err (b : ScriptBuilder) (e : ErrScriptNotCanonical) : ScriptBuilder := {| sb_script := sb_script b; sb_err := Some e |}.

Definition AddOp (b : ScriptBuilder) (opcode : Z) : ScriptBuilder :=
  match sb_err b with
  | Some _ => b
  | None => if zlen (sb_script b) + 1 >? MaxScriptSize then with_err b OpcodeExceedsScript else append b [opcode]
  end.

Definition AddOps (b : ScriptBuilder) (opcodes : list Z) : ScriptBuilder :=
  match sb_err b with
  | Some _ => b
  | None => if zlen (sb_script b) + zlen opcodes >? MaxScriptSize then with_err b OpcodesExceedScript else append b opcodes
  end.

Definition canonicalDataSize (data : list Z) : Z :=
  let dataLen := zlen data in
  let d0 := default 0 (head data) in
  if dataLen =? 0 then 1
  else if (dataLen =? 1) && (d0 <=? 16) then 1
  else if (dataLen =? 1) && (d0 =? 0x81) then 1
  else if dataLen <? OpPushData1 then 1 + dataLen
  else if dataLen <=? 0xff then 2 + dataLen
  else if dataLen <=? 0xffff then 3 + dataLen
  else 5 + dataLen.

Definition addData (b : ScriptBuilder) (data : list Z) : ScriptBuilder :=
  let dataLen := zlen data in
  let d0 := default 0 (head data) in
  if (dataLen =? 0) || ((dataLen =? 1) && (d0 =? 0)) then append b [Op0]
  else if (dataLen =? 1) && (d0 <=? 16) then append b [GoInt.uint8 (Op1 - 1 + d0)]
  else if (dataLen =? 1) && (d0 =? 0x81) then append b [Op1Negate]
  else
    let b :=
      if dataLen <? OpPushData1 then append b [GoInt.uint8 (OpData1 - 1 + dataLen)]
      else if dataLen <=? 0xff then append b [OpPushData1; GoInt.uint8 dataLen]
      else if dataLen <=? 0xffff then append (append b [OpPushData2]) (LE.put 2 (GoInt.uint16 dataLen))
      else append (append b [OpPushData4]) (LE.put 4 (GoInt.uint32 dataLen)) in
    append b data.

Definition AddFullData (b : ScriptBuilder) (data : list Z) : ScriptBuilder :=
  match sb_err b with Some _ => b | None => addData b data end.

Definition AddData (b : ScriptBuilder) (data : list Z) : ScriptBuilder :=
  match sb_err b with
  | Some _ => b
  | None =>
      if zlen (sb_script b) + canonicalDataSize data >? MaxScriptSize then with_err b DataExceedsScript
      else if zlen data >? MaxScriptElementSize then with_err b DataExceedsElement
      else addData b data
  end.

Definition AddInt64 (b : ScriptBuilder) (val : Z) : fallible ScriptBuilder :=
  match sb_err b with
  | Some _ => Ret b
  | None =>
      if zlen (sb_script b) + 1 >? MaxScriptSize then Ret (with_err b IntegerExceedsScript)
      else if val =? 0 then Ret (append b [Op0])
      else if (val =? -1) || ((1 <=? val) && (val <=? 16)) then Ret (append b [GoInt.uint8 (Op1 - 1 + val)])
      else
        let? bs := Bytes val in
        Ret (AddData b bs)
  end.

(** [b.script[0:0]] keeps the array, so a script returned before is overwritten by what is added next. *)
Definition Reset (b : ScriptBuilder) : ScriptBuilder := {| sb_script := []; sb_err := None |}.

(** Both results; a caller that returns them hands on the error. *)
Definition builder_Script (b : ScriptBuilder) : list Z * option ErrScriptNotCanonical := (sb_script b, sb_err b).
Definition built (b : ScriptBuilder) : outcome buildError (list Z) :=
  match builder_Script b with (script, None) => Ret script | (_, Some e) => Fail (notCanonical e) end.
End Builder.
Import Builder.

Module Standard.
Inductive ScriptClass :=
  | NonStandardTy
  | PubKeyTy
  | PubKeyECDSATy
  | ScriptHashTy.
#[export] Instance ScriptClass_dec : EqDecision ScriptClass.
Proof. solve_decision. Defined.

Definition addressPublicKeyScriptPublicKeyVersion : Z := 0.
Definition addressPublicKeyECDSAScriptPublicKeyVersion : Z := 0.
Definition addressScriptHashScriptPublicKeyVersion : Z := 0.

(** A [ScriptClass] is a byte: [String] of any of them *)
Definition scriptClassToName : list string := ["nonstandard"; "pubkey"; "pubkeyecdsa"; "scripthash"]%string.
Definition ScriptClass_String (t : Z) : fallible string :=
  if (t >? zlen scriptClassToName) || (t <? 0) then Ret "Invalid"%string else index scriptClassToName t.

Definition isPayToPubkey (pops : list parsedOpcode) : bool :=
  match pops with [p0; p1] => (pop_value p0 =? OpData32) && (pop_value p1 =? OpCheckSig) | _ => false end.
Definition isPayToPubkeyECDSA (pops : list parsedOpcode) : bool :=
  match pops with [p0; p1] => (pop_value p0 =? OpData33) && (pop_value p1 =? OpCheckSigECDSA) | _ => false end.

Definition typeOfScript (pops : list parsedOpcode) : ScriptClass :=
  if isPayToPubkey pops then PubKeyTy
  else if isPayToPubkeyECDSA pops then PubKeyECDSATy
  else if isScriptHash pops then ScriptHashTy
  else NonStandardTy.

Definition GetScriptClass (script : list Z) : fallible ScriptClass :=
  match parseScriptE script with
  | Ret pops => Ret (typeOfScript pops)
  | Fail _ => Ret NonStandardTy
  | Crash c => Crash c
  end.

Definition expectedInputs (pops : list parsedOpcode) (class : ScriptClass) : Z :=
  match class with PubKeyTy => 1 | ScriptHashTy => 1 | _ => -1 end.

Record ScriptInfo := {
  ScriptPubKeyClass : ScriptClass;
  NumInputs : Z;
  ExpectedInputs : Z;
  SigOps : Z
}.

Definition CalcScriptInfo (sigScript scriptPubKey : list Z) (isP2SH : bool) : fallible ScriptInfo :=
  let? sigPops := parseScriptE sigScript in
  let? scriptPubKeyPops := parseScriptE scriptPubKey in
  let class := typeOfScript scriptPubKeyPops in
  if negb (isPushOnly sigPops) then Fail ErrNotPushOnly
  else
    let expected := expectedInputs scriptPubKeyPops class in
    if bool_decide (class = ScriptHashTy) && isP2SH then
      let? pop := index sigPops (zlen sigPops - 1) in
      let? shPops := parseScriptE (pop_data pop) in
      let shInputs := expectedInputs shPops (typeOfScript shPops) in
      Ret {| ScriptPubKeyClass := class; NumInputs := zlen sigPops;
             ExpectedInputs := if shInputs =? -1 then -1 else expected + shInputs; SigOps := getSigOpCount shPops true |}
    else
      Ret {| ScriptPubKeyClass := class; NumInputs := zlen sigPops; ExpectedInputs := expected; SigOps := getSigOpCount scriptPubKeyPops true |}.

(** ** Paying *)
Definition payToPubKeyScript (pubKey : list Z) : outcome buildError (list Z) := built (AddOp (AddData NewScriptBuilder pubKey) OpCheckSig).
Definition payToPubKeyScriptECDSA (pubKey : list Z) : outcome buildError (list Z) := built (AddOp (AddData NewScriptBuilder pubKey) OpCheckSigECDSA).
Definition payToScriptHashScript (scriptHash : list Z) : outcome buildError (list Z) :=
  built (AddOp (AddData (AddOp NewScriptBuilder OpBlake2b) scriptHash) OpEqual).

(** [None] is the nil interface or a nil pointer in it. *)
Definition PayToAddrScript (addr : option Address) : outcome buildError ScriptPublicKey :=
  match addr with
  | Some (AddressPublicKey _ _ as addr) =>
      let? script := payToPubKeyScript (ScriptAddress addr) in
      Ret {| spk_Script := script; spk_Version := addressPublicKeyScriptPublicKeyVersion |}
  | Some (AddressPublicKeyECDSA _ _ as addr) =>
      let? script := payToPubKeyScriptECDSA (ScriptAddress addr) in
      Ret {| spk_Script := script; spk_Version := addressPublicKeyECDSAScriptPublicKeyVersion |}
  | Some (AddressScriptHash _ _ as addr) =>
      let? script := payToScriptHashScript (ScriptAddress addr) in
      Ret {| spk_Script := script; spk_Version := addressScriptHashScriptPublicKeyVersion |}
  | None => Fail (otherError ErrUnsupportedAddress)
  end.

Definition PayToScriptHashScript `{Hashes} (redeemScript : list Z) : outcome buildError (list Z) :=
  let redeemScriptHash := blake2b_Sum256 redeemScript in
  built (AddOp (AddData (AddOp NewScriptBuilder OpBlake2b) redeemScriptHash) OpEqual).

Definition PayToScriptHashSignatureScript (redeemScript signature : list Z) : outcome buildError (list Z) :=
  let? redeemScriptAsData := built (AddData NewScriptBuilder redeemScript) in
  Ret (signature ++ redeemScriptAsData).

(** ** Reading *)

(** [pop.data != nil]: the parser leaves it nil for the opcodes of one byte only. *)
Definition has_data (pop : parsedOpcode) : bool := negb (pop_length pop =? 1).

(** [None] is a nil slice. *)
Definition PushedData (script : list Z) : fallible (list (option (list Z))) :=
  let? pops := parseScriptE script in
  Ret (omap (λ pop, if has_data pop then Some (Some (pop_data pop)) else if pop_value pop =? Op0 then Some None else None) pops).

(** The address, when a constructor accepts the data *)
Definition accepted (addr : outcome addressError Address) : fallible (option Address) :=
  match addr with Ret a => Ret (Some a) | Fail _ => Ret None | Crash c => Crash c end.

(** Every error comes with [NonStandardTy]. *)
Definition ExtractScriptPubKeyAddress (scriptPubKey : ScriptPublicKey) (prefix : Bech32Prefix) : fallible (ScriptClass * option Address) :=
  if spk_Version scriptPubKey >? MaxScriptPublicKeyVersion then Fail foreignError
  else
    let? pops := parseScriptE (spk_Script scriptPubKey) in
    let scriptClass := typeOfScript pops in
    match scriptClass with
    | PubKeyTy =>
        let? pop := index pops 0 in
        let? addr := accepted (NewAddressPublicKey (pop_data pop) prefix) in
        Ret (scriptClass, addr)
    | PubKeyECDSATy =>
        let? pop := index pops 0 in
        let? addr := accepted (NewAddressPublicKeyECDSA (pop_data pop) prefix) in
        Ret (scriptClass, addr)
    | ScriptHashTy =>
        let? pop := index pops 1 in
        let? addr := accepted (NewAddressScriptHashFromHash (pop_data pop) prefix) in
        Ret (scriptClass, addr)
    | NonStandardTy => Ret (NonStandardTy, None)
    end.

(** ** Atomic swaps *)
Record AtomicSwapDataPushes := {
  RecipientBlake2b : list Z;
  RefundBlake2b : list Z;
  SecretHash : list Z;
  SecretSize : Z;
  LockTime : Z
}.

(** [copy] to an array of 32 zeroes *)
Definition copy32 (data : list Z) : list Z := take 32 data ++ replicate (32 - length data) 0.

(** The tests of the twenty opcodes, the fixed ones and the two pushes *)
Definition swapTemplate : list (option Z) :=
  [Some OpIf; Some OpSize; None; Some OpEqualVerify; Some OpSHA256; Some OpData32; Some OpEqualVerify; Some OpDup; Some OpBlake2b; Some OpData32;
   Some OpElse; None; Some OpCheckLockTimeVerify; Some OpDrop; Some OpDup; Some OpBlake2b; Some OpData32; Some OpEndIf; Some OpEqualVerify; Some OpCheckSig].
Definition isAtomicSwap (pops : list parsedOpcode) : bool :=
  forallb (λ pt : parsedOpcode * option Z, match pt.2 with Some value => pop_value pt.1 =? value | None => canonicalPush pt.1 end) (zip pops swapTemplate).

(** The number that a push leaves, or [None] where the function returns [nil, nil] *)
Definition pushedNumber (pop : parsedOpcode) : fallible (option Z) :=
  if has_data pop then
    match makeScriptNum (pop_data pop) 5 with
    | Ret locktime => Ret (Some locktime)
    | Fail _ => Ret None
    | Crash c => Crash c
    end
  else if isSmallInt (pop_opcode pop) then Ret (Some (asSmallInt (pop_opcode pop)))
  else Ret None.

(** The version is not used. *)
Definition ExtractAtomicSwapDataPushes (version : Z) (scriptPubKey : list Z) : fallible (option AtomicSwapDataPushes) :=
  let? pops := parseScriptE scriptPubKey in
  if negb (zlen pops =? 20) then Ret None
  else if negb (isAtomicSwap pops) then Ret None
  else
    let? pop2 := index pops 2 in
    let? pop5 := index pops 5 in
    let? pop9 := index pops 9 in
    let? pop11 := index pops 11 in
    let? pop16 := index pops 16 in
    let? secretSize := pushedNumber pop2 in
    match secretSize with
    | None => Ret None
    | Some secretSize =>
        let? lockTime := pushedNumber pop11 in
        match lockTime with
        | None => Ret None
        | Some lockTime =>
            Ret (Some {| RecipientBlake2b := copy32 (pop_data pop9); RefundBlake2b := copy32 (pop_data pop16); SecretHash := copy32 (pop_data pop5);
                         SecretSize := secretSize; LockTime := GoInt.uint64 lockTime |})
        end
    end.
End Standard.
Import Standard.

(** ** Pushes *)
Definition entry_of (v : Z) : opcode := default {| opc_value := 0; opc_name := " "; opc_length := 0; opc_opfunc := None |} (opcodeArray !! Z.to_nat v).

(** The data that one opcode without data stands for: what the builder chooses for small data *)
Definition small_push (data : list Z) : option Z :=
  match data with
  | [] => Some Op0
  | [d] => if d =? 0 then Some Op0 else if d <=? 16 then Some (Op1 - 1 + d) else if d =? 0x81 then Some Op1Negate else None
  | _ => None
  end.
Definition push_opcode (n : Z) : Z :=
  if n <? OpPushData1 then n else if n <=? 0xff then OpPushData1 else if n <=? 0xffff then OpPushData2 else OpPushData4.
Definition push_pop (data : list Z) : parsedOpcode :=
  match small_push data with
  | Some v => {| pop_opcode := entry_of v; pop_data := [] |}
  | None => {| pop_opcode := entry_of (push_opcode (zlen data)); pop_data := data |}
  end.
(** What a push leaves on the stack: the data, but nothing for a zero byte *)
Definition pushed (data : list Z) : list Z := if bool_decide (data = [0]) then [] else data.

Definition is_push (h : option handler) : bool := match h with Some H_opcodePushData => true | _ => false end.
Lemma data_entries : forallb (λ v, match opcodeArray !! Z.to_nat v with Some o => (opc_value o =? v) && (opc_length o =? v + 1) && is_push (opc_opfunc o) | None => false end) (seqZ 1 75) = true.
Proof. vm_compute. reflexivity. Qed.
Lemma data_entry v : 1 ≤ v ≤ 75 → opc_value (entry_of v) = v ∧ opc_length (entry_of v) = v + 1 ∧ opc_opfunc (entry_of v) = Some H_opcodePushData ∧ opcodeArray !! Z.to_nat v = Some (entry_of v).
Proof.
  intros Hv. pose proof (proj1 (forallb_forall _ _) data_entries v ltac:(apply list_elem_of_In, elem_of_seqZ; lia)) as Hok. cbv beta in Hok. unfold entry_of.
  destruct (opcodeArray !! Z.to_nat v) as [o|]; [|done]. cbn [default from_option id]. rewrite !andb_true_iff, !Z.eqb_eq in Hok. destruct Hok as [[? ?] Hp]. split; [done|]. split; [done|]. split; [|done].
  revert Hp. destruct (opc_opfunc o) as [h|]; [|done]. by destruct h.
Qed.
Lemma small_push_byte data v : are_bytes data → small_push data = Some v → is_byte v.
Proof.
  intros Hb. destruct data as [|d [|]]; simpl; [intros [= <-]; by unfold is_byte, Op0| |done]. apply are_bytes_cons in Hb as [Hb _]. unfold is_byte, Op1, Op0, Op1Negate in *.
  repeat case_match; intros [= <-]; lia.
Qed.
Lemma push_opcode_entry n : 1 ≤ n → let v := push_opcode n in
  is_byte v ∧ v ≠ 0 ∧ v ≤ OpPushData4 ∧ opc_value (entry_of v) = v ∧ opc_opfunc (entry_of v) = Some H_opcodePushData ∧ opcodeArray !! Z.to_nat v = Some (entry_of v) ∧
  opc_length (entry_of v) = if n <? OpPushData1 then n + 1 else if n <=? 0xff then -1 else if n <=? 0xffff then -2 else -4.
Proof.
  intros Hn. unfold push_opcode, is_byte, OpPushData4, OpPushData1 in *. destruct (Z.ltb_spec n 76) as [Hlt|Hge].
  - destruct (data_entry n ltac:(lia)) as (-> & -> & -> & ->). split_and!; done || lia.
  - destruct (_ <=? 255); [|destruct (_ <=? 65535)]; split_and!; (done || reflexivity).
Qed.

(** The parsed form is well-formed, and the builder appends its encoding. *)
Lemma small_entries : forallb (λ v, match opcodeArray !! Z.to_nat v with Some o => (opc_value o =? v) && (opc_length o =? 1) | None => false end) (0 :: 79 :: seqZ 81 16) = true.
Proof. vm_compute. reflexivity. Qed.
Lemma small_entry v : (v = 0 ∨ 79 ≤ v ≤ 96) ∧ v ≠ 80 → opc_value (entry_of v) = v ∧ opc_length (entry_of v) = 1 ∧ opcodeArray !! Z.to_nat v = Some (entry_of v).
Proof.
  intros Hv. pose proof (proj1 (forallb_forall _ _) small_entries v) as Hok. cbv beta in Hok. unfold entry_of.
  destruct (opcodeArray !! Z.to_nat v) as [o|]; cbn [default from_option id].
  - rewrite andb_true_iff, !Z.eqb_eq in Hok. by destruct Hok; [apply list_elem_of_In; rewrite !elem_of_cons, elem_of_seqZ; lia|].
  - discriminate Hok. apply list_elem_of_In. rewrite !elem_of_cons, elem_of_seqZ. lia.
Qed.
Lemma small_push_range data v : are_bytes data → small_push data = Some v → (v = 0 ∨ 79 ≤ v ≤ 96) ∧ v ≠ 80.
Proof.
  intros Hb. destruct data as [|d [|]]; simpl; [intros [= <-]; unfold Op0; lia| |done]. apply are_bytes_cons in Hb as [Hb _]. unfold is_byte, Op1, Op0, Op1Negate in *.
  repeat case_match; intros [= <-]; lia.
Qed.
Lemma push_pop_ok data : are_bytes data → zlen data < 2 ^ 32 → pop_ok (push_pop data).
Proof.
  intros Hb Hlen. unfold push_pop, pop_ok. destruct (small_push data) as [v|] eqn:Hs; cbn [pop_opcode pop_data].
  - destruct (small_entry v (small_push_range _ _ Hb Hs)) as (-> & Hl & Ho). split; [by eapply small_push_byte|]. split; [done|]. by rewrite Hl.
  - assert (1 ≤ zlen data) as Hn by (destruct data; [done|]; zlia). destruct (push_opcode_entry _ Hn) as (Hv & _ & _ & -> & _ & Ho & ->). split; [done|]. split; [done|].
    unfold data_fits, OpPushData1. destruct (Z.ltb_spec (zlen data) 76).
    + rewrite (proj2 (Z.eqb_neq _ _)), (proj2 (Z.ltb_lt _ _)) by lia. lia.
    + destruct (Z.leb_spec (zlen data) 255); [change (zlen data < 256); lia|]. by destruct (Z.leb_spec (zlen data) 65535); [change (zlen data < 65536); lia|].
Qed.
(** The choice of the builder is [small_push], and its last part writes the encoding. *)
Definition addLong (b : ScriptBuilder) (data : list Z) : ScriptBuilder :=
  let dataLen := zlen data in
  append (if dataLen <? OpPushData1 then append b [GoInt.uint8 (OpData1 - 1 + dataLen)]
          else if dataLen <=? 0xff then append b [OpPushData1; GoInt.uint8 dataLen]
          else if dataLen <=? 0xffff then append (append b [OpPushData2]) (LE.put 2 (GoInt.uint16 dataLen))
          else append (append b [OpPushData4]) (LE.put 4 (GoInt.uint32 dataLen))) data.
Lemma addData_cases b data : are_bytes data → addData b data = match small_push data with Some v => append b [v] | None => addLong b data end.
Proof.
  intros Hb. unfold addData. cbv zeta. destruct data as [|d [|d2 data]]; [done| |].
  - cbn [small_push head default from_option id]. change (zlen [d]) with 1. cbn [Z.eqb orb andb Pos.eqb]. apply are_bytes_cons in Hb as [Hb _]. unfold is_byte in Hb. destruct (d =? 0) eqn:E0; [done|].
    destruct (Z.leb_spec d 16); [by rewrite GoInt.uint8_id by (unfold Op1; lia)|]. by destruct (d =? 129).
  - set (l := d :: d2 :: data) in *. change (small_push l) with (@None Z). assert (2 ≤ zlen l) as Hn by (unfold l; rewrite !zlen_cons; pose proof (zlen_nonneg data); lia).
    rewrite (proj2 (Z.eqb_neq (zlen l) 0)), (proj2 (Z.eqb_neq (zlen l) 1)) by lia. done.
Qed.
Lemma addLong_encoding b data : 1 ≤ zlen data < 2 ^ 32 → addLong b data =
  append b (encoding {| pop_opcode := entry_of (push_opcode (zlen data)); pop_data := data |}).
Proof.
  intros Hn. destruct (push_opcode_entry (zlen data) ltac:(lia)) as (_ & _ & _ & Hv & _ & _ & Hl). unfold encoding. cbn [pop_opcode pop_data]. rewrite Hv, Hl. clear Hv Hl.
  unfold addLong, append, push_opcode, OpPushData1, OpData1. cbn [sb_script sb_err]. cbv zeta. destruct (Z.ltb_spec (zlen data) 76).
  - rewrite GoInt.uint8_id by lia. unfold prefix_size. rewrite (proj2 (Z.eqb_neq _ _)), (proj2 (Z.eqb_neq _ (-2))), (proj2 (Z.eqb_neq _ (-4))) by lia.
    replace (1 - 1 + zlen data) with (zlen data) by lia. cbn [sb_script sb_err]. by rewrite <- (assoc_L (++)).
  - destruct (Z.leb_spec (zlen data) 255).
    { rewrite GoInt.uint8_id by lia. cbn [sb_script sb_err]. rewrite <- (assoc_L (++)). change (prefix_size (-1)) with 1%nat. simpl LE.put. by rewrite Z.mod_small by lia. }
    destruct (Z.leb_spec (zlen data) 65535); unfold GoInt.uint16, GoInt.uint32; rewrite GoInt.uwrap_id by (unfold GoInt.in_uint; lia); cbn [sb_script sb_err]; by rewrite <- !(assoc_L (++)).
Qed.
Lemma addData_encoding b data : are_bytes data → zlen data < 2 ^ 32 → addData b data = append b (encoding (push_pop data)).
Proof.
  intros Hb Hlen. rewrite addData_cases by done. unfold push_pop. destruct (small_push data) as [v|] eqn:Hs.
  - destruct (small_entry v (small_push_range _ _ Hb Hs)) as (Hv & Hl & _). unfold encoding. cbn [pop_opcode pop_data]. by rewrite Hv, Hl.
  - apply addLong_encoding. destruct data; [done|]. rewrite zlen_cons in *. pose proof (zlen_nonneg data). lia.
Qed.
Lemma canonicalDataSize_encoding data : are_bytes data → zlen data < 2 ^ 32 → canonicalDataSize data = zlen (encoding (push_pop data)).
Proof.
  intros Hb Hlen. pose proof (addData_encoding NewScriptBuilder data Hb Hlen) as E. apply (f_equal (λ b, zlen (sb_script b))) in E. simpl in E. rewrite <- E. clear E.
  unfold canonicalDataSize, addData. cbv zeta. set (d0 := default 0 (head data)). destruct (Z.eqb_spec (zlen data) 0) as [|Hne]; [done|]. cbn [orb].
  destruct (zlen data =? 1) eqn:E1; cbn [andb].
  - destruct (d0 <=? 16) eqn:E16; [by destruct (d0 =? 0)|]. assert (d0 =? 0 = false) as -> by (apply Z.eqb_neq; apply Z.leb_gt in E16; lia). destruct (d0 =? 129); [done|].
    apply Z.eqb_eq in E1. rewrite E1. cbn. rewrite zlen_cons, E1. done.
  - repeat case_match; unfold append; cbn [sb_script NewScriptBuilder]; rewrite ?zlen_app, ?zlen_cons; unfold zlen; simpl; lia.
Qed.

(** ** Execution of a push *)
Section Execute.
Context `{Libs}.

Lemma push_executes pop h vm : pop_value pop ≤ Op16 → zlen (pop_data pop) ≤ MaxScriptElementSize → vm_condStack vm = [] →
  (pop_value pop = 0 ∨ OpPushData4 < pop_value pop ∨ checkMinimalDataPush pop = Ret ()) → opc_opfunc (pop_opcode pop) = Some h →
  executeOpcode pop vm = run_handler h pop vm.
Proof using Type.
  intros Hv Hlen Hc Hmin Hh. unfold executeOpcode, isDisabled, alwaysIllegal.
  assert (∀ l, forallb (λ x, Op16 <? x) l = true → bool_decide (pop_value pop ∈ l) = false) as Hnot.
  { intros l Hall. apply bool_decide_false. intros Hin%list_elem_of_In. rewrite forallb_forall in Hall. apply Hall, Z.ltb_lt in Hin. lia. }
  rewrite !Hnot by done. rewrite Z.gtb_ltb, (proj2 (Z.ltb_ge _ _)) by lia. rewrite Z.gtb_ltb, (proj2 (Z.ltb_ge _ _)) by lia.
  rewrite (bind_ret_l (ret ()) _ _ _ _ eq_refl), (bind_ret_l (gets _) _ _ _ _ eq_refl). unfold isBranchExecuting. rewrite Hc. cbn [last negb andb].
  rewrite (bind_ret_l _ _ vm vm ()); [by rewrite Hh|]. destruct Hmin as [->|[Hgt|Hm]]; [done| |].
  - rewrite (proj2 (Z.leb_gt _ _)), andb_false_r by lia. done.
  - destruct (_ && _); [|done]. unfold lift_outcome. by rewrite Hm.
Qed.

Lemma on_dstack_push (x : list Z) vm : on_dstack (PushByteArray x) vm = (set_dstack (vm_dstack vm ++ [x]) vm, Ret ()).
Proof using Type. done. Qed.
Lemma on_dstack_int n x vm : Bytes n = Ret x → on_dstack (PushInt n) vm = (set_dstack (vm_dstack vm ++ [x]) vm, Ret ()).
Proof using Type. intros E. unfold on_dstack, zoom, PushInt, bind, lift_outcome. by rewrite E. Qed.

(** The opcodes of the small integers *)
Definition is_small (v : Z) (h : option handler) : bool :=
  match h with
  | Some H_opcodeFalse => v =? 0
  | Some H_opcode1Negate => v =? 79
  | Some H_opcodeN => match Bytes (v - 80) with Ret [d] => d =? v - 80 | _ => false end && (81 <=? v)
  | _ => false
  end.
Lemma small_handlers : forallb (λ v, is_small v (opc_opfunc (entry_of v))) (0 :: 79 :: seqZ 81 16) = true.
Proof using Type. vm_compute. reflexivity. Qed.
Lemma small_run v vm : (v = 0 ∨ 79 ≤ v ≤ 96) ∧ v ≠ 80 → ∃ h, opc_opfunc (entry_of v) = Some h ∧
  run_handler h {| pop_opcode := entry_of v; pop_data := [] |} vm
  = (set_dstack (vm_dstack vm ++ [if v =? 0 then [] else if v =? 79 then [129] else [v - 80]]) vm, Ret ()).
Proof using Type.
  intros Hv. pose proof (proj1 (forallb_forall _ _) small_handlers v ltac:(apply list_elem_of_In; rewrite !elem_of_cons, elem_of_seqZ; lia)) as Hok. cbv beta in Hok.
  destruct (small_entry v Hv) as (Hval & _ & _). destruct (opc_opfunc (entry_of v)) as [h|]; [|done]. exists h. split; [done|].
  destruct h; cbn [is_small] in Hok; try discriminate Hok; cbn [run_handler].
  - apply Z.eqb_eq in Hok as ->. done.
  - apply Z.eqb_eq in Hok as ->. done.
  - apply andb_true_iff in Hok as [Hok Hge%Z.leb_le]. rewrite (proj2 (Z.eqb_neq v 0)), (proj2 (Z.eqb_neq v 79)) by lia. unfold opcodeN. cbn [pop_opcode]. rewrite Hval.
    unfold Op1. replace (v - (81 - 1)) with (v - 80) by lia. rewrite GoInt.uint8_id by lia. apply on_dstack_int. destruct (Bytes (v - 80)) as [[|d [|]]| |]; try done. by apply Z.eqb_eq in Hok as ->.
Qed.

Lemma executes_push data vm : are_bytes data → zlen data ≤ MaxScriptElementSize → vm_condStack vm = [] →
  executeOpcode (push_pop data) vm = (set_dstack (vm_dstack vm ++ [pushed data]) vm, Ret ()).
Proof using Type.
  intros Hb Hlen Hc. unfold push_pop. destruct (small_push data) as [v|] eqn:Hs.
  - pose proof (small_push_range _ _ Hb Hs) as Hv. destruct (small_entry v Hv) as (Hval & _ & _). destruct (small_run v vm Hv) as (h & Hh & Hrun).
    rewrite (push_executes _ h); cbn [pop_opcode pop_data]; rewrite ?Hval; try done; [|unfold Op16; lia|unfold OpPushData4; lia].
    rewrite Hrun. f_equal. f_equal. f_equal. f_equal. unfold pushed. destruct data as [|d [|]]; simpl in Hs; [by injection Hs as <-| |done]. unfold Op0, Op1, Op1Negate in Hs.
    destruct (Z.eqb_spec d 0) as [->|Hd]; [by injection Hs as <-|]. rewrite bool_decide_false by (intros [=]; lia). apply are_bytes_cons in Hb as [Hb _]. unfold is_byte in Hb.
    destruct (Z.leb_spec d 16); [injection Hs as <-; rewrite (proj2 (Z.eqb_neq _ 0)), (proj2 (Z.eqb_neq _ 79)) by lia; f_equal; lia|]. by destruct (Z.eqb_spec d 129) as [->|]; [injection Hs as <-|].
  - assert (1 ≤ zlen data) as Hn by (destruct data; [done|]; zlia). destruct (push_opcode_entry _ Hn) as (_ & Hne & Hle & Hval & Hh & _ & _).
    rewrite (push_executes _ H_opcodePushData); cbn [pop_opcode pop_data]; rewrite ?Hval; try done.
    + unfold pushed. rewrite bool_decide_false; [done|]. intros ->. done.
    + unfold Op16, OpPushData4 in *. lia.
    + right; right. unfold checkMinimalDataPush. cbn [pop_opcode pop_data]. cbv zeta. rewrite Hval. rewrite (bool_decide_false (zlen data = 0)) by lia. cbn [andb].
      destruct (Z.eqb_spec (zlen data) 1) as [E1|E1].
      * destruct data as [|d [|d2 data]]; [done| |rewrite !zlen_cons in E1; pose proof (zlen_nonneg data); lia]. simpl in Hs. cbn [head default from_option id].
        rewrite bool_decide_true by done. destruct (d =? 0) eqn:E0; [done|]. destruct (d <=? 16) eqn:E16; [done|]. destruct (d =? 129) eqn:E129; [done|]. rewrite andb_false_r. done.
      * rewrite (bool_decide_false (zlen data = 1)) by done. cbn [andb]. unfold push_opcode, OpPushData1. unfold MaxScriptElementSize in Hlen.
        destruct (Z.leb_spec (zlen data) 75); [rewrite (proj2 (Z.ltb_lt _ _)) by lia; by rewrite Z.eqb_refl|]. rewrite (proj2 (Z.ltb_ge _ _)) by lia.
        destruct (Z.leb_spec (zlen data) 255); [done|]. by rewrite (proj2 (Z.leb_le (zlen data) 65535)) by lia.
Qed.
End Execute.

(** ** Sequences of pushes *)
Lemma encoding_push_length data : are_bytes data → zlen data < 2 ^ 32 → zlen data ≤ zlen (encoding (push_pop data)) ∨ zlen data = 1.
Proof.
  intros Hb Hlen. rewrite <- canonicalDataSize_encoding by done. unfold canonicalDataSize. cbv zeta. pose proof (zlen_nonneg data). repeat case_match; try lia;
    repeat match goal with E : (_ && _) = true |- _ => apply andb_true_iff in E as [E _] | E : (_ =? _) = true |- _ => apply Z.eqb_eq in E end; lia.
Qed.
Lemma AddData_room b data : are_bytes data → sb_err b = None → zlen data ≤ MaxScriptElementSize → zlen (sb_script b) + zlen (encoding (push_pop data)) ≤ MaxScriptSize →
  AddData b data = append b (encoding (push_pop data)).
Proof.
  intros Hb He Hd Hs. assert (zlen data < 2 ^ 32) as H32 by (unfold MaxScriptElementSize in Hd; lia). unfold AddData. rewrite He, canonicalDataSize_encoding by done.
  rewrite Z.gtb_ltb, (proj2 (Z.ltb_ge _ _)) by lia. rewrite Z.gtb_ltb, (proj2 (Z.ltb_ge _ _)) by lia. by apply addData_encoding.
Qed.
Lemma AddData_ok_inv b data : are_bytes data → sb_err (AddData b data) = None →
  sb_err b = None ∧ zlen data ≤ MaxScriptElementSize ∧ zlen (sb_script b) + zlen (encoding (push_pop data)) ≤ MaxScriptSize ∧ AddData b data = append b (encoding (push_pop data)).
Proof.
  intros Hb. unfold AddData. destruct (sb_err b) eqn:He; [congruence|]. rewrite !Z.gtb_ltb.
  destruct (Z.ltb_spec MaxScriptSize (zlen (sb_script b) + canonicalDataSize data)) as [|Hs]; [done|]. destruct (Z.ltb_spec MaxScriptElementSize (zlen data)) as [|Hd]; [done|]. intros _.
  assert (zlen data < 2 ^ 32) as H32 by (unfold MaxScriptElementSize in Hd; lia). rewrite canonicalDataSize_encoding in Hs by done. split; [done|]. split; [done|]. split; [done|]. by apply addData_encoding.
Qed.
Lemma encodings_app l k : encodings (l ++ k) = encodings l ++ encodings k.
Proof. unfold encodings. by rewrite map_app, concat_app. Qed.

Definition pushes_fit (items : list (list Z)) : Prop := Forall (λ data, zlen data ≤ MaxScriptElementSize) items ∧ zlen (encodings (map push_pop items)) ≤ MaxScriptSize.
Lemma AddData_fold items : Forall are_bytes items → let b := fold_left AddData items NewScriptBuilder in
  (sb_err b = None ↔ pushes_fit items) ∧ (sb_err b = None → sb_script b = encodings (map push_pop items)).
Proof.
  intros Hb b. subst b. induction items as [|data items IH] using rev_ind; [split; [|done]; split; [|done]; intros _; split; [constructor|done]|].
  apply Forall_app in Hb as [Hb Hd]. apply Forall_cons in Hd as [Hd _]. specialize (IH Hb). rewrite fold_left_app. cbn [fold_left]. set (b := fold_left AddData items NewScriptBuilder) in *. destruct IH as [IH Hs].
  assert (zlen (encodings (map push_pop (items ++ [data]))) = zlen (encodings (map push_pop items)) + zlen (encoding (push_pop data))) as Hz.
  { rewrite map_app, encodings_app, zlen_app. f_equal. unfold encodings. simpl. by rewrite app_nil_r. }
  pose proof (zlen_nonneg (encoding (push_pop data))) as Hpos. split; [split|].
  - intros (He & Hl & Hroom & _)%AddData_ok_inv; [|done]. apply IH in He as Hfit. rewrite (Hs He) in Hroom. split; [apply Forall_app; split; [apply Hfit|by constructor]|lia].
  - intros [Hl Hroom]. apply Forall_app in Hl as [Hl Hl1]. apply Forall_cons in Hl1 as [Hl1 _]. rewrite Hz in Hroom. assert (sb_err b = None) as He by (apply IH; split; [done|lia]).
    rewrite AddData_room; [exact He|done..|]. rewrite (Hs He). lia.
  - intros (He & _ & _ & E)%AddData_ok_inv; [|done]. rewrite E. unfold append. cbn [sb_script]. rewrite (Hs He), map_app, encodings_app. f_equal. unfold encodings. simpl. by rewrite app_nil_r.
Qed.
Lemma push_pop_push data : are_bytes data → pop_value (push_pop data) ≤ Op16.
Proof.
  intros Hb. unfold push_pop. destruct (small_push data) as [v|] eqn:Hs; cbn [pop_opcode].
  - pose proof (small_push_range _ _ Hb Hs) as Hv. destruct (small_entry v Hv) as (-> & _ & _). unfold Op16. lia.
  - assert (1 ≤ zlen data) as Hn by (destruct data; [done|]; zlia). destruct (push_opcode_entry _ Hn) as (_ & _ & Hle & -> & _). unfold Op16, OpPushData4 in *. lia.
Qed.
Lemma push_pops_ok items : Forall are_bytes items → Forall (λ data, zlen data ≤ MaxScriptElementSize) items → Forall pop_ok (map push_pop items).
Proof.
  intros Hb Hl. apply Forall_forall. intros p (data & -> & Hd)%list_elem_of_fmap. apply push_pop_ok; [by apply (proj1 (Forall_forall _ _) Hb)|].
  apply (proj1 (Forall_forall _ _) Hl) in Hd. unfold MaxScriptElementSize in Hd. lia.
Qed.
Lemma encodings_parse pops : Forall pop_ok pops → parseScriptE (encodings pops) = Ret pops.
Proof. intros Hok. unfold parseScriptE. by rewrite parseScript_encodings. Qed.
Lemma push_only items : Forall are_bytes items → isPushOnly (map push_pop items) = true.
Proof.
  intros Hb. unfold isPushOnly. apply forallb_forall. intros p Hp%list_elem_of_In. apply list_elem_of_fmap in Hp as (data & -> & Hd). apply (proj1 (Forall_forall _ _) Hb), push_pop_push in Hd.
  by rewrite Z.gtb_ltb, (proj2 (Z.ltb_ge _ _)) by lia.
Qed.

Section ExecuteAll.
Context `{Libs}.
Definition executeAll (pops : list parsedOpcode) : prog Engine error unit := foldr (λ pop m, executeOpcode pop ;;* m) (ret ()) pops.

Lemma executes_pushes items : ∀ vm, Forall are_bytes items → Forall (λ data, zlen data ≤ MaxScriptElementSize) items → vm_condStack vm = [] →
  executeAll (map push_pop items) vm = (set_dstack (vm_dstack vm ++ map pushed items) vm, Ret ()).
Proof using Type.
  induction items as [|data items IH]; intros vm Hb Hl Hc; [unfold executeAll, ret; simpl; rewrite app_nil_r; by destruct vm|].
  apply Forall_cons in Hb as [Hb1 Hb], Hl as [Hl1 Hl]. unfold executeAll in *. cbn [map foldr]. rewrite (bind_ret_l _ _ _ _ _ (executes_push data vm Hb1 Hl1 Hc)), IH by done.
  cbn [vm_dstack set_dstack]. by rewrite <- (assoc_L (++)).
Qed.
End ExecuteAll.

(** ** The scripts of addresses *)
Definition valid_address (a : Address) : Prop :=
  are_bytes (ScriptAddress a) ∧ match a with AddressPublicKeyECDSA _ _ => zlen (ScriptAddress a) = 33 | _ => zlen (ScriptAddress a) = 32 end.
Definition class_of (a : Address) : ScriptClass :=
  match a with AddressPublicKey _ _ => PubKeyTy | AddressPublicKeyECDSA _ _ => PubKeyECDSATy | AddressScriptHash _ _ => ScriptHashTy end.
Definition op_pop (v : Z) : parsedOpcode := {| pop_opcode := entry_of v; pop_data := [] |}.
Definition data_pop (data : list Z) : parsedOpcode := {| pop_opcode := entry_of (zlen data); pop_data := data |}.
Definition address_pops (a : Address) : list parsedOpcode :=
  match a with
  | AddressPublicKey _ pk => [data_pop pk; op_pop OpCheckSig]
  | AddressPublicKeyECDSA _ pk => [data_pop pk; op_pop OpCheckSigECDSA]
  | AddressScriptHash _ h => [op_pop OpBlake2b; data_pop h; op_pop OpEqual]
  end.
Definition address_spk (a : Address) : ScriptPublicKey := {| spk_Script := encodings (address_pops a); spk_Version := 0 |}.

Lemma push_pop_data data : 2 ≤ zlen data ≤ 75 → push_pop data = data_pop data.
Proof.
  intros Hl. unfold push_pop, data_pop. destruct data as [|d [|d2 data]]; [change (2 ≤ 0 ≤ 75) in Hl; lia|change (2 ≤ 1 ≤ 75) in Hl; lia|]. cbn [small_push]. unfold push_opcode, OpPushData1. by rewrite (proj2 (Z.ltb_lt _ _)) by lia.
Qed.
Lemma data_pop_ok data : are_bytes data → 2 ≤ zlen data ≤ 75 → pop_ok (data_pop data).
Proof. intros Hb Hl. rewrite <- push_pop_data by done. apply push_pop_ok; [done|lia]. Qed.
Lemma data_pop_encoding data : 1 ≤ zlen data ≤ 75 → encoding (data_pop data) = zlen data :: data.
Proof.
  intros Hl. unfold encoding, data_pop. cbn [pop_opcode pop_data]. destruct (data_entry (zlen data) ltac:(lia)) as (-> & -> & _ & _). f_equal. unfold prefix_size.
  by rewrite (proj2 (Z.eqb_neq _ (-1))), (proj2 (Z.eqb_neq _ (-2))), (proj2 (Z.eqb_neq _ (-4))) by lia.
Qed.
Lemma valid_size a : valid_address a → 32 ≤ zlen (ScriptAddress a) ≤ 33.
Proof. intros [_ Hl]. destruct a; lia. Qed.
Lemma address_pops_ok a : valid_address a → Forall pop_ok (address_pops a).
Proof.
  intros Hv. pose proof (valid_size a Hv) as Hl. pose proof (data_pop_ok (ScriptAddress a) (proj1 Hv) ltac:(lia)) as Hd. destruct a; simpl in *; repeat constructor; try done; apply Hd.
Qed.

Lemma PayToAddrScript_spec a : valid_address a → PayToAddrScript (Some a) = Ret (address_spk a).
Proof.
  intros Hv. pose proof (valid_size a Hv) as Hl. destruct Hv as [Hb _]. assert (∀ b, sb_err b = None → zlen (sb_script b) ≤ 1 → AddData b (ScriptAddress a) = append b (encoding (data_pop (ScriptAddress a)))) as Hadd.
  { intros b He Hs. rewrite <- push_pop_data by lia. apply AddData_room; [done|done|unfold MaxScriptElementSize; lia|]. rewrite push_pop_data, data_pop_encoding, zlen_cons by lia. unfold MaxScriptSize. lia. }
  assert (∀ b v, sb_err b = None → zlen (sb_script b) ≤ 40 → AddOp b v = append b [v]) as Hop.
  { intros b v He Hs. unfold AddOp. by rewrite He, Z.gtb_ltb, (proj2 (Z.ltb_ge _ _)) by (unfold MaxScriptSize; lia). }
  assert (zlen (encoding (data_pop (ScriptAddress a))) ≤ 34) as Hz by (rewrite data_pop_encoding, zlen_cons by lia; lia).
  destruct a as [p pk|p pk|p h]; unfold PayToAddrScript, payToPubKeyScript, payToPubKeyScriptECDSA, payToScriptHashScript, address_spk; cbn [ScriptAddress address_pops] in *.
  - rewrite Hadd, Hop by (done || (simpl; lia)). done.
  - rewrite Hadd, Hop by (done || (simpl; lia)). done.
  - rewrite (Hop NewScriptBuilder), Hadd, Hop by (try done; unfold append; cbn [sb_script NewScriptBuilder app]; rewrite ?zlen_cons, ?zlen_nil; lia). done.
Qed.

(** ** Reading them back *)
Lemma pop_entry p v : pop_ok p → pop_value p = v → pop_opcode p = entry_of v.
Proof. intros (_ & Ho & _) E. unfold entry_of. rewrite <- E, Ho. done. Qed.
Lemma pop_is_op p v : pop_ok p → pop_value p = v → opc_length (entry_of v) = 1 → p = op_pop v.
Proof.
  intros Hok Hv Hl. pose proof (pop_entry p v Hok Hv) as Ho. destruct Hok as (_ & _ & Hd). rewrite Ho, Hl in Hd. change (pop_data p = []) in Hd. destruct p as [o d]. cbn [pop_opcode pop_data] in *. unfold op_pop. by rewrite Ho, Hd.
Qed.
Lemma pop_is_data p v : pop_ok p → pop_value p = v → 1 ≤ v ≤ 75 → p = data_pop (pop_data p) ∧ zlen (pop_data p) = v.
Proof.
  intros Hok Hv Hr. pose proof (pop_entry p v Hok Hv) as Ho. destruct Hok as (_ & _ & Hd). destruct (data_entry v Hr) as (_ & Hl & _ & _). rewrite Ho, Hl in Hd. unfold data_fits in Hd.
  rewrite (proj2 (Z.eqb_neq _ _)), (proj2 (Z.ltb_lt _ _)) in Hd by lia. assert (zlen (pop_data p) = v) as Hz by lia. split; [|done]. destruct p as [o d]. cbn [pop_opcode pop_data] in *. unfold data_pop. by rewrite Hz, Ho.
Qed.

Lemma typeOf_address a : valid_address a → typeOfScript (address_pops a) = class_of a.
Proof. intros [_ Hl]. destruct a as [p pk|p pk|p h]; unfold address_pops, data_pop; cbn [ScriptAddress] in *; rewrite Hl; reflexivity. Qed.
Lemma Extract_of_address a : valid_address a → ExtractScriptPubKeyAddress (address_spk a) (address_Prefix a) = Ret (class_of a, Some a).
Proof.
  intros Hv. unfold ExtractScriptPubKeyAddress, address_spk. cbn [spk_Version spk_Script]. change (0 >? MaxScriptPublicKeyVersion) with false. rewrite encodings_parse by by apply address_pops_ok. cbn [obind].
  cbv zeta. rewrite typeOf_address by done. destruct Hv as [_ Hl]. destruct a as [p pk|p pk|p h]; cbn [class_of address_pops ScriptAddress address_Prefix] in *;
    unfold NewAddressPublicKey, NewAddressPublicKeyECDSA, NewAddressScriptHashFromHash, newAddressPubKey, newAddressPubKeyECDSA, newAddressScriptHashFromHash;
    unfold index; simpl lookup; rewrite decide_True by lia; cbn [obind data_pop pop_data]; by rewrite Hl.
Qed.
Lemma Extract_inv spk p c a : are_bytes (spk_Script spk) → 0 ≤ spk_Version spk → ExtractScriptPubKeyAddress spk p = Ret (c, Some a) →
  spk = address_spk a ∧ valid_address a ∧ address_Prefix a = p ∧ c = class_of a.
Proof.
  intros Hb Hver. unfold ExtractScriptPubKeyAddress. rewrite Z.gtb_ltb. destruct (Z.ltb_spec MaxScriptPublicKeyVersion (spk_Version spk)) as [|Hle]; [done|]. unfold MaxScriptPublicKeyVersion in Hle.
  destruct (parseScriptE_spec _ Hb) as [(pops & -> & Hok & Hs)| ->]; [|done]. cbn [obind].
  assert (∀ pops' a', pops = pops' → address_pops a' = pops' → spk = address_spk a') as Hspk.
  { intros pops' a' -> E. unfold address_spk. rewrite E, <- Hs. destruct spk as [sc ver]. cbn [spk_Version spk_Script] in *. f_equal. lia. }
  pose proof Hb as Hbytes. rewrite Hs in Hbytes. apply encodings_bytes in Hbytes. unfold typeOfScript.
  destruct (isPayToPubkey pops) eqn:E1; [|destruct (isPayToPubkeyECDSA pops) eqn:E2; [|destruct (isScriptHash pops) eqn:E3; [|done]]].
  - destruct pops as [|p0 [|p1 [|]]]; try done. simpl in E1. apply andb_true_iff in E1 as [V0%Z.eqb_eq V1%Z.eqb_eq]. rewrite !Forall_cons in Hok, Hbytes. destruct Hok as (O0 & O1 & _), Hbytes as (B0 & _).
    destruct (pop_is_data p0 32 O0 V0 ltac:(lia)) as [P0 L0]. pose proof (pop_is_op p1 _ O1 V1 eq_refl) as P1. cbv zeta. cbv iota. rewrite (index_middle [] [p1] p0) by done. cbn [obind]. unfold NewAddressPublicKey, newAddressPubKey. rewrite L0. cbn [negb Z.eqb accepted obind]. intros [= <- <-].
    split; [apply (Hspk [p0; p1]); [done|cbn; by rewrite <- P0, P1]|]. done.
  - destruct pops as [|p0 [|p1 [|]]]; try done. simpl in E2. apply andb_true_iff in E2 as [V0%Z.eqb_eq V1%Z.eqb_eq]. rewrite !Forall_cons in Hok, Hbytes. destruct Hok as (O0 & O1 & _), Hbytes as (B0 & _).
    destruct (pop_is_data p0 33 O0 V0 ltac:(lia)) as [P0 L0]. pose proof (pop_is_op p1 _ O1 V1 eq_refl) as P1. cbv zeta. cbv iota. rewrite (index_middle [] [p1] p0) by done. cbn [obind]. unfold NewAddressPublicKeyECDSA, newAddressPubKeyECDSA. rewrite L0. cbn [negb Z.eqb accepted obind]. intros [= <- <-].
    split; [apply (Hspk [p0; p1]); [done|cbn; by rewrite <- P0, P1]|]. done.
  - destruct pops as [|p0 [|p1 [|p2 [|]]]]; try done. simpl in E3. rewrite !andb_true_iff, !Z.eqb_eq in E3. destruct E3 as [[V0 V1] V2]. rewrite !Forall_cons in Hok, Hbytes. destruct Hok as (O0 & O1 & O2 & _), Hbytes as (_ & B1 & _).
    destruct (pop_is_data p1 32 O1 V1 ltac:(lia)) as [P1 L1]. pose proof (pop_is_op p0 _ O0 V0 eq_refl) as P0. pose proof (pop_is_op p2 _ O2 V2 eq_refl) as P2. cbv zeta. cbv iota. rewrite (index_middle [p0] [p2] p1) by done. cbn [obind].
    unfold NewAddressScriptHashFromHash, newAddressScriptHashFromHash. rewrite L1. cbn [negb Z.eqb accepted obind]. intros [= <- <-].
    split; [apply (Hspk [p0; p1; p2]); [done|cbn; by rewrite <- P1, P0, P2]|]. done.
Qed.
