(* ===== verification/Signing.v ===== *)
(** * Signing (sign.go)

    The signature script of an input, and [SignTxOutput], which looks up the keys and scripts it needs and merges the result with a
    script there is already.  The signature hash does not depend on the signature scripts, so what is signed is accepted.  The keys are those of the library go-secp256k1, and the databases are interfaces of the caller: arguments. *)
From S2P Require Import Prelude Externalapi ScriptNum ScriptStack OpcodeTable Script Hashing SigCache Opcode.
From S2P Require Import OpcodeSafety Engine EngineSafety SigSpec Spend Bech32 StandardScripts.
Import Op ScriptNum Stack Script SigHash SigCache Opcode Exec Bech32 Addresses Builder Standard.
Local Open Scope Z_scope.
Local Open Scope prog_scope.

(** The keys of the two schemes.  [None] is an error of signing. *)
Class SigningKeys `{Libs} := {
  SchnorrKeyPair : Type;
  SchnorrSign : SchnorrKeyPair → list Z → option SchnorrSignature;
  SchnorrSignature_Serialize : SchnorrSignature → list Z;
  ECDSAPrivateKey : Type;
  ECDSASign : ECDSAPrivateKey → list Z → option ECDSASignature;
  ECDSASignature_Serialize : ECDSASignature → list Z;
  (** the serialized public key of a key pair *)
  schnorr_public : SchnorrKeyPair → list Z
}.

(** What the library documents: keys and signatures have their sizes, a signature reads back as it was written, and what a key signs verifies for its public key. *)
Class SigningKeysOk `{SigningKeys} : Prop := {
  schnorr_public_ok k : zlen (schnorr_public k) = 32 ∧ are_bytes (schnorr_public k) ∧ is_Some (@DeserializePubKey _ _ schnorr (schnorr_public k));
  schnorr_serialized k h s : digest_ok h → SchnorrSign k h = Some s → zlen (SchnorrSignature_Serialize s) = 64 ∧ are_bytes (SchnorrSignature_Serialize s) ∧
    @DeserializeSignatureFromSlice _ _ schnorr (SchnorrSignature_Serialize s) = Some s;
  schnorr_correct k h s p : SchnorrSign k h = Some s → @DeserializePubKey _ _ schnorr (schnorr_public k) = Some p → @Verify _ _ schnorr p h s = true
}.

Module Sign.
Section Sign.
Context `{SigningKeys}.

(** A program that may fill in the reused values *)
Abbreviation signM A := (prog (option SighashReusedValues) buildError A) (only parsing).
Definition hashing {A} (m : prog (option SighashReusedValues) error A) : signM A :=
  λ r, let '(r', a) := m r in (r', other a).

Definition RawTxInSignature (tx : DomainTransaction) (idx hashType : Z) (key : SchnorrKeyPair) : signM (list Z) :=
  let* hash := hashing (CalculateSignatureHashSchnorr tx idx hashType) in
  match SchnorrSign key hash with
  | None => fail (otherError foreignError)
  | Some signature => ret (SchnorrSignature_Serialize signature ++ [hashType])
  end.

Definition RawTxInSignatureECDSA (tx : DomainTransaction) (idx hashType : Z) (key : ECDSAPrivateKey) : signM (list Z) :=
  let* hash := hashing (CalculateSignatureHashECDSA tx idx hashType) in
  match ECDSASign key hash with
  | None => fail (otherError foreignError)
  | Some signature => ret (ECDSASignature_Serialize signature ++ [hashType])
  end.

Definition SignatureScript (tx : DomainTransaction) (idx hashType : Z) (privKey : SchnorrKeyPair) : signM (list Z) :=
  let* sig := RawTxInSignature tx idx hashType privKey in
  lift_outcome (built (AddData NewScriptBuilder sig)).

Definition SignatureScriptECDSA (tx : DomainTransaction) (idx hashType : Z) (privKey : ECDSAPrivateKey) : signM (list Z) :=
  let* sig := RawTxInSignatureECDSA tx idx hashType privKey in
  lift_outcome (built (AddData NewScriptBuilder sig)).

(** The databases of the caller.  [None] is an error. *)
Record KeyDB := { GetKey : option Address → option SchnorrKeyPair }.
Record ScriptDB := { GetScript : option Address → option (list Z) }.

Definition sign (prefix : Bech32Prefix) (tx : DomainTransaction) (idx : Z) (script : ScriptPublicKey) (hashType : Z) (kdb : KeyDB) (sdb : ScriptDB)
    : signM (list Z * ScriptClass * option Address) :=
  let* extracted := lift_outcome (other (ExtractScriptPubKeyAddress script prefix)) in
  let '(class, address) := extracted in
  match class with
  | PubKeyTy =>
      match GetKey kdb address with
      | None => fail (otherError foreignError)
      | Some key =>
          let* signedScript := SignatureScript tx idx hashType key in
          ret (signedScript, class, address)
      end
  | ScriptHashTy =>
      match GetScript sdb address with
      | None => fail (otherError foreignError)
      | Some script => ret (script, class, address)
      end
  | _ => fail (otherError foreignError)
  end.

(** [script, _ := unparseScript(pops)]: nil on an error *)
Definition unparse_ignoring (pops : list parsedOpcode) : outcome buildError (list Z) :=
  match unparseScript pops with Ret script => Ret script | Fail _ => Ret [] | Crash c => Crash c end.
(** [class, _, _ := ExtractScriptPubKeyAddress(script, dagParams)] *)
Definition class_ignoring (script : ScriptPublicKey) (prefix : Bech32Prefix) : outcome buildError ScriptClass :=
  match ExtractScriptPubKeyAddress script prefix with Ret (class, _) => Ret class | Fail _ => Ret NonStandardTy | Crash c => Crash c end.

(** [None] is a nil pointer, which every branch dereferences.  The recursion has no bound: a call for the class of the script pushed last. *)
Fixpoint mergeScripts (fuel : nat) (prefix : Bech32Prefix) (tx : DomainTransaction) (idx : Z) (class : ScriptClass) (sigScript : list Z)
    (prevScript : option ScriptPublicKey) : outcome buildError (list Z) :=
  match fuel, prevScript with
  | O, _ => Crash OutOfFuel
  | _, None => Crash NilDereference
  | S fuel, Some prevScript =>
      match class with
      | ScriptHashTy =>
          match parseScriptE sigScript with
          | Crash c => Crash c
          | Fail _ | Ret [] => Ret (spk_Script prevScript)
          | Ret sigPops =>
              match parseScriptE (spk_Script prevScript) with
              | Crash c => Crash c
              | Fail _ | Ret [] => Ret sigScript
              | Ret prevPops =>
                  let? pop := index sigPops (zlen sigPops - 1) in
                  let script := pop_data pop in
                  let scriptPubKey := {| spk_Script := script; spk_Version := spk_Version prevScript |} in
                  let? class := class_ignoring scriptPubKey prefix in
                  let? sigScript := unparse_ignoring sigPops in
                  let? prevScriptByte := unparse_ignoring prevPops in
                  let prevScript := {| spk_Script := prevScriptByte; spk_Version := spk_Version prevScript |} in
                  let? mergedScript := mergeScripts fuel prefix tx idx class sigScript (Some prevScript) in
                  built (AddData (AddOps NewScriptBuilder mergedScript) script)
              end
          end
      | _ => Ret (if zlen sigScript >? zlen (spk_Script prevScript) then sigScript else spk_Script prevScript)
      end
  end.

Definition SignTxOutput (fuel : nat) (prefix : Bech32Prefix) (tx : DomainTransaction) (idx : Z) (scriptPublicKey : ScriptPublicKey) (hashType : Z)
    (kdb : KeyDB) (sdb : ScriptDB) (previousScript : option ScriptPublicKey) : signM (list Z) :=
  let* signed := sign prefix tx idx scriptPublicKey hashType kdb sdb in
  let '(sigScript, class, _) := signed in
  let* sigScript :=
    match class with
    | ScriptHashTy =>
        let scriptHashPreimageScriptPublicKey := {| spk_Script := sigScript; spk_Version := spk_Version scriptPublicKey |} in
        let* signed := sign prefix tx idx scriptHashPreimageScriptPublicKey hashType kdb sdb in
        ret (fst (builder_Script (AddData (AddOps NewScriptBuilder (fst (fst signed))) sigScript)))
    | _ => ret sigScript
    end in
  lift_outcome (mergeScripts fuel prefix tx idx class sigScript previousScript).
End Sign.
End Sign.
Import Sign.

(** ** What is signed is accepted *)

(** The transaction with another signature script in one input *)
Definition with_script (script : list Z) (txIn : DomainTransactionInput) : DomainTransactionInput :=
  {| in_PreviousOutpoint := in_PreviousOutpoint txIn; in_SignatureScript := script; in_Sequence := in_Sequence txIn; in_UTXOEntry := in_UTXOEntry txIn |}.
Definition signed_with (tx : DomainTransaction) (idx : Z) (script : list Z) : DomainTransaction :=
  {| tx_Version := tx_Version tx; tx_Inputs := alter (with_script script) (Z.to_nat idx) (tx_Inputs tx); tx_Outputs := tx_Outputs tx; tx_LockTime := tx_LockTime tx;
     tx_SubnetworkID := tx_SubnetworkID tx; tx_Gas := tx_Gas tx; tx_Payload := tx_Payload tx; tx_Fee := tx_Fee tx; tx_Mass := tx_Mass tx; tx_ID := tx_ID tx |}.

Lemma map_alter {A B} (f : A → B) (g : A → A) i : (∀ x, f (g x) = f x) → ∀ l, map f (alter g i l) = map f l.
Proof. intros Hg. induction i as [|i IH]; intros [|x l]; simpl; try done; [by rewrite Hg|]. f_equal. apply IH. Qed.

Section Sign.
Context `{HL : Libs} `{HLok : !LibsOk}.

Lemma signed_prevouts tx idx script : prevouts_of (signed_with tx idx script) = prevouts_of tx.
Proof using Type. unfold prevouts_of. cbn [tx_Inputs signed_with]. by rewrite map_alter. Qed.
Lemma signed_sequences tx idx script : sequences_of (signed_with tx idx script) = sequences_of tx.
Proof using Type. unfold sequences_of. cbn [tx_Inputs signed_with]. by rewrite map_alter. Qed.
Lemma signed_digest tx idx script ht : schnorr_digest (signed_with tx idx script) idx ht = schnorr_digest tx idx ht.
Proof using Type.
  unfold schnorr_digest. cbn [tx_Inputs signed_with]. rewrite list_lookup_alter, decide_True by done. destruct (tx_Inputs tx !! Z.to_nat idx) as [txIn|]; [|done]. cbn [fmap option_fmap option_map]. cbn [with_script in_UTXOEntry].
  destruct (in_UTXOEntry txIn) as [utxo|]; [|done]. f_equal. unfold preimage, prevouts_hash, sequences_hash. cbn [sg_tx sg_type sg_in sg_utxo sg_idx]. by rewrite signed_prevouts, signed_sequences.
Qed.
Lemma signed_reuse tx idx script r : reuse_ok tx r → reuse_ok (signed_with tx idx script) r.
Proof using Type. intros (H1 & H2 & H3 & H4). unfold reuse_ok. by rewrite signed_prevouts, signed_sequences. Qed.

Lemma signed_inputs_ok spk tx idx c1 c2 r r' script : inputs_ok spk tx idx c1 c2 r → are_bytes script → reuse_ok tx r' → inputs_ok spk (signed_with tx idx script) idx c1 c2 (Some r').
Proof using Type.
  intros [Hs Hsig Hu _ Hc1 Hc2] Hb Hr. split; try done.
  - cbn [tx_Inputs signed_with]. apply Forall_alter; [done|]. intros. done.
  - cbn [tx_Inputs signed_with]. apply Forall_alter; [done|]. intros x _ Hx. exact Hx.
  - exists r'. split; [done|]. by apply signed_reuse.
Qed.

(** *** Signing a pay-to-public-key output *)
Context `{HK : !SigningKeys}.

Lemma RawTxInSignature_run tx idx ht k txIn utxo r s : IsStandardSigHashType ht = true → 0 ≤ idx → tx_Inputs tx !! Z.to_nat idx = Some txIn → in_UTXOEntry txIn = Some utxo → reuse_ok tx r →
  SchnorrSign k (schnorr_digest tx idx ht) = Some s →
  ∃ r', RawTxInSignature tx idx ht k (Some r) = (Some r', Ret (SchnorrSignature_Serialize s ++ [ht])) ∧ reuse_ok tx r'.
Proof using HLok.
  intros Hst Hidx Hin Hu Hr Hs. destruct (CalculateSignatureHashSchnorr_spec tx idx ht txIn utxo r Hst Hidx Hin Hu Hr) as (r' & E & Hr'). exists r'. split; [|done].
  unfold RawTxInSignature. rewrite (bind_ret_l _ _ _ (Some r') (schnorr_digest tx idx ht)).
  - by rewrite Hs.
  - unfold hashing. rewrite E. unfold schnorr_digest. by rewrite Hin, Hu.
Qed.

Lemma standard_type_byte ht : IsStandardSigHashType ht = true → is_byte ht.
Proof using Type. unfold IsStandardSigHashType. intros Hin%bool_decide_eq_true. repeat (apply elem_of_cons in Hin as [->|Hin]; [by vm_compute|]). by apply elem_of_nil in Hin. Qed.

Lemma AddData_65 full : are_bytes full → zlen full = 65 → AddData NewScriptBuilder full = append NewScriptBuilder (OpData65 :: full).
Proof using Type.
  intros Hb Hl. rewrite AddData_room; [|done|done|unfold MaxScriptElementSize; lia|].
  - rewrite push_pop_data, data_pop_encoding, Hl by lia. done.
  - rewrite push_pop_data, data_pop_encoding, zlen_cons, Hl by lia. done.
Qed.

Context `{HKok : !SigningKeysOk}.

Lemma SignatureScript_run tx idx ht k txIn utxo r s : IsStandardSigHashType ht = true → 0 ≤ idx → tx_Inputs tx !! Z.to_nat idx = Some txIn → in_UTXOEntry txIn = Some utxo → reuse_ok tx r →
  SchnorrSign k (schnorr_digest tx idx ht) = Some s → let full := SchnorrSignature_Serialize s ++ [ht] in
  ∃ r', SignatureScript tx idx ht k (Some r) = (Some r', Ret (OpData65 :: full)) ∧ reuse_ok tx r' ∧ are_bytes full ∧ zlen full = 65 ∧ signs_spend tx idx (schnorr_public k) full.
Proof using All.
  intros Hst Hidx Hin Hu Hr Hs full. destruct (RawTxInSignature_run tx idx ht k txIn utxo r s) as (r' & E & Hr'); [done..|]. exists r'.
  assert (digest_ok (schnorr_digest tx idx ht)) as Hd by (unfold schnorr_digest; rewrite Hin, Hu; apply blake2b_New256_ok).
  destruct (schnorr_serialized k _ s Hd Hs) as (Hl & Hb & Hds). destruct (schnorr_public_ok k) as (_ & _ & [p Hp]).
  assert (are_bytes full) as Hfull by (apply are_bytes_app; split; [done|]; constructor; [by apply standard_type_byte|constructor]).
  assert (zlen full = 65) as Hz by (unfold full; rewrite zlen_app, Hl; done). split; [|split; [done|]; split; [done|]; split; [done|]].
  - unfold SignatureScript. rewrite (bind_ret_l _ _ _ _ _ E). fold full. by rewrite AddData_65.
  - exists (SchnorrSignature_Serialize s), ht, p, s. split; [done|]. split; [done|]. split; [done|]. split; [done|]. split; [done|]. by apply (schnorr_correct k).
Qed.

Definition key_address (prefix : Bech32Prefix) (k : SchnorrKeyPair) : Address := AddressPublicKey prefix (schnorr_public k).
Lemma key_address_valid prefix k : valid_address (key_address prefix k).
Proof using HKok. destruct (schnorr_public_ok k) as (Hl & Hb & _). by split. Qed.
Lemma key_address_script prefix k : spk_Script (address_spk (key_address prefix k)) = p2pk_script (schnorr_public k).
Proof using HKok.
  destruct (schnorr_public_ok k) as (Hl & Hb & _). unfold address_spk, key_address, address_pops. cbn [spk_Script]. unfold encodings. cbn [map concat]. rewrite data_pop_encoding, Hl by lia. by rewrite app_nil_r.
Qed.

(** With no script before, the new one is the result. *)
Definition no_script : ScriptPublicKey := {| spk_Script := []; spk_Version := 0 |}.
Lemma SignTxOutput_run fuel prefix tx idx ht k kdb sdb txIn utxo r s : IsStandardSigHashType ht = true → 0 ≤ idx → tx_Inputs tx !! Z.to_nat idx = Some txIn → in_UTXOEntry txIn = Some utxo → reuse_ok tx r →
  GetKey kdb (Some (key_address prefix k)) = Some k → SchnorrSign k (schnorr_digest tx idx ht) = Some s → let full := SchnorrSignature_Serialize s ++ [ht] in
  ∃ r', SignTxOutput (S fuel) prefix tx idx (address_spk (key_address prefix k)) ht kdb sdb (Some no_script) (Some r) = (Some r', Ret (OpData65 :: full)) ∧
        reuse_ok tx r' ∧ are_bytes full ∧ zlen full = 65 ∧ signs_spend tx idx (schnorr_public k) full.
Proof using All.
  intros Hst Hidx Hin Hu Hr Hk Hs full. destruct (SignatureScript_run tx idx ht k txIn utxo r s) as (r' & E & Hr' & Hb & Hz & Hsp); [done..|]. fold full in E, Hz. exists r'. split; [|done].
  unfold SignTxOutput. rewrite (bind_ret_l _ _ (Some r) (Some r') (OpData65 :: full, PubKeyTy, Some (key_address prefix k))).
  - cbv iota. rewrite (bind_ret_l _ _ (Some r') (Some r') (OpData65 :: full)) by done. unfold lift_outcome. cbn [mergeScripts spk_Script no_script].
    by rewrite zlen_cons, Hz.
  - unfold sign. rewrite (bind_ret_l _ _ (Some r) (Some r) (PubKeyTy, Some (key_address prefix k))).
    + cbv iota. rewrite Hk. by rewrite (bind_ret_l _ _ _ _ _ E).
    + unfold lift_outcome. pose proof (Extract_of_address (key_address prefix k) (key_address_valid prefix k)) as Hx. cbn [key_address address_Prefix class_of] in Hx |- *. by rewrite Hx.
Qed.

(** The engine runs on it. *)
Lemma NewEngine_signed spk tx idx flags c1 c2 r txIn pk full : 0 ≤ idx → tx_Inputs tx !! Z.to_nat idx = Some txIn → in_SignatureScript txIn = OpData65 :: full → zlen full = 65 →
  spk_Version spk = 0 → spk_Script spk = p2pk_script pk → zlen pk = 32 → ∃ vm, NewEngine spk tx idx flags c1 c2 r = Ret vm.
Proof using Type.
  intros Hidx Hin Hsig Hl Hv Hs Hpk. unfold NewEngine. pose proof (zlen_lookup _ _ _ Hin Hidx) as Hlt. rewrite (proj2 (Z.ltb_ge idx 0)) by lia. rewrite Z.geb_leb, (proj2 (Z.leb_gt _ _)) by lia. cbn [orb].
  rewrite (index_lookup _ _ _ Hidx Hin). cbn [obind]. cbv zeta. rewrite Hsig. rewrite zlen_cons, Hl. change (65 + 1 =? 0) with false. cbn [andb]. rewrite Hv. change (0 >? MaxScriptPublicKeyVersion) with false.
  unfold parseScriptAndVerifySize. rewrite zlen_cons, Hl. change (65 + 1 >? MaxScriptSize) with false. rewrite sig_parses by done. cbn [obind]. change (negb (isPushOnly [sig_pop full])) with false. cbv iota.
  rewrite Hs. assert (zlen (p2pk_script pk) >? MaxScriptSize = false) as ->.
  { unfold p2pk_script. rewrite zlen_cons, zlen_app, Hpk. done. }
  rewrite p2pk_parses by done. cbn [obind]. change (isScriptHash (p2pk_pops pk)) with false. cbn [andb]. by eexists.
Qed.

Lemma signed_accepted prefix tx idx flags c1 c2 r r' txIn k full : 0 ≤ idx → tx_Inputs tx !! Z.to_nat idx = Some txIn → let spk := address_spk (key_address prefix k) in
  inputs_ok spk tx idx c1 c2 r → reuse_ok tx r' → are_bytes full → zlen full = 65 → signs_spend tx idx (schnorr_public k) full →
  ∃ vm, NewEngine spk (signed_with tx idx (OpData65 :: full)) idx flags c1 c2 (Some r') = Ret vm ∧ snd (Execute vm) = Ret ().
Proof using All.
  intros Hidx Hin spk Hok Hr' Hb Hz Hsp. set (tx' := signed_with tx idx (OpData65 :: full)). destruct (schnorr_public_ok k) as (Hpk & _ & _).
  assert (inputs_ok spk tx' idx c1 c2 (Some r')) as Hok'.
  { eapply signed_inputs_ok; [done| |done]. constructor; [by vm_compute|done]. }
  assert (tx_Inputs tx' !! Z.to_nat idx = Some (with_script (OpData65 :: full) txIn)) as Hin' by (unfold tx'; cbn [tx_Inputs signed_with]; by rewrite list_lookup_alter, decide_True, Hin).
  pose proof (key_address_script prefix k) as Hscript. destruct (NewEngine_signed spk tx' idx flags c1 c2 (Some r') _ (schnorr_public k) full Hidx Hin' eq_refl Hz eq_refl Hscript Hpk) as [vm Hvm].
  exists vm. split; [done|]. pose proof (NewEngine_p2pk_engine _ _ _ _ _ _ _ _ _ _ Hok' Hin' eq_refl Hpk Hscript Hvm) as Hpe.
  apply (p2pk_canonical vm tx' idx _ (schnorr_public k) full Hpe eq_refl Hz). destruct Hsp as (sb & ht & p & sg & ? & ? & ? & ? & ? & Hv). exists sb, ht, p, sg.
  unfold tx'. rewrite signed_digest. done.
Qed.
End Sign.
