(* ===== verification/AddressProps.v ===== *)
(** * Addresses, standard scripts and signing: the properties

    From the string of an address to the script that pays to it, and from a key to a spend that consensus accepts. *)
From S2P Require Import Prelude Externalapi ScriptNum ScriptStack OpcodeTable Script Hashing SigCache Opcode.
From S2P Require Import OpcodeSafety Engine EngineSafety SigSpec Spend Bech32 StandardScripts Signing.
Import Op ScriptNum Stack Script SigHash SigCache Opcode Exec Bech32 Addresses Builder Standard Sign.
Local Open Scope Z_scope.
Local Open Scope prog_scope.

(** ** Strings *)
Definition encodable (a : Address) : Prop := valid_address a ∧ address_Prefix a ≠ Bech32PrefixUnknown.
Definition expects (p : Bech32Prefix) (a : Address) : Prop := p = Bech32PrefixUnknown ∨ p = address_Prefix a.

Lemma prefix_string_ok p : p ≠ Bech32PrefixUnknown → (1 ≤ length (prefix_String p))%nat ∧ (∀ c, c ∈ prefix_String p → plain c) ∧ ParsePrefix (prefix_String p) = Ret p.
Proof.
  intros Hp. assert (forallb (λ c, bool_decide (plain c)) (prefix_String p) = true) as Hall by (destruct p; by vm_compute).
  split; [destruct p; [done|..]; vm_compute; lia|]. split; [|destruct p; [done|..]; by vm_compute].
  intros c Hc%list_elem_of_In. apply (bool_decide_eq_true_1 (plain c)). by apply (proj1 (forallb_forall _ _) Hall).
Qed.

Definition address_version (a : Address) : Z := match a with AddressPublicKey _ _ => pubKeyAddrID | AddressPublicKeyECDSA _ _ => pubKeyECDSAAddrID | AddressScriptHash _ _ => scriptHashAddrID end.
Lemma EncodeAddress_version a : EncodeAddress a = Encode (prefix_String (address_Prefix a)) (ScriptAddress a) (address_version a).
Proof. by destruct a. Qed.

Lemma DecodeAddress_encoded a s p : encodable a → Decode s = Ret (prefix_String (address_Prefix a), ScriptAddress a, address_version a) →
  DecodeAddress s p = if bool_decide (p = Bech32PrefixUnknown) || bool_decide (p = address_Prefix a) then Ret a else Fail ErrWrongNetwork.
Proof.
  intros [[_ Hl] Hp] Hs. unfold DecodeAddress. rewrite Hs. cbn [obind]. destruct (prefix_string_ok _ Hp) as (_ & _ & ->). cbn [obind].
  destruct (bool_decide (p = Bech32PrefixUnknown)), (bool_decide (p = address_Prefix a)); cbn [negb andb orb]; try done;
    destruct a as [q pk|q pk|q h]; cbn [address_version ScriptAddress address_Prefix] in *; unfold newAddressPubKey, newAddressPubKeyECDSA, newAddressScriptHashFromHash; by rewrite Hl.
Qed.

(** What decoding returns *)
Lemma decode_uint5 s prefix l : decode s = Ret (prefix, l) → uint5s l.
Proof.
  unfold decode. cbv zeta. destruct (_ <? _); [done|]. destruct (existsb _ _); [done|]. destruct (negb _ && negb _); [done|]. destruct (_ || _); [done|].
  destruct (slice _ 0 _) as [pre| |]; [|done..]. cbn [obind]. destruct (slice _ _ _) as [data| |]; [|done..]. cbn [obind]. destruct (decodeFromBase32 data) as [d| |] eqn:Hd; [|done..]. cbn [obind].
  destruct (negb _); [done|]. unfold slice. destruct (decide _); [|done]. cbn [obind]. intros [= _ <-]. apply decodeFromBase32_inv in Hd as [Hd _]. rewrite drop_0. intros x (i & Hx & _)%elem_of_take. apply Hd. by apply list_elem_of_lookup_2 in Hx.
Qed.
Lemma to_bytes l : uint5s l → ∃ out, convertBits l fiveToEightBits = Ret out ∧ are_bytes out ∧ length out = (5 * length l / 8)%nat.
Proof.
  intros Hl. destruct (regroup_spec 8 ltac:(lia) fiveToEightBits l eq_refl ltac:(simpl; lia) Hl _ _ (grouped_empty 8 ltac:(lia))) as (r & Hr & [Hg Hf Hn HB]).
  unfold convertBits. rewrite Hr. cbn [obind pad fiveToEightBits andb]. exists (rg_regrouped r). split; [done|]. split; [apply Forall_forall; intros x Hx; by apply Hg|].
  apply (f_equal length) in HB. simpl in HB. rewrite !length_app, !all_bits_length, bits_length in HB. change (Z.to_nat 5) with 5%nat in HB. change (Z.to_nat 8) with 8%nat in HB.
  apply (Nat.div_unique _ _ _ (Z.to_nat (rg_filledBits r))); lia.
Qed.
(** [Decode] panics on a payload that does not hold a version, and only there. *)
Lemma Decode_cases s : ∀ prefix l, decode s = Ret (prefix, l) →
  if (length l <? 2)%nat then Decode s = Crash IndexOutOfRange
  else ∃ version payload, Decode s = Ret (prefix, payload, version) ∧ are_bytes (version :: payload) ∧ length payload = (5 * length l / 8 - 1)%nat.
Proof.
  intros prefix l Hd. pose proof (decode_uint5 _ _ _ Hd) as Hl. destruct (to_bytes l Hl) as (out & Ho & Hb & Hlen). unfold Decode. rewrite Hd. cbn [obind]. rewrite Ho. cbn [obind].
  destruct (Nat.ltb_spec (length l) 2) as [Hlt|Hge].
  - assert (length out = 0)%nat as Hz by (rewrite Hlen; apply Nat.div_small; lia). destruct out; [done|]. simpl in Hz. lia.
  - destruct out as [|version payload].
    + exfalso. cbn [length] in Hlen. assert (1 ≤ 5 * length l / 8)%nat by (apply Nat.div_le_lower_bound; lia). lia.
    + rewrite (index_middle [] payload version) by done. cbn [obind]. rewrite (slice_back [version] payload) by (rewrite ?zlen_cons; unfold zlen; simpl; lia). cbn [obind].
      exists version, payload. split; [done|]. split; [done|]. cbn [length] in Hlen. lia.
Qed.
Lemma decode_no_crash s c : decode s ≠ Crash c.
Proof.
  unfold decode. cbv zeta. destruct (_ <? _); [done|]. destruct (existsb _ _); [done|]. destruct (negb _ && negb _); [done|]. set (e := map toLower s). set (i := LastIndexByte e colon).
  destruct (Z.ltb_spec i 1) as [|Hi]; [done|]. destruct (Z.ltb_spec (zlen e) (i + checksumLength + 1)) as [|Hlen]; [done|]. cbn [orb]. unfold checksumLength in Hlen. unfold slice. rewrite decide_True by lia. cbn [obind].
  rewrite decide_True by lia. cbn [obind]. set (data := take _ _). assert (∀ c, decodeFromBase32 data ≠ Crash c) as Hno.
  { clear. induction data as [|x data IH]; intros c; [done|]. cbn [decodeFromBase32]. destruct (list_find _ _) as [[]|]; [|done]. destruct (decodeFromBase32 data) as [| |c']; [done..|]. specialize (IH c'). done. }
  destruct (decodeFromBase32 data) as [d| |c'] eqn:Hd; [|done|by specialize (Hno c')]. cbn [obind]. destruct (negb _); [done|].
  rewrite decide_True; [done|]. apply decodeFromBase32_inv in Hd as [_ Hd]. assert (zlen d = zlen e - (i + 1)) as ->.
  { apply (f_equal length) in Hd. unfold chars in Hd. rewrite length_map in Hd. unfold data in Hd. rewrite length_take, length_drop in Hd. unfold zlen in *. lia. }
  unfold checksumLength. lia.
Qed.
Lemma known_prefixes i k : stringsToBech32Prefixes !! i ≠ Some (k, Bech32PrefixUnknown).
Proof. intros Hi%list_elem_of_lookup_2%list_elem_of_In. by repeat (destruct Hi as [Hi|Hi]; [discriminate Hi|]). Qed.
Lemma DecodeAddress_sound s p a : DecodeAddress s p = Ret a → encodable a ∧ expects p a.
Proof.
  unfold DecodeAddress. destruct (Decode s) as [[[pre payload] version]| |] eqn:Hs; [|done..]. cbn [obind]. destruct (ParsePrefix pre) as [q| |] eqn:Hq; [|done..]. cbn [obind].
  assert (q ≠ Bech32PrefixUnknown) as Hne.
  { intros ->. revert Hq. unfold ParsePrefix. destruct (list_find _ _) as [[i [k q]]|] eqn:Hf; [|done]. intros [= ->]. apply list_find_Some in Hf as (Hi & _ & _). by apply known_prefixes in Hi. }
  assert (are_bytes payload) as Hb.
  { revert Hs. unfold Decode. destruct (decode s) as [[pre' l]| |] eqn:Hd; [|done..]. pose proof (Decode_cases s _ _ Hd) as Hc. unfold Decode in Hc. rewrite Hd in Hc.
    intros Hs. destruct (_ <? 2)%nat; [by rewrite Hc in Hs|]. destruct Hc as (v & pl & Hc & [_ Hpl]%are_bytes_cons & _). rewrite Hc in Hs. by injection Hs as _ <- _. }
  destruct (negb _ && negb _) eqn:Hp; [done|]. assert (p = Bech32PrefixUnknown ∨ p = q) as Hexp.
  { apply andb_false_iff in Hp as [Hp|Hp]; apply negb_false_iff, bool_decide_eq_true in Hp; auto. }
  unfold newAddressPubKey, newAddressPubKeyECDSA, newAddressScriptHashFromHash.
  do 3 (destruct (version =? _); [destruct (_ =? _) eqn:Hz; [apply Z.eqb_eq in Hz|]; cbn [negb]; [|done]; intros [= <-]; split; [split; [split; [exact Hb|exact Hz]|exact Hne]|exact Hexp]|]). done.
Qed.

(** ** Properties *)
Module AddressProps.
(** C39: the string of an address.  Encoding an address with a public key or script hash of its size and the prefix of a network gives a string that
    decodes to the same address, for the caller that expects its network or any; for another network the error is [ErrWrongNetwork].  And whatever string
    decodes, the address has the size of its kind, the prefix of a network, and that network is the expected one. *)
Theorem address_roundtrip (a : Address) :
  (encodable a → ∃ s, EncodeAddress a = Ret s ∧ ∀ p, (expects p a → DecodeAddress s p = Ret a) ∧ (¬ expects p a → DecodeAddress s p = Fail ErrWrongNetwork)) ∧
  (∀ s p, DecodeAddress s p = Ret a → encodable a ∧ expects p a).
Proof.
  split; [|intros s p; apply DecodeAddress_sound]. intros Ha. pose proof Ha as [[Hb _] Hp]. destruct (prefix_string_ok _ Hp) as (H1 & Hplain & _).
  destruct (Decode_Encode (prefix_String (address_Prefix a)) (ScriptAddress a) (address_version a) H1 Hplain) as (s & He & Hd); [constructor; [by destruct a|done]|].
  exists s. rewrite EncodeAddress_version. split; [done|]. intros p. rewrite (DecodeAddress_encoded a s p Ha Hd). unfold expects. split.
  - intros [->| ->]; [by rewrite bool_decide_eq_true_2|]. by rewrite (bool_decide_eq_true_2 (address_Prefix a = address_Prefix a)), orb_true_r.
  - intros Hn. by rewrite !bool_decide_eq_false_2 by tauto.
Qed.

Definition sample_address : Address := AddressPublicKey Bech32PrefixKaspaTest (map Z.of_nat (seq 0 32)).
Lemma sample_encodable : encodable sample_address.
Proof. split; [split; [apply (bool_decide_eq_true_1 (are_bytes _)); by vm_compute|reflexivity]|discriminate]. Qed.
Lemma address_roundtrip_witness : ∃ s, EncodeAddress sample_address = Ret s ∧ DecodeAddress s Bech32PrefixKaspaTest = Ret sample_address ∧ DecodeAddress s Bech32PrefixKaspa = Fail ErrWrongNetwork.
Proof.
  destruct (proj1 (address_roundtrip sample_address) sample_encodable) as (s & He & Hd). exists s. split; [exact He|]. split; [apply (Hd Bech32PrefixKaspaTest); right; reflexivity|].
  apply (Hd Bech32PrefixKaspa). intros [E|E]; discriminate E.
Defined.

(** C40: the checksum detects errors.  Two strings with the same prefix that differ in up to eight characters in a row behind the colon, anywhere in the
    payload or the checksum, are not both addresses: if both decode, they differ at most in the case of letters. *)
Theorem address_errors_detected (prefix d1 e1 e2 d2 : list Z) p1 p2 a1 a2 :
  (1 ≤ length prefix)%nat → (8 ≤ length (d1 ++ e1 ++ d2))%nat → length e1 = length e2 → (length e1 ≤ 8)%nat → colon ∉ d1 ++ e1 ++ e2 ++ d2 →
  DecodeAddress (prefix ++ [colon] ++ d1 ++ e1 ++ d2) p1 = Ret a1 → DecodeAddress (prefix ++ [colon] ++ d1 ++ e2 ++ d2) p2 = Ret a2 → map toLower e1 = map toLower e2.
Proof.
  intros Hp Hd Hlen H8 Hc H1 H2. unfold DecodeAddress, Decode in H1, H2. destruct (decode (prefix ++ [colon] ++ d1 ++ e1 ++ d2)) as [r1| |] eqn:E1; [|done..].
  destruct (decode (prefix ++ [colon] ++ d1 ++ e2 ++ d2)) as [r2| |] eqn:E2; [|done..]. by apply (decode_row prefix d1 e1 e2 d2 r1 r2).
Qed.

Definition sample_string : list Z := match EncodeAddress sample_address with Ret s => s | _ => [] end.
(** the payload behind [kaspatest:], cut after twelve characters and after sixteen *)
Definition sample_payload : list Z := drop 10 sample_string.
Lemma address_errors_detected_witness :
  sample_string = bytes_of_string "kaspatest" ++ [colon] ++ take 12 sample_payload ++ bytes_of_string "vpcg" ++ drop 16 sample_payload ∧
  ¬ ∃ a, DecodeAddress (bytes_of_string "kaspatest" ++ [colon] ++ take 12 sample_payload ++ bytes_of_string "vpgc" ++ drop 16 sample_payload) Bech32PrefixUnknown = Ret a.
Proof.
  split; [vm_compute; reflexivity|]. intros [a Ha].
  assert (DecodeAddress (bytes_of_string "kaspatest" ++ [colon] ++ take 12 sample_payload ++ bytes_of_string "vpcg" ++ drop 16 sample_payload) Bech32PrefixUnknown = Ret sample_address) as Hs by (vm_compute; reflexivity).
  assert (map toLower (bytes_of_string "vpcg") = map toLower (bytes_of_string "vpgc")) as E.
  { apply (address_errors_detected (bytes_of_string "kaspatest") (take 12 sample_payload) (bytes_of_string "vpcg") (bytes_of_string "vpgc") (drop 16 sample_payload)
      Bech32PrefixUnknown Bech32PrefixUnknown sample_address a); [vm_compute; lia|vm_compute; lia|reflexivity|vm_compute; lia| |exact Hs|exact Ha].
    apply (bool_decide_eq_true_1 (colon ∉ _)). vm_compute. reflexivity. }
  vm_compute in E. discriminate E.
Defined.

(** A string without a version byte makes [Decode] panic. *)
Example decode_panics : DecodeAddress (encode (bytes_of_string "kaspa") []) Bech32PrefixUnknown = Crash IndexOutOfRange.
Proof. vm_compute. reflexivity. Qed.
(** Groups of bits behind the payload are not looked at, so an address has several strings. *)
Example second_string :
  let data := match convertBits (pubKeyAddrID :: ScriptAddress sample_address) eightToFiveBits with Ret l => l | _ => [] end in
  sample_string = encode (bytes_of_string "kaspatest") data ∧ DecodeAddress (encode (bytes_of_string "kaspatest") (data ++ [9])) Bech32PrefixUnknown = Ret sample_address.
Proof. vm_compute. split; reflexivity. Qed.
End AddressProps.

Module ScriptBuilderProps.
(** C37: what [AddData] builds.  For any items of bytes, the builder ends without an error exactly when every item fits an element and the script fits a script;
    then the script parses to one opcode per item, is push only, and executing these opcodes pushes exactly the items, in order, on the data stack, except that
    the item [0x00] becomes the empty item. *)
Theorem builder_pushes `{Libs} (items : list (list Z)) (vm : Engine) :
  Forall are_bytes items → vm_condStack vm = [] → let b := fold_left AddData items NewScriptBuilder in
  (sb_err b = None ↔ pushes_fit items) ∧
  (sb_err b = None → ∃ pops, parseScriptE (sb_script b) = Ret pops ∧ length pops = length items ∧ isPushOnly pops = true ∧
     executeAll pops vm = (set_dstack (vm_dstack vm ++ map pushed items) vm, Ret ())).
Proof.
  intros Hb Hc b. destruct (AddData_fold items Hb) as [Hfit Hs]. split; [exact Hfit|]. intros He. pose proof (proj1 Hfit He) as [Hl _]. exists (map push_pop items). unfold b. rewrite (Hs He).
  split; [by apply encodings_parse, push_pops_ok|]. split; [apply length_map|]. split; [by apply push_only|]. by apply executes_pushes.
Qed.

Definition sample_items : list (list Z) := [[]; [0]; [16]; [129]; [5; 6]; replicate 300 7].
Lemma builder_pushes_witness :
  sb_err (fold_left AddData sample_items NewScriptBuilder) = None ∧
  ∃ pops, parseScriptE (sb_script (fold_left AddData sample_items NewScriptBuilder)) = Ret pops ∧ length pops = 6%nat ∧ isPushOnly pops = true ∧
    executeAll pops (SigProps.vm_with []) = (set_dstack [[]; []; [16]; [129]; [5; 6]; replicate 300 7] (SigProps.vm_with []), Ret ()).
Proof.
  assert (Forall are_bytes sample_items) as Hb by (apply (bool_decide_eq_true_1 (Forall are_bytes sample_items)); vm_compute; reflexivity).
  assert (sb_err (fold_left AddData sample_items NewScriptBuilder) = None) as He by (vm_compute; reflexivity). split; [exact He|].
  exact (proj2 (builder_pushes sample_items (SigProps.vm_with []) Hb eq_refl) He).
Defined.

(** [CalcScriptInfo] panics on an empty signature script of a pay-to-script-hash output, and [ScriptClass.String] on the first invalid class. *)
Example calc_script_info_panics : CalcScriptInfo [] (OpBlake2b :: OpData32 :: replicate 32 1 ++ [OpEqual]) true = Crash IndexOutOfRange ∧ ScriptClass_String 4 = Crash IndexOutOfRange.
Proof. vm_compute. split; reflexivity. Qed.
End ScriptBuilderProps.

Module StandardProps.
(** C38: standard scripts are addresses.  The script that pays to an address of the right size is one that [ExtractScriptPubKeyAddress] reads as the class of
    the address and the address itself.  Conversely a script public key of bytes from which an address is extracted is the script that pays to that address, byte
    for byte, and the address has the right size and the prefix of the parameters. *)
Theorem pay_to_address_correct (a : Address) :
  (valid_address a → ∃ spk, PayToAddrScript (Some a) = Ret spk ∧ ExtractScriptPubKeyAddress spk (address_Prefix a) = Ret (class_of a, Some a) ∧ GetScriptClass (spk_Script spk) = Ret (class_of a)) ∧
  (∀ spk p c, are_bytes (spk_Script spk) → 0 ≤ spk_Version spk → ExtractScriptPubKeyAddress spk p = Ret (c, Some a) →
     PayToAddrScript (Some a) = Ret spk ∧ valid_address a ∧ address_Prefix a = p ∧ c = class_of a).
Proof.
  split.
  - intros Hv. exists (address_spk a). split; [by apply PayToAddrScript_spec|]. split; [by apply Extract_of_address|]. unfold GetScriptClass, address_spk. cbn [spk_Script].
    by rewrite encodings_parse, typeOf_address by (done || by apply address_pops_ok).
  - intros spk p c Hb Hver Hx. destruct (Extract_inv spk p c a Hb Hver Hx) as (-> & Hv & Hp & Hc). split; [by apply PayToAddrScript_spec|]. done.
Qed.
Lemma pay_to_address_correct_witness : ∃ spk, PayToAddrScript (Some AddressProps.sample_address) = Ret spk ∧
  ExtractScriptPubKeyAddress spk Bech32PrefixKaspaTest = Ret (PubKeyTy, Some AddressProps.sample_address) ∧ GetScriptClass (spk_Script spk) = Ret PubKeyTy.
Proof. exact (proj1 (pay_to_address_correct AddressProps.sample_address) (proj1 AddressProps.sample_encodable)). Defined.
End StandardProps.

Module SigningProps.
(** C13: what the wallet signs, consensus accepts.  For an input whose output pays to the address of a key: when the key signs the signature hash, [SignTxOutput]
    with a database that knows the key returns a script, and with this script in the input, the engine runs and accepts the spend, whatever the signature caches
    hold, and also with the reused values that signing has filled in. *)
Theorem signed_output_spends `{LibsOk} `{!SigningKeys} `{!SigningKeysOk} fuel prefix tx idx ht k kdb sdb txIn utxo r s flags c1 c2 spk :
  PayToAddrScript (Some (AddressPublicKey prefix (schnorr_public k))) = Ret spk → 0 ≤ idx → tx_Inputs tx !! Z.to_nat idx = Some txIn → in_UTXOEntry txIn = Some utxo →
  inputs_ok spk tx idx c1 c2 (Some r) → IsStandardSigHashType ht = true → GetKey kdb (Some (AddressPublicKey prefix (schnorr_public k))) = Some k →
  SchnorrSign k (schnorr_digest tx idx ht) = Some s →
  ∃ r' script vm, SignTxOutput (S fuel) prefix tx idx spk ht kdb sdb (Some no_script) (Some r) = (Some r', Ret script) ∧
    NewEngine spk (signed_with tx idx script) idx flags c1 c2 (Some r') = Ret vm ∧ snd (Execute vm) = Ret ().
Proof.
  intros Hspk Hidx Hin Hu Hok Hst Hk Hs. fold (key_address prefix k) in *. rewrite (PayToAddrScript_spec _ (key_address_valid prefix k)) in Hspk. injection Hspk as <-.
  destruct (io_reuse _ _ _ _ _ _ Hok) as (v & [= <-] & Hr). destruct (SignTxOutput_run fuel prefix tx idx ht k kdb sdb txIn utxo r s) as (r' & Hsign & Hr' & Hb & Hz & Hsp); [done..|].
  destruct (signed_accepted prefix tx idx flags c1 c2 (Some r) r' txIn k _ Hidx Hin Hok Hr' Hb Hz Hsp) as (vm & Hvm & Hex). by exists r', (OpData65 :: SchnorrSignature_Serialize s ++ [ht]), vm.
Qed.

(** The toy scheme with one key *)
#[local] Instance toy_keys : SigningKeys := {|
  SchnorrKeyPair := unit; SchnorrSign := λ _ h, if bool_decide (digest_ok h) then Some (h ++ SigProps.sample_key) else None; SchnorrSignature_Serialize := λ s, s;
  ECDSAPrivateKey := unit; ECDSASign := λ _ _, None; ECDSASignature_Serialize := λ s, s; schnorr_public := λ _, SigProps.sample_key |}.
Lemma sample_key_bytes : are_bytes SigProps.sample_key.
Proof. apply (bool_decide_eq_true_1 (are_bytes _)). vm_compute. reflexivity. Qed.
#[local] Instance toy_keys_ok : SigningKeysOk.
Proof.
  split; simpl.
  - intros _. split; [done|]. split; [apply sample_key_bytes|]. by eexists.
  - intros _ h s [Hb Hl]. destruct (bool_decide (digest_ok h)); [|done]. intros [= <-]. rewrite zlen_app, Hl. assert (are_bytes (h ++ SigProps.sample_key)) as Hbs by (apply are_bytes_app; split; [done|apply sample_key_bytes]).
    split; [done|]. split; [done|]. by rewrite bool_decide_eq_true_2.
  - intros _ h s p. destruct (bool_decide (digest_ok h)); [|done]. intros [= <-] [= <-]. by apply bool_decide_eq_true_2.
Qed.
Definition sample_kdb : KeyDB := {| GetKey := λ _, Some tt |}.
Definition sample_sdb : ScriptDB := {| GetScript := λ _, None |}.
Definition unsigned_tx : DomainTransaction := SpendProps.p2pk_tx [].
Lemma unsigned_ok : inputs_ok SpendProps.p2pk_spk unsigned_tx 0 None None (Some HashingProps.no_values).
Proof.
  split; try done.
  - apply (bool_decide_eq_true_1 (are_bytes (spk_Script SpendProps.p2pk_spk))). by vm_compute.
  - constructor; [constructor|constructor].
  - constructor; [by eexists|constructor].
  - eexists. split; [done|]. repeat split; intros ? [=].
Qed.
Lemma signed_output_spends_witness :
  ∃ r' script vm, SignTxOutput 1 Bech32PrefixKaspa unsigned_tx 0 SpendProps.p2pk_spk SigHashAll sample_kdb sample_sdb (Some no_script) (Some HashingProps.no_values) = (Some r', Ret script) ∧
    NewEngine SpendProps.p2pk_spk (signed_with unsigned_tx 0 script) 0 0 None None (Some r') = Ret vm ∧ snd (Execute vm) = Ret ().
Proof.
  apply (@signed_output_spends toy_libs toy_libs_ok toy_keys toy_keys_ok 0%nat Bech32PrefixKaspa unsigned_tx 0 SigHashAll tt sample_kdb sample_sdb (SpendProps.p2pk_input [])
    {| ue_amount := 5; ue_scriptPublicKey := SpendProps.p2pk_spk; ue_blockDAAScore := 1; ue_isCoinbase := false |} HashingProps.no_values
    (schnorr_digest unsigned_tx 0 SigHashAll ++ SigProps.sample_key)).
  - vm_compute. reflexivity.
  - vm_compute. discriminate.
  - reflexivity.
  - reflexivity.
  - exact unsigned_ok.
  - vm_compute. reflexivity.
  - reflexivity.
  - vm_compute. reflexivity.
Defined.

(** ** Merging scripts of pay-to-script-hash outputs *)
Definition redeem : list Z := p2pk_script SigProps.sample_key.
Definition push_redeem : list Z := 34 :: redeem.
Definition sig_script : list Z := OpData65 :: replicate 65 1 ++ push_redeem.
(** The last push is not removed before merging, so the merged script pushes the redeem script twice. *)
Example merge_repeats_redeem : mergeScripts 2 Bech32PrefixKaspa unsigned_tx 0 ScriptHashTy sig_script (Some {| spk_Script := push_redeem; spk_Version := 0 |}) = Ret (sig_script ++ push_redeem).
Proof. vm_compute. reflexivity. Qed.

(** When the redeem script is itself of the pay-to-script-hash form, merging calls itself with the same arguments, and never returns. *)
Definition nested : list Z := 35 :: OpBlake2b :: OpData32 :: replicate 32 1 ++ [OpEqual].
Lemma merge_diverges fuel : mergeScripts fuel Bech32PrefixKaspa unsigned_tx 0 ScriptHashTy nested (Some {| spk_Script := [Op1]; spk_Version := 0 |}) = Crash OutOfFuel.
Proof.
  induction fuel as [|fuel IH]; [reflexivity|]. cbn [mergeScripts]. set (rec := mergeScripts fuel Bech32PrefixKaspa unsigned_tx 0) in *. clearbody rec.
  transitivity (let? merged := rec ScriptHashTy nested (Some {| spk_Script := [Op1]; spk_Version := 0 |}) in built (AddData (AddOps NewScriptBuilder merged) (drop 1 nested))); [|by rewrite IH].
  vm_compute. reflexivity.
Qed.
(** Without a script to merge with, every branch dereferences a nil pointer. *)
Example no_previous_script : snd (SignTxOutput 1 Bech32PrefixKaspa unsigned_tx 0 SpendProps.p2pk_spk SigHashAll sample_kdb sample_sdb None (Some HashingProps.no_values)) = Crash NilDereference.
Proof. vm_compute. reflexivity. Qed.
End SigningProps.
