(* ===== verification/Mempool.v ===== *)
(** * The mempool (domain/miningmanager/mempool)

    Transactions and their descriptors are shared objects: the maps of the pool hold pointers, validation fills in the transaction that a pointer leads to, and the dependency count of a descriptor is changed
    through a map of previous outpoints.  The state has a heap of transactions, which only validation writes to, the main pool with a heap of descriptors, and the orphan pool.  Ids are cached in
    transactions by [TransactionID]; a cached id is the id that would be computed, so the model computes it where it is read.  The lock of the pool makes every operation atomic.

    The consensus is an argument: the operation that validates a transaction and fills in its entries, fee and mass.  What the pool relies on in it is the class [ConsensusOk] of MempoolProps.v. *)
From Stdlib Require Import Floats.SpecFloat.
From S2P Require Import Prelude Externalapi UtxoDiff ScriptNum ScriptStack OpcodeTable Script Hashing SigCache Opcode Engine.
From S2P Require Import Interval ReachabilityData Reachability DagTopology Block Ghostdag Heap Window DifficultyManager Traversal TransactionValidator PastUtxo Stores Bech32 StandardScripts.
Import Interval TransactionHashing Script TransactionValidator PastUtxo Standard.
Local Open Scope Z_scope.
Local Open Scope prog_scope.

(** A pointer to a transaction or to a descriptor *)
Abbreviation pointer := nat (only parsing).
Abbreviation txID := (list Z) (only parsing).

(** ** Errors (error.go) *)
Inductive RejectCode :=
  | RejectMalformed
  | RejectInvalid
  | RejectObsolete
  | RejectDuplicate
  | RejectNotRequested
  | RejectNonstandard
  | RejectDust
  | RejectInsufficientFee
  | RejectFinality
  | RejectDifficulty
  | RejectImmatureSpend.

(** [RuleError]s with a [TxRuleError] or another error in them, the unnamed errors of the pool's own checks, and errors of the consensus *)
Inductive poolError :=
  | TxRuleError (c : RejectCode)
  | OtherRuleError
  | ErrOutpointUsed
  | ErrOutpointExists
  | ErrOutpointMissing
  | ErrNotPopulated
  | ErrNotOrdered
  | ConsensusError.
Definition isPoolRuleError (e : poolError) : bool := match e with TxRuleError _ | OtherRuleError => true | _ => false end.

Definition extractRejectCode (e : poolError) : RejectCode * bool := match e with TxRuleError c => (c, true) | _ => (RejectInvalid, false) end.

Module Mempool.
Record policy := {
  MaxTxVersion : Z;
  AcceptNonStd : bool;
  MaxOrphanTxs : Z;
  MaxOrphanTxSize : Z;
  MinRelayTxFee : Z
}.

Record txDescriptor := {
  td_tx : pointer;
  depCount : Z
}.

Record orphanTx := {
  ot_tx : pointer;
  expiration : Z
}.

(** The main pool: [pool], [chainedTransactions] and their indices, with the maps of the [mempoolUTXOSet] *)
Record mainPool := {
  descriptors : gmap pointer txDescriptor;
  pool : gmap txID pointer;
  chainedTransactions : gmap txID pointer;
  chainedTransactionByPreviousOutpoint : gmap DomainOutpoint pointer;
  transactionByPreviousOutpoint : gmap DomainOutpoint pointer;
  poolUnspentOutputs : gmap DomainOutpoint utxoEntry;
  orderedTransactionsByFeeRate : list pointer
}.

Record orphanPool := {
  orphans : gmap txID orphanTx;
  orphansByPrev : gmap DomainOutpoint (gmap txID pointer);
  nextExpireScan : Z
}.

Record mempool := {
  mp_heap : gmap pointer DomainTransaction;
  mp_main : mainPool;
  mp_orphans : orphanPool;
  mp_policy : policy;
  (** [dagParams.MaxMassAcceptedByBlock] *)
  MaxMassAcceptedByBlock : Z
}.

(** Updates of single fields *)
Definition set_descriptors x m := {| descriptors := x; pool := pool m; chainedTransactions := chainedTransactions m; chainedTransactionByPreviousOutpoint := chainedTransactionByPreviousOutpoint m; transactionByPreviousOutpoint := transactionByPreviousOutpoint m; poolUnspentOutputs := poolUnspentOutputs m; orderedTransactionsByFeeRate := orderedTransactionsByFeeRate m |}.
Definition set_pool x m := {| descriptors := descriptors m; pool := x; chainedTransactions := chainedTransactions m; chainedTransactionByPreviousOutpoint := chainedTransactionByPreviousOutpoint m; transactionByPreviousOutpoint := transactionByPreviousOutpoint m; poolUnspentOutputs := poolUnspentOutputs m; orderedTransactionsByFeeRate := orderedTransactionsByFeeRate m |}.
Definition set_chained x m := {| descriptors := descriptors m; pool := pool m; chainedTransactions := x; chainedTransactionByPreviousOutpoint := chainedTransactionByPreviousOutpoint m; transactionByPreviousOutpoint := transactionByPreviousOutpoint m; poolUnspentOutputs := poolUnspentOutputs m; orderedTransactionsByFeeRate := orderedTransactionsByFeeRate m |}.
Definition set_chainedByPrev x m := {| descriptors := descriptors m; pool := pool m; chainedTransactions := chainedTransactions m; chainedTransactionByPreviousOutpoint := x; transactionByPreviousOutpoint := transactionByPreviousOutpoint m; poolUnspentOutputs := poolUnspentOutputs m; orderedTransactionsByFeeRate := orderedTransactionsByFeeRate m |}.
Definition set_spenders x m := {| descriptors := descriptors m; pool := pool m; chainedTransactions := chainedTransactions m; chainedTransactionByPreviousOutpoint := chainedTransactionByPreviousOutpoint m; transactionByPreviousOutpoint := x; poolUnspentOutputs := poolUnspentOutputs m; orderedTransactionsByFeeRate := orderedTransactionsByFeeRate m |}.
Definition set_unspent x m := {| descriptors := descriptors m; pool := pool m; chainedTransactions := chainedTransactions m; chainedTransactionByPreviousOutpoint := chainedTransactionByPreviousOutpoint m; transactionByPreviousOutpoint := transactionByPreviousOutpoint m; poolUnspentOutputs := x; orderedTransactionsByFeeRate := orderedTransactionsByFeeRate m |}.
Definition set_ordered x m := {| descriptors := descriptors m; pool := pool m; chainedTransactions := chainedTransactions m; chainedTransactionByPreviousOutpoint := chainedTransactionByPreviousOutpoint m; transactionByPreviousOutpoint := transactionByPreviousOutpoint m; poolUnspentOutputs := poolUnspentOutputs m; orderedTransactionsByFeeRate := x |}.
Definition set_orphans x o := {| orphans := x; orphansByPrev := orphansByPrev o; nextExpireScan := nextExpireScan o |}.
Definition set_orphansByPrev x o := {| orphans := orphans o; orphansByPrev := x; nextExpireScan := nextExpireScan o |}.
Definition set_nextExpireScan x o := {| orphans := orphans o; orphansByPrev := orphansByPrev o; nextExpireScan := x |}.
Definition set_heap x mp := {| mp_heap := x; mp_main := mp_main mp; mp_orphans := mp_orphans mp; mp_policy := mp_policy mp; MaxMassAcceptedByBlock := MaxMassAcceptedByBlock mp |}.
Definition set_main x mp := {| mp_heap := mp_heap mp; mp_main := x; mp_orphans := mp_orphans mp; mp_policy := mp_policy mp; MaxMassAcceptedByBlock := MaxMassAcceptedByBlock mp |}.
Definition set_orphanPool x mp := {| mp_heap := mp_heap mp; mp_main := mp_main mp; mp_orphans := x; mp_policy := mp_policy mp; MaxMassAcceptedByBlock := MaxMassAcceptedByBlock mp |}.

(** [mstime.Time] in milliseconds *)
Definition orphanTTL : Z := 15 * 60 * 1000.
Definition orphanExpireScanInterval : Z := 5 * 60 * 1000.
Definition coinbaseIndex : nat := 0.
Definition unacceptedDAAScore : Z := 2 ^ 64 - 1.
Definition limit : Z := 1000000.

Section Mempool.
Context `{Libs}.

Abbreviation mainM A := (prog mainPool poolError A) (only parsing).
Abbreviation orphanM A := (prog orphanPool poolError A) (only parsing).
Abbreviation poolM A := (prog mempool poolError A) (only parsing).

Definition txid (tx : DomainTransaction) : txID := fst (TransactionID tx).
(** [DomainOutpoint{TransactionID: txID, Index: uint32(i)}] for every output *)
Definition outpoints (tx : DomainTransaction) : list DomainOutpoint :=
  imap (λ i _, NewDomainOutpoint (txid tx) (GoInt.uint32 (Z.of_nat i))) (tx_Outputs tx).
Definition spent (tx : DomainTransaction) : list DomainOutpoint := map in_PreviousOutpoint (tx_Inputs tx).

Section Main.
(** The transactions behind the pointers *)
Variable h : gmap pointer DomainTransaction.

Definition load {S} (p : pointer) : prog S poolError DomainTransaction :=
  match h !! p with Some tx => ret tx | None => crash_with NilDereference end.
Definition loadDesc (d : pointer) : mainM txDescriptor :=
  let* ds := gets descriptors in
  match ds !! d with Some desc => ret desc | None => crash_with NilDereference end.

(** ** mempool_utxoset.go *)

(** The inputs whose entries are in the pool get them. *)
Definition populateUTXOEntries (m : mainPool) (tx : DomainTransaction) : DomainTransaction * list DomainOutpoint :=
  (set_Inputs (map (λ txIn, match poolUnspentOutputs m !! in_PreviousOutpoint txIn with Some utxoEntry => set_UTXOEntry utxoEntry txIn | None => txIn end) (tx_Inputs tx)) tx,
   filter (λ o, is_Some (poolUnspentOutputs m !! o)) (spent tx)).

Definition checkExists (m : mainPool) (tx : DomainTransaction) : bool :=
  if existsb (λ o, bool_decide (is_Some (transactionByPreviousOutpoint m !! o))) (spent tx) then true
  else existsb (λ o, bool_decide (is_Some (poolUnspentOutputs m !! o))) (outpoints tx).

Fixpoint addSpent (p : pointer) (os : list DomainOutpoint) : mainM unit :=
  match os with
  | [] => ret ()
  | o :: os =>
      let* m := get in
      if bool_decide (is_Some (transactionByPreviousOutpoint m !! o)) then fail ErrOutpointUsed
      else modify (set_spenders (<[o := p]> (transactionByPreviousOutpoint m))) ;;* addSpent p os
  end.
Fixpoint addPoolOutputs (id : txID) (i : Z) (outputs : list DomainTransactionOutput) : mainM unit :=
  match outputs with
  | [] => ret ()
  | txOut :: outputs =>
      let* m := get in
      let outpoint := NewDomainOutpoint id (GoInt.uint32 i) in
      if bool_decide (is_Some (poolUnspentOutputs m !! outpoint)) then fail ErrOutpointExists
      else
        modify (set_unspent (<[outpoint := NewUTXOEntry (out_Value txOut) (out_ScriptPublicKey txOut) false unacceptedDAAScore]> (poolUnspentOutputs m))) ;;*
        addPoolOutputs id (i + 1) outputs
  end.
Definition addTx (p : pointer) : mainM unit :=
  let* tx := load p in
  addSpent p (spent tx) ;;*
  addPoolOutputs (txid tx) 0 (tx_Outputs tx).

Fixpoint removeSpent (os : list DomainOutpoint) : mainM unit :=
  match os with
  | [] => ret ()
  | o :: os =>
      let* m := get in
      if bool_decide (is_Some (transactionByPreviousOutpoint m !! o))
      then modify (set_spenders (delete o (transactionByPreviousOutpoint m))) ;;* removeSpent os
      else fail ErrOutpointMissing
  end.
Fixpoint removeOutputs (os : list DomainOutpoint) : mainM unit :=
  match os with
  | [] => ret ()
  | o :: os =>
      let* m := get in
      if bool_decide (is_Some (poolUnspentOutputs m !! o))
      then modify (set_unspent (delete o (poolUnspentOutputs m))) ;;* removeOutputs os
      else fail ErrOutpointMissing
  end.
Definition removeTx (p : pointer) : mainM unit :=
  let* tx := load p in
  removeSpent (spent tx) ;;*
  removeOutputs (outpoints tx).

Definition poolTransactionBySpendingOutpoint (m : mainPool) (outpoint : DomainOutpoint) : option pointer := transactionByPreviousOutpoint m !! outpoint.

(** ** The order by fee rate *)

(** [sort.Search] *)
Fixpoint sortSearch (fuel : nat) (f : Z → outcome poolError bool) (i j : Z) : outcome poolError Z :=
  match fuel with
  | O => Crash OutOfFuel
  | S fuel =>
      if i <? j then
        let m := (i + j) / 2 in
        let? b := f m in
        if b then sortSearch fuel f i m else sortSearch fuel f (m + 1) j
      else Ret i
  end.

Definition feeRate (tx : DomainTransaction) : spec_float := Float64.div (Float64.of_uint64 (tx_Fee tx)) (Float64.of_uint64 (tx_Mass tx)).
(** The function that is searched with: whether an element is not before [tx] *)
Definition notBefore (tx element : DomainTransaction) : bool :=
  if SFltb (feeRate tx) (feeRate element) then true
  else SFeqb (feeRate element) (feeRate tx) && hash_LessOrEqual (txid tx) (txid element).

Definition findTxIndexInOrderedTransactionsByFeeRate (p : pointer) : mainM Z :=
  let* tx := load p in
  if (tx_Fee tx =? 0) || (tx_Mass tx =? 0) then fail ErrNotPopulated
  else
    let* ordered := gets orderedTransactionsByFeeRate in
    lift_outcome (sortSearch (S (length ordered)) (λ i,
      let? q := index ordered i in
      match h !! q with Some element => Ret (notBefore tx element) | None => Crash NilDereference end) 0 (zlen ordered)).

Definition addTransactionToOrderedTransactionsByFeeRate (p : pointer) : mainM unit :=
  let* i := findTxIndexInOrderedTransactionsByFeeRate p in
  let* ordered := gets orderedTransactionsByFeeRate in
  let* front := lift_outcome (slice ordered 0 i) in
  let* back := lift_outcome (slice ordered i (zlen ordered)) in
  modify (set_ordered (front ++ p :: back)).

Definition removeTransactionFromOrderedTransactionsByFeeRate (p : pointer) : mainM unit :=
  let* i := findTxIndexInOrderedTransactionsByFeeRate p in
  let* tx := load p in
  let* ordered := gets orderedTransactionsByFeeRate in
  let* q := lift_outcome (index ordered i) in
  let* found := load q in
  if negb (bool_decide (txid found = txid tx)) then fail ErrNotOrdered
  else
    let* front := lift_outcome (slice ordered 0 i) in
    let* back := lift_outcome (slice ordered (i + 1) (zlen ordered)) in
    modify (set_ordered (front ++ back)).

(** ** The main pool *)
Definition isInDependPool (m : mainPool) (id : txID) : bool := bool_decide (is_Some (chainedTransactions m !! id)).
Definition isTransactionInPool (m : mainPool) (id : txID) : bool := bool_decide (is_Some (pool m !! id)) || isInDependPool m id.
Definition fetchTxDesc (m : mainPool) (id : txID) : option pointer :=
  match pool m !! id with Some d => Some d | None => chainedTransactions m !! id end.

Fixpoint forM {S A} (l : list A) (body : A → prog S poolError unit) : prog S poolError unit :=
  match l with
  | [] => ret ()
  | a :: l => body a ;;* forM l body
  end.

Definition addTransaction (p : pointer) (parentsInPool : list DomainOutpoint) : mainM pointer :=
  let* tx := load p in
  let* m := get in
  let d := fresh (dom (descriptors m)) in
  modify (λ m, set_descriptors (<[d := {| td_tx := p; depCount := zlen parentsInPool |}]> (descriptors m)) m) ;;*
  match parentsInPool with
  | [] => modify (λ m, set_pool (<[txid tx := d]> (pool m)) m)
  | _ =>
      modify (λ m, set_chained (<[txid tx := d]> (chainedTransactions m)) m) ;;*
      forM parentsInPool (λ previousOutpoint, modify (λ m, set_chainedByPrev (<[previousOutpoint := d]> (chainedTransactionByPreviousOutpoint m)) m))
  end ;;*
  addTx p ;;*
  addTransactionToOrderedTransactionsByFeeRate p ;;*
  ret d.

Definition cleanTransactionFromSets (p : pointer) : mainM unit :=
  removeTx p ;;*
  let* tx := load p in
  modify (λ m, set_pool (delete (txid tx) (pool m)) m) ;;*
  modify (λ m, set_chained (delete (txid tx) (chainedTransactions m)) m) ;;*
  removeTransactionFromOrderedTransactionsByFeeRate p.

Definition removeChainTransaction (p : pointer) : mainM unit :=
  let* tx := load p in
  modify (λ m, set_chained (delete (txid tx) (chainedTransactions m)) m) ;;*
  forM (spent tx) (λ o, modify (λ m, set_chainedByPrev (delete o (chainedTransactionByPreviousOutpoint m)) m)).

Fixpoint removeTransactionAndItsChainedTransactions (fuel : nat) (p : pointer) : mainM unit :=
  match fuel with
  | O => crash_with OutOfFuel
  | S fuel =>
      let* tx := load p in
      forM (outpoints tx) (λ prevOut,
        let* m := get in
        match poolTransactionBySpendingOutpoint m prevOut with
        | Some txRedeemer => removeTransactionAndItsChainedTransactions fuel txRedeemer
        | None => ret ()
        end) ;;*
      let* m := get in
      (if bool_decide (is_Some (chainedTransactions m !! txid tx)) then removeChainTransaction p else ret ()) ;;*
      cleanTransactionFromSets p
  end.
(** More than the length of a chain of transactions that spend each other *)
Definition removeFuel (m : mainPool) : nat := S (length (orderedTransactionsByFeeRate m)).

Definition updateBlockTransactionChainedTransactions (p : pointer) : mainM unit :=
  let* tx := load p in
  forM (outpoints tx) (λ prevOut,
    let* m := get in
    match chainedTransactionByPreviousOutpoint m !! prevOut with
    | None => ret ()
    | Some d =>
        let* txDesc := loadDesc d in
        modify (λ m, set_descriptors (<[d := {| td_tx := td_tx txDesc; depCount := depCount txDesc - 1 |}]> (descriptors m)) m) ;;*
        (if depCount txDesc - 1 =? 0 then
           let* descTx := load (td_tx txDesc) in
           let* m := get in
           if bool_decide (is_Some (chainedTransactions m !! txid descTx)) then
             modify (λ m, set_chained (delete (txid descTx) (chainedTransactions m)) m) ;;*
             modify (λ m, set_pool (<[txid descTx := d]> (pool m)) m)
           else ret ()
         else ret ()) ;;*
        modify (λ m, set_chainedByPrev (delete prevOut (chainedTransactionByPreviousOutpoint m)) m)
    end).

(** [txs[CoinbaseTransactionIndex+1:]] panics without a first transaction. *)
Definition withoutCoinbase {S} (txs : list pointer) : prog S poolError (list pointer) := lift_outcome (slice txs (Z.of_nat coinbaseIndex + 1) (zlen txs)).

Definition removeTransactionsFromPool (txs : list pointer) : mainM unit :=
  let* txs := withoutCoinbase txs in
  forM txs (λ p,
    let* tx := load p in
    let* m := get in
    match fetchTxDesc m (txid tx) with
    | None => ret ()
    | Some d =>
        let* mempoolTx := loadDesc d in
        cleanTransactionFromSets (td_tx mempoolTx) ;;*
        updateBlockTransactionChainedTransactions (td_tx mempoolTx)
    end).

Definition removeDoubleSpends (p : pointer) : mainM unit :=
  let* tx := load p in
  forM (spent tx) (λ o,
    let* m := get in
    match poolTransactionBySpendingOutpoint m o with
    | None => ret ()
    | Some txRedeemer =>
        let* redeemer := load txRedeemer in
        if negb (bool_decide (txid redeemer = txid tx)) then removeTransactionAndItsChainedTransactions (removeFuel m) txRedeemer else ret ()
    end).

Definition enforceTransactionLimit : mainM unit :=
  let* m := get in
  if Z.of_nat (size (pool m)) + Z.of_nat (size (chainedTransactions m)) >? limit then
    let* txToRemove := lift_outcome (index (orderedTransactionsByFeeRate m) 0) in
    removeTransactionAndItsChainedTransactions (removeFuel m) txToRemove
  else ret ().

Definition checkPoolDoubleSpend (m : mainPool) (tx : DomainTransaction) : outcome poolError unit :=
  if existsb (λ o, bool_decide (is_Some (poolTransactionBySpendingOutpoint m o))) (spent tx) then Fail (TxRuleError RejectDuplicate) else Ret ().

(** ** The orphan pool *)
Section Orphans.
(** The order of [range] over a map of transactions *)
Variable range : ∀ A, gmap txID A → list (txID * A).

(** [delete(orphans, *txID)], and the entry of the outpoint when it was the last *)
Definition unindexOrphan (id : txID) (o : DomainOutpoint) (op : orphanPool) : orphanPool :=
  match orphansByPrev op !! o with
  | None => op
  | Some ids =>
      let ids := delete id ids in
      set_orphansByPrev (if bool_decide (ids = ∅) then delete o (orphansByPrev op) else <[o := ids]> (orphansByPrev op)) op
  end.

Fixpoint removeOrphan (fuel : nat) (p : pointer) (removeRedeemers : bool) : orphanM unit :=
  match fuel with
  | O => crash_with OutOfFuel
  | S fuel =>
      let* tx := load p in
      let* op := get in
      match orphans op !! txid tx with
      | None => ret ()
      | Some otx =>
          let* otx_tx := load (ot_tx otx) in
          forM (spent otx_tx) (λ o, modify (unindexOrphan (txid tx) o)) ;;*
          (if removeRedeemers then
             forM (outpoints tx) (λ prevOut,
               let* op := get in
               forM (range _ (default ∅ (orphansByPrev op !! prevOut))) (λ orphan, removeOrphan fuel orphan.2 true))
           else ret ()) ;;*
          modify (λ op, set_orphans (delete (txid tx) (orphans op)) op)
      end
  end.
(** More than the orphans that are removed with one *)
Definition orphanFuel (op : orphanPool) : nat := S (S (size (orphans op))).

Definition limitNumOrphans (pol : policy) (now : Z) : orphanM unit :=
  let* op := get in
  (if nextExpireScan op <? now then
     forM (range _ (orphans op)) (λ otx, if expiration otx.2 <? now then removeOrphan (orphanFuel op) (ot_tx otx.2) true else ret ()) ;;*
     modify (set_nextExpireScan (now + orphanExpireScanInterval))
   else ret ()) ;;*
  let* op := get in
  if Z.of_nat (size (orphans op)) + 1 <=? MaxOrphanTxs pol then ret ()
  else
    match range _ (orphans op) with
    | [] => ret ()
    | (_, otx) :: _ => removeOrphan (orphanFuel op) (ot_tx otx) false
    end.

(** The clock is read when orphans expire and again for the new one. *)
Definition addOrphan (pol : policy) (now later : Z) (p : pointer) : orphanM unit :=
  if MaxOrphanTxs pol <=? 0 then ret ()
  else
    limitNumOrphans pol now ;;*
    let* tx := load p in
    modify (λ op, set_orphans (<[txid tx := {| ot_tx := p; expiration := later + orphanTTL |}]> (orphans op)) op) ;;*
    forM (spent tx) (λ o, modify (λ op, set_orphansByPrev (<[o := <[txid tx := p]> (default ∅ (orphansByPrev op !! o))]> (orphansByPrev op)) op)).

Definition maybeAddOrphan (pol : policy) (now later : Z) (p : pointer) : orphanM unit :=
  let* tx := load p in
  let serializedLen := TransactionEstimatedSerializedSize tx in
  if serializedLen >? GoInt.uint64 (MaxOrphanTxSize pol) then fail (TxRuleError RejectNonstandard)
  else addOrphan pol now later p.

Definition removeOrphanDoubleSpends (p : pointer) : orphanM unit :=
  let* tx := load p in
  forM (spent tx) (λ o,
    let* op := get in
    forM (range _ (default ∅ (orphansByPrev op !! o))) (λ orphan, removeOrphan (orphanFuel op) orphan.2 true)).

Definition isOrphanInPool (op : orphanPool) (id : txID) : bool := bool_decide (is_Some (orphans op !! id)).
End Orphans.
End Main.

Definition haveTransaction (mp : mempool) (id : txID) : bool := isTransactionInPool (mp_main mp) id || isOrphanInPool (mp_orphans mp) id.

(** ** policy.go *)
Definition maxStandardP2SHSigOps : Z := 15.
Definition maxStandardSigScriptSize : Z := 1650.
Definition MaxStandardTxSize : Z := 100000.

Definition calcMinRequiredTxRelayFee (serializedSize minRelayTxFee : Z) : Z :=
  let minFee := Z.quot (GoInt.int64 (serializedSize * minRelayTxFee)) 1000 in
  let minFee := if (minFee =? 0) && (0 <? minRelayTxFee) then minRelayTxFee else minFee in
  if (minFee <? 0) || (MaxSompi <? minFee) then MaxSompi else minFee.

(** The class of a script; the parser does not panic on bytes. *)
Definition scriptClass (script : list Z) : outcome poolError ScriptClass :=
  match GetScriptClass script with Ret class => Ret class | Fail _ => Ret NonStandardTy | Crash c => Crash c end.

Fixpoint checkInputsStandardLoop (inputs : list DomainTransactionInput) : outcome poolError unit :=
  match inputs with
  | [] => Ret ()
  | txIn :: inputs =>
      match in_UTXOEntry txIn with
      | None => Crash NilDereference
      | Some entry =>
          let originScriptPubKey := ue_scriptPublicKey entry in
          let? class := scriptClass (spk_Script originScriptPubKey) in
          match class with
          | ScriptHashTy =>
              if GetPreciseSigOpCount (in_SignatureScript txIn) originScriptPubKey true >? maxStandardP2SHSigOps then Fail (TxRuleError RejectNonstandard)
              else checkInputsStandardLoop inputs
          | NonStandardTy => Fail (TxRuleError RejectNonstandard)
          | _ => checkInputsStandardLoop inputs
          end
      end
  end.
Definition checkInputsStandard (tx : DomainTransaction) : outcome poolError unit := checkInputsStandardLoop (tx_Inputs tx).

Definition isDust (txOut : DomainTransactionOutput) (minRelayTxFee : Z) : bool :=
  if IsUnspendable (spk_Script (out_ScriptPublicKey txOut)) then true
  else
    let totalSize := GoInt.uint64 (TransactionOutputEstimatedSerializedSize txOut + 148) in
    GoInt.uint64 (out_Value txOut * 1000) / GoInt.uint64 (3 * totalSize) <? GoInt.uint64 minRelayTxFee.

Fixpoint checkOutputsStandard (pol : policy) (outputs : list DomainTransactionOutput) : outcome poolError unit :=
  match outputs with
  | [] => Ret ()
  | txOut :: outputs =>
      if spk_Version (out_ScriptPublicKey txOut) >? MaxScriptPublicKeyVersion then Fail (TxRuleError RejectNonstandard)
      else
        let? class := scriptClass (spk_Script (out_ScriptPublicKey txOut)) in
        if bool_decide (class = NonStandardTy) then Fail (TxRuleError RejectNonstandard)
        else if isDust txOut (MinRelayTxFee pol) then Fail (TxRuleError RejectDust)
        else checkOutputsStandard pol outputs
  end.
Definition checkTransactionStandard (tx : DomainTransaction) (pol : policy) : outcome poolError unit :=
  if tx_Version tx >? MaxTxVersion pol then Fail (TxRuleError RejectNonstandard)
  else
    let serializedLen := TransactionEstimatedSerializedSize tx in
    if serializedLen >? MaxStandardTxSize then Fail (TxRuleError RejectNonstandard)
    else if existsb (λ txIn, zlen (in_SignatureScript txIn) >? maxStandardSigScriptSize) (tx_Inputs tx) then Fail (TxRuleError RejectNonstandard)
    else checkOutputsStandard pol (tx_Outputs tx).

(** The code of the error is kept, or replaced by [RejectNonstandard] when there is none. *)
Definition asNonstandard (o : outcome poolError unit) : outcome poolError unit :=
  match o with
  | Fail e => let '(rejectCode, found) := extractRejectCode e in Fail (TxRuleError (if found then rejectCode else RejectNonstandard))
  | o => o
  end.

(** ** Accepting transactions *)

(** [consensus.ValidateTransactionAndPopulateWithConsensusData]: the transaction it leaves behind, and its result *)
Abbreviation Consensus := (DomainTransaction → DomainTransaction * outcome txError unit) (only parsing).

Definition onMain {A} (m : gmap pointer DomainTransaction → mainM A) : poolM A := λ mp, let '(x, r) := m (mp_heap mp) (mp_main mp) in (set_main x mp, r).
Definition onOrphans {A} (m : gmap pointer DomainTransaction → orphanM A) : poolM A := λ mp, let '(x, r) := m (mp_heap mp) (mp_orphans mp) in (set_orphanPool x mp, r).
Definition loadTx (p : pointer) : poolM DomainTransaction := λ mp, load (mp_heap mp) p mp.
Definition storeTx (p : pointer) (tx : DomainTransaction) : poolM unit := modify (λ mp, set_heap (<[p := tx]> (mp_heap mp)) mp).

(** The missing outpoints, or the descriptor of the transaction in the pool *)
Definition mempool_maybeAcceptTransaction (consensus : Consensus) (p : pointer) (rejectDupOrphans : bool) : poolM (list DomainOutpoint * option pointer) :=
  let* tx := loadTx p in
  let* mp := get in
  if isTransactionInPool (mp_main mp) (txid tx) || (rejectDupOrphans && isOrphanInPool (mp_orphans mp) (txid tx)) then fail (TxRuleError RejectDuplicate)
  else
    (if AcceptNonStd (mp_policy mp) then ret () else lift_outcome (asNonstandard (checkTransactionStandard tx (mp_policy mp)))) ;;*
    lift_outcome (checkPoolDoubleSpend (mp_main mp) tx) ;;*
    if checkExists (mp_main mp) tx then fail (TxRuleError RejectDuplicate)
    else
      let '(tx, parentsInPool) := populateUTXOEntries (mp_main mp) tx in
      let '(tx, err) := consensus tx in
      storeTx p tx ;;*
      match err with
      | Fail (TxRule (ErrMissingTxOut missingOutpoints)) => ret (missingOutpoints, None)
      | Fail (TxRule ErrImmatureSpend) => fail (TxRuleError RejectImmatureSpend)
      | Fail (TxRule _) => fail OtherRuleError
      | Fail _ => fail ConsensusError
      | Crash c => crash_with c
      | Ret _ =>
          if tx_Mass tx >? MaxMassAcceptedByBlock mp then fail OtherRuleError
          else
            (if AcceptNonStd (mp_policy mp) then ret () else lift_outcome (asNonstandard (checkInputsStandard tx))) ;;*
            let serializedSize := GoInt.int64 (TransactionEstimatedSerializedSize tx) in
            let minFee := GoInt.uint64 (calcMinRequiredTxRelayFee serializedSize (MinRelayTxFee (mp_policy mp))) in
            if tx_Fee tx <? minFee then fail (TxRuleError RejectInsufficientFee)
            else
              let* txDesc := onMain (λ h, addTransaction h p parentsInPool) in
              onMain enforceTransactionLimit ;;*
              ret ([], Some txDesc)
      end.

(** A result or an error as a value *)
Definition attempt {A} (m : poolM A) : poolM (poolError + A) :=
  λ mp, match m mp with
        | (mp', Ret a) => (mp', Ret (inr a))
        | (mp', Fail e) => (mp', Ret (inl e))
        | (mp', Crash c) => (mp', Crash c)
        end.

Section Process.
Variable range : ∀ A, gmap txID A → list (txID * A).
Variable consensus : Consensus.

(** The loop over the orphans that redeem one outpoint: the one that was accepted, if any, with its descriptor *)
Fixpoint acceptOrphan (candidates : list pointer) : poolM (option (pointer * pointer)) :=
  match candidates with
  | [] => ret None
  | p :: candidates =>
      let* result := attempt (mempool_maybeAcceptTransaction consensus p false) in
      match result with
      | inl e =>
          if negb (isPoolRuleError e) then fail e
          else
            let* mp := get in
            onOrphans (λ h, removeOrphan h range (orphanFuel (mp_orphans mp)) p true) ;;*
            ret None
      | inr (_ :: _, _) => acceptOrphan candidates
      | inr ([], None) => crash_with NilDereference
      | inr ([], Some txD) =>
          let* mp := get in
          onOrphans (λ h, removeOrphan h range (orphanFuel (mp_orphans mp)) p false) ;;*
          ret (Some (p, txD))
      end
  end.

(** The outputs of one item: the transactions and the descriptors that were accepted *)
Fixpoint processOutputs (os : list DomainOutpoint) : poolM (list (pointer * pointer)) :=
  match os with
  | [] => ret []
  | prevOut :: os =>
      let* mp := get in
      match orphansByPrev (mp_orphans mp) !! prevOut with
      | None => processOutputs os
      | Some candidates =>
          let* accepted := acceptOrphan (map snd (range _ candidates)) in
          let* rest := processOutputs os in
          ret (option_list accepted ++ rest)
      end
  end.

(** [for processList.Len() > 0] *)
Fixpoint processLoop (fuel : nat) (processList : list pointer) (acceptedTxns : list pointer) : poolM (list pointer) :=
  match processList with
  | [] => ret acceptedTxns
  | processItem :: processList =>
      match fuel with
      | O => crash_with OutOfFuel
      | S fuel =>
          let* tx := loadTx processItem in
          let* accepted := processOutputs (outpoints tx) in
          processLoop fuel (processList ++ map fst accepted) (acceptedTxns ++ map snd accepted)
      end
  end.

Definition descTx (d : pointer) : poolM pointer := onMain (λ _, let* desc := loadDesc d in ret (td_tx desc)).

Definition processOrphans (acceptedTx : pointer) : poolM (list pointer) :=
  let* mp := get in
  let* acceptedTxns := processLoop (S (size (orphans (mp_orphans mp)))) [acceptedTx] [] in
  onOrphans (λ h, removeOrphanDoubleSpends h range acceptedTx) ;;*
  forM acceptedTxns (λ d, let* p := descTx d in onOrphans (λ h, removeOrphanDoubleSpends h range p)) ;;*
  ret acceptedTxns.

Definition ValidateAndInsertTransaction (now later : Z) (p : pointer) (allowOrphan : bool) : poolM unit :=
  let* result := mempool_maybeAcceptTransaction consensus p true in
  match fst result with
  | [] => let* _ := processOrphans p in ret ()
  | _ =>
      if negb allowOrphan then fail (TxRuleError RejectDuplicate)
      else
        let* mp := get in
        onOrphans (λ h, maybeAddOrphan h range (mp_policy mp) now later p)
  end.

Fixpoint collect_descs (ds : list pointer) : poolM (list pointer) :=
  match ds with
  | [] => ret []
  | d :: ds => let* p := descTx d in let* ps := collect_descs ds in ret (p :: ps)
  end.
Fixpoint loadAll (ps : list pointer) : poolM (list DomainTransaction) :=
  match ps with
  | [] => ret []
  | p :: ps => let* tx := loadTx p in let* txs := loadAll ps in ret (tx :: txs)
  end.

Fixpoint handleLoop (txs : list pointer) (acceptedTxs : list pointer) : poolM (list pointer) :=
  match txs with
  | [] => ret acceptedTxs
  | p :: txs =>
      onMain (λ h, removeDoubleSpends h p) ;;*
      let* mp := get in
      onOrphans (λ h, removeOrphan h range (orphanFuel (mp_orphans mp)) p false) ;;*
      let* acceptedOrphans := processOrphans p in
      let* ps := collect_descs acceptedOrphans in
      handleLoop txs (acceptedTxs ++ ps)
  end.
Definition HandleNewBlockTransactions (txs : list pointer) : poolM (list pointer) :=
  onMain (λ h, removeTransactionsFromPool h txs) ;;*
  let* txs := withoutCoinbase txs in
  handleLoop txs [].

Definition RemoveTransactions (txs : list pointer) : poolM unit := onMain (λ h, removeTransactionsFromPool h txs).

(** ** Reading *)
Definition GetTransaction (id : txID) : poolM (option pointer) :=
  let* mp := get in
  match fetchTxDesc (mp_main mp) id with
  | None => ret None
  | Some d => let* p := descTx d in ret (Some p)
  end.
Definition AllTransactions : poolM (list pointer) :=
  let* mp := get in
  let* l := collect_descs (map snd (range _ (pool (mp_main mp)))) in
  let* k := collect_descs (map snd (range _ (chainedTransactions (mp_main mp)))) in
  ret (l ++ k).
Definition TransactionCount (mp : mempool) : Z := Z.of_nat (size (pool (mp_main mp))) + Z.of_nat (size (chainedTransactions (mp_main mp))).
Definition Count (mp : mempool) : Z := Z.of_nat (size (pool (mp_main mp))).
Definition ChainedCount (mp : mempool) : Z := Z.of_nat (size (chainedTransactions (mp_main mp))).
(** The clones of the transactions that may be mined *)
Definition BlockCandidateTransactions : poolM (list DomainTransaction) :=
  let* mp := get in
  let* l := collect_descs (map snd (range _ (pool (mp_main mp)))) in
  loadAll l.
End Process.

Definition mempool_New (now : Z) (RelayNonStdTxs : bool) (maxMassAcceptedByBlock : Z) : mempool :=
  {| mp_heap := ∅;
     mp_main := {| descriptors := ∅; pool := ∅; chainedTransactions := ∅; chainedTransactionByPreviousOutpoint := ∅; transactionByPreviousOutpoint := ∅; poolUnspentOutputs := ∅; orderedTransactionsByFeeRate := [] |};
     mp_orphans := {| orphans := ∅; orphansByPrev := ∅; nextExpireScan := now + orphanExpireScanInterval |};
     mp_policy := {| MaxTxVersion := MaxTransactionVersion; AcceptNonStd := RelayNonStdTxs; MaxOrphanTxs := 5; MaxOrphanTxSize := 100000; MinRelayTxFee := 1000 |};
     MaxMassAcceptedByBlock := maxMassAcceptedByBlock |}.
End Mempool.
End Mempool.
