(* ===== verification/MempoolSpec.v ===== *)
(** * The invariant of the mempool

    The transactions by fee rate are sorted by a total order, in which the binary search finds the place of a transaction.  The indices of the main pool hold exactly the inputs and the outputs of its
    transactions, a transaction is chained as long as one of its inputs was made by a transaction of the pool, and the orphan pool is indexed by all inputs of the orphans.  Every operation preserves this and
    ends without an error of the pool itself. *)
From stdpp Require Import sorting.
From Stdlib Require Import Floats.SpecFloat.
From S2P Require Import Prelude Externalapi UtxoDiff ScriptNum ScriptStack OpcodeTable Script Hashing SigCache Opcode Engine.
From S2P Require Import Interval ReachabilityData Reachability DagTopology Block Ghostdag GhostdagOrder Heap Window DifficultyManager Traversal TransactionValidator PastUtxo Stores Bech32 StandardScripts Mempool.
Import Interval TransactionHashing Script TransactionValidator PastUtxo Standard Mempool.
Local Open Scope Z_scope.
Local Open Scope prog_scope.

Abbreviation pointer := nat (only parsing).
Abbreviation txID := (list Z) (only parsing).

(** ** The order by fee rate *)

(** Numbers are compared by sign, exponent and mantissa, in this order. *)
Definition floatKey (x : spec_float) : list Z :=
  match x with
  | S754_nan => []
  | S754_infinity s => [(if s then -2 else 2); 0; 0]
  | S754_zero _ => [0; 0; 0]
  | S754_finite s m e => if s then [-1; - e; - Z.pos m] else [1; e; Z.pos m]
  end.

Lemma SFcompare_key x y : x ≠ S754_nan → y ≠ S754_nan → SFcompare x y = Some (bytesCompare (floatKey x) (floatKey y)).
Proof.
  destruct x as [sx|sx| |sx mx ex], y as [sy|sy| |sy my ey]; intros Hx Hy; try done; try destruct sx; try destruct sy; try done; simpl.
  - change (PosDef.Pos.compare_cont Eq mx my) with (mx ?= my)%positive. rewrite Z.compare_opp, (Z.compare_antisym ex ey).
    by destruct (ex ?= ey), (mx ?= my)%positive.
  - change (PosDef.Pos.compare_cont Eq mx my) with (mx ?= my)%positive. by destruct (ex ?= ey), (mx ?= my)%positive.
Qed.

Lemma bytesCompare_app a b c d : length a = length b → bytesCompare (a ++ c) (b ++ d) = match bytesCompare a b with Eq => bytesCompare c d | r => r end.
Proof. revert b. induction a as [|x a IH]; intros [|y b] Hl; simplify_eq/=; [done|]. destruct (x ?= y); [by apply IH|done|done]. Qed.

Lemma binary_round_aux_number s m e l : 0 ≤ m → binary_round_aux Float64.prec Float64.emax s m e l ≠ S754_nan.
Proof.
  assert (∀ mrs e n, 0 ≤ shr_m mrs → 0 ≤ shr_m (fst (shr mrs e n))) as Hshr.
  { intros mrs e0 [|p|p] Hm; simpl; [done| |done]. rewrite shr_iter_m by done. apply Z.div_pos; lia. }
  assert (∀ m l, shr_m (shr_record_of_loc m l) = m) as Hrec by (by intros ? [|[]]).
  intros Hm. unfold binary_round_aux, shr_fexp.
  match goal with |- context [shr ?a ?b ?c] => pose proof (Hshr a b c) as H1; rewrite Hrec in H1; specialize (H1 Hm); destruct (shr a b c) as [mrs e'] end. simpl in H1.
  assert (0 ≤ round_nearest_even (shr_m mrs) (loc_of_shr_record mrs)) as H2.
  { unfold round_nearest_even. destruct (loc_of_shr_record mrs) as [|[]]; try lia. destruct (Z.even _); lia. }
  match goal with |- context [shr ?a ?b ?c] => pose proof (Hshr a b c) as H3; rewrite Hrec in H3; specialize (H3 H2); destruct (shr a b c) as [mrs2 e2] end. simpl in H3.
  destruct (shr_m mrs2); [done|by destruct (_ <=? _)|lia].
Qed.

Section Order.
Context `{Libs}.

(** Fee and mass as the pool sorts them *)
Definition rated (tx : DomainTransaction) : Prop := 0 < tx_Fee tx < 2 ^ 64 ∧ 0 < tx_Mass tx < 2 ^ 64.

Lemma feeRate_number tx : rated tx → feeRate tx ≠ S754_nan.
Proof using Type.
  intros [Hf Hm]. unfold feeRate, Float64.div. destruct (of_uint64_bound _ Hf) as (m1 & e1 & -> & _). destruct (of_uint64_bound _ Hm) as (m2 & e2 & -> & _).
  unfold SFdiv, SFdiv_core_binary. match goal with |- context [Z.div_eucl ?a ?b] => pose proof (Z_div_mod a b ltac:(lia)) as Hd; assert (0 ≤ a) as Ha; [|destruct (Z.div_eucl a b) as [q r]] end.
  { clear Hd. match goal with |- context [match ?x with _ => _ end] => destruct x end; [lia|apply Z.shiftl_nonneg; lia|lia]. }
  apply binary_round_aux_number. nia.
Qed.

Definition sortKey (tx : DomainTransaction) : list Z := floatKey (feeRate tx) ++ txid tx.
Definition sorts (tx element : DomainTransaction) : Prop := bytesCompare (sortKey tx) (sortKey element) ≠ Gt.

Lemma notBefore_sorts tx element : rated tx → rated element → notBefore tx element = true ↔ sorts tx element.
Proof using Type.
  intros Ht%feeRate_number He%feeRate_number. unfold notBefore, sorts, sortKey, SFltb, SFeqb, hash_LessOrEqual. rewrite !SFcompare_key by done.
  assert (∀ x, x ≠ S754_nan → length (floatKey x) = 3%nat) as Hl by (by intros [|[]| |[]]).
  rewrite bytesCompare_app by (by rewrite !Hl). rewrite (bytesCompare_sym (floatKey (feeRate tx))). destruct (bytesCompare (floatKey _) _); simpl; try done.
  by destruct (bytesCompare _ _).
Qed.

Lemma sorts_trans a b c : sorts a b → sorts b c → sorts a c.
Proof using Type.
  unfold sorts. destruct (bytesCompare (sortKey a) (sortKey b)) eqn:E1; [apply bytesCompare_eq in E1 as ->; done| |done].
  destruct (bytesCompare (sortKey b) (sortKey c)) eqn:E2; [apply bytesCompare_eq in E2 as <-; by rewrite E1| |done]. by rewrite (bytesCompare_trans _ _ _ E1 E2).
Qed.
Lemma sorts_total a b : sorts a b ∨ sorts b a.
Proof using Type. unfold sorts. rewrite (bytesCompare_sym (sortKey a)). destruct (bytesCompare _ _); simpl; auto. Qed.
Lemma sorts_antisym a b : rated a → rated b → sorts a b → sorts b a → txid a = txid b.
Proof using Type.
  intros Ha%feeRate_number Hb%feeRate_number. unfold sorts. rewrite (bytesCompare_sym (sortKey a)). destruct (bytesCompare _ _) eqn:E; simpl; try done.
  intros _ _. apply bytesCompare_eq in E. unfold sortKey in E. apply app_inj_1 in E as [_ E]; [done|].
  assert (∀ x, x ≠ S754_nan → length (floatKey x) = 3%nat) as Hl by (by intros [|[]| |[]]). by rewrite !Hl.
Qed.

(** ** [sort.Search] *)

(** In a list whose first [k] elements do not satisfy the predicate while the others do, the search returns [k]. *)
Lemma sortSearch_spec (f : Z → outcome poolError bool) (k n : Z) : (∀ i, 0 ≤ i < n → f i = Ret (bool_decide (k ≤ i))) → ∀ fuel i j, 0 ≤ i ≤ k → k ≤ j ≤ n → j - i < Z.of_nat fuel → sortSearch fuel f i j = Ret k.
Proof using Type.
  intros Hf fuel. induction fuel as [|fuel IH]; intros i j Hi Hj Hfuel; [lia|]. simpl. destruct (Z.ltb_spec i j) as [Hlt|]; [|f_equal; lia].
  pose proof (Z.div_lt_upper_bound (i + j) 2 j ltac:(lia) ltac:(lia)). pose proof (Z.div_le_lower_bound (i + j) 2 i ltac:(lia) ltac:(lia)).
  rewrite Hf by lia. simpl. case_bool_decide; apply IH; lia.
Qed.
End Order.

Section Sorted.
Context `{Libs}.
Variable h : gmap pointer DomainTransaction.
Implicit Types m : mainPool.

Definition sortsAt (p q : pointer) : Prop := ∃ a b, h !! p = Some a ∧ h !! q = Some b ∧ sorts a b.
Record ordered_ok (l : list pointer) : Prop := {
  od_rated q : q ∈ l → ∃ tx, h !! q = Some tx ∧ rated tx;
  od_sorted : StronglySorted sortsAt l
}.

Lemma load_Some {S} p tx (s : S) : h !! p = Some tx → load h p s = (s, Ret tx).
Proof using Type. intros Hp. unfold load. by rewrite Hp. Qed.

Lemma ordered_ok_app l k : ordered_ok (l ++ k) → ordered_ok l ∧ ordered_ok k ∧ (∀ a b, a ∈ l → b ∈ k → sortsAt a b).
Proof using Type.
  intros [Hr Hs]. apply StronglySorted_app in Hs as (Hlk & Hl & Hk).
  split_and!; [split; [intros q Hq; apply Hr; set_solver|done]|split; [intros q Hq; apply Hr; set_solver|done]|]. done.
Qed.
Lemma ordered_ok_app_2 l k : ordered_ok l → ordered_ok k → (∀ a b, a ∈ l → b ∈ k → sortsAt a b) → ordered_ok (l ++ k).
Proof using Type.
  intros [Hr1 Hs1] [Hr2 Hs2] Hlk. split; [intros q [?|?]%elem_of_app; auto|]. by apply StronglySorted_app_2.
Qed.

(** The elements before a transaction, and the others *)
Lemma ordered_split tx l : rated tx → ordered_ok l →
  ∃ front back, l = front ++ back ∧ (∀ q a, q ∈ front → h !! q = Some a → sorts a tx ∧ notBefore tx a = false) ∧ (∀ q a, q ∈ back → h !! q = Some a → notBefore tx a = true).
Proof using Type.
  intros Ht. induction l as [|p l IH]; intros Hok; [by exists [], []; split_and!; try done; intros ?? ?%elem_of_nil|].
  destruct (ordered_ok_app [p] l Hok) as (_ & Hl & Hpl). destruct (od_rated _ Hok p) as (a & Ha & Hra); [set_solver|].
  destruct (notBefore tx a) eqn:E.
  - exists [], (p :: l). split_and!; [done|by intros ?? ?%elem_of_nil|]. intros q b [->|Hq]%elem_of_cons Hb; [congruence|].
    destruct (od_rated _ Hok q) as (b' & Hb' & Hrb); [set_solver|]. assert (b' = b) as -> by congruence. apply notBefore_sorts in E; [|done|done].
    apply notBefore_sorts; [done|done|]. destruct (Hpl p q) as (a' & b' & ? & ? & ?); [set_solver|done|]. simplify_eq. by eapply sorts_trans.
  - destruct (IH Hl) as (front & back & -> & Hf & Hb). exists (p :: front), back. split_and!; [done| |done]. intros q b [->|Hq]%elem_of_cons Hqb; [|by eapply Hf].
    assert (b = a) as -> by congruence. split; [|done]. destruct (sorts_total a tx) as [?|Hs]; [done|]. apply notBefore_sorts in Hs; [congruence|done|done].
Qed.

Lemma find_spec p tx m : h !! p = Some tx → rated tx → ordered_ok (orderedTransactionsByFeeRate m) →
  ∃ front back, orderedTransactionsByFeeRate m = front ++ back ∧ findTxIndexInOrderedTransactionsByFeeRate h p m = (m, Ret (zlen front)) ∧
    (∀ q a, q ∈ front → h !! q = Some a → sorts a tx ∧ notBefore tx a = false) ∧ (∀ q a, q ∈ back → h !! q = Some a → notBefore tx a = true).
Proof using Type.
  intros Hp Ht Hok. destruct (ordered_split tx _ Ht Hok) as (front & back & E & Hf & Hb). exists front, back. split; [done|]. split; [|done].
  unfold findTxIndexInOrderedTransactionsByFeeRate. rewrite (bind_ret_l _ _ m m tx) by (by apply load_Some). destruct Ht as [Hfee Hmass].
  rewrite (proj2 (Z.eqb_neq _ _)), (proj2 (Z.eqb_neq (tx_Mass tx) _)) by lia. cbn [orb]. rewrite (bind_ret_l _ _ m m (orderedTransactionsByFeeRate m)) by done.
  unfold lift_outcome. rewrite (sortSearch_spec _ (zlen front) (zlen (orderedTransactionsByFeeRate m))); [done| |zlia|rewrite E; zlia|unfold zlen; lia].
  intros i Hi. destruct (@index_in_range poolError _ _ _ Hi) as (q & -> & Hq). simpl. destruct (od_rated _ Hok q) as (a & Ha & _); [by eapply list_elem_of_lookup_2|].
  rewrite Ha. rewrite E in Hq. f_equal. case_bool_decide as Hk; unfold zlen in Hk, Hi.
  - rewrite lookup_app_r in Hq by lia. apply list_elem_of_lookup_2 in Hq. eauto.
  - rewrite lookup_app_l in Hq by lia. apply list_elem_of_lookup_2 in Hq. by apply (Hf q).
Qed.

Lemma pool_slice_back {A} (l k : list A) : @slice poolError A (l ++ k) (zlen l) (zlen (l ++ k)) = Ret k.
Proof using Type. rewrite <- (app_nil_r k) at 1. apply slice_app; zlia. Qed.
Lemma pool_slice_after {A} (l k : list A) x : @slice poolError A (l ++ x :: k) (zlen l + 1) (zlen (l ++ x :: k)) = Ret k.
Proof using Type. rewrite (cons_middle x l k), app_assoc. rewrite <- (pool_slice_back (l ++ [x]) k). f_equal; zlia. Qed.
Lemma pool_slice_front {A} (l k : list A) : @slice poolError A (l ++ k) 0 (zlen l) = Ret l.
Proof using Type. apply (slice_app [] l k); zlia. Qed.

Lemma addOrdered_spec p tx m : h !! p = Some tx → rated tx → ordered_ok (orderedTransactionsByFeeRate m) →
  ∃ l, addTransactionToOrderedTransactionsByFeeRate h p m = (set_ordered l m, Ret ()) ∧ l ≡ₚ p :: orderedTransactionsByFeeRate m ∧ ordered_ok l.
Proof using Type.
  intros Hp Ht Hok. destruct (find_spec p tx m Hp Ht Hok) as (front & back & E & Hfind & Hf & Hb). exists (front ++ p :: back).
  unfold addTransactionToOrderedTransactionsByFeeRate. rewrite (bind_ret_l _ _ _ _ _ Hfind), (bind_ret_l _ _ m m _ eq_refl). rewrite E in *.
  unfold lift_outcome. rewrite pool_slice_front, pool_slice_back. split; [done|]. split; [by rewrite Permutation_middle|]. apply ordered_ok_app in Hok as (H1 & H2 & H12).
  apply ordered_ok_app_2; [done| |].
  - split; [intros q [->|Hq]%elem_of_cons; [by exists tx|by apply (od_rated _ H2)]|]. constructor; [apply H2|]. apply Forall_forall. intros q Hq.
    destruct (od_rated _ H2 q Hq) as (a & Ha & Hra). exists tx, a. split_and!; [done|done|]. apply notBefore_sorts; [done|done|by apply (Hb q)].
  - intros a b Ha [->|Hbk]%elem_of_cons; [|by apply H12]. destruct (od_rated _ H1 a Ha) as (x & Hx & _). exists x, tx. split_and!; [done|done|by apply (Hf a)].
Qed.

(** The transaction is found among transactions with other ids. *)
Lemma removeOrdered_spec p tx m : h !! p = Some tx → ordered_ok (orderedTransactionsByFeeRate m) → p ∈ orderedTransactionsByFeeRate m →
  (∀ q a, q ∈ orderedTransactionsByFeeRate m → h !! q = Some a → txid a = txid tx → q = p) → NoDup (orderedTransactionsByFeeRate m) →
  ∃ l, removeTransactionFromOrderedTransactionsByFeeRate h p m = (set_ordered l m, Ret ()) ∧ orderedTransactionsByFeeRate m ≡ₚ p :: l ∧ ordered_ok l.
Proof using Type.
  intros Hp Hok Hin Hids Hnd. destruct (od_rated _ Hok p Hin) as (tx' & Htx' & Ht). assert (tx' = tx) as -> by congruence. clear Htx'.
  destruct (find_spec p tx m Hp Ht Hok) as (front & back & E & Hfind & Hf & Hb).
  assert (notBefore tx tx = true) as Hself. { apply notBefore_sorts; [done|done|]. by destruct (sorts_total tx tx). }
  assert (p ∈ back) as Hpb. { rewrite E in Hin. apply elem_of_app in Hin as [Hin|?]; [|done]. destruct (Hf p tx Hin Hp). congruence. }
  destruct back as [|q back]; [by apply elem_of_nil in Hpb|]. assert (q = p) as ->.
  { rewrite E in Hok, Hids. apply ordered_ok_app in Hok as (_ & H2 & _). destruct (od_rated _ H2 q) as (a & Ha & Hra); [set_solver|].
    apply (Hids q a); [set_solver|done|]. apply elem_of_cons in Hpb as [->|Hpb]; [congruence|].
    destruct (ordered_ok_app [q] back H2) as (_ & _ & Hq). destruct (Hq q p) as (a' & b & ? & ? & Hs); [set_solver|done|]. simplify_eq.
    apply sorts_antisym; [done|done|done|]. apply notBefore_sorts; [done|done|]. apply (Hb q); [set_solver|done]. }
  exists (front ++ back). unfold removeTransactionFromOrderedTransactionsByFeeRate. rewrite (bind_ret_l _ _ _ _ _ Hfind), (bind_ret_l _ _ m m tx) by (by apply load_Some).
  rewrite (bind_ret_l _ _ m m _ eq_refl). rewrite E in *. unfold lift_outcome. rewrite index_middle by done. rewrite (bind_ret_l _ _ m m p) by done.
  rewrite (bind_ret_l _ _ m m tx) by (by apply load_Some). rewrite bool_decide_true by done. simpl. rewrite pool_slice_front, (bind_ret_l _ _ m m front) by done.
  rewrite (bind_ret_l _ _ m m back) by (by rewrite pool_slice_after).
  split; [done|]. split; [by rewrite Permutation_middle|]. apply ordered_ok_app in Hok as (H1 & H2 & H12).
  destruct (ordered_ok_app [p] back H2) as (_ & H3 & _). apply ordered_ok_app_2; [done|done|]. intros a b Ha Hbk. apply H12; set_solver.
Qed.
End Sorted.

(** ** The inputs and outputs of the pool *)
Section Indices.
Context `{Libs}.
Implicit Types m : mainPool.

(** The entries that a transaction of the pool makes *)
Definition outs (tx : DomainTransaction) : list (DomainOutpoint * utxoEntry) := created (txid tx) false unacceptedDAAScore 0 (tx_Outputs tx).

Lemma outpoints_created id outputs : ∀ n,
  imap (λ i (_ : DomainTransactionOutput), NewDomainOutpoint id (GoInt.uint32 (Z.of_nat (n + i)))) outputs = (created id false unacceptedDAAScore (Z.of_nat n) outputs).*1.
Proof using Type.
  induction outputs as [|o outputs IH]; intros n; [done|]. rewrite imap_cons. cbn [created fmap list_fmap fst]. f_equal; [by rewrite Nat.add_0_r|].
  replace (Z.of_nat n + 1) with (Z.of_nat (S n)) by lia. rewrite <- IH. apply imap_ext. intros i x _. simpl. do 3 f_equal. lia.
Qed.
Lemma outpoints_outs tx : outpoints tx = (outs tx).*1.
Proof using Type. apply (outpoints_created (txid tx) (tx_Outputs tx) 0). Qed.
Lemma outpoint_id tx o : o ∈ outpoints tx → op_TransactionID o = txid tx.
Proof using Type. unfold outpoints. intros (i & x & -> & _)%elem_of_lookup_imap_1. done. Qed.
Lemma outs_fst tx o e : (o, e) ∈ outs tx → o ∈ outpoints tx.
Proof using Type. intros Hin. rewrite outpoints_outs. by apply (list_elem_of_fmap_2 fst _ (o, e)). Qed.

Lemma decide_cons {B} (o o' : DomainOutpoint) os (x y : B) : (if decide (o' ∈ os) then x else if decide (o = o') then x else y) = if decide (o' ∈ o :: os) then x else y.
Proof using Type. destruct (decide (o' ∈ os)), (decide (o = o')), (decide (o' ∈ o :: os)); try done; set_solver. Qed.

Lemma addSpent_spec p os : ∀ m, NoDup os → (∀ o, o ∈ os → transactionByPreviousOutpoint m !! o = None) →
  ∃ S, addSpent p os m = (set_spenders S m, Ret ()) ∧ ∀ o, S !! o = if decide (o ∈ os) then Some p else transactionByPreviousOutpoint m !! o.
Proof using Type.
  induction os as [|o os IH]; intros m Hnd Hnew; [by exists (transactionByPreviousOutpoint m); split; [destruct m|]|]. apply NoDup_cons in Hnd as [Hni Hnd].
  simpl. rewrite (bind_ret_l _ _ m m m) by done. rewrite bool_decide_false by (rewrite (Hnew o) by (by left); by intros []).
  match goal with |- context [bind (modify ?f) _] => destruct (IH (f m)) as (S & Hrun & HS); [done| |] end.
  { intros o' Ho'. simpl. rewrite lookup_insert_ne by (by intros ->). apply Hnew. by right. }
  exists S. split; [exact Hrun|]. intros o'. rewrite HS. simpl. rewrite ?lookup_insert, ?lookup_delete. apply decide_cons.
Qed.

Lemma addPoolOutputs_spec id outputs : ∀ i m, NoDup (created id false unacceptedDAAScore i outputs).*1 → (∀ o e, (o, e) ∈ created id false unacceptedDAAScore i outputs → poolUnspentOutputs m !! o = None) →
  ∃ U, addPoolOutputs id i outputs m = (set_unspent U m, Ret ()) ∧ ∀ o e, U !! o = Some e ↔ (o, e) ∈ created id false unacceptedDAAScore i outputs ∨ poolUnspentOutputs m !! o = Some e.
Proof using Type.
  induction outputs as [|out outputs IH]; intros i m Hnd Hnew; [exists (poolUnspentOutputs m); split; [by destruct m|set_solver]|].
  cbn [created fmap list_fmap fst] in Hnd. apply NoDup_cons in Hnd as [Hni Hnd]. cbn [created] in Hnew.
  cbn [addPoolOutputs]. rewrite (bind_ret_l _ _ m m m) by done. rewrite bool_decide_false by (rewrite (Hnew (NewDomainOutpoint id (GoInt.uint32 i)) (NewUTXOEntry (out_Value out) (out_ScriptPublicKey out) false unacceptedDAAScore)) by (by left); by intros []).
  match goal with |- context [bind (modify ?f) _] => destruct (IH (i + 1) (f m)) as (U & Hrun & HU); [done| |] end.
  { intros o e Ho. simpl. rewrite lookup_insert_ne; [eapply Hnew; right; exact Ho|]. intros <-. apply Hni. by apply (list_elem_of_fmap_2 fst _ (_, e)) in Ho. }
  exists U. split; [exact Hrun|]. intros o e. rewrite HU. cbn [created]. rewrite elem_of_cons. simpl. destruct (decide (o = NewDomainOutpoint id (GoInt.uint32 i))) as [->|Hne].
  - rewrite lookup_insert_eq. assert (poolUnspentOutputs m !! NewDomainOutpoint id (GoInt.uint32 i) = None) as -> by (eapply Hnew; by left).
    split; [intros [Hin|[= <-]]; [left; by right|left; by left]|]. intros [[[= ->]|Hin]|[=]]; [by right|by left].
  - rewrite lookup_insert_ne by done. naive_solver.
Qed.

Lemma removeSpent_spec os : ∀ m, NoDup os → (∀ o, o ∈ os → is_Some (transactionByPreviousOutpoint m !! o)) →
  ∃ S, removeSpent os m = (set_spenders S m, Ret ()) ∧ ∀ o, S !! o = if decide (o ∈ os) then None else transactionByPreviousOutpoint m !! o.
Proof using Type.
  induction os as [|o os IH]; intros m Hnd Hin; [by exists (transactionByPreviousOutpoint m); split; [destruct m|]|]. apply NoDup_cons in Hnd as [Hni Hnd].
  simpl. rewrite (bind_ret_l _ _ m m m) by done. rewrite bool_decide_true by (apply Hin; by left).
  match goal with |- context [bind (modify ?f) _] => destruct (IH (f m)) as (S & Hrun & HS); [done| |] end.
  { intros o' Ho'. simpl. rewrite lookup_delete_ne by (by intros ->). apply Hin. by right. }
  exists S. split; [exact Hrun|]. intros o'. rewrite HS. simpl. rewrite ?lookup_insert, ?lookup_delete. apply decide_cons.
Qed.

Lemma removeOutputs_spec os : ∀ m, NoDup os → (∀ o, o ∈ os → is_Some (poolUnspentOutputs m !! o)) →
  ∃ U, removeOutputs os m = (set_unspent U m, Ret ()) ∧ ∀ o, U !! o = if decide (o ∈ os) then None else poolUnspentOutputs m !! o.
Proof using Type.
  induction os as [|o os IH]; intros m Hnd Hin; [by exists (poolUnspentOutputs m); split; [destruct m|]|]. apply NoDup_cons in Hnd as [Hni Hnd].
  simpl. rewrite (bind_ret_l _ _ m m m) by done. rewrite bool_decide_true by (apply Hin; by left).
  match goal with |- context [bind (modify ?f) _] => destruct (IH (f m)) as (U & Hrun & HU); [done| |] end.
  { intros o' Ho'. simpl. rewrite lookup_delete_ne by (by intros ->). apply Hin. by right. }
  exists U. split; [exact Hrun|]. intros o'. rewrite HU. simpl. rewrite ?lookup_insert, ?lookup_delete. apply decide_cons.
Qed.

(** The index of the chained transactions *)
Lemma chainIndex_spec d os : ∀ m, ∃ C,
  forM os (λ previousOutpoint, modify (λ m, set_chainedByPrev (<[previousOutpoint := d]> (chainedTransactionByPreviousOutpoint m)) m)) m = (set_chainedByPrev C m, Ret () : outcome poolError unit) ∧
  ∀ o, C !! o = if decide (o ∈ os) then Some d else chainedTransactionByPreviousOutpoint m !! o.
Proof using Type.
  induction os as [|o os IH]; intros m; [by exists (chainedTransactionByPreviousOutpoint m); split; [destruct m|]|]. simpl.
  match goal with |- context [bind (modify ?f) _] => destruct (IH (f m)) as (C & Hrun & HC) end.
  exists C. split; [exact Hrun|]. intros o'. rewrite HC. simpl. rewrite ?lookup_insert, ?lookup_delete. apply decide_cons.
Qed.
Lemma chainUnindex_spec os : ∀ m, ∃ C,
  forM os (λ o, modify (λ m, set_chainedByPrev (delete o (chainedTransactionByPreviousOutpoint m)) m)) m = (set_chainedByPrev C m, Ret () : outcome poolError unit) ∧
  ∀ o, C !! o = if decide (o ∈ os) then None else chainedTransactionByPreviousOutpoint m !! o.
Proof using Type.
  induction os as [|o os IH]; intros m; [by exists (chainedTransactionByPreviousOutpoint m); split; [destruct m|]|]. simpl.
  match goal with |- context [bind (modify ?f) _] => destruct (IH (f m)) as (C & Hrun & HC) end.
  exists C. split; [exact Hrun|]. intros o'. rewrite HC. simpl. rewrite ?lookup_insert, ?lookup_delete. apply decide_cons.
Qed.
End Indices.

Lemma filter_ext_in {A} (P Q : A → Prop) `{∀ x, Decision (P x), ∀ x, Decision (Q x)} (l : list A) : (∀ x, x ∈ l → P x ↔ Q x) → filter P l = filter Q l.
Proof.
  induction l as [|a l IH]; intros Hl; [done|]. rewrite !filter_cons. rewrite IH by (intros; apply Hl; by right). specialize (Hl a ltac:(by left)).
  destruct (decide (P a)), (decide (Q a)); naive_solver.
Qed.
Lemma filter_without {A} (P Q : A → Prop) `{∀ x, Decision (P x), ∀ x, Decision (Q x)} (l : list A) a : NoDup l → a ∈ l → P a → (∀ x, x ∈ l → Q x ↔ P x ∧ x ≠ a) → zlen (filter Q l) = zlen (filter P l) - 1.
Proof.
  intros Hnd (l1 & l2 & ->)%list_elem_of_split HP HQ. apply NoDup_app in Hnd as (_ & H1 & H2). apply NoDup_cons in H2 as [H2 _].
  rewrite !filter_app, !filter_cons, (decide_True (P := P a)), (decide_False (P := Q a)) by (done || rewrite HQ by set_solver; naive_solver).
  rewrite (filter_ext_in Q P l1), (filter_ext_in Q P l2), !zlen_app, zlen_cons; [lia| |]; intros x Hx; rewrite HQ by set_solver; (split; [naive_solver|]); intros Hp; split; [done| |done|]; set_solver.
Qed.

(** ** The main pool *)
Section Main.
Context `{HL : Libs}.
(** Ids do not depend on themselves: an input has the id of an earlier transaction. *)
Variable rank : txID → nat.
Variable h : gmap pointer DomainTransaction.
Implicit Types (m : mainPool) (L : gmap txID pointer) (X : list DomainOutpoint).

Record tx_wf (tx : DomainTransaction) : Prop := {
  tw_outputs : zlen (tx_Outputs tx) ≤ 2 ^ 32;
  tw_rank o : o ∈ spent tx → (rank (op_TransactionID o) < rank (txid tx))%nat
}.
Record pooled (tx : DomainTransaction) : Prop := {
  pl_wf : tx_wf tx;
  pl_inputs : NoDup (spent tx);
  pl_rated : rated tx
}.

(** The main pool [m] holds the transactions [L]; only the entries of [X] are chained to outputs that are not in the pool. *)
Record pool_rep m L X : Prop := {
  pr_disj : pool m ##ₘ chainedTransactions m;
  pr_desc id d : pool m !! id = Some d ∨ chainedTransactions m !! id = Some d → ∃ desc, descriptors m !! d = Some desc ∧ L !! id = Some (td_tx desc);
  pr_where id p : L !! id = Some p → ∃ d, pool m !! id = Some d ∨ chainedTransactions m !! id = Some d;
  pr_live id p : L !! id = Some p → ∃ tx, h !! p = Some tx ∧ txid tx = id ∧ pooled tx;
  pr_spenders o p : transactionByPreviousOutpoint m !! o = Some p ↔ ∃ id tx, L !! id = Some p ∧ h !! p = Some tx ∧ o ∈ spent tx;
  pr_unspent o e : poolUnspentOutputs m !! o = Some e ↔ ∃ id p tx, L !! id = Some p ∧ h !! p = Some tx ∧ (o, e) ∈ outs tx;
  pr_members : orderedTransactionsByFeeRate m ≡ₚ (map_to_list L).*2;
  pr_ordered : ordered_ok h (orderedTransactionsByFeeRate m);
  pr_chain o d : chainedTransactionByPreviousOutpoint m !! o = Some d → ∃ id desc tx, chainedTransactions m !! id = Some d ∧ descriptors m !! d = Some desc ∧ h !! td_tx desc = Some tx ∧ o ∈ spent tx;
  pr_parent o d : chainedTransactionByPreviousOutpoint m !! o = Some d → is_Some (poolUnspentOutputs m !! o) ∨ o ∈ X;
  pr_count id d desc tx : chainedTransactions m !! id = Some d → descriptors m !! d = Some desc → h !! td_tx desc = Some tx →
    depCount desc = zlen (filter (λ o, chainedTransactionByPreviousOutpoint m !! o = Some d) (spent tx)) ∧ 0 < depCount desc
}.

Section Rep.
Variables (m : mainPool) (L : gmap txID pointer) (X : list DomainOutpoint).
Hypothesis Hrep : pool_rep m L X.

Lemma live_inj id1 id2 p : L !! id1 = Some p → L !! id2 = Some p → id1 = id2.
Proof using Hrep. intros (tx & Hp & <- & _)%(pr_live _ _ _ Hrep) (tx' & Hp' & <- & _)%(pr_live _ _ _ Hrep). congruence. Qed.
Lemma desc_inj id1 id2 d : (pool m !! id1 = Some d ∨ chainedTransactions m !! id1 = Some d) → (pool m !! id2 = Some d ∨ chainedTransactions m !! id2 = Some d) → id1 = id2.
Proof using Hrep. intros (de & Hd & H1)%(pr_desc _ _ _ Hrep) (de' & Hd' & H2)%(pr_desc _ _ _ Hrep). assert (de' = de) as -> by congruence. by eapply live_inj. Qed.
Lemma spender_unique id1 id2 p1 p2 tx1 tx2 o : L !! id1 = Some p1 → L !! id2 = Some p2 → h !! p1 = Some tx1 → h !! p2 = Some tx2 → o ∈ spent tx1 → o ∈ spent tx2 → id1 = id2 ∧ p1 = p2.
Proof using Hrep.
  intros H1 H2 Hp1 Hp2 Ho1 Ho2. assert (transactionByPreviousOutpoint m !! o = Some p1) as E1 by (apply (pr_spenders _ _ _ Hrep); eauto).
  assert (transactionByPreviousOutpoint m !! o = Some p2) as E2 by (apply (pr_spenders _ _ _ Hrep); eauto). assert (p1 = p2) as -> by congruence. split; [by eapply live_inj|done].
Qed.
Lemma ordered_live p : p ∈ orderedTransactionsByFeeRate m ↔ ∃ id, L !! id = Some p.
Proof using Hrep.
  rewrite (pr_members _ _ _ Hrep), list_elem_of_fmap. split; [intros ([id q] & -> & Hq%elem_of_map_to_list); by exists id|].
  intros [id Hid]. exists (id, p). split; [done|by apply elem_of_map_to_list].
Qed.
Lemma ordered_NoDup : NoDup (orderedTransactionsByFeeRate m).
Proof using Hrep.
  rewrite (pr_members _ _ _ Hrep). apply NoDup_fmap_2_strong; [|apply NoDup_map_to_list]. intros [i p] [j q] Hi%elem_of_map_to_list Hj%elem_of_map_to_list E. simpl in E. subst q.
  by rewrite (live_inj i j p).
Qed.
Lemma ordered_length : length (orderedTransactionsByFeeRate m) = size L.
Proof using Hrep. by rewrite (pr_members _ _ _ Hrep), length_fmap, length_map_to_list. Qed.
Lemma outpoint_live id p tx o : L !! id = Some p → h !! p = Some tx → o ∈ outpoints tx → is_Some (poolUnspentOutputs m !! o).
Proof using Hrep.
  intros Hl Hp Ho. rewrite outpoints_outs in Ho. apply list_elem_of_fmap in Ho as ([o' e] & -> & Hoe). exists e. apply (pr_unspent _ _ _ Hrep). eauto 6.
Qed.
Lemma outpoints_NoDup tx : tx_wf tx → NoDup (outpoints tx).
Proof using Type. intros Hw. rewrite outpoints_outs. apply created_nodup; [lia|]. destruct Hw. lia. Qed.
Lemma chained_entry o d : chainedTransactionByPreviousOutpoint m !! o = Some d → ∃ id desc tx, chainedTransactions m !! id = Some d ∧ descriptors m !! d = Some desc ∧ h !! td_tx desc = Some tx ∧ o ∈ spent tx ∧ L !! id = Some (td_tx desc) ∧ txid tx = id ∧ pooled tx.
Proof using Hrep.
  intros (id & desc & tx & Hc & Hd & Hp & Ho)%(pr_chain _ _ _ Hrep). exists id, desc, tx. destruct (pr_desc _ _ _ Hrep id d) as (desc' & Hd' & Hl); [by right|].
  assert (desc' = desc) as -> by congruence. destruct (pr_live _ _ _ Hrep _ _ Hl) as (tx' & Hp' & Hid & Hpool). assert (tx' = tx) as -> by congruence. done.
Qed.
Lemma unspent_creator o : is_Some (poolUnspentOutputs m !! o) → is_Some (L !! op_TransactionID o).
Proof using Hrep.
  intros [e (id & p & tx & Hl & Hp & Hin%outs_fst%outpoint_id)%(pr_unspent _ _ _ Hrep)]. destruct (pr_live _ _ _ Hrep _ _ Hl) as (tx' & ? & ? & _). simplify_eq. rewrite Hin. eauto.
Qed.
Lemma creator_unique id id' p p' tx tx' o e : L !! id = Some p → h !! p = Some tx → L !! id' = Some p' → h !! p' = Some tx' → o ∈ outpoints tx → (o, e) ∈ outs tx' → id = id'.
Proof using Hrep.
  intros (tx1 & ? & <- & _)%(pr_live _ _ _ Hrep) Hp (tx2 & ? & <- & _)%(pr_live _ _ _ Hrep) Hp' Ho%outpoint_id Ho'%outs_fst%outpoint_id. simplify_eq. congruence.
Qed.

(** *** Removing a transaction *)
Lemma clean_run id p tx m0 : L !! id = Some p → h !! p = Some tx →
  transactionByPreviousOutpoint m0 = transactionByPreviousOutpoint m → poolUnspentOutputs m0 = poolUnspentOutputs m → orderedTransactionsByFeeRate m0 = orderedTransactionsByFeeRate m →
  ∃ S U l, cleanTransactionFromSets h p m0 = ({| descriptors := descriptors m0; pool := delete id (pool m0); chainedTransactions := delete id (chainedTransactions m0);
      chainedTransactionByPreviousOutpoint := chainedTransactionByPreviousOutpoint m0; transactionByPreviousOutpoint := S; poolUnspentOutputs := U; orderedTransactionsByFeeRate := l |}, Ret ()) ∧
    (∀ o, S !! o = if decide (o ∈ spent tx) then None else transactionByPreviousOutpoint m !! o) ∧
    (∀ o, U !! o = if decide (o ∈ outpoints tx) then None else poolUnspentOutputs m !! o) ∧
    orderedTransactionsByFeeRate m ≡ₚ p :: l ∧ ordered_ok h l.
Proof using Hrep.
  intros Hl Hp ES EU El. destruct (pr_live _ _ _ Hrep _ _ Hl) as (tx' & Hp' & Hid & [Hwf Hnd Hr]). assert (tx' = tx) as -> by congruence. clear Hp'.
  destruct (removeSpent_spec (spent tx) m0) as (S & HrunS & HS); [done|rewrite ES; intros o Ho; exists p; apply (pr_spenders _ _ _ Hrep); eauto|]. rewrite ES in HS.
  destruct (removeOutputs_spec (outpoints tx) (set_spenders S m0)) as (U & HrunU & HU); [by apply outpoints_NoDup|simpl; rewrite EU; intros o; by eapply outpoint_live|]. simpl in HU. rewrite EU in HU.
  set (m1 := set_chained (delete id (chainedTransactions m0)) (set_pool (delete id (pool m0)) (set_unspent U (set_spenders S m0)))).
  destruct (removeOrdered_spec h p tx m1 Hp) as (l & HrunO & Hperm & Hok).
  { unfold m1. simpl. rewrite El. apply Hrep. } { unfold m1. simpl. rewrite El. apply ordered_live. eauto. }
  { unfold m1. simpl. rewrite El. intros q a [id' Hq]%ordered_live Ha E. destruct (pr_live _ _ _ Hrep _ _ Hq) as (a' & ? & Hid' & _). simplify_eq. congruence. }
  { unfold m1. simpl. rewrite El. apply ordered_NoDup. }
  exists S, U, l. split; [|unfold m1 in Hperm; simpl in Hperm; by rewrite El in Hperm].
  unfold cleanTransactionFromSets, removeTx. rewrite bind_assoc, (bind_ret_l _ _ m0 m0 tx) by (by apply load_Some). rewrite bind_assoc, (bind_ret_l _ _ _ _ _ HrunS), (bind_ret_l _ _ _ _ _ HrunU).
  rewrite (bind_ret_l _ _ _ (set_unspent U (set_spenders S m0)) tx) by (by apply load_Some). rewrite Hid. exact HrunO.
Qed.
End Rep.

(** A transaction whose outputs nobody spends leaves, with its entries in the index of the chained transactions. *)
Definition removeOne (p : pointer) (id : txID) : prog mainPool poolError unit :=
  let* m := get in
  (if bool_decide (is_Some (chainedTransactions m !! id)) then removeChainTransaction h p else ret ()) ;;*
  cleanTransactionFromSets h p.

Lemma removeOne_run m L X id p tx : pool_rep m L X → L !! id = Some p → h !! p = Some tx →
  ∃ C S U l, removeOne p id m = ({| descriptors := descriptors m; pool := delete id (pool m); chainedTransactions := delete id (chainedTransactions m);
      chainedTransactionByPreviousOutpoint := C; transactionByPreviousOutpoint := S; poolUnspentOutputs := U; orderedTransactionsByFeeRate := l |}, Ret ()) ∧
    (∀ o, C !! o = if decide (o ∈ spent tx ∧ is_Some (chainedTransactions m !! id)) then None else chainedTransactionByPreviousOutpoint m !! o) ∧
    (∀ o, S !! o = if decide (o ∈ spent tx) then None else transactionByPreviousOutpoint m !! o) ∧
    (∀ o, U !! o = if decide (o ∈ outpoints tx) then None else poolUnspentOutputs m !! o) ∧
    orderedTransactionsByFeeRate m ≡ₚ p :: l ∧ ordered_ok h l.
Proof using Type.
  intros Hrep Hl Hp. unfold removeOne. rewrite (bind_ret_l _ _ m m m) by done.
  destruct (pr_live _ _ _ Hrep _ _ Hl) as (tx' & Hp' & Hid & _). assert (tx' = tx) as -> by congruence. clear Hp'. case_bool_decide as Hc.
  - destruct (chainUnindex_spec (spent tx) (set_chained (delete id (chainedTransactions m)) m)) as (C & HrunC & HC). simpl in HC.
    destruct (clean_run m L X Hrep id p tx (set_chainedByPrev C (set_chained (delete id (chainedTransactions m)) m))) as (S & U & l & Hrun & HS & HU & Hperm & Hok); [done|done|done|done|done|].
    exists C, S, U, l. split; [|split; [|done]].
    + unfold removeChainTransaction. rewrite bind_assoc, (bind_ret_l _ _ m m tx) by (by apply load_Some). rewrite Hid, bind_assoc.
      etransitivity; [apply (bind_ret_l _ _ _ (set_chained (delete id (chainedTransactions m)) m) () eq_refl)|]. rewrite (bind_ret_l _ _ _ _ _ HrunC), Hrun. simpl. by rewrite delete_delete_eq.
    + intros o. rewrite HC. destruct (decide (o ∈ spent tx)), (decide _); naive_solver.
  - destruct (clean_run m L X Hrep id p tx m) as (S & U & l & Hrun & HS & HU & Hperm & Hok); [done|done|done|done|done|].
    exists (chainedTransactionByPreviousOutpoint m), S, U, l. split; [exact Hrun|]. split; [|done]. intros o. destruct (decide _); naive_solver.
Qed.

(** The pool without a transaction that has no entries in the index of the chained transactions any more *)
Lemma shrink_rep m L X X' id p tx C S U l : pool_rep m L X → L !! id = Some p → h !! p = Some tx →
  (∀ o d, C !! o = Some d → chainedTransactionByPreviousOutpoint m !! o = Some d ∧ chainedTransactions m !! id ≠ Some d ∧ (o ∈ outpoints tx ∨ o ∈ X → o ∈ X')) →
  (∀ o, o ∉ spent tx → C !! o = chainedTransactionByPreviousOutpoint m !! o) →
  (∀ o, S !! o = if decide (o ∈ spent tx) then None else transactionByPreviousOutpoint m !! o) → (∀ o, U !! o = if decide (o ∈ outpoints tx) then None else poolUnspentOutputs m !! o) →
  orderedTransactionsByFeeRate m ≡ₚ p :: l → ordered_ok h l →
  pool_rep {| descriptors := descriptors m; pool := delete id (pool m); chainedTransactions := delete id (chainedTransactions m);
      chainedTransactionByPreviousOutpoint := C; transactionByPreviousOutpoint := S; poolUnspentOutputs := U; orderedTransactionsByFeeRate := l |} (delete id L) X'.
Proof using Type.
  intros Hrep Hl Hp HC HCo HS HU Hperm Hok. split; simpl.
  - apply map_disjoint_delete_l, map_disjoint_delete_r, Hrep.
  - intros id' d Hd. rewrite !lookup_delete_Some in Hd. destruct (pr_desc _ _ _ Hrep id' d) as (desc & Hdesc & Hl'); [naive_solver|]. exists desc. split; [done|]. rewrite lookup_delete_ne; naive_solver.
  - intros id' q [Hne Hq]%lookup_delete_Some. destruct (pr_where _ _ _ Hrep _ _ Hq) as (d & Hd). exists d. rewrite !lookup_delete_ne by done. done.
  - intros id' q [Hne Hq]%lookup_delete_Some. by apply (pr_live _ _ _ Hrep).
  - intros o q. rewrite HS. destruct (decide (o ∈ spent tx)) as [Ho|Ho].
    + split; [done|]. intros (id' & a & [Hne Hq]%lookup_delete_Some & Ha & Hoa). destruct Hne. by eapply (spender_unique m L X Hrep).
    + rewrite (pr_spenders _ _ _ Hrep). split; intros (id' & a & Hq & Ha & Hoa); exists id', a; [|apply lookup_delete_Some in Hq; naive_solver]. split; [|done]. rewrite lookup_delete_ne; [done|]. intros ->. by simplify_eq.
  - intros o e. rewrite HU. destruct (decide (o ∈ outpoints tx)) as [Ho|Ho].
    + split; [done|]. intros (id' & q & a & [Hne Hq]%lookup_delete_Some & Ha & Hoa). destruct Hne. by eapply (creator_unique m L X Hrep).
    + rewrite (pr_unspent _ _ _ Hrep). split; intros (id' & q & a & Hq & Ha & Hoa); exists id', q, a; [|apply lookup_delete_Some in Hq; naive_solver]. split; [|done]. rewrite lookup_delete_ne; [done|].
      intros ->. simplify_eq. by apply outs_fst in Hoa.
  - apply (Permutation_cons_inv (a := p)). rewrite <- Hperm, (pr_members _ _ _ Hrep). change (p :: (map_to_list (delete id L)).*2) with (((id, p) :: map_to_list (delete id L)).*2). by rewrite map_to_list_delete.
  - done.
  - intros o d Ho. destruct (HC o d Ho) as (Hm & Hne & _). destruct (chained_entry m L X Hrep o d Hm) as (id' & desc & a & Hc & Hd & Ha & Hoa & _). exists id', desc, a.
    rewrite lookup_delete_ne; [done|]. by intros ->.
  - intros o d Ho. destruct (HC o d Ho) as (Hm & _ & Hx). rewrite HU. destruct (decide _) as [Hin|_]; [by right; apply Hx; left|]. destruct (pr_parent _ _ _ Hrep o d Hm); [by left|right; apply Hx; by right].
  - intros id' d desc a [Hne Hc]%lookup_delete_Some Hd Ha. destruct (pr_count _ _ _ Hrep id' d desc a Hc Hd Ha) as [-> Hpos]. split; [|done]. f_equal. apply filter_ext_in.
    intros o Ho. rewrite HCo; [done|]. intros Ho'. destruct (pr_desc _ _ _ Hrep id' d) as (desc' & Hd' & Hl'); [by right|]. simplify_eq. destruct Hne. by eapply (spender_unique m L X Hrep).
Qed.

Lemma removeOne_spec m L X id p tx : pool_rep m L X → L !! id = Some p → h !! p = Some tx → (∀ o, o ∈ outpoints tx → transactionByPreviousOutpoint m !! o = None) →
  ∃ m', removeOne p id m = (m', Ret ()) ∧ pool_rep m' (delete id L) X.
Proof using Type.
  intros Hrep Hl Hp Hno. destruct (removeOne_run m L X id p tx Hrep Hl Hp) as (C & S & U & l & Hrun & HC & HS & HU & Hperm & Hok).
  eexists. split; [exact Hrun|]. apply (shrink_rep m L X X id p tx); try done; [|intros o Ho; rewrite HC, decide_False; [done|naive_solver]].
  intros o d. rewrite HC. destruct (decide _) as [|Hn]; [done|]. intros Hm. destruct (chained_entry m L X Hrep o d Hm) as (id' & desc & a & Hc & Hd & Ha & Hoa & Hl' & _). split_and!; [done| |].
  - intros Hc'. assert (id' = id) as -> by (apply (desc_inj m L X Hrep id' id d); by right). simplify_eq. eauto.
  - intros [Hin|?]; [|done]. assert (transactionByPreviousOutpoint m !! o = Some (td_tx desc)) by (apply (pr_spenders _ _ _ Hrep); eauto). rewrite (Hno o Hin) in *. done.
Qed.

(** *** Removing a transaction and all that depend on it *)
Definition child L (p q : pointer) : Prop := ∃ tx a o id, h !! p = Some tx ∧ L !! id = Some q ∧ h !! q = Some a ∧ o ∈ outpoints tx ∧ o ∈ spent a.
Definition depends L : pointer → pointer → Prop := rtc (child L).

(** [L'] is [L] without [p] and what depends on it. *)
Record removed L L' (p : pointer) : Prop := {
  rm_sub : L' ⊆ L;
  rm_self id : L' !! id ≠ Some p;
  rm_only id q : L !! id = Some q → L' !! id = None → depends L p q;
  rm_closed id r q : L !! id = Some r → L' !! id = None → ¬ child L' r q
}.

Lemma child_mono L L' p q : L' ⊆ L → child L' p q → child L p q.
Proof using Type. intros Hs (tx & a & o & id & Hp & Hq & Ha & Ho). exists tx, a, o, id. split_and!; try done; [by eapply lookup_weaken|naive_solver|naive_solver]. Qed.
Lemma depends_mono L L' p q : L' ⊆ L → depends L' p q → depends L p q.
Proof using Type. intros Hs. apply rtc_subrel. intros x y. by apply child_mono. Qed.

Lemma child_rank m L X id id' p q : pool_rep m L X → L !! id = Some p → child L p q → L !! id' = Some q → (rank id < rank id')%nat.
Proof using Type.
  intros Hrep Hp (tx & a & o & i & Htx & Hq & Ha & Ho & Ho') Hq'. assert (i = id') as -> by (by eapply (live_inj m L X Hrep)).
  destruct (pr_live _ _ _ Hrep _ _ Hp) as (tx' & ? & <- & _). destruct (pr_live _ _ _ Hrep _ _ Hq) as (a' & ? & <- & [[_ Hr] _ _]). simplify_eq. rewrite <- (outpoint_id tx o Ho). by apply Hr.
Qed.
Lemma depends_rank m L X id id' p q : pool_rep m L X → L !! id = Some p → depends L p q → L !! id' = Some q → (rank id ≤ rank id')%nat.
Proof using Type.
  intros Hrep Hp Hd. revert id Hp. induction Hd as [p|p r q Hc Hd IH]; intros id Hp Hq; [by rewrite (live_inj m L X Hrep id id' p)|].
  destruct Hc as (tx & a & o & i & Hc). assert (L !! i = Some r) as Hr by naive_solver. specialize (IH i Hr Hq). assert (rank id < rank i)%nat by (eapply (child_rank m L X id i p r); try done; by exists tx, a, o, i). lia.
Qed.

(** Nothing that is left depends on what was removed. *)
Lemma closed_depends m L X L' : pool_rep m L X → L' ⊆ L → (∀ i r q, L !! i = Some r → L' !! i = None → ¬ child L' r q) →
  ∀ x y, depends L x y → ∀ i j, L !! j = Some x → L' !! j = None → L' !! i ≠ Some y.
Proof using Type.
  intros Hrep Hsub Hclosed x y Hxy i. induction Hxy as [x|x r y Hc Hxy IH]; intros j Hj Hn Hy.
  - pose proof (lookup_weaken _ _ _ _ Hy Hsub). assert (i = j) as -> by (by eapply (live_inj m L X Hrep)). congruence.
  - destruct Hc as (tx & a & o & k & Hx & Hr & Ha & Ho). apply (IH k Hr); [|done]. destruct (L' !! k) as [r'|] eqn:E; [|done].
    pose proof (lookup_weaken _ _ _ _ E Hsub). simplify_eq. destruct (Hclosed j x r Hj Hn). by exists tx, a, o, k.
Qed.

(** What is removed is exactly what depends on the transaction. *)
Lemma removed_exact m L X L' p id : pool_rep m L X → L !! id = Some p → removed L L' p → ∀ i q, L' !! i = Some q ↔ L !! i = Some q ∧ ¬ depends L p q.
Proof using Type.
  intros Hrep Hp Hrm i q. split; [|intros [Hq Hd]; destruct (L' !! i) as [q'|] eqn:E; [pose proof (lookup_weaken _ _ _ _ E (rm_sub _ _ _ Hrm)); congruence|by destruct Hd; eapply (rm_only _ _ _ Hrm)]].
  intros Hq. split; [by eapply lookup_weaken, Hrm|]. intros Hd. eapply (closed_depends m L X L' Hrep (rm_sub _ _ _ Hrm) (rm_closed _ _ _ Hrm) p q Hd i id); [done| |done].
  destruct (L' !! id) as [p'|] eqn:E; [|done]. pose proof (lookup_weaken _ _ _ _ E (rm_sub _ _ _ Hrm)). simplify_eq. by apply (rm_self _ _ _ Hrm) in E.
Qed.

(** The transactions that may still be reached *)
Definition above L (id : txID) : nat := size (filter (λ ip, rank id ≤ rank ip.1)%nat L).

Lemma above_lt L L' id id' p : L' ⊆ L → L !! id = Some p → (rank id < rank id')%nat → (above L' id' < above L id)%nat.
Proof using Type.
  intros Hs Hp Hlt. unfold above. apply map_subset_size. apply map_subset_alt. split.
  - apply map_subseteq_spec. intros i q [Hq Hi]%map_lookup_filter_Some. apply map_lookup_filter_Some. split; [by eapply lookup_weaken|simpl in *; lia].
  - exists id. split; [apply map_lookup_filter_None; right; intros ? _; simpl; lia|]. exists p. apply map_lookup_filter_Some. simpl. split; [done|lia].
Qed.

Lemma removeAll_spec fuel : ∀ m L X id p tx, pool_rep m L X → L !! id = Some p → h !! p = Some tx → (above L id ≤ fuel)%nat →
  ∃ m' L', removeTransactionAndItsChainedTransactions h fuel p m = (m', Ret ()) ∧ pool_rep m' L' X ∧ removed L L' p.
Proof using Type.
  induction fuel as [|fuel IH]; intros m L X id p tx Hrep Hl Hp Hfuel.
  { exfalso. assert (id ∈ dom (filter (λ ip, rank id ≤ rank ip.1)%nat L)) as Hin by (apply elem_of_dom; exists p; apply map_lookup_filter_Some; done).
    unfold above in Hfuel. rewrite <- size_dom in Hfuel. assert (dom (filter (λ ip, rank id ≤ rank ip.1)%nat L) ≡ ∅) as He by (apply size_empty_inv; lia). set_solver. }
  destruct (pr_live _ _ _ Hrep _ _ Hl) as (tx' & Hp' & Hid & _). assert (tx' = tx) as -> by congruence. clear Hp'.
  cbn [removeTransactionAndItsChainedTransactions]. rewrite (bind_ret_l _ _ m m tx) by (by apply load_Some).
  match goal with |- context [forM _ ?f] => set (body := f) end.
  assert (∀ os m1 L1, (∀ o, o ∈ os → o ∈ outpoints tx) → pool_rep m1 L1 X → L1 ⊆ L → L1 !! id = Some p → (∀ i q, L !! i = Some q → L1 !! i = None → depends L p q) →
    (∀ i r q, L !! i = Some r → L1 !! i = None → ¬ child L1 r q) →
    ∃ m2 L2, forM os body m1 = (m2, Ret ()) ∧ pool_rep m2 L2 X ∧ L2 ⊆ L1 ∧ L2 !! id = Some p ∧ (∀ i q, L !! i = Some q → L2 !! i = None → depends L p q) ∧
    (∀ i r q, L !! i = Some r → L2 !! i = None → ¬ child L2 r q) ∧ ∀ o, o ∈ os → transactionByPreviousOutpoint m2 !! o = None) as Hloop.
  { induction os as [|o os IHos]; intros m1 L1 Hos Hrep1 Hsub Hl1 Honly Hclosed; [exists m1, L1; split_and!; try done; by intros ? ?%elem_of_nil|].
    cbn [forM]. assert (o ∈ outpoints tx) as Ho by (apply Hos; by left).
    assert (∃ m2 L2, body o m1 = (m2, Ret ()) ∧ pool_rep m2 L2 X ∧ L2 ⊆ L1 ∧ L2 !! id = Some p ∧ (∀ i q, L !! i = Some q → L2 !! i = None → depends L p q) ∧
      (∀ i r q, L !! i = Some r → L2 !! i = None → ¬ child L2 r q) ∧ transactionByPreviousOutpoint m2 !! o = None) as (m2 & L2 & Hrun & Hrep2 & Hsub2 & Hl2 & Honly2 & Hclosed2 & Hno).
    { unfold body. rewrite (bind_ret_l _ _ m1 m1 m1) by done. unfold poolTransactionBySpendingOutpoint. destruct (transactionByPreviousOutpoint m1 !! o) as [q|] eqn:Eq; [|by exists m1, L1].
      destruct (proj1 (pr_spenders _ _ _ Hrep1 o q) Eq) as (idq & a & Hq & Ha & Hoa). assert (child L1 p q) as Hc by (by exists tx, a, o, idq).
      pose proof (child_rank m1 L1 X id idq p q Hrep1 Hl1 Hc Hq) as Hlt.
      destruct (IH m1 L1 X idq q a Hrep1 Hq Ha) as (m2 & L2 & Hrun & Hrep2 & Hrm); [pose proof (above_lt L L1 id idq p Hsub Hl Hlt); lia|].
      exists m2, L2. split; [exact Hrun|]. split; [done|]. split; [apply Hrm|]. split_and!.
      - destruct (L2 !! id) as [p'|] eqn:E; [by rewrite <- (lookup_weaken _ _ _ _ E (rm_sub _ _ _ Hrm))|]. pose proof (depends_rank m1 L1 X idq id q p Hrep1 Hq (rm_only _ _ _ Hrm id p Hl1 E) Hl1). lia.
      - intros i r Hr Hnone. destruct (L1 !! i) as [r'|] eqn:E; [|by eapply Honly]. assert (r' = r) as -> by (pose proof (lookup_weaken _ _ _ _ E Hsub); congruence).
        eapply rtc_l; [by eapply child_mono|]. apply (depends_mono L L1); [done|]. by eapply (rm_only _ _ _ Hrm).
      - intros i r q' Hr Hnone Hc'. destruct (L1 !! i) as [r'|] eqn:E; [|by eapply (Hclosed i r q'), child_mono; [done|done|apply Hrm|]].
        assert (r' = r) as -> by (pose proof (lookup_weaken _ _ _ _ E Hsub); congruence). by apply (rm_closed _ _ _ Hrm i r q').
      - destruct (transactionByPreviousOutpoint m2 !! o) as [r|] eqn:E; [|done]. apply (pr_spenders _ _ _ Hrep2) in E as (i & b & Hr & Hb & Hob).
        pose proof (lookup_weaken _ _ _ _ Hr (rm_sub _ _ _ Hrm)) as Hr1. destruct (spender_unique m1 L1 X Hrep1 i idq r q b a o) as [-> ->]; try done. by apply (rm_self _ _ _ Hrm) in Hr. }
    destruct (IHos m2 L2) as (m3 & L3 & Hrun3 & Hrep3 & Hsub3 & Hl3 & Honly3 & Hclosed3 & Hno3); [intros; apply Hos; by right|done|by etransitivity|done|done|done|].
    exists m3, L3. split; [by rewrite (bind_ret_l _ _ _ _ _ Hrun)|]. split_and!; try done; [by etransitivity|]. intros o' [->|Ho']%elem_of_cons; [|by apply Hno3].
    destruct (transactionByPreviousOutpoint m3 !! o) as [r|] eqn:E; [|done]. apply (pr_spenders _ _ _ Hrep3) in E as (i & b & Hr & Hb & Hob).
    assert (transactionByPreviousOutpoint m2 !! o = Some r) by (apply (pr_spenders _ _ _ Hrep2); exists i, b; split_and!; try done; by eapply lookup_weaken). congruence. }
  destruct (Hloop (outpoints tx) m L) as (m2 & L2 & Hrun & Hrep2 & Hsub & Hl2 & Honly & Hclosed & Hno); [done|done|done|done|congruence|congruence|].
  rewrite (bind_ret_l _ _ _ _ _ Hrun). destruct (removeOne_spec m2 L2 X id p tx Hrep2 Hl2 Hp Hno) as (m3 & Hrun3 & Hrep3). rewrite Hid.
  exists m3, (delete id L2). split; [exact Hrun3|]. split; [done|]. split.
  - by etransitivity; [apply delete_subseteq|].
  - intros i [Hne Hi]%lookup_delete_Some. destruct Hne. by apply (live_inj m2 L2 X Hrep2 id i p).
  - intros i q Hq. destruct (decide (i = id)) as [->|Hne]; [assert (q = p) as -> by congruence; intros _; apply rtc_refl|]. rewrite lookup_delete_ne by done. by apply Honly.
  - intros i r q Hr. destruct (decide (i = id)) as [->|Hne].
    + assert (r = p) as -> by congruence. intros _ (tx' & a & o & j & Htx & [_ Hq]%lookup_delete_Some & Ha & Ho & Hoa). simplify_eq.
      assert (transactionByPreviousOutpoint m2 !! o = Some q) by (apply (pr_spenders _ _ _ Hrep2); eauto). rewrite (Hno o Ho) in *. done.
    + rewrite lookup_delete_ne by done. intros Hnone Hc. apply (Hclosed i r q Hr Hnone). by eapply child_mono, Hc; apply delete_subseteq.
Qed.

Lemma removeFuel_enough m L X id : pool_rep m L X → (above L id ≤ removeFuel m)%nat.
Proof using Type. intros Hrep. unfold removeFuel, above. rewrite (ordered_length m L X Hrep). etransitivity; [apply map_subseteq_size, map_filter_subseteq|lia]. Qed.

(** *** Removing the transactions that a transaction of a block conflicts with *)
Definition conflicts L (os : list DomainOutpoint) (id : txID) (r : pointer) : Prop :=
  ∃ i a o, L !! i = Some r ∧ h !! r = Some a ∧ o ∈ spent a ∧ o ∈ os ∧ txid a ≠ id.

Lemma removeDoubleSpends_spec m L X p tx : pool_rep m L X → h !! p = Some tx →
  ∃ m' L', removeDoubleSpends h p m = (m', Ret ()) ∧ pool_rep m' L' X ∧ ∀ i q, L' !! i = Some q ↔ L !! i = Some q ∧ ¬ ∃ r, conflicts L (spent tx) (txid tx) r ∧ depends L r q.
Proof using Type.
  intros Hrep Hp. unfold removeDoubleSpends. rewrite (bind_ret_l _ _ m m tx) by (by apply load_Some). match goal with |- context [forM _ ?f] => set (body := f) end.
  assert (∀ os m1 L1, (∀ o, o ∈ os → o ∈ spent tx) → pool_rep m1 L1 X → L1 ⊆ L → (∀ i q, L !! i = Some q → L1 !! i = None → ∃ r, conflicts L (spent tx) (txid tx) r ∧ depends L r q) →
    (∀ i r q, L !! i = Some r → L1 !! i = None → ¬ child L1 r q) →
    ∃ m2 L2, forM os body m1 = (m2, Ret ()) ∧ pool_rep m2 L2 X ∧ L2 ⊆ L1 ∧ (∀ i q, L !! i = Some q → L2 !! i = None → ∃ r, conflicts L (spent tx) (txid tx) r ∧ depends L r q) ∧
    (∀ i r q, L !! i = Some r → L2 !! i = None → ¬ child L2 r q) ∧ ∀ i q, L2 !! i = Some q → ¬ conflicts L os (txid tx) q) as Hloop.
  { induction os as [|o os IHos]; intros m1 L1 Hos Hrep1 Hsub Honly Hclosed; [exists m1, L1; split_and!; try done; by intros ? ? ? (? & ? & ? & ? & ? & ? & ?%elem_of_nil & ?)|].
    assert (∃ m2 L2, body o m1 = (m2, Ret ()) ∧ pool_rep m2 L2 X ∧ L2 ⊆ L1 ∧ (∀ i q, L !! i = Some q → L2 !! i = None → ∃ r, conflicts L (spent tx) (txid tx) r ∧ depends L r q) ∧
      (∀ i r q, L !! i = Some r → L2 !! i = None → ¬ child L2 r q) ∧ ∀ i q, L2 !! i = Some q → ¬ conflicts L [o] (txid tx) q) as (m2 & L2 & Hrun & Hrep2 & Hsub2 & Honly2 & Hclosed2 & Hno).
    { unfold body. rewrite (bind_ret_l _ _ m1 m1 m1) by done. unfold poolTransactionBySpendingOutpoint.
      assert (∀ i q, L1 !! i = Some q → conflicts L [o] (txid tx) q → ∃ a, h !! q = Some a ∧ transactionByPreviousOutpoint m1 !! o = Some q ∧ txid a ≠ txid tx) as Hc.
      { intros i q Hq (j & a & o' & Hj & Ha & Ho & ->%list_elem_of_singleton & Hne). exists a. split_and!; [done| |done]. apply (pr_spenders _ _ _ Hrep1). eauto. }
      destruct (transactionByPreviousOutpoint m1 !! o) as [q|] eqn:Eq; [|exists m1, L1; split_and!; try done; intros i q Hq Hcq; destruct (Hc i q Hq Hcq); naive_solver].
      destruct (proj1 (pr_spenders _ _ _ Hrep1 o q) Eq) as (idq & a & Hq & Ha & Hoa). rewrite (bind_ret_l _ _ m1 m1 a) by (by apply load_Some).
      case_bool_decide as Hid; simpl negb; cbv iota; [exists m1, L1; split_and!; try done; intros i q' Hq' Hcq; destruct (Hc i q' Hq' Hcq) as (? & ? & ? & ?); by simplify_eq|].
      destruct (removeAll_spec (removeFuel m1) m1 L1 X idq q a Hrep1 Hq Ha) as (m2 & L2 & Hrun & Hrep2 & Hrm); [by eapply removeFuel_enough|].
      exists m2, L2. split; [exact Hrun|]. split; [done|]. split; [apply Hrm|]. split_and!.
      - intros i r Hr Hnone. destruct (L1 !! i) as [r'|] eqn:E; [|by eapply Honly]. assert (r' = r) as -> by (pose proof (lookup_weaken _ _ _ _ E Hsub); congruence).
        exists q. split; [|apply (depends_mono L L1); [done|]; by eapply (rm_only _ _ _ Hrm)]. exists idq, a, o. split_and!; try done; [by eapply lookup_weaken|apply Hos; by left].
      - intros i r q' Hr Hnone Hc'. destruct (L1 !! i) as [r'|] eqn:E; [|by eapply (Hclosed i r q'), child_mono; [done|done|apply Hrm|]].
        assert (r' = r) as -> by (pose proof (lookup_weaken _ _ _ _ E Hsub); congruence). by apply (rm_closed _ _ _ Hrm i r q').
      - intros i r Hr Hcr. pose proof (lookup_weaken _ _ _ _ Hr (rm_sub _ _ _ Hrm)) as Hr1. destruct (Hc i r Hr1 Hcr) as (? & ? & ? & ?). simplify_eq. by apply (rm_self _ _ _ Hrm) in Hr. }
    destruct (IHos m2 L2) as (m3 & L3 & Hrun3 & Hrep3 & Hsub3 & Honly3 & Hclosed3 & Hno3); [intros; apply Hos; by right|done|by etransitivity|done|done|].
    exists m3, L3. split; [cbn [forM]; by rewrite (bind_ret_l _ _ _ _ _ Hrun)|]. split_and!; try done; [by etransitivity|]. intros i q Hq (j & a & o' & Hj & Ha & Ho & [->|Ho']%elem_of_cons & Hne).
    - eapply (Hno i q); [by eapply lookup_weaken|]. exists j, a, o. split_and!; try done. by left.
    - eapply (Hno3 i q); [done|]. by exists j, a, o'. }
  destruct (Hloop (spent tx) m L) as (m2 & L2 & Hrun & Hrep2 & Hsub & Honly & Hclosed & Hno); [done|done|done|congruence|congruence|]. exists m2, L2. split; [done|]. split; [done|]. intros i q. split.
  - intros Hq. split; [by eapply lookup_weaken|]. intros (r & Hr & Hd). destruct Hr as (j & a & o & Hj & Hr). eapply (closed_depends m L X L2 Hrep Hsub Hclosed r q Hd i j); [done| |done].
    destruct (L2 !! j) as [r'|] eqn:E; [|done]. pose proof (lookup_weaken _ _ _ _ E Hsub). simplify_eq. destruct (Hno j r E). by exists j, a, o.
  - intros [Hq Hd]. destruct (L2 !! i) as [q'|] eqn:E; [by rewrite <- (lookup_weaken _ _ _ _ E Hsub)|]. by destruct Hd; apply (Honly i).
Qed.

(** *** Removing the transactions of a block *)

(** Without a chained transaction, the index of the chained transactions stays. *)
Lemma clean_rep m L id p tx : pool_rep m L [] → L !! id = Some p → h !! p = Some tx → chainedTransactions m !! id = None →
  ∃ m', cleanTransactionFromSets h p m = (m', Ret ()) ∧ pool_rep m' (delete id L) (outpoints tx) ∧ chainedTransactions m' = chainedTransactions m.
Proof using Type.
  intros Hrep Hl Hp Hnc. destruct (clean_run m L [] Hrep id p tx m) as (S & U & l & Hrun & HS & HU & Hperm & Hok); [done|done|done|done|done|].
  eexists. split; [exact Hrun|]. split; [|simpl; by apply delete_id]. apply (shrink_rep m L [] (outpoints tx) id p tx); try done. intros o d Ho. split_and!; [done|by rewrite Hnc|].
  by intros [?|[]%elem_of_nil].
Qed.

Definition release (prevOut : DomainOutpoint) : prog mainPool poolError unit :=
  let* m := get in
  match chainedTransactionByPreviousOutpoint m !! prevOut with
  | None => ret ()
  | Some d =>
      let* txDesc := loadDesc d in
      modify (λ m, set_descriptors (<[d := {| td_tx := td_tx txDesc; depCount := depCount txDesc - 1 |}]> (descriptors m)) m) ;;*
      (if depCount txDesc - 1 =? 0 then
         let* descTx := load h (td_tx txDesc) in
         let* m := get in
         if bool_decide (is_Some (chainedTransactions m !! txid descTx)) then
           modify (λ m, set_chained (delete (txid descTx) (chainedTransactions m)) m) ;;*
           modify (λ m, set_pool (<[txid descTx := d]> (pool m)) m)
         else ret ()
       else ret ()) ;;*
      modify (λ m, set_chainedByPrev (delete prevOut (chainedTransactionByPreviousOutpoint m)) m)
  end.

Lemma release_spec m L o X : pool_rep m L (o :: X) → ∃ m', release o m = (m', Ret ()) ∧ pool_rep m' L X ∧ (∀ id d, chainedTransactions m' !! id = Some d → chainedTransactions m !! id = Some d).
Proof using Type.
  intros Hrep. unfold release. rewrite (bind_ret_l _ _ m m m) by done. destruct (chainedTransactionByPreviousOutpoint m !! o) as [d|] eqn:Ed.
  2:{ exists m. split; [done|]. split; [|done]. destruct Hrep. split; try done. intros o' d Ho'. destruct (pr_parent0 o' d Ho') as [?|[->|?]%elem_of_cons]; [by left|congruence|by right]. }
  destruct (chained_entry m L _ Hrep o d Ed) as (id & desc & tx & Hc & Hd & Hp & Ho & Hl & Hid & Hpool).
  rewrite (bind_ret_l _ _ m m desc) by (unfold loadDesc, bind, gets; by rewrite Hd).
  set (desc' := {| td_tx := td_tx desc; depCount := depCount desc - 1 |}). destruct (pr_count _ _ _ Hrep id d desc tx Hc Hd Hp) as [Hcount Hpos].
  assert (∀ id' d', chainedTransactions m !! id' = Some d' → d' = d → id' = id) as Hinj by (intros id' d' H1 ->; apply (desc_inj m L _ Hrep id' id d); by right).
  assert (∀ o' d', delete o (chainedTransactionByPreviousOutpoint m) !! o' = Some d' ↔ chainedTransactionByPreviousOutpoint m !! o' = Some d' ∧ o' ≠ o) as HC by (intros; rewrite lookup_delete_Some; naive_solver).
  assert (∀ id' d' desc0 a, chainedTransactions m !! id' = Some d' → d' ≠ d → descriptors m !! d' = Some desc0 → h !! td_tx desc0 = Some a →
    depCount desc0 = zlen (filter (λ o', delete o (chainedTransactionByPreviousOutpoint m) !! o' = Some d') (spent a)) ∧ 0 < depCount desc0) as Hothers.
  { intros id' d' desc0 a Hc' Hne Hd' Ha. destruct (pr_count _ _ _ Hrep id' d' desc0 a Hc' Hd' Ha) as [-> ?]. split; [|done]. f_equal. apply filter_ext_in. intros o' Ho'. rewrite HC. naive_solver. }
  assert (zlen (filter (λ o', delete o (chainedTransactionByPreviousOutpoint m) !! o' = Some d) (spent tx)) = depCount desc - 1) as Hmine.
  { rewrite Hcount. apply (filter_without _ _ _ o); [apply Hpool|done|done|]. intros o' Ho'. apply HC. }
  assert (∀ id' d' desc0, <[d := desc']> (descriptors m) !! d' = Some desc0 → chainedTransactions m !! id' = Some d' → (d' = d ∧ desc0 = desc' ∧ id' = id) ∨ (d' ≠ d ∧ descriptors m !! d' = Some desc0)) as Hsplit.
  { intros id' d' desc0 [[<- <-]|[??]]%lookup_insert_Some Hc'; [left; split_and!; [done|done|by apply (Hinj _ d)]|by right]. }
  assert (∀ id' d', pool m !! id' = Some d' ∨ chainedTransactions m !! id' = Some d' → ∃ desc0, <[d := desc']> (descriptors m) !! d' = Some desc0 ∧ L !! id' = Some (td_tx desc0)) as Hdescs.
  { intros id' d' Hw. destruct (pr_desc _ _ _ Hrep id' d' Hw) as (desc0 & Hd0 & Hl0). destruct (decide (d' = d)) as [->|Hne]; [exists desc'; rewrite lookup_insert_eq; simplify_eq; done|].
    exists desc0. by rewrite lookup_insert_ne. }
  destruct (Z.eqb_spec (depCount desc - 1) 0) as [Hz|Hz].
  - set (m' := set_chainedByPrev (delete o (chainedTransactionByPreviousOutpoint m)) (set_pool (<[id := d]> (pool m)) (set_chained (delete id (chainedTransactions m)) (set_descriptors (<[d := desc']> (descriptors m)) m)))).
    exists m'. split.
    { etransitivity; [apply (bind_ret_l _ _ _ (set_descriptors (<[d := desc']> (descriptors m)) m) () eq_refl)|]. unfold bind at 1 2. rewrite (load_Some h _ tx) by done. unfold bind at 1, get. rewrite Hid.
      rewrite bool_decide_true by (simpl; by eexists). done. }
    assert (∀ o' id' d', delete o (chainedTransactionByPreviousOutpoint m) !! o' = Some d' → chainedTransactions m !! id' = Some d' → d' ≠ d) as Hgone.
    { intros o' id' d' Ho' Hc' ->. destruct (chained_entry m L _ Hrep o' d) as (id2 & desc2 & tx2 & Hc2 & Hd2 & Hp2 & Ho2 & _); [by apply HC|]. simplify_eq.
      rewrite Hz in Hmine. apply zlen_zero in Hmine. assert (o' ∈ filter (λ o', delete o (chainedTransactionByPreviousOutpoint m) !! o' = Some d) (spent tx)) as Hin by (by apply list_elem_of_filter).
      rewrite Hmine in Hin. by apply elem_of_nil in Hin. }
    split; [|intros id' d'; simpl; intros [_ ?]%lookup_delete_Some; done]. split; simpl.
    + apply map_disjoint_insert_l_2; [by rewrite lookup_delete_eq|]. apply map_disjoint_delete_r, Hrep.
    + intros id' d' Hw. apply Hdescs. rewrite lookup_insert_Some, lookup_delete_Some in Hw. destruct Hw as [[[<- <-]|[??]]|[??]]; auto.
    + intros id' q Hq. destruct (decide (id' = id)) as [->|Hne]; [exists d; left; by rewrite lookup_insert_eq|]. rewrite lookup_insert_ne, lookup_delete_ne by done. by eapply (pr_where _ _ _ Hrep).
    + apply Hrep. + apply Hrep. + apply Hrep. + apply Hrep. + apply Hrep.
    + intros o' d' Ho'. destruct (chained_entry m L _ Hrep o' d') as (id2 & desc2 & tx2 & Hc2 & Hd2 & Hp2 & Ho2 & _); [by apply HC|]. pose proof (Hgone o' id2 d' Ho' Hc2) as Hne.
      exists id2, desc2, tx2. rewrite lookup_delete_ne, lookup_insert_ne by (try done; intros ->; simplify_eq). done.
    + intros o' d' [Ho' Hne]%HC. destruct (pr_parent _ _ _ Hrep o' d' Ho') as [?|[->|?]%elem_of_cons]; [by left|done|by right].
    + intros id' d' desc0 a [Hne Hc']%lookup_delete_Some Hd' Ha. destruct (Hsplit id' d' desc0 Hd' Hc') as [(_ & _ & ->)|[Hne' Hd0]]; [done|]. by eapply Hothers.
  - set (m' := set_chainedByPrev (delete o (chainedTransactionByPreviousOutpoint m)) (set_descriptors (<[d := desc']> (descriptors m)) m)). exists m'. split; [done|]. split; [|done]. split; simpl; try apply Hrep.
    + done.
    + intros o' d' [Ho' Hne]%HC. destruct (pr_chain _ _ _ Hrep o' d' Ho') as (id2 & desc2 & tx2 & Hc2 & Hd2 & Hp2 & Ho2). destruct (decide (d' = d)) as [->|Hned].
      * exists id2, desc', tx2. rewrite lookup_insert_eq. simplify_eq. done.
      * exists id2, desc2, tx2. by rewrite lookup_insert_ne.
    + intros o' d' [Ho' Hne]%HC. destruct (pr_parent _ _ _ Hrep o' d' Ho') as [?|[->|?]%elem_of_cons]; [by left|done|by right].
    + intros id' d' desc0 a Hc' Hd' Ha. destruct (Hsplit id' d' desc0 Hd' Hc') as [(-> & -> & ->)|[Hne' Hd0]]; [|by eapply Hothers]. simpl in *. simplify_eq. rewrite Hmine. lia.
Qed.

Lemma release_all m L os : pool_rep m L os → ∃ m', forM os release m = (m', Ret ()) ∧ pool_rep m' L [] ∧ (∀ id d, chainedTransactions m' !! id = Some d → chainedTransactions m !! id = Some d).
Proof using Type.
  revert m. induction os as [|o os IH]; intros m Hrep; [by exists m|]. destruct (release_spec m L o os Hrep) as (m1 & Hrun & Hrep1 & Hc). destruct (IH m1 Hrep1) as (m2 & Hrun2 & Hrep2 & Hc2).
  exists m2. split; [cbn [forM]; by rewrite (bind_ret_l _ _ _ _ _ Hrun)|]. split; [done|auto].
Qed.

Lemma fetch_live m L X id : pool_rep m L X → match fetchTxDesc m id with Some d => ∃ desc, descriptors m !! d = Some desc ∧ L !! id = Some (td_tx desc) | None => L !! id = None end.
Proof using Type.
  intros Hrep. unfold fetchTxDesc. destruct (pool m !! id) as [d|] eqn:Ep; [apply (pr_desc _ _ _ Hrep); by left|]. destruct (chainedTransactions m !! id) as [d|] eqn:Ec; [apply (pr_desc _ _ _ Hrep); by right|].
  destruct (L !! id) as [p|] eqn:El; [|done]. destruct (pr_where _ _ _ Hrep _ _ El) as (d & [?|?]); congruence.
Qed.

(** Transactions of a block that are not chained leave one after the other, and those that were chained to them can be mined. *)
Lemma blockLoop_spec txs : ∀ m L, pool_rep m L [] → (∀ p, p ∈ txs → ∃ tx, h !! p = Some tx ∧ chainedTransactions m !! txid tx = None) →
  ∃ m' L', forM txs (λ p,
      let* tx := load h p in
      let* m := get in
      match fetchTxDesc m (txid tx) with
      | None => ret ()
      | Some d =>
          let* mempoolTx := loadDesc d in
          cleanTransactionFromSets h (td_tx mempoolTx) ;;*
          updateBlockTransactionChainedTransactions h (td_tx mempoolTx)
      end) m = (m', Ret ()) ∧ pool_rep m' L' [] ∧ (∀ i q, L' !! i = Some q ↔ L !! i = Some q ∧ ∀ p tx, p ∈ txs → h !! p = Some tx → txid tx ≠ i) ∧
    (∀ id d, chainedTransactions m' !! id = Some d → chainedTransactions m !! id = Some d).
Proof using Type.
  induction txs as [|p txs IH]; intros m L Hrep Hblock; [exists m, L; split_and!; try done; intros i q; split; [intros; split; [done|by intros ?? ?%elem_of_nil]|naive_solver]|].
  destruct (Hblock p) as (tx & Hp & Hnc); [by left|]. cbn [forM].
  match goal with |- context [bind ?b _ m] => assert (∃ m1, b m = (m1, Ret ()) ∧ pool_rep m1 (delete (txid tx) L) [] ∧ (∀ id d, chainedTransactions m1 !! id = Some d → chainedTransactions m !! id = Some d)) as (m1 & Hrun & Hrep1 & Hc1) end.
  { rewrite (bind_ret_l _ _ m m tx), (bind_ret_l _ _ m m m) by (done || by apply load_Some). pose proof (fetch_live m L [] (txid tx) Hrep) as Hf.
    destruct (fetchTxDesc m (txid tx)) as [d|] eqn:Ef; [|exists m; split; [done|]; rewrite delete_id by done; done]. destruct Hf as (desc & Hd & Hl).
    destruct (pr_live _ _ _ Hrep _ _ Hl) as (a & Ha & Hida & _). destruct (clean_rep m L (txid tx) (td_tx desc) a Hrep Hl Ha Hnc) as (m1 & Hrun & Hrep1 & Hc).
    destruct (release_all m1 _ _ Hrep1) as (m2 & Hrun2 & Hrep2 & Hc2). exists m2. split; [|split; [done|by rewrite <- Hc]].
    rewrite (bind_ret_l _ _ m m desc) by (unfold loadDesc, bind, gets; by rewrite Hd). rewrite (bind_ret_l _ _ _ _ _ Hrun).
    unfold updateBlockTransactionChainedTransactions. rewrite (bind_ret_l _ _ m1 m1 a) by (by apply load_Some). exact Hrun2. }
  rewrite (bind_ret_l _ _ _ _ _ Hrun). destruct (IH m1 _ Hrep1) as (m2 & L2 & Hrun2 & Hrep2 & HL2 & Hc2).
  { intros q Hq. destruct (Hblock q) as (a & Ha & Hna); [by right|]. exists a. split; [done|]. destruct (chainedTransactions m1 !! txid a) as [d|] eqn:E; [|done]. apply Hc1 in E. congruence. }
  exists m2, L2. split; [exact Hrun2|]. split; [done|]. split; [|auto]. intros i q. rewrite HL2, lookup_delete_Some. split.
  - intros [[Hne Hq] Hn]. split; [done|]. intros p' a [->|Hp']%elem_of_cons Ha; [congruence|by apply (Hn p')].
  - intros [Hq Hn]. split; [split; [apply (Hn p); [by left|done]|done]|]. intros p' a Hp' Ha. apply (Hn p'); [by right|done].
Qed.

(** *** Adding a transaction *)

(** The pool with one more transaction, under a new descriptor *)
Lemma grow_rep m L p tx d desc P K C S U l : pool_rep m L [] → h !! p = Some tx → pooled tx → L !! txid tx = None → (∀ o, o ∈ spent tx → transactionByPreviousOutpoint m !! o = None) →
  descriptors m !! d = None → td_tx desc = p → P ##ₘ K →
  let parents := filter (λ o, is_Some (poolUnspentOutputs m !! o)) (spent tx) in
  depCount desc = zlen parents →
  (∀ i e, P !! i = Some e ∨ K !! i = Some e ↔ i = txid tx ∧ e = d ∨ (pool m !! i = Some e ∨ chainedTransactions m !! i = Some e)) →
  (∀ i e, K !! i = Some e ↔ i = txid tx ∧ e = d ∧ parents ≠ [] ∨ chainedTransactions m !! i = Some e) →
  (∀ o, C !! o = if decide (o ∈ parents) then Some d else chainedTransactionByPreviousOutpoint m !! o) →
  (∀ o, S !! o = if decide (o ∈ spent tx) then Some p else transactionByPreviousOutpoint m !! o) → (∀ o e, U !! o = Some e ↔ (o, e) ∈ outs tx ∨ poolUnspentOutputs m !! o = Some e) →
  l ≡ₚ p :: orderedTransactionsByFeeRate m → ordered_ok h l →
  pool_rep {| descriptors := <[d := desc]> (descriptors m); pool := P; chainedTransactions := K;
      chainedTransactionByPreviousOutpoint := C; transactionByPreviousOutpoint := S; poolUnspentOutputs := U; orderedTransactionsByFeeRate := l |} (<[txid tx := p]> L) [].
Proof using Type.
  intros Hrep Hp Hpool Hnew Hfree Hd Hdp Hdisj parents Hdep HPK HK HC HS HU Hperm Hok.
  assert (∀ i e, chainedTransactions m !! i = Some e → e ≠ d ∧ i ≠ txid tx) as Hold. { intros i e Hc. destruct (pr_desc _ _ _ Hrep i e) as (? & ? & ?); [by right|]. split; congruence. }
  assert (∀ o e, chainedTransactionByPreviousOutpoint m !! o = Some e → o ∉ spent tx) as Hpar.
  { intros o e Hc Ho. destruct (chained_entry m L [] Hrep o e Hc) as (i & de & a & _ & _ & Ha & Hoa & Hl & _). assert (transactionByPreviousOutpoint m !! o = Some (td_tx de)) by (apply (pr_spenders _ _ _ Hrep); eauto).
    rewrite Hfree in *; done. }
  assert (∀ o, o ∈ parents ↔ is_Some (poolUnspentOutputs m !! o) ∧ o ∈ spent tx) as Hin by (intros o; unfold parents; by rewrite list_elem_of_filter).
  split; simpl.
  - done.
  - intros i e [[-> ->]|Hw]%HPK; [exists desc; rewrite !lookup_insert_eq, Hdp; done|]. destruct (pr_desc _ _ _ Hrep i e Hw) as (de & Hde & Hl). exists de. rewrite !lookup_insert_ne by congruence. done.
  - intros i q [[<- <-]|[Hne Hq]]%lookup_insert_Some; [exists d; apply HPK; by left|]. destruct (pr_where _ _ _ Hrep i q Hq) as (e & He). exists e. apply HPK. by right.
  - intros i q [[<- <-]|[Hne Hq]]%lookup_insert_Some; [by exists tx|by apply (pr_live _ _ _ Hrep)].
  - intros o q. rewrite HS. destruct (decide (o ∈ spent tx)) as [Ho|Ho].
    + split; [intros [= <-]; exists (txid tx), tx; by rewrite lookup_insert_eq|]. intros (i & a & [[<- <-]|[Hne Hq]]%lookup_insert_Some & Ha & Hoa); [done|].
      assert (transactionByPreviousOutpoint m !! o = Some q) by (apply (pr_spenders _ _ _ Hrep); eauto). rewrite Hfree in *; done.
    + rewrite (pr_spenders _ _ _ Hrep). split; intros (i & a & Hq & Ha & Hoa); exists i, a; [rewrite lookup_insert_ne by congruence; done|]. apply lookup_insert_Some in Hq as [[<- <-]|[??]]; [by simplify_eq|done].
  - intros o e. rewrite HU, (pr_unspent _ _ _ Hrep). split.
    + intros [Ho|(i & q & a & Hq & Ha & Ho)]; [exists (txid tx), p, tx; by rewrite lookup_insert_eq|]. exists i, q, a. rewrite lookup_insert_ne by congruence. done.
    + intros (i & q & a & [[<- <-]|[Hne Hq]]%lookup_insert_Some & Ha & Ho); [simplify_eq; by left|right; eauto 6].
  - rewrite Hperm, (pr_members _ _ _ Hrep), map_to_list_insert by done. done.
  - done.
  - intros o e. rewrite HC. destruct (decide (o ∈ parents)) as [Ho|Ho].
    + intros [= <-]. exists (txid tx), desc, tx. rewrite lookup_insert_eq, Hdp. split_and!; [|done|done|by apply Hin]. apply HK. left. split_and!; [done|done|]. intros E. rewrite E in Ho. by apply elem_of_nil in Ho.
    + intros Hc. destruct (pr_chain _ _ _ Hrep o e Hc) as (i & de & a & Hk & Hde & Ha). exists i, de, a. rewrite lookup_insert_ne by (apply not_eq_sym; by eapply Hold). split; [|done]. apply HK. by right.
  - intros o e. rewrite HC. left. destruct (decide (o ∈ parents)) as [Ho|Ho].
    + apply Hin in Ho as [[x Hx] _]. exists x. apply HU. by right.
    + destruct (pr_parent _ _ _ Hrep o e) as [[x Hx]|[]%elem_of_nil]; [done|]. exists x. apply HU. by right.
  - intros i e de a [(-> & -> & Hne)|Hc]%HK Hde Ha.
    + rewrite lookup_insert_eq in Hde. simplify_eq. rewrite Hdep. split; [|destruct parents; [done|zlia]]. f_equal. apply filter_ext_in. intros o Ho. rewrite HC.
      destruct (decide (o ∈ parents)) as [[? _]%Hin|Hn]; [done|]. split; [intros Hs; by destruct Hn; apply Hin|]. intros Hc%Hpar. done.
    + destruct (Hold _ _ Hc) as [Hed _]. rewrite lookup_insert_ne in Hde by done. destruct (pr_count _ _ _ Hrep i e de a Hc Hde Ha) as [-> Hpos]. split; [|done]. f_equal. apply filter_ext_in. intros o Ho.
      rewrite HC, decide_False; [done|]. intros [_ Ho']%Hin. destruct (pr_desc _ _ _ Hrep i e) as (de' & ? & Hl); [by right|]. simplify_eq.
      assert (transactionByPreviousOutpoint m !! o = Some (td_tx de)) by (apply (pr_spenders _ _ _ Hrep); eauto). rewrite Hfree in *; done.
Qed.

Lemma add_spec m L p tx : pool_rep m L [] → h !! p = Some tx → pooled tx → L !! txid tx = None → (∀ o, o ∈ spent tx → transactionByPreviousOutpoint m !! o = None) →
  ∃ m' d, addTransaction h p (filter (λ o, is_Some (poolUnspentOutputs m !! o)) (spent tx)) m = (m', Ret d) ∧ pool_rep m' (<[txid tx := p]> L) [] ∧
    (td_tx <$> descriptors m' !! d) = Some p ∧ fetchTxDesc m' (txid tx) = Some d ∧
    (pool m' !! txid tx = Some d ↔ ∀ o, o ∈ spent tx → poolUnspentOutputs m !! o = None).
Proof using Type.
  intros Hrep Hp Hpool Hnew Hfree. set (parents := filter _ (spent tx)). set (id := txid tx) in *. set (d := fresh (dom (descriptors m))).
  assert (descriptors m !! d = None) as Hd by (apply not_elem_of_dom, is_fresh). set (desc := {| td_tx := p; depCount := zlen parents |}).
  assert (pool m !! id = None ∧ chainedTransactions m !! id = None) as [Hnp Hnc].
  { split; [destruct (pool m !! id) as [e|] eqn:E|destruct (chainedTransactions m !! id) as [e|] eqn:E]; try done; destruct (pr_desc _ _ _ Hrep id e) as (? & _ & ?); auto; congruence. }
  set (m1 := match parents with [] => set_pool (<[id := d]> (pool m)) (set_descriptors (<[d := desc]> (descriptors m)) m)
    | _ => set_chained (<[id := d]> (chainedTransactions m)) (set_descriptors (<[d := desc]> (descriptors m)) m) end).
  destruct (chainIndex_spec d parents m1) as (C & HrunC & HC).
  assert (chainedTransactionByPreviousOutpoint m1 = chainedTransactionByPreviousOutpoint m) as EC by (unfold m1; by destruct parents). rewrite EC in HC.
  destruct (addSpent_spec p (spent tx) (set_chainedByPrev C m1)) as (S & HrunS & HS); [apply Hpool|unfold m1; by destruct parents|].
  assert (transactionByPreviousOutpoint (set_chainedByPrev C m1) = transactionByPreviousOutpoint m) as ES by (unfold m1; by destruct parents). rewrite ES in HS.
  set (m2 := set_spenders S (set_chainedByPrev C m1)) in *. assert (poolUnspentOutputs m2 = poolUnspentOutputs m) as EU by (unfold m2, m1; by destruct parents).
  destruct (addPoolOutputs_spec id (tx_Outputs tx) 0 m2) as (U & HrunU & HU); [apply created_nodup; [lia|]; destruct (pl_wf _ Hpool); lia| |].
  { rewrite EU. intros o e Hin. destruct (poolUnspentOutputs m !! o) as [e'|] eqn:E; [|done]. apply (outs_fst tx), outpoint_id in Hin. destruct (unspent_creator m L [] Hrep o) as [q Hq]; [by eexists|].
    rewrite Hin in Hq. unfold id in Hnew. congruence. }
  rewrite EU in HU. fold (outs tx) in HU. set (m3 := set_unspent U m2).
  destruct (addOrdered_spec h p tx m3 Hp (pl_rated _ Hpool)) as (l & HrunO & Hperm & Hok); [unfold m3, m2, m1; destruct parents; apply Hrep|].
  assert (orderedTransactionsByFeeRate m3 = orderedTransactionsByFeeRate m) as EO by (unfold m3, m2, m1; by destruct parents). rewrite EO in Hperm.
  assert (addTransaction h p parents m = (set_ordered l m3, Ret d)) as Hrun.
  { unfold addTransaction. rewrite (bind_ret_l _ _ m m tx) by (by apply load_Some). rewrite (bind_ret_l _ _ m m m) by done. fold d id desc.
    etransitivity; [apply (bind_ret_l _ _ _ (set_descriptors (<[d := desc]> (descriptors m)) m) () eq_refl)|]. rewrite (bind_ret_l _ _ _ (set_chainedByPrev C m1) ()).
    2:{ revert HrunC. unfold m1. destruct parents; [|intros HrunC; exact HrunC]. intros [= <-]. done. }
    unfold addTx. rewrite bind_assoc, (bind_ret_l _ _ _ (set_chainedByPrev C m1) tx) by (by apply load_Some). rewrite bind_assoc, (bind_ret_l _ _ _ _ _ HrunS). fold m2. rewrite (bind_ret_l _ _ _ _ _ HrunU). fold m3.
    by rewrite (bind_ret_l _ _ _ _ _ HrunO). }
  exists (set_ordered l m3), d. split; [exact Hrun|].
  assert (parents = [] ↔ ∀ o, o ∈ spent tx → poolUnspentOutputs m !! o = None) as Hnone.
  { split.
    - intros E o Ho. destruct (poolUnspentOutputs m !! o) as [e|] eqn:Eo; [|done]. assert (o ∈ parents) as Hin by (unfold parents; rewrite list_elem_of_filter, Eo; eauto). rewrite E in Hin. by apply elem_of_nil in Hin.
    - intros Hall. apply elem_of_nil_inv. intros o. unfold parents. rewrite list_elem_of_filter. intros [[e He] Ho]. rewrite (Hall o Ho) in He. done. }
  destruct (decide (parents = [])) as [Epar|Epar].
  - assert (set_ordered l m3 = {| descriptors := <[d := desc]> (descriptors m); pool := <[id := d]> (pool m); chainedTransactions := chainedTransactions m; chainedTransactionByPreviousOutpoint := C;
      transactionByPreviousOutpoint := S; poolUnspentOutputs := U; orderedTransactionsByFeeRate := l |}) as -> by (unfold m3, m2, m1; by rewrite Epar).
    split_and!; simpl; [|by rewrite lookup_insert_eq|unfold fetchTxDesc; simpl; by rewrite lookup_insert_eq|rewrite lookup_insert_eq; naive_solver].
    apply (grow_rep m L p tx d desc); try done; [by apply map_disjoint_insert_l_2, Hrep| |].
    + intros i e. rewrite lookup_insert_Some. split; [naive_solver|]. intros [[-> ->]|[He|He]]; [auto| |by right]. left. right. split; [|done]. intros <-. congruence.
    + fold parents. intros i e. naive_solver.
  - assert (set_ordered l m3 = {| descriptors := <[d := desc]> (descriptors m); pool := pool m; chainedTransactions := <[id := d]> (chainedTransactions m); chainedTransactionByPreviousOutpoint := C;
      transactionByPreviousOutpoint := S; poolUnspentOutputs := U; orderedTransactionsByFeeRate := l |}) as -> by (unfold m3, m2, m1; by destruct parents).
    split_and!; simpl; [|by rewrite lookup_insert_eq|unfold fetchTxDesc; simpl; by rewrite Hnp, lookup_insert_eq|rewrite Hnp; naive_solver].
    assert (∀ i e, <[id := d]> (chainedTransactions m) !! i = Some e ↔ i = txid tx ∧ e = d ∨ chainedTransactions m !! i = Some e) as HK.
    { intros i e. rewrite lookup_insert_Some. split; [naive_solver|]. intros [[-> ->]|He]; [by left|]. right. split; [|done]. intros <-. congruence. }
    apply (grow_rep m L p tx d desc); try done; [by apply map_disjoint_insert_r_2, Hrep| |].
    + intros i e. rewrite HK. naive_solver.
    + fold parents. intros i e. rewrite HK. naive_solver.
Qed.

(** *** The limit on the number of transactions *)
Lemma rep_size m L X : pool_rep m L X → (size (pool m) + size (chainedTransactions m))%nat = size L.
Proof using Type.
  intros Hrep. rewrite <- !size_dom, <- size_union by (apply map_disjoint_dom, Hrep). f_equal. apply set_eq. intros id. rewrite elem_of_union, !elem_of_dom. split.
  - intros [[d Hd]|[d Hd]]; destruct (pr_desc _ _ _ Hrep id d) as (? & _ & ?); eauto.
  - intros [p Hp]. destruct (pr_where _ _ _ Hrep id p Hp) as (d & [?|?]); eauto.
Qed.

Lemma enforce_spec m L : pool_rep m L [] → ∃ m' L', enforceTransactionLimit h m = (m', Ret ()) ∧ pool_rep m' L' [] ∧
  if decide (Z.of_nat (size L) ≤ limit) then m' = m ∧ L' = L else ∃ p id, head (orderedTransactionsByFeeRate m) = Some p ∧ L !! id = Some p ∧ removed L L' p.
Proof using Type.
  intros Hrep. unfold enforceTransactionLimit. rewrite (bind_ret_l _ _ m m m) by done. rewrite <- Nat2Z.inj_add, (rep_size m L [] Hrep), Z.gtb_ltb. destruct (Z.ltb_spec limit (Z.of_nat (size L))) as [Hlt|Hle].
  2:{ exists m, L. rewrite decide_True by lia. done. }
  pose proof (ordered_length m L [] Hrep) as Hlen. destruct (orderedTransactionsByFeeRate m) as [|p l] eqn:El; [unfold limit in Hlt; simpl in Hlen; lia|].
  destruct (proj1 (ordered_live m L [] Hrep p)) as (id & Hid); [rewrite El; by left|]. destruct (pr_live _ _ _ Hrep id p Hid) as (tx & Hp & _).
  destruct (removeAll_spec (removeFuel m) m L [] id p tx Hrep Hid Hp) as (m' & L' & Hrun & Hrep' & Hrm); [by eapply removeFuel_enough|]. exists m', L'. split_and!; [exact Hrun|done|]. rewrite decide_False by lia. by exists p, id.
Qed.
End Main.

(** Only the transactions of the pool matter to it. *)
Lemma rep_heap `{Libs} rank h h' m L X : pool_rep rank h m L X → (∀ id p, L !! id = Some p → h' !! p = h !! p) → pool_rep rank h' m L X.
Proof.
  intros Hrep Hh. assert (∀ id p tx, L !! id = Some p → h' !! p = Some tx ↔ h !! p = Some tx) as Hh' by (intros id p tx Hl; by rewrite (Hh id p Hl)).
  assert (∀ q, q ∈ orderedTransactionsByFeeRate m → h' !! q = h !! q) as Ho by (intros q [id Hid]%(ordered_live rank h m L X Hrep); by eapply Hh).
  split; try apply Hrep.
  - intros id p Hl. destruct (pr_live _ _ _ _ _ Hrep id p Hl) as (tx & Hp & ?). exists tx. by rewrite (Hh id p Hl).
  - intros o p. rewrite (pr_spenders _ _ _ _ _ Hrep). split; intros (id & tx & Hl & Hp & Hin); exists id, tx; by rewrite (Hh' id p tx Hl) in *.
  - intros o e. rewrite (pr_unspent _ _ _ _ _ Hrep). split; intros (id & p & tx & Hl & Hp & Hin); exists id, p, tx; by rewrite (Hh' id p tx Hl) in *.
  - destruct (pr_ordered _ _ _ _ _ Hrep) as [Hr Hs]. split; [intros q Hq; rewrite (Ho q Hq); by apply Hr|]. revert Ho Hs. generalize (orderedTransactionsByFeeRate m) as l. clear.
    induction l as [|p l IH]; intros Ho Hs; [constructor|]. inversion_clear Hs as [|?? Hs' Hall]. constructor; [apply IH; [intros; apply Ho; by right|done]|]. apply Forall_forall. intros q Hq. rewrite Forall_forall in Hall.
    destruct (Hall q Hq) as (a & b & Ha & Hb & Hab). exists a, b. rewrite (Ho p), (Ho q) by (by (left + right)). done.
  - intros o d Ho'. destruct (chained_entry rank h m L X Hrep o d Ho') as (id & desc & tx & Hc & Hd & Hp & Hin & Hl & _). exists id, desc, tx. by rewrite (Hh id _ Hl).
  - intros id d desc tx Hc Hd Hp. destruct (pr_desc _ _ _ _ _ Hrep id d) as (desc' & Hd' & Hl); [by right|]. simplify_eq. rewrite (Hh id _ Hl) in Hp. by apply (pr_count _ _ _ _ _ Hrep id d desc tx).
Qed.

(** ** The orphan pool *)

(** The order of [range] is any order of the keys of the map. *)
Class RangeOk (range : ∀ A, gmap txID A → list (txID * A)) : Prop := range_perm A (m : gmap txID A) : range A m ≡ₚ map_to_list m.

Section Orphans.
Context `{HL : Libs}.
Variable rank : txID → nat.
Variable h : gmap pointer DomainTransaction.
Variable range : ∀ A, gmap txID A → list (txID * A).
Context {HR : RangeOk range}.
Implicit Types (op : orphanPool) (B : gset txID).

Lemma range_lookup {A} (m : gmap txID A) id a : (id, a) ∈ range A m ↔ m !! id = Some a.
Proof using HR. rewrite (range_perm A m). apply elem_of_map_to_list. Qed.

Definition redeems op (o : DomainOutpoint) (id : txID) : option pointer := orphansByPrev op !! o ≫= λ ids, ids !! id.

(** All orphans are indexed by all their inputs, but for those of [B], which are about to be removed. *)
Record orphan_rep op B : Prop := {
  or_tx id otx : orphans op !! id = Some otx → ∃ tx, h !! ot_tx otx = Some tx ∧ txid tx = id ∧ tx_wf rank tx;
  or_index o id p : redeems op o id = Some p ↔ id ∉ B ∧ ∃ otx tx, orphans op !! id = Some otx ∧ ot_tx otx = p ∧ h !! p = Some tx ∧ o ∈ spent tx;
  or_nonempty o ids : orphansByPrev op !! o = Some ids → ids ≠ ∅
}.

Lemma unindex_spec id os : ∀ op, (∀ o ids, orphansByPrev op !! o = Some ids → ids ≠ ∅) → ∃ I, forM os (λ o, modify (unindexOrphan id o)) op = (set_orphansByPrev I op, Ret () : outcome poolError unit) ∧
  (∀ o ids, I !! o = Some ids → ids ≠ ∅) ∧ ∀ o i, redeems (set_orphansByPrev I op) o i = if decide (o ∈ os ∧ i = id) then None else redeems op o i.
Proof using Type.
  clear HR range rank.
  induction os as [|o os IH]; intros op Hne; [exists (orphansByPrev op); split_and!; [by destruct op|done|]; intros o i; rewrite decide_False by (rewrite elem_of_nil; tauto); done|].
  assert (∃ I, unindexOrphan id o op = set_orphansByPrev I op ∧ (∀ o ids, I !! o = Some ids → ids ≠ ∅) ∧ ∀ o' i, redeems (set_orphansByPrev I op) o' i = if decide (o' = o ∧ i = id) then None else redeems op o' i) as (I1 & HI1 & Hne1 & HR1).
  { unfold unindexOrphan, redeems. destruct (orphansByPrev op !! o) as [ids|] eqn:E.
    2:{ exists (orphansByPrev op). split_and!; [by destruct op|done|]. intros o' i. simpl. destruct (decide _) as [[-> ->]|]; [by rewrite E|done]. }
    eexists. split; [done|]. case_bool_decide as He; (split; [intros o' ids'; rewrite ?lookup_delete_Some, ?lookup_insert_Some; naive_solver|]); intros o' i; simpl; rewrite ?lookup_delete, ?lookup_insert; destruct (decide (o = o')) as [->|Hn].
    - simpl. rewrite E. simpl. destruct (decide _) as [|Hn]; [done|]. assert (delete id ids !! i = None) as Hi by (rewrite He; apply lookup_empty). apply lookup_delete_None in Hi as [->|?]; [by destruct Hn|done].
    - rewrite decide_False by naive_solver. done.
    - simpl. rewrite E. simpl. rewrite lookup_delete. destruct (decide (id = i)), (decide _); naive_solver.
    - rewrite decide_False by naive_solver. done. }
  destruct (IH (set_orphansByPrev I1 op)) as (I & Hrun & HneI & HI); [done|]. exists I. split; [|split; [done|]].
  - cbn [forM]. etransitivity; [apply (bind_ret_l _ _ _ (unindexOrphan id o op) () eq_refl)|]. rewrite HI1. exact Hrun.
  - intros o' i. change (redeems (set_orphansByPrev I op) o' i) with (redeems (set_orphansByPrev I (set_orphansByPrev I1 op)) o' i). rewrite HI, HR1.
    destruct (decide (o' ∈ os ∧ i = id)), (decide (o' = o ∧ i = id)), (decide (o' ∈ o :: os ∧ i = id)); try done; set_solver.
Qed.

Definition pending op B : nat := size (filter (λ x, x.1 ∉ B) (orphans op)).
Lemma pending_lt op op' B id otx : orphans op' ⊆ orphans op → orphans op !! id = Some otx → id ∉ B → (pending op' ({[id]} ∪ B) < pending op B)%nat.
Proof using Type.
  clear HR range rank.
  intros Hs Hl Hn. unfold pending. apply map_subset_size, map_subset_alt. split.
  - apply map_subseteq_spec. intros i q [Hq Hi]%map_lookup_filter_Some. apply map_lookup_filter_Some. split; [by eapply lookup_weaken|]. simpl in *. set_solver.
  - exists id. split; [apply map_lookup_filter_None; right; intros ? _; simpl; set_solver|]. exists otx. apply map_lookup_filter_Some. done.
Qed.
Lemma pending_mono op op' B : orphans op' ⊆ orphans op → (pending op' B ≤ pending op B)%nat.
Proof using Type. intros Hs. unfold pending. apply map_subseteq_size, map_subseteq_spec. intros i q [Hq Hi]%map_lookup_filter_Some. apply map_lookup_filter_Some. split; [by eapply lookup_weaken|done]. Qed.
Lemma orphan_fuel op op' B : orphans op' ⊆ orphans op → (pending op' B < orphanFuel op)%nat.
Proof using Type. intros Hs. unfold pending, orphanFuel. pose proof (map_subseteq_size _ _ (map_filter_subseteq (λ x, x.1 ∉ B) (orphans op'))). pose proof (map_subseteq_size _ _ Hs). lia. Qed.

(** What removing orphans may change *)
Record smaller op op' B : Prop := {
  sm_rep : orphan_rep op' B;
  sm_sub : orphans op' ⊆ orphans op;
  sm_scan : nextExpireScan op' = nextExpireScan op
}.

(** A loop that removes orphans, each of them in the pool when the loop started *)
Lemma removeLoop_spec {A} (l : list A) (f : A → prog orphanPool poolError unit) op B (P : A → Prop) : orphan_rep op B → (∀ a, a ∈ l → P a) →
  (∀ a op1, P a → smaller op op1 B → ∃ op2, f a op1 = (op2, Ret ()) ∧ smaller op1 op2 B) → ∃ op', forM l f op = (op', Ret ()) ∧ smaller op op' B.
Proof using Type.
  intros Hrep Hl Hf. assert (∀ op1, smaller op op1 B → ∃ op2, forM l f op1 = (op2, Ret ()) ∧ smaller op op2 B) as Hgen; [|apply Hgen; by split].
  induction l as [|a l IH]; intros op1 Hs; [by exists op1|]. destruct (Hf a op1) as (op2 & Hrun & Hs2); [apply Hl; by left|done|].
  destruct (IH ltac:(intros; apply Hl; by right) op2) as (op3 & Hrun3 & Hs3); [destruct Hs, Hs2; split; [done|by etransitivity|congruence]|].
  exists op3. split; [|done]. cbn [forM]. by rewrite (bind_ret_l _ _ _ _ _ Hrun).
Qed.

Lemma removeOrphan_spec fuel : ∀ op B p tx redeemers, orphan_rep op B → h !! p = Some tx → txid tx ∉ B → (pending op B < fuel)%nat →
  ∃ op', removeOrphan h range fuel p redeemers op = (op', Ret ()) ∧ smaller op op' B ∧ orphans op' !! txid tx = None ∧ (redeemers = false → orphans op' = delete (txid tx) (orphans op)).
Proof using HR.
  induction fuel as [|fuel IH]; intros op B p tx redeemers Hrep Hp Hn Hfuel; [lia|]. set (id := txid tx) in *.
  cbn [removeOrphan]. rewrite (bind_ret_l _ _ op op tx), (bind_ret_l _ _ op op op) by (done || by apply load_Some). fold id.
  destruct (orphans op !! id) as [otx|] eqn:Eo; [|exists op; split; [done|]; split; [by split|]; split; [done|intros _; by rewrite delete_id]].
  destruct (or_tx _ _ Hrep id otx Eo) as (a & Ha & Hida & Hwf). rewrite (bind_ret_l _ _ op op a) by (by apply load_Some).
  destruct (unindex_spec id (spent a) op (or_nonempty _ _ Hrep)) as (I & HrunI & HneI & HI). rewrite (bind_ret_l _ _ _ _ _ HrunI). set (op1 := set_orphansByPrev I op) in *.
  assert (orphan_rep op1 ({[id]} ∪ B)) as Hrep1.
  { split; [apply Hrep| |done]. intros o i q. rewrite HI. destruct (decide (o ∈ spent a ∧ i = id)) as [[Ho ->]|Hd].
    - split; [done|]. intros [Hni _]. set_solver.
    - rewrite (or_index _ _ Hrep). split; intros [Hi (otx' & b & Hx & Hq & Hb & Ho)]; (split; [|by exists otx', b]); [|set_solver].
      intros [->%elem_of_singleton|?]%elem_of_union; [|done]. simplify_eq. by destruct Hd. }
  assert (∃ op2, (if redeemers then forM (outpoints tx) (λ prevOut, let* op := get in forM (range _ (default ∅ (orphansByPrev op !! prevOut))) (λ orphan, removeOrphan h range fuel orphan.2 true)) else ret ()) op1 = (op2, Ret ()) ∧
    smaller op1 op2 ({[id]} ∪ B) ∧ (redeemers = false → op2 = op1)) as (op2 & Hrun2 & Hs2 & Hop2).
  { destruct redeemers; [|exists op1; split; [done|]; split; [by split|done]].
    destruct (removeLoop_spec (outpoints tx) (λ prevOut, let* op := get in forM (range _ (default ∅ (orphansByPrev op !! prevOut))) (λ orphan, removeOrphan h range fuel orphan.2 true)) op1 ({[id]} ∪ B) (λ _, True)) as (op2 & Hrun & Hs); [done|done| |by exists op2].
    intros prevOut op3 _ Hs3. rewrite (bind_ret_l _ _ op3 op3 op3) by done.
    apply (removeLoop_spec _ _ op3 ({[id]} ∪ B) (λ x, ∃ b, h !! x.2 = Some b ∧ txid b = x.1 ∧ x.1 ∉ {[id]} ∪ B)); [apply Hs3| |].
    - intros [i q] Hin%range_lookup. simpl. destruct (proj1 (or_index _ _ (sm_rep _ _ _ Hs3) prevOut i q)) as [Hi (otx' & b & Hx & Hq & Hb & _)].
      { unfold redeems. by destruct (orphansByPrev op3 !! prevOut). } exists b. destruct (or_tx _ _ (sm_rep _ _ _ Hs3) i otx' Hx) as (b' & Hb' & Hidb & _). by simplify_eq.
    - intros [i q] op4 (b & Hb & Hidb & Hi) Hs4. simpl in *. assert (orphans op4 ⊆ orphans op) as Hsub by (etransitivity; [apply Hs4|apply Hs3]).
      destruct (IH op4 ({[id]} ∪ B) q b true (sm_rep _ _ _ Hs4) Hb) as (op5 & Hrun5 & Hs5 & _); [by rewrite Hidb|pose proof (pending_lt op op4 B id otx Hsub Eo Hn); lia|]. by exists op5. }
  exists (set_orphans (delete id (orphans op2)) op2). split; [by rewrite (bind_ret_l _ _ _ _ _ Hrun2)|]. split; [split; simpl|split; simpl; [by rewrite lookup_delete_eq|intros E; by rewrite (Hop2 E)]].
  - split; simpl.
    + intros i otx' [_ Hx]%lookup_delete_Some. by apply (or_tx _ _ (sm_rep _ _ _ Hs2)).
    + intros o i q. change (redeems (set_orphans (delete id (orphans op2)) op2) o i) with (redeems op2 o i). rewrite (or_index _ _ (sm_rep _ _ _ Hs2)).
      split; intros [Hi (otx' & b & Hx & Hq & Hb & Ho)].
      * split; [set_solver|]. exists otx', b. rewrite lookup_delete_ne by set_solver. done.
      * apply lookup_delete_Some in Hx as [Hne Hx]. split; [set_solver|]. by exists otx', b.
    + apply (or_nonempty _ _ (sm_rep _ _ _ Hs2)).
  - etransitivity; [apply delete_subseteq|apply Hs2].
  - apply Hs2.
Qed.

Lemma scan_rep t op B : orphan_rep op B → orphan_rep (set_nextExpireScan t op) B.
Proof using Type. by intros []. Qed.

Lemma limitNumOrphans_spec pol now op : orphan_rep op ∅ → 0 < MaxOrphanTxs pol → Z.of_nat (size (orphans op)) ≤ MaxOrphanTxs pol →
  ∃ op', limitNumOrphans h range pol now op = (op', Ret ()) ∧ orphan_rep op' ∅ ∧ orphans op' ⊆ orphans op ∧ Z.of_nat (size (orphans op')) + 1 ≤ MaxOrphanTxs pol.
Proof using HR.
  intros Hrep Hmax Hsize. unfold limitNumOrphans. rewrite (bind_ret_l _ _ op op op) by done.
  match goal with |- context [bind ?b _ op] => assert (∃ op1, b op = (op1, Ret ()) ∧ orphan_rep op1 ∅ ∧ orphans op1 ⊆ orphans op) as (op1 & Hrun & Hrep1 & Hsub) end.
  { destruct (nextExpireScan op <? now); [|by exists op].
    destruct (removeLoop_spec (range _ (orphans op)) (λ otx, if expiration otx.2 <? now then removeOrphan h range (orphanFuel op) (ot_tx otx.2) true else ret ()) op ∅ (λ x, ∃ b, h !! ot_tx x.2 = Some b)) as (op1 & Hrun & [Hr Hs _]); [done| | |].
    - intros [i otx] (b & Hb & _)%range_lookup%(or_tx _ _ Hrep). by exists b.
    - intros [i otx] op1 (b & Hb) [Hr1 Hs1 _]. simpl in *. destruct (expiration otx <? now); [|by exists op1; split; [|split]].
      destruct (removeOrphan_spec (orphanFuel op) op1 ∅ (ot_tx otx) b true Hr1 Hb) as (op2 & Hrun2 & Hs2 & _); [set_solver|by apply orphan_fuel|]. by exists op2.
    - exists (set_nextExpireScan (now + orphanExpireScanInterval) op1). split; [by rewrite (bind_ret_l _ _ _ _ _ Hrun)|]. split; [by apply scan_rep|done]. }
  rewrite (bind_ret_l _ _ _ _ _ Hrun), (bind_ret_l _ _ op1 op1 op1) by done. destruct (Z.leb_spec (Z.of_nat (size (orphans op1)) + 1) (MaxOrphanTxs pol)) as [Hle|Hgt]; [by exists op1|].
  pose proof (map_subseteq_size _ _ Hsub) as Hsz. destruct (range orphanTx (orphans op1)) as [|[i otx] l] eqn:El.
  { exfalso. pose proof (range_perm orphanTx (orphans op1)) as Hp. rewrite El in Hp. apply Permutation_nil, map_to_list_empty_iff in Hp. rewrite Hp, map_size_empty in Hgt. lia. }
  assert (orphans op1 !! i = Some otx) as Hi by (apply range_lookup; rewrite El; by left). destruct (or_tx _ _ Hrep1 i otx Hi) as (b & Hb & Hidb & _).
  destruct (removeOrphan_spec (orphanFuel op1) op1 ∅ (ot_tx otx) b false Hrep1 Hb) as (op2 & Hrun2 & [Hr2 Hs2 _] & _ & Hdel); [set_solver|by apply orphan_fuel|].
  exists op2. split; [exact Hrun2|]. split; [done|]. split; [by etransitivity|]. rewrite (Hdel eq_refl), Hidb. rewrite map_size_delete_Some by (by eexists). lia.
Qed.

Lemma index_spec id p os : ∀ op, ∃ I, forM os (λ o, modify (λ op, set_orphansByPrev (<[o := <[id := p]> (default ∅ (orphansByPrev op !! o))]> (orphansByPrev op)) op)) op = (set_orphansByPrev I op, Ret () : outcome poolError unit) ∧
  ((∀ o ids, orphansByPrev op !! o = Some ids → ids ≠ ∅) → ∀ o ids, I !! o = Some ids → ids ≠ ∅) ∧ ∀ o i, redeems (set_orphansByPrev I op) o i = if decide (o ∈ os ∧ i = id) then Some p else redeems op o i.
Proof using Type.
  clear HR range rank. induction os as [|o os IH]; intros op; [exists (orphansByPrev op); split_and!; [by destruct op|done|]; intros o i; rewrite decide_False by (rewrite elem_of_nil; tauto); done|].
  set (I1 := <[o := <[id := p]> (default ∅ (orphansByPrev op !! o))]> (orphansByPrev op)). destruct (IH (set_orphansByPrev I1 op)) as (I & Hrun & Hne & HI). exists I. split; [exact Hrun|]. split.
  - intros Hop. apply Hne. intros o' ids. simpl. unfold I1. rewrite lookup_insert_Some. intros [[_ <-]|[_ ?]]; [apply insert_non_empty|by eapply Hop].
  - intros o' i. change (redeems (set_orphansByPrev I op) o' i) with (redeems (set_orphansByPrev I (set_orphansByPrev I1 op)) o' i). rewrite HI.
    assert (redeems (set_orphansByPrev I1 op) o' i = if decide (o' = o ∧ i = id) then Some p else redeems op o' i) as ->.
    { unfold redeems, I1. simpl. rewrite lookup_insert. destruct (decide (o = o')) as [->|Hn]; [|by rewrite decide_False by naive_solver]. simpl. rewrite lookup_insert.
      destruct (decide (id = i)) as [->|Hn]; [by rewrite decide_True|]. rewrite decide_False by (intros [_ ->]; done). destruct (orphansByPrev op !! o'); [done|]. simpl. by rewrite lookup_empty. }
    destruct (decide (o' ∈ os ∧ i = id)), (decide (o' = o ∧ i = id)), (decide (o' ∈ o :: os ∧ i = id)); try done; set_solver.
Qed.

Lemma addOrphan_spec pol now later op p tx : orphan_rep op ∅ → 0 < MaxOrphanTxs pol → Z.of_nat (size (orphans op)) ≤ MaxOrphanTxs pol → h !! p = Some tx → tx_wf rank tx → orphans op !! txid tx = None →
  ∃ op', addOrphan h range pol now later p op = (op', Ret ()) ∧ orphan_rep op' ∅ ∧ Z.of_nat (size (orphans op')) ≤ MaxOrphanTxs pol ∧
    orphans op' !! txid tx = Some {| ot_tx := p; expiration := later + orphanTTL |} ∧ delete (txid tx) (orphans op') ⊆ orphans op.
Proof using HR.
  intros Hrep Hmax Hsize Hp Hwf Hnew. unfold addOrphan. rewrite (proj2 (Z.leb_gt _ _)) by lia.
  destruct (limitNumOrphans_spec pol now op Hrep Hmax Hsize) as (op1 & Hrun & Hrep1 & Hsub & Hsz). rewrite (bind_ret_l _ _ _ _ _ Hrun), (bind_ret_l _ _ op1 op1 tx) by (by apply load_Some).
  assert (orphans op1 !! txid tx = None) as Hnew1 by (by eapply lookup_weaken_None).
  set (otx := {| ot_tx := p; expiration := later + orphanTTL |}). set (op2 := set_orphans (<[txid tx := otx]> (orphans op1)) op1). destruct (index_spec (txid tx) p (spent tx) op2) as (I & HrunI & HneI & HI).
  exists (set_orphansByPrev I op2). split; [exact HrunI|]. split; [|simpl; split_and!; [rewrite map_size_insert_None by done; lia|by rewrite lookup_insert_eq|rewrite delete_insert_id by done; done]].
  split; simpl.
  - intros i x [[<- <-]|[Hne Hx]]%lookup_insert_Some; [by exists tx|by apply (or_tx _ _ Hrep1)].
  - intros o i q. rewrite HI. change (redeems op2 o i) with (redeems op1 o i). destruct (decide (o ∈ spent tx ∧ i = txid tx)) as [[Ho ->]|Hd].
    + split; [intros [= <-]; split; [set_solver|]; exists otx, tx; by rewrite lookup_insert_eq|]. intros [_ (x & a & Hx & Hq & Ha & _)]. rewrite lookup_insert_eq in Hx. by simplify_eq.
    + rewrite (or_index _ _ Hrep1). split; intros [Hi (x & a & Hx & Hq & Ha & Ho)]; (split; [done|]); exists x, a.
      * rewrite lookup_insert_ne by congruence. done.
      * apply lookup_insert_Some in Hx as [[<- <-]|[??]]; [|done]. simpl in Hq. simplify_eq. by destruct Hd.
  - apply HneI. apply (or_nonempty _ _ Hrep1).
Qed.

Lemma removeOrphanDoubleSpends_spec op p tx : orphan_rep op ∅ → h !! p = Some tx →
  ∃ op', removeOrphanDoubleSpends h range p op = (op', Ret ()) ∧ smaller op op' ∅.
Proof using HR.
  intros Hrep Hp. unfold removeOrphanDoubleSpends. rewrite (bind_ret_l _ _ op op tx) by (by apply load_Some). apply (removeLoop_spec _ _ op ∅ (λ _, True)); [done|done|]. intros o op1 _ Hs1.
  rewrite (bind_ret_l _ _ op1 op1 op1) by done. apply (removeLoop_spec _ _ op1 ∅ (λ x, ∃ b, h !! x.2 = Some b)); [apply Hs1| |].
  - intros [i q] Hin%range_lookup. simpl. destruct (proj1 (or_index _ _ (sm_rep _ _ _ Hs1) o i q)) as [_ (x & b & _ & <- & Hb & _)]; [|by exists b]. unfold redeems. by destruct (orphansByPrev op1 !! o).
  - intros [i q] op2 (b & Hb) Hs2. destruct (removeOrphan_spec (orphanFuel op1) op2 ∅ q b true (sm_rep _ _ _ Hs2) Hb) as (op3 & Hrun3 & Hs3 & _); [set_solver|apply orphan_fuel, Hs2|]. by exists op3.
Qed.
End Orphans.

Lemma orphan_heap `{Libs} rank h h' op B : orphan_rep rank h op B →
  (∀ p tx, h !! p = Some tx → ∃ tx', h' !! p = Some tx' ∧ txid tx' = txid tx ∧ spent tx' = spent tx ∧ tx_Outputs tx' = tx_Outputs tx) → orphan_rep rank h' op B.
Proof.
  intros Hrep Hh. split; [| |apply Hrep].
  - intros id otx Ho. destruct (or_tx _ _ _ _ Hrep id otx Ho) as (tx & Hp & Hid & [Hout Hr]). destruct (Hh _ _ Hp) as (tx' & Hp' & Eid & Es & Eo). exists tx'. split_and!; [done|congruence|]. split; [by rewrite Eo|by rewrite Es, Eid].
  - intros o id p. rewrite (or_index _ _ _ _ Hrep). split; intros [Hi (otx & tx & Ho & Hp & Htx & Hin)]; (split; [done|]).
    + destruct (Hh _ _ Htx) as (tx' & Hp' & _ & Es & _). exists otx, tx'. by rewrite Es.
    + destruct (or_tx _ _ _ _ Hrep id otx Ho) as (a & Ha & _). subst p. destruct (Hh _ _ Ha) as (a' & Ha' & _ & Es & _). simplify_eq. exists otx, a. by rewrite <- Es.
Qed.
