(* ===== verification/MempoolProps.v ===== *)
(** * Properties of the mempool

    What the pool relies on in the consensus, the invariant that all operations of the pool keep, and the claims with their instances. *)
From stdpp Require Import sorting.
From Stdlib Require Import Floats.SpecFloat.
From S2P Require Import Prelude Externalapi UtxoDiff ScriptNum ScriptStack OpcodeTable Script Hashing SigCache Opcode Engine OpcodeSafety.
From S2P Require Import Interval ReachabilityData Reachability DagTopology Block Ghostdag GhostdagOrder Heap Window DifficultyManager Traversal TransactionValidator PastUtxo Stores Bech32 StandardScripts Mempool MempoolSpec.
Import Interval TransactionHashing Script TransactionValidator PastUtxo Standard Mempool.
Local Open Scope Z_scope.
Local Open Scope prog_scope.

Abbreviation pointer := nat (only parsing).
Abbreviation txID := (list Z) (only parsing).

(** ** Descriptors stay

    The model never frees a descriptor, and never makes it lead to another transaction. *)
Definition desc_le (m m' : mainPool) : Prop := ∀ d desc, descriptors m !! d = Some desc → ∃ desc', descriptors m' !! d = Some desc' ∧ td_tx desc' = td_tx desc.
#[export] Instance desc_le_preorder : PreOrder desc_le.
Proof. split; [intros m d desc Hd; by exists desc|]. intros m1 m2 m3 H1 H2 d desc Hd. destruct (H1 d desc Hd) as (x & Hx & E). destruct (H2 d x Hx) as (y & Hy & E'). exists y. split; congruence. Qed.

Definition keeps {A} (f : prog mainPool poolError A) : Prop := ∀ m, desc_le m (f m).1.
Create HintDb keeps.

Lemma keeps_read {A} (f : prog mainPool poolError A) : (∀ m, (f m).1 = m) → keeps f.
Proof. intros Hf m. rewrite Hf. done. Qed.
Lemma keeps_modify (f : mainPool → mainPool) : (∀ m, descriptors (f m) = descriptors m) → keeps (modify f).
Proof. intros Hf m d desc Hd. simpl. rewrite Hf. by exists desc. Qed.
Lemma keeps_bind {A B} (f : prog mainPool poolError A) (k : A → prog mainPool poolError B) : keeps f → (∀ a, keeps (k a)) → keeps (bind f k).
Proof. intros Hf Hk m. unfold bind. specialize (Hf m). destruct (f m) as [m' [a|e|c]]; simpl in *; [|done|done]. etransitivity; [exact Hf|apply Hk]. Qed.
Lemma keeps_forM {A} (l : list A) (f : A → prog mainPool poolError unit) : (∀ a, keeps (f a)) → keeps (forM l f).
Proof. intros Hf. induction l as [|a l IH]; [by apply keeps_read|]. simpl. by apply keeps_bind. Qed.
Lemma keeps_if {A} (b : bool) (f g : prog mainPool poolError A) : keeps f → keeps g → keeps (if b then f else g).
Proof. by destruct b. Qed.
Lemma keeps_load h p : keeps (load h p).
Proof. apply keeps_read. intros m. unfold load. by destruct (h !! p). Qed.
#[export] Hint Resolve keeps_bind keeps_forM keeps_if keeps_load : keeps.
#[export] Hint Extern 1 (keeps (modify _)) => by apply keeps_modify : keeps.
#[export] Hint Extern 1 (keeps _) => by apply keeps_read : keeps.

Section Keeps.
Context `{HL : Libs}.
Variable h : gmap pointer DomainTransaction.

Lemma keeps_addSpent p os : keeps (addSpent p os).
Proof. induction os as [|o os IH]; simpl; auto with keeps. Qed.
Lemma keeps_addPoolOutputs id outputs : ∀ i, keeps (addPoolOutputs id i outputs).
Proof. induction outputs as [|o os IH]; intros i; simpl; auto with keeps. Qed.
Lemma keeps_removeSpent os : keeps (removeSpent os).
Proof. induction os as [|o os IH]; simpl; auto with keeps. Qed.
Lemma keeps_removeOutputs os : keeps (removeOutputs os).
Proof. induction os as [|o os IH]; simpl; auto with keeps. Qed.
Hint Resolve keeps_addSpent keeps_addPoolOutputs keeps_removeSpent keeps_removeOutputs : keeps.
Lemma keeps_find p : keeps (findTxIndexInOrderedTransactionsByFeeRate h p).
Proof. unfold findTxIndexInOrderedTransactionsByFeeRate. auto with keeps. Qed.
Hint Resolve keeps_find : keeps.
Lemma keeps_clean p : keeps (cleanTransactionFromSets h p).
Proof. unfold cleanTransactionFromSets, removeTx, removeTransactionFromOrderedTransactionsByFeeRate. auto 20 with keeps. Qed.
Hint Resolve keeps_clean : keeps.
Lemma keeps_removeAll fuel : ∀ p, keeps (removeTransactionAndItsChainedTransactions h fuel p).
Proof.
  induction fuel as [|fuel IH]; intros p; simpl; [auto with keeps|]. apply keeps_bind; [auto with keeps|]. intros tx. apply keeps_bind; [|intros _; unfold removeChainTransaction; auto 20 with keeps].
  apply keeps_forM. intros o. apply keeps_bind; [auto with keeps|]. intros m. destruct (poolTransactionBySpendingOutpoint m o); auto with keeps.
Qed.
Hint Resolve keeps_removeAll : keeps.
Lemma keeps_removeDoubleSpends p : keeps (removeDoubleSpends h p).
Proof.
  unfold removeDoubleSpends. apply keeps_bind; [auto with keeps|]. intros tx. apply keeps_forM. intros o. apply keeps_bind; [auto with keeps|]. intros m. destruct (poolTransactionBySpendingOutpoint m o); auto with keeps.
Qed.
Lemma keeps_release o : keeps (release h o).
Proof.
  intros m. unfold release. rewrite (bind_ret_l _ _ m m m) by done. destruct (chainedTransactionByPreviousOutpoint m !! o) as [d|]; [|done].
  destruct (descriptors m !! d) as [desc|] eqn:Ed; [|unfold loadDesc, bind, gets; by rewrite Ed]. rewrite (bind_ret_l _ _ m m desc) by (unfold loadDesc, bind, gets; by rewrite Ed).
  set (m1 := set_descriptors (<[d := {| td_tx := td_tx desc; depCount := depCount desc - 1 |}]> (descriptors m)) m).
  assert (desc_le m m1) as H1. { intros d' desc' Hd'. unfold m1. simpl. destruct (decide (d' = d)) as [->|Hne]; [eexists; rewrite lookup_insert_eq; split; [done|]; by simplify_eq|]. exists desc'. by rewrite lookup_insert_ne. }
  match goal with |- context [bind (modify ?f) ?k m] => change (bind (modify f) k m) with (k () m1) end. etransitivity; [exact H1|].
  match goal with |- desc_le m1 (?f m1).1 => enough (keeps f) as Hk by apply Hk end. auto 20 with keeps.
Qed.
Lemma keeps_removeFromPool txs : keeps (removeTransactionsFromPool h txs).
Proof.
  unfold removeTransactionsFromPool, updateBlockTransactionChainedTransactions. apply keeps_bind; [auto with keeps|]. intros l. apply keeps_forM. intros p. apply keeps_bind; [auto with keeps|]. intros tx. apply keeps_bind; [auto with keeps|].
  intros m. destruct (fetchTxDesc m (txid tx)) as [d|]; [|auto with keeps]. apply keeps_bind.
  { apply keeps_read. intros m'. unfold loadDesc, bind, gets. by destruct (descriptors m' !! d). }
  intros desc. apply keeps_bind; [auto with keeps|]. intros _. apply keeps_bind; [auto with keeps|]. intros a. apply (keeps_forM _ (release h)), keeps_release.
Qed.
Lemma keeps_enforce : keeps (enforceTransactionLimit h).
Proof. unfold enforceTransactionLimit. auto with keeps. Qed.
Lemma keeps_add p parents : keeps (addTransaction h p parents).
Proof.
  unfold addTransaction, addTx, addTransactionToOrderedTransactionsByFeeRate. apply keeps_bind; [auto with keeps|]. intros tx m. unfold bind at 1, get. set (d := fresh (dom (descriptors m))).
  assert (descriptors m !! d = None) as Hd by (apply not_elem_of_dom, is_fresh). set (m1 := set_descriptors (<[d := {| td_tx := p; depCount := zlen parents |}]> (descriptors m)) m).
  assert (desc_le m m1) as H1. { intros d' desc Hd'. exists desc. unfold m1. simpl. rewrite lookup_insert_ne by congruence. done. }
  match goal with |- context [bind (modify ?f) ?k m] => change (bind (modify f) k m) with (k () m1) end. etransitivity; [exact H1|].
  match goal with |- desc_le m1 (?f m1).1 => enough (keeps f) as Hk by apply Hk end. destruct parents; auto 20 with keeps.
Qed.
End Keeps.

(** ** The consensus *)
Section Pool.
Context `{HL : Libs}.
Variable rank : txID → nat.

(** Validation fills in entries, fee and mass; what the pool goes by stays. *)
Definition same_shape (tx tx' : DomainTransaction) : Prop := txid tx' = txid tx ∧ spent tx' = spent tx ∧ tx_Outputs tx' = tx_Outputs tx.

(** The scripts of the outputs and of the entries are bytes. *)
Record scripts_typed (tx : DomainTransaction) : Prop := {
  st_outputs out : out ∈ tx_Outputs tx → are_bytes (spk_Script (out_ScriptPublicKey out));
  st_entries i e : i ∈ tx_Inputs tx → in_UTXOEntry i = Some e → are_bytes (spk_Script (ue_scriptPublicKey e))
}.

(** What the pool relies on, for the transactions [D] that are given to it: validation keeps them what they are, does not panic, accepts only transactions with all their entries, with
    distinct inputs and with a mass, and names a missing outpoint when one is missing.  Entries of the outputs of such transactions may be filled in before. *)
Class ConsensusOk (D : DomainTransaction → Prop) (consensus : DomainTransaction → DomainTransaction * outcome txError unit) : Prop := {
  cok_wf tx : D tx → tx_wf rank tx;
  cok_typed tx : D tx → scripts_typed tx;
  cok_shape tx : D tx → same_shape tx (consensus tx).1 ∧ D (consensus tx).1;
  cok_crash tx c : D tx → (consensus tx).2 ≠ Crash c;
  cok_inputs tx : D tx → (consensus tx).2 = Ret () → NoDup (spent tx) ∧ ∀ i, i ∈ tx_Inputs (consensus tx).1 → is_Some (in_UTXOEntry i);
  cok_rated tx : D tx → (consensus tx).2 = Ret () → 0 ≤ tx_Fee (consensus tx).1 < 2 ^ 64 ∧ 0 < tx_Mass (consensus tx).1 < 2 ^ 64;
  cok_missing tx missing : D tx → (consensus tx).2 = Fail (TxRule (ErrMissingTxOut missing)) → missing ≠ [];
  cok_populate tx (f : DomainOutpoint → option utxoEntry) : D tx → (∀ o e, f o = Some e → ∃ tx', D tx' ∧ (o, e) ∈ outs tx') →
    let tx' := set_Inputs (map (λ txIn, match f (in_PreviousOutpoint txIn) with Some utxoEntry => set_UTXOEntry utxoEntry txIn | None => txIn end) (tx_Inputs tx)) tx in
    D tx' ∧ txid tx' = txid tx
}.

(** ** The policy *)
Definition policyOutcome (o : outcome poolError unit) : Prop := o = Ret () ∨ ∃ c, o = Fail (TxRuleError c).

Lemma asNonstandard_policy o : policyOutcome o → policyOutcome (asNonstandard o).
Proof using Type. intros [->|[c ->]]; [by left|by right; exists c]. Qed.
Lemma scriptClass_typed script : are_bytes script → ∃ class, scriptClass script = Ret class.
Proof using Type. intros Hb. unfold scriptClass, GetScriptClass. destruct (parseScriptE_spec script Hb) as [(pops & -> & _)| ->]; eauto. Qed.

Lemma checkOutputsStandard_policy pol outputs : (∀ out, out ∈ outputs → are_bytes (spk_Script (out_ScriptPublicKey out))) → policyOutcome (checkOutputsStandard pol outputs).
Proof using Type.
  unfold policyOutcome. induction outputs as [|out outputs IH]; intros Hb; [by left|]. cbn [checkOutputsStandard]. destruct (_ >? _); [eauto|].
  destruct (scriptClass_typed (spk_Script (out_ScriptPublicKey out))) as [class ->]; [apply Hb; by left|]. cbn [obind]. case_bool_decide; [eauto|]. destruct (isDust _ _); [eauto|]. apply IH. intros. apply Hb. by right.
Qed.
Lemma checkTransactionStandard_policy pol tx : scripts_typed tx → policyOutcome (checkTransactionStandard tx pol).
Proof using Type.
  intros Ht. unfold checkTransactionStandard, policyOutcome. destruct (_ >? _); [eauto|]. destruct (_ >? _); [eauto|]. destruct (existsb _ _); [eauto|]. apply checkOutputsStandard_policy, Ht.
Qed.
Lemma checkInputsStandard_policy tx : scripts_typed tx → (∀ i, i ∈ tx_Inputs tx → is_Some (in_UTXOEntry i)) → policyOutcome (checkInputsStandard tx).
Proof using Type.
  intros [_ Ht] Hs. unfold checkInputsStandard, policyOutcome. revert Ht Hs. generalize (tx_Inputs tx) as inputs. induction inputs as [|i inputs IH]; intros Ht Hs; [by left|]. cbn [checkInputsStandardLoop].
  destruct (Hs i) as [e He]; [by left|]. rewrite He. destruct (scriptClass_typed (spk_Script (ue_scriptPublicKey e))) as [class ->]; [apply (Ht i e); [by left|done]|]. cbn [obind].
  assert (checkInputsStandardLoop inputs = Ret () ∨ ∃ c, checkInputsStandardLoop inputs = Fail (TxRuleError c)) as Hrest by (apply IH; intros; [eapply Ht|eapply Hs]; try done; by right).
  destruct class; try done; [eauto|]. destruct (_ >? _); eauto.
Qed.
Lemma minFee_pos size fee : 0 < fee → 0 < calcMinRequiredTxRelayFee size fee < 2 ^ 63.
Proof using Type.
  intros Hf. unfold calcMinRequiredTxRelayFee, MaxSompi, SompiPerKaspa. set (q := Z.quot _ _). rewrite (proj2 (Z.ltb_lt 0 fee) Hf), andb_true_r.
  destruct (Z.eqb_spec q 0); destruct (Z.ltb_spec fee 0), (Z.ltb_spec q 0); try lia; cbn [orb]; destruct (Z.ltb_spec (21000000 * 100000000) fee), (Z.ltb_spec (21000000 * 100000000) q); lia.
Qed.

(** ** The invariant *)
Context (D : DomainTransaction → Prop) (consensus : DomainTransaction → DomainTransaction * outcome txError unit) {HC : ConsensusOk D consensus}.
Implicit Types mp : mempool.

Record pool_inv mp (L : gmap txID pointer) : Prop := {
  pi_main : pool_rep rank (mp_heap mp) (mp_main mp) L [];
  pi_orphans : orphan_rep rank (mp_heap mp) (mp_orphans mp) ∅;
  pi_heap p tx : mp_heap mp !! p = Some tx → D tx;
  pi_limit : Z.of_nat (size L) ≤ limit;
  pi_orphanLimit : Z.of_nat (size (orphans (mp_orphans mp))) ≤ MaxOrphanTxs (mp_policy mp);
  pi_policy : 0 < MinRelayTxFee (mp_policy mp) ∧ 0 < MaxOrphanTxs (mp_policy mp)
}.

(** What every operation keeps: the parameters, the transactions behind the pointers, and the descriptors *)
Record frame mp mp' : Prop := {
  fr_policy : mp_policy mp' = mp_policy mp;
  fr_mass : MaxMassAcceptedByBlock mp' = MaxMassAcceptedByBlock mp;
  fr_heap p tx : mp_heap mp !! p = Some tx → ∃ tx', mp_heap mp' !! p = Some tx' ∧ same_shape tx tx';
  fr_desc : desc_le (mp_main mp) (mp_main mp')
}.
Lemma frame_refl mp : frame mp mp.
Proof using Type. split; [done|done|intros p tx Hp; by exists tx|done]. Qed.
Lemma frame_trans mp1 mp2 mp3 : frame mp1 mp2 → frame mp2 mp3 → frame mp1 mp3.
Proof using Type.
  intros [P1 M1 H1 D1] [P2 M2 H2 D2]. split; [congruence|congruence| |by etransitivity]. intros p tx Hp. destruct (H1 p tx Hp) as (tx' & Hp' & E1 & E2 & E3). destruct (H2 p tx' Hp') as (tx2 & Hp2 & F1 & F2 & F3).
  exists tx2. split; [done|]. split_and!; congruence.
Qed.

(** An operation on one of the pools *)
Lemma onMain_run {A} (f : gmap pointer DomainTransaction → prog mainPool poolError A) mp m' a : f (mp_heap mp) (mp_main mp) = (m', Ret a) → onMain f mp = (set_main m' mp, Ret a).
Proof using Type. intros Hf. unfold onMain. by rewrite Hf. Qed.
Lemma onOrphans_run {A} (f : gmap pointer DomainTransaction → prog orphanPool poolError A) mp op' a : f (mp_heap mp) (mp_orphans mp) = (op', Ret a) → onOrphans f mp = (set_orphanPool op' mp, Ret a).
Proof using Type. intros Hf. unfold onOrphans. by rewrite Hf. Qed.
Lemma loadTx_run mp p tx : mp_heap mp !! p = Some tx → loadTx p mp = (mp, Ret tx).
Proof using Type. intros Hp. unfold loadTx. by apply load_Some. Qed.

Lemma orphans_inv mp L op' : pool_inv mp L → smaller rank (mp_heap mp) (mp_orphans mp) op' ∅ → pool_inv (set_orphanPool op' mp) L ∧ frame mp (set_orphanPool op' mp).
Proof using Type.
  intros [? ? ? ? ? ?] [Hr Hs _]. split; [split; simpl; try done; pose proof (map_subseteq_size _ _ Hs); lia|]. split; [done|done|intros p tx Hp; by exists tx|done].
Qed.
Lemma main_inv mp L L' m' : pool_inv mp L → pool_rep rank (mp_heap mp) m' L' [] → L' ⊆ L → desc_le (mp_main mp) m' → pool_inv (set_main m' mp) L' ∧ frame mp (set_main m' mp).
Proof using Type.
  intros [? ? ? ? ? ?] Hr Hs Hd. split; [split; simpl; try done; pose proof (map_subseteq_size _ _ Hs); lia|]. split; [done|done|intros p tx Hp; by exists tx|done].
Qed.

(** ** Accepting one transaction *)
Definition populated mp tx : DomainTransaction := (populateUTXOEntries (mp_main mp) tx).1.

(** A transaction that the pool takes *)
Record insertable mp (tx : DomainTransaction) (rejectDupOrphans : bool) : Prop := {
  in_new : isTransactionInPool (mp_main mp) (txid tx) = false;
  in_noOrphan : rejectDupOrphans = true → isOrphanInPool (mp_orphans mp) (txid tx) = false;
  in_standard : AcceptNonStd (mp_policy mp) = false → checkTransactionStandard tx (mp_policy mp) = Ret ();
  in_free o : o ∈ spent tx → transactionByPreviousOutpoint (mp_main mp) !! o = None;
  in_valid : (consensus (populated mp tx)).2 = Ret ();
  in_mass : tx_Mass (consensus (populated mp tx)).1 ≤ MaxMassAcceptedByBlock mp;
  in_inputs : AcceptNonStd (mp_policy mp) = false → checkInputsStandard (consensus (populated mp tx)).1 = Ret ();
  in_fee : calcMinRequiredTxRelayFee (GoInt.int64 (TransactionEstimatedSerializedSize (consensus (populated mp tx)).1)) (MinRelayTxFee (mp_policy mp)) ≤ tx_Fee (consensus (populated mp tx)).1
}.

(** The transactions of the pool after one was taken: all, the new one ready to be mined unless one of its inputs was made in the pool; or there are too many, and a transaction with the lowest fee rate leaves
    with what depends on it. *)
Definition taken mp mp' (L L' : gmap txID pointer) (tx : DomainTransaction) (p : pointer) : Prop :=
  if decide (Z.of_nat (size L) < limit)
  then L' = <[txid tx := p]> L ∧ (is_Some (pool (mp_main mp') !! txid tx) ↔ ∀ o, o ∈ spent tx → poolUnspentOutputs (mp_main mp) !! o = None)
  else ∃ q a, mp_heap mp' !! q = Some a ∧ (∀ i r, L' !! i = Some r ↔ <[txid tx := p]> L !! i = Some r ∧ ¬ depends (mp_heap mp') (<[txid tx := p]> L) q r) ∧ ∀ i r b, <[txid tx := p]> L !! i = Some r → mp_heap mp' !! r = Some b → sorts a b.

Lemma inPool_live mp L id : pool_inv mp L → isTransactionInPool (mp_main mp) id = false ↔ L !! id = None.
Proof using Type.
  intros Hinv. unfold isTransactionInPool, isInDependPool. rewrite orb_false_iff, !bool_decide_eq_false, <- !eq_None_not_Some. split.
  - intros [Hp Hc]. destruct (L !! id) as [p|] eqn:E; [|done]. destruct (pr_where _ _ _ _ _ (pi_main _ _ Hinv) id p E) as (d & [?|?]); congruence.
  - intros Hn. split; [destruct (pool _ !! id) as [d|] eqn:E|destruct (chainedTransactions _ !! id) as [d|] eqn:E]; try done; destruct (pr_desc _ _ _ _ _ (pi_main _ _ Hinv) id d) as (? & _ & ?); auto; congruence.
Qed.

Lemma populated_shape mp L tx : pool_inv mp L → D tx → D (populated mp tx) ∧ same_shape tx (populated mp tx).
Proof using HC HL.
  intros Hinv Htx. unfold populated, populateUTXOEntries. simpl. destruct (cok_populate tx (λ o, poolUnspentOutputs (mp_main mp) !! o) Htx) as [HD Hid].
  { intros o e (id & p & a & Hl & Ha & Hin)%(pr_unspent _ _ _ _ _ (pi_main _ _ Hinv)). exists a. split; [|done]. by apply (pi_heap _ _ Hinv p). }
  split; [done|]. split; [done|]. split; [|done]. unfold spent. simpl. rewrite map_map. apply map_ext. intros i. by destruct (poolUnspentOutputs _ !! _).
Qed.

Lemma store_inv mp L p tx tx' : pool_inv mp L → mp_heap mp !! p = Some tx → L !! txid tx = None → D tx' → same_shape tx tx' →
  let mp' := set_heap (<[p := tx']> (mp_heap mp)) mp in pool_inv mp' L ∧ frame mp mp'.
Proof using HC HL.
  intros Hinv Hp Hn HD Hs mp'. assert (∀ q a, mp_heap mp !! q = Some a → ∃ a', mp_heap mp' !! q = Some a' ∧ same_shape a a') as Hheap.
  { intros q a Ha. unfold mp'. simpl. destruct (decide (q = p)) as [->|Hne]; [exists tx'; rewrite lookup_insert_eq; split; [done|congruence]|]. exists a. by rewrite lookup_insert_ne. }
  split; [|by split]. destruct Hinv as [Hm Ho Hd ? ? ?]. split; simpl; try done.
  - eapply rep_heap; [exact Hm|]. intros id q Hq. rewrite lookup_insert_ne; [done|]. intros <-. destruct (pr_live _ _ _ _ _ Hm id p Hq) as (a & Ha & Hid & _). simplify_eq.
  - eapply orphan_heap; [exact Ho|]. intros q a Ha. destruct (Hheap q a Ha) as (a' & Ha' & E1 & E2 & E3). by exists a'.
  - intros q a [[<- <-]|[_ Ha]]%lookup_insert_Some; [done|by eapply Hd].
Qed.

Lemma exists_spent (m : mainPool) os : existsb (λ o, bool_decide (is_Some (transactionByPreviousOutpoint m !! o))) os = false ↔ ∀ o, o ∈ os → transactionByPreviousOutpoint m !! o = None.
Proof using Type.
  induction os as [|o os IH]; simpl; [split; [by intros _ ? ?%elem_of_nil|done]|]. rewrite orb_false_iff, bool_decide_eq_false, <- eq_None_not_Some, IH. split.
  - intros [H1 H2] o' [->|?]%elem_of_cons; auto.
  - intros Hall. split; [apply Hall; by left|]. intros. apply Hall. by right.
Qed.
Lemma checkExists_new mp L tx : pool_inv mp L → L !! txid tx = None → (∀ o, o ∈ spent tx → transactionByPreviousOutpoint (mp_main mp) !! o = None) → checkExists (mp_main mp) tx = false.
Proof using Type.
  intros Hinv Hn Hfree. unfold checkExists. rewrite (proj2 (exists_spent _ _) Hfree). apply not_true_iff_false. rewrite existsb_exists. intros (o & Ho & Hs). apply bool_decide_eq_true in Hs.
  apply list_elem_of_In, outpoint_id in Ho. destruct (unspent_creator _ _ _ _ _ (pi_main _ _ Hinv) o Hs) as [q Hq]. rewrite Ho in Hq. congruence.
Qed.

(** The end of [mempool_maybeAcceptTransaction] *)
Lemma insert_run mp L p tx : pool_inv mp L → mp_heap mp !! p = Some tx → pooled rank tx → L !! txid tx = None → (∀ o, o ∈ spent tx → transactionByPreviousOutpoint (mp_main mp) !! o = None) →
  ∃ mp' L' d, (let* txDesc := onMain (λ h, addTransaction h p (filter (λ o, is_Some (poolUnspentOutputs (mp_main mp) !! o)) (spent tx))) in onMain enforceTransactionLimit ;;* ret ([] : list DomainOutpoint, Some txDesc)) mp = (mp', Ret ([], Some d)) ∧
    pool_inv mp' L' ∧ frame mp mp' ∧ mp_orphans mp' = mp_orphans mp ∧ (td_tx <$> descriptors (mp_main mp') !! d) = Some p ∧ taken mp mp' L L' tx p.
Proof using HC HL.
  intros Hinv Hp Hpool Hn Hfree. destruct (add_spec rank (mp_heap mp) (mp_main mp) L p tx (pi_main _ _ Hinv) Hp Hpool Hn Hfree) as (m1 & d & Hrun1 & Hrep1 & Hd & Hfetch & Hmine).
  destruct (enforce_spec rank (mp_heap mp) m1 _ Hrep1) as (m2 & L2 & Hrun2 & Hrep2 & Hlim). pose proof (keeps_enforce (mp_heap mp) m1) as Hk2. rewrite Hrun2 in Hk2. simpl in Hk2.
  assert (desc_le (mp_main mp) m1) as Hk1. { match type of Hrun1 with addTransaction ?h ?p ?l ?m = _ => pose proof (keeps_add h p l m) as Hk end. by rewrite Hrun1 in Hk. }
  assert (Z.of_nat (size (<[txid tx := p]> L)) = Z.of_nat (size L) + 1) as Esz by (rewrite map_size_insert_None by done; lia).
  exists (set_main m2 mp), L2, d. split; [by rewrite (bind_ret_l _ _ mp (set_main m1 mp) d), (bind_ret_l _ _ _ _ _ (onMain_run enforceTransactionLimit (set_main m1 mp) m2 () Hrun2)) by (by apply onMain_run)|].
  split; [|split; [split; simpl; [done|done|intros q a Ha; by exists a|by etransitivity]|split; [done|split]]].
  - destruct Hinv. split; simpl; try done. destruct (decide _) as [Hle|Hgt]; [destruct Hlim as [_ ->]; done|]. destruct Hlim as (q & id & _ & Hq & Hrm).
    assert (size L2 < size (<[txid tx := p]> L))%nat; [|lia]. apply map_subset_size, map_subset_alt. split; [apply Hrm|]. exists id. split; [|eauto].
    destruct (L2 !! id) as [q'|] eqn:E; [|done]. pose proof (lookup_weaken _ _ _ _ E (rm_sub _ _ _ _ Hrm)). simplify_eq. by apply (rm_self _ _ _ _ Hrm) in E.
  - simpl. destruct (descriptors m1 !! d) as [desc|] eqn:Ed; [|done]. destruct (Hk2 d desc Ed) as (desc' & -> & E). simpl in *. congruence.
  - unfold taken. simpl. rewrite Esz in Hlim. destruct (decide (Z.of_nat (size L) < limit)), (decide (Z.of_nat (size L) + 1 ≤ limit)); try lia.
    + destruct Hlim as [-> ->]. split; [done|]. rewrite <- Hmine. split; [|by eexists]. intros [d' Hd']. unfold fetchTxDesc in Hfetch. rewrite Hd' in Hfetch. congruence.
    + destruct Hlim as (q & id & Hhead & Hq & Hrm). destruct (pr_live _ _ _ _ _ Hrep1 id q Hq) as (a & Ha & _). exists q, a. split_and!; [done|by eapply (removed_exact _ _ m1)|]. intros i r b Hr Hb.
      pose proof (proj2 (ordered_live _ _ _ _ _ Hrep1 r) (ex_intro _ i Hr)) as Hin. pose proof (od_sorted _ _ (pr_ordered _ _ _ _ _ Hrep1)) as Hsort. destruct (orderedTransactionsByFeeRate m1) as [|q' l]; [done|].
      simpl in Hhead. simplify_eq. apply elem_of_cons in Hin as [->|Hin]; [assert (b = a) as -> by congruence; by destruct (sorts_total a a)|]. inversion_clear Hsort as [|?? _ Hall]. rewrite Forall_forall in Hall.
      destruct (Hall r Hin) as (? & ? & ? & ? & ?). by simplify_eq.
Qed.

Inductive accept_result mp mp' (L : gmap txID pointer) (p : pointer) (tx : DomainTransaction) (rej : bool) : outcome poolError (list DomainOutpoint * option pointer) → Prop :=
  | ar_reject e : isPoolRuleError e = true ∨ e = ConsensusError → ¬ insertable mp tx rej → mp_main mp' = mp_main mp → pool_inv mp' L → accept_result mp mp' L p tx rej (Fail e)
  | ar_missing missing : missing ≠ [] → (rej = true → isOrphanInPool (mp_orphans mp) (txid tx) = false) → ¬ insertable mp tx rej → mp_main mp' = mp_main mp → pool_inv mp' L → accept_result mp mp' L p tx rej (Ret (missing, None))
  | ar_accept L' d : insertable mp tx rej → pool_inv mp' L' → (td_tx <$> descriptors (mp_main mp') !! d) = Some p → taken mp mp' L L' tx p → accept_result mp mp' L p tx rej (Ret ([], Some d)).

(** After validation: the checks that remain, and the insertion *)
Lemma accept_validated mp L p tx rej : pool_inv mp L → mp_heap mp !! p = Some tx → L !! txid tx = None →
  (AcceptNonStd (mp_policy mp) = false → checkTransactionStandard tx (mp_policy mp) = Ret ()) →
  (∀ o, o ∈ spent tx → transactionByPreviousOutpoint (mp_main mp) !! o = None) → (rej = true → isOrphanInPool (mp_orphans mp) (txid tx) = false) →
  let tx' := (consensus (populated mp tx)).1 in
  ∃ mp' r, (storeTx p tx' ;;*
      match (consensus (populated mp tx)).2 with
      | Fail (TxRule (ErrMissingTxOut missingOutpoints)) => ret (missingOutpoints, None)
      | Fail (TxRule ErrImmatureSpend) => fail (TxRuleError RejectImmatureSpend)
      | Fail (TxRule _) => fail OtherRuleError
      | Fail _ => fail ConsensusError
      | Crash c => crash_with c
      | Ret _ =>
          if tx_Mass tx' >? MaxMassAcceptedByBlock mp then fail OtherRuleError
          else
            (if AcceptNonStd (mp_policy mp) then ret () else lift_outcome (asNonstandard (checkInputsStandard tx'))) ;;*
            let serializedSize := GoInt.int64 (TransactionEstimatedSerializedSize tx') in
            let minFee := GoInt.uint64 (calcMinRequiredTxRelayFee serializedSize (MinRelayTxFee (mp_policy mp))) in
            if tx_Fee tx' <? minFee then fail (TxRuleError RejectInsufficientFee)
            else
              let* txDesc := onMain (λ h, addTransaction h p (populateUTXOEntries (mp_main mp) tx).2) in
              onMain enforceTransactionLimit ;;*
              ret ([], Some txDesc)
      end) mp = (mp', r) ∧ frame mp mp' ∧ mp_orphans mp' = mp_orphans mp ∧ accept_result mp mp' L p tx rej r.
Proof using HC HL.
  intros Hinv Hp Hn Hstd Hfree Hdup tx'. destruct (populated_shape mp L tx Hinv (pi_heap _ _ Hinv p tx Hp)) as [HD1 Hs1]. destruct (cok_shape (populated mp tx) HD1) as [Hs2 HD2]. fold tx' in Hs2, HD2.
  assert (same_shape tx tx') as (Eid & Esp & Eout) by (destruct Hs1 as (? & ? & ?), Hs2 as (? & ? & ?); split_and!; congruence).
  destruct (store_inv mp L p tx tx' Hinv Hp Hn HD2) as [Hinv1 Hfr1]; [done|]. set (mp1 := set_heap (<[p := tx']> (mp_heap mp)) mp) in *.
  match goal with |- context [bind (storeTx p tx') ?k mp] => change (bind (storeTx p tx') k mp) with (k () mp1) end. cbv beta.
  destruct (consensus (populated mp tx)).2 as [[]|e|c] eqn:Ev; [| |by destruct (cok_crash (populated mp tx) c HD1)].
  2:{ assert (¬ insertable mp tx rej) as Hni by (intros [_ _ _ _ Hv _ _ _]; congruence). exists mp1. destruct e as [e|e|e].
      2,3: eexists; split; [done|]; split_and!; [done|done|]; apply ar_reject; try done; by right.
      destruct e as [| | | | | | | | | |missing| | | |]; eexists; (split; [done|]); (split; [done|]); (split; [done|]); try (apply ar_reject; try done; by left).
      apply ar_missing; try done. by apply (cok_missing (populated mp tx) missing). }
  rewrite Z.gtb_ltb. destruct (Z.ltb_spec (MaxMassAcceptedByBlock mp) (tx_Mass tx')) as [Hm|Hm].
  { exists mp1. eexists. split; [done|]. split; [done|]. split; [done|]. apply ar_reject; try done; [by left|]. intros [_ _ _ _ _ Hm' _ _]. fold tx' in Hm'. lia. }
  destruct (cok_inputs (populated mp tx) HD1 Ev) as [Hnd Hsome]. destruct (cok_rated (populated mp tx) HD1 Ev) as [Hfee Hmass]. fold tx' in Hsome, Hfee, Hmass.
  assert (policyOutcome (if AcceptNonStd (mp_policy mp) then Ret () else asNonstandard (checkInputsStandard tx'))) as Hpol.
  { destruct (AcceptNonStd _); [by left|]. apply asNonstandard_policy, checkInputsStandard_policy; [by apply cok_typed|done]. }
  match goal with |- context [bind ?f ?k mp1] => assert (f mp1 = (mp1, if AcceptNonStd (mp_policy mp) then Ret () else asNonstandard (checkInputsStandard tx'))) as Ef by (by destruct (AcceptNonStd _)) end.
  destruct Hpol as [Hpol|[c Hpol]]; rewrite Hpol in Ef.
  2:{ exists mp1, (Fail (TxRuleError c)). split; [by rewrite (bind_fail_l _ _ _ _ _ Ef)|]. split; [done|]. split; [done|]. apply ar_reject; try done; [by left|]. intros [_ _ _ _ _ _ Hi _]. fold tx' in Hi.
      destruct (AcceptNonStd _); [done|]. by rewrite Hi in Hpol. }
  rewrite (bind_ret_l _ _ _ _ _ Ef). cbv zeta. destruct (minFee_pos (GoInt.int64 (TransactionEstimatedSerializedSize tx')) (MinRelayTxFee (mp_policy mp)) (proj1 (pi_policy _ _ Hinv))) as [Hmin Hmax].
  set (minFee := calcMinRequiredTxRelayFee _ _) in *. assert (GoInt.uint64 minFee = minFee) as -> by (unfold GoInt.uint64; rewrite GoInt.uwrap_id; [done|unfold GoInt.in_uint; lia]).
  destruct (Z.ltb_spec (tx_Fee tx') minFee) as [Hlow|Hok].
  { exists mp1. eexists. split; [done|]. split; [done|]. split; [done|]. apply ar_reject; try done; [by left|]. intros [_ _ _ _ _ _ _ Hf]. fold tx' in Hf. fold minFee in Hf. lia. }
  assert (mp_heap mp1 !! p = Some tx') as Hp1 by (unfold mp1; simpl; by rewrite lookup_insert_eq).
  assert (pooled rank tx') as Hpool. { split; [by apply cok_wf|rewrite Esp; destruct Hs1 as (_ & E & _); by rewrite E in Hnd|split; lia]. }
  destruct (insert_run mp1 L p tx' Hinv1 Hp1 Hpool) as (mp2 & L2 & d & Hrun & Hinv2 & Hfr2 & Ho2 & Hd2 & Ht2); [by rewrite Eid|rewrite Esp; exact Hfree|].
  exists mp2, (Ret ([], Some d)). split.
  { change (populateUTXOEntries (mp_main mp) tx).2 with (filter (λ o, is_Some (poolUnspentOutputs (mp_main mp1) !! o)) (spent tx)). rewrite <- Esp. exact Hrun. }
  split; [by eapply frame_trans|]. split; [done|]. unfold taken in Ht2. rewrite Eid, Esp in Ht2. apply (ar_accept _ _ _ _ _ _ L2); try done.
  assert (isTransactionInPool (mp_main mp) (txid tx) = false) as Hnew by (by eapply inPool_live). split; try done.
  intros En. rewrite En in Hpol. fold tx'. destruct (checkInputsStandard_policy tx' (cok_typed _ HD2) Hsome) as [?|[c E]]; [done|]. by rewrite E in Hpol.
Qed.

Lemma accept_spec mp L p tx rej : pool_inv mp L → mp_heap mp !! p = Some tx →
  ∃ mp' r, mempool_maybeAcceptTransaction consensus p rej mp = (mp', r) ∧ frame mp mp' ∧ mp_orphans mp' = mp_orphans mp ∧ accept_result mp mp' L p tx rej r.
Proof using HC HL.
  intros Hinv Hp. pose proof (pi_heap _ _ Hinv p tx Hp) as HD. unfold mempool_maybeAcceptTransaction. rewrite (bind_ret_l _ _ mp mp tx), (bind_ret_l _ _ mp mp mp) by (done || by apply loadTx_run).
  assert (∀ e, isPoolRuleError e = true → ¬ insertable mp tx rej → ∃ mp' r, (mp, Fail e) = (mp', r) ∧ frame mp mp' ∧ mp_orphans mp' = mp_orphans mp ∧ accept_result mp mp' L p tx rej r) as Hrej.
  { intros e He Hni. exists mp, (Fail e). split; [done|]. split; [apply frame_refl|]. split; [done|]. apply ar_reject; try done. by left. }
  destruct (isTransactionInPool (mp_main mp) (txid tx)) eqn:Enew; [apply Hrej; [done|]; intros [Hn' _ _ _ _ _ _ _]; congruence|]. cbn [orb].
  destruct (rej && isOrphanInPool (mp_orphans mp) (txid tx)) eqn:Edup; [apply Hrej; [done|]; intros [_ Ho _ _ _ _ _ _]; apply andb_true_iff in Edup as [-> E]; rewrite Ho in E; done|].
  assert (policyOutcome (if AcceptNonStd (mp_policy mp) then Ret () else asNonstandard (checkTransactionStandard tx (mp_policy mp)))) as Hpol.
  { destruct (AcceptNonStd _); [by left|]. apply asNonstandard_policy, checkTransactionStandard_policy. by apply cok_typed. }
  match goal with |- context [bind ?f ?k mp] => assert (f mp = (mp, if AcceptNonStd (mp_policy mp) then Ret () else asNonstandard (checkTransactionStandard tx (mp_policy mp)))) as Ef by (by destruct (AcceptNonStd _)) end.
  destruct Hpol as [Hpol|[c Hpol]]; rewrite Hpol in Ef.
  2:{ rewrite (bind_fail_l _ _ _ _ _ Ef). apply Hrej; [done|]. intros [_ _ Hi _ _ _ _ _]. destruct (AcceptNonStd _); [done|]. by rewrite Hi in Hpol. }
  rewrite (bind_ret_l _ _ _ _ _ Ef). unfold checkPoolDoubleSpend, poolTransactionBySpendingOutpoint.
  destruct (existsb (λ o, bool_decide (is_Some (transactionByPreviousOutpoint (mp_main mp) !! o))) (spent tx)) eqn:Efree.
  { apply Hrej; [done|]. intros [_ _ _ Hf _ _ _ _]. rewrite (proj2 (exists_spent _ _) Hf) in Efree. done. }
  rewrite (bind_ret_l _ _ mp mp ()) by done. rewrite exists_spent in Efree. assert (L !! txid tx = None) as Hn by (by apply (inPool_live mp L)).
  rewrite (checkExists_new mp L tx) by done. fold (populated mp tx). destruct (populateUTXOEntries (mp_main mp) tx) as [tx1 parents] eqn:Epop.
  assert (tx1 = populated mp tx) as -> by (unfold populated; by rewrite Epop). destruct (consensus (populated mp tx)) as [tx' err] eqn:Ec.
  destruct (accept_validated mp L p tx rej Hinv Hp Hn) as (mp' & r & Hrun & Hres); [|done| |].
  - intros En. rewrite En in Hpol. destruct (checkTransactionStandard_policy (mp_policy mp) tx (cok_typed _ HD)) as [?|[c E]]; [done|]. by rewrite E in Hpol.
  - intros ->. by destruct (isOrphanInPool _ _).
  - exists mp', r. split; [|exact Hres]. rewrite Ec, Epop in Hrun. exact Hrun.
Qed.

(** ** Accepting orphans *)
Variable range : ∀ A, gmap txID A → list (txID * A).
Context {HR : RangeOk range}.

(** From [mp] to [mp'], with the invariant and without more orphans *)
Record reaches mp mp' : Prop := {
  re_inv : ∃ L, pool_inv mp' L;
  re_frame : frame mp mp';
  re_orphans : orphans (mp_orphans mp') ⊆ orphans (mp_orphans mp)
}.
Lemma reaches_refl mp L : pool_inv mp L → reaches mp mp.
Proof using Type. intros Hinv. split; [eauto|apply frame_refl|done]. Qed.
Lemma reaches_trans mp1 mp2 mp3 : reaches mp1 mp2 → reaches mp2 mp3 → reaches mp1 mp3.
Proof using Type. intros [_ F1 O1] [I2 F2 O2]. split; [done|by eapply frame_trans|by etransitivity]. Qed.

(** A transaction with its descriptor *)
Definition listed mp (pd : pointer * pointer) : Prop := is_Some (mp_heap mp !! pd.1) ∧ (td_tx <$> descriptors (mp_main mp) !! pd.2) = Some pd.1.
Lemma listed_frame mp mp' pd : frame mp mp' → listed mp pd → listed mp' pd.
Proof using Type.
  intros [_ _ Fh Fd] [[tx Htx] Hd]. split; [destruct (Fh _ _ Htx) as (tx' & Htx' & _); eauto|]. destruct (descriptors (mp_main mp) !! pd.2) as [desc|] eqn:E; [|done].
  destruct (Fd _ _ E) as (desc' & -> & E'). simpl in *. congruence.
Qed.

Lemma removeOrphan_run mp L p tx redeemers : pool_inv mp L → mp_heap mp !! p = Some tx →
  ∃ mp', onOrphans (λ h, removeOrphan h range (orphanFuel (mp_orphans mp)) p redeemers) mp = (mp', Ret ()) ∧ pool_inv mp' L ∧ reaches mp mp' ∧ mp_main mp' = mp_main mp ∧ orphans (mp_orphans mp') !! txid tx = None.
Proof using HR HL.
  intros Hinv Hp. destruct (removeOrphan_spec rank (mp_heap mp) range (orphanFuel (mp_orphans mp)) (mp_orphans mp) ∅ p tx redeemers (pi_orphans _ _ Hinv) Hp) as (op' & Hrun & Hs & Hgone & _); [apply not_elem_of_empty|by apply orphan_fuel|].
  exists (set_orphanPool op' mp). split; [by apply onOrphans_run|]. destruct (orphans_inv mp L op' Hinv Hs) as [Hi Hf]. split; [done|]. split; [|done]. split; [eauto|done|apply Hs].
Qed.

Definition results {A} mp (mp' : mempool) (r : outcome poolError A) (post : A → Prop) : Prop :=
  reaches mp mp' ∧ match r with Ret a => post a | Fail e => e = ConsensusError | Crash _ => False end.

Lemma acceptOrphan_spec candidates : ∀ mp L, pool_inv mp L → (∀ p, p ∈ candidates → ∃ tx, mp_heap mp !! p = Some tx ∧ is_Some (orphans (mp_orphans mp) !! txid tx)) →
  ∃ mp' r, acceptOrphan range consensus candidates mp = (mp', r) ∧ results mp mp' r (λ accepted, ∀ pd, accepted = Some pd → listed mp' pd ∧ (size (orphans (mp_orphans mp')) < size (orphans (mp_orphans mp)))%nat).
Proof using HC HR HL.
  induction candidates as [|p candidates IH]; intros mp L Hinv Hcand; [exists mp, (Ret None); split; [done|]; split; [by eapply reaches_refl|done]|].
  destruct (Hcand p) as (tx & Hp & [otx Hotx]); [by left|]. cbn [acceptOrphan]. destruct (accept_spec mp L p tx false Hinv Hp) as (mp1 & r1 & Hrun1 & Hfr1 & Ho1 & Hres).
  destruct (fr_heap _ _ Hfr1 p tx Hp) as (tx1 & Hp1 & Eid & _). destruct Hres as [e He _ _ Hinv1|missing Hne _ _ _ Hinv1|L1 d _ Hinv1 Hd _].
  - rewrite (bind_ret_l _ _ mp mp1 (inl e)) by (unfold attempt; by rewrite Hrun1). assert (reaches mp mp1) as Hr1 by (split; [eauto|done|by rewrite Ho1]).
    destruct (isPoolRuleError e) eqn:Ee; cbn [negb].
    + destruct (removeOrphan_run mp1 L p tx1 true Hinv1 Hp1) as (mp2 & Hrun2 & Hinv2 & Hr2 & _). exists mp2, (Ret None). split; [by rewrite (bind_ret_l _ _ mp1 mp1 mp1), (bind_ret_l _ _ _ _ _ Hrun2) by done|].
      split; [by eapply reaches_trans|done].
    + exists mp1, (Fail e). split; [done|]. split; [done|]. by destruct He; [congruence|].
  - rewrite (bind_ret_l _ _ mp mp1 (inr (missing, None))) by (unfold attempt; by rewrite Hrun1). assert (reaches mp mp1) as Hr1 by (split; [eauto|done|by rewrite Ho1]). destruct missing as [|o missing]; [done|].
    destruct (IH mp1 L Hinv1) as (mp2 & r2 & Hrun2 & Hr2 & Hpost).
    { intros q Hq. destruct (Hcand q) as (a & Ha & Hs); [by right|]. destruct (fr_heap _ _ Hfr1 q a Ha) as (a1 & Ha1 & E & _). exists a1. by rewrite Ho1, E. }
    exists mp2, r2. split; [done|]. split; [by eapply reaches_trans|]. by rewrite Ho1 in Hpost.
  - rewrite (bind_ret_l _ _ mp mp1 (inr ([], Some d))) by (unfold attempt; by rewrite Hrun1). assert (reaches mp mp1) as Hr1 by (split; [eauto|done|by rewrite Ho1]).
    destruct (removeOrphan_run mp1 L1 p tx1 false Hinv1 Hp1) as (mp2 & Hrun2 & Hinv2 & Hr2 & Hm2 & Hgone). exists mp2, (Ret (Some (p, d))). split; [by rewrite (bind_ret_l _ _ mp1 mp1 mp1), (bind_ret_l _ _ _ _ _ Hrun2) by done|].
    split; [by eapply reaches_trans|]. intros pd [= <-]. split.
    + apply (listed_frame mp1); [apply Hr2|]. split; [eauto|done].
    + apply map_subset_size, map_subset_alt. split; [by destruct (reaches_trans mp mp1 mp2 Hr1 Hr2)|]. exists (txid tx). split; [by rewrite <- Eid|eauto].
Qed.

Lemma processOutputs_spec os : ∀ mp L, pool_inv mp L →
  ∃ mp' r, processOutputs range consensus os mp = (mp', r) ∧ results mp mp' r (λ acc, Forall (listed mp') acc ∧ (size (orphans (mp_orphans mp')) + length acc ≤ size (orphans (mp_orphans mp)))%nat).
Proof using HC HR HL.
  induction os as [|o os IH]; intros mp L Hinv; [exists mp, (Ret []); split; [done|]; split; [by eapply reaches_refl|split; [constructor|simpl; lia]]|].
  cbn [processOutputs]. rewrite (bind_ret_l _ _ mp mp mp) by done. destruct (orphansByPrev (mp_orphans mp) !! o) as [ids|] eqn:Eo; [|by apply (IH mp L)].
  destruct (acceptOrphan_spec (map snd (range _ ids)) mp L Hinv) as (mp1 & r1 & Hrun1 & Hr1 & Hpost1).
  { intros p (x & -> & Hin)%list_elem_of_fmap. destruct x as [i q]. apply (range_lookup range) in Hin. destruct (proj1 (or_index _ _ _ _ (pi_orphans _ _ Hinv) o i q)) as [_ (otx & tx & Ho & Hq & Htx & _)]; [unfold redeems; by rewrite Eo|].
    exists tx. simpl. split; [done|]. destruct (or_tx _ _ _ _ (pi_orphans _ _ Hinv) i otx Ho) as (a & Ha & Hid & _). simplify_eq. eauto. }
  destruct r1 as [acc|e|c]; [|exists mp1, (Fail e); split; [by rewrite (bind_fail_l _ _ _ _ _ Hrun1)|done]|done].
  rewrite (bind_ret_l _ _ _ _ _ Hrun1). destruct (re_inv _ _ Hr1) as [L1 Hinv1]. destruct (IH mp1 L1 Hinv1) as (mp2 & r2 & Hrun2 & Hr2 & Hpost2). pose proof (reaches_trans mp mp1 mp2 Hr1 Hr2) as Hr.
  destruct r2 as [rest|e|c]; [|exists mp2, (Fail e); split; [by rewrite (bind_fail_l _ _ _ _ _ Hrun2)|done]|done].
  exists mp2, (Ret (option_list acc ++ rest)). split; [by rewrite (bind_ret_l _ _ _ _ _ Hrun2)|]. split; [done|]. destruct Hpost2 as [Hall Hsz]. pose proof (map_subseteq_size _ _ (re_orphans _ _ Hr1)) as Hs1. destruct acc as [pd|]; simpl.
  - destruct (Hpost1 pd eq_refl) as [Hl Hlt]. split; [constructor; [by eapply listed_frame, Hl; apply Hr2|done]|lia].
  - split; [done|lia].
Qed.

Definition described mp (d : pointer) : Prop := ∃ p, listed mp (p, d).
Lemma described_frame mp mp' ds : frame mp mp' → Forall (described mp) ds → Forall (described mp') ds.
Proof using Type. intros Hf Hall. eapply Forall_impl; [exact Hall|]. intros d (p & Hp). exists p. by eapply listed_frame. Qed.

(** Every transaction in the list was passed or was an orphan: the loop ends. *)
Lemma processLoop_spec fuel : ∀ processList acceptedTxns mp L, pool_inv mp L → (∀ p, p ∈ processList → is_Some (mp_heap mp !! p)) → Forall (described mp) acceptedTxns →
  (length processList + size (orphans (mp_orphans mp)) ≤ fuel)%nat →
  ∃ mp' r, processLoop range consensus fuel processList acceptedTxns mp = (mp', r) ∧ results mp mp' r (Forall (described mp')).
Proof using HC HR HL.
  induction fuel as [|fuel IH]; intros [|p processList] acceptedTxns mp L Hinv Hheap Hacc Hfuel; simpl in Hfuel; try lia; cbn [processLoop];
    [exists mp, (Ret acceptedTxns); split; [done|]; split; [by eapply reaches_refl|done]..|].
  destruct (Hheap p) as [tx Hp]; [by left|]. rewrite (bind_ret_l _ _ mp mp tx) by (by apply loadTx_run). destruct (processOutputs_spec (outpoints tx) mp L Hinv) as (mp1 & r1 & Hrun1 & Hr1 & Hpost1).
  destruct r1 as [acc|e|c]; [|exists mp1, (Fail e); split; [by rewrite (bind_fail_l _ _ _ _ _ Hrun1)|done]|done]. rewrite (bind_ret_l _ _ _ _ _ Hrun1).
  destruct (re_inv _ _ Hr1) as [L1 Hinv1]. destruct Hpost1 as [Hall Hsz].
  destruct (IH (processList ++ map fst acc) (acceptedTxns ++ map snd acc) mp1 L1 Hinv1) as (mp2 & r2 & Hrun2 & Hr2 & Hpost2).
  - intros q [Hq|Hq]%elem_of_app; [destruct (Hheap q) as [a Ha]; [by right|]; destruct (fr_heap _ _ (re_frame _ _ Hr1) q a Ha) as (a' & ? & _); eauto|].
    apply list_elem_of_fmap in Hq as (pd & -> & Hpd). rewrite Forall_forall in Hall. by destruct (Hall pd Hpd).
  - apply Forall_app. split; [by eapply described_frame, Hacc; apply Hr1|]. apply Forall_forall. intros d (pd & -> & Hpd)%list_elem_of_fmap. rewrite Forall_forall in Hall. exists pd.1. destruct pd. by apply Hall.
  - rewrite length_app, length_map. simpl in *. lia.
  - exists mp2, r2. split; [done|]. split; [by eapply reaches_trans|done].
Qed.

Lemma descTx_run mp d : described mp d → ∃ p tx, descTx d mp = (mp, Ret p) ∧ mp_heap mp !! p = Some tx.
Proof using Type.
  intros (p & [tx Htx] & Hd). exists p, tx. split; [|done]. unfold descTx, onMain, loadDesc, bind, gets. simpl in *. destruct (descriptors (mp_main mp) !! d) as [desc|]; [|done]. simpl in *. simplify_eq. by destruct mp.
Qed.

Lemma doubleSpends_run mp L p tx : pool_inv mp L → mp_heap mp !! p = Some tx → ∃ mp', onOrphans (λ h, removeOrphanDoubleSpends h range p) mp = (mp', Ret ()) ∧ reaches mp mp'.
Proof using HR HL.
  intros Hinv Hp. destruct (removeOrphanDoubleSpends_spec rank (mp_heap mp) range (mp_orphans mp) p tx (pi_orphans _ _ Hinv) Hp) as (op' & Hrun & Hs). exists (set_orphanPool op' mp).
  split; [by apply onOrphans_run|]. destruct (orphans_inv mp L op' Hinv Hs) as [Hi Hf]. split; [eauto|done|apply Hs].
Qed.

Lemma processOrphans_spec mp L p tx : pool_inv mp L → mp_heap mp !! p = Some tx →
  ∃ mp' r, processOrphans range consensus p mp = (mp', r) ∧ results mp mp' r (Forall (described mp')).
Proof using HC HR HL.
  intros Hinv Hp. unfold processOrphans. rewrite (bind_ret_l _ _ mp mp mp) by done.
  destruct (processLoop_spec (S (size (orphans (mp_orphans mp)))) [p] [] mp L Hinv) as (mp1 & r1 & Hrun1 & Hr1 & Hpost1); [intros q ->%list_elem_of_singleton; eauto|constructor|simpl; lia|].
  destruct r1 as [ds|e|c]; [|exists mp1, (Fail e); split; [by rewrite (bind_fail_l _ _ _ _ _ Hrun1)|done]|done]. rewrite (bind_ret_l _ _ _ _ _ Hrun1).
  destruct (re_inv _ _ Hr1) as [L1 Hinv1]. destruct (fr_heap _ _ (re_frame _ _ Hr1) p tx Hp) as (tx1 & Hp1 & _). destruct (doubleSpends_run mp1 L1 p tx1 Hinv1 Hp1) as (mp2 & Hrun2 & Hr2). rewrite (bind_ret_l _ _ _ _ _ Hrun2).
  assert (∀ l mp3, reaches mp2 mp3 → Forall (described mp3) l →
    ∃ mp4, forM l (λ d, let* p := descTx d in onOrphans (λ h, removeOrphanDoubleSpends h range p)) mp3 = (mp4, Ret ()) ∧ reaches mp2 mp4) as Hloop.
  { induction l as [|d l IHl]; intros mp3 Hr3 Hall; [by exists mp3|]. apply Forall_cons in Hall as [Hd Hall]. destruct (descTx_run mp3 d Hd) as (q & a & Hq & Ha). destruct (re_inv _ _ Hr3) as [L3 Hinv3].
    destruct (doubleSpends_run mp3 L3 q a Hinv3 Ha) as (mp4 & Hrun4 & Hr4). destruct (IHl mp4) as (mp5 & Hrun5 & Hr5); [by eapply reaches_trans|by eapply described_frame, Hall; apply Hr4|].
    exists mp5. split; [|done]. cbn [forM]. rewrite bind_assoc, (bind_ret_l _ _ _ _ _ Hq). by rewrite (bind_ret_l _ _ _ _ _ Hrun4). }
  destruct (re_inv _ _ Hr2) as [L2 Hinv2]. destruct (Hloop ds mp2) as (mp3 & Hrun3 & Hr3); [by eapply reaches_refl|by eapply described_frame, Hpost1; apply Hr2|].
  exists mp3, (Ret ds). split; [by rewrite (bind_ret_l _ _ _ _ _ Hrun3)|]. split; [by eapply reaches_trans; [exact Hr1|eapply reaches_trans]|].
  eapply described_frame; [apply Hr3|]. by eapply described_frame, Hpost1; apply Hr2.
Qed.

(** ** The operations of the pool *)
Definition ends mp mp' (r : outcome poolError unit) : Prop :=
  (∃ L', pool_inv mp' L') ∧ frame mp mp' ∧ match r with Ret _ => True | Fail e => isPoolRuleError e = true ∨ e = ConsensusError | Crash _ => False end.

Lemma insert_spec mp L now later p tx allowOrphan : pool_inv mp L → mp_heap mp !! p = Some tx →
  ∃ mp' r, ValidateAndInsertTransaction range consensus now later p allowOrphan mp = (mp', r) ∧ ends mp mp' r.
Proof using HC HR HL.
  intros Hinv Hp. unfold ValidateAndInsertTransaction. destruct (accept_spec mp L p tx true Hinv Hp) as (mp1 & r1 & Hrun1 & Hfr1 & Ho1 & Hres).
  destruct (fr_heap _ _ Hfr1 p tx Hp) as (tx1 & Hp1 & Eid & Esp & Eout). destruct Hres as [e He _ _ Hinv1|missing Hne Hdup _ _ Hinv1|L1 d Hin Hinv1 Hd _].
  - exists mp1, (Fail e). split; [by rewrite (bind_fail_l _ _ _ _ _ Hrun1)|]. split; [eauto|done].
  - rewrite (bind_ret_l _ _ _ _ _ Hrun1). destruct missing as [|o missing]; [done|]. cbn [fst]. destruct allowOrphan; cbn [negb]; [|exists mp1; eexists; split; [done|]; split; [eauto|]; split; [done|by left]].
    rewrite (bind_ret_l _ _ mp1 mp1 mp1) by done. unfold onOrphans, maybeAddOrphan. unfold bind at 1. rewrite (load_Some _ _ tx1) by done. cbv zeta. destruct (_ >? _).
    { exists mp1. eexists. split; [by destruct mp1|]. split; [eauto|]. split; [done|by left]. }
    assert (orphans (mp_orphans mp1) !! txid tx1 = None) as Hnew. { rewrite Ho1, Eid. specialize (Hdup eq_refl). unfold isOrphanInPool in Hdup. apply bool_decide_eq_false in Hdup. by apply eq_None_not_Some. }
    destruct (addOrphan_spec rank (mp_heap mp1) range (mp_policy mp1) now later (mp_orphans mp1) p tx1) as (op' & Hrun & Hrep & Hsz & _); try done; try apply Hinv1.
    { apply cok_wf. by eapply (pi_heap _ _ Hinv1). }
    exists (set_orphanPool op' mp1), (Ret ()). split; [by rewrite Hrun|]. split; [|split; [|done]].
    + exists L. destruct Hinv1. by split.
    + eapply frame_trans; [exact Hfr1|]. split; [done|done|intros q a Ha; by exists a|done].
  - rewrite (bind_ret_l _ _ _ _ _ Hrun1). cbn [fst]. destruct (processOrphans_spec mp1 L1 p tx1 Hinv1 Hp1) as (mp2 & r2 & Hrun2 & Hr2 & Hpost2). destruct r2 as [ds|e|c]; [| |done].
    + exists mp2, (Ret ()). split; [by rewrite (bind_ret_l _ _ _ _ _ Hrun2)|]. split; [apply Hr2|]. split; [by eapply frame_trans, Hr2|done].
    + exists mp2, (Fail e). split; [by rewrite (bind_fail_l _ _ _ _ _ Hrun2)|]. split; [apply Hr2|]. split; [by eapply frame_trans, Hr2|by right].
Qed.

Lemma alloc_inv mp L p tx : pool_inv mp L → mp_heap mp !! p = None → D tx → pool_inv (set_heap (<[p := tx]> (mp_heap mp)) mp) L.
Proof using HL.
  intros [Hm Ho Hd ? ? ?] Hp HD. split; simpl; try done.
  - eapply rep_heap; [exact Hm|]. intros id q Hq. rewrite lookup_insert_ne; [done|]. intros <-. destruct (pr_live _ _ _ _ _ Hm id p Hq) as (a & Ha & _). congruence.
  - eapply orphan_heap; [exact Ho|]. intros q a Ha. exists a. rewrite lookup_insert_ne by congruence. done.
  - intros q a [[<- <-]|[_ Ha]]%lookup_insert_Some; [done|by eapply Hd].
Qed.

Lemma collect_run ds : ∀ mp, Forall (described mp) ds → ∃ ps, collect_descs ds mp = (mp, Ret ps).
Proof using Type.
  induction ds as [|d ds IH]; intros mp Hall; [by exists []|]. apply Forall_cons in Hall as [Hd Hall]. destruct (descTx_run mp d Hd) as (p & _ & Hp & _). destruct (IH mp Hall) as (ps & Hps). exists (p :: ps).
  cbn [collect_descs]. by rewrite (bind_ret_l _ _ _ _ _ Hp), (bind_ret_l _ _ _ _ _ Hps).
Qed.

Lemma handleLoop_spec txs : ∀ acceptedTxs mp L, pool_inv mp L → (∀ p, p ∈ txs → is_Some (mp_heap mp !! p)) →
  ∃ mp' r, handleLoop range consensus txs acceptedTxs mp = (mp', r) ∧ results mp mp' r (λ _, True).
Proof using HC HR HL.
  induction txs as [|p txs IH]; intros acceptedTxs mp L Hinv Hheap; [exists mp, (Ret acceptedTxs); split; [done|]; split; [by eapply reaches_refl|done]|]. destruct (Hheap p) as [tx Hp]; [by left|]. cbn [handleLoop].
  destruct (removeDoubleSpends_spec rank (mp_heap mp) (mp_main mp) L [] p tx (pi_main _ _ Hinv) Hp) as (m1 & L1 & Hrun1 & Hrep1 & HL1). rewrite (bind_ret_l _ _ mp (set_main m1 mp) ()) by (by apply onMain_run).
  destruct (main_inv mp L L1 m1 Hinv Hrep1) as [Hinv1 Hfr1].
  { apply map_subseteq_spec. intros i q Hq. by apply HL1. } { pose proof (keeps_removeDoubleSpends (mp_heap mp) p (mp_main mp)) as Hk. by rewrite Hrun1 in Hk. }
  set (mp1 := set_main m1 mp) in *. assert (reaches mp mp1) as Hr1 by (split; [eauto|done|done]). rewrite (bind_ret_l _ _ mp1 mp1 mp1) by done.
  destruct (removeOrphan_run mp1 L1 p tx false Hinv1 Hp) as (mp2 & Hrun2 & Hinv2 & Hr2 & _). rewrite (bind_ret_l _ _ _ _ _ Hrun2). destruct (fr_heap _ _ (re_frame _ _ Hr2) p tx Hp) as (tx2 & Hp2 & _).
  destruct (processOrphans_spec mp2 L1 p tx2 Hinv2 Hp2) as (mp3 & r3 & Hrun3 & Hr3 & Hpost3). assert (reaches mp mp3) as Hr by (eapply reaches_trans; [exact Hr1|by eapply reaches_trans]).
  destruct r3 as [ds|e|c]; [|exists mp3, (Fail e); split; [by rewrite (bind_fail_l _ _ _ _ _ Hrun3)|done]|done]. rewrite (bind_ret_l _ _ _ _ _ Hrun3). destruct (collect_run ds mp3 Hpost3) as (ps & Hps). rewrite (bind_ret_l _ _ _ _ _ Hps).
  destruct (re_inv _ _ Hr3) as [L3 Hinv3]. destruct (IH (acceptedTxs ++ ps) mp3 L3 Hinv3) as (mp4 & r4 & Hrun4 & Hr4 & Hpost4).
  { intros q Hq. destruct (Hheap q) as [a Ha]; [by right|]. destruct (fr_heap _ _ (re_frame _ _ Hr) q a Ha) as (a' & ? & _). eauto. }
  exists mp4, r4. split; [done|]. split; [by eapply reaches_trans|done].
Qed.

(** A block without transactions that are chained in the pool *)
Definition block_ok mp (txs : list pointer) : Prop :=
  ∃ coinbase rest, txs = coinbase :: rest ∧ ∀ p, p ∈ rest → ∃ tx, mp_heap mp !! p = Some tx ∧ chainedTransactions (mp_main mp) !! txid tx = None.

Lemma withoutCoinbase_cons {S} (c : pointer) rest (s : S) : withoutCoinbase (c :: rest) s = (s, Ret rest).
Proof using Type.
  unfold withoutCoinbase, lift_outcome, coinbaseIndex. f_equal. exact (pool_slice_back [c] rest).
Qed.

Lemma removeTransactions_spec mp L coinbase rest : pool_inv mp L → (∀ p, p ∈ rest → ∃ tx, mp_heap mp !! p = Some tx ∧ chainedTransactions (mp_main mp) !! txid tx = None) →
  ∃ mp' L', RemoveTransactions (coinbase :: rest) mp = (mp', Ret ()) ∧ pool_inv mp' L' ∧ reaches mp mp' ∧ mp_heap mp' = mp_heap mp ∧
    ∀ i q, L' !! i = Some q ↔ L !! i = Some q ∧ ∀ p tx, p ∈ rest → mp_heap mp !! p = Some tx → txid tx ≠ i.
Proof using HL.
  intros Hinv Hblock. destruct (blockLoop_spec rank (mp_heap mp) rest (mp_main mp) L (pi_main _ _ Hinv) Hblock) as (m' & L' & Hrun & Hrep & HL' & _).
  assert (removeTransactionsFromPool (mp_heap mp) (coinbase :: rest) (mp_main mp) = (m', Ret ())) as Hrun'.
  { unfold removeTransactionsFromPool. rewrite (bind_ret_l _ _ (mp_main mp) (mp_main mp) rest) by apply withoutCoinbase_cons. exact Hrun. }
  destruct (main_inv mp L L' m' Hinv Hrep) as [Hinv' Hfr].
  { apply map_subseteq_spec. intros i q Hq. by apply HL'. } { pose proof (keeps_removeFromPool (mp_heap mp) (coinbase :: rest) (mp_main mp)) as Hk. by rewrite Hrun' in Hk. }
  exists (set_main m' mp), L'. split; [by apply (onMain_run (λ h, removeTransactionsFromPool h (coinbase :: rest)))|]. split; [done|]. split; [|done]. split; [eauto|done|done].
Qed.

Lemma newBlock_spec mp L txs : pool_inv mp L → block_ok mp txs → ∃ mp' r, HandleNewBlockTransactions range consensus txs mp = (mp', r) ∧ results mp mp' r (λ _, True).
Proof using HC HR HL.
  intros Hinv (coinbase & rest & -> & Hblock). destruct (removeTransactions_spec mp L coinbase rest Hinv Hblock) as (mp1 & L1 & Hrun1 & Hinv1 & Hr1 & Hh & _).
  unfold HandleNewBlockTransactions. rewrite (bind_ret_l _ _ _ _ _ Hrun1), (bind_ret_l _ _ mp1 mp1 rest) by apply withoutCoinbase_cons.
  destruct (handleLoop_spec rest [] mp1 L1 Hinv1) as (mp2 & r2 & Hrun2 & Hr2 & Hpost2); [intros p Hp; destruct (Hblock p Hp) as (tx & ? & _); rewrite Hh; eauto|].
  exists mp2, r2. split; [done|]. split; [by eapply reaches_trans|done].
Qed.

(** What happens to the pool: callers make transactions, submit them, and report blocks. *)
Inductive pool_step mp : mempool → Prop :=
  | step_new p tx : mp_heap mp !! p = None → D tx → pool_step mp (set_heap (<[p := tx]> (mp_heap mp)) mp)
  | step_insert now later p tx allowOrphan : mp_heap mp !! p = Some tx → pool_step mp (ValidateAndInsertTransaction range consensus now later p allowOrphan mp).1
  | step_block txs : block_ok mp txs → pool_step mp (HandleNewBlockTransactions range consensus txs mp).1
  | step_remove txs : block_ok mp txs → pool_step mp (RemoveTransactions txs mp).1.

Lemma step_inv mp mp' L : pool_inv mp L → pool_step mp mp' → ∃ L', pool_inv mp' L'.
Proof using HC HR HL.
  intros Hinv Hstep. inversion_clear Hstep as [p tx Hp HD|now later p tx allow Hp|txs Hb|txs Hb].
  - exists L. by apply alloc_inv.
  - destruct (insert_spec mp L now later p tx allow Hinv Hp) as (mp1 & r & -> & Hi & _). done.
  - destruct (newBlock_spec mp L txs Hinv Hb) as (mp1 & r & -> & Hr & _). apply Hr.
  - destruct Hb as (c & rest & -> & Hb). destruct (removeTransactions_spec mp L c rest Hinv Hb) as (mp1 & L1 & -> & Hi & _). eauto.
Qed.

Lemma new_inv now nonStd maxMass : pool_inv (mempool_New now nonStd maxMass) ∅.
Proof using Type.
  split; simpl.
  - split; simpl; try done.
    + intros id d [E|E]; by rewrite lookup_empty in E. + intros o p. rewrite lookup_empty. split; [done|]. intros (id & tx & E & _). by rewrite lookup_empty in E.
    + intros o e. rewrite lookup_empty. split; [done|]. intros (id & p & tx & E & _). by rewrite lookup_empty in E.
    + split; [by intros q ?%elem_of_nil|constructor].
  - split; simpl; try done. intros o id p. unfold redeems. simpl. rewrite lookup_empty. simpl. split; [done|]. intros (_ & otx & tx & E & _). by rewrite lookup_empty in E.
  - intros p tx E. by rewrite lookup_empty in E.
  - rewrite map_size_empty. unfold limit. lia.
  - rewrite map_size_empty. lia.
  - lia.
Qed.

(** A transaction none of whose inputs was made in the pool may be mined. *)
Lemma ready_to_mine mp L id p tx : pool_inv mp L → L !! id = Some p → mp_heap mp !! p = Some tx →
  is_Some (pool (mp_main mp) !! id) ∨ is_Some (chainedTransactions (mp_main mp) !! id) ∧ ∃ o, o ∈ spent tx ∧ is_Some (L !! op_TransactionID o).
Proof using HL.
  intros Hinv Hl Hp. pose proof (pi_main _ _ Hinv) as Hrep. destruct (pr_where _ _ _ _ _ Hrep id p Hl) as (d & [Hd|Hd]); [left; eauto|right]. split; [eauto|].
  destruct (pr_desc _ _ _ _ _ Hrep id d) as (desc & Hdesc & Hl'); [by right|]. assert (td_tx desc = p) as Ep by congruence. rewrite <- Ep in Hp. destruct (pr_count _ _ _ _ _ Hrep id d desc tx Hd Hdesc Hp) as [Hc Hpos].
  destruct (filter _ (spent tx)) as [|o l] eqn:Ef; [rewrite zlen_nil in Hc; lia|]. assert (o ∈ o :: l) as Hin by (by left). rewrite <- Ef in Hin. rewrite list_elem_of_filter in Hin. destruct Hin as [Ho Hin].
  exists o. split; [done|]. destruct (pr_parent _ _ _ _ _ Hrep o d Ho) as [Hs|[]%elem_of_nil]. by apply (unspent_creator _ _ _ _ _ Hrep).
Qed.
End Pool.

(** ** A small consensus

    Three transactions: [A] and [C] spend the same output of the DAG, [B] spends an output of [A].  Validation looks for the entries, and gives every transaction a fee and a mass. *)
Module MempoolSample.
Definition coin : DomainOutpoint := NewDomainOutpoint [0] 0.
Definition dag : utxoCollection := {[coin := NewUTXOEntry 100000 {| spk_Script := [81]; spk_Version := 0 |} false 7]}.
Definition pay (id : txID) (o : DomainOutpoint) : DomainTransaction :=
  {| tx_Version := 0; tx_Inputs := [{| in_PreviousOutpoint := o; in_SignatureScript := []; in_Sequence := 0; in_UTXOEntry := None |}];
     tx_Outputs := [{| out_Value := 50000; out_ScriptPublicKey := {| spk_Script := [81]; spk_Version := 0 |} |}]; tx_LockTime := 0; tx_SubnetworkID := SubnetworkIDNative; tx_Gas := 0; tx_Payload := [];
     tx_Fee := 0; tx_Mass := 0; tx_ID := Some id |}.
Definition A : DomainTransaction := pay [1] coin.
Definition B : DomainTransaction := pay [2] (NewDomainOutpoint [1] 0).
Definition C : DomainTransaction := pay [3] coin.
Definition rank (id : txID) : nat := Z.to_nat (default 0 (head id)).

Record D (tx : DomainTransaction) : Prop := {
  sd_shape : ∃ a, a ∈ [A; B; C] ∧ tx_ID tx = tx_ID a ∧ spent tx = spent a ∧ tx_Outputs tx = tx_Outputs a;
  sd_entries i e : i ∈ tx_Inputs tx → in_UTXOEntry i = Some e → are_bytes (spk_Script (ue_scriptPublicKey e))
}.

Definition consensus (tx : DomainTransaction) : DomainTransaction * outcome txError unit :=
  match PopulateTransactionWithUTXOEntries dag tx with
  | (tx, Ret _) => (set_Mass 100 (set_Fee 2000 tx), Ret ())
  | r => r
  end.

Lemma populate_spec inputs : let '(l, missing) := populateInputs dag None inputs in
  map in_PreviousOutpoint l = map in_PreviousOutpoint inputs ∧ (∀ j, j ∈ l → missing = [] → is_Some (in_UTXOEntry j)) ∧
  (∀ j e, j ∈ l → in_UTXOEntry j = Some e → (∃ i, i ∈ inputs ∧ in_UTXOEntry i = Some e) ∨ ∃ o, dag !! o = Some e).
Proof.
  induction inputs as [|i inputs IH]; simpl; [split_and!; [done|by intros ? ?%elem_of_nil|by intros ? ? ?%elem_of_nil]|]. destruct (populateInputs dag None inputs) as [l missing]. destruct IH as (E & Hs & He). unfold populateInput.
  destruct (in_UTXOEntry i) as [x|] eqn:Ei; [|destruct (dag !! in_PreviousOutpoint i) as [x|] eqn:Ed]; simpl; rewrite E; (split; [done|split]).
  - intros j [->|Hj]%elem_of_cons Hm; [by rewrite Ei|by apply Hs].
  - intros j e [->|Hj]%elem_of_cons Hje; [left; exists i; split; [by left|done]|]. destruct (He j e Hj Hje) as [(i' & ? & ?)|?]; [left; exists i'; split; [by right|done]|by right].
  - intros j [->|Hj]%elem_of_cons Hm; [by eexists|by apply Hs].
  - intros j e [->|Hj]%elem_of_cons Hje; [simpl in Hje; right; exists (in_PreviousOutpoint i); congruence|]. destruct (He j e Hj Hje) as [(i' & ? & ?)|?]; [left; exists i'; split; [by right|done]|by right].
  - intros j _ [=].
  - intros j e [->|Hj]%elem_of_cons Hje; [congruence|]. destruct (He j e Hj Hje) as [(i' & ? & ?)|?]; [left; exists i'; split; [by right|done]|by right].
Qed.

Lemma dag_bytes o e : dag !! o = Some e → are_bytes (spk_Script (ue_scriptPublicKey e)).
Proof. unfold dag. intros [_ <-]%lookup_singleton_Some. by repeat constructor. Qed.
Lemma D_outputs tx out : D tx → out ∈ tx_Outputs tx → are_bytes (spk_Script (out_ScriptPublicKey out)).
Proof. intros [(a & Ha & _ & _ & ->) _]. rewrite !elem_of_cons, elem_of_nil in Ha. destruct Ha as [->|[->|[->|[]]]]; simpl; intros ->%list_elem_of_singleton; by repeat constructor. Qed.

#[global] Instance consensus_ok : ConsensusOk rank D consensus.
Proof.
  assert (∀ tx, D tx → same_shape tx (consensus tx).1 ∧ D (consensus tx).1) as Hshape.
  { intros tx HD. unfold consensus, PopulateTransactionWithUTXOEntries, populateTransactionWithUTXOEntriesFromVirtualOrDiff. pose proof (populate_spec (tx_Inputs tx)) as Hp. destruct (populateInputs dag None (tx_Inputs tx)) as [l missing].
    destruct Hp as (E & _ & He). assert (∀ j e, j ∈ l → in_UTXOEntry j = Some e → are_bytes (spk_Script (ue_scriptPublicKey e))) as Hb.
    { intros j e Hj Hje. destruct (He j e Hj Hje) as [(i & Hi & Hie)|(o & Ho)]; [by apply (sd_entries _ HD i)|by apply (dag_bytes o)]. }
    destruct (sd_shape _ HD) as (a & Ha & Hid & Hsp & Hout). destruct (orMissing missing ()); (split; [split_and!; [unfold txid, TransactionID; simpl; rewrite Hid; by set_unfold in Ha; destruct Ha as [->|[->|[->|[]]]]|exact E|done]|]);
      (split; [exists a; split_and!; [done|done|etransitivity; [exact E|done]|done]|exact Hb]). }
  split.
  - intros tx HD. destruct (sd_shape _ HD) as (a & Ha & Hid & Hsp & Hout). set_unfold in Ha. destruct Ha as [->|[->|[->|[]]]]; (split; [rewrite Hout; done|]); rewrite Hsp; intros o ->%list_elem_of_singleton; unfold txid, TransactionID; rewrite Hid; vm_compute; lia.
  - intros tx HD. split; [intros; by apply (D_outputs tx)|apply HD].
  - done.
  - intros tx c HD. unfold consensus, PopulateTransactionWithUTXOEntries, populateTransactionWithUTXOEntriesFromVirtualOrDiff. destruct (populateInputs _ _ _) as [l missing]. by destruct missing.
  - intros tx HD Hret. split; [destruct (sd_shape _ HD) as (a & Ha & _ & -> & _); set_unfold in Ha; destruct Ha as [->|[->|[->|[]]]]; apply NoDup_singleton|].
    revert Hret. unfold consensus, PopulateTransactionWithUTXOEntries, populateTransactionWithUTXOEntriesFromVirtualOrDiff. pose proof (populate_spec (tx_Inputs tx)) as Hp. destruct (populateInputs dag None (tx_Inputs tx)) as [l missing].
    destruct Hp as (_ & Hs & _). destruct missing as [|o missing]; [|done]. intros _ i Hi. by apply Hs.
  - intros tx HD. unfold consensus. destruct (PopulateTransactionWithUTXOEntries dag tx) as [tx' [[]|e|c]]; simpl; [lia|done|done].
  - intros tx missing HD. unfold consensus, PopulateTransactionWithUTXOEntries, populateTransactionWithUTXOEntriesFromVirtualOrDiff. destruct (populateInputs _ _ _) as [l [|o missing']]; [done|]. simpl. by intros [= <-].
  - intros tx f HD Hf tx'. assert (spent tx' = spent tx) as Esp by (unfold spent, tx'; simpl; rewrite map_map; apply map_ext; intros i; by destruct (f _)).
    destruct (sd_shape _ HD) as (a & Ha & Hid & Hsp & Hout). split; [|unfold txid, TransactionID; simpl; rewrite Hid; by set_unfold in Ha; destruct Ha as [->|[->|[->|[]]]]]. split; [exists a; split_and!; [done|done|congruence|done]|].
    intros j e (i & -> & Hi)%list_elem_of_fmap. destruct (f (in_PreviousOutpoint i)) as [x|] eqn:Ef; [|by apply (sd_entries _ HD i)]. simpl. intros [= <-]. destruct (Hf _ _ Ef) as (b & HDb & Hin).
    unfold outs in Hin. destruct (sd_shape _ HDb) as (c & Hc & _ & _ & Eo). rewrite Eo in Hin. set_unfold in Hc. destruct Hc as [->|[->|[->|[]]]]; simpl in Hin; apply list_elem_of_singleton in Hin as [= _ ->]; by repeat constructor.
Qed.

Definition range A (m : gmap txID A) : list (txID * A) := map_to_list m.
#[global] Instance range_ok : RangeOk range.
Proof. intros T m. reflexivity. Qed.

(** The pool is made, [A] and [B] are submitted, and [C] arrives. *)
Definition put (p : pointer) (tx : DomainTransaction) (mp : mempool) : mempool := set_heap (<[p := tx]> (mp_heap mp)) mp.
Definition submit (p : pointer) (mp : mempool) : mempool := (ValidateAndInsertTransaction range consensus 0 0 p true mp).1.
Definition empty_pool : mempool := mempool_New 0 true 1000000.
Definition pool_A : mempool := submit 0 (put 0 A empty_pool).
Definition pool_AB : mempool := submit 1 (put 1 B pool_A).
Definition pool_ABC : mempool := put 2 C pool_AB.

Lemma member a : a ∈ [A; B; C] → D a.
Proof. intros Ha. split; [by exists a|]. set_unfold in Ha. destruct Ha as [->|[->|[->|[]]]]; intros i e ->%list_elem_of_singleton; done. Qed.
Lemma sample_steps : rtc (pool_step D consensus range) empty_pool pool_ABC.
Proof.
  eapply rtc_l; [apply (step_new D consensus range _ 0 A); [done|apply member; set_solver]|]. eapply rtc_l; [apply (step_insert D consensus range _ 0 0 0 A true); by vm_compute|].
  eapply rtc_l; [apply (step_new D consensus range _ 1 B); [by vm_compute|apply member; set_solver]|]. eapply rtc_l; [apply (step_insert D consensus range _ 0 0 1 B true); by vm_compute|].
  apply rtc_once. apply (step_new D consensus range _ 2 C); [by vm_compute|apply member; set_solver].
Qed.
Lemma sample_inv : ∃ L, pool_inv rank D pool_ABC L.
Proof.
  pose proof (new_inv rank D 0 true 1000000) as H0. pose proof sample_steps as Hsteps. fold empty_pool in H0. revert H0. generalize (∅ : gmap txID pointer) as L0. induction Hsteps as [s|s1 s2 s3 Hs _ IH]; intros L0 H0; [by exists L0|].
  destruct (step_inv rank D consensus range s1 s2 L0 H0 Hs) as [L1 H1]. by apply (IH L1).
Qed.
End MempoolSample.

Module MempoolProps.




(** C22: [removeDoubleSpends] returns without an error and removes from the pool exactly the transactions that spend an outpoint of the given transaction and have another id, and all that depend on them; the
    pool without them is consistent. *)
Theorem conflicts_removed `{Libs} (rank : txID → nat) (h : gmap pointer DomainTransaction) (m : mainPool) (L : gmap txID pointer) (p : pointer) (tx : DomainTransaction) :
  pool_rep rank h m L [] → h !! p = Some tx →
  ∃ m' L', removeDoubleSpends h p m = (m', Ret ()) ∧ pool_rep rank h m' L' [] ∧
    ∀ id q, L' !! id = Some q ↔ L !! id = Some q ∧ ¬ ∃ r, conflicts h L (spent tx) (txid tx) r ∧ depends h L r q.
Proof. apply removeDoubleSpends_spec. Qed.

Lemma conflicts_removed_witness : ∃ L m' L', pool_rep MempoolSample.rank (mp_heap MempoolSample.pool_ABC) (mp_main MempoolSample.pool_ABC) L [] ∧ removeDoubleSpends (mp_heap MempoolSample.pool_ABC) 2 (mp_main MempoolSample.pool_ABC) = (m', Ret ()) ∧
  pool_rep MempoolSample.rank (mp_heap MempoolSample.pool_ABC) m' L' [] ∧ orderedTransactionsByFeeRate m' = [].
Proof.
  destruct MempoolSample.sample_inv as [L Hinv]. exists L.
  destruct (conflicts_removed MempoolSample.rank (mp_heap MempoolSample.pool_ABC) (mp_main MempoolSample.pool_ABC) L 2 MempoolSample.C) as (m' & L' & Hrun & Hrep & _); [apply Hinv|by vm_compute|].
  exists m', L'. split; [apply Hinv|]. split; [done|]. split; [done|]. assert (m' = (removeDoubleSpends (mp_heap MempoolSample.pool_ABC) 2 (mp_main MempoolSample.pool_ABC)).1) as -> by (by rewrite Hrun). by vm_compute.
Defined.

(** C23: when the transactions of a block leave the pool, exactly they are removed: what depends on them stays, and every transaction that is left is ready to be mined unless one of its inputs has the id of
    a transaction that is still in the pool. *)
Theorem mined_removed `{Libs} (rank : txID → nat) (D : DomainTransaction → Prop) (mp : mempool) (L : gmap txID pointer) (coinbase : pointer) (rest : list pointer) :
  pool_inv rank D mp L → (∀ p, p ∈ rest → ∃ tx, mp_heap mp !! p = Some tx ∧ chainedTransactions (mp_main mp) !! txid tx = None) →
  ∃ mp' L', RemoveTransactions (coinbase :: rest) mp = (mp', Ret ()) ∧ pool_inv rank D mp' L' ∧
    (∀ id q, L' !! id = Some q ↔ L !! id = Some q ∧ ∀ p tx, p ∈ rest → mp_heap mp !! p = Some tx → txid tx ≠ id) ∧
    (∀ id q tx, L' !! id = Some q → mp_heap mp' !! q = Some tx → (∀ o, o ∈ spent tx → L' !! op_TransactionID o = None) → is_Some (pool (mp_main mp') !! id)).
Proof.
  intros Hinv Hb. destruct (removeTransactions_spec rank D mp L coinbase rest Hinv Hb) as (mp' & L' & Hrun & Hinv' & _ & _ & HL'). exists mp', L'. split_and!; [done|done|done|].
  intros id q tx Hq Hp Hno. destruct (ready_to_mine rank D mp' L' id q tx Hinv' Hq Hp) as [?|[_ (o & Ho & [x Hx])]]; [done|]. rewrite (Hno o Ho) in Hx. done.
Qed.

Lemma mined_removed_witness : ∃ mp' L', RemoveTransactions [2%nat; 0%nat] MempoolSample.pool_ABC = (mp', Ret ()) ∧ pool_inv MempoolSample.rank MempoolSample.D mp' L' ∧ map fst (map_to_list (pool (mp_main mp'))) = [[2]].
Proof.
  destruct MempoolSample.sample_inv as [L Hinv]. destruct (mined_removed MempoolSample.rank MempoolSample.D MempoolSample.pool_ABC L 2 [0%nat] Hinv) as (mp' & L' & Hrun & Hinv' & _).
  - intros p ->%list_elem_of_singleton. eexists. split; [vm_compute; reflexivity|by vm_compute].
  - exists mp', L'. split; [done|]. split; [done|]. assert (mp' = (RemoveTransactions [2%nat; 0%nat] MempoolSample.pool_ABC).1) as -> by (by rewrite Hrun). by vm_compute.
Defined.
End MempoolProps.

(** ** Where the code departs from what it means to do *)
Module MempoolFindings.
Import MempoolSample.

(** [RemoveTransactions] takes the first transaction for a coinbase: called with one transaction it removes nothing, and without any it panics. *)
Example remove_skips_first : RemoveTransactions [0%nat] pool_ABC = (pool_ABC, Ret ()) ∧ (RemoveTransactions [] pool_ABC).2 = Crash IndexOutOfRange.
Proof. split; vm_compute; reflexivity. Qed.

(** A transaction whose mass is 0, as that of a coinbase is: it is in the pool and in the UTXO set of the pool when the error comes, and not in the list by fee rate. *)
Definition massless (tx : DomainTransaction) : DomainTransaction * outcome txError unit := let '(tx, r) := consensus tx in (set_Mass 0 tx, r).
Example massless_stays :
  let '(mp, r) := ValidateAndInsertTransaction range massless 0 0 0 true (put 0 A empty_pool) in
  r = Fail ErrNotPopulated ∧ map fst (map_to_list (pool (mp_main mp))) = [[1]] ∧ map fst (map_to_list (transactionByPreviousOutpoint (mp_main mp))) = [coin] ∧ orderedTransactionsByFeeRate (mp_main mp) = [].
Proof. vm_compute. done. Qed.

(** An orphan keeps the entries it got from the pool: [E] spends outputs of [A] and of [F].  It comes when only [A] is there, [C] takes the place of [A] in a block, and with [F] the orphan is accepted although
    the output of [A] is nowhere. *)
Definition other_coin : DomainOutpoint := NewDomainOutpoint [0] 1.
Definition wider (tx : DomainTransaction) : DomainTransaction * outcome txError unit :=
  match PopulateTransactionWithUTXOEntries (<[other_coin := NewUTXOEntry 100000 {| spk_Script := [81]; spk_Version := 0 |} false 7]> dag) tx with
  | (tx, Ret _) => (set_Mass 100 (set_Fee 2000 tx), Ret ())
  | r => r
  end.
Definition F : DomainTransaction := pay [4] other_coin.
Definition E : DomainTransaction := set_Inputs (tx_Inputs (pay [5] (NewDomainOutpoint [1] 0)) ++ tx_Inputs (pay [5] (NewDomainOutpoint [4] 0))) (pay [5] coin).
Definition next (p : pointer) (mp : mempool) : mempool := (ValidateAndInsertTransaction range wider 0 0 p true mp).1.
Definition history : mempool :=
  let mp := next 1 (put 1 E (next 0 (put 0 A empty_pool))) in
  let mp := (HandleNewBlockTransactions range wider [0%nat; 2%nat] (put 2 C mp)).1 in
  next 3 (put 3 F mp).
Example orphan_with_old_entry : map fst (map_to_list (pool (mp_main history))) = [[4]] ∧ map fst (map_to_list (chainedTransactions (mp_main history))) = [[5]] ∧
  poolUnspentOutputs (mp_main history) !! NewDomainOutpoint [1] 0 = None.
Proof. vm_compute. done. Qed.

(** An output of a public key is dust below 600 sompi, not below 546. *)
Definition to_key (value : Z) : DomainTransactionOutput := {| out_Value := value; out_ScriptPublicKey := {| spk_Script := 32 :: replicate 32 7 ++ [172]; spk_Version := 0 |} |}.
Example dust_limit : isDust (to_key 599) 1000 = true ∧ isDust (to_key 600) 1000 = false.
Proof. vm_compute. done. Qed.

(** A relative lock on an output of the pool counts from the DAA score -1. *)
Example lock_of_unaccepted v cs pov : lockOfInput v cs pov 10 unacceptedDAAScore {| Milliseconds := -1; BlockDAAScore := -1 |} = Ret {| Milliseconds := -1; BlockDAAScore := 8 |}.
Proof. reflexivity. Qed.
End MempoolFindings.
